(* ===== verification/_CoqProject ===== *)
-Q . S2P
Prelude.v
PathUtil.v
PathSegments.v
PathPosix.v
PathPosixProps.v
PathPosixRelative.v
PathPosixParse.v
PathPosixTheorems.v
PathCommon.v
PathWin32.v
PathWin32Props.v
PathWin32Parse.v
PathWin32Theorems.v
FixedQueue.v
NextTick.v
StringDecoder.v
StringDecoderProps.v
StringDecoderTheorems.v
Kv.v
KvList.v
KvTheorems.v
Cron.v
BufferBinding.v
BufferTheorems.v
Encoders.v
Diff.v
DiffProps.v
DiffTheorems.v
AsyncHooks.v
AsyncHooksProps.v
JsNumber.v
StreamBase.v
ReadableStream.v
ReadableStreamProps.v
ReadableStreamInv.v
ReadableStreamSteps.v
ReadableStreamTheorems.v
WritableStream.v
WritableStreamProps.v
WritableStreamInv.v
WritableStreamSteps.v
WritableStreamRuns.v
WritableStreamTheorems.v
Infra.v
Mime.v
MimeTheorems.v
Headers.v
HeadersTheorems.v
WebIdl.v
WebIdlTheorems.v
Blob.v
BlobTheorems.v
EventTarget.v
EventTheorems.v
EventTree.v
AbortSignal.v
AbortTheorems.v
BufferInts.v
BufferIntsTheorems.v
BufferOps.v
BufferOpsTheorems.v
BufferStrings.v
BufferStringsTheorems.v
NodeEvents.v
NodeEventsProps.v
NodeEventsSteps.v
NodeEventsTheorems.v
NodeEventsOn.v
FormData.v
FormDataProps.v
FormDataParse.v
FormDataTheorems.v
Crypto.v
CryptoKeys.v
SubtleCrypto.v
CryptoProps.v
CryptoTheorems.v
CryptoWrap.v
CryptoExamples.v
EventSource.v
