(* ===== verification/Prelude.v ===== *)
(** * Verification of the JavaScript and TypeScript runtime code of Deno

    Deno runs JavaScript and TypeScript.  Its core is Rust ([src/cli],
    [src/runtime], the crates under [src/ext]); what a program calls is written in
    JavaScript and TypeScript on top of it: the modules of Node
    ([src/ext/node/polyfills]), the web APIs ([src/ext/web]), the key-value store
    ([src/ext/kv/01_db.ts]), the scheduler ([src/ext/cron/01_cron.ts]).  This
    development models modules that carry logic of their own, as functions on
    explicit state, and proves what makes each of them correct.

    ** Parts and files

    Everything rests on [Prelude]: JavaScript strings as lists of UTF-16 code
    units, [slice] and the other string functions, values and thrown errors
    ([jsval], [js_error], the error monad [jsres] with [let?]), loops
    ([for_up], [for_down] with [ctl] for [break]), tactics and hints.

    - Paths.  [PathUtil]: [path/_util.ts] and [path/_constants.ts];
      [PathSegments]: paths as lists of segments, the specification side;
      [PathPosix]: [path/_posix.ts], every function; [PathPosixProps],
      [PathPosixRelative], [PathPosixParse], [PathPosixTheorems]: its theory;
      [PathCommon]: [path/common.ts]; [PathWin32]: [path/_win32.ts], every
      function; [PathWin32Props], [PathWin32Parse], [PathWin32Theorems]: its
      theory.  The Windows module calls the helpers of [PathUtil] as the POSIX
      one does, and the lemmas on them are shared.
    - Ticks.  [FixedQueue]: [internal/fixed_queue.ts], its linked ring buffers in
      a store, and the queue interface other modules see; [NextTick]:
      [_next_tick.ts], proved against that interface only.
    - Text and bytes.  [StringDecoder] ([string_decoder.ts] and
      [normalizeEncoding] of [_utils.ts]), [StringDecoderProps],
      [StringDecoderTheorems]; [BufferBinding] ([internal_binding/buffer.ts],
      [internal_binding/_utils.ts], [internal_binding/_timingSafeEqual.ts]) and
      [BufferTheorems]; [Encoders] ([internal/querystring.ts],
      [internal/idna.ts]).
    - Buffers ([internal/buffer.mjs]).  [BufferInts]: reading and writing
      integers; [BufferIntsTheorems]; [BufferOps]: allocation, comparison, copies
      between views of shared memory, concatenation, swaps; [BufferOpsTheorems];
      [BufferStrings]: strings in all encodings, [fill], searching, and
      [internal/normalize_encoding.mjs], with the dropping of a byte order mark
      ([op_encoding_decode_utf8] of [ext/web/lib.rs]); [BufferStringsTheorems],
      where the codecs are classes of laws ([Utf8Encoder], [Codecs]) and the string
      decoder runs on the [toString] of buffers ([node_slice]).
    - Storage and scheduling.  [Kv] ([ext/kv/01_db.ts]: values, reads, writes,
      atomic operations, the list iterator, the queue listener with the outcomes of
      ops and handlers as events, the watch stream); [KvList], with the read op of
      [ext/kv/lib.rs]; [KvTheorems]; [Cron] ([ext/cron/01_cron.ts]).
    - Differences.  [Diff]: [diff] of [_util/std_testing_diff.ts]; [DiffProps]:
      the search; [DiffTheorems]: the result.
    - Web streams ([ext/web/06_streams.js]).  [JsNumber]: JavaScript numbers with
      binary64 rounding; [StreamBase]: the state and exception monad, deferred
      promises, the linked queue, queues with sizes; [ReadableStream]: readable
      streams with their default controller and reader, [ReadableStreamProps] (the
      invariant), [ReadableStreamInv], [ReadableStreamSteps] (preservation) and
      [ReadableStreamTheorems]; [WritableStream]: writable streams with their
      controller and writer, [WritableStreamProps], [WritableStreamInv],
      [WritableStreamSteps], [WritableStreamRuns], [WritableStreamTheorems].  A
      stream is a record of its fields and its controller's; the callbacks of the
      source, sink and strategy are scripts of operations on the same stream, run
      while the stream code is on the stack; the reactions to their promises wait
      in [jobs] and an event settles one of them, in any order.
    - Web helpers.  [Infra]: [ext/web/00_infra.js]; [Mime]
      ([ext/web/01_mimesniff.js]) and [MimeTheorems]; [Headers]
      ([ext/fetch/20_headers.js]) and [HeadersTheorems]; [WebIdl] (the numbers of
      [ext/webidl/00_webidl.js]) and [WebIdlTheorems]; [Blob]
      ([ext/web/09_file.js], the ops and parts of [ext/web/blob.rs]) and
      [BlobTheorems]; [FormData] ([ext/fetch/21_formdata.js] and the form data of
      [ext/fetch/22_body.js]: entries, the multipart serializer and parser),
      [FormDataProps], [FormDataParse], [FormDataTheorems]; [EventSource]
      ([ext/fetch/27_eventsource.js]: lines of chunked text, event sources as a
      state machine, with listeners that may close them).
    - Web Crypto ([ext/crypto/00_crypto.js]).  [Crypto]: the registry and
      normalization of algorithms, key objects and the key store, in a heap with
      the arrays, objects and buffers that scripts can reach; [CryptoKeys]:
      generating, importing and exporting keys of every algorithm; [SubtleCrypto]:
      the methods, with what other code does at their awaits as arguments;
      [CryptoProps]: what every method keeps, as triples; [CryptoTheorems]:
      programs of scripts and calls, and the theorems about them;
      [CryptoWrap]: normalizing twice, wrapping and unwrapping, with the ops that
      encrypt and decrypt with AES keys ([Ciphers]: [ext/crypto/encrypt.rs],
      [decrypt.rs], [lib.rs]) over the crates they call; [CryptoExamples]: ops that compute, witnesses, departures from
      the standard.
    - Events.  [EventTarget]: [ext/web/02_event.js], events, event paths, dispatch;
      [EventTheorems]: one target; [EventTree]: trees; [AbortSignal]
      ([ext/web/03_abort_signal.js]) and [AbortTheorems], on top of the model of
      events.  [NodeEvents]: the emitters of [_events.mjs], with user code as
      programs; [NodeEventsProps]: the invariants of the heap, [NodeEventsSteps]:
      every operation keeps them, [NodeEventsTheorems]; [NodeEventsOn]: the
      iterator over events.
    - Async context.  [AsyncHooks]: [async_hooks.ts]; [AsyncHooksProps]: its
      specification and the refinement.

    Definitions keep the names of the source; a name with the suffix [_str] is
    the string computation of a function without its argument check, a name with
    the suffix [_body], [_step] or [_loop] a piece of a loop.

    ** What is proved

    - Paths: the one-pass [normalizeString] computes the resolution of segments
      on a stack; [resolve] is a sequence of [cd]; [relative] inverts [resolve];
      [normalize] is idempotent; [format] inverts [parse]; [parse], [basename],
      [extname] and [dirname] agree, on both systems; a Windows [normalize]
      stays inside its drive, [resolve] is absolute, [join] makes up no UNC path;
      [common] is the longest common prefix.
    - Ticks: the queue refines a list, for values other than undefined; ticks run
      in order with their arguments, in every state user code can reach; draining
      ends.
    - Text and bytes: decoding in chunks is [toString] of the whole, when UTF-8 has
      no byte order marks; searches, hex, UTF-16, UCS-2 and percent encodings
      against reference definitions.
    - Buffers: integers of every width are read and written as reference
      definitions say, errors included, and survive both; a copy moves the bytes
      that were there, between overlapping views too; comparison is the
      lexicographic order; text round-trips in the encodings; [fill], [concat],
      the swaps and [write] do what they say and stay in range.
    - Web helpers: MIME types and headers against reference definitions and a
      multimap, integer conversion against the standard's arithmetic, with the
      cases where a zero has the other sign, blobs
      keep their bytes through slices, stores and URLs; the methods of form data
      are list operations, and form data comes back from its multipart
      serialization; an event source dispatches the events of the text it is sent,
      with the response's URL as their origin, however it is cut into chunks, up to
      the first whose listeners close it, and none afterwards.
    - Web Crypto, whatever scripts do to the objects they hold and whatever runs
      while a method waits: a key that is not extractable stays so, is not
      wrapped, and not exported unless a script has hidden the accessor, as long as
      no script writes the slots of keys, which are ordinary properties; a method
      that returns had a key with the usage and the algorithm for it; an imported
      or generated key has the usages, type, extractability and length it may
      have; a wrapped key unwraps to the same data (AES-GCM with its full tag).
    - Events, whatever the listeners do: dispatch calls them in order, at most
      once; aborting reaches every dependent signal; [emit] calls the listeners
      that were listed when it started, in order, up to the first that throws; the
      counts of an emitter are right.  With callbacks that neither throw, stop the
      event nor change listeners: the phases of a tree.  With code that leaves
      signals alone: [AbortSignal.any] follows its sources.  With user code that does
      not add [once] wrappers again: [once] listeners are called at most once.
      Without [newListener] and [removeListener] listeners: the slots of an emitter
      stand for lists.  With no handler called after the end: the iterator over
      events gives each call its event.
    - Store: listing enumerates the range, in batches of up to the 1000 entries that
      the op allows, and resumes from a cursor, values
      round-trip, [commit] can be repeated, messages are finished once with the
      outcome of their handlers, the watch stream is up to date, options are
      validated.
    - [diff] returns a shortest edit script (its common entries are a longest
      common subsequence), with no write outside its route buffer.
    - [AsyncLocalStorage] without [enterWith] is dynamic scoping.
    - Streams, for all scripts and all sequences of events: no assertion of the
      code fails; chunks are delivered and written in order and once, and the
      promises of [read] and [write] say so; no read and no write is forgotten;
      backpressure is what the writer's ready promise shows; the source and the
      sink are called one call at a time; the queue's total stays a non-negative
      number under rounding.  The size callback of a readable stream must not call
      it for the order of chunks; the abort signal of a writable stream must have no
      listener that calls the stream.

    Where the code does not do what it means to, the lemma that shows it stands
    beside the model: [basename_keeps_slashes], [normalize_makes_drive],
    [undefined_blocks_shift], [write_ignores_view], [utf16_breaks_pair],
    [overlapping_next_repeats], [exhausted_cursor_restarts],
    [lastIndexOf_misses], [timingSafeEqual_wrong], [run_leaks_enterWith],
    [exit_wraps_arguments], [reentrant_size_overtakes],
    [write_while_closing_errors], [abort_listener_breaks_assertion],
    [listener_leaves_pending], [chunk_bom_lost], [undecodable_never_finished],
    [octet_negative_zero], [remove_ignores_capture], [throw_skips_listeners],
    [ancestors_skipped], [any_in_listener_throws], [timer_let_go],
    [fractions_tear], [copy_negative_count], [compare_checks_wrong_bound],
    [write_zero_length], [removeAll_throws], [removal_names_wrapper],
    [readded_wrapper_fires_twice], [endless_emit_throws], [abort_after_return],
    [event_after_return], [throw_hangs], [name_injects_filename], [name_cut_at_equals],
    [empty_names_lost], [quotes_stay_escaped], [nul_in_name_throws],
    [long_boundary_cut], [origin_is_url], [slots_can_be_written],
    [short_tag_not_decrypted], [hidden_extractable], [usages_can_be_added],
    [exported_buffer_is_shared], [key_ops_reversed], [any_iv_passes],
    [decrypt_name_error], [derived_before_checked], [iv_read_late], [retry_any_number],
    [type_in_parameter].

    ** Parameters

    Code that is not modelled (of the engine, of other packages, and the Rust ops but
    for those named above) is an argument of the definitions that use it,
    with what the code relies on as named hypotheses: [Deno.cwd], [Deno.env.get]
    and [toLowerCase] for paths; the codecs of UTF-8 and base64 for buffers and the
    string decoder; the properties of nodes,
    weak references, timers and abort algorithms for events; [ToNumber] and
    [Math.fround] for numbers; text coding, random numbers and the clock for form
    data; the ops of the Rust crate ([crypto_ops]; [wrap_unwrap] models those that
    encrypt and decrypt, over the ciphers of other crates with the laws
    [CrateLaws]), [toUpperCase] and JSON for Web Crypto; the database, the coding of
    selectors and cursors and structured cloning for the store; callbacks, promise jobs and event sequences, which are user code, as small programs
    ([prog]) over which the theorems quantify.  Theorems with such hypotheses
    have a witness that instantiates them.

    ** Loops and fuel

    A [for] loop has its own bound ([for_up], [for_down]).  Loops that have none
    take fuel, and the theorems say how much is enough: the drain of
    [NextTick] the work left plus two, the iteration of [KvList] the length of
    the range plus one, [findLastIndex] the square of the length plus one,
    [encodeStr] and [ucs2decode] the length of the string, [diff] the number of
    points of the edit graph, [(|A| + 1) * (|B| + 1)], plus one, the loops over
    header and MIME text their length plus one, an event path more than the
    number of ancestors, aborting two levels, since dependents have none.
    Emitters run user code that emits again, so the fuel of [emit_fuel] is the
    depth of the call stack: when it is used up a call throws a RangeError, as the
    engine does, so that every run has a result, and the theorems hold for stacks of
    any depth.  The nesting of
    stream callbacks is bounded by the scripted calls that are left ([depth]),
    and [nesting_bound_unreached] and [ws_nesting_bound_unreached] show that the
    bound is never met.  Integers are
    [Z], with their width written out where it matters ([Uint32Array] routes,
    32-bit shifts, 64-bit [KvU64]).

    ** Not modelled, and next

    Sockets, HTTP, DNS, child processes, the file system and the cryptography of
    Node are thin layers over native ops; the Rust crates are in another language.
    Of Web Crypto, [getRandomValues] and [randomUUID] are left out.  Of
    buffers, floats, [Buffer.from] of objects and inspection, of events the
    subclasses of [Event] and handler attributes, of emitters the promise of
    [once] are left out.  Of the
    web streams, byte streams and BYOB readers, tee, pipes, transform streams and
    async iteration are left out.  In [std_testing_diff.ts], [diffstr] and [buildMessage]
    are left out (regular expressions with Unicode classes, colours).  Planned
    next: the legacy URL API ([url.ts]), deep equality
    ([internal/util/comparisons.ts]), [URLSearchParams], transform streams and pipes, the outgoing message state machine
    ([_http_outgoing.ts]), the bind and send queue of [dgram.ts], [relative] on
    Windows. *)

From Stdlib Require Import ZArith Lia.
From stdpp Require Import base list strings numbers option sets.

#[local] Open Scope Z_scope.

(** ** JavaScript strings

    A JavaScript string is a sequence of UTF-16 code units; [str] is the list of
    them.  [lit] turns an ASCII literal of the source into that list. *)

Abbreviation str := (list Z).

Definition lit (s : string) : str :=
  map (fun a => Z.of_N (Ascii.N_of_ascii a)) (String.list_ascii_of_string s).

Declare Scope js_scope.
Delimit Scope js_scope with js.
Open Scope js_scope.
#[global] Arguments lit s%_string : simpl never.

(** [s.length] *)
Definition slen {A} (s : list A) : Z := Z.of_nat (length s).

(** [s.charCodeAt(i)]: [None] is the [NaN] JavaScript returns out of range (a
    code that was never assigned, [undefined], is [None] too: both compare
    unequal to every code). *)
Definition charCodeAt (s : str) (i : Z) : option Z :=
  if i <? 0 then None else s !! Z.to_nat i.

(** [a === b] for a possibly absent code and a constant. *)
Definition code_is (a : option Z) (c : Z) : bool :=
  match a with Some x => x =? c | None => false end.

(** Equality of strings as a boolean. *)
Definition str_eqb (a b : str) : bool := bool_decide (a = b).

(** The clamping of an index argument of [slice] and [subarray]. *)
Definition clamp_index (n i : Z) : Z :=
  if i <? 0 then Z.max 0 (n + i) else Z.min i n.

(** [s.slice(a, b)] on strings and arrays, negative indices included. *)
Definition slice {A} (s : list A) (a b : Z) : list A :=
  let n := slen s in
  let lo := clamp_index n a in
  let hi := clamp_index n b in
  take (Z.to_nat (hi - lo)) (drop (Z.to_nat lo) s).

(** [s.slice(a)] *)
Definition sliceFrom {A} (s : list A) (a : Z) : list A := slice s a (slen s).

(** Whether [p] is a prefix of [s]. *)
Fixpoint starts_with (p s : str) : bool :=
  match p, s with
  | [], _ => true
  | _ :: _, [] => false
  | x :: p', y :: s' => (x =? y) && starts_with p' s'
  end.

(** [s.lastIndexOf(p)]: the last position where [p] occurs, or -1. *)
Fixpoint lastIndexOf_from (s p : str) (i acc : Z) : Z :=
  let acc' := if starts_with p s then i else acc in
  match s with
  | [] => acc'
  | _ :: s' => lastIndexOf_from s' p (i + 1) acc'
  end.
Definition lastIndexOf (s p : str) : Z := lastIndexOf_from s p 0 (-1).

(** [s.indexOf(c)] for a one-unit needle. *)
Fixpoint indexOf_from (s : str) (c i : Z) : Z :=
  match s with
  | [] => -1
  | x :: s' => if x =? c then i else indexOf_from s' c (i + 1)
  end.
Definition indexOf (s : str) (c : Z) : Z := indexOf_from s c 0.

(** [parts.join(sep)] *)
Fixpoint js_join (sep : str) (parts : list str) : str :=
  match parts with
  | [] => []
  | [p] => p
  | p :: ps => p ++ sep ++ js_join sep ps
  end.

(** Splitting at every code that satisfies [f]; the result is never empty.  With
    a one-unit separator this is [s.split(sep)]. *)
Fixpoint split_on (f : Z -> bool) (s : str) : list str :=
  match s with
  | [] => [[]]
  | c :: s' =>
      if f c then [] :: split_on f s'
      else match split_on f s' with
           | [] => [[c]]
           | seg :: segs => (c :: seg) :: segs
           end
  end.

(** ** Values and errors

    [jsval] is what a TypeScript signature does not exclude at run time: the
    argument checks of the code tell strings from the rest. *)

Inductive jsval :=
  | VUndefined
  | VNull
  | VBool (b : bool)
  | VNumber (n : Z)
  | VString (s : str)
  | VObject (tag : Z).

(** The errors the modelled code throws, by class. *)
Inductive js_error :=
  | ERR_INVALID_ARG_TYPE (name : string) (expected : list string) (actual : jsval)
  | ERR_UNKNOWN_ENCODING
  | ERR_INVALID_THIS (cls : string)
  | ERR_STRING_TOO_LONG
  | ERR_INVALID_URI
  | JsTypeError (msg : string)
  | JsRangeError (msg : string)
  | JsError (msg : string)
  | JsSyntaxError (msg : string)
  | DOMException (msg name : string)
  | Rejected (reason : Z).

(** The outcome of a call: a value or a thrown error. *)
Inductive jsres (A : Type) :=
  | Ok (a : A)
  | Throw (e : js_error).
Arguments Ok {A} _.
Arguments Throw {A} _.

Definition jsbind {A B} (m : jsres A) (k : A -> jsres B) : jsres B :=
  match m with Ok a => k a | Throw e => Throw e end.
Notation "'let?' x ':=' m 'in' k" := (jsbind m (fun x => k))
  (at level 10, x name, m at level 100, k at level 200) : js_scope.

Lemma Ok_inj {A} (a b : A) : Ok a = Ok b -> a = b.
Proof. by intros [=]. Qed.

Lemma jsbind_Ok {A B} (m : jsres A) (k : A -> jsres B) b :
  jsbind m k = Ok b <-> exists a, m = Ok a /\ k a = Ok b.
Proof. destruct m as [a|e]; simpl; [|by split; [|intros (? & ? & ?)]]. split; [by exists a|by intros (? & [= ->] & ?)]. Qed.

(** ** Loops

    A [for] loop whose body may [continue] or [break]; the number of iterations
    the bounds allow is the fuel, so the loop is total. *)

Inductive ctl (S : Type) :=
  | Continue (s : S)
  | Break (s : S).
Arguments Continue {S} _.
Arguments Break {S} _.

Fixpoint for_n {S} (n : nat) (step i : Z) (body : Z -> S -> ctl S) (s : S) : S :=
  match n with
  | O => s
  | S n' => match body i s with
            | Continue s' => for_n n' step (i + step) body s'
            | Break s' => s'
            end
  end.

(** [for (let i = lo; i < hi; ++i)] *)
Definition for_up {S} (lo hi : Z) (body : Z -> S -> ctl S) (s : S) : S :=
  for_n (Z.to_nat (hi - lo)) 1 lo body s.

(** [for (let i = hi; i >= lo; --i)] *)
Definition for_down {S} (hi lo : Z) (body : Z -> S -> ctl S) (s : S) : S :=
  for_n (Z.to_nat (hi - lo + 1)) (-1) hi body s.

(** ** Tactics and hints *)

#[global] Arguments Z.eqb _ _ : simpl never.
#[global] Arguments Z.ltb _ _ : simpl never.
#[global] Arguments Z.leb _ _ : simpl never.
#[global] Arguments Z.land _ _ : simpl never.
#[global] Arguments Z.lor _ _ : simpl never.
#[global] Arguments Z.shiftr _ _ : simpl never.
#[global] Arguments Z.shiftl _ _ : simpl never.

Create HintDb js.
Create Rewrite HintDb js.

Lemma slen_nonneg {A} (s : list A) : 0 <= slen s.
Proof. unfold slen. lia. Qed.
#[export] Hint Resolve slen_nonneg : js.

(** Case analysis on every [if], [match] and decision in the goal or context. *)
Ltac case_bool :=
  match goal with
  | |- context [if ?b then _ else _] => destruct b eqn:?
  | H : context [if ?b then _ else _] |- _ => destruct b eqn:?
  end.

(** Turns boolean tests on integers and lists into propositions. *)
Ltac reflect_bools :=
  repeat match goal with
  | H : _ && _ = true |- _ => apply andb_true_iff in H as [? ?]
  | H : _ || _ = false |- _ => apply orb_false_iff in H as [? ?]
  | H : negb _ = true |- _ => apply negb_true_iff in H
  | H : negb _ = false |- _ => apply negb_false_iff in H
  | H : (_ =? _) = true |- _ => apply Z.eqb_eq in H
  | H : (_ =? _) = false |- _ => apply Z.eqb_neq in H
  | H : (_ <? _) = true |- _ => apply Z.ltb_lt in H
  | H : (_ <? _) = false |- _ => apply Z.ltb_ge in H
  | H : (_ <=? _) = true |- _ => apply Z.leb_le in H
  | H : (_ <=? _) = false |- _ => apply Z.leb_gt in H
  | H : bool_decide _ = true |- _ => apply bool_decide_eq_true in H
  | H : bool_decide _ = false |- _ => apply bool_decide_eq_false in H
  | H : str_eqb _ _ = true |- _ => apply bool_decide_eq_true in H
  | H : str_eqb _ _ = false |- _ => apply bool_decide_eq_false in H
  end.

(** Decides the integer tests of the goal by linear arithmetic. *)
Ltac zbool :=
  repeat match goal with
  | |- context [?a =? ?b] =>
      first [rewrite (proj2 (Z.eqb_eq a b)) by lia | rewrite (proj2 (Z.eqb_neq a b)) by lia]
  | |- context [?a <? ?b] =>
      first [rewrite (proj2 (Z.ltb_lt a b)) by lia | rewrite (proj2 (Z.ltb_ge a b)) by lia]
  | |- context [?a <=? ?b] =>
      first [rewrite (proj2 (Z.leb_le a b)) by lia | rewrite (proj2 (Z.leb_gt a b)) by lia]
  end.

(** Adds the nonnegativity of every length in sight. *)
Ltac slen_pos :=
  repeat match goal with
  | |- context [slen ?l] =>
      lazymatch goal with H : 0 <= slen l |- _ => fail | _ => pose proof (slen_nonneg l) end
  | _ : context [slen ?l] |- _ =>
      lazymatch goal with H : 0 <= slen l |- _ => fail | _ => pose proof (slen_nonneg l) end
  end.

(** ** Lemmas on strings *)

Lemma slen_nil {A} : slen (@nil A) = 0.
Proof. reflexivity. Qed.

Lemma slen_cons {A} (x : A) s : slen (x :: s) = 1 + slen s.
Proof. unfold slen. simpl. lia. Qed.

Lemma slen_app {A} (s t : list A) : slen (s ++ t) = slen s + slen t.
Proof. unfold slen. rewrite length_app. lia. Qed.

Lemma slen_0 {A} (s : list A) : slen s = 0 -> s = [].
Proof. unfold slen. intros. apply nil_length_inv. lia. Qed.

#[export] Hint Rewrite @slen_nil @slen_cons @slen_app : js.

Lemma charCodeAt_app_r (a b : str) i :
  slen a <= i -> charCodeAt (a ++ b) i = charCodeAt b (i - slen a).
Proof.
  unfold charCodeAt, slen. intros H.
  destruct (Z.ltb_spec i 0), (Z.ltb_spec (i - Z.of_nat (length a)) 0); try lia.
  rewrite lookup_app_r by lia. f_equal. lia.
Qed.

Lemma charCodeAt_app_l (a b : str) i :
  i < slen a -> charCodeAt (a ++ b) i = charCodeAt a i.
Proof.
  unfold charCodeAt, slen. intros H.
  destruct (Z.ltb_spec i 0); [done|]. apply lookup_app_l. lia.
Qed.

(** The code right after a prefix. *)
Lemma charCodeAt_middle (a b : str) c i :
  i = slen a -> charCodeAt (a ++ c :: b) i = Some c.
Proof.
  intros ->. rewrite charCodeAt_app_r by lia.
  rewrite Z.sub_diag. reflexivity.
Qed.

Lemma charCodeAt_Some (s : str) i c :
  charCodeAt s i = Some c -> 0 <= i < slen s.
Proof.
  unfold charCodeAt, slen. destruct (Z.ltb_spec i 0); [done|].
  intros ?%lookup_lt_Some. lia.
Qed.

Lemma charCodeAt_None (s : str) i : charCodeAt s i = None -> i < 0 \/ slen s <= i.
Proof.
  unfold charCodeAt, slen. destruct (Z.ltb_spec i 0); [lia|].
  intros ?%lookup_ge_None. lia.
Qed.

(** Slicing out the middle part. *)
Lemma slice_middle {A} (a b c : list A) i j :
  i = slen a -> j = slen a + slen b -> slice (a ++ b ++ c) i j = b.
Proof.
  intros -> ->. unfold slice, clamp_index.
  rewrite !slen_app.
  pose proof (slen_nonneg a). pose proof (slen_nonneg b). pose proof (slen_nonneg c).
  destruct (Z.ltb_spec (slen a) 0), (Z.ltb_spec (slen a + slen b) 0); try lia.
  rewrite !Z.min_l by lia. unfold slen.
  rewrite Nat2Z.id, drop_app_length.
  replace (Z.to_nat _) with (length b) by lia. apply take_app_length.
Qed.

Lemma slice_prefix {A} (a b : list A) i j :
  i = 0 -> j = slen a -> slice (a ++ b) i j = a.
Proof. intros -> ->. by apply (slice_middle [] a b). Qed.

Lemma slice_suffix {A} (a b : list A) i j :
  i = slen a -> j = slen a + slen b -> slice (a ++ b) i j = b.
Proof. intros. replace (a ++ b) with (a ++ b ++ []) by by rewrite app_nil_r. by apply slice_middle. Qed.

Lemma sliceFrom_suffix {A} (a b : list A) i :
  i = slen a -> sliceFrom (a ++ b) i = b.
Proof. intros. apply slice_suffix; [done|]. by rewrite slen_app. Qed.

Lemma slice_all {A} (s : list A) : slice s 0 (slen s) = s.
Proof. replace s with (s ++ []) at 1 by apply app_nil_r. by apply slice_prefix. Qed.

Lemma slen_slice {A} (s : list A) i j :
  0 <= i <= j -> j <= slen s -> slen (slice s i j) = j - i.
Proof.
  intros. unfold slice, clamp_index.
  destruct (Z.ltb_spec i 0), (Z.ltb_spec j 0); try lia.
  rewrite !Z.min_l by lia. unfold slen in *.
  rewrite length_take, length_drop. lia.
Qed.

(** Every list splits at an index in range. *)
Lemma split_at {A} (s : list A) i :
  0 <= i <= slen s -> exists a b, s = a ++ b /\ slen a = i.
Proof.
  intros. exists (take (Z.to_nat i) s), (drop (Z.to_nat i) s).
  rewrite take_drop. split; [done|]. unfold slen in *. rewrite length_take. lia.
Qed.

Lemma starts_with_singleton c s :
  starts_with [c] s = match s with x :: _ => c =? x | [] => false end.
Proof. destruct s; simpl; [done|]. by rewrite andb_true_r. Qed.

Lemma lastIndexOf_from_notin s c i acc :
  c ∉ s -> lastIndexOf_from s [c] i acc = acc.
Proof.
  revert i acc. induction s as [|x s IH]; intros i acc Hc; [done|].
  cbn [lastIndexOf_from]. rewrite starts_with_singleton.
  rewrite IH by set_solver. destruct (Z.eqb_spec c x); [set_solver|done].
Qed.

Lemma lastIndexOf_from_last a b c i acc :
  c ∉ b -> lastIndexOf_from (a ++ c :: b) [c] i acc = i + slen a.
Proof.
  revert i acc. induction a as [|x a IH]; intros i acc Hc.
  - cbn [lastIndexOf_from app]. rewrite starts_with_singleton, Z.eqb_refl.
    rewrite lastIndexOf_from_notin by done. rewrite slen_nil. lia.
  - cbn [lastIndexOf_from app]. rewrite IH by done. rewrite slen_cons. lia.
Qed.

Lemma lastIndexOf_notin s c : c ∉ s -> lastIndexOf s [c] = -1.
Proof. apply lastIndexOf_from_notin. Qed.

Lemma lastIndexOf_last a b c : c ∉ b -> lastIndexOf (a ++ c :: b) [c] = slen a.
Proof. intros. unfold lastIndexOf. rewrite lastIndexOf_from_last; [lia|done]. Qed.

(** ** Lemmas on joining and splitting *)

Lemma js_join_cons sep p ps :
  ps <> [] -> js_join sep (p :: ps) = p ++ sep ++ js_join sep ps.
Proof. by destruct ps. Qed.

Lemma js_join_app sep ps qs :
  ps <> [] -> qs <> [] -> js_join sep (ps ++ qs) = js_join sep ps ++ sep ++ js_join sep qs.
Proof.
  intros Hp Hq. induction ps as [|p ps IH]; [done|].
  destruct ps as [|p' ps].
  - simpl app. by rewrite js_join_cons.
  - rewrite <- app_comm_cons, !js_join_cons by done.
    rewrite IH by done. by rewrite <- !app_assoc.
Qed.

Lemma js_join_snoc sep ps p :
  ps <> [] -> js_join sep (ps ++ [p]) = js_join sep ps ++ sep ++ p.
Proof. intros. by rewrite js_join_app. Qed.

Lemma split_on_nonempty f s : split_on f s <> [].
Proof. destruct s as [|c s]; simpl; [done|]. destruct (f c); [done|]. by destruct (split_on f s). Qed.

Lemma split_on_nosep f s : Forall (fun c => f c = false) s -> split_on f s = [s].
Proof.
  induction 1 as [|c s Hc Hs IH]; [done|]. simpl. by rewrite Hc, IH.
Qed.

Lemma split_on_app_sep f a c b :
  f c = true -> Forall (fun c => f c = false) a ->
  split_on f (a ++ c :: b) = a :: split_on f b.
Proof.
  intros Hc. induction 1 as [|x a Hx Ha IH]; simpl; [by rewrite Hc|].
  by rewrite Hx, IH.
Qed.

Lemma split_on_app f a c b :
  f c = true -> split_on f (a ++ c :: b) = split_on f a ++ split_on f b.
Proof.
  intros Hc. induction a as [|x a IH]; simpl; [by rewrite Hc|].
  destruct (f x); simpl; rewrite IH; [done|].
  pose proof (split_on_nonempty f a). by destruct (split_on f a).
Qed.

(** The parts of a split hold no separator. *)
Lemma split_on_segs f s : Forall (Forall (fun c => f c = false)) (split_on f s).
Proof.
  induction s as [|c s IH]; simpl; [by repeat constructor|].
  destruct (f c) eqn:E; [by constructor|].
  destruct (split_on f s); inversion_clear IH; repeat (constructor; auto).
Qed.

(** Joining with a separator code and splitting again are inverse. *)
Lemma split_on_join f c ps :
  f c = true -> ps <> [] -> Forall (Forall (fun x => f x = false)) ps ->
  split_on f (js_join [c] ps) = ps.
Proof.
  intros Hc Hne HF. induction HF as [|p ps Hp HF IH]; [done|].
  destruct ps as [|q ps].
  - by apply split_on_nosep.
  - rewrite js_join_cons by done. cbn [app].
    rewrite split_on_app_sep by done. by rewrite IH.
Qed.

(** ** Scanning a string from its end

    The path functions scan a string backwards.  [run] is the effect of a
    stretch of such a scan in which no iteration breaks. *)

Fixpoint run {St} (f : Z -> Z -> St -> St) (off : Z) (w : str) (st : St) : St :=
  match w with
  | [] => st
  | c :: w' => f off c (run f (off + 1) w' st)
  end.

Lemma run_snoc {St} (f : Z -> Z -> St -> St) off w c st :
  run f off (w ++ [c]) st = run f off w (f (off + slen w) c st).
Proof.
  revert off. induction w as [|d w IH]; intros off; cbn [run app].
  - by rewrite slen_nil, Z.add_0_r.
  - rewrite IH. do 3 f_equal. rewrite slen_cons. lia.
Qed.

(** One iteration at the last code of a stretch. *)
Lemma for_down_snoc {St} (body : Z -> St -> ctl St) path q w c r n st st' :
  path = q ++ (w ++ [c]) ++ r ->
  (charCodeAt path (slen q + slen w) = Some c -> body (slen q + slen w) st = Continue st') ->
  for_n (length (w ++ [c]) + n) (-1) (slen q + slen (w ++ [c]) - 1) body st =
    for_n (length w + n) (-1) (slen q + slen w - 1) body st'.
Proof.
  intros Hpath Hb.
  assert (Hat : charCodeAt path (slen q + slen w) = Some c).
  { rewrite Hpath, <- !app_assoc, app_assoc. apply charCodeAt_middle. by rewrite slen_app. }
  rewrite length_app. replace (length w + length [c] + n)%nat with (S (length w + n)) by (simpl; lia).
  cbn [for_n]. rewrite slen_app, slen_cons, slen_nil.
  replace (slen q + (slen w + (1 + 0)) - 1) with (slen q + slen w) by lia.
  by rewrite (Hb Hat).
Qed.

Lemma for_down_run {St} (body : Z -> St -> ctl St) (f : Z -> Z -> St -> St) (P : Z -> Prop) path w :
  (forall i c st, charCodeAt path i = Some c -> P c -> body i st = Continue (f i c st)) ->
  Forall P w ->
  forall q r n st, path = q ++ w ++ r ->
  for_n (length w + n) (-1) (slen q + slen w - 1) body st =
    for_n n (-1) (slen q - 1) body (run f (slen q) w st).
Proof.
  intros Hbody HP. induction w as [|c w IH] using rev_ind; intros q r n st Hpath.
  - rewrite slen_nil, Z.add_0_r. done.
  - apply Forall_app in HP as [HP [Hc _]%Forall_cons].
    erewrite for_down_snoc by eauto. rewrite run_snoc.
    apply (IH HP q (c :: r)). by rewrite Hpath, <- app_assoc.
Qed.

Lemma for_down_skip {St} (body : Z -> St -> ctl St) (P : Z -> Prop) path w st :
  (forall i c, charCodeAt path i = Some c -> P c -> body i st = Continue st) ->
  Forall P w ->
  forall q r n, path = q ++ w ++ r ->
  for_n (length w + n) (-1) (slen q + slen w - 1) body st = for_n n (-1) (slen q - 1) body st.
Proof.
  intros Hbody HP. induction w as [|c w IH] using rev_ind; intros q r n Hpath.
  - rewrite slen_nil, Z.add_0_r. done.
  - apply Forall_app in HP as [HP [Hc _]%Forall_cons].
    erewrite for_down_snoc by eauto.
    apply (IH HP q (c :: r)). by rewrite Hpath, <- app_assoc.
Qed.

(** The last index of a code, seen from the front. *)
Lemma lastIndexOf_from_eq s c i acc :
  lastIndexOf_from s [c] i acc = if lastIndexOf s [c] <? 0 then acc else i + lastIndexOf s [c].
Proof.
  destruct (decide (c ∈ s)) as [Hin|Hnot].
  - assert (exists a b, s = a ++ c :: b /\ c ∉ b) as (a & b & -> & Hb).
    { clear -Hin. induction s as [|x s IH]; [set_solver|].
      destruct (decide (c ∈ s)) as [H|H].
      - destruct (IH H) as (a & b & -> & Hb). by exists (x :: a), b.
      - assert (c = x) as -> by set_solver. by exists [], s. }
    rewrite lastIndexOf_from_last, lastIndexOf_last by done.
    slen_pos. by zbool.
  - by rewrite lastIndexOf_from_notin, lastIndexOf_notin.
Qed.

Lemma lastIndexOf_cons s x c :
  lastIndexOf (x :: s) [c] =
    if 0 <=? lastIndexOf s [c] then lastIndexOf s [c] + 1 else if c =? x then 0 else -1.
Proof.
  unfold lastIndexOf at 1. cbn [lastIndexOf_from].
  rewrite lastIndexOf_from_eq, starts_with_singleton.
  destruct (Z.ltb_spec (lastIndexOf s [c]) 0); zbool; [done|lia].
Qed.

Lemma lastIndexOf_lt s c : -1 <= lastIndexOf s [c] < slen s \/ (s = [] /\ lastIndexOf s [c] = -1).
Proof.
  induction s as [|x s IH]; [by right|]. left. rewrite lastIndexOf_cons, slen_cons. slen_pos.
  destruct IH as [IH|[-> IH]]; [|rewrite IH]; repeat case_bool; reflect_bools; lia.
Qed.

(** A string is made of separators only, or it ends in a component followed by
    separators and preceded by a separator or nothing. *)
Lemma trim_decompose (f : Z -> bool) (p : str) :
  Forall (fun c => f c = true) p \/
  exists q w sl, p = q ++ w ++ sl /\ w <> [] /\ Forall (fun c => f c = false) w /\
    Forall (fun c => f c = true) sl /\ (q = [] \/ exists q' c, q = q' ++ [c] /\ f c = true).
Proof.
  induction p as [|c p IH] using rev_ind; [by left|].
  destruct (f c) eqn:Hc.
  - destruct IH as [IH|(q & w & sl & -> & Hw & Hwn & Hsl & Hq)].
    + left. apply Forall_app; auto.
    + right. exists q, w, (sl ++ [c]). rewrite <- !app_assoc.
      repeat split; auto. apply Forall_app; auto.
  - right. destruct IH as [IH|(q & w & sl & -> & Hw & Hwn & Hsl & Hq)].
    + exists p, [c], []. repeat split; auto.
      destruct p as [|d p _] using rev_ind; [by left|right].
      apply Forall_app in IH as [_ [Hd _]%Forall_cons]. by exists p, d.
    + destruct sl as [|d sl _] using rev_ind.
      * exists q, (w ++ [c]), []. rewrite !app_nil_r, <- app_assoc.
        repeat split; auto; [by destruct w|apply Forall_app; auto].
      * apply Forall_app in Hsl as [_ [Hd _]%Forall_cons].
        exists (q ++ w ++ sl ++ [d]), [c], []. rewrite <- !app_assoc.
        repeat split; auto. right. exists (q ++ w ++ sl), d. by rewrite <- !app_assoc.
Qed.

(** The invariant rule of a loop: [I] holds at the head of every iteration, a
    [break] establishes [P], and so does running through. *)
Lemma for_n_rule {St} (I : Z -> St -> Prop) (P : St -> Prop) n step i body s :
  I i s ->
  (forall j s, I j s -> match body j s with Continue s' => I (j + step) s' | Break s' => P s' end) ->
  (forall s, I (i + Z.of_nat n * step) s -> P s) ->
  P (for_n n step i body s).
Proof.
  intros Hs Hb HP. revert i s Hs HP. induction n as [|n IH]; intros i s Hs HP; simpl.
  - apply HP. by replace (i + Z.of_nat 0 * step) with i by lia.
  - pose proof (Hb i s Hs) as Hi. destruct (body i s) as [s'|s']; [|done].
    apply IH; [done|]. intros s0 H0. apply HP.
    by replace (i + Z.of_nat (S n) * step) with (i + step + Z.of_nat n * step) by lia.
Qed.

Lemma for_up_rule {St} (I : Z -> St -> Prop) (P : St -> Prop) lo hi body s :
  lo <= hi -> I lo s ->
  (forall i s, lo <= i < hi -> I i s ->
     match body i s with Continue s' => I (i + 1) s' | Break s' => P s' end) ->
  (forall s, I hi s -> P s) ->
  P (for_up lo hi body s).
Proof.
  intros Hle Hs Hb HP. unfold for_up.
  remember (Z.to_nat (hi - lo)) as n eqn:En. revert lo s Hle Hs Hb En.
  induction n as [|n IH]; intros lo s Hle Hs Hb En; simpl.
  - apply HP. by replace hi with lo by lia.
  - pose proof (Hb lo s ltac:(lia) Hs) as Hi. destruct (body lo s) as [s'|s']; [|done].
    apply IH; [lia|done| |lia]. intros. apply Hb; [lia|done].
Qed.

(** The same for a loop that never breaks. *)
Lemma for_up_inv {St} (I : Z -> St -> Prop) lo hi body s (P : St -> Prop) :
  lo <= hi -> I lo s ->
  (forall i s, lo <= i < hi -> I i s -> exists s', body i s = Continue s' /\ I (i + 1) s') ->
  (forall s, I hi s -> P s) ->
  P (for_up lo hi body s).
Proof.
  intros Hle Hs Hb HP. apply (for_up_rule I); [done|done| |done].
  intros i s' Hi HI. by destruct (Hb i s' Hi HI) as (? & -> & ?).
Qed.
