(* ===== verification/PathUtil.v ===== *)
(** * The helpers shared by the POSIX and Windows path modules

    Models [ext/node/polyfills/path/_util.ts] and the codes of
    [ext/node/polyfills/path/_constants.ts] it uses: the argument check, the
    separator predicates, the one-pass [normalizeString] and [_format].  The
    main result is that [normalizeString], which scans the path once and edits
    its result string in place, computes the textbook resolution of [.] and
    [..] segments on a stack. *)

From Stdlib Require Import ZArith Lia.
From stdpp Require Import base list strings numbers option sets.
From S2P Require Import Prelude.

#[local] Open Scope Z_scope.

(** ** Constants *)

Definition CHAR_UPPERCASE_A : Z := 65.
Definition CHAR_LOWERCASE_A : Z := 97.
Definition CHAR_UPPERCASE_Z : Z := 90.
Definition CHAR_LOWERCASE_Z : Z := 122.
Definition CHAR_DOT : Z := 46.
Definition CHAR_FORWARD_SLASH : Z := 47.
Definition CHAR_BACKWARD_SLASH : Z := 92.
Definition CHAR_COLON : Z := 58.
Definition CHAR_QUESTION_MARK : Z := 63.

(** ** Argument check and character classes *)

Definition assertPath (path : jsval) : jsres str :=
  match path with
  | VString s => Ok s
  | _ => Throw (ERR_INVALID_ARG_TYPE "path" ["string"%string] path)
  end.

(** [ParsedPath]; [FormatInputPathObject] has the same fields, each optional. *)
Record ParsedPath := mkParsed {
  root : str; dir : str; base : str; ext : str; name : str
}.
Record FormatInputPathObject := mkFormatInput {
  f_root : option str; f_dir : option str; f_base : option str;
  f_ext : option str; f_name : option str
}.

Definition isPosixPathSeparator (code : option Z) : bool :=
  code_is code CHAR_FORWARD_SLASH.

Definition isPathSeparator (code : option Z) : bool :=
  isPosixPathSeparator code || code_is code CHAR_BACKWARD_SLASH.

Definition isWindowsDeviceRoot (code : option Z) : bool :=
  match code with
  | None => false
  | Some code =>
      ((CHAR_LOWERCASE_A <=? code) && (code <=? CHAR_LOWERCASE_Z)) ||
      ((CHAR_UPPERCASE_A <=? code) && (code <=? CHAR_UPPERCASE_Z))
  end.

(** ** [normalizeString] *)

(** The local variables of the loop. *)
Record ns_state := mkNs {
  res : str; lastSegmentLength : Z; lastSlash : Z; dots : Z; code : option Z
}.

Section NormalizeString.
Context (path : str) (allowAboveRoot : bool) (separator : str).
Context (isPathSep : option Z -> bool).

(** The end of the branch for a separator: [lastSlash = i; dots = 0]. *)
Definition ns_close (r : str) (lsl i : Z) (c : option Z) : ns_state :=
  mkNs r lsl i 0 c.

(** A separator after a [..] segment. *)
Definition ns_dotdot (i : Z) (st : ns_state) : ns_state :=
  let r := res st in
  let above :=
    if allowAboveRoot
    then ns_close (if 0 <? slen r then r ++ separator ++ lit ".." else lit "..")
                  2 i (code st)
    else ns_close r (lastSegmentLength st) i (code st) in
  if (slen r <? 2) || negb (lastSegmentLength st =? 2) ||
     negb (code_is (charCodeAt r (slen r - 1)) CHAR_DOT) ||
     negb (code_is (charCodeAt r (slen r - 2)) CHAR_DOT)
  then
    if 2 <? slen r then
      let lastSlashIndex := lastIndexOf r separator in
      if lastSlashIndex =? -1 then ns_close [] 0 i (code st)
      else
        let r' := slice r 0 lastSlashIndex in
        ns_close r' (slen r' - 1 - lastIndexOf r' separator) i (code st)
    else if (slen r =? 2) || (slen r =? 1) then ns_close [] 0 i (code st)
    else above
  else above.

(** A separator after an ordinary segment. *)
Definition ns_segment (i : Z) (st : ns_state) : ns_state :=
  let seg := slice path (lastSlash st + 1) i in
  ns_close (if 0 <? slen (res st) then res st ++ separator ++ seg else seg)
           (i - lastSlash st - 1) i (code st).

(** The body of the loop once [code] is the code at hand. *)
Definition ns_char (i : Z) (st : ns_state) : ns_state :=
  if isPathSep (code st) then
    if (lastSlash st =? i - 1) || (dots st =? 1) then
      ns_close (res st) (lastSegmentLength st) i (code st)
    else if negb (lastSlash st =? i - 1) && (dots st =? 2) then ns_dotdot i st
    else ns_segment i st
  else if code_is (code st) CHAR_DOT && negb (dots st =? -1) then
    mkNs (res st) (lastSegmentLength st) (lastSlash st) (dots st + 1) (code st)
  else mkNs (res st) (lastSegmentLength st) (lastSlash st) (-1) (code st).

Definition set_code (c : option Z) (st : ns_state) : ns_state :=
  mkNs (res st) (lastSegmentLength st) (lastSlash st) (dots st) c.

Definition ns_body (i : Z) (st : ns_state) : ctl ns_state :=
  if i <? slen path then Continue (ns_char i (set_code (charCodeAt path i) st))
  else if isPathSep (code st) then Break st
  else Continue (ns_char i (set_code (Some CHAR_FORWARD_SLASH) st)).

Definition normalizeString : str :=
  res (for_up 0 (slen path + 1) ns_body (mkNs [] 0 (-1) 0 None)).

End NormalizeString.

(** ** [_format] *)

(** [a || b] on an optional string: the empty string and [undefined] are falsy. *)
Definition or_str (a b : option str) : option str :=
  match a with Some (_ :: _) => a | _ => b end.

Definition _format (sep : str) (pathObject : FormatInputPathObject) : str :=
  let dir := or_str (f_dir pathObject) (f_root pathObject) in
  let base := default [] (or_str (f_base pathObject)
    (Some (default [] (f_name pathObject) ++ default [] (f_ext pathObject)))) in
  match dir with
  | None | Some [] => base
  | Some d => if bool_decide (f_root pathObject = Some d) then d ++ base
              else d ++ sep ++ base
  end.

(** ** The reference: segments resolved on a stack

    The stack holds the segments kept so far, the last one on top. *)

Definition resolve_segment (allow : bool) (stk : list str) (seg : str) : list str :=
  if str_eqb seg [] || str_eqb seg (lit ".") then stk
  else if str_eqb seg (lit "..") then
    match stk with
    | top :: below =>
        if str_eqb top (lit "..") then (if allow then lit ".." :: stk else stk)
        else below
    | [] => if allow then [lit ".."] else []
    end
  else seg :: stk.

Definition resolve_segments (allow : bool) (segs : list str) : list str :=
  rev (fold_left (resolve_segment allow) segs []).

(** A separator predicate the path modules use: it accepts [/] and the
    separator [sc] it is paired with, and neither [.] nor an absent code. *)
Class SeparatorOk (isPathSep : option Z -> bool) (sc : Z) : Prop := {
  sep_absent : isPathSep None = false;
  sep_slash : isPathSep (Some CHAR_FORWARD_SLASH) = true;
  sep_dot : isPathSep (Some CHAR_DOT) = false;
  sep_self : isPathSep (Some sc) = true
}.

#[export] Instance posix_separator : SeparatorOk isPosixPathSeparator CHAR_FORWARD_SLASH.
Proof. by split. Qed.
#[export] Instance win32_separator : SeparatorOk isPathSeparator CHAR_BACKWARD_SLASH.
Proof. by split. Qed.

Lemma split_on_snoc_sep f s c :
  f c = true -> split_on f (s ++ [c]) = split_on f s ++ [[]].
Proof. intros. by rewrite split_on_app. Qed.

Lemma split_on_snoc f s c segs cur :
  f c = false -> split_on f s = segs ++ [cur] ->
  split_on f (s ++ [c]) = segs ++ [cur ++ [c]].
Proof.
  intros Hc. revert segs cur. induction s as [|x s IH]; intros segs cur; simpl.
  - destruct segs as [|? [|]]; intros E; simplify_eq/=; by rewrite Hc.
  - pose proof (split_on_nonempty f s) as Hne.
    destruct (f x).
    + destruct segs as [|seg segs]; simpl; intros Hs; simplify_eq.
      by rewrite (IH segs cur).
    + destruct (split_on f s) as [|p ps] eqn:E; [done|].
      destruct segs as [|seg segs]; simpl; intros Hs; simplify_eq.
      * by rewrite (IH [] p).
      * by rewrite (IH (p :: segs) cur).
Qed.

(** The value of [dots] after the codes of a segment. *)
Definition dots_of (seg : str) : Z :=
  if forallb (Z.eqb CHAR_DOT) seg then slen seg else -1.

Lemma dots_of_snoc seg c :
  dots_of (seg ++ [c]) =
    if (c =? CHAR_DOT) && negb (dots_of seg =? -1) then dots_of seg + 1 else -1.
Proof.
  unfold dots_of. rewrite forallb_app. simpl. rewrite andb_true_r.
  pose proof (slen_nonneg seg).
  rewrite (Z.eqb_sym c). rewrite slen_app, slen_cons, slen_nil.
  destruct (forallb _ seg); simpl.
  - destruct (Z.eqb_spec (slen seg) (-1)); [lia|]. by rewrite andb_true_r.
  - by rewrite andb_false_r.
Qed.

Lemma dots_of_repeat seg n :
  0 <= n -> dots_of seg = n -> seg = repeat CHAR_DOT (Z.to_nat n).
Proof.
  unfold dots_of. destruct (forallb _ seg) eqn:E; [|lia].
  intros _ <-. unfold slen. rewrite Nat2Z.id.
  induction seg as [|c seg IH]; [done|]. simpl in *.
  apply andb_true_iff in E as [E%Z.eqb_eq E']. by rewrite <- IH, <- E.
Qed.

Lemma dots_of_1 seg : (dots_of seg =? 1) = str_eqb seg (lit ".").
Proof.
  unfold str_eqb. destruct (Z.eqb_spec (dots_of seg) 1) as [E|E]; symmetry.
  - apply bool_decide_eq_true. by apply (dots_of_repeat seg 1).
  - apply bool_decide_eq_false. by intros ->.
Qed.

Lemma dots_of_2 seg : (dots_of seg =? 2) = str_eqb seg (lit "..").
Proof.
  unfold str_eqb. destruct (Z.eqb_spec (dots_of seg) 2) as [E|E]; symmetry.
  - apply bool_decide_eq_true. by apply (dots_of_repeat seg 2).
  - apply bool_decide_eq_false. by intros ->.
Qed.

Section NormalizeStringSpec.
Context (isPathSep : option Z -> bool) (sc : Z) `{!SeparatorOk isPathSep sc}.
Context (allow : bool).

Abbreviation is_sep := (fun c => isPathSep (Some c)).
Abbreviation joined stk := (js_join [sc] (rev stk)).

(** What the segments on the stack satisfy. *)
Definition seg_ok (seg : str) : Prop := seg <> [] /\ Forall (fun c => is_sep c = false) seg.

Lemma seg_ok_sc seg : seg_ok seg -> sc ∉ seg.
Proof.
  intros [_ HF] Hin. rewrite Forall_forall in HF.
  specialize (HF _ Hin). simpl in HF. by rewrite sep_self in HF.
Qed.

Lemma seg_ok_dotdot : seg_ok (lit "..").
Proof. split; [done|]. repeat constructor; apply (sep_dot (sc:=sc)). Qed.

Lemma joined_cons seg stk :
  joined (seg :: stk) = if decide (stk = []) then seg else joined stk ++ sc :: seg.
Proof.
  simpl. case_decide; subst; [done|].
  rewrite js_join_snoc; [done|]. intros E%(f_equal (@rev _)). by rewrite rev_involutive in E.
Qed.

Lemma joined_nonempty seg stk : seg_ok seg -> slen (joined (seg :: stk)) > 0.
Proof.
  intros [Hne _]. rewrite joined_cons. destruct seg; [done|].
  case_decide; autorewrite with js; [|pose proof (slen_nonneg (joined stk))];
    pose proof (slen_nonneg seg); lia.
Qed.

(** Appending a segment as [ns_segment] and [ns_dotdot] do. *)
Lemma joined_push seg stk :
  Forall seg_ok stk ->
  (if 0 <? slen (joined stk) then joined stk ++ [sc] ++ seg else seg) = joined (seg :: stk).
Proof.
  intros HF. rewrite joined_cons. destruct stk as [|t stk].
  - by rewrite decide_True.
  - inversion_clear HF as [|? ? Ht]. rewrite decide_False by done.
    pose proof (joined_nonempty t stk Ht). by destruct (Z.ltb_spec 0 (slen (joined (t :: stk)))); [|lia].
Qed.

Lemma resolve_segment_ok stk seg :
  Forall seg_ok stk -> Forall (fun c => is_sep c = false) seg ->
  Forall seg_ok (resolve_segment allow stk seg).
Proof.
  intros HF Hseg. unfold resolve_segment.
  destruct (str_eqb seg []) eqn:E0; simpl; [done|]. reflect_bools.
  destruct (str_eqb seg (lit ".")); [done|].
  destruct (str_eqb seg (lit "..")).
  - destruct stk as [|t stk]; [destruct allow; auto using Forall_cons, Forall_nil, seg_ok_dotdot|].
    inversion_clear HF. destruct (str_eqb t _), allow; auto using Forall_cons, seg_ok_dotdot.
  - by constructor.
Qed.

(** The stack a loop state stands for. *)
Definition stack_repr (stk : list str) (r : str) (lsl : Z) : Prop :=
  Forall seg_ok stk /\ r = joined stk /\
  match stk with t :: _ => lsl = slen t | [] => True end.

(** The test of lines 62-66 finds out whether the last segment is [..]. *)
Lemma last_is_dotdot pre t :
  t <> [] ->
  ((slen (pre ++ t) <? 2) || negb (slen t =? 2) ||
   negb (code_is (charCodeAt (pre ++ t) (slen (pre ++ t) - 1)) CHAR_DOT) ||
   negb (code_is (charCodeAt (pre ++ t) (slen (pre ++ t) - 2)) CHAR_DOT))
  = negb (str_eqb t (lit "..")).
Proof.
  intros Hne. pose proof (slen_nonneg pre).
  destruct (decide (slen t = 2)) as [E|E].
  - destruct t as [|a [|b [|? ?]]]; autorewrite with js in E;
      try (pose proof (slen_nonneg l); lia); try lia.
    rewrite !charCodeAt_app_r by (autorewrite with js; lia).
    autorewrite with js.
    destruct (Z.ltb_spec (slen pre + (1 + (1 + 0))) 2); [lia|].
    replace (slen pre + (1 + (1 + 0)) - 1 - slen pre) with 1 by lia.
    replace (slen pre + (1 + (1 + 0)) - 2 - slen pre) with 0 by lia.
    change (1 + (1 + 0) =? 2) with true.
    change (charCodeAt [a; b] 1) with (Some b). change (charCodeAt [a; b] 0) with (Some a).
    unfold code_is, str_eqb. cbn [orb negb]. rewrite <- negb_andb. f_equal.
    apply eq_true_iff_eq. rewrite bool_decide_eq_true, andb_true_iff, !Z.eqb_eq.
    split; [by intros [-> ->]|by intros [= -> ->]].
  - destruct (Z.eqb_spec (slen t) 2); [done|]. rewrite orb_true_r. simpl.
    unfold str_eqb. rewrite bool_decide_false; [done|]. by intros ->.
Qed.

Lemma joined_suffix t stk : exists pre, joined (t :: stk) = pre ++ t.
Proof.
  rewrite joined_cons. case_decide; [by exists []|].
  exists (joined stk ++ [sc]). by rewrite <- app_assoc.
Qed.

Lemma joined_lastIndexOf t stk :
  seg_ok t ->
  lastIndexOf (joined (t :: stk)) [sc] = if decide (stk = []) then -1 else slen (joined stk).
Proof.
  intros Ht%seg_ok_sc. rewrite joined_cons.
  case_decide; [by apply lastIndexOf_notin|by apply lastIndexOf_last].
Qed.

(** The length of the last segment, recomputed as line 75 does. *)
Lemma joined_last_length t stk :
  seg_ok t ->
  slen (joined (t :: stk)) - 1 - lastIndexOf (joined (t :: stk)) [sc] = slen t.
Proof.
  intros Ht. rewrite joined_lastIndexOf by done. rewrite joined_cons.
  case_decide; autorewrite with js; lia.
Qed.

(** Removing the last segment, as lines 68-86 do. *)
Lemma ns_pop_repr t stk i c :
  Forall seg_ok (t :: stk) ->
  let r := joined (t :: stk) in
  exists lsl',
    stack_repr stk (joined stk) lsl' /\
    (if 2 <? slen r then
       if lastIndexOf r [sc] =? -1 then ns_close [] 0 i c
       else let r' := slice r 0 (lastIndexOf r [sc]) in
            ns_close r' (slen r' - 1 - lastIndexOf r' [sc]) i c
     else ns_close [] 0 i c) = ns_close (joined stk) lsl' i c.
Proof.
  intros HF r. inversion_clear HF as [|? ? Ht HF']. subst r.
  rewrite joined_lastIndexOf by done. destruct stk as [|u stk].
  - rewrite decide_True by done. exists 0. split; [done|]. by case_bool.
  - rewrite decide_False by done.
    assert (Hu : seg_ok u) by by inversion HF'.
    pose proof (joined_nonempty u stk Hu).
    assert (Ht1 : slen t > 0) by (destruct Ht; destruct t; [done|rewrite slen_cons; pose proof (slen_nonneg t); lia]).
    rewrite (joined_cons t (u :: stk)), decide_False by done.
    assert ((2 <? slen (joined (u :: stk) ++ sc :: t)) = true) as ->
      by (apply Z.ltb_lt; autorewrite with js; lia).
    assert ((slen (joined (u :: stk)) =? -1) = false) as -> by (apply Z.eqb_neq; lia).
    rewrite slice_prefix by done. cbv zeta.
    rewrite joined_last_length by done. by exists (slen u).
Qed.

Lemma ns_dotdot_repr stk i st :
  stack_repr stk (res st) (lastSegmentLength st) ->
  exists r lsl,
    ns_dotdot allow [sc] i st = ns_close r lsl i (code st) /\
    stack_repr (resolve_segment allow stk (lit "..")) r lsl.
Proof.
  intros (HF & Hr & Hlsl). unfold ns_dotdot. rewrite Hr.
  destruct stk as [|t stk].
  - simpl. destruct allow; eexists _, _; (split; [done|]); [|done].
    repeat split. constructor; auto using seg_ok_dotdot.
  - assert (Ht : seg_ok t) by by inversion HF.
    destruct (joined_suffix t stk) as [pre Hpre].
    assert (E := last_is_dotdot pre t (proj1 Ht)).
    rewrite Hlsl. rewrite <- Hpre in E. rewrite E. cbn [resolve_segment str_eqb lit map].
    change (resolve_segment allow (t :: stk) (lit "..")) with
      (if str_eqb t (lit "..") then (if allow then lit ".." :: t :: stk else t :: stk) else stk).
    destruct (str_eqb t (lit "..")); simpl negb.
    + destruct allow; eexists _, _; (split; [done|]); [|done].
      split; [auto using Forall_cons, seg_ok_dotdot|]. split; [|done].
      by apply joined_push.
    + destruct (ns_pop_repr t stk i (code st) HF) as (lsl' & Hrep & Hpop).
      pose proof (joined_nonempty t stk Ht).
      assert (Hif : (if (slen (joined (t :: stk)) =? 2) || (slen (joined (t :: stk)) =? 1)
                then ns_close [] 0 i (code st)
                else if allow
                     then ns_close (if 0 <? slen (joined (t :: stk))
                                    then joined (t :: stk) ++ [sc] ++ lit ".." else lit "..") 2 i (code st)
                     else ns_close (joined (t :: stk)) (slen t) i (code st)) =
              ns_close [] 0 i (code st) \/ 2 < slen (joined (t :: stk))).
      { destruct (Z.eqb_spec (slen (joined (t :: stk))) 2); [by left|].
        destruct (Z.eqb_spec (slen (joined (t :: stk))) 1); [by left|]. right; lia. }
      exists (joined stk), lsl'. split; [|done]. rewrite <- Hpop.
      destruct (Z.ltb_spec 2 (slen (joined (t :: stk)))); [done|].
      destruct Hif as [->|]; [done|lia].
Qed.

Section Loop.
Context (path : str).

Abbreviation char := (ns_char path allow [sc] isPathSep).
Abbreviation body := (ns_body path allow [sc] isPathSep).

(** The loop invariant, when the codes [pre] of the path have been read: they
    split into finished segments and the segment [cur] being read. *)
Definition ns_inv (pre : str) (st : ns_state) : Prop :=
  exists segs done cur,
    split_on is_sep pre = segs ++ [cur] /\ pre = done ++ cur /\
    lastSlash st = slen done - 1 /\ dots st = dots_of cur /\ code st = last pre /\
    stack_repr (fold_left (resolve_segment allow) segs []) (res st) (lastSegmentLength st).

Lemma split_on_last_nosep s segs cur :
  split_on is_sep s = segs ++ [cur] -> Forall (fun c => is_sep c = false) cur.
Proof.
  intros E. pose proof (split_on_segs is_sep s) as HF. rewrite E in HF.
  apply Forall_app in HF as [_ HF]. by inversion HF.
Qed.

(** Reading a separator finishes the segment. *)
Lemma ns_char_sep pre rest st segs done cur :
  path = pre ++ rest -> isPathSep (code st) = true ->
  split_on is_sep pre = segs ++ [cur] -> pre = done ++ cur ->
  lastSlash st = slen done - 1 -> dots st = dots_of cur ->
  stack_repr (fold_left (resolve_segment allow) segs []) (res st) (lastSegmentLength st) ->
  exists r lsl,
    char (slen pre) st = ns_close r lsl (slen pre) (code st) /\
    stack_repr (fold_left (resolve_segment allow) (segs ++ [cur]) []) r lsl.
Proof.
  intros Hpath Hsep Hsplit Hpre Hls Hdots Hrep. rewrite fold_left_app. cbn [fold_left].
  set (stk := fold_left _ segs []) in *. unfold ns_char. rewrite Hsep, Hls, Hdots, dots_of_1, dots_of_2.
  assert (Hcur : (slen done - 1 =? slen pre - 1) = str_eqb cur []).
  { rewrite Hpre, slen_app. unfold str_eqb. apply eq_true_iff_eq.
    rewrite Z.eqb_eq, bool_decide_eq_true. split; [intros; apply slen_0; lia|].
    intros ->. rewrite slen_nil. lia. }
  rewrite Hcur. unfold resolve_segment at 1.
  destruct (str_eqb cur [] || str_eqb cur (lit ".")) eqn:E1; [by eexists _, _|].
  apply orb_false_iff in E1 as [E0 E1]. rewrite E0. cbn [negb andb].
  destruct (str_eqb cur (lit "..")) eqn:E2.
  - destruct (ns_dotdot_repr stk (slen pre) st Hrep) as (r & lsl & -> & Hrep').
    by exists r, lsl.
  - destruct Hrep as (HF & Hr & _).
    eexists _, _. split; [done|].
    rewrite Hls, Hr, Hpath, Hpre, <- app_assoc.
    rewrite slice_middle by (rewrite ?slen_app; lia).
    rewrite joined_push by done. split; [|split; [done|rewrite slen_app; lia]].
    constructor; [|done]. reflect_bools. split; [done|].
    by eapply split_on_last_nosep.
Qed.

(** One iteration on a code of the path preserves the invariant. *)
Lemma ns_body_inv pre c rest st :
  path = pre ++ c :: rest -> ns_inv pre st ->
  exists st', body (slen pre) st = Continue st' /\ ns_inv (pre ++ [c]) st'.
Proof.
  intros Hpath (segs & done & cur & Hsplit & Hpre & Hls & Hdots & _ & Hrep).
  assert (Hlt : (slen pre <? slen path) = true).
  { rewrite Hpath. apply Z.ltb_lt. autorewrite with js. pose proof (slen_nonneg rest). lia. }
  assert (Hat : charCodeAt path (slen pre) = Some c) by (rewrite Hpath; by apply charCodeAt_middle).
  unfold ns_body. rewrite Hlt, Hat. eexists. split; [done|].
  destruct (isPathSep (Some c)) eqn:Hc.
  - destruct (ns_char_sep pre (c :: rest) (set_code (Some c) st) segs done cur)
      as (r & lsl & -> & Hrep'); auto.
    exists (segs ++ [cur]), (pre ++ [c]), [].
    rewrite split_on_snoc_sep, Hsplit, app_nil_r, last_snoc by done.
    repeat split; try apply Hrep'. simpl. autorewrite with js. lia.
  - unfold ns_char. cbn [code set_code code_is]. rewrite Hc. cbn [dots lastSlash res lastSegmentLength].
    assert (Hd := dots_of_snoc cur c). rewrite <- Hdots in Hd.
    exists segs, done, (cur ++ [c]).
    rewrite (split_on_snoc _ _ _ _ _ Hc Hsplit), last_snoc, Hd, Hpre, app_assoc.
    by destruct (_ && _).
Qed.

Lemma ns_loop_inv rest : forall pre st n,
  path = pre ++ rest -> ns_inv pre st ->
  exists st', for_n (length rest + n) 1 (slen pre) body st = for_n n 1 (slen path) body st' /\
    ns_inv path st'.
Proof.
  induction rest as [|c rest IH]; intros pre st n Hpath Hinv.
  - rewrite app_nil_r in Hpath. subst pre. by exists st.
  - destruct (ns_body_inv pre c rest st Hpath Hinv) as (st1 & Hb & Hinv1).
    cbn [length plus for_n]. rewrite Hb.
    destruct (IH (pre ++ [c]) st1 n) as (st' & Hloop & Hinv'); [by rewrite <- app_assoc|done|].
    rewrite slen_app in Hloop. by exists st'.
Qed.

(** The one-pass scan computes the stack resolution of the segments. *)
Lemma normalizeString_segments :
  normalizeString path allow [sc] isPathSep =
    js_join [sc] (resolve_segments allow (split_on is_sep path)).
Proof.
  unfold normalizeString, for_up.
  replace (Z.to_nat (slen path + 1 - 0)) with (length path + 1)%nat
    by (unfold slen; lia).
  destruct (ns_loop_inv path [] (mkNs [] 0 (-1) 0 None) 1) as (st & Hloop & Hinv); [done| |].
  { exists [], [], []. by repeat split. }
  rewrite slen_nil in Hloop. rewrite Hloop. cbn [for_n].
  destruct Hinv as (segs & done & cur & Hsplit & Hpre & Hls & Hdots & Hcode & Hrep).
  unfold ns_body, resolve_segments. rewrite Z.ltb_irrefl, Hsplit.
  destruct (isPathSep (code st)) eqn:Hsep.
  - assert (cur = []) as ->.
    { destruct cur as [|c cur' _] using rev_ind; [done|]. exfalso.
      rewrite Hpre, app_assoc, last_snoc in Hcode. rewrite Hcode in Hsep.
      apply split_on_last_nosep, Forall_app in Hsplit as [_ HF].
      inversion_clear HF. congruence. }
    rewrite fold_left_app. apply Hrep.
  - destruct (ns_char_sep path [] (set_code (Some CHAR_FORWARD_SLASH) st) segs done cur)
      as (r & lsl & -> & Hrep'); auto using app_nil_r; [apply (sep_slash (sc:=sc))|].
    apply Hrep'.
Qed.

End Loop.
End NormalizeStringSpec.
