(* ===== verification/PathSegments.v ===== *)
(** * Lists of path segments

    The algebra of [resolve_segments], the reference of [normalizeString]: its
    results are canonical (no empty or [.] segment, and [..] only as a leading
    run of a relative path), canonical lists are its fixed points, and a run of
    [..] after plain segments removes as many of them. *)

From Stdlib Require Import ZArith Lia.
From stdpp Require Import base list strings numbers option sets.
From S2P Require Import Prelude PathUtil.

#[local] Open Scope Z_scope.

(** A segment that names an entry. *)
Definition plain (seg : str) : Prop := seg <> [] /\ seg <> lit "." /\ seg <> lit "..".

#[export] Instance plain_dec seg : Decision (plain seg).
Proof. apply _. Defined.

(** A resolved list: a run of [..], allowed only for relative paths, then plain
    segments. *)
Definition canonical (allow : bool) (segs : list str) : Prop :=
  exists k tl, segs = replicate k (lit "..") ++ tl /\ Forall plain tl /\ (allow = false -> k = O).

Lemma resolve_segment_plain allow stk seg :
  plain seg -> resolve_segment allow stk seg = seg :: stk.
Proof.
  intros (? & ? & ?). unfold resolve_segment, str_eqb.
  by rewrite !bool_decide_false.
Qed.

Lemma resolve_segment_skip allow stk seg :
  seg = [] \/ seg = lit "." -> resolve_segment allow stk seg = stk.
Proof. by intros [-> | ->]. Qed.

Lemma resolve_segment_up allow t stk :
  t <> lit ".." -> resolve_segment allow (t :: stk) (lit "..") = stk.
Proof.
  intros. unfold resolve_segment. cbn [str_eqb]. simpl.
  unfold str_eqb. by rewrite bool_decide_false.
Qed.

Lemma fold_plain allow segs stk :
  Forall plain segs -> fold_left (resolve_segment allow) segs stk = rev segs ++ stk.
Proof.
  intros HF. revert stk. induction HF as [|seg segs Hs HF IH]; intros stk; [done|].
  simpl. rewrite resolve_segment_plain by done. by rewrite IH, <- app_assoc.
Qed.

(** A run of [..] pops plain segments. *)
Lemma fold_up allow k stk :
  (k <= length stk)%nat -> Forall plain stk ->
  fold_left (resolve_segment allow) (replicate k (lit "..")) stk = drop k stk.
Proof.
  revert stk. induction k as [|k IH]; intros stk Hk HF; [done|].
  destruct stk as [|t stk]; [simpl in Hk; lia|].
  inversion_clear HF as [|? ? (_ & _ & Ht) HF']. cbn [replicate fold_left drop].
  rewrite resolve_segment_up by done. apply IH; [simpl in Hk; lia|done].
Qed.

(** A leading run of [..] is kept where it is allowed. *)
Lemma fold_up_keep k j :
  fold_left (resolve_segment true) (replicate k (lit "..")) (replicate j (lit "..")) =
    replicate (k + j) (lit "..").
Proof.
  revert j. induction k as [|k IH]; intros j; [done|]. cbn [replicate fold_left].
  assert (resolve_segment true (replicate j (lit "..")) (lit "..") = replicate (S j) (lit ".."))
    as -> by by destruct j.
  rewrite IH. f_equal. lia.
Qed.

Lemma rev_replicate {A} k (x : A) : rev (replicate k x) = replicate k x.
Proof. induction k as [|k IH]; [done|]. simpl. rewrite IH. symmetry. apply (replicate_S_end k). Qed.

(** The shape of the stack, kept by every step. *)
Definition stack_canonical (allow : bool) (stk : list str) : Prop :=
  exists k tl, stk = tl ++ replicate k (lit "..") /\ Forall plain tl /\ (allow = false -> k = O).

Lemma resolve_segment_canonical allow stk seg :
  stack_canonical allow stk -> stack_canonical allow (resolve_segment allow stk seg).
Proof.
  intros (k & tl & -> & HF & Hk).
  destruct (decide (seg = [] \/ seg = lit ".")) as [Hs|Hs].
  { rewrite resolve_segment_skip by done. by exists k, tl. }
  destruct (decide (seg = lit "..")) as [->|Hd].
  - destruct tl as [|t tl].
    + destruct k as [|k]; cbn; destruct allow; [by exists 1%nat, []|by exists O, []| |].
      * by exists (S (S k)), [].
      * by specialize (Hk eq_refl).
    + inversion_clear HF as [|? ? (_ & _ & Ht) HF']. simpl app.
      rewrite resolve_segment_up by done. by exists k, tl.
  - rewrite resolve_segment_plain by (unfold plain; tauto).
    exists k, (seg :: tl). split; [done|]. split; [|done].
    constructor; [unfold plain; tauto|done].
Qed.

Lemma resolve_segments_canonical allow segs : canonical allow (resolve_segments allow segs).
Proof.
  assert (H : stack_canonical allow (fold_left (resolve_segment allow) segs [])).
  { assert (H0 : stack_canonical allow []) by by exists O, [].
    revert H0. generalize (@nil str). induction segs as [|seg segs IH]; intros stk H; [done|].
    simpl. by apply IH, resolve_segment_canonical. }
  destruct H as (k & tl & E & HF & Hk). exists k, (rev tl). unfold resolve_segments.
  rewrite E, rev_app_distr. split; [|split; [by apply Forall_rev|done]].
  f_equal. apply rev_replicate.
Qed.

Lemma canonical_resolved allow segs :
  canonical allow segs -> resolve_segments allow segs = segs.
Proof.
  intros (k & tl & -> & HF & Hk). unfold resolve_segments.
  rewrite fold_left_app. destruct allow.
  - assert (E := fold_up_keep k 0). cbn [replicate] in E.
    rewrite E, Nat.add_0_r, fold_plain, rev_app_distr, rev_involutive by done.
    f_equal. apply rev_replicate.
  - rewrite Hk by done. simpl. by rewrite fold_plain, app_nil_r, rev_involutive.
Qed.

(** Empty segments at either end do not matter. *)
Lemma resolve_segments_nil_l allow segs : resolve_segments allow ([] :: segs) = resolve_segments allow segs.
Proof. done. Qed.

Lemma resolve_segments_nil_r allow segs : resolve_segments allow (segs ++ [[]]) = resolve_segments allow segs.
Proof. unfold resolve_segments. by rewrite fold_left_app. Qed.

(** Resolving can be done in stages: a resolved prefix stands for the prefix. *)
Lemma resolve_segments_app allow segs1 segs2 :
  resolve_segments allow (resolve_segments allow segs1 ++ segs2) = resolve_segments allow (segs1 ++ segs2).
Proof.
  unfold resolve_segments at 1 3. rewrite !fold_left_app. do 2 f_equal.
  assert (E := canonical_resolved allow _ (resolve_segments_canonical allow segs1)).
  apply (f_equal (@rev _)) in E. unfold resolve_segments in *. by rewrite !rev_involutive in E.
Qed.

(** Going up [k] levels from an absolute path and down into [rest]. *)
Lemma resolve_segments_up_down segs k rest :
  Forall plain segs -> Forall plain rest -> (k <= length segs)%nat ->
  resolve_segments false (segs ++ replicate k (lit "..") ++ rest) =
    take (length segs - k) segs ++ rest.
Proof.
  intros Hs Hr Hk. unfold resolve_segments. rewrite !fold_left_app.
  rewrite (fold_plain false segs []), app_nil_r by done.
  rewrite fold_up by (rewrite ?length_rev; auto using Forall_rev).
  rewrite fold_plain, rev_app_distr, rev_involutive by done.
  f_equal. rewrite <- (take_drop (length segs - k) segs) at 1.
  rewrite rev_app_distr, drop_app_length'.
  - apply rev_involutive.
  - rewrite length_rev, length_drop. lia.
Qed.

Lemma canonical_false_plain segs : canonical false segs -> Forall plain segs.
Proof. intros (k & tl & -> & HF & Hk). by rewrite Hk. Qed.

Lemma plain_canonical allow segs : Forall plain segs -> canonical allow segs.
Proof. intros. by exists O, segs. Qed.

Lemma plain_nonempty segs : Forall plain segs -> Forall (fun seg => seg <> []) segs.
Proof. intros HF. eapply Forall_impl; [exact HF|]. by intros ? [? ?]. Qed.

Lemma canonical_nonempty allow segs : canonical allow segs -> Forall (fun seg => seg <> []) segs.
Proof.
  intros (k & tl & -> & HF & _). apply Forall_app. split.
  - by apply Forall_replicate.
  - by apply plain_nonempty.
Qed.
#[export] Hint Resolve resolve_segments_canonical plain_canonical canonical_false_plain : js.
