(* ===== verification/PathPosix.v ===== *)
(** * The POSIX path module

    Models [ext/node/polyfills/path/_posix.ts], every exported function: the
    string computation of a function [f] is [f_str], and [f] is the function
    itself, with its argument checks.  [Deno.cwd] is a parameter: [None] when it
    is not a function, otherwise the outcome of calling it. *)

From Stdlib Require Import ZArith Lia.
From stdpp Require Import base list strings numbers option sets.
From S2P Require Import Prelude PathUtil.

#[local] Open Scope Z_scope.

Definition sep : str := lit "/".
Definition delimiter : str := lit ":".

(** [path.charCodeAt(i) === CHAR_FORWARD_SLASH] *)
Abbreviation slash_at s i := (code_is (charCodeAt s i) CHAR_FORWARD_SLASH).

(** ** [resolve] *)

Section Resolve.
Context (Deno_cwd : option (jsres jsval)).

(** One iteration: an empty segment is skipped. *)
Definition resolve_step (path : jsval) (st : str * bool) : jsres (str * bool) :=
  let? path := assertPath path in
  if slen path =? 0 then Ok st
  else Ok (path ++ lit "/" ++ st.1, slash_at path 0).

(** The loop from the last segment to the working directory (index -1). *)
Fixpoint resolve_loop (segs_rev : list jsval) (st : str * bool) : jsres (str * bool) :=
  if st.2 then Ok st
  else match segs_rev with
       | path :: rest => let? st := resolve_step path st in resolve_loop rest st
       | [] => match Deno_cwd with
               | None => Throw (JsTypeError "Resolved a relative path without a CWD.")
               | Some cwd => let? path := cwd in resolve_step path st
               end
       end.

Definition resolve (pathSegments : list jsval) : jsres str :=
  let? st := resolve_loop (rev pathSegments) ([], false) in
  let resolvedAbsolute := st.2 in
  let resolvedPath := normalizeString st.1 (negb resolvedAbsolute) (lit "/") isPosixPathSeparator in
  Ok (if resolvedAbsolute then
        if 0 <? slen resolvedPath then lit "/" ++ resolvedPath else lit "/"
      else if 0 <? slen resolvedPath then resolvedPath else lit ".").

End Resolve.

(** ** [normalize], [isAbsolute], [join] *)

Definition normalize_str (path : str) : str :=
  if slen path =? 0 then lit "."
  else
    let isAbsolute := slash_at path 0 in
    let trailingSeparator := slash_at path (slen path - 1) in
    let path := normalizeString path (negb isAbsolute) (lit "/") isPosixPathSeparator in
    let path := if (slen path =? 0) && negb isAbsolute then lit "." else path in
    let path := if (0 <? slen path) && trailingSeparator then path ++ lit "/" else path in
    if isAbsolute then lit "/" ++ path else path.

Definition normalize (path : jsval) : jsres str :=
  let? path := assertPath path in Ok (normalize_str path).

Definition isAbsolute_str (path : str) : bool := (0 <? slen path) && slash_at path 0.

Definition isAbsolute (path : jsval) : jsres bool :=
  let? path := assertPath path in Ok (isAbsolute_str path).

(** The loop of [join]; [joined] is undefined until a nonempty path is met. *)
Fixpoint join_loop (paths : list jsval) (joined : option str) : jsres (option str) :=
  match paths with
  | [] => Ok joined
  | path :: rest =>
      let? path := assertPath path in
      join_loop rest
        (if 0 <? slen path then
           match joined with
           | None | Some [] => Some path
           | Some j => Some (j ++ lit "/" ++ path)
           end
         else joined)
  end.

Definition join (paths : list jsval) : jsres str :=
  if slen paths =? 0 then Ok (lit ".")
  else let? joined := join_loop paths None in
       match joined with
       | None | Some [] => Ok (lit ".")
       | Some j => normalize (VString j)
       end.

(** ** [relative] *)

(** [for (; start < end; ++start) if (s.charCodeAt(start) !== SLASH) break;] *)
Definition skip_slashes (s : str) (start end_ : Z) : Z :=
  for_up start end_ (fun i _ => if slash_at s i then Continue (i + 1) else Break i) start.

(** The comparison loop: the last common separator, and the result when the loop
    returns from the function. *)
Definition rel_body (from to : str) (fromStart fromLen toStart toLen length : Z)
    (i : Z) (st : Z * option str) : ctl (Z * option str) :=
  if i =? length then
    if length <? toLen then
      if slash_at to (toStart + i) then Break (st.1, Some (sliceFrom to (toStart + i + 1)))
      else if i =? 0 then Break (st.1, Some (sliceFrom to (toStart + i)))
      else Break st
    else if length <? fromLen then
      if slash_at from (fromStart + i) then Break (i, st.2)
      else if i =? 0 then Break (0, st.2)
      else Break st
    else Break st
  else
    let fromCode := charCodeAt from (fromStart + i) in
    let toCode := charCodeAt to (toStart + i) in
    if negb (bool_decide (fromCode = toCode)) then Break st
    else if code_is fromCode CHAR_FORWARD_SLASH then Continue (i, st.2)
    else Continue st.

(** The loop that appends one [..] per remaining segment of [from]. *)
Definition rel_out (from : str) (start fromEnd : Z) : str :=
  for_up start (fromEnd + 1)
    (fun i out =>
       if (i =? fromEnd) || slash_at from i
       then Continue (if slen out =? 0 then out ++ lit ".." else out ++ lit "/..")
       else Continue out) [].

(** [relative] on resolved paths (lines 143 to 211). *)
Definition relative_resolved (from to : str) : str :=
  let fromEnd := slen from in
  let fromStart := skip_slashes from 1 fromEnd in
  let fromLen := fromEnd - fromStart in
  let toEnd := slen to in
  let toStart := skip_slashes to 1 toEnd in
  let toLen := toEnd - toStart in
  let length := if fromLen <? toLen then fromLen else toLen in
  let '(lastCommonSep, ret) :=
    for_up 0 (length + 1) (rel_body from to fromStart fromLen toStart toLen length) (-1, None) in
  match ret with
  | Some r => r
  | None =>
      let out := rel_out from (fromStart + lastCommonSep + 1) fromEnd in
      if 0 <? slen out then out ++ sliceFrom to (toStart + lastCommonSep)
      else
        let toStart := toStart + lastCommonSep in
        let toStart := if slash_at to toStart then toStart + 1 else toStart in
        sliceFrom to toStart
  end.

Definition relative (Deno_cwd : option (jsres jsval)) (from to : jsval) : jsres str :=
  let? f := assertPath from in
  let? t := assertPath to in
  if str_eqb f t then Ok []
  else
    let? f := resolve Deno_cwd [VString f] in
    let? t := resolve Deno_cwd [VString t] in
    if str_eqb f t then Ok [] else Ok (relative_resolved f t).

Definition toNamespacedPath (path : jsval) : jsval := path.

(** ** [dirname], [basename], [extname] *)

(** The scan of [dirname]: [(end, matchedSlash)]. *)
Definition dirname_body (path : str) (i : Z) (st : Z * bool) : ctl (Z * bool) :=
  if slash_at path i then
    if negb st.2 then Break (i, st.2) else Continue st
  else Continue (st.1, false).

Definition dirname_str (path : str) : str :=
  if slen path =? 0 then lit "."
  else
    let hasRoot := slash_at path 0 in
    let '(end_, _) := for_down (slen path - 1) 1 (dirname_body path) (-1, true) in
    if end_ =? -1 then (if hasRoot then lit "/" else lit ".")
    else if hasRoot && (end_ =? 1) then lit "//"
    else slice path 0 end_.

Definition dirname (path : jsval) : jsres str :=
  let? path := assertPath path in Ok (dirname_str path).

(** The scans of [basename]. *)
Record bn_state := mkBn {
  bn_start : Z; bn_end : Z; bn_matchedSlash : bool; bn_extIdx : Z; bn_firstNonSlashEnd : Z
}.

Definition bn_ext_body (path ext : str) (i : Z) (st : bn_state) : ctl bn_state :=
  let code := charCodeAt path i in
  if code_is code CHAR_FORWARD_SLASH then
    if negb (bn_matchedSlash st)
    then Break (mkBn (i + 1) (bn_end st) (bn_matchedSlash st) (bn_extIdx st) (bn_firstNonSlashEnd st))
    else Continue st
  else
    let first := bn_firstNonSlashEnd st =? -1 in
    let matchedSlash := if first then false else bn_matchedSlash st in
    let firstNonSlashEnd := if first then i + 1 else bn_firstNonSlashEnd st in
    if 0 <=? bn_extIdx st then
      if bool_decide (code = charCodeAt ext (bn_extIdx st)) then
        let extIdx := bn_extIdx st - 1 in
        Continue (mkBn (bn_start st) (if extIdx =? -1 then i else bn_end st)
                    matchedSlash extIdx firstNonSlashEnd)
      else Continue (mkBn (bn_start st) firstNonSlashEnd matchedSlash (-1) firstNonSlashEnd)
    else Continue (mkBn (bn_start st) (bn_end st) matchedSlash (bn_extIdx st) firstNonSlashEnd).

Definition bn_body (path : str) (i : Z) (st : bn_state) : ctl bn_state :=
  if slash_at path i then
    if negb (bn_matchedSlash st)
    then Break (mkBn (i + 1) (bn_end st) (bn_matchedSlash st) (-1) (-1))
    else Continue st
  else if bn_end st =? -1 then Continue (mkBn (bn_start st) (i + 1) false (-1) (-1))
  else Continue st.

Definition basename_str (path ext : str) : str :=
  if (0 <? slen ext) && (slen ext <=? slen path) then
    if (slen ext =? slen path) && str_eqb ext path then []
    else
      let st := for_down (slen path - 1) 0 (bn_ext_body path ext)
                  (mkBn 0 (-1) true (slen ext - 1) (-1)) in
      let end_ := if bn_start st =? bn_end st then bn_firstNonSlashEnd st
                  else if bn_end st =? -1 then slen path else bn_end st in
      slice path (bn_start st) end_
  else
    let st := for_down (slen path - 1) 0 (bn_body path) (mkBn 0 (-1) true (-1) (-1)) in
    if bn_end st =? -1 then [] else slice path (bn_start st) (bn_end st).

(** The default value of the parameter [ext] is the empty string. *)
Definition basename (path ext : jsval) : jsres str :=
  match ext with
  | VUndefined => let? path := assertPath path in Ok (basename_str path [])
  | VString ext => let? path := assertPath path in Ok (basename_str path ext)
  | _ => Throw (ERR_INVALID_ARG_TYPE "ext" ["string"%string] ext)
  end.

(** The scan [extname] and [parse] share. *)
Record en_state := mkEn {
  startDot : Z; startPart : Z; en_end : Z; matchedSlash : bool; preDotState : Z
}.

Definition en_body (path : str) (i : Z) (st : en_state) : ctl en_state :=
  let code := charCodeAt path i in
  if code_is code CHAR_FORWARD_SLASH then
    if negb (matchedSlash st)
    then Break (mkEn (startDot st) (i + 1) (en_end st) (matchedSlash st) (preDotState st))
    else Continue st
  else
    let fresh := en_end st =? -1 in
    let matchedSlash := if fresh then false else matchedSlash st in
    let end_ := if fresh then i + 1 else en_end st in
    if code_is code CHAR_DOT then
      if startDot st =? -1 then Continue (mkEn i (startPart st) end_ matchedSlash (preDotState st))
      else Continue (mkEn (startDot st) (startPart st) end_ matchedSlash
                       (if negb (preDotState st =? 1) then 1 else preDotState st))
    else if negb (startDot st =? -1) then
      Continue (mkEn (startDot st) (startPart st) end_ matchedSlash (-1))
    else Continue (mkEn (startDot st) (startPart st) end_ matchedSlash (preDotState st)).

(** Whether the scan found no extension (lines 370 to 377). *)
Definition en_noext (st : en_state) : bool :=
  (startDot st =? -1) || (en_end st =? -1) || (preDotState st =? 0) ||
  ((preDotState st =? 1) && (startDot st =? en_end st - 1) && (startDot st =? startPart st + 1)).

Definition extname_str (path : str) : str :=
  let st := for_down (slen path - 1) 0 (en_body path) (mkEn (-1) 0 (-1) true 0) in
  if en_noext st then [] else slice path (startDot st) (en_end st).

Definition extname (path : jsval) : jsres str :=
  let? path := assertPath path in Ok (extname_str path).

(** ** [format] and [parse] *)

(** The argument of [format]: an object, or anything else. *)
Inductive format_arg := FObject (o : FormatInputPathObject) | FOther (v : jsval).

Definition format (pathObject : format_arg) : jsres str :=
  match pathObject with
  | FObject o => Ok (_format (lit "/") o)
  | FOther v => Throw (ERR_INVALID_ARG_TYPE "pathObject" ["Object"%string] v)
  end.

Definition parse_str (path : str) : ParsedPath :=
  if slen path =? 0 then mkParsed [] [] [] [] []
  else
    let isAbsolute := slash_at path 0 in
    let root := if isAbsolute then lit "/" else [] in
    let start := if isAbsolute then 1 else 0 in
    let st := for_down (slen path - 1) start (en_body path) (mkEn (-1) 0 (-1) true 0) in
    let from := if (startPart st =? 0) && isAbsolute then 1 else startPart st in
    let '(base, name, ext) :=
      if en_noext st then
        if negb (en_end st =? -1)
        then (slice path from (en_end st), slice path from (en_end st), [])
        else ([], [], [])
      else (slice path from (en_end st), slice path from (startDot st),
            slice path (startDot st) (en_end st)) in
    let dir := if 0 <? startPart st then slice path 0 (startPart st - 1)
               else if isAbsolute then lit "/" else [] in
    mkParsed root dir base ext name.

Definition parse (path : jsval) : jsres ParsedPath :=
  let? path := assertPath path in Ok (parse_str path).
