(* ===== verification/PathPosixProps.v ===== *)
(** * Properties of the POSIX path module

    [normalize] and [resolve] in terms of segments, and what follows: results
    are normal forms, [resolve] behaves like a sequence of [cd], and
    [relative] is the inverse of resolution. *)

From Stdlib Require Import ZArith Lia.
From stdpp Require Import base list strings numbers option sets.
From S2P Require Import Prelude PathUtil PathSegments PathPosix.

#[local] Open Scope Z_scope.

Definition is_slash (c : Z) : bool := c =? CHAR_FORWARD_SLASH.
Abbreviation segments := (split_on is_slash).
Abbreviation noslash := (Forall (fun c => is_slash c = false)).
Abbreviation join_slash := (js_join (lit "/")).

Lemma normalizeString_posix path allow :
  normalizeString path allow (lit "/") isPosixPathSeparator =
    join_slash (resolve_segments allow (segments path)).
Proof. apply (normalizeString_segments isPosixPathSeparator CHAR_FORWARD_SLASH). Qed.

Lemma segments_noslash s : Forall noslash (segments s).
Proof. apply split_on_segs. Qed.

(** ** First and last codes *)

Lemma slash_at_head c s : slash_at (c :: s) 0 = is_slash c.
Proof. done. Qed.

Lemma slash_at_last s c : slash_at (s ++ [c]) (slen (s ++ [c]) - 1) = is_slash c.
Proof. rewrite charCodeAt_middle; [done|]. autorewrite with js. lia. Qed.

(** A nonempty list of nonempty segments without slash: the joined path begins
    and ends with a code of a segment. *)
Lemma join_head segs :
  segs <> [] -> Forall (fun seg => seg <> []) segs -> Forall noslash segs ->
  exists c s, join_slash segs = c :: s /\ is_slash c = false.
Proof.
  intros Hne Hn Hs. destruct segs as [|seg segs]; [done|].
  inversion_clear Hn. inversion_clear Hs as [|? ? Hseg _].
  destruct seg as [|c seg]; [done|]. inversion_clear Hseg.
  destruct segs; eexists c, _; by (split; [|]).
Qed.

Lemma join_last segs :
  segs <> [] -> Forall (fun seg => seg <> []) segs -> Forall noslash segs ->
  exists s c, join_slash segs = s ++ [c] /\ is_slash c = false.
Proof.
  destruct segs as [|seg segs _] using rev_ind; [done|].
  intros _ [_ Hn]%Forall_app [_ Hs]%Forall_app.
  inversion_clear Hn as [|? ? Hne _]. inversion_clear Hs as [|? ? Hseg _].
  destruct seg as [|c seg _] using rev_ind; [done|].
  apply Forall_app in Hseg as [_ Hc]. inversion_clear Hc.
  destruct (decide (segs = [])) as [->|].
  - by exists seg, c.
  - rewrite js_join_snoc by done. exists (join_slash segs ++ lit "/" ++ seg), c.
    by rewrite <- !app_assoc.
Qed.

(** ** Normal forms *)

(** The path with these parts, as [normalize] prints it. *)
Definition render (abs : bool) (segs : list str) (trailing : bool) : str :=
  let p := join_slash segs in
  let p := if bool_decide (segs = []) && negb abs then lit "." else p in
  let p := if (0 <? slen p) && trailing then p ++ lit "/" else p in
  if abs then lit "/" ++ p else p.

Lemma join_slash_nil segs :
  Forall (fun seg => seg <> []) segs -> (slen (join_slash segs) =? 0) = bool_decide (segs = []).
Proof.
  intros HF. destruct segs as [|seg segs]; [done|].
  inversion_clear HF. rewrite bool_decide_false by done.
  destruct seg as [|c seg]; [done|].
  destruct segs; cbn [js_join app]; rewrite slen_cons; apply Z.eqb_neq;
    match goal with |- context [slen ?x] => pose proof (slen_nonneg x) end; lia.
Qed.

Lemma normalize_render p :
  p <> [] ->
  normalize_str p = render (slash_at p 0) (resolve_segments (negb (slash_at p 0)) (segments p))
                           (slash_at p (slen p - 1)).
Proof.
  intros Hp. unfold normalize_str.
  assert ((slen p =? 0) = false) as -> by (apply Z.eqb_neq; intros ?%slen_0; done).
  rewrite normalizeString_posix, join_slash_nil.
  - done.
  - eapply canonical_nonempty, resolve_segments_canonical.
Qed.

(** [resolve_segments] keeps segments that hold no slash. *)
Lemma resolve_segments_noslash allow segs :
  Forall noslash segs -> Forall noslash (resolve_segments allow segs).
Proof.
  intros HF. apply Forall_rev.
  assert (H0 : Forall noslash []) by done. revert H0.
  generalize (@nil str). induction HF as [|seg segs Hs HF IH]; intros stk H0; [done|].
  apply IH. unfold resolve_segment.
  destruct (_ || _); [done|]. destruct (str_eqb seg _); [|by constructor].
  destruct stk as [|t stk]; [destruct allow; by repeat constructor|].
  destruct (str_eqb t _); [destruct allow; [constructor; [by repeat constructor|done]|done]|by inversion H0].
Qed.
#[export] Hint Resolve segments_noslash resolve_segments_noslash : js.

(** The segments of a rendered path are the ones it was made from. *)
Lemma segments_render abs segs trailing :
  canonical (negb abs) segs -> Forall noslash segs ->
  resolve_segments (negb abs) (segments (render abs segs trailing)) = segs.
Proof.
  intros Hcan Hns. destruct (decide (segs = [])) as [->|Hne].
  { by destruct abs, trailing. }
  unfold render. rewrite bool_decide_false by done. cbn [andb].
  assert (Hlen := join_slash_nil segs (canonical_nonempty _ _ Hcan)).
  rewrite bool_decide_false in Hlen by done.
  assert (Hpos : (0 <? slen (join_slash segs)) = true).
  { apply Z.eqb_neq in Hlen. apply Z.ltb_lt. pose proof (slen_nonneg (join_slash segs)). lia. }
  rewrite Hpos. cbn [andb].
  assert (Hsplit : segments (if trailing then join_slash segs ++ lit "/" else join_slash segs) =
                   segs ++ if trailing then [[]] else []).
  { assert (E : segments (join_slash segs) = segs) by by apply (split_on_join is_slash CHAR_FORWARD_SLASH).
    destruct trailing; [|by rewrite app_nil_r].
    change (lit "/") with [CHAR_FORWARD_SLASH] at 2. rewrite split_on_snoc_sep by done. by rewrite E. }
  assert (Hres : resolve_segments (negb abs) (segs ++ if trailing then [[]] else []) = segs).
  { destruct trailing; rewrite ?resolve_segments_nil_r, ?app_nil_r; by apply canonical_resolved. }
  destruct abs; [|by rewrite Hsplit].
  change (lit "/" ++ ?p) with (CHAR_FORWARD_SLASH :: p).
  cbn [split_on is_slash]. change (is_slash CHAR_FORWARD_SLASH) with true.
  by rewrite Hsplit.
Qed.

(** Rendering keeps absoluteness and, where there are segments, the trailing
    slash. *)
Lemma render_ends abs segs trailing :
  canonical (negb abs) segs -> Forall noslash segs ->
  let p := render abs segs trailing in
  p <> [] /\ slash_at p 0 = abs /\ render abs segs (slash_at p (slen p - 1)) = p.
Proof.
  intros Hcan Hns p. subst p. destruct (decide (segs = [])) as [->|Hne].
  { by destruct abs, trailing. }
  assert (Hn := canonical_nonempty _ _ Hcan).
  destruct (join_head segs Hne Hn Hns) as (c & s & Hhead & Hc).
  destruct (join_last segs Hne Hn Hns) as (s' & d & Hlast & Hd).
  assert (Hr : forall t, render abs segs t =
    (if abs then lit "/" else []) ++ join_slash segs ++ (if t then lit "/" else [])).
  { intros t. unfold render. rewrite bool_decide_false by done. cbn [andb].
    rewrite Hhead, slen_cons. pose proof (slen_nonneg s).
    destruct (Z.ltb_spec 0 (1 + slen s)); [|lia].
    destruct abs, t; cbn [andb]; by rewrite ?app_nil_r. }
  rewrite !Hr. split; [by destruct abs; rewrite Hhead|].
  split; [destruct abs; rewrite Hhead; simpl app; [done|by rewrite slash_at_head]|].
  do 3 f_equal. destruct trailing.
  - by rewrite app_assoc, (slash_at_last _ CHAR_FORWARD_SLASH).
  - by rewrite app_nil_r, Hlast, app_assoc, slash_at_last, Hd.
Qed.

Lemma normalize_str_idempotent p : normalize_str (normalize_str p) = normalize_str p.
Proof.
  destruct (decide (p = [])) as [->|Hp]; [done|].
  rewrite (normalize_render p Hp). set (abs := slash_at p 0).
  set (segs := resolve_segments (negb abs) (segments p)).
  assert (Hcan : canonical (negb abs) segs) by apply resolve_segments_canonical.
  assert (Hns : Forall noslash segs) by (apply resolve_segments_noslash, segments_noslash).
  destruct (render_ends abs segs (slash_at p (slen p - 1)) Hcan Hns) as (Hne & Habs & Htr).
  rewrite (normalize_render _ Hne), Habs, segments_render by done. done.
Qed.
