(* ===== verification/PathPosixRelative.v ===== *)
(** * [relative] on POSIX paths

    The character-level algorithm of [relative] finds the longest common list of
    segments: its result is one [..] per segment of [from] that is left and then
    the segments of [to] that are left. *)

From Stdlib Require Import ZArith Lia.
From stdpp Require Import base list strings numbers option sets.
From S2P Require Import Prelude PathUtil PathSegments PathPosix PathPosixProps.

#[local] Open Scope Z_scope.

Abbreviation SL := CHAR_FORWARD_SLASH.

(** ** The reference *)

(** What is left of two lists after their longest common prefix. *)
Fixpoint strip_common (A B : list str) : list str * list str :=
  match A, B with
  | a :: A', b :: B' => if str_eqb a b then strip_common A' B' else (A, B)
  | _, _ => (A, B)
  end.

Definition relative_segments (A B : list str) : list str :=
  let '(A', B') := strip_common A B in replicate (length A') (lit "..") ++ B'.

(** The absolute path with these segments. *)
Definition abs_path (segs : list str) : str := lit "/" ++ join_slash segs.

(** ** Absolute paths as one slash per segment *)

Definition enc (segs : list str) : str := concat (map (cons SL) segs).

Lemma enc_join segs : segs <> [] -> enc segs = SL :: join_slash segs.
Proof.
  induction segs as [|s segs IH]; intros; [done|].
  destruct segs as [|t segs]; [unfold enc; simpl; by rewrite app_nil_r|].
  change (enc (s :: t :: segs)) with ((SL :: s) ++ enc (t :: segs)).
  rewrite IH, (js_join_cons _ s) by done. done.
Qed.

Lemma abs_path_enc segs : segs <> [] -> abs_path segs = enc segs.
Proof. intros. by rewrite enc_join. Qed.

Lemma enc_app A B : enc (A ++ B) = enc A ++ enc B.
Proof. unfold enc. by rewrite map_app, concat_app. Qed.

Lemma enc_cons x A : enc (x :: A) = SL :: x ++ enc A.
Proof. done. Qed.

Lemma strip_common_spec A B :
  let '(A', B') := strip_common A B in
  exists C, A = C ++ A' /\ B = C ++ B' /\
    match A', B' with x :: _, y :: _ => x <> y | _, _ => True end.
Proof.
  revert B. induction A as [|a A IH]; intros B; [by exists []|].
  destruct B as [|b B]; [by exists []|]. simpl.
  destruct (str_eqb a b) eqn:E; reflect_bools.
  - subst. specialize (IH B). destruct (strip_common A B) as [A' B'].
    destruct IH as (C & -> & -> & H). by exists (b :: C).
  - by exists [].
Qed.

(** Two strings split after their common prefix. *)
Lemma common_prefix (x y : str) :
  exists u x' y', x = u ++ x' /\ y = u ++ y' /\
    match x', y' with c :: _, d :: _ => c <> d | _, _ => True end.
Proof.
  revert y. induction x as [|c x IH]; intros y; [by exists [], [], y|].
  destruct y as [|d y]; [by exists [], (c :: x), []|].
  destruct (decide (c = d)) as [->|].
  - destruct (IH y) as (u & x' & y' & -> & -> & H). by exists (d :: u), x', y'.
  - by exists [], (c :: x), (d :: y).
Qed.

(** ** Last index of the slash *)

Lemma lastIndexOf_from_snoc_ne s x c i acc :
  x <> c -> lastIndexOf_from (s ++ [x]) [c] i acc = lastIndexOf_from s [c] i acc.
Proof.
  intros Hx. revert i acc. induction s as [|y s IH]; intros i acc.
  - cbn [app lastIndexOf_from starts_with]. rewrite andb_true_r.
    destruct (Z.eqb_spec c x); [congruence|done].
  - cbn [app lastIndexOf_from]. rewrite IH. by rewrite !starts_with_singleton.
Qed.

Lemma lastIndexOf_snoc s x c :
  lastIndexOf (s ++ [x]) [c] = if x =? c then slen s else lastIndexOf s [c].
Proof.
  destruct (Z.eqb_spec x c) as [->|].
  - apply lastIndexOf_last. set_solver.
  - by apply lastIndexOf_from_snoc_ne.
Qed.

Lemma lastIndexOf_from_shift s c i acc :
  lastIndexOf_from s [c] (i + 1) (acc + 1) = lastIndexOf_from s [c] i acc + 1.
Proof.
  revert i acc. induction s as [|y s IH]; intros i acc; [done|].
  cbn [lastIndexOf_from]. rewrite starts_with_singleton, <- IH. by case_bool.
Qed.

Lemma lastIndexOf_cons_same s c : lastIndexOf (c :: s) [c] = lastIndexOf s [c] + 1.
Proof.
  unfold lastIndexOf at 1. cbn [lastIndexOf_from].
  rewrite starts_with_singleton, Z.eqb_refl. apply (lastIndexOf_from_shift s c 0 (-1)).
Qed.

Lemma noslash_notin s : noslash s -> SL ∉ s.
Proof. intros HF Hin. rewrite Forall_forall in HF. by specialize (HF _ Hin). Qed.

(** ** The loop that writes the [..] *)

Fixpoint count_slash (s : str) : nat :=
  match s with [] => O | c :: s' => (if is_slash c then 1 else 0) + count_slash s' end.

Lemma count_slash_app s t : count_slash (s ++ t) = (count_slash s + count_slash t)%nat.
Proof. induction s; simpl; lia. Qed.

Lemma count_slash_noslash s : noslash s -> count_slash s = O.
Proof. induction 1 as [|c s Hc _ IH]; [done|]. simpl. by rewrite Hc, IH. Qed.

Lemma count_slash_enc segs : Forall noslash segs -> count_slash (enc segs) = length segs.
Proof.
  induction 1 as [|s segs Hs _ IH]; [done|].
  rewrite enc_cons. simpl. rewrite count_slash_app, count_slash_noslash by done. by rewrite IH.
Qed.

(** Appending one more [..]. *)
Lemma dotdots_snoc k :
  (let out := join_slash (replicate k (lit "..")) in
   if slen out =? 0 then out ++ lit ".." else out ++ lit "/..") =
  join_slash (replicate (S k) (lit "..")).
Proof.
  destruct k as [|k]; [done|]. cbv zeta.
  rewrite join_slash_nil by by apply Forall_replicate.
  rewrite bool_decide_false by done.
  rewrite (replicate_S_end (S k)), js_join_snoc by done. done.
Qed.

Lemma rel_out_loop from pre w k :
  from = pre ++ w ->
  for_n (length w + 1) 1 (slen pre)
    (fun i out =>
       if (i =? slen from) || slash_at from i
       then Continue (if slen out =? 0 then out ++ lit ".." else out ++ lit "/..")
       else Continue out) (join_slash (replicate k (lit "..")))
  = join_slash (replicate (S (count_slash w + k)) (lit "..")).
Proof.
  revert pre k. induction w as [|c w IH]; intros pre k Hfrom.
  - rewrite app_nil_r in Hfrom. subst. cbn [length plus for_n]. rewrite Z.eqb_refl. cbn [orb].
    apply dotdots_snoc.
  - cbn [length plus for_n].
    assert (E : charCodeAt from (slen pre) = Some c) by (rewrite Hfrom; by apply charCodeAt_middle).
    assert (Hne : (slen pre =? slen from) = false).
    { apply Z.eqb_neq. rewrite Hfrom. autorewrite with js. pose proof (slen_nonneg w). lia. }
    rewrite E, Hne. cbn [orb code_is count_slash].
    assert (Hstep : slen pre + 1 = slen (pre ++ [c])) by (autorewrite with js; lia).
    rewrite Hstep. unfold is_slash. destruct (c =? SL).
    + rewrite dotdots_snoc, IH by by rewrite <- app_assoc. do 3 f_equal. lia.
    + rewrite IH by by rewrite <- app_assoc. done.
Qed.

Lemma rel_out_count from pre w :
  from = pre ++ w ->
  rel_out from (slen pre) (slen from) = join_slash (replicate (S (count_slash w)) (lit "..")).
Proof.
  intros Hfrom. unfold rel_out, for_up.
  replace (Z.to_nat (slen from + 1 - slen pre)) with (length w + 1)%nat
    by (subst; unfold slen; rewrite length_app; lia).
  etransitivity; [apply (rel_out_loop from pre w 0 Hfrom)|]. by rewrite Nat.add_0_r.
Qed.

(** ** The comparison loop *)

Section Compare.
Context (from to P a' b' : str).
Hypothesis Hfrom : from = SL :: P ++ a'.
Hypothesis Hto : to = SL :: P ++ b'.

Abbreviation fromLen := (slen (P ++ a')).
Abbreviation toLen := (slen (P ++ b')).
Abbreviation minLen := (if fromLen <? toLen then fromLen else toLen).
Abbreviation body := (rel_body from to 1 fromLen 1 toLen minLen).

Lemma minLen_P : minLen = slen P + Z.min (slen a') (slen b').
Proof. autorewrite with js. case_bool; reflect_bools; lia. Qed.

Lemma rel_loop_common R : forall Q n,
  P = Q ++ R ->
  for_n (length R + n) 1 (slen Q) body (lastIndexOf Q [SL], None) =
    for_n n 1 (slen P) body (lastIndexOf P [SL], None).
Proof.
  induction R as [|c R IH]; intros Q n HP.
  - rewrite app_nil_r in HP. by subst Q.
  - cbn [length plus for_n]. unfold rel_body at 1.
    assert (Hne : (slen Q =? minLen) = false).
    { rewrite minLen_P, HP. autorewrite with js. apply Z.eqb_neq.
      pose proof (slen_nonneg R). pose proof (slen_nonneg a'). pose proof (slen_nonneg b'). lia. }
    assert (Hf : charCodeAt from (1 + slen Q) = Some c).
    { rewrite Hfrom, HP, <- !app_assoc.
      apply (charCodeAt_middle (SL :: Q) (R ++ a')). rewrite slen_cons. lia. }
    assert (Ht : charCodeAt to (1 + slen Q) = Some c).
    { rewrite Hto, HP, <- !app_assoc.
      apply (charCodeAt_middle (SL :: Q) (R ++ b')). rewrite slen_cons. lia. }
    rewrite Hne, Hf, Ht, bool_decide_true by done. cbn [negb code_is fst snd].
    rewrite <- (IH (Q ++ [c]) n) by by rewrite <- app_assoc.
    rewrite lastIndexOf_snoc. autorewrite with js. rewrite Z.add_0_r.
    by destruct (c =? SL).
Qed.

(** The loop stops right after the common codes: the step there decides. *)
Lemma rel_loop_stop st :
  body (slen P) (lastIndexOf P [SL], None) = Break st ->
  for_up 0 (minLen + 1) body (-1, None) = st.
Proof.
  intros Hb. unfold for_up.
  pose proof (slen_nonneg a'). pose proof (slen_nonneg b').
  pose proof minLen_P as Hm.
  replace (Z.to_nat (minLen + 1 - 0)) with (length P + S (Z.to_nat (Z.min (slen a') (slen b'))))%nat
    by (unfold slen in *; lia).
  etransitivity; [apply (rel_loop_common P [] _); done|]. cbn [for_n]. by rewrite Hb.
Qed.

Lemma from_after i : i = 1 + slen P -> charCodeAt from i = head a'.
Proof.
  intros ->. rewrite Hfrom. destruct a' as [|c s].
  - rewrite app_nil_r. unfold charCodeAt, slen.
    destruct (Z.ltb_spec (1 + Z.of_nat (length P)) 0); [lia|].
    apply lookup_ge_None. simpl. lia.
  - apply (charCodeAt_middle (SL :: P)). rewrite slen_cons. lia.
Qed.
End Compare.

(** ** [relative] after the loop *)

Lemma skip_slashes_one p :
  slash_at p 1 = false -> skip_slashes p 1 (slen p) = 1.
Proof.
  intros H. unfold skip_slashes, for_up.
  destruct (Z.to_nat (slen p - 1)); [done|]. cbn [for_n]. by rewrite H.
Qed.

(** What the function returns for the outcome of the comparison loop. *)
Definition rel_finish (from to : str) (st : Z * option str) : str :=
  match st.2 with
  | Some r => r
  | None =>
      let out := rel_out from (1 + st.1 + 1) (slen from) in
      if 0 <? slen out then out ++ sliceFrom to (1 + st.1)
      else sliceFrom to (if slash_at to (1 + st.1) then 1 + st.1 + 1 else 1 + st.1)
  end.

Lemma relative_finish P a' b' st :
  let from := SL :: P ++ a' in
  let to := SL :: P ++ b' in
  slash_at from 1 = false -> slash_at to 1 = false ->
  rel_body from to 1 (slen (P ++ a')) 1 (slen (P ++ b'))
    (if slen (P ++ a') <? slen (P ++ b') then slen (P ++ a') else slen (P ++ b'))
    (slen P) (lastIndexOf P [SL], None) = Break st ->
  relative_resolved from to = rel_finish from to st.
Proof.
  intros from to Hf Ht Hb. unfold relative_resolved.
  rewrite !skip_slashes_one by done.
  assert (slen from - 1 = slen (P ++ a')) as -> by (unfold from; rewrite slen_cons; lia).
  assert (slen to - 1 = slen (P ++ b')) as -> by (unfold to; rewrite slen_cons; lia).
  cbv zeta. rewrite (rel_loop_stop from to P a' b' eq_refl eq_refl st Hb). by destruct st.
Qed.

Lemma slash_at_enc segs :
  Forall plain segs -> Forall noslash segs -> slash_at (abs_path segs) 1 = false.
Proof.
  intros Hp Hn. destruct segs as [|x segs]; [done|].
  destruct (join_head (x :: segs)) as (c & s & E & Hc); auto using plain_nonempty.
  unfold abs_path. rewrite E. done.
Qed.

(** A nonempty run of [..] followed by segments. *)
Lemma up_down_join k rest :
  join_slash (replicate (S k) (lit "..")) ++ (if decide (rest = []) then [] else SL :: join_slash rest)
  = join_slash (replicate (S k) (lit "..") ++ rest).
Proof.
  case_decide; subst; [by rewrite !app_nil_r|]. by rewrite js_join_app.
Qed.

Lemma out_nonempty k : (0 <? slen (join_slash (replicate (S k) (lit "..")))) = true.
Proof.
  assert (H := join_slash_nil (replicate (S k) (lit ".."))).
  rewrite bool_decide_false in H by done.
  assert (H' : (slen (join_slash (replicate (S k) (lit ".."))) =? 0) = false)
    by (apply H; by apply Forall_replicate).
  apply Z.eqb_neq in H'. apply Z.ltb_lt.
  pose proof (slen_nonneg (join_slash (replicate (S k) (lit "..")))). lia.
Qed.

(** The last step when the run of [..] starts at a segment of [from]. *)
Lemma rel_finish_up from to pre x A rest lcs :
  from = pre ++ x ++ enc A -> noslash x -> Forall noslash A -> lcs = slen pre - 2 ->
  sliceFrom to (1 + lcs) = (if decide (rest = []) then [] else SL :: join_slash rest) ->
  rel_finish from to (lcs, None) = join_slash (replicate (S (length A)) (lit "..") ++ rest).
Proof.
  intros Hfrom Hx HA Hlcs Hto. unfold rel_finish. cbn [fst snd].
  replace (1 + lcs + 1) with (slen pre) by lia.
  rewrite (rel_out_count from pre (x ++ enc A)) by done.
  rewrite count_slash_app, count_slash_noslash, count_slash_enc by done. cbn [plus].
  rewrite out_nonempty, Hto. apply up_down_join.
Qed.

(** The paths part inside a segment, or one of them ends there. *)
Definition parts_here (P a' b' : str) : Prop :=
  match a', b' with
  | c :: _, d :: _ => c <> d
  | [], d :: _ => d <> SL /\ P <> []
  | c :: _, [] => c <> SL /\ P <> []
  | [], [] => False
  end.

Lemma rel_body_parts P a' b' lcs :
  parts_here P a' b' ->
  rel_body (SL :: P ++ a') (SL :: P ++ b') 1 (slen (P ++ a')) 1 (slen (P ++ b'))
    (if slen (P ++ a') <? slen (P ++ b') then slen (P ++ a') else slen (P ++ b'))
    (slen P) (lcs, None) = Break (lcs, None).
Proof.
  intros Hp. unfold rel_body. rewrite minLen_P.
  rewrite !(from_after _ P _ eq_refl) by lia. autorewrite with js.
  assert (HP0 : P <> [] -> slen P <> 0) by (intros ? ?%slen_0; done).
  destruct a' as [|c a'], b' as [|d b']; cbn [parts_here] in Hp; [done| | |];
    autorewrite with js; slen_pos; cbn [head code_is].
  - destruct Hp as [Hd HP%HP0]. by zbool.
  - destruct Hp as [Hc HP%HP0]. by zbool.
  - zbool. rewrite bool_decide_false; [done|congruence].
Qed.

Section Cases.
Context (C : list str).
Hypothesis HCp : Forall plain C.
Hypothesis HCn : Forall noslash C.

(** [from] is a proper ancestor of [to]. *)
Lemma relative_down y B :
  Forall plain (y :: B) -> Forall noslash (y :: B) ->
  relative_resolved (abs_path C) (abs_path (C ++ y :: B)) = join_slash (y :: B).
Proof.
  intros HBp HBn.
  assert (Hs1 : slash_at (abs_path C) 1 = false) by by apply slash_at_enc.
  assert (Hs2 : slash_at (abs_path (C ++ y :: B)) 1 = false)
    by (apply slash_at_enc; by apply Forall_app).
  assert (Hto : abs_path (C ++ y :: B) = enc C ++ SL :: join_slash (y :: B)).
  { rewrite abs_path_enc by by destruct C. rewrite enc_app. by rewrite (enc_join (y :: B)). }
  assert (Hpos : slen (join_slash (y :: B)) > 0).
  { assert (H := join_slash_nil (y :: B)). rewrite bool_decide_false in H by done.
    pose proof (slen_nonneg (join_slash (y :: B))).
    assert (slen (join_slash (y :: B)) <> 0); [|lia]. apply Z.eqb_neq, H. by apply plain_nonempty. }
  destruct C as [|z C'].
  - (* from is the root *)
    rewrite Hto in *. cbn [app enc map concat] in *.
    etransitivity;
      [apply (relative_finish [] [] (join_slash (y :: B)) (-1, Some (join_slash (y :: B)))); try done|done].
    unfold rel_body. cbn [app]. change (slen (@nil Z)) with 0.
    destruct (Z.ltb_spec 0 (slen (join_slash (y :: B)))); [|lia].
    rewrite Z.eqb_refl. destruct (Z.ltb_spec 0 (slen (join_slash (y :: B)))); [|lia].
    change (1 + 0) with 1. rewrite Hs2.
    do 3 f_equal. by apply (sliceFrom_suffix [SL]).
  - (* from is a prefix that ends at a separator of to *)
    set (m := join_slash (z :: C')).
    assert (Hm : enc (z :: C') = SL :: m) by by apply enc_join.
    rewrite Hto, abs_path_enc, Hm in * by done.
    assert (F := relative_finish m [] (SL :: join_slash (y :: B)) (lastIndexOf m [SL], Some (join_slash (y :: B)))).
    rewrite !app_nil_r in F. etransitivity; [apply F; try done|done]. clear F.
    unfold rel_body. rewrite slen_app, slen_cons.
    destruct (Z.ltb_spec (slen m) (slen m + (1 + slen (join_slash (y :: B))))); [|lia].
    rewrite Z.eqb_refl. destruct (Z.ltb_spec (slen m) (slen m + (1 + slen (join_slash (y :: B))))); [|lia].
    rewrite (from_after _ m (SL :: join_slash (y :: B)) eq_refl) by lia. cbn [head code_is].
    rewrite Z.eqb_refl. cbn [fst].
    change (SL :: m ++ SL :: join_slash (y :: B)) with ((SL :: m) ++ [SL] ++ join_slash (y :: B)).
    rewrite app_assoc, sliceFrom_suffix; [done|]. autorewrite with js. lia.
Qed.

(** [to] is a proper ancestor of [from]. *)
Lemma relative_up x A :
  Forall plain (x :: A) -> Forall noslash (x :: A) ->
  relative_resolved (abs_path (C ++ x :: A)) (abs_path C) =
    join_slash (replicate (S (length A)) (lit "..")).
Proof.
  intros HAp HAn. rewrite <- (app_nil_r (replicate _ _)).
  inversion_clear HAn as [|? ? Hxn HAn']. inversion_clear HAp as [|? ? Hxp HAp'].
  assert (Hs1 : slash_at (abs_path C) 1 = false) by by apply slash_at_enc.
  assert (Hs2 : slash_at (abs_path (C ++ x :: A)) 1 = false)
    by (apply slash_at_enc; apply Forall_app; auto).
  assert (Hfrom : abs_path (C ++ x :: A) = enc C ++ SL :: x ++ enc A).
  { rewrite abs_path_enc by by destruct C. by rewrite enc_app. }
  assert (Hpos : slen (x ++ enc A) > 0).
  { destruct x; [by destruct Hxp|]. rewrite slen_app, slen_cons.
    pose proof (slen_nonneg x). pose proof (slen_nonneg (enc A)). lia. }
  destruct C as [|z C'].
  - (* to is the root *)
    rewrite Hfrom in *. cbn [app enc map concat] in *.
    etransitivity; [apply (relative_finish [] (x ++ enc A) [] (0, None)); try done|].
    + unfold rel_body. cbn [app]. change (slen (@nil Z)) with 0.
      destruct (Z.ltb_spec (slen (x ++ enc A)) 0); [lia|].
      rewrite Z.eqb_refl, Z.ltb_irrefl. destruct (Z.ltb_spec 0 (slen (x ++ enc A))); [|lia].
      change (1 + 0) with 1. by rewrite Hs2.
    + destruct x as [|c x]; [by destruct Hxp|]. inversion_clear Hxn.
      by apply (rel_finish_up _ _ [SL; c] x).
  - set (m := join_slash (z :: C')).
    assert (Hm : enc (z :: C') = SL :: m) by by apply enc_join.
    rewrite Hfrom, abs_path_enc, Hm in * by done.
    assert (F := relative_finish m (SL :: x ++ enc A) [] (slen m, None)).
    rewrite !app_nil_r in F. etransitivity; [apply F; try done|]; clear F.
    + unfold rel_body. rewrite slen_app, slen_cons.
      destruct (Z.ltb_spec (slen m + (1 + slen (x ++ enc A))) (slen m)); [lia|].
      rewrite Z.eqb_refl, Z.ltb_irrefl.
      destruct (Z.ltb_spec (slen m) (slen m + (1 + slen (x ++ enc A)))); [|lia].
      by rewrite (from_after _ m (SL :: x ++ enc A) eq_refl) by lia.
    + apply (rel_finish_up _ _ (SL :: m ++ [SL]) x); auto.
      * simpl. by rewrite <- app_assoc.
      * autorewrite with js. lia.
      * replace (SL :: m) with ((SL :: m) ++ []) by by rewrite app_nil_r.
        rewrite sliceFrom_suffix; [done|]. rewrite slen_cons. lia.
Qed.

(** The two paths part at different segments. *)
Lemma relative_across x A y B :
  x <> y -> Forall plain (x :: A) -> Forall noslash (x :: A) ->
  Forall plain (y :: B) -> Forall noslash (y :: B) ->
  relative_resolved (abs_path (C ++ x :: A)) (abs_path (C ++ y :: B)) =
    join_slash (replicate (S (length A)) (lit "..") ++ y :: B).
Proof.
  intros Hxy HAp HAn HBp HBn.
  assert (Hs1 : slash_at (abs_path (C ++ x :: A)) 1 = false) by (apply slash_at_enc; by apply Forall_app).
  assert (Hs2 : slash_at (abs_path (C ++ y :: B)) 1 = false) by (apply slash_at_enc; by apply Forall_app).
  rewrite abs_path_enc, enc_app, enc_cons in * by by destruct C.
  rewrite abs_path_enc, enc_app, enc_cons in * by by destruct C.
  inversion_clear HAn as [|? ? Hxn HAn']. inversion_clear HBn as [|? ? Hyn HBn'].
  inversion_clear HAp as [|? ? [Hx0 _] _]. inversion HBp as [|? ? [Hy0 _] _]; subst.
  destruct (common_prefix x y) as (u & x' & y' & -> & -> & Hneq).
  apply Forall_app in Hxn as [Hun Hxn]. apply Forall_app in Hyn as [_ Hyn].
  assert (HP : exists P, enc C ++ SL :: u = SL :: P).
  { destruct (enc C) eqn:E; [by exists u|]. destruct C; [done|].
    rewrite enc_cons in E. injection E as <- <-. eexists. done. }
  destruct HP as [P HP].
  assert (Hsplit : forall w, enc C ++ SL :: u ++ w = SL :: P ++ w).
  { intros w. change (SL :: u ++ w) with ((SL :: u) ++ w). by rewrite app_assoc, HP. }
  rewrite <- !(app_assoc u), !Hsplit in *.
  assert (Hlcs : lastIndexOf P [SL] = slen (enc C) - 1).
  { assert (E := lastIndexOf_cons_same P SL). rewrite <- HP in E.
    rewrite lastIndexOf_last in E by by apply noslash_notin. lia. }
  etransitivity; [apply (relative_finish P _ _ (lastIndexOf P [SL], None)); try done|].
  - apply rel_body_parts.
    assert (HPu : u <> [] -> P <> []) by (intros Hu ->; destruct (enc C) as [|? [|]]; by simplify_eq/=).
    destruct x' as [|c x'], y' as [|d y']; cbn [app].
    + congruence.
    + inversion_clear Hyn as [|? ? Hd _]. unfold is_slash in Hd. apply Z.eqb_neq in Hd.
      rewrite app_nil_r in Hx0. destruct A; simpl; auto.
    + inversion_clear Hxn as [|? ? Hc _]. unfold is_slash in Hc. apply Z.eqb_neq in Hc.
      rewrite app_nil_r in Hy0. destruct B; simpl; auto.
    + done.
  - apply (rel_finish_up _ _ (enc C ++ [SL]) (u ++ x')); auto.
    + rewrite <- !app_assoc. symmetry. apply Hsplit.
    + by apply Forall_app.
    + autorewrite with js. lia.
    + rewrite decide_False by done. rewrite <- Hsplit.
      rewrite sliceFrom_suffix by lia. rewrite app_assoc. apply (enc_join ((u ++ y') :: B)). done.
Qed.
End Cases.

Lemma relative_resolved_segments A B :
  A <> B -> Forall plain A -> Forall noslash A -> Forall plain B -> Forall noslash B ->
  relative_resolved (abs_path A) (abs_path B) = join_slash (relative_segments A B).
Proof.
  intros Hne HAp HAn HBp HBn. unfold relative_segments.
  assert (Hs := strip_common_spec A B). destruct (strip_common A B) as [A' B'].
  destruct Hs as (C & -> & -> & Hhd).
  apply Forall_app in HAp as [HCp HAp]. apply Forall_app in HAn as [HCn HAn].
  apply Forall_app in HBp as [_ HBp]. apply Forall_app in HBn as [_ HBn].
  destruct A' as [|x A'], B' as [|y B']; cbn [length].
  - congruence.
  - rewrite app_nil_r. by apply relative_down.
  - rewrite !app_nil_r. by apply relative_up.
  - by apply relative_across.
Qed.

(** ** [resolve] as a sequence of [cd] *)

(** One [cd] on a list of segments: an absolute path starts over. *)
Definition cd (cur : list str) (path : str) : list str :=
  if bool_decide (path = []) then cur
  else if slash_at path 0 then segments path else cur ++ segments path.

Section ResolveCd.
Context (cwd : str) (Hcwd : isAbsolute_str cwd = true).

Lemma segments_prepend p acc : segments (p ++ lit "/" ++ acc) = segments p ++ segments acc.
Proof. by apply (split_on_app is_slash p SL acc). Qed.

Lemma resolve_step_str p st :
  p <> [] -> resolve_step (VString p) st = Ok (p ++ lit "/" ++ st.1, slash_at p 0).
Proof.
  intros Hp. unfold resolve_step. simpl.
  destruct (Z.eqb_spec (slen p) 0) as [?%slen_0|]; done.
Qed.

Lemma resolve_loop_cd ps : forall acc,
  exists s, resolve_loop (Some (Ok (VString cwd))) (rev (map VString ps)) (acc, false) = Ok (s, true) /\
    segments s = fold_left cd ps (segments cwd) ++ segments acc.
Proof.
  unfold isAbsolute_str in Hcwd. apply andb_true_iff in Hcwd as [Hlen Habs].
  induction ps as [|p ps IH] using rev_ind; intros acc.
  - exists (cwd ++ lit "/" ++ acc). simpl. rewrite resolve_step_str, Habs.
    + split; [done|]. apply segments_prepend.
    + by intros ->.
  - rewrite map_app, rev_app_distr, fold_left_app. cbn [rev map app fold_left resolve_loop snd]. unfold cd at 1.
    destruct (bool_decide_reflect (p = [])) as [->|Hp]; [apply IH|].
    rewrite resolve_step_str by done. cbn [jsbind fst].
    destruct (slash_at p 0) eqn:Hp0.
    + exists (p ++ lit "/" ++ acc). rewrite segments_prepend. split; [|done].
      by destruct (rev (map VString ps)).
    + destruct (IH (p ++ lit "/" ++ acc)) as (s & -> & Hs).
      exists s. split; [done|]. by rewrite Hs, segments_prepend, app_assoc.
Qed.

Lemma resolve_segs ps :
  resolve (Some (Ok (VString cwd))) (map VString ps) =
    Ok (abs_path (resolve_segments false (fold_left cd ps (segments cwd)))).
Proof.
  unfold resolve. destruct (resolve_loop_cd ps []) as (s & -> & Hs). simpl.
  rewrite normalizeString_posix, Hs. change (segments []) with [@nil Z].
  rewrite resolve_segments_nil_r. unfold abs_path. f_equal.
  destruct (join_slash _) as [|c j]; [done|].
  rewrite slen_cons. slen_pos. by zbool.
Qed.

(** The segments of what was resolved are plain. *)
Lemma fold_cd_noslash ps cur :
  Forall noslash cur -> Forall noslash (fold_left cd ps cur).
Proof.
  revert cur. induction ps as [|p ps IH]; intros cur H; [done|]. simpl. apply IH.
  unfold cd. case_bool; [done|]. case_bool; [|apply Forall_app; split; [done|]];
    apply segments_noslash.
Qed.

Lemma resolved_plain ps :
  let A := resolve_segments false (fold_left cd ps (segments cwd)) in
  Forall plain A /\ Forall noslash A.
Proof.
  split; [auto with js|]. apply resolve_segments_noslash, fold_cd_noslash, segments_noslash.
Qed.
End ResolveCd.

(** Going along [relative_segments] leads from one list to the other. *)
Lemma relative_segments_arrive A B :
  Forall plain A -> Forall plain B ->
  resolve_segments false (A ++ relative_segments A B) = B.
Proof.
  intros HA HB. unfold relative_segments.
  assert (Hs := strip_common_spec A B). destruct (strip_common A B) as [A' B'].
  destruct Hs as (C & -> & -> & _). apply Forall_app in HB as [_ HB].
  rewrite resolve_segments_up_down by (rewrite ?length_app; auto; lia).
  rewrite length_app. replace (length C + length A' - length A')%nat with (length C) by lia.
  by rewrite take_app_length.
Qed.

(** A nonempty relative path never starts with a slash. *)
Lemma relative_segments_cd A B cur :
  A <> B -> Forall plain B -> Forall noslash B ->
  cd cur (join_slash (relative_segments A B)) = cur ++ relative_segments A B.
Proof.
  intros Hne HB HBn.
  assert (HS : relative_segments A B <> [] /\ Forall (fun seg => seg <> []) (relative_segments A B)
               /\ Forall noslash (relative_segments A B)).
  { unfold relative_segments. assert (Hs := strip_common_spec A B).
    destruct (strip_common A B) as [A' B']. destruct Hs as (C & -> & -> & _).
    apply Forall_app in HB as [_ HB]. apply Forall_app in HBn as [_ HBn].
    split; [by destruct A', B'|]. split; apply Forall_app; split;
      try apply Forall_replicate; auto using plain_nonempty; by repeat constructor. }
  destruct HS as (H0 & H1 & H2).
  destruct (join_head _ H0 H1 H2) as (c & s & E & Hc). unfold cd.
  assert (Hsplit : segments (join_slash (relative_segments A B)) = relative_segments A B)
    by by apply (split_on_join is_slash SL).
  rewrite Hsplit, E, bool_decide_false by done. by rewrite slash_at_head, Hc.
Qed.
