(* ===== verification/PathPosixParse.v ===== *)
(** * Components of POSIX paths

    What the backward scans of [basename], [extname], [dirname] and [parse]
    find, in closed form, when the path is cut into a prefix, its last component
    and trailing slashes. *)

From Stdlib Require Import ZArith Lia.
From stdpp Require Import base list strings numbers option sets.
From S2P Require Import Prelude PathUtil PathSegments PathPosix PathPosixProps.

#[local] Open Scope Z_scope.

Abbreviation allslash := (Forall (fun c => is_slash c = true)).

(** The extension of a component: what follows its last dot, unless the dot
    comes first or the component is [..]. *)
Definition ext_of (w : str) : str :=
  if (lastIndexOf w [CHAR_DOT] <=? 0) || str_eqb w (lit "..") then []
  else sliceFrom w (lastIndexOf w [CHAR_DOT]).

(** ** The scan of [extname] and [parse] *)

(** An iteration on a code that is not a slash. *)
Definition en_step (i c : Z) (st : en_state) : en_state :=
  let fresh := en_end st =? -1 in
  let ms := if fresh then false else matchedSlash st in
  let end_ := if fresh then i + 1 else en_end st in
  if c =? CHAR_DOT then
    if startDot st =? -1 then mkEn i (startPart st) end_ ms (preDotState st)
    else mkEn (startDot st) (startPart st) end_ ms
           (if negb (preDotState st =? 1) then 1 else preDotState st)
  else if negb (startDot st =? -1) then mkEn (startDot st) (startPart st) end_ ms (-1)
  else mkEn (startDot st) (startPart st) end_ ms (preDotState st).

Lemma en_body_step path i c st :
  charCodeAt path i = Some c -> is_slash c = false ->
  en_body path i st = Continue (en_step i c st).
Proof.
  intros Hat Hc. unfold en_body. rewrite Hat. cbn [code_is].
  change (c =? CHAR_FORWARD_SLASH) with (is_slash c). rewrite Hc.
  unfold en_step. by repeat case_bool.
Qed.

Lemma en_body_skip path i c st :
  charCodeAt path i = Some c -> is_slash c = true -> matchedSlash st = true ->
  en_body path i st = Continue st.
Proof.
  intros Hat Hc Hm. unfold en_body. rewrite Hat. cbn [code_is].
  change (c =? CHAR_FORWARD_SLASH) with (is_slash c). by rewrite Hc, Hm.
Qed.

(** What the scan of a component leaves: the position of its last dot, and
    whether it starts with a dot. *)
Definition en_component (off sp : Z) (w : str) : en_state :=
  let d := lastIndexOf w [CHAR_DOT] in
  mkEn (if d <? 0 then -1 else off + d) sp (off + slen w) false
       (if d <=? 0 then 0 else if code_is (head w) CHAR_DOT then 1 else -1).

Lemma run_component off sp w :
  0 <= off -> w <> [] ->
  run en_step off w (mkEn (-1) sp (-1) true 0) = en_component off sp w.
Proof.
  revert off. induction w as [|c w IH]; intros off Hoff Hw; [done|].
  destruct (decide (w = [])) as [->|Hw'].
  { unfold en_component. cbn [run]. unfold en_step.
    cbn [en_end startDot startPart preDotState matchedSlash negb head code_is].
    change (-1 =? -1) with true. rewrite lastIndexOf_cons. change (slen [c]) with 1.
    change (lastIndexOf [] [CHAR_DOT]) with (-1). change (0 <=? -1) with false.
    rewrite (Z.eqb_sym CHAR_DOT).
    destruct (c =? CHAR_DOT); zbool; cbn [negb]; f_equal; lia. }
  cbn [run]. rewrite IH by (done || lia). unfold en_step, en_component.
  cbn [en_end startDot startPart matchedSlash preDotState head code_is].
  rewrite lastIndexOf_cons, slen_cons. rewrite (Z.eqb_sym CHAR_DOT).
  pose proof (lastIndexOf_lt w CHAR_DOT) as Hlt. slen_pos.
  set (d := lastIndexOf w [CHAR_DOT]) in *.
  assert ((off + 1 + slen w =? -1) = false) as -> by (zbool; done).
  assert (Hhd : exists h t, w = h :: t) by (destruct w; eauto; done). destruct Hhd as (h & t & ->).
  destruct (Z.ltb_spec d 0).
  - change (-1 =? -1) with true. cbv iota. cbn [negb]. zbool.
    destruct (c =? CHAR_DOT); zbool; f_equal; lia.
  - zbool. cbn [negb]. destruct (c =? CHAR_DOT); repeat case_bool; reflect_bools; f_equal; lia.
Qed.

(** The whole scan from the end down to index [lo]. *)
Lemma en_scan q w sl lo sp :
  w <> [] -> noslash w -> allslash sl ->
  (q = [] \/ exists q' c, q = q' ++ [c] /\ is_slash c = true) ->
  (lo = 0 \/ (lo = 1 /\ q <> [])) ->
  let p := q ++ w ++ sl in
  for_down (slen p - 1) lo (en_body p) (mkEn (-1) sp (-1) true 0) =
    en_component (slen q) (if slen q <=? lo then sp else slen q) w.
Proof.
  intros Hw Hwn Hsl Hq Hlo p. unfold for_down.
  set (n := Z.to_nat (slen q - lo)).
  replace (Z.to_nat (slen p - 1 - lo + 1)) with (length sl + (length w + n))%nat.
  2: { subst n p. rewrite !slen_app. unfold slen. destruct w; [done|].
       destruct Hlo as [->|[-> Hne]]; [lia|]. destruct q; [done|]. simpl. lia. }
  assert (Hp : p = (q ++ w) ++ sl ++ []) by (subst p; by rewrite app_nil_r, app_assoc).
  replace (slen p - 1) with (slen (q ++ w) + slen sl - 1) by (subst p; rewrite !slen_app; lia).
  rewrite (for_down_skip _ (fun c => is_slash c = true) p sl) with (r := []);
    [|intros; by eapply en_body_skip|done|done].
  rewrite slen_app.
  rewrite (for_down_run _ en_step (fun c => is_slash c = false) p w) with (r := sl);
    [|intros; by apply en_body_step|done|done].
  rewrite run_component by (auto using slen_nonneg).
  destruct Hq as [->|(q' & c & -> & Hc)].
  { subst n. rewrite slen_nil. destruct Hlo as [->|[_ ?]]; [|done]. done. }
  assert (Hlen : slen (q' ++ [c]) = slen q' + 1) by (autorewrite with js; lia).
  slen_pos. destruct (Z.leb_spec (slen (q' ++ [c])) lo).
  { replace n with O by (subst n; lia). done. }
  assert (exists m, n = S m) as [m ->] by (exists (Nat.pred n); subst n; lia).
  cbn [for_n]. replace (slen (q' ++ [c]) - 1) with (slen q') by lia.
  assert (Hat : charCodeAt p (slen q') = Some c).
  { subst p. rewrite <- app_assoc. by apply charCodeAt_middle. }
  unfold en_body. rewrite Hat. cbn [code_is].
  change (c =? CHAR_FORWARD_SLASH) with (is_slash c). rewrite Hc.
  unfold en_component. cbn [matchedSlash negb startDot en_end preDotState]. f_equal. lia.
Qed.

(** A path of slashes leaves the scan where it began. *)
Lemma en_scan_slashes p lo st :
  allslash p -> matchedSlash st = true -> 0 <= lo ->
  for_down (slen p - 1) lo (en_body p) st = st.
Proof.
  intros Hp Hm Hlo. unfold for_down.
  destruct (split_at p (Z.min lo (slen p))) as (q & w & -> & Hq); [slen_pos; lia|].
  apply Forall_app in Hp as [_ Hw]. rewrite slen_app in *. slen_pos.
  replace (Z.to_nat (slen q + slen w - 1 - lo + 1)) with (length w + 0)%nat by (unfold slen in *; lia).
  rewrite (for_down_skip _ (fun c => is_slash c = true) (q ++ w) w st) with (r := []);
    [done|intros; by eapply en_body_skip|done|by rewrite app_nil_r].
Qed.

(** ** Closed forms *)

Lemma head_is_dotdot w :
  w <> [] -> lastIndexOf w [CHAR_DOT] = slen w - 1 -> lastIndexOf w [CHAR_DOT] = 1 ->
  code_is (head w) CHAR_DOT = str_eqb w (lit "..").
Proof.
  intros Hw E1 E2. destruct w as [|a [|b [|]]]; autorewrite with js in E1; slen_pos; try lia.
  rewrite !lastIndexOf_cons in E2. change (lastIndexOf [] [CHAR_DOT]) with (-1) in E2.
  change (0 <=? -1) with false in E2. cbv iota in E2.
  assert (b = CHAR_DOT) as -> by (destruct (Z.eqb_spec CHAR_DOT b); [done|];
    destruct (CHAR_DOT =? a); simpl in E2; lia).
  cbn [head code_is]. unfold str_eqb. apply eq_true_iff_eq.
  rewrite bool_decide_eq_true, Z.eqb_eq. split; [by intros ->|by intros [= ->]].
Qed.

(** The test for a missing extension, when the start of the component is known. *)
Lemma en_noext_component off w :
  w <> [] -> 0 <= off ->
  en_noext (en_component off off w) = (lastIndexOf w [CHAR_DOT] <=? 0) || str_eqb w (lit "..").
Proof.
  intros Hw Hoff. unfold en_noext, en_component.
  cbn [startDot en_end preDotState startPart].
  pose proof (lastIndexOf_lt w CHAR_DOT) as Hlt. slen_pos.
  destruct (Z.leb_spec (lastIndexOf w [CHAR_DOT]) 0).
  { change (0 =? 0) with true. by rewrite !orb_true_r. }
  cbn [orb]. zbool. cbn [orb].
  destruct (decide (lastIndexOf w [CHAR_DOT] = 1 /\ slen w = 2)) as [[E1 E2]|Hne].
  - rewrite <- head_is_dotdot by (done || lia).
    destruct (code_is (head w) CHAR_DOT); by zbool.
  - assert (str_eqb w (lit "..") = false) as ->.
    { unfold str_eqb. apply bool_decide_eq_false. intros ->. by apply Hne. }
    destruct (code_is (head w) CHAR_DOT); [|by zbool]. change (1 =? 0) with false.
    change (1 =? 1) with true. cbn [orb andb]. apply andb_false_iff.
    destruct (Z.eqb_spec (off + lastIndexOf w [CHAR_DOT]) (off + slen w - 1)); [right|by left].
    apply Z.eqb_neq. lia.
Qed.

(** The same test when [parse] starts after the root: [..] is not recognised. *)
Lemma en_noext_root w :
  w <> [] -> en_noext (en_component 1 0 w) = (lastIndexOf w [CHAR_DOT] <=? 0).
Proof.
  intros Hw. unfold en_noext, en_component. cbn [startDot en_end preDotState startPart].
  pose proof (lastIndexOf_lt w CHAR_DOT) as Hlt. slen_pos.
  destruct (Z.leb_spec (lastIndexOf w [CHAR_DOT]) 0).
  { change (0 =? 0) with true. by rewrite !orb_true_r. }
  cbn [orb]. zbool. destruct (code_is (head w) CHAR_DOT); zbool; cbn [orb andb];
    by rewrite ?andb_false_r.
Qed.

(** Slices of the component. *)
Lemma slice_component (q w sl : str) i j :
  0 <= i <= j -> j <= slen w ->
  slice (q ++ w ++ sl) (slen q + i) (slen q + j) = slice w i j.
Proof.
  intros Hi Hj.
  destruct (split_at w i) as (a & r & -> & Ha); [lia|].
  rewrite slen_app in Hj. destruct (split_at r (j - i)) as (b & r' & -> & Hb); [lia|].
  rewrite (slice_middle a b r') by lia. rewrite <- !app_assoc, app_assoc.
  apply slice_middle; rewrite !slen_app; lia.
Qed.

Section Component.
Context (q w sl : str).
Hypothesis Hw : w <> [].
Hypothesis Hwn : noslash w.
Hypothesis Hsl : allslash sl.
Hypothesis Hq : q = [] \/ exists q' c, q = q' ++ [c] /\ is_slash c = true.

Abbreviation p := (q ++ w ++ sl).

Lemma component_length : 0 < slen p.
Proof. destruct w; [done|]. rewrite !slen_app, slen_cons. slen_pos. lia. Qed.

Lemma extname_component : extname_str p = ext_of w.
Proof.
  unfold extname_str. rewrite (en_scan q w sl 0 0) by auto.
  assert (en_component (slen q) (if slen q <=? 0 then 0 else slen q) w =
          en_component (slen q) (slen q) w) as ->.
  { slen_pos. destruct (Z.leb_spec (slen q) 0); [|done]. f_equal. lia. }
  rewrite en_noext_component by auto using slen_nonneg. unfold ext_of.
  destruct (_ || _) eqn:E; [done|]. apply orb_false_iff in E as [E _]. reflect_bools.
  pose proof (lastIndexOf_lt w CHAR_DOT) as Hlt. slen_pos.
  unfold en_component. cbn [startDot en_end]. zbool. apply slice_component; lia.
Qed.

(** The prefix of a path: what [parse] reports as its directory. *)
Definition dir_of (q : str) : str :=
  if bool_decide (q = []) then [] else if bool_decide (q = lit "/") then lit "/"
  else slice q 0 (slen q - 1).

(** The extension [parse] reports: below the root it takes [..] for a name with
    an empty extension. *)
Definition parse_ext (q w : str) : str :=
  if bool_decide (q = lit "/") && str_eqb w (lit "..") then lit "." else ext_of w.

Lemma slash_head_prefix : slash_at p 0 = match q with c :: _ => is_slash c | [] => false end.
Proof.
  destruct q as [|c q']; [|done]. destruct w as [|c w']; [done|].
  inversion_clear Hwn as [|? ? Hc _]. done.
Qed.

Lemma slice_name : slen (ext_of w) <= slen w /\ slice w 0 (slen w - slen (ext_of w)) ++ ext_of w = w.
Proof.
  pose proof (lastIndexOf_lt w CHAR_DOT) as Hlt. unfold ext_of.
  destruct (_ || _) eqn:E.
  - change (slen (@nil Z)) with 0. rewrite Z.sub_0_r, slice_all, app_nil_r. slen_pos. done.
  - apply orb_false_iff in E as [E _]. reflect_bools. slen_pos.
    destruct (split_at w (lastIndexOf w [CHAR_DOT])) as (a & b & Hab & Ha); [lia|].
    set (d := lastIndexOf w [CHAR_DOT]) in *. clearbody d. subst d. rewrite Hab.
    rewrite sliceFrom_suffix, slen_app by done. slen_pos. split; [lia|].
    rewrite slice_prefix by lia. done.
Qed.

(** The slices [parse] takes, once the scan has found the component. *)
Lemma parse_slices st :
  st = en_component (slen q) (startPart st) w ->
  (if en_noext st then
     if negb (en_end st =? -1)
     then (slice p (slen q) (en_end st), slice p (slen q) (en_end st), [])
     else ([], [], [])
   else (slice p (slen q) (en_end st), slice p (slen q) (startDot st), slice p (startDot st) (en_end st)))
  = let e := if en_noext st then [] else sliceFrom w (lastIndexOf w [CHAR_DOT]) in
    (w, slice w 0 (slen w - slen e), e).
Proof.
  intros Hst. pose proof (lastIndexOf_lt w CHAR_DOT) as Hlt. slen_pos.
  assert (Hend : en_end st = slen q + slen w) by by rewrite Hst.
  assert (Hbase : slice p (slen q) (slen q + slen w) = w) by by rewrite slice_middle.
  rewrite Hend, Hbase. destruct (en_noext st) eqn:E.
  - zbool. cbn [negb]. change (slen (@nil Z)) with 0. by rewrite Z.sub_0_r, slice_all.
  - assert (Hd : 0 <= lastIndexOf w [CHAR_DOT] /\ startDot st = slen q + lastIndexOf w [CHAR_DOT]).
    { unfold en_noext in E. reflect_bools. rewrite Hst in *. unfold en_component in *.
      cbn [startDot] in *. destruct (Z.ltb_spec (lastIndexOf w [CHAR_DOT]) 0); lia. }
    destruct Hd as [Hd ->]. unfold sliceFrom. cbv zeta. f_equal; [f_equal|].
    + rewrite slen_slice by lia. replace (slen w - _) with (lastIndexOf w [CHAR_DOT]) by lia.
      rewrite <- (slice_component q w sl) by lia. f_equal. lia.
    + apply slice_component; lia.
Qed.

Lemma prefix_length : q <> [] -> q <> lit "/" -> slash_at p 0 = true -> 1 < slen q.
Proof.
  intros Hne Hroot. rewrite slash_head_prefix. destruct q as [|c q']; [done|]. intros Hc.
  rewrite slen_cons. destruct q' as [|d q']; [|rewrite slen_cons; slen_pos; lia].
  exfalso. apply Hroot. unfold is_slash in Hc. apply Z.eqb_eq in Hc. by subst.
Qed.

Lemma parse_component :
  parse_str p =
    mkParsed (if slash_at p 0 then lit "/" else []) (dir_of q) w (parse_ext q w)
      (slice w 0 (slen w - slen (parse_ext q w))).
Proof.
  unfold parse_str. pose proof component_length. zbool. cbv zeta.
  pose proof (slen_nonneg q). pose proof prefix_length as Hlong.
  unfold dir_of, parse_ext. destruct (bool_decide_reflect (q = lit "/")) as [Hroot|Hroot].
  - (* the component right below the root *)
    assert (slash_at p 0 = true) as -> by by rewrite slash_head_prefix, Hroot.
    assert (Hq1 : slen q = 1) by by rewrite Hroot.
    rewrite (en_scan q w sl 1 0 Hw Hwn Hsl Hq) by (right; split; [done|by rewrite Hroot]).
    rewrite Hq1. change (1 <=? 1) with true. cbv iota.
    change ((startPart (en_component 1 0 w) =? 0) && true) with true. cbv iota.
    assert (E := parse_slices (en_component 1 0 w)). rewrite Hq1 in E. rewrite E by done.
    rewrite en_noext_root by done. cbv zeta. change (0 <? startPart (en_component 1 0 w)) with false.
    rewrite bool_decide_false by by rewrite Hroot. cbv iota. cbn [andb].
    unfold ext_of. destruct (str_eqb w (lit "..")) eqn:Ew; reflect_bools.
    + by subst w.
    + by rewrite orb_false_r.
  - (* elsewhere the scan finds where the component starts *)
    set (lo := if slash_at p 0 then 1 else 0).
    assert (Hlo : lo = 0 \/ lo = 1 /\ q <> []).
    { subst lo. rewrite slash_head_prefix. destruct q as [|c q']; [by left|].
      destruct (is_slash c); [by right|by left]. }
    rewrite (en_scan q w sl lo 0 Hw Hwn Hsl Hq Hlo).
    assert (Hsp : (if slen q <=? lo then 0 else slen q) = slen q).
    { destruct (Z.leb_spec (slen q) lo) as [Hle|]; [|done].
      destruct (decide (q = [])) as [->|Hne]; [done|]. subst lo.
      destruct (slash_at p 0); [specialize (Hlong Hne Hroot eq_refl); lia|].
      destruct q; [done|]. rewrite slen_cons in Hle. slen_pos. lia. }
    rewrite Hsp. set (st := en_component (slen q) (slen q) w).
    assert (Hfrom : (if (startPart st =? 0) && slash_at p 0 then 1 else startPart st) = slen q).
    { change (startPart st) with (slen q). destruct (Z.eqb_spec (slen q) 0) as [E|]; [|done].
      apply slen_0 in E. rewrite slash_head_prefix, E. done. }
    rewrite Hfrom, parse_slices by done. cbv zeta. cbn [andb].
    subst st. rewrite en_noext_component by done. change (startPart _) with (slen q).
    fold (ext_of w). f_equal.
    destruct (bool_decide_reflect (q = [])) as [E|Hne]; [by rewrite slash_head_prefix, E|].
    assert (0 < slen q) by (destruct q; [done|rewrite slen_cons; slen_pos; lia]). zbool.
    rewrite <- (slice_component [] q (w ++ sl)) by lia. done.
Qed.

(** ** [basename] without an extension, and [dirname] *)

Definition bn_step (i c : Z) (st : bn_state) : bn_state :=
  if bn_end st =? -1 then mkBn (bn_start st) (i + 1) false (-1) (-1) else st.

Lemma run_bn_step off v :
  0 <= off -> v <> [] ->
  run bn_step off v (mkBn 0 (-1) true (-1) (-1)) = mkBn 0 (off + slen v) false (-1) (-1).
Proof.
  revert off. induction v as [|c v IH]; intros off Hoff Hv; [done|]. cbn [run].
  destruct (decide (v = [])) as [->|Hv'].
  - unfold bn_step. cbn [run bn_end]. change (-1 =? -1) with true. cbv iota. f_equal.
  - rewrite IH by (done || lia). unfold bn_step. cbn [bn_end]. slen_pos. zbool.
    f_equal. rewrite slen_cons. lia.
Qed.

Lemma bn_body_step i c st :
  charCodeAt p i = Some c -> is_slash c = false -> bn_body p i st = Continue (bn_step i c st).
Proof.
  intros Hat Hc. unfold bn_body, bn_step. rewrite Hat. cbn [code_is].
  change (c =? CHAR_FORWARD_SLASH) with (is_slash c). rewrite Hc. by case_bool.
Qed.

Lemma basename_component : basename_str p [] = w.
Proof.
  unfold basename_str. change (0 <? slen (@nil Z)) with false. cbn [andb].
  unfold for_down. replace (Z.to_nat (slen p - 1 - 0 + 1)) with (length sl + (length w + length q))%nat
    by (rewrite !slen_app; unfold slen; lia).
  replace (slen p - 1) with (slen (q ++ w) + slen sl - 1) by (rewrite !slen_app; lia).
  rewrite (for_down_skip _ (fun c => is_slash c = true) p sl) with (r := []); [|  |done|].
  2: { intros i c Hat Hc. unfold bn_body. rewrite Hat. cbn [code_is].
       change (c =? CHAR_FORWARD_SLASH) with (is_slash c). by rewrite Hc. }
  2: by rewrite app_nil_r, app_assoc.
  rewrite slen_app.
  rewrite (for_down_run _ bn_step (fun c => is_slash c = false) p w) with (r := sl);
    [|by apply bn_body_step|done|done].
  rewrite run_bn_step by auto using slen_nonneg.
  destruct Hq as [E|(q' & c & E & Hc)].
  - rewrite E. cbn [length for_n bn_end bn_start]. change (slen (@nil Z)) with 0. slen_pos. zbool.
    apply (slice_prefix w sl); lia.
  - replace (length q) with (S (length q')) by (rewrite E, length_app; simpl; lia).
    cbn [for_n]. unfold bn_body. cbn [bn_matchedSlash negb bn_end].
    assert (charCodeAt p (slen q - 1) = Some c) as ->.
    { rewrite E, <- app_assoc. apply charCodeAt_middle. autorewrite with js. lia. }
    cbn [code_is]. change (c =? CHAR_FORWARD_SLASH) with (is_slash c). rewrite Hc.
    cbn [bn_end bn_start]. slen_pos. zbool. apply slice_middle; lia.
Qed.

(** The directory part, as [dirname] gives it. *)
Definition dirname_of (q : str) : str :=
  if bool_decide (q = []) then lit "." else if bool_decide (q = lit "/") then lit "/"
  else if bool_decide (q = lit "//") then lit "//" else slice q 0 (slen q - 1).

Lemma dirname_scan :
  (for_down (slen p - 1) 1 (dirname_body p) (-1, true)).1 = if slen q <=? 1 then -1 else slen q - 1.
Proof.
  assert (Hstep : forall i c st, charCodeAt p i = Some c -> is_slash c = false ->
            dirname_body p i st = Continue (st.1, false)).
  { intros i c st Hat Hc. unfold dirname_body. rewrite Hat. cbn [code_is].
    change (c =? CHAR_FORWARD_SLASH) with (is_slash c). by rewrite Hc. }
  unfold for_down. slen_pos.
  set (n := Z.to_nat (slen q - 1)).
  (* the part of the component above index 0 *)
  destruct (split_at w (Z.max 0 (1 - slen q))) as (w0 & w1 & Ew & Hw0).
  { destruct w; [done|]. rewrite slen_cons in *. slen_pos. lia. }
  assert (Hw1 : noslash w1) by (rewrite Ew in Hwn; by apply Forall_app in Hwn as [_ ?]).
  assert (Hlen : slen w = slen w0 + slen w1) by by rewrite Ew, slen_app.
  replace (Z.to_nat (slen p - 1 - 1 + 1)) with (length sl + (length w1 + n))%nat
    by (subst n; rewrite !slen_app; unfold slen in *; lia).
  replace (slen p - 1) with (slen (q ++ w) + slen sl - 1) by (rewrite !slen_app; lia).
  rewrite (for_down_skip _ (fun c => is_slash c = true) p sl) with (r := []); [| |done|].
  2: { intros i c Hat Hc. unfold dirname_body. rewrite Hat. cbn [code_is].
       change (c =? CHAR_FORWARD_SLASH) with (is_slash c). by rewrite Hc. }
  2: by rewrite app_nil_r, app_assoc.
  replace (slen (q ++ w) - 1) with (slen (q ++ w0) + slen w1 - 1) by (rewrite !slen_app; lia).
  rewrite (for_down_run _ (fun _ _ st => (st.1, false)) (fun c => is_slash c = false) p w1) with (r := sl);
    [|done|done|by rewrite Ew, <- !app_assoc].
  assert (Hrun : forall off v st, (run (fun _ _ s => (s.1, false)) off v st : Z * bool).1 = st.1).
  { intros off v. revert off. induction v as [|? v IH]; intros; [done|]. cbn [run fst]. apply IH. }
  destruct (Z.leb_spec (slen q) 1).
  { replace n with O by (subst n; lia). cbn [for_n]. apply Hrun. }
  assert (E0 : w0 = []) by (apply slen_0; lia).
  rewrite E0 in Ew. cbn [app] in Ew. rewrite E0, app_nil_r, <- Ew.
  assert (exists m, n = S m) as [m ->] by (exists (Nat.pred n); subst n; lia). cbn [for_n].
  assert (Hmatched : exists e, run (fun _ _ s => (s.1, false)) (slen q) w (-1, true) = (e, false) /\ e = -1).
  { destruct w as [|c v]; [done|]. cbn [run]. eexists. split; [done|apply Hrun]. }
  destruct Hmatched as (e & -> & ->).
  destruct Hq as [E|(q' & c & E & Hc)]; [rewrite E in *; change (slen (@nil Z)) with 0 in *; lia|].
  assert (Hat : charCodeAt p (slen q - 1) = Some c).
  { rewrite E, <- app_assoc. apply charCodeAt_middle. autorewrite with js. lia. }
  unfold dirname_body. rewrite Hat. cbn [code_is].
  change (c =? CHAR_FORWARD_SLASH) with (is_slash c). by rewrite Hc.
Qed.

Lemma dirname_component : dirname_str p = dirname_of q.
Proof.
  unfold dirname_str. pose proof component_length. zbool.
  pose proof dirname_scan as Hscan.
  destruct (for_down (slen p - 1) 1 (dirname_body p) (-1, true)) as [e m]. cbn [fst] in Hscan. subst e.
  pose proof prefix_length as Hlong. unfold dirname_of.
  destruct (bool_decide_reflect (q = [])) as [E|Hne].
  { rewrite slash_head_prefix, E. done. }
  destruct (bool_decide_reflect (q = lit "/")) as [E|Hne1].
  { rewrite slash_head_prefix, E. done. }
  assert (Hq2 : 1 < slen q).
  { destruct (slash_at p 0) eqn:E; [by apply Hlong|]. rewrite slash_head_prefix in E.
    destruct Hq as [->|(q' & c & -> & Hc)]; [done|]. rewrite slen_app. change (slen [c]) with 1.
    destruct q' as [|d q']; [simpl in E; congruence|]. rewrite slen_cons. slen_pos. lia. }
  zbool. rewrite slash_head_prefix.
  assert (Hslice : slice p 0 (slen q - 1) = slice q 0 (slen q - 1)).
  { rewrite <- (slice_component [] q (w ++ sl)) by lia. done. }
  rewrite Hslice. destruct (bool_decide_reflect (q = lit "//")) as [->|Hne2]; [done|].
  destruct (Z.eqb_spec (slen q - 1) 1) as [E|]; [|by rewrite andb_false_r].
  destruct (match q with c :: _ => is_slash c | [] => false end) eqn:Habs; [|done].
  exfalso. apply Hne2. destruct Hq as [->|(q' & c & -> & Hc)]; [done|].
  rewrite slen_app in E. change (slen [c]) with 1 in E.
  destruct q' as [|d [|]]; rewrite ?slen_cons in E; change (slen (@nil Z)) with 0 in E; slen_pos; try lia.
  simpl in Habs. unfold is_slash in *. reflect_bools. by subst.
Qed.
End Component.

(** A path of slashes has no base name, and its directory is the root. *)
Lemma basename_slashes path : allslash path -> basename_str path [] = [].
Proof.
  intros Hp. unfold basename_str. change (0 <? slen (@nil Z)) with false. cbn [andb].
  unfold for_down. replace (Z.to_nat (slen path - 1 - 0 + 1)) with (length path + 0)%nat by (unfold slen; lia).
  assert (E := for_down_skip (bn_body path) (fun c => is_slash c = true) path path (mkBn 0 (-1) true (-1) (-1))).
  replace (slen path - 1) with (slen (@nil Z) + slen path - 1) by (change (slen (@nil Z)) with 0; lia).
  rewrite E with (r := []); [done| |done|by rewrite app_nil_r].
  intros i c Hat Hc. unfold bn_body. rewrite Hat. cbn [code_is].
  change (c =? CHAR_FORWARD_SLASH) with (is_slash c). by rewrite Hc.
Qed.

Lemma dirname_slashes path : path <> [] -> allslash path -> dirname_str path = lit "/".
Proof.
  intros Hne Hp. destruct path as [|c path]; [done|].
  inversion_clear Hp as [|? ? Hc Hp']. unfold dirname_str.
  rewrite slen_cons. slen_pos. zbool.
  replace (1 + slen path - 1) with (slen path) by lia. unfold for_down.
  replace (Z.to_nat (slen path - 1 + 1)) with (length path + 0)%nat by (unfold slen; lia).
  assert (E := for_down_skip (dirname_body (c :: path)) (fun c => is_slash c = true) (c :: path) path (-1, true)).
  replace (slen path) with (slen [c] + slen path - 1) by (change (slen [c]) with 1; lia).
  rewrite E with (r := []); [|  |done|by rewrite app_nil_r].
  - cbn [for_n]. by rewrite slash_at_head, Hc.
  - intros i d Hat Hd. unfold dirname_body. rewrite Hat. cbn [code_is].
    change (d =? CHAR_FORWARD_SLASH) with (is_slash d). by rewrite Hd.
Qed.
