(* ===== verification/PathPosixTheorems.v ===== *)
(** * Theorems on the POSIX path module

    The properties of the exported functions of [path/_posix.ts]. *)

From Stdlib Require Import ZArith Lia.
From stdpp Require Import base list strings numbers option sets.
From S2P Require Import Prelude PathUtil PathSegments PathPosix PathPosixProps.
From S2P Require Import PathPosixRelative PathPosixParse.

#[local] Open Scope Z_scope.

(** The working directory used in the examples: [/home/deno]. *)
Definition home : option (jsres jsval) := Some (Ok (VString (lit "/home/deno"))).

(** ** Segments that do not matter *)

(** [resolve_segments] ignores empty and [.] segments anywhere. *)
Definition significant (seg : str) : Prop := seg <> [] /\ seg <> lit ".".
#[local] Instance significant_dec seg : Decision (significant seg).
Proof. apply _. Defined.

Lemma fold_significant allow segs stk :
  fold_left (resolve_segment allow) segs stk =
    fold_left (resolve_segment allow) (filter significant segs) stk.
Proof.
  revert stk. induction segs as [|seg segs IH]; intros stk; [done|].
  rewrite filter_cons. case_decide as Hs; simpl; [apply IH|].
  rewrite resolve_segment_skip; [apply IH|].
  unfold significant in Hs.
  destruct (decide (seg = [])); [by left|]. destruct (decide (seg = lit ".")); [by right|tauto].
Qed.

Lemma resolve_significant segs segs' :
  filter significant segs = filter significant segs' ->
  resolve_segments false segs = resolve_segments false segs'.
Proof.
  intros E. unfold resolve_segments. rewrite fold_significant, E. by rewrite <- fold_significant.
Qed.

Lemma segments_slashes sl : allslash sl -> filter significant (segments sl) = [].
Proof.
  induction 1 as [|c sl Hc _ IH]; [done|]. simpl. rewrite Hc.
  rewrite filter_cons, decide_False by (by intros [? _]). done.
Qed.

Lemma segments_component w sl :
  noslash w -> allslash sl ->
  filter significant (segments (w ++ sl)) = filter significant [w].
Proof.
  intros Hw Hsl. destruct sl as [|c sl]; [by rewrite app_nil_r, split_on_nosep|].
  inversion_clear Hsl as [|? ? Hc Hsl']. rewrite split_on_app_sep by done.
  change (w :: segments sl) with ([w] ++ segments sl).
  by rewrite filter_app, segments_slashes, app_nil_r.
Qed.

(** ** [resolve] and [relative] *)

(** C17.  The one-pass [normalizeString] of [_util.ts], as [_posix.ts] and
    [_win32.ts] call it, resolves the [.] and [..] segments of the path exactly
    as a stack of segments does, and joins what is left with the separator. *)
Theorem normalizeString_resolves path allowAboveRoot :
  normalizeString path allowAboveRoot (lit "/") isPosixPathSeparator =
    js_join (lit "/") (resolve_segments allowAboveRoot
      (split_on (fun c => isPosixPathSeparator (Some c)) path)) /\
  normalizeString path allowAboveRoot [CHAR_BACKWARD_SLASH] isPathSeparator =
    js_join [CHAR_BACKWARD_SLASH] (resolve_segments allowAboveRoot
      (split_on (fun c => isPathSeparator (Some c)) path)).
Proof.
  split.
  - apply (normalizeString_segments isPosixPathSeparator CHAR_FORWARD_SLASH).
  - apply (normalizeString_segments isPathSeparator CHAR_BACKWARD_SLASH).
Qed.

(** C24.  [relative] inverts resolution: with an absolute working directory it
    never throws on strings, and following the path it returns from [from]
    leads to where [to] leads. *)
Theorem relative_inverse cwd from to :
  isAbsolute_str cwd = true ->
  let env := Some (Ok (VString cwd)) in
  exists r, relative env (VString from) (VString to) = Ok r /\
    resolve env [VString from; VString r] = resolve env [VString to].
Proof.
  intros Hcwd env.
  assert (Hres : forall ps, resolve env (map VString ps) =
            Ok (abs_path (resolve_segments false (fold_left cd ps (segments cwd)))))
    by (intros; by apply resolve_segs).
  assert (Hres1 := fun f => Hres [f]). assert (Hres2 := fun f g => Hres [f; g]).
  cbn [map fold_left] in Hres1, Hres2. clear Hres.
  assert (Hempty : forall f, resolve env [VString f; VString []] = resolve env [VString f])
    by (intros f; by rewrite Hres1, Hres2).
  unfold relative. simpl assertPath. cbn [jsbind].
  destruct (str_eqb from to) eqn:E; reflect_bools; [subst; eauto|].
  rewrite !Hres1. cbn [jsbind].
  set (A := resolve_segments false (cd (segments cwd) from)).
  set (B := resolve_segments false (cd (segments cwd) to)).
  destruct (str_eqb (abs_path A) (abs_path B)) eqn:EAB; reflect_bools.
  { exists []. split; [done|]. rewrite Hempty, Hres1. by f_equal. }
  assert (HAB : A <> B) by congruence.
  destruct (resolved_plain cwd [from]) as [HAp HAn]. destruct (resolved_plain cwd [to]) as [HBp HBn].
  cbn [fold_left] in *. fold A in HAp, HAn. fold B in HBp, HBn.
  rewrite relative_resolved_segments by done.
  eexists. split; [done|].
  rewrite Hres2, relative_segments_cd by done.
  rewrite <- resolve_segments_app. fold A. by rewrite relative_segments_arrive.
Qed.

Lemma relative_inverse_witness :
  exists r, relative home (VString (lit "../x/y")) (VString (lit "z")) = Ok r /\
    resolve home [VString (lit "../x/y"); VString r] = resolve home [VString (lit "z")].
Proof. apply (relative_inverse (lit "/home/deno") (lit "../x/y") (lit "z")). reflexivity. Defined.

(** [resolve] acts as a sequence of [cd] commands from the working
    directory: its result is the absolute path of the segments so reached, with
    [.] and [..] resolved, and a nonempty segment that is absolute starts over. *)
Lemma resolve_is_cd cwd paths :
  isAbsolute_str cwd = true ->
  resolve (Some (Ok (VString cwd))) (map VString paths) =
    Ok (abs_path (resolve_segments false (fold_left cd paths (segments cwd)))).
Proof. intros. by apply resolve_segs. Qed.

Lemma resolve_is_cd_witness :
  resolve home (map VString [lit "a/./b"; []; lit "../c"]) = Ok (lit "/home/deno/a/c").
Proof. apply (resolve_is_cd (lit "/home/deno") [lit "a/./b"; []; lit "../c"]). reflexivity. Defined.

(** [normalize] is idempotent on every string. *)
Lemma normalize_idempotent path p1 :
  normalize (VString path) = Ok p1 -> normalize (VString p1) = Ok p1.
Proof. intros [= <-]. unfold normalize. cbn [assertPath jsbind]. by rewrite normalize_str_idempotent. Qed.

Lemma normalize_idempotent_witness :
  normalize (VString (lit "a/../b//./c/")) = Ok (lit "b/c/") /\
  normalize (VString (lit "b/c/")) = Ok (lit "b/c/").
Proof. split; [reflexivity|]. apply (normalize_idempotent (lit "a/../b//./c/")). reflexivity. Defined.

(** ** Components *)

(** The parsed path as an argument of [format]. *)
Definition format_input (r : ParsedPath) : FormatInputPathObject :=
  mkFormatInput (Some (root r)) (Some (dir r)) (Some (base r)) (Some (ext r)) (Some (name r)).

Lemma last_slash_nil (q w sl : str) :
  w <> [] -> noslash w -> allslash sl ->
  slash_at (q ++ w ++ sl) (slen (q ++ w ++ sl) - 1) = false -> sl = [].
Proof.
  intros Hw Hwn Hsl. destruct sl as [|c sl _] using rev_ind; [done|].
  rewrite !app_assoc, slash_at_last. apply Forall_app in Hsl as [_ [Hc _]%Forall_cons]. congruence.
Qed.

Lemma format_parse_component q w :
  w <> [] -> noslash w -> (q = [] \/ exists q' c, q = q' ++ [c] /\ is_slash c = true) ->
  q <> lit "//" -> _format (lit "/") (format_input (parse_str (q ++ w))) = q ++ w.
Proof.
  intros Hw Hwn Hq Hne. assert (E := parse_component q w [] Hw Hwn (Forall_nil_2 _) Hq).
  rewrite app_nil_r in E. rewrite E. assert (Hhead := slash_head_prefix q w [] Hw Hwn Hq).
  rewrite app_nil_r in Hhead. rewrite Hhead.
  unfold _format, format_input, dir_of. cbn [f_dir f_root f_base dir root base].
  assert (Hbase : forall x, default [] (or_str (Some w) x) = w) by by destruct w.
  rewrite Hbase. destruct Hq as [->|(q' & c & -> & Hc)]; [done|].
  unfold is_slash in Hc. reflect_bools. subst c.
  rewrite (bool_decide_false (q' ++ _ = [])) by by destruct q'.
  destruct (bool_decide_reflect (q' ++ [CHAR_FORWARD_SLASH] = lit "/")) as [->|Hroot]; [done|].
  rewrite slice_prefix by (autorewrite with js; lia).
  destruct q' as [|d q']; [done|]. cbn [app or_str].
  rewrite bool_decide_false; [by rewrite <- !app_assoc|].
  unfold is_slash. destruct (Z.eqb_spec d CHAR_FORWARD_SLASH) as [->|]; [|done].
  change (lit "/") with [CHAR_FORWARD_SLASH]. intros E'. by simplify_eq.
Qed.

(** [format] inverts [parse] on every path that has no trailing slash, the
    root and the empty path included, save the paths [//name], whose second
    slash [parse] does not report. *)
Lemma parse_format_roundtrip path :
  path = [] \/ path = lit "/" \/ slash_at path (slen path - 1) = false ->
  (forall w, noslash w -> path <> lit "//" ++ w) ->
  exists r, parse (VString path) = Ok r /\ format (FObject (format_input r)) = Ok path.
Proof.
  intros Hend Hdouble. exists (parse_str path). split; [done|]. unfold format. f_equal.
  destruct Hend as [->|[->|Hlast]]; [done|done|].
  destruct (trim_decompose is_slash path) as [Hall|(q & w & sl & -> & Hw & Hwn & Hsl & Hq)].
  - destruct path as [|c path _] using rev_ind; [done|]. rewrite slash_at_last in Hlast.
    apply Forall_app in Hall as [_ [Hc _]%Forall_cons]. congruence.
  - apply last_slash_nil in Hlast as ->; auto. rewrite app_nil_r in *.
    apply format_parse_component; auto. intros ->. by apply (Hdouble w).
Qed.

Lemma parse_format_roundtrip_witness :
  exists r, parse (VString (lit "/home//u/file.txt")) = Ok r /\
            format (FObject (format_input r)) = Ok (lit "/home//u/file.txt").
Proof.
  apply (parse_format_roundtrip (lit "/home//u/file.txt")); [by right; right|].
  intros w Hw E. apply (f_equal (fun s => s !! 1%nat)) in E. discriminate E.
Defined.

(** [parse], [basename] and [extname] agree on every path: the parsed base
    is the base name, it is the name followed by the extension, and the
    extension is that of [extname] except for [/..], which [parse] splits into
    the name [.] and the extension [.]. *)
Lemma parse_agrees path :
  let r := parse_str path in
  base r = basename_str path [] /\ name r ++ ext r = base r /\
  (ext r = extname_str path \/
   (base r = lit ".." /\ dir r = lit "/" /\ ext r = lit "." /\ extname_str path = [])).
Proof.
  destruct (trim_decompose is_slash path) as [Hall|(q & w & sl & -> & Hw & Hwn & Hsl & Hq)].
  - cbv zeta. unfold extname_str, parse_str.
    destruct path as [|c path]; [by split_and!; [| |left]|].
    set (p := c :: path) in *. assert (Hp : 0 < slen p) by (unfold p; rewrite slen_cons; slen_pos; lia).
    zbool. rewrite !en_scan_slashes by (done || case_bool; lia).
    rewrite basename_slashes by done. split_and!; [done|done|by left].
  - rewrite parse_component, extname_component, basename_component by done.
    cbn [base ext name dir]. unfold parse_ext.
    destruct (bool_decide_reflect (q = lit "/")) as [->|Hroot]; cbn [andb].
    + destruct (str_eqb w (lit "..")) eqn:Ew; reflect_bools.
      * subst w. split_and!; [done|done|by right].
      * split_and!; [done|by apply slice_name|by left].
    + split_and!; [done|by apply slice_name|by left].
Qed.

(** Following [dirname] and then [basename] reaches the same segments. *)
Lemma cd_dirname_basename cur path :
  filter significant (cd (cd cur (dirname_str path)) (basename_str path [])) =
    filter significant (cd cur path).
Proof.
  destruct (decide (path = [])) as [->|Hne].
  { change (cd cur (dirname_str [])) with (cur ++ [lit "."]).
    change (cd (cur ++ [lit "."]) (basename_str [] [])) with (cur ++ [lit "."]).
    rewrite filter_app. by rewrite app_nil_r. }
  destruct (trim_decompose is_slash path) as [Hall|(q & w & sl & -> & Hw & Hwn & Hsl & Hq)].
  - rewrite basename_slashes, dirname_slashes by done.
    change (cd (cd cur (lit "/")) []) with [@nil Z; []].
    unfold cd. rewrite bool_decide_false by done. destruct path as [|c path]; [done|].
    inversion Hall as [|? ? Hc _]; subst. rewrite slash_at_head, Hc.
    by rewrite segments_slashes.
  - rewrite dirname_component, basename_component by done.
    assert (Hw0 : slash_at w 0 = false) by (destruct w; [done|]; by inversion Hwn).
    assert (Hcdw : forall c, cd c w = c ++ [w]).
    { intros c. unfold cd. rewrite bool_decide_false, Hw0 by done. by rewrite split_on_nosep. }
    rewrite Hcdw, filter_app. unfold cd at 2. rewrite bool_decide_false by by destruct q, w.
    rewrite slash_head_prefix by done. unfold dirname_of.
    destruct Hq as [->|(q' & c & -> & Hc)].
    + rewrite bool_decide_true by done. unfold cd. rewrite bool_decide_false by done.
      change (slash_at (lit ".") 0) with false. cbv iota. cbn [app].
      rewrite !filter_app, segments_component by done.
      change (filter significant (segments (lit "."))) with (@nil str). by rewrite app_nil_r.
    + unfold is_slash in Hc. reflect_bools. subst c.
      rewrite bool_decide_false by by destruct q'.
      assert (Hsegs : filter significant (segments ((q' ++ [SL]) ++ w ++ sl)) =
                      filter significant (segments q') ++ filter significant [w]).
      { rewrite <- app_assoc. cbn [app]. rewrite split_on_app by done.
        by rewrite filter_app, segments_component. }
      assert (Hdir : exists d, (if bool_decide (q' ++ [SL] = lit "/") then lit "/"
                  else if bool_decide (q' ++ [SL] = lit "//") then lit "//"
                  else slice (q' ++ [SL]) 0 (slen (q' ++ [SL]) - 1)) = d /\ d <> [] /\
                slash_at d 0 = match q' ++ [SL] with c :: _ => is_slash c | [] => false end /\
                filter significant (segments d) = filter significant (segments q')).
      { destruct (bool_decide_reflect (q' ++ [SL] = lit "/")) as [E|N1].
        { destruct q' as [|? [|]]; try discriminate E. by eexists. }
        destruct (bool_decide_reflect (q' ++ [SL] = lit "//")) as [E|N2].
        { destruct q' as [|? [|? [|]]]; try discriminate E. injection E as ->. by eexists. }
        rewrite slice_prefix by (autorewrite with js; lia). exists q'.
        destruct q' as [|c q']; [done|]. by split_and!. }
      destruct Hdir as (d & -> & Hd0 & Hdabs & Hdsegs). unfold cd.
      rewrite bool_decide_false, Hdabs by done.
      destruct (match q' ++ [SL] with c :: _ => is_slash c | [] => false end);
        rewrite ?filter_app, Hdsegs, Hsegs; by rewrite ?app_assoc.
Qed.

(** [dirname] and [basename] cut a path without changing where it leads:
    resolving the two parts one after the other is resolving the path. *)
Lemma dirname_basename_resolve cwd path :
  isAbsolute_str cwd = true ->
  let env := Some (Ok (VString cwd)) in
  exists d b, dirname (VString path) = Ok d /\ basename (VString path) VUndefined = Ok b /\
    resolve env [VString d; VString b] = resolve env [VString path].
Proof.
  intros Hcwd env. exists (dirname_str path), (basename_str path []).
  split; [done|]. split; [done|].
  assert (E2 := resolve_segs cwd Hcwd [dirname_str path; basename_str path []]).
  assert (E1 := resolve_segs cwd Hcwd [path]). cbn [map fold_left] in E1, E2.
  unfold env. rewrite E1, E2. do 2 f_equal.
  apply resolve_significant, cd_dirname_basename.
Qed.

Lemma dirname_basename_resolve_witness :
  exists d b, dirname (VString (lit "a//b.c///")) = Ok d /\
    basename (VString (lit "a//b.c///")) VUndefined = Ok b /\
    resolve home [VString d; VString b] = resolve home [VString (lit "a//b.c///")].
Proof. apply (dirname_basename_resolve (lit "/home/deno") (lit "a//b.c///")). reflexivity. Defined.

(** The argument checks: on a value that is not a string, [normalize],
    [isAbsolute], [dirname], [basename], [extname], [parse], and [join] and
    [resolve] at any position before which no error occurs, throw
    [ERR_INVALID_ARG_TYPE] for the argument [path]. *)
Lemma posix_rejects_non_strings v :
  (forall s, v <> VString s) ->
  let err := ERR_INVALID_ARG_TYPE "path" ["string"%string] v in
  normalize v = Throw err /\ isAbsolute v = Throw err /\ dirname v = Throw err /\
  basename v VUndefined = Throw err /\ extname v = Throw err /\ parse v = Throw err /\
  (forall ps qs, join (map VString ps ++ v :: qs) = Throw err) /\
  (forall env ps, Forall (fun p => isAbsolute_str p = false) ps ->
     resolve env (v :: map VString ps) = Throw err).
Proof.
  intros Hv err. assert (Ha : assertPath v = Throw err) by (destruct v; try done; by specialize (Hv s)).
  assert (Hstep : forall st, resolve_step v st = Throw err) by (intros; unfold resolve_step; by rewrite Ha).
  split_and!; try (unfold normalize, isAbsolute, dirname, basename, extname, parse; by rewrite Ha).
  - intros ps qs. unfold join. rewrite slen_app, slen_cons. slen_pos. zbool.
    clear -Ha. generalize (@None str). induction ps as [|p ps IH]; intros j; simpl.
    + by rewrite Ha.
    + apply IH.
  - intros env ps HF. unfold resolve. cbn [rev].
    assert (E : forall acc, resolve_loop env (rev (map VString ps) ++ [v]) (acc, false) = Throw err).
    { clear -HF Hstep. rewrite <- map_rev. apply Forall_rev in HF. revert HF.
      induction (rev ps) as [|p l IH]; intros HF acc; simpl.
      - by rewrite Hstep.
      - inversion_clear HF as [|? ? Hp HF'].
        destruct (decide (p = [])) as [->|Hne]; [by apply IH|].
        rewrite resolve_step_str by done. cbn [jsbind].
        unfold isAbsolute_str in Hp. destruct p as [|c p]; [done|].
        rewrite slen_cons in Hp. slen_pos.
        rewrite (proj2 (Z.ltb_lt _ _)) in Hp by lia. cbn [andb] in Hp. rewrite Hp. by apply IH. }
    by rewrite E.
Qed.

Lemma posix_rejects_non_strings_witness :
  normalize (VNumber 7) = Throw (ERR_INVALID_ARG_TYPE "path" ["string"%string] (VNumber 7)).
Proof. apply (posix_rejects_non_strings (VNumber 7)). discriminate. Defined.

(** With an extension argument that is longer than the last component,
    [basename] returns the trailing slashes the documentation says it ignores:
    [basename("a/b/", "xb")] is [b/], while [basename("a/b/")] is [b]. *)
Lemma basename_keeps_slashes :
  basename (VString (lit "a/b/")) (VString (lit "xb")) = Ok (lit "b/") /\
  basename (VString (lit "a/b/")) VUndefined = Ok (lit "b").
Proof. split; reflexivity. Qed.
