(* ===== verification/PathCommon.v ===== *)
(** * The common prefix of paths

    Models [src/ext/node/polyfills/path/common.ts].  The separator is one code
    unit, as [SEP] of [path/separator.ts] is on every system. *)

From Stdlib Require Import ZArith Lia.
From stdpp Require Import base list strings numbers option.
From S2P Require Import Prelude.

#[local] Open Scope Z_scope.

(** [path.split(sep)] *)
Definition split_sep (sep : Z) (path : str) : list str := split_on (fun c => c =? sep) path.

(** The inner loop: [endOfPrefix] is part of its condition. *)
Definition shrink (parts compare : list str) (endOfPrefix : Z) : Z :=
  for_up 0 endOfPrefix
    (fun i e =>
       if negb (i <? e) then Break e
       else if bool_decide (compare !! Z.to_nat i = parts !! Z.to_nat i) then Continue e
       else Continue i) endOfPrefix.

(** The outer loop; [None] is the early return of the empty string. *)
Fixpoint shrink_all (sep : Z) (parts : list str) (remaining : list str) (endOfPrefix : Z) : option Z :=
  match remaining with
  | [] => Some endOfPrefix
  | path :: rest =>
      let e := shrink parts (split_sep sep path) endOfPrefix in
      if e =? 0 then None else shrink_all sep parts rest e
  end.

(** [prefix.endsWith(sep)] *)
Definition ends_with (sep : Z) (s : str) : bool := code_is (charCodeAt s (slen s - 1)) sep.

Definition common (paths : list str) (sep : Z) : str :=
  let first := default [] (head paths) in
  let remaining := tail paths in
  if str_eqb first [] || (slen remaining =? 0) then
    slice first 0 (lastIndexOf first [sep] + 1)
  else
    let parts := split_sep sep first in
    match shrink_all sep parts remaining (slen parts) with
    | None => []
    | Some endOfPrefix =>
        let prefix := js_join [sep] (slice parts 0 endOfPrefix) in
        if ends_with sep prefix then prefix else prefix ++ [sep]
    end.

(** ** The longest common prefix of lists of segments *)

(** The first [k] segments agree. *)
Definition agrees (k : Z) (l l' : list str) : Prop := forall i, (Z.of_nat i < k) -> l !! i = l' !! i.

(** [shrink] stops at the first segment that differs. *)
Lemma shrink_spec parts compare e :
  0 <= e ->
  let e' := shrink parts compare e in
  0 <= e' <= e /\ agrees e' compare parts /\
  (e' < e -> compare !! Z.to_nat e' <> parts !! Z.to_nat e').
Proof.
  intros He. cbv zeta. unfold shrink.
  apply (for_up_rule (fun i e' =>
    (e' = e /\ agrees i compare parts) \/
    (0 <= e' < i /\ e' < e /\ agrees e' compare parts /\ compare !! Z.to_nat e' <> parts !! Z.to_nat e'))).
  - done.
  - left. split; [done|]. intros i Hi. lia.
  - intros i e' Hi [[-> Ha]|(H1 & H2 & Ha & Hd)].
    + destruct (Z.ltb_spec i e); [|lia]. simpl. case_bool_decide as E.
      * left. split; [done|]. intros j Hj. destruct (decide (Z.of_nat j = i)) as [<-|].
        { by rewrite Nat2Z.id in E. }
        apply Ha. lia.
      * right. split_and!; [lia|lia|lia|done|done].
    + destruct (Z.ltb_spec i e'); [lia|]. simpl. split_and!; [lia|lia|done|done].
  - intros e' [[-> Ha]|(H1 & H2 & Ha & Hd)]; [split_and!; [lia|lia|done|lia]|].
    split_and!; [lia|lia|done|done].
Qed.

Lemma agrees_weaken k k' l l' : agrees k l l' -> k' <= k -> agrees k' l l'.
Proof. intros Ha Hk i Hi. apply Ha. lia. Qed.

(** [k] is the length of the longest common prefix of [parts] and the others. *)
Definition longest (parts : list str) (others : list (list str)) (k : Z) : Prop :=
  0 <= k <= slen parts /\ Forall (fun l => agrees k l parts) others /\
  (k < slen parts -> Exists (fun l => l !! Z.to_nat k <> parts !! Z.to_nat k) others).

Lemma shrink_all_spec sep parts remaining done_ e :
  longest parts done_ e ->
  let k := default 0 (shrink_all sep parts remaining e) in
  longest parts (done_ ++ map (split_sep sep) remaining) k /\
  (remaining <> [] -> shrink_all sep parts remaining e <> Some 0).
Proof.
  revert done_ e. induction remaining as [|path rest IH]; intros done_ e Hl; simpl.
  { by rewrite app_nil_r. }
  destruct Hl as (He & Ha & Hx). destruct (shrink_spec parts (split_sep sep path) e) as (H1 & H2 & H3); [lia|].
  set (e' := shrink parts (split_sep sep path) e) in *.
  assert (Hl' : longest parts (done_ ++ [split_sep sep path]) e').
  { split; [lia|]. split.
    - apply Forall_app. split; [|by constructor].
      revert Ha. apply List.Forall_impl. intros l Hla. apply (agrees_weaken e); [done|lia].
    - intros Hlt. apply Exists_app. destruct (decide (e' < e)); [right|left].
      + constructor. by apply H3.
      + replace e' with e by lia. apply Hx. lia. }
  destruct (Z.eqb_spec e' 0) as [E|E]; simpl; split; try done.
  - rewrite E in Hl'. destruct Hl' as (_ & _ & Hx'). split; [slen_pos; lia|]. split.
    + apply Forall_forall. intros l _ i Hi. lia.
    + intros Hlt. specialize (Hx' Hlt). rewrite cons_middle, app_assoc. apply Exists_app. by left.
  - destruct (IH _ _ Hl') as [H4 _]. by rewrite <- app_assoc in H4.
  - intros _. destruct rest as [|p2 rest]; [simpl; congruence|]. by apply (IH _ _ Hl').
Qed.

(** For two paths or more, the first of them not empty, [common] returns the
    longest prefix of segments that all paths share, joined again and closed
    with a separator; it is empty exactly when not even the first segments
    agree. *)
Lemma common_longest first second rest sep :
  first <> [] ->
  exists k, longest (split_sep sep first) (map (split_sep sep) (second :: rest)) k /\
    common (first :: second :: rest) sep =
      (if k =? 0 then []
       else let prefix := js_join [sep] (take (Z.to_nat k) (split_sep sep first)) in
            if ends_with sep prefix then prefix else prefix ++ [sep]).
Proof.
  intros Hf. set (parts := split_sep sep first).
  destruct (shrink_all_spec sep parts (second :: rest) [] (slen parts)) as [Hl Hn].
  { split; [slen_pos; lia|]. split; [constructor|lia]. }
  unfold common. change (default [] (head (first :: second :: rest))) with first.
  change (tail (first :: second :: rest)) with (second :: rest). cbv zeta.
  assert (str_eqb first [] = false) as -> by (by apply bool_decide_eq_false).
  replace (slen (second :: rest) =? 0) with false by (rewrite slen_cons; slen_pos; by zbool). cbn [orb].
  fold parts. exists (default 0 (shrink_all sep parts (second :: rest) (slen parts))). split; [exact Hl|].
  destruct (shrink_all sep parts (second :: rest) (slen parts)) as [k|] eqn:E; [|done].
  change (default 0 (Some k)) with k in *. destruct Hl as (Hk & _).
  destruct (Z.eqb_spec k 0) as [->|]; [by destruct Hn|].
  assert (slice parts 0 k = take (Z.to_nat k) parts) as ->; [|done].
  unfold slice, clamp_index. destruct (Z.ltb_spec k 0); [lia|]. change (0 <? 0) with false. cbv iota.
  rewrite !Z.min_l by lia. by rewrite Z.sub_0_r.
Qed.

Lemma common_longest_witness :
  exists k, longest (split_sep 47 (lit "./deno/std/path/mod.ts"))
      (map (split_sep 47) [lit "./deno/std/fs/mod.ts"; lit "./deno/test"]) k /\
    common [lit "./deno/std/path/mod.ts"; lit "./deno/std/fs/mod.ts"; lit "./deno/test"] 47 =
      (if k =? 0 then []
       else let prefix := js_join [47] (take (Z.to_nat k) (split_sep 47 (lit "./deno/std/path/mod.ts"))) in
            if ends_with 47 prefix then prefix else prefix ++ [47]).
Proof.
  apply (common_longest (lit "./deno/std/path/mod.ts") (lit "./deno/std/fs/mod.ts") [lit "./deno/test"] 47).
  discriminate.
Defined.
