(* ===== verification/PathWin32.v ===== *)
(** * The Windows path module

    Models [ext/node/polyfills/path/_win32.ts], every exported function, with
    the conventions of [PathPosix]: [f_str] is the string computation of [f].
    [String.prototype.toLowerCase] is the Unicode case mapping of the engine, a
    parameter here; [Deno.cwd] and [Deno.env.get] are parameters too. *)

From Stdlib Require Import ZArith Lia.
From stdpp Require Import base list strings numbers option sets.
From S2P Require Import Prelude PathUtil.

#[local] Open Scope Z_scope.

Definition sep : str := lit "\".
Definition delimiter : str := lit ";".

(** [isPathSeparator(path.charCodeAt(i))] *)
Abbreviation sep_at s i := (isPathSeparator (charCodeAt s i)).
(** [s.charCodeAt(i) === CHAR_BACKWARD_SLASH] *)
Abbreviation bs_at s i := (code_is (charCodeAt s i) CHAR_BACKWARD_SLASH).

(** ** Roots *)

(** [for (; j < len; ++j) if (isPathSeparator(path.charCodeAt(j))) break;] *)
Definition skip_nonsep (path : str) (j : Z) : Z :=
  for_up j (slen path) (fun j _ => if sep_at path j then Break j else Continue (j + 1)) j.

(** [for (; j < len; ++j) if (!isPathSeparator(path.charCodeAt(j))) break;] *)
Definition skip_sep (path : str) (j : Z) : Z :=
  for_up j (slen path) (fun j _ => if negb (sep_at path j) then Break j else Continue (j + 1)) j.

(** The scan of a UNC root after a double separator: the end of the server
    name, the start of the share name and its end, when both names are there. *)
Definition unc_scan (path : str) : option (Z * Z * Z) :=
  let len := slen path in
  let last := 2 in
  let j := skip_nonsep path 2 in
  if (j <? len) && negb (j =? last) then
    let firstEnd := j in
    let last := j in
    let j := skip_sep path j in
    if (j <? len) && negb (j =? last) then
      let last := j in
      let j := skip_nonsep path j in
      Some (firstEnd, last, j)
    else None
  else None.

(** ** [resolve] *)

Section Win32.
Context (toLowerCase : str -> str).
Context (Deno_cwd : option (jsres jsval)) (Deno_env_get : bool).

(** What the root matching of [resolve] finds in a path (lines 77 to 149). *)
Record root_info := mkRoot { device : str; rootEnd : Z; isAbs : bool }.

Definition resolve_root (path : str) : root_info :=
  let len := slen path in
  let code := charCodeAt path 0 in
  if 1 <? len then
    if isPathSeparator code then
      if sep_at path 1 then
        match unc_scan path with
        | Some (firstEnd, last, j) =>
            if j =? len then
              mkRoot (lit "\\" ++ slice path 2 firstEnd ++ lit "\" ++ sliceFrom path last) j true
            else if negb (j =? last) then
              mkRoot (lit "\\" ++ slice path 2 firstEnd ++ lit "\" ++ slice path last j) j true
            else mkRoot [] 0 true
        | None => mkRoot [] 0 true
        end
      else mkRoot [] 1 true
    else if isWindowsDeviceRoot code then
      if code_is (charCodeAt path 1) CHAR_COLON then
        if (2 <? len) && sep_at path 2 then mkRoot (slice path 0 2) 3 true
        else mkRoot (slice path 0 2) 2 false
      else mkRoot [] 0 false
    else mkRoot [] 0 false
  else if isPathSeparator code then mkRoot [] 1 true
  else mkRoot [] 0 false.

Record rs_state := mkRs { resolvedDevice : str; resolvedTail : str; resolvedAbsolute : bool }.

(** The body of the loop once [path] is known: skips and breaks included. *)
Definition resolve_step (path : jsval) (st : rs_state) : jsres (ctl rs_state) :=
  let? path := assertPath path in
  if slen path =? 0 then Ok (Continue st)
  else
    let r := resolve_root path in
    if (0 <? slen (device r)) && (0 <? slen (resolvedDevice st)) &&
       negb (str_eqb (toLowerCase (device r)) (toLowerCase (resolvedDevice st)))
    then Ok (Continue st)
    else
      let rd := if (slen (resolvedDevice st) =? 0) && (0 <? slen (device r))
                then device r else resolvedDevice st in
      let st := if negb (resolvedAbsolute st)
                then mkRs rd (sliceFrom path (rootEnd r) ++ lit "\" ++ resolvedTail st) (isAbs r)
                else mkRs rd (resolvedTail st) (resolvedAbsolute st) in
      if resolvedAbsolute st && (0 <? slen (resolvedDevice st)) then Ok (Break st)
      else Ok (Continue st).

(** The path at index -1: the working directory, or the root of the drive. *)
Definition resolve_cwd (st : rs_state) : jsres jsval :=
  if slen (resolvedDevice st) =? 0 then
    match Deno_cwd with
    | None => Throw (JsTypeError "Resolved a drive-letter-less path without a CWD.")
    | Some cwd => cwd
    end
  else
    match Deno_env_get, Deno_cwd with
    | true, Some cwd =>
        let? path := cwd in
        let root := VString (resolvedDevice st ++ lit "\") in
        match path with
        | VUndefined => Ok root
        | VString p =>
            if negb (str_eqb (toLowerCase (slice p 0 3)) (toLowerCase (resolvedDevice st) ++ lit "\"))
            then Ok root else Ok path
        | _ => Throw (JsTypeError "path.slice is not a function")
        end
    | _, _ => Throw (JsTypeError "Resolved a relative path without a CWD.")
    end.

Fixpoint resolve_loop (segs_rev : list jsval) (st : rs_state) : jsres rs_state :=
  match segs_rev with
  | path :: rest =>
      let? c := resolve_step path st in
      match c with Continue st => resolve_loop rest st | Break st => Ok st end
  | [] =>
      let? path := resolve_cwd st in
      let? c := resolve_step path st in
      match c with Continue st | Break st => Ok st end
  end.

Definition resolve (pathSegments : list jsval) : jsres str :=
  let? st := resolve_loop (rev pathSegments) (mkRs [] [] false) in
  let tail := normalizeString (resolvedTail st) (negb (resolvedAbsolute st)) (lit "\") isPathSeparator in
  Ok (match resolvedDevice st ++ (if resolvedAbsolute st then lit "\" else []) ++ tail with
      | [] => lit "."
      | r => r
      end).

(** ** [normalize] and [isAbsolute] *)

(** What the root matching of [normalize] finds: an early result (the function
    returns), or the device, the end of the root and absoluteness. *)
Definition normalize_root (path : str) : str + (option str * Z * bool) :=
  let len := slen path in
  let code := charCodeAt path 0 in
  if 1 <? len then
    if isPathSeparator code then
      if sep_at path 1 then
        match unc_scan path with
        | Some (firstEnd, last, j) =>
            if j =? len then
              inl (lit "\\" ++ slice path 2 firstEnd ++ lit "\" ++ sliceFrom path last ++ lit "\")
            else if negb (j =? last) then
              inr (Some (lit "\\" ++ slice path 2 firstEnd ++ lit "\" ++ slice path last j), j, true)
            else inr (None, 0, true)
        | None => inr (None, 0, true)
        end
      else inr (None, 1, true)
    else if isWindowsDeviceRoot code then
      if code_is (charCodeAt path 1) CHAR_COLON then
        if (2 <? len) && sep_at path 2 then inr (Some (slice path 0 2), 3, true)
        else inr (Some (slice path 0 2), 2, false)
      else inr (None, 0, false)
    else inr (None, 0, false)
  else if isPathSeparator code then inl (lit "\")
  else inr (None, 0, false).

Definition normalize_str (path : str) : str :=
  let len := slen path in
  if len =? 0 then lit "."
  else
    match normalize_root path with
    | inl r => r
    | inr (device, rootEnd, isAbsolute) =>
        let tail := if rootEnd <? len
                    then normalizeString (sliceFrom path rootEnd) (negb isAbsolute) (lit "\") isPathSeparator
                    else [] in
        let tail := if (slen tail =? 0) && negb isAbsolute then lit "." else tail in
        let tail := if (0 <? slen tail) && sep_at path (len - 1) then tail ++ lit "\" else tail in
        match device with
        | None => if isAbsolute then (if 0 <? slen tail then lit "\" ++ tail else lit "\")
                  else if 0 <? slen tail then tail else []
        | Some device =>
            if isAbsolute then (if 0 <? slen tail then device ++ lit "\" ++ tail else device ++ lit "\")
            else if 0 <? slen tail then device ++ tail else device
        end
    end.

Definition normalize (path : jsval) : jsres str :=
  let? path := assertPath path in Ok (normalize_str path).

Definition isAbsolute_str (path : str) : bool :=
  let len := slen path in
  if len =? 0 then false
  else
    let code := charCodeAt path 0 in
    if isPathSeparator code then true
    else if isWindowsDeviceRoot code then
      if (2 <? len) && code_is (charCodeAt path 1) CHAR_COLON then sep_at path 2
      else false
    else false.

Definition isAbsolute (path : jsval) : jsres bool :=
  let? path := assertPath path in Ok (isAbsolute_str path).

(** ** [join] *)

(** The loop of [join]: [(joined, firstPart)]. *)
Fixpoint join_loop (paths : list jsval) (st : option (str * str)) : jsres (option (str * str)) :=
  match paths with
  | [] => Ok st
  | path :: rest =>
      let? path := assertPath path in
      join_loop rest
        (if 0 <? slen path then
           match st with
           | None => Some (path, path)
           | Some (joined, firstPart) => Some (joined ++ lit "\" ++ path, firstPart)
           end
         else st)
  end.

(** The slash count and whether slashes are to be replaced (lines 360 to 378). *)
Definition join_slashes (firstPart : str) : bool * Z :=
  if sep_at firstPart 0 then
    if 1 <? slen firstPart then
      if sep_at firstPart 1 then
        if 2 <? slen firstPart then
          if sep_at firstPart 2 then (true, 3) else (false, 2)
        else (true, 2)
      else (true, 1)
    else (true, 1)
  else (true, 0).

Definition join (paths : list jsval) : jsres str :=
  if slen paths =? 0 then Ok (lit ".")
  else
    let? st := join_loop paths None in
    match st with
    | None => Ok (lit ".")
    | Some (joined, firstPart) =>
        let '(needsReplace, slashCount) := join_slashes firstPart in
        let joined :=
          if needsReplace then
            let slashCount := skip_sep joined slashCount in
            if 2 <=? slashCount then lit "\" ++ sliceFrom joined slashCount else joined
          else joined in
        normalize (VString joined)
    end.

(** ** [relative] *)

(** Trims leading and trailing backslashes: the bounds left (lines 416 to 427). *)
Definition trim_bounds (s : str) : Z * Z :=
  let end0 := slen s in
  let start := for_up 0 end0 (fun i _ => if bs_at s i then Continue (i + 1) else Break i) 0 in
  let end_ := for_down end0 (start + 2)
                (fun e _ => if bs_at s (e - 1) then Continue (e - 1) else Break e) end0 in
  (start, end_).

(** The comparison loop: the index it stopped at, the last common separator, and
    the result when it returns from the function. *)
Definition rel_body (from to toOrig : str) (fromStart fromLen toStart toLen length : Z)
    (i : Z) (st : Z * Z * option str) : ctl (Z * Z * option str) :=
  let '(_, lcs, ret) := st in
  if i =? length then
    if (length <? toLen) && bs_at to (toStart + i) then
      Break (i, lcs, Some (sliceFrom toOrig (toStart + i + 1)))
    else if (length <? toLen) && (i =? 2) then
      Break (i, lcs, Some (sliceFrom toOrig (toStart + i)))
    else if length <? fromLen then
      if bs_at from (fromStart + i) then Break (i, i, ret)
      else if i =? 2 then Break (i, 3, ret)
      else Break (i, lcs, ret)
    else Break (i, lcs, ret)
  else
    let fromCode := charCodeAt from (fromStart + i) in
    let toCode := charCodeAt to (toStart + i) in
    if negb (bool_decide (fromCode = toCode)) then Break (i, lcs, ret)
    else if code_is fromCode CHAR_BACKWARD_SLASH then Continue (i + 1, i, ret)
    else Continue (i + 1, lcs, ret).

Definition rel_out (from : str) (start fromEnd : Z) : str :=
  for_up start (fromEnd + 1)
    (fun i out =>
       if (i =? fromEnd) || bs_at from i
       then Continue (if slen out =? 0 then out ++ lit ".." else out ++ lit "\..")
       else Continue out) [].

(** [relative] once both paths are resolved and differ (lines 416 to 502). *)
Definition relative_resolved (from to toOrig : str) : str :=
  let '(fromStart, fromEnd) := trim_bounds from in
  let fromLen := fromEnd - fromStart in
  let '(toStart, toEnd) := trim_bounds to in
  let toLen := toEnd - toStart in
  let length := if fromLen <? toLen then fromLen else toLen in
  let '(i, lastCommonSep, ret) :=
    for_up 0 (length + 1)
      (rel_body from to toOrig fromStart fromLen toStart toLen length) (0, -1, None) in
  match ret with
  | Some r => r
  | None =>
      if negb (i =? length) && (lastCommonSep =? -1) then toOrig
      else
        let lastCommonSep := if lastCommonSep =? -1 then 0 else lastCommonSep in
        let out := rel_out from (fromStart + lastCommonSep + 1) fromEnd in
        if 0 <? slen out then out ++ slice toOrig (toStart + lastCommonSep) toEnd
        else
          let toStart := toStart + lastCommonSep in
          let toStart := if bs_at toOrig toStart then toStart + 1 else toStart in
          slice toOrig toStart toEnd
  end.

Definition relative (from to : jsval) : jsres str :=
  let? f := assertPath from in
  let? t := assertPath to in
  if str_eqb f t then Ok []
  else
    let? fromOrig := resolve [VString f] in
    let? toOrig := resolve [VString t] in
    if str_eqb fromOrig toOrig then Ok []
    else
      let from := toLowerCase fromOrig in
      let to := toLowerCase toOrig in
      if str_eqb from to then Ok [] else Ok (relative_resolved from to toOrig).

(** ** [toNamespacedPath] *)

Definition toNamespacedPath (path : jsval) : jsres jsval :=
  match path with
  | VString p =>
      if slen p =? 0 then Ok (VString [])
      else
        let? resolvedPath := resolve [path] in
        if 3 <=? slen resolvedPath then
          if bs_at resolvedPath 0 then
            if bs_at resolvedPath 1 then
              let code := charCodeAt resolvedPath 2 in
              if negb (code_is code CHAR_QUESTION_MARK) && negb (code_is code CHAR_DOT)
              then Ok (VString (lit "\\?\UNC\" ++ sliceFrom resolvedPath 2))
              else Ok path
            else Ok path
          else if isWindowsDeviceRoot (charCodeAt resolvedPath 0) then
            if code_is (charCodeAt resolvedPath 1) CHAR_COLON && bs_at resolvedPath 2
            then Ok (VString (lit "\\?\" ++ resolvedPath))
            else Ok path
          else Ok path
        else Ok path
  | _ => Ok path
  end.

End Win32.

(** ** [dirname], [basename], [extname] *)

(** The root of [dirname] (lines 550 to 613): an early result, or [rootEnd] and
    [offset]. *)
Definition dirname_root (path : str) : str + (Z * Z) :=
  let len := slen path in
  let code := charCodeAt path 0 in
  if 1 <? len then
    if isPathSeparator code then
      if sep_at path 1 then
        match unc_scan path with
        | Some (_, last, j) =>
            if j =? len then inl path
            else if negb (j =? last) then inr (j + 1, j + 1)
            else inr (1, 1)
        | None => inr (1, 1)
        end
      else inr (1, 1)
    else if isWindowsDeviceRoot code then
      if code_is (charCodeAt path 1) CHAR_COLON then
        if (2 <? len) && sep_at path 2 then inr (3, 3) else inr (2, 2)
      else inr (-1, 0)
    else inr (-1, 0)
  else if isPathSeparator code then inl path
  else inr (-1, 0).

Definition dirname_body (path : str) (i : Z) (st : Z * bool) : ctl (Z * bool) :=
  if sep_at path i then
    if negb st.2 then Break (i, st.2) else Continue st
  else Continue (st.1, false).

Definition dirname_str (path : str) : str :=
  if slen path =? 0 then lit "."
  else
    match dirname_root path with
    | inl r => r
    | inr (rootEnd, offset) =>
        let '(end_, _) := for_down (slen path - 1) offset (dirname_body path) (-1, true) in
        if end_ =? -1 then
          if rootEnd =? -1 then lit "." else slice path 0 rootEnd
        else slice path 0 end_
    end.

Definition dirname (path : jsval) : jsres str :=
  let? path := assertPath path in Ok (dirname_str path).

Record bn_state := mkBn {
  bn_start : Z; bn_end : Z; bn_matchedSlash : bool; bn_extIdx : Z; bn_firstNonSlashEnd : Z
}.

Definition bn_ext_body (path ext : str) (i : Z) (st : bn_state) : ctl bn_state :=
  let code := charCodeAt path i in
  if isPathSeparator code then
    if negb (bn_matchedSlash st)
    then Break (mkBn (i + 1) (bn_end st) (bn_matchedSlash st) (bn_extIdx st) (bn_firstNonSlashEnd st))
    else Continue st
  else
    let first := bn_firstNonSlashEnd st =? -1 in
    let matchedSlash := if first then false else bn_matchedSlash st in
    let firstNonSlashEnd := if first then i + 1 else bn_firstNonSlashEnd st in
    if 0 <=? bn_extIdx st then
      if bool_decide (code = charCodeAt ext (bn_extIdx st)) then
        let extIdx := bn_extIdx st - 1 in
        Continue (mkBn (bn_start st) (if extIdx =? -1 then i else bn_end st)
                    matchedSlash extIdx firstNonSlashEnd)
      else Continue (mkBn (bn_start st) firstNonSlashEnd matchedSlash (-1) firstNonSlashEnd)
    else Continue (mkBn (bn_start st) (bn_end st) matchedSlash (bn_extIdx st) firstNonSlashEnd).

Definition bn_body (path : str) (i : Z) (st : bn_state) : ctl bn_state :=
  if sep_at path i then
    if negb (bn_matchedSlash st)
    then Break (mkBn (i + 1) (bn_end st) (bn_matchedSlash st) (-1) (-1))
    else Continue st
  else if bn_end st =? -1 then Continue (mkBn (bn_start st) (i + 1) false (-1) (-1))
  else Continue st.

Definition basename_str (path ext : str) : str :=
  let start :=
    if 2 <=? slen path then
      if isWindowsDeviceRoot (charCodeAt path 0) && code_is (charCodeAt path 1) CHAR_COLON then 2 else 0
    else 0 in
  if (0 <? slen ext) && (slen ext <=? slen path) then
    if (slen ext =? slen path) && str_eqb ext path then []
    else
      let st := for_down (slen path - 1) start (bn_ext_body path ext)
                  (mkBn start (-1) true (slen ext - 1) (-1)) in
      let end_ := if bn_start st =? bn_end st then bn_firstNonSlashEnd st
                  else if bn_end st =? -1 then slen path else bn_end st in
      slice path (bn_start st) end_
  else
    let st := for_down (slen path - 1) start (bn_body path) (mkBn start (-1) true (-1) (-1)) in
    if bn_end st =? -1 then [] else slice path (bn_start st) (bn_end st).

Definition basename (path ext : jsval) : jsres str :=
  match ext with
  | VUndefined => let? path := assertPath path in Ok (basename_str path [])
  | VString ext => let? path := assertPath path in Ok (basename_str path ext)
  | _ => Throw (ERR_INVALID_ARG_TYPE "ext" ["string"%string] ext)
  end.

Record en_state := mkEn {
  startDot : Z; startPart : Z; en_end : Z; matchedSlash : bool; preDotState : Z
}.

Definition en_body (path : str) (i : Z) (st : en_state) : ctl en_state :=
  let code := charCodeAt path i in
  if isPathSeparator code then
    if negb (matchedSlash st)
    then Break (mkEn (startDot st) (i + 1) (en_end st) (matchedSlash st) (preDotState st))
    else Continue st
  else
    let fresh := en_end st =? -1 in
    let matchedSlash := if fresh then false else matchedSlash st in
    let end_ := if fresh then i + 1 else en_end st in
    if code_is code CHAR_DOT then
      if startDot st =? -1 then Continue (mkEn i (startPart st) end_ matchedSlash (preDotState st))
      else Continue (mkEn (startDot st) (startPart st) end_ matchedSlash
                       (if negb (preDotState st =? 1) then 1 else preDotState st))
    else if negb (startDot st =? -1) then
      Continue (mkEn (startDot st) (startPart st) end_ matchedSlash (-1))
    else Continue (mkEn (startDot st) (startPart st) end_ matchedSlash (preDotState st)).

Definition en_noext (st : en_state) : bool :=
  (startDot st =? -1) || (en_end st =? -1) || (preDotState st =? 0) ||
  ((preDotState st =? 1) && (startDot st =? en_end st - 1) && (startDot st =? startPart st + 1)).

Definition extname_str (path : str) : str :=
  let start := if (2 <=? slen path) && code_is (charCodeAt path 1) CHAR_COLON &&
                  isWindowsDeviceRoot (charCodeAt path 0) then 2 else 0 in
  let st := for_down (slen path - 1) start (en_body path) (mkEn (-1) start (-1) true 0) in
  if en_noext st then [] else slice path (startDot st) (en_end st).

Definition extname (path : jsval) : jsres str :=
  let? path := assertPath path in Ok (extname_str path).

(** ** [format] and [parse] *)

Inductive format_arg := FObject (o : FormatInputPathObject) | FOther (v : jsval).

Definition format (pathObject : format_arg) : jsres str :=
  match pathObject with
  | FObject o => Ok (_format (lit "\") o)
  | FOther v => Throw (ERR_INVALID_ARG_TYPE "pathObject" ["Object"%string] v)
  end.

(** The root of [parse] (lines 815 to 886): [None] when the path is only a root
    and the function returns. *)
Definition parse_root (path : str) : option Z :=
  let len := slen path in
  let code := charCodeAt path 0 in
  if 1 <? len then
    if isPathSeparator code then
      if sep_at path 1 then
        match unc_scan path with
        | Some (_, last, j) =>
            if j =? len then Some j
            else if negb (j =? last) then Some (j + 1)
            else Some 1
        | None => Some 1
        end
      else Some 1
    else if isWindowsDeviceRoot code then
      if code_is (charCodeAt path 1) CHAR_COLON then
        if 2 <? len then
          if sep_at path 2 then (if len =? 3 then None else Some 3) else Some 2
        else None
      else Some 0
    else Some 0
  else if isPathSeparator code then None
  else Some 0.

Definition parse_str (path : str) : ParsedPath :=
  if slen path =? 0 then mkParsed [] [] [] [] []
  else
    match parse_root path with
    | None => mkParsed path path [] [] []
    | Some rootEnd =>
        let root := if 0 <? rootEnd then slice path 0 rootEnd else [] in
        let st := for_down (slen path - 1) rootEnd (en_body path) (mkEn (-1) rootEnd (-1) true 0) in
        let '(base, name, ext) :=
          if en_noext st then
            if negb (en_end st =? -1)
            then (slice path (startPart st) (en_end st), slice path (startPart st) (en_end st), [])
            else ([], [], [])
          else (slice path (startPart st) (en_end st), slice path (startPart st) (startDot st),
                slice path (startDot st) (en_end st)) in
        let dir := if (0 <? startPart st) && negb (startPart st =? rootEnd)
                   then slice path 0 (startPart st - 1) else root in
        mkParsed root dir base ext name
    end.

Definition parse (path : jsval) : jsres ParsedPath :=
  let? path := assertPath path in Ok (parse_str path).
