(* ===== verification/PathWin32Props.v ===== *)
(** * Properties of the Windows path module

    [normalize] on drive paths in terms of segments, what [resolve] knows of the
    device while it scans its arguments, and the separators at the start of
    normalized and joined paths. *)

From Stdlib Require Import ZArith Lia.
From stdpp Require Import base list strings numbers option sets.
From S2P Require Import Prelude PathUtil PathSegments PathWin32.

#[local] Open Scope Z_scope.

Definition is_wsep (c : Z) : bool := isPathSeparator (Some c).
Abbreviation wsegments := (split_on is_wsep).
Abbreviation nosep := (Forall (fun c => is_wsep c = false)).
Abbreviation join_bs := (js_join (lit "\")).

Lemma normalizeString_win32 path allow :
  normalizeString path allow (lit "\") isPathSeparator = join_bs (resolve_segments allow (wsegments path)).
Proof. apply (normalizeString_segments isPathSeparator CHAR_BACKWARD_SLASH). Qed.

(** A property of all segments that [..] has holds after resolution. *)
Lemma resolve_segments_Forall (P : str -> Prop) allow segs :
  P (lit "..") -> Forall P segs -> Forall P (resolve_segments allow segs).
Proof.
  intros Hdd HF. apply Forall_rev.
  assert (H0 : Forall P []) by done. revert H0.
  generalize (@nil str). induction HF as [|seg segs Hs HF IH]; intros stk H0; [done|].
  apply IH. unfold resolve_segment.
  destruct (_ || _); [done|]. destruct (str_eqb seg _); [|by constructor].
  destruct stk as [|t stk]; [destruct allow; by repeat constructor|].
  destruct (str_eqb t _); [destruct allow; [by constructor|done]|by inversion H0].
Qed.

(** The resolved segments of a path: non-empty, without separators. *)
Definition wresolved (allow : bool) (path : str) : list str := resolve_segments allow (wsegments path).

Lemma wresolved_nosep allow path : Forall nosep (wresolved allow path).
Proof. apply resolve_segments_Forall; [by repeat constructor|apply split_on_segs]. Qed.

Lemma wresolved_nonempty allow path : Forall (fun seg => seg <> []) (wresolved allow path).
Proof. eapply canonical_nonempty, resolve_segments_canonical. Qed.

(** The joined segments are empty or start and end with a code that is no
    separator. *)
Lemma join_bs_ends segs :
  segs <> [] -> Forall (fun seg => seg <> []) segs -> Forall nosep segs ->
  (exists c s, join_bs segs = c :: s /\ is_wsep c = false) /\
  (exists s c, join_bs segs = s ++ [c] /\ is_wsep c = false).
Proof.
  intros Hne Hn Hs. split.
  - destruct segs as [|seg segs]; [done|]. inversion_clear Hn. inversion_clear Hs as [|? ? Hseg _].
    destruct seg as [|c seg]; [done|]. inversion_clear Hseg. destruct segs; by eexists c, _.
  - destruct segs as [|seg segs _] using rev_ind; [done|].
    apply Forall_app in Hn as [_ Hn]. apply Forall_app in Hs as [_ Hs].
    inversion_clear Hn as [|? ? Hn0 _]. inversion_clear Hs as [|? ? Hseg _].
    destruct seg as [|c seg _] using rev_ind; [done|].
    apply Forall_app in Hseg as [_ Hc]. inversion_clear Hc.
    destruct (decide (segs = [])) as [->|]; [by exists seg, c|].
    rewrite js_join_snoc by done. exists (join_bs segs ++ lit "\" ++ seg), c. by rewrite <-!app_assoc.
Qed.

(** ** Drive paths *)

(** A drive letter. *)
Abbreviation letter d := (isWindowsDeviceRoot (Some d) = true).

Lemma letter_nosep d : letter d -> is_wsep d = false.
Proof.
  unfold is_wsep, isPathSeparator, isPosixPathSeparator, code_is, isWindowsDeviceRoot.
  unfold CHAR_LOWERCASE_A, CHAR_LOWERCASE_Z, CHAR_UPPERCASE_A, CHAR_UPPERCASE_Z,
    CHAR_FORWARD_SLASH, CHAR_BACKWARD_SLASH.
  intros H. apply orb_true_iff in H as [H|H]; reflect_bools; zbool; done.
Qed.

(** Whether a path ends in a separator. *)
Definition trailing (path : str) : bool := sep_at path (slen path - 1).

(** A drive-absolute path, as [normalize] prints it. *)
Definition drive_path (d : Z) (segs : list str) (tr : bool) : str :=
  [d; CHAR_COLON; CHAR_BACKWARD_SLASH] ++ join_bs segs ++ (if bool_decide (segs <> []) && tr then lit "\" else []).

Lemma slen_join_bs segs :
  Forall (fun seg => seg <> []) segs -> (0 <? slen (join_bs segs)) = bool_decide (segs <> []).
Proof.
  intros HF. destruct segs as [|seg segs]; [done|]. inversion_clear HF.
  rewrite bool_decide_eq_true_2 by done. apply Z.ltb_lt.
  destruct seg as [|c seg]; [done|].
  destruct segs; cbn [js_join app]; rewrite slen_cons; slen_pos; lia.
Qed.

Lemma normalize_drive d s rest :
  letter d -> is_wsep s = true ->
  normalize_str (d :: CHAR_COLON :: s :: rest) = drive_path d (wresolved false rest) (trailing rest).
Proof.
  intros Hd Hs. unfold normalize_str, normalize_root. rewrite !slen_cons. slen_pos.
  zbool. change (charCodeAt (d :: CHAR_COLON :: s :: rest) 0) with (Some d).
  rewrite (letter_nosep d Hd : isPathSeparator (Some d) = false), Hd.
  change (charCodeAt (d :: CHAR_COLON :: s :: rest) 1) with (Some CHAR_COLON).
  change (charCodeAt (d :: CHAR_COLON :: s :: rest) 2) with (Some s).
  change (code_is (Some CHAR_COLON) CHAR_COLON) with true. rewrite (Hs : isPathSeparator (Some s) = true). cbn [andb].
  change (slice (d :: CHAR_COLON :: s :: rest) 0 2) with
    (slice ([d; CHAR_COLON] ++ s :: rest) 0 2). rewrite slice_prefix by done.
  assert (Htail : (if 3 <? 1 + (1 + (1 + slen rest))
                   then normalizeString (sliceFrom (d :: CHAR_COLON :: s :: rest) 3) (negb true) (lit "\")
                          isPathSeparator
                   else []) = join_bs (wresolved false rest)).
  { change (d :: CHAR_COLON :: s :: rest) with ([d; CHAR_COLON; s] ++ rest).
    rewrite sliceFrom_suffix, normalizeString_win32 by done.
    destruct (Z.ltb_spec 3 (1 + (1 + (1 + slen rest)))); [done|]. by rewrite (slen_0 rest) by lia. }
  rewrite Htail. cbn [negb]. rewrite andb_false_r, (slen_join_bs _ (wresolved_nonempty false rest)).
  unfold drive_path. destruct (decide (wresolved false rest = [])) as [E|E].
  { rewrite E. done. }
  rewrite bool_decide_eq_true_2 by done. cbn [andb].
  assert (Hrest : rest <> []) by (intros ->; by apply E).
  replace (charCodeAt _ _) with (charCodeAt rest (slen rest - 1)).
  2:{ change (d :: CHAR_COLON :: s :: rest) with ([d; CHAR_COLON; s] ++ rest).
      rewrite charCodeAt_app_r; [f_equal; change (slen [d; CHAR_COLON; s]) with 3; lia|].
      change (slen [d; CHAR_COLON; s]) with 3. destruct rest; [done|]. rewrite slen_cons. slen_pos. lia. }
  fold (trailing rest). destruct (trailing rest).
  - pose proof (slen_join_bs _ (wresolved_nonempty false rest)) as Hp.
    rewrite bool_decide_eq_true_2 in Hp by done. apply Z.ltb_lt in Hp.
    rewrite slen_app. change (slen (lit "\")) with 1. zbool. done.
  - rewrite (slen_join_bs _ (wresolved_nonempty false rest)), bool_decide_eq_true_2 by done.
    by rewrite app_nil_r.
Qed.

(** The segments of a printed drive path are the ones it was made from. *)
Lemma wresolved_join segs tr :
  Forall plain segs -> Forall nosep segs ->
  wresolved false (join_bs segs ++ (if bool_decide (segs <> []) && tr then lit "\" else [])) = segs.
Proof.
  intros Hp Hn. destruct (decide (segs = [])) as [->|Hne]; [done|].
  rewrite bool_decide_eq_true_2 by done. cbn [andb]. unfold wresolved.
  assert (E : wsegments (join_bs segs) = segs) by by apply (split_on_join is_wsep CHAR_BACKWARD_SLASH).
  destruct tr.
  - change (lit "\") with [CHAR_BACKWARD_SLASH] at 2. rewrite split_on_snoc_sep, E by done.
    rewrite resolve_segments_nil_r. by apply canonical_resolved, plain_canonical.
  - rewrite app_nil_r, E. by apply canonical_resolved, plain_canonical.
Qed.

Lemma drive_path_normal d segs tr :
  letter d -> Forall plain segs -> Forall nosep segs ->
  normalize_str (drive_path d segs tr) = drive_path d segs tr.
Proof.
  intros Hd Hp Hn. unfold drive_path at 1. cbn [app].
  rewrite (normalize_drive d CHAR_BACKWARD_SLASH _ Hd) by done. rewrite wresolved_join by done.
  unfold drive_path. do 2 f_equal. destruct (decide (segs = [])) as [->|Hne]; [done|].
  rewrite bool_decide_eq_true_2 by done. cbn [andb]. f_equal.
  destruct (join_bs_ends segs Hne (plain_nonempty _ Hp) Hn) as [_ (s & c & E & Hc)].
  unfold trailing. destruct tr.
  - change (lit "\") with [CHAR_BACKWARD_SLASH] at 1 2 3 4. rewrite charCodeAt_middle; [done|].
    rewrite slen_app. change (slen [CHAR_BACKWARD_SLASH]) with 1. lia.
  - rewrite app_nil_r, E, charCodeAt_middle; [by rewrite (Hc : isPathSeparator (Some c) = false)|].
    rewrite slen_app. change (slen [c]) with 1. lia.
Qed.

(** ** The device [resolve] finds *)

(** A drive, or a device that starts with a backslash. *)
Definition is_drive (dv : str) : Prop := exists d, letter d /\ dv = [d; CHAR_COLON].
Definition device_ok (dv : str) : Prop := dv = [] \/ is_drive dv \/ exists s, dv = CHAR_BACKWARD_SLASH :: s.

Lemma slice_drive path d :
  charCodeAt path 0 = Some d -> charCodeAt path 1 = Some CHAR_COLON -> slice path 0 2 = [d; CHAR_COLON].
Proof.
  destruct path as [|x [|y path]]; [done|done|]. intros [= ->] [= ->].
  change (d :: CHAR_COLON :: path) with ([d; CHAR_COLON] ++ path). by apply slice_prefix.
Qed.

(** Of a root that is not absolute, the device is a drive or missing. *)
Lemma resolve_root_ok path :
  device_ok (device (resolve_root path)) /\
  (isAbs (resolve_root path) = false -> device (resolve_root path) = [] \/ is_drive (device (resolve_root path))).
Proof.
  unfold resolve_root.
  repeat match goal with
  | |- context [if ?b then _ else _] => destruct b eqn:?
  | |- context [match unc_scan path with _ => _ end] => destruct (unc_scan path) as [[[? ?] ?]|]
  end; simpl; try (split; [by left|by intros; left]);
  try (split; [right; right; by eexists|done]).
  all: destruct (charCodeAt path 0) as [d|] eqn:E0; [|done];
    destruct (charCodeAt path 1) as [c|] eqn:E1; [|done];
    assert (c = CHAR_COLON) as -> by (by apply Z.eqb_eq);
    rewrite (slice_drive path d E0 E1).
  - split; [right; left; by exists d|done].
  - split; [right; left; by exists d|intros _; right; by exists d].
Qed.

Section Resolve.
Context (toLowerCase : str -> str).

(** The state of the loop: the device is well formed, and one that is known
    before the path is absolute is a drive. *)
Record rs_ok (st : rs_state) : Prop := {
  ro_device : device_ok (resolvedDevice st);
  ro_drive : resolvedAbsolute st = false -> resolvedDevice st = [] \/ is_drive (resolvedDevice st);
}.

Definition complete (st : rs_state) : Prop := resolvedAbsolute st = true /\ resolvedDevice st <> [].

Lemma slen_0_eqb (s : str) : (slen s =? 0) = bool_decide (s = []).
Proof. destruct s; [done|]. rewrite slen_cons. slen_pos. zbool. done. Qed.

Lemma resolve_step_ok p st :
  rs_ok st -> ~ complete st ->
  exists c, resolve_step toLowerCase (VString p) st = Ok c /\
    match c with
    | Continue st' => rs_ok st' /\ ~ complete st'
    | Break st' => rs_ok st' /\ complete st'
    end.
Proof.
  intros Hok Hnc. unfold resolve_step. cbn [assertPath jsbind].
  destruct (slen p =? 0); [by eexists|].
  destruct (resolve_root_ok p) as [Hd Ha]. set (r := resolve_root p) in *.
  destruct ((0 <? slen (device r)) && (0 <? slen (resolvedDevice st)) && _); [by eexists|].
  set (rd := if _ && _ then device r else resolvedDevice st).
  assert (Hrd : device_ok rd) by (subst rd; case_bool; [done|apply Hok]).
  set (st' := if negb (resolvedAbsolute st) then _ else _).
  assert (Hok' : rs_ok st').
  { subst st'. destruct (resolvedAbsolute st) eqn:Eabs; simpl; constructor; simpl; try done.
    intros Hab. subst rd. case_bool; [by apply Ha|by apply Hok]. }
  destruct (resolvedAbsolute st') eqn:Eab; cbn [andb].
  - destruct (Z.ltb_spec 0 (slen (resolvedDevice st'))) as [Hlt|Hge]; eexists; (split; [reflexivity|]).
    + split; [done|]. split; [done|]. intros E. rewrite E in Hlt. done.
    + split; [done|]. intros [_ Hne]. apply Hne, slen_0. slen_pos. lia.
  - eexists. split; [reflexivity|]. split; [done|]. intros [? _]. congruence.
Qed.

Context (cwd_d cwd_s : Z) (cwd_rest : str).
Context (Hletter : letter cwd_d) (Hsep : is_wsep cwd_s = true).
Abbreviation cwd := (cwd_d :: CHAR_COLON :: cwd_s :: cwd_rest).
(** Lower case leaves a final separator alone. *)
Context (Hlower : forall t c, is_wsep c = true -> toLowerCase (t ++ [c]) = toLowerCase t ++ [c]).

Lemma resolve_root_drive d s rest :
  letter d -> is_wsep s = true -> resolve_root (d :: CHAR_COLON :: s :: rest) = mkRoot [d; CHAR_COLON] 3 true.
Proof.
  intros Hd Hs. unfold resolve_root. rewrite !slen_cons. slen_pos. zbool.
  change (charCodeAt (d :: CHAR_COLON :: s :: rest) 0) with (Some d).
  rewrite (letter_nosep d Hd : isPathSeparator (Some d) = false), Hd.
  change (charCodeAt (d :: CHAR_COLON :: s :: rest) 1) with (Some CHAR_COLON).
  change (charCodeAt (d :: CHAR_COLON :: s :: rest) 2) with (Some s).
  change (code_is (Some CHAR_COLON) CHAR_COLON) with true. rewrite (Hs : isPathSeparator (Some s) = true). cbn [andb].
  by rewrite (slice_drive _ d).
Qed.

(** A drive-absolute path whose drive is the known one, or when none is known,
    completes the resolution. *)
Lemma resolve_step_drive d s rest st :
  letter d -> is_wsep s = true -> rs_ok st ->
  (resolvedDevice st = [] \/ toLowerCase (resolvedDevice st) = toLowerCase [d; CHAR_COLON]) ->
  exists st', resolve_step toLowerCase (VString (d :: CHAR_COLON :: s :: rest)) st = Ok (Break st') /\
    rs_ok st' /\ complete st'.
Proof.
  intros Hd Hs Hok Hdev. unfold resolve_step. cbn [assertPath jsbind].
  rewrite slen_0_eqb, bool_decide_eq_false_2, (resolve_root_drive d s rest Hd Hs) by done. cbn [device rootEnd isAbs].
  change (0 <? slen [d; CHAR_COLON]) with true. cbn [andb].
  assert ((0 <? slen (resolvedDevice st)) &&
          negb (str_eqb (toLowerCase [d; CHAR_COLON]) (toLowerCase (resolvedDevice st))) = false) as ->.
  { destruct Hdev as [->|E]; [done|]. rewrite E. unfold str_eqb.
    rewrite bool_decide_eq_true_2 by done. by rewrite andb_false_r. }
  rewrite slen_0_eqb, andb_true_r.
  set (rd := if bool_decide _ then _ else _).
  assert (Hrd : rd <> [] /\ device_ok rd).
  { subst rd. case_bool_decide as E; [|split; [done|apply Hok]]. split; [done|]. right. left. by exists d. }
  destruct Hrd as [Hne Hrd].
  assert (Hpos : (0 <? slen rd) = true).
  { apply Z.ltb_lt. destruct rd; [done|]. rewrite slen_cons. slen_pos. lia. }
  destruct (resolvedAbsolute st) eqn:Eab; cbn [negb]; cbn [resolvedAbsolute resolvedDevice andb];
    rewrite ?Eab, Hpos; eexists; (split; [reflexivity|]); split; (split; [done|done]) || (by split).
Qed.

Lemma resolve_loop_complete ps st :
  rs_ok st -> ~ complete st ->
  exists st', resolve_loop toLowerCase (Some (Ok (VString cwd))) true (VString <$> ps) st = Ok st' /\
    rs_ok st' /\ complete st'.
Proof.
  revert st. induction ps as [|p ps IH]; intros st Hok Hnc.
  - change (VString <$> []) with (@nil jsval). cbn [resolve_loop]. unfold resolve_cwd. rewrite slen_0_eqb.
    case_bool_decide as E.
    { cbn [jsbind]. destruct (resolve_step_drive cwd_d cwd_s cwd_rest st) as (st' & -> & ? & ?); auto. by exists st'. }
    assert (Hdr : is_drive (resolvedDevice st)).
    { destruct (ro_drive _ Hok); [|done|done]. destruct (resolvedAbsolute st) eqn:?; [|done].
      exfalso. apply Hnc. by split. }
    cbn [jsbind]. change (slice cwd 0 3) with (slice (([cwd_d; CHAR_COLON] ++ [cwd_s]) ++ cwd_rest) 0 3).
    rewrite slice_prefix, Hlower by done.
    unfold str_eqb. case_bool_decide as El; cbn [negb].
    + cbn [jsbind]. change (lit "\") with [CHAR_BACKWARD_SLASH] in El. apply app_inj_tail in El as [El _].
      destruct (resolve_step_drive cwd_d cwd_s cwd_rest st) as (st' & -> & ? & ?); auto. by exists st'.
    + cbn [jsbind]. destruct Hdr as (d & Hd & Ed). rewrite Ed.
      change ([d; CHAR_COLON] ++ lit "\") with (d :: CHAR_COLON :: CHAR_BACKWARD_SLASH :: []).
      destruct (resolve_step_drive d CHAR_BACKWARD_SLASH [] st) as (st' & -> & ? & ?); auto; [by rewrite Ed; right|].
      by exists st'.
  - rewrite fmap_cons. cbn [resolve_loop].
    destruct (resolve_step_ok p st Hok Hnc) as (c & -> & Hc). cbn [jsbind].
    destruct c as [st'|st']; destruct Hc as [Hok' Hc]; [by apply IH|by exists st'].
Qed.

End Resolve.

(** A device followed by a backslash is absolute. *)
Lemma device_absolute dv t : device_ok dv -> dv <> [] -> isAbsolute_str (dv ++ lit "\" ++ t) = true.
Proof.
  intros [->|[(d & Hd & ->)|[s ->]]] Hne; [done| |]; unfold isAbsolute_str; rewrite slen_0_eqb.
  - change ([d; CHAR_COLON] ++ lit "\" ++ t) with (d :: CHAR_COLON :: CHAR_BACKWARD_SLASH :: t).
    change (charCodeAt (d :: CHAR_COLON :: CHAR_BACKWARD_SLASH :: t) 0) with (Some d).
    rewrite (letter_nosep d Hd : isPathSeparator (Some d) = false), Hd, !slen_cons. slen_pos. zbool. done.
  - done.
Qed.

(** ** Double separators at the start *)

(** Two separators at the start: what could be a UNC path. *)
Definition double_sep (path : str) : bool := sep_at path 0 && sep_at path 1.

Definition head_nosep (s : str) : Prop := match s with [] => True | c :: _ => is_wsep c = false end.

Lemma double_sep_nosep s : head_nosep s -> double_sep s = false.
Proof. destruct s as [|c s]; [done|]. intros H. unfold double_sep. by rewrite (H : sep_at (c :: s) 0 = false). Qed.

Lemma double_sep_bs s : head_nosep s -> double_sep (lit "\" ++ s) = false.
Proof.
  intros H. unfold double_sep. change (lit "\" ++ s) with (CHAR_BACKWARD_SLASH :: s).
  destruct s as [|c s]; [done|]. by rewrite (H : sep_at (CHAR_BACKWARD_SLASH :: c :: s) 1 = false).
Qed.

Lemma join_head_nosep allow path : head_nosep (join_bs (wresolved allow path)).
Proof.
  destruct (decide (wresolved allow path = [])) as [E|E]; [by rewrite E|].
  destruct (join_bs_ends _ E (wresolved_nonempty allow path) (wresolved_nosep allow path)) as [(c & s & -> & Hc) _].
  done.
Qed.

Lemma head_nosep_app s t : head_nosep s -> s <> [] -> head_nosep (s ++ t).
Proof. by destruct s. Qed.

(** Normalizing a path that does not start with two separators gives one that
    does not. *)
Lemma normalize_double_sep path : double_sep path = false -> double_sep (normalize_str path) = false.
Proof.
  intros Hds. unfold normalize_str. destruct (Z.eqb_spec (slen path) 0) as [|Hne]; [done|].
  assert (Htail : forall b rootEnd (ab : bool),
    let tail := if b : bool then normalizeString (sliceFrom path rootEnd) (negb ab) (lit "\") isPathSeparator else [] in
    let tail := if (slen tail =? 0) && negb ab then lit "." else tail in
    let tail := if (0 <? slen tail) && sep_at path (slen path - 1) then tail ++ lit "\" else tail in
    head_nosep tail).
  { intros b rootEnd ab. cbv zeta. rewrite normalizeString_win32.
    set (t0 := if b then _ else []).
    assert (H0 : head_nosep t0) by (subst t0; destruct b; [apply join_head_nosep|done]).
    set (t1 := if (slen t0 =? 0) && _ then _ else t0).
    assert (H1 : head_nosep t1) by (subst t1; case_bool; done).
    destruct (Z.ltb_spec 0 (slen t1)); simpl; [|done]. case_bool; [|done].
    apply head_nosep_app; [done|]. intros E. rewrite E in *. done. }
  unfold normalize_root. destruct (1 <? slen path) eqn:E1.
  - destruct (isPathSeparator (charCodeAt path 0)) eqn:E0.
    + unfold double_sep in Hds. rewrite E0 in Hds. simpl in Hds. rewrite Hds.
      pose proof (Htail (1 <? slen path) 1 true) as H. cbv zeta in H |- *.
      case_bool; [by apply double_sep_bs|done].
    + assert (Hrel : forall t, head_nosep t -> double_sep (if 0 <? slen t then t else []) = false).
      { intros t Ht. case_bool; [by apply double_sep_nosep|done]. }
      destruct (isWindowsDeviceRoot (charCodeAt path 0)) eqn:Ed; [|apply Hrel, (Htail (0 <? slen path) 0 false)].
      destruct (code_is (charCodeAt path 1) CHAR_COLON) eqn:Ec; [|apply Hrel, (Htail (0 <? slen path) 0 false)].
      destruct (charCodeAt path 0) as [d|] eqn:Ed0; [|done].
      destruct (charCodeAt path 1) as [c|] eqn:Ec1; [|done].
      assert (c = CHAR_COLON) as -> by (by apply Z.eqb_eq).
      rewrite (slice_drive path d Ed0 Ec1).
      assert (Hdev : forall t, double_sep ([d; CHAR_COLON] ++ t) = false)
        by (intros t; apply double_sep_nosep; apply (letter_nosep d Ed)).
      assert (Hdev0 : double_sep [d; CHAR_COLON] = false) by apply (Hdev []).
      destruct ((2 <? slen path) && _); cbv zeta; case_bool; auto.
  - destruct (isPathSeparator (charCodeAt path 0)); [done|].
    pose proof (Htail (0 <? slen path) 0 false) as H. cbv zeta in H |- *.
    case_bool; [by apply double_sep_nosep|done].
Qed.

(** [skip_sep] stops at a code that is no separator. *)
Lemma skip_sep_stops path j : 0 <= j <= slen path -> j <= skip_sep path j <= slen path /\ sep_at path (skip_sep path j) = false.
Proof.
  intros Hj. unfold skip_sep.
  apply (for_up_rule (fun i st => st = i /\ j <= i <= slen path) (fun st => j <= st <= slen path /\ sep_at path st = false));
    [lia|lia| |].
  - intros i st Hi [-> ?]. destruct (isPathSeparator (charCodeAt path i)) eqn:E; cbn [negb].
    + split; lia.
    + split; [lia|done].
  - intros st [-> ?]. split; [lia|].
    destruct (charCodeAt path (slen path)) as [c|] eqn:E; [|done].
    apply charCodeAt_Some in E. lia.
Qed.

(** The parts after the first one only add to the end. *)
Lemma join_loop_prefix ps j f :
  exists t, join_loop (VString <$> ps) (Some (j, f)) = Ok (Some (j ++ t, f)).
Proof.
  revert j. induction ps as [|p ps IH]; intros j; [exists []; by rewrite app_nil_r|].
  rewrite fmap_cons. cbn [join_loop assertPath jsbind]. case_bool; [|apply IH].
  destruct (IH (j ++ lit "\" ++ p)) as (t & E). exists (lit "\" ++ p ++ t). by rewrite E, <-!app_assoc.
Qed.

Lemma join_loop_first ps :
  match filter (fun p => p <> []) ps with
  | [] => join_loop (VString <$> ps) None = Ok None
  | f :: _ => exists t, join_loop (VString <$> ps) None = Ok (Some (f ++ t, f))
  end.
Proof.
  induction ps as [|p ps IH]; [done|]. rewrite fmap_cons. cbn [join_loop assertPath jsbind].
  destruct p as [|c p].
  - rewrite filter_cons_False by auto. exact IH.
  - rewrite filter_cons_True by done. rewrite slen_cons.
    assert ((0 <? 1 + slen p) = true) as -> by (apply Z.ltb_lt; slen_pos; lia). apply join_loop_prefix.
Qed.

(** A part that [join] takes for the start of a UNC path: two separators and
    then something else. *)
Definition unc_part (f : str) : bool := double_sep f && (2 <? slen f) && negb (sep_at f 2).

Lemma join_slashes_spec f :
  f <> [] -> unc_part f = false ->
  exists n, join_slashes f = (true, n) /\ 0 <= n <= slen f.
Proof.
  intros Hne Hu. unfold join_slashes, unc_part, double_sep in *.
  assert (0 < slen f) by (destruct f; [done|]; rewrite slen_cons; slen_pos; lia).
  destruct (sep_at f 0); [|exists 0; split; [done|lia]].
  destruct (Z.ltb_spec 1 (slen f)); [|exists 1; split; [done|lia]].
  destruct (sep_at f 1); [|exists 1; split; [done|lia]].
  destruct (Z.ltb_spec 2 (slen f)); [|exists 2; split; [done|lia]].
  destruct (sep_at f 2); [exists 3|done]. split; [done|lia].
Qed.
