(* ===== verification/PathWin32Parse.v ===== *)
(** * Components of Windows paths

    The backward scans of [basename], [extname], [dirname] and [parse] in
    [_win32.ts], in closed form, for a path cut into the root a function skips,
    a prefix, the last component and trailing separators.  The scan of [extname]
    and [parse] is that of [_posix.ts] with another separator test, so its
    lemmas on a component are used through [of_posix]. *)

From Stdlib Require Import ZArith Lia.
From stdpp Require Import base list strings numbers option sets.
From S2P Require Import Prelude PathUtil PathPosix PathPosixParse PathWin32 PathWin32Props.

#[local] Open Scope Z_scope.

Abbreviation allsep := (Forall (fun c => is_wsep c = true)).

(** ** The scan of [extname] and [parse] *)

Definition of_posix (st : PathPosix.en_state) : en_state :=
  mkEn (PathPosix.startDot st) (PathPosix.startPart st) (PathPosix.en_end st)
    (PathPosix.matchedSlash st) (PathPosix.preDotState st).
Definition to_posix (st : en_state) : PathPosix.en_state :=
  PathPosix.mkEn (startDot st) (startPart st) (en_end st) (matchedSlash st) (preDotState st).

Definition wen_step (i c : Z) (st : en_state) : en_state := of_posix (en_step i c (to_posix st)).

Lemma run_wen_step off w st : run wen_step off w (of_posix st) = of_posix (run en_step off w st).
Proof.
  revert off. induction w as [|c w IH]; intros off; [done|]. cbn [run]. rewrite IH.
  by destruct (run en_step _ _ _).
Qed.

Lemma wen_body_step path i c st :
  charCodeAt path i = Some c -> is_wsep c = false -> en_body path i st = Continue (wen_step i c st).
Proof.
  intros Hat Hc. unfold en_body. rewrite Hat. unfold is_wsep in Hc. rewrite Hc. cbn [code_is].
  unfold wen_step, en_step, of_posix, to_posix. cbn. by repeat case_bool.
Qed.

Lemma wen_body_skip path i c st :
  charCodeAt path i = Some c -> is_wsep c = true -> matchedSlash st = true ->
  en_body path i st = Continue st.
Proof. intros Hat Hc Hm. unfold en_body. rewrite Hat. unfold is_wsep in Hc. by rewrite Hc, Hm. Qed.

(** The scan from the end of [r ++ q ++ w ++ sl] down to the end of [r]. *)
Section Component.
Context (r q w sl : str).
Hypothesis Hw : w <> [].
Hypothesis Hwn : nosep w.
Hypothesis Hsl : allsep sl.
Hypothesis Hq : q = [] \/ exists q' c, q = q' ++ [c] /\ is_wsep c = true.

Abbreviation p := (r ++ q ++ w ++ sl).
Abbreviation off := (slen r + slen q).

(** The number of turns, by the part of the path they scan. *)
Lemma scan_length : Z.to_nat (slen p - 1 - slen r + 1) = (length sl + (length w + length q))%nat.
Proof. rewrite !slen_app. unfold slen. lia. Qed.

Lemma scan_last : slen p - 1 = slen (r ++ q ++ w) + slen sl - 1.
Proof. rewrite !slen_app. lia. Qed.

(** A scan that skips the trailing separators, runs over the component and
    either ends or stops at the separator before it. *)
Lemma scan_component {St} (body : Z -> St -> ctl St) (step : Z -> Z -> St -> St) st st' :
  (forall i c, charCodeAt p i = Some c -> is_wsep c = true -> body i st = Continue st) ->
  (forall i c s, charCodeAt p i = Some c -> is_wsep c = false -> body i s = Continue (step i c s)) ->
  run step off w st = st' ->
  for_down (slen p - 1) (slen r) body st =
    match q with [] => st' | _ => match body (off - 1) st' with
      | Continue s => for_n (length q - 1) (-1) (off - 2) body s | Break s => s end end.
Proof.
  intros Hskip Hstep Hrun. unfold for_down. rewrite scan_length, scan_last.
  rewrite (for_down_skip _ (fun c => is_wsep c = true) p sl) with (r := []);
    [|done|done|by rewrite app_nil_r, !app_assoc].
  replace (slen (r ++ q ++ w) - 1) with (slen (r ++ q) + slen w - 1) by (rewrite !slen_app; lia).
  rewrite (for_down_run _ step (fun c => is_wsep c = false) p w) with (r := sl);
    [|done|done|by rewrite !app_assoc].
  rewrite slen_app, Hrun. destruct q as [|c q']; [done|]. cbn [length for_n].
  destruct (body _ st'); [|done]. f_equal; lia.
Qed.

Lemma at_before : forall q' c, q = q' ++ [c] -> charCodeAt p (off - 1) = Some c.
Proof.
  intros q' c E. rewrite E. rewrite <- app_assoc, app_assoc. apply charCodeAt_middle.
  rewrite !slen_app. change (slen [c]) with 1. lia.
Qed.

Lemma wen_scan :
  for_down (slen p - 1) (slen r) (en_body p) (mkEn (-1) (slen r) (-1) true 0) =
    of_posix (en_component off off w).
Proof.
  set (st0 := PathPosix.mkEn (-1) (slen r) (-1) true 0).
  change (mkEn (-1) (slen r) (-1) true 0) with (of_posix st0).
  rewrite (scan_component (en_body p) wen_step (of_posix st0) (of_posix (en_component off (slen r) w))).
  - destruct Hq as [E|(q' & c & E & Hc)].
    + rewrite E, slen_nil, Z.add_0_r. done.
    + assert (Hb : forall st, matchedSlash st = false -> en_body p (off - 1) st =
        Break (mkEn (startDot st) off (en_end st) false (preDotState st))).
      { intros st Hm. unfold en_body. rewrite (at_before _ _ E). unfold is_wsep in Hc. rewrite Hc, Hm.
        cbn [negb]. do 2 f_equal. lia. }
      rewrite Hb by done. rewrite E at 1. by destruct q'.
  - intros i c Hat Hc. by eapply wen_body_skip.
  - intros. by apply wen_body_step.
  - unfold st0. rewrite run_wen_step, run_component; [done|slen_pos; lia|done].
Qed.

(** ** The slices of [parse] and [extname] *)

Lemma wslice i j : 0 <= i <= j -> j <= slen w -> slice p (off + i) (off + j) = slice w i j.
Proof.
  intros Hi Hj. rewrite (app_assoc r q). rewrite <- slen_app. by apply slice_component.
Qed.

Lemma wnoext : en_noext (of_posix (en_component off off w)) = (lastIndexOf w [CHAR_DOT] <=? 0) || str_eqb w (lit "..").
Proof. rewrite <- (en_noext_component off w Hw); [done|slen_pos; lia]. Qed.

Lemma wextname_slice :
  (if en_noext (of_posix (en_component off off w)) then []
   else slice p (startDot (of_posix (en_component off off w))) (en_end (of_posix (en_component off off w)))) = ext_of w.
Proof.
  rewrite wnoext. unfold ext_of. destruct (_ || _) eqn:E; [done|]. apply orb_false_iff in E as [E _].
  reflect_bools. pose proof (lastIndexOf_lt w CHAR_DOT) as Hlt. slen_pos.
  unfold en_component, of_posix. cbn [startDot en_end PathPosix.startDot PathPosix.en_end]. zbool.
  apply wslice; lia.
Qed.

Lemma wparse_slices :
  (let st := of_posix (en_component off off w) in
   if en_noext st then
     if negb (en_end st =? -1)
     then (slice p (startPart st) (en_end st), slice p (startPart st) (en_end st), [])
     else ([], [], [])
   else (slice p (startPart st) (en_end st), slice p (startPart st) (startDot st),
         slice p (startDot st) (en_end st))) =
  (w, slice w 0 (slen w - slen (ext_of w)), ext_of w).
Proof.
  pose proof (parse_slices (r ++ q) w sl (en_component off off w)) as E. cbv zeta in *.
  rewrite slen_app, <- !app_assoc in E. specialize (E eq_refl).
  rewrite wnoext. rewrite en_noext_component in E by (done || slen_pos; lia). fold (ext_of w) in E.
  exact E.
Qed.

(** ** [basename] and [dirname] *)

Definition wbn_step (i c : Z) (st : bn_state) : bn_state :=
  if bn_end st =? -1 then mkBn (bn_start st) (i + 1) false (-1) (-1) else st.

Lemma run_wbn_step start o v :
  0 <= o -> v <> [] ->
  run wbn_step o v (mkBn start (-1) true (-1) (-1)) = mkBn start (o + slen v) false (-1) (-1).
Proof.
  revert o. induction v as [|c v IH]; intros o Ho Hv; [done|]. cbn [run].
  destruct (decide (v = [])) as [->|Hv'].
  - unfold wbn_step. cbn [run bn_end]. change (-1 =? -1) with true. cbv iota. f_equal.
  - rewrite IH by (done || lia). unfold wbn_step. cbn [bn_end]. slen_pos. zbool.
    f_equal. rewrite slen_cons. lia.
Qed.

Lemma wbn_scan :
  let st := for_down (slen p - 1) (slen r) (bn_body p) (mkBn (slen r) (-1) true (-1) (-1)) in
  bn_start st = off /\ bn_end st = off + slen w.
Proof.
  cbv zeta.
  rewrite (scan_component (bn_body p) wbn_step _ (mkBn (slen r) (off + slen w) false (-1) (-1))).
  - destruct Hq as [E|(q' & c & E & Hc)].
    + rewrite E, slen_nil, Z.add_0_r. done.
    + unfold bn_body. rewrite (at_before _ _ E). unfold is_wsep in Hc. rewrite Hc. cbn [negb bn_matchedSlash].
      rewrite E at 1 3. destruct q'; simpl; split; lia || done.
  - intros i c Hat Hc. unfold bn_body. rewrite Hat. unfold is_wsep in Hc. by rewrite Hc.
  - intros i c s Hat Hc. unfold bn_body, wbn_step. rewrite Hat. unfold is_wsep in Hc. rewrite Hc. by case_bool.
  - apply run_wbn_step; [slen_pos; lia|done].
Qed.

Lemma run_dirname_step o v (st : Z * bool) :
  v <> [] -> run (fun _ _ s => (s.1, false)) o v st = (st.1, false).
Proof.
  revert o. induction v as [|c v IH]; intros o Hv; [done|]. cbn [run].
  destruct (decide (v = [])) as [->|Hv']; [done|]. by rewrite IH.
Qed.

Lemma wdirname_scan :
  (for_down (slen p - 1) (slen r) (dirname_body p) (-1, true)).1 = if bool_decide (q = []) then -1 else off - 1.
Proof.
  rewrite (scan_component (dirname_body p) (fun _ _ s => (s.1, false)) (-1, true) (-1, false)).
  - destruct Hq as [E|(q' & c & E & Hc)]; [by rewrite E|].
    rewrite bool_decide_eq_false_2 by (rewrite E; by destruct q').
    unfold dirname_body. rewrite (at_before _ _ E). unfold is_wsep in Hc. rewrite Hc. cbn [negb snd].
    rewrite E at 1. by destruct q'.
  - intros i c Hat Hc. unfold dirname_body. rewrite Hat. unfold is_wsep in Hc. by rewrite Hc.
  - intros i c s Hat Hc. unfold dirname_body. rewrite Hat. unfold is_wsep in Hc. by rewrite Hc.
  - by apply run_dirname_step.
Qed.
End Component.

(** Nothing but separators after the root leaves a scan where it began. *)
Lemma scan_seps {St} (body : Z -> St -> ctl St) r t st :
  allsep t -> (forall i c, charCodeAt (r ++ t) i = Some c -> is_wsep c = true -> body i st = Continue st) ->
  for_down (slen (r ++ t) - 1) (slen r) body st = st.
Proof.
  intros Ht Hb. unfold for_down. rewrite slen_app.
  replace (Z.to_nat (slen r + slen t - 1 - slen r + 1)) with (length t + 0)%nat by (unfold slen; lia).
  by rewrite (for_down_skip _ (fun c => is_wsep c = true) (r ++ t) t) with (r := []); rewrite ?app_nil_r.
Qed.

(** ** Roots *)

(** Where [basename] and [extname] stop: after a drive. *)
Definition drive_end (path : str) : Z :=
  if 2 <=? slen path then
    if isWindowsDeviceRoot (charCodeAt path 0) && code_is (charCodeAt path 1) CHAR_COLON then 2 else 0
  else 0.

Lemma sep_not_letter a : is_wsep a = true -> isWindowsDeviceRoot (Some a) = false.
Proof. intros Ha. destruct (isWindowsDeviceRoot (Some a)) eqn:E; [|done]. apply letter_nosep in E. congruence. Qed.

(** One leading separator. *)
Lemma root_sep a t :
  is_wsep a = true -> double_sep (a :: t) = false ->
  drive_end (a :: t) = 0 /\ parse_root (a :: t) = (if bool_decide (t = []) then None else Some 1) /\
  dirname_root (a :: t) = (if bool_decide (t = []) then inl (a :: t) else inr (1, 1)).
Proof.
  intros Ha Hd. pose proof (sep_not_letter a Ha) as Hl.
  unfold drive_end, parse_root, dirname_root, double_sep in *.
  change (charCodeAt (a :: t) 0) with (Some a) in *. rewrite Hl. cbn [andb].
  unfold is_wsep in Ha. rewrite Ha in *. cbn [andb] in Hd. rewrite Hd. rewrite slen_cons. slen_pos.
  destruct t as [|b t]; [by zbool|]. rewrite slen_cons in *. slen_pos. zbool. done.
Qed.

(** A drive. *)
Lemma root_drive a t :
  letter a ->
  let p := a :: CHAR_COLON :: t in
  drive_end p = 2 /\
  parse_root p = match t with
                 | [] => None
                 | c :: t' => if is_wsep c then (if bool_decide (t' = []) then None else Some 3) else Some 2
                 end /\
  dirname_root p = match t with c :: _ => if is_wsep c then inr (3, 3) else inr (2, 2) | [] => inr (2, 2) end.
Proof.
  intros Ha p. pose proof (letter_nosep a Ha) as Hs. unfold is_wsep in Hs.
  unfold drive_end, parse_root, dirname_root.
  change (charCodeAt p 0) with (Some a). change (charCodeAt p 1) with (Some CHAR_COLON).
  rewrite Ha, Hs. change (code_is (Some CHAR_COLON) CHAR_COLON) with true.
  unfold p. rewrite !slen_cons. slen_pos. zbool. split; [done|].
  destruct t as [|c t]; [done|]. change (charCodeAt (a :: CHAR_COLON :: c :: t) 2) with (Some c).
  change (isPathSeparator (Some c)) with (is_wsep c). rewrite slen_cons in *. slen_pos. zbool.
  destruct t as [|d t]; [by destruct (is_wsep c)|]. rewrite slen_cons in *. slen_pos. zbool.
  by destruct (is_wsep c).
Qed.

(** Neither. *)
Lemma root_none a t :
  is_wsep a = false -> isWindowsDeviceRoot (Some a) && code_is (head t) CHAR_COLON = false ->
  drive_end (a :: t) = 0 /\ parse_root (a :: t) = Some 0 /\ dirname_root (a :: t) = inr (-1, 0).
Proof.
  intros Ha Hd. unfold is_wsep in Ha. unfold drive_end, parse_root, dirname_root.
  change (charCodeAt (a :: t) 0) with (Some a). rewrite Ha.
  assert (Hh : charCodeAt (a :: t) 1 = head t) by by destruct t.
  rewrite Hh. destruct (isWindowsDeviceRoot (Some a)); cbn [andb] in *; rewrite ?Hd; by repeat case_bool.
Qed.

(** A path that does not start with two separators is a drive or nothing, a
    separator or nothing, and the rest; or only such a root. *)
Lemma root_cases path :
  path <> [] -> double_sep path = false ->
  exists r1 r2 t, path = r1 ++ r2 ++ t /\ drive_end path = slen r1 /\
    (r2 = [] \/ exists s, r2 = [s] /\ is_wsep s = true) /\
    ((t = [] /\ r1 ++ r2 <> [] /\ parse_root path = None /\ dirname_str path = path) \/
     (t <> [] /\ (r1 ++ r2 = [] -> head_nosep t) /\ parse_root path = Some (slen (r1 ++ r2)) /\
      dirname_root path = inr (if bool_decide (r1 ++ r2 = []) then -1 else slen (r1 ++ r2), slen (r1 ++ r2)))).
Proof.
  intros Hne Hd. destruct path as [|a path]; [done|]. clear Hne.
  destruct (is_wsep a) eqn:Ha.
  { destruct (root_sep a path Ha Hd) as (E1 & E2 & E3). exists [], [a], path.
    split_and!; [done|done|right; by exists a|]. destruct path as [|b path]; [left|right].
    - split_and!; [done|done|done|]. unfold dirname_str. by rewrite E3.
    - split_and!; done. }
  destruct (isWindowsDeviceRoot (Some a) && code_is (head path) CHAR_COLON) eqn:Hc.
  2: { destruct (root_none a path Ha Hc) as (E1 & E2 & E3). exists [], [], (a :: path).
       split_and!; [done|done|by left|]. right. split_and!; done. }
  apply andb_true_iff in Hc as [Hl Hc]. destruct path as [|b t]; [done|].
  apply Z.eqb_eq in Hc as ->. destruct (root_drive a t Hl) as (E1 & E2 & E3).
  destruct t as [|c t]; [|destruct (is_wsep c) eqn:Hs].
  - exists [a; CHAR_COLON], [], []. split_and!; [done|done|by left|]. left.
    split_and!; [done|done|done|]. unfold dirname_str. by rewrite E3.
  - exists [a; CHAR_COLON], [c], t. split_and!; [done|done|right; by exists c|].
    destruct t as [|d t]; [left|right; split_and!; done].
    split_and!; [done|done|done|]. unfold dirname_str. by rewrite E3.
  - exists [a; CHAR_COLON], [], (c :: t). split_and!; [done|done|by left|]. right. split_and!; done.
Qed.

(** ** The parts of a path *)

Lemma extname_start path :
  (if (2 <=? slen path) && code_is (charCodeAt path 1) CHAR_COLON && isWindowsDeviceRoot (charCodeAt path 0)
   then 2 else 0) = drive_end path.
Proof. unfold drive_end. by destruct (2 <=? slen path), (code_is _ _), (isWindowsDeviceRoot _). Qed.

Lemma basename_plain path :
  basename_str path [] =
    let st := for_down (slen path - 1) (drive_end path) (bn_body path) (mkBn (drive_end path) (-1) true (-1) (-1)) in
    if bn_end st =? -1 then [] else slice path (bn_start st) (bn_end st).
Proof. done. Qed.

(** Only separators after the drive. *)
Lemma wnames_seps path r t :
  path = r ++ t -> drive_end path = slen r -> allsep t -> basename_str path [] = [] /\ extname_str path = [].
Proof.
  intros -> Hr Ht. rewrite basename_plain. unfold extname_str. rewrite extname_start, Hr.
  rewrite !scan_seps; [done|done| |done|].
  - intros i c Hat Hc. by eapply wen_body_skip.
  - intros i c Hat Hc. unfold bn_body. rewrite Hat. unfold is_wsep in Hc. by rewrite Hc.
Qed.

(** A last component after the drive. *)
Lemma wnames_component path r q w sl :
  path = r ++ q ++ w ++ sl -> drive_end path = slen r -> w <> [] -> nosep w -> allsep sl ->
  (q = [] \/ exists q' c, q = q' ++ [c] /\ is_wsep c = true) ->
  basename_str path [] = w /\ extname_str path = ext_of w.
Proof.
  intros -> Hr Hw Hwn Hsl Hq. rewrite basename_plain. unfold extname_str. rewrite extname_start, Hr.
  rewrite wen_scan, wextname_slice by done. split; [|done].
  destruct (wbn_scan r q w sl Hw Hwn Hsl Hq) as [E1 E2]. cbv zeta in *. rewrite E1, E2. slen_pos. zbool.
  rewrite <- (Z.add_0_r (slen r + slen q)) at 1. rewrite wslice by lia. apply slice_all.
Qed.

(** What [parse] and [dirname] make of the part before the component. *)
Definition wdir_of (R q : str) : str := if bool_decide (q = []) then R else slice (R ++ q) 0 (slen (R ++ q) - 1).

Lemma slice_before (R q w : str) : q <> [] -> slice (R ++ q ++ w) 0 (slen R + slen q - 1) = slice (R ++ q) 0 (slen (R ++ q) - 1).
Proof.
  intros Hq. rewrite app_assoc. rewrite <- slen_app. slen_pos.
  assert (0 < slen (R ++ q)) by (rewrite slen_app; destruct q; [done|]; rewrite slen_cons; slen_pos; lia).
  rewrite <- (slice_component [] (R ++ q) w) by lia. done.
Qed.

Lemma wparse_component path R q w sl :
  path = R ++ q ++ w ++ sl -> parse_root path = Some (slen R) -> w <> [] -> nosep w -> allsep sl ->
  (q = [] \/ exists q' c, q = q' ++ [c] /\ is_wsep c = true) ->
  parse_str path = mkParsed R (wdir_of R q) w (ext_of w) (slice w 0 (slen w - slen (ext_of w))).
Proof.
  intros E Hroot Hw Hwn Hsl Hq. unfold parse_str. rewrite Hroot.
  assert (Hlen : 0 < slen path).
  { rewrite E, !slen_app. destruct w; [done|]. rewrite slen_cons. slen_pos. lia. }
  zbool. subst path. rewrite wen_scan by done.
  pose proof (wparse_slices R q w sl Hw) as Hs. cbv zeta in *. rewrite Hs.
  assert (HR : (if 0 <? slen R then slice (R ++ q ++ w ++ sl) 0 (slen R) else []) = R).
  { destruct (Z.ltb_spec 0 (slen R)) as [|H0]; [by apply slice_prefix|].
    slen_pos. symmetry. apply slen_0. lia. }
  rewrite HR. f_equal. change (startPart _) with (slen R + slen q). unfold wdir_of.
  destruct (bool_decide_reflect (q = [])) as [->|Hne].
  - change (slen (@nil Z)) with 0. rewrite Z.add_0_r, Z.eqb_refl, andb_false_r. done.
  - assert (0 < slen q) by (destruct q; [done|rewrite slen_cons; slen_pos; lia]). slen_pos. zbool.
    cbn [negb andb]. by apply slice_before.
Qed.

Lemma wdirname_component path R q w sl :
  path = R ++ q ++ w ++ sl ->
  dirname_root path = inr (if bool_decide (R = []) then -1 else slen R, slen R) ->
  w <> [] -> nosep w -> allsep sl -> (q = [] \/ exists q' c, q = q' ++ [c] /\ is_wsep c = true) ->
  dirname_str path = if bool_decide (q = [] /\ R = []) then lit "." else wdir_of R q.
Proof.
  intros E Hroot Hw Hwn Hsl Hq. unfold dirname_str. rewrite Hroot.
  assert (Hlen : 0 < slen path).
  { rewrite E, !slen_app. destruct w; [done|]. rewrite slen_cons. slen_pos. lia. }
  zbool. subst path. pose proof (wdirname_scan R q w sl Hw Hwn Hsl Hq) as Hs.
  destruct (for_down _ _ _ _) as [e m]. cbn [fst] in Hs. subst e. unfold wdir_of.
  destruct (bool_decide_reflect (q = [])) as [->|Hne].
  - change (-1 =? -1) with true. cbv iota. destruct (decide (R = [])) as [HR|HR].
    + rewrite !bool_decide_eq_true_2 by done. done.
    + rewrite !bool_decide_eq_false_2 by (done || by intros [_ ?]).
      assert (0 < slen R) by (destruct R; [done|rewrite slen_cons; slen_pos; lia]). zbool.
      by apply slice_prefix.
  - rewrite (bool_decide_eq_false_2 (q = [] /\ R = [])) by (by intros [? _]).
    assert (0 < slen q) by (destruct q; [done|rewrite slen_cons; slen_pos; lia]). slen_pos. zbool.
    by apply slice_before.
Qed.

(** ** The decomposition of a path that is not a UNC path *)

Lemma seps_app (s t : str) : (s = [] \/ exists c, s = [c] /\ is_wsep c = true) -> allsep t -> allsep (s ++ t).
Proof. intros [->|(c & -> & Hc)] Ht; [done|]. by constructor. Qed.

Lemma sep_end_app (s q : str) :
  (s = [] \/ exists c, s = [c] /\ is_wsep c = true) ->
  (q = [] \/ exists q' c, q = q' ++ [c] /\ is_wsep c = true) ->
  s ++ q = [] \/ exists q' c, s ++ q = q' ++ [c] /\ is_wsep c = true.
Proof.
  intros Hs [->|(q' & c & -> & Hc)].
  - rewrite app_nil_r. destruct Hs as [->|(c & -> & Hc)]; [by left|]. right. by exists [], c.
  - right. exists (s ++ q'), c. by rewrite app_assoc.
Qed.

(** A path whose only parts are roots and separators. *)
Lemma wparts_root path r1 r2 t :
  path = r1 ++ r2 ++ t -> drive_end path = slen r1 ->
  (r2 = [] \/ exists s, r2 = [s] /\ is_wsep s = true) -> allsep t -> t <> [] -> r1 ++ r2 <> [] ->
  parse_root path = Some (slen (r1 ++ r2)) ->
  dirname_root path = inr (if bool_decide (r1 ++ r2 = []) then -1 else slen (r1 ++ r2), slen (r1 ++ r2)) ->
  parse_str path = mkParsed (r1 ++ r2) (r1 ++ r2) [] [] [] /\ dirname_str path = r1 ++ r2.
Proof.
  intros E Hd Hr2 Ht Hne HR Hp Hdn. rewrite bool_decide_eq_false_2 in Hdn by done.
  assert (HlR : 0 < slen (r1 ++ r2)) by (destruct (r1 ++ r2); [done|rewrite slen_cons; slen_pos; lia]).
  set (R := r1 ++ r2) in *. assert (E' : path = R ++ t) by (by rewrite E, app_assoc). clearbody R.
  assert (Hlen : 0 < slen path) by (rewrite E', slen_app; slen_pos; lia).
  unfold parse_str, dirname_str. rewrite Hp, Hdn. subst path. zbool. rewrite !E'.
  rewrite !scan_seps; [|done| |done|].
  - cbn [startPart en_end]. change (-1 =? -1) with true.
    rewrite Z.eqb_refl. cbn [negb]. rewrite andb_false_r, !(slice_prefix R t 0 (slen R)) by done. done.
  - intros i c Hat Hc. unfold dirname_body. rewrite Hat. unfold is_wsep in Hc. by rewrite Hc.
  - intros i c Hat Hc. by eapply wen_body_skip.
Qed.

Lemma wdir_empty R q w :
  (q = [] \/ exists q' c, q = q' ++ [c] /\ is_wsep c = true) -> (R = [] -> head_nosep (q ++ w)) ->
  q = [] /\ R = [] <-> wdir_of R q = [].
Proof.
  intros Hq Hh. unfold wdir_of. destruct Hq as [->|(q' & c & -> & Hc)].
  - rewrite bool_decide_eq_true_2 by done. naive_solver.
  - rewrite bool_decide_eq_false_2 by (by destruct q').
    rewrite app_assoc, slice_prefix; [|done|rewrite slen_app; change (slen [c]) with 1; lia].
    split; [intros [Habs _]; by destruct q'|].
    intros [-> ->]%app_eq_nil. specialize (Hh eq_refl). simpl in Hh. congruence.
Qed.

(** On every Windows path that does not start with two separators, [parse],
    [basename], [extname] and [dirname] agree: the parsed base is the base name
    and is the name followed by the extension, the extension is that of
    [extname], and the directory is that of [dirname], which writes [.] for an
    empty one. *)
Lemma win32_parse_agrees path :
  double_sep path = false ->
  let r := parse_str path in
  base r = basename_str path [] /\ name r ++ ext r = base r /\ ext r = extname_str path /\
  dirname_str path = (if bool_decide (dir r = []) then lit "." else dir r).
Proof.
  intros Hd. cbv zeta. destruct (decide (path = [])) as [->|Hne]; [done|].
  destruct (root_cases path Hne Hd) as (r1 & r2 & t & E & Hde & Hr2 & [(-> & HR & Hp & Hdn)|(Ht & Hh & Hp & Hdn)]).
  - rewrite app_nil_r in E. destruct (wnames_seps path r1 r2 E Hde) as [-> ->].
    { rewrite <- (app_nil_r r2). by apply seps_app. }
    unfold parse_str. rewrite Hp, Hdn. assert (0 < slen path) by (destruct path; [done|rewrite slen_cons; slen_pos; lia]).
    zbool. cbn [base name ext dir]. by rewrite bool_decide_eq_false_2.
  - destruct (trim_decompose is_wsep t) as [Hall|(q & w & sl & -> & Hw & Hwn & Hsl & Hq)].
    + assert (HR : r1 ++ r2 <> []).
      { intros HR. specialize (Hh HR). destruct t as [|c t]; [done|]. inversion Hall; subst. simpl in Hh. congruence. }
      destruct (wnames_seps path r1 (r2 ++ t) E Hde) as [-> ->]; [by apply seps_app|].
      destruct (wparts_root path r1 r2 t) as [-> ->]; [done..|]. cbn [base name ext dir].
      by rewrite bool_decide_eq_false_2.
    + destruct (wnames_component path r1 (r2 ++ q) w sl) as [-> ->];
        [by rewrite E, <- !app_assoc|done..|by apply sep_end_app|].
      assert (E' : path = (r1 ++ r2) ++ q ++ w ++ sl) by (by rewrite E, <- !app_assoc).
      rewrite (wparse_component _ _ _ _ _ E') by done. rewrite (wdirname_component _ _ _ _ _ E') by done.
      cbn [base name ext dir]. split_and!; [done|by apply slice_name|done|].
      by rewrite (bool_decide_ext _ _ (wdir_empty (r1 ++ r2) q (w ++ sl) Hq Hh)).
Qed.

Lemma win32_parse_agrees_witness :
  double_sep (lit "C:\dir\\file.tar.gz\") = false /\
  (let r := parse_str (lit "C:\dir\\file.tar.gz\") in
   base r = basename_str (lit "C:\dir\\file.tar.gz\") [] /\ name r ++ ext r = base r /\
   ext r = extname_str (lit "C:\dir\\file.tar.gz\") /\
   dirname_str (lit "C:\dir\\file.tar.gz\") = (if bool_decide (dir r = []) then lit "." else dir r)).
Proof. split; [reflexivity|]. apply (win32_parse_agrees (lit "C:\dir\\file.tar.gz\")). reflexivity. Defined.

(** [format] inverts [parse] on the Windows paths that are written plainly:
    whatever the root [parse] finds (drive, UNC share, separator or none), a path
    that ends in a component, which follows the root or a non-empty prefix and a
    backslash, is restored. *)
Lemma win32_parse_format R q w :
  parse_root (R ++ q ++ w) = Some (slen R) -> w <> [] -> nosep w ->
  (q = [] \/ exists q', q = q' ++ lit "\" /\ q' <> []) ->
  (let? r := parse (VString (R ++ q ++ w)) in
   format (FObject (mkFormatInput (Some (root r)) (Some (dir r)) (Some (base r)) (Some (ext r)) (Some (name r))))) =
  Ok (R ++ q ++ w).
Proof.
  intros Hp Hw Hwn Hq. cbn [parse assertPath jsbind].
  rewrite (wparse_component _ R q w []); [|by rewrite app_nil_r|done|done|done|done|].
  2: { destruct Hq as [->|(q' & -> & _)]; [by left|right]. by exists q', CHAR_BACKWARD_SLASH. }
  cbn [root dir base ext name jsbind format]. unfold _format. cbn [f_root f_dir f_base f_name f_ext].
  assert (Hb : default [] (or_str (Some w)
    (Some (default [] (Some (slice w 0 (slen w - slen (ext_of w)))) ++ default [] (Some (ext_of w))))) = w)
    by (by destruct w).
  rewrite Hb. unfold wdir_of. destruct Hq as [->|(q' & -> & Hq')].
  - rewrite bool_decide_eq_true_2 by done. destruct R as [|c R]; [done|]. cbn [or_str].
    by rewrite bool_decide_eq_true_2.
  - rewrite bool_decide_eq_false_2 by (by destruct q').
    rewrite app_assoc, slice_prefix; [|done|rewrite slen_app; change (slen (lit "\")) with 1; lia].
    destruct (R ++ q') as [|c d] eqn:E; [by apply app_eq_nil in E as [_ ?]|]. cbn [or_str].
    rewrite bool_decide_eq_false_2.
    + by rewrite <- E, <- !app_assoc.
    + intros [= Eq]. rewrite <- E in Eq. apply (f_equal length) in Eq. rewrite length_app in Eq.
      destruct q'; [done|]. simpl in Eq. lia.
Qed.

Lemma win32_parse_format_witness :
  (let? r := parse (VString (lit "\\srv\share\" ++ lit "a\" ++ lit "b.txt")) in
   format (FObject (mkFormatInput (Some (root r)) (Some (dir r)) (Some (base r)) (Some (ext r)) (Some (name r))))) =
  Ok (lit "\\srv\share\" ++ lit "a\" ++ lit "b.txt").
Proof.
  apply (win32_parse_format (lit "\\srv\share\") (lit "a\") (lit "b.txt")).
  - vm_compute. reflexivity.
  - discriminate.
  - repeat (apply List.Forall_cons; [vm_compute; reflexivity|]). apply List.Forall_nil.
  - right. exists (lit "a"). split; [reflexivity|discriminate].
Defined.
