(* ===== verification/PathWin32Theorems.v ===== *)
(** * Theorems on the Windows path module *)

From Stdlib Require Import ZArith Lia.
From stdpp Require Import base list strings numbers option sets.
From S2P Require Import Prelude PathUtil PathSegments PathWin32 PathWin32Props.

#[local] Open Scope Z_scope.

(** [normalize] keeps a drive-absolute path on its drive and inside its
    root: the result is the drive, a backslash and plain segments (none empty,
    [.] or [..], none with a separator in it), and a trailing separator is kept;
    the result is a normal form. *)
Lemma normalize_drive_contained d s rest :
  isWindowsDeviceRoot (Some d) = true -> isPathSeparator (Some s) = true ->
  let p := d :: CHAR_COLON :: s :: rest in
  let segs := resolve_segments false (wsegments rest) in
  normalize (VString p) =
    Ok ([d; CHAR_COLON; CHAR_BACKWARD_SLASH] ++ join_bs segs ++
        (if bool_decide (segs <> []) && trailing rest then lit "\" else [])) /\
  Forall plain segs /\ Forall nosep segs /\
  normalize (VString (normalize_str p)) = normalize (VString p).
Proof.
  intros Hd Hs p segs.
  assert (Hplain : Forall plain segs) by apply canonical_false_plain, resolve_segments_canonical.
  assert (Hns : Forall nosep segs) by apply wresolved_nosep.
  unfold normalize. cbn [assertPath jsbind]. unfold p. rewrite normalize_drive by done.
  split_and!; [done|done|done|]. by rewrite drive_path_normal.
Qed.

Lemma normalize_drive_contained_witness :
  normalize (VString (lit "C:/a\..\..\b//./c\")) = Ok (lit "C:\b\c\").
Proof.
  exact (proj1 (normalize_drive_contained 67 47 (lit "a\..\..\b//./c\") eq_refl eq_refl)).
Defined.

(** With a drive-absolute working directory, [resolve] of any strings
    returns (it does not throw) and the result is absolute: a device followed by
    a backslash, on whatever drives the arguments are. *)
Lemma win32_resolve_absolute toLowerCase d s rest ps :
  isWindowsDeviceRoot (Some d) = true -> isPathSeparator (Some s) = true ->
  (forall t c, isPathSeparator (Some c) = true -> toLowerCase (t ++ [c]) = toLowerCase t ++ [c]) ->
  let cwd := d :: CHAR_COLON :: s :: rest in
  exists r, resolve toLowerCase (Some (Ok (VString cwd))) true (VString <$> ps) = Ok r /\
    isAbsolute (VString r) = Ok true /\
    exists dv t, r = dv ++ lit "\" ++ t /\ device_ok dv /\ dv <> [].
Proof.
  intros Hd Hs Hlow cwd. unfold resolve, cwd.
  assert (rev (VString <$> ps) = VString <$> rev ps) as -> by (symmetry; apply map_rev).
  destruct (resolve_loop_complete toLowerCase d s rest Hd Hs Hlow (rev ps) (mkRs [] [] false))
    as (st & -> & Hok & [Habs Hne]).
  - constructor; simpl; [by left|by intros _; left].
  - by intros [? _].
  - cbn [jsbind]. rewrite Habs. set (tail := normalizeString _ _ _ _).
    assert (Habsr : isAbsolute_str (resolvedDevice st ++ lit "\" ++ tail) = true)
      by (apply device_absolute; [apply Hok|done]).
    exists (resolvedDevice st ++ lit "\" ++ tail).
    split; [by destruct (resolvedDevice st)|]. split; [by unfold isAbsolute; cbn [assertPath jsbind]; rewrite Habsr|].
    exists (resolvedDevice st), tail. split_and!; [done|apply Hok|done].
Qed.

(** Lower case of ASCII letters. *)
Definition ascii_lower (s : str) : str :=
  map (fun c => if (65 <=? c) && (c <=? 90) then c + 32 else c) s.

Lemma win32_resolve_absolute_witness :
  exists r, resolve ascii_lower (Some (Ok (VString (lit "C:\work")))) true (VString <$> [lit "D:x"; lit "..\y"]) = Ok r /\
    isAbsolute (VString r) = Ok true /\
    exists dv t, r = dv ++ lit "\" ++ t /\ device_ok dv /\ dv <> [].
Proof.
  apply (win32_resolve_absolute ascii_lower 67 92 (lit "work") [lit "D:x"; lit "..\y"]).
  - reflexivity.
  - reflexivity.
  - intros t c Hc. unfold ascii_lower. rewrite map_app. do 2 f_equal. simpl.
    destruct (Z.leb_spec 65 c), (Z.leb_spec c 90); simpl; try done. exfalso.
    unfold isPathSeparator, isPosixPathSeparator, code_is, CHAR_FORWARD_SLASH, CHAR_BACKWARD_SLASH in Hc.
    apply orb_true_iff in Hc as [Hc|Hc]; apply Z.eqb_eq in Hc; lia.
Defined.

(** [join] never makes up a UNC path: unless the first non-empty part
    already looks like one (exactly two separators and then something else),
    the joined path does not start with two separators, whatever separators the
    parts begin with. *)
Lemma win32_join_no_unc ps f fs :
  filter (fun p => p <> []) ps = f :: fs -> unc_part f = false ->
  exists r, join (VString <$> ps) = Ok r /\ double_sep r = false.
Proof.
  intros Hf Hu. pose proof (join_loop_first ps) as Hj. rewrite Hf in Hj. destruct Hj as (t & Hj).
  assert (Hne : f <> []).
  { assert (Hin : f ∈ filter (fun p => p <> []) ps) by (rewrite Hf; apply list_elem_of_here).
    by apply list_elem_of_filter in Hin as [? _]. }
  unfold join. assert ((slen (VString <$> ps) =? 0) = false) as ->.
  { destruct ps; [done|]. rewrite fmap_cons, slen_cons. slen_pos. zbool. done. }
  rewrite Hj. cbn [jsbind]. destruct (join_slashes_spec f Hne Hu) as (n & -> & Hn).
  destruct (skip_sep_stops (f ++ t) n) as [Hjr Hstop]; [rewrite slen_app; slen_pos; lia|].
  set (j := skip_sep (f ++ t) n) in *. eexists. split; [reflexivity|].
  apply normalize_double_sep. destruct (Z.leb_spec 2 j).
  - apply double_sep_bs. destruct (split_at (f ++ t) j) as (a & b & E & Ha); [lia|].
    rewrite E, sliceFrom_suffix by done. destruct b as [|c b]; [done|].
    by rewrite E, charCodeAt_middle in Hstop by done.
  - unfold double_sep. assert (j = 0 \/ j = 1) as [Ej|Ej] by lia; rewrite Ej in Hstop; rewrite Hstop; [done|].
    apply andb_false_r.
Qed.

Lemma win32_join_no_unc_witness :
  exists r, join (VString <$> [[]; lit "//"; lit "/server"; lit "share"]) = Ok r /\ double_sep r = false.
Proof.
  apply (win32_join_no_unc _ (lit "//") [lit "/server"; lit "share"]); reflexivity.
Defined.

(** [normalize] can turn a relative path into a drive: [.\C:] names a file
    called [C:] in the current directory, its normal form [C:] the current
    directory of drive C; and it is not idempotent there. *)
Lemma normalize_makes_drive :
  normalize (VString (lit ".\C:")) = Ok (lit "C:") /\
  normalize (VString (lit "C:")) = Ok (lit "C:.") /\
  normalize (VString (lit ".\C:\x")) = Ok (lit "C:\x") /\
  isAbsolute (VString (lit ".\C:\x")) = Ok false /\ isAbsolute (VString (lit "C:\x")) = Ok true.
Proof. vm_compute. done. Qed.
