(* ===== verification/FixedQueue.v ===== *)
(** * The tick queue: a linked list of circular buffers

    Models [src/ext/node/polyfills/internal/fixed_queue.ts].  The buffers of a
    [FixedQueue] are mutable objects that [head], [tail] and the [next] fields
    of other buffers refer to ([head] and [tail] are the same buffer as long as
    there is only one), so they live in a store and the references are
    locations of it.

    A value pushed is an [option V]: [None] is JavaScript's [undefined], which
    [shift] cannot tell from an unused slot, so that the queue is first-in
    first-out for other values only (see [undefined_blocks_shift]).  The class
    [QueueLaws] is what [NextTick] relies on; it is stated against the plain list
    of the queued values and [FixedQueue] is an instance of it. *)

From Stdlib Require Import ZArith Lia.
From stdpp Require Import base list gmap numbers option.
From S2P Require Import Prelude.

#[local] Open Scope Z_scope.

(** ** The interface *)

(** The operations of a queue of values of type [V]. *)
Class QueueOps (Q V : Type) := {
  q_new : Q;
  q_isEmpty : Q -> bool;
  q_push : option V -> Q -> Q;
  q_shift : Q -> option V * Q;
}.

(** [q_holds q xs]: the queue [q] holds the values [xs]. *)
Class QueueLaws (Q V : Type) `{QueueOps Q V} := {
  q_holds : Q -> list (option V) -> Prop;
  q_new_holds : q_holds q_new [];
  q_isEmpty_holds : forall q xs, q_holds q xs -> q_isEmpty q = bool_decide (xs = []);
  q_push_holds : forall q xs v, q_holds q xs -> q_holds (q_push v q) (xs ++ [v]);
  q_shift_holds : forall q xs, q_holds q (Some <$> xs) ->
    exists q', q_shift q = (hd_error xs, q') /\ q_holds q' (Some <$> tl xs);
}.

(** ** The circular buffer *)

Definition kSize : Z := 2048.
Definition kMask : Z := kSize - 1.

Definition loc := positive.

Record FixedCircularBuffer (V : Type) := mkBuffer {
  bottom : Z;
  top : Z;
  list_ : list (option V);
  next : option loc;
}.
Arguments mkBuffer {V} _ _ _ _.
Arguments bottom {V} _.
Arguments top {V} _.
Arguments list_ {V} _.
Arguments next {V} _.

Module Buffer.
Section Buffer.
Context {V : Type}.
Implicit Types b : FixedCircularBuffer V.

Definition new : FixedCircularBuffer V :=
  mkBuffer 0 0 (replicate (Z.to_nat kSize) None) None.

Definition isEmpty b : bool := top b =? bottom b.

Definition isFull b : bool := Z.land (top b + 1) kMask =? bottom b.

(** [this.list[i]]: [undefined] for an unused slot. *)
Definition slot b (i : Z) : option V := mjoin (list_ b !! Z.to_nat i).

Definition push (data : option V) b : FixedCircularBuffer V :=
  mkBuffer (bottom b) (Z.land (top b + 1) kMask)
    (<[Z.to_nat (top b) := data]> (list_ b)) (next b).

Definition shift b : option V * FixedCircularBuffer V :=
  match slot b (bottom b) with
  | None => (None, b)
  | Some nextItem =>
      (Some nextItem,
       mkBuffer (Z.land (bottom b + 1) kMask) (top b)
         (<[Z.to_nat (bottom b) := None]> (list_ b)) (next b))
  end.

(** [this.next = l] *)
Definition set_next (l : loc) b : FixedCircularBuffer V :=
  mkBuffer (bottom b) (top b) (list_ b) (Some l).

End Buffer.
End Buffer.

(** ** The queue *)

Record FixedQueue (V : Type) := mkQueue {
  heap : gmap loc (FixedCircularBuffer V);
  head : loc;
  tail : loc;
}.
Arguments mkQueue {V} _ _ _.
Arguments heap {V} _.
Arguments head {V} _.
Arguments tail {V} _.

#[export] Instance buffer_inhabited {V} : Inhabited (FixedCircularBuffer V) :=
  populate Buffer.new.

Module Queue.
Section Queue.
Context {V : Type}.
Implicit Types q : FixedQueue V.

Definition new : FixedQueue V := mkQueue {[ 1%positive := Buffer.new ]} 1%positive 1%positive.

Definition isEmpty q : bool := Buffer.isEmpty (heap q !!! head q).

(** [this.head = this.head.next = new FixedCircularBuffer()] *)
Definition grow q : FixedQueue V :=
  let l := fresh (dom (heap q)) in
  let h := <[l := Buffer.new]> (heap q) in
  mkQueue (<[head q := Buffer.set_next l (h !!! head q)]> h) l (tail q).

Definition push (data : option V) q : FixedQueue V :=
  let q := if Buffer.isFull (heap q !!! head q) then grow q else q in
  mkQueue (<[head q := Buffer.push data (heap q !!! head q)]> (heap q)) (head q) (tail q).

Definition shift q : option V * FixedQueue V :=
  let '(item, b) := Buffer.shift (heap q !!! tail q) in
  let h := <[tail q := b]> (heap q) in
  let tail' :=
    if Buffer.isEmpty b
    then match next b with Some l => l | None => tail q end
    else tail q in
  (item, mkQueue h (head q) tail').

End Queue.
End Queue.

#[export] Instance FixedQueue_ops {V} : QueueOps (FixedQueue V) V := {|
  q_new := Queue.new;
  q_isEmpty := Queue.isEmpty;
  q_push := Queue.push;
  q_shift := Queue.shift;
|}.

(** ** What a buffer holds *)

Section Holds.
Context {V : Type}.
Implicit Types (b : FixedCircularBuffer V) (xs : list (option V)) (q : FixedQueue V).

Lemma land_kMask x : Z.land x kMask = x mod kSize.
Proof. change kMask with (Z.ones 11). rewrite Z.land_ones by lia. reflexivity. Qed.

Lemma kSize_pos : 0 < kSize.
Proof. reflexivity. Qed.

(** The slot of the [i]th value, counted from the bottom. *)
Definition pos b (i : Z) : Z := (bottom b + i) mod kSize.

(** The values [xs] are in the slots from the bottom on, the other slots are
    unused, and [top] is the slot after the last value. *)
Record holds b xs : Prop := {
  h_len : length (list_ b) = Z.to_nat kSize;
  h_bottom : 0 <= bottom b < kSize;
  h_top : top b = pos b (slen xs);
  h_cap : slen xs < kSize;
  h_slot : forall i, 0 <= i < kSize -> Buffer.slot b (pos b i) = mjoin (xs !! Z.to_nat i);
}.

Lemma pos_inj b i j :
  0 <= i < kSize -> 0 <= j < kSize -> pos b i = pos b j -> i = j.
Proof.
  intros Hi Hj E. unfold pos in E.
  pose proof (Z_div_mod_eq_full (bottom b + i) kSize).
  pose proof (Z_div_mod_eq_full (bottom b + j) kSize).
  pose proof kSize_pos. set (a := (bottom b + i) / kSize) in *. set (c := (bottom b + j) / kSize) in *.
  assert (i - j = kSize * (a - c)) by lia. destruct (Z.eq_dec a c); nia.
Qed.

Lemma pos_range b i : 0 <= pos b i < kSize.
Proof. apply Z.mod_pos_bound, kSize_pos. Qed.

Lemma pos_0 b xs : holds b xs -> pos b 0 = bottom b.
Proof. intros H. unfold pos. rewrite Z.add_0_r. apply Z.mod_small, H. Qed.

Lemma new_holds : holds Buffer.new [].
Proof.
  constructor; try done.
  intros i Hi. unfold Buffer.slot.
  change (list_ (@Buffer.new V)) with (replicate (Z.to_nat kSize) (@None V)).
  rewrite lookup_replicate_2; [done|]. pose proof (pos_range Buffer.new i). lia.
Qed.

Lemma isEmpty_holds b xs : holds b xs -> Buffer.isEmpty b = bool_decide (xs = []).
Proof.
  intros H. unfold Buffer.isEmpty. rewrite (h_top _ _ H), <-(pos_0 b xs H).
  pose proof kSize_pos. pose proof (h_cap _ _ H). slen_pos.
  case_bool_decide as E.
  - subst. apply Z.eqb_refl.
  - apply Z.eqb_neq. intros Ep. apply E, slen_0.
    apply (pos_inj b); [lia|lia|exact Ep].
Qed.

Lemma isFull_holds b xs : holds b xs -> Buffer.isFull b = (slen xs =? kSize - 1).
Proof.
  intros H. unfold Buffer.isFull. rewrite land_kMask, (h_top _ _ H).
  pose proof kSize_pos. pose proof (h_cap _ _ H). slen_pos.
  replace ((pos b (slen xs) + 1) mod kSize) with (pos b (slen xs + 1)).
  2:{ unfold pos. rewrite Zplus_mod_idemp_l. f_equal. lia. }
  destruct (Z.eqb_spec (slen xs) (kSize - 1)) as [->|Hne].
  - apply Z.eqb_eq. unfold pos. replace (bottom b + (kSize - 1 + 1)) with (bottom b + 1 * kSize) by lia.
    rewrite Z_mod_plus_full. apply Z.mod_small, H.
  - rewrite <-(pos_0 b xs H). apply Z.eqb_neq. intros E%pos_inj; lia.
Qed.

Lemma push_holds b xs v :
  holds b xs -> Buffer.isFull b = false -> holds (Buffer.push v b) (xs ++ [v]).
Proof.
  intros H F. rewrite (isFull_holds b xs H) in F. apply Z.eqb_neq in F.
  pose proof (h_cap _ _ H). pose proof kSize_pos. slen_pos.
  constructor; simpl; [rewrite length_insert; apply H|apply H| |autorewrite with js; lia|].
  - rewrite land_kMask, (h_top _ _ H). unfold pos. simpl. autorewrite with js.
    rewrite Zplus_mod_idemp_l. f_equal. lia.
  - intros i Hi. change (pos (Buffer.push v b) i) with (pos b i). unfold Buffer.slot. simpl.
    rewrite (h_top _ _ H). pose proof (pos_range b i). pose proof (pos_range b (slen xs)).
    pose proof (h_len _ _ H).
    destruct (Z.eq_dec i (slen xs)) as [->|Hne].
    + rewrite list_lookup_insert_eq by lia. unfold slen. rewrite Nat2Z.id.
      by rewrite list_lookup_middle.
    + rewrite list_lookup_insert_ne.
      2:{ intros E. apply Hne, (pos_inj b); lia. }
      change (mjoin (list_ b !! Z.to_nat (pos b i))) with (Buffer.slot b (pos b i)).
      rewrite (h_slot _ _ H) by lia. unfold slen in *.
      destruct (decide (Z.to_nat i < length xs)%nat); [by rewrite lookup_app_l by lia|].
      rewrite !lookup_ge_None_2; [done| |]; rewrite ?length_app; simpl; lia.
Qed.

(** What [shift] finds and what it leaves: an [undefined] stays where it is. *)
Definition shifted xs : option V * list (option V) :=
  match xs with
  | Some x :: xs' => (Some x, xs')
  | _ => (None, xs)
  end.

Lemma shift_holds b xs :
  holds b xs ->
  exists b', Buffer.shift b = ((shifted xs).1, b') /\ holds b' (shifted xs).2 /\
    next b' = next b.
Proof.
  intros H. unfold Buffer.shift.
  pose proof kSize_pos. pose proof (h_slot _ _ H 0 ltac:(lia)) as E0.
  rewrite (pos_0 b xs H) in E0. rewrite E0. change (Z.to_nat 0) with O.
  destruct xs as [|[x|] xs]; simpl; [by exists b| |by exists b].
  eexists. split; [reflexivity|]. split; [|done].
  pose proof (h_cap _ _ H) as Hc. autorewrite with js in Hc. slen_pos.
  set (b' := mkBuffer _ _ _ _).
  assert (Hpos : forall i, pos b' i = pos b (i + 1)).
  { intros i. unfold pos, b'. simpl. rewrite land_kMask, Zplus_mod_idemp_l. f_equal. lia. }
  constructor; [simpl; rewrite length_insert; apply H| | |lia|].
  - simpl. rewrite land_kMask. apply Z.mod_pos_bound; lia.
  - rewrite Hpos. simpl. rewrite (h_top _ _ H). autorewrite with js. f_equal. lia.
  - intros i Hi. rewrite Hpos. unfold Buffer.slot. simpl.
    pose proof (pos_range b (i + 1)). pose proof (h_bottom _ _ H). pose proof (h_len _ _ H).
    destruct (Z.eq_dec i (kSize - 1)) as [->|Hne].
    + replace (pos b (kSize - 1 + 1)) with (bottom b).
      2:{ unfold pos. replace (bottom b + (kSize - 1 + 1)) with (bottom b + 1 * kSize) by lia.
          rewrite Z_mod_plus_full. symmetry. by apply Z.mod_small. }
      rewrite list_lookup_insert_eq by lia.
      rewrite lookup_ge_None_2; [done|]. unfold slen in *. lia.
    + rewrite list_lookup_insert_ne.
      2:{ rewrite <-(pos_0 b _ H). intros E. assert (i + 1 = 0); [|lia].
          pose proof (pos_range b 0). apply (pos_inj b); lia. }
      change (mjoin (list_ b !! Z.to_nat (pos b (i + 1)))) with (Buffer.slot b (pos b (i + 1))).
      rewrite (h_slot _ _ H) by lia. by replace (Z.to_nat (i + 1)) with (S (Z.to_nat i)) by lia.
Qed.

End Holds.

(** ** The chain of buffers from [tail] to [head] *)

Section Chain.
Context {V : Type}.
Implicit Types (b : FixedCircularBuffer V) (xs ys : list (option V)) (q : FixedQueue V)
  (h : gmap loc (FixedCircularBuffer V)).

(** [chain h t hd ls xs ys]: following [next] from [t] visits the distinct
    buffers [ls] and ends at [hd]; together they hold [xs], and the last one
    holds [ys].  No buffer is empty, unless it is the only one. *)
Inductive chain h : loc -> loc -> list loc -> list (option V) -> list (option V) -> Prop :=
  | chain_one l b xs :
      h !! l = Some b -> next b = None -> holds b xs -> chain h l l [l] xs xs
  | chain_more l b l' hd ls xs xs' ys :
      h !! l = Some b -> next b = Some l' -> holds b xs -> xs <> [] -> ys <> [] ->
      l ∉ ls -> chain h l' hd ls xs' ys ->
      chain h l hd (l :: ls) (xs ++ xs') ys.

Lemma chain_frame h h' t hd ls xs ys :
  chain h t hd ls xs ys -> (forall l, l ∈ ls -> h' !! l = h !! l) -> chain h' t hd ls xs ys.
Proof.
  induction 1 as [l b xs Hl Hn Hh|l b l' hd ls xs xs' ys Hl Hn Hh Hx Hy Hni Hc IH]; intros E.
  - eapply chain_one; eauto. rewrite E; [done|set_solver].
  - eapply chain_more; eauto; [rewrite E; [done|set_solver]|]. apply IH. set_solver.
Qed.

Lemma chain_head h t hd ls xs ys :
  chain h t hd ls xs ys ->
  hd ∈ ls /\ exists b pre, h !! hd = Some b /\ next b = None /\ holds b ys /\ xs = pre ++ ys.
Proof.
  induction 1 as [l b xs Hl Hn Hh|l b l' hd ls xs xs' ys Hl Hn Hh Hx Hy Hni Hc IH].
  - split; [set_solver|]. by exists b, [].
  - destruct IH as [Hin (b' & pre & ? & ? & ? & ->)]. split; [set_solver|].
    exists b', (xs ++ pre). by rewrite app_assoc.
Qed.

(** The head of the chain can be replaced by a buffer that holds more. *)
Lemma chain_update h t hd ls xs ys b' v :
  chain h t hd ls xs ys -> next b' = None -> holds b' (ys ++ [v]) ->
  chain (<[hd := b']> h) t hd ls (xs ++ [v]) (ys ++ [v]).
Proof.
  intros Hc Hn' Hh'.
  induction Hc as [l b xs Hl Hn Hh|l b l' hd ls xs xs' ys Hl Hn Hh Hx Hy Hni Hc IH].
  - eapply chain_one; [apply lookup_insert_eq|done|done].
  - rewrite <-app_assoc. destruct (chain_head _ _ _ _ _ _ Hc) as [Hin _].
    eapply chain_more; [|done|done|done| |done|by apply IH].
    + rewrite lookup_insert_ne; [done|]. set_solver.
    + by destruct ys.
Qed.

(** A new head is linked after the old one. *)
Lemma chain_link h h' t hd ls xs ys l b2 ys2 :
  chain h t hd ls xs ys -> ys <> [] -> l ∉ ls ->
  (forall b, h !! hd = Some b -> h' !! hd = Some (Buffer.set_next l b)) ->
  (forall l0, l0 ∈ ls -> l0 <> hd -> h' !! l0 = h !! l0) ->
  h' !! l = Some b2 -> next b2 = None -> holds b2 ys2 -> ys2 <> [] ->
  chain h' t l (ls ++ [l]) (xs ++ ys2) ys2.
Proof.
  intros Hc Hys Hl Ehd Eother El Hn2 Hh2 Hne.
  induction Hc as [l1 b xs Hl1 Hn Hh|l1 b l' hd ls xs xs' ys Hl1 Hn Hh Hx Hy Hni Hc IH].
  - simpl. apply not_elem_of_cons in Hl as [Hl _].
    eapply chain_more; [by apply Ehd|done| |done|done|by rewrite list_elem_of_singleton|by eapply chain_one].
    destruct Hh. by constructor.
  - simpl. rewrite <-app_assoc. destruct (chain_head _ _ _ _ _ _ Hc) as [Hin _].
    eapply chain_more; [|done|done|done|done| |].
    + rewrite Eother; [done|set_solver|]. set_solver.
    + rewrite elem_of_app, list_elem_of_singleton. intros [?| ->]; [done|]. by apply Hl, list_elem_of_here.
    + apply IH; [done|set_solver|done|]. intros. apply Eother; set_solver.
Qed.

(** The representation invariant of the queue. *)
Definition queue_holds q xs : Prop :=
  exists ls ys, chain (heap q) (tail q) (head q) ls xs ys.

Lemma chain_dom h t hd ls xs ys l : chain h t hd ls xs ys -> l ∈ ls -> l ∈ dom h.
Proof.
  induction 1; intros Hin; rewrite elem_of_dom; [|rename select (_ -> _) into IH].
  - apply list_elem_of_singleton in Hin as ->. eauto.
  - apply elem_of_cons in Hin as [->|Hin]; [eauto|]. rewrite <-elem_of_dom. auto.
Qed.

Lemma queue_new_holds : queue_holds (@Queue.new V) [].
Proof.
  eexists [1%positive], []. eapply chain_one; [apply lookup_insert_eq|done|apply new_holds].
Qed.

Lemma queue_isEmpty_holds q xs : queue_holds q xs -> Queue.isEmpty q = bool_decide (xs = []).
Proof.
  intros (ls & ys & Hc). unfold Queue.isEmpty.
  destruct (chain_head _ _ _ _ _ _ Hc) as [_ (b & pre & Hl & _ & Hh & _)].
  rewrite (lookup_total_correct _ _ _ Hl), (isEmpty_holds _ _ Hh).
  apply bool_decide_ext. inversion Hc; subst; [done|].
  split; [done|]. by intros [-> _]%app_nil.
Qed.

Lemma queue_push_holds q xs v : queue_holds q xs -> queue_holds (Queue.push v q) (xs ++ [v]).
Proof.
  intros (ls & ys & Hc). unfold Queue.push.
  destruct (chain_head _ _ _ _ _ _ Hc) as [Hin (b & pre & Hl & Hn & Hh & _)].
  rewrite (lookup_total_correct _ _ _ Hl).
  destruct (Buffer.isFull b) eqn:F.
  2:{ exists ls, (ys ++ [v]). simpl. rewrite (lookup_total_correct _ _ _ Hl).
      apply chain_update; [done|done|by apply push_holds]. }
  rewrite (isFull_holds _ _ Hh) in F. apply Z.eqb_eq in F.
  unfold Queue.grow. cbn [heap head tail]. set (l := fresh (dom (heap q))).
  assert (Hfresh : l ∉ dom (heap q)) by apply is_fresh.
  assert (l <> head q) by (intros E; apply Hfresh; rewrite E; eapply chain_dom; eauto).
  exists (ls ++ [l]), [v]. eapply chain_link with (ys := ys); [exact Hc| | | | | |..].
  - intros ->. by cbv in F.
  - intros Hll. by eapply Hfresh, chain_dom.
  - intros b0 Hb0. simplify_eq. cbn [heap head tail]. rewrite lookup_insert_ne by done. rewrite lookup_insert_eq.
    by rewrite lookup_total_insert_ne, (lookup_total_correct _ _ _ Hl) by done.
  - intros l0 Hl0 Hne. assert (l0 <> l) by (intros ->; by eapply Hfresh, chain_dom).
    cbn [heap]. by rewrite !lookup_insert_ne by done.
  - cbn [heap]. rewrite lookup_insert_eq. by rewrite lookup_total_insert_ne, lookup_total_insert_eq by done.
  - done.
  - apply (push_holds _ []); [apply new_holds|done].
  - done.
Qed.

Lemma queue_shift_holds q xs :
  queue_holds q xs ->
  exists q', Queue.shift q = ((shifted xs).1, q') /\ queue_holds q' (shifted xs).2.
Proof.
  intros (ls & ys & Hc). unfold Queue.shift.
  inversion Hc as [l b zs Hl Hn Hh|l b l' hd ls' zs xs' ys' Hl Hn Hh Hx Hy Hni Hc']; subst.
  - rewrite (lookup_total_correct _ _ _ Hl).
    destruct (shift_holds _ _ Hh) as (b' & -> & Hh' & Hn').
    eexists. split; [reflexivity|]. rewrite Hn', Hn.
    eexists _, _. replace (head q) with (tail q) by done.
    assert (E : forall c : bool, (if c then tail q else tail q) = tail q) by by intros [].
    cbn [tail heap head]. rewrite E. eapply chain_one; [apply lookup_insert_eq|by rewrite Hn'|done].
  - rewrite (lookup_total_correct _ _ _ Hl).
    destruct (shift_holds _ _ Hh) as (b' & -> & Hh' & Hn').
    rewrite (isEmpty_holds _ _ Hh'), Hn', Hn.
    assert (Hcf : chain (<[tail q := b']> (heap q)) l' (head q) ls' xs' ys).
    { eapply chain_frame; [done|]. intros l Hin. rewrite lookup_insert_ne; [done|]. by intros E; rewrite E in Hni. }
    destruct zs as [|[x|] zs]; [done| |]; simpl in *.
    + eexists. split; [reflexivity|]. case_bool_decide as E; cbn [tail heap head].
      * subst zs. eexists _, _. exact Hcf.
      * exists (tail q :: ls'), ys. eapply (chain_more _ _ _ _ _ _ zs);
          [apply lookup_insert_eq|by rewrite Hn'|done|done|done|exact Hni|exact Hcf].
    + eexists. split; [reflexivity|]. cbn [tail heap head]. exists (tail q :: ls'), ys.
      eapply (chain_more _ _ _ _ _ _ (None :: zs));
        [apply lookup_insert_eq|by rewrite Hn'|done|done|done|exact Hni|exact Hcf].
Qed.

Lemma queue_shift_defined q (xs : list V) :
  queue_holds q (Some <$> xs) ->
  exists q', Queue.shift q = (hd_error xs, q') /\ queue_holds q' (Some <$> tl xs).
Proof. intros (q' & E & H)%queue_shift_holds. exists q'. by destruct xs. Qed.

End Chain.

#[export] Instance FixedQueue_laws {V} : QueueLaws (FixedQueue V) V := {|
  q_holds := queue_holds;
  q_new_holds := queue_new_holds;
  q_isEmpty_holds := queue_isEmpty_holds;
  q_push_holds := queue_push_holds;
  q_shift_holds := queue_shift_defined;
|}.

(** ** Refinement: every sequence of operations *)

(** The reference queue: the plain list of the values, the oldest first. *)
Definition ListQueue_ops {V} : QueueOps (list (option V)) V := {|
  q_new := [];
  q_isEmpty := fun xs => bool_decide (xs = []);
  q_push := fun v xs => xs ++ [v];
  q_shift := fun xs => match xs with [] => (None, []) | x :: xs' => (x, xs') end;
|}.

Inductive queue_op (V : Type) :=
  | OpPush (v : option V)
  | OpShift
  | OpIsEmpty.
Arguments OpPush {V} _.
Arguments OpShift {V}.
Arguments OpIsEmpty {V}.

(** What a client sees of an operation. *)
Inductive queue_obs (V : Type) :=
  | Pushed
  | Shifted (v : option V)
  | Empty (b : bool).
Arguments Pushed {V}.
Arguments Shifted {V} _.
Arguments Empty {V} _.

Definition queue_step {Q V} (O : QueueOps Q V) (q : Q) (o : queue_op V) : queue_obs V * Q :=
  match o with
  | OpPush v => (Pushed, @q_push _ _ O v q)
  | OpShift => let '(v, q') := @q_shift _ _ O q in (Shifted v, q')
  | OpIsEmpty => (Empty (@q_isEmpty _ _ O q), q)
  end.

Fixpoint queue_trace {Q V} (O : QueueOps Q V) (q : Q) (os : list (queue_op V)) : list (queue_obs V) :=
  match os with
  | [] => []
  | o :: os' => let '(r, q') := queue_step O q o in r :: queue_trace O q' os'
  end.

(** Values other than [undefined] are pushed. *)
Definition defined {V} (o : queue_op V) : bool :=
  match o with OpPush None => false | _ => true end.

Lemma queue_step_refines {V} (q : FixedQueue V) (xs : list V) o :
  queue_holds q (Some <$> xs) -> defined o = true ->
  exists q' xs', queue_step FixedQueue_ops q o = ((queue_step ListQueue_ops (Some <$> xs) o).1, q') /\
    (queue_step ListQueue_ops (Some <$> xs) o).2 = Some <$> xs' /\ queue_holds q' (Some <$> xs').
Proof.
  intros H Ho. destruct o as [[v|]| |]; [|done|..]; simpl.
  - eexists _, (xs ++ [v]). split; [done|]. rewrite fmap_app. split; [done|]. by apply (queue_push_holds q _ (Some v)).
  - destruct (queue_shift_defined _ _ H) as (q' & -> & H'). exists q', (tl xs). by destruct xs.
  - rewrite (queue_isEmpty_holds _ _ H). by exists q, xs.
Qed.

Lemma queue_trace_refines {V} (q : FixedQueue V) (xs : list V) os :
  queue_holds q (Some <$> xs) -> forallb defined os = true ->
  queue_trace FixedQueue_ops q os = queue_trace ListQueue_ops (Some <$> xs) os.
Proof.
  revert q xs. induction os as [|o os IH]; intros q xs H; [done|]. simpl. intros [Ho Hos]%andb_true_iff.
  destruct (queue_step_refines q xs o H Ho) as (q' & xs' & -> & E & H').
  destruct (queue_step ListQueue_ops (Some <$> xs) o) as [r l]. simpl in E. subst l. by rewrite (IH _ _ H').
Qed.

(** C32. A [FixedQueue] is a first-in first-out queue: whatever sequence of
    [push], [shift] and [isEmpty] a client runs on a new queue, of any length,
    with any number of full buffers and of wrap-arounds, it sees the results the
    plain list of the queued values gives, if it pushes no [undefined]. *)
Theorem fixed_queue_refines {V} (os : list (queue_op V)) :
  forallb defined os = true ->
  queue_trace FixedQueue_ops Queue.new os = queue_trace ListQueue_ops [] os.
Proof. apply (queue_trace_refines Queue.new []), queue_new_holds. Qed.

Lemma fixed_queue_refines_witness :
  queue_trace FixedQueue_ops Queue.new [OpPush (Some 1); OpPush (Some 2); OpShift; OpIsEmpty; OpShift; OpShift] =
  [Pushed; Pushed; Shifted (Some 1); Empty false; Shifted (Some 2); Shifted None].
Proof. rewrite fixed_queue_refines by reflexivity. reflexivity. Defined.

(** A pushed [undefined] cannot be shifted out: once it is the oldest value
    the queue is not empty and [shift] keeps returning [null], so the values
    behind it are never delivered. *)
Lemma undefined_blocks_shift {V} (q : FixedQueue V) xs n :
  queue_holds q (None :: xs) ->
  queue_trace FixedQueue_ops q (replicate n OpShift ++ [OpIsEmpty]) =
    replicate n (Shifted None) ++ [Empty false].
Proof.
  revert q. induction n as [|n IH]; intros q H; simpl.
  - by rewrite (queue_isEmpty_holds _ _ H).
  - destruct (queue_shift_holds _ _ H) as (q' & -> & H'). simpl. by rewrite (IH q' H').
Qed.
