(* ===== verification/NextTick.v ===== *)
(** * process.nextTick

    Models [src/ext/node/polyfills/_next_tick.ts]: the tick queue, [nextTick],
    [processTicksAndRejections] and [runNextTicks].  The queue is used through
    the interface of [FixedQueue] only.

    A callback is user code: it may read and write the state of the program
    ([W]), call [nextTick] any number of times, look at whether that call threw,
    and return or throw.  [prog] is such code; which code a function value runs
    is a parameter.  [core.runMicrotasks] runs user code too (the promise jobs),
    whose exceptions do not reach its caller.

    [enqueued] and [called] are history variables: the ticks [nextTick] accepted
    and the calls [processTicksAndRejections] made, in order, with the arguments
    as the caller gave them and as the callback received them. *)

From Stdlib Require Import ZArith Lia.
From stdpp Require Import base list numbers option strings.
From S2P Require Import Prelude FixedQueue.

#[local] Open Scope Z_scope.

#[export] Instance jsval_inhabited : Inhabited jsval := populate VUndefined.

(** A value passed as a callback: a function or something else. *)
Inductive cbvalue (F : Type) :=
  | Fn (f : F)
  | NotFn (v : jsval).
Arguments Fn {F} _.
Arguments NotFn {F} _.

Record Tock (F : Type) := mkTock {
  callback : F;
  args : option (list jsval);
}.
Arguments mkTock {F} _ _.
Arguments callback {F} _.
Arguments args {F} _.

(** User code. *)
Inductive prog (W F : Type) :=
  | PRet
  | PThrow (e : js_error)
  | PGet (k : W -> prog W F)
  | PPut (w : W) (k : prog W F)
  | PNextTick (cb : cbvalue F) (ar : list jsval) (k : jsres unit -> prog W F).
Arguments PRet {W F}.
Arguments PThrow {W F} _.
Arguments PGet {W F} _.
Arguments PPut {W F} _ _.
Arguments PNextTick {W F} _ _ _.

(** The state of the module, of the flag [core] keeps, and of the program. *)
Record tick_state (Q W F : Type) := mkTicks {
  nextTickEnabled : bool;
  queue : Q;
  _exiting : bool;
  tickScheduled : bool;
  world : W;
  enqueued : list (F * list jsval);
  called : list (F * list jsval);
}.
Arguments mkTicks {Q W F} _ _ _ _ _ _ _.
Arguments nextTickEnabled {Q W F} _.
Arguments queue {Q W F} _.
Arguments _exiting {Q W F} _.
Arguments tickScheduled {Q W F} _.
Arguments world {Q W F} _.
Arguments enqueued {Q W F} _.
Arguments called {Q W F} _.

(** The copy [nextTick] makes of its arguments: [undefined] when there are
    none. *)
Definition copy_args (ar : list jsval) : option (list jsval) :=
  match ar with
  | [] => None
  | [_] => Some [ar !!! 0%nat]
  | [_; _] => Some [ar !!! 0%nat; ar !!! 1%nat]
  | [_; _; _] => Some [ar !!! 0%nat; ar !!! 1%nat; ar !!! 2%nat]
  | _ => Some (for_up 0 (slen ar)
           (fun i args_ => Continue (<[Z.to_nat i := ar !!! Z.to_nat i]> args_))
           (replicate (length ar) VUndefined))
  end.

(** The arguments of the call, by the [switch] on [args.length]. *)
Definition call_args (a : option (list jsval)) : list jsval :=
  match a with
  | None => []
  | Some ar =>
      match slen ar with
      | 1 => [ar !!! 0%nat]
      | 2 => [ar !!! 0%nat; ar !!! 1%nat]
      | 3 => [ar !!! 0%nat; ar !!! 1%nat; ar !!! 2%nat]
      | 4 => [ar !!! 0%nat; ar !!! 1%nat; ar !!! 2%nat; ar !!! 3%nat]
      | _ => ar
      end
  end.

Section NextTick.
Context {Q W F : Type} `{QueueOps Q (Tock F)}.

Abbreviation state := (tick_state Q W F).
Implicit Types st : state.

Definition enableNextTick st : state :=
  mkTicks true (queue st) (_exiting st) (tickScheduled st) (world st) (enqueued st) (called st).

(** [core.setHasTickScheduled(b)] *)
Definition setHasTickScheduled (b : bool) st : state :=
  mkTicks (nextTickEnabled st) (queue st) (_exiting st) b (world st) (enqueued st) (called st).

Definition set_queue (q : Q) st : state :=
  mkTicks (nextTickEnabled st) q (_exiting st) (tickScheduled st) (world st) (enqueued st) (called st).

Definition set_world (w : W) st : state :=
  mkTicks (nextTickEnabled st) (queue st) (_exiting st) (tickScheduled st) w (enqueued st) (called st).

Definition log_enqueued (f : F) (ar : list jsval) st : state :=
  mkTicks (nextTickEnabled st) (queue st) (_exiting st) (tickScheduled st) (world st)
    (enqueued st ++ [(f, ar)]) (called st).

Definition log_called (f : F) (ar : list jsval) st : state :=
  mkTicks (nextTickEnabled st) (queue st) (_exiting st) (tickScheduled st) (world st)
    (enqueued st) (called st ++ [(f, ar)]).

Definition nextTick (cb : cbvalue F) (ar : list jsval) st : state * jsres unit :=
  if negb (nextTickEnabled st) then (st, Ok tt) else
  match cb with
  | NotFn v => (st, Throw (ERR_INVALID_ARG_TYPE "callback"%string ["Function"%string] v))
  | Fn f =>
      if _exiting st then (st, Ok tt) else
      let args_ := copy_args ar in
      let st := if q_isEmpty (queue st) then setHasTickScheduled true st else st in
      let tickObject := mkTock f args_ in
      (log_enqueued f ar (set_queue (q_push (Some tickObject) (queue st)) st), Ok tt)
  end.

(** Running user code. *)
Fixpoint exec (p : prog W F) st : state * jsres unit :=
  match p with
  | PRet => (st, Ok tt)
  | PThrow e => (st, Throw e)
  | PGet k => exec (k (world st)) st
  | PPut w k => exec k (set_world w st)
  | PNextTick cb ar k => let '(st', r) := nextTick cb ar st in exec (k r) st'
  end.

(** The code of a function value, given its arguments, and the promise jobs. *)
Context (body : F -> list jsval -> prog W F).
Context (microtasks : prog W F).

(** One call of the [while] loop. *)
Definition call_tock (t : Tock F) st : state * jsres unit :=
  let ar := call_args (args t) in
  exec (body (callback t) ar) (log_called (callback t) ar st).

(** [while (tock = queue.shift()) ...] *)
Fixpoint drain (fuel : nat) st : option (state * jsres unit) :=
  match fuel with
  | O => None
  | S fuel' =>
      let '(tock, q') := q_shift (queue st) in
      let st := set_queue q' st in
      match tock with
      | None => Some (st, Ok tt)
      | Some t =>
          let '(st, r) := call_tock t st in
          match r with
          | Throw e => Some (st, Throw e)
          | Ok _ => drain fuel' st
          end
      end
  end.

Definition runMicrotasks st : state := (exec microtasks st).1.

Fixpoint processTicksAndRejections (fuel : nat) st : option (state * jsres unit) :=
  match fuel with
  | O => None
  | S fuel' =>
      match drain fuel st with
      | None => None
      | Some (st, Throw e) => Some (st, Throw e)
      | Some (st, Ok _) =>
          let st := runMicrotasks st in
          if q_isEmpty (queue st) then Some (setHasTickScheduled false st, Ok tt)
          else processTicksAndRejections fuel' st
      end
  end.

Definition runNextTicks (fuel : nat) st : option (state * jsres bool) :=
  if negb (tickScheduled st) then Some (runMicrotasks st, Ok true) else
  match processTicksAndRejections fuel st with
  | None => None
  | Some (st, Throw e) => Some (st, Throw e)
  | Some (st, Ok _) => Some (st, Ok true)
  end.

End NextTick.

(** ** The arguments *)

Lemma copy_loop (ar : list jsval) :
  for_up 0 (slen ar)
    (fun i args_ => Continue (<[Z.to_nat i := ar !!! Z.to_nat i]> args_))
    (replicate (length ar) VUndefined) = ar.
Proof.
  apply (for_up_inv (fun (i : Z) (acc : list jsval) => length acc = length ar /\ forall j, (j < Z.to_nat i)%nat -> acc !! j = ar !! j) 0 (slen ar)).
  - slen_pos. lia.
  - split; [by rewrite length_replicate|]. intros. lia.
  - intros i acc Hi [Hlen Hacc]. eexists. split; [reflexivity|]. unfold slen in Hi.
    rewrite length_insert. split; [done|]. intros j Hj.
    destruct (decide (j = Z.to_nat i)) as [->|Hne].
    + rewrite list_lookup_insert_eq by lia. symmetry. apply list_lookup_lookup_total_lt. lia.
    + rewrite list_lookup_insert_ne by done. apply Hacc. lia.
  - intros acc [Hlen Hacc]. apply list_eq. intros j.
    destruct (decide (j < length ar)%nat); [apply Hacc; unfold slen; lia|].
    by rewrite !lookup_ge_None_2 by lia.
Qed.

(** The callback receives the arguments [nextTick] was given. *)
Lemma call_copy_args ar : call_args (copy_args ar) = ar.
Proof.
  destruct ar as [|a [|b [|c [|d ar]]]]; try reflexivity.
  unfold copy_args. rewrite copy_loop. unfold call_args.
  destruct ar as [|e ar]; [reflexivity|]. rewrite !slen_cons. slen_pos.
  destruct (1 + _) as [|p|p] eqn:E; [done| |done].
  do 3 (destruct p as [p|p|]; try done; try lia).
Qed.

(** ** The invariant *)

Section Invariant.
Context {Q W F : Type} `{QueueLaws Q (Tock F)}.
Context (body : F -> list jsval -> prog W F) (microtasks : prog W F).
Implicit Types (st : tick_state Q W F) (t : Tock F) (ts : list (Tock F)).

(** The call a queued tick stands for. *)
Definition pending_call t : F * list jsval := (callback t, call_args (args t)).

(** [pending st ts]: the queue holds exactly the ticks [ts]; every accepted call
    of [nextTick] has been made or is one of them, in order; and if there is a
    queued tick, the event loop knows. *)
Record pending st ts : Prop := {
  p_queue : q_holds (queue st) (Some <$> ts);
  p_history : enqueued st = called st ++ (pending_call <$> ts);
  p_scheduled : ts <> [] -> tickScheduled st = true;
}.

(** What stays fixed: the calls made, whether ticks are enabled. *)
Record same_calls st st' : Prop := {
  sc_called : called st' = called st;
  sc_enabled : nextTickEnabled st' = nextTickEnabled st;
  sc_exiting : _exiting st' = _exiting st;
}.

Lemma same_calls_refl st : same_calls st st.
Proof. by constructor. Qed.

Lemma same_calls_trans st1 st2 st3 : same_calls st1 st2 -> same_calls st2 st3 -> same_calls st1 st3.
Proof. intros [] []. constructor; congruence. Qed.

Lemma pending_isEmpty st ts : pending st ts -> q_isEmpty (queue st) = bool_decide (ts = []).
Proof.
  intros P. rewrite (q_isEmpty_holds _ _ (p_queue _ _ P)).
  apply bool_decide_ext. by destruct ts.
Qed.

Lemma nextTick_pending cb ar st ts :
  pending st ts ->
  exists ts', pending (nextTick cb ar st).1 (ts ++ ts') /\ same_calls st (nextTick cb ar st).1.
Proof.
  intros P. unfold nextTick.
  destruct (nextTickEnabled st) eqn:?; simpl;
    [|exists []; rewrite app_nil_r; split; [done|apply same_calls_refl]].
  destruct cb as [f|v]; [|exists []; rewrite app_nil_r; split; [done|apply same_calls_refl]].
  destruct (_exiting st) eqn:?; simpl;
    [exists []; rewrite app_nil_r; split; [done|apply same_calls_refl]|].
  exists [mkTock f (copy_args ar)]. rewrite (pending_isEmpty _ _ P).
  split; [|by case_bool_decide; constructor].
  constructor.
  - rewrite fmap_app. case_bool_decide; apply q_push_holds, P.
  - rewrite fmap_app. simpl. unfold pending_call at 2. simpl. rewrite call_copy_args, app_assoc.
    case_bool_decide; simpl; by rewrite (p_history _ _ P).
  - intros _. case_bool_decide; [done|]. by apply (p_scheduled _ _ P).
Qed.

Lemma exec_pending p st ts :
  pending st ts -> exists ts', pending (exec p st).1 (ts ++ ts') /\ same_calls st (exec p st).1.
Proof.
  revert st ts. induction p as [|e|k IH|w k IH|cb ar k IH]; intros st ts P; simpl.
  - exists []. rewrite app_nil_r. split; [done|apply same_calls_refl].
  - exists []. rewrite app_nil_r. split; [done|apply same_calls_refl].
  - by apply IH.
  - destruct (IH (set_world w st) ts) as (ts' & P' & S'); [by destruct P; constructor|].
    exists ts'. split; [done|]. by destruct S'; constructor.
  - destruct (nextTick_pending cb ar st ts P) as (ts1 & P1 & S1).
    destruct (nextTick cb ar st) as [st1 r]. simpl in *.
    destruct (IH r st1 _ P1) as (ts2 & P2 & S2). exists (ts1 ++ ts2).
    rewrite app_assoc. split; [done|]. by eapply same_calls_trans.
Qed.

(** The queue is shifted and the oldest tick, if any, is called. *)
Lemma shift_pending st ts :
  pending st ts ->
  match ts with
  | [] => exists q', q_shift (queue st) = (None, q') /\ pending (set_queue q' st) []
  | t :: ts' =>
      exists q', q_shift (queue st) = (Some t, q') /\
        pending (log_called (callback t) (call_args (args t)) (set_queue q' st)) ts'
  end.
Proof.
  intros P. destruct (q_shift_holds _ _ (p_queue _ _ P)) as (q' & E & Hq').
  destruct ts as [|t ts]; exists q'; simpl in *; (split; [done|]); constructor; simpl; try done; try apply P.
  - rewrite (p_history _ _ P). simpl. by rewrite <-app_assoc.
  - intros _. by apply (p_scheduled _ _ P).
Qed.

Lemma call_tock_pending t st q' ts :
  pending (log_called (callback t) (call_args (args t)) (set_queue q' st)) ts ->
  exists ts', pending (call_tock body t (set_queue q' st)).1 (ts ++ ts') /\
    called (call_tock body t (set_queue q' st)).1 = called st ++ [pending_call t].
Proof.
  intros P. unfold call_tock.
  destruct (exec_pending (body (callback t) (call_args (args t))) _ _ P) as (ts' & P' & S').
  exists ts'. split; [done|]. by rewrite (sc_called _ _ S').
Qed.

Lemma drain_pending fuel st ts st' r :
  pending st ts -> drain body fuel st = Some (st', r) ->
  exists ts', pending st' ts' /\ (r = Ok tt -> ts' = []).
Proof.
  revert st ts. induction fuel as [|fuel IH]; intros st ts P; simpl; [done|].
  pose proof (shift_pending st ts P) as Hs. destruct ts as [|t ts]; destruct Hs as (q' & -> & P').
  - intros [= <- <-]. by exists [].
  - destruct (call_tock_pending t st q' ts P') as (ts' & P'' & _).
    destruct (call_tock body t (set_queue q' st)) as [st1 [[]|e]].
    + by apply (IH st1 (ts ++ ts')).
    + intros [= <- <-]. exists (ts ++ ts'). split; [done|]. by intros [=].
Qed.

Lemma process_pending fuel st ts st' r :
  pending st ts -> processTicksAndRejections body microtasks fuel st = Some (st', r) ->
  exists ts', pending st' ts' /\ (r = Ok tt -> ts' = [] /\ tickScheduled st' = false).
Proof.
  revert st ts. induction fuel as [|fuel IH]; intros st ts P; cbn [processTicksAndRejections]; [done|].
  destruct (drain body (S fuel) st) as [[st1 r1]|] eqn:D; [|done].
  destruct (drain_pending _ _ _ _ _ P D) as (ts1 & P1 & E1).
  destruct r1 as [[]|e]; [|intros [= <- <-]; exists ts1; split; [done|by intros [=]]].
  destruct (exec_pending microtasks st1 ts1 P1) as (ts2 & P2 & _).
  fold (runMicrotasks microtasks st1) in P2.
  rewrite (pending_isEmpty _ _ P2). case_bool_decide as Em; [|by apply (IH _ _ P2)].
  intros [= <- <-]. exists []. split; [|done].
  rewrite Em in P2. destruct P2. by constructor.
Qed.

(** ** Reachable states *)

(** The states the module can be in: from its initial one, by running user code
    from the event loop, by enabling ticks, by the process starting to exit, and
    by the two functions the event loop calls. *)
Inductive reachable : tick_state Q W F -> Prop :=
  | reach_init w : reachable (mkTicks false q_new false false w [] [])
  | reach_enable st : reachable st -> reachable (enableNextTick st)
  | reach_exit st : reachable st ->
      reachable (mkTicks (nextTickEnabled st) (queue st) true (tickScheduled st) (world st)
                   (enqueued st) (called st))
  | reach_code st p : reachable st -> reachable (exec p st).1
  | reach_process st fuel st' r : reachable st ->
      processTicksAndRejections body microtasks fuel st = Some (st', r) -> reachable st'
  | reach_run st fuel st' r : reachable st ->
      runNextTicks body microtasks fuel st = Some (st', r) -> reachable st'.

Lemma reachable_pending st : reachable st -> exists ts, pending st ts.
Proof.
  induction 1 as [w|st _ [ts P]|st _ [ts P]|st p _ [ts P]|st fuel st' r _ [ts P] E|st fuel st' r _ [ts P] E].
  - exists []. constructor; simpl; [apply q_new_holds|done|done].
  - exists ts. by destruct P; constructor.
  - exists ts. by destruct P; constructor.
  - destruct (exec_pending p st ts P) as (ts' & P' & _). eauto.
  - destruct (process_pending _ _ _ _ _ P E) as (ts' & P' & _). eauto.
  - unfold runNextTicks in E. destruct (tickScheduled st); simpl in E.
    + destruct (processTicksAndRejections body microtasks fuel st) as [[st1 r1]|] eqn:E1; [|done].
      destruct (process_pending _ _ _ _ _ P E1) as (ts' & P' & _).
      exists ts'. destruct r1; by simplify_eq.
    + simplify_eq. destruct (exec_pending microtasks st ts P) as (ts' & P' & _). eauto.
Qed.

End Invariant.

(** ** Termination *)

Section Progress.
Context {Q W F : Type} `{QueueLaws Q (Tock F)}.
Context (body : F -> list jsval -> prog W F) (microtasks : prog W F).
Context (cost : F * list jsval -> nat) (energy : W -> nat).
Implicit Types (st : tick_state Q W F) (ts : list (Tock F)).

(** What is left to do: the cost of the queued calls and the program's energy. *)
Definition potential st (calls : list (F * list jsval)) : nat :=
  energy (world st) + sum_list_with cost calls.

(** Every call uses up more than it schedules, and the promise jobs do not
    create potential. *)
Definition frugal_calls : Prop := forall f ar st,
  exists new, enqueued (exec (body f ar) st).1 = enqueued st ++ new /\
    (potential (exec (body f ar) st).1 new < potential st [(f, ar)])%nat.
Definition frugal_jobs : Prop := forall st,
  exists new, enqueued (exec microtasks st).1 = enqueued st ++ new /\
    (potential (exec microtasks st).1 new <= potential st [])%nat.

Context (Hcalls : frugal_calls) (Hjobs : frugal_jobs).

Lemma pending_new st st' ts ts' new :
  pending st ts -> pending st' ts' -> called st' = called st ->
  enqueued st' = enqueued st ++ new -> pending_call <$> ts' = (pending_call <$> ts) ++ new.
Proof.
  intros P P' Ec Ee. rewrite (p_history _ _ P), (p_history _ _ P'), Ec, <-app_assoc in Ee.
  by apply app_inv_head in Ee.
Qed.

Lemma drain_terminates fuel st ts :
  pending st ts -> (potential st (pending_call <$> ts) < fuel)%nat ->
  exists st' r, drain body fuel st = Some (st', r) /\
    forall ts', pending st' ts' ->
      (potential st' (pending_call <$> ts') + length (take 1 ts) <= potential st (pending_call <$> ts))%nat.
Proof.
  revert st ts. induction fuel as [|fuel IH]; intros st ts P Hlt; [lia|]. simpl.
  pose proof (shift_pending st ts P) as Hs. destruct ts as [|t ts]; destruct Hs as (q' & -> & P').
  - eexists _, _. split; [done|]. intros ts' P''. simpl.
    rewrite (pending_new _ _ _ _ [] P' P''); [|done|simpl; by rewrite app_nil_r].
    unfold potential. simpl. lia.
  - set (st0 := log_called _ _ _) in P'. unfold call_tock. fold st0.
    destruct (exec_pending (body (callback t) (call_args (args t))) _ _ P') as (ts' & P1 & S1).
    destruct (Hcalls (callback t) (call_args (args t)) st0) as (new & En & Hpot).
    pose proof (pending_new _ _ _ _ _ P' P1 (sc_called _ _ S1) En) as Ep.
    destruct (exec _ st0) as [st1 r]. cbn [fst] in *.
    assert (Hd : (potential st1 (pending_call <$> ts ++ ts') < potential st (pending_call <$> t :: ts))%nat).
    { rewrite Ep, fmap_cons. unfold potential in *. rewrite sum_list_with_app.
      change (callback t, call_args (args t)) with (pending_call t) in Hpot.
      cbn [sum_list_with] in *. change (world st0) with (world st) in Hpot. lia. }
    destruct r as [[]|e].
    + destruct (IH st1 (ts ++ ts') P1 ltac:(lia)) as (st' & r & E & Hle).
      exists st', r. split; [done|]. intros ts2 P2. specialize (Hle ts2 P2). change (length (take 1 (t :: ts))) with 1%nat. lia.
    + eexists _, _. split; [done|]. intros ts2 P2. change (length (take 1 (t :: ts))) with 1%nat.
      rewrite (pending_new _ _ _ _ [] P1 P2), app_nil_r by (try rewrite app_nil_r; done). lia.
Qed.

Lemma process_terminates fuel st ts :
  pending st ts -> (potential st (pending_call <$> ts) + 1 < fuel + length (take 1 ts))%nat ->
  exists res, processTicksAndRejections body microtasks fuel st = Some res.
Proof.
  revert st ts. induction fuel as [|fuel IH]; intros st ts P Hlt; cbn [processTicksAndRejections].
  { rewrite length_take in Hlt. lia. }
  destruct (drain_terminates (S fuel) st ts P) as (st1 & r1 & D & Hle).
  { rewrite length_take in Hlt. lia. }
  rewrite D. destruct r1 as [[]|e]; [|by eauto].
  destruct (drain_pending _ _ _ _ _ _ P D) as (ts1 & P1 & E1). specialize (Hle ts1 P1).
  destruct (exec_pending microtasks st1 ts1 P1) as (ts2 & P2 & S2).
  destruct (Hjobs st1) as (new & En & Hpot).
  pose proof (pending_new _ _ _ _ _ P1 P2 (sc_called _ _ S2) En) as Ep.
  fold (runMicrotasks microtasks st1) in P2, Hpot.
  rewrite (pending_isEmpty _ _ P2). case_bool_decide as Em; [by eauto|].
  apply (IH _ _ P2). rewrite Ep. unfold potential in *. rewrite sum_list_with_app.
  destruct (ts1 ++ ts2); [done|]. simpl in *. lia.
Qed.

End Progress.

(** ** Claims *)

(** C37. In every reachable state, whatever the callbacks do (schedule ticks,
    throw, change the program's state), the calls of [nextTick] that were
    accepted are exactly the callback calls already made followed by the ticks
    still queued: each tick runs at most once, in the order it was scheduled and
    with the arguments it was given, none is lost when a callback throws; and
    whenever a tick is queued the event loop's flag is set. *)
Theorem ticks_fifo {Q W F} `{QueueLaws Q (Tock F)} body microtasks (st : tick_state Q W F) :
  reachable body microtasks st ->
  exists ts, q_holds (queue st) (Some <$> ts) /\
    enqueued st = called st ++ (pending_call <$> ts) /\
    (ts <> [] -> tickScheduled st = true).
Proof. intros [ts [? ? ?]]%reachable_pending. by exists ts. Qed.

(** C40. [processTicksAndRejections] returns as soon as every callback uses up
    more than it schedules (the fuel bound is what is left to do, plus two for
    the last rounds of its loops), and if it does not throw, every accepted tick
    has been called, the queue is empty and the event loop's flag is cleared. *)
Theorem process_drains {Q W F} `{QueueLaws Q (Tock F)} body microtasks cost energy
    (st : tick_state Q W F) ts fuel :
  frugal_calls (Q := Q) body cost energy -> frugal_jobs (Q := Q) microtasks cost energy ->
  pending st ts ->
  (potential cost energy st (pending_call <$> ts) + 2 <= fuel)%nat ->
  exists st' r, processTicksAndRejections body microtasks fuel st = Some (st', r) /\
    (r = Ok tt -> called st' = enqueued st' /\ q_isEmpty (queue st') = true /\ tickScheduled st' = false).
Proof.
  intros Hc Hj P Hfuel.
  destruct (process_terminates body microtasks cost energy Hc Hj fuel st ts P) as [[st' r] E]; [lia|].
  exists st', r. split; [done|]. intros ->.
  destruct (process_pending _ _ _ _ _ _ _ P E) as (ts' & P' & D). destruct D as [-> Hf]; [done|].
  rewrite (p_history _ _ P'), (pending_isEmpty _ _ P'). simpl. by rewrite app_nil_r.
Qed.

(** A program to run: tick [n + 1] schedules tick [n] with its own arguments. *)
Module Countdown.

Definition code (n : nat) (ar : list jsval) : prog unit nat :=
  match n with
  | O => PRet
  | S m => PNextTick (Fn m) ar (fun _ => PRet)
  end.

Definition start : tick_state (FixedQueue (Tock nat)) unit nat :=
  (exec (PNextTick (Fn 2%nat) (VNumber <$> [1; 2; 3; 4; 5]) (fun _ => PRet))
    (enableNextTick (mkTicks false q_new false false tt [] []))).1.

Lemma start_reachable : reachable code PRet start.
Proof. apply reach_code, reach_enable, reach_init. Qed.

Lemma start_pending : pending start [mkTock 2%nat (Some (VNumber <$> [1; 2; 3; 4; 5]))].
Proof.
  constructor; [|reflexivity|reflexivity].
  apply (q_push_holds _ []), q_new_holds.
Qed.

Lemma code_frugal :
  frugal_calls (Q := FixedQueue (Tock nat)) code (fun c => S c.1) (fun _ => O).
Proof.
  intros [|m] ar st; simpl; [exists []; rewrite app_nil_r; split; [done|]; cbv; lia|].
  unfold nextTick. destruct (nextTickEnabled st); simpl.
  - destruct (_exiting st); simpl.
    + exists []. rewrite app_nil_r. split; [done|]. unfold potential. simpl. lia.
    + exists [(m, ar)]. split; [by destruct (Queue.isEmpty _)|]. unfold potential. simpl. lia.
  - exists []. rewrite app_nil_r. split; [done|]. unfold potential. simpl. lia.
Qed.

Lemma jobs_frugal :
  frugal_jobs (Q := FixedQueue (Tock nat)) (@PRet unit nat) (fun c => S c.1) (fun _ => O).
Proof. intros st. exists []. by rewrite app_nil_r. Qed.

End Countdown.

Lemma ticks_fifo_witness :
  enqueued Countdown.start = [(2%nat, VNumber <$> [1; 2; 3; 4; 5])] /\
  exists ts, q_holds (queue Countdown.start) (Some <$> ts) /\
    enqueued Countdown.start = called Countdown.start ++ (pending_call <$> ts) /\
    (ts <> [] -> tickScheduled Countdown.start = true).
Proof. split; [reflexivity|]. apply (ticks_fifo Countdown.code PRet), Countdown.start_reachable. Defined.

Lemma process_drains_witness :
  exists st' r, processTicksAndRejections Countdown.code PRet 5 Countdown.start = Some (st', r) /\
    (r = Ok tt -> called st' = enqueued st' /\ q_isEmpty (queue st') = true /\ tickScheduled st' = false).
Proof.
  apply (process_drains Countdown.code PRet (fun c => S c.1) (fun _ => O) Countdown.start
    [mkTock 2%nat (Some (VNumber <$> [1; 2; 3; 4; 5]))]).
  - exact Countdown.code_frugal.
  - exact Countdown.jobs_frugal.
  - exact Countdown.start_pending.
  - cbv. lia.
Defined.
