(* ===== verification/StringDecoder.v ===== *)
(** * StringDecoder

    Models [src/ext/node/polyfills/string_decoder.ts]: the incremental decoder
    that turns a sequence of byte buffers into strings without cutting
    characters, and [normalizeEncoding] of [src/ext/node/polyfills/_utils.ts].

    A [Buffer] is the list of its bytes.  The decoder object is mutated by its
    methods: each takes the object and returns it with the outcome of the call,
    so the state after an exception is there too.  Decoding a run of bytes in
    one go is [Buffer.prototype.toString], here the argument [slice_bytes]; it is
    [node_slice] of [BufferStrings] in the theorems on whole streams, see
    [BufferStringsTheorems.toString_ranges].  [String.prototype.toLowerCase] is a
    parameter. *)

From Stdlib Require Import ZArith Lia.
From stdpp Require Import base list strings numbers option sets.
From S2P Require Import Prelude.

#[local] Open Scope Z_scope.

(** ** Encodings *)

Section Encodings.
Context (toLowerCase : str -> str).

(** [enc === s] for a literal of the source. *)
Abbreviation eqs enc s := (str_eqb enc (lit s)).

Definition slowCases (enc : str) : option str :=
  match slen enc with
  | 4 =>
      if eqs enc "UTF8" then Some (lit "utf8") else
      if eqs enc "ucs2" || eqs enc "UCS2" then Some (lit "utf16le") else
      let enc := toLowerCase enc in
      if eqs enc "utf8" then Some (lit "utf8") else
      if eqs enc "ucs2" then Some (lit "utf16le") else None
  | 3 =>
      if eqs enc "hex" || eqs enc "HEX" || eqs (toLowerCase enc) "hex" then Some (lit "hex") else None
  | 5 =>
      if eqs enc "ascii" then Some (lit "ascii") else
      if eqs enc "ucs-2" then Some (lit "utf16le") else
      if eqs enc "UTF-8" then Some (lit "utf8") else
      if eqs enc "ASCII" then Some (lit "ascii") else
      if eqs enc "UCS-2" then Some (lit "utf16le") else
      let enc := toLowerCase enc in
      if eqs enc "utf-8" then Some (lit "utf8") else
      if eqs enc "ascii" then Some (lit "ascii") else
      if eqs enc "ucs-2" then Some (lit "utf16le") else None
  | 6 =>
      if eqs enc "base64" then Some (lit "base64") else
      if eqs enc "latin1" || eqs enc "binary" then Some (lit "latin1") else
      if eqs enc "BASE64" then Some (lit "base64") else
      if eqs enc "LATIN1" || eqs enc "BINARY" then Some (lit "latin1") else
      let enc := toLowerCase enc in
      if eqs enc "base64" then Some (lit "base64") else
      if eqs enc "latin1" || eqs enc "binary" then Some (lit "latin1") else None
  | 7 =>
      if eqs enc "utf16le" || eqs enc "UTF16LE" || eqs (toLowerCase enc) "utf16le"
      then Some (lit "utf16le") else None
  | 8 =>
      if eqs enc "utf-16le" || eqs enc "UTF-16LE" || eqs (toLowerCase enc) "utf-16le"
      then Some (lit "utf16le") else None
  | _ => if eqs enc "" then Some (lit "utf8") else None
  end.

(** [normalizeEncoding] of [_utils.ts]; [None] as an argument is [null]. *)
Definition castEncoding (enc : option str) : option str :=
  match enc with
  | None => Some (lit "utf8")
  | Some e =>
      if eqs e "utf8" || eqs e "utf-8" then Some (lit "utf8") else slowCases e
  end.

(** [normalizeEncoding] of [string_decoder.ts], on [undefined] or a string.
    [String(undefined)] is ["undefined"]. *)
Definition normalizeEncoding (enc : option str) : jsres str :=
  match castEncoding enc with
  | Some ((_ :: _) as encoding) => Ok encoding
  | encoding =>
      match enc with
      | Some e =>
          if negb (eqs (toLowerCase e) "raw") then Throw ERR_UNKNOWN_ENCODING
          else Ok (default (lit "undefined") encoding)
      | None => Throw ERR_UNKNOWN_ENCODING
      end
  end.

End Encodings.

Inductive Encoding := Utf8 | Base64 | Utf16 | Ascii | Latin1 | Hex.

#[export] Instance Encoding_eq_dec : EqDecision Encoding.
Proof. solve_decision. Defined.

(** [enc === e] *)
Definition enc_eqb (a b : Encoding) : bool := bool_decide (a = b).

Definition MAX_STRING_LENGTH : Z := 536870888.

(** ** Buffers *)

(** [buf[i]] as an operand of [&]: [undefined] counts as 0. *)
Definition byte_at (buf : list Z) (i : Z) : Z := default 0 (charCodeAt buf i).

(** [source.copy(target, targetStart, sourceStart, sourceEnd)], for a
    [sourceStart] that is not past the end of the source: as many bytes as are
    asked for, are there, and fit. *)
Definition buf_copy (source target : list Z) (targetStart sourceStart sourceEnd : Z) : list Z :=
  let nb := Z.max 0 (Z.min (Z.min sourceEnd (slen source) - sourceStart) (slen target - targetStart)) in
  take (Z.to_nat targetStart) target ++
  slice source sourceStart (sourceStart + nb) ++
  drop (Z.to_nat (targetStart + nb)) target.

(** What can be passed as a buffer: a string, a [Buffer], another view (the
    underlying buffer, the offset and the length), or anything else. *)
Inductive buf_arg :=
  | BString (s : str)
  | BBuffer (bytes : list Z)
  | BView (buffer : list Z) (byteOffset byteLength : Z)
  | BOther (v : jsval).

Definition normalizeBuffer (buf : buf_arg) : jsres (list Z) :=
  match buf with
  | BBuffer bytes => Ok bytes
  | BView buffer _ _ => Ok buffer
  | BString s =>
      Throw (ERR_INVALID_ARG_TYPE "buf" ["Buffer"; "TypedArray"; "DataView"]%string (VString s))
  | BOther v =>
      Throw (ERR_INVALID_ARG_TYPE "buf" ["Buffer"; "TypedArray"; "DataView"]%string v)
  end.

(** ** The decoder object *)

Record StringDecoder := mkDecoder {
  encoding : str;
  enc : Encoding;
  lastChar : list Z;
  bufferedBytes : Z;
  missingBytes : Z;
}.

Definition set_counts (b m : Z) (sd : StringDecoder) : StringDecoder :=
  mkDecoder (encoding sd) (enc sd) (lastChar sd) b m.

Definition set_lastChar (l : list Z) (sd : StringDecoder) : StringDecoder :=
  mkDecoder (encoding sd) (enc sd) l (bufferedBytes sd) (missingBytes sd).

(** The encoding and the size of [lastChar] a normalized name stands for. *)
Definition encoding_of (normalizedEncoding : str) : Encoding * Z :=
  if str_eqb normalizedEncoding (lit "utf8") then (Utf8, 4) else
  if str_eqb normalizedEncoding (lit "base64") then (Base64, 3) else
  if str_eqb normalizedEncoding (lit "utf16le") then (Utf16, 4) else
  if str_eqb normalizedEncoding (lit "hex") then (Hex, 0) else
  if str_eqb normalizedEncoding (lit "latin1") then (Latin1, 0) else
  if str_eqb normalizedEncoding (lit "ascii") then (Ascii, 0) else
  (Utf8, 0).

(** The constructor; [junk] is what [Buffer.allocUnsafe] finds in memory. *)
Definition new_StringDecoder (toLowerCase : str -> str) (junk : Z -> list Z)
    (e : option str) : jsres StringDecoder :=
  let? normalizedEncoding := normalizeEncoding toLowerCase e in
  let '(en, bufLen) := encoding_of normalizedEncoding in
  Ok (mkDecoder normalizedEncoding en (take (Z.to_nat bufLen) (junk bufLen)) 0 0).

Section Decoder.
(** [toString] of a buffer with these bytes in an encoding. *)
Context (slice_bytes : str -> list Z -> jsres str).

(** [buf.toString(encoding, start, end)] *)
Definition buf_toString (encoding : str) (buf : list Z) (start end_ : Z) : jsres str :=
  let len := slen buf in
  if negb (start <=? 0) && (start >=? len) then Ok [] else
  let start := if start <=? 0 then 0 else start in
  let end_ := if end_ >? len then len else end_ in
  if end_ <=? start then Ok [] else slice_bytes encoding (slice buf start end_).

Definition bufferToString (buf : list Z) (encoding : str) (start end_ : Z) : jsres str :=
  let len := end_ - start in
  if len >? MAX_STRING_LENGTH then Throw ERR_STRING_TOO_LONG
  else buf_toString encoding buf start end_.

(** The search for a byte that does not continue the pending UTF-8 character
    (lines 110 to 127): the object and [bufIdx] after it. *)
Definition stop_char (buf : list Z) (sd : StringDecoder) : StringDecoder * Z :=
  for_up 0 (Z.min (slen buf) (missingBytes sd))
    (fun i '(sd, bufIdx) =>
       if negb (Z.land (byte_at buf i) 0xC0 =? 0x80) then
         let l := buf_copy buf (lastChar sd) (bufferedBytes sd) bufIdx (bufIdx + i) in
         Break (set_counts (bufferedBytes sd + i) 0 (set_lastChar l sd), bufIdx + i)
       else Continue (sd, bufIdx))
    (sd, 0).

(** Completing the pending character (lines 105 to 156): the object, [bufIdx]
    and [prepend]. *)
Definition finish_char (buf : list Z) (sd : StringDecoder) : StringDecoder * Z * jsres str :=
  if missingBytes sd >? 0 then
    let '(sd, bufIdx) := if enc_eqb (enc sd) Utf8 then stop_char buf sd else (sd, 0) in
    let bytesToCopy := Z.min (slen buf - bufIdx) (missingBytes sd) in
    let l := buf_copy buf (lastChar sd) (bufferedBytes sd) bufIdx (bufIdx + bytesToCopy) in
    let bufIdx := bufIdx + bytesToCopy in
    let sd := set_counts (bufferedBytes sd + bytesToCopy) (missingBytes sd - bytesToCopy)
                (set_lastChar l sd) in
    if missingBytes sd =? 0 then
      match bufferToString (lastChar sd) (encoding sd) 0 (bufferedBytes sd) with
      | Throw e => (sd, bufIdx, Throw e)
      | Ok prepend => (set_counts 0 (missingBytes sd) sd, bufIdx, Ok prepend)
      end
    else (sd, bufIdx, Ok [])
  else (sd, 0, Ok []).

(** How many bytes the first byte of a UTF-8 character announces. *)
Definition char_need (b : Z) : option Z :=
  if Z.land b 0xE0 =? 0xC0 then Some 2 else
  if Z.land b 0xF0 =? 0xE0 then Some 3 else
  if Z.land b 0xF8 =? 0xF0 then Some 4 else None.

(** The scan back from the end of the buffer for an incomplete UTF-8 character
    (lines 173 to 212). *)
Definition scan_utf8 (buf : list Z) (sd : StringDecoder) : StringDecoder :=
  for_down (slen buf - 1) 0
    (fun i sd =>
       let sd := set_counts (bufferedBytes sd + 1) (missingBytes sd) sd in
       if Z.land (byte_at buf i) 0xC0 =? 0x80 then
         if (bufferedBytes sd >=? 4) || (i =? 0)
         then Break (set_counts 0 (missingBytes sd) sd)
         else Continue sd
       else
         match char_need (byte_at buf i) with
         | None => Break (set_counts 0 (missingBytes sd) sd)
         | Some need =>
             let sd := set_counts (bufferedBytes sd) need sd in
             let sd := if bufferedBytes sd >=? missingBytes sd then set_counts 0 0 sd else sd in
             Break (set_counts (bufferedBytes sd) (missingBytes sd - bufferedBytes sd) sd)
         end)
    sd.

(** What is held back at the end of the buffer (lines 170 to 228), by
    encoding. *)
Definition hold_back (buf : list Z) (bufIdx : Z) (sd : StringDecoder) : StringDecoder :=
  if enc_eqb (enc sd) Utf8 && negb (Z.land (byte_at buf (slen buf - 1)) 0x80 =? 0) then
    scan_utf8 buf sd
  else if enc_eqb (enc sd) Utf16 then
    if (slen buf - bufIdx) mod 2 =? 1 then set_counts 1 1 sd
    else if Z.land (byte_at buf (slen buf - 1)) 0xFC =? 0xD8 then set_counts 2 2 sd
    else sd
  else if enc_eqb (enc sd) Base64 then
    let b := (slen buf - bufIdx) mod 3 in
    if b >? 0 then set_counts b (3 - b) sd else set_counts b (missingBytes sd) sd
  else sd.

Definition decode (buf : list Z) (sd : StringDecoder) : StringDecoder * jsres str :=
  if enc_eqb (enc sd) Utf8 || enc_eqb (enc sd) Utf16 || enc_eqb (enc sd) Base64 then
    match finish_char buf sd with
    | (sd, _, Throw e) => (sd, Throw e)
    | (sd, bufIdx, Ok prepend) =>
        if slen buf - bufIdx =? 0 then (sd, Ok prepend)
        else
          let sd := hold_back buf bufIdx sd in
          let '(sd, bufEnd) :=
            if bufferedBytes sd >? 0 then
              (set_lastChar (buf_copy buf (lastChar sd) 0 (slen buf - bufferedBytes sd) (slen buf)) sd,
               slen buf - bufferedBytes sd)
            else (sd, slen buf) in
          match bufferToString buf (encoding sd) bufIdx bufEnd with
          | Throw e => (sd, Throw e)
          | Ok rest => (sd, Ok (prepend ++ rest))
          end
    end
  else (sd, bufferToString buf (encoding sd) 0 (slen buf)).

Definition flush (sd : StringDecoder) : StringDecoder * jsres str :=
  let sd := if enc_eqb (enc sd) Utf16 && (bufferedBytes sd mod 2 =? 1)
            then set_counts (bufferedBytes sd - 1) (missingBytes sd - 1) sd else sd in
  if bufferedBytes sd =? 0 then (sd, Ok []) else
  match bufferToString (lastChar sd) (encoding sd) 0 (bufferedBytes sd) with
  | Throw e => (sd, Throw e)
  | Ok ret => (set_counts 0 0 sd, Ok ret)
  end.

(** [write]; an object that the constructor did not initialise has no buffered
    bytes ([None]). *)
Definition write_this (buf : buf_arg) (this : option StringDecoder) : option StringDecoder * jsres str :=
  match buf with
  | BString s => (this, Ok s)
  | _ =>
      match normalizeBuffer buf with
      | Throw e => (this, Throw e)
      | Ok normalizedBuf =>
          match this with
          | None => (None, Throw (ERR_INVALID_THIS "StringDecoder"))
          | Some sd => let '(sd', r) := decode normalizedBuf sd in (Some sd', r)
          end
      end
  end.

Definition write (buf : buf_arg) (sd : StringDecoder) : StringDecoder * jsres str :=
  match write_this buf (Some sd) with
  | (Some sd', r) => (sd', r)
  | (None, r) => (sd, r)
  end.

(** [end(buf)], [None] for [undefined]. *)
Definition end_ (buf : option buf_arg) (sd : StringDecoder) : StringDecoder * jsres str :=
  let '(sd, r) := match buf with
                  | None => (sd, Ok [])
                  | Some b => write b sd
                  end in
  match r with
  | Throw e => (sd, Throw e)
  | Ok ret =>
      if bufferedBytes sd >? 0 then
        match flush sd with
        | (sd, Throw e) => (sd, Throw e)
        | (sd, Ok s) => (sd, Ok (ret ++ s))
        end
      else (sd, Ok ret)
  end.

Definition text (buf : list Z) (offset : Z) (sd : StringDecoder) : StringDecoder * jsres str :=
  write (BBuffer (sliceFrom buf offset)) (set_counts 0 0 sd).

Definition lastNeed (sd : StringDecoder) : Z := missingBytes sd.
Definition lastTotal (sd : StringDecoder) : Z := bufferedBytes sd + missingBytes sd.

End Decoder.
