(* ===== verification/StringDecoderProps.v ===== *)
(** * Lemmas on the string decoder

    What a decoder may hold back ([held_ok]), where a byte stream may be cut
    without changing what it decodes to ([cut]), and the specifications of the
    parts of [decode] that the theorems of [StringDecoderTheorems] compose. *)

From Stdlib Require Import ZArith Lia Zdiv Znumtheory.
From stdpp Require Import base list strings numbers option sets.
From S2P Require Import Prelude StringDecoder.

#[local] Open Scope Z_scope.

(** A byte that continues a UTF-8 character. *)
Definition is_cont (b : Z) : bool := Z.land b 0xC0 =? 0x80.
Abbreviation conts := (Forall (fun b => is_cont b = true)).

(** [reset a]: after the bytes [a] a UTF-8 decoder is between characters: the
    last of them is an ASCII byte, a byte that starts no character, the last of
    as many bytes as a first byte announced, or a continuation byte that
    continues nothing. *)
Inductive reset : list Z -> Prop :=
  | reset_nil : reset []
  | reset_ascii a b : Z.land b 0x80 = 0 -> reset (a ++ [b])
  | reset_invalid a b : is_cont b = false -> char_need b = None -> reset (a ++ [b])
  | reset_full a b cs : is_cont b = false -> conts cs -> char_need b = Some (slen (b :: cs)) ->
      reset (a ++ b :: cs)
  | reset_stray a b : reset a -> is_cont b = true -> reset (a ++ [b]).

(** The first byte, if any, does not continue a character. *)
Definition fresh_start (b : list Z) : Prop :=
  match b with [] => True | x :: _ => is_cont x = false end.

(** Where the encodings let a byte stream be cut in [a] and [b]. *)
Definition cut (e : Encoding) (a b : list Z) : Prop :=
  match e with
  | Utf8 => reset a \/ fresh_start b
  | Utf16 => (2 | slen a)
  | Base64 => (3 | slen a)
  | _ => True
  end.

(** What may be held back after the bytes [hist], with [m] bytes missing. *)
Definition held_ok (e : Encoding) (hist h : list Z) (m : Z) : Prop :=
  match e with
  | Utf8 =>
      (h = [] /\ m = 0 /\ reset hist) \/
      (0 < m /\ exists b cs, h = b :: cs /\ is_cont b = false /\ conts cs /\
                 char_need b = Some (slen h + m))
  | Utf16 =>
      (2 | slen hist) /\
      ((slen h = 0 /\ m = 0) \/ (slen h = 1 /\ m = 1) \/ (slen h = 2 /\ m = 2) \/ (slen h = 3 /\ m = 1))
  | Base64 => (3 | slen hist) /\ ((slen h = 0 /\ m = 0) \/ (0 < slen h /\ 0 < m /\ slen h + m = 3))
  | _ => h = [] /\ m = 0
  end.

(** The bytes a decoder holds back. *)
Definition held (sd : StringDecoder) : list Z := take (Z.to_nat (bufferedBytes sd)) (lastChar sd).

(** The size of [lastChar]. *)
Definition bufLen (e : Encoding) : Z :=
  match e with Utf8 => 4 | Base64 => 3 | Utf16 => 4 | _ => 0 end.

(** The representation invariant, after the bytes [hist] were decoded. *)
Record sd_inv (en : str) (e : Encoding) (hist : list Z) (sd : StringDecoder) : Prop := {
  i_encoding : encoding sd = en;
  i_enc : enc sd = e;
  i_last : slen (lastChar sd) = bufLen e;
  i_buffered : 0 <= bufferedBytes sd <= bufLen e;
  i_held : held_ok e hist (held sd) (missingBytes sd);
}.

Lemma char_need_range b n : char_need b = Some n -> 2 <= n <= 4.
Proof. unfold char_need. repeat case_bool; intros [= <-]; lia. Qed.

Lemma reset_conts a cs : reset a -> conts cs -> reset (a ++ cs).
Proof.
  intros Ha. induction cs as [|c cs IH] using rev_ind; [by rewrite app_nil_r|].
  intros [Hcs Hc]%Forall_app. rewrite Forall_singleton in Hc.
  rewrite app_assoc. apply reset_stray; [by apply IH|done].
Qed.

(** A first byte with at least the continuation bytes it announces. *)
Lemma reset_enough a b cs n :
  is_cont b = false -> conts cs -> char_need b = Some n -> n <= slen (b :: cs) ->
  reset (a ++ b :: cs).
Proof.
  intros Hb Hcs Hn Hle. pose proof (char_need_range _ _ Hn). rewrite slen_cons in Hle.
  destruct (split_at cs (n - 1)) as (c1 & c2 & -> & Hc1); [lia|].
  apply Forall_app in Hcs as [? ?].
  replace (a ++ b :: c1 ++ c2) with ((a ++ b :: c1) ++ c2) by by rewrite <-app_assoc.
  apply reset_conts; [|done]. apply reset_full; [done|done|]. rewrite Hn, slen_cons. f_equal. lia.
Qed.

(** The last byte of a list that starts a character, with what follows it. *)
Lemma last_start a : conts a \/ exists a0 b cs, a = a0 ++ b :: cs /\ is_cont b = false /\ conts cs.
Proof.
  induction a as [|x a [IH|(a0 & b & cs & -> & Hb & Hcs)]]; [by left| |].
  - destruct (is_cont x) eqn:E; [left; by constructor|]. right. by exists [], x, a.
  - right. by exists (x :: a0), b, cs.
Qed.

(** After three continuation bytes a decoder is between characters. *)
Lemma reset_many a cs : conts cs -> 3 <= slen cs -> reset (a ++ cs).
Proof.
  intros Hcs Hlen. destruct (last_start a) as [Ha|(a0 & b & c0 & -> & Hb & Hc0)].
  - apply (reset_conts []); [constructor|]. by apply Forall_app.
  - rewrite <-app_assoc. change ((b :: c0) ++ cs) with (b :: (c0 ++ cs)).
    assert (conts (c0 ++ cs)) by by apply Forall_app.
    destruct (char_need b) as [n|] eqn:En.
    + apply (reset_enough _ _ _ n); [done|done|done|].
      apply char_need_range in En. rewrite slen_cons, slen_app. slen_pos. lia.
    + replace (a0 ++ b :: c0 ++ cs) with ((a0 ++ [b]) ++ (c0 ++ cs)) by by rewrite <-app_assoc.
      apply reset_conts; [by apply reset_invalid|done].
Qed.

(** ** Buffers *)

Lemma byte_at_middle a x b i : i = slen a -> byte_at (a ++ x :: b) i = x.
Proof. intros ->. unfold byte_at. by rewrite charCodeAt_middle. Qed.

Lemma slen_take {A} (l : list A) n : 0 <= n <= slen l -> slen (take (Z.to_nat n) l) = n.
Proof. unfold slen. rewrite length_take. lia. Qed.

(** Appending to the bytes held back. *)
Lemma copy_append pre src post last k s e :
  s = slen pre -> e = slen pre + slen src -> 0 <= k -> k + slen src <= slen last ->
  take (Z.to_nat (k + slen src)) (buf_copy (pre ++ src ++ post) last k s e) =
    take (Z.to_nat k) last ++ src /\
  slen (buf_copy (pre ++ src ++ post) last k s e) = slen last.
Proof.
  intros -> -> Hk Hfit. unfold buf_copy. autorewrite with js. slen_pos.
  rewrite Z.max_r by lia.
  replace (Z.min _ _) with (slen src) by lia.
  rewrite slice_middle by done. split.
  - replace (Z.to_nat (k + slen src)) with (length (take (Z.to_nat k) last ++ src)).
    2:{ rewrite length_app, length_take. unfold slen in *. lia. }
    by rewrite app_assoc, take_app_length.
  - rewrite slen_take by lia. unfold slen. rewrite length_drop. unfold slen in *. lia.
Qed.

(** ** The scan for an incomplete UTF-8 character *)

(** Why nothing is held back: too many continuation bytes, nothing else, or a
    byte that starts no character or a complete one. *)
Definition nothing_held (buf : list Z) : Prop :=
  (exists p cs, buf = p ++ cs /\ conts cs /\ 4 <= slen cs) \/ conts buf \/
  (exists p b cs, buf = p ++ b :: cs /\ is_cont b = false /\ conts cs /\
     match char_need b with None => True | Some n => n <= slen (b :: cs) end).

Definition scan_result (buf : list Z) (sd sd' : StringDecoder) : Prop :=
  (exists p b cs m, buf = p ++ b :: cs /\ is_cont b = false /\ conts cs /\ 0 < m /\
     char_need b = Some (slen (b :: cs) + m) /\ sd' = set_counts (slen (b :: cs)) m sd) \/
  (nothing_held buf /\ sd' = set_counts 0 0 sd).

Lemma scan_utf8_spec buf sd :
  buf <> [] -> bufferedBytes sd = 0 -> missingBytes sd = 0 -> scan_result buf sd (scan_utf8 buf sd).
Proof.
  intros Hne Hb0 Hm0. unfold scan_utf8, for_down.
  apply (for_n_rule (fun j sd' => exists p cs x, buf = (p ++ [x]) ++ cs /\ slen p = j /\ conts cs /\
                       sd' = set_counts (slen cs) 0 sd)).
  - destruct buf as [|x p _] using rev_ind; [done|]. exists p, [], x. rewrite app_nil_r.
    split_and!; [done| |constructor|by destruct sd; simpl in *; subst].
    rewrite slen_app, slen_cons. change (slen (@nil Z)) with 0. lia.
  - intros j sd' (p & cs & x & E & Hj & Hcs & ->).
    cbn [set_counts bufferedBytes missingBytes].
    assert (E' : buf = p ++ x :: cs) by by rewrite E, <-app_assoc.
    rewrite E', byte_at_middle by done. fold (is_cont x). rewrite <-E'.
    destruct (is_cont x) eqn:Ex.
    + destruct (Z.geb_spec (slen cs + 1) 4); simpl.
      { right. split; [|done]. left. exists p, (x :: cs). rewrite slen_cons.
        split_and!; [done|by constructor|lia]. }
      destruct (Z.eqb_spec j 0) as [->|Hj0].
      { right. split; [|done]. right. left. rewrite E', (slen_0 p) by done. by constructor. }
      destruct p as [|y p _] using rev_ind; [done|].
      exists p, (x :: cs), y. split_and!; [done| |by constructor|].
      * rewrite <-Hj, slen_app, slen_cons. change (slen (@nil Z)) with 0. lia.
      * rewrite slen_cons, Z.add_comm. done.
    + destruct (char_need x) as [n|] eqn:En; simpl.
      2:{ right. split; [|done]. right. right. exists p, x, cs. by rewrite En. }
      destruct (Z.geb_spec (slen cs + 1) n); simpl.
      * right. split; [|done]. right. right. exists p, x, cs. rewrite En, slen_cons.
        split_and!; try done. lia.
      * left. exists p, x, cs, (n - (slen cs + 1)). rewrite slen_cons, En.
        split_and!; [done|done|done|lia|f_equal; lia|].
        unfold set_counts. cbn. f_equal; lia.
  - intros sd' (p & cs & x & E & Hj & _). exfalso. slen_pos.
    pose proof (slen_nonneg p). lia.
Qed.

(** ** The parts of [decode] *)

Section Spec.
Context (slice_bytes : str -> list Z -> jsres str) (en : str) (e : Encoding) (D : list Z -> str).
(** Decoding a run of bytes succeeds and gives [D]. *)
Context (Hdec : forall bytes, bytes <> [] -> slice_bytes en bytes = Ok (D bytes)).
(** A stream that is cut where the encoding allows it decodes piecewise. *)
Context (Hcut : forall a b, cut e a b -> D (a ++ b) = D a ++ D b).
Context (Hstate : e = Utf8 \/ e = Utf16 \/ e = Base64).

Lemma cut_nil : cut e [] [].
Proof. clear. destruct e; simpl; try done; [left; constructor| |]; apply Z.divide_0_r. Qed.

Lemma D_nil : D [] = [].
Proof.
  pose proof (Hcut [] [] cut_nil) as E. simpl in E.
  apply (f_equal length) in E. rewrite length_app in E. apply nil_length_inv. lia.
Qed.

Lemma toString_spec buf a m h :
  buf = a ++ m ++ h -> slen m <= MAX_STRING_LENGTH ->
  bufferToString slice_bytes buf en (slen a) (slen a + slen m) = Ok (D m).
Proof.
  intros -> Hmax. unfold bufferToString. replace (slen a + slen m - slen a) with (slen m) by lia.
  destruct (Z.gtb_spec (slen m) MAX_STRING_LENGTH); [lia|].
  unfold buf_toString. autorewrite with js. slen_pos.
  destruct m as [|x m].
  { rewrite D_nil. change (slen (@nil Z)) with 0. destruct (negb _ && _); [done|].
    replace (if slen a + 0 >? slen a + (0 + slen h) then slen a + (0 + slen h) else slen a + 0) with (slen a)
      by (destruct (Z.gtb_spec (slen a + 0) (slen a + (0 + slen h))); lia).
    destruct (Z.leb_spec (slen a) 0); zbool; [|done].
    replace (slen a) with 0 by lia. done. }
  rewrite slen_cons in *. slen_pos.
  destruct (Z.geb_spec (slen a) (slen a + (1 + slen m + slen h))); [lia|].
  rewrite andb_false_r.
  destruct (Z.gtb_spec (slen a + (1 + slen m)) (slen a + (1 + slen m + slen h))); [lia|].
  replace (if slen a <=? 0 then 0 else slen a) with (slen a) by (destruct (Z.leb_spec (slen a) 0); lia).
  zbool. rewrite slice_middle; [by apply Hdec|done|]. by rewrite slen_cons.
Qed.

(** [ready hist a r]: nothing is held back, the bytes [hist] are decoded, and
    the buffer is [a], which they include, followed by [r]. *)
Definition ready (hist a r : list Z) : Prop :=
  match e with
  | Utf8 => (reset hist /\ conts a) \/ exists x r', r = x :: r' /\ is_cont x = false
  | Utf16 => (2 | slen hist)
  | Base64 => (3 | slen hist)
  | _ => True
  end.

(** A piece of what comes next can be decoded on its own. *)
Lemma ready_cut hist a m h : ready hist a (m ++ h) -> D (hist ++ m) = D hist ++ D m.
Proof.
  intros R. apply Hcut. unfold ready, cut in *.
  destruct e; try done. destruct R as [[? _]|(x & r' & E & Hx)]; [by left|].
  right. destruct m; [done|]. by simplify_eq/=.
Qed.

(** [stop_char] finds the first byte that does not continue the character, if
    there is one before the missing bytes run out. *)
Lemma stop_char_spec buf sd :
  0 <= missingBytes sd ->
  (conts (take (Z.to_nat (Z.min (slen buf) (missingBytes sd))) buf) /\ stop_char buf sd = (sd, 0)) \/
  (exists a x r, buf = a ++ x :: r /\ conts a /\ is_cont x = false /\ slen a < missingBytes sd /\
     stop_char buf sd =
       (set_counts (bufferedBytes sd + slen a) 0
          (set_lastChar (buf_copy buf (lastChar sd) (bufferedBytes sd) 0 (slen a)) sd), slen a)).
Proof.
  intros Hm. unfold stop_char.
  pose proof (slen_nonneg buf). set (n := Z.min (slen buf) (missingBytes sd)).
  apply (for_up_rule (fun i st => st = (sd, 0) /\ conts (take (Z.to_nat i) buf))); [lia| | |].
  - split; [done|]. constructor.
  - intros i st Hi [-> Hc]. destruct (split_at buf i) as (a & r & E & Ha); [lia|].
    assert (Hta : take (Z.to_nat i) buf = a).
    { rewrite E, <-Ha. unfold slen. rewrite Nat2Z.id. apply take_app_length. }
    destruct r as [|x r].
    { rewrite app_nil_r in E. subst buf n. lia. }
    rewrite E, byte_at_middle by done. fold (is_cont x). destruct (is_cont x) eqn:Ex; simpl.
    + split; [done|]. replace (Z.to_nat (i + 1)) with (length (a ++ [x])).
      2:{ rewrite length_app. unfold slen in Ha. simpl. lia. }
      replace (a ++ x :: r) with ((a ++ [x]) ++ r) by by rewrite <-app_assoc.
      rewrite take_app_length. rewrite Hta in Hc. apply Forall_app. split; [done|]. by constructor.
    + right. exists a, x, r. rewrite Hta in Hc. rewrite <-E, Ha. repeat split; try done. lia.
  - intros st [-> Hc]. by left.
Qed.

(** Only a UTF-8 decoder looks at the bytes it is waiting for. *)
Definition continues (a : list Z) : Prop := e = Utf8 -> conts a.

Lemma held_ok_bounds hist h m :
  held_ok e hist h m -> 0 <= m /\ slen h + m <= bufLen e /\ (m = 0 -> h = []).
Proof.
  clear Hdec Hcut. destruct Hstate as [->|[->| ->]]; simpl.
  - intros [(-> & -> & _)|(Hm & b & cs & -> & _ & _ & Hn)].
    + change (slen (@nil Z)) with 0. split_and!; [lia|lia|done].
    + apply char_need_range in Hn. split_and!; [lia|lia|lia].
  - intros [_ ?]. slen_pos. split_and!; [lia|lia|]. intros. apply slen_0. lia.
  - intros [_ ?]. slen_pos. split_and!; [lia|lia|]. intros. apply slen_0. lia.
Qed.

Lemma held_ok_cut hist h m b : held_ok e hist h m -> 0 < m -> cut e hist (h ++ b).
Proof.
  clear Hdec Hcut. destruct Hstate as [->|[->| ->]]; simpl; [|by intros [? _]..].
  intros [(_ & -> & _)|(Hm & x & cs & -> & Hx & _)] ?; [lia|]. by right.
Qed.

(** Some of the missing bytes arrive. *)
Lemma held_ok_extend hist h m a :
  held_ok e hist h m -> slen a < m -> continues a -> held_ok e hist (h ++ a) (m - slen a).
Proof.
  clear Hdec Hcut. intros H Ha Hc. slen_pos.
  destruct Hstate as [He|[He|He]]; unfold continues in Hc; rewrite He in *; simpl in *.
  - destruct H as [(_ & -> & _)|(Hm & b & cs & -> & Hb & Hcs & Hn)]; [lia|].
    right. split; [lia|]. exists b, (cs ++ a). split_and!; [done|done| |].
    + apply Forall_app. auto.
    + rewrite Hn. f_equal. autorewrite with js. lia.
  - destruct H as [? ?]. split; [done|]. autorewrite with js. lia.
  - destruct H as [? ?]. split; [done|]. autorewrite with js. lia.
Qed.

(** All the missing bytes arrive. *)
Lemma held_ok_complete hist h m a :
  held_ok e hist h m -> 0 < m -> slen a = m -> continues a -> held_ok e (hist ++ h ++ a) [] 0.
Proof.
  clear Hdec Hcut. intros H Hm Ha Hc. slen_pos.
  destruct Hstate as [He|[He|He]]; unfold continues in Hc; rewrite He in *; simpl in *.
  - destruct H as [(_ & -> & _)|(_ & b & cs & -> & Hb & Hcs & Hn)]; [lia|].
    left. split_and!; [done|done|]. apply reset_full; [done|apply Forall_app; auto|].
    rewrite Hn. f_equal. cbn [app]. autorewrite with js. lia.
  - destruct H as [[k Hk] Hh]. split; [|by left]. autorewrite with js.
    destruct Hh as [?|[?|[?|?]]]; [lia|exists (k + 1); lia|exists (k + 2); lia|exists (k + 2); lia].
  - destruct H as [[k ?] ?]. split; [|by left]. autorewrite with js. exists (k + 1). lia.
Qed.

Lemma held_ok_ready hist a r : held_ok e hist [] 0 -> continues a -> ready hist a r.
Proof.
  clear Hdec Hcut. unfold ready, continues.
  destruct Hstate as [->|[->| ->]]; simpl; [|by intros [? _]..].
  intros [(_ & _ & ?)|(? & _)] Hc; [|lia]. left. auto.
Qed.

Lemma toString_take L n t :
  0 <= n <= slen L -> n <= MAX_STRING_LENGTH -> take (Z.to_nat n) L = t ->
  bufferToString slice_bytes L en 0 n = Ok (D t).
Proof.
  intros Hn Hmax <-.
  replace n with (slen (@nil Z) + slen (take (Z.to_nat n) L)) at 1 by (rewrite slen_take; [done|lia]).
  apply (toString_spec _ [] _ (drop (Z.to_nat n) L)); [by rewrite take_drop|]. by rewrite slen_take.
Qed.

Lemma bufLen_max n : n <= bufLen e -> n <= MAX_STRING_LENGTH.
Proof. clear. unfold MAX_STRING_LENGTH. destruct e; simpl; lia. Qed.

Lemma slen_held hist sd : sd_inv en e hist sd -> slen (held sd) = bufferedBytes sd.
Proof. clear. intros I. apply slen_take. rewrite (i_last _ _ _ _ I). apply I. Qed.

(** After [finish_char], all of the buffer was needed and it was not enough
    (left), or the held bytes were completed by a part [a] of the buffer, or
    given up at the end of it (right). *)
Definition finish_spec (hist buf : list Z) (sd : StringDecoder)
    (res : StringDecoder * Z * jsres str) : Prop :=
  (exists sd', res = (sd', slen buf, Ok []) /\ sd_inv en e hist sd' /\ held sd' = held sd ++ buf) \/
  (exists sd' a r, buf = a ++ r /\ res = (sd', slen a, Ok (D (held sd ++ a))) /\
     encoding sd' = en /\ enc sd' = e /\ slen (lastChar sd') = bufLen e /\
     bufferedBytes sd' = 0 /\ missingBytes sd' = 0 /\
     D (hist ++ held sd ++ a) = D hist ++ D (held sd ++ a) /\
     ready (hist ++ held sd ++ a) a r /\
     (r = [] -> held_ok e (hist ++ held sd ++ a) [] 0)).

(** The rest of [finish_char] once [stop_char] has left the object alone. *)
Lemma finish_char_continues hist buf sd :
  sd_inv en e hist sd -> 0 < missingBytes sd ->
  continues (take (Z.to_nat (Z.min (slen buf) (missingBytes sd))) buf) ->
  (if enc_eqb (enc sd) Utf8 then stop_char buf sd else (sd, 0)) = (sd, 0) ->
  finish_spec hist buf sd (finish_char slice_bytes buf sd).
Proof.
  intros I Hm Hc Est. destruct I as [Ien Ie Il Ib Ih].
  pose proof (slen_held hist sd ltac:(by constructor)) as Hsl.
  destruct (held_ok_bounds _ _ _ Ih) as (_ & Hb & _). rewrite Hsl in Hb.
  unfold finish_char. destruct (Z.gtb_spec (missingBytes sd) 0); [|lia]. rewrite Est.
  rewrite Z.sub_0_r, !Z.add_0_l. remember (Z.min (slen buf) (missingBytes sd)) as n eqn:En.
  pose proof (slen_nonneg buf).
  destruct (split_at buf n) as (a & r & E & Ha); [lia|].
  assert (Hta : take (Z.to_nat n) buf = a).
  { rewrite E, <-Ha. unfold slen. rewrite Nat2Z.id. apply take_app_length. }
  rewrite Hta in Hc. rewrite <-Ha.
  destruct (copy_append [] a r (lastChar sd) (bufferedBytes sd) 0 (slen a)) as [Htake Hlen];
    [done|done|lia|lia|]. simpl in Htake, Hlen. rewrite <-E in Htake, Hlen.
  cbn [missingBytes bufferedBytes set_counts lastChar set_lastChar encoding enc].
  destruct (Z.eqb_spec (missingBytes sd - slen a) 0) as [Hz|Hz].
  - right. rewrite Ien. erewrite toString_take; [|lia|apply bufLen_max; lia|exact Htake].
    fold (held sd). eexists _, a, r.
    assert (Hcomp : held_ok e (hist ++ held sd ++ a) [] 0) by (eapply held_ok_complete; eauto; lia).
    split_and!; [done|reflexivity|..]; cbn; try done; try lia.
    + by apply Hcut, (held_ok_cut _ _ (missingBytes sd)).
    + by apply held_ok_ready.
  - assert (n = slen buf) by lia.
    assert (a = buf) as ->.
    { rewrite <-Hta. replace (Z.to_nat n) with (length buf) by (unfold slen in *; lia). apply firstn_all. }
    left. eexists. split; [done|].
    assert (Hheld : take (Z.to_nat (bufferedBytes sd + slen buf)) (buf_copy buf (lastChar sd) (bufferedBytes sd) 0 (slen buf)) = held sd ++ buf)
      by exact Htake.
    split; [|exact Hheld]. constructor; cbn; [done|done|lia|lia|].
    unfold held. cbn. rewrite Hheld. apply held_ok_extend; [done|lia|done].
Qed.

Lemma finish_char_spec hist buf sd :
  sd_inv en e hist sd -> finish_spec hist buf sd (finish_char slice_bytes buf sd).
Proof.
  intros I. destruct (held_ok_bounds _ _ _ (i_held _ _ _ _ I)) as (Hm0 & Hb & Hz).
  rewrite (slen_held _ _ I) in Hb.
  destruct (Z.eq_dec (missingBytes sd) 0) as [Hm|Hm].
  { right. exists sd, [], buf. unfold finish_char. destruct (Z.gtb_spec (missingBytes sd) 0); [lia|].
    pose proof (slen_held _ _ I) as Hsl. rewrite (Hz Hm) in Hsl |- *. change (slen (@nil Z)) with 0 in *.
    pose proof (i_held _ _ _ _ I) as Hh. rewrite (Hz Hm), Hm in Hh.
    split_and!; rewrite ?app_nil_r, ?D_nil, ?app_nil_r; try done; try apply I; try lia.
    apply held_ok_ready; [done|]. intros _. constructor. }
  unfold enc_eqb in *. destruct (decide (e = Utf8)) as [He|He].
  2:{ apply finish_char_continues; [done|lia|by intros ?|].
      unfold enc_eqb. rewrite (i_enc _ _ _ _ I). by rewrite bool_decide_eq_false_2. }
  assert (Eenc : enc_eqb (enc sd) Utf8 = true)
    by (unfold enc_eqb; rewrite (i_enc _ _ _ _ I); by rewrite bool_decide_eq_true_2).
  destruct (stop_char_spec buf sd Hm0) as [[Hc Est]|(a & x & r & E & Ha & Hx & Hlt & Est)].
  { apply finish_char_continues; [done|lia|by intros ?|]. by rewrite Eenc. }
  right. unfold finish_char. destruct (Z.gtb_spec (missingBytes sd) 0); [|lia].
  rewrite Eenc, Est. cbn [missingBytes bufferedBytes set_counts lastChar set_lastChar encoding enc].
  pose proof (i_last _ _ _ _ I). pose proof (i_buffered _ _ _ _ I).
  destruct (copy_append [] a (x :: r) (lastChar sd) (bufferedBytes sd) 0 (slen a)) as [Htake Hlen];
    [done|done|lia|lia|]. simpl in Htake, Hlen. rewrite <-E in Htake, Hlen.
  set (L := buf_copy buf (lastChar sd) (bufferedBytes sd) 0 (slen a)) in *.
  pose proof (slen_nonneg a). pose proof (slen_nonneg (x :: r)).
  assert (Hbuf : slen buf = slen a + slen (x :: r)) by (rewrite E; apply slen_app).
  replace (Z.min (slen buf - slen a) 0) with 0 by lia. rewrite !Z.add_0_r, Z.eqb_refl.
  destruct (copy_append a [] (x :: r) L (bufferedBytes sd + slen a) (slen a) (slen a)) as [Htake2 Hlen2];
    [done|change (slen (@nil Z)) with 0; lia|lia|change (slen (@nil Z)) with 0; lia|].
  change (slen (@nil Z)) with 0 in Htake2. rewrite Z.add_0_r, app_nil_r in Htake2.
  cbn [app] in Htake2, Hlen2. rewrite <-E in Htake2, Hlen2.
  fold (held sd) in Htake. rewrite Htake in Htake2.
  rewrite (i_encoding _ _ _ _ I). erewrite toString_take; [|lia|apply bufLen_max; lia|exact Htake2].
  eexists _, a, (x :: r). split_and!; [done|reflexivity|..]; cbn; try done; try apply I; try lia.
  - eapply Hcut, held_ok_cut; [apply I|lia].
  - unfold ready. rewrite He. right. by exists x, r.
Qed.

(** The incomplete character starts after the bytes already decoded. *)
Lemma ready_start hist a r p b cs :
  e = Utf8 -> ready hist a r -> a ++ r = p ++ b :: cs -> is_cont b = false -> conts cs ->
  exists l, p = a ++ l /\ r = l ++ b :: cs.
Proof.
  clear. intros He R E Hb Hcs. unfold ready in R. rewrite He in R.
  apply app_eq_app in E as [l [[-> Er]|[Ep ->]]]; [|by exists l].
  destruct l as [|y l]; [exists []; rewrite !app_nil_r; by simplify_eq/=|]. simplify_eq/=.
  destruct R as [[_ Ha]|(x & r' & -> & Hx)].
  - apply Forall_app in Ha as [_ Ha]. inversion Ha. congruence.
  - apply Forall_app in Hcs as [_ Hcs]. inversion Hcs. congruence.
Qed.

Lemma ready_conts hist a r : e = Utf8 -> ready hist a r -> r <> [] -> conts r -> reset (hist ++ r).
Proof.
  clear. intros He R Hne Hr. unfold ready in R. rewrite He in R.
  destruct R as [[? _]|(x & r' & -> & Hx)]; [by apply reset_conts|].
  inversion Hr. congruence.
Qed.

Lemma ready_nothing hist a r :
  e = Utf8 -> ready hist a r -> r <> [] -> nothing_held (a ++ r) -> reset (hist ++ r).
Proof.
  clear Hdec Hcut. intros He R Hne [(p & cs & E & Hcs & Hlen)|[Hc|(p & b & cs & E & Hb & Hcs & Hn)]].
  - apply app_eq_app in E as [l [[-> ->]|[-> ->]]].
    + apply Forall_app in Hcs as [_ ?]. by eapply ready_conts.
    + rewrite app_assoc. apply reset_many; [done|lia].
  - apply Forall_app in Hc as [_ ?]. by eapply ready_conts.
  - destruct (ready_start _ _ _ _ _ _ He R E Hb Hcs) as (l & -> & ->). rewrite app_assoc.
    destruct (char_need b) as [n|] eqn:En; [by eapply reset_enough|].
    replace ((hist ++ l) ++ b :: cs) with (((hist ++ l) ++ [b]) ++ cs) by by rewrite <-app_assoc.
    apply reset_conts; [by apply reset_invalid|done].
Qed.

(** [hold_back] keeps the end [h] of what is left of the buffer. *)
(** What [hold_back] leaves of the rest [r] of a buffer after [a]. *)
Definition holds (hist buf a r : list Z) (sd : StringDecoder) : Prop :=
  exists m h k, r = m ++ h /\ hold_back buf (slen a) sd = set_counts (slen h) k sd /\
    held_ok e (hist ++ m) h k.

Lemma holds_nothing hist buf a r sd :
  bufferedBytes sd = 0 -> missingBytes sd = 0 -> hold_back buf (slen a) sd = sd ->
  held_ok e (hist ++ r) [] 0 -> holds hist buf a r sd.
Proof.
  clear Hdec Hcut Hstate. intros Hb Hm Hs Hok. exists r, [], 0. rewrite app_nil_r, Hs. split_and!; [done| |done].
  destruct sd; simpl in *; by subst.
Qed.

(** The last byte of a buffer, and the length of its rest. *)
Lemma last_byte (buf a r0 : list Z) y :
  buf = a ++ r0 ++ [y] -> byte_at buf (slen buf - 1) = y /\ slen buf - slen a = slen (r0 ++ [y]).
Proof.
  clear Hdec Hcut Hstate. intros ->. split; [|rewrite slen_app; lia].
  rewrite app_assoc. apply byte_at_middle. rewrite (slen_app _ [y]), slen_cons.
  change (slen (@nil Z)) with 0. lia.
Qed.

Section HoldBack.
Context (hist buf a r0 : list Z) (y : Z) (sd : StringDecoder).
Hypothesis E : buf = a ++ r0 ++ [y].
Hypothesis R : ready hist a (r0 ++ [y]).
Hypothesis Hen : enc sd = e.
Hypothesis Hb : bufferedBytes sd = 0.
Hypothesis Hm : missingBytes sd = 0.

Lemma hold_back_utf8 : e = Utf8 -> holds hist buf a (r0 ++ [y]) sd.
Proof.
  intros He. destruct (last_byte _ _ _ _ E) as [Hlast Hr].
  assert (Hh : hold_back buf (slen a) sd = if Z.land y 128 =? 0 then sd else scan_utf8 buf sd).
  { unfold hold_back. rewrite Hen, Hlast, He. unfold enc_eqb. simpl. by destruct (_ =? _). }
  destruct (Z.eqb_spec (Z.land y 128) 0) as [Hy|Hy].
  { apply holds_nothing; [done..|]. rewrite He. left. split_and!; [done|done|].
    rewrite app_assoc. by apply reset_ascii. }
  assert (Hbuf : buf <> []) by (rewrite E; by destruct a, r0).
  destruct (scan_utf8_spec buf sd Hbuf Hb Hm) as [(p & b & cs & m & Ep & Hc & Hcs & Hm0 & Hn & Hs)|[Hno Hs]].
  - rewrite E in Ep. destruct (ready_start _ _ _ _ _ _ He R Ep Hc Hcs) as (l & _ & El).
    exists l, (b :: cs), m. rewrite Hh, Hs, He. split_and!; [done|done|]. right. split; [done|]. by exists b, cs.
  - exists (r0 ++ [y]), [], 0. rewrite app_nil_r, Hh, Hs, He. split_and!; [done|done|]. left.
    split_and!; [done|done|]. rewrite E in Hno. apply (ready_nothing hist a); [done|done|by destruct r0|done].
Qed.

Lemma hold_back_utf16 : e = Utf16 -> holds hist buf a (r0 ++ [y]) sd.
Proof.
  intros He. destruct (last_byte _ _ _ _ E) as [Hlast Hr].
  unfold ready in R. rewrite He in R. destruct R as [k Hk].
  assert (Hh : hold_back buf (slen a) sd = if slen (r0 ++ [y]) mod 2 =? 1 then set_counts 1 1 sd
    else if Z.land y 252 =? 216 then set_counts 2 2 sd else sd).
  { unfold hold_back. rewrite Hen, Hlast, Hr, He. done. }
  destruct (Z.eqb_spec (slen (r0 ++ [y]) mod 2) 1) as [Hodd|Heven].
  { exists r0, [y], 1. rewrite Hh, He. do 2 (split; [done|]). split; [|right; by left].
    rewrite slen_app in Hodd |- *. change (slen [y]) with 1 in Hodd.
    apply Z.divide_add_r; [by exists k|]. apply Z.mod_divide; [lia|].
    Z.to_euclidean_division_equations. lia. }
  assert (Hd : (2 | slen (r0 ++ [y]))) by (apply Z.mod_divide; [lia|]; Z.to_euclidean_division_equations; lia).
  destruct (Z.eqb_spec (Z.land y 252) 216).
  - destruct Hd as [k2 Hk2]. pose proof (slen_nonneg r0).
    rewrite slen_app in Hk2. change (slen [y]) with 1 in Hk2.
    destruct (@exists_last _ r0) as (r1 & z & Er); [intros ->; change (slen (@nil Z)) with 0 in *; lia|].
    exists r1, [z; y], 2. rewrite Hh, He. rewrite Er, <-app_assoc. do 2 (split; [done|]).
    split; [|right; right; by left]. rewrite Er, slen_app in Hk2. rewrite slen_app.
    change (slen [z]) with 1 in Hk2. exists (k + k2 - 1). lia.
  - apply holds_nothing; [done..|]. rewrite He. split; [|by left].
    rewrite slen_app. apply Z.divide_add_r; [by exists k|done].
Qed.

Lemma hold_back_base64 : e = Base64 -> holds hist buf a (r0 ++ [y]) sd.
Proof.
  intros He. destruct (last_byte _ _ _ _ E) as [_ Hr].
  unfold ready in R. rewrite He in R. destruct R as [k Hk].
  set (n := slen (r0 ++ [y])) in *. pose proof (Z.mod_pos_bound n 3 ltac:(lia)).
  pose proof (Z_div_mod_eq_full n 3). pose proof (slen_nonneg (r0 ++ [y])).
  destruct (split_at (r0 ++ [y]) (n - n mod 3)) as (m & h & Emh & Hlm); [subst n; lia|].
  assert (Hh : slen h = n mod 3) by (subst n; rewrite Emh, slen_app in *; lia).
  exists m, h, (if n mod 3 >? 0 then 3 - n mod 3 else 0). rewrite Hh, He. split; [done|]. split.
  - unfold hold_back. rewrite Hen, Hr, He. unfold enc_eqb. simpl. rewrite Hm. by destruct (Z.gtb_spec (n mod 3) 0).
  - split; [exists (k + n / 3); rewrite slen_app; lia|].
    destruct (Z.gtb_spec (n mod 3) 0); lia.
Qed.
End HoldBack.

Lemma hold_back_spec hist buf a r sd :
  buf = a ++ r -> r <> [] -> ready hist a r ->
  enc sd = e -> bufferedBytes sd = 0 -> missingBytes sd = 0 -> holds hist buf a r sd.
Proof.
  clear Hdec Hcut. intros E Hne R Hen Hb Hm. destruct r as [|y r0 _] using rev_ind; [done|].
  destruct Hstate as [He|[He|He]]; [by apply hold_back_utf8|by apply hold_back_utf16|by apply hold_back_base64].
Qed.

(** What one call of [decode] does: the bytes held back and the new ones are
    decoded in order up to the bytes held back now, none twice, none skipped. *)
Definition decode_ok (hist buf : list Z) (sd : StringDecoder) (res : StringDecoder * jsres str) : Prop :=
  exists sd' m out, res = (sd', Ok out) /\ held sd ++ buf = m ++ held sd' /\
    sd_inv en e (hist ++ m) sd' /\ D (hist ++ m) = D hist ++ out.

Lemma decode_stateful hist buf sd :
  sd_inv en e hist sd -> slen buf <= MAX_STRING_LENGTH ->
  decode_ok hist buf sd (decode slice_bytes buf sd).
Proof.
  intros I Hmax. unfold decode.
  replace (enc_eqb (enc sd) Utf8 || enc_eqb (enc sd) Utf16 || enc_eqb (enc sd) Base64) with true.
  2:{ rewrite (i_enc _ _ _ _ I). by destruct Hstate as [->|[->| ->]]. }
  destruct (finish_char_spec hist buf sd I) as
    [(sd' & -> & I' & Hh)|(sd' & a & r & E & -> & Hen & He & Hl & Hb & Hm & HD & HR & Hnil)].
  { rewrite Z.sub_diag. simpl. exists sd', [], []. rewrite !app_nil_r. by rewrite Hh. }
  assert (Hr : slen buf - slen a = slen r) by (rewrite E, slen_app; lia). rewrite Hr.
  destruct (Z.eqb_spec (slen r) 0) as [Hz|Hz].
  { apply slen_0 in Hz. subst r. rewrite app_nil_r in E. subst a.
    exists sd', (held sd ++ buf), (D (held sd ++ buf)).
    assert (Hnone : held sd' = []) by (unfold held; by rewrite Hb).
    rewrite Hnone, app_nil_r. split_and!; try done.
    constructor; try done; [rewrite Hb; destruct e; simpl; lia|]. rewrite Hnone, Hm. by apply Hnil. }
  destruct (hold_back_spec (hist ++ held sd ++ a) buf a r sd' E) as (m & h & k & Emh & -> & Hok);
    [by intros ->|done|done|done|done|]. subst r.
  destruct (held_ok_bounds _ _ _ Hok) as (Hk0 & Hk & _).
  cbn [set_counts bufferedBytes lastChar encoding enc missingBytes].
  assert (Hbuf : slen buf = slen a + slen m + slen h) by (rewrite E, !slen_app; lia).
  slen_pos.
  assert (Hres : forall lc, slen lc = bufLen e -> take (Z.to_nat (slen h)) lc = h ->
    decode_ok hist buf sd
      match bufferToString slice_bytes buf en (slen a) (slen buf - slen h) with
      | Ok rest => (mkDecoder en (enc sd') lc (slen h) k, Ok (D (held sd ++ a) ++ rest))
      | Throw ex => (mkDecoder en (enc sd') lc (slen h) k, Throw ex)
      end).
  { intros lc Hlc Ht. replace (slen buf - slen h) with (slen a + slen m) by lia.
    erewrite toString_spec; [|exact E|lia].
    eexists _, ((held sd ++ a) ++ m), _. split; [reflexivity|].
    assert (Hhd : held (mkDecoder en (enc sd') lc (slen h) k) = h) by exact Ht.
    rewrite Hhd. split; [by rewrite E, <-!app_assoc|].
    rewrite app_assoc. split.
    - constructor; cbn; try done; [destruct (held_ok_bounds _ _ _ Hok); lia|]. by rewrite Hhd.
    - rewrite (ready_cut _ _ _ _ HR), HD. by rewrite <-app_assoc. }
  destruct (Z.gtb_spec (slen h) 0) as [Hpos|Hpos]; cbn [set_counts set_lastChar bufferedBytes lastChar encoding enc missingBytes].
  - unfold set_lastChar, set_counts. cbn. rewrite Hen. apply Hres.
    + destruct (copy_append (a ++ m) h [] (lastChar sd') 0 (slen buf - slen h) (slen buf)) as [_ Hlen];
        rewrite ?slen_app; try lia. rewrite app_nil_r, <-app_assoc, <-E in Hlen. by rewrite Hlen.
    + destruct (copy_append (a ++ m) h [] (lastChar sd') 0 (slen buf - slen h) (slen buf)) as [Ht _];
        rewrite ?slen_app; try lia. by rewrite app_nil_r, <-app_assoc, <-E in Ht.
  - assert (h = []) as -> by (apply slen_0; lia).
    replace (slen buf) with (slen buf - slen (@nil Z)) by (change (slen (@nil Z)) with 0; lia).
    unfold set_counts. rewrite Hen. by apply Hres.
Qed.

End Spec.
