(* ===== verification/StringDecoderTheorems.v ===== *)
(** * Theorems on the string decoder

    The decoded chunks add up to the decoding of the whole stream, the state
    stays within its bounds, and two places where the code differs from what it
    says it does. *)

From Stdlib Require Import ZArith Lia Zdiv Znumtheory.
From stdpp Require Import base list strings numbers option sets.
From S2P Require Import Prelude StringDecoder StringDecoderProps.

#[local] Open Scope Z_scope.

(** Writing the chunks one after the other and concatenating the results. *)
Fixpoint write_all (slice_bytes : str -> list Z -> jsres str) (chunks : list (list Z))
    (sd : StringDecoder) : StringDecoder * jsres str :=
  match chunks with
  | [] => (sd, Ok [])
  | c :: cs =>
      match write slice_bytes (BBuffer c) sd with
      | (sd, Throw ex) => (sd, Throw ex)
      | (sd, Ok s) =>
          match write_all slice_bytes cs sd with
          | (sd, Throw ex) => (sd, Throw ex)
          | (sd, Ok s') => (sd, Ok (s ++ s'))
          end
      end
  end.

Section Whole.
Context (slice_bytes : str -> list Z -> jsres str) (en : str) (e : Encoding) (D : list Z -> str).
Context (Hdec : forall bytes, bytes <> [] -> slice_bytes en bytes = Ok (D bytes)).
Context (Hcut : forall a b, cut e a b -> D (a ++ b) = D a ++ D b).

Lemma decode_stateless hist buf sd :
  e <> Utf8 -> e <> Utf16 -> e <> Base64 ->
  sd_inv en e hist sd -> slen buf <= MAX_STRING_LENGTH ->
  decode_ok en e D hist buf sd (decode slice_bytes buf sd).
Proof.
  intros H1 H2 H3 I Hmax. unfold decode. rewrite (i_enc _ _ _ _ I).
  replace (enc_eqb e Utf8 || enc_eqb e Utf16 || enc_eqb e Base64) with false by by destruct e.
  assert (Hh : held sd = [] /\ missingBytes sd = 0 /\ cut e hist buf).
  { pose proof (i_held _ _ _ _ I) as Hok. destruct e; try done; destruct Hok as [-> ->]; by split_and!. }
  destruct Hh as (Hh & Hm & Hc).
  pose proof (toString_spec slice_bytes en e D Hdec Hcut buf [] buf [] ltac:(by rewrite app_nil_r) Hmax) as E.
  rewrite (i_encoding _ _ _ _ I). exists sd, buf, (D buf). change (0 + slen buf) with (slen buf) in E.
  split; [by f_equal|]. rewrite Hh, app_nil_r. split_and!; [done| |by apply Hcut].
  destruct I as [? ? ? ? Hok]. constructor; try done. rewrite Hh in *. by destruct e; try done; destruct Hok as [_ ->].
Qed.

Lemma decode_spec hist buf sd :
  sd_inv en e hist sd -> slen buf <= MAX_STRING_LENGTH ->
  decode_ok en e D hist buf sd (decode slice_bytes buf sd).
Proof.
  intros I Hmax. destruct (decide (e = Utf8 \/ e = Utf16 \/ e = Base64)) as [H|H].
  - by apply decode_stateful.
  - apply decode_stateless; [naive_solver..|done|done].
Qed.

Lemma write_all_spec hist chunks sd :
  sd_inv en e hist sd -> Forall (fun c => slen c <= MAX_STRING_LENGTH) chunks ->
  decode_ok en e D hist (concat chunks) sd (write_all slice_bytes chunks sd).
Proof.
  intros I Hmax. revert hist sd I. induction Hmax as [|c cs Hc Hcs IH]; intros hist sd I; simpl.
  - exists sd, [], []. by rewrite !app_nil_r.
  - destruct (decode_spec hist c sd I Hc) as (sd1 & m & out & E & Hh & I1 & HD).
    unfold write, write_this. simpl. rewrite E.
    destruct (IH _ _ I1) as (sd2 & m2 & out2 & -> & Hh2 & I2 & HD2).
    exists sd2, (m ++ m2), (out ++ out2). rewrite app_assoc, (app_assoc hist).
    split_and!; [done| |done|by rewrite HD2, HD, app_assoc].
    by rewrite Hh, <-!app_assoc, Hh2.
Qed.

(** A decoder that holds nothing back is as good as new. *)
Lemma fresh_inv sd :
  encoding sd = en -> enc sd = e -> slen (lastChar sd) = bufLen e ->
  bufferedBytes sd = 0 -> missingBytes sd = 0 -> sd_inv en e [] sd /\ lastTotal sd = 0.
Proof.
  clear Hdec Hcut. intros. split; [|unfold lastTotal; lia]. constructor; try done; [destruct e; simpl; lia|].
  unfold held. rewrite H2, H3. destruct e; simpl; try done.
  - left. split_and!; [done|done|constructor].
  - split; [apply Z.divide_0_r|by left].
  - split; [apply Z.divide_0_r|by left].
Qed.

(** An odd byte at the end of UTF-16 text decodes to nothing. *)
Context (Hodd : e = Utf16 -> forall a x, (2 | slen a) -> D (a ++ [x]) = D a).

(** What [end] returns, and the state it leaves. *)
Definition ends (hist : list Z) (sd : StringDecoder) (r : StringDecoder * jsres str) : Prop :=
  exists sd' out, r = (sd', Ok out) /\ (sd_inv en e [] sd' /\ lastTotal sd' = 0) /\
    D (hist ++ held sd) = D hist ++ out.

(** Nothing held back. *)
Lemma end_nothing hist sd :
  sd_inv en e hist sd -> bufferedBytes sd <= 0 -> ends hist sd (sd, Ok []).
Proof.
  intros I Hpos. pose proof (slen_held en e hist sd I) as Hsl. destruct I as [Ien Ie Il Ib Ih].
  assert (held sd = []) as Hn by (apply slen_0; lia).
  exists sd, []. rewrite Hn, !app_nil_r. split; [done|]. split; [|done].
  apply fresh_inv; try done; [lia|]. rewrite Hn in Ih.
  destruct e; simpl in Ih; try (change (slen (@nil Z)) with 0 in Ih); try lia.
  destruct Ih as [?|(_ & b & cs & ? & _)]; [lia|done].
Qed.

(** What is held back is decoded on its own. *)
Lemma held_split hist sd h b :
  sd_inv en e hist sd -> 0 < bufferedBytes sd -> held sd = h ++ b -> D (hist ++ h) = D hist ++ D h.
Proof.
  intros I Hpos Eh. pose proof (slen_held en e hist sd I) as Hsl. destruct I as [Ien Ie Il Ib Ih].
  assert (Hst : e = Utf8 \/ e = Utf16 \/ e = Base64)
    by (destruct e; simpl in Ib; try lia; auto).
  destruct (held_ok_bounds e Hst _ _ _ Ih) as (Hm0 & _ & Hz).
  assert (Hm : 0 < missingBytes sd).
  { destruct (Z.eq_dec (missingBytes sd) 0) as [E|]; [|lia]. rewrite (Hz E) in Hsl.
    change (slen (@nil Z)) with 0 in Hsl. lia. }
  pose proof (held_ok_cut e Hst _ _ _ [] Ih Hm) as C. apply Hcut. destruct h as [|x h].
  - destruct Hst as [->|[->| ->]]; [by right|done|done].
  - rewrite app_nil_r, Eh in C. by destruct Hst as [->|[->| ->]].
Qed.

(** [flush] drops half a code unit of UTF-16. *)
Lemma odd_held hist sd :
  sd_inv en e hist sd -> e = Utf16 -> bufferedBytes sd mod 2 = 1 ->
  exists h x, held sd = h ++ [x] /\ slen h = bufferedBytes sd - 1 /\
    take (Z.to_nat (bufferedBytes sd - 1)) (lastChar sd) = h /\
    D (hist ++ held sd) = D hist ++ D h /\ (slen h = 0 -> missingBytes sd = 1).
Proof.
  intros I He Ho. pose proof (slen_held en e hist sd I) as Hsl.
  assert (Hb : 0 < bufferedBytes sd)
    by (destruct (i_buffered _ _ _ _ I); destruct (Z.eq_dec (bufferedBytes sd) 0) as [E|]; [rewrite E in Ho; done|lia]).
  destruct (@exists_last _ (held sd)) as (h & x & Eh);
    [intros E; rewrite E in Hsl; change (slen (@nil Z)) with 0 in Hsl; lia|].
  pose proof (held_split hist sd h [x] I Hb Eh) as Hs. pose proof (i_held _ _ _ _ I) as Ih.
  rewrite Eh in Hsl, Ih. rewrite slen_app in Hsl. change (slen [x]) with 1 in Hsl. slen_pos.
  rewrite He in Ih. destruct Ih as [[k Hk] Ih]. rewrite slen_app in Ih. change (slen [x]) with 1 in Ih.
  exists h, x. split_and!; [done|lia| | |lia].
  - replace (Z.to_nat (bufferedBytes sd - 1)) with (length h) by (unfold slen in *; lia).
    apply (f_equal (take (length h))) in Eh. rewrite take_app_length in Eh.
    unfold held in Eh. rewrite take_take in Eh. etransitivity; [|exact Eh]. f_equal. unfold slen in *. lia.
  - rewrite Eh, app_assoc, (Hodd He); [done|]. rewrite slen_app, Hk.
    apply Z.divide_add_r; [by exists k|]. apply Z.mod_divide; [lia|].
    Z.to_euclidean_division_equations. lia.
Qed.

Lemma end_spec hist sd : sd_inv en e hist sd -> ends hist sd (end_ slice_bytes None sd).
Proof.
  intros I. unfold end_. destruct (Z.gtb_spec (bufferedBytes sd) 0) as [Hpos|Hpos]; [|by apply end_nothing].
  pose proof I as [Ien Ie Il Ib Ih].
  assert (Hts : forall n, 0 <= n <= bufferedBytes sd ->
    bufferToString slice_bytes (lastChar sd) en 0 n = Ok (D (take (Z.to_nat n) (lastChar sd)))).
  { intros n Hn. eapply toString_take; eauto; [lia|]. apply (bufLen_max e). lia. }
  unfold flush. rewrite Ie. destruct (enc_eqb e Utf16 && (bufferedBytes sd mod 2 =? 1)) eqn:Eo; cbn.
  - apply andb_true_iff in Eo as [He%bool_decide_eq_true Ho%Z.eqb_eq].
    destruct (odd_held hist sd I He Ho) as (h & x & Eh & Hl & Ht & Hd & Hone).
    destruct (Z.eqb_spec (bufferedBytes sd - 1) 0) as [E0|E0].
    + eexists _, []. split; [reflexivity|]. split.
      * apply fresh_inv; cbn; try done. rewrite Hone by lia. lia.
      * rewrite Hd, (slen_0 h) by lia. by rewrite (D_nil e D Hcut).
    + rewrite Ien, Hts by lia. eexists _, _. split; [reflexivity|]. split.
      * by apply fresh_inv; cbn.
      * by rewrite Hd, Ht.
  - zbool. rewrite Ien, Hts by lia. eexists _, _. split; [reflexivity|]. split.
    + by apply fresh_inv; cbn.
    + by apply (held_split hist sd _ []); rewrite ?app_nil_r.
Qed.

End Whole.

(** ** The constructor *)

Definition known_encodings : list str :=
  lit <$> ["utf8"; "base64"; "utf16le"; "hex"; "latin1"; "ascii"]%string.

Lemma slowCases_known toLowerCase e en : slowCases toLowerCase e = Some en -> en ∈ known_encodings.
Proof.
  assert (H : match slowCases toLowerCase e with
              | Some c => bool_decide (c ∈ known_encodings)
              | None => true
              end = true).
  { unfold slowCases.
    destruct (slen e) as [|p|p]; [|do 4 (try destruct p as [p|p|])|];
      repeat match goal with |- context [if ?b then _ else _] => destruct b end; reflexivity. }
  intros E. rewrite E in H. by apply bool_decide_eq_true in H.
Qed.

Lemma normalizeEncoding_known toLowerCase e en :
  normalizeEncoding toLowerCase e = Ok en -> en ∈ known_encodings \/ en = lit "undefined".
Proof.
  unfold normalizeEncoding.
  assert (Hk : forall c, castEncoding toLowerCase e = Some c -> c ∈ known_encodings).
  { intros c. unfold castEncoding. destruct e as [e|]; [|intros [= <-]; by left].
    case_bool; [intros [= <-]; by left|]. apply slowCases_known. }
  destruct (castEncoding toLowerCase e) as [[|x c]|] eqn:E.
  - specialize (Hk [] eq_refl). apply (bool_decide_pack _) in Hk. by vm_compute in Hk.
  - intros [= <-]. left. exact (Hk _ eq_refl).
  - destruct e as [e|]; [|done]. case_bool; [done|]. intros [= <-]. by right.
Qed.

(** A new decoder holds nothing back, and [lastChar] has the size its encoding
    needs, unless the encoding is ["raw"]. *)
Lemma new_inv toLowerCase junk e sd :
  (forall n, 0 <= n -> slen (junk n) = n) ->
  new_StringDecoder toLowerCase junk e = Ok sd -> encoding sd <> lit "undefined" ->
  sd_inv (encoding sd) (enc sd) [] sd.
Proof.
  intros Hj H Hraw. unfold new_StringDecoder in H.
  apply jsbind_Ok in H as (en & [Hk| ->]%normalizeEncoding_known & H); [|by injection H as <-].
  assert (Ht : Forall (fun en => encoding_of en = ((encoding_of en).1, bufLen (encoding_of en).1)) known_encodings)
    by (repeat constructor).
  rewrite Forall_forall in Ht. rewrite (Ht en Hk) in H. injection H as <-. simpl in *.
  assert (0 <= bufLen (encoding_of en).1) by (destruct (encoding_of en).1; simpl; lia).
  refine (proj1 _). apply fresh_inv; try done. simpl. apply slen_take. rewrite Hj; lia.
Qed.

Lemma new_held toLowerCase junk e sd :
  new_StringDecoder toLowerCase junk e = Ok sd -> held sd = [].
Proof.
  unfold new_StringDecoder. intros (en & _ & H)%jsbind_Ok.
  destruct (encoding_of en). by injection H as <-.
Qed.

Lemma held_ok_sizes e hist h m : held_ok e hist h m -> 0 <= m /\ slen h + m <= bufLen e.
Proof.
  intros Hok. destruct (decide (e = Utf8 \/ e = Utf16 \/ e = Base64)) as [Hst|Hst].
  - by destruct (held_ok_bounds _ Hst _ _ _ Hok) as (? & ? & _).
  - destruct e; [by destruct Hst; auto..| | |]; destruct Hok as [-> ->]; done.
Qed.

(** ** Streams of chunks *)

(** However a byte stream is cut into chunks, writing the chunks to a new
    decoder and then calling [end] returns, in total, the decoding of the whole
    stream, and leaves the decoder as good as new, for a decoding [D] of bytes
    that can be cut where [cut] says.  [BufferStringsTheorems] uses this with the
    [toString] of buffers. *)
Lemma decoder_chunks_gen toLowerCase junk name slice_bytes D sd chunks :
  (forall n, 0 <= n -> slen (junk n) = n) ->
  new_StringDecoder toLowerCase junk name = Ok sd -> encoding sd <> lit "undefined" ->
  (forall bytes, bytes <> [] -> slice_bytes (encoding sd) bytes = Ok (D bytes)) ->
  (forall a b, cut (enc sd) a b -> D (a ++ b) = D a ++ D b) ->
  (enc sd = Utf16 -> forall a x, (2 | slen a) -> D (a ++ [x]) = D a) ->
  Forall (fun c => slen c <= MAX_STRING_LENGTH) chunks ->
  exists sd1 out sd2 out2,
    write_all slice_bytes chunks sd = (sd1, Ok out) /\ end_ slice_bytes None sd1 = (sd2, Ok out2) /\
    out ++ out2 = D (concat chunks) /\
    lastTotal sd2 = 0 /\ sd_inv (encoding sd) (enc sd) [] sd2.
Proof.
  intros Hj Hnew Hraw Hdec Hcut Hodd Hmax.
  pose proof (new_inv _ _ _ _ Hj Hnew Hraw) as I.
  destruct (write_all_spec _ _ _ _ Hdec Hcut [] chunks sd I Hmax) as (sd1 & m & out & E & Hh & I1 & HD).
  destruct (end_spec _ _ _ _ Hdec Hcut Hodd _ _ I1) as (sd2 & out2 & E2 & [I2 Ht] & HD2).
  exists sd1, out, sd2, out2. split_and!; [done|done| |done|done].
  - rewrite (new_held _ _ _ _ Hnew) in Hh. simpl in *. rewrite Hh, HD2, HD.
    by rewrite (D_nil (enc sd) D Hcut).
Qed.

(** UTF-16LE text, two bytes a code unit; an odd last byte is ignored. *)
Fixpoint ucs2 (bytes : list Z) : str :=
  match bytes with
  | lo :: hi :: rest => (lo + 256 * hi) :: ucs2 rest
  | _ => []
  end.

Lemma ucs2_app a b : (2 | slen a) -> ucs2 (a ++ b) = ucs2 a ++ ucs2 b.
Proof.
  intros [k Hk]. assert (Hn : length a = (2 * Z.to_nat k)%nat) by (unfold slen in Hk; lia).
  clear Hk. revert a Hn. induction (Z.to_nat k) as [|n IH]; intros [|x [|y a]] Hn; simpl in *; try lia; [done|].
  f_equal. apply IH. lia.
Qed.

Lemma ucs2_odd a x : (2 | slen a) -> ucs2 (a ++ [x]) = ucs2 a.
Proof. intros H. rewrite (ucs2_app a [x] H). apply app_nil_r. Qed.

(** A UTF-16 decoder. *)
Definition utf16_decoder : StringDecoder := mkDecoder (lit "utf16le") Utf16 [0; 0; 0; 0] 0 0.

(** A surrogate pair and an odd byte, in four chunks. *)
Definition utf16_chunks : list (list Z) := [[0x3D]; [0xD8; 0x4D]; []; [0xDC; 0x41]].

(** ** The pieces that are decoded

    Which runs of bytes the decoder hands to [toString], in which order, and its
    states do not depend on what they decode to. *)

(** The outcome of a call whose runs of bytes decode as [S] says. *)
Definition decoded (S : list Z -> str) (r : jsres (list (list Z))) : jsres str :=
  match r with Ok ps => Ok (concat (S <$> ps)) | Throw ex => Throw ex end.

(** [g] makes the same steps for every decoding of bytes. *)
Definition in_pieces {St} (en : str) (g : (str -> list Z -> jsres str) -> St * jsres str) (st : St)
    (r : jsres (list (list Z))) : Prop :=
  forall f S, (forall b, f en b = Ok (S b)) -> g f = (st, decoded S r).

Lemma bufferToString_pieces buf en s e :
  exists r, forall f S, (forall b, f en b = Ok (S b)) -> bufferToString f buf en s e = decoded S r.
Proof.
  unfold bufferToString, buf_toString.
  destruct (_ >? MAX_STRING_LENGTH); [by exists (Throw ERR_STRING_TOO_LONG)|].
  destruct (negb _ && _); [by exists (Ok [])|]. destruct (_ <=? (if s <=? 0 then 0 else s)); [by exists (Ok [])|].
  eexists (Ok [_]). intros f S Hf. rewrite Hf. csimpl. by rewrite app_nil_r.
Qed.

Lemma finish_pieces buf sd :
  exists sd' i r, encoding sd' = encoding sd /\
    in_pieces (encoding sd) (fun f => finish_char f buf sd) (sd', i) r.
Proof.
  unfold in_pieces, finish_char. destruct (missingBytes sd >? 0); [|by exists sd, 0, (Ok [])].
  assert (He : encoding (stop_char buf sd).1 = encoding sd).
  { unfold stop_char, for_up. apply (for_n_rule (fun _ '(sd', _) => encoding sd' = encoding sd)
      (fun st => encoding st.1 = encoding sd)); [done| |by intros [??]].
    intros j [sd' i] Hs. by case_bool. }
  destruct (if enc_eqb (enc sd) Utf8 then stop_char buf sd else (sd, 0)) as [sd1 i] eqn:E1.
  assert (encoding sd1 = encoding sd) as He1 by (case_bool; [by rewrite E1 in He|by injection E1 as <-]).
  cbn [set_counts set_lastChar encoding bufferedBytes lastChar missingBytes]. destruct (_ =? 0).
  2:{ eexists _, _, (Ok []). split; [|intros; reflexivity]. done. }
  match goal with |- context [bufferToString _ ?l _ ?a ?b] =>
    destruct (bufferToString_pieces l (encoding sd1) a b) as [[ps|ex] Hr] end;
    [eexists _, _, (Ok ps)|eexists _, _, (Throw ex)]; (split; [|intros f S Hf; rewrite (Hr f S) by (by rewrite He1); reflexivity]); done.
Qed.

Lemma hold_back_encoding buf i sd : encoding (hold_back buf i sd) = encoding sd.
Proof.
  unfold hold_back. repeat case_bool; try done.
  unfold scan_utf8, for_down. apply (for_n_rule (fun _ sd' => encoding sd' = encoding sd)); [done| |done].
  intros j sd' Hs. cbn [set_counts bufferedBytes missingBytes]. repeat case_bool; try done.
  destruct (char_need _); [|done]. cbn [set_counts bufferedBytes missingBytes]. by case_bool.
Qed.

Lemma decoded_app (S : list Z -> str) ps qs : concat (S <$> ps ++ qs) = concat (S <$> ps) ++ concat (S <$> qs).
Proof. by rewrite fmap_app, concat_app. Qed.

Lemma decode_pieces buf sd :
  exists sd' r, encoding sd' = encoding sd /\ in_pieces (encoding sd) (fun f => decode f buf sd) sd' r.
Proof.
  unfold in_pieces, decode. destruct (_ || _ || _).
  2:{ destruct (bufferToString_pieces buf (encoding sd) 0 (slen buf)) as [r Hr].
      exists sd, r. split; [done|]. intros f S Hf. by rewrite (Hr f S). }
  destruct (finish_pieces buf sd) as (sd1 & i & [ps|ex] & He & H1).
  2:{ exists sd1, (Throw ex). split; [done|]. intros f S Hf. by rewrite (H1 f S). }
  destruct (slen buf - i =? 0) eqn:El.
  { exists sd1, (Ok ps). split; [done|]. intros f S Hf. rewrite (H1 f S) by done. cbn [decoded]. by rewrite El. }
  pose proof (hold_back_encoding buf i sd1) as He2. set (sd2 := hold_back buf i sd1) in *.
  destruct (if bufferedBytes sd2 >? 0
    then (set_lastChar (buf_copy buf (lastChar sd2) 0 (slen buf - bufferedBytes sd2) (slen buf)) sd2, slen buf - bufferedBytes sd2)
    else (sd2, slen buf)) as [sd3 bufEnd] eqn:E3.
  assert (encoding sd3 = encoding sd) as He3 by (revert E3; case_bool; intros [= <- <-]; cbn [set_lastChar encoding]; congruence).
  destruct (bufferToString_pieces buf (encoding sd3) i bufEnd) as [[qs|ex] Hr].
  - exists sd3, (Ok (ps ++ qs)). split; [done|]. intros f S Hf. rewrite (H1 f S) by done. cbn [decoded]. rewrite El. fold sd2.
    rewrite E3, (Hr f S) by by rewrite He3. cbn [decoded]. by rewrite decoded_app.
  - exists sd3, (Throw ex). split; [done|]. intros f S Hf. rewrite (H1 f S) by done. cbn [decoded]. rewrite El. fold sd2.
    by rewrite E3, (Hr f S) by by rewrite He3.
Qed.

Lemma write_all_pieces chunks sd :
  exists sd' r, encoding sd' = encoding sd /\ in_pieces (encoding sd) (fun f => write_all f chunks sd) sd' r.
Proof.
  unfold in_pieces. revert sd. induction chunks as [|c cs IH]; intros sd; [by exists sd, (Ok [])|].
  destruct (decode_pieces c sd) as (sd1 & [ps|ex] & He & H1); unfold in_pieces in H1.
  2:{ exists sd1, (Throw ex). split; [done|]. intros f S Hf. simpl. unfold write, write_this. simpl. by rewrite (H1 f S). }
  destruct (IH sd1) as (sd2 & [qs|ex] & He2 & H2); rewrite He in H2.
  - exists sd2, (Ok (ps ++ qs)). split; [congruence|]. intros f S Hf. simpl. unfold write, write_this. simpl.
    rewrite (H1 f S), (H2 f S) by done. cbn [decoded]. by rewrite decoded_app.
  - exists sd2, (Throw ex). split; [congruence|]. intros f S Hf. simpl. unfold write, write_this. simpl.
    by rewrite (H1 f S), (H2 f S).
Qed.

Lemma end_pieces sd :
  exists sd' r, in_pieces (encoding sd) (fun f => end_ f None sd) sd' r.
Proof.
  unfold in_pieces, end_. destruct (bufferedBytes sd >? 0); [|by exists sd, (Ok [])].
  unfold flush. set (sd1 := if _ && _ then _ else sd).
  assert (encoding sd1 = encoding sd) as He by (subst sd1; by case_bool).
  destruct (bufferedBytes sd1 =? 0); [by exists sd1, (Ok [])|].
  destruct (bufferToString_pieces (lastChar sd1) (encoding sd1) 0 (bufferedBytes sd1)) as [[ps|ex] Hr];
    [eexists _, (Ok ps)|eexists _, (Throw ex)]; intros f S Hf; rewrite (Hr f S) by (by rewrite He); reflexivity.
Qed.
(** What [write] has returned so far is the decoding of everything written
    except the bytes the decoder holds back, and these are an incomplete
    character: the first bytes of a UTF-8 character of [lastTotal] bytes of which
    [lastNeed] are missing, half a UTF-16 code unit or a high surrogate, or one or
    two bytes of a group of three of base64. *)
Lemma decoder_holds_incomplete toLowerCase junk name slice_bytes D sd chunks :
  (forall n, 0 <= n -> slen (junk n) = n) ->
  new_StringDecoder toLowerCase junk name = Ok sd -> encoding sd <> lit "undefined" ->
  (forall bytes, bytes <> [] -> slice_bytes (encoding sd) bytes = Ok (D bytes)) ->
  (forall a b, cut (enc sd) a b -> D (a ++ b) = D a ++ D b) ->
  Forall (fun c => slen c <= MAX_STRING_LENGTH) chunks ->
  exists sd1 done, write_all slice_bytes chunks sd = (sd1, Ok (D done)) /\
    concat chunks = done ++ held sd1 /\
    held_ok (enc sd) done (held sd1) (lastNeed sd1) /\
    lastTotal sd1 = slen (held sd1) + lastNeed sd1 /\ 0 <= lastNeed sd1 /\ lastTotal sd1 <= bufLen (enc sd).
Proof.
  intros Hj Hnew Hraw Hdec Hcut Hmax.
  pose proof (new_inv _ _ _ _ Hj Hnew Hraw) as I.
  destruct (write_all_spec _ _ _ _ Hdec Hcut [] chunks sd I Hmax) as (sd1 & m & out & E & Hh & I1 & HD).
  rewrite (new_held _ _ _ _ Hnew) in Hh. simpl in *. rewrite (D_nil (enc sd) D Hcut) in HD. simpl in HD.
  pose proof (i_held _ _ _ _ I1) as Hok. pose proof (slen_held _ _ _ _ I1) as Hs.
  exists sd1, m. rewrite HD. unfold lastTotal, lastNeed. rewrite Hs. split_and!; try done.
  - by apply (held_ok_sizes _ _ _ _ Hok).
  - rewrite <-Hs. by apply (held_ok_sizes _ _ _ _ Hok).
Qed.

Lemma decoder_holds_incomplete_witness :
  exists sd1 done, write_all (fun _ bytes => Ok bytes) [[0x61; 0xE2]; [0x82]]
      (mkDecoder (lit "utf8") Utf8 [0; 0; 0; 0] 0 0) = (sd1, Ok done) /\
    concat [[0x61; 0xE2]; [0x82]] = done ++ held sd1 /\
    held_ok Utf8 done (held sd1) (lastNeed sd1) /\
    lastTotal sd1 = slen (held sd1) + lastNeed sd1 /\ 0 <= lastNeed sd1 /\ lastTotal sd1 <= bufLen Utf8.
Proof.
  apply (decoder_holds_incomplete (fun s => s) (fun n => replicate (Z.to_nat n) 0) None
           (fun _ bytes => Ok bytes) (fun bytes => bytes)
           (mkDecoder (lit "utf8") Utf8 [0; 0; 0; 0] 0 0) [[0x61; 0xE2]; [0x82]]).
  - intros n Hn. unfold slen. rewrite length_replicate. lia.
  - reflexivity.
  - by intros [=].
  - reflexivity.
  - reflexivity.
  - repeat constructor; by vm_compute.
Defined.

(** A typed array or [DataView] that is not a [Buffer] is decoded as the
    whole of its underlying buffer, whatever its offset and length: a view of
    the second of three bytes decodes to three characters. *)
Lemma write_ignores_view :
  (forall slice_bytes buffer byteOffset byteLength sd,
     write slice_bytes (BView buffer byteOffset byteLength) sd = write slice_bytes (BBuffer buffer) sd) /\
  let latin1 := mkDecoder (lit "latin1") Latin1 [] 0 0 in
  (write (fun _ bytes => Ok bytes) (BView [0x61; 0x62; 0x63] 1 1) latin1).2 = Ok [0x61; 0x62; 0x63] /\
  (write (fun _ bytes => Ok bytes) (BBuffer (slice [0x61; 0x62; 0x63] 1 2)) latin1).2 = Ok [0x62].
Proof. done. Qed.

(** A UTF-16 surrogate pair that arrives one byte at a time is returned in
    two halves: the second [write] returns a high surrogate alone, although
    nothing of the pair's second half has arrived. *)
Lemma utf16_breaks_pair :
  let slice_bytes := fun _ bytes => Ok (ucs2 bytes) in
  let '(sd1, r1) := write slice_bytes (BBuffer [0x3D]) utf16_decoder in
  let '(sd2, r2) := write slice_bytes (BBuffer [0xD8]) sd1 in
  r1 = Ok [] /\ r2 = Ok [0xD83D] /\ lastTotal sd2 = 0.
Proof. vm_compute. done. Qed.
