(* ===== verification/Kv.v ===== *)
(** * Deno.Kv

    Models [src/ext/kv/01_db.ts]: the key-value client: values and their wire
    form, the checks on queue options, reads, atomic operations, the list
    iterator, the queue listener and the watch stream.

    The database is behind ops of the runtime that are not TypeScript code:
    [op_kv_snapshot_read], [op_kv_atomic_write], [op_kv_encode_cursor], and
    structured cloning ([core.serialize], [core.deserialize]) are parameters
    ([KvList] models the first); a write op threads the database [DB].  A call that awaits an op is one
    function as long as nothing else can run in between; [next] of the list
    iterator, where that matters, is split at its [await]. *)

From Stdlib Require Import ZArith Lia QArith.
From stdpp Require Import base list strings numbers option.
From S2P Require Import Prelude.

#[local] Open Scope Z_scope.

(** ** Queue options *)

(** A JavaScript number. *)
Inductive jsnumber :=
  | NaN
  | Infinity (negative : bool)
  | Finite (q : Q).

(** [a < b]; false when one of them is [NaN]. *)
Definition num_ltb (a b : jsnumber) : bool :=
  match a, b with
  | NaN, _ | _, NaN => false
  | Infinity n, Infinity m => n && negb m
  | Infinity n, Finite _ => n
  | Finite _, Infinity m => negb m
  | Finite p, Finite q => negb (Qle_bool q p)
  end.

Definition NumberIsNaN (a : jsnumber) : bool :=
  match a with NaN => true | _ => false end.

Definition num (z : Z) : jsnumber := Finite (inject_Z z).

Definition maxQueueDelay : Z := 30 * 24 * 60 * 60 * 1000.

Definition validateQueueDelay (delay : jsnumber) : jsres unit :=
  if num_ltb delay (num 0) then Throw (JsTypeError "delay cannot be negative") else
  if num_ltb (num maxQueueDelay) delay then Throw (JsTypeError "delay cannot be greater than 30 days") else
  if NumberIsNaN delay then Throw (JsTypeError "delay cannot be NaN") else
  Ok tt.

Definition maxQueueBackoffIntervals : Z := 5.
Definition maxQueueBackoffInterval : Z := 60 * 60 * 1000.

Definition validateBackoffSchedule (backoffSchedule : list jsnumber) : jsres unit :=
  if slen backoffSchedule >? maxQueueBackoffIntervals then Throw (JsTypeError "invalid backoffSchedule") else
  for_up 0 (slen backoffSchedule)
    (fun i (_ : jsres unit) =>
       match backoffSchedule !! Z.to_nat i with
       | Some interval =>
           if num_ltb interval (num 0) || num_ltb (num maxQueueBackoffInterval) interval ||
              NumberIsNaN interval
           then Break (Throw (JsTypeError "invalid backoffSchedule"))
           else Continue (Ok tt)
       | None => Continue (Ok tt)
       end)
    (Ok tt).

(** ** Keys and values *)

Inductive key_part :=
  | KBytes (b : list Z)
  | KString (s : str)
  | KNumber (n : jsnumber)
  | KBigInt (n : Z)
  | KBool (b : bool)
  | KCommitVersionstamp.

Definition KvKey := list key_part.

Inductive RawValue :=
  | Raw_v8 (bytes : list Z)
  | Raw_bytes (bytes : list Z)
  | Raw_u64 (n : Z)
  | Raw_other (kind : string).

Record RawKvEntry := mkRaw {
  raw_key : KvKey;
  raw_value : RawValue;
  raw_versionstamp : str;
}.

(** A value passed to or returned by the API: a [Uint8Array], a [KvU64], or any
    other value, of which structured cloning takes care. *)
Inductive kv_value (V : Type) :=
  | ValBytes (bytes : list Z)
  | ValU64 (n : Z)
  | ValOther (v : V).
Arguments ValBytes {V} _.
Arguments ValU64 {V} _.
Arguments ValOther {V} _.

(** [KvEntryMaybe]: [None] is [null]. *)
Record KvEntry (V : Type) := mkEntry {
  e_key : KvKey;
  e_value : option (kv_value V);
  e_versionstamp : option str;
}.
Arguments mkEntry {V} _ _ _.
Arguments e_key {V} _.
Arguments e_value {V} _.
Arguments e_versionstamp {V} _.

Definition MIN_U64 : Z := 0.
Definition MAX_U64 : Z := 0xffffffffffffffff.

(** The argument of [new KvU64]: a bigint or something else. *)
Inductive bigint_arg := BigInt (n : Z) | NotBigInt.

Definition new_KvU64 (value : bigint_arg) : jsres Z :=
  match value with
  | NotBigInt => Throw (JsTypeError "value must be a bigint")
  | BigInt n =>
      if n <? MIN_U64 then Throw (JsRangeError "value must be a positive bigint") else
      if n >? MAX_U64 then Throw (JsRangeError "value must fit in a 64-bit unsigned integer") else
      Ok n
  end.

(** ** The wire *)

(** A range of [op_kv_snapshot_read]: prefix, start, end, limit, reverse and
    cursor, [None] being [null] (or an absent cursor). *)
Record read_range := mkRange {
  r_prefix : option KvKey;
  r_start : option KvKey;
  r_end : option KvKey;
  r_limit : Z;
  r_reverse : bool;
  r_cursor : option str;
}.

Definition wire_check : Type := KvKey * option str.
Definition wire_mutation : Type := KvKey * string * option RawValue * option jsnumber.
Definition wire_enqueue : Type := list Z * jsnumber * list KvKey * option (list jsnumber).

Record KvListSelector := mkSelector {
  prefix : option KvKey;
  start : option KvKey;
  sel_end : option KvKey;
}.

(** A mutation of [AtomicOperation.mutate], as the caller passes it:
    [m_hasValue] is [ObjectHasOwn(mutation, "value")], [m_truthy] whether the
    value is truthy, [m_expireIn] the option when it is a number. *)
Record KvMutation (V : Type) := mkMutation {
  m_key : KvKey;
  m_type : string;
  m_value : kv_value V;
  m_hasValue : bool;
  m_truthy : bool;
  m_expireIn : option jsnumber;
}.
Arguments mkMutation {V} _ _ _ _ _ _.
Arguments m_key {V} _.
Arguments m_type {V} _.
Arguments m_value {V} _.
Arguments m_hasValue {V} _.
Arguments m_truthy {V} _.
Arguments m_expireIn {V} _.

Record enqueue_opts := mkEnqueue {
  o_delay : option jsnumber;
  o_keysIfUndelivered : option (list KvKey);
  o_backoffSchedule : option (list jsnumber);
}.

Record AtomicOperation := mkAtomic {
  a_rid : Z;
  checks : list wire_check;
  mutations : list wire_mutation;
  enqueues : list wire_enqueue;
}.

(** [#rid] and [#isClosed] *)
Record Kv := mkKv { rid : Z; isClosed : bool }.

Definition atomic (kv : Kv) : AtomicOperation := mkAtomic (rid kv) [] [] [].

(** The rewriting of the mutations in [doAtomicWriteInPlace]: a [set] whose key
    ends in the commit versionstamp symbol.  The arrays are the caller's, so
    what is returned here is what the caller's array holds afterwards. *)
Definition rewrite_mutation (m : wire_mutation) : wire_mutation :=
  let '(key, type, value, expireIn) := m in
  match key !! Z.to_nat (slen key - 1) with
  | Some KCommitVersionstamp =>
      if String.eqb type "set"
      then (slice key 0 (slen key - 1), "setSuffixVersionstampedKey"%string, value, expireIn)
      else m
  | _ => m
  end.

Section Values.
Context {V : Type}.
Context (core_serialize : V -> jsres (list Z)) (core_deserialize : list Z -> jsres V).

Definition deserializeValue (entry : RawKvEntry) : jsres (KvEntry V) :=
  match raw_value entry with
  | Raw_v8 bytes =>
      let? v := core_deserialize bytes in
      Ok (mkEntry (raw_key entry) (Some (ValOther v)) (Some (raw_versionstamp entry)))
  | Raw_bytes bytes =>
      Ok (mkEntry (raw_key entry) (Some (ValBytes bytes)) (Some (raw_versionstamp entry)))
  | Raw_u64 n =>
      let? u := new_KvU64 (BigInt n) in
      Ok (mkEntry (raw_key entry) (Some (ValU64 u)) (Some (raw_versionstamp entry)))
  | Raw_other _ => Throw (JsTypeError "Invalid value type")
  end.

Definition serializeValue (value : kv_value V) : jsres RawValue :=
  match value with
  | ValBytes bytes => Ok (Raw_bytes bytes)
  | ValU64 n => Ok (Raw_u64 n)
  | ValOther v => let? bytes := core_serialize v in Ok (Raw_v8 bytes)
  end.

(** [ArrayPrototypeMap] with a function that may throw. *)
Fixpoint map_res {A B} (f : A -> jsres B) (l : list A) : jsres (list B) :=
  match l with
  | [] => Ok []
  | x :: l' => let? y := f x in let? ys := map_res f l' in Ok (y :: ys)
  end.

(** The two option checks of [enqueue]. *)
Definition validate_enqueue (opts : enqueue_opts) : jsres unit :=
  let? _ := match o_delay opts with Some d => validateQueueDelay d | None => Ok tt end in
  match o_backoffSchedule opts with Some b => validateBackoffSchedule b | None => Ok tt end.

Definition wire_message (message : V) (opts : enqueue_opts) : jsres wire_enqueue :=
  let? bytes := core_serialize message in
  Ok (bytes, default (num 0) (o_delay opts), default [] (o_keysIfUndelivered opts), o_backoffSchedule opts).

Definition point_range (key : KvKey) : read_range := mkRange None (Some key) None 1 false None.

(** The entry of a key, or the entry without value. *)
Definition entry_or_null (key : KvKey) (entries : list RawKvEntry) : jsres (KvEntry V) :=
  match entries with
  | [] => Ok (mkEntry key None None)
  | e :: _ => deserializeValue e
  end.

End Values.

(** The array [mutations] after the call, the database, and the outcome. *)
Definition doAtomicWriteInPlace {DB : Type}
    (op_kv_atomic_write :
       DB -> Z -> list wire_check -> list wire_mutation -> list wire_enqueue -> DB * jsres (option str))
    (db : DB) (rid : Z) (checks : list wire_check)
    (mutations : list wire_mutation) (enqueues : list wire_enqueue)
    : list wire_mutation * DB * jsres (option str) :=
  let mutations := map rewrite_mutation mutations in
  let '(db, r) := op_kv_atomic_write db rid checks mutations enqueues in
  (mutations, db, r).

(** ** The methods of [Kv] *)

Module Client.
Section Client.
Context {V DB : Type}.
Context (core_serialize : V -> jsres (list Z)) (core_deserialize : list Z -> jsres V).
Context (op_kv_snapshot_read : DB -> Z -> list read_range -> string -> jsres (list (list RawKvEntry))).
Context (op_kv_atomic_write :
  DB -> Z -> list wire_check -> list wire_mutation -> list wire_enqueue -> DB * jsres (option str)).

Abbreviation serializeValue := (serializeValue core_serialize).
Abbreviation entry_or_null := (entry_or_null core_deserialize).
Abbreviation wire_message := (wire_message core_serialize).
Abbreviation doAtomicWriteInPlace := (doAtomicWriteInPlace op_kv_atomic_write).

Definition get (db : DB) (kv : Kv) (key : KvKey) (consistency : option string) : jsres (KvEntry V) :=
  let? ranges := op_kv_snapshot_read db (rid kv) [point_range key] (default "strong"%string consistency) in
  match ranges with
  | entries :: _ => entry_or_null key entries
  | [] => Throw (JsTypeError "Cannot read properties of undefined (reading 'length')")
  end.

(** [keys[i]] is [undefined] when the op returns more ranges than were asked
    for, which [[]] stands for. *)
Definition getMany (db : DB) (kv : Kv) (keys : list KvKey) (consistency : option string)
    : jsres (list (KvEntry V)) :=
  let? ranges := op_kv_snapshot_read db (rid kv) (map point_range keys) (default "strong"%string consistency) in
  map_res (fun '(i, entries) => entry_or_null (default [] (keys !! i)) entries) (imap pair ranges).

Definition set (db : DB) (kv : Kv) (key : KvKey) (value : kv_value V) (expireIn : option jsnumber)
    : DB * jsres str :=
  match serializeValue value with
  | Throw e => (db, Throw e)
  | Ok raw =>
      let '(_, db, r) := doAtomicWriteInPlace db (rid kv) [] [(key, "set"%string, Some raw, expireIn)] [] in
      (db, let? v := r in
           match v with
           | None => Throw (JsTypeError "Failed to set value")
           | Some versionstamp => Ok versionstamp
           end)
  end.

(** [if (!result)]: [null] and the empty string are falsy. *)
Definition delete (db : DB) (kv : Kv) (key : KvKey) : DB * jsres unit :=
  let '(_, db, r) := doAtomicWriteInPlace db (rid kv) [] [(key, "delete"%string, None, None)] [] in
  (db, let? v := r in
       match v with
       | None | Some [] => Throw (JsTypeError "Failed to set value")
       | Some _ => Ok tt
       end).

Definition enqueue (db : DB) (kv : Kv) (message : V) (opts : enqueue_opts) : DB * jsres str :=
  match (let? _ := validate_enqueue opts in wire_message message opts) with
  | Throw e => (db, Throw e)
  | Ok w =>
      let '(_, db, r) := doAtomicWriteInPlace db (rid kv) [] [] [w] in
      (db, let? v := r in
           match v with
           | None => Throw (JsTypeError "Failed to enqueue value")
           | Some versionstamp => Ok versionstamp
           end)
  end.

End Client.
End Client.

(** ** Atomic operations

    The methods mutate the object and return it; the second component is whether
    the call threw. *)

Module Atomic.
Section Atomic.
Context {V DB : Type}.
Context (core_serialize : V -> jsres (list Z)).
Context (op_kv_atomic_write :
  DB -> Z -> list wire_check -> list wire_mutation -> list wire_enqueue -> DB * jsres (option str)).

Abbreviation serializeValue := (serializeValue core_serialize).
Abbreviation wire_message := (wire_message core_serialize).
Abbreviation doAtomicWriteInPlace := (doAtomicWriteInPlace op_kv_atomic_write).

Definition push_mutation (m : wire_mutation) (op : AtomicOperation) : AtomicOperation :=
  mkAtomic (a_rid op) (checks op) (mutations op ++ [m]) (enqueues op).

Definition check (cs : list (KvKey * option str)) (op : AtomicOperation) : AtomicOperation :=
  for_up 0 (slen cs)
    (fun i op =>
       match cs !! Z.to_nat i with
       | Some (key, versionstamp) =>
           Continue (mkAtomic (a_rid op) (checks op ++ [(key, versionstamp)]) (mutations op) (enqueues op))
       | None => Continue op
       end) op.

(** What one mutation becomes on the wire. *)
Definition wire_of (m : KvMutation V) : jsres wire_mutation :=
  if String.eqb (m_type m) "delete" then
    if m_truthy m then Throw (JsTypeError "invalid mutation 'delete' with value")
    else Ok (m_key m, "delete"%string, None, None)
  else if String.eqb (m_type m) "set" || String.eqb (m_type m) "sum" ||
          String.eqb (m_type m) "min" || String.eqb (m_type m) "max" then
    let expireIn := if String.eqb (m_type m) "set" then m_expireIn m else None in
    if negb (m_hasValue m)
    then Throw (JsTypeError ("invalid mutation '" ++ m_type m ++ "' without value"))
    else let? value := serializeValue (m_value m) in
         Ok (m_key m, m_type m, Some value, expireIn)
  else Throw (JsTypeError "Invalid mutation type").

Definition mutate (ms : list (KvMutation V)) (op : AtomicOperation) : AtomicOperation * jsres unit :=
  for_up 0 (slen ms)
    (fun i '(op, _) =>
       match ms !! Z.to_nat i with
       | Some m =>
           match wire_of m with
           | Throw e => Break (op, Throw e)
           | Ok w => Continue (push_mutation w op, Ok tt)
           end
       | None => Continue (op, Ok tt)
       end) (op, Ok tt).

(** [sum], [min] and [max]: the operand goes through [new KvU64]. *)
Definition arith (type : string) (key : KvKey) (n : bigint_arg) (op : AtomicOperation)
    : AtomicOperation * jsres unit :=
  match (let? u := new_KvU64 n in serializeValue (ValU64 u)) with
  | Throw e => (op, Throw e)
  | Ok raw => (push_mutation (key, type, Some raw, None) op, Ok tt)
  end.
Definition sum := arith "sum".
Definition min := arith "min".
Definition max := arith "max".

Definition set (key : KvKey) (value : kv_value V) (expireIn : option jsnumber) (op : AtomicOperation)
    : AtomicOperation * jsres unit :=
  match serializeValue value with
  | Throw e => (op, Throw e)
  | Ok raw => (push_mutation (key, "set"%string, Some raw, expireIn) op, Ok tt)
  end.

Definition delete (key : KvKey) (op : AtomicOperation) : AtomicOperation :=
  push_mutation (key, "delete"%string, None, None) op.

Definition enqueue (message : V) (opts : enqueue_opts) (op : AtomicOperation)
    : AtomicOperation * jsres unit :=
  match (let? _ := validate_enqueue opts in wire_message message opts) with
  | Throw e => (op, Throw e)
  | Ok w => (mkAtomic (a_rid op) (checks op) (mutations op) (enqueues op ++ [w]), Ok tt)
  end.

(** [commit] hands its own arrays to [doAtomicWriteInPlace]: the mutations of
    the object are rewritten.  The result is [Ok None] for [{ ok: false }]. *)
Definition commit (db : DB) (op : AtomicOperation) : AtomicOperation * DB * jsres (option str) :=
  let '(ms, db, r) := doAtomicWriteInPlace db (a_rid op) (checks op) (mutations op) (enqueues op) in
  (mkAtomic (a_rid op) (checks op) ms (enqueues op), db, r).

Definition then_ : jsres unit :=
  Throw (JsTypeError "`Deno.AtomicOperation` is not a promise. Did you forget to call `commit()`?").

End Atomic.
End Atomic.

(** ** [KvListIterator] *)

(** [#cursorGen]: a constant, or the closure over the last entry's key. *)
Inductive cursor_gen :=
  | GenConst (cursor : str)
  | GenKey (boundaryKey : KvKey).

Record KvListIterator (V : Type) := mkIter {
  selector : KvListSelector;
  entries : option (list (KvEntry V));
  cursorGen : option cursor_gen;
  done : bool;
  lastBatch : bool;
  limit : option Z;
  count : Z;
  reverse : bool;
  batchSize : Z;
  consistency : string;
}.
Arguments mkIter {V} _ _ _ _ _ _ _ _ _ _.
Arguments selector {V} _.
Arguments entries {V} _.
Arguments cursorGen {V} _.
Arguments done {V} _.
Arguments lastBatch {V} _.
Arguments limit {V} _.
Arguments count {V} _.
Arguments reverse {V} _.
Arguments batchSize {V} _.
Arguments consistency {V} _.

Record list_options := mkListOptions {
  l_limit : option Z;
  l_batchSize : option Z;
  l_cursor : option str;
  l_reverse : option bool;
  l_consistency : option string;
}.

Module Iter.
Section Iter.
Context {V DB : Type}.
Context (core_deserialize : list Z -> jsres V).
Context (op_kv_snapshot_read : DB -> Z -> list read_range -> string -> jsres (list (list RawKvEntry))).
Context (op_kv_encode_cursor : option KvKey * option KvKey * option KvKey -> KvKey -> str).
Implicit Types it : KvListIterator V.

(** The selector the constructor keeps, from the one passed. *)
Definition normalize_selector (s : KvListSelector) : jsres KvListSelector :=
  match prefix s with
  | Some p =>
      match start s, sel_end s with
      | Some _, Some _ =>
          Throw (JsTypeError "Selector can not specify both 'start' and 'end' key when specifying 'prefix'.")
      | Some st, None => Ok (mkSelector (Some p) (Some st) None)
      | None, Some e => Ok (mkSelector (Some p) None (Some e))
      | None, None => Ok (mkSelector (Some p) None None)
      end
  | None =>
      match start s, sel_end s with
      | Some st, Some e => Ok (mkSelector None (Some st) (Some e))
      | _, _ =>
          Throw (JsTypeError "Selector must specify either 'prefix' or both 'start' and 'end' key.")
      end
  end.

(** The constructor; an empty cursor counts as none. *)
Definition new (lim : option Z) (sel : KvListSelector) (cur : option str) (rev : bool)
    (cons : string) (batch : Z) : jsres (KvListIterator V) :=
  let? sel := normalize_selector sel in
  Ok (mkIter sel None
        (match cur with Some ((_ :: _) as c) => Some (GenConst c) | _ => None end)
        false false lim 0 rev batch cons).

(** [Kv.list] *)
Definition list_ (sel : KvListSelector) (options : list_options) : jsres (KvListIterator V) :=
  if (match l_limit options with Some l => l <=? 0 | None => false end)
  then Throw (JsError "limit must be positive") else
  let batch := default (default 100 (l_limit options)) (l_batchSize options) in
  if batch <=? 0 then Throw (JsError "batchSize must be positive") else
  let batch := if (match l_batchSize options with None => true | Some _ => false end) && (batch >? 500)
               then 500 else batch in
  new (l_limit options) sel (l_cursor options) (default false (l_reverse options))
    (default "strong"%string (l_consistency options)) batch.

(** [#pullBatch(batchSize)] *)
Definition pullBatch (db : DB) (rid : Z) (batch : Z) (sel : KvListSelector) (cur : option str)
    (rev : bool) (cons : string) : jsres (list (KvEntry V)) :=
  let? ranges := op_kv_snapshot_read db rid
                   [mkRange (prefix sel) (start sel) (sel_end sel) batch rev cur] cons in
  match ranges with
  | es :: _ => map_res (deserializeValue core_deserialize) es
  | [] => Throw (JsTypeError "Cannot read properties of undefined (reading 'map')")
  end.

(** [this.#cursorGen()] *)
Definition run_gen it (g : cursor_gen) : str :=
  match g with
  | GenConst c => c
  | GenKey k =>
      op_kv_encode_cursor (prefix (selector it), start (selector it), sel_end (selector it)) k
  end.

Definition cursor it : jsres str :=
  match cursorGen it with
  | None => Throw (JsError "Cannot get cursor before first iteration")
  | Some g => Ok (run_gen it g)
  end.

Definition set_entries (es : option (list (KvEntry V))) (lb : bool) it : KvListIterator V :=
  mkIter (selector it) es (cursorGen it) (done it) lb (limit it) (count it) (reverse it)
    (batchSize it) (consistency it).

(** What a call of [next] does first: return at once, await a batch with a
    cursor, or go on with the entries at hand. *)
Inductive next_action :=
  | ReturnDone
  | AwaitBatch (cur : option str)
  | TakeEntry.

Definition next_begin it : next_action :=
  if done it || (match limit it with Some l => count it >=? l | None => false end) then ReturnDone
  else if (match entries it with None => true | Some es => slen es =? 0 end) && negb (lastBatch it)
       then AwaitBatch (option_map (run_gen it) (cursorGen it))
       else TakeEntry.

(** The statements after the [await]: [#entries] is the batch reversed. *)
Definition next_store (batch : list (KvEntry V)) it : KvListIterator V :=
  set_entries (Some (rev batch)) (if slen batch <? batchSize it then true else lastBatch it) it.

(** [const entry = this.#entries?.pop()] and the rest; [None] is
    [{ done: true }]. *)
Definition next_take it : KvListIterator V * option (KvEntry V) :=
  let es := default [] (entries it) in
  match es !! Z.to_nat (slen es - 1) with
  | None =>
      (mkIter (selector it) (entries it) (Some (GenConst [])) true (lastBatch it) (limit it)
         (count it) (reverse it) (batchSize it) (consistency it), None)
  | Some entry =>
      (mkIter (selector it) (Some (slice es 0 (slen es - 1))) (Some (GenKey (e_key entry))) (done it)
         (lastBatch it) (limit it) (count it + 1) (reverse it) (batchSize it) (consistency it),
       Some entry)
  end.

(** A call of [next] that nothing interleaves with. *)
Definition next (db : DB) (rid : Z) it : KvListIterator V * jsres (option (KvEntry V)) :=
  match next_begin it with
  | ReturnDone => (it, Ok None)
  | TakeEntry => let '(it, r) := next_take it in (it, Ok r)
  | AwaitBatch cur =>
      match pullBatch db rid (batchSize it) (selector it) cur (reverse it) (consistency it) with
      | Throw e => (it, Throw e)
      | Ok batch => let '(it, r) := next_take (next_store batch it) in (it, Ok r)
      end
  end.

(** [for await (const entry of it)]: the entries until the iterator is done. *)
Fixpoint collect (fuel : nat) (db : DB) (rid : Z) it : option (KvListIterator V * jsres (list (KvEntry V))) :=
  match fuel with
  | O => None
  | S fuel' =>
      match next db rid it with
      | (it, Throw e) => Some (it, Throw e)
      | (it, Ok None) => Some (it, Ok [])
      | (it, Ok (Some entry)) =>
          match collect fuel' db rid it with
          | Some (it, Ok es) => Some (it, Ok (entry :: es))
          | r => r
          end
      end
  end.

End Iter.
End Iter.

(** ** [Kv.listenQueue]

    The loop awaits the next message, decodes it and calls the handler in an
    async function of its own, which finishes the message when the handler has
    ended; the pending finish ops are in the map [finishMessageOps], which the loop
    awaits in the end.  What the ops and the handlers' promises do comes as
    [event]s; a step runs the code from one [await] to the next. *)
Module Listen.

(** What a call of the handler does: return something that is no promise, throw, or
    return a promise. *)
Inductive handler_result :=
  | Returns
  | Throws (e : js_error)
  | Promises.

(** Where [listenQueue] is: awaiting [op_kv_dequeue_next_message], awaiting the
    finish op of a message in the last loop, or settled. *)
Inductive phase :=
  | Waiting
  | Draining (handleId : Z)
  | Returned
  | Rejected (e : js_error).

(** [running]: the messages whose handler's promise is awaited;
    [finishMessageOps]: the keys of the map, in the order of insertion, each with
    a pending promise; [finished]: the calls of [op_kv_finish_dequeued_message];
    [unhandled]: the rejections of the async functions, which nobody awaits. *)
Record state := mkListen {
  loop : phase;
  running : list Z;
  finishMessageOps : list Z;
  finished : list (Z * bool);
  unhandled : list js_error;
}.

Definition init : state := mkListen Waiting [] [] [] [].

Definition set_loop (p : phase) (s : state) : state :=
  mkListen p (running s) (finishMessageOps s) (finished s) (unhandled s).

(** What comes from outside: the outcome of [op_kv_dequeue_next_message] ([None]
    is null), of the promise of a handler, and of a finish op. *)
Inductive event :=
  | Dequeued (r : jsres (option (list Z * Z)))
  | HandlerSettled (handleId : Z) (r : jsres unit)
  | FinishSettled (handleId : Z) (r : jsres unit).

(** The [finally] block up to its [await]; the handle ids of messages differ, so
    that [set] adds the entry at the end of the map. *)
Definition finish (handleId : Z) (success : bool) (s : state) : state :=
  mkListen (loop s) (running s) (finishMessageOps s ++ [handleId]) (finished s ++ [(handleId, success)]) (unhandled s).

(** The last loop: the iterator over the map is live, and the entries before the one
    that is awaited have been deleted. *)
Definition drain (s : state) : state :=
  match finishMessageOps s with
  | [] => set_loop Returned s
  | handleId :: _ => set_loop (Draining handleId) s
  end.

Section Listen.
Context {V : Type} (core_deserialize : list Z -> jsres V).
(** The user's handler, which may do something else for each message. *)
Context (handler : Z -> V -> handler_result).

(** The async function up to its first [await]. *)
Definition dispatch (handleId : Z) (message : V) (s : state) : state :=
  match handler handleId message with
  | Returns => finish handleId true s
  | Throws _ => finish handleId false s
  | Promises => mkListen (loop s) (running s ++ [handleId]) (finishMessageOps s) (finished s) (unhandled s)
  end.

(** The body of the loop after the [await]. *)
Definition receive (r : jsres (option (list Z * Z))) (s : state) : state :=
  match r with
  | Throw e => set_loop (Rejected e) s
  | Ok None => drain s
  | Ok (Some (payload, handleId)) =>
      match core_deserialize payload with
      | Throw e => set_loop (Rejected e) s
      | Ok message => dispatch handleId message s
      end
  end.

(** The promise of a handler settles. *)
Definition handler_settled (handleId : Z) (r : jsres unit) (s : state) : state :=
  finish handleId (match r with Ok _ => true | Throw _ => false end)
    (mkListen (loop s) (filter (fun h => h <> handleId) (running s)) (finishMessageOps s) (finished s) (unhandled s)).

(** A finish op settles: the async function deletes the entry and ends, and then
    the last loop goes on if it awaits this one. *)
Definition finish_settled (handleId : Z) (r : jsres unit) (s : state) : state :=
  let s := mkListen (loop s) (running s) (filter (fun h => h <> handleId) (finishMessageOps s)) (finished s)
             (match r with Ok _ => unhandled s | Throw e => unhandled s ++ [e] end) in
  match loop s with
  | Draining h =>
      if bool_decide (h = handleId)
      then match r with Ok _ => drain s | Throw e => set_loop (Rejected e) s end
      else s
  | _ => s
  end.

(** One event; [None] when nothing waits for it. *)
Definition step (s : state) (ev : event) : option state :=
  match ev with
  | Dequeued r => match loop s with Waiting => Some (receive r s) | _ => None end
  | HandlerSettled h r => if bool_decide (h ∈ running s) then Some (handler_settled h r s) else None
  | FinishSettled h r => if bool_decide (h ∈ finishMessageOps s) then Some (finish_settled h r s) else None
  end.

Definition run (evs : list event) : option state := foldl (fun o ev => s ← o; step s ev) (Some init) evs.

End Listen.
End Listen.

(** ** [Kv.watch] *)

(** An element of what [op_kv_watch_next] resolves to. *)
Inductive watch_update :=
  | Unchanged
  | UpdNull
  | UpdEntry (e : RawKvEntry).

Module Watch.
Section Watch.
Context {V : Type} (core_deserialize : list Z -> jsres V).

(** [lastEntries[i]]: an entry as the op gave it, or the entry without value
    for a key. *)
Inductive last_entry :=
  | LastRaw (e : RawKvEntry)
  | LastNull (key : KvKey).

Definition last_versionstamp (l : last_entry) : option str :=
  match l with LastRaw e => Some (raw_versionstamp e) | LastNull _ => None end.

(** [updates[i]?.versionstamp ?? null] *)
Definition update_versionstamp (u : option watch_update) : option str :=
  match u with Some (UpdEntry e) => Some (raw_versionstamp e) | _ => None end.

(** The [for] loop: [lastEntries] and [changed] after it, or the exception. *)
Definition apply_updates (keys : list KvKey) (updates : list watch_update)
    (lastEntries : list (option last_entry)) : list (option last_entry) * jsres bool :=
  for_up 0 (slen keys)
    (fun i '(ls, r) =>
       let changed := match r with Ok c => c | Throw _ => false end in
       let last := mjoin (ls !! Z.to_nat i) in
       let u := updates !! Z.to_nat i in
       match u, last with
       | Some Unchanged, None =>
           Break (ls, Throw (JsError "watch: invalid unchanged update (internal error)"))
       | Some Unchanged, Some _ => Continue (ls, Ok changed)
       | _, _ =>
           if (match last with
               | Some l => bool_decide (update_versionstamp u = last_versionstamp l)
               | None => false
               end)
           then Continue (ls, Ok changed)
           else
             let l := match u with
                      | Some (UpdEntry e) => Some (LastRaw e)
                      | Some UpdNull => Some (LastNull (default [] (keys !! Z.to_nat i)))
                      | _ => None
                      end in
             Continue (<[Z.to_nat i := l]> ls, Ok true)
       end)
    (lastEntries, Ok false).

(** The entries handed to the stream. *)
Definition emit_entry (l : option last_entry) : jsres (KvEntry V) :=
  match l with
  | None => Throw (JsTypeError "Cannot read properties of undefined (reading 'versionstamp')")
  | Some (LastNull key) => Ok (mkEntry key None None)
  | Some (LastRaw e) => deserializeValue core_deserialize e
  end.

(** How a [pull] ends: the stream errors, closes, or gets a chunk; the body may
    also throw. *)
Inductive pull_result :=
  | PullError (e : js_error)
  | PullClose
  | PullEnqueue (entries : list (KvEntry V))
  | PullThrow (e : js_error).

(** [pull(controller)] on the results of [op_kv_watch_next], of which it takes
    as many as it needs: [lastEntries] after it, the results left, and how it
    ended ([None]: it still waits for the op). *)
Fixpoint pull (keys : list KvKey) (raw : bool) (results : list (jsres (option (list watch_update))))
    (lastEntries : list (option last_entry))
    : list (option last_entry) * list (jsres (option (list watch_update))) * option pull_result :=
  match results with
  | [] => (lastEntries, [], None)
  | Throw e :: rest => (lastEntries, rest, Some (PullError e))
  | Ok None :: rest => (lastEntries, rest, Some PullClose)
  | Ok (Some updates) :: rest =>
      match apply_updates keys updates lastEntries with
      | (ls, Throw e) => (ls, rest, Some (PullThrow e))
      | (ls, Ok changed) =>
          if negb changed && negb raw then pull keys raw rest ls
          else match map_res emit_entry ls with
               | Throw e => (ls, rest, Some (PullThrow e))
               | Ok es => (ls, rest, Some (PullEnqueue es))
               end
      end
  end.

(** [ArrayFrom({ length: keys.length })] *)
Definition initial (keys : list KvKey) : list (option last_entry) := replicate (length keys) None.

End Watch.
End Watch.

(** [close] marks the handle closed; [core.close] closes the resource. *)
Definition close (kv : Kv) : Kv := mkKv (rid kv) true.

(** [listenQueue] first checks whether the handle is closed. *)
Definition listenQueue_start (kv : Kv) : jsres Listen.state :=
  if isClosed kv then Throw (JsError "already closed") else Ok Listen.init.
