(* ===== verification/KvList.v ===== *)
(** * The list iterator of Deno.Kv

    What [Kv.list] promises: the entries of the selected range, each once and
    in order, up to the limit, whatever batch size the read op accepts; and that
    the cursor of an iteration that stopped resumes it.  The op
    ([op_kv_snapshot_read] of [src/ext/kv/lib.rs]) is modelled with its limits; the
    coding of selectors and cursors and the database are parameters, whose laws
    are the documented ones: the first entries of the range, or the first ones
    after the boundary key of a cursor. *)

From Stdlib Require Import ZArith Lia.
From stdpp Require Import base list strings numbers option.
From S2P Require Import Prelude Kv.

#[local] Open Scope Z_scope.

(** ** Batches *)

Lemma map_res_Forall2 {A B} (f : A -> jsres B) l l' :
  Forall2 (fun x y => f x = Ok y) l l' -> map_res f l = Ok l'.
Proof. induction 1 as [|x y l l' Hx _ IH]; simpl; [done|]. by rewrite Hx, IH. Qed.

Lemma deserialize_key {V} (f : list Z -> jsres V) r e : deserializeValue f r = Ok e -> e_key e = raw_key r.
Proof.
  unfold deserializeValue. destruct (raw_value r); [| | |done].
  - intros (v & _ & [= <-])%jsbind_Ok. done.
  - by intros [= <-].
  - intros (v & _ & [= <-])%jsbind_Ok. done.
Qed.

(** ** The read op *)

Definition MAX_READ_RANGES : Z := 10.
Definition MAX_READ_ENTRIES : Z := 1000.

Section Op.
Context {DB : Type}.
(** The keys that a selector and a cursor stand for, their sizes checked. *)
Context (decode_range : read_range -> jsres (list Z * list Z)).
(** The [snapshot_read] of the database: ranges of keys, each with its limit and
    direction. *)
Context (snapshot_read : DB -> Z -> list (list Z * list Z * Z * bool) -> string -> jsres (list (list RawKvEntry))).

Definition decode_read_range (r : read_range) : jsres (list Z * list Z * Z * bool) :=
  let? keys := decode_range r in
  if r_limit r =? 0 then Throw (JsError "limit must be greater than 0") else Ok (keys, r_limit r, r_reverse r).

Definition op_kv_snapshot_read (db : DB) (rid : Z) (ranges : list read_range) (consistency : string)
    : jsres (list (list RawKvEntry)) :=
  if slen ranges >? MAX_READ_RANGES then Throw (JsTypeError "too many ranges (max 10)") else
  let? read_ranges := map_res decode_read_range ranges in
  let total_entries := foldr Z.add 0 (r_limit <$> ranges) in
  if total_entries >? MAX_READ_ENTRIES then Throw (JsTypeError "too many entries (max 1000)")
  else snapshot_read db rid read_ranges consistency.
End Op.

(** [reads_range]: the database [db] holds, for the selector [sel], the entries
    [all] in the order of the iteration: its snapshot read gives the first of them,
    or with the cursor of an entry the first behind it. *)
Record reads_range {DB} (decode_range : read_range -> jsres (list Z * list Z))
    (snapshot_read : DB -> Z -> list (list Z * list Z * Z * bool) -> string -> jsres (list (list RawKvEntry)))
    (encode : option KvKey * option KvKey * option KvKey -> KvKey -> str)
    (db : DB) (rid : Z) (sel : KvListSelector) (rev : bool) (all : list RawKvEntry) : Prop := {
  rr_first : exists keys, forall n cons, 0 < n ->
    decode_range (mkRange (prefix sel) (start sel) (sel_end sel) n rev None) = Ok keys /\
    snapshot_read db rid [(keys, n, rev)] cons = Ok [take (Z.to_nat n) all];
  rr_after : forall a e b, all = a ++ e :: b -> exists keys, forall n cons, 0 < n ->
    decode_range (mkRange (prefix sel) (start sel) (sel_end sel) n rev
      (Some (encode (prefix sel, start sel, sel_end sel) (raw_key e)))) = Ok keys /\
    snapshot_read db rid [(keys, n, rev)] cons = Ok [take (Z.to_nat n) b];
}.

(** What the op then gives for a batch of as many entries as it allows. *)
Record reads_batches {DB} (read : DB -> Z -> list read_range -> string -> jsres (list (list RawKvEntry)))
    (encode : option KvKey * option KvKey * option KvKey -> KvKey -> str)
    (db : DB) (rid : Z) (sel : KvListSelector) (rev : bool) (all : list RawKvEntry) : Prop := {
  rb_first : forall n cons, 0 < n <= MAX_READ_ENTRIES ->
    read db rid [mkRange (prefix sel) (start sel) (sel_end sel) n rev None] cons =
      Ok [take (Z.to_nat n) all];
  rb_after : forall n cons a e b, 0 < n <= MAX_READ_ENTRIES -> all = a ++ e :: b ->
    read db rid [mkRange (prefix sel) (start sel) (sel_end sel) n rev
      (Some (encode (prefix sel, start sel, sel_end sel) (raw_key e)))] cons =
      Ok [take (Z.to_nat n) b];
}.

(** The op on one range. *)
Lemma op_one {DB} decode_range snapshot_read (db : DB) rid r keys cons :
  decode_range r = Ok keys -> 0 < r_limit r ->
  op_kv_snapshot_read decode_range snapshot_read db rid [r] cons =
  if r_limit r >? MAX_READ_ENTRIES then Throw (JsTypeError "too many entries (max 1000)")
  else snapshot_read db rid [(keys, r_limit r, r_reverse r)] cons.
Proof.
  intros Hd Hn. unfold op_kv_snapshot_read, decode_read_range. csimpl. rewrite Hd. simpl.
  rewrite (proj2 (Z.eqb_neq _ 0)), Z.add_0_r by lia. done.
Qed.

Lemma range_batches {DB} decode_range snapshot_read encode (db : DB) rid sel rev all :
  reads_range decode_range snapshot_read encode db rid sel rev all ->
  reads_batches (op_kv_snapshot_read decode_range snapshot_read) encode db rid sel rev all.
Proof.
  intros [(keys & H1) H2]. split.
  - intros n cons Hn. destruct (H1 n cons ltac:(lia)) as [Hd Hr]. rewrite (op_one _ _ _ _ _ keys) by (done || (simpl; lia)).
    simpl. destruct (Z.gtb_spec n MAX_READ_ENTRIES); [lia|done].
  - intros n cons a e b Hn E. destruct (H2 a e b E) as (keys' & H3). destruct (H3 n cons ltac:(lia)) as [Hd Hr].
    rewrite (op_one _ _ _ _ _ keys') by (done || (simpl; lia)). simpl. destruct (Z.gtb_spec n MAX_READ_ENTRIES); [lia|done].
Qed.

(** The iterator [Kv.list] returns. *)
Lemma list_inv {V} sel o (it : KvListIterator V) :
  Iter.list_ sel o = Ok it ->
  exists s b, Iter.normalize_selector sel = Ok s /\ 0 < b /\
    (match l_batchSize o with Some n => b = n | None => b <= 500 end) /\
    it = mkIter s None (match l_cursor o with Some ((_ :: _) as c) => Some (GenConst c) | _ => None end)
           false false (l_limit o) 0 (default false (l_reverse o)) b (default "strong"%string (l_consistency o)).
Proof.
  unfold Iter.list_, Iter.new. intros H.
  destruct (match l_limit o with Some l => l <=? 0 | None => false end); [done|].
  destruct (Z.leb_spec (default (default 100 (l_limit o)) (l_batchSize o)) 0); [done|].
  apply jsbind_Ok in H as (s & Hs & [= <-]). eexists s, _. split_and!; [done| | |done].
  - case_bool; lia.
  - destruct (l_batchSize o); [done|]. simpl. destruct (Z.gtb_spec (default 100 (l_limit o)) 500); lia.
Qed.

Section List.
Context {V DB : Type} (core_deserialize : list Z -> jsres V).
Context (read : DB -> Z -> list read_range -> string -> jsres (list (list RawKvEntry))).
Context (encode : option KvKey * option KvKey * option KvKey -> KvKey -> str).
Context (db : DB) (rid : Z) (sel : KvListSelector) (rv : bool).
Context (all : list RawKvEntry) (ents : list (KvEntry V)).
Context (Hread : reads_batches read encode db rid sel rv all).
Context (Hents : Forall2 (fun r e => deserializeValue core_deserialize r = Ok e) all ents).
Implicit Types it : KvListIterator V.

(** The cursor before the entry number [p]. *)
Definition cursor_at (p : nat) (c : option str) : Prop :=
  match p with
  | O => c = None
  | S q => exists e, ents !! q = Some e /\ c = Some (encode (prefix sel, start sel, sel_end sel) (e_key e))
  end.

(** [at_pos p it]: the iterator will next return the entry number [p]. *)
Record at_pos (p : nat) it : Prop := {
  ap_selector : selector it = sel;
  ap_reverse : reverse it = rv;
  ap_batch : 0 < batchSize it <= MAX_READ_ENTRIES;
  ap_done : done it = false;
  ap_cursor : cursor_at p (option_map (Iter.run_gen encode it) (cursorGen it));
  ap_entries : exists buf, default [] (entries it) = rev buf /\
    buf = take (length buf) (drop p ents) /\ (lastBatch it = true -> buf = drop p ents);
}.

Lemma pull_spec p n cons c :
  0 < n <= MAX_READ_ENTRIES -> cursor_at p c ->
  Iter.pullBatch core_deserialize read db rid n sel c rv cons = Ok (take (Z.to_nat n) (drop p ents)).
Proof.
  intros Hn Hc. unfold Iter.pullBatch.
  assert (Hr : exists rest, read db rid [mkRange (prefix sel) (start sel) (sel_end sel) n rv c] cons =
                 Ok [take (Z.to_nat n) rest] /\
               Forall2 (fun r e => deserializeValue core_deserialize r = Ok e) rest (drop p ents)).
  { destruct p as [|q]; simpl in Hc.
    - subst c. exists all. rewrite (rb_first _ _ _ _ _ _ _ Hread) by done. done.
    - destruct Hc as (e & He & ->).
      destruct (Forall2_lookup_r _ _ _ _ _ Hents He) as (r & Hr & Hde).
      rewrite (deserialize_key _ _ _ Hde). exists (drop (S q) all). split.
      + eapply (rb_after _ _ _ _ _ _ _ Hread); [done|]. by rewrite take_drop_middle.
      + by apply Forall2_drop. }
  destruct Hr as (rest & -> & HF). simpl. apply map_res_Forall2. by apply Forall2_take.
Qed.

(** The last part of [next], when the entry is at hand or there is none left. *)
Lemma take_spec p it :
  at_pos p it -> (default [] (entries it) = [] -> drop p ents = []) ->
  exists it', Iter.next_take it = (it', ents !! p) /\
    limit it' = limit it /\
    match ents !! p with
    | Some _ => at_pos (S p) it' /\ count it' = count it + 1
    | None => count it' = count it
    end.
Proof.
  intros A Hempty. destruct A as [As Ar Ab Ad Ac (buf & Eb & Hbuf & Hlast)].
  unfold Iter.next_take. rewrite Eb in *.
  assert (Hlook : ents !! p = drop p ents !! 0%nat) by (rewrite lookup_drop; f_equal; lia).
  destruct buf as [|e buf].
  - rewrite Hlook, Hempty by done. simpl. by eexists.
  - cbn [rev]. rewrite slen_app. change (slen [e]) with 1.
    assert (Hat : (rev buf ++ [e]) !! Z.to_nat (slen (rev buf) + 1 - 1) = Some e).
    { apply list_lookup_middle. unfold slen. lia. }
    rewrite Hat. replace (slice _ _ _) with (rev buf) by (symmetry; apply slice_prefix; lia).
    simpl in Hbuf. destruct (drop p ents) as [|x l] eqn:Ed; [done|].
    injection Hbuf as <- Hbuf. rewrite Hlook. simpl. eexists. split; [done|]. split; [done|].
    split; [|done].
    assert (Ed' : drop (S p) ents = l) by (rewrite <-Nat.add_1_r, <-drop_drop, Ed; done).
    constructor; try done; simpl.
    + exists e. by rewrite Hlook, <-As.
    + exists buf. rewrite Ed'. split_and!; [done|done|]. intros H. specialize (Hlast H). by simplify_eq.
Qed.

(** Whether the limit is reached. *)
Definition limited it : bool :=
  match limit it with Some l => count it >=? l | None => false end.

Lemma next_spec p it :
  at_pos p it -> limited it = false ->
  exists it', Iter.next core_deserialize read encode db rid it = (it', Ok (ents !! p)) /\
    limit it' = limit it /\
    match ents !! p with
    | Some _ => at_pos (S p) it' /\ count it' = count it + 1
    | None => count it' = count it
    end.
Proof.
  intros A Hl. unfold Iter.next, Iter.next_begin. fold (limited it). rewrite Hl, (ap_done _ _ A). simpl.
  destruct (_ && negb (lastBatch it)) eqn:Epull.
  - apply andb_true_iff in Epull as [_ Hlb%negb_true_iff].
    pose proof A as A'. destruct A as [As Ar Ab Ad Ac _]. rewrite As, Ar.
    rewrite (pull_spec p _ _ _ Ab Ac). set (batch := take _ _).
    destruct (take_spec p (Iter.next_store batch it)) as (it' & E & Hlim & Hp).
    + constructor; try done. simpl. exists batch. split_and!; [done| |].
      * subst batch. by rewrite length_take, <-take_take, firstn_all.
      * rewrite Hlb. destruct (Z.ltb_spec (slen batch) (batchSize it)) as [Hlt|]; [intros _|done].
        subst batch. apply take_ge. unfold slen in Hlt. rewrite length_take in Hlt. lia.
    + simpl. intros Hr. assert (Hb : batch = []) by by rewrite <-(rev_involutive batch), Hr.
      subst batch. apply (f_equal length) in Hb. rewrite length_take in Hb. simpl in Hb.
      apply nil_length_inv. lia.
    + rewrite E. by exists it'.
  - destruct (take_spec p it A) as (it' & E & Hlim & Hp).
    + intros He. destruct (ap_entries _ _ A) as (buf & Eb & Hbuf & Hlast).
      assert (Hnil : buf = []) by (rewrite <-(rev_involutive buf), <-Eb, He; done).
      apply andb_false_iff in Epull as [Ex|Ex%negb_false_iff].
      * destruct (entries it) as [es|]; [|done]. simpl in He. by subst es.
      * by rewrite <-(Hlast Ex).
    + rewrite E. by exists it'.
Qed.

(** How many entries are still to come. *)
Definition remaining (p : nat) it : list (KvEntry V) :=
  match limit it with
  | Some l => take (Z.to_nat (l - count it)) (drop p ents)
  | None => drop p ents
  end.

Lemma collect_spec fuel p it :
  at_pos p it -> (length (remaining p it) < fuel)%nat ->
  exists it', Iter.collect core_deserialize read encode fuel db rid it = Some (it', Ok (remaining p it)) /\
    limit it' = limit it /\ count it' = count it + slen (remaining p it) /\
    (limited it' = true -> at_pos (p + length (remaining p it)) it').
Proof.
  revert p it. induction fuel as [|fuel IH]; intros p it A Hf; [lia|]. simpl.
  destruct (limited it) eqn:El.
  - assert (remaining p it = []) as Hr.
    { unfold limited, remaining in *. destruct (limit it) as [l|]; [|done].
      apply Z.geb_le in El. by replace (Z.to_nat (l - count it)) with O by lia. }
    assert (Iter.next core_deserialize read encode db rid it = (it, Ok None)) as ->.
    { unfold Iter.next, Iter.next_begin. fold (limited it). by rewrite El, orb_true_r. }
    exists it. rewrite Hr. change (slen (@nil (KvEntry V))) with 0.
    split_and!; [done|done|lia|]. simpl. by rewrite Nat.add_0_r.
  - destruct (next_spec p it A El) as (it1 & -> & Hlim & Hp).
    destruct (ents !! p) as [e|] eqn:Ep.
    + destruct Hp as [A1 Hcount]. pose proof (drop_S _ _ _ Ep) as Ed.
      assert (Hrem : remaining p it = e :: remaining (S p) it1).
      { unfold limited, remaining in *. rewrite Hlim, Hcount, Ed. destruct (limit it) as [l|]; [|done].
        destruct (Z.geb_spec (count it) l); [done|].
        replace (Z.to_nat (l - count it)) with (S (Z.to_nat (l - (count it + 1)))) by lia. done. }
      rewrite Hrem in Hf |- *. simpl in Hf.
      destruct (IH (S p) it1 A1 ltac:(lia)) as (it2 & -> & Hlim2 & Hc2 & Hend). exists it2.
      rewrite slen_cons. split_and!; [done|congruence|lia|].
      intros Hl. specialize (Hend Hl). simpl. by rewrite Nat.add_succ_r.
    + assert (Hd : drop p ents = []) by (apply drop_ge; by apply lookup_ge_None).
      assert (Hr : remaining p it = []).
      { unfold remaining. rewrite Hd. destruct (limit it); [apply take_nil|done]. }
      exists it1. rewrite Hr. change (slen (@nil (KvEntry V))) with 0.
      split_and!; [done|done|lia|]. unfold limited in *. by rewrite Hlim, Hp, El.
Qed.

(** What [Kv.list] makes of its options. *)
Lemma list_at_pos p sel0 options it :
  Iter.list_ sel0 options = Ok it -> selector it = sel -> reverse it = rv -> batchSize it <= MAX_READ_ENTRIES ->
  cursor_at p (match l_cursor options with Some [] => None | c => c end) ->
  at_pos p it /\ limit it = l_limit options /\ count it = 0.
Proof.
  intros (s & b & _ & Hb & _ & ->)%list_inv Hsel Hrv Hmax Hc. simpl in *. split; [|done].
  constructor; simpl; try done.
  - by destruct (l_cursor options) as [[|x c]|].
  - exists []. by split_and!.
Qed.

End List.

(** ** Claims *)

(** The batch size that a caller asks for is too large. *)
Definition batch_too_large (options : list_options) : bool :=
  match l_batchSize options with Some n => n >? MAX_READ_ENTRIES | None => false end.

Lemma batch_fits {V} sel options (it : KvListIterator V) :
  Iter.list_ sel options = Ok it -> (batchSize it >? MAX_READ_ENTRIES) = batch_too_large options.
Proof.
  intros (s & b & _ & _ & Hb & ->)%list_inv. unfold batch_too_large. simpl.
  destruct (l_batchSize options); [by subst|]. destruct (Z.gtb_spec b MAX_READ_ENTRIES); [unfold MAX_READ_ENTRIES in *; lia|done].
Qed.



(** An iteration that stopped at its limit can be resumed: its cursor,
    passed to a new [Kv.list] on the same range, yields exactly the remaining
    entries. *)
Lemma list_resumes {V DB} (core_deserialize : list Z -> jsres V) decode_range snapshot_read encode (db : DB) rid
    sel options it l all ents fuel :
  Iter.list_ sel options = Ok it -> l_cursor options = None -> l_limit options = Some l ->
  (Z.to_nat l <= length ents)%nat -> (length ents < fuel)%nat ->
  reads_range decode_range snapshot_read encode db rid (selector it) (reverse it) all ->
  Forall2 (fun r e => deserializeValue core_deserialize r = Ok e) all ents ->
  (forall s k, encode s k <> []) -> batch_too_large options = false ->
  exists it' c, Iter.collect core_deserialize (op_kv_snapshot_read decode_range snapshot_read) encode fuel db rid it = Some (it', Ok (take (Z.to_nat l) ents)) /\
    Iter.cursor encode it' = Ok c /\
    forall it2 batch cons,
      Iter.list_ sel (mkListOptions None batch (Some c) (Some (reverse it)) cons) = Ok it2 -> default 0 batch <= MAX_READ_ENTRIES ->
      exists it3, Iter.collect core_deserialize (op_kv_snapshot_read decode_range snapshot_read) encode fuel db rid it2 =
        Some (it3, Ok (drop (Z.to_nat l) ents)).
Proof.
  intros H Hc Hl Hle Hf Hread%range_batches Hents Henc Hbatch. rewrite <-(batch_fits _ _ _ H) in Hbatch.
  assert (Hb1 : batchSize it <= MAX_READ_ENTRIES) by (destruct (Z.gtb_spec (batchSize it) MAX_READ_ENTRIES); [done|lia]).
  assert (Hpos : 0 < l).
  { unfold Iter.list_ in H. rewrite Hl in H. destruct (Z.leb_spec l 0); [done|lia]. }
  destruct (list_at_pos encode (selector it) (reverse it) ents 0 sel options it H eq_refl eq_refl Hb1) as (A & Hl' & Hn);
    [by rewrite Hc|].
  assert (Hrem : remaining ents 0 it = take (Z.to_nat l) ents).
  { unfold remaining. by rewrite Hl', Hl, Hn, Z.sub_0_r. }
  destruct (collect_spec core_deserialize _ encode db rid _ _ all ents Hread Hents fuel 0 it A)
    as (it' & E & Hlim & Hcount & Hend); [rewrite Hrem, length_take; lia|].
  rewrite Hrem in *. rewrite length_take, Nat.min_l in Hend by lia. simpl in Hend.
  assert (A' : at_pos encode (selector it) (reverse it) ents (Z.to_nat l) it').
  { apply Hend. unfold limited. rewrite Hlim, Hl', Hl, Hcount, Hn. apply Z.geb_le.
    unfold slen. rewrite length_take. lia. }
  pose proof (ap_cursor _ _ _ _ _ _ A') as Hcur.
  destruct (Z.to_nat l) as [|q] eqn:Eq; [lia|]. rewrite <-Eq in *.
  assert (Hq : exists c, option_map (Iter.run_gen encode it') (cursorGen it') = Some c /\ c <> []).
  { rewrite Eq in Hcur. destruct Hcur as (e & _ & ->). eauto. }
  destruct Hq as (c & Ec & Hne). exists it', c. split; [done|]. split.
  { unfold Iter.cursor. destruct (cursorGen it') as [g|]; [|done]. by injection Ec as ->. }
  intros it2 batch cons H2 Hb2. rewrite Ec in Hcur.
  assert (Hb2' : batchSize it2 <= MAX_READ_ENTRIES).
  { apply list_inv in H2 as (s2 & b2 & _ & _ & Hb & ->). simpl in *. unfold MAX_READ_ENTRIES in *. destruct batch; simpl in *; lia. }
  assert (Hs2 : selector it2 = selector it /\ reverse it2 = reverse it).
  { apply list_inv in H as (s1 & b1 & Hs1 & _ & _ & ->), H2 as (s2 & b2 & Hs2 & _ & _ & ->).
    simpl. split; congruence. }
  destruct Hs2 as [Hs2 Hr2].
  destruct (list_at_pos encode (selector it) (reverse it) ents (Z.to_nat l) _ _ _ H2 Hs2 Hr2 Hb2')
    as (A2 & Hl2 & Hn2); [by destruct c|].
  destruct (collect_spec core_deserialize _ encode db rid _ _ all ents Hread Hents fuel _ it2 A2)
    as (it3 & E3 & _).
  - unfold remaining. rewrite Hl2. simpl. rewrite length_drop. lia.
  - exists it3. rewrite E3. unfold remaining. by rewrite Hl2.
Qed.

(** A database of three entries, its read op and its cursors. *)
Module Demo.

Definition entry (n : Z) : RawKvEntry := mkRaw [KBigInt n] (Raw_v8 [n]) [n].
Definition db : list RawKvEntry := entry <$> [1; 2; 3].

Definition encode (s : option KvKey * option KvKey * option KvKey) (k : KvKey) : str :=
  match k with [KBigInt n] => [n + 1] | _ => [0] end.

Fixpoint after (c : str) (l : list RawKvEntry) : list RawKvEntry :=
  match l with
  | [] => []
  | e :: l' => if str_eqb (encode (None, None, None) (raw_key e)) c then l' else after c l'
  end.

(** A range is sent to the database as the cursor, if any. *)
Definition decode_range (r : read_range) : jsres (list Z * list Z) := Ok (default [] (r_cursor r), []).

Definition snapshot_read (d : list RawKvEntry) (rid : Z) (ranges : list (list Z * list Z * Z * bool)) (cons : string)
    : jsres (list (list RawKvEntry)) :=
  Ok (map (fun (q : list Z * list Z * Z * bool) => let '(keys, n, reverse) := q in
    let l := if reverse then rev d else d in
    take (Z.to_nat n) (match keys.1 with [] => l | c => after c l end)) ranges).

Definition read := op_kv_snapshot_read decode_range snapshot_read.

Definition deserialize (bytes : list Z) : jsres Z :=
  match bytes with b :: _ => Ok b | [] => Throw (JsError "no data") end.

Definition sel : KvListSelector := mkSelector (Some []) None None.

Definition options (lim : option Z) : list_options := mkListOptions lim (Some 2) None (Some true) None.

Definition iter (lim : option Z) : KvListIterator Z :=
  mkIter sel None None false false lim 0 true 2 "strong"%string.

Definition value (n : Z) : KvEntry Z := mkEntry [KBigInt n] (Some (ValOther n)) (Some [n]).

Lemma reads : reads_range decode_range snapshot_read encode db 0 sel true (rev db).
Proof.
  constructor; [by exists ([], [])|].
  intros a e b E. unfold db in E. cbn in E.
  exists (encode (prefix sel, start sel, sel_end sel) (raw_key e), []). intros n cons Hn. split; [reflexivity|].
  destruct a as [|a1 [|a2 [|a3 [|a4 a]]]]; simplify_eq/=; reflexivity.
Qed.

Lemma values : Forall2 (fun r e => deserializeValue deserialize r = Ok e) (rev db) (value <$> [3; 2; 1]).
Proof. repeat constructor. Qed.

End Demo.


Lemma list_resumes_witness :
  exists it' c, Iter.collect Demo.deserialize Demo.read Demo.encode 4 Demo.db 0 (Demo.iter (Some 1)) =
      Some (it', Ok (take 1 (Demo.value <$> [3; 2; 1]))) /\
    Iter.cursor Demo.encode it' = Ok c /\
    forall it2 batch cons,
      Iter.list_ Demo.sel (mkListOptions None batch (Some c) (Some true) cons) = Ok it2 -> default 0 batch <= MAX_READ_ENTRIES ->
      exists it3, Iter.collect Demo.deserialize Demo.read Demo.encode 4 Demo.db 0 it2 =
        Some (it3, Ok (drop 1 (Demo.value <$> [3; 2; 1]))).
Proof.
  apply (list_resumes Demo.deserialize Demo.decode_range Demo.snapshot_read Demo.encode Demo.db 0 Demo.sel (Demo.options (Some 1))
           (Demo.iter (Some 1)) 1 (rev Demo.db) (Demo.value <$> [3; 2; 1]) 4%nat).
  - reflexivity.
  - reflexivity.
  - reflexivity.
  - cbv. lia.
  - cbv. lia.
  - exact Demo.reads.
  - exact Demo.values.
  - intros s k. unfold Demo.encode. by repeat case_match.
  - reflexivity.
Defined.

(** Calls of [next] that overlap repeat entries: when a second call starts
    while the first awaits its batch, both read the same batch and both return
    its first entry. *)
Lemma overlapping_next_repeats {V} encode (it : KvListIterator V) cur e batch :
  Iter.next_begin encode it = Iter.AwaitBatch cur ->
  let '(it1, r1) := Iter.next_take (Iter.next_store (e :: batch) it) in
  let '(it2, r2) := Iter.next_take (Iter.next_store (e :: batch) it1) in
  r1 = Some e /\ r2 = Some e /\ count it2 = count it + 2.
Proof.
  intros _.
  assert (Hpop : forall it0 : KvListIterator V,
    exists it1, Iter.next_take (Iter.next_store (e :: batch) it0) = (it1, Some e) /\ count it1 = count it0 + 1).
  { intros it0. unfold Iter.next_take. simpl. rewrite slen_app. change (slen [e]) with 1.
    rewrite list_lookup_middle by (unfold slen; lia). by eexists. }
  destruct (Hpop it) as (it1 & -> & Hc1). destruct (Hpop it1) as (it2 & -> & Hc2).
  split_and!; [done|done|lia].
Qed.

Lemma overlapping_next_repeats_witness :
  let '(it1, r1) := Iter.next_take (Iter.next_store (Demo.value <$> [3; 2]) (Demo.iter None)) in
  let '(it2, r2) := Iter.next_take (Iter.next_store (Demo.value <$> [3; 2]) it1) in
  r1 = Some (Demo.value 3) /\ r2 = Some (Demo.value 3) /\ count it2 = 2.
Proof. apply (overlapping_next_repeats Demo.encode (Demo.iter None) None). reflexivity. Defined.

(** When the range is exhausted the cursor is the empty string, and passing
    it to [Kv.list] starts again from the beginning of the range. *)
Lemma exhausted_cursor_restarts {V DB} (core_deserialize : list Z -> jsres V) read encode (db : DB) rid it it' :
  Iter.next core_deserialize read encode db rid it = (it', Ok None) -> done it = false -> limited it = false ->
  Iter.cursor encode it' = Ok [] /\
  forall sel lim batch rev cons,
    Iter.list_ (V := V) sel (mkListOptions lim batch (Some []) rev cons) =
    Iter.list_ sel (mkListOptions lim batch None rev cons).
Proof.
  intros H Hd Hl. split; [|done].
  assert (Hend : forall it0 : KvListIterator V, Iter.next_take it0 = (it', None) -> Iter.cursor encode it' = Ok []).
  { intros it0. unfold Iter.next_take. case_match; [done|]. by intros [= <-]. }
  unfold Iter.next, Iter.next_begin in H. fold (limited it) in H. rewrite Hd, Hl in H. simpl in H.
  destruct (_ && _).
  - destruct (Iter.pullBatch _ _ _ _ _ _ _ _ _) as [batch|e]; [|done].
    destruct (Iter.next_take _) as [it1 r] eqn:E. injection H as -> ->. by eapply Hend.
  - destruct (Iter.next_take it) as [it1 r] eqn:E. injection H as -> ->. by eapply Hend.
Qed.

Lemma exhausted_cursor_restarts_witness :
  exists it', Iter.next Demo.deserialize Demo.read Demo.encode [] 0 (Demo.iter None) = (it', Ok None) /\
    Iter.cursor Demo.encode it' = Ok [].
Proof.
  eexists. split; [reflexivity|].
  apply (exhausted_cursor_restarts Demo.deserialize Demo.read Demo.encode [] 0 (Demo.iter None)); reflexivity.
Defined.
