(* ===== verification/KvTheorems.v ===== *)
(** * Theorems on Deno.Kv: values, writes, queues and watches *)

From Stdlib Require Import ZArith Lia QArith.
From stdpp Require Import base strings numbers option relations list.
From S2P Require Import Prelude Kv.

#[local] Open Scope Z_scope.

(** ** Values *)

(** The range of an unsigned 64-bit integer. *)
Definition u64 (n : Z) : Prop := 0 <= n < 2 ^ 64.

Lemma new_KvU64_spec n : new_KvU64 (BigInt n) = Ok n <-> u64 n.
Proof.
  unfold new_KvU64, u64. change MIN_U64 with 0. change MAX_U64 with (2 ^ 64 - 1).
  destruct (Z.ltb_spec n 0); [split; [done|lia]|].
  destruct (Z.gtb_spec n (2 ^ 64 - 1)); [split; [done|lia]|]. split; [lia|done].
Qed.

(** A value the API can hold: a [KvU64] was made by its constructor. *)
Definition value_ok {V} (v : kv_value V) : Prop :=
  match v with ValU64 n => u64 n | _ => True end.

(** A stored value reads back: deserializing the wire form of a value gives
    the value, with the key and the versionstamp of the entry, for byte arrays,
    64-bit integers and everything structured cloning preserves. *)
Lemma value_roundtrip {V} (ser : V -> jsres (list Z)) deser (value : kv_value V) raw key vs :
  (forall v bytes, ser v = Ok bytes -> deser bytes = Ok v) ->
  value_ok value -> serializeValue ser value = Ok raw ->
  deserializeValue deser (mkRaw key raw vs) = Ok (mkEntry key (Some value) (Some vs)).
Proof.
  intros Hsd Hok. destruct value as [bytes|n|v]; simpl.
  - by intros [= <-].
  - intros [= <-]. unfold deserializeValue. simpl raw_value. cbv iota.
    by rewrite (proj2 (new_KvU64_spec n) Hok).
  - intros (bytes & Hb & [= <-])%jsbind_Ok. unfold deserializeValue. simpl. by rewrite (Hsd _ _ Hb).
Qed.

Lemma value_roundtrip_witness :
  deserializeValue (fun b => match b with [x] => Ok x | _ => Throw (JsError "") end)
    (mkRaw [KBool true] (Raw_u64 (2 ^ 64 - 1)) (lit "01")) =
  Ok (mkEntry [KBool true] (Some (ValU64 (2 ^ 64 - 1))) (Some (lit "01"))).
Proof.
  apply (value_roundtrip (fun v : Z => Ok [v])).
  - by intros v bytes [= <-].
  - unfold value_ok, u64. lia.
  - reflexivity.
Defined.

(** ** Atomic operations *)

(** No [set] is sent with a key that ends in the commit versionstamp symbol. *)
Definition rewritten (m : wire_mutation) : Prop :=
  let '(key, type, _, _) := m in
  type = "set"%string -> key !! Z.to_nat (slen key - 1) <> Some KCommitVersionstamp.

Lemma rewrite_rewritten m : rewritten (rewrite_mutation m).
Proof.
  destruct m as [[[key type] v] ex]. unfold rewrite_mutation.
  destruct (key !! Z.to_nat (slen key - 1)) as [p|] eqn:E; [|intros _ H; congruence].
  destruct p; try (intros _ H; congruence).
  destruct (String.eqb_spec type "set") as [->|Hne]; [by intros ?|]. by intros ?.
Qed.

Lemma rewrite_fixed m : rewritten m -> rewrite_mutation m = m.
Proof.
  destruct m as [[[key type] v] ex]. unfold rewrite_mutation, rewritten. intros H.
  destruct (key !! Z.to_nat (slen key - 1)) as [p|] eqn:E; [|done].
  destruct p; try done. destruct (String.eqb_spec type "set"); [by destruct H|done].
Qed.

Lemma rewrite_all_fixed ms : map rewrite_mutation (map rewrite_mutation ms) = map rewrite_mutation ms.
Proof. rewrite map_map. apply map_ext. intros m. apply rewrite_fixed, rewrite_rewritten. Qed.

(** [commit] can be repeated: although it rewrites the mutations of the
    operation in place, what is sent is a fixed point of the rewriting, so a
    second [commit] (after a failed check, say) sends the same checks, mutations
    and messages again; a [set] with a key that ends in the commit versionstamp
    is never sent as it is. *)
Lemma commit_repeatable {DB} (write : DB -> Z -> list wire_check -> list wire_mutation ->
    list wire_enqueue -> DB * jsres (option str)) db op :
  let '(op1, db1, r1) := Atomic.commit write db op in
  (db1, r1) = write db (a_rid op) (checks op) (mutations op1) (enqueues op) /\
  Forall rewritten (mutations op1) /\
  forall db2, Atomic.commit write db2 op1 =
    (op1, (write db2 (a_rid op) (checks op) (mutations op1) (enqueues op)).1,
          (write db2 (a_rid op) (checks op) (mutations op1) (enqueues op)).2).
Proof.
  unfold Atomic.commit, doAtomicWriteInPlace.
  destruct (write db (a_rid op) (checks op) (map rewrite_mutation (mutations op)) (enqueues op))
    as [db1 r1] eqn:E. simpl. split; [by rewrite E|]. split.
  - apply Forall_fmap. apply Forall_true. intros m. apply rewrite_rewritten.
  - intros db2. rewrite rewrite_all_fixed.
    by destruct (write db2 (a_rid op) (checks op) (map rewrite_mutation (mutations op)) (enqueues op)).
Qed.

(** The mutations pushed by [mutate]. *)
Definition push_all (ws : list wire_mutation) (op : AtomicOperation) : AtomicOperation :=
  mkAtomic (a_rid op) (checks op) (mutations op ++ ws) (enqueues op).

(** [mutate] adds its mutations in order up to the first invalid one (a
    [delete] with a value, another type without one, an unknown type, or a value
    that cannot be serialized) and then throws: the mutations before it stay on
    the operation.  If all are valid, all are added. *)
Lemma mutate_prefix {V} (ser : V -> jsres (list Z)) ms op :
  (exists ws, Forall2 (fun m w => Atomic.wire_of ser m = Ok w) ms ws /\
     Atomic.mutate ser ms op = (push_all ws op, Ok tt)) \/
  (exists l1 m l2 e ws, ms = l1 ++ m :: l2 /\ Atomic.wire_of ser m = Throw e /\
     Forall2 (fun m w => Atomic.wire_of ser m = Ok w) l1 ws /\
     Atomic.mutate ser ms op = (push_all ws op, Throw e)).
Proof.
  unfold Atomic.mutate.
  apply (for_up_rule (fun i st => exists l1 l2 ws, ms = l1 ++ l2 /\ slen l1 = i /\
     Forall2 (fun m w => Atomic.wire_of ser m = Ok w) l1 ws /\ st = (push_all ws op, Ok tt))).
  - apply slen_nonneg.
  - exists [], ms, []. split_and!; [done|done|constructor|]. destruct op. unfold push_all. simpl. by rewrite app_nil_r.
  - intros i st Hi (l1 & l2 & ws & -> & Hl & HF & ->).
    destruct l2 as [|m l2]; [rewrite app_nil_r in Hi; lia|].
    rewrite list_lookup_middle by (unfold slen in Hl; lia).
    destruct (Atomic.wire_of ser m) as [w|e] eqn:Ew.
    + exists (l1 ++ [m]), l2, (ws ++ [w]). rewrite <-app_assoc, slen_app.
      change (slen [m]) with 1. split_and!; [done|lia| |].
      * apply Forall2_app; [done|]. by repeat constructor.
      * unfold push_all, Atomic.push_mutation. simpl. by rewrite app_assoc.
    + right. by exists l1, m, l2, e, ws.
  - intros st (l1 & l2 & ws & E & Hl & HF & ->). left. exists ws. split; [|done].
    assert (Hn : l2 = []) by (apply slen_0; rewrite E, slen_app in Hl; slen_pos; lia).
    by rewrite E, Hn, app_nil_r.
Qed.

(** ** Queue options *)

(** A delay the queue accepts: a number between 0 and the maximum. *)
Definition in_range (d : jsnumber) (hi : Z) : Prop :=
  exists q, d = Finite q /\ (0 <= q <= inject_Z hi)%Q.

Lemma num_ltb_finite p q : num_ltb (Finite p) (Finite q) = false <-> (q <= p)%Q.
Proof. simpl. rewrite negb_false_iff. apply Qle_bool_iff. Qed.

Lemma range_check d hi :
  (num_ltb d (num 0) = false /\ num_ltb (num hi) d = false /\ NumberIsNaN d = false) <-> in_range d hi.
Proof.
  unfold in_range. destruct d as [|neg|q].
  - split; [by intros (_ & _ & ?)|]. by intros (q & ? & _).
  - split; [|by intros (q & ? & _)]. destruct neg; by intros (? & ? & _).
  - unfold num. rewrite !num_ltb_finite. split.
    + intros (H1 & H2 & _). exists q. split; [done|]. by split.
    + intros (q' & [= <-] & H1 & H2). by split_and!.
Qed.

Lemma validateQueueDelay_spec d : validateQueueDelay d = Ok tt <-> in_range d maxQueueDelay.
Proof.
  rewrite <-range_check. unfold validateQueueDelay.
  destruct (num_ltb d (num 0)), (num_ltb (num maxQueueDelay) d), (NumberIsNaN d);
    (split; [intros H; try done; by split_and!|by intros (? & ? & ?)]).
Qed.

Lemma validateBackoffSchedule_spec b :
  validateBackoffSchedule b = Ok tt <->
  slen b <= maxQueueBackoffIntervals /\ Forall (fun d => in_range d maxQueueBackoffInterval) b.
Proof.
  unfold validateBackoffSchedule. destruct (Z.gtb_spec (slen b) maxQueueBackoffIntervals) as [Hgt|Hle].
  { split; [done|]. intros [? _]. lia. }
  set (body := fun i _ => _).
  apply (for_up_rule (fun i st => st = Ok tt /\ Forall (fun d => in_range d maxQueueBackoffInterval) (take (Z.to_nat i) b))
    (fun st => st = Ok tt <-> slen b <= maxQueueBackoffIntervals /\ Forall (fun d => in_range d maxQueueBackoffInterval) b)).
  - apply slen_nonneg.
  - split; [done|]. constructor.
  - intros i st Hi [-> HF]. unfold body.
    destruct (lookup_lt_is_Some_2 b (Z.to_nat i)) as [d Hd]; [unfold slen in Hi; lia|]. rewrite Hd.
    destruct (num_ltb d (num 0) || num_ltb (num maxQueueBackoffInterval) d || NumberIsNaN d) eqn:Ec.
    + split; [done|]. intros [_ HF']. exfalso.
      pose proof (Forall_lookup_1 _ _ _ _ HF' Hd) as (H1 & H2 & H3)%range_check. by rewrite H1, H2, H3 in Ec.
    + split; [done|]. replace (Z.to_nat (i + 1)) with (S (Z.to_nat i)) by lia.
      rewrite (take_S_r _ _ _ Hd). apply Forall_app. split; [done|]. constructor; [|constructor].
      apply range_check. apply orb_false_iff in Ec as [[? ?]%orb_false_iff ?]. done.
  - intros st [-> HF]. split; [|done]. intros _. split; [done|].
    unfold slen in HF. by rewrite Nat2Z.id, firstn_all in HF.
Qed.

(** [enqueue] accepts exactly the options it documents: a delay between 0
    and 30 days and at most five backoff intervals between 0 and one hour, [NaN]
    and infinities refused; with other options it throws before anything is
    written, both on the database and on an atomic operation. *)
Lemma enqueue_validates {V DB} (ser : V -> jsres (list Z)) write (db : DB) kv op message opts :
  let ok := (forall d, o_delay opts = Some d -> in_range d maxQueueDelay) /\
            (forall b, o_backoffSchedule opts = Some b ->
               slen b <= maxQueueBackoffIntervals /\
               Forall (fun d => in_range d maxQueueBackoffInterval) b) in
  (validate_enqueue opts = Ok tt <-> ok) /\
  (~ ok -> exists e, Client.enqueue ser write db kv message opts = (db, Throw e) /\
                     Atomic.enqueue ser message opts op = (op, Throw e)).
Proof.
  intros ok.
  assert (Hv : validate_enqueue opts = Ok tt <-> ok).
  { unfold validate_enqueue, ok. destruct (o_delay opts) as [d|], (o_backoffSchedule opts) as [b|]; simpl;
      rewrite ?jsbind_Ok.
    - split.
      + intros ([] & Hd & Hb). apply validateQueueDelay_spec in Hd. apply validateBackoffSchedule_spec in Hb.
        split; by intros ? [= <-].
      + intros [Hd Hb]. exists tt. split; [by apply validateQueueDelay_spec, Hd|].
        by apply validateBackoffSchedule_spec, Hb.
    - split.
      + intros ([] & Hd & _). apply validateQueueDelay_spec in Hd. split; [by intros ? [= <-]|done].
      + intros [Hd _]. exists tt. split; [by apply validateQueueDelay_spec, Hd|done].
    - rewrite validateBackoffSchedule_spec. split; [intros ?; split; [done|by intros ? [= <-]]|].
      intros [_ Hb]. by apply Hb.
    - by split. }
  split; [done|]. intros Hno. unfold Client.enqueue, Atomic.enqueue.
  destruct (validate_enqueue opts) as [[]|e]; [by destruct Hno; apply Hv|]. by exists e.
Qed.

(** ** [listenQueue] *)

Section Listen.
Context {V : Type} (deser : list Z -> jsres V) (handler : Z -> V -> Listen.handler_result).
Import Listen.
Implicit Types (evs : list event) (s : state).

(** What the events say: the messages that were dequeued, the outcomes of the
    handlers' promises and the finish ops that are done. *)
Definition messages evs : list (Z * list Z) :=
  omap (fun ev => match ev with Dequeued (Ok (Some (payload, h))) => Some (h, payload) | _ => None end) evs.
Definition answers evs : list (Z * bool) :=
  omap (fun ev => match ev with HandlerSettled h (Ok _) => Some (h, true) | HandlerSettled h (Throw _) => Some (h, false) | _ => None end) evs.
Definition settled evs : list Z :=
  omap (fun ev => match ev with FinishSettled h _ => Some h | _ => None end) evs.

(** The handler was called with the message [h] and did [k]. *)
Definition started evs (h : Z) (k : handler_result) : Prop :=
  exists payload message, (h, payload) ∈ messages evs /\ deser payload = Ok message /\ handler h message = k.

(** The handler of the message [h] has ended, with success or not. *)
Definition ended evs (h : Z) (success : bool) : Prop :=
  (started evs h Returns /\ success = true) \/
  ((exists e, started evs h (Throws e)) /\ success = false) \/
  (started evs h Promises /\ (h, success) ∈ answers evs).

(** Why [listenQueue] rejects. *)
Definition fails evs (e : js_error) : Prop :=
  Dequeued (Throw e) ∈ evs \/ (exists h payload, (h, payload) ∈ messages evs /\ deser payload = Throw e) \/
  exists h, FinishSettled h (Throw e) ∈ evs.

Definition at_phase evs s : Prop :=
  match loop s with
  | Waiting => True
  | Draining h => Dequeued (Ok None) ∈ evs /\ exists l, finishMessageOps s = h :: l
  | Returned => Dequeued (Ok None) ∈ evs
  | Rejected e => fails evs e
  end.

Record listen_inv evs s : Prop := {
  li_once : NoDup (finished s).*1;
  li_finished : forall h b, (h, b) ∈ finished s <-> ended evs h b;
  li_running : forall h, h ∈ running s <-> started evs h Promises /\ h ∉ (answers evs).*1;
  li_ops : forall h, h ∈ finishMessageOps s <-> h ∈ (finished s).*1 /\ h ∉ settled evs;
  li_ops_once : NoDup (finishMessageOps s);
  li_answers : forall h, h ∈ (answers evs).*1 -> started evs h Promises;
  li_settled : forall h, h ∈ settled evs -> h ∈ (finished s).*1;
  li_waiting : loop s = Waiting -> Dequeued (Ok None) ∉ evs;
  li_phase : at_phase evs s;
}.

Lemma messages_snoc evs ev : messages (evs ++ [ev]) = messages evs ++ messages [ev].
Proof. apply omap_app. Qed.
Lemma answers_snoc evs ev : answers (evs ++ [ev]) = answers evs ++ answers [ev].
Proof. apply omap_app. Qed.
Lemma settled_snoc evs ev : settled (evs ++ [ev]) = settled evs ++ settled [ev].
Proof. apply omap_app. Qed.

Lemma fails_snoc evs ev e : fails evs e -> fails (evs ++ [ev]) e.
Proof.
  intros [H|[(h & p & H & Hd)|(h & H)]].
  - left. set_solver.
  - right. left. exists h, p. rewrite messages_snoc. set_solver.
  - right. right. exists h. set_solver.
Qed.

(** An event by which no handler starts. *)
Lemma started_same evs ev h k :
  Forall (fun m => match deser m.2 with Ok _ => False | Throw _ => True end) (messages [ev]) ->
  started (evs ++ [ev]) h k <-> started evs h k.
Proof.
  intros Hno. unfold started. rewrite messages_snoc. split.
  - intros (p & v & [Hm|Hm]%elem_of_app & Hd & Hk); [by exists p, v|].
    rewrite Forall_forall in Hno. specialize (Hno _ Hm). simpl in Hno. by rewrite Hd in Hno.
  - intros (p & v & Hm & Hd & Hk). exists p, v. set_solver.
Qed.

Lemma ended_started evs h b : ended evs h b -> exists k, started evs h k.
Proof. intros [[H _]|[[(e & H) _]|[H _]]]; eauto. Qed.

Lemma started_message evs h k : started evs h k -> h ∈ (messages evs).*1.
Proof. intros (p & v & Hm & _). apply list_elem_of_fmap. by exists (h, p). Qed.

(** Only [loop] changes, by an event that tells nothing of a handler. *)
Lemma loop_step evs ev s p :
  listen_inv evs s -> answers [ev] = [] -> settled [ev] = [] ->
  Forall (fun m => match deser m.2 with Ok _ => False | Throw _ => True end) (messages [ev]) ->
  (p = Waiting -> Dequeued (Ok None) ∉ evs ++ [ev]) -> at_phase (evs ++ [ev]) (set_loop p s) ->
  listen_inv (evs ++ [ev]) (set_loop p s).
Proof.
  intros I Ha Hs Hm Hw Hp. pose proof (fun h k => started_same evs ev h k Hm) as Hst.
  assert (Hend : forall h b, ended (evs ++ [ev]) h b <-> ended evs h b).
  { intros h b. unfold ended. rewrite answers_snoc, Ha, app_nil_r. by setoid_rewrite Hst. }
  destruct I. split; simpl; rewrite ?answers_snoc, ?settled_snoc, ?Ha, ?Hs, ?app_nil_r; try done.
  - intros h b. by rewrite Hend.
  - intros h. by rewrite Hst.
  - intros h. rewrite Hst. eauto.
Qed.

(** A finish op is issued for a message that had none. *)
Lemma finish_step evs ev s s0 h b :
  listen_inv evs s -> loop s0 = loop s -> finished s0 = finished s -> finishMessageOps s0 = finishMessageOps s ->
  h ∉ (finished s).*1 -> settled [ev] = [] -> ev <> Dequeued (Ok None) ->
  (forall h0 b0, ended (evs ++ [ev]) h0 b0 <-> ended evs h0 b0 \/ (h0 = h /\ b0 = b)) ->
  (forall h0, h0 ∈ running s0 <-> started (evs ++ [ev]) h0 Promises /\ h0 ∉ (answers (evs ++ [ev])).*1) ->
  (forall h0, h0 ∈ (answers (evs ++ [ev])).*1 -> started (evs ++ [ev]) h0 Promises) ->
  listen_inv (evs ++ [ev]) (finish h b s0).
Proof.
  intros I El Ef Eo Hn Hs Hne Hend Hrun Hans. pose proof I as [I1 I2 I3 I4 I5 I6 I7 I8 I9].
  assert (Hset : h ∉ settled evs) by (intros H; by apply Hn, I7).
  unfold finish. split; simpl; rewrite ?Ef, ?Eo, ?El, ?settled_snoc, ?Hs, ?app_nil_r; try done.
  - rewrite fmap_app. apply NoDup_app. split_and!; [done| |apply NoDup_singleton]. csimpl. set_solver.
  - intros h0 b0. rewrite elem_of_app, list_elem_of_singleton, I2, Hend. naive_solver.
  - intros h0. rewrite elem_of_app, list_elem_of_singleton, I4, fmap_app, elem_of_app. csimpl.
    rewrite list_elem_of_singleton. naive_solver.
  - apply NoDup_app. split_and!; [done| |apply NoDup_singleton]. set_solver.
  - intros h0 H0. rewrite fmap_app, elem_of_app. left. auto.
  - intros Hw. specialize (I8 Hw). set_solver.
  - unfold at_phase in *. simpl. rewrite ?El. destruct (loop s); [done| |set_solver|by apply fails_snoc].
    destruct I9 as (H9 & l & Hl). rewrite ?Eo, Hl. split; [set_solver|by eexists].
Qed.

(** The message that a step starts the handler of. *)
Lemma started_new evs payload h message h0 k :
  deser payload = Ok message ->
  started (evs ++ [Dequeued (Ok (Some (payload, h)))]) h0 k <-> started evs h0 k \/ (h0 = h /\ k = handler h message).
Proof.
  intros Hd. unfold started. rewrite messages_snoc. split.
  - intros (p & v & [Hm|Hm]%elem_of_app & Hd' & Hk); [left; by exists p, v|].
    apply list_elem_of_singleton in Hm. injection Hm as -> ->. right. split; [done|congruence].
  - intros [(p & v & Hm & Hd' & Hk)|[-> ->]].
    + exists p, v. set_solver.
    + exists payload, message. set_solver.
Qed.

Lemma receive_message evs s payload h message :
  let ev := Dequeued (Ok (Some (payload, h))) in
  listen_inv evs s -> loop s = Waiting -> h ∉ (messages evs).*1 -> deser payload = Ok message ->
  listen_inv (evs ++ [ev]) (dispatch handler h message s).
Proof.
  intros ev I Hw Hfresh Hd. pose proof I as [I1 I2 I3 I4 I5 I6 I7 I8 I9].
  assert (Hns : forall k, ~ started evs h k) by (intros k Hk; by apply Hfresh, (started_message _ _ k)).
  assert (Hnf : h ∉ (finished s).*1).
  { intros ([h' b] & -> & Hb)%list_elem_of_fmap. apply I2, ended_started in Hb as (k & Hk). by apply (Hns k). }
  pose proof (fun h0 k => started_new evs payload h message h0 k Hd) as Hst. fold ev in Hst.
  assert (Ha : answers (evs ++ [ev]) = answers evs) by (rewrite answers_snoc; apply app_nil_r).
  assert (Hna : h ∉ (answers evs).*1) by (intros H; by apply (Hns _ (I6 _ H))).
  assert (Hb : forall b, (h, b) ∉ answers evs) by (intros b H; apply Hna, list_elem_of_fmap; by exists (h, b)).
  unfold dispatch. destruct (handler h message) as [|e|] eqn:Eh.
  - eapply finish_step; try done.
    + intros h0 b0. unfold ended. rewrite Ha. setoid_rewrite Hst. naive_solver.
    + intros h0. rewrite I3, Ha, Hst. naive_solver.
    + intros h0. rewrite Ha, Hst. eauto.
  - eapply finish_step; try done.
    + intros h0 b0. unfold ended. rewrite Ha. setoid_rewrite Hst. naive_solver.
    + intros h0. rewrite I3, Ha, Hst. naive_solver.
    + intros h0. rewrite Ha, Hst. eauto.
  - split; simpl; rewrite ?Ha, ?settled_snoc, ?app_nil_r; try done.
    + intros h0 b0. rewrite I2. unfold ended. rewrite Ha. setoid_rewrite Hst. naive_solver.
    + intros h0. rewrite elem_of_app, list_elem_of_singleton, I3, Hst. naive_solver.
    + intros h0. rewrite Hst. eauto.
    + intros _. specialize (I8 Hw). set_solver.
    + unfold at_phase. simpl. by rewrite Hw.
Qed.

Lemma fst_unique {A B} (l : list (A * B)) x y y' : NoDup l.*1 -> (x, y) ∈ l -> (x, y') ∈ l -> y = y'.
Proof.
  induction l as [|[a b] l IH]; csimpl; [by intros _ ?%elem_of_nil|]. intros [Ha Hn]%NoDup_cons.
  assert (Hx : forall c, (a, c) ∉ l) by (intros c H; apply Ha, list_elem_of_fmap; by exists (a, c)).
  intros [E|H]%elem_of_cons [E'|H']%elem_of_cons; simplify_eq; try done; try (by destruct (Hx y'); done) || (by destruct (Hx y)); auto.
Qed.

Lemma started_det evs h k k' : NoDup (messages evs).*1 -> started evs h k -> started evs h k' -> k = k'.
Proof.
  intros Hn (p & v & Hm & Hd & <-) (p' & v' & Hm' & Hd' & <-).
  assert (p = p') as <- by (by eapply fst_unique). congruence.
Qed.

Lemma drain_phase evs s : Dequeued (Ok None) ∈ evs -> at_phase evs (drain s) /\ loop (drain s) <> Waiting.
Proof. intros H. unfold drain, at_phase. destruct (finishMessageOps s) as [|h l] eqn:E; simpl; [done|]. rewrite E. eauto. Qed.

Lemma finish_settled_inv evs s h r :
  listen_inv evs s -> h ∈ finishMessageOps s -> listen_inv (evs ++ [FinishSettled h r]) (finish_settled h r s).
Proof.
  intros I Ho. pose proof I as [I1 I2 I3 I4 I5 I6 I7 I8 I9]. set (ev := FinishSettled h r).
  assert (Hm : forall h0 k, started (evs ++ [ev]) h0 k <-> started evs h0 k)
    by (intros; apply started_same; constructor).
  assert (Ha : answers (evs ++ [ev]) = answers evs) by (rewrite answers_snoc; apply app_nil_r).
  assert (Hnone : Dequeued (Ok None) ∈ evs ++ [ev] <-> Dequeued (Ok None) ∈ evs) by (subst ev; set_solver).
  unfold finish_settled. set (s1 := mkListen _ _ _ _ _).
  assert (Hs : forall p, (p = Waiting -> loop s = Waiting) -> at_phase (evs ++ [ev]) (set_loop p s1) ->
    listen_inv (evs ++ [ev]) (set_loop p s1)).
  { intros p Hpw Hp. split; simpl; rewrite ?Ha, ?settled_snoc; try done.
    - intros h0 b0. rewrite I2. unfold ended. rewrite Ha. by setoid_rewrite Hm.
    - intros h0. by rewrite Hm.
    - intros h0. rewrite list_elem_of_filter, I4. subst ev. set_solver.
    - by apply NoDup_filter.
    - intros h0. rewrite Hm. auto.
    - intros h0 [H| ->%list_elem_of_singleton]%elem_of_app; [auto|]. by apply I4.
    - intros Hw. rewrite Hnone. auto. }
  assert (E1 : set_loop (loop s) s1 = s1) by done. simpl (loop s1). destruct (loop s) as [|d| |e] eqn:El.
  - rewrite <-E1. by apply Hs.
  - unfold at_phase in I9. rewrite El in I9. destruct I9 as (H9 & l & Hl). case_bool_decide as Ed; subst.
    + destruct r as [u|e]; [|apply Hs; [done|]; right; right; exists h; subst ev; set_solver].
      destruct (drain_phase (evs ++ [ev]) s1) as [Hp Hnw]; [by apply Hnone|].
      unfold drain in *. destruct (finishMessageOps s1) eqn:E2; by apply Hs.
    + rewrite <-E1. apply Hs; [done|]. unfold at_phase. simpl.
      rewrite Hl, filter_cons_True by done. split; [by apply Hnone|by eexists].
  - rewrite <-E1. apply Hs; [done|]. unfold at_phase in *. rewrite El in I9. simpl. by rewrite Hnone.
  - rewrite <-E1. apply Hs; [done|]. unfold at_phase in *. rewrite El in I9. simpl. by apply fails_snoc.
Qed.

Lemma listen_step evs ev s s' :
  listen_inv evs s -> NoDup (messages (evs ++ [ev])).*1 -> step deser handler s ev = Some s' -> listen_inv (evs ++ [ev]) s'.
Proof.
  intros I Hnd. pose proof I as [I1 I2 I3 I4 I5 I6 I7 I8 I9].
  assert (Hnd0 : NoDup (messages evs).*1) by (rewrite messages_snoc, fmap_app in Hnd; by apply NoDup_app in Hnd as [? _]).
  destruct ev as [r|h r|h r]; simpl.
  - destruct (loop s) eqn:Hw; try done. intros [= <-]. destruct r as [[[payload h]|]|e]; simpl.
    + rewrite messages_snoc, fmap_app in Hnd. apply NoDup_app in Hnd as (_ & Hnd & _).
      destruct (deser payload) as [message|e] eqn:Hd.
      * apply (receive_message evs s payload h message I Hw); [|done]. intros H. apply (Hnd h H). by left.
      * apply loop_step; try done.
        -- by repeat constructor; simpl; rewrite Hd.
        -- right. left. exists h, payload. rewrite messages_snoc. set_solver.
    + assert (Hin : Dequeued (Ok None) ∈ evs ++ [Dequeued (Ok None)]) by set_solver.
      destruct (drain_phase (evs ++ [Dequeued (Ok None)]) s Hin) as [Hp Hnw].
      unfold drain in *. destruct (finishMessageOps s); apply loop_step; try done; constructor.
    + apply loop_step; try done. left. set_solver.
  - case_bool_decide as Hr; [|done]. intros [= <-]. unfold handler_settled. apply I3 in Hr as [Hst Hna].
    set (b := match r with Ok _ => true | Throw _ => false end).
    assert (Ha : answers [HandlerSettled h r] = [(h, b)]) by by destruct r.
    assert (Hm : forall h0 k, started (evs ++ [HandlerSettled h r]) h0 k <-> started evs h0 k)
      by (intros; apply started_same; constructor).
    assert (Hnf : h ∉ (finished s).*1).
    { intros ([h' b'] & -> & Hb)%list_elem_of_fmap. simpl in *. apply I2 in Hb as [[H _]|[[(e & H) _]|[_ H]]].
      - by pose proof (started_det _ _ _ _ Hnd0 H Hst).
      - by pose proof (started_det _ _ _ _ Hnd0 H Hst).
      - apply Hna, list_elem_of_fmap. by exists (h', b'). }
    eapply finish_step; try done.
    + intros h0 b0. unfold ended. rewrite answers_snoc, Ha. setoid_rewrite Hm. set_unfold. naive_solver.
    + intros h0. simpl. rewrite list_elem_of_filter, I3, Hm, answers_snoc, Ha, fmap_app. set_solver.
    + intros h0. rewrite answers_snoc, Ha, fmap_app, Hm. csimpl. rewrite elem_of_app, list_elem_of_singleton.
      intros [?| ->]; auto.
  - case_bool_decide as Ho; [|done]. intros [= <-]. by apply finish_settled_inv.
Qed.

Lemma listen_run evs s : NoDup (messages evs).*1 -> run deser handler evs = Some s -> listen_inv evs s.
Proof.
  revert s. induction evs as [|ev evs IH] using rev_ind; intros s Hnd.
  - intros [= <-]. split; simpl; try done; try (by constructor).
    + intros h b. split; [by intros ?%elem_of_nil|]. intros (k & p & v & Hm & _)%ended_started. by apply elem_of_nil in Hm.
    + intros h. split; [by intros ?%elem_of_nil|]. intros [(p & v & Hm & _) _]. by apply elem_of_nil in Hm.
    + intros h. split; [by intros ?%elem_of_nil|]. by intros [?%elem_of_nil _].
    + by intros h ?%elem_of_nil.
    + by intros _ ?%elem_of_nil.
  - unfold run. rewrite foldl_app. simpl. fold (run deser handler evs).
    destruct (run deser handler evs) as [s0|] eqn:E; [|done]. simpl. intros Hs.
    apply (listen_step evs ev s0); [|done|done]. apply IH; [|done].
    rewrite messages_snoc, fmap_app in Hnd. by apply NoDup_app in Hnd as [? _].
Qed.
End Listen.

(** C39. Whatever the queue delivers and in whatever order handlers and finish ops
    end: [listenQueue] issues a finish op at most once for a message, exactly for
    the messages whose handler has ended, and with the handler's outcome (true when
    it returned or its promise was fulfilled, false when it threw or its promise
    was rejected); a message that can be decoded is with its handler or finished;
    and when the queue has ended and no finish op is pending, [listenQueue] has
    returned, or it was rejected because an op failed or a message could not be
    decoded.  (The handle ids of the messages are different.) *)
Theorem messages_finished_once {V} (deser : list Z -> jsres V) (handler : Z -> V -> Listen.handler_result) evs s :
  NoDup (messages evs).*1 -> Listen.run deser handler evs = Some s ->
  NoDup (Listen.finished s).*1 /\
  (forall h success, (h, success) ∈ Listen.finished s <-> ended deser handler evs h success) /\
  (forall h payload message, (h, payload) ∈ messages evs -> deser payload = Ok message ->
     h ∈ Listen.running s \/ exists success, (h, success) ∈ Listen.finished s) /\
  (forall h, h ∈ Listen.finishMessageOps s <-> h ∈ (Listen.finished s).*1 /\ h ∉ settled evs) /\
  (Listen.Dequeued (Ok None) ∈ evs -> Listen.finishMessageOps s = [] ->
     Listen.loop s = Listen.Returned \/ exists e, Listen.loop s = Listen.Rejected e /\ fails deser evs e).
Proof.
  intros Hnd I%listen_run; [|done]. split_and!; [apply I|apply I| |apply I|].
  - intros h p v Hm Hd. assert (Hst : started deser handler evs h (handler h v)) by by exists p, v.
    setoid_rewrite (li_finished _ _ _ _ I). rewrite (li_running _ _ _ _ I). unfold ended.
    destruct (handler h v) as [|e|]; [right; exists true; auto|right; exists false; eauto|].
    destruct (decide (h ∈ (answers evs).*1)) as [([h' b] & -> & Hb)%list_elem_of_fmap|]; [right; exists b; auto|auto].
  - intros Hend Hops. pose proof (li_phase _ _ _ _ I) as Hp. unfold at_phase in Hp.
    destruct (Listen.loop s) as [|h| |e] eqn:E; [by destruct (li_waiting _ _ _ _ I E)| |by left|right; by exists e].
    destruct Hp as (_ & l & Hl). by rewrite Hops in Hl.
Qed.

(** Messages 1, 2 and 3: the first is handled, the second makes its handler
    throw, the promise for the third is rejected. *)
Definition demo_handler (h : Z) (message : list Z) : Listen.handler_result :=
  if h =? 1 then Listen.Returns else if h =? 2 then Listen.Throws (JsError "no") else Listen.Promises.

Definition demo_events : list Listen.event :=
  [Listen.Dequeued (Ok (Some ([10], 1))); Listen.Dequeued (Ok (Some ([20], 2))); Listen.FinishSettled 1 (Ok tt);
   Listen.Dequeued (Ok (Some ([30], 3))); Listen.Dequeued (Ok None); Listen.HandlerSettled 3 (Throw (JsError "later"));
   Listen.FinishSettled 3 (Ok tt); Listen.FinishSettled 2 (Ok tt)].

Lemma messages_finished_once_witness :
  exists s, Listen.run Ok demo_handler demo_events = Some s /\
    Listen.finished s = [(1, true); (2, false); (3, false)] /\ Listen.loop s = Listen.Returned /\
    (forall h success, (h, success) ∈ Listen.finished s <-> ended Ok demo_handler demo_events h success).
Proof.
  eexists. split; [reflexivity|]. split; [reflexivity|]. split; [reflexivity|].
  assert (Hnd : NoDup (messages demo_events).*1) by (apply (bool_decide_unpack _); by vm_compute).
  destruct (messages_finished_once Ok demo_handler demo_events _ Hnd eq_refl) as (_ & H & _). exact H.
Defined.

(** A message that cannot be decoded is never finished: [listenQueue] rejects, and
    takes no further messages. *)
Lemma undecodable_never_finished {V} (deser : list Z -> jsres V) handler payload h e evs s :
  deser payload = Throw e -> NoDup (messages (Listen.Dequeued (Ok (Some (payload, h))) :: evs)).*1 ->
  Listen.run deser handler (Listen.Dequeued (Ok (Some (payload, h))) :: evs) = Some s ->
  h ∉ (Listen.finished s).*1.
Proof.
  intros Hd Hnd I%listen_run; [|done]. intros ([h' b] & -> & Hb)%list_elem_of_fmap. simpl in *.
  apply (li_finished _ _ _ _ I), ended_started in Hb as (k & p & v & Hm & Hv & _).
  apply elem_of_cons in Hm as [[= <-]|Hm]; [congruence|].
  apply NoDup_cons in Hnd as [Hn _]. apply Hn, list_elem_of_fmap. by exists (h', p).
Qed.

(** ** [watch] *)

Section Watch.
Context {V : Type} (deser : list Z -> jsres V).
Import Watch.

(** What is known of a key's versionstamp: nothing yet, that it has no value, or
    its versionstamp; and how an update of the key changes that. *)
Definition known (l : option last_entry) : option (option str) := last_versionstamp <$> l.

Definition learn (k : option (option str)) (u : watch_update) : option (option str) :=
  match u with
  | Unchanged => k
  | UpdNull => Some None
  | UpdEntry e => Some (Some (raw_versionstamp e))
  end.

Lemma map_res_inv {A B} (f : A -> jsres B) l l' :
  map_res f l = Ok l' -> Forall2 (fun x y => f x = Ok y) l l'.
Proof.
  revert l'. induction l as [|x l IH]; simpl; intros l'; [by intros [= <-]|].
  intros (y & Hy & (ys & Hys & [= <-])%jsbind_Ok)%jsbind_Ok. constructor; auto.
Qed.

Lemma emit_versionstamp l e : emit_entry deser l = Ok e -> known l = Some (e_versionstamp e).
Proof.
  destruct l as [[r|k]|]; simpl; [| |done].
  - unfold deserializeValue. destruct (raw_value r); [| | |done].
    + by intros (v & _ & [= <-])%jsbind_Ok.
    + by intros [= <-].
    + by intros (v & _ & [= <-])%jsbind_Ok.
  - by intros [= <-].
Qed.

(** One round of the [for] loop of [pull]. *)
Lemma apply_updates_learn keys us ls ls' c :
  length us = length keys -> length ls = length keys ->
  apply_updates keys us ls = (ls', Ok c) ->
  length ls' = length keys /\
  forall j u, us !! j = Some u -> known (mjoin (ls' !! j)) = learn (known (mjoin (ls !! j))) u.
Proof.
  intros Hu Hl. unfold apply_updates. set (body := fun i st => _).
  apply (for_up_rule
    (fun i st => length st.1 = length keys /\ (exists c, st.2 = Ok c) /\
       (forall j u, (j < Z.to_nat i)%nat -> us !! j = Some u ->
          known (mjoin (st.1 !! j)) = learn (known (mjoin (ls !! j))) u) /\
       (forall j, (Z.to_nat i <= j)%nat -> st.1 !! j = ls !! j))
    (fun st => st = (ls', Ok c) -> _)).
  - apply slen_nonneg.
  - split_and!; [done|by eexists|intros; lia|done].
  - intros i [ls1 r] Hi (Hlen & [c1 Hc1] & Hdone & Htodo). simpl in *. subst r. unfold slen in Hi.
    destruct (lookup_lt_is_Some_2 us (Z.to_nat i)) as [u Hu']; [lia|]. rewrite Hu'.
    assert (Ecur : ls1 !! Z.to_nat i = ls !! Z.to_nat i) by (apply Htodo; lia).
    assert (Hkeep : forall c2, learn (known (mjoin (ls !! Z.to_nat i))) u = known (mjoin (ls !! Z.to_nat i)) ->
      length ls1 = length keys /\ (exists c3, Ok c2 = Ok c3 :> jsres bool) /\
      (forall j u', (j < Z.to_nat (i + 1))%nat -> us !! j = Some u' ->
         known (mjoin (ls1 !! j)) = learn (known (mjoin (ls !! j))) u') /\
      (forall j, (Z.to_nat (i + 1) <= j)%nat -> ls1 !! j = ls !! j)).
    { intros c2 Hsame. split_and!; [done|by eexists| |intros; apply Htodo; lia].
      intros j u' Hj Hju. destruct (decide (j = Z.to_nat i)) as [->|]; [|apply Hdone; [lia|done]].
      rewrite Hju in Hu'. injection Hu' as ->. by rewrite Hsame, Ecur. }
    assert (Hnew : forall l, known (Some l) = learn (known (mjoin (ls !! Z.to_nat i))) u ->
      length (<[Z.to_nat i := Some l]> ls1) = length keys /\ (exists c3, Ok true = Ok c3 :> jsres bool) /\
      (forall j u', (j < Z.to_nat (i + 1))%nat -> us !! j = Some u' ->
         known (mjoin (<[Z.to_nat i := Some l]> ls1 !! j)) = learn (known (mjoin (ls !! j))) u') /\
      (forall j, (Z.to_nat (i + 1) <= j)%nat -> <[Z.to_nat i := Some l]> ls1 !! j = ls !! j)).
    { intros l Hlk. rewrite length_insert. split_and!; [done|by eexists| |].
      - intros j u' Hj Hju. destruct (decide (j = Z.to_nat i)) as [->|].
        + rewrite Hju in Hu'. injection Hu' as ->. rewrite list_lookup_insert_eq by lia. done.
        + rewrite list_lookup_insert_ne by done. apply Hdone; [lia|done].
      - intros j Hj. rewrite list_lookup_insert_ne by lia. apply Htodo. lia. }
    unfold body. rewrite Ecur. destruct u as [| |e].
    + destruct (mjoin (ls !! Z.to_nat i)); [by apply Hkeep|by intros [=]].
    + destruct (mjoin (ls !! Z.to_nat i)) as [l|] eqn:El; [|by apply Hnew].
      case_bool_decide as Ev; [apply Hkeep; simpl; by rewrite <-Ev|by apply Hnew].
    + destruct (mjoin (ls !! Z.to_nat i)) as [l|] eqn:El; [|by apply Hnew].
      case_bool_decide as Ev; [apply Hkeep; simpl; by rewrite <-Ev|by apply Hnew].
  - intros [ls1 r] (Hlen & _ & Hdone & _) [= -> ->]. simpl in *. split; [done|].
    intros j u Hj. apply Hdone; [|done]. apply lookup_lt_Some in Hj. unfold slen. lia.
Qed.

Lemma pull_learn keys raw results ls ls' rest es :
  length ls = length keys ->
  Forall (fun r => forall us, r = Ok (Some us) -> length us = length keys) results ->
  pull deser keys raw results ls = (ls', rest, Some (PullEnqueue es)) ->
  exists rounds, results = ((fun us => Ok (Some us)) <$> rounds) ++ rest /\ rounds <> [] /\
    length es = length keys /\
    forall j e, es !! j = Some e ->
      Some (e_versionstamp e) = fold_left learn (omap (fun us => us !! j) rounds) (known (mjoin (ls !! j))).
Proof.
  revert ls. induction results as [|r results IH]; intros ls Hl Hlen; simpl; [done|].
  inversion Hlen as [|? ? Hr Hrest]; subst. destruct r as [[us|]|ex]; [|done|done].
  specialize (Hr us eq_refl).
  destruct (apply_updates keys us ls) as [ls1 [c|ex]] eqn:Ea; [|done].
  destruct (apply_updates_learn _ _ _ _ _ Hr Hl Ea) as [Hl1 Hk].
  assert (Hstep : forall j k, (j < length keys)%nat ->
    fold_left learn (omap (fun us => us !! j) (us :: k)) (known (mjoin (ls !! j))) =
    fold_left learn (omap (fun us => us !! j) k) (known (mjoin (ls1 !! j)))).
  { intros j k Hj. destruct (lookup_lt_is_Some_2 us j) as [u Hu]; [lia|]. simpl. rewrite Hu. simpl.
    by rewrite (Hk j u Hu). }
  destruct (negb c && negb raw).
  - intros H. destruct (IH ls1 Hl1 Hrest H) as (rounds & -> & _ & Hes & HF). exists (us :: rounds).
    split_and!; [done|done|done|]. intros j e Hj. rewrite Hstep by (apply lookup_lt_Some in Hj; lia). by apply HF.
  - destruct (map_res (emit_entry deser) ls1) as [es'|ex] eqn:Em; [|done].
    intros [= -> -> ->]. exists [us]. apply map_res_inv in Em. pose proof (Forall2_length _ _ _ Em).
    split_and!; [done|done|lia|]. intros j e Hj. rewrite Hstep by (apply lookup_lt_Some in Hj; lia). simpl.
    destruct (Forall2_lookup_r _ _ _ _ _ Em Hj) as (l & Hlj & He). rewrite Hlj. simpl.
    by rewrite (emit_versionstamp _ _ He).
Qed.

End Watch.

(** A chunk of the [watch] stream is up to date: for every watched key the
    versionstamp it delivers (or the absence of a value) is the one of the last
    update of that key among the rounds of [op_kv_watch_next] the stream has
    taken, however many rounds without a change it skipped. *)
Lemma watch_up_to_date {V} (deser : list Z -> jsres V) keys raw results ls' rest es :
  Forall (fun r => forall us, r = Ok (Some us) -> length us = length keys) results ->
  Watch.pull deser keys raw results (Watch.initial keys) = (ls', rest, Some (Watch.PullEnqueue es)) ->
  exists rounds, results = ((fun us => Ok (Some us)) <$> rounds) ++ rest /\ rounds <> [] /\
    length es = length keys /\
    forall j e, es !! j = Some e ->
      Some (e_versionstamp e) = fold_left learn (omap (fun us => us !! j) rounds) None.
Proof.
  intros Hlen H. assert (Hi : length (Watch.initial keys) = length keys) by apply length_replicate.
  destruct (pull_learn deser _ _ _ _ _ _ _ Hi Hlen H) as (rounds & ? & ? & Hes & HF).
  exists rounds. split_and!; [done|done|done|]. intros j e Hj. rewrite (HF j e Hj). f_equal.
  unfold Watch.initial. rewrite lookup_replicate_2; [done|]. apply lookup_lt_Some in Hj. lia.
Qed.

Definition watch_demo : list (jsres (option (list watch_update))) :=
  [Ok (Some [UpdEntry (mkRaw [KBool true] (Raw_bytes [7]) [1]); UpdNull]); Ok None].

Lemma watch_up_to_date_witness :
  exists ls' es,
    Watch.pull (fun _ => Ok 0) [[KBool true]; [KBool false]] false watch_demo
      (Watch.initial [[KBool true]; [KBool false]]) = (ls', [Ok None], Some (Watch.PullEnqueue es)) /\
    exists rounds, watch_demo = ((fun us => Ok (Some us)) <$> rounds) ++ [Ok None] /\ rounds <> [] /\
      length es = 2%nat /\
      forall j e, es !! j = Some e ->
        Some (e_versionstamp e) = fold_left learn (omap (fun us => us !! j) rounds) None.
Proof.
  eexists _, _. split; [vm_compute; reflexivity|].
  eapply (watch_up_to_date (fun _ => Ok 0) [[KBool true]; [KBool false]] false watch_demo).
  - repeat constructor; by intros us [= <-].
  - vm_compute. reflexivity.
Defined.
