(* ===== verification/Cron.v ===== *)
(** * Deno.cron

    Models [src/ext/cron/01_cron.ts]: the translation of schedule objects to cron
    expressions, the argument checks of [cron], and the loop that runs the
    handler.  The numbers of a schedule are integers (below 10^21 in absolute
    value, where JavaScript prints them without an exponent), and their
    [toString] is decimal notation. *)

From Stdlib Require Import ZArith Lia.
From stdpp Require Import base list strings numbers option pretty.
From S2P Require Import Prelude.

#[local] Open Scope Z_scope.

(** [NumberPrototypeToString(n)], and [n + "..."] *)
Definition num_str (n : Z) : str := lit (pretty n).

(** A field of a schedule: absent, a number, [{ exact }] with a number or an
    array, or [{ start, end, every }]. *)
Inductive cron_field :=
  | FUndefined
  | FNumber (n : Z)
  | FExact (n : Z)
  | FExactList (ns : list Z)
  | FRange (start end_ every : option Z).

Definition formatToCronSchedule (value : cron_field) : jsres str :=
  match value with
  | FUndefined => Ok (lit "*")
  | FNumber n => Ok (num_str n)
  | FRange start end_ every =>
      match start, end_, every with
      | Some s, Some e, Some v => Ok (num_str s ++ lit "-" ++ num_str e ++ lit "/" ++ num_str v)
      | Some s, Some e, None => Ok (num_str s ++ lit "-" ++ num_str e)
      | Some s, None, Some v => Ok (num_str s ++ lit "/" ++ num_str v)
      | Some s, None, None => Ok (num_str s ++ lit "/1")
      | None, None, Some v => Ok (lit "*/" ++ num_str v)
      | _, _, _ => Throw (JsTypeError "Invalid cron schedule")
      end
  | FExact n => Ok (num_str n)
  | FExactList ns => Ok (js_join (lit ",") (num_str <$> ns))
  end.

Record CronSchedule := mkSchedule {
  minute : cron_field;
  hour : cron_field;
  dayOfMonth : cron_field;
  month : cron_field;
  dayOfWeek : cron_field;
}.

Definition given (f : cron_field) : bool :=
  match f with FUndefined => false | _ => true end.

(** The override of unspecified fields. *)
Definition override (s : CronSchedule) : CronSchedule :=
  if given (minute s) then s else
  if given (hour s) then
    mkSchedule (FNumber 0) (hour s) (dayOfMonth s) (month s) (dayOfWeek s)
  else if given (dayOfMonth s) || given (dayOfWeek s) then
    mkSchedule (FNumber 0) (FNumber 0) (dayOfMonth s) (month s) (dayOfWeek s)
  else if given (month s) then
    mkSchedule (FNumber 0) (FNumber 0) (FNumber 1) (month s) (dayOfWeek s)
  else s.

Inductive schedule_arg :=
  | SUndefined
  | SString (s : str)
  | SObject (s : CronSchedule).

Definition parseObject (s : CronSchedule) : jsres str :=
  let s := override s in
  let? a := formatToCronSchedule (minute s) in
  let? b := formatToCronSchedule (hour s) in
  let? c := formatToCronSchedule (dayOfMonth s) in
  let? d := formatToCronSchedule (month s) in
  let? e := formatToCronSchedule (dayOfWeek s) in
  Ok (a ++ lit " " ++ b ++ lit " " ++ c ++ lit " " ++ d ++ lit " " ++ e).

(** [undefined] has no properties to destructure. *)
Definition parseScheduleToString (schedule : schedule_arg) : jsres str :=
  match schedule with
  | SString s => Ok s
  | SObject s => parseObject s
  | SUndefined => Throw (JsTypeError "Cannot destructure")
  end.

(** ** [cron] *)

(** The third and fourth arguments: a handler, an options object (of type [O]),
    or something else. *)
Inductive cron_arg (H O : Type) :=
  | AHandler (h : H)
  | AOptions (o : O)
  | AUndefined.
Arguments AHandler {H O} _.
Arguments AOptions {H O} _.
Arguments AUndefined {H O}.

(** The checks of [cron] up to [op_cron_create]: its name and schedule, the
    handler, and the options ([handlerOrOptions1] may be [undefined]). *)
Definition cron_setup {H O} (name : option str) (schedule : schedule_arg)
    (handlerOrOptions1 handler2 : cron_arg H O) : jsres (str * str * H * option O) :=
  match name with
  | None => Throw (JsTypeError "Deno.cron requires a unique name")
  | Some name =>
      match schedule with
      | SUndefined => Throw (JsTypeError "Deno.cron requires a valid schedule")
      | _ =>
          let? schedule := parseScheduleToString schedule in
          match handlerOrOptions1, handler2 with
          | AHandler h, AUndefined => Ok (name, schedule, h, None)
          | AHandler _, _ => Throw (JsTypeError "Deno.cron requires a single handler")
          | AOptions o, AHandler h => Ok (name, schedule, h, Some o)
          | AUndefined, AHandler h => Ok (name, schedule, h, None)
          | _, _ => Throw (JsTypeError "Deno.cron requires a handler")
          end
      end
  end.

(** What the loop does: ask for the next run, reporting the last outcome, or run
    the handler. *)
Inductive cron_event :=
  | AskNext (success : bool)
  | RunHandler (ok : bool).

(** The loop, on what [op_cron_next] returns and on the outcomes of the
    handler ([false]: it threw or its promise was rejected); it waits when there
    is nothing more. *)
Fixpoint cron_loop (success : bool) (nexts outcomes : list bool) : list cron_event :=
  AskNext success ::
  match nexts with
  | true :: nexts' =>
      match outcomes with
      | ok :: outcomes' => RunHandler ok :: cron_loop ok nexts' outcomes'
      | [] => []
      end
  | _ => []
  end.

Definition cron_events (nexts outcomes : list bool) : list cron_event := cron_loop true nexts outcomes.

(** ** Theorems *)

(** No space. *)
Abbreviation spaceless := (Forall (fun c => (c =? 32) = false)).

Lemma pretty_N_go_spaceless n s : spaceless (lit s) -> spaceless (lit (pretty_N_go n s)).
Proof.
  revert s. induction (N.lt_wf_0 n) as [n _ IH]. intros s Hs.
  destruct (decide (0 < n)%N) as [Hn|Hn].
  - rewrite pretty_N_go_step by done. apply IH; [apply N.div_lt; lia|].
    unfold lit in *. simpl. constructor; [|done]. unfold pretty_N_char. by repeat case_match.
  - replace n with 0%N by lia. by rewrite pretty_N_go_0.
Qed.

Lemma pretty_N_spaceless (n : N) : spaceless (lit (pretty n)).
Proof.
  unfold pretty, pretty_N. case_decide; [by repeat constructor|].
  apply pretty_N_go_spaceless. constructor.
Qed.

Lemma num_str_spaceless n : spaceless (num_str n).
Proof.
  unfold num_str. destruct n as [|p|p]; [by repeat constructor|apply (pretty_N_spaceless (N.pos p))|].
  change (lit (pretty (Z.neg p))) with (45 :: lit (pretty (N.pos p))).
  constructor; [done|apply pretty_N_spaceless].
Qed.

Lemma js_join_spaceless ps : Forall (fun p => spaceless p) ps -> spaceless (js_join (lit ",") ps).
Proof.
  induction 1 as [|p ps Hp Hps IH]; [constructor|]. destruct ps as [|q ps]; [done|].
  change (js_join (lit ",") (p :: q :: ps)) with (p ++ lit "," ++ js_join (lit ",") (q :: ps)).
  apply Forall_app. split; [done|]. apply Forall_app. split; [by repeat constructor|done].
Qed.

Lemma format_spaceless f s : formatToCronSchedule f = Ok s -> spaceless s.
Proof.
  assert (Hl : forall t, forallb (fun c => negb (c =? 32)) (lit t) = true -> spaceless (lit t)).
  { intros t Ht. apply Forall_forall. intros c Hc. rewrite forallb_forall in Ht.
    apply list_elem_of_In in Hc. specialize (Ht c Hc). by apply negb_true_iff in Ht. }
  pose proof num_str_spaceless as Hn.
  destruct f as [|n|n|ns|[s1|] [e|] [v|]]; cbn [formatToCronSchedule]; intros E; try discriminate E;
    apply Ok_inj in E; subst s; rewrite ?Forall_app;
    try (split_and?; first [apply Hn|by apply Hl]).
  apply js_join_spaceless, Forall_fmap, Forall_true. intros n. apply Hn.
Qed.

(** The cron expression of a schedule object has exactly five fields,
    separated by single spaces: those of the minute, hour, day of month, month
    and day of week after the override of unspecified fields, none of which can
    run into its neighbour. *)
Lemma cron_five_fields sched s :
  parseScheduleToString (SObject sched) = Ok s ->
  exists fields, split_on (fun c => c =? 32) s = fields /\
    Forall2 (fun f t => formatToCronSchedule f = Ok t)
      [minute (override sched); hour (override sched); dayOfMonth (override sched);
       month (override sched); dayOfWeek (override sched)] fields.
Proof.
  simpl. unfold parseObject.
  intros (a & Ha & (b & Hb & (c & Hc & (d & Hd & (e & He & <-%Ok_inj)%jsbind_Ok)%jsbind_Ok)%jsbind_Ok)%jsbind_Ok)%jsbind_Ok.
  exists [a; b; c; d; e]. split; [|by repeat constructor].
  assert (Hs : forall x y f, formatToCronSchedule f = Ok x ->
    split_on (fun c => c =? 32) (x ++ lit " " ++ y) = x :: split_on (fun c => c =? 32) y).
  { intros x y f Hx%format_spaceless. by apply (split_on_app_sep (fun c => c =? 32)). }
  rewrite (Hs a _ _ Ha), (Hs b _ _ Hb), (Hs c _ _ Hc), (Hs d _ _ Hd).
  by rewrite (split_on_nosep _ e (format_spaceless _ _ He)).
Qed.

(** A job every two hours, on weekdays. *)
Definition weekdays : CronSchedule :=
  mkSchedule FUndefined (FRange None None (Some 2)) FUndefined FUndefined (FRange (Some 1) (Some 5) None).

Lemma cron_five_fields_witness :
  exists fields, split_on (fun c => c =? 32) (lit "0 */2 * * 1-5") = fields /\
    Forall2 (fun f t => formatToCronSchedule f = Ok t)
      [FNumber 0; FRange None None (Some 2); FUndefined; FUndefined; FRange (Some 1) (Some 5) None] fields.
Proof. apply (cron_five_fields weekdays). vm_compute. reflexivity. Defined.

(** How many runs [op_cron_next] grants before it returns [false]. *)
Fixpoint granted (nexts : list bool) : nat :=
  match nexts with true :: nexts' => S (granted nexts') | _ => O end.

(** The loop of [cron] asks for a run before each run of the handler, runs
    the handler once for each run granted and never two runs at a time, and
    reports each outcome with the next request (the first one reports success);
    it ends at the first [false]. *)
Lemma cron_reports_outcomes nexts outcomes :
  cron_events nexts outcomes =
    AskNext true :: concat (map (fun ok => [RunHandler ok; AskNext ok]) (take (granted nexts) outcomes)).
Proof.
  unfold cron_events. generalize true. revert outcomes.
  induction nexts as [|[|] nexts IH]; intros outcomes b; simpl; [done| |done].
  destruct outcomes as [|ok outcomes]; simpl; [done|]. by rewrite IH.
Qed.
