(* ===== verification/BufferBinding.v ===== *)
(** * The buffer binding: searching and converting bytes

    Models [src/ext/node/polyfills/internal_binding/buffer.ts] (searches in
    buffers), [internal_binding/_utils.ts] (strings to bytes and back) and
    [internal_binding/_timingSafeEqual.ts].  A [Uint8Array] is the list of its
    bytes; reading outside it gives [undefined] ([None]), and writing a number
    keeps its low eight bits.  The last function looks behind a view at its
    underlying buffer, so views are modelled there. *)

From Stdlib Require Import ZArith Lia.
From stdpp Require Import base list strings numbers option.
From S2P Require Import Prelude.

#[local] Open Scope Z_scope.

(** [a[i]] *)
Abbreviation item := charCodeAt.

(** [a === b] on elements that may be [undefined]. *)
Definition same (a b : option Z) : bool := bool_decide (a = b).

(** ** Searching *)

(** The inner loop of [indexOfNeedle]: how many items match from [pin] on; at
    most [needle.length - 1] rounds. *)
Definition match_from (source needle : list Z) (pin : Z) : Z :=
  for_up 1 (slen needle)
    (fun matched _ =>
       if negb (same (item source (pin + matched)) (item needle matched)) then Break matched
       else Continue (matched + 1)) 1.

Definition indexOfNeedle (source needle : list Z) (start : Z) : Z :=
  if start >=? slen source then -1 else
  let start := if start <? 0 then Z.max 0 (slen source + start) else start in
  for_up start (slen source)
    (fun i _ =>
       if negb (same (item source i) (item needle 0)) then Continue (-1)
       else if match_from source needle i =? slen needle then Break i
       else Continue (-1)) (-1).

(** [n & 255] and [n >>> 8] on the 32-bit integers JavaScript converts to. *)
Definition to_uint32 (n : Z) : Z := n mod 2 ^ 32.

(** [numberToBytes]: at most four rounds, since the first [>>>] makes a 32-bit
    number. *)
Fixpoint bytes_loop (fuel : nat) (n : Z) (bytes : list Z) : list Z :=
  match fuel with
  | O => bytes
  | S fuel' =>
      if n >=? 256 then
        let n := Z.shiftr (to_uint32 n) 8 in bytes_loop fuel' n (Z.land n 255 :: bytes)
      else bytes
  end.
Definition numberToBytes (n : Z) : list Z :=
  if n =? 0 then [0] else bytes_loop 4 n [Z.land n 255].

Record fl_state := mkFl { lastMatchIndex : Z; matches : Z; index : Z }.

(** The loop of [findLastIndex], whose variable [x] moves back after a partial
    match; [fuel] bounds its rounds. *)
Fixpoint fl_loop (fuel : nat) (searchable buffer : list Z) (x : Z) (st : fl_state) : option Z :=
  match fuel with
  | O => None
  | S fuel' =>
      let last := slen searchable - 1 in
      if negb (x <=? last) then Some (index st) else
      if same (item searchable (last - x)) (item buffer (slen buffer - 1 - matches st)) then
        let lm := if lastMatchIndex st =? -1 then x else lastMatchIndex st in
        let m := matches st + 1 in
        if m =? slen buffer then Some x
        else fl_loop fuel' searchable buffer (x + 1) (mkFl lm m (index st))
      else if negb (lastMatchIndex st =? -1) then
        fl_loop fuel' searchable buffer (lastMatchIndex st + 1 + 1) (mkFl (-1) 0 (index st))
      else fl_loop fuel' searchable buffer (x + 1) (mkFl (-1) 0 (index st))
  end.

(** Each round moves [x] forward by one or starts a new search two further on
    than the last one, so [(n + 1)^2] rounds are enough for [n] items. *)
Definition findLastIndex (target buffer : list Z) (offset : Z) : option Z :=
  let offset := if offset >? slen target then slen target else offset in
  let searchable := slice target 0 (offset + slen buffer) in
  match fl_loop (S (length searchable) * S (length searchable)) searchable buffer 0 (mkFl (-1) 0 (-1)) with
  | None => None
  | Some i => if i =? -1 then Some (-1) else Some (slen searchable - 1 - i)
  end.

(** [indexOfBuffer]; the test [!Encodings[encoding] === undefined] compares a
    boolean with [undefined] and never holds. *)
Definition indexOfBuffer (target buffer : list Z) (byteOffset : Z) (forwardDirection : bool) : option Z :=
  if negb forwardDirection then
    let byteOffset := if byteOffset <? 0 then slen target + byteOffset else byteOffset in
    if slen buffer =? 0 then Some (if byteOffset <=? slen target then byteOffset else slen target)
    else findLastIndex target buffer byteOffset
  else if slen buffer =? 0 then Some (if byteOffset <=? slen target then byteOffset else slen target)
  else Some (indexOfNeedle target buffer byteOffset).

Definition indexOfNumber (target : list Z) (number byteOffset : Z) (forwardDirection : bool) : jsres (option Z) :=
  let bytes := numberToBytes number in
  if slen bytes >? 1 then Throw (JsError "Multi byte number search is not supported")
  else Ok (indexOfBuffer target (numberToBytes number) byteOffset forwardDirection).

(** ** Strings and bytes *)

(** [byteArray[i] = v] *)
Definition set_byte (bytes : list Z) (i v : Z) : list Z := <[Z.to_nat i := Z.land v 255]> bytes.

Definition zeros (n : Z) : list Z := replicate (Z.to_nat n) 0.

Definition asciiToBytes (s : str) : list Z :=
  for_up 0 (slen s)
    (fun i bytes => Continue (set_byte bytes i (Z.land (default 0 (charCodeAt s i)) 255))) (zeros (slen s)).

(** [Number.parseInt(c, 16)] of one character: [None] is [NaN]. *)
Definition hex_digit (c : option Z) : option Z :=
  match c with
  | None => None
  | Some c =>
      if (48 <=? c) && (c <=? 57) then Some (c - 48) else
      if (97 <=? c) && (c <=? 102) then Some (c - 87) else
      if (65 <=? c) && (c <=? 70) then Some (c - 55) else None
  end.

(** [hexToBytes]: [i] and the array after the loop; [NaN] counts as 0 in [<<]
    and [|]. *)
Definition hexToBytes (s : str) : list Z :=
  let length := Z.shiftr (slen s) 1 in
  let '(i, bytes) :=
    for_up 0 length
      (fun i '(_, bytes) =>
         let a := hex_digit (charCodeAt s (i * 2)) in
         let b := hex_digit (charCodeAt s (i * 2 + 1)) in
         match a, b with
         | None, None => Break (i, bytes)
         | _, _ => Continue (i + 1, set_byte bytes i (Z.lor (Z.shiftl (default 0 a) 4) (default 0 b)))
         end)
      (0, zeros length) in
  if i =? length then bytes else slice bytes 0 i.

(** [utf16leToBytes]: [units] is [undefined] or a byte count. *)
Definition utf16leToBytes (s : str) (units : option Z) : list Z :=
  let length :=
    match units with
    | Some u => if u =? 0 then slen s * 2 else Z.min (slen s * 2) (Z.shiftr (to_uint32 u) 1 * 2)
    | None => slen s * 2
    end in
  for_up 0 (length / 2)
    (fun i bytes =>
       let c := default 0 (charCodeAt s i) in
       Continue (set_byte (set_byte bytes (i * 2) c) (i * 2 + 1) (Z.shiftr c 8)))
    (zeros length).

Definition bytesToAscii (bytes : list Z) : str :=
  for_up 0 (slen bytes)
    (fun i res => Continue (res ++ [Z.land (default 0 (item bytes i)) 127])) [].

(** [for (let i = 0; i < length - 1; i += 2)]: the number of rounds is half the
    length, rounded down. *)
Definition bytesToUtf16le (bytes : list Z) : str :=
  for_up 0 (slen bytes / 2)
    (fun k res =>
       Continue (res ++ [default 0 (item bytes (k * 2)) + 256 * default 0 (item bytes (k * 2 + 1))])) [].

(** ** Comparing in constant time *)

(** The arguments: a [Buffer] (or other typed array) and a [DataView], with the
    underlying buffer, the offset and the length, or an [ArrayBuffer]. *)
Inductive view :=
  | VBuffer (buffer : list Z) (byteOffset byteLength : Z)
  | VDataView (buffer : list Z) (byteOffset byteLength : Z)
  | VArrayBuffer (buffer : list Z).

Definition view_length (v : view) : Z :=
  match v with
  | VBuffer _ _ n | VDataView _ _ n => n
  | VArrayBuffer b => slen b
  end.

(** The bytes a view shows. *)
Definition view_bytes (v : view) : list Z :=
  match v with
  | VBuffer b o n | VDataView b o n => slice b o (o + n)
  | VArrayBuffer b => b
  end.

(** [new DataView(ArrayBuffer.isView(a) ? a.buffer : a)], unless it is one. *)
Definition to_dataview (v : view) : view :=
  match v with
  | VDataView b o n => VDataView b o n
  | VBuffer b _ _ => VDataView b 0 (slen b)
  | VArrayBuffer b => VDataView b 0 (slen b)
  end.

(** [getUint8] of a [DataView] throws outside its length. *)
Definition getUint8 (v : view) (i : Z) : option Z :=
  if (0 <=? i) && (i <? view_length v) then item (view_bytes v) i else None.

Definition stdTimingSafeEqual (a b : view) : jsres bool :=
  if negb (view_length a =? view_length b) then Ok false else
  let a := to_dataview a in
  let b := to_dataview b in
  let? out :=
    for_up 0 (view_length a)
      (fun i (out : jsres Z) =>
         match getUint8 a i, getUint8 b i with
         | Some x, Some y => Continue (let? o := out in Ok (Z.lor o (Z.lxor x y)))
         | _, _ => Break (Throw (JsRangeError "Offset is outside the bounds of the DataView"))
         end) (Ok 0) in
  Ok (out =? 0).

(** The two tests of [timingSafeEqual] both look at [a]. *)
Definition timingSafeEqual (a b : view) : jsres bool :=
  let a := match a with VBuffer buf _ _ => VDataView buf 0 (slen buf) | _ => a end in
  let b := match a with VBuffer buf _ _ => VDataView buf 0 (slen buf) | _ => b end in
  stdTimingSafeEqual a b.
