(* ===== verification/BufferTheorems.v ===== *)
(** * Theorems on the buffer binding *)

From Stdlib Require Import ZArith Lia.
From stdpp Require Import base list strings numbers option.
From S2P Require Import Prelude BufferBinding.

#[local] Open Scope Z_scope.

(** ** Searching *)

(** [needle] is in [source] at [p]. *)
Definition occurs (source needle : list Z) (p : Z) : Prop :=
  0 <= p /\ forall k, 0 <= k < slen needle -> item source (p + k) = item needle k.

Lemma match_from_spec source needle p :
  needle <> [] ->
  (match_from source needle p =? slen needle) = true <->
  forall k, 1 <= k < slen needle -> item source (p + k) = item needle k.
Proof.
  intros Hne. assert (1 <= slen needle) by (destruct needle; [done|]; rewrite slen_cons; slen_pos; lia).
  rewrite Z.eqb_eq. unfold match_from.
  apply (for_up_rule (fun m st => st = m /\ forall k, 1 <= k < m -> item source (p + k) = item needle k)
    (fun st => st = slen needle <-> forall k, 1 <= k < slen needle -> item source (p + k) = item needle k)).
  - done.
  - split; [done|]. lia.
  - intros m st Hm [-> Hk]. unfold same. case_bool_decide as E; simpl.
    + split; [done|]. intros k Hk'. destruct (Z.eq_dec k m) as [->|]; [done|]. apply Hk. lia.
    + split; [lia|]. intros Hall. by destruct E; apply Hall.
  - intros st [-> Hk]. done.
Qed.

Lemma occurs_unfold source needle p :
  needle <> [] -> 0 <= p ->
  occurs source needle p <->
  item source p = item needle 0 /\ (match_from source needle p =? slen needle) = true.
Proof.
  intros Hne Hp. rewrite match_from_spec by done. unfold occurs.
  assert (0 < slen needle) by (destruct needle; [done|]; rewrite slen_cons; slen_pos; lia).
  split.
  - intros [_ H']. split; [replace p with (p + 0) at 1 by lia; apply H'; lia|]. intros. apply H'. lia.
  - intros [H0 H1]. split; [done|]. intros k Hk. destruct (Z.eq_dec k 0) as [->|]; [by rewrite Z.add_0_r|].
    apply H1. lia.
Qed.

Lemma occurs_bound source needle p : needle <> [] -> occurs source needle p -> p < slen source.
Proof.
  intros Hne [Hp H]. destruct needle as [|x needle]; [done|]. specialize (H 0).
  rewrite slen_cons, Z.add_0_r in H. slen_pos. destruct (item source p) as [c|] eqn:E.
  - apply charCodeAt_Some in E. lia.
  - assert (None = Some x) as [=] by (apply H; lia).
Qed.

(** Where the search starts: a negative offset counts from the end. *)
Definition search_start (source : list Z) (start : Z) : Z :=
  if start <? 0 then Z.max 0 (slen source + start) else start.

(** [indexOfNeedle] returns the first position, from the offset on (a
    negative offset counts from the end), where the whole needle is in the
    buffer, and -1 exactly when there is none. *)
Lemma indexOfNeedle_first source needle start :
  needle <> [] ->
  let r := indexOfNeedle source needle start in
  let from := search_start source start in
  (r = -1 /\ forall p, from <= p -> ~ occurs source needle p) \/
  (from <= r /\ occurs source needle r /\ forall p, from <= p < r -> ~ occurs source needle p).
Proof.
  intros Hne. unfold indexOfNeedle. fold (search_start source start).
  pose proof (slen_nonneg source).
  destruct (Z.geb_spec start (slen source)) as [Hge|Hlt]; cbv zeta.
  { left. split; [done|]. intros p Hp Ho. apply occurs_bound in Ho; [|done].
    unfold search_start in Hp. destruct (Z.ltb_spec start 0); lia. }
  assert (Hfrom : 0 <= search_start source start <= slen source)
    by (unfold search_start; destruct (Z.ltb_spec start 0); lia).
  set (from := search_start source start) in *.
  apply (for_up_rule (fun i st => st = -1 /\ forall p, from <= p < i -> ~ occurs source needle p)
    (fun r => (r = -1 /\ forall p, from <= p -> ~ occurs source needle p) \/
              (from <= r /\ occurs source needle r /\ forall p, from <= p < r -> ~ occurs source needle p))).
  - lia.
  - split; [done|]. lia.
  - intros i st Hi [-> Hno].
    assert (Hstep : ~ occurs source needle i -> forall p, from <= p < i + 1 -> ~ occurs source needle p).
    { intros Hn p Hp. destruct (Z.eq_dec p i) as [->|]; [done|]. apply Hno. lia. }
    pose proof (occurs_unfold source needle i Hne ltac:(lia)) as Ho.
    unfold same. case_bool_decide as E0; simpl; [|split; [done|]; apply Hstep; tauto].
    destruct (match_from source needle i =? slen needle) eqn:Em.
    + right. split_and!; [lia|tauto|done].
    + split; [done|]. apply Hstep. intros [_ ?]%Ho. done.
  - intros st [-> Hno]. left. split; [done|]. intros p Hp Ho. apply (Hno p); [|done].
    split; [done|]. by eapply occurs_bound.
Qed.

Lemma indexOfNeedle_first_witness :
  let r := indexOfNeedle (lit "xxabab") (lit "ab") (-3) in
  let from := search_start (lit "xxabab") (-3) in
  (r = -1 /\ forall p, from <= p -> ~ occurs (lit "xxabab") (lit "ab") p) \/
  (from <= r /\ occurs (lit "xxabab") (lit "ab") r /\ forall p, from <= p < r -> ~ occurs (lit "xxabab") (lit "ab") p).
Proof. apply (indexOfNeedle_first (lit "xxabab") (lit "ab") (-3)). done. Defined.

(** [lastIndexOf] misses matches: after a partial match the search restarts
    one item too far, so it finds no [ab] in [abb] although there is one. *)
Lemma lastIndexOf_misses :
  indexOfBuffer (lit "abb") (lit "ab") 3 false = Some (-1) /\ occurs (lit "abb") (lit "ab") 0.
Proof.
  split; [reflexivity|]. split; [done|]. intros k Hk. change (slen (lit "ab")) with 2 in Hk.
  assert (k = 0 \/ k = 1) as [->| ->] by lia; done.
Qed.

(** ** Filling a byte array *)

Lemma zeros_S n : 0 <= n -> zeros (n + 1) = 0 :: zeros n.
Proof. intros. unfold zeros. by replace (Z.to_nat (n + 1)) with (S (Z.to_nat n)) by lia. Qed.

Lemma set_byte_append p n v i :
  i = slen p -> 0 <= n -> set_byte (p ++ zeros (n + 1)) i v = (p ++ [Z.land v 255]) ++ zeros n.
Proof.
  intros -> Hn. rewrite zeros_S by done. unfold set_byte, slen. rewrite Nat2Z.id.
  rewrite insert_app_r_alt by lia. rewrite Nat.sub_diag. simpl. by rewrite <-app_assoc.
Qed.

(** Pairs of items laid out one after the other. *)
Definition pairs {A} (g h : A -> Z) (l : list A) : list Z := flat_map (fun x => [g x; h x]) l.

Lemma slen_pairs {A} (g h : A -> Z) l : slen (pairs g h l) = slen l * 2.
Proof. unfold pairs. induction l as [|x l IH]; [done|]. simpl. rewrite !slen_cons, IH. lia. Qed.

Lemma pairs_app {A} (g h : A -> Z) l l' : pairs g h (l ++ l') = pairs g h l ++ pairs g h l'.
Proof. apply flat_map_app. Qed.

Lemma pairs_item {A} (g h : A -> Z) l1 x l2 i :
  i = slen l1 ->
  item (pairs g h (l1 ++ x :: l2)) (i * 2) = Some (g x) /\
  item (pairs g h (l1 ++ x :: l2)) (i * 2 + 1) = Some (h x).
Proof.
  intros ->. rewrite pairs_app. change (pairs g h (x :: l2)) with (g x :: h x :: pairs g h l2). split.
  - apply charCodeAt_middle. by rewrite slen_pairs.
  - replace (pairs g h l1 ++ g x :: h x :: pairs g h l2) with ((pairs g h l1 ++ [g x]) ++ h x :: pairs g h l2)
      by by rewrite <-app_assoc.
    apply charCodeAt_middle. rewrite slen_app, slen_pairs. done.
Qed.

(** ** Hexadecimal *)

Definition byte (b : Z) : Prop := 0 <= b < 256.

Definition hex_char (d : Z) : Z := if d <? 10 then 48 + d else 87 + d.

(** The hexadecimal text of bytes, as [toString("hex")] prints it. *)
Definition hex_text (bytes : list Z) : str := pairs (fun b => hex_char (b / 16)) (fun b => hex_char (b mod 16)) bytes.

Lemma hex_digit_char d : 0 <= d < 16 -> hex_digit (Some (hex_char d)) = Some d.
Proof.
  intros Hd. unfold hex_digit, hex_char. destruct (Z.ltb_spec d 10); zbool; simpl; f_equal; lia.
Qed.

Lemma nibbles b : byte b -> Z.land (Z.lor (Z.shiftl (b / 16) 4) (b mod 16)) 255 = b.
Proof.
  intros Hb. change 255 with (Z.ones 8). rewrite Z.land_ones by lia.
  assert (Hland : Z.land (Z.shiftl (b / 16) 4) (b mod 16) = 0).
  { apply Z.bits_inj'. intros n Hn. rewrite Z.land_spec, Z.bits_0. change 16 with (2 ^ 4).
    destruct (Z.ltb_spec n 4).
    - by rewrite Z.shiftl_spec_low.
    - rewrite Z.mod_pow2_bits_high by lia. apply andb_false_r. }
  pose proof (Z.add_lor_land (Z.shiftl (b / 16) 4) (b mod 16)) as E.
  rewrite Hland, Z.add_0_r, Z.shiftl_mul_pow2 in E by lia. rewrite Z.shiftl_mul_pow2 by lia.
  rewrite E. change (2 ^ 4) with 16.
  replace (b / 16 * 16 + b mod 16) with b by (pose proof (Z_div_mod_eq_full b 16); lia).
  apply Z.mod_small. exact Hb.
Qed.

(** Hexadecimal round trip: [hexToBytes] gives back the bytes of their
    hexadecimal text, for every byte string. *)
Lemma hex_roundtrip bytes : Forall byte bytes -> hexToBytes (hex_text bytes) = bytes.
Proof.
  intros HF. unfold hexToBytes, hex_text. rewrite slen_pairs.
  assert (Z.shiftr (slen bytes * 2) 1 = slen bytes) as ->.
  { rewrite Z.shiftr_div_pow2 by lia. apply Z.div_mul. lia. }
  apply (for_up_inv (fun i st => exists l1 l2, bytes = l1 ++ l2 /\ slen l1 = i /\
     st = (i, l1 ++ zeros (slen bytes - i)))
    0 (slen bytes) _ _ (fun st => (let '(i, bs) := st in if i =? slen bytes then bs else slice bs 0 i) = bytes)).
  - apply slen_nonneg.
  - exists [], bytes. split_and!; [done|done|]. by rewrite Z.sub_0_r.
  - intros i st Hi (l1 & l2 & E & Hl & ->). destruct l2 as [|b l2]; [rewrite app_nil_r in E; subst; lia|].
    destruct (pairs_item (fun b => hex_char (b / 16)) (fun b => hex_char (b mod 16)) l1 b l2 i)
      as [Ea Eb]; [done|]. rewrite <-E in Ea, Eb. rewrite Ea, Eb.
    assert (Hb : byte b) by (rewrite E in HF; apply Forall_app in HF as [_ HF]; by inversion HF).
    unfold byte in Hb. rewrite !hex_digit_char.
    2:{ apply Z.mod_pos_bound. lia. }
    2:{ Z.to_euclidean_division_equations. lia. }
    eexists. split; [reflexivity|]. exists (l1 ++ [b]), l2. rewrite <-app_assoc, slen_app.
    change (slen [b]) with 1. split_and!; [done|lia|]. f_equal. simpl default.
    replace (slen bytes - i) with (slen bytes - (i + 1) + 1) by lia.
    rewrite set_byte_append, nibbles by (done || lia). by rewrite <-app_assoc.
  - intros st (l1 & l2 & E & Hl & ->). rewrite Z.eqb_refl, Z.sub_diag.
    assert (l2 = []) as -> by (apply slen_0; rewrite E, slen_app in Hl; slen_pos; lia).
    change (zeros 0) with (@nil Z). by rewrite app_nil_r in *.
Qed.

Lemma hex_roundtrip_witness : hexToBytes (lit "00ff7f") = [0; 255; 127].
Proof. apply (hex_roundtrip [0; 255; 127]). repeat constructor; lia. Defined.

(** ** UTF-16 *)

Definition code_unit (c : Z) : Prop := 0 <= c < 65536.

Definition lo (c : Z) : Z := Z.land c 255.
Definition hi (c : Z) : Z := Z.land (Z.shiftr c 8) 255.

Lemma lo_hi c : code_unit c -> lo c + 256 * hi c = c.
Proof.
  unfold code_unit, lo, hi. intros Hc. change 255 with (Z.ones 8). rewrite !Z.land_ones by lia.
  rewrite Z.shiftr_div_pow2 by lia. change (2 ^ 8) with 256.
  rewrite (Z.mod_small (c / 256)) by (Z.to_euclidean_division_equations; lia).
  pose proof (Z_div_mod_eq_full c 256). lia.
Qed.

Lemma utf16_bytes s : utf16leToBytes s None = pairs lo hi s.
Proof.
  unfold utf16leToBytes. rewrite Z.div_mul by lia.
  apply (for_up_inv (fun i bs => exists l1 l2, s = l1 ++ l2 /\ slen l1 = i /\
     bs = pairs lo hi l1 ++ zeros ((slen s - i) * 2))
    0 (slen s) _ _ (fun bs => bs = pairs lo hi s)).
  - apply slen_nonneg.
  - exists [], s. split_and!; [done|done|]. by rewrite Z.sub_0_r.
  - intros i bs Hi (l1 & l2 & E & Hl & ->). destruct l2 as [|c l2]; [rewrite app_nil_r in E; subst; lia|].
    eexists. split; [reflexivity|]. exists (l1 ++ [c]), l2. rewrite <-app_assoc, slen_app.
    change (slen [c]) with 1. split_and!; [done|lia|].
    assert (charCodeAt s i = Some c) as -> by (rewrite E; by apply charCodeAt_middle). simpl default.
    replace ((slen s - i) * 2) with ((slen s - (i + 1)) * 2 + 1 + 1) by lia.
    rewrite set_byte_append by (rewrite ?slen_pairs; lia).
    rewrite set_byte_append by (rewrite ?slen_app, ?slen_pairs; try lia; change (slen [Z.land c 255]) with 1; lia).
    rewrite pairs_app, <-!app_assoc. done.
  - intros bs (l1 & l2 & E & Hl & ->). rewrite Z.sub_diag.
    assert (l2 = []) as -> by (apply slen_0; rewrite E, slen_app in Hl; slen_pos; lia).
    change (zeros (0 * 2)) with (@nil Z). by rewrite E, !app_nil_r.
Qed.

(** UTF-16 round trip: encoding a string to bytes and decoding them gives
    the string back, for every sequence of code units, lone surrogates
    included. *)
Lemma utf16_roundtrip s : Forall code_unit s -> bytesToUtf16le (utf16leToBytes s None) = s.
Proof.
  intros HF. rewrite utf16_bytes. unfold bytesToUtf16le. rewrite slen_pairs, Z.div_mul by lia.
  apply (for_up_inv (fun i res => exists l2, s = res ++ l2 /\ slen res = i)
    0 (slen s) _ _ (fun res => res = s)).
  - apply slen_nonneg.
  - by exists s.
  - intros i res Hi (l2 & E & Hl). destruct l2 as [|c l2]; [rewrite app_nil_r in E; subst; lia|].
    destruct (pairs_item lo hi res c l2 i) as [Ea Eb]; [done|]. rewrite <-E in Ea, Eb. rewrite Ea, Eb. simpl default.
    rewrite lo_hi by (rewrite E in HF; apply Forall_app in HF as [_ HF]; by inversion HF).
    eexists. split; [reflexivity|]. exists l2. rewrite <-app_assoc, slen_app. change (slen [c]) with 1.
    split; [done|lia].
  - intros res (l2 & E & Hl).
    assert (l2 = []) as -> by (apply slen_0; rewrite E, slen_app in Hl; slen_pos; lia).
    by rewrite E, app_nil_r.
Qed.

Lemma utf16_roundtrip_witness : bytesToUtf16le (utf16leToBytes [0x61; 0xD83D] None) = [0x61; 0xD83D].
Proof. apply utf16_roundtrip. repeat constructor; lia. Defined.

(** ** Constant-time comparison *)

(** A view of the whole of its buffer. *)
Definition whole (v : view) : Prop :=
  match v with
  | VBuffer b o n | VDataView b o n => o = 0 /\ n = slen b
  | VArrayBuffer _ => True
  end.

(** The buffer behind a view. *)
Definition backing (v : view) : list Z :=
  match v with VBuffer b _ _ | VDataView b _ _ | VArrayBuffer b => b end.

Lemma whole_dataview v : whole v -> to_dataview v = VDataView (backing v) 0 (slen (backing v)).
Proof. destruct v; simpl; [done|by intros [-> ->]|done]. Qed.

Lemma whole_length v : whole v -> view_length v = slen (backing v).
Proof. destruct v; simpl; [by intros [_ ->]..|done]. Qed.

Lemma getUint8_whole b i : 0 <= i < slen b -> getUint8 (VDataView b 0 (slen b)) i = item b i.
Proof. intros Hi. unfold getUint8. cbn [view_length view_bytes]. zbool.
  by rewrite Z.add_0_l, slice_all. Qed.

Lemma xor_loop (x y : list Z) :
  slen x = slen y ->
  exists out, for_up 0 (slen x)
    (fun i (out : jsres Z) =>
       match getUint8 (VDataView x 0 (slen x)) i, getUint8 (VDataView y 0 (slen y)) i with
       | Some a, Some b => Continue (let? o := out in Ok (Z.lor o (Z.lxor a b)))
       | _, _ => Break (Throw (JsRangeError "Offset is outside the bounds of the DataView"))
       end) (Ok 0) = Ok out /\ (out = 0 <-> x = y).
Proof.
  intros Hlen.
  apply (for_up_inv (fun i st => exists o, st = Ok o /\
           (o = 0 <-> forall k, (k < Z.to_nat i)%nat -> x !! k = y !! k))
    0 (slen x) _ _ (fun st => exists out, st = Ok out /\ (out = 0 <-> x = y))).
  - apply slen_nonneg.
  - exists 0. split; [done|]. split; [intros _ k Hk; lia|done].
  - intros i st Hi (o & -> & Ho). rewrite !getUint8_whole by lia. unfold item. zbool.
    destruct (lookup_lt_is_Some_2 x (Z.to_nat i)) as [a Ha]; [unfold slen in Hi; lia|].
    destruct (lookup_lt_is_Some_2 y (Z.to_nat i)) as [b Hb]; [unfold slen in *; lia|].
    rewrite Ha, Hb. simpl. eexists. split; [reflexivity|]. eexists. split; [reflexivity|].
    rewrite Z.lor_eq_0_iff, Z.lxor_eq_0_iff, Ho. split.
    + intros [Hk ->] k Hk'. destruct (decide (k = Z.to_nat i)) as [->|]; [congruence|apply Hk; lia].
    + intros Hk. split; [intros k Hk'; apply Hk; lia|].
      specialize (Hk (Z.to_nat i) ltac:(lia)). congruence.
  - intros st (o & -> & Ho). exists o. split; [done|]. rewrite Ho. split.
    + intros Hk. apply list_eq. intros k. destruct (decide (k < length x)%nat).
      * apply Hk. unfold slen. lia.
      * rewrite !lookup_ge_None_2; [done| |]; unfold slen in *; lia.
    + by intros ->.
Qed.

(** On views of whole buffers [timingSafeEqual] does not throw and decides
    whether the two hold the same bytes. *)
Lemma timingSafeEqual_whole a b :
  whole a -> whole b -> timingSafeEqual a b = Ok (bool_decide (view_bytes a = view_bytes b)).
Proof.
  intros Ha Hb.
  assert (Hbytes : forall v, whole v -> view_bytes v = backing v).
  { intros [buf o n|buf o n|buf]; simpl; [intros [-> ->]..|done]; apply slice_all. }
  rewrite !Hbytes by done. unfold timingSafeEqual.
  set (a' := match a with VBuffer buf _ _ => VDataView buf 0 (slen buf) | _ => a end).
  assert (Hda : to_dataview a' = VDataView (backing a) 0 (slen (backing a)))
    by (destruct a; [done|by apply whole_dataview|done]).
  assert (Hla : view_length a' = slen (backing a)) by (destruct a; [done|by apply whole_length|done]).
  assert (match a' with VBuffer buf _ _ => VDataView buf 0 (slen buf) | _ => b end = b) as ->.
  { by subst a'; destruct a. }
  unfold stdTimingSafeEqual. rewrite Hda, Hla, (whole_dataview b Hb), (whole_length b Hb).
  destruct (Z.eqb_spec (slen (backing a)) (slen (backing b))) as [Hl|Hl]; cbn [negb].
  - destruct (xor_loop _ _ Hl) as (out & E & Ho). cbn [view_length]. rewrite E. cbn [jsbind]. f_equal.
    destruct (Z.eqb_spec out 0) as [->|Hne]; symmetry; [apply bool_decide_eq_true|apply bool_decide_eq_false]; tauto.
  - rewrite bool_decide_eq_false_2; [done|]. intros E. by rewrite E in Hl.
Qed.

Lemma timingSafeEqual_whole_witness :
  timingSafeEqual (VBuffer [1; 2] 0 2) (VArrayBuffer [1; 3]) = Ok false.
Proof. apply (timingSafeEqual_whole (VBuffer [1; 2] 0 2) (VArrayBuffer [1; 3])); done. Defined.

(** On views of a part of their buffer [timingSafeEqual] compares the wrong
    bytes: two buffers with different contents are reported equal, and two with
    the same contents different. *)
Lemma timingSafeEqual_wrong :
  (let a := VBuffer [1; 2] 0 2 in let b := VBuffer [1; 2; 7; 8] 2 2 in
   view_bytes a <> view_bytes b /\ timingSafeEqual a b = Ok true) /\
  (let a := VBuffer [9; 1; 2] 1 2 in let b := VBuffer [1; 2] 0 2 in
   view_bytes a = view_bytes b /\ timingSafeEqual a b = Ok false).
Proof. vm_compute. done. Qed.
