(* ===== verification/Encoders.v ===== *)
(** * Percent-encoding and code points

    Models [src/ext/node/polyfills/internal/querystring.ts] ([hexTable],
    [isHexTable], [encodeStr]) and the UCS-2 helpers of
    [src/ext/node/polyfills/internal/idna.ts] ([ucs2decode], [ucs2encode]). *)

From Stdlib Require Import ZArith Lia.
From stdpp Require Import base list strings numbers option.
From S2P Require Import Prelude.

#[local] Open Scope Z_scope.

(** ** Tables *)

(** The upper-case hexadecimal digit of a number below 16. *)
Definition upper_hex (d : Z) : Z := if d <? 10 then 48 + d else 55 + d.

(** ["%" + ((i < 16 ? "0" : "") + i.toString(16)).toUpperCase()] *)
Definition hex_entry (i : Z) : str := [37; upper_hex (i / 16); upper_hex (i mod 16)].

Definition hexTable : list str := map hex_entry (map Z.of_nat (seq 0 256)).

Definition isHexTable : list Z :=
  [0; 0; 0; 0; 0; 0; 0; 0; 0; 0; 0; 0; 0; 0; 0; 0] ++
  [0; 0; 0; 0; 0; 0; 0; 0; 0; 0; 0; 0; 0; 0; 0; 0] ++
  [0; 0; 0; 0; 0; 0; 0; 0; 0; 0; 0; 0; 0; 0; 0; 0] ++
  [1; 1; 1; 1; 1; 1; 1; 1; 1; 1; 0; 0; 0; 0; 0; 0] ++
  [0; 1; 1; 1; 1; 1; 1; 0; 0; 0; 0; 0; 0; 0; 0; 0] ++
  [0; 0; 0; 0; 0; 0; 0; 0; 0; 0; 0; 0; 0; 0; 0; 0] ++
  [0; 1; 1; 1; 1; 1; 1; 0; 0; 0; 0; 0; 0; 0; 0; 0] ++
  [0; 0; 0; 0; 0; 0; 0; 0; 0; 0; 0; 0; 0; 0; 0; 0] ++
  replicate 128 0.

(** ** [encodeStr] *)

Section EncodeStr.
Context (noEscapeTable : list Z) (table : list str).

(** [hexTable[i]] in a concatenation. *)
Definition hex_at (i : Z) : str := default (lit "undefined") (table !! Z.to_nat i).

Record es_state := mkEs { es_out : str; es_lastPos : Z }.

(** [if (lastPos < i) out += str.slice(lastPos, i)] *)
Definition flush_run (s : str) (i : Z) (st : es_state) : str :=
  if es_lastPos st <? i then es_out st ++ slice s (es_lastPos st) i else es_out st.

(** The bytes of a code point that is not ASCII, percent-encoded. *)
Definition enc2 (c : Z) : str := hex_at (Z.lor 0xc0 (Z.shiftr c 6)) ++ hex_at (Z.lor 0x80 (Z.land c 0x3f)).
Definition enc3 (c : Z) : str :=
  hex_at (Z.lor 0xe0 (Z.shiftr c 12)) ++ hex_at (Z.lor 0x80 (Z.land (Z.shiftr c 6) 0x3f)) ++
  hex_at (Z.lor 0x80 (Z.land c 0x3f)).
Definition enc4 (c : Z) : str :=
  hex_at (Z.lor 0xf0 (Z.shiftr c 18)) ++ hex_at (Z.lor 0x80 (Z.land (Z.shiftr c 12) 0x3f)) ++
  hex_at (Z.lor 0x80 (Z.land (Z.shiftr c 6) 0x3f)) ++ hex_at (Z.lor 0x80 (Z.land c 0x3f)).

(** [0x10000 + (((c & 0x3ff) << 10) | c2)] *)
Definition pair_code (c d : Z) : Z := 0x10000 + Z.lor (Z.shiftl (Z.land c 0x3ff) 10) (Z.land d 0x3ff).

(** The [for] loop; every round moves [i] forward, so the length is enough
    fuel. *)
Fixpoint es_loop (fuel : nat) (s : str) (i : Z) (st : es_state) : jsres es_state :=
  match fuel with
  | O => Ok st
  | S fuel' =>
      match charCodeAt s i with
      | None => Ok st
      | Some c =>
          if c <? 0x80 then
            if code_is (charCodeAt noEscapeTable c) 1 then es_loop fuel' s (i + 1) st
            else es_loop fuel' s (i + 1) (mkEs (flush_run s i st ++ hex_at c) (i + 1))
          else
            let out := flush_run s i st in
            if c <? 0x800 then es_loop fuel' s (i + 1) (mkEs (out ++ enc2 c) (i + 1)) else
            if (c <? 0xd800) || (c >=? 0xe000)
            then es_loop fuel' s (i + 1) (mkEs (out ++ enc3 c) (i + 1)) else
            let i := i + 1 in
            if i >=? slen s then Throw ERR_INVALID_URI else
            let d := default 0 (charCodeAt s i) in
            es_loop fuel' s (i + 1) (mkEs (out ++ enc4 (pair_code c d)) (i + 1))
      end
  end.

Definition encodeStr (s : str) : jsres str :=
  if slen s =? 0 then Ok [] else
  let? st := es_loop (length s) s 0 (mkEs [] 0) in
  Ok (if es_lastPos st =? 0 then s
      else if es_lastPos st <? slen s then es_out st ++ sliceFrom s (es_lastPos st)
      else es_out st).

(** The reference: one code unit, or one surrogate pair, at a time. *)
Fixpoint encode_units (s : str) : jsres str :=
  match s with
  | [] => Ok []
  | c :: s1 =>
      if c <? 0x80 then
        let? r := encode_units s1 in
        Ok ((if code_is (charCodeAt noEscapeTable c) 1 then [c] else hex_at c) ++ r)
      else if c <? 0x800 then let? r := encode_units s1 in Ok (enc2 c ++ r)
      else if (c <? 0xd800) || (c >=? 0xe000) then let? r := encode_units s1 in Ok (enc3 c ++ r)
      else
        match s1 with
        | [] => Throw ERR_INVALID_URI
        | d :: s2 => let? r := encode_units s2 in Ok (enc4 (pair_code c d) ++ r)
        end
  end.

(** What [encodeStr] returns from the state of its loop at the end. *)
Definition es_result (s : str) (st : es_state) : str :=
  if es_lastPos st =? 0 then s
  else if es_lastPos st <? slen s then es_out st ++ sliceFrom s (es_lastPos st)
  else es_out st.

(** The state in the middle of the loop: [out] is what precedes the pending run,
    and is empty as long as nothing was escaped. *)
Definition es_inv (before run : str) (st : es_state) : Prop :=
  es_lastPos st = slen before /\ (before = [] -> es_out st = []).

Lemma flush_run_spec s before run rest st i :
  s = before ++ run ++ rest -> i = slen before + slen run -> es_inv before run st ->
  flush_run s i st = es_out st ++ run.
Proof.
  intros -> -> [Hl _]. unfold flush_run. rewrite Hl. destruct run as [|x run].
  - change (slen (@nil Z)) with 0. rewrite Z.add_0_r, Z.ltb_irrefl. by rewrite app_nil_r.
  - assert (0 < slen (x :: run)) by (rewrite slen_cons; slen_pos; lia). zbool. by rewrite slice_middle.
Qed.

Lemma es_result_end s before run st :
  s = before ++ run -> es_inv before run st -> es_result s st = es_out st ++ run.
Proof.
  intros -> [Hl Ho]. unfold es_result. rewrite Hl, slen_app. slen_pos.
  destruct (Z.eqb_spec (slen before) 0) as [Hz|Hz].
  - apply slen_0 in Hz as ->. by rewrite Ho.
  - destruct (Z.ltb_spec (slen before) (slen before + slen run)).
    + by rewrite sliceFrom_suffix.
    + by rewrite (slen_0 run), app_nil_r by lia.
Qed.

(** What the loop computes with [fuel] rounds left. *)
Definition es_correct (fuel : nat) : Prop := forall s before run rest st,
  s = before ++ run ++ rest -> es_inv before run st -> (length rest <= fuel)%nat ->
  (let? st' := es_loop fuel s (slen before + slen run) st in Ok (es_result s st')) =
  (let? r := encode_units rest in Ok (es_out st ++ run ++ r)).

(** An escape: the pending run and the escaped units [us] go to [out]. *)
Lemma es_escape fuel s before run us rest st enc :
  es_correct fuel -> s = before ++ run ++ us ++ rest -> us <> [] -> (length rest <= fuel)%nat ->
  (let? st' := es_loop fuel s (slen before + slen run + slen us)
                 (mkEs ((es_out st ++ run) ++ enc) (slen before + slen run + slen us)) in Ok (es_result s st')) =
  (let? r := encode_units rest in Ok (es_out st ++ run ++ enc ++ r)).
Proof.
  intros IH E Hne Hf.
  replace (slen before + slen run + slen us) with (slen (before ++ run ++ us) + slen (@nil Z))
    by (rewrite !slen_app; change (slen (@nil Z)) with 0; lia).
  rewrite (IH s (before ++ run ++ us) [] rest).
  - destruct (encode_units rest); simpl; [|done]. by rewrite <-!app_assoc.
  - by rewrite E, <-!app_assoc.
  - split; [cbn; change (slen (@nil Z)) with 0; lia|]. intros H. destruct us; [done|].
    by apply app_eq_nil in H as [_ [_ [=]]%app_eq_nil].
  - done.
Qed.

Lemma es_loop_spec fuel : es_correct fuel.
Proof.
  induction fuel as [|fuel IH]; intros s before run rest st E Hinv Hf.
  { destruct rest; [|simpl in Hf; lia]. rewrite app_nil_r in E. simpl.
    by rewrite (es_result_end _ _ _ _ E Hinv), app_nil_r. }
  destruct rest as [|c rest].
  { rewrite app_nil_r in E. simpl.
    assert (charCodeAt s (slen before + slen run) = None) as ->.
    { rewrite E. unfold charCodeAt. slen_pos. zbool. apply lookup_ge_None_2.
      rewrite length_app. unfold slen. lia. }
    simpl. by rewrite (es_result_end _ _ _ _ E Hinv), app_nil_r. }
  simpl in Hf. cbn [es_loop encode_units].
  assert (charCodeAt s (slen before + slen run) = Some c) as ->.
  { rewrite E, app_assoc. apply charCodeAt_middle. by rewrite slen_app. }
  rewrite (flush_run_spec s before run (c :: rest) st _ E eq_refl Hinv).
  pose proof (fun enc => es_escape fuel s before run [c] rest st enc IH E ltac:(done) ltac:(lia)) as Hesc.
  change (slen [c]) with 1 in Hesc.
  destruct (c <? 128); [|destruct (c <? 2048); [|destruct ((c <? 55296) || (c >=? 57344))]].
  - destruct (code_is (charCodeAt noEscapeTable c) 1); [|rewrite Hesc; by destruct (encode_units rest)].
    replace (slen before + slen run + 1) with (slen before + slen (run ++ [c])) by (rewrite slen_app; change (slen [c]) with 1; lia).
    rewrite (IH s before (run ++ [c]) rest); [|by rewrite E, <-!app_assoc|done|lia].
    destruct (encode_units rest); simpl; [|done]. by rewrite <-!app_assoc.
  - rewrite Hesc. by destruct (encode_units rest).
  - rewrite Hesc. by destruct (encode_units rest).
  - assert (Hlen : slen s = slen before + slen run + (1 + slen rest)) by (rewrite E, !slen_app, slen_cons; lia).
    destruct rest as [|d rest].
    { change (slen (@nil Z)) with 0 in Hlen. destruct (Z.geb_spec (slen before + slen run + 1) (slen s)); [done|lia]. }
    rewrite slen_cons in Hlen. slen_pos.
    destruct (Z.geb_spec (slen before + slen run + 1) (slen s)); [lia|].
    assert (charCodeAt s (slen before + slen run + 1) = Some d) as ->.
    { rewrite E. replace (before ++ run ++ c :: d :: rest) with ((before ++ run ++ [c]) ++ d :: rest)
        by by rewrite <-!app_assoc. apply charCodeAt_middle. rewrite !slen_app. change (slen [c]) with 1. lia. }
    simpl default. simpl in Hf.
    replace (slen before + slen run + 1 + 1) with (slen before + slen run + slen [c; d]) by (change (slen [c; d]) with 2; lia).
    rewrite (es_escape fuel s before run [c; d] rest); [|done|done|done|lia]. by destruct (encode_units rest).
Qed.

End EncodeStr.

(** [encodeStr] computes the percent-encoding of its argument one character
    at a time: the unescaped ASCII characters as they are, every other code
    point as the [%XX] escapes of its UTF-8 bytes, and [ERR_INVALID_URI] exactly
    when a surrogate ends the string; the runs it copies in one piece and the
    unchanged argument it returns when nothing is escaped make no difference. *)
Lemma encodeStr_by_unit noEscapeTable table s :
  encodeStr noEscapeTable table s = encode_units noEscapeTable table s.
Proof.
  unfold encodeStr. destruct s as [|c s]; [done|].
  assert ((slen (c :: s) =? 0) = false) as -> by (rewrite slen_cons; slen_pos; zbool; done).
  pose proof (es_loop_spec noEscapeTable table (length (c :: s)) (c :: s) [] [] (c :: s) (mkEs [] 0)
    eq_refl (conj eq_refl (fun _ => eq_refl)) ltac:(lia)) as H.
  unfold es_result in H. change (slen (@nil Z) + slen (@nil Z)) with 0 in H. rewrite H.
  by destruct (encode_units _ _ _).
Qed.

(** ** Code points *)

(** [ucs2decode] *)
Fixpoint u2_loop (fuel : nat) (s : str) (counter : Z) (output : list Z) : list Z :=
  match fuel with
  | O => output
  | S fuel' =>
      match charCodeAt s counter with
      | None => output
      | Some value =>
          let counter := counter + 1 in
          if (0xD800 <=? value) && (value <=? 0xDBFF) && (counter <? slen s) then
            let extra := default 0 (charCodeAt s counter) in
            let counter := counter + 1 in
            if Z.land extra 0xFC00 =? 0xDC00 then
              u2_loop fuel' s counter
                (output ++ [Z.shiftl (Z.land value 0x3FF) 10 + Z.land extra 0x3FF + 0x10000])
            else u2_loop fuel' s (counter - 1) (output ++ [value])
          else u2_loop fuel' s counter (output ++ [value])
      end
  end.
Definition ucs2decode (s : str) : list Z := u2_loop (length s) s 0 [].

(** [String.fromCodePoint]: a code point outside the basic plane is a surrogate
    pair. *)
Definition fromCodePoint (c : Z) : str :=
  if c <? 0x10000 then [c]
  else [0xD800 + Z.shiftr (c - 0x10000) 10; 0xDC00 + Z.land (c - 0x10000) 0x3FF].

Definition ucs2encode (array : list Z) : str := flat_map fromCodePoint array.

Definition utf16_unit (c : Z) : Prop := 0 <= c < 0x10000.

Lemma low_surrogate e : utf16_unit e -> Z.land e 0xFC00 = 0xDC00 -> e / 1024 = 55.
Proof.
  intros He H. apply (f_equal (fun x => Z.shiftr x 10)) in H.
  rewrite Z.shiftr_land in H. change (Z.shiftr 0xFC00 10) with (Z.ones 6) in H.
  change (Z.shiftr 0xDC00 10) with 55 in H. rewrite Z.land_ones, Z.shiftr_div_pow2 in H by lia.
  change (2 ^ 10) with 1024 in H. change (2 ^ 6) with 64 in H. unfold utf16_unit in He.
  rewrite Z.mod_small in H; [done|]. Z.to_euclidean_division_equations. lia.
Qed.

(** A surrogate pair is put back together. *)
Lemma fromCodePoint_pair v e :
  0xD800 <= v <= 0xDBFF -> utf16_unit e -> Z.land e 0xFC00 = 0xDC00 ->
  fromCodePoint (Z.shiftl (Z.land v 0x3FF) 10 + Z.land e 0x3FF + 0x10000) = [v; e].
Proof.
  intros Hv He H. apply low_surrogate in H; [|done]. unfold fromCodePoint.
  change 0x3FF with (Z.ones 10). rewrite !Z.land_ones, Z.shiftl_mul_pow2, Z.shiftr_div_pow2 by lia.
  change (2 ^ 10) with 1024.
  assert (Ev : v mod 1024 = v - 0xD800).
  { symmetry. apply (Z.mod_unique _ _ 54); lia. }
  pose proof (Z_div_mod_eq_full e 1024) as Ee. rewrite H in Ee.
  pose proof (Z.mod_pos_bound e 1024 ltac:(lia)) as Hb. rewrite Ev.
  destruct (Z.ltb_spec ((v - 0xD800) * 1024 + e mod 1024 + 0x10000) 0x10000); [lia|].
  replace ((v - 0xD800) * 1024 + e mod 1024 + 0x10000 - 0x10000) with (e mod 1024 + (v - 0xD800) * 1024) by lia.
  rewrite Z.div_add, Z_mod_plus_full by lia. rewrite (Z.div_small (e mod 1024)), Zmod_mod by lia.
  f_equal; [lia|]. f_equal. lia.
Qed.

Lemma ucs2encode_snoc out c : ucs2encode (out ++ [c]) = ucs2encode out ++ fromCodePoint c.
Proof. unfold ucs2encode. rewrite flat_map_app. simpl. by rewrite app_nil_r. Qed.

Lemma u2_loop_spec fuel s before rest out :
  Forall utf16_unit s -> s = before ++ rest -> ucs2encode out = before -> (length rest <= fuel)%nat ->
  ucs2encode (u2_loop fuel s (slen before) out) = s.
Proof.
  intros HF. revert before rest out. induction fuel as [|fuel IH]; intros before rest out E Eo Hf.
  { destruct rest; [|simpl in Hf; lia]. simpl. by rewrite E, app_nil_r. }
  assert (Hu : Forall utf16_unit rest) by (rewrite E in HF; by apply Forall_app in HF as [_ ?]).
  cbn [u2_loop]. destruct rest as [|v rest].
  { rewrite app_nil_r in E. assert (charCodeAt s (slen before) = None) as ->; [|by rewrite E].
    rewrite E. unfold charCodeAt. slen_pos. zbool. apply lookup_ge_None_2. unfold slen. lia. }
  assert (charCodeAt s (slen before) = Some v) as -> by (rewrite E; by apply charCodeAt_middle).
  inversion Hu as [|? ? Hv Hrest]; subst. simpl in Hf. unfold utf16_unit in Hv.
  assert (Hone : ucs2encode (u2_loop fuel (ucs2encode out ++ v :: rest) (slen (ucs2encode out) + 1) (out ++ [v])) =
                 ucs2encode out ++ v :: rest).
  { replace (slen (ucs2encode out) + 1) with (slen (ucs2encode out ++ [v])) by (rewrite slen_app; done).
    apply (IH _ rest); [by rewrite <-app_assoc| |lia].
    rewrite ucs2encode_snoc. unfold fromCodePoint. by destruct (Z.ltb_spec v 65536); [|lia]. }
  destruct (_ && _ && _) eqn:Ec; [|done].
  apply andb_true_iff in Ec as [[Hv1%Z.leb_le Hv2%Z.leb_le]%andb_true_iff Hlt%Z.ltb_lt].
  destruct rest as [|e rest]; [rewrite slen_app in Hlt; change (slen [v]) with 1 in Hlt; lia|].
  inversion Hrest as [|? ? He _]; subst.
  assert (charCodeAt (ucs2encode out ++ v :: e :: rest) (slen (ucs2encode out) + 1) = Some e) as ->.
  { replace (ucs2encode out ++ v :: e :: rest) with ((ucs2encode out ++ [v]) ++ e :: rest) by by rewrite <-app_assoc.
    apply charCodeAt_middle. by rewrite slen_app. }
  simpl default. destruct (Z.eqb_spec (Z.land e 0xFC00) 0xDC00) as [Hlow|_].
  - replace (slen (ucs2encode out) + 1 + 1) with (slen (ucs2encode out ++ [v; e])) by (rewrite slen_app; change (slen [v; e]) with 2; lia).
    simpl in Hf. apply (IH _ rest); [by rewrite <-app_assoc| |lia].
    by rewrite ucs2encode_snoc, fromCodePoint_pair.
  - by replace (slen (ucs2encode out) + 1 + 1 - 1) with (slen (ucs2encode out) + 1) by lia.
Qed.

(** Decoding a string to code points and encoding them again gives the
    string back, for every sequence of code units: surrogate pairs are joined
    and split again, lone surrogates kept. *)
Lemma ucs2_roundtrip s : Forall utf16_unit s -> ucs2encode (ucs2decode s) = s.
Proof. intros HF. by apply (u2_loop_spec (length s) s [] s []). Qed.

Lemma ucs2_roundtrip_witness :
  ucs2decode [0xD83D; 0xDE00; 0xDE00; 0xD83D] = [0x1F600; 0xDE00; 0xD83D] /\
  ucs2encode (ucs2decode [0xD83D; 0xDE00; 0xDE00; 0xD83D]) = [0xD83D; 0xDE00; 0xDE00; 0xD83D].
Proof. split; [reflexivity|]. apply ucs2_roundtrip. repeat constructor; lia. Defined.
