(* ===== verification/Diff.v ===== *)
(** * The difference of two arrays

    [src/ext/node/polyfills/_util/std_testing_diff.ts]: [diff], with its inner
    functions [createFP], [snake] and [backTrace], as the assertion messages
    call it.  The algorithm explores the edit graph of the two arrays diagonal
    by diagonal; [fp] keeps the farthest point of each diagonal and the typed
    array [routes] the way back from every point.

    - A JavaScript array that is assigned outside its range grows, so [fp] is a
      finite map from indices to points.
    - [routes] is a [Uint32Array]: what is written is taken modulo 2^32, a
      write outside its range is ignored and such a read gives [undefined].
    - The points are mutable objects in the code, but every point is a fresh
      object that is only changed before it is stored, so they are values here.
    - [value] is [None] where the code would read past the end of an array.
    - The loops [while (true)] and [while (fp[delta + offset].y < N)] take fuel;
      [None] is a loop that has not ended. *)

From Stdlib Require Import ZArith Lia.
From stdpp Require Import base list numbers option gmap strings.
From S2P Require Import Prelude.

#[local] Open Scope Z_scope.

(** ** Data *)

Record FarthestPoint := mkFP { y : Z; id : Z }.

Inductive DiffType := removed | common | added.

#[export] Instance DiffType_eq_dec : EqDecision DiffType.
Proof. solve_decision. Defined.

#[warnings="-register-all"]
Inductive DiffResult (T : Type) := mkResult {
  type : DiffType; value : option T; details : option (list (DiffResult T))
}.
Arguments mkResult {T} _ _ _.
Arguments type {T} _.
Arguments value {T} _.
Arguments details {T} _.

Definition REMOVED : Z := 1.
Definition COMMON : Z := 2.
Definition ADDED : Z := 3.

(** The variables the inner functions share. *)
Record diff_state := mkDiff {
  fp : gmap Z FarthestPoint; routes : list Z; ptr : Z; p : Z
}.

(** ** Arrays *)

(** [a[i]] on an array or a typed array: [undefined] outside its range. *)
Definition at_ {T} (a : list T) (i : Z) : option T :=
  if i <? 0 then None else a !! Z.to_nat i.

(** [routes[i] = v]. *)
Definition set_u32 (i v : Z) (a : list Z) : list Z :=
  if i <? 0 then a else <[Z.to_nat i := v mod 2 ^ 32]> a.

(** A loop whose body may throw. *)
Definition throwing {St} (body : Z -> St -> jsres St) (i : Z) (s : jsres St) : ctl (jsres St) :=
  match s with
  | Throw e => Break (Throw e)
  | Ok st => match body i st with Ok st' => Continue (Ok st') | Throw e => Break (Throw e) end
  end.

(** An absent or zero number is falsy. *)
Definition falsy (v : option Z) : bool :=
  match v with None => true | Some z => z =? 0 end.

Section diff.
Context {T : Type} `{EqDecision T}.

(** [===] of two elements, [undefined] included. *)
Definition same (a b : option T) : bool := bool_decide (a = b).

Definition createCommon (A B : list T) (reverse : bool) : list (option T) :=
  if (slen A =? 0) || (slen B =? 0) then []
  else
    for_up 0 (Z.min (slen A) (slen B))
      (fun i common =>
         let a := at_ A (if reverse then slen A - i - 1 else i) in
         let b := at_ B (if reverse then slen B - i - 1 else i) in
         if same a b then Continue (common ++ [a]) else Break common) [].

(** ** The way back *)

(** [half] is [diffTypesPtrOffset]; one turn takes the element of one edit. *)
Fixpoint backTrace_loop (fuel : nat) (rts : list Z) (half : Z) (A B : list T) (swapped : bool)
    (result : list (DiffResult T)) (a b : Z) (j ty : option Z) : option (list (DiffResult T)) :=
  match fuel with
  | O => None
  | S fuel' =>
      if falsy j && falsy ty then Some result
      else
        let prev := j in
        let j' := prev ≫= at_ rts in
        let ty' := prev ≫= (fun q => at_ rts (q + half)) in
        match ty with
        | Some 1 =>
            backTrace_loop fuel' rts half A B swapped
              (mkResult (if swapped then removed else added) (at_ B b) None :: result) a (b - 1) j' ty'
        | Some 3 =>
            backTrace_loop fuel' rts half A B swapped
              (mkResult (if swapped then added else removed) (at_ A a) None :: result) (a - 1) b j' ty'
        | _ =>
            backTrace_loop fuel' rts half A B swapped
              (mkResult common (at_ A a) None :: result) (a - 1) (b - 1) j' ty'
        end
  end.

Definition backTrace (fuel : nat) (rts : list Z) (half : Z) (A B : list T)
    (current : FarthestPoint) (swapped : bool) : option (list (DiffResult T)) :=
  backTrace_loop fuel rts half A B swapped [] (slen A - 1) (slen B - 1)
    (at_ rts (id current)) (at_ rts (id current + half)).

(** ** The farthest points *)

(** [ptr++; routes[ptr] = prev; routes[ptr + diffTypesPtrOffset] = ty]. *)
Definition record_route (half prev ty : Z) (st : diff_state) : diff_state :=
  let ptr' := ptr st + 1 in
  mkDiff (fp st) (set_u32 (ptr' + half) ty (set_u32 ptr' prev (routes st))) ptr' (p st).

(** The condition for a step to the right: [undefined] compares as false. *)
Definition goes_right (slide down : option FarthestPoint) (k M : Z) : bool :=
  match down with Some d => y d =? -1 | None => false end || (k =? M) ||
  match slide, down with Some s, Some d => y s >? y d + 1 | _, _ => false end.

Definition createFP (half : Z) (slide down : option FarthestPoint) (k M : Z) (st : diff_state)
    : jsres (diff_state * FarthestPoint) :=
  if match slide, down with Some s, Some d => (y s =? -1) && (y d =? -1) | _, _ => false end
  then Ok (st, mkFP 0 0)
  else if goes_right slide down k M then
    match slide with
    | None => Throw (JsTypeError "Cannot read properties of undefined (reading 'id')"%string)
    | Some s => let st := record_route half (id s) ADDED st in Ok (st, mkFP (y s) (ptr st))
    end
  else
    match down with
    | None => Throw (JsTypeError "Cannot read properties of undefined (reading 'id')"%string)
    | Some d => let st := record_route half (id d) REMOVED st in Ok (st, mkFP (y d + 1) (ptr st))
    end.

(** One turn of the [while] of [snake]; it ends at the latest when [y] is [N]. *)
Definition snake_body (half k : Z) (A B : list T) (_ : Z) (s : diff_state * FarthestPoint)
    : ctl (diff_state * FarthestPoint) :=
  let '(st, f) := s in
  if (y f + k <? slen A) && (y f <? slen B) && same (at_ A (y f + k)) (at_ B (y f))
  then let st := record_route half (id f) COMMON st in Continue (st, mkFP (y f + 1) (ptr st))
  else Break (st, f).

Definition snake (half k : Z) (slide down : option FarthestPoint) (A B : list T) (st : diff_state)
    : jsres (diff_state * FarthestPoint) :=
  if (k <? - slen B) || (slen A <? k) then Ok (st, mkFP (-1) (-1))
  else
    let? s := createFP half slide down k (slen A) st in
    Ok (for_up (y s.2) (slen B) (snake_body half k A B) s).

(** [fp[k + offset] = snake(k, fp[k - 1 + offset], fp[k + 1 + offset], ...)] *)
Definition update_fp (half offset : Z) (A B : list T) (k : Z) (st : diff_state) : jsres diff_state :=
  let? s := snake half k (fp st !! (k - 1 + offset)) (fp st !! (k + 1 + offset)) A B st in
  Ok (mkDiff (<[k + offset := s.2]> (fp s.1)) (routes s.1) (ptr s.1) (p s.1)).

(** The body of the outer loop. *)
Definition diff_round (half offset delta : Z) (A B : list T) (st : diff_state) : jsres diff_state :=
  let st := mkDiff (fp st) (routes st) (ptr st) (p st + 1) in
  let? st := for_up (- p st) delta (throwing (update_fp half offset A B)) (Ok st) in
  let? st := for_down (delta + p st) (delta + 1) (throwing (update_fp half offset A B)) (Ok st) in
  update_fp half offset A B delta st.

Fixpoint diff_loop (fuel : nat) (half offset delta : Z) (A B : list T) (st : diff_state)
    : option (jsres diff_state) :=
  match fuel with
  | O => None
  | S fuel' =>
      match fp st !! (delta + offset) with
      | None => Some (Throw (JsTypeError "Cannot read properties of undefined (reading 'y')"%string))
      | Some f =>
          if y f <? slen B then
            match diff_round half offset delta A B st with
            | Throw e => Some (Throw e)
            | Ok st' => diff_loop fuel' half offset delta A B st'
            end
          else Some (Ok st)
      end
  end.

(** [ArrayFrom({ length: size }, () => ({ y: -1, id: -1 }))] *)
Definition fresh_fp (size : Z) : gmap Z FarthestPoint :=
  list_to_map (map (fun i => (i, mkFP (-1) (-1))) (seqZ 0 size)).

Definition init_state (M N : Z) : diff_state :=
  let size := M + N + 1 in
  mkDiff (fresh_fp size) (replicate (Z.to_nat ((M * N + size + 1) * 2)) 0) 0 (-1).

(** The search and the way back, for [A] at least as long as [B] (lines 127 to
    270, and 278). *)
Definition diff_middle (fuel : nat) (A B : list T) (swapped : bool)
    : option (jsres (list (DiffResult T))) :=
  let M := slen A in
  let N := slen B in
  let offset := N in
  let delta := M - N in
  let st := init_state M N in
  let half := slen (routes st) / 2 in
  match diff_loop fuel half offset delta A B st with
  | None => None
  | Some (Throw e) => Some (Throw e)
  | Some (Ok st) =>
      match fp st !! (delta + offset) with
      | None => Some (Throw (JsTypeError "Cannot read properties of undefined (reading 'id')"%string))
      | Some f => option_map Ok (backTrace fuel (routes st) half A B f swapped)
      end
  end.

Definition as_common (c : option T) : DiffResult T := mkResult common c None.

Definition diff (fuel : nat) (A B : list T) : option (jsres (list (DiffResult T))) :=
  let prefixCommon := createCommon A B false in
  let n := slen prefixCommon in
  let suffixCommon := rev (createCommon (sliceFrom A n) (sliceFrom B n) true) in
  let m := slen suffixCommon in
  let A := if m =? 0 then sliceFrom A n else slice A n (- m) in
  let B := if m =? 0 then sliceFrom B n else slice B n (- m) in
  let swapped := slen B >? slen A in
  let '(A, B) := if swapped then (B, A) else (A, B) in
  if (slen A =? 0) && (slen B =? 0) && (m =? 0) && (n =? 0) then Some (Ok [])
  else if slen B =? 0 then
    Some (Ok (map as_common prefixCommon ++
              map (fun a => mkResult (if swapped then added else removed) (Some a) None) A ++
              map as_common suffixCommon))
  else
    match diff_middle fuel A B swapped with
    | Some (Ok r) => Some (Ok (map as_common prefixCommon ++ r ++ map as_common suffixCommon))
    | r => r
    end.

End diff.
