(* ===== verification/DiffProps.v ===== *)
(** * The search of [diff]: invariants

    The points of the edit graph are pairs of a position in [A] and one in [B].
    Every recorded route has a ghost point: [pts] lists them by route number.
    The invariant says that a route leads from its predecessor's point to its
    own by one edit, that no point is recorded twice (so the typed array never
    overflows) and that [fp] holds the farthest recorded point of each
    diagonal.  The values of [fp] are then followed through one round. *)

From Stdlib Require Import ZArith Lia.
From stdpp Require Import base list numbers option gmap.
From S2P Require Import Prelude Diff.

#[local] Open Scope Z_scope.

(** ** Arrays *)

Lemma at_Some {T} (a : list T) i v : at_ a i = Some v -> 0 <= i < slen a.
Proof.
  unfold at_, slen. destruct (Z.ltb_spec i 0); [done|]. intros H1%lookup_lt_Some. lia.
Qed.

Lemma at_app_l {T} (a b : list T) i v : at_ a i = Some v -> at_ (a ++ b) i = Some v.
Proof. unfold at_. destruct (i <? 0); [done|]. apply lookup_app_l_Some. Qed.

Lemma at_app_last {T} (a : list T) v : at_ (a ++ [v]) (slen a) = Some v.
Proof.
  unfold at_, slen. destruct (Z.ltb_spec (Z.of_nat (length a)) 0); [lia|].
  by rewrite Nat2Z.id, list_lookup_middle.
Qed.

Lemma at_app_inv {T} (a : list T) v i w :
  at_ (a ++ [v]) i = Some w -> at_ a i = Some w \/ (i = slen a /\ w = v).
Proof.
  unfold at_, slen. destruct (Z.ltb_spec i 0); [done|]. intros [H1|[H1 H2]]%lookup_app_Some; [by left|].
  apply list_lookup_singleton_Some in H2 as [H2 <-]. right. split; [lia|done].
Qed.

Lemma at_elem {T} (a : list T) v : v ∈ a <-> exists i, at_ a i = Some v.
Proof.
  rewrite list_elem_of_lookup. split.
  - intros [i Hi]. exists (Z.of_nat i). unfold at_.
    destruct (Z.ltb_spec (Z.of_nat i) 0); [lia|]. by rewrite Nat2Z.id.
  - intros [i Hi]. unfold at_ in Hi. destruct (i <? 0); [done|]. eauto.
Qed.

Lemma set_u32_same a i v : 0 <= i < slen a -> 0 <= v < 2 ^ 32 -> at_ (set_u32 i v a) i = Some v.
Proof.
  intros Hi Hv. unfold at_, set_u32, slen in *. destruct (Z.ltb_spec i 0); [lia|].
  rewrite list_lookup_insert_eq by lia. by rewrite Z.mod_small.
Qed.

Lemma set_u32_other a i j v : i <> j -> at_ (set_u32 i v a) j = at_ a j.
Proof.
  intros. unfold at_, set_u32. destruct (Z.ltb_spec j 0); [done|].
  destruct (Z.ltb_spec i 0); [done|]. apply list_lookup_insert_ne. lia.
Qed.

Lemma slen_set_u32 a i v : slen (set_u32 i v a) = slen a.
Proof. unfold set_u32, slen. destruct (i <? 0); [done|]. by rewrite length_insert. Qed.

(** A list of distinct points of a grid is no longer than the grid. *)
Lemma grid_length (m n : Z) (l : list (Z * Z)) :
  0 <= m -> 0 <= n -> NoDup l -> Forall (fun q => 0 <= q.1 <= m /\ 0 <= q.2 <= n) l ->
  slen l <= (m + 1) * (n + 1).
Proof.
  intros Hm Hn Hnd Hbox. set (g := list_prod (seqZ 0 (m + 1)) (seqZ 0 (n + 1))).
  assert (Hle : (length l <= length g)%nat).
  { apply submseteq_length, NoDup_submseteq; [done|]. intros [a b] Hq.
    rewrite Forall_forall in Hbox. apply Hbox in Hq. simpl in Hq.
    apply list_elem_of_In, in_prod; apply list_elem_of_In, elem_of_seqZ; lia. }
  unfold g in Hle. rewrite length_prod, !length_seqZ in Hle. unfold slen. nia.
Qed.

(** Loops whose body throws nothing. *)
Lemma for_n_throwing {St} (I : Z -> St -> Prop) (P : Z -> Prop) body n step i s :
  I i s ->
  (forall j s, P j -> I j s -> exists s', body j s = Ok s' /\ I (j + step) s') ->
  (forall m, 0 <= m < Z.of_nat n -> P (i + m * step)) ->
  exists s', for_n n step i (throwing body) (Ok s) = Ok s' /\ I (i + Z.of_nat n * step) s'.
Proof.
  intros Hs Hb. revert i s Hs. induction n as [|n IH]; intros i s Hs HP; simpl.
  - exists s. split; [done|]. by replace (i + Z.of_nat 0 * step) with i by lia.
  - destruct (Hb i s) as (s' & -> & Hs'); [|done|].
    { pose proof (HP 0 ltac:(lia)) as H0. by replace (i + 0 * step) with i in H0 by lia. }
    destruct (IH (i + step) s' Hs') as (s2 & E & H2).
    { intros m Hm. replace (i + step + m * step) with (i + (m + 1) * step) by lia. apply HP. lia. }
    exists s2. split; [done|]. by replace (i + Z.of_nat (S n) * step) with (i + step + Z.of_nat n * step) by lia.
Qed.

Lemma for_up_throwing {St} (I : Z -> St -> Prop) body lo hi s :
  lo <= hi -> I lo s ->
  (forall i s, lo <= i < hi -> I i s -> exists s', body i s = Ok s' /\ I (i + 1) s') ->
  exists s', for_up lo hi (throwing body) (Ok s) = Ok s' /\ I hi s'.
Proof.
  intros Hle Hs Hb. unfold for_up.
  destruct (for_n_throwing I (fun i => lo <= i < hi) body (Z.to_nat (hi - lo)) 1 lo s) as (s' & E & H');
    [done|done|lia|].
  exists s'. split; [done|]. by replace (lo + Z.of_nat (Z.to_nat (hi - lo)) * 1) with hi in H' by lia.
Qed.

Lemma for_down_throwing {St} (I : Z -> St -> Prop) body lo hi s :
  lo <= hi + 1 -> I hi s ->
  (forall i s, lo <= i <= hi -> I i s -> exists s', body i s = Ok s' /\ I (i - 1) s') ->
  exists s', for_down hi lo (throwing body) (Ok s) = Ok s' /\ I (lo - 1) s'.
Proof.
  intros Hle Hs Hb. unfold for_down.
  destruct (for_n_throwing I (fun i => lo <= i <= hi) body (Z.to_nat (hi - lo + 1)) (-1) hi s)
    as (s' & E & H'); [done|done|lia|].
  exists s'. split; [done|].
  by replace (hi + Z.of_nat (Z.to_nat (hi - lo + 1)) * -1) with (lo - 1) in H' by lia.
Qed.

Section search.
Context {T : Type} `{EqDecision T} (A B : list T).
Abbreviation M := (slen A).
Abbreviation N := (slen B).
Abbreviation half := (M * N + M + N + 2).
Hypothesis Hfits : half <= 2 ^ 32.

(** ** Routes *)

(** One edit, by its type number. *)
Inductive edit : Z -> Z * Z -> Z * Z -> Prop :=
  | edit_added u v : edit ADDED (u, v) (u + 1, v)
  | edit_removed u v : edit REMOVED (u, v) (u, v + 1)
  | edit_common u v : u < M -> v < N -> at_ A u = at_ B v -> edit COMMON (u, v) (u + 1, v + 1).

Definition in_box (q : Z * Z) : Prop := 0 <= q.1 <= M /\ 0 <= q.2 <= N.

(** The route of number [i] ends with an edit to the point of number [i]. *)
Definition route_ok (st : diff_state) (pts : list (Z * Z)) (i : Z) : Prop :=
  exists j ty q q', 0 <= j < i /\ at_ (routes st) i = Some j /\ at_ (routes st) (i + half) = Some ty /\
    at_ pts j = Some q /\ at_ pts i = Some q' /\ edit ty q q'.

Record routes_ok (st : diff_state) (pts : list (Z * Z)) : Prop := {
  ro_ptr : slen pts = ptr st + 1;
  ro_len : slen (routes st) = half * 2;
  ro_origin : at_ pts 0 = Some (0, 0);
  ro_start : at_ (routes st) 0 = Some 0 /\ at_ (routes st) half = Some 0;
  ro_nodup : NoDup pts;
  ro_box : Forall in_box pts;
  ro_steps : forall i, 0 < i <= ptr st -> route_ok st pts i
}.

Lemma edit_nonzero ty q q' : edit ty q q' -> in_box q -> q' <> (0, 0) /\ 1 <= ty <= 3.
Proof. unfold in_box. destruct 1; simpl; intros; split; try done; intros [=]; lia. Qed.

Lemma record_ok st pts prev ty q q' :
  routes_ok st pts -> at_ pts prev = Some q -> edit ty q q' -> in_box q' -> q' ∉ pts ->
  routes_ok (record_route half prev ty st) (pts ++ [q']).
Proof.
  intros [Hptr Hlen H0 [Hs1 Hs2] Hnd Hbox Hst] Hq He Hb Hnew.
  assert (Hnd' : NoDup (pts ++ [q'])) by (apply NoDup_app; split; [done|split; [|apply NoDup_singleton]]; by intros r Hr1 ->%list_elem_of_singleton).
  assert (Hbox' : Forall in_box (pts ++ [q'])) by (apply Forall_app; split; [done|by constructor]).
  pose proof (grid_length M N _ (slen_nonneg _) (slen_nonneg _) Hnd' Hbox') as Hcap.
  rewrite slen_app, slen_cons, slen_nil in Hcap.
  pose proof (at_Some _ _ _ Hq) as Hprev. pose proof (at_Some _ _ _ H0) as Hpos.
  assert (Hty : 1 <= ty <= 3).
  { apply (edit_nonzero ty q q'); [done|]. rewrite Forall_forall in Hbox. apply Hbox, at_elem. eauto. }
  pose proof (slen_nonneg A). pose proof (slen_nonneg B).
  unfold record_route. split; simpl.
  - rewrite slen_app, slen_cons, slen_nil. lia.
  - by rewrite !slen_set_u32.
  - by apply at_app_l.
  - rewrite !set_u32_other by lia. done.
  - done.
  - done.
  - intros i Hi. destruct (decide (i = ptr st + 1)) as [->|Hne].
    + exists prev, ty, q, q'. simpl. split_and!; [lia|lia| | |by apply at_app_l| |done].
      * rewrite set_u32_other by lia. apply set_u32_same; [lia|nia].
      * apply set_u32_same; [rewrite slen_set_u32; lia|lia].
      * rewrite <- Hptr. apply at_app_last.
    + destruct (Hst i ltac:(lia)) as (j & ty' & r & r' & ? & ? & ? & ? & ? & ?).
      exists j, ty', r, r'. simpl. rewrite !set_u32_other by lia.
      split_and!; [lia|lia|done|done|by apply at_app_l|by apply at_app_l|done].
Qed.

Lemma in_box_at st pts i q : routes_ok st pts -> at_ pts i = Some q -> in_box q.
Proof. intros Hr Hq. pose proof (ro_box _ _ Hr) as Hb. rewrite Forall_forall in Hb. apply Hb, at_elem. eauto. Qed.

(** The cost of a route, the number of its [REMOVED] edits; [ds] lists the costs
    by route number. *)
Definition weight (ty : Z) : Z := if ty =? REMOVED then 1 else 0.

Record costs_ok (st : diff_state) (ds : list Z) : Prop := {
  co_ptr : slen ds = ptr st + 1;
  co_start : at_ ds 0 = Some 0;
  co_steps : forall i, 0 < i <= ptr st -> exists j ty d, at_ (routes st) i = Some j /\
    at_ (routes st) (i + half) = Some ty /\ at_ ds j = Some d /\ at_ ds i = Some (d + weight ty)
}.

Lemma record_cost st pts ds prev ty q q' d :
  routes_ok st pts -> at_ pts prev = Some q -> edit ty q q' -> in_box q' -> q' ∉ pts ->
  costs_ok st ds -> at_ ds prev = Some d ->
  costs_ok (record_route half prev ty st) (ds ++ [d + weight ty]).
Proof.
  intros Hr Hq He Hb Hnew [Hptr Hs Hst] Hd.
  pose proof (record_ok _ _ _ _ _ _ Hr Hq He Hb Hnew) as Hr'.
  pose proof (ro_ptr _ _ Hr) as Hp. pose proof (at_Some _ _ _ Hs) as Hpos.
  destruct (ro_steps _ _ Hr' (ptr st + 1)) as (j & ty' & r & r' & _ & E1 & E2 & _ & _ & _); [simpl; lia|].
  pose proof (at_Some _ _ _ E2) as Hl. unfold record_route in *. simpl in *. rewrite !slen_set_u32 in Hl.
  pose proof (at_Some _ _ _ Hq). pose proof (at_Some _ _ _ Hd).
  pose proof (slen_nonneg A). pose proof (slen_nonneg B). pose proof (ro_len _ _ Hr) as Hlen.
  assert (Hty : 1 <= ty <= 3) by apply (edit_nonzero ty q q' He (in_box_at _ _ _ _ Hr Hq)).
  split; simpl.
  - rewrite slen_app, slen_cons, slen_nil. lia.
  - by apply at_app_l.
  - intros i Hi. destruct (decide (i = ptr st + 1)) as [->|].
    + exists prev, ty, d. rewrite set_u32_other by lia. rewrite !set_u32_same by (rewrite ?slen_set_u32; nia).
      split_and!; [done|done|by apply at_app_l|]. rewrite <- Hptr. apply at_app_last.
    + destruct (Hst i) as (j' & ty2 & d' & ? & ? & ? & ?); [lia|]. exists j', ty2, d'.
      rewrite !set_u32_other by lia. split_and!; [done|done|by apply at_app_l|by apply at_app_l].
Qed.

(** ** Farthest points *)

(** The farthest point of diagonal [k]: -1 when there is none yet. *)
Definition Y (st : diff_state) (k : Z) : Z :=
  match fp st !! (k + N) with Some f => y f | None => -1 end.

Record fp_ok (st : diff_state) (pts : list (Z * Z)) : Prop := {
  fo_dom : forall k, -N <= k <= M <-> is_Some (fp st !! (k + N));
  fo_point : forall k f, fp st !! (k + N) = Some f ->
    y f = -1 \/ (0 <= y f /\ at_ pts (id f) = Some (y f + k, y f));
  fo_far : forall i u v, 0 < i -> at_ pts i = Some (u, v) -> v <= Y st (u - v)
}.

Definition inv (st : diff_state) (pts : list (Z * Z)) (ds : list Z) : Prop :=
  routes_ok st pts /\ fp_ok st pts /\ costs_ok st ds.

(** While [snake] works on diagonal [k], its point is ahead of [fp]. *)
Record snake_ok (st0 : diff_state) (pts0 : list (Z * Z)) (ds0 : list Z) (k c : Z)
    (s : diff_state * FarthestPoint) (pts : list (Z * Z)) (ds : list Z) : Prop := {
  so_keep : forall i q, at_ pts0 i = Some q -> at_ pts i = Some q;
  so_keepc : forall i d, at_ ds0 i = Some d -> at_ ds i = Some d;
  so_costs : costs_ok s.1 ds;
  so_cost : at_ ds (id s.2) = Some c;
  so_routes : routes_ok s.1 pts;
  so_same : fp s.1 = fp st0 /\ p s.1 = p st0;
  so_point : at_ pts (id s.2) = Some (y s.2 + k, y s.2);
  so_old : forall i q, at_ pts i = Some q -> q.1 - q.2 <> k -> 0 < i -> q.2 <= Y st0 (q.1 - q.2);
  so_far : forall i q, at_ pts i = Some q -> q.1 - q.2 = k -> 0 < i -> q.2 <= y s.2
}.

(** Recording one edit that leads to a new farthest point of diagonal [k]. *)
Lemma snake_record st0 pts0 ds0 st pts ds k prev ty q v d :
  (forall i q, at_ pts0 i = Some q -> at_ pts i = Some q) ->
  (forall i d, at_ ds0 i = Some d -> at_ ds i = Some d) ->
  costs_ok st ds -> at_ ds prev = Some d ->
  routes_ok st pts -> fp st = fp st0 -> p st = p st0 ->
  at_ pts prev = Some q -> edit ty q (v + k, v) -> in_box (v + k, v) ->
  (forall i r, at_ pts i = Some r -> r.1 - r.2 <> k -> 0 < i -> r.2 <= Y st0 (r.1 - r.2)) ->
  (forall i r, at_ pts i = Some r -> r.1 - r.2 = k -> 0 < i -> r.2 < v) ->
  snake_ok st0 pts0 ds0 k (d + weight ty) (record_route half prev ty st, mkFP v (ptr st + 1))
    (pts ++ [(v + k, v)]) (ds ++ [d + weight ty]).
Proof.
  intros Hkeep Hkeepc Hc Hd Hr Hfp Hp Hq He Hb Hold Hfar.
  assert (Hnew : (v + k, v) ∉ pts).
  { intros [i Hi]%at_elem. pose proof (at_Some _ _ _ Hi). destruct (decide (i = 0)) as [->|].
    - rewrite (ro_origin _ _ Hr) in Hi. injection Hi as H1 H2.
      destruct (edit_nonzero _ _ _ He (in_box_at _ _ _ _ Hr Hq)) as [Hz _]. apply Hz. f_equal; lia.
    - apply Hfar in Hi; simpl in *; lia. }
  split; simpl.
  - intros i r Hi. by apply at_app_l, Hkeep.
  - intros i e Hi. by apply at_app_l, Hkeepc.
  - by eapply record_cost.
  - rewrite <- (co_ptr _ _ Hc). apply at_app_last.
  - by eapply record_ok.
  - done.
  - rewrite <- (ro_ptr _ _ Hr). apply at_app_last.
  - intros i r [Hi|[-> ->]]%at_app_inv Hk Hpos; [eauto|simpl in *; lia].
  - intros i r [Hi|[-> ->]]%at_app_inv Hk Hpos; [|simpl in *; lia].
    pose proof (Hfar i r Hi Hk Hpos). lia.
Qed.

(** No common element follows the point. *)
Definition stuck (k v : Z) : Prop := ~ (v + k < M /\ v < N /\ at_ A (v + k) = at_ B v).

Lemma snake_body_ok st0 pts0 ds0 k c i s pts ds :
  snake_ok st0 pts0 ds0 k c s pts ds ->
  match snake_body half k A B i s with
  | Continue s' => y s'.2 = y s.2 + 1 /\ exists pts' ds', snake_ok st0 pts0 ds0 k c s' pts' ds'
  | Break s' => s' = s /\ stuck k (y s.2)
  end.
Proof.
  intros Hs. destruct s as [st f]. unfold snake_body, stuck.
  destruct (_ && _ && _) eqn:E; cbn.
  - apply andb_true_iff in E as [[E1%Z.ltb_lt E2%Z.ltb_lt]%andb_true_iff E3].
    unfold same in E3. apply bool_decide_eq_true in E3. split; [done|].
    destruct Hs as [Hkeep Hkeepc Hc Hcf Hr [Hf Hp] Hpt Hold Hfar]; simpl in *.
    pose proof (in_box_at _ _ _ _ Hr Hpt) as [Hb1 Hb2]; simpl in *.
    replace c with (c + weight COMMON) by (unfold weight; simpl; lia).
    eexists _, _. eapply (snake_record st0 pts0 ds0 st pts ds k (id f) COMMON); [done..| | |done|].
    + replace (y f + 1 + k) with (y f + k + 1) by lia. by constructor.
    + split; simpl; lia.
    + intros i' r Hi Hk Hpos. pose proof (Hfar i' r Hi Hk Hpos). lia.
  - split; [done|]. intros (H1 & H2 & H3). unfold same in E.
    rewrite !(proj2 (Z.ltb_lt _ _)) in E by lia. by rewrite bool_decide_eq_true_2 in E.
Qed.

Definition snaked st0 pts0 ds0 k c low (s : diff_state * FarthestPoint) : Prop :=
  low <= y s.2 /\ stuck k (y s.2) /\ exists pts ds, snake_ok st0 pts0 ds0 k c s pts ds.

Lemma snake_loop_ok st0 pts0 ds0 k c s pts ds :
  snake_ok st0 pts0 ds0 k c s pts ds ->
  snaked st0 pts0 ds0 k c (y s.2) (for_up (y s.2) N (snake_body half k A B) s).
Proof.
  intros Hs. pose proof (in_box_at _ _ _ _ (so_routes _ _ _ _ _ _ _ _ Hs) (so_point _ _ _ _ _ _ _ _ Hs)) as [_ Hb].
  simpl in Hb. apply (for_up_rule (fun i s' => y s'.2 = i /\ y s.2 <= i /\
    exists pts' ds', snake_ok st0 pts0 ds0 k c s' pts' ds')); [lia| | |].
  - split_and!; [done|lia|eauto].
  - intros i s' Hi (Hy & Hle & pts' & ds' & Hs'). pose proof (snake_body_ok _ _ _ _ _ i _ _ _ Hs') as Hb'.
    destruct (snake_body _ _ _ _ _ _) as [s''|s''].
    + destruct Hb' as [Hy' Hb']. split_and!; [lia|lia|done].
    + destruct Hb' as [-> Hst]. split_and!; [lia|done|eauto].
  - intros s' (Hy & Hle & Hs'). split_and!; [lia|unfold stuck; lia|done].
Qed.

(** ** One update

    [createFP] starts from the farther of the point above on the diagonal to the
    left and the point below on the diagonal to the right. *)

Lemma Y_Some st k f : fp st !! (k + N) = Some f -> Y st k = y f.
Proof. unfold Y. by intros ->. Qed.

Lemma Y_point st pts k : fp_ok st pts -> 0 <= Y st k ->
  exists f, fp st !! (k + N) = Some f /\ Y st k = y f /\ at_ pts (id f) = Some (Y st k + k, Y st k).
Proof.
  intros Hf Hy. unfold Y in *. destruct (fp st !! (k + N)) as [f|] eqn:E; [|lia].
  exists f. split_and!; [done|done|]. destruct (fo_point _ _ Hf _ _ E) as [|[_ ?]]; [lia|done].
Qed.

Lemma Y_low st pts k : fp_ok st pts -> -1 <= Y st k.
Proof.
  intros Hf. unfold Y. destruct (fp st !! (k + N)) as [f|] eqn:E; [|lia].
  destruct (fo_point _ _ Hf _ _ E) as [|[? _]]; lia.
Qed.

(** The points next to diagonal [k] allow a step to a new point of it. *)
Record step_ready (st : diff_state) (k : Z) : Prop := {
  sr_range : -N <= k <= M;
  sr_source : k = 0 \/ 0 <= Y st (k - 1) \/ 0 <= Y st (k + 1);
  sr_right : 0 <= Y st (k - 1) -> Y st (k - 1) + k <= M;
  sr_down : 0 <= Y st (k + 1) -> Y st (k + 1) + 1 <= N;
  sr_new : Y st k < Z.max (Y st (k - 1)) (Y st (k + 1) + 1)
}.

Lemma fo_old st pts k :
  fp_ok st pts ->
  (forall i r, at_ pts i = Some r -> r.1 - r.2 <> k -> 0 < i -> r.2 <= Y st (r.1 - r.2)) /\
  (forall i r v, Y st k < v -> at_ pts i = Some r -> r.1 - r.2 = k -> 0 < i -> r.2 < v).
Proof.
  intros Hf. split.
  - intros i [u v] Hi _ Hpos. by apply (fo_far _ _ Hf i).
  - intros i [u v] w Hw Hi Hk Hpos. pose proof (fo_far _ _ Hf i u v Hpos Hi). simpl in *. subst k. lia.
Qed.

(** The cost of the farthest point of diagonal [k]. *)
Definition cost (st : diff_state) (ds : list Z) (k c : Z) : Prop :=
  exists f, fp st !! (k + N) = Some f /\ at_ ds (id f) = Some c.

Lemma cost_total st pts ds k : inv st pts ds -> 0 <= Y st k -> exists c, cost st ds k c.
Proof.
  intros (Hr & Hf & Hc) Hy. destruct (Y_point st pts k Hf Hy) as (f & Ef & _ & Hat).
  pose proof (at_Some _ _ _ Hat) as Hid. rewrite (ro_ptr _ _ Hr), <- (co_ptr _ _ Hc) in Hid.
  destruct (at_ ds (id f)) as [c|] eqn:E; [by exists c, f|].
  unfold at_, slen in *. destruct (Z.ltb_spec (id f) 0); [lia|]. apply lookup_ge_None in E. lia.
Qed.

(** Where the cost [c] of a new point comes from. *)
Definition cost_from (st : diff_state) (ds : list Z) (k c : Z) : Prop :=
  c = 0 \/ (0 <= Y st (k - 1) /\ cost st ds (k - 1) c) \/ (0 <= Y st (k + 1) /\ cost st ds (k + 1) (c - 1)).

Lemma go_right_ok st pts ds k s :
  inv st pts ds -> step_ready st k -> fp st !! (k - 1 + N) = Some s ->
  0 <= Y st (k - 1) -> Y st (k + 1) + 1 <= Y st (k - 1) ->
  exists c pts' ds', cost_from st ds k c /\
    snake_ok st pts ds k c (record_route half (id s) ADDED st, mkFP (y s) (ptr st + 1)) pts' ds'.
Proof.
  intros Hi [Hk Hsrc Hrt Hdn Hnew] Es Hs Hle. pose proof Hi as (Hr & Hf & Hc).
  destruct (fo_old st pts k Hf) as [Hold Hfar].
  destruct (cost_total st pts ds (k - 1) Hi Hs) as (c & Hcost). pose proof Hcost as (s1 & Es1 & Hcs).
  destruct (Y_point st pts (k - 1) Hf Hs) as (s' & Es' & Hy & Hat).
  rewrite Es in Es', Es1. injection Es' as <-. injection Es1 as <-.
  pose proof (in_box_at _ _ _ _ Hr Hat) as [Hb1 Hb2].
  exists (c + weight ADDED). eexists _, _. split.
  - right. left. unfold weight. simpl. by rewrite Z.add_0_r.
  - rewrite Hy in *. simpl in *.
    eapply (snake_record st pts ds st pts ds k _ ADDED); [done..| | |done|].
    + replace (y s + k) with (y s + (k - 1) + 1) by lia. constructor.
    + split; simpl; lia.
    + intros i r. apply Hfar. lia.
Qed.

Lemma go_down_ok st pts ds k d :
  inv st pts ds -> step_ready st k -> fp st !! (k + 1 + N) = Some d ->
  0 <= Y st (k + 1) -> Y st (k - 1) <= Y st (k + 1) + 1 ->
  exists c pts' ds', cost_from st ds k c /\
    snake_ok st pts ds k c (record_route half (id d) REMOVED st, mkFP (y d + 1) (ptr st + 1)) pts' ds'.
Proof.
  intros Hi [Hk Hsrc Hrt Hdn Hnew] Ed Hd Hle. pose proof Hi as (Hr & Hf & Hc).
  destruct (fo_old st pts k Hf) as [Hold Hfar].
  destruct (cost_total st pts ds (k + 1) Hi Hd) as (c & Hcost). pose proof Hcost as (d1 & Ed1 & Hcd).
  destruct (Y_point st pts (k + 1) Hf Hd) as (d' & Ed' & Hy & Hat).
  rewrite Ed in Ed', Ed1. injection Ed' as <-. injection Ed1 as <-.
  pose proof (in_box_at _ _ _ _ Hr Hat) as [Hb1 Hb2].
  exists (c + weight REMOVED). eexists _, _. split.
  - right. right. unfold weight. simpl. by replace (c + 1 - 1) with c by lia.
  - rewrite Hy in *. simpl in *.
    eapply (snake_record st pts ds st pts ds k _ REMOVED); [done..| | |done|].
    + replace (y d + 1 + k) with (y d + (k + 1)) by lia. constructor.
    + split; simpl; lia.
    + intros i r. apply Hfar. lia.
Qed.

Lemma start_ok st pts ds :
  inv st pts ds -> Y st 0 < 0 -> snake_ok st pts ds 0 0 (st, mkFP 0 0) pts ds.
Proof.
  intros (Hr & Hf & Hc) Hy. destruct (fo_old st pts 0 Hf) as [Hold Hfar]. split; simpl; try done.
  - apply (co_start _ _ Hc).
  - apply (ro_origin _ _ Hr).
  - intros i q Hi Hk Hpos. apply Z.lt_le_incl. by apply (Hfar i).
Qed.

Lemma not_beyond {X} (x : X) : (- N <= M + 1 <= M <-> is_Some (Some x)) -> False.
Proof. intros [_ Hd]. specialize (Hd ltac:(eauto)). lia. Qed.

Definition starts st pts ds k (r : jsres (diff_state * FarthestPoint)) : Prop :=
  exists s c pts' ds', r = Ok s /\ cost_from st ds k c /\ snake_ok st pts ds k c s pts' ds' /\
    y s.2 = Z.max (Y st (k - 1)) (Y st (k + 1) + 1).

Lemma createFP_ok st pts ds k :
  inv st pts ds -> step_ready st k -> 1 <= M -> 1 <= N ->
  starts st pts ds k (createFP half (fp st !! (k - 1 + N)) (fp st !! (k + 1 + N)) k M st).
Proof.
  intros Hi Hrdy HM HN. pose proof Hi as (Hr & Hf & Hc). pose proof Hrdy as [Hk Hsrc Hrt Hdn Hnew].
  pose proof (Y_low st pts (k - 1) Hf) as Hl1. pose proof (Y_low st pts (k + 1) Hf) as Hl2.
  pose proof (fo_dom _ _ Hf (k - 1)) as Hd1. pose proof (fo_dom _ _ Hf (k + 1)) as Hd2.
  assert (Hright : forall s, fp st !! (k - 1 + N) = Some s -> 0 <= Y st (k - 1) ->
    Y st (k + 1) + 1 <= Y st (k - 1) ->
    starts st pts ds k (Ok (record_route half (id s) ADDED st, mkFP (y s) (ptr st + 1)))).
  { intros s Es Hs Hle. destruct (go_right_ok st pts ds k s) as (c & pts' & ds' & ? & ?); [done..|].
    eexists _, c, pts', ds'. split_and!; [done..|]. simpl. rewrite (Y_Some _ _ _ Es) in *. lia. }
  assert (Hdown : forall d, fp st !! (k + 1 + N) = Some d -> 0 <= Y st (k + 1) ->
    Y st (k - 1) <= Y st (k + 1) + 1 ->
    starts st pts ds k (Ok (record_route half (id d) REMOVED st, mkFP (y d + 1) (ptr st + 1)))).
  { intros d Ed Hd Hle. destruct (go_down_ok st pts ds k d) as (c & pts' & ds' & ? & ?); [done..|].
    eexists _, c, pts', ds'. split_and!; [done..|]. simpl. rewrite (Y_Some _ _ _ Ed) in *. lia. }
  unfold createFP, goes_right.
  destruct (fp st !! (k - 1 + N)) as [s|] eqn:Es, (fp st !! (k + 1 + N)) as [d|] eqn:Ed; simpl.
  - rewrite (Y_Some _ _ _ Es), (Y_Some _ _ _ Ed) in *.
    destruct (Z.eqb_spec (y s) (-1)) as [E1|], (Z.eqb_spec (y d) (-1)) as [E2|]; simpl.
    + assert (k = 0) as -> by lia. eexists _, 0, pts, ds.
      split_and!; [done|by left|apply start_ok; [done|lia]|].
      rewrite (Y_Some _ _ _ Es), (Y_Some _ _ _ Ed). simpl. lia.
    + destruct (Z.eqb_spec k M) as [->|]; [by apply not_beyond in Hd2|].
      simpl. destruct (Z.gtb_spec (y s) (y d + 1)); [lia|]. apply Hdown; [done|lia|lia].
    + apply Hright; [done|lia|lia].
    + destruct (Z.eqb_spec k M) as [->|]; [by apply not_beyond in Hd2|].
      simpl. destruct (Z.gtb_spec (y s) (y d + 1)); [apply Hright|apply Hdown]; (done || lia).
  - assert (~ (-N <= k + 1 <= M)) by (rewrite Hd2; by intros [? ?]). assert (k = M) as -> by lia.
    assert (HY : Y st (M + 1) = -1) by (unfold Y; by rewrite Ed).
    rewrite Z.eqb_refl. simpl. apply Hright; [done|lia|lia].
  - assert (~ (-N <= k - 1 <= M)) by (rewrite Hd1; by intros [? ?]). assert (k = -N) as -> by lia.
    assert (HY : Y st (- N - 1) = -1) by (unfold Y; by rewrite Es).
    rewrite (Y_Some _ _ _ Ed) in *.
    destruct (Z.eqb_spec (y d) (-1)); [lia|]. destruct (Z.eqb_spec (-N) M); [lia|]. simpl.
    apply Hdown; [done|lia|lia].
  - assert (~ (-N <= k - 1 <= M)) by (rewrite Hd1; by intros [? ?]).
    assert (~ (-N <= k + 1 <= M)) by (rewrite Hd2; by intros [? ?]). lia.
Qed.

(** What an update of diagonal [k] does. *)
Record updated (st : diff_state) (ds : list Z) (k : Z) (st' : diff_state) (ds' : list Z) : Prop := {
  up_p : p st' = p st;
  up_other : forall j, j <> k -> Y st' j = Y st j;
  up_far : Z.max (Y st (k - 1)) (Y st (k + 1) + 1) <= Y st' k <= N;
  up_box : 0 <= Y st' k + k <= M;
  up_stuck : stuck k (Y st' k);
  up_costs : forall j c, j <> k -> cost st ds j c -> cost st' ds' j c;
  up_cost : exists c, cost_from st ds k c /\ cost st' ds' k c
}.

Lemma update_ok st pts ds k :
  inv st pts ds -> step_ready st k -> 1 <= M -> 1 <= N ->
  exists st' pts' ds', update_fp half N A B k st = Ok st' /\ inv st' pts' ds' /\ updated st ds k st' ds'.
Proof.
  intros Hi Hrdy HM HN.
  destruct (createFP_ok st pts ds k Hi Hrdy HM HN) as (s & c & pts' & ds' & Hcr & Hcf & Hs & Hy).
  pose proof Hrdy as [Hk _ _ _ _]. unfold update_fp, snake.
  destruct (Z.ltb_spec k (- N)); [lia|]. destruct (Z.ltb_spec M k); [lia|]. simpl. rewrite Hcr. simpl.
  destruct (snake_loop_ok _ _ _ _ _ _ _ _ Hs) as (Hle & Hst & pts2 & ds2 & Hs2).
  set (s2 := for_up _ _ _ _) in *.
  destruct Hs2 as [Hkeep Hkeepc Hc2 Hcs2 Hr2 [Hf2 Hp2] Hpt Hold Hfar].
  pose proof (in_box_at _ _ _ _ Hr2 Hpt) as [Hb1 Hb2]. simpl in Hb1, Hb2.
  set (st' := mkDiff _ _ _ _).
  assert (HYk : Y st' k = y s2.2) by (unfold Y, st'; simpl; by rewrite lookup_insert_eq).
  assert (HYo : forall j, j <> k -> Y st' j = Y st j).
  { intros j Hj. unfold Y, st'. simpl. rewrite lookup_insert_ne by lia. by rewrite Hf2. }
  exists st', pts2, ds2. destruct Hi as (_ & Hf & _). split_and!;
    [done|split; [by destruct Hr2; split|split; [|by destruct Hc2; split]]|].
  - split.
    + intros j. unfold st'. simpl. rewrite lookup_insert_is_Some, Hf2.
      rewrite <- (fo_dom _ _ Hf j). split; [intros; destruct (decide (k = j)); [left; lia|right; lia]|].
      intros [Hj|[_ Hj]]; lia.
    + intros j f. unfold st'. simpl. destruct (decide (j = k)) as [->|Hj].
      * rewrite lookup_insert_eq. intros [= <-]. right. split; [lia|done].
      * rewrite lookup_insert_ne by lia. rewrite Hf2. intros E.
        destruct (fo_point _ _ Hf _ _ E) as [?|[? ?]]; [by left|right; split; [done|by apply Hkeep]].
    + intros i u v Hpos Hat. destruct (decide (u - v = k)) as [E|E].
      * rewrite E, HYk. by apply (Hfar i (u, v)).
      * rewrite HYo by done. by apply (Hold i (u, v)).
  - split; rewrite ?HYk; [done|done|lia|lia|done| |].
    + intros j e Hj (f & Ef & He). exists f. unfold st'. simpl. rewrite lookup_insert_ne by lia.
      rewrite Hf2. split; [done|by apply Hkeepc].
    + exists c. split; [done|]. exists s2.2. unfold st'. simpl. by rewrite lookup_insert_eq.
Qed.

(** ** One round

    After round [q] the diagonals from [-q] to [delta + q] have points, those of
    the diagonals up to [delta] move down as the diagonals move right, and those
    from [delta] on move right as the diagonals move left. *)

Hypothesis HN : 1 <= N.
Hypothesis HMN : N <= M.
Abbreviation delta := (M - N).

(** The costs of the farthest points are bounded by [b]. *)
Definition costs (st : diff_state) (ds : list Z) (b : Z -> Z) : Prop :=
  forall k, 0 <= Y st k -> exists c, cost st ds k c /\ c <= b k.

Lemma cost_inj st ds k c c' : cost st ds k c -> cost st ds k c' -> c = c'.
Proof. intros (f & Ef & Hc) (f' & Ef' & Hc'). congruence. Qed.

Lemma costs_weaken st ds b b' :
  costs st ds b -> (forall k, 0 <= Y st k -> b k <= b' k) -> costs st ds b'.
Proof. intros Hb Hle k Hk. destruct (Hb k Hk) as (c & ? & ?). pose proof (Hle k Hk). exists c. split; [done|lia]. Qed.

Lemma costs_step st ds k st' ds' b b' :
  updated st ds k st' ds' -> costs st ds b ->
  (0 <= Y st (k - 1) -> b (k - 1) <= b' k) -> (0 <= Y st (k + 1) -> b (k + 1) + 1 <= b' k) ->
  0 <= b' k -> (forall j, j <> k -> b j <= b' j) -> costs st' ds' b'.
Proof.
  intros Hu Hb Hl Hr H0 Ho j Hj. destruct (decide (j = k)) as [->|].
  - destruct (up_cost _ _ _ _ _ Hu) as (c & Hfrom & Hc). exists c. split; [done|].
    destruct Hfrom as [->|[[Hy Hf]|[Hy Hf]]]; [done| |].
    + destruct (Hb _ Hy) as (c' & Hc' & ?). rewrite (cost_inj _ _ _ _ _ Hf Hc'). specialize (Hl Hy). lia.
    + destruct (Hb _ Hy) as (c' & Hc' & ?). pose proof (cost_inj _ _ _ _ _ Hf Hc'). specialize (Hr Hy). lia.
  - rewrite (up_other _ _ _ _ _ Hu) in Hj by done. destruct (Hb j Hj) as (c & Hc & ?).
    exists c. split; [by apply (up_costs _ _ _ _ _ Hu)|]. pose proof (Ho j). lia.
Qed.

(** The cost of diagonal [k] after round [q]. *)
Definition bound (q k : Z) : Z := q - Z.max 0 (k - delta).

Definition good (st : diff_state) (b : Z -> Z) : Prop := exists pts ds, inv st pts ds /\ costs st ds b.

Record round_ok (st : diff_state) (q : Z) : Prop := {
  rk_good : good st (bound q);
  rk_p : p st = q;
  rk_out : forall k, q = -1 \/ k < - q \/ delta + q < k -> Y st k = -1;
  rk_in : forall k, 0 <= q -> - q <= k <= delta + q -> 0 <= Y st k /\ stuck k (Y st k);
  rk_first : 0 <= q -> q <= Y st (- q);
  rk_left : forall i j, 0 <= q -> - q <= i <= j -> j <= delta -> Y st i <= Y st j;
  rk_right : forall i j, 0 <= q -> delta <= i <= j -> j <= delta + q -> Y st j + j <= Y st i + i
}.

Lemma round_progress st q : round_ok st q -> 0 <= q -> q <= Y st delta.
Proof.
  intros Hk Hq. pose proof (rk_first _ _ Hk Hq). pose proof (rk_left _ _ Hk (- q) delta Hq). lia.
Qed.

(** An update of a state whose costs are bounded. *)
Lemma update_good st k b b' :
  good st b -> step_ready st k ->
  (0 <= Y st (k - 1) -> b (k - 1) <= b' k) -> (0 <= Y st (k + 1) -> b (k + 1) + 1 <= b' k) ->
  0 <= b' k -> (forall j, j <> k -> b j <= b' j) ->
  exists st', update_fp half N A B k st = Ok st' /\ good st' b' /\ p st' = p st /\
    (forall j, j <> k -> Y st' j = Y st j) /\
    Z.max (Y st (k - 1)) (Y st (k + 1) + 1) <= Y st' k <= N /\ 0 <= Y st' k + k <= M /\ stuck k (Y st' k).
Proof.
  intros (pts & ds & Hi & Hb) Hrdy Hl Hr H0 Ho.
  destruct (update_ok st pts ds k Hi Hrdy) as (st' & pts' & ds' & E & Hi' & Hu); [lia|lia|].
  assert (Hg : good st' b').
  { exists pts', ds'. split; [done|]. by apply (costs_step st ds k st' ds' b b'). }
  exists st'. by destruct Hu.
Qed.

(** The first loop, before diagonal [k] of round [q]. *)
Record left_ok (st0 : diff_state) (q k : Z) (st : diff_state) : Prop := {
  lk_good : good st (fun j => if j <? k then q else bound (q - 1) j);
  lk_p : p st = q;
  lk_same : forall j, j < - q \/ k <= j -> Y st j = Y st0 j;
  lk_new : forall j, - q <= j < k ->
    Y st0 (j + 1) + 1 <= Y st j <= N /\ q <= Y st j /\ stuck j (Y st j);
  lk_left : forall i j, - q <= i <= j -> j < k -> Y st i <= Y st j
}.

Lemma left_step st0 q k st :
  round_ok st0 (q - 1) -> 0 <= q <= N -> Y st0 delta < N -> - q <= k < delta ->
  left_ok st0 q k st ->
  exists st', update_fp half N A B k st = Ok st' /\ left_ok st0 q (k + 1) st'.
Proof.
  intros H0 Hq Hlt Hk [Hg Hp Hsame Hnew Hleft].
  pose proof (rk_out _ _ H0) as Hout. pose proof (rk_in _ _ H0) as Hin.
  pose proof (rk_left _ _ H0) as Hl0.
  pose proof (Hsame k ltac:(lia)) as Ek. pose proof (Hsame (k + 1) ltac:(lia)) as Ek1.
  assert (Hnext : Y st0 (k + 1) < N).
  { destruct (decide (q = 0 \/ k + 1 < - (q - 1))) as [|]; [rewrite Hout by lia; lia|].
    pose proof (Hl0 (k + 1) delta). lia. }
  assert (Hprev : (k = - q /\ Y st (k - 1) = -1) \/ (- q < k /\ q <= Y st (k - 1) <= N)).
  { destruct (decide (k = - q)) as [->|].
    - left. split; [done|]. rewrite Hsame by lia. apply Hout. lia.
    - right. pose proof (Hnew (k - 1)). lia. }
  assert (Hold : Y st0 k <= Y st0 (k + 1) /\ (q <> 0 -> 0 <= Y st0 (k + 1))).
  { destruct (decide (q = 0)); [rewrite !Hout by lia; lia|].
    pose proof (Hin (k + 1) ltac:(lia) ltac:(lia)).
    destruct (decide (k = - q)) as [|]; [rewrite (Hout k) by lia; lia|]. pose proof (Hl0 k (k + 1)). lia. }
  assert (Hrdy : step_ready st k) by (split; rewrite ?Ek, ?Ek1; lia).
  destruct (update_good st k _ (fun j => if j <? k + 1 then q else bound (q - 1) j) Hg Hrdy)
    as (st' & E & Hg' & Hp' & Ho & Hy & Hx & Hst); [intros; unfold bound; repeat case_bool; reflect_bools; lia..|].
  exists st'. split; [done|]. rewrite Ek1 in Hy. split.
  - done.
  - lia.
  - intros j Hj. rewrite Ho by lia. apply Hsame. lia.
  - intros j Hj. destruct (decide (j = k)) as [->|]; [|rewrite Ho by lia; apply Hnew; lia].
    split_and!; [lia|lia| |done]. destruct (decide (k = - q)) as [->|]; [|lia].
    destruct (decide (q = 0)); [lia|]. pose proof (rk_first _ _ H0 ltac:(lia)) as Hf.
    replace (- (q - 1)) with (- q + 1) in Hf by lia. lia.
  - intros i j Hij Hj. destruct (decide (j = k)) as [->|]; [|rewrite !Ho by lia; apply Hleft; lia].
    destruct (decide (i = k)) as [->|]; [lia|]. rewrite (Ho i) by lia.
    pose proof (Hleft i (k - 1)). lia.
Qed.

(** The second loop, before diagonal [k] of round [q]. *)
Definition right_bound (q k j : Z) : Z :=
  if j <? delta then q else if k <? j then bound q j else bound (q - 1) j.

Record right_ok (st1 : diff_state) (q k : Z) (st : diff_state) : Prop := {
  rt_good : good st (right_bound q k);
  rt_p : p st = q;
  rt_same : forall j, j <= k \/ delta + q < j -> Y st j = Y st1 j;
  rt_new : forall j, k < j <= delta + q ->
    0 <= Y st j /\ Y st1 (j - 1) <= Y st j /\ Y st j + j <= M /\ stuck j (Y st j);
  rt_right : forall i j, k < i <= j -> j <= delta + q -> Y st j + j <= Y st i + i
}.

Lemma right_step st0 st1 q k st :
  round_ok st0 (q - 1) -> 0 <= q <= N -> Y st0 delta < N ->
  (forall j, delta <= j -> Y st1 j = Y st0 j) ->
  delta + 1 <= k <= delta + q -> right_ok st1 q k st ->
  exists st', update_fp half N A B k st = Ok st' /\ right_ok st1 q (k - 1) st'.
Proof.
  intros H0 Hq Hlt H10 Hk [Hg Hp Hsame Hnew Hright].
  pose proof (rk_out _ _ H0) as Hout. pose proof (rk_in _ _ H0) as Hin.
  pose proof (rk_right _ _ H0) as Hr0.
  assert (Ek : Y st k = Y st0 k) by (rewrite Hsame, H10 by lia; done).
  assert (Ek1 : Y st (k - 1) = Y st0 (k - 1)) by (rewrite Hsame, H10 by lia; done).
  pose proof (Hin (k - 1) ltac:(lia) ltac:(lia)) as [Hsrc _].
  pose proof (Hr0 delta (k - 1) ltac:(lia) ltac:(lia) ltac:(lia)) as Hx0.
  assert (Hold : Y st0 k < Y st0 (k - 1)).
  { destruct (decide (k = delta + q)) as [->|]; [rewrite Hout by lia; lia|].
    pose proof (Hr0 (k - 1) k). lia. }
  assert (Hnext : (k = delta + q /\ Y st (k + 1) = -1) \/ (k < delta + q /\ Y st (k + 1) + (k + 1) <= M)).
  { destruct (decide (k = delta + q)) as [->|].
    - left. split; [done|]. rewrite Hsame, H10 by lia. apply Hout. lia.
    - right. pose proof (Hnew (k + 1)). lia. }
  assert (Hrdy : step_ready st k) by (split; rewrite ?Ek, ?Ek1; lia).
  destruct (update_good st k _ (right_bound q (k - 1)) Hg Hrdy)
    as (st' & E & Hg' & Hp' & Ho & Hy & Hx & Hst); [intros; unfold right_bound, bound; repeat case_bool; reflect_bools; lia..|].
  exists st'. split; [done|]. rewrite Ek1 in Hy. split.
  - done.
  - lia.
  - intros j Hj. rewrite Ho by lia. apply Hsame. lia.
  - intros j Hj. destruct (decide (j = k)) as [->|]; [|rewrite Ho by lia; apply Hnew; lia].
    split_and!; [lia|rewrite H10 by lia; lia|lia|done].
  - intros i j Hij Hj. destruct (decide (i = k)) as [->|]; [|rewrite !Ho by lia; apply Hright; lia].
    destruct (decide (j = k)) as [->|]; [lia|]. rewrite (Ho j) by lia.
    pose proof (Hright (k + 1) j). lia.
Qed.

(** What one round adds to the farthest points. *)
Definition advances (st st' : diff_state) (q : Z) : Prop :=
  (forall k, - q <= k < delta -> Y st (k + 1) + 1 <= Y st' k) /\
  (forall k, delta < k <= delta + q -> Y st (k - 1) <= Y st' k).

(** The update of diagonal [delta] ends the round. *)
Lemma last_step st0 st1 q st :
  round_ok st0 (q - 1) -> 0 <= q <= N -> Y st0 delta < N ->
  left_ok st0 q delta st1 -> right_ok st1 q delta st ->
  exists st', update_fp half N A B delta st = Ok st' /\ round_ok st' q /\ advances st0 st' q.
Proof.
  intros H0 Hq Hlt [_ _ Hsame1 Hnew1 Hleft1] [Hg Hp Hsame Hnew Hright].
  pose proof (rk_out _ _ H0) as Hout.
  assert (Ed : Y st delta = Y st0 delta) by (rewrite Hsame, Hsame1 by lia; done).
  assert (Hprev : (delta = - q /\ Y st (delta - 1) = -1) \/
    (- q < delta /\ q <= Y st (delta - 1) <= N /\ Y st0 delta < Y st (delta - 1))).
  { destruct (decide (delta = - q)) as [Hd|].
    - left. split; [done|]. rewrite Hsame, Hsame1 by lia. apply Hout. lia.
    - right. pose proof (Hnew1 (delta - 1) ltac:(lia)) as Hn.
      replace (delta - 1 + 1) with delta in Hn by lia. rewrite Hsame by lia. lia. }
  assert (Hnext : (q = 0 /\ Y st (delta + 1) = -1) \/
    (0 < q /\ 0 <= Y st (delta + 1) /\ Y st (delta + 1) + (delta + 1) <= M)).
  { destruct (decide (q = 0)) as [Hz|].
    - left. split; [done|]. rewrite Hsame, Hsame1 by lia. apply Hout. lia.
    - right. pose proof (Hnew (delta + 1)). lia. }
  assert (Hold : q = 0 -> Y st0 delta = -1) by (intros; apply Hout; lia).
  assert (Hrdy : step_ready st delta) by (split; rewrite ?Ed; lia).
  destruct (update_good st delta _ (bound q) Hg Hrdy) as (st' & E & Hg' & Hp' & Ho & Hy & Hx & Hst);
    [intros; unfold right_bound, bound; repeat case_bool; reflect_bools; lia..|].
  assert (Hlo : forall j, j < delta -> Y st' j = Y st1 j) by (intros; rewrite Ho, Hsame by lia; done).
  exists st'. split_and!; [done|split|split].
  - done.
  - lia.
  - intros k Hk. rewrite Ho, Hsame, Hsame1 by lia. apply Hout. lia.
  - intros k _ Hk. destruct (Z.lt_total k delta) as [Hl|[->|Hgt]].
    + rewrite Hlo by done. destruct (Hnew1 k) as (? & ? & ?); [lia|]. split; [lia|done].
    + split; [lia|done].
    + rewrite Ho by lia. destruct (Hnew k) as (? & ? & ? & ?); [lia|]. done.
  - intros _. destruct (decide (delta = - q)) as [<-|]; [lia|].
    rewrite Hlo by lia. apply Hnew1. lia.
  - intros i j _ Hij Hj. destruct (decide (i = delta)) as [->|]; [by replace j with delta by lia|].
    rewrite (Hlo i) by lia. destruct (decide (j = delta)) as [->|].
    + pose proof (Hleft1 i (delta - 1)). rewrite (Hsame (delta - 1)) in Hy by lia. lia.
    + rewrite Hlo by lia. apply Hleft1; lia.
  - intros i j _ Hij Hj. destruct (decide (j = delta)) as [->|]; [by replace i with delta by lia|].
    rewrite (Ho j) by lia. destruct (decide (i = delta)) as [->|].
    + pose proof (Hright (delta + 1) j). lia.
    + rewrite Ho by lia. apply Hright; lia.
  - intros k Hk. rewrite Hlo by lia. pose proof (Hnew1 k). lia.
  - intros k Hk. rewrite Ho by lia. destruct (Hnew k) as (_ & Hn & _); [lia|].
    by rewrite (Hsame1 (k - 1)) in Hn by lia.
Qed.

Lemma round_step st q :
  round_ok st (q - 1) -> 0 <= q -> Y st delta < N ->
  exists st', diff_round half N delta A B st = Ok st' /\ round_ok st' q /\ advances st st' q.
Proof.
  intros H0 Hq Hlt.
  assert (HqN : q <= N).
  { destruct (decide (q = 0)); [lia|]. pose proof (round_progress _ _ H0). lia. }
  pose proof (rk_p _ _ H0) as Hp. destruct (rk_good _ _ H0) as (pts & ds & (Hr & Hf & Hc) & Hb).
  unfold diff_round. simpl. replace (- (p st + 1)) with (- q) by lia.
  set (st0 := mkDiff _ _ _ (p st + 1)).
  destruct (for_up_throwing (left_ok st q) (update_fp half N A B) (- q) delta st0) as (st1 & -> & H1); [lia| | |].
  { split; simpl; [|lia|done|lia|lia]. exists pts, ds. split.
    - split_and!; [by destruct Hr; split|by destruct Hf; split|by destruct Hc; split].
    - apply (costs_weaken st0 ds (bound (q - 1))); [done|]. intros k _. unfold bound. repeat case_bool; reflect_bools; lia. }
  { intros k s Hk. by apply left_step. }
  simpl. rewrite (lk_p _ _ _ _ H1).
  destruct (for_down_throwing (right_ok st1 q) (update_fp half N A B) (delta + 1) (delta + q) st1)
    as (st2 & -> & H2); [lia| | |].
  { split; [|apply (lk_p _ _ _ _ H1)|done|lia|lia].
    destruct (lk_good _ _ _ _ H1) as (pts1 & ds1 & Hi1 & Hb1). exists pts1, ds1. split; [done|].
    apply (costs_weaken _ _ _ _ Hb1). intros k _. unfold right_bound, bound. repeat case_bool; reflect_bools; lia. }
  { intros k s Hk. eapply right_step; [done|done|done| |done].
    intros j Hj. apply (lk_same _ _ _ _ H1). lia. }
  simpl. replace (delta + 1 - 1) with delta in H2 by lia. by eapply last_step.
Qed.

(** ** The search is exhaustive

    [reach d u v]: some sequence of edits with [d] removals leads to [(u, v)]. *)
Inductive reach : Z -> Z -> Z -> Prop :=
  | reach_start : reach 0 0 0
  | reach_added d u v : reach d u v -> u < M -> reach d (u + 1) v
  | reach_removed d u v : reach d u v -> v < N -> reach (d + 1) u (v + 1)
  | reach_common d u v : reach d u v -> u < M -> v < N -> at_ A u = at_ B v ->
      reach d (u + 1) (v + 1).

Lemma reach_bounds d u v : reach d u v -> 0 <= d /\ - d <= u - v /\ 0 <= u /\ 0 <= v.
Proof. induction 1; lia. Qed.

(** No point that round [q] can afford lies beyond the farthest points. *)
Definition far (st : diff_state) (q : Z) : Prop :=
  forall d u v, reach d u v -> d + Z.max 0 (u - v - delta) <= q -> v <= Y st (u - v).

Lemma far_step st st' q :
  far st (q - 1) -> round_ok st' q -> advances st st' q -> 0 <= q -> far st' q.
Proof.
  intros Hfar Hk [Hl Hr] Hq d u v Hreach.
  induction Hreach as [|d u v Hd IH Hu|d u v Hd IH Hv|d u v Hd IH Hu Hv E]; intros Hle;
    try pose proof (reach_bounds _ _ _ Hd).
  - apply (rk_in _ _ Hk); lia.
  - replace (u + 1 - v) with (u - v + 1) in * by lia. destruct (decide (u - v + 1 <= delta)).
    + pose proof (rk_left _ _ Hk (u - v) (u - v + 1)). lia.
    + pose proof (Hfar d u v Hd). pose proof (Hr (u - v + 1)) as Hr'.
      replace (u - v + 1 - 1) with (u - v) in Hr' by lia. lia.
  - replace (u - (v + 1)) with (u - v - 1) in * by lia. destruct (decide (u - v - 1 < delta)).
    + pose proof (Hfar d u v Hd). pose proof (Hl (u - v - 1)) as Hl'.
      replace (u - v - 1 + 1) with (u - v) in Hl' by lia. lia.
    + pose proof (rk_right _ _ Hk (u - v - 1) (u - v)). lia.
  - replace (u + 1 - (v + 1)) with (u - v) in * by lia. specialize (IH Hle).
    destruct (rk_in _ _ Hk (u - v)) as [_ Hst]; [lia|lia|].
    destruct (decide (v = Y st' (u - v))) as [Ev|]; [|lia]. exfalso. apply Hst.
    rewrite <- Ev. replace (v + (u - v)) with u by lia. done.
Qed.

(** ** The outer loop ends with a cheapest route to the end of both arrays *)

Lemma Y_box st pts ds k : inv st pts ds -> 0 <= Y st k -> Y st k <= N.
Proof.
  intros (Hr & Hf & _) Hy. destruct (Y_point st pts k Hf Hy) as (f & _ & _ & Hat).
  apply (in_box_at _ _ _ _ Hr Hat).
Qed.

Lemma diff_loop_ok fuel st q :
  round_ok st q -> far st q -> (forall d, reach d M N -> q <= d) -> -1 <= q -> N - q < Z.of_nat fuel ->
  exists st' q', diff_loop fuel half N delta A B st = Some (Ok st') /\ round_ok st' q' /\ 0 <= q' /\
    Y st' delta = N /\ forall d, reach d M N -> q' <= d.
Proof.
  revert st q. induction fuel as [|fuel IH]; intros st q Hk Hfar Hmin Hq Hfuel.
  { destruct (decide (q = -1)); [lia|]. pose proof (round_progress _ _ Hk).
    destruct (rk_good _ _ Hk) as (pts & ds & Hi & _). pose proof (Y_box _ _ _ delta Hi). lia. }
  destruct (rk_good _ _ Hk) as (pts & ds & Hi & _). simpl.
  destruct (fp st !! (delta + N)) as [f|] eqn:Ef.
  2: { destruct Hi as (_ & Hf & _). destruct (proj1 (fo_dom _ _ Hf delta) ltac:(lia)) as [? ?]. congruence. }
  pose proof (Y_Some _ _ _ Ef) as HY. destruct (Z.ltb_spec (y f) N).
  - destruct (round_step st (q + 1)) as (st' & -> & Hk' & Hadv);
      [by replace (q + 1 - 1) with q by lia|lia|lia|].
    apply (IH st' (q + 1)); [done| | |lia|lia].
    + apply (far_step st); [by replace (q + 1 - 1) with q by lia|done|done|lia].
    + intros d Hd. destruct (decide (q + 1 <= d)); [done|].
      pose proof (Hfar d M N Hd ltac:(lia)). lia.
  - exists st, q. pose proof (Y_box st pts ds delta Hi ltac:(lia)).
    split_and!; [done|done| |lia|done].
    destruct (decide (q = -1)); [|lia]. pose proof (rk_out _ _ Hk delta). lia.
Qed.

Lemma fresh_fp_lookup size i :
  fresh_fp size !! i = if decide (0 <= i < size) then Some (mkFP (-1) (-1)) else None.
Proof.
  assert (Hfst : (map (fun i => (i, mkFP (-1) (-1))) (seqZ 0 size)).*1 = seqZ 0 size).
  { generalize (seqZ 0 size) as l. induction l as [|x l IH]; [done|]. simpl. f_equal. exact IH. }
  unfold fresh_fp. case_decide as Hi.
  - apply elem_of_list_to_map; [rewrite Hfst; apply NoDup_seqZ|].
    apply list_elem_of_fmap. exists i. split; [done|]. apply elem_of_seqZ. lia.
  - apply not_elem_of_list_to_map. rewrite Hfst, elem_of_seqZ. lia.
Qed.

Lemma init_ok : round_ok (init_state M N) (-1) /\ far (init_state M N) (-1).
Proof.
  assert (HY : forall k, Y (init_state M N) k = -1).
  { intros k. unfold Y, init_state. simpl. rewrite fresh_fp_lookup. by case_decide. }
  assert (Hz : forall i, 0 <= i < half * 2 -> at_ (routes (init_state M N)) i = Some 0).
  { intros i Hi. unfold at_, init_state. simpl. destruct (Z.ltb_spec i 0); [lia|].
    apply lookup_replicate_2. lia. }
  split; [|intros d u v Hd%reach_bounds; lia].
  split; try (intros; lia); [|done|intros; apply HY].
  exists [(0, 0)], [0]. split; [|intros k; rewrite HY; lia]. split_and!; split; simpl; try done.
  - unfold init_state, slen. simpl. rewrite length_replicate. unfold slen in *. lia.
  - assert (0 <= M * N) by nia. split; apply Hz; lia.
  - apply NoDup_singleton.
  - constructor; [|done]. split; simpl; lia.
  - intros i Hi. unfold init_state in Hi. simpl in Hi. lia.
  - intros k. rewrite fresh_fp_lookup. case_decide; split; try lia; [eauto|by intros [? ?]].
  - intros k f. rewrite fresh_fp_lookup. case_decide; [|done]. intros [= <-]. by left.
  - intros i u v Hpos Hat%at_Some. unfold slen in Hat. simpl in Hat. lia.
  - intros i Hi. unfold init_state in Hi. simpl in Hi. lia.
Qed.

End search.
