(* ===== verification/DiffTheorems.v ===== *)
(** * [diff]: the result

    The way back through the routes spells out both arrays, the search ends,
    and the common elements of the result are a longest common subsequence. *)

From Stdlib Require Import ZArith Lia.
From stdpp Require Import base list numbers option gmap.
From S2P Require Import Prelude Diff DiffProps.

#[local] Open Scope Z_scope.

(** ** The two sides of a result *)

(** The values of the entries that are not of type [ty]. *)
Definition without {T} (ty : DiffType) (r : list (DiffResult T)) : list (option T) :=
  map value (filter (fun e => type e <> ty) r).

Definition number {T} (ty : DiffType) (r : list (DiffResult T)) : Z :=
  slen (filter (fun e => type e = ty) r).

Lemma without_app {T} ty (r r' : list (DiffResult T)) : without ty (r ++ r') = without ty r ++ without ty r'.
Proof. unfold without. by rewrite filter_app, map_app. Qed.

Lemma number_app {T} ty (r r' : list (DiffResult T)) : number ty (r ++ r') = number ty r + number ty r'.
Proof. unfold number. by rewrite filter_app, slen_app. Qed.

Lemma without_snoc {T} ty (r : list (DiffResult T)) e :
  without ty (r ++ [e]) = without ty r ++ (if decide (type e = ty) then [] else [value e]).
Proof.
  rewrite without_app. f_equal. unfold without. rewrite filter_cons, filter_nil.
  repeat case_decide; done.
Qed.

Lemma number_snoc {T} ty (r : list (DiffResult T)) e :
  number ty (r ++ [e]) = number ty r + (if decide (type e = ty) then 1 else 0).
Proof.
  rewrite number_app. f_equal. unfold number. rewrite filter_cons, filter_nil. by case_decide.
Qed.

(** Each side counts the entries of the two other types. *)
Lemma without_count {T} ty ty' (r : list (DiffResult T)) :
  ty <> common -> ty' <> common -> ty <> ty' ->
  slen (without ty r) = number common r + number ty' r.
Proof.
  intros. induction r as [|e r IH] using rev_ind; [done|].
  rewrite without_snoc, !number_snoc, slen_app, IH.
  destruct (type e) eqn:?, ty, ty'; simpl; repeat case_decide; try done;
    rewrite ?slen_cons, ?slen_nil; lia.
Qed.

Lemma at_take {T} (a : list T) i :
  0 <= i < slen a ->
  exists x, at_ a i = Some x /\ map Some (take (Z.to_nat (i + 1)) a) = map Some (take (Z.to_nat i) a) ++ [Some x].
Proof.
  intros Hi. unfold at_, slen in *. destruct (Z.ltb_spec i 0); [lia|].
  destruct (lookup_lt_is_Some_2 a (Z.to_nat i)) as [x Hx]; [lia|]. exists x. split; [done|].
  replace (Z.to_nat (i + 1)) with (S (Z.to_nat i)) by lia.
  by rewrite (take_S_r _ _ _ Hx), map_app.
Qed.

(** ** The way back *)

Definition only_A (swapped : bool) : DiffType := if swapped then added else removed.
Definition only_B (swapped : bool) : DiffType := if swapped then removed else added.

Section back.
Context {T : Type} `{EqDecision T} (A B : list T).
Abbreviation M := (slen A).
Abbreviation N := (slen B).
Abbreviation half := (M * N + M + N + 2).

(** A script turns the first [u] elements of [A] into the first [v] of [B] with
    [d] elements that are only in [B]. *)
Record script_ok (swapped : bool) (u v d : Z) (r : list (DiffResult T)) : Prop := {
  sc_A : without (only_B swapped) r = map Some (take (Z.to_nat u) A);
  sc_B : without (only_A swapped) r = map Some (take (Z.to_nat v) B);
  sc_cost : number (only_B swapped) r = d
}.

Lemma script_edit swapped ty u v u' v' d r e :
  script_ok swapped u v d r -> edit A B ty (u, v) (u', v') -> in_box A B (u, v) -> in_box A B (u', v') ->
  e = (if ty =? REMOVED then mkResult (only_B swapped) (at_ B v) None
       else if ty =? ADDED then mkResult (only_A swapped) (at_ A u) None
       else mkResult common (at_ A u) None) ->
  script_ok swapped u' v' (d + weight ty) (r ++ [e]).
Proof.
  intros [HA HB HC] He [Hu Hv] [Hu' Hv'] ->. simpl in *.
  inversion He; subst; unfold weight; simpl.
  - destruct (at_take A u) as (x & Ex & Et); [lia|].
    split; rewrite ?without_snoc, ?number_snoc, ?HA, ?HB, ?Ex, ?Et; destruct swapped; simpl;
      rewrite ?app_nil_r; done || lia.
  - destruct (at_take B v) as (x & Ex & Et); [lia|].
    split; rewrite ?without_snoc, ?number_snoc, ?HA, ?HB, ?Ex, ?Et; destruct swapped; simpl;
      rewrite ?app_nil_r; done || lia.
  - destruct (at_take A u) as (x & Ex & Et); [lia|]. destruct (at_take B v) as (x' & Ex' & Et'); [lia|].
    assert (x' = x) as -> by congruence.
    split; rewrite ?without_snoc, ?number_snoc, ?HA, ?HB, ?Ex, ?Et, ?Et'; destruct swapped; simpl; done || lia.
Qed.

Lemma backTrace_loop_ok st pts ds swapped fuel i u v d res :
  routes_ok A B st pts -> costs_ok A B st ds ->
  at_ pts i = Some (u, v) -> at_ ds i = Some d -> i < Z.of_nat fuel ->
  exists r, backTrace_loop fuel (routes st) half A B swapped res (u - 1) (v - 1)
      (at_ (routes st) i) (at_ (routes st) (i + half)) = Some (r ++ res) /\
    script_ok swapped u v d r.
Proof.
  intros Hr Hc. revert i u v d res. induction fuel as [|fuel IH]; intros i u v d res Hi Hd Hf.
  { apply at_Some in Hi. lia. }
  pose proof (at_Some _ _ _ Hi) as Hrange. rewrite (ro_ptr _ _ _ _ Hr) in Hrange.
  destruct (decide (i = 0)) as [->|Hne].
  - rewrite (ro_origin _ _ _ _ Hr) in Hi. rewrite (co_start _ _ _ _ Hc) in Hd.
    injection Hi as <- <-. injection Hd as <-.
    destruct (ro_start _ _ _ _ Hr) as [E1 E2]. rewrite E1, Z.add_0_l, E2. by exists [].
  - destruct (ro_steps _ _ _ _ Hr i) as (j & ty & [u0 v0] & q' & Hj & Ej & Et & Hq & Hq' & He); [lia|].
    rewrite Hi in Hq'. injection Hq' as <-.
    destruct (co_steps _ _ _ _ Hc i) as (j' & ty' & d0 & Ej' & Et' & Hd0 & Hdi); [lia|].
    rewrite Ej in Ej'. injection Ej' as <-. rewrite Et in Et'. injection Et' as <-.
    rewrite Hd in Hdi. injection Hdi as ->.
    pose proof (in_box_at _ _ _ _ _ _ Hr Hq) as Hb. pose proof (in_box_at _ _ _ _ _ _ Hr Hi) as Hb'.
    rewrite Ej, Et. set (e := (if ty =? REMOVED then mkResult (only_B swapped) (at_ B v0) None
       else if ty =? ADDED then mkResult (only_A swapped) (at_ A u0) None
       else mkResult common (at_ A u0) None)).
    destruct (IH j u0 v0 d0 (e :: res) Hq Hd0 ltac:(lia)) as (r & Er & Hs).
    exists (r ++ [e]). split; [|by eapply script_edit].
    rewrite <- app_assoc. simpl app. rewrite <- Er.
    clear Er IH. inversion He; subst; cbn -[Z.mul Z.add Z.sub at_];
      rewrite ?Z.add_simpl_r, andb_false_r; by destruct swapped.
Qed.

(** ** Common subsequences are routes *)

Lemma reach_right n d u v : reach A B d u v -> u + Z.of_nat n <= M -> reach A B d (u + Z.of_nat n) v.
Proof.
  intros Hr. induction n as [|n IH]; intros Hn; [by rewrite Z.add_0_r|].
  replace (u + Z.of_nat (S n)) with (u + Z.of_nat n + 1) by lia. apply reach_added; [apply IH; lia|lia].
Qed.

Lemma reach_down n d u v :
  reach A B d u v -> v + Z.of_nat n <= N -> reach A B (d + Z.of_nat n) u (v + Z.of_nat n).
Proof.
  intros Hr. induction n as [|n IH]; intros Hn; [by rewrite !Z.add_0_r|].
  replace (v + Z.of_nat (S n)) with (v + Z.of_nat n + 1) by lia.
  replace (d + Z.of_nat (S n)) with (d + Z.of_nat n + 1) by lia. apply reach_removed; [apply IH; lia|lia].
Qed.

Lemma at_middle (a b : list T) x i : i = slen a -> at_ (a ++ x :: b) i = Some x.
Proof.
  intros ->. unfold at_, slen. destruct (Z.ltb_spec (Z.of_nat (length a)) 0); [lia|].
  by rewrite Nat2Z.id, list_lookup_middle.
Qed.

Lemma reach_subsequence l a1 a2 b1 b2 d :
  A = a1 ++ a2 -> B = b1 ++ b2 -> reach A B d (slen a1) (slen b1) ->
  sublist l a2 -> sublist l b2 -> reach A B (d + slen b2 - slen l) M N.
Proof.
  revert a1 a2 b1 b2 d. induction l as [|x l IH]; intros a1 a2 b1 b2 d HA HB Hr Ha Hb.
  - assert (HlA : M = slen a1 + Z.of_nat (length a2)) by by rewrite HA, slen_app.
    assert (HlB : N = slen b1 + Z.of_nat (length b2)) by by rewrite HB, slen_app.
    replace (d + slen b2 - slen []) with (d + Z.of_nat (length b2)) by (unfold slen; simpl; lia).
    rewrite HlA, HlB. apply reach_down; [apply reach_right; [done|lia]|lia].
  - apply sublist_cons_l in Ha as (a3 & a4 & -> & Ha). apply sublist_cons_l in Hb as (b3 & b4 & -> & Hb).
    assert (HlA : slen A = slen a1 + slen a3 + (1 + slen a4)) by (rewrite HA, !slen_app, slen_cons; lia).
    assert (HlB : slen B = slen b1 + slen b3 + (1 + slen b4)) by (rewrite HB, !slen_app, slen_cons; lia).
    pose proof (slen_nonneg a4). pose proof (slen_nonneg b4). unfold slen in HlA, HlB.
    apply (reach_right (length a3)), (reach_down (length b3)) in Hr; try (unfold slen in *; lia).
    apply reach_common in Hr; try (unfold slen in *; lia).
    + replace (d + slen (b3 ++ x :: b4) - slen (x :: l)) with (d + Z.of_nat (length b3) + slen b4 - slen l)
        by (rewrite slen_app, !slen_cons; unfold slen; lia).
      apply (IH (a1 ++ a3 ++ [x]) a4 (b1 ++ b3 ++ [x]) b4); [..|done|done].
      * by rewrite HA, <- !app_assoc.
      * by rewrite HB, <- !app_assoc.
      * rewrite !slen_app, !slen_cons, !slen_nil. unfold slen in *. by rewrite !Z.add_assoc, !Z.add_0_r.
    + rewrite HA, HB, !app_assoc. rewrite !at_middle by (rewrite slen_app; done). done.
Qed.

(** ** The search and the way back *)

Lemma diff_middle_ok swapped fuel :
  1 <= N -> N <= M -> half <= 2 ^ 32 -> (M + 1) * (N + 1) < Z.of_nat fuel ->
  exists r, diff_middle fuel A B swapped = Some (Ok r) /\
    without (only_B swapped) r = map Some A /\ without (only_A swapped) r = map Some B /\
    forall l, sublist l A -> sublist l B -> slen l <= number common r.
Proof.
  intros HN HMN Hfits Hfuel. unfold diff_middle.
  destruct (init_ok A B HN HMN) as [Hk0 Hfar0].
  destruct (rk_good _ _ _ _ Hk0) as (pts0 & ds0 & (Hr0 & _) & _).
  replace (slen (routes (init_state M N)) / 2) with half by (rewrite (ro_len _ _ _ _ Hr0); by rewrite Z.div_mul).
  destruct (diff_loop_ok A B Hfits HN HMN fuel (init_state M N) (-1) Hk0 Hfar0) as
    (st & q & -> & Hk & Hq & HY & Hmin); [intros d Hd%reach_bounds; lia|lia|nia|].
  destruct (rk_good _ _ _ _ Hk) as (pts & ds & (Hr & Hf & Hc) & Hb).
  destruct (Y_point _ _ _ _ (M - N) Hf) as (f & Ef & _ & Hat); [lia|]. rewrite Ef.
  rewrite HY in Hat. replace (N + (M - N)) with M in Hat by lia.
  destruct (Hb (M - N)) as (c & (f' & Ef' & Hcf) & Hle); [lia|].
  assert (Hcap : id f < Z.of_nat fuel).
  { pose proof (grid_length M N pts (slen_nonneg _) (slen_nonneg _) (ro_nodup _ _ _ _ Hr) (ro_box _ _ _ _ Hr)).
    apply at_Some in Hat. lia. }
  rewrite Ef in Ef'. injection Ef' as <-.
  destruct (backTrace_loop_ok st pts ds swapped fuel (id f) M N c [] Hr Hc Hat Hcf Hcap) as (r & Er & [HA HB HC]).
  exists r. unfold backTrace. rewrite Er, app_nil_r. unfold slen in HA, HB.
  rewrite Nat2Z.id, take_ge in HA, HB by lia. split_and!; [done|done|done|].
  intros l Hl1 Hl2.
  pose proof (reach_subsequence l [] A [] B 0 eq_refl eq_refl (reach_start A B) Hl1 Hl2) as Hreach.
  apply Hmin in Hreach. unfold bound in Hle.
  pose proof (without_count (only_A swapped) (only_B swapped) r) as Hcount.
  rewrite HB in Hcount. unfold slen at 1 in Hcount. rewrite length_map in Hcount.
  change (Z.of_nat (length B)) with N in Hcount.
  destruct swapped; simpl in *; rewrite Hcount in * by done; lia.
Qed.

End back.

(** ** Common ends *)

Section ends.
Context {T : Type} `{EqDecision T}.

Lemma createCommon_prefix (A B : list T) :
  exists c A' B', createCommon A B false = map Some c /\ A = c ++ A' /\ B = c ++ B'.
Proof.
  unfold createCommon. destruct (_ || _); [by exists [], A, B|].
  pose proof (slen_nonneg A). pose proof (slen_nonneg B).
  apply (for_up_rule (fun i r => exists c A' B', r = map Some c /\ A = c ++ A' /\ B = c ++ B' /\ slen c = i)
    (fun r => exists c A' B', r = map Some c /\ A = c ++ A' /\ B = c ++ B')).
  - lia.
  - by exists [], A, B.
  - intros i r Hi (c & A' & B' & -> & -> & -> & <-). rewrite !slen_app in Hi.
    destruct A' as [|a A'], B' as [|b B']; try (unfold slen in Hi; simpl in Hi; lia).
    cbv beta iota zeta. rewrite !at_middle by done. unfold same. case_bool_decide as E; [|by exists c, (a :: A'), (b :: B')].
    injection E as ->. exists (c ++ [b]), A', B'. rewrite map_app, <- !app_assoc, slen_app. done.
  - intros r (c & A' & B' & Hr & HA & HB & _). by exists c, A', B'.
Qed.

Lemma createCommon_suffix (A B : list T) :
  exists c A' B', rev (createCommon A B true) = map Some c /\ A = A' ++ c /\ B = B' ++ c.
Proof.
  unfold createCommon. destruct (_ || _); [exists [], A, B; by rewrite !app_nil_r|].
  pose proof (slen_nonneg A). pose proof (slen_nonneg B).
  apply (for_up_rule (fun i r => exists c A' B', rev r = map Some c /\ A = A' ++ c /\ B = B' ++ c /\ slen c = i)
    (fun r => exists c A' B', rev r = map Some c /\ A = A' ++ c /\ B = B' ++ c)).
  - lia.
  - exists [], A, B. by rewrite !app_nil_r.
  - intros i r Hi (c & A' & B' & Hr & -> & -> & <-). rewrite !slen_app in Hi.
    destruct A' as [|a A' _] using rev_ind; [unfold slen in Hi; simpl in Hi; lia|].
    destruct B' as [|b B' _] using rev_ind; [unfold slen in Hi; simpl in Hi; lia|].
    cbv beta iota zeta. rewrite <- !app_assoc. simpl app.
    rewrite !at_middle by (rewrite slen_app, slen_cons; lia).
    unfold same. case_bool_decide as E.
    + injection E as ->. exists (b :: c), A', B'. rewrite rev_app_distr, Hr, slen_cons. split_and!; [done..|lia].
    + exists c, (A' ++ [a]), (B' ++ [b]). by rewrite <- !app_assoc.
  - intros r (c & A' & B' & Hr & HA & HB & _). by exists c, A', B'.
Qed.

(** A common subsequence loses at most the common ends with them. *)
Lemma sublist_tail (x : T) l k : sublist l (x :: k) -> sublist (drop 1 l) k.
Proof.
  intros [Hl|(l' & -> & Hl)]%sublist_cons_r; [|done]. etrans; [apply sublist_drop|done].
Qed.

Lemma sublist_trim_prefix (c : list T) l A B :
  sublist l (c ++ A) -> sublist l (c ++ B) ->
  exists l', sublist l' A /\ sublist l' B /\ slen l <= slen c + slen l'.
Proof.
  revert l. induction c as [|x c IH]; intros l HA HB; [exists l; by rewrite slen_nil|].
  apply sublist_tail in HA, HB. destruct (IH _ HA HB) as (l' & ? & ? & Hle). exists l'. split_and!; [done..|].
  rewrite slen_cons. unfold slen in *. rewrite length_drop in Hle. lia.
Qed.

Lemma sublist_reverse (l k : list T) : sublist l k -> sublist (reverse l) (reverse k).
Proof.
  induction 1; rewrite ?reverse_cons; [done|by apply sublist_app|by apply sublist_inserts_r].
Qed.

Lemma sublist_trim_suffix (c : list T) l A B :
  sublist l (A ++ c) -> sublist l (B ++ c) ->
  exists l', sublist l' A /\ sublist l' B /\ slen l <= slen c + slen l'.
Proof.
  intros HA HB. apply sublist_reverse in HA, HB. rewrite !reverse_app in HA, HB.
  destruct (sublist_trim_prefix _ _ _ _ HA HB) as (l' & HA' & HB' & Hle).
  exists (reverse l'). apply sublist_reverse in HA', HB'. rewrite !reverse_involutive in HA', HB'.
  split_and!; [done..|]. unfold slen in *. rewrite !length_reverse in *. done.
Qed.

Lemma without_commons ty (c : list (option T)) : ty <> common -> without ty (map as_common c) = c.
Proof.
  intros. unfold without. induction c as [|x c IH]; [done|]. simpl. rewrite filter_cons.
  rewrite decide_True by done. simpl. by f_equal.
Qed.

Lemma number_commons (c : list (option T)) : number common (map as_common c) = slen c.
Proof.
  unfold number. induction c as [|x c IH]; [done|]. simpl. rewrite filter_cons.
  rewrite decide_True by done. rewrite !slen_cons. lia.
Qed.

Lemma without_one ty ty' (A : list T) :
  ty' <> common ->
  without ty (map (fun a => mkResult ty' (Some a) None) A) = (if decide (ty = ty') then [] else map Some A) /\
  number common (map (fun a => mkResult ty' (Some a) None) A) = 0.
Proof.
  intros Hc. unfold without, number. split; induction A as [|a A IH]; simpl; rewrite ?filter_cons.
  - by case_decide.
  - simpl. repeat case_decide; simplify_eq; simpl; congruence.
  - done.
  - by rewrite decide_False.
Qed.

Lemma slice_inner (a b c : list T) : c <> [] -> slice (a ++ b ++ c) (slen a) (- slen c) = b.
Proof.
  intros Hc. assert (0 < slen c) by (destruct c; [done|unfold slen; simpl; lia]).
  unfold slice, clamp_index. rewrite !slen_app. pose proof (slen_nonneg a). pose proof (slen_nonneg b).
  destruct (Z.ltb_spec (slen a) 0); [lia|]. destruct (Z.ltb_spec (- slen c) 0); [|lia].
  rewrite Z.min_l, Z.max_r by lia. unfold slen. rewrite Nat2Z.id, drop_app_length.
  replace (Z.to_nat _) with (length b) by lia. apply take_app_length.
Qed.

(** [diff] cuts off the common ends. *)
Lemma diff_trims fuel (A B : list T) :
  exists c A' B' e, A = c ++ A' ++ e /\ B = c ++ B' ++ e /\
    diff fuel A B =
      (let swapped := slen B' >? slen A' in
       let '(A0, B0) := if swapped then (B', A') else (A', B') in
       if (slen A0 =? 0) && (slen B0 =? 0) && (slen e =? 0) && (slen c =? 0) then Some (Ok [])
       else if slen B0 =? 0 then
         Some (Ok (map as_common (map Some c) ++
                   map (fun a => mkResult (only_A swapped) (Some a) None) A0 ++
                   map as_common (map Some e)))
       else match diff_middle fuel A0 B0 swapped with
            | Some (Ok r) => Some (Ok (map as_common (map Some c) ++ r ++ map as_common (map Some e)))
            | r => r
            end).
Proof.
  destruct (createCommon_prefix A B) as (c & A1 & B1 & Ec & -> & ->).
  destruct (createCommon_suffix A1 B1) as (e & A' & B' & Ee & -> & ->).
  exists c, A', B', e. split_and!; [done..|]. unfold diff. rewrite Ec.
  assert (Hlen : forall l : list T, slen (map Some l) = slen l) by (intros; unfold slen; by rewrite length_map).
  rewrite !Hlen, !sliceFrom_suffix, Ee, !Hlen by done.
  assert (Hmid : forall X, (if slen e =? 0 then X ++ e else slice (c ++ X ++ e) (slen c) (- slen e)) = X).
  { intros X. destruct (Z.eqb_spec (slen e) 0) as [E|E].
    - apply slen_0 in E as ->. by rewrite app_nil_r.
    - apply slice_inner. by intros ->. }
  by rewrite !Hmid.
Qed.

(** ** The result of [diff] *)

(** A shortest edit script from [A] to [B]. *)
Definition shortest_script (A B : list T) (r : list (DiffResult T)) : Prop :=
  without added r = map Some A /\ without removed r = map Some B /\
  forall l, sublist l A -> sublist l B -> slen l <= number common r.

Lemma script_frame c e A B r :
  shortest_script A B r ->
  shortest_script (c ++ A ++ e) (c ++ B ++ e)
    (map as_common (map Some c) ++ r ++ map as_common (map Some e)).
Proof.
  intros (HA & HB & Hl). split_and!.
  - by rewrite !without_app, !without_commons, HA, !map_app.
  - by rewrite !without_app, !without_commons, HB, !map_app.
  - intros l H1 H2. rewrite !number_app, !number_commons. unfold slen. rewrite !length_map.
    destruct (sublist_trim_prefix _ _ _ _ H1 H2) as (l1 & H3 & H4 & Hle1).
    destruct (sublist_trim_suffix _ _ _ _ H3 H4) as (l2 & H5 & H6 & Hle2).
    pose proof (Hl l2 H5 H6). unfold slen in *. lia.
Qed.

Lemma script_one_sided (A : list T) :
  shortest_script A [] (map (fun a => mkResult removed (Some a) None) A) /\
  shortest_script [] A (map (fun a => mkResult added (Some a) None) A).
Proof.
  destruct (without_one added removed A) as [E1 E2], (without_one removed removed A) as [E3 _],
    (without_one added added A) as [E4 E5], (without_one removed added A) as [E6 _]; try done.
  split; split_and!; rewrite ?E1, ?E2, ?E3, ?E4, ?E5, ?E6; try done.
  - by intros l _ ->%sublist_nil_r.
  - by intros l ->%sublist_nil_r _.
Qed.

Lemma middle_script (A B : list T) fuel :
  1 <= slen A -> 1 <= slen B -> slen A * slen B + slen A + slen B + 2 <= 2 ^ 32 ->
  (slen A + 1) * (slen B + 1) < Z.of_nat fuel ->
  exists r, (let swapped := slen B >? slen A in
             diff_middle fuel (if swapped then B else A) (if swapped then A else B) swapped) = Some (Ok r) /\
    shortest_script A B r.
Proof.
  intros HA HB Hfits Hfuel. cbv zeta. rewrite Z.gtb_ltb. destruct (Z.ltb_spec (slen A) (slen B)).
  - destruct (diff_middle_ok B A true fuel) as (r & Er & H1 & H2 & H3); [lia..|].
    exists r. split; [done|]. split; [done|split; [done|]]. intros l Hl1 Hl2. by apply H3.
  - destruct (diff_middle_ok A B false fuel) as (r & Er & H1 & H2 & H3); [lia..|]. by exists r.
Qed.

End ends.

(** C18. [diff] returns on all arrays whose route buffer has at most 2^32 entries
    per half, and its result is a shortest edit script: the entries that are not
    added spell out [A], those that are not removed spell out [B], and the
    common entries are as many as in any common subsequence. *)
Theorem diff_lcs {T} `{EqDecision T} (A B : list T) (fuel : nat) :
  slen A * slen B + slen A + slen B + 2 <= 2 ^ 32 ->
  (slen A + 1) * (slen B + 1) < Z.of_nat fuel ->
  exists r, diff fuel A B = Some (Ok r) /\
    without added r = map Some A /\ without removed r = map Some B /\
    forall l, sublist l A -> sublist l B -> slen l <= number common r.
Proof.
  intros Hfits Hfuel. destruct (diff_trims fuel A B) as (c & A' & B' & e & HA & HB & ->).
  rewrite HA, HB, !slen_app in Hfits, Hfuel. rewrite HA, HB.
  pose proof (slen_nonneg A'). pose proof (slen_nonneg B'). pose proof (slen_nonneg c). pose proof (slen_nonneg e).
  destruct (script_one_sided A') as [Hrem _], (script_one_sided B') as [_ Hadd].
  cbv zeta. rewrite Z.gtb_ltb. destruct (decide (slen A' = 0)) as [EA|EA], (decide (slen B' = 0)) as [EB|EB].
  - apply slen_0 in EA as ->. apply slen_0 in EB as ->. simpl.
    destruct ((slen e =? 0) && (slen c =? 0)) eqn:E; simpl.
    + reflect_bools. rewrite (slen_0 e), (slen_0 c) by done. exists []. split; [done|].
      apply (script_one_sided (T:=T) []).
    + eexists. split; [done|]. by apply (script_frame c e [] [] []).
  - apply slen_0 in EA as ->. rewrite slen_nil. zbool. simpl. eexists. split; [done|].
    by apply (script_frame c e [] B').
  - apply slen_0 in EB as ->. rewrite slen_nil. zbool. simpl. eexists. split; [done|].
    by apply (script_frame c e A' []).
  - destruct (middle_script A' B' fuel) as (r & Er & Hr); [lia|lia|nia|nia|]. cbv zeta in Er.
    rewrite Z.gtb_ltb in Er. eexists. split; [|by apply script_frame].
    destruct (slen A' <? slen B'); zbool; simpl; by rewrite Er.
Qed.

Lemma diff_lcs_witness :
  exists r, diff 50 [1; 2; 3; 1] [2; 1; 1] = Some (Ok r) /\
    without added r = map Some [1; 2; 3; 1] /\ without removed r = map Some [2; 1; 1] /\
    forall l, sublist l [1; 2; 3; 1] -> sublist l [2; 1; 1] -> slen l <= number common r.
Proof. apply (diff_lcs [1; 2; 3; 1] [2; 1; 1] 50); [vm_compute; discriminate|reflexivity]. Defined.
