(* ===== verification/AsyncHooks.v ===== *)
(** * AsyncLocalStorage and AsyncResource

    Models [src/ext/node/polyfills/async_hooks.ts]: the stack of context frames,
    the promise hooks, [AsyncContextFrame], [AsyncResource] and
    [AsyncLocalStorage].

    - Frames are mutable objects, so they live in a store ([frames]) and a frame
      is its location.  Storage entries are copied from frame to frame, so a
      frame owns its entries and they are values of its list.
    - A [StorageKey] is its identity; [dead] holds the keys whose storage was
      collected.  The finalizer runs between jobs ([Finalize]).
    - A promise is its identity; [promise_ctx] is its property [asyncContext] and
      [rejected] what [op_node_is_promise_rejected] answers.
    - [prog] is user code: what it does with this module is explicit, and it sees
      the outcome of each call, exceptions included. *)

From Stdlib Require Import ZArith Lia.
From stdpp Require Import base list numbers option gmap strings.
From S2P Require Import Prelude.

#[local] Open Scope Z_scope.

Definition loc : Type := positive.
Definition key : Type := positive.
Definition promise : Type := positive.

(** ** Data *)

(** [this.frame] and [this.type] of an [AsyncResource]. *)
Record AsyncResource := mkResource { frame : loc; rtype : string }.

(** The values that cross this module. *)
#[warnings="-register-all"]
Inductive value :=
  | Undef
  | Val (n : Z)
  | Arr (elems : list value)
  | Res (r : AsyncResource).

Record StorageEntry := mkEntry { ekey : key; evalue : value }.

(** What [AsyncResource.bind] returns, beside the function itself: the frame
    and the receiver of the call, and the properties it defines. *)
Record bound := mkBound {
  b_frame : loc; b_this : value; b_length : Z; b_asyncResource : AsyncResource
}.

(** A value passed as a function: its name and arity, or something else. *)
Inductive fn_arg :=
  | IsFn (name : string) (arity : Z)
  | NotAFn (v : jsval).

(** User code; a callback takes its receiver and its arguments. *)
Inductive prog :=
  | PRet (v : value)
  | PRaise (e : js_error)
  | PGetStore (als : key) (k : jsres value -> prog)
  | PRun (als : key) (store : value) (cb : list value -> prog) (args : list value) (k : jsres value -> prog)
  | PExit (als : key) (cb : list value -> prog) (args : list value) (k : jsres value -> prog)
  | PEnterWith (als : key) (store : value) (k : prog)
  | PResource (ty : string) (k : AsyncResource -> prog)
  | PRunInAsyncScope (r : AsyncResource) (fn : value -> list value -> prog) (thisArg : value)
      (args : list value) (k : jsres value -> prog)
  | PBind (r : AsyncResource) (fn : fn_arg) (thisArg : value) (k : jsres bound -> prog)
  | PStaticBind (fn : fn_arg) (ty : string) (thisArg : value) (k : jsres bound -> prog)
  | PSnapshot (k : jsres bound -> prog)
  | PCallBound (b : bound) (fn : value -> list value -> prog) (args : list value) (k : jsres value -> prog)
  | PPromise (p : promise) (k : jsres unit -> prog)
  | PSettle (p : promise) (reject : bool) (k : prog).

(** ** State *)

Record state := mkState {
  asyncContextStack : list loc;
  rootAsyncFrame : option loc;
  promiseHooksSet : bool;
  frames : gmap loc (list StorageEntry);
  dead : gset key;
  promise_ctx : gmap promise loc;
  rejected : gset promise
}.

Definition init_state : state := mkState [] None false ∅ ∅ ∅ ∅.

Definition set_stack (v : list loc) (st : state) : state :=
  mkState v (rootAsyncFrame st) (promiseHooksSet st) (frames st) (dead st) (promise_ctx st) (rejected st).
Definition set_root (v : option loc) (st : state) : state :=
  mkState (asyncContextStack st) v (promiseHooksSet st) (frames st) (dead st) (promise_ctx st) (rejected st).
Definition setPromiseHooks (st : state) : state :=
  mkState (asyncContextStack st) (rootAsyncFrame st) true (frames st) (dead st) (promise_ctx st) (rejected st).
Definition set_frames (v : gmap loc (list StorageEntry)) (st : state) : state :=
  mkState (asyncContextStack st) (rootAsyncFrame st) (promiseHooksSet st) v (dead st) (promise_ctx st) (rejected st).
Definition set_ctx (v : gmap promise loc) (st : state) : state :=
  mkState (asyncContextStack st) (rootAsyncFrame st) (promiseHooksSet st) (frames st) (dead st) v (rejected st).

Definition pushAsyncFrame (f : loc) (st : state) : state :=
  set_stack (asyncContextStack st ++ [f]) st.

Definition popAsyncFrame (st : state) : state :=
  if 0 <? slen (asyncContextStack st)
  then set_stack (take (length (asyncContextStack st) - 1) (asyncContextStack st)) st
  else st.

(** ** [AsyncContextFrame] *)

Definition isDead (st : state) (k : key) : bool := bool_decide (k ∈ dead st).

(** [storage.filter((entry) => !entry.key.isDead())] *)
Definition live (st : state) (es : list StorageEntry) : list StorageEntry :=
  filter (fun e => isDead st (ekey e) = false) es.

(** [storage.find((entry) => entry.key === key)], the value found. *)
Fixpoint find_entry (k : key) (es : list StorageEntry) : option value :=
  match es with
  | [] => None
  | e :: es' => if decide (ekey e = k) then Some (evalue e) else find_entry k es'
  end.

(** The first entry of the key gets the value, or the entry is appended. *)
Fixpoint put_entry (e : StorageEntry) (es : list StorageEntry) : list StorageEntry :=
  match es with
  | [] => [e]
  | e' :: es' => if decide (ekey e' = ekey e) then mkEntry (ekey e') (evalue e) :: es'
                 else e' :: put_entry e es'
  end.

(** The constructor with [isRoot] set. *)
Definition new_root (st : state) : state * loc :=
  let l := fresh (dom (frames st)) in
  (setPromiseHooks (set_frames (<[l := []]> (frames st)) st), l).

Definition getRootAsyncContext (st : state) : state * loc :=
  match rootAsyncFrame st with
  | Some l => (st, l)
  | None => let '(st, l) := new_root st in (set_root (Some l) st, l)
  end.

Definition current (st : state) : state * loc :=
  if slen (asyncContextStack st) =? 0 then getRootAsyncContext st
  else (st, default 1%positive (last (asyncContextStack st))).

(** [propagate(parent)] in the constructor of [this]. *)
Definition propagate (this parent : loc) (entry : option StorageEntry) (st : state) : state :=
  let st := set_frames (alter (live st) parent (frames st)) st in
  let inherited := default [] (frames st !! parent) in
  let st := set_frames (alter (fun own => own ++ inherited) this (frames st)) st in
  match entry with
  | None => st
  | Some e => set_frames (alter (put_entry e) this (frames st)) st
  end.

(** The constructor without [isRoot]. *)
Definition create (maybeParent : option loc) (entry : option StorageEntry) (st : state) : state * loc :=
  let this := fresh (dom (frames st)) in
  let st := setPromiseHooks (set_frames (<[this := []]> (frames st)) st) in
  let '(st, parent) := match maybeParent with Some f => (st, f) | None => current st end in
  (propagate this parent entry st, this).

Definition attachContext (p : promise) (st : state) : state :=
  let '(st, f) := current st in set_ctx (<[p := f]> (promise_ctx st)) st.

Definition isRoot (f : loc) (st : state) : state * bool :=
  let '(st, r) := getRootAsyncContext st in (st, bool_decide (r = f)).

Definition get (f : loc) (k : key) (st : state) : state * jsres value :=
  if isDead st k then (st, Throw (JsError "Assertion failed"%string))
  else
    let st := set_frames (alter (live st) f (frames st)) st in
    (st, Ok (default Undef (find_entry k (default [] (frames st !! f))))).

(** ** The promise hooks *)

Definition hook_init (p : promise) (st : state) : state * jsres unit :=
  let '(st, currentFrame) := current st in
  let '(st, root) := isRoot currentFrame st in
  if root then (st, Ok tt)
  else match promise_ctx st !! p with
       | Some _ => (st, Throw (JsError "Promise already has async context"%string))
       | None => (attachContext p st, Ok tt)
       end.

Definition hook_before (p : promise) (st : state) : state :=
  match promise_ctx st !! p with
  | Some f => pushAsyncFrame f st
  | None => let '(st, f) := getRootAsyncContext st in pushAsyncFrame f st
  end.

Definition hook_after (p : promise) (st : state) : state :=
  let st := popAsyncFrame st in
  if bool_decide (p ∈ rejected st) then st
  else set_ctx (delete p (promise_ctx st)) st.

Definition hook_resolve (p : promise) (st : state) : state :=
  let '(st, currentFrame) := current st in
  let '(st, root) := isRoot currentFrame st in
  if negb root && bool_decide (p ∈ rejected st) && bool_decide (promise_ctx st !! p = None)
  then attachContext p st else st.

(** The engine settles a promise and calls the hook. *)
Definition settle (p : promise) (reject : bool) (st : state) : state :=
  let st := mkState (asyncContextStack st) (rootAsyncFrame st) (promiseHooksSet st) (frames st) (dead st)
    (promise_ctx st) (if reject then {[p]} ∪ rejected st else rejected st) in
  if promiseHooksSet st then hook_resolve p st else st.

(** ** [Scope], [AsyncResource] and [AsyncLocalStorage] *)

Definition Scope_enter (f : loc) (st : state) : state := pushAsyncFrame f st.
Definition Scope_exit (st : state) : state := popAsyncFrame st.

Definition new_AsyncResource (ty : string) (st : state) : state * AsyncResource :=
  let '(st, f) := current st in (st, mkResource f ty).

Definition bind (r : AsyncResource) (fn : fn_arg) (thisArg : value) (st : state) : state * jsres bound :=
  match fn with
  | NotAFn v => (st, Throw (ERR_INVALID_ARG_TYPE "fn"%string ["Function"%string] v))
  | IsFn _ arity =>
      let '(st, f) := current st in
      let this := match thisArg with Undef => Res r | t => t end in
      (st, Ok (mkBound f this arity r))
  end.

(** [AsyncResource.bind]: reading [fn.name] fails on null and undefined only,
    which a signature [fn: Function] excludes. *)
Definition static_bind (fn : fn_arg) (ty : string) (thisArg : value) (st : state) : state * jsres bound :=
  let name := match fn with IsFn name _ => name | NotAFn _ => ""%string end in
  let ty := if String.eqb ty "" then name else ty in
  let '(st, r) := new_AsyncResource (if String.eqb ty "" then "AsyncResource"%string else ty) st in
  bind r fn thisArg st.

Definition snapshot (st : state) : state * jsres bound :=
  static_bind (IsFn "" 1) "" Undef st.

(** [getStore]. *)
Definition getStore (als : key) (st : state) : state * jsres value :=
  let '(st, f) := current st in get f als st.

Definition enterWith (als : key) (store : value) (st : state) : state :=
  let '(st, f) := create None (Some (mkEntry als store)) st in Scope_enter f st.

(** Running user code: [run], [exit], [runInAsyncScope] and the function
    [AsyncContextFrame.wrap] returns call back into it. *)
Fixpoint exec (c : prog) (st : state) : state * jsres value :=
  match c with
  | PRet v => (st, Ok v)
  | PRaise e => (st, Throw e)
  | PGetStore als k => let '(st, r) := getStore als st in exec (k r) st
  | PRun als store cb args k =>
      let '(st, f) := create None (Some (mkEntry als store)) st in
      let st := Scope_enter f st in
      let '(st, res) := exec (cb args) st in
      let st := Scope_exit st in
      exec (k res) st
  | PExit als cb args k =>
      let '(st, f) := create None (Some (mkEntry als Undef)) st in
      let st := Scope_enter f st in
      let '(st, res) := exec (cb [Arr args]) st in
      let st := Scope_exit st in
      exec (k res) st
  | PEnterWith als store k => exec k (enterWith als store st)
  | PResource ty k => let '(st, r) := new_AsyncResource ty st in exec (k r) st
  | PRunInAsyncScope r fn thisArg args k =>
      let st := Scope_enter (frame r) st in
      let '(st, res) := exec (fn thisArg args) st in
      let st := Scope_exit st in
      exec (k res) st
  | PBind r fn thisArg k => let '(st, b) := bind r fn thisArg st in exec (k b) st
  | PStaticBind fn ty thisArg k => let '(st, b) := static_bind fn ty thisArg st in exec (k b) st
  | PSnapshot k => let '(st, b) := snapshot st in exec (k b) st
  | PCallBound b fn args k =>
      let st := Scope_enter (b_frame b) st in
      let '(st, res) := exec (fn (b_this b) args) st in
      let st := Scope_exit st in
      exec (k res) st
  | PPromise p k =>
      if promiseHooksSet st then let '(st, r) := hook_init p st in exec (k r) st
      else exec (k (Ok tt)) st
  | PSettle p reject k => exec k (settle p reject st)
  end.

(** What the event loop does: it runs a script, the reaction of a promise, or
    the finalizer of a storage. *)
Inductive event :=
  | Script (c : prog)
  | Reaction (p : promise) (c : prog)
  | Finalize (k : key).

Definition reset (k : key) (st : state) : state :=
  mkState (asyncContextStack st) (rootAsyncFrame st) (promiseHooksSet st) (frames st) ({[k]} ∪ dead st)
    (promise_ctx st) (rejected st).

Definition run_event (ev : event) (st : state) : state * jsres value :=
  match ev with
  | Script c => exec c st
  | Reaction p c =>
      let st := if promiseHooksSet st then hook_before p st else st in
      let '(st, r) := exec c st in
      let st := if promiseHooksSet st then hook_after p st else st in
      (st, r)
  | Finalize k => (reset k st, Ok Undef)
  end.

Fixpoint run_events (evs : list event) (st : state) : state * list (jsres value) :=
  match evs with
  | [] => (st, [])
  | ev :: evs' =>
      let '(st, r) := run_event ev st in
      let '(st, rs) := run_events evs' st in
      (st, r :: rs)
  end.
