(* ===== verification/AsyncHooksProps.v ===== *)
(** * AsyncLocalStorage implements dynamic scoping

    The specification has no stack and mutates nothing: every frame is a finite
    map from storages to values, fixed when it is made, and code runs in a
    current frame.  [run] runs its callback in a new frame that extends the
    current one, a bound function or an async resource in the frame it was made
    in, a promise reaction in the frame its promise was made in.  The module
    refines it: the stack of frames, the lists of entries and the removal of
    dead ones do not show. *)

From Stdlib Require Import ZArith Lia.
From stdpp Require Import base list numbers option gmap strings.
From S2P Require Import Prelude AsyncHooks.

#[local] Open Scope Z_scope.

(** ** Specification *)

Module Spec.

Record state := mkSpec {
  root : option loc;
  hooks : bool;
  contexts : gmap loc (gmap key value);
  dead : gset key;
  promise_ctx : gmap promise loc;
  rejected : gset promise
}.

Definition init : state := mkSpec None false ∅ ∅ ∅ ∅.

Definition set_pctx (v : gmap promise loc) (s : state) : state :=
  mkSpec (root s) (hooks s) (contexts s) (dead s) v (rejected s).

Definition get_root (s : state) : state * loc :=
  match root s with
  | Some l => (s, l)
  | None =>
      let l := fresh (dom (contexts s)) in
      (mkSpec (Some l) true (<[l := ∅]> (contexts s)) (dead s) (promise_ctx s) (rejected s), l)
  end.

Definition current (cur : option loc) (s : state) : state * loc :=
  match cur with None => get_root s | Some l => (s, l) end.

(** A new frame: the current one with one storage set. *)
Definition extend (cur : option loc) (als : key) (store : value) (s : state) : state * loc :=
  let this := fresh (dom (contexts s)) in
  let s := mkSpec (root s) true (<[this := ∅]> (contexts s)) (dead s) (promise_ctx s) (rejected s) in
  let '(s, parent) := current cur s in
  (mkSpec (root s) (hooks s) (<[this := <[als := store]> (default ∅ (contexts s !! parent))]> (contexts s))
     (dead s) (promise_ctx s) (rejected s), this).

Definition store_of (l : loc) (als : key) (s : state) : jsres value :=
  if decide (als ∈ dead s) then Throw (JsError "Assertion failed"%string)
  else Ok (default Undef (default ∅ (contexts s !! l) !! als)).

(** A promise made in a frame other than the root remembers it. *)
Definition promise_made (cur : option loc) (p : promise) (s : state) : state * jsres unit :=
  let '(s, l) := current cur s in
  let '(s, r) := get_root s in
  if decide (r = l) then (s, Ok tt)
  else match promise_ctx s !! p with
       | Some _ => (s, Throw (JsError "Promise already has async context"%string))
       | None => (set_pctx (<[p := l]> (promise_ctx s)) s, Ok tt)
       end.

Definition promise_settled (cur : option loc) (p : promise) (reject : bool) (s : state) : state :=
  let s := mkSpec (root s) (hooks s) (contexts s) (dead s) (promise_ctx s)
    (if reject then {[p]} ∪ rejected s else rejected s) in
  if hooks s then
    let '(s, l) := current cur s in
    let '(s, r) := get_root s in
    if decide (r <> l /\ p ∈ rejected s /\ promise_ctx s !! p = None)
    then set_pctx (<[p := l]> (promise_ctx s)) s else s
  else s.

Definition bind (cur : option loc) (r : AsyncResource) (fn : fn_arg) (thisArg : value) (s : state)
    : state * jsres bound :=
  match fn with
  | NotAFn v => (s, Throw (ERR_INVALID_ARG_TYPE "fn"%string ["Function"%string] v))
  | IsFn _ arity =>
      let '(s, l) := current cur s in
      (s, Ok (mkBound l (match thisArg with Undef => Res r | t => t end) arity r))
  end.

Definition static_bind (cur : option loc) (fn : fn_arg) (ty : string) (thisArg : value) (s : state)
    : state * jsres bound :=
  let name := match fn with IsFn name _ => name | NotAFn _ => ""%string end in
  let ty := if String.eqb ty "" then name else ty in
  let '(s, l) := current cur s in
  bind cur (mkResource l (if String.eqb ty "" then "AsyncResource"%string else ty)) fn thisArg s.

(** Code in the frame [cur] ([None]: outside every frame, that is the root). *)
Fixpoint exec (c : prog) (cur : option loc) (s : state) : state * jsres value :=
  match c with
  | PRet v => (s, Ok v)
  | PRaise e => (s, Throw e)
  | PGetStore als k => let '(s, l) := current cur s in exec (k (store_of l als s)) cur s
  | PRun als store cb args k =>
      let '(s, l) := extend cur als store s in
      let '(s, res) := exec (cb args) (Some l) s in
      exec (k res) cur s
  | PExit als cb args k =>
      let '(s, l) := extend cur als Undef s in
      let '(s, res) := exec (cb [Arr args]) (Some l) s in
      exec (k res) cur s
  | PEnterWith als store k => (s, Ok Undef)
  | PResource ty k => let '(s, l) := current cur s in exec (k (mkResource l ty)) cur s
  | PRunInAsyncScope r fn thisArg args k =>
      let '(s, res) := exec (fn thisArg args) (Some (frame r)) s in exec (k res) cur s
  | PBind r fn thisArg k => let '(s, b) := bind cur r fn thisArg s in exec (k b) cur s
  | PStaticBind fn ty thisArg k => let '(s, b) := static_bind cur fn ty thisArg s in exec (k b) cur s
  | PSnapshot k => let '(s, b) := static_bind cur (IsFn "" 1) "" Undef s in exec (k b) cur s
  | PCallBound b fn args k =>
      let '(s, res) := exec (fn (b_this b) args) (Some (b_frame b)) s in exec (k res) cur s
  | PPromise p k =>
      if hooks s then let '(s, r) := promise_made cur p s in exec (k r) cur s
      else exec (k (Ok tt)) cur s
  | PSettle p reject k => exec k cur (promise_settled cur p reject s)
  end.

(** A reaction runs in the frame of its promise. *)
Definition run_event (ev : event) (s : state) : state * jsres value :=
  match ev with
  | Script c => exec c None s
  | Reaction p c =>
      let '(s, cur) :=
        if hooks s then
          match promise_ctx s !! p with
          | Some l => (s, Some l)
          | None => let '(s, l) := get_root s in (s, Some l)
          end
        else (s, None) in
      let '(s, r) := exec c cur s in
      (if hooks s && negb (bool_decide (p ∈ rejected s)) then set_pctx (delete p (promise_ctx s)) s else s, r)
  | Finalize k => (mkSpec (root s) (hooks s) (contexts s) ({[k]} ∪ dead s) (promise_ctx s) (rejected s), Ok Undef)
  end.

Fixpoint run_events (evs : list event) (s : state) : state * list (jsres value) :=
  match evs with
  | [] => (s, [])
  | ev :: evs' =>
      let '(s, r) := run_event ev s in
      let '(s, rs) := run_events evs' s in
      (s, r :: rs)
  end.

End Spec.

(** Code that does not call [enterWith]. *)
Fixpoint scoped (c : prog) : Prop :=
  match c with
  | PRet _ | PRaise _ => True
  | PGetStore _ k => forall r, scoped (k r)
  | PRun _ _ cb args k => (forall a, scoped (cb a)) /\ forall r, scoped (k r)
  | PExit _ cb args k => (forall a, scoped (cb a)) /\ forall r, scoped (k r)
  | PEnterWith _ _ _ => False
  | PResource _ k => forall r, scoped (k r)
  | PRunInAsyncScope _ fn _ _ k => (forall t a, scoped (fn t a)) /\ forall r, scoped (k r)
  | PBind _ _ _ k | PStaticBind _ _ _ k | PSnapshot k => forall b, scoped (k b)
  | PCallBound _ fn _ k => (forall t a, scoped (fn t a)) /\ forall r, scoped (k r)
  | PPromise _ k => forall r, scoped (k r)
  | PSettle _ _ k => scoped k
  end.

Definition scoped_event (ev : event) : Prop :=
  match ev with Script c | Reaction _ c => scoped c | Finalize _ => True end.

(** ** Simulation *)

(** A list of entries stands for a map on the storages that are alive. *)
Definition frame_ok (d : gset key) (es : list StorageEntry) (m : gmap key value) : Prop :=
  forall k, k ∉ d -> find_entry k es = m !! k.

Record sim (st : state) (s : Spec.state) : Prop := {
  si_root : rootAsyncFrame st = Spec.root s;
  si_hooks : promiseHooksSet st = Spec.hooks s;
  si_dead : dead st = Spec.dead s;
  si_ctx : promise_ctx st = Spec.promise_ctx s;
  si_rejected : rejected st = Spec.rejected s;
  si_dom : dom (frames st) = dom (Spec.contexts s);
  si_frames : forall l, frame_ok (dead st) (default [] (frames st !! l)) (default ∅ (Spec.contexts s !! l))
}.

Lemma find_live st k es : k ∉ dead st -> find_entry k (live st es) = find_entry k es.
Proof.
  intros Hk. unfold live. induction es as [|e es IH]; [done|]. rewrite filter_cons. simpl.
  case_decide as Hd; simpl.
  - by rewrite IH.
  - unfold isDead in Hd. apply not_false_is_true, bool_decide_eq_true in Hd. rewrite IH. case_decide; [congruence|done].
Qed.

Lemma find_put e k es :
  find_entry k (put_entry e es) = if decide (ekey e = k) then Some (evalue e) else find_entry k es.
Proof.
  induction es as [|e' es IH]; simpl; [by repeat case_decide|].
  destruct (decide (ekey e' = ekey e)) as [E|E]; simpl; [rewrite E; by destruct (decide (ekey e = k))|].
  rewrite IH. destruct (decide (ekey e' = k)), (decide (ekey e = k)); congruence.
Qed.

Lemma frame_live st es m : frame_ok (dead st) es m -> frame_ok (dead st) (live st es) m.
Proof. intros Hf k Hk. rewrite find_live by done. by apply Hf. Qed.

Lemma frame_put d es m e : frame_ok d es m -> frame_ok d (put_entry e es) (<[ekey e := evalue e]> m).
Proof.
  intros Hf k Hk. rewrite find_put. case_decide as E.
  - subst. by rewrite lookup_insert_eq.
  - rewrite lookup_insert_ne by done. by apply Hf.
Qed.

(** Dropping dead entries of one frame does not show. *)
Lemma sim_live st s l : sim st s -> sim (set_frames (alter (live st) l (frames st)) st) s.
Proof.
  intros [? ? ? ? ? Hdom Hf]. split; simpl; try done.
  - by rewrite dom_alter_L.
  - intros l'. destruct (decide (l = l')) as [->|].
    + rewrite lookup_alter_eq. specialize (Hf l'). destruct (frames st !! l') as [es|]; [|done]. simpl in *.
      by apply frame_live.
    + by rewrite lookup_alter_ne.
Qed.

(** The frame that is current for a stack. *)
Definition top (st : state) : option loc := last (asyncContextStack st).

(** Two outcomes agree: the same result, related states, the stack as it was. *)
Definition agree {R} (st : state) (a : state * R) (b : Spec.state * R) : Prop :=
  a.2 = b.2 /\ sim a.1 b.1 /\ asyncContextStack a.1 = asyncContextStack st.

Lemma root_agree st s : sim st s -> agree st (getRootAsyncContext st) (Spec.get_root s).
Proof.
  intros Hs. pose proof Hs as [Hr Hh Hd Hc Hj Hdom Hf]. unfold getRootAsyncContext, Spec.get_root, new_root.
  rewrite <- Hr. destruct (rootAsyncFrame st) as [l|]; [done|]. rewrite <- Hdom.
  split; [done|split; [|done]]. split; simpl; try done.
  - by rewrite !dom_insert_L, Hdom.
  - intros l. destruct (decide (fresh (dom (frames st)) = l)) as [->|].
    + rewrite !lookup_insert_eq. simpl. intros k _. by rewrite lookup_empty.
    + rewrite !lookup_insert_ne by done. apply Hf.
Qed.

Lemma current_agree st s : sim st s -> agree st (current st) (Spec.current (top st) s).
Proof.
  intros Hs. unfold current, Spec.current, top.
  destruct (asyncContextStack st) as [|f fs] eqn:E using rev_ind.
  - simpl. by apply root_agree.
  - rewrite last_snoc, slen_app, slen_cons, slen_nil. pose proof (slen_nonneg fs).
    destruct (Z.eqb_spec (slen fs + (1 + 0)) 0); [lia|]. done.
Qed.

Lemma current_keeps st l es : frames st !! l = Some es -> frames (current st).1 !! l = Some es.
Proof.
  intros Hl. unfold current, getRootAsyncContext, new_root.
  destruct (_ =? _); [|done]. destruct (rootAsyncFrame st); [done|]. simpl.
  rewrite lookup_insert_ne; [done|]. intros E. apply elem_of_dom_2 in Hl. rewrite <- E in Hl.
  by apply is_fresh in Hl.
Qed.

Lemma propagate_sim st s this parent e :
  sim st s -> frames st !! this = Some [] ->
  sim (propagate this parent (Some e) st)
    (Spec.mkSpec (Spec.root s) (Spec.hooks s)
      (<[this := <[ekey e := evalue e]> (default ∅ (Spec.contexts s !! parent))]> (Spec.contexts s))
      (Spec.dead s) (Spec.promise_ctx s) (Spec.rejected s)).
Proof.
  intros Hs Hthis. pose proof (sim_live st s parent Hs) as Hs1. unfold propagate.
  set (st1 := set_frames (alter (live st) parent (frames st)) st) in *.
  assert (Hown : frames st1 !! this = Some []).
  { unfold st1. simpl. destruct (decide (parent = this)) as [->|].
    - by rewrite lookup_alter_eq, Hthis.
    - by rewrite lookup_alter_ne. }
  clearbody st1. destruct Hs1 as [? ? ? ? ? Hdom Hf]. split; simpl; try done.
  - rewrite !dom_alter_L, dom_insert_L, Hdom. apply elem_of_dom_2 in Hown. rewrite Hdom in Hown.
    symmetry. by apply subseteq_union_1_L, singleton_subseteq_l.
  - intros l. destruct (decide (this = l)) as [<-|].
    + rewrite !lookup_alter_eq, lookup_insert_eq, Hown. simpl. apply frame_put, (Hf parent).
    + rewrite !lookup_alter_ne by done. rewrite lookup_insert_ne by done. apply Hf.
Qed.

Lemma create_agree st s als v :
  sim st s -> agree st (create None (Some (mkEntry als v)) st) (Spec.extend (top st) als v s).
Proof.
  intros Hs. pose proof Hs as [Hr Hh Hd Hc Hj Hdom Hf]. unfold create, Spec.extend. rewrite <- Hdom.
  set (this := fresh (dom (frames st))).
  set (st1 := setPromiseHooks _). set (s1 := Spec.mkSpec _ true _ _ _ _).
  assert (Hs1 : sim st1 s1).
  { split; simpl; try done.
    - by rewrite !dom_insert_L, Hdom.
    - intros l. destruct (decide (this = l)) as [<-|].
      + rewrite !lookup_insert_eq. intros k _. simpl. by rewrite lookup_empty.
      + rewrite !lookup_insert_ne by done. apply Hf. }
  assert (Hthis : frames (current st1).1 !! this = Some []) by (apply current_keeps; simpl; by rewrite lookup_insert_eq).
  pose proof (current_agree st1 s1 Hs1) as (E & Hs2 & Hst). change (top st1) with (top st) in *.
  destruct (current st1) as [st2 par], (Spec.current (top st) s1) as [s2 par']. simpl in *. subst par'.
  split; [done|split; [by apply (propagate_sim st2 s2 this par (mkEntry als v))|done]].
Qed.

Lemma store_agree st s als :
  sim st s ->
  agree st (getStore als st) (let '(s, l) := Spec.current (top st) s in (s, Spec.store_of l als s)).
Proof.
  intros Hs. pose proof (current_agree st s Hs) as (E & Hs1 & Hst). unfold getStore.
  destruct (current st) as [st1 l], (Spec.current (top st) s) as [s1 l']. simpl in *. subst l'.
  unfold get, Spec.store_of, isDead. rewrite <- (si_dead _ _ Hs1).
  destruct (decide (als ∈ dead st1)) as [Hd|Hd].
  - by rewrite bool_decide_eq_true_2.
  - rewrite bool_decide_eq_false_2 by done. pose proof (sim_live st1 s1 l Hs1) as Hs2.
    split; [|split; [done|done]]. simpl. do 2 f_equal. by apply (si_frames _ _ Hs2 l).
Qed.

Lemma attach_agree st s l p :
  sim st s -> (current st).2 = l -> (current st).1 = st ->
  sim (attachContext p st) (Spec.set_pctx (<[p := l]> (Spec.promise_ctx s)) s).
Proof.
  intros [? ? ? Hc ? ? ?] Hl Hst. unfold attachContext. destruct (current st) as [st1 f]. simpl in *. subst.
  split; simpl; try done. by rewrite Hc.
Qed.

(** [current] and [getRootAsyncContext] settle after the first call. *)
Lemma current_settled st st1 l st2 r :
  current st = (st1, l) -> getRootAsyncContext st1 = (st2, r) -> r <> l -> current st2 = (st2, l).
Proof.
  unfold current. destruct (Z.eqb_spec (slen (asyncContextStack st)) 0) as [E|E].
  - unfold getRootAsyncContext at 1. intros H1 H2 Hne. exfalso. apply Hne.
    destruct (rootAsyncFrame st) as [l0|] eqn:Er.
    + injection H1 as <- <-. unfold getRootAsyncContext in H2. rewrite Er in H2. congruence.
    + destruct (new_root st) as [st0 l0]. injection H1 as <- <-. unfold getRootAsyncContext in H2. simpl in H2.
      congruence.
  - intros [= <- <-] H2 _. assert (asyncContextStack st2 = asyncContextStack st) as ->.
    { unfold getRootAsyncContext, new_root in H2. destruct (rootAsyncFrame st); by injection H2 as <- _. }
    by rewrite (proj2 (Z.eqb_neq _ _) E).
Qed.

Lemma hook_init_agree st s p :
  sim st s -> agree st (hook_init p st) (Spec.promise_made (top st) p s).
Proof.
  intros Hs. unfold hook_init, Spec.promise_made, isRoot.
  pose proof (current_agree st s Hs) as (E & Hs1 & Hst1).
  pose proof (current_settled st) as Hset.
  destruct (current st) as [st1 l], (Spec.current (top st) s) as [s1 l']. simpl in *. subst l'.
  pose proof (root_agree st1 s1 Hs1) as (E & Hs2 & Hst2).
  specialize (Hset st1 l). destruct (getRootAsyncContext st1) as [st2 r], (Spec.get_root s1) as [s2 r'].
  simpl in *. subst r'. assert (Hstk : asyncContextStack st2 = asyncContextStack st) by congruence.
  destruct (decide (r = l)) as [Erl|Hne].
  - rewrite bool_decide_eq_true_2 by done. done.
  - rewrite bool_decide_eq_false_2 by done. rewrite <- (si_ctx _ _ Hs2).
    destruct (promise_ctx st2 !! p); [done|]. specialize (Hset st2 r eq_refl eq_refl Hne).
    split; [done|]. simpl. rewrite (si_ctx _ _ Hs2).
    split; [apply attach_agree; by rewrite ?Hset|]. unfold attachContext. by rewrite Hset.
Qed.

Lemma settle_agree st s p b :
  sim st s ->
  sim (settle p b st) (Spec.promise_settled (top st) p b s) /\
  asyncContextStack (settle p b st) = asyncContextStack st.
Proof.
  intros Hs. unfold settle, Spec.promise_settled.
  set (st0 := mkState _ _ _ _ _ _ _). set (s0 := Spec.mkSpec _ _ _ _ _ _).
  assert (Hs0 : sim st0 s0).
  { destruct Hs as [? ? ? ? Hj ? ?]. split; simpl; try done. by rewrite Hj. }
  rewrite <- (si_hooks _ _ Hs0). change (top st) with (top st0).
  change (asyncContextStack st) with (asyncContextStack st0). clearbody st0 s0. clear Hs.
  destruct (promiseHooksSet st0); [|done]. unfold hook_resolve, isRoot.
  pose proof (current_agree st0 s0 Hs0) as (E & Hs1 & Hst1).
  pose proof (current_settled st0) as Hset.
  destruct (current st0) as [st1 l], (Spec.current (top st0) s0) as [s1 l']. simpl in *. subst l'.
  pose proof (root_agree st1 s1 Hs1) as (E & Hs2 & Hst2).
  specialize (Hset st1 l). destruct (getRootAsyncContext st1) as [st2 r], (Spec.get_root s1) as [s2 r'].
  simpl in *. subst r'. rewrite <- (si_rejected _ _ Hs2), <- (si_ctx _ _ Hs2).
  destruct (decide (r <> l /\ p ∈ rejected st2 /\ promise_ctx st2 !! p = None)) as [(Hne & Hp & Hn)|Hd].
  - rewrite bool_decide_eq_false_2, !bool_decide_eq_true_2 by done. simpl.
    specialize (Hset st2 r eq_refl eq_refl Hne). rewrite (si_ctx _ _ Hs2).
    split; [apply attach_agree; by rewrite ?Hset|]. unfold attachContext. rewrite Hset. simpl. congruence.
  - destruct (negb _ && _ && _) eqn:Eb; [|split; [done|congruence]].
    exfalso. apply Hd. by reflect_bools.
Qed.

(** Entering and leaving a frame around code that agrees. *)
Lemma scope_agree st s f (b : prog) :
  agree (Scope_enter f st) (exec b (Scope_enter f st)) (Spec.exec b (Some f) s) ->
  agree st (Scope_exit (exec b (Scope_enter f st)).1, (exec b (Scope_enter f st)).2)
    ((Spec.exec b (Some f) s).1, (Spec.exec b (Some f) s).2).
Proof.
  intros (E & Hs & Hst). split; [done|]. simpl.
  change (asyncContextStack (Scope_enter f st)) with (asyncContextStack st ++ [f]) in Hst.
  unfold Scope_exit, popAsyncFrame. rewrite Hst.
  rewrite (proj2 (Z.ltb_lt _ _)) by (unfold slen; rewrite length_app; simpl; lia). split.
  - destruct Hs. by split.
  - simpl. rewrite length_app. simpl. rewrite Nat.add_sub. by rewrite take_app_length.
Qed.

Lemma sim_stack st s v : sim st s -> sim (set_stack v st) s.
Proof. intros []. by split. Qed.

Lemma top_enter f st : top (Scope_enter f st) = Some f.
Proof. unfold top. simpl. apply last_snoc. Qed.

Lemma bind_agree st s r fn t :
  sim st s -> agree st (bind r fn t st) (Spec.bind (top st) r fn t s).
Proof.
  intros Hs. unfold bind, Spec.bind. destruct fn; [|done].
  pose proof (current_agree st s Hs) as (E & Hs1 & Hst).
  destruct (current st) as [st1 l], (Spec.current (top st) s) as [s1 l']. simpl in *. by subst l'.
Qed.

(** The rest of the code runs on the stack it started with. *)
Lemma agree_top {R} st (a : state * R) b : agree st a b -> top a.1 = top st.
Proof. intros (_ & _ & E). unfold top. by rewrite E. Qed.

Lemma agree_trans {R Q} st (a : state * R) (b : Spec.state * R) (a' : state * Q) b' :
  agree st a b -> agree a.1 a' b' -> agree st a' b'.
Proof. intros (_ & _ & E) (E1 & Hs & E2). split; [done|split; [done|congruence]]. Qed.

Lemma static_bind_agree st s fn ty t :
  sim st s -> agree st (static_bind fn ty t st) (Spec.static_bind (top st) fn ty t s).
Proof.
  intros Hs. unfold static_bind, Spec.static_bind, new_AsyncResource.
  pose proof (current_agree st s Hs) as Ha. pose proof (agree_top _ _ _ Ha) as Ht.
  destruct Ha as (E & Hs1 & Hst).
  destruct (current st) as [st1 l], (Spec.current (top st) s) as [s1 l']. simpl in *. subst l'.
  rewrite <- Ht. eapply (agree_trans st (st1, tt) (s1, tt)); [done|]. by apply bind_agree.
Qed.

Definition simulates (c : prog) : Prop :=
  forall st s, sim st s -> agree st (exec c st) (Spec.exec c (top st) s).

(** An operation that agrees, then its continuation. *)
Lemma exec_next {R} st (a : state * R) b k :
  agree st a b -> (forall r, simulates (k r)) ->
  agree st (let '(st, r) := a in exec (k r) st) (let '(s, r) := b in Spec.exec (k r) (top st) s).
Proof.
  destruct a as [st1 r], b as [s1 r']. intros (E & Hs & Hst) Hk. simpl in *. subst r'.
  eapply (agree_trans st (st1, r) (s1, r)); [done|]. unfold top. rewrite <- Hst. by apply Hk.
Qed.

(** Code in a frame, then the rest outside it. *)
Lemma exec_scope st s f b k :
  simulates b -> (forall r, simulates (k r)) -> sim st s ->
  agree st (let '(st, r) := exec b (Scope_enter f st) in exec (k r) (Scope_exit st))
    (let '(s, r) := Spec.exec b (Some f) s in Spec.exec (k r) (top st) s).
Proof.
  intros Hb Hk Hs. specialize (Hb (Scope_enter f st) s (sim_stack _ _ _ Hs)).
  rewrite top_enter in Hb. apply scope_agree in Hb. eapply exec_next in Hb; [|exact Hk].
  destruct (exec b _), (Spec.exec b _ _). exact Hb.
Qed.

Lemma exec_run st s als v b k :
  simulates b -> (forall r, simulates (k r)) -> sim st s ->
  agree st
    (let '(st, f) := create None (Some (mkEntry als v)) st in
     let '(st, r) := exec b (Scope_enter f st) in exec (k r) (Scope_exit st))
    (let '(s, l) := Spec.extend (top st) als v s in
     let '(s, r) := Spec.exec b (Some l) s in Spec.exec (k r) (top st) s).
Proof.
  intros Hb Hk Hs. pose proof (create_agree st s als v Hs) as Ha. pose proof (agree_top _ _ _ Ha) as Ht.
  destruct (create _ _ st) as [st1 f], (Spec.extend (top st) als v s) as [s1 f'].
  destruct Ha as (E & Hs1 & Hst). simpl in *. subst f'. rewrite <- Ht.
  eapply (agree_trans st (st1, f) (s1, f)); [done|]. by apply exec_scope.
Qed.

Lemma exec_agree c : scoped c -> simulates c.
Proof.
  induction c as [v|e|als k IH|als v cb IHcb ar k IH|als cb IHcb ar k IH|als v k IH|ty k IH
    |r fn IHfn t ar k IH|r fn t k IH|fn ty t k IH|k IH|b fn IHfn ar k IH|p k IH|p b k IH];
    simpl; intros Hc st s Hs; try done.
  - pose proof (store_agree st s als Hs) as Ha. eapply (exec_next _ _ _ k) in Ha; [|intros; by apply IH].
    simpl. by destruct (Spec.current (top st) s).
  - destruct Hc as [Hcb Hk]. apply exec_run; [by apply IHcb|intros; by apply IH|done].
  - destruct Hc as [Hcb Hk]. apply exec_run; [by apply IHcb|intros; by apply IH|done].
  - pose proof (current_agree st s Hs) as Ha. simpl. unfold new_AsyncResource.
    eapply (exec_next _ _ _ (fun l => k (mkResource l ty))) in Ha; [|intros; by apply IH].
    by destruct (current st).
  - destruct Hc as [Hfn Hk]. apply exec_scope; [by apply IHfn|intros; by apply IH|done].
  - apply (exec_next _ _ _ k); [by apply bind_agree|intros; by apply IH].
  - apply (exec_next _ _ _ k); [by apply static_bind_agree|intros; by apply IH].
  - apply (exec_next _ _ _ k); [by apply static_bind_agree|intros; by apply IH].
  - destruct Hc as [Hfn Hk]. apply exec_scope; [by apply IHfn|intros; by apply IH|done].
  - simpl. rewrite <- (si_hooks _ _ Hs). destruct (promiseHooksSet st); [|by apply IH].
    apply (exec_next _ _ _ k); [by apply hook_init_agree|intros; by apply IH].
  - destruct (settle_agree st s p b Hs) as [Hs1 Hst].
    eapply (agree_trans st (settle p b st, tt) (Spec.promise_settled (top st) p b s, tt)); [done|].
    simpl. unfold top at 1. rewrite <- Hst at 1. by apply IH.
Qed.

(** ** The event loop *)

(** Once set, the hooks stay set. *)
Definition keeps_hooks {R} (f : state -> state * R) : Prop :=
  forall st, promiseHooksSet st = true -> promiseHooksSet (f st).1 = true.

Lemma root_hooks : keeps_hooks getRootAsyncContext.
Proof. intros st Hh. unfold getRootAsyncContext, new_root. by destruct (rootAsyncFrame st). Qed.

Lemma current_hooks : keeps_hooks current.
Proof. intros st Hh. unfold current. destruct (_ =? _); [by apply root_hooks|done]. Qed.

Lemma create_hooks par e : keeps_hooks (create par e).
Proof.
  intros st _. unfold create, propagate. set (st1 := setPromiseHooks _).
  assert (Hh : promiseHooksSet (match par with Some f => (st1, f) | None => current st1 end).1 = true)
    by (destruct par; [done|by apply current_hooks]).
  destruct (match par with Some f => (st1, f) | None => current st1 end). by destruct e.
Qed.

Lemma attach_hooks p st : promiseHooksSet st = true -> promiseHooksSet (attachContext p st) = true.
Proof. intros Hh. unfold attachContext. pose proof (current_hooks st Hh). by destruct (current st). Qed.

Lemma isRoot_hooks f : keeps_hooks (isRoot f).
Proof. intros st Hh. unfold isRoot. pose proof (root_hooks st Hh). by destruct (getRootAsyncContext st). Qed.

Lemma hook_init_hooks p : keeps_hooks (hook_init p).
Proof.
  intros st Hh. unfold hook_init. pose proof (current_hooks st Hh) as H1. destruct (current st) as [st1 l].
  pose proof (isRoot_hooks l st1 H1) as H2. destruct (isRoot l st1) as [st2 []]; [done|].
  destruct (promise_ctx st2 !! p); [done|]. by apply attach_hooks.
Qed.

Lemma settle_hooks p b st : promiseHooksSet st = true -> promiseHooksSet (settle p b st) = true.
Proof.
  intros Hh. unfold settle. simpl. rewrite Hh. unfold hook_resolve. set (st0 := mkState _ _ _ _ _ _ _).
  pose proof (current_hooks st0 eq_refl) as H1. destruct (current st0) as [st1 l].
  pose proof (isRoot_hooks l st1 H1) as H2. destruct (isRoot l st1) as [st2 r].
  destruct (negb _ && _ && _); [by apply attach_hooks|done].
Qed.

Lemma pop_hooks st : promiseHooksSet (popAsyncFrame st) = promiseHooksSet st.
Proof. unfold popAsyncFrame. by destruct (_ <? _). Qed.

Lemma getStore_hooks als : keeps_hooks (getStore als).
Proof.
  intros st Hh. unfold getStore, get. pose proof (current_hooks st Hh) as H1. destruct (current st) as [st1 l].
  by destruct (isDead st1 als).
Qed.

Lemma bind_hooks r fn t : keeps_hooks (bind r fn t).
Proof.
  intros st Hh. unfold bind. destruct fn; [|done]. pose proof (current_hooks st Hh). by destruct (current st).
Qed.

Lemma static_bind_hooks fn ty t : keeps_hooks (static_bind fn ty t).
Proof.
  intros st Hh. unfold static_bind, new_AsyncResource. pose proof (current_hooks st Hh).
  destruct (current st). by apply bind_hooks.
Qed.

Lemma next_hooks {R} (f : state -> state * R) k st :
  keeps_hooks f -> promiseHooksSet st = true -> (forall r, keeps_hooks (exec (k r))) ->
  promiseHooksSet (let '(st, r) := f st in exec (k r) st).1 = true.
Proof. intros Hf Hh Hk. specialize (Hf st Hh). destruct (f st) as [st1 r]. by apply Hk. Qed.

Lemma scope_hooks f b k st :
  keeps_hooks (exec b) -> (forall r, keeps_hooks (exec (k r))) -> promiseHooksSet st = true ->
  promiseHooksSet (let '(st, r) := exec b (Scope_enter f st) in exec (k r) (Scope_exit st)).1 = true.
Proof.
  intros Hb Hk Hh. specialize (Hb (Scope_enter f st) Hh). destruct (exec b _) as [st1 r].
  apply Hk. unfold Scope_exit. by rewrite pop_hooks.
Qed.

Lemma exec_hooks c : keeps_hooks (exec c).
Proof.
  induction c as [v|e|als k IH|als v cb IHcb ar k IH|als cb IHcb ar k IH|als v k IH|ty k IH
    |r fn IHfn t ar k IH|r fn t k IH|fn ty t k IH|k IH|b fn IHfn ar k IH|p k IH|p b k IH];
    intros st Hh; simpl; try done.
  - apply next_hooks; [apply getStore_hooks|done|done].
  - pose proof (create_hooks None (Some (mkEntry als v)) st Hh). destruct (create _ _ st). by apply scope_hooks.
  - pose proof (create_hooks None (Some (mkEntry als Undef)) st Hh). destruct (create _ _ st). by apply scope_hooks.
  - apply IH. unfold enterWith. pose proof (create_hooks None (Some (mkEntry als v)) st Hh).
    by destruct (create _ _ st).
  - unfold new_AsyncResource. pose proof (current_hooks st Hh). destruct (current st). by apply IH.
  - by apply scope_hooks.
  - apply next_hooks; [apply bind_hooks|done|done].
  - apply next_hooks; [apply static_bind_hooks|done|done].
  - apply next_hooks; [apply static_bind_hooks|done|done].
  - by apply scope_hooks.
  - rewrite Hh. apply next_hooks; [apply hook_init_hooks|done|done].
  - by apply IH, settle_hooks.
Qed.

Lemma reaction_start st s p :
  sim st s -> asyncContextStack st = [] ->
  let st1 := if promiseHooksSet st then hook_before p st else st in
  let '(s1, cur) :=
    if Spec.hooks s then
      match Spec.promise_ctx s !! p with
      | Some l => (s, Some l)
      | None => let '(s, l) := Spec.get_root s in (s, Some l)
      end
    else (s, None) in
  sim st1 s1 /\ top st1 = cur /\ slen (asyncContextStack st1) <= 1 /\
  (promiseHooksSet st1 = false -> asyncContextStack st1 = []).
Proof.
  intros Hs Hst. rewrite <- (si_hooks _ _ Hs), <- (si_ctx _ _ Hs). unfold hook_before, pushAsyncFrame, top.
  destruct (promiseHooksSet st) eqn:Eh; [|by rewrite Hst].
  destruct (promise_ctx st !! p) as [f|].
  - simpl. rewrite Hst, Eh. split_and!; try done. by apply sim_stack.
  - pose proof (root_agree st s Hs) as (E & Hs1 & Hst1). pose proof (root_hooks st Eh) as Hh.
    destruct (getRootAsyncContext st) as [st1 f], (Spec.get_root s) as [s1 f']. simpl in *. subst f'.
    rewrite Hst1, Hst, Hh. split_and!; try done. by apply sim_stack.
Qed.

Lemma reaction_end st s p (r : jsres value) :
  sim st s -> slen (asyncContextStack st) <= 1 ->
  (promiseHooksSet st = false -> asyncContextStack st = []) ->
  agree init_state (if promiseHooksSet st then hook_after p st else st, r)
    (if Spec.hooks s && negb (bool_decide (p ∈ Spec.rejected s))
     then Spec.set_pctx (delete p (Spec.promise_ctx s)) s else s, r).
Proof.
  intros Hs Hlen Hno. rewrite <- (si_hooks _ _ Hs), <- (si_rejected _ _ Hs), <- (si_ctx _ _ Hs).
  destruct (promiseHooksSet st) eqn:Eh; [|split; [done|split; [done|by apply Hno]]].
  assert (Hpop : sim (popAsyncFrame st) s /\ asyncContextStack (popAsyncFrame st) = [] /\
    rejected (popAsyncFrame st) = rejected st /\ promise_ctx (popAsyncFrame st) = promise_ctx st).
  { unfold popAsyncFrame. destruct (asyncContextStack st) as [|f [|g fs]] eqn:E1.
    - done.
    - simpl. split_and!; try done. by apply sim_stack.
    - unfold slen in Hlen. simpl in Hlen. lia. }
  destruct Hpop as (Hs3 & Hst3 & Hr3 & Hc3). unfold hook_after. rewrite Hr3.
  case_bool_decide; simpl; [by split|]. split; [done|]. split; [|done].
  destruct Hs3. split; simpl; try done. congruence.
Qed.

Lemma event_agree ev st s :
  scoped_event ev -> sim st s -> asyncContextStack st = [] ->
  agree init_state (run_event ev st) (Spec.run_event ev s).
Proof.
  intros Hev Hs Hst. destruct ev as [c|p c|k]; simpl in *.
  - pose proof (exec_agree c Hev st s Hs) as (E & Hs1 & Hst1). unfold top in *. rewrite Hst in *. by split.
  - pose proof (reaction_start st s p Hs Hst) as H1.
    set (st1 := if promiseHooksSet st then hook_before p st else st) in *.
    set (sc := if Spec.hooks s then _ else _) in *. destruct sc as [s1 cur].
    destruct H1 as (Hs1 & Ht & Hlen & Hno). pose proof (exec_agree c Hev st1 s1 Hs1) as (E & Hs2 & Hst2).
    pose proof (exec_hooks c st1) as Hmono. rewrite Ht in *.
    destruct (exec c st1) as [st2 r], (Spec.exec c cur s1) as [s2 r']. simpl in *. subst r'.
    rewrite <- Hst2 in Hlen, Hno. apply reaction_end; [done|done|].
    intros Hh. apply Hno. destruct (promiseHooksSet st1); [|done]. by rewrite Hmono in Hh.
  - split; [done|]. split; [|done]. destruct Hs as [? ? Hd ? ? ? Hf]. split; simpl; try done.
    + by rewrite Hd.
    + intros l k' Hk'. apply Hf. by intros ?%(union_subseteq_r {[k]} (dead st)).
Qed.

(** C25. [AsyncLocalStorage] is dynamic scoping: whatever scripts, promise
    reactions and finalizers run, as long as they do not call [enterWith], every
    [getStore], [run], [exit], [bind], [snapshot] and [runInAsyncScope] gives the
    result that the context-passing specification gives, exceptions included,
    and the event loop finds the stack of frames empty again. *)
Theorem async_storage_scoped (evs : list event) :
  Forall scoped_event evs ->
  (run_events evs init_state).2 = (Spec.run_events evs Spec.init).2 /\
  asyncContextStack (run_events evs init_state).1 = [].
Proof.
  intros Hevs. cut (forall st s, sim st s -> asyncContextStack st = [] ->
    agree init_state (run_events evs st) (Spec.run_events evs s)).
  { intros H. destruct (H init_state Spec.init) as (E & _ & Hst); [|done|done].
    split; simpl; try done. }
  induction Hevs as [|ev evs Hev _ IH]; intros st s Hs Hst; [by split|]. simpl.
  destruct (event_agree ev st s Hev Hs Hst) as (E & Hs1 & Hst1).
  destruct (run_event ev st) as [st1 r], (Spec.run_event ev s) as [s1 r']. simpl in *. subst r'.
  destruct (IH st1 s1 Hs1 Hst1) as (E & Hs2 & Hst2).
  destruct (run_events evs st1) as [st2 rs], (Spec.run_events evs s1) as [s2 rs']. simpl in *. by subst rs'.
Qed.

(** A promise made inside [run] is settled later: its reaction sees the store,
    and the code after [run] does not. *)
Definition return_it (r : jsres value) : prog :=
  match r with Ok v => PRet v | Throw e => PRaise e end.

Definition sample_events : list event :=
  [ Script (PRun 1%positive (Val 7) (fun _ => PPromise 1%positive (fun _ => PRet Undef)) [] (fun _ => PGetStore 1%positive return_it));
    Reaction 1%positive (PGetStore 1%positive return_it); Finalize 2%positive; Script (PGetStore 2%positive return_it) ].

Lemma async_storage_scoped_witness :
  (run_events sample_events init_state).2 = (Spec.run_events sample_events Spec.init).2 /\
  asyncContextStack (run_events sample_events init_state).1 = [] /\
  (run_events sample_events init_state).2 =
    [Ok Undef; Ok (Val 7); Ok Undef; Throw (JsError "Assertion failed"%string)].
Proof.
  assert (H : (run_events sample_events init_state).2 = (Spec.run_events sample_events Spec.init).2 /\
    asyncContextStack (run_events sample_events init_state).1 = []).
  { apply (async_storage_scoped sample_events).
    repeat (apply List.Forall_cons); [..|apply List.Forall_nil]; simpl; repeat split;
      intros; try match goal with r : jsres _ |- _ => destruct r end; exact I. }
  destruct H as [H1 H2]. split; [exact H1|]. split; [exact H2|]. vm_compute. reflexivity.
Defined.

(** [enterWith] inside [run] outlives it: [run] leaves by popping one frame,
    which is the one [enterWith] pushed, so the code after [run] still sees the
    store of [run]. *)
Lemma run_leaks_enterWith v w :
  (exec (PRun 1%positive v (fun _ => PEnterWith 1%positive w (PRet Undef)) [] (fun _ => PGetStore 1%positive return_it)) init_state).2 = Ok v.
Proof. reflexivity. Qed.

(** [exit] hands its callback one array in place of the arguments. *)
Lemma exit_wraps_arguments a b :
  (exec (PExit 1%positive (fun args => PRet (Arr args)) [a; b] return_it) init_state).2 = Ok (Arr [Arr [a; b]]).
Proof. reflexivity. Qed.
