(* ===== verification/JsNumber.v ===== *)
(** * JavaScript numbers

    The numbers of the language as the modelled code uses them: an IEEE double
    is NaN, an infinity or a finite rational.  The result of an arithmetic
    operation is the exact rational rounded to 53 significant bits, ties to
    even, with gradual underflow and overflow to an infinity.  The sign of zero
    is not kept: the code only compares numbers, and no comparison sees it.

    The lemmas say what the components need of the rounding: it keeps integers
    up to 2^53 (so sums of chunk sizes are exact there), it never turns a
    non-negative number into a negative one, and NaN does not appear out of
    finite operands. *)

From Stdlib Require Import ZArith Lia QArith Qround Qabs Qpower Lqa Setoid Morphisms.
From stdpp Require Import base numbers.

#[local] Open Scope Z_scope.

Inductive num :=
  | NaN
  | Inf (neg : bool)
  | Fin (q : Q).

Definition num_of_Z (z : Z) : num := Fin (inject_Z z).

(** ** Rounding *)

Definition pow2 (e : Z) : Q := Qpower 2 e.

(** The integer nearest to [q]; of two equally near ones, the even one. *)
Definition nearest_even (q : Q) : Z :=
  let f := Qfloor q in
  match ((q - inject_Z f) ?= (1 # 2))%Q with
  | Lt => f
  | Gt => f + 1
  | Eq => if Z.even f then f else f + 1
  end.

(** [qlog2 q] is the exponent [e] with 2^e <= q < 2^(e+1), for positive [q]. *)
Definition qlog2 (q : Q) : Z :=
  let l := Z.log2 (Qnum q) - Z.log2 (Zpos (Qden q)) in
  if Qle_bool (pow2 l) q then l else l - 1.

(** The binary64 number nearest to [q]: [s] is the number of fraction bits
    that the exponent of [q] leaves. *)
Definition round64 (q : Q) : num :=
  if Qnum q =? 0 then Fin 0
  else
    let s := Z.min (52 - qlog2 (Qabs q)) 1074 in
    let r := (inject_Z (nearest_even (q * pow2 s)) * pow2 (- s))%Q in
    if Qle_bool (pow2 1024) (Qabs r) then Inf (Qnum q <? 0) else Fin (Qred r).

(** ** Operators *)

Definition num_neg (x : num) : num :=
  match x with
  | NaN => NaN
  | Inf b => Inf (negb b)
  | Fin q => Fin (- q)
  end.

Definition num_add (x y : num) : num :=
  match x, y with
  | NaN, _ | _, NaN => NaN
  | Inf a, Inf b => if Bool.eqb a b then Inf a else NaN
  | Inf a, Fin _ => Inf a
  | Fin _, Inf b => Inf b
  | Fin p, Fin q => round64 (p + q)
  end.

Definition num_sub (x y : num) : num := num_add x (num_neg y).

(** [x < y]; every comparison with NaN is false. *)
Definition num_lt (x y : num) : bool :=
  match x, y with
  | NaN, _ | _, NaN => false
  | Inf a, Inf b => a && negb b
  | Inf a, Fin _ => a
  | Fin _, Inf b => negb b
  | Fin p, Fin q => negb (Qle_bool q p)
  end.

Definition num_le (x y : num) : bool :=
  match x, y with
  | NaN, _ | _, NaN => false
  | Inf a, Inf b => a || negb b
  | Inf a, Fin _ => a
  | Fin _, Inf b => negb b
  | Fin p, Fin q => Qle_bool p q
  end.

Definition is_nan (x : num) : bool := match x with NaN => true | _ => false end.
Definition is_finite (x : num) : bool := match x with Fin _ => true | _ => false end.

Definition zero : num := Fin 0.

(** ** What rounding keeps *)

Lemma pow2_pos e : (0 < pow2 e)%Q.
Proof. unfold pow2. apply Qpower_0_lt. reflexivity. Qed.

Lemma pow2_Z e : 0 <= e -> (pow2 e == inject_Z (2 ^ e))%Q.
Proof. intros H. unfold pow2. rewrite <-(Qpower.Zpower_Qpower 2 e H). reflexivity. Qed.

Lemma pow2_opp e : (pow2 e * pow2 (- e) == 1)%Q.
Proof.
  unfold pow2. rewrite <-Qpower_plus by (intros [=]).
  replace (e + - e) with 0 by lia. reflexivity.
Qed.

#[export] Instance nearest_even_proper : Proper (Qeq ==> eq) nearest_even.
Proof.
  intros p q E. unfold nearest_even. rewrite (Qfloor_comp _ _ E).
  rewrite (Qcompare_comp (p - inject_Z (Qfloor q))%Q (q - inject_Z (Qfloor q))%Q
    (Qplus_comp _ _ E _ _ (Qeq_refl _)) _ _ (Qeq_refl _)).
  reflexivity.
Qed.

Lemma nearest_even_Z z : nearest_even (inject_Z z) = z.
Proof.
  unfold nearest_even. rewrite Qfloor_Z.
  replace ((inject_Z z - inject_Z z ?= 1 # 2)%Q) with Lt; [reflexivity|].
  symmetry. apply (proj1 (Qlt_alt _ _)). unfold Qminus. rewrite Qplus_opp_r. reflexivity.
Qed.

Lemma nearest_even_nonneg q : (0 <= q)%Q -> 0 <= nearest_even q.
Proof.
  intros H. unfold nearest_even.
  assert (0 <= Qfloor q) by (rewrite <-(Qfloor_Z 0); apply Qfloor_resp_le; exact H).
  destruct (_ ?= _)%Q; [destruct (Z.even _)| |]; lia.
Qed.

(** Rounding a non-negative rational gives a non-negative number. *)
Definition num_nonneg (x : num) : Prop := num_le zero x = true.

Lemma Qle_bool_true p q : Qle_bool p q = true <-> (p <= q)%Q.
Proof. apply Qle_bool_iff. Qed.

Lemma round64_nonneg q : (0 <= q)%Q -> num_nonneg (round64 q).
Proof.
  intros H. unfold round64, num_nonneg, zero.
  assert (Hn : 0 <= Qnum q) by (unfold Qle in H; simpl in H; lia).
  destruct (Z.eqb_spec (Qnum q) 0); [reflexivity|].
  destruct (Qle_bool (pow2 1024) _); simpl.
  - replace (Qnum q <? 0) with false by (symmetry; apply Z.ltb_ge; lia). reflexivity.
  - apply Qle_bool_true. rewrite Qred_correct.
    apply Qmult_le_0_compat; [|apply Qlt_le_weak, pow2_pos].
    rewrite <-(Zle_Qle 0). apply nearest_even_nonneg.
    apply Qmult_le_0_compat; [exact H|apply Qlt_le_weak, pow2_pos].
Qed.

Lemma round64_not_nan q : is_nan (round64 q) = false.
Proof. unfold round64. destruct (_ =? _); [done|]. by destruct (Qle_bool _ _). Qed.

Lemma qlog2_Z z : 0 < z -> qlog2 (inject_Z z) = Z.log2 z.
Proof.
  intros H. unfold qlog2. simpl Qnum. simpl Qden. change (Z.log2 1) with 0.
  rewrite Z.sub_0_r. replace (Qle_bool _ _) with true; [reflexivity|].
  symmetry. apply Qle_bool_true. rewrite pow2_Z by apply Z.log2_nonneg.
  rewrite <-Zle_Qle. by apply Z.log2_spec.
Qed.

Lemma scale_exact z : Z.abs z <= 2 ^ 53 -> z <> 0 ->
  exists m, (inject_Z z * pow2 (Z.min (52 - Z.log2 (Z.abs z)) 1074) == inject_Z m)%Q.
Proof.
  intros H H0. set (l := Z.log2 (Z.abs z)).
  assert (Hl : 0 <= l <= 53).
  { split; [apply Z.log2_nonneg|]. unfold l. replace 53 with (Z.log2 (2 ^ 53)) by reflexivity. by apply Z.log2_le_mono. }
  rewrite Z.min_l by lia.
  destruct (decide (l = 53)) as [E|E].
  - assert (Habs : Z.abs z = 2 ^ 53).
    { destruct (Z.log2_spec (Z.abs z)) as [Ha _]; [lia|]. fold l in Ha. rewrite E in Ha. lia. }
    rewrite E. exists (z / 2). unfold pow2.
    assert (Hz : z = 2 * (z / 2)).
    { apply Z_div_exact_full_2; [lia|].
      assert (z = 2 ^ 53 \/ z = - 2 ^ 53) as [-> | ->] by lia; reflexivity. }
    rewrite Hz at 1. rewrite inject_Z_mult.
    change (Qpower 2 (52 - 53)) with (1 # 2)%Q. change (inject_Z 2) with 2%Q. ring.
  - exists (z * 2 ^ (52 - l)). rewrite inject_Z_mult. by rewrite pow2_Z by lia.
Qed.

Lemma Qred_Z z : Qred (inject_Z z) = inject_Z z.
Proof.
  unfold inject_Z, Qred.
  pose proof (Z.ggcd_gcd z 1) as Hg. pose proof (Z.ggcd_correct_divisors z 1) as Hd.
  rewrite Z.gcd_1_r in Hg. destruct (Z.ggcd z 1) as (g & a & b). simpl in Hg, Hd. subst g.
  destruct Hd as [-> Hb]. replace b with 1 by lia. by rewrite Z.mul_1_l.
Qed.

(** Integers up to 2^53 in absolute value are represented exactly. *)
Lemma round64_Z z : Z.abs z <= 2 ^ 53 -> round64 (inject_Z z) = num_of_Z z.
Proof.
  intros H. unfold round64, num_of_Z. simpl Qnum.
  destruct (Z.eqb_spec z 0) as [->|H0]; [reflexivity|].
  change (Qabs (inject_Z z)) with (inject_Z (Z.abs z)). rewrite qlog2_Z by lia.
  set (s := Z.min _ _). destruct (scale_exact z H H0) as [m Hm]. fold s in Hm.
  rewrite (nearest_even_proper _ _ Hm), nearest_even_Z.
  assert (E : (inject_Z m * pow2 (- s) == inject_Z z)%Q).
  { rewrite <-Hm, <-Qmult_assoc, pow2_opp. ring. }
  replace (Qle_bool _ _) with false.
  - f_equal. rewrite (Qred_complete _ _ E). apply Qred_Z.
  - symmetry. apply not_true_is_false. intros X%Qle_bool_true.
    rewrite E in X. change (Qabs (inject_Z z)) with (inject_Z (Z.abs z)) in X.
    rewrite pow2_Z in X by lia. rewrite <-Zle_Qle in X.
    assert (2 ^ 53 < 2 ^ 1024) by reflexivity. lia.
Qed.

(** ** Sums of integers and signs *)


Lemma num_add_Z a b : Z.abs (a + b) <= 2 ^ 53 -> num_add (num_of_Z a) (num_of_Z b) = num_of_Z (a + b).
Proof.
  intros H. simpl. replace (inject_Z a + inject_Z b)%Q with (inject_Z (a + b)); [by apply round64_Z|].
  unfold inject_Z, Qplus. simpl. f_equal. lia.
Qed.

Lemma num_sub_Z a b : Z.abs (a - b) <= 2 ^ 53 -> num_sub (num_of_Z a) (num_of_Z b) = num_of_Z (a - b).
Proof.
  intros H. unfold num_sub. change (num_neg (num_of_Z b)) with (num_of_Z (- b)).
  rewrite num_add_Z; [|by replace (a + - b) with (a - b) by lia]. by replace (a + - b) with (a - b) by lia.
Qed.

Lemma num_lt_Z a b : num_lt (num_of_Z a) (num_of_Z b) = (a <? b).
Proof.
  simpl. destruct (Z.ltb_spec a b) as [H|H].
  - apply negb_true_iff, not_true_is_false. rewrite Qle_bool_true, <-Zle_Qle. lia.
  - apply negb_false_iff. apply Qle_bool_true. rewrite <-Zle_Qle. lia.
Qed.

Lemma num_le_Z a b : num_le (num_of_Z a) (num_of_Z b) = (a <=? b).
Proof.
  simpl. destruct (Z.leb_spec a b) as [H|H].
  - apply Qle_bool_true. rewrite <-Zle_Qle. lia.
  - apply not_true_is_false. rewrite Qle_bool_true, <-Zle_Qle. lia.
Qed.

Lemma num_add_nonneg x y : num_nonneg x -> num_nonneg y -> num_nonneg (num_add x y).
Proof.
  unfold num_nonneg, zero. destruct x as [|[]|p], y as [|[]|q]; simpl; try done.
  intros Hp%Qle_bool_true Hq%Qle_bool_true. apply round64_nonneg.
  rewrite <-(Qplus_0_l 0). by apply Qplus_le_compat.
Qed.

(** Subtracting a finite number never gives NaN. *)
Lemma num_sub_fin x q : is_nan x = false -> is_nan (num_sub x (Fin q)) = false.
Proof. destruct x; simpl; try done. intros _. apply round64_not_nan. Qed.

Lemma num_not_lt_le x y : is_nan x = false -> is_nan y = false -> num_lt x y = negb (num_le y x).
Proof. destruct x as [|[]|], y as [|[]|]; simpl; done. Qed.

Lemma nonneg_not_nan x : num_nonneg x -> is_nan x = false.
Proof. by destruct x. Qed.
