(* ===== verification/StreamBase.v ===== *)
(** * What the stream classes share

    Models the helpers at the top of [src/ext/web/06_streams.js]: the linked
    [Queue], the [Deferred] promises, and the queue-with-sizes operations that
    both default controllers are built on ([dequeueValue],
    [enqueueValueWithSize], [peekQueueValue], [resetQueue],
    [extractHighWaterMark]).

    Code that mutates a stream and may throw is a computation [M S A]: it maps
    a state to the new state and a value or a thrown value.  Assertions throw
    [AssertionErr], so that a theorem can say that none of them ever fails.

    [Queue] is modelled with its nodes in a store and shown to be a FIFO list
    ([LinkedQueue.run_refines]); the controllers then use the list. *)

From Stdlib Require Import ZArith Lia.
From stdpp Require Import base list numbers option strings.
From S2P Require Import Prelude JsNumber.

#[local] Open Scope Z_scope.

Arguments num_lt : simpl never.
Arguments num_le : simpl never.
Arguments num_add : simpl never.
Arguments num_sub : simpl never.

(** ** Values, results and the state monad *)

(** A JavaScript value as the streams pass it around: chunks and error reasons
    are opaque to the code, and the errors are the ones it creates. *)
Inductive value :=
  | Undefined
  | Data (z : Z)
  | TypeErr (msg : string)
  | RangeErr (msg : string)
  | AssertionErr.

#[export] Instance value_eq_dec : EqDecision value.
Proof. solve_decision. Defined.

Inductive result (A : Type) :=
  | Ret (a : A)
  | Raise (e : value).
Arguments Ret {A} _.
Arguments Raise {A} _.

Definition M (S A : Type) : Type := S -> S * result A.

Section Monad.
Context {S : Type}.

Definition mret {A} (a : A) : M S A := fun s => (s, Ret a).
Definition raise {A} (e : value) : M S A := fun s => (s, Raise e).
Definition bind {A B} (m : M S A) (k : A -> M S B) : M S B :=
  fun s => match m s with
           | (s', Ret a) => k a s'
           | (s', Raise e) => (s', Raise e)
           end.
Definition gets {A} (f : S -> A) : M S A := fun s => (s, Ret (f s)).
Definition modify (f : S -> S) : M S unit := fun s => (f s, Ret tt).
Definition try_catch {A} (m : M S A) (h : value -> M S A) : M S A :=
  fun s => match m s with
           | (s', Ret a) => (s', Ret a)
           | (s', Raise e) => h e s'
           end.
Definition assert (b : bool) : M S unit :=
  if b then mret tt else raise AssertionErr.
End Monad.

Declare Scope stream_scope.
Delimit Scope stream_scope with stream.
Notation "'let!' x ':=' m 'in' k" := (bind m (fun x => k))
  (at level 10, x name, m at level 100, k at level 200) : stream_scope.
Notation "'do!' m ';' k" := (bind m (fun _ => k))
  (at level 10, m at level 100, k at level 200) : stream_scope.
Open Scope stream_scope.

(** ** Rules for computations *)

(** [triple P m Q]: run from a state where [P] holds, [m] ends in a state and
    with a result that satisfy [Q]. *)
Definition triple {S A} (P : S -> Prop) (m : M S A) (Q : result A -> S -> Prop) : Prop :=
  forall s, P s -> Q (m s).2 (m s).1.

Section Rules.
Context {S : Type}.
Implicit Types P : S -> Prop.

Lemma triple_bind {A B} P (m : M S A) (k : A -> M S B) R Q :
  triple P m R ->
  (forall a, triple (R (Ret a)) (k a) Q) ->
  (forall e s, R (Raise e) s -> Q (Raise e) s) ->
  triple P (bind m k) Q.
Proof.
  intros Hm Hk He s Hs. unfold bind. specialize (Hm s Hs).
  destruct (m s) as [s' [a|e]]; simpl in *; [by apply Hk|by apply He].
Qed.

Lemma triple_weaken {A} P P' (m : M S A) Q Q' :
  triple P' m Q' -> (forall s, P s -> P' s) -> (forall r s, Q' r s -> Q r s) -> triple P m Q.
Proof. intros Hm HP HQ s Hs. by apply HQ, Hm, HP. Qed.

Lemma triple_try {A} P (m : M S A) h R Q :
  triple P m R ->
  (forall a s, R (Ret a) s -> Q (Ret a) s) ->
  (forall e, triple (R (Raise e)) (h e) Q) ->
  triple P (try_catch m h) Q.
Proof.
  intros Hm Ha He s Hs. unfold try_catch. specialize (Hm s Hs).
  destruct (m s) as [s' [a|e]]; simpl in *; [by apply Ha|by apply He].
Qed.

(** Running a sequence one step at a time. *)
Lemma bind_ret {A B} (a : A) (k : A -> M S B) s : bind (mret a) k s = k a s.
Proof. done. Qed.
Lemma bind_raise {A B} e (k : A -> M S B) s : bind (raise e) k s = (s, Raise e).
Proof. done. Qed.
Lemma bind_gets {A B} (f : S -> A) (k : A -> M S B) s : bind (gets f) k s = k (f s) s.
Proof. done. Qed.
Lemma bind_modify {B} (f : S -> S) (k : unit -> M S B) s : bind (modify f) k s = k tt (f s).
Proof. done. Qed.
Lemma bind_bind {A B C} (m : M S A) (k : A -> M S B) (k' : B -> M S C) s :
  bind (bind m k) k' s = bind m (fun a => bind (k a) k') s.
Proof. unfold bind. by destruct (m s) as [s' [a|e]]. Qed.
Lemma bind_assert {B} b (k : unit -> M S B) s :
  b = true -> bind (assert b) k s = k tt s.
Proof. by intros ->. Qed.
Lemma bind_eq {A B} (m : M S A) (k : A -> M S B) s s' a : m s = (s', Ret a) -> bind m k s = k a s'.
Proof. unfold bind. by intros ->. Qed.
Lemma bind_if {A B} (b : bool) (m m' : M S A) (k : A -> M S B) s :
  bind (if b then m else m') k s = if b then bind m k s else bind m' k s.
Proof. by destruct b. Qed.
End Rules.

(** Runs the steps at the head of a sequence; an assertion is discharged with
    [tac]. *)
Ltac mstep := cbv beta iota delta [negb];
  repeat (rewrite ?bind_ret, ?bind_raise, ?bind_gets, ?bind_modify, ?bind_bind); cbv beta iota delta [negb].
Tactic Notation "massert" "by" tactic(tac) := rewrite bind_assert by tac; cbv beta.

(** ** Computations that agree up to a bound *)

(** [depth] counts the callbacks that are left; [same_upto k m1 m2] says that
    two computations agree on states of depth up to [k] and do not increase the
    depth. *)
Section SameUpto.
Context {S : Type} (depth : S -> nat) (k : nat).

Record same_upto {A} (m1 m2 : M S A) : Prop := Same {
  same_at : forall s, (depth s <= k)%nat -> m1 s = m2 s /\ (depth (m1 s).1 <= depth s)%nat;
}.

Lemma quiet_same {A} (m : M S A) : (forall s, depth (m s).1 = depth s) -> same_upto m m.
Proof. intros H. constructor. intros s _. split; [done|]. by rewrite H. Qed.

Lemma same_bind {A B} (m1 m2 : M S A) (k1 k2 : A -> M S B) :
  same_upto m1 m2 -> (forall a, same_upto (k1 a) (k2 a)) -> same_upto (bind m1 k1) (bind m2 k2).
Proof.
  intros [Hm] Hk. constructor. intros s Hs. destruct (Hm s Hs) as [E Hd]. unfold bind. rewrite <-E.
  destruct (m1 s) as [s' [a|e]]; simpl in *; [|done].
  destruct (same_at _ _ (Hk a) s') as [E' Hd']; [lia|]. split; [done|]. lia.
Qed.

Lemma same_try {A} (m1 m2 : M S A) (h1 h2 : value -> M S A) :
  same_upto m1 m2 -> (forall e, same_upto (h1 e) (h2 e)) -> same_upto (try_catch m1 h1) (try_catch m2 h2).
Proof.
  intros [Hm] Hk. constructor. intros s Hs. destruct (Hm s Hs) as [E Hd]. unfold try_catch. rewrite <-E.
  destruct (m1 s) as [s' [a|e]]; simpl in *; [done|].
  destruct (same_at _ _ (Hk e) s') as [E' Hd']; [lia|]. split; [done|]. lia.
Qed.

Lemma same_if {A} (b : bool) (m1 m2 n1 n2 : M S A) : same_upto m1 m2 -> same_upto n1 n2 ->
  same_upto (if b then m1 else n1) (if b then m2 else n2).
Proof. by destruct b. Qed.

Lemma same_mret {A} (a : A) : same_upto (mret a) (mret a). Proof. by apply quiet_same. Qed.
Lemma same_raise {A} e : same_upto (@raise S A e) (raise e). Proof. by apply quiet_same. Qed.
Lemma same_gets {A} (f : S -> A) : same_upto (gets f) (gets f). Proof. by apply quiet_same. Qed.
Lemma same_assert b : same_upto (assert b) (assert b). Proof. apply quiet_same. by destruct b. Qed.
Lemma same_modify f : (forall s, depth (f s) = depth s) -> same_upto (modify f) (modify f).
Proof. intros H. apply quiet_same. intros s. apply H. Qed.
End SameUpto.
Arguments same_at {S depth k A m1 m2} _ s _.

(** Decomposes two computations of the same shape; [leaf] closes the goals that
    are special to a component. *)
Ltac same_upto_tac leaf := repeat (intros; first
  [ leaf tt | apply same_bind | apply same_try | apply same_mret | apply same_raise | apply same_gets
  | apply same_assert | apply same_if
  | match goal with |- same_upto _ _ (match ?x with _ => _ end) _ => destruct x end ]); intros.

(** ** Deferred promises *)

(** What a promise of the streams is resolved with: nothing, or the result
    object of a read. *)
Inductive resolution :=
  | RUndefined
  | RResult (v : value) (done : bool).

Inductive deferred :=
  | Pending
  | Resolved (r : resolution)
  | Rejected (e : value).

#[export] Instance resolution_eq_dec : EqDecision resolution.
Proof. solve_decision. Defined.
#[export] Instance deferred_eq_dec : EqDecision deferred.
Proof. solve_decision. Defined.

(** The deferreds a stream has created; a deferred is its position. *)
Abbreviation deferreds := (list deferred).

(** [Deferred.resolve] and [Deferred.reject]: settling twice is a no-op. *)
Definition deferred_settle (id : nat) (d : deferred) (ds : deferreds) : deferreds :=
  match ds !! id with
  | Some Pending => <[id := d]> ds
  | _ => ds
  end.
Definition deferred_resolve (id : nat) (r : resolution) : deferreds -> deferreds :=
  deferred_settle id (Resolved r).
Definition deferred_reject (id : nat) (e : value) : deferreds -> deferreds :=
  deferred_settle id (Rejected e).
(** [Deferred.state === "pending"]. *)
Definition deferred_pending (id : nat) (ds : deferreds) : bool :=
  match ds !! id with Some Pending => true | _ => false end.

Lemma length_deferred_settle id d ds : length (deferred_settle id d ds) = length ds.
Proof. unfold deferred_settle. destruct (ds !! id) as [[]|]; by rewrite ?length_insert. Qed.

Lemma lookup_deferred_settle id d ds i :
  deferred_settle id d ds !! i =
  if bool_decide (i = id /\ ds !! id = Some Pending) then Some d else ds !! i.
Proof.
  unfold deferred_settle. case_bool_decide as H.
  - destruct H as [-> H]. rewrite H. apply list_lookup_insert_eq. eapply lookup_lt_Some, H.
  - destruct (ds !! id) as [[]|] eqn:E; try done.
    apply list_lookup_insert_ne. naive_solver.
Qed.

(** Settling several promises the same way. *)
Definition settle_all (d : deferred) (ids : list nat) (ds : deferreds) : deferreds :=
  foldl (fun ds id => deferred_settle id d ds) ds ids.

(** ** The linked queue *)

Module LinkedQueue.
Section Queue.
Context {V : Type}.

(** A node [{ value, next }]; nodes live in a store, in the order of their
    creation, and a reference to a node is its position. *)
Record node := Node { node_value : V; node_next : option nat }.
Record Queue := mkQueue { store : list node; head : option nat; tail : option nat; size_ : Z }.

Definition new : Queue := mkQueue [] None None 0.

Definition set_next (i : nat) (n : option nat) (st : list node) : list node :=
  alter (fun x => Node (node_value x) n) i st.

Definition enqueue (v : V) (q : Queue) : Z * Queue :=
  let n := length (store q) in
  let st := store q ++ [Node v None] in
  let q' :=
    match head q with
    | None => mkQueue st (Some n) (Some n) (size_ q)
    | Some _ =>
        match tail q with
        | Some t => mkQueue (set_next t (Some n) st) (head q) (Some n) (size_ q)
        | None => mkQueue st (head q) (Some n) (size_ q)
        end
    end in
  (size_ q' + 1, mkQueue (store q') (head q') (tail q') (size_ q' + 1)).

Definition dequeue (q : Queue) : option V * Queue :=
  match head q with
  | None => (None, q)
  | Some h =>
      let t := if decide (head q = tail q) then None else tail q in
      match store q !! h with
      | Some x => (Some (node_value x), mkQueue (store q) (node_next x) t (size_ q - 1))
      | None => (None, q)
      end
  end.

Definition peek (q : Queue) : option V :=
  match head q with
  | None => None
  | Some h => node_value <$> store q !! h
  end.

Definition size (q : Queue) : Z := size_ q.

(** [q] holds the values [xs]: the last [length xs] nodes of the store carry
    them, each linked to the next, and [head] and [tail] are their ends. *)
Record holds (q : Queue) (xs : list V) : Prop := {
  h_le : (length xs <= length (store q))%nat;
  h_values : node_value <$> drop (length (store q) - length xs) (store q) = xs;
  h_next : forall i x, (length (store q) - length xs <= i)%nat -> store q !! i = Some x ->
    node_next x = if decide (S i = length (store q)) then None else Some (S i);
  h_head : head q = if decide (xs = []) then None else Some (length (store q) - length xs)%nat;
  h_tail : tail q = if decide (xs = []) then None else Some (length (store q) - 1)%nat;
  h_size : size_ q = Z.of_nat (length xs);
}.

Lemma linked_new_holds : holds new [].
Proof. split; try done. Qed.

Lemma set_next_values i n st : node_value <$> set_next i n st = node_value <$> st.
Proof.
  unfold set_next. apply list_eq. intros j. rewrite !list_lookup_fmap.
  destruct (decide (i = j)) as [->|Hne].
  - rewrite list_lookup_alter_eq. by destruct (st !! j).
  - by rewrite list_lookup_alter_ne.
Qed.

Lemma length_set_next i n st : length (set_next i n st) = length st.
Proof. apply length_alter. Qed.

Lemma enqueue_holds v q xs : holds q xs ->
  (enqueue v q).1 = Z.of_nat (length (xs ++ [v])) /\ holds (enqueue v q).2 (xs ++ [v]).
Proof.
  intros [Hle Hv Hn Hh Ht Hs]. unfold enqueue. rewrite Hh.
  destruct (decide (xs = [])) as [->|Hne]; simpl in *.
  - split; [lia|]. rewrite Nat.sub_0_r in *. split; simpl.
    + rewrite length_app. simpl. lia.
    + rewrite length_app, Nat.add_sub. by rewrite drop_app_length.
    + intros i x Hi. rewrite length_app in *. simpl in *.
      rewrite lookup_app_r by lia. intros Hx.
      assert (i = length (store q)) as -> by (apply lookup_lt_Some in Hx; simpl in Hx; lia).
      rewrite Nat.sub_diag in Hx. injection Hx as <-. by rewrite decide_True by lia.
    + rewrite length_app. simpl. f_equal. lia.
    + rewrite length_app. simpl. f_equal. lia.
    + lia.
  - rewrite Ht. rewrite length_app; simpl. split; [lia|].
    assert (0 < length xs)%nat by (destruct xs; simpl in *; [done|lia]).
    set (st := set_next _ _ _).
    assert (Hlen : length st = S (length (store q))).
    { unfold st. rewrite length_set_next, length_app. simpl. lia. }
    split; rewrite ?length_app, ?Hlen; simpl; rewrite ?Hlen.
    + lia.
    + unfold st. rewrite fmap_drop, set_next_values, fmap_app.
      replace (S (length (store q)) - (length xs + 1))%nat with (length (store q) - length xs)%nat by lia.
      rewrite fmap_drop in Hv. rewrite drop_app_le by (rewrite length_fmap; lia). by rewrite Hv.
    + intros i x Hi Hx. unfold st, set_next in Hx.
      destruct (decide (i = (length (store q) - 1)%nat)) as [->|Hi'].
      * rewrite list_lookup_alter_eq in Hx.
        destruct (_ !! _) as [y|]; [|done]. injection Hx as <-. simpl.
        rewrite decide_False by lia. f_equal. lia.
      * rewrite list_lookup_alter_ne in Hx by lia.
        destruct (decide (i = length (store q))) as [->|Hi''].
        -- rewrite lookup_app_r, Nat.sub_diag in Hx by lia. injection Hx as <-.
           by rewrite decide_True by lia.
        -- rewrite lookup_app_l in Hx by (apply lookup_lt_Some in Hx; rewrite length_app in Hx; simpl in Hx; lia).
           rewrite (Hn i x) by (done || lia). apply lookup_lt_Some in Hx. by rewrite !decide_False by lia.
    + rewrite decide_False by (by destruct xs). f_equal. lia.
    + rewrite decide_False by (by destruct xs). f_equal. lia.
    + lia.
Qed.

Lemma head_node q x xs : holds q (x :: xs) ->
  exists n, store q !! (length (store q) - S (length xs))%nat = Some n /\ node_value n = x /\
            drop (S (length (store q) - S (length xs))) (node_value <$> store q) = xs.
Proof.
  intros [Hle Hv _ _ _ _]. rewrite fmap_drop in Hv. simpl in Hle, Hv.
  destruct (lookup_lt_is_Some_2 (store q) (length (store q) - S (length xs))) as [n En]; [lia|].
  exists n. erewrite drop_S in Hv by (rewrite list_lookup_fmap, En; reflexivity).
  by injection Hv as <- ?.
Qed.

Lemma dequeue_holds q xs : holds q xs ->
  (dequeue q).1 = hd_error xs /\ holds (dequeue q).2 (tl xs).
Proof.
  intros H. pose proof H as [Hle Hv Hn Hh Ht Hs]. unfold dequeue. rewrite Hh.
  destruct xs as [|x xs]; [done|]. rewrite decide_False by done. simpl length in *.
  destruct (head_node q x xs H) as (n & En & <- & Hd). rewrite En. simpl. split; [done|].
  rewrite Ht. rewrite (decide_False (P := _ :: _ = [])) by done.
  specialize (Hn _ _ (le_n _) En). destruct xs as [|y xs]; simpl in *.
  - rewrite decide_True in Hn by lia. rewrite decide_True by (f_equal; lia).
    split; simpl; rewrite ?Nat.sub_0_r; try done; [lia|by rewrite drop_all| |lia].
    intros i z Hi Hz. apply lookup_lt_Some in Hz. lia.
  - rewrite decide_False in Hn by lia. rewrite decide_False by (intros [=]; lia).
    split; simpl; [lia| |by intros i z Hi Hz; apply (h_next _ _ H); simpl; [lia|]|by rewrite Hn; f_equal; lia|done|lia].
    rewrite fmap_drop.
    replace (length (store q) - S (length xs))%nat with (S (length (store q) - S (S (length xs)))) by lia. done.
Qed.

Lemma peek_holds q xs : holds q xs -> peek q = hd_error xs.
Proof.
  intros H. unfold peek. rewrite (h_head _ _ H). destruct xs as [|x xs]; [done|].
  rewrite decide_False by done. destruct (head_node q x xs H) as (n & En & <- & _). simpl. by rewrite En.
Qed.

(** *** Sequences of operations *)

Inductive op := Enqueue (v : V) | Dequeue | Peek | Size.
Inductive out := OSize (n : Z) | OValue (v : option V).

Fixpoint run (ops : list op) (q : Queue) : list out :=
  match ops with
  | [] => []
  | Enqueue v :: ops => OSize (enqueue v q).1 :: run ops (enqueue v q).2
  | Dequeue :: ops => OValue (dequeue q).1 :: run ops (dequeue q).2
  | Peek :: ops => OValue (peek q) :: run ops q
  | Size :: ops => OSize (size q) :: run ops q
  end.

(** The same operations on a plain list. *)
Fixpoint run_list (ops : list op) (xs : list V) : list out :=
  match ops with
  | [] => []
  | Enqueue v :: ops => OSize (Z.of_nat (length (xs ++ [v]))) :: run_list ops (xs ++ [v])
  | Dequeue :: ops => OValue (hd_error xs) :: run_list ops (tl xs)
  | Peek :: ops => OValue (hd_error xs) :: run_list ops xs
  | Size :: ops => OSize (Z.of_nat (length xs)) :: run_list ops xs
  end.

Lemma run_refines ops q xs : holds q xs -> run ops q = run_list ops xs.
Proof.
  revert q xs. induction ops as [|[v| | |] ops IH]; intros q xs H; cbn [run run_list]; [done|..].
  - destruct (enqueue_holds v q xs H) as [-> H']. f_equal. by apply IH.
  - destruct (dequeue_holds q xs H) as [-> H']. f_equal. by apply IH.
  - rewrite (peek_holds q xs H). f_equal. by apply IH.
  - unfold size. rewrite (h_size _ _ H). f_equal. by apply IH.
Qed.
End Queue.
Arguments Queue : clear implicits.
End LinkedQueue.

(** ** Queues with sizes *)

(** The two fields of a controller that the queue operations work on. *)
Record container (T : Type) := Container { c_queue : list (T * num); c_total : num }.
Arguments Container {T} _ _.
Arguments c_queue {T} _.
Arguments c_total {T} _.

Section Container.
Context {T : Type}.
Implicit Types c : container T.

Definition resetQueue : container T := Container [] zero.

(** [typeof v === "number" && v >= 0]; the size is a number already. *)
Definition isNonNegativeNumber (v : num) : bool := num_le zero v.

Definition enqueueValueWithSize (v : T) (size : num) c : container T * result unit :=
  if negb (isNonNegativeNumber size) then (c, Raise (RangeErr "chunk size isn't a positive number"))
  else if match size with Inf false => true | _ => false end
  then (c, Raise (RangeErr "chunk size is invalid"))
  else (Container (c_queue c ++ [(v, size)]) (num_add (c_total c) size), Ret tt).

Definition dequeueValue c : container T * result T :=
  match c_queue c with
  | [] => (c, Raise AssertionErr)
  | (v, size) :: q =>
      let total := num_sub (c_total c) size in
      (Container q (if num_lt total zero then zero else total), Ret v)
  end.

Definition peekQueueValue c : result T :=
  match c_queue c with
  | [] => Raise AssertionErr
  | (v, _) :: _ => Ret v
  end.

(** *** Bounds of the total *)

(** What holds of a queue with sizes at all times: the sizes are finite and
    non-negative, and the total is a non-negative number, never NaN. *)
Record container_ok c : Prop := {
  ok_sizes : Forall (fun e => is_finite e.2 = true /\ num_nonneg e.2) (c_queue c);
  ok_total : num_nonneg (c_total c);
}.

Lemma resetQueue_ok : container_ok resetQueue.
Proof. by split. Qed.

Lemma enqueueValueWithSize_ok v size c : container_ok c -> container_ok (enqueueValueWithSize v size c).1.
Proof.
  intros [Hs Ht]. unfold enqueueValueWithSize.
  destruct (negb (isNonNegativeNumber size)) eqn:E; [by split|].
  apply negb_false_iff in E. fold (num_nonneg size) in E.
  destruct size as [|[]|q]; simpl in *; try done; split; simpl; try done.
  - rewrite Forall_app. split; [done|]. by repeat constructor.
  - by apply num_add_nonneg.
Qed.

Lemma dequeueValue_ok c : container_ok c -> container_ok (dequeueValue c).1.
Proof.
  intros [Hs Ht]. unfold dequeueValue. destruct (c_queue c) as [|[v size] q] eqn:E; [split; simpl; by rewrite ?E|].
  apply Forall_cons in Hs as [[Hf Hn] Hs]. destruct size as [| |x]; try done.
  split; simpl; [done|]. set (t := num_sub _ _).
  destruct (num_lt t zero) eqn:L; [done|].
  rewrite num_not_lt_le in L; [by apply negb_false_iff in L|by apply num_sub_fin, nonneg_not_nan|done].
Qed.

(** *** Exact totals *)

(** The sum of integer sizes. *)
Definition sizes_sum (zs : list Z) : Z := foldr Z.add 0 zs.

(** As long as the sizes are non-negative integers with a sum of at most 2^53,
    the total is exactly their sum. *)
Definition exact c (zs : list Z) : Prop :=
  snd <$> c_queue c = num_of_Z <$> zs /\ Forall (fun z => 0 <= z) zs /\
  c_total c = num_of_Z (sizes_sum zs).

Lemma sizes_sum_app xs ys : sizes_sum (xs ++ ys) = sizes_sum xs + sizes_sum ys.
Proof. induction xs as [|x xs IH]; simpl; [done|]. rewrite IH. lia. Qed.

Lemma sizes_sum_nonneg zs : Forall (fun z => 0 <= z) zs -> 0 <= sizes_sum zs.
Proof. induction 1; simpl; lia. Qed.

Lemma enqueue_exact v z c zs : exact c zs -> 0 <= z -> sizes_sum (zs ++ [z]) <= 2 ^ 53 ->
  exact (enqueueValueWithSize v (num_of_Z z) c).1 (zs ++ [z]) /\
  (enqueueValueWithSize v (num_of_Z z) c).2 = Ret tt.
Proof.
  intros (Hq & Hp & Ht) Hz Hs. unfold enqueueValueWithSize.
  replace (isNonNegativeNumber (num_of_Z z)) with true.
  2:{ symmetry. unfold isNonNegativeNumber. change zero with (num_of_Z 0). rewrite num_le_Z. by apply Z.leb_le. }
  simpl. split; [|done]. split; [|split]; simpl.
  - by rewrite !fmap_app, Hq.
  - rewrite Forall_app. by repeat constructor.
  - rewrite sizes_sum_app in *. simpl in *. rewrite Ht. pose proof (sizes_sum_nonneg zs Hp).
    rewrite num_add_Z by (rewrite Z.abs_eq; lia). f_equal. lia.
Qed.

Lemma dequeue_exact c z zs : exact c (z :: zs) -> sizes_sum (z :: zs) <= 2 ^ 53 ->
  exact (dequeueValue c).1 zs /\ exists v, (dequeueValue c).2 = Ret v.
Proof.
  intros (Hq & Hp & Ht) Hs. unfold dequeueValue.
  destruct (c_queue c) as [|[v size] q]; [done|]. simpl in *. injection Hq as -> Hq.
  apply Forall_cons in Hp as [Hz Hp]. pose proof (sizes_sum_nonneg zs Hp). split; [|by exists v].
  rewrite Ht, num_sub_Z by (rewrite Z.abs_eq; lia).
  change zero with (num_of_Z 0). rewrite num_lt_Z.
  replace (z + sizes_sum zs - z <? 0) with false by (symmetry; apply Z.ltb_ge; lia).
  split; [done|]. split; [done|]. simpl. f_equal. lia.
Qed.
End Container.

(** [extractHighWaterMark]: the strategy's mark when it has one. *)
Definition extractHighWaterMark (highWaterMark : option num) (defaultHWM : num) : result num :=
  match highWaterMark with
  | None => Ret defaultHWM
  | Some h =>
      if is_nan h || num_lt h zero
      then Raise (RangeErr "Expected highWaterMark to be a positive number or Infinity")
      else Ret h
  end.
