(* ===== verification/ReadableStream.v ===== *)
(** * Readable streams with a default controller

    Models [ReadableStream], [ReadableStreamDefaultReader] and
    [ReadableStreamDefaultController] of [src/ext/web/06_streams.js] with all
    the functions they call.

    State.  One stream with its controller is a record [rs]; readers and
    deferred promises are objects that outlive their use (a released reader can
    still be called), so they are positions of the lists [readers] and
    [promises].  The request objects of [read()] only settle their promise, so
    a read request is the position of its promise.

    Callbacks.  [start], [pull], [cancel] and [size] are code of the user, and
    they may call back into the stream before they return.  What they will do
    is a script: [calls] holds, for each future call of [start], [pull] or
    [cancel], the operations it performs before it returns, and [sizes] the
    same for [size] with its result.  Theorems quantify over all scripts.  An
    operation that throws inside a script is recorded in the log; a callback
    that does not catch it is a script that ends there.  [user] runs a script;
    it is a parameter of the operations here and [exec] ties the knot, with the
    number of scripted calls as the bound on the nesting.

    Promises.  The promise a callback returns may settle at any later time: the
    code's reaction to it waits in [jobs] until an event [Settle] runs it.

    A default controller never has a BYOB reader ([getReader] with mode byob
    throws), so [isReadableStreamDefaultReader] is true of every reader here.
    [setPromiseIsHandledToTrue] only marks a promise and is not modelled. *)

From Stdlib Require Import ZArith Lia.
From stdpp Require Import base list numbers option strings.
From S2P Require Import Prelude JsNumber StreamBase.

#[local] Open Scope Z_scope.

Inductive rs_state := Readable | Closed | Errored.

#[export] Instance rs_state_eq_dec : EqDecision rs_state.
Proof. solve_decision. Defined.

(** The operations of the public interface; a reader is named by its number. *)
Inductive op :=
  | Enqueue (chunk : value)
  | Close
  | Error (e : value)
  | GetReader
  | GetByobReader
  | StreamCancel (reason : value)
  | Read (r : nat)
  | ReleaseLock (r : nat)
  | ReaderCancel (r : nat) (reason : value).

(** Reactions of the code to a promise of the underlying source. *)
Inductive job := JStart | JPull.

#[export] Instance job_eq_dec : EqDecision job.
Proof. solve_decision. Defined.

(** The log: calls of the source's callbacks, chunks taken from [enqueue],
    calls of [read()] with the promise they return, what operations threw, and
    assertion errors that the reactions swallow. *)
Inductive obs :=
  | CalledStart
  | CalledPull
  | CalledCancel (reason : value)
  | Accepted (chunk : value)
  | CalledRead (id : nat)
  | Threw (e : value)
  | InternalError (e : value).

Record reader_ := mkReader {
  r_stream : bool;  (* whether [_stream] is set *)
  r_closed : nat;
  r_requests : list nat;
}.

Record rs := mkRS {
  state : rs_state;
  storedError : value;
  reader : option nat;
  disturbed : bool;
  queue : container value; (* [_queue] and [_queueTotalSize] *)
  started : bool;
  closeRequested : bool;
  pullAgain : bool;
  pulling : bool;
  pullAlgorithm : bool; (* whether the algorithm is still set *)
  cancelAlgorithm : bool;
  strategySizeAlgorithm : bool;
  strategyHWM : num;
  readers : list reader_;
  promises : deferreds;
  jobs : list job; (* reactions whose promise is not settled *)
  calls : list (list op); (* what the source's callbacks will do *)
  sizes : list (list op * result num); (* what the size callback will do *)
  log : list obs;
}.

Definition set_state (x : rs_state) (s : rs) : rs :=
  mkRS x (storedError s) (reader s) (disturbed s) (queue s) (started s) (closeRequested s)
    (pullAgain s) (pulling s) (pullAlgorithm s) (cancelAlgorithm s) (strategySizeAlgorithm s)
    (strategyHWM s) (readers s) (promises s) (jobs s) (calls s) (sizes s) (log s).
Definition set_storedError (x : value) (s : rs) : rs :=
  mkRS (state s) x (reader s) (disturbed s) (queue s) (started s) (closeRequested s) (pullAgain
    s) (pulling s) (pullAlgorithm s) (cancelAlgorithm s) (strategySizeAlgorithm s) (strategyHWM
    s) (readers s) (promises s) (jobs s) (calls s) (sizes s) (log s).
Definition set_reader (x : option nat) (s : rs) : rs :=
  mkRS (state s) (storedError s) x (disturbed s) (queue s) (started s) (closeRequested s)
    (pullAgain s) (pulling s) (pullAlgorithm s) (cancelAlgorithm s) (strategySizeAlgorithm s)
    (strategyHWM s) (readers s) (promises s) (jobs s) (calls s) (sizes s) (log s).
Definition set_disturbed (x : bool) (s : rs) : rs :=
  mkRS (state s) (storedError s) (reader s) x (queue s) (started s) (closeRequested s)
    (pullAgain s) (pulling s) (pullAlgorithm s) (cancelAlgorithm s) (strategySizeAlgorithm s)
    (strategyHWM s) (readers s) (promises s) (jobs s) (calls s) (sizes s) (log s).
Definition set_queue (x : container value) (s : rs) : rs :=
  mkRS (state s) (storedError s) (reader s) (disturbed s) x (started s) (closeRequested s)
    (pullAgain s) (pulling s) (pullAlgorithm s) (cancelAlgorithm s) (strategySizeAlgorithm s)
    (strategyHWM s) (readers s) (promises s) (jobs s) (calls s) (sizes s) (log s).
Definition set_started (x : bool) (s : rs) : rs :=
  mkRS (state s) (storedError s) (reader s) (disturbed s) (queue s) x (closeRequested s)
    (pullAgain s) (pulling s) (pullAlgorithm s) (cancelAlgorithm s) (strategySizeAlgorithm s)
    (strategyHWM s) (readers s) (promises s) (jobs s) (calls s) (sizes s) (log s).
Definition set_closeRequested (x : bool) (s : rs) : rs :=
  mkRS (state s) (storedError s) (reader s) (disturbed s) (queue s) (started s) x (pullAgain s)
    (pulling s) (pullAlgorithm s) (cancelAlgorithm s) (strategySizeAlgorithm s) (strategyHWM s)
    (readers s) (promises s) (jobs s) (calls s) (sizes s) (log s).
Definition set_pullAgain (x : bool) (s : rs) : rs :=
  mkRS (state s) (storedError s) (reader s) (disturbed s) (queue s) (started s) (closeRequested
    s) x (pulling s) (pullAlgorithm s) (cancelAlgorithm s) (strategySizeAlgorithm s)
    (strategyHWM s) (readers s) (promises s) (jobs s) (calls s) (sizes s) (log s).
Definition set_pulling (x : bool) (s : rs) : rs :=
  mkRS (state s) (storedError s) (reader s) (disturbed s) (queue s) (started s) (closeRequested
    s) (pullAgain s) x (pullAlgorithm s) (cancelAlgorithm s) (strategySizeAlgorithm s)
    (strategyHWM s) (readers s) (promises s) (jobs s) (calls s) (sizes s) (log s).
Definition set_pullAlgorithm (x : bool) (s : rs) : rs :=
  mkRS (state s) (storedError s) (reader s) (disturbed s) (queue s) (started s) (closeRequested
    s) (pullAgain s) (pulling s) x (cancelAlgorithm s) (strategySizeAlgorithm s) (strategyHWM s)
    (readers s) (promises s) (jobs s) (calls s) (sizes s) (log s).
Definition set_cancelAlgorithm (x : bool) (s : rs) : rs :=
  mkRS (state s) (storedError s) (reader s) (disturbed s) (queue s) (started s) (closeRequested
    s) (pullAgain s) (pulling s) (pullAlgorithm s) x (strategySizeAlgorithm s) (strategyHWM s)
    (readers s) (promises s) (jobs s) (calls s) (sizes s) (log s).
Definition set_strategySizeAlgorithm (x : bool) (s : rs) : rs :=
  mkRS (state s) (storedError s) (reader s) (disturbed s) (queue s) (started s) (closeRequested
    s) (pullAgain s) (pulling s) (pullAlgorithm s) (cancelAlgorithm s) x (strategyHWM s)
    (readers s) (promises s) (jobs s) (calls s) (sizes s) (log s).
Definition set_strategyHWM (x : num) (s : rs) : rs :=
  mkRS (state s) (storedError s) (reader s) (disturbed s) (queue s) (started s) (closeRequested
    s) (pullAgain s) (pulling s) (pullAlgorithm s) (cancelAlgorithm s) (strategySizeAlgorithm s)
    x (readers s) (promises s) (jobs s) (calls s) (sizes s) (log s).
Definition set_readers (x : list reader_) (s : rs) : rs :=
  mkRS (state s) (storedError s) (reader s) (disturbed s) (queue s) (started s) (closeRequested
    s) (pullAgain s) (pulling s) (pullAlgorithm s) (cancelAlgorithm s) (strategySizeAlgorithm s)
    (strategyHWM s) x (promises s) (jobs s) (calls s) (sizes s) (log s).
Definition set_promises (x : deferreds) (s : rs) : rs :=
  mkRS (state s) (storedError s) (reader s) (disturbed s) (queue s) (started s) (closeRequested
    s) (pullAgain s) (pulling s) (pullAlgorithm s) (cancelAlgorithm s) (strategySizeAlgorithm s)
    (strategyHWM s) (readers s) x (jobs s) (calls s) (sizes s) (log s).
Definition set_jobs (x : list job) (s : rs) : rs :=
  mkRS (state s) (storedError s) (reader s) (disturbed s) (queue s) (started s) (closeRequested
    s) (pullAgain s) (pulling s) (pullAlgorithm s) (cancelAlgorithm s) (strategySizeAlgorithm s)
    (strategyHWM s) (readers s) (promises s) x (calls s) (sizes s) (log s).
Definition set_calls (x : list (list op)) (s : rs) : rs :=
  mkRS (state s) (storedError s) (reader s) (disturbed s) (queue s) (started s) (closeRequested
    s) (pullAgain s) (pulling s) (pullAlgorithm s) (cancelAlgorithm s) (strategySizeAlgorithm s)
    (strategyHWM s) (readers s) (promises s) (jobs s) x (sizes s) (log s).
Definition set_sizes (x : list (list op * result num)) (s : rs) : rs :=
  mkRS (state s) (storedError s) (reader s) (disturbed s) (queue s) (started s) (closeRequested
    s) (pullAgain s) (pulling s) (pullAlgorithm s) (cancelAlgorithm s) (strategySizeAlgorithm s)
    (strategyHWM s) (readers s) (promises s) (jobs s) (calls s) x (log s).
Definition set_log (x : list obs) (s : rs) : rs :=
  mkRS (state s) (storedError s) (reader s) (disturbed s) (queue s) (started s) (closeRequested
    s) (pullAgain s) (pulling s) (pullAlgorithm s) (cancelAlgorithm s) (strategySizeAlgorithm s)
    (strategyHWM s) (readers s) (promises s) (jobs s) (calls s) (sizes s) x.

Definition emit (o : obs) (s : rs) : rs := set_log (log s ++ [o]) s.

(** What a method returns in place of a promise. *)
Inductive promise :=
  | PResolved
  | PRejected (e : value)
  | PDeferred (id : nat)
  | PSource.

(** ** Objects *)

Definition new_deferred (s : rs) : nat * rs :=
  (length (promises s), set_promises (promises s ++ [Pending]) s).

Definition resolve (id : nat) (r : resolution) (s : rs) : rs :=
  set_promises (deferred_resolve id r (promises s)) s.
Definition reject (id : nat) (e : value) (s : rs) : rs :=
  set_promises (deferred_reject id e (promises s)) s.

Definition get_reader (r : nat) (s : rs) : reader_ :=
  default (mkReader false 0 []) (readers s !! r).

Definition set_requests (r : nat) (reqs : list nat) (s : rs) : rs :=
  set_readers (alter (fun x => mkReader (r_stream x) (r_closed x) reqs) r (readers s)) s.

Definition set_closed (r : nat) (id : nat) (s : rs) : rs :=
  set_readers (alter (fun x => mkReader (r_stream x) id (r_requests x)) r (readers s)) s.

Definition set_stream (r : nat) (b : bool) (s : rs) : rs :=
  set_readers (alter (fun x => mkReader b (r_closed x) (r_requests x)) r (readers s)) s.

(** The steps of the request object that [read()] creates. *)
Definition chunkSteps (id : nat) (chunk : value) : rs -> rs := resolve id (RResult chunk false).
Definition closeSteps (id : nat) : rs -> rs := resolve id (RResult Undefined true).
Definition errorSteps (id : nat) (e : value) : rs -> rs := reject id e.

(** ** Queries *)

Definition isReadableStreamLocked (s : rs) : bool := bool_decide (reader s <> None).

Definition readableStreamHasDefaultReader (s : rs) : bool :=
  match reader s with None => false | Some _ => true end.

(** The pending read requests of the stream's reader. *)
Definition requests (s : rs) : list nat :=
  match reader s with Some r => r_requests (get_reader r s) | None => [] end.

Definition readableStreamGetNumReadRequests : M rs nat :=
  do! bind (gets readableStreamHasDefaultReader) assert;
  gets (fun s => length (requests s)).

Definition readableStreamDefaultControllerCanCloseOrEnqueue (s : rs) : bool :=
  negb (closeRequested s) && bool_decide (state s = Readable).

(** [null] is [None]. *)
Definition readableStreamDefaultControllerGetDesiredSize (s : rs) : option num :=
  match state s with
  | Errored => None
  | Closed => Some zero
  | Readable => Some (num_sub (strategyHWM s) (c_total (queue s)))
  end.

(** [isReadableStreamLocked(stream) && readableStreamGetNumReadRequests(stream) > 0] *)
Definition waiting_reads : M rs bool :=
  let! locked := gets isReadableStreamLocked in
  if locked then let! n := readableStreamGetNumReadRequests in mret (Nat.ltb 0 n)
  else mret false.

Definition readableStreamDefaultcontrollerShouldCallPull : M rs bool :=
  let! can := gets readableStreamDefaultControllerCanCloseOrEnqueue in
  if negb can then mret false
  else
    let! st := gets started in
    if negb st then mret false
    else
      let! waiting := waiting_reads in
      if waiting then mret true
      else
        let! desiredSize := gets readableStreamDefaultControllerGetDesiredSize in
        if match desiredSize with Some d => num_lt zero d | None => false end then mret true
        else do! assert (bool_decide (desiredSize <> None)); mret false.

Definition readableStreamDefaultcontrollerHasBackpressure : M rs bool :=
  let! b := readableStreamDefaultcontrollerShouldCallPull in mret (negb b).

(** ** Closing and erroring *)

(** [while (readRequests.size !== 0) { readRequests.dequeue(); ... }] *)
Fixpoint drain (r : nat) (steps : nat -> rs -> rs) (reqs : list nat) (s : rs) : rs :=
  match reqs with
  | [] => s
  | id :: rest => drain r steps rest (steps id (set_requests r rest s))
  end.

Definition readableStreamDefaultReaderErrorReadRequests (r : nat) (e : value) (s : rs) : rs :=
  drain r (fun id => errorSteps id e) (r_requests (get_reader r s)) s.

Definition readableStreamClose : M rs unit :=
  do! bind (gets state) (fun st => assert (bool_decide (st = Readable)));
  do! modify (set_state Closed);
  let! rd := gets reader in
  match rd with
  | None => mret tt
  | Some r =>
      do! modify (fun s => drain r closeSteps (r_requests (get_reader r s)) s);
      modify (fun s => resolve (r_closed (get_reader r s)) RUndefined s)
  end.

Definition readableStreamError (e : value) : M rs unit :=
  do! bind (gets state) (fun st => assert (bool_decide (st = Readable)));
  do! modify (set_state Errored);
  do! modify (set_storedError e);
  let! rd := gets reader in
  match rd with
  | None => mret tt
  | Some r =>
      do! modify (fun s => reject (r_closed (get_reader r s)) e s);
      modify (readableStreamDefaultReaderErrorReadRequests r e)
  end.

Definition readableStreamDefaultControllerClearAlgorithms (s : rs) : rs :=
  set_strategySizeAlgorithm false (set_cancelAlgorithm false (set_pullAlgorithm false s)).

Definition readableStreamDefaultControllerError (e : value) : M rs unit :=
  let! st := gets state in
  if bool_decide (st <> Readable) then mret tt
  else
    do! modify (set_queue resetQueue);
    do! modify readableStreamDefaultControllerClearAlgorithms;
    readableStreamError e.

Definition readableStreamDefaultControllerClose : M rs unit :=
  let! can := gets readableStreamDefaultControllerCanCloseOrEnqueue in
  if negb can then mret tt
  else
    do! modify (set_closeRequested true);
    let! q := gets queue in
    if bool_decide (c_queue q = []) then
      do! modify readableStreamDefaultControllerClearAlgorithms;
      readableStreamClose
    else mret tt.

Definition readableStreamFulfillReadRequest (chunk : value) (done : bool) : M rs unit :=
  do! bind (gets readableStreamHasDefaultReader) assert;
  let! rd := gets reader in
  let! reqs := gets requests in
  match rd, reqs with
  | Some r, id :: rest =>
      do! modify (set_requests r rest);
      modify (if done then closeSteps id else chunkSteps id chunk)
  | _, _ => raise AssertionErr
  end.

Definition readableStreamAddReadRequest (id : nat) : M rs unit :=
  do! bind (gets readableStreamHasDefaultReader) assert;
  do! bind (gets state) (fun st => assert (bool_decide (st = Readable)));
  modify (fun s =>
    match reader s with
    | Some r => set_requests r (r_requests (get_reader r s) ++ [id]) s
    | None => s
    end).

(** Calling an algorithm that was cleared: [undefined] is not a function. *)
Definition not_a_function : value := TypeErr "is not a function".

(** The queue operations, on the controller's fields. *)
Definition enqueue_value (chunk : value) (size : num) : M rs unit :=
  fun s => let (c, r) := enqueueValueWithSize chunk size (queue s) in (set_queue c s, r).
Definition dequeue_value : M rs value :=
  fun s => let (c, r) := dequeueValue (queue s) in (set_queue c s, r).

(** ** Operations that call the user's code *)

Section Operations.
Variable user : list op -> rs -> rs.

(** A call of [start], [pull] or [cancel]. *)
Definition invoke (o : obs) : M rs unit :=
  fun s =>
    match calls s with
    | [] => (emit o s, Ret tt)
    | acts :: rest => (user acts (set_calls rest (emit o s)), Ret tt)
    end.

(** A call of the strategy's [size]; without a script, it returns 1. *)
Definition invoke_size : M rs num :=
  fun s =>
    match sizes s with
    | [] => (s, Ret (num_of_Z 1))
    | (acts, r) :: rest => (user acts (set_sizes rest s), r)
    end.

Definition readableStreamDefaultControllerCallPullIfNeeded : M rs unit :=
  let! shouldPull := readableStreamDefaultcontrollerShouldCallPull in
  if negb shouldPull then mret tt
  else
    let! p := gets pulling in
    if p then modify (set_pullAgain true)
    else
      do! bind (gets pullAgain) (fun a => assert (negb a));
      do! modify (set_pulling true);
      let! f := gets pullAlgorithm in
      do! (if f then invoke CalledPull else raise not_a_function);
      modify (fun s => set_jobs (jobs s ++ [JPull]) s).

(** The reactions to the promise of [pull]. *)
Definition pull_fulfilled : M rs unit :=
  do! modify (set_pulling false);
  let! a := gets pullAgain in
  if a then
    do! modify (set_pullAgain false);
    readableStreamDefaultControllerCallPullIfNeeded
  else mret tt.

Definition pull_rejected (e : value) : M rs unit := readableStreamDefaultControllerError e.

(** The reactions to the promise of [start]. *)
Definition start_fulfilled : M rs unit :=
  do! modify (set_started true);
  do! bind (gets pulling) (fun p => assert (negb p));
  do! bind (gets pullAgain) (fun a => assert (negb a));
  readableStreamDefaultControllerCallPullIfNeeded.

Definition start_rejected (e : value) : M rs unit := readableStreamDefaultControllerError e.

Definition readableStreamDefaultControllerEnqueue (chunk : value) : M rs unit :=
  let! can := gets readableStreamDefaultControllerCanCloseOrEnqueue in
  if negb can then mret tt
  else
    let! waiting := waiting_reads in
    do! (if waiting then
           do! readableStreamFulfillReadRequest chunk false;
           modify (emit (Accepted chunk))
         else
           let! chunkSize :=
             try_catch
               (let! f := gets strategySizeAlgorithm in
                if f then invoke_size else raise not_a_function)
               (fun e => do! readableStreamDefaultControllerError e; raise e) in
           do! try_catch (enqueue_value chunk chunkSize)
               (fun e => do! readableStreamDefaultControllerError e; raise e);
           modify (emit (Accepted chunk)));
    readableStreamDefaultControllerCallPullIfNeeded.

(** [[_pullSteps]] and [[_cancelSteps]] of the controller; its
    [[_releaseSteps]] does nothing. *)
Definition pullSteps (id : nat) : M rs unit :=
  let! q := gets queue in
  if bool_decide (c_queue q <> []) then
    let! chunk := dequeue_value in
    let! s := gets (fun s => s) in
    do! (if closeRequested s && bool_decide (c_queue (queue s) = []) then
           do! modify readableStreamDefaultControllerClearAlgorithms;
           readableStreamClose
         else readableStreamDefaultControllerCallPullIfNeeded);
    modify (chunkSteps id chunk)
  else
    do! readableStreamAddReadRequest id;
    readableStreamDefaultControllerCallPullIfNeeded.

Definition cancelSteps (reason : value) : M rs unit :=
  do! modify (set_queue resetQueue);
  let! f := gets cancelAlgorithm in
  do! (if f then invoke (CalledCancel reason) else raise not_a_function);
  modify readableStreamDefaultControllerClearAlgorithms.

Definition readableStreamCancel (reason : value) : M rs promise :=
  do! modify (set_disturbed true);
  let! st := gets state in
  match st with
  | Closed => mret PResolved
  | Errored => let! e := gets storedError in mret (PRejected e)
  | Readable =>
      do! readableStreamClose;
      do! cancelSteps reason;
      mret PSource
  end.

Definition readableStreamDefaultReaderRead (r : nat) (id : nat) : M rs unit :=
  do! bind (gets (fun s => r_stream (get_reader r s))) assert;
  do! modify (set_disturbed true);
  let! st := gets state in
  match st with
  | Closed => modify (closeSteps id)
  | Errored => let! e := gets storedError in modify (errorSteps id e)
  | Readable => pullSteps id
  end.

Definition releasedError : value :=
  TypeErr "Reader was released and can no longer be used to monitor the stream's closedness.".

Definition readableStreamReaderGenericRelease (r : nat) : M rs unit :=
  do! bind (gets (fun s => r_stream (get_reader r s))) assert;
  do! bind (gets reader) (fun rd => assert (bool_decide (rd = Some r)));
  let! st := gets state in
  do! (if bool_decide (st = Readable)
       then modify (fun s => reject (r_closed (get_reader r s)) releasedError s)
       else modify (fun s => let (d, s) := new_deferred s in reject d releasedError (set_closed r d s)));
  do! modify (set_reader None);
  modify (set_stream r false).

Definition readableStreamDefaultReaderRelease (r : nat) : M rs unit :=
  do! readableStreamReaderGenericRelease r;
  modify (readableStreamDefaultReaderErrorReadRequests r (TypeErr "The reader was released.")).

(** The new reader is the next position of [readers]. *)
Definition readableStreamReaderGenericInitialize : M rs nat :=
  let! s := gets (fun s => s) in
  let r := length (readers s) in
  let! d := (fun s => let (d, s) := new_deferred s in (s, Ret d)) in
  do! modify (set_readers (readers s ++ [mkReader true d []]));
  do! modify (set_reader (Some r));
  do! (match state s with
       | Readable => mret tt
       | Closed => modify (resolve d RUndefined)
       | Errored => modify (reject d (storedError s))
       end);
  mret r.

Definition setUpReadableStreamDefaultReader : M rs nat :=
  let! locked := gets isReadableStreamLocked in
  if locked then raise (TypeErr "ReadableStream is locked.")
  else readableStreamReaderGenericInitialize.

Definition setUpReadableStreamBYOBReader : M rs nat :=
  let! locked := gets isReadableStreamLocked in
  if locked then raise (TypeErr "ReadableStream is locked.")
  else raise (TypeErr "Cannot use a BYOB reader with a non-byte stream").

(** *** The public methods *)

Definition cannot_close_or_enqueue : value :=
  TypeErr "The stream controller cannot close or enqueue.".

Definition controller_enqueue (chunk : value) : M rs unit :=
  let! can := gets readableStreamDefaultControllerCanCloseOrEnqueue in
  if negb can then raise cannot_close_or_enqueue
  else readableStreamDefaultControllerEnqueue chunk.

Definition controller_close : M rs unit :=
  let! can := gets readableStreamDefaultControllerCanCloseOrEnqueue in
  if negb can then raise cannot_close_or_enqueue
  else readableStreamDefaultControllerClose.

Definition stream_cancel (reason : value) : M rs promise :=
  let! locked := gets isReadableStreamLocked in
  if locked then mret (PRejected (TypeErr "Cannot cancel a locked ReadableStream."))
  else readableStreamCancel reason.

Definition reader_read (r : nat) : M rs promise :=
  let! has := gets (fun s => r_stream (get_reader r s)) in
  if negb has then mret (PRejected (TypeErr "Reader has no associated stream."))
  else
    let! id := (fun s => let (d, s) := new_deferred s in (emit (CalledRead d) s, Ret d)) in
    do! readableStreamDefaultReaderRead r id;
    mret (PDeferred id).

Definition reader_releaseLock (r : nat) : M rs unit :=
  let! has := gets (fun s => r_stream (get_reader r s)) in
  if negb has then mret tt else readableStreamDefaultReaderRelease r.

Definition reader_cancel (r : nat) (reason : value) : M rs promise :=
  let! has := gets (fun s => r_stream (get_reader r s)) in
  if negb has then mret (PRejected (TypeErr "Reader has no associated stream."))
  else readableStreamCancel reason.

Definition run_op (o : op) : M rs unit :=
  match o with
  | Enqueue chunk => controller_enqueue chunk
  | Close => controller_close
  | Error e => readableStreamDefaultControllerError e
  | GetReader => do! setUpReadableStreamDefaultReader; mret tt
  | GetByobReader => do! setUpReadableStreamBYOBReader; mret tt
  | StreamCancel reason => do! stream_cancel reason; mret tt
  | Read r => do! reader_read r; mret tt
  | ReleaseLock r => reader_releaseLock r
  | ReaderCancel r reason => do! reader_cancel r reason; mret tt
  end.

(** One operation of user code; what it throws is recorded. *)
Definition act (o : op) (s : rs) : rs :=
  match run_op o s with
  | (s', Ret _) => s'
  | (s', Raise e) => emit (Threw e) s'
  end.

Definition run_acts (acts : list op) (s : rs) : rs := foldl (fun s o => act o s) s acts.

(** [uponPromise] swallows what a reaction throws, but reports assertions. *)
Definition run_job (j : job) (r : result unit) (s : rs) : rs :=
  let m :=
    match j, r with
    | JStart, Ret _ => start_fulfilled
    | JStart, Raise e => start_rejected e
    | JPull, Ret _ => pull_fulfilled
    | JPull, Raise e => pull_rejected e
    end in
  match m s with
  | (s', Raise AssertionErr) => emit (InternalError AssertionErr) s'
  | (s', _) => s'
  end.

(** A turn of the event loop: user code performs an operation, or the promise
    of the [k]-th waiting reaction settles. *)
Inductive event :=
  | Act (o : op)
  | Settle (k : nat) (r : result unit).

Definition run_event (e : event) (s : rs) : rs :=
  match e with
  | Act o => act o s
  | Settle k r =>
      match jobs s !! k with
      | Some j => run_job j r (set_jobs (delete k (jobs s)) s)
      | None => s
      end
  end.

Definition setUpReadableStreamDefaultController (s : rs) : rs :=
  set_jobs (jobs (invoke CalledStart s).1 ++ [JStart]) (invoke CalledStart s).1.
End Operations.

(** ** Tying the knot *)

(** [exec n] runs scripts whose callbacks nest at most [n] deep. *)
Fixpoint exec (n : nat) (acts : list op) (s : rs) : rs :=
  match n with
  | O => s
  | S n => run_acts (exec n) acts s
  end.

(** The calls that are still scripted bound the nesting. *)
Definition depth (s : rs) : nat := length (calls s) + length (sizes s).

Definition initializeReadableStream (hwm : num) (calls : list (list op))
    (sizes : list (list op * result num)) : rs :=
  mkRS Readable Undefined None false resetQueue false false false false true true true hwm
    [] [] [] calls sizes [].

Definition createReadableStream (hwm : num) (calls : list (list op))
    (sizes : list (list op * result num)) : rs :=
  let s := initializeReadableStream hwm calls sizes in
  setUpReadableStreamDefaultController (exec (S (depth s))) s.

Definition step (s : rs) (e : event) : rs := run_event (exec (S (depth s))) e s.

Definition run (evs : list event) (s : rs) : rs := foldl step s evs.

(** The state of a stream after [evs]. *)
Definition run_stream hwm calls sizes evs : rs := run evs (createReadableStream hwm calls sizes).

(** ** An example: reads before and after chunks, closing in between *)

Example run_basic :
  let s := run_stream (num_of_Z 1) [] []
    [Act GetReader; Act (Read 0); Settle 0 (Ret tt); Act (Enqueue (Data 1)); Act (Enqueue (Data 2));
     Act Close; Act (Read 0); Act (Read 0); Act (Enqueue (Data 3))] in
  promises s = [Resolved RUndefined; Resolved (RResult (Data 1) false);
                Resolved (RResult (Data 2) false); Resolved (RResult Undefined true)] /\
  log s = [CalledStart; CalledRead 1; CalledPull; Accepted (Data 1); Accepted (Data 2); CalledRead 2;
           CalledRead 3; Threw cannot_close_or_enqueue].
Proof. vm_compute. done. Qed.

(** [pull] enqueues synchronously, as sources usually do. *)
Example run_pull_enqueues :
  let s := run_stream (num_of_Z 0) [[]; [Enqueue (Data 7)]; [Enqueue (Data 8)]] []
    [Settle 0 (Ret tt); Act GetReader; Act (Read 0); Settle 0 (Ret tt); Act (Read 0)] in
  promises s = [Pending; Resolved (RResult (Data 7) false); Resolved (RResult (Data 8) false)].
Proof. vm_compute. done. Qed.
