(* ===== verification/ReadableStreamProps.v ===== *)
(** * Readable streams: the invariant

    [inv g s] is what holds of a readable stream whenever user code can run:
    between events and inside every callback.  The ghost [g] says what is on
    the call stack at that point: whether a call of [pull] has not returned
    yet, whether [cancel] has not returned yet (the stream is over then), and
    which chunks [read()] has taken from the queue without having
    resolved the promise yet (its callback runs in between).

    The invariant has three parts.  [safe] is what the assertions of the code
    rely on; it needs no assumption about the callbacks.  [fifo] is the account
    of the chunks, [demand] the account of the pending reads; both assume that
    the size callback does not itself call the stream. *)

From Stdlib Require Import ZArith Lia Sorted.
From stdpp Require Import base list numbers option strings.
From S2P Require Import Prelude JsNumber StreamBase ReadableStream.

#[local] Open Scope nat_scope.

Record ghost := Ghost {
  g_pull : bool;
  g_hand : nat -> option value;
  g_starts : nat;
  g_started : bool;
  g_over : bool;
  g_inert : bool;
}.

(** ** Observations *)

Definition accepted (l : list obs) : list value :=
  omap (fun o => match o with Accepted c => Some c | _ => None end) l.

Definition cancelled (l : list obs) : Prop := exists reason, CalledCancel reason ∈ l.

(** The chunk that the [i]-th promise has or will get. *)
Definition delivered_at (hand : nat -> option value) (ds : deferreds) (i : nat) : option value :=
  match ds !! i with
  | Some (Resolved (RResult v false)) => Some v
  | Some Pending => hand i
  | _ => None
  end.

(** The chunks handed out, in the order of the calls of [read()]. *)
Definition delivered_with (hand : nat -> option value) (ds : deferreds) : list value :=
  omap (delivered_at hand ds) (seq 0 (length ds)).

Definition delivered (ds : deferreds) : list value := delivered_with (fun _ => None) ds.

(** [pull] was called after the [read()] with promise [id]. *)
Definition pulled_since (id : nat) (l : list obs) : Prop :=
  exists l1 l2, l = l1 ++ CalledRead id :: l2 /\ CalledPull ∈ l2.

Definition count (j : job) (l : list job) : nat := length (filter (fun x => x = j) l).
Definition b2n (b : bool) : nat := if b then 1 else 0.

(** ** The three parts *)

Record safe (g : ghost) (s : rs) : Prop := {
  sf_algos : state s = Readable ->
    pullAlgorithm s = true /\ cancelAlgorithm s = true /\ strategySizeAlgorithm s = true;
  sf_again : pulling s = false -> pullAgain s = false;
  sf_pulls : count JPull (jobs s) + b2n (g_pull g) <= b2n (pulling s);
  sf_running : state s = Readable -> b2n (pulling s) <= count JPull (jobs s) + b2n (g_pull g);
  sf_notyet : started s = false -> pulling s = false;
  sf_started : started s = g_started g;
  sf_starts : count JStart (jobs s) = g_starts g;
  sf_reader : forall r x, readers s !! r = Some x -> (r_stream x = true <-> reader s = Some r);
  sf_valid : forall r, reader s = Some r -> is_Some (readers s !! r);
  sf_idle : forall r x, readers s !! r = Some x -> r_stream x = false -> r_requests x = [];
  sf_requests : state s <> Readable -> requests s = [];
  sf_queue : container_ok (queue s);
  sf_over : g_over g = true -> state s <> Readable;
  sf_user : Forall (fun x => x.2 <> Raise AssertionErr) (sizes s);
  sf_noassert : (Threw AssertionErr ∉ log s) /\ (InternalError AssertionErr ∉ log s);
}.

Record fifo (g : ghost) (s : rs) : Prop := {
  ff_inert : Forall (fun x => x.1 = []) (sizes s);
  ff_disjoint : c_queue (queue s) <> [] -> requests s = [];
  ff_closing : state s = Readable -> closeRequested s = true -> c_queue (queue s) <> [];
  ff_open : state s = Readable ->
    accepted (log s) = delivered_with (g_hand g) (promises s) ++ (c_queue (queue s)).*1;
  ff_over : delivered_with (g_hand g) (promises s) `prefix_of` accepted (log s);
  ff_closed : state s = Closed -> ~ cancelled (log s) ->
    accepted (log s) = delivered_with (g_hand g) (promises s);
  ff_sorted : StronglySorted lt (requests s);
  ff_pending : forall id, id ∈ requests s -> promises s !! id = Some Pending /\ g_hand g id = None;
  ff_later : forall id i, id ∈ requests s -> id <= i -> delivered_at (g_hand g) (promises s) i = None;
  ff_hand : forall id v, g_hand g id = Some v -> promises s !! id = Some Pending;
  ff_closedp : forall r x, readers s !! r = Some x ->
    r_closed x < length (promises s) /\ g_hand g (r_closed x) = None /\ (r_closed x ∉ requests s);
  ff_called : forall id, id ∈ requests s -> CalledRead id ∈ log s;
  ff_reads : forall i, promises s !! i = Some Pending -> g_hand g i = None ->
    i ∈ requests s \/
    (exists r x, reader s = Some r /\ readers s !! r = Some x /\ r_closed x = i /\ state s = Readable);
}.

Definition demand (s : rs) : Prop :=
  forall id, id ∈ requests s -> started s = false \/ pullAgain s = true \/ pulled_since id (log s).

Definition inv (g : ghost) (s : rs) : Prop :=
  safe g s /\ (g_inert g = true -> fifo g s /\ demand s).

(** ** Settling promises *)

Definition is_chunk (d : deferred) : Prop := exists v, d = Resolved (RResult v false).

(** [ds'] is [ds] with the pending ones among [ids] settled, none with a chunk. *)
Record settles (ids : list nat) (ds ds' : deferreds) : Prop := {
  st_length : length ds' = length ds;
  st_other : forall i, i ∉ ids -> ds' !! i = ds !! i;
  st_done : forall i, ds !! i <> Some Pending -> ds' !! i = ds !! i;
  st_ids : forall i d, i ∈ ids -> ds !! i = Some Pending -> ds' !! i = Some d -> d <> Pending /\ ~ is_chunk d;
}.

Lemma settles_refl ds : settles [] ds ds.
Proof. split; try done. intros i d H. by apply elem_of_nil in H. Qed.

Lemma settles_one id d ds : d <> Pending -> ~ is_chunk d -> settles [id] ds (deferred_settle id d ds).
Proof.
  intros Hd Hc. split; [apply length_deferred_settle|intros i Hi|intros i Hi|intros i d' Hi Hp];
    rewrite lookup_deferred_settle; case_bool_decide as X; try done.
  - destruct X as [-> _]. by destruct Hi; apply list_elem_of_singleton.
  - by destruct X as [-> ?].
  - by intros [= <-].
  - apply list_elem_of_singleton in Hi as ->. by destruct X.
Qed.

Lemma settles_trans ids ids' ds ds1 ds2 :
  settles ids ds ds1 -> settles ids' ds1 ds2 -> settles (ids ++ ids') ds ds2.
Proof.
  intros [L1 O1 D1 I1] [L2 O2 D2 I2]. split; [by rewrite L2| | |].
  - intros i Hi. rewrite elem_of_app in Hi. rewrite O2, O1 by tauto. done.
  - intros i Hi. rewrite D2; [by apply D1|]. by rewrite D1.
  - intros i d Hi Hp Hd. destruct (decide (i ∈ ids)) as [Hin|Hin].
    + destruct (ds1 !! i) as [d1|] eqn:E1.
      * destruct (I1 i d1 Hin Hp E1) as [Hn Hc]. rewrite D2 in Hd by (rewrite E1; by intros [= ->]).
        rewrite E1 in Hd. by injection Hd as <-.
      * exfalso. apply lookup_ge_None in E1. rewrite L1 in E1. apply lookup_lt_Some in Hp. lia.
    + rewrite elem_of_app in Hi. destruct Hi as [|Hi]; [done|].
      apply (I2 i d Hi); [|done]. by rewrite O1.
Qed.

Lemma settle_all_settles d ids ds : d <> Pending -> ~ is_chunk d -> settles ids ds (settle_all d ids ds).
Proof.
  intros Hd Hc. revert ds. induction ids as [|id ids IH]; intros ds; [apply settles_refl|].
  apply (settles_trans [id] ids ds (deferred_settle id d ds)); [by apply settles_one|apply IH].
Qed.

(** ** Handed out chunks *)

Lemma delivered_ext h h' ds ds' : length ds = length ds' ->
  (forall i, i < length ds -> delivered_at h ds i = delivered_at h' ds' i) ->
  delivered_with h ds = delivered_with h' ds'.
Proof.
  intros L H. unfold delivered_with. rewrite <-L. apply list_omap_ext, Forall2_same_length_lookup.
  split; [done|]. intros i x y Hx Hy. rewrite Hx in Hy. injection Hy as <-.
  apply lookup_seq in Hx as [-> Hi]. by apply H.
Qed.

Lemma delivered_at_settles h ids ds ds' i : settles ids ds ds' -> (forall j, j ∈ ids -> h j = None) ->
  delivered_at h ds' i = delivered_at h ds i.
Proof.
  intros [L O D I] Hh. unfold delivered_at. destruct (decide (i ∈ ids)) as [Hi|Hi]; [|by rewrite O].
  destruct (decide (ds !! i = Some Pending)) as [Hp|Hp]; [|by rewrite D].
  rewrite Hp, Hh by done. destruct (ds' !! i) as [d|] eqn:E; [|done].
  destruct (I i d Hi Hp E) as [Hn Hc]. destruct d as [|[|v []]|]; try done.
  by destruct Hc; exists v.
Qed.

Lemma delivered_settles h ids ds ds' : settles ids ds ds' -> (forall j, j ∈ ids -> h j = None) ->
  delivered_with h ds' = delivered_with h ds.
Proof.
  intros H Hh. apply delivered_ext; [apply (st_length _ _ _ H)|].
  intros i _. by eapply delivered_at_settles.
Qed.

Lemma delivered_at_app h ds d i : i < length ds -> delivered_at h (ds ++ [d]) i = delivered_at h ds i.
Proof. intros Hi. unfold delivered_at. by rewrite lookup_app_l. Qed.

Lemma delivered_snoc h ds d :
  delivered_with h (ds ++ [d]) =
  delivered_with h ds ++ option_list (delivered_at h (ds ++ [d]) (length ds)).
Proof.
  unfold delivered_with. rewrite length_app, seq_app, omap_app. simpl. f_equal.
  - apply list_omap_ext, Forall2_same_length_lookup. split; [done|].
    intros i x y Hx Hy. rewrite Hx in Hy. injection Hy as <-. apply lookup_seq in Hx as [-> Hi].
    by apply delivered_at_app.
Qed.

(** A new promise without a chunk changes nothing. *)
Lemma delivered_at_snoc h ds d i : h (length ds) = None -> ~ is_chunk d ->
  delivered_at h (ds ++ [d]) i = delivered_at h ds i.
Proof.
  intros Hh Hc. destruct (Nat.lt_trichotomy i (length ds)) as [?|[->|?]].
  - by apply delivered_at_app.
  - unfold delivered_at. rewrite lookup_app_r, Nat.sub_diag, (proj2 (lookup_ge_None ds _)) by lia. simpl.
    destruct d as [|[|v []]|]; try done. by destruct Hc; exists v.
  - unfold delivered_at. rewrite !(proj2 (lookup_ge_None _ _)); rewrite ?length_app; simpl; try lia. done.
Qed.

Lemma delivered_snoc_none h ds d : h (length ds) = None -> ~ is_chunk d ->
  delivered_with h (ds ++ [d]) = delivered_with h ds.
Proof.
  intros Hh Hc. rewrite delivered_snoc, delivered_at_snoc by done. unfold delivered_at.
  rewrite (proj2 (lookup_ge_None _ _)) by lia. simpl. by rewrite app_nil_r.
Qed.

Lemma omap_seq_none {A} (f : nat -> option A) a n :
  (forall i, a <= i < a + n -> f i = None) -> omap f (seq a n) = [].
Proof.
  revert a. induction n as [|n IH]; intros a H; [done|]. simpl. rewrite H by lia.
  apply IH. intros i Hi. apply H. lia.
Qed.

(** Giving a chunk to a promise after which no promise has one appends it. *)
Lemma delivered_push h ds h' ds' id v :
  length ds' = length ds -> id < length ds ->
  (forall i, id <= i -> delivered_at h ds i = None) ->
  delivered_at h' ds' id = Some v ->
  (forall i, i <> id -> delivered_at h' ds' i = delivered_at h ds i) ->
  delivered_with h' ds' = delivered_with h ds ++ [v].
Proof.
  intros L Hid Hn Hv Ho. unfold delivered_with. rewrite L.
  replace (length ds) with (id + (1 + (length ds - id - 1))) by lia.
  rewrite !seq_app, !omap_app. simpl. rewrite Hv, (Hn id) by lia.
  rewrite !(omap_seq_none _ (id + 1)); [| |].
  - rewrite !app_nil_r. f_equal. apply list_omap_ext, Forall2_same_length_lookup. split; [done|].
    intros i x y Hx Hy. rewrite Hx in Hy. injection Hy as <-. apply lookup_seq in Hx as [-> Hi].
    apply Ho. lia.
  - intros i Hi. apply Hn. lia.
  - intros i Hi. rewrite Ho by lia. apply Hn. lia.
Qed.

Lemma StronglySorted_snoc (l : list nat) x :
  StronglySorted lt l -> (forall y, y ∈ l -> y < x) -> StronglySorted lt (l ++ [x]).
Proof.
  induction l as [|y l IH]; intros H Hx; simpl; [by repeat constructor|].
  apply StronglySorted_inv in H as [H Hy]. constructor.
  - apply IH; [done|]. intros z Hz. apply Hx. by constructor.
  - apply Forall_app. split; [done|]. constructor; [|constructor]. apply Hx. constructor.
Qed.

Lemma accepted_app l l' : accepted (l ++ l') = accepted l ++ accepted l'.
Proof. apply omap_app. Qed.

Lemma cancelled_app l l' : cancelled l -> cancelled (l ++ l').
Proof. intros [r H]. exists r. rewrite elem_of_app. by left. Qed.

Lemma pulled_since_app id l l' : pulled_since id l -> pulled_since id (l ++ l').
Proof.
  intros (l1 & l2 & -> & H). exists l1, (l2 ++ l'). split; [by rewrite <-app_assoc|].
  rewrite elem_of_app. by left.
Qed.
