(* ===== verification/ReadableStreamInv.v ===== *)
(** * Readable streams: every operation keeps the invariant

    The functions that run no user code are first reduced to the state they
    leave ([close_eq], [error_eq]); the others are handled with the rules of
    [StreamBase.triple], given that [user] keeps the invariant for every ghost.
    [exec_inv] then closes the recursion. *)

From Stdlib Require Import ZArith Lia Sorted.
From stdpp Require Import base list numbers option strings.
From S2P Require Import Prelude JsNumber StreamBase ReadableStream ReadableStreamProps.

#[local] Open Scope nat_scope.

(** ** Readers and their requests *)

Lemma get_reader_lookup r x s : readers s !! r = Some x -> get_reader r s = x.
Proof. intros H. unfold get_reader. by rewrite H. Qed.

Lemma requests_eq r x s : reader s = Some r -> readers s !! r = Some x -> requests s = r_requests x.
Proof. intros H1 H2. unfold requests. by rewrite H1, (get_reader_lookup _ _ _ H2). Qed.

Lemma set_promises_id s : set_promises (promises s) s = s.
Proof. by destruct s. Qed.

Lemma set_requests_id r s : set_requests r (r_requests (get_reader r s)) s = s.
Proof.
  unfold set_requests, get_reader. destruct s as [????????????? rds]; simpl. unfold set_readers; simpl.
  f_equal. apply list_eq. intros i. destruct (decide (r = i)) as [->|Hne].
  - rewrite list_lookup_alter_eq. destruct (rds !! i) as [[]|]; done.
  - by rewrite list_lookup_alter_ne.
Qed.

Lemma set_requests_twice r a b s : set_requests r a (set_requests r b s) = set_requests r a s.
Proof.
  unfold set_requests, set_readers. simpl. f_equal. apply list_eq. intros i.
  destruct (decide (r = i)) as [->|Hne].
  - rewrite !list_lookup_alter_eq. by destruct (readers s !! i).
  - by rewrite !list_lookup_alter_ne.
Qed.

Lemma get_set_requests r a s : is_Some (readers s !! r) -> r_requests (get_reader r (set_requests r a s)) = a.
Proof.
  intros [x Hx]. unfold get_reader, set_requests. simpl. rewrite list_lookup_alter_eq, Hx. done.
Qed.

Lemma get_set_requests_closed r a s :
  r_closed (get_reader r (set_requests r a s)) = r_closed (get_reader r s).
Proof. unfold get_reader, set_requests. simpl. rewrite list_lookup_alter_eq. by destruct (readers s !! r). Qed.

(** Draining settles the requests in turn and leaves none. *)
Lemma drain_eq r d steps reqs s :
  (forall id s, steps id s = set_promises (deferred_settle id d (promises s)) s) ->
  r_requests (get_reader r s) = reqs -> is_Some (readers s !! r) ->
  drain r steps reqs s = set_promises (settle_all d reqs (promises s)) (set_requests r [] s).
Proof.
  intros Hst. revert s. induction reqs as [|id reqs IH]; intros s Hr Hs; simpl.
  - rewrite <-Hr, set_requests_id. by rewrite set_promises_id.
  - rewrite Hst, IH; simpl.
    + by rewrite <-(set_requests_twice r [] reqs s).
    + by apply (get_set_requests r reqs s).
    + destruct Hs as [x Hx]. rewrite list_lookup_alter_eq, Hx. by eexists.
Qed.

(** The state after the stream ended as [st], with the promises [ds]. *)
Definition ended (st : rs_state) (ds : deferreds) (s : rs) : rs :=
  match reader s with
  | None => set_state st s
  | Some r => set_promises ds (set_requests r [] (set_state st s))
  end.

(** The promises that the end of the stream settles. *)
Definition at_end (s : rs) : list nat :=
  match reader s with
  | None => []
  | Some r => requests s ++ [r_closed (get_reader r s)]
  end.

Definition reader_valid (s : rs) : Prop := forall r, reader s = Some r -> is_Some (readers s !! r).

Lemma close_eq s : reader_valid s -> state s = Readable ->
  exists ds, readableStreamClose s = (ended Closed ds s, Ret tt) /\ settles (at_end s) (promises s) ds.
Proof.
  intros Hs Hst. unfold readableStreamClose, bind, gets, modify, assert. rewrite bool_decide_eq_true_2 by done.
  simpl. unfold ended, at_end. destruct (reader s) as [r|] eqn:Er.
  2:{ exists (promises s). split; [done|]. apply settles_refl. }
  pose proof (Hs _ Er) as Hv.
  rewrite (drain_eq r (Resolved (RResult Undefined true))) by done. simpl.
  change (get_reader r (set_promises ?a ?s')) with (get_reader r s').
  rewrite get_set_requests_closed.
  change (get_reader r (set_state Closed s)) with (get_reader r s).
  assert (Er' : requests s = r_requests (get_reader r s)) by (unfold requests; by rewrite Er).
  rewrite <-Er'. eexists. split; [reflexivity|].
  apply (settles_trans _ _ _ (settle_all (Resolved (RResult Undefined true)) (requests s) (promises s))).
  - apply settle_all_settles; [done|by intros [v [=]]].
  - apply settles_one; [done|by intros [v [=]]].
Qed.

Lemma error_eq s e : reader_valid s -> state s = Readable ->
  exists ds, readableStreamError e s = (ended Errored ds (set_storedError e s), Ret tt) /\
             settles (at_end s) (promises s) ds.
Proof.
  intros Hs Hst. unfold readableStreamError, bind, gets, modify, assert. rewrite bool_decide_eq_true_2 by done.
  simpl. unfold ended, at_end. simpl. destruct (reader s) as [r|] eqn:Er.
  2:{ exists (promises s). split; [done|]. apply settles_refl. }
  pose proof (Hs _ Er) as Hv.
  unfold readableStreamDefaultReaderErrorReadRequests.
  rewrite (drain_eq r (Rejected e)) by done. simpl.
  eexists. split; [reflexivity|]. change (get_reader r _) with (get_reader r s).
  assert (E : settles ([r_closed (get_reader r s)] ++ requests s) (promises s)
    (settle_all (Rejected e) (r_requests (get_reader r s)) (deferred_reject (r_closed (get_reader r s)) e (promises s)))).
  { unfold requests. rewrite Er. eapply settles_trans.
    - apply (settles_one _ (Rejected e)); [done|by intros [v [=]]].
    - apply (settle_all_settles (Rejected e)); [done|by intros [v [=]]]. }
  destruct E as [L O D I]. split; try done.
  - intros i Hi. apply O. rewrite elem_of_app in *. tauto.
  - intros i d Hi. apply I. rewrite elem_of_app in *. tauto.
Qed.

Lemma lookup_set_requests r a s i x' : readers (set_requests r a s) !! i = Some x' ->
  exists x, readers s !! i = Some x /\ r_stream x' = r_stream x /\ r_closed x' = r_closed x /\
            r_requests x' = if decide (i = r) then a else r_requests x.
Proof.
  unfold set_requests. simpl. destruct (decide (i = r)) as [->|Hne].
  - rewrite list_lookup_alter_eq. destruct (readers s !! r) as [x|]; intros [= <-]. by exists x.
  - rewrite list_lookup_alter_ne by done. intros H. by exists x'.
Qed.

Lemma is_Some_set_requests r a s i :
  is_Some (readers (set_requests r a s) !! i) <-> is_Some (readers s !! i).
Proof. rewrite !lookup_lt_is_Some. unfold set_requests. simpl. by rewrite length_alter. Qed.

(** The readers of a stream that ended. *)
Lemma ended_readers st ds s i x' : readers (ended st ds s) !! i = Some x' ->
  exists x, readers s !! i = Some x /\ r_stream x' = r_stream x /\ r_closed x' = r_closed x /\
            (r_requests x' = r_requests x \/ r_requests x' = []).
Proof.
  unfold ended. destruct (reader s) as [r|]; simpl; intros H.
  - apply (lookup_set_requests r [] s) in H as (x & Hx & H1 & H2 & H3). exists x. repeat split; try done.
    destruct (decide (i = r)); [by right|by left].
  - exists x'. by repeat split; [..|left].
Qed.

Lemma ended_requests st ds s : (forall r, reader s = Some r -> is_Some (readers s !! r)) -> requests (ended st ds s) = [].
Proof.
  intros H. unfold ended, requests. destruct (reader s) as [r|] eqn:E; simpl; [|by rewrite E].
  rewrite E. change (get_reader r _) with (get_reader r (set_requests r [] s)). by apply get_set_requests, H.
Qed.

Lemma ended_frame st ds s :
  let s' := ended st ds s in
  state s' = st /\ reader s' = reader s /\ queue s' = queue s /\ started s' = started s /\
  closeRequested s' = closeRequested s /\ pullAgain s' = pullAgain s /\ pulling s' = pulling s /\
  jobs s' = jobs s /\ calls s' = calls s /\ sizes s' = sizes s /\ log s' = log s.
Proof. unfold ended. simpl. destruct (reader s) eqn:E; by rewrite <-?E. Qed.

Lemma safe_ended g s st ds : safe g s -> st <> Readable -> safe g (ended st ds s).
Proof.
  intros [Ha Hg Hp Hrn Hn Hs Hss Hr Hv Hi Hq Hk Ho Hu Hna] Hst.
  pose proof (ended_frame st ds s) as (E1 & E2 & E3 & E4 & E5 & E6 & E7 & E8 & E9 & E10 & E11).
  split; rewrite ?E1, ?E2, ?E3, ?E4, ?E6, ?E7, ?E8, ?E10, ?E11; try done.
  - intros r x' H. apply ended_readers in H as (x & Hx & -> & _). by apply Hr.
  - intros r H. specialize (Hv r H). unfold ended. rewrite H. simpl.
    by apply (is_Some_set_requests r [] s r).
  - intros r x' H Hf. apply ended_readers in H as (x & Hx & Ef & _ & [->| ->]); [|done].
    apply (Hi r x Hx). congruence.
  - intros _. apply ended_requests, Hv.
Qed.

(** What the account of the chunks becomes when the stream ends. *)
Lemma fifo_ended g s s' :
  safe g s -> fifo g s -> state s = Readable -> state s' <> Readable -> reader s' = reader s ->
  sizes s' = sizes s -> requests s' = [] -> accepted (log s') = accepted (log s) ->
  (forall r x', readers s' !! r = Some x' -> exists x, readers s !! r = Some x /\ r_closed x' = r_closed x) ->
  settles (at_end s) (promises s) (promises s') ->
  (state s' = Closed -> ~ cancelled (log s') -> c_queue (queue s) = []) ->
  fifo g s'.
Proof.
  intros Hs [Hin Hd Hc Ho Hov Hcl Hso Hp Hl Hh Hcp Hca Hre] Hst Hst' Hrd Hsz Hrq Hlog Hrds Hse Hcq.
  assert (Hnone : forall j, j ∈ at_end s -> g_hand g j = None).
  { unfold at_end. intros j Hj. destruct (reader s) as [r|] eqn:Er; [|by apply elem_of_nil in Hj].
    apply elem_of_app in Hj as [Hj|Hj]; [by apply Hp|]. apply list_elem_of_singleton in Hj as ->.
    destruct (sf_valid _ _ Hs _ Er) as [x Hx]. rewrite (get_reader_lookup _ _ _ Hx). by apply (Hcp r x). }
  assert (Hdel : delivered_with (g_hand g) (promises s') = delivered_with (g_hand g) (promises s))
    by by eapply delivered_settles.
  split; rewrite ?Hsz, ?Hlog, ?Hdel, ?Hrq; try done.
  - intros Hx Hnc. rewrite (Ho Hst), (Hcq Hx Hnc). by rewrite app_nil_r.
  - constructor.
  - intros id H. by apply elem_of_nil in H.
  - intros id i H. by apply elem_of_nil in H.
  - intros id v H. rewrite <-(Hh id v H). apply (st_other _ _ _ Hse). intros X. apply Hnone in X. congruence.
  - intros r x' H. destruct (Hrds r x' H) as (x & Hx & ->). destruct (Hcp r x Hx) as (H1 & H2 & _).
    rewrite (st_length _ _ _ Hse). repeat split; [done..|]. apply not_elem_of_nil.
  - intros id H. by apply elem_of_nil in H.
  - intros i Hpe Hha. exfalso.
    assert (Hpe' : promises s !! i = Some Pending).
    { destruct (decide (promises s !! i = Some Pending)) as [|X]; [done|]. by rewrite <-(st_done _ _ _ Hse i X). }
    destruct (decide (i ∈ at_end s)) as [Hi|Hi].
    + by destruct (st_ids _ _ _ Hse i Pending Hi Hpe' Hpe).
    + destruct Hi. unfold at_end. destruct (Hre i Hpe' Hha) as [Hi|(r & x & Er & Hx & <- & _)].
      * unfold requests in Hi. destruct (reader s) eqn:Er; [|by apply elem_of_nil in Hi].
        apply elem_of_app. left. unfold requests. by rewrite Er.
      * rewrite Er. apply elem_of_app. right. apply list_elem_of_singleton.
        by rewrite (get_reader_lookup _ _ _ Hx).
Qed.

Lemma demand_none s : requests s = [] -> demand s.
Proof. intros H id Hid. rewrite H in Hid. by apply elem_of_nil in Hid. Qed.

(** ** Outcomes *)

(** The computation kept the invariant and returned, or at least did not fail
    an assertion. *)
Definition returns (g : ghost) (x : rs * result unit) : Prop := inv g x.1 /\ x.2 = Ret tt.
Definition keeps {A} (g : ghost) (x : rs * result A) : Prop := inv g x.1 /\ x.2 <> Raise AssertionErr.

Lemma returns_keeps g x : returns g x -> keeps g x.
Proof. intros [H1 H2]. split; [done|]. by rewrite H2. Qed.

Lemma keeps_bind {A B} g (m : M rs A) (k : A -> M rs B) s :
  keeps g (m s) -> (forall a s', inv g s' -> m s = (s', Ret a) -> keeps g (k a s')) -> keeps g (bind m k s).
Proof.
  intros [H1 H2] Hk. unfold bind. destruct (m s) as [s' [a|e]]; simpl in *; [by apply Hk|].
  split; simpl; congruence.
Qed.

(** ** Ending the stream *)

Lemma safe_clear g s : state s <> Readable -> safe g s -> safe g (readableStreamDefaultControllerClearAlgorithms s).
Proof. intros H []. by split. Qed.

Lemma safe_set_queue g s c : container_ok c -> safe g s -> safe g (set_queue c s).
Proof. intros H []. by split. Qed.

Lemma safe_set_storedError g s e : safe g s -> safe g (set_storedError e s).
Proof. intros []. by split. Qed.

(** An end of the stream, however the other fields are cleaned up: [s'] has
    the readers and promises of [ended st ds s]. *)
Lemma fifo_demand_ended g s s' st ds :
  safe g s -> fifo g s -> state s = Readable -> st <> Readable ->
  settles (at_end s) (promises s) ds ->
  state s' = st -> reader s' = reader s -> readers s' = readers (ended st ds s) ->
  promises s' = promises (ended st ds s) -> sizes s' = sizes s -> accepted (log s') = accepted (log s) ->
  (st = Closed -> ~ cancelled (log s') -> c_queue (queue s) = []) ->
  fifo g s' /\ demand s'.
Proof.
  intros Hs Hf Hst Hne Hse E1 E2 E3 E4 E5 E6 E7.
  assert (Hrq : requests s' = []).
  { rewrite <-(ended_requests st ds s (sf_valid _ _ Hs)). unfold requests. rewrite E2.
    replace (reader (ended st ds s)) with (reader s) by (symmetry; apply ended_frame).
    unfold get_reader. by rewrite E3. }
  split; [|by apply demand_none].
  apply (fifo_ended g s); try done; rewrite ?E1, ?E3, ?E4; try done.
  - intros r x' H. apply ended_readers in H as (x & Hx & _ & ? & _). by exists x.
  - unfold ended. unfold at_end in *. destruct (reader s); [done|]. apply settles_refl.
Qed.

Lemma error_inv g e s : inv g s ->
  returns g (readableStreamDefaultControllerError e s) /\ state (readableStreamDefaultControllerError e s).1 <> Readable.
Proof.
  intros [Hs Hf]. unfold readableStreamDefaultControllerError. mstep.
  case_bool_decide as H; [done|]. mstep.
  match goal with |- context [readableStreamError e ?s0] => set (s1 := s0) end.
  destruct (error_eq s1 e (sf_valid _ _ Hs) H) as (ds & -> & Hse). simpl.
  assert (E : ended Errored ds (set_storedError e s1) =
    set_storedError e (readableStreamDefaultControllerClearAlgorithms (set_queue resetQueue (ended Errored ds s)))).
  { unfold ended. simpl. by destruct (reader s). }
  assert (Hst : state (ended Errored ds (set_storedError e s1)) = Errored) by apply ended_frame.
  split; [|by rewrite Hst]. split; [|done]. simpl. split.
  - rewrite E. apply safe_set_storedError, safe_clear; [simpl; by rewrite (proj1 (ended_frame Errored ds s))|].
    apply safe_set_queue; [apply resetQueue_ok|by apply safe_ended].
  - intros Hg. destruct (Hf Hg) as [Hff Hdd]. apply (fifo_demand_ended g s _ Errored ds); try done.
    all: rewrite ?Hst, E; simpl; try done; by apply ended_frame || (f_equal; apply ended_frame).
Qed.

(** ** Frame lemmas *)

(** The fields that [fifo] reads; the log may grow by other observations. *)
Lemma fifo_frame g s s' l :
  fifo g s -> state s' = state s -> reader s' = reader s -> readers s' = readers s ->
  promises s' = promises s -> queue s' = queue s -> closeRequested s' = closeRequested s ->
  sizes s' = sizes s -> log s' = log s ++ l -> accepted l = [] -> fifo g s'.
Proof.
  intros H E1 E2 E3 E4 E5 E6 E7 E8 Hl.
  assert (Er : requests s' = requests s) by (unfold requests, get_reader; by rewrite E2, E3).
  assert (Ea : accepted (log s') = accepted (log s)) by (rewrite E8, accepted_app, Hl; by rewrite app_nil_r).
  split; rewrite ?Er, ?Ea, ?E1, ?E2, ?E3, ?E4, ?E5, ?E6, ?E7; try apply H.
  - intros Hc Hn. apply (ff_closed _ _ H); [done|]. intros X. apply Hn. rewrite E8. by apply cancelled_app.
  - intros id Hid. rewrite E8. apply elem_of_app. left. by apply (ff_called _ _ H).
Qed.

Lemma demand_frame s s' l :
  demand s -> reader s' = reader s -> readers s' = readers s ->
  (started s = false -> started s' = false) -> (pullAgain s = true -> pullAgain s' = true) ->
  log s' = log s ++ l -> demand s'.
Proof.
  intros H E1 E2 E3 E4 E5 id Hid.
  assert (Er : requests s' = requests s) by (unfold requests, get_reader; by rewrite E1, E2).
  rewrite Er in Hid. destruct (H id Hid) as [?|[?|?]]; [by left; apply E3|by right; left; apply E4|].
  right; right. rewrite E5. by apply pulled_since_app.
Qed.

Lemma fifo_same g s s' :
  fifo g s -> state s' = state s -> reader s' = reader s -> readers s' = readers s ->
  promises s' = promises s -> queue s' = queue s -> closeRequested s' = closeRequested s ->
  sizes s' = sizes s -> log s' = log s -> fifo g s'.
Proof. intros. apply (fifo_frame g s s' []); try done. by rewrite app_nil_r. Qed.

Lemma demand_same s s' :
  demand s -> reader s' = reader s -> readers s' = readers s ->
  (started s = false -> started s' = false) -> (pullAgain s = true -> pullAgain s' = true) ->
  log s' = log s -> demand s'.
Proof. intros. apply (demand_frame s s' []); try done. by rewrite app_nil_r. Qed.

(** An observation that is no assertion. *)
Definition benign (o : obs) : Prop := o <> Threw AssertionErr /\ o <> InternalError AssertionErr.

Lemma safe_emit g s o : benign o -> safe g s -> safe g (emit o s).
Proof.
  intros [H1 H2] H. split; try apply H. simpl. rewrite !elem_of_app, !list_elem_of_singleton.
  destruct (sf_noassert _ _ H). split; intros [|]; by auto.
Qed.

Lemma inv_emit g s o : benign o -> accepted [o] = [] -> inv g s -> inv g (emit o s).
Proof.
  intros Hb Ha [Hs Hf]. split; [by apply safe_emit|]. intros Hg. destruct (Hf Hg).
  split; [by eapply (fifo_frame g s _ [o])|by eapply (demand_frame s _ [o])].
Qed.

(** ** Whether to pull *)

Definition should (s : rs) : bool :=
  readableStreamDefaultControllerCanCloseOrEnqueue s && started s &&
  (negb (bool_decide (requests s = [])) ||
   num_lt zero (num_sub (strategyHWM s) (c_total (queue s)))).

Lemma waiting_eq s : waiting_reads s = (s, Ret (negb (bool_decide (requests s = [])))).
Proof.
  unfold waiting_reads, readableStreamGetNumReadRequests. unfold bind, gets, mret.
  unfold isReadableStreamLocked, readableStreamHasDefaultReader, requests.
  destruct (reader s) as [r|] eqn:E; simpl; [|done].
  rewrite E. cbn. rewrite E. destruct (r_requests _); done.
Qed.

Lemma should_eq s : readableStreamDefaultcontrollerShouldCallPull s = (s, Ret (should s)).
Proof.
  unfold readableStreamDefaultcontrollerShouldCallPull, should. unfold bind at 1. unfold gets at 1.
  destruct (readableStreamDefaultControllerCanCloseOrEnqueue s) eqn:E; [|done]. simpl.
  unfold bind at 1. unfold gets at 1. destruct (started s); [|done]. simpl.
  unfold bind at 1. rewrite waiting_eq. destruct (bool_decide (requests s = [])); [|done]. simpl.
  unfold readableStreamDefaultControllerCanCloseOrEnqueue in E. apply andb_true_iff in E as [_ E].
  apply bool_decide_eq_true in E.
  unfold bind, gets, readableStreamDefaultControllerGetDesiredSize. rewrite E.
  by destruct (num_lt zero (num_sub (strategyHWM s) (c_total (queue s)))).
Qed.

Section Operations.
Variable user : list op -> rs -> rs.
Hypothesis user_inv : forall g acts s, inv g s -> inv g (user acts s).

(** ** Calling [pull] *)

Definition with_pull (b : bool) (g : ghost) : ghost := 
  Ghost b (g_hand g) (g_starts g) (g_started g) (g_over g) (g_inert g).

Lemma count_app j l l' : count j (l ++ l') = count j l + count j l'.
Proof. unfold count. by rewrite filter_app, length_app. Qed.

Lemma fifo_with_pull b g s : fifo (with_pull b g) s <-> fifo g s.
Proof. split; intros []; by split. Qed.

(** A callback that starts from the invariant for [g] keeps it. *)
Lemma invoke_inv g o s : inv g (emit o s) -> returns g (invoke user o s).
Proof.
  intros H. unfold invoke. destruct (calls s) as [|acts rest] eqn:E; simpl; [done|].
  split; [|done]. apply user_inv. destruct H as [Hs Hf]. split; [by destruct Hs; split|].
  intros Hg. destruct (Hf Hg) as [Hff Hd]. split.
  - by apply (fifo_same g (emit o s)).
  - by apply (demand_same (emit o s)).
Qed.

Lemma demand_called s : (forall id, id ∈ requests s -> CalledRead id ∈ log s) -> demand (emit CalledPull s).
Proof.
  intros H id Hid. right; right. destruct (list_elem_of_split _ _ (H id Hid)) as (l1 & l2 & E).
  exists l1, (l2 ++ [CalledPull]). split; [|rewrite elem_of_app; right; by apply list_elem_of_singleton].
  simpl. by rewrite E, <-app_assoc.
Qed.

(** Without the need to pull, every pending read has been answered for. *)
Lemma demand_quiet g s : safe g s -> fifo g s -> should s = false -> demand s.
Proof.
  intros Hs Hf H. destruct (decide (requests s = [])) as [E|E]; [by apply demand_none|].
  intros id Hid. left. unfold should in H. rewrite bool_decide_eq_false_2 in H by done.
  destruct (started s); [|done]. exfalso.
  rewrite orb_true_l, !andb_true_r in H. unfold readableStreamDefaultControllerCanCloseOrEnqueue in H.
  apply andb_false_iff in H as [H|H].
  - apply negb_false_iff in H. destruct (decide (state s = Readable)) as [Hr|Hr]; [|by apply E, (sf_requests _ _ Hs)].
    by apply E, (ff_disjoint _ _ Hf), (ff_closing _ _ Hf).
  - apply bool_decide_eq_false in H. by apply E, (sf_requests _ _ Hs).
Qed.

Lemma safe_start_pull g s : safe g s -> pulling s = false -> started s = true ->
  safe (with_pull true g) (set_pulling true s).
Proof.
  intros Hs Hp Hst. pose proof (sf_pulls _ _ Hs) as X. rewrite Hp in X.
  split; simpl; try apply Hs; try done; [destruct (g_pull g); simpl in *; lia|lia|congruence].
Qed.

(** The reaction to a call of [pull] that has just returned. *)
Lemma add_pull_inv g s s' : safe g s -> pulling s = false -> inv (with_pull true g) s' ->
  inv g (set_jobs (jobs s' ++ [JPull]) s').
Proof.
  intros Hs Hp [Hs' Hf']. split.
  - assert (Hg : g_pull g = false).
    { pose proof (sf_pulls _ _ Hs) as X. rewrite Hp in X. destruct (g_pull g); simpl in *; [lia|done]. }
    split; simpl; try apply Hs'; rewrite count_app.
    + pose proof (sf_pulls _ _ Hs') as X. rewrite Hg. simpl in *. unfold count in *. simpl. lia.
    + intros _. destruct (pulling s'); unfold count; simpl; lia.
    + pose proof (sf_starts _ _ Hs') as X. unfold count in *. simpl in *. lia.
  - intros Hg. destruct (Hf' Hg) as [Hff Hd]. split.
    + apply (proj1 (fifo_with_pull _ _ _)) in Hff. by apply (fifo_same g s').
    + by apply (demand_same s').
Qed.

Lemma callPull_inv g s : safe g s -> (g_inert g = true -> fifo g s) ->
  returns g (readableStreamDefaultControllerCallPullIfNeeded user s).
Proof.
  intros Hs Hf. unfold readableStreamDefaultControllerCallPullIfNeeded.
  rewrite (bind_eq _ _ _ _ _ (should_eq s)). destruct (should s) eqn:Hsh.
  2:{ split; [|done]. split; [done|]. intros Hg. split; [by apply Hf|]. by apply (demand_quiet g); auto. }
  mstep. destruct (pulling s) eqn:Hp.
  { split; [|done]. split; [destruct Hs; split; simpl; rewrite ?Hp in *; done|].
    intros Hg. split; [by apply (fifo_same g s); auto|]. intros id _. by right; left. }
  mstep. massert by (by rewrite (sf_again _ _ Hs Hp)). mstep.
  unfold should in Hsh. apply andb_true_iff in Hsh as [Hsh _]. apply andb_true_iff in Hsh as [Hcan Hst].
  apply andb_true_iff in Hcan as [_ Hr]. apply bool_decide_eq_true in Hr.
  change (pullAlgorithm (set_pulling true s)) with (pullAlgorithm s).
  destruct (sf_algos _ _ Hs Hr) as (-> & _ & _).
  assert (Hi : inv (with_pull true g) (emit CalledPull (set_pulling true s))).
  { split.
    - apply safe_emit; [done|]. by apply safe_start_pull.
    - intros Hg. split.
      + apply fifo_with_pull. by eapply (fifo_frame g s _ [CalledPull]); auto.
      + apply demand_called. apply (ff_called _ _ (Hf Hg)). }
  destruct (invoke_inv _ _ _ Hi) as [Hi' Hr']. unfold bind.
  destruct (invoke user CalledPull _) as [s' r']. simpl in *. subst r'.
  split; [|done]. by apply (add_pull_inv g s).
Qed.

(** ** The controller's methods *)

Lemma can_spec s : readableStreamDefaultControllerCanCloseOrEnqueue s = true ->
  state s = Readable /\ closeRequested s = false.
Proof.
  unfold readableStreamDefaultControllerCanCloseOrEnqueue. intros [H1 H2]%andb_true_iff.
  apply bool_decide_eq_true in H2. by apply negb_true_iff in H1.
Qed.

Lemma controllerClose_inv g s : inv g s -> returns g (readableStreamDefaultControllerClose s).
Proof.
  intros [Hs Hf]. unfold readableStreamDefaultControllerClose. mstep.
  destruct (readableStreamDefaultControllerCanCloseOrEnqueue s) eqn:E; [|done].
  apply can_spec in E as [Hst Hcr]. mstep. change (queue (set_closeRequested true s)) with (queue s).
  case_bool_decide as Hq.
  - mstep. match goal with |- context [readableStreamClose ?s0] => set (s1 := s0) end.
    destruct (close_eq s1 (sf_valid _ _ Hs) Hst) as (ds & -> & Hse).
    assert (E : ended Closed ds s1 =
      set_closeRequested true (readableStreamDefaultControllerClearAlgorithms (ended Closed ds s))).
    { unfold ended. simpl. by destruct (reader s). }
    split; [|done]. simpl. rewrite E. split.
    + assert (Hs1 : safe g (readableStreamDefaultControllerClearAlgorithms (ended Closed ds s))).
      { apply safe_clear; [by rewrite (proj1 (ended_frame Closed ds s))|by apply safe_ended]. }
      destruct Hs1. by split.
    + intros Hg. destruct (Hf Hg). apply (fifo_demand_ended g s _ Closed ds); try done; simpl; try apply ended_frame.
      f_equal. apply ended_frame.
  - split; [|done]. split; [by destruct Hs; split|]. intros Hg. destruct (Hf Hg) as [Hff Hd].
    split; [|by apply (demand_same s)]. destruct Hff. by split.
Qed.

(** Handing a chunk to the first waiting read. *)
Lemma fulfill_fifo g s r id rest chunk :
  safe g s -> fifo g s -> state s = Readable -> reader s = Some r -> requests s = id :: rest ->
  fifo g (emit (Accepted chunk) (chunkSteps id chunk (set_requests r rest s))).
Proof.
  intros Hs Hf Hst Hr Hreq.
  assert (Hv : is_Some (readers s !! r)) by by apply (sf_valid _ _ Hs).
  assert (Hreq' : requests (emit (Accepted chunk) (chunkSteps id chunk (set_requests r rest s))) = rest).
  { unfold requests. simpl. rewrite Hr. by apply (get_set_requests r rest s). }
  assert (Hq : c_queue (queue s) = []).
  { destruct (decide (c_queue (queue s) = [])) as [|X]; [done|]. apply (ff_disjoint _ _ Hf) in X. congruence. }
  destruct (ff_pending _ _ Hf id) as [Hpe Hha]; [rewrite Hreq; constructor|].
  assert (Hlt : id < length (promises s)) by by eapply lookup_lt_Some.
  pose proof (ff_sorted _ _ Hf) as Hso. rewrite Hreq in Hso. apply StronglySorted_inv in Hso as [Hso Hlt'].
  rewrite Forall_forall in Hlt'.
  set (ds' := deferred_resolve id (RResult chunk false) (promises s)).
  assert (Hds : forall i, ds' !! i = if decide (i = id) then Some (Resolved (RResult chunk false)) else promises s !! i).
  { intros i. unfold ds', deferred_resolve. rewrite lookup_deferred_settle.
    destruct (decide (i = id)) as [->|Hne]; [by rewrite bool_decide_eq_true_2|]. by rewrite bool_decide_eq_false_2 by tauto. }
  assert (Hat : forall i, i <> id -> delivered_at (g_hand g) ds' i = delivered_at (g_hand g) (promises s) i).
  { intros i Hi. unfold delivered_at. by rewrite Hds, decide_False. }
  assert (Hdel : delivered_with (g_hand g) ds' = delivered_with (g_hand g) (promises s) ++ [chunk]).
  { apply (delivered_push _ _ _ _ id); [apply length_deferred_settle|done| | |done].
    - intros i Hi. apply (ff_later _ _ Hf id); [rewrite Hreq; constructor|done].
    - unfold delivered_at. by rewrite Hds, decide_True. }
  assert (Hacc : accepted (log s ++ [Accepted chunk]) = delivered_with (g_hand g) ds').
  { rewrite accepted_app, (ff_open _ _ Hf Hst), Hq, app_nil_r, Hdel. done. }
  split; rewrite ?Hreq'; simpl; fold ds'; try apply Hf; rewrite ?Hacc, ?Hq; try done.
  - by rewrite app_nil_r.
  - intros i Hi. rewrite Hds, decide_False.
    + apply (ff_pending _ _ Hf). rewrite Hreq. by constructor.
    + intros ->. specialize (Hlt' id Hi). lia.
  - intros i j Hi Hij. rewrite Hat.
    + apply (ff_later _ _ Hf i); [rewrite Hreq; by constructor|done].
    + intros ->. specialize (Hlt' i Hi). lia.
  - intros i v Hi. rewrite Hds, decide_False; [by eapply (ff_hand _ _ Hf)|congruence].
  - intros i x' Hx'. apply (lookup_set_requests r rest s) in Hx' as (x & Hx & _ & -> & _).
    destruct (ff_closedp _ _ Hf i x Hx) as (H1 & H2 & H3). unfold ds', deferred_resolve. rewrite length_deferred_settle.
    repeat split; [done..|]. intros X. apply H3. rewrite Hreq. by constructor.
  - intros i Hi. rewrite elem_of_app. left. apply (ff_called _ _ Hf). rewrite Hreq. by constructor.
  - intros i Hi Hh. rewrite Hds in Hi. destruct (decide (i = id)) as [->|Hne]; [done|].
    destruct (ff_reads _ _ Hf i Hi Hh) as [Hin|(r' & x & E1 & E2 & E3 & E4)].
    + left. rewrite Hreq in Hin. by apply elem_of_cons in Hin as [|].
    + right. exists r', (if decide (r' = r) then mkReader (r_stream x) (r_closed x) rest else x).
      repeat split; [done| |by destruct (decide _)|done].
      destruct (decide (r' = r)) as [->|Hn]; [by rewrite list_lookup_alter_eq, E2|by rewrite list_lookup_alter_ne].
Qed.

Lemma safe_set_requests g s r a : safe g s -> reader s = Some r -> state s = Readable -> safe g (set_requests r a s).
Proof.
  intros Hs Hr Hst. split; simpl; try apply Hs.
  - intros i x' H. apply (lookup_set_requests r a s) in H as (x & Hx & -> & _). by apply (sf_reader _ _ Hs).
  - intros i H. apply (is_Some_set_requests r a s). by apply (sf_valid _ _ Hs).
  - intros i x' H Hf. apply (lookup_set_requests r a s) in H as (x & Hx & E & _ & ->).
    destruct (decide (i = r)) as [->|Hne]; [|apply (sf_idle _ _ Hs i x Hx); congruence].
    apply (sf_reader _ _ Hs) in Hx. rewrite Hr in Hx. destruct Hx as [_ X]. rewrite X in E by done. congruence.
  - done.
Qed.

Lemma safe_set_promises g s ds : safe g s -> safe g (set_promises ds s).
Proof. intros []. by split. Qed.
End Operations.
