(* ===== verification/ReadableStreamSteps.v ===== *)
(** * Readable streams: methods, reactions and runs

    The second half of the preservation proof: [enqueue], [read], [cancel],
    the reader's life cycle and the reactions, then [exec] and [run] for any
    sequence of events and any scripts. *)

From Stdlib Require Import ZArith Lia Sorted.
From stdpp Require Import base list numbers option strings.
From S2P Require Import Prelude JsNumber StreamBase ReadableStream ReadableStreamProps ReadableStreamInv.

#[local] Open Scope nat_scope.

Section Operations.
Variable user : list op -> rs -> rs.
Hypothesis user_inv : forall g acts s, inv g s -> inv g (user acts s).
Hypothesis user_nil : forall s, user [] s = s.

(** ** Enqueueing *)

(** After the size callback the stream is as the code left it, unless the
    callback is not inert. *)
Lemma size_inv g s : inv g s -> requests s = [] -> state s = Readable -> closeRequested s = false ->
  inv g (invoke_size user s).1 /\ (invoke_size user s).2 <> Raise AssertionErr /\
  (g_inert g = true -> requests (invoke_size user s).1 = [] /\ state (invoke_size user s).1 = Readable).
Proof.
  intros Hi Hr Hst Hc. unfold invoke_size. destruct (sizes s) as [|[acts r] rest] eqn:E; [done|]. simpl.
  assert (Hi' : inv g (set_sizes rest s)).
  { destruct Hi as [Hs Hf]. split.
    - pose proof (sf_user _ _ Hs) as Hu. rewrite E in Hu. apply Forall_cons in Hu as [_ Hu]. destruct Hs. by split.
    - intros Hg. destruct (Hf Hg) as [Hff Hd]. split; [|by apply (demand_same s)].
      pose proof (ff_inert _ _ Hff) as Hu. rewrite E in Hu. apply Forall_cons in Hu as [_ Hu]. destruct Hff. by split. }
  split; [by apply user_inv|]. split.
  - pose proof (sf_user _ _ (proj1 Hi)) as Hu. rewrite E in Hu. by apply Forall_cons in Hu as [Hu _].
  - intros Hg. destruct Hi as [_ Hf]. destruct (Hf Hg) as [Hff _]. pose proof (ff_inert _ _ Hff) as Hu.
    rewrite E in Hu. apply Forall_cons in Hu as [Hu _]. simpl in Hu. subst acts. by rewrite user_nil.
Qed.

Lemma throw_inv g s e : inv g s -> e <> AssertionErr ->
  keeps g ((do! readableStreamDefaultControllerError e; raise e) s : rs * result num).
Proof.
  intros Hi He. destruct (error_inv g e s Hi) as [[H1 H2] _]. unfold bind.
  destruct (readableStreamDefaultControllerError e s) as [s' r]. simpl in *. subst r.
  split; [done|]. by intros [=].
Qed.

(** A chunk that goes to the queue. *)
Lemma enqueue_fifo g s chunk size c :
  fifo g s -> requests s = [] -> state s = Readable -> c_queue c = c_queue (queue s) ++ [(chunk, size)] ->
  fifo g (emit (Accepted chunk) (set_queue c s)).
Proof.
  intros Hf Hr Hst Hc.
  assert (Hr' : requests (emit (Accepted chunk) (set_queue c s)) = []) by done.
  assert (Hacc : accepted (log s ++ [Accepted chunk]) =
                 delivered_with (g_hand g) (promises s) ++ (c_queue c).*1).
  { rewrite accepted_app, (ff_open _ _ Hf Hst), Hc, fmap_app. by rewrite <-app_assoc. }
  split; rewrite ?Hr'; simpl; rewrite ?Hacc; try apply Hf; try done.
  - intros _ _ X. rewrite X in Hc. by destruct (c_queue (queue s)).
  - by eexists.
  - congruence.
  - constructor.
  - intros id H. by apply elem_of_nil in H.
  - intros id i H. by apply elem_of_nil in H.
  - intros r x H. destruct (ff_closedp _ _ Hf r x H) as (? & ? & _). repeat split; [done..|]. apply not_elem_of_nil.
  - intros id H. by apply elem_of_nil in H.
  - intros i H1 H2. destruct (ff_reads _ _ Hf i H1 H2) as [H|H]; [|by right].
    rewrite Hr in H. by apply elem_of_nil in H.
Qed.

Lemma controllerEnqueue_inv g chunk s : inv g s -> keeps g (readableStreamDefaultControllerEnqueue user chunk s).
Proof.
  intros Hi. pose proof Hi as [Hs Hf]. unfold readableStreamDefaultControllerEnqueue. mstep.
  destruct (readableStreamDefaultControllerCanCloseOrEnqueue s) eqn:E; [|done]. mstep.
  apply can_spec in E as [Hst Hcr].
  rewrite (bind_eq _ _ _ _ _ (waiting_eq s)). case_bool_decide as Hreq; mstep.
  - (* to the queue *)
    unfold bind at 1. unfold try_catch at 1. rewrite bind_gets.
    destruct (sf_algos _ _ Hs Hst) as (_ & _ & ->).
    destruct (size_inv g s Hi Hreq Hst Hcr) as (Hi1 & Hne & Hin).
    destruct (invoke_size user s) as [s1 [size|e]]; simpl in Hi1, Hne, Hin.
    2:{ assert (e <> AssertionErr) by congruence.
        destruct (throw_inv g s1 e Hi1 H) as [H1 H2]. destruct (bind _ _ s1) as [s2 [a|e2]] eqn:Eb.
        - unfold bind in Eb. destruct (readableStreamDefaultControllerError e s1) as [? []]; simplify_eq.
        - split; [done|]. simpl in *. congruence. }
    rewrite bind_bind. unfold bind at 1. unfold try_catch, enqueue_value.
    destruct (enqueueValueWithSize chunk size (queue s1)) as [c r] eqn:Ec.
    assert (Hc : container_ok c).
    { pose proof (enqueueValueWithSize_ok chunk size (queue s1) (sf_queue _ _ (proj1 Hi1))) as X. by rewrite Ec in X. }
    unfold enqueueValueWithSize in Ec.
    destruct r as [[]|e].
    + mstep. destruct (negb (isNonNegativeNumber size)); [by simplify_eq|].
      assert (Hcq : c_queue c = c_queue (queue s1) ++ [(chunk, size)]) by (destruct size as [|[]|]; by simplify_eq).
      apply returns_keeps, callPull_inv; [done|..].
      * apply safe_emit; [done|]. apply safe_set_queue; [done|apply Hi1].
      * intros Hg. destruct (proj2 Hi1 Hg) as [Hf1 _]. destruct (Hin Hg). by eapply enqueue_fifo.
    + assert (Hcc : c = queue s1 /\ e <> AssertionErr) by
        (destruct (negb (isNonNegativeNumber size)), size as [|[]|]; by simplify_eq).
      destruct Hcc as [-> He]. replace (set_queue (queue s1) s1) with s1 by by destruct s1.
      destruct (throw_inv g s1 e Hi1 He) as [H1 H2]. unfold bind in *.
      destruct (readableStreamDefaultControllerError e s1) as [s2 [[]|e2]]; simpl in *; split; try done; simpl; congruence.
  - (* to the first waiting read *)
    destruct (reader s) as [r|] eqn:Er; [|by unfold requests in Hreq; rewrite Er in Hreq].
    destruct (requests s) as [|id rest] eqn:Eq; [done|].
    unfold readableStreamFulfillReadRequest. mstep.
    unfold readableStreamHasDefaultReader. rewrite Er. massert by done. mstep. rewrite Er, Eq. mstep.
    apply returns_keeps, callPull_inv; [done|..].
    + apply safe_emit; [done|]. by apply safe_set_promises, safe_set_requests.
    + intros Hg. apply fulfill_fifo; try done. by apply Hf.
Qed.

(** ** Reading *)

Definition with_hand (d : nat) (c : value) (g : ghost) : ghost :=
  Ghost (g_pull g) (fun i => if decide (i = d) then Some c else g_hand g i)
    (g_starts g) (g_started g) (g_over g) (g_inert g).

#[local] Arguments with_hand : simpl never.

Lemma safe_with_hand d c g s : safe (with_hand d c g) s <-> safe g s.
Proof. split; intros []; by split. Qed.

(** The state in which [read()] has created its promise. *)
Definition reading (s : rs) : rs :=
  set_disturbed true (emit (CalledRead (length (promises s))) (set_promises (promises s ++ [Pending]) s)).

Lemma safe_reading g s : safe g s -> safe g (reading s).
Proof.
  intros Hs. assert (H : safe g (emit (CalledRead (length (promises s))) (set_promises (promises s ++ [Pending]) s))).
  { apply safe_emit; [done|]. by apply safe_set_promises. }
  destruct H. by split.
Qed.

Lemma fresh_hand g s : fifo g s -> g_hand g (length (promises s)) = None.
Proof.
  intros Hf. destruct (g_hand g _) eqn:E; [|done]. apply (ff_hand _ _ Hf) in E.
  apply lookup_lt_Some in E. lia.
Qed.

Lemma lookup_snoc_lt (ds : deferreds) d i : i < length ds -> (ds ++ [d]) !! i = ds !! i.
Proof. apply lookup_app_l. Qed.
Lemma lookup_snoc_eq (ds : deferreds) d : (ds ++ [d]) !! length ds = Some d.
Proof. rewrite lookup_app_r, Nat.sub_diag; done. Qed.

Lemma lookup_snoc_Some (ds : deferreds) d i x : (ds ++ [d]) !! i = Some x ->
  ds !! i = Some x \/ i = length ds /\ x = d.
Proof.
  intros H. destruct (decide (i = length ds)) as [->|Hne].
  - rewrite lookup_snoc_eq in H. right. by injection H.
  - left. rewrite <-H. symmetry. apply lookup_snoc_lt.
    apply lookup_lt_Some in H. rewrite length_app in H. simpl in H. lia.
Qed.

(** A promise that is settled at once, with no chunk. *)
Lemma fifo_settled g s d : fifo g s -> d <> Pending -> ~ is_chunk d ->
  fifo g (set_promises (promises s ++ [d]) (reading s)).
Proof.
  intros Hf Hd Hc. pose proof (fresh_hand g s Hf) as Hh.
  assert (Hat : forall i, delivered_at (g_hand g) (promises s ++ [d]) i = delivered_at (g_hand g) (promises s) i)
    by (intros i; by apply delivered_at_snoc).
  assert (Hdel := delivered_snoc_none (g_hand g) (promises s) d Hh Hc).
  assert (Hacc : accepted (log (reading s)) = accepted (log s)) by (simpl; by rewrite accepted_app, app_nil_r).
  assert (Hrq : requests (set_promises (promises s ++ [d]) (reading s)) = requests s) by done.
  split; rewrite ?Hrq; simpl in *; rewrite ?Hdel, ?Hacc; try apply Hf.
  - intros H1 H2. apply (ff_closed _ _ Hf H1). intros X. apply H2. by apply cancelled_app.
  - intros id Hid. destruct (ff_pending _ _ Hf id Hid) as [Hp ?]. split; [|done].
    rewrite lookup_snoc_lt; [done|by eapply lookup_lt_Some].
  - intros id i. rewrite Hat. apply (ff_later _ _ Hf).
  - intros id v H. apply (ff_hand _ _ Hf) in H. rewrite lookup_snoc_lt; [done|by eapply lookup_lt_Some].
  - intros r x H. destruct (ff_closedp _ _ Hf r x H) as (? & ? & ?). rewrite length_app. simpl. repeat split; [lia|done..].
  - intros id H. apply elem_of_app. left. by apply (ff_called _ _ Hf).
  - intros i H1 H2. apply lookup_snoc_Some in H1 as [H1|[_ H1]]; [by apply (ff_reads _ _ Hf)|congruence].
Qed.

(** A read that waits. *)
Lemma fifo_wait g s r : safe g s -> fifo g s -> reader s = Some r -> state s = Readable -> c_queue (queue s) = [] ->
  fifo g (set_requests r (r_requests (get_reader r s) ++ [length (promises s)]) (reading s)).
Proof.
  intros Hs Hf Hr Hst Hq. pose proof (fresh_hand g s Hf) as Hh.
  set (a := r_requests (get_reader r s) ++ [length (promises s)]).
  assert (Hrq0 : requests s = r_requests (get_reader r s)) by (unfold requests; by rewrite Hr).
  assert (Hv : is_Some (readers s !! r)) by by apply (sf_valid _ _ Hs).
  assert (Hrq : requests (set_requests r a (reading s)) = requests s ++ [length (promises s)]).
  { rewrite Hrq0. unfold requests. simpl. rewrite Hr. by apply (get_set_requests r a s). }
  assert (Hlt : forall id, id ∈ requests s -> id < length (promises s)).
  { intros id H. apply (ff_pending _ _ Hf) in H as [H _]. by eapply lookup_lt_Some. }
  assert (Hc : ~ is_chunk Pending) by by intros [v [=]].
  assert (Hat : forall i, delivered_at (g_hand g) (promises s ++ [Pending]) i = delivered_at (g_hand g) (promises s) i)
    by (intros i; by apply delivered_at_snoc).
  assert (Hdel := delivered_snoc_none (g_hand g) (promises s) Pending Hh Hc).
  assert (Hacc : accepted (log s ++ [CalledRead (length (promises s))]) = accepted (log s)) by (by rewrite accepted_app, app_nil_r).
  split; rewrite ?Hrq; simpl; rewrite ?Hdel, ?Hacc; try apply Hf; try done.
  - congruence.
  - apply StronglySorted_snoc; [apply (ff_sorted _ _ Hf)|]. intros y Hy. by apply Hlt.
  - intros id Hid. apply elem_of_app in Hid as [Hid|Hid].
    + rewrite lookup_snoc_lt by by apply Hlt. by apply (ff_pending _ _ Hf).
    + apply list_elem_of_singleton in Hid as ->. by rewrite lookup_snoc_eq.
  - intros id i Hid Hi. rewrite Hat. apply elem_of_app in Hid as [Hid|Hid]; [by apply (ff_later _ _ Hf id)|].
    apply list_elem_of_singleton in Hid as ->. unfold delivered_at. by rewrite (proj2 (lookup_ge_None _ _)).
  - intros id v H. apply (ff_hand _ _ Hf) in H. rewrite lookup_snoc_lt; [done|by eapply lookup_lt_Some].
  - intros i x' H. apply (lookup_set_requests r a s) in H as (x & Hx & _ & -> & _).
    destruct (ff_closedp _ _ Hf i x Hx) as (H1 & H2 & H3). rewrite length_app. simpl. repeat split; [lia|done|].
    rewrite elem_of_app, list_elem_of_singleton. intros [?|?]; [done|lia].
  - intros id H. rewrite !elem_of_app, !list_elem_of_singleton in *. destruct H as [H| ->]; [|by right].
    left. by apply (ff_called _ _ Hf).
  - intros i H1 H2. rewrite elem_of_app, list_elem_of_singleton.
    apply lookup_snoc_Some in H1 as [H1|[H1 _]]; [|by left; right].
    destruct (ff_reads _ _ Hf i H1 H2) as [H|(r' & x & E1 & E2 & E3 & E4)]; [by left; left|].
    right. exists r', (if decide (r' = r) then mkReader (r_stream x) (r_closed x) a else x).
    repeat split; [done| |by destruct (decide _)|done].
    destruct (decide (r' = r)) as [->|Hn]; [by rewrite list_lookup_alter_eq, E2|by rewrite list_lookup_alter_ne].
Qed.

(** A read that takes the first chunk of the queue. *)
Lemma fifo_take g s chunk size q c :
  fifo g s -> state s = Readable -> c_queue (queue s) = (chunk, size) :: q -> c_queue c = q ->
  (closeRequested s = true -> q <> []) ->
  fifo (with_hand (length (promises s)) chunk g) (set_queue c (reading s)).
Proof.
  intros Hf Hst Hq Hc Hcl. pose proof (fresh_hand g s Hf) as Hh.
  set (d := length (promises s)). set (h := g_hand (with_hand d chunk g)).
  assert (Hrq : requests s = []) by (apply (ff_disjoint _ _ Hf); by rewrite Hq).
  assert (Hrq' : requests (set_queue c (reading s)) = []) by done.
  assert (Hhlt : forall i, i <> d -> h i = g_hand g i) by (intros i Hi; unfold h, with_hand; simpl; by rewrite decide_False).
  assert (Hdel : delivered_with h (promises s ++ [Pending]) = delivered_with (g_hand g) (promises s) ++ [chunk]).
  { rewrite delivered_snoc. f_equal.
    - apply delivered_ext; [done|]. intros i Hi. unfold delivered_at. rewrite Hhlt by (unfold d; lia). done.
    - unfold delivered_at. rewrite lookup_snoc_eq. unfold h, with_hand. simpl. by rewrite decide_True. }
  assert (Hacc : accepted (log s ++ [CalledRead d]) = accepted (log s)) by (by rewrite accepted_app, app_nil_r).
  assert (Hopen : accepted (log s) = delivered_with h (promises s ++ [Pending]) ++ q.*1).
  { rewrite (ff_open _ _ Hf Hst), Hdel, Hq. by rewrite <-app_assoc. }
  split; rewrite ?Hrq'; simpl; fold d h; rewrite ?Hacc, ?Hc; try apply Hf; try done.
  - rewrite Hopen. by eexists.
  - congruence.
  - constructor.
  - intros id H. by apply elem_of_nil in H.
  - intros id i H. by apply elem_of_nil in H.
  - intros id v H. destruct (decide (id = d)) as [->|Hne]; [apply lookup_snoc_eq|].
    apply (ff_hand _ _ Hf) in H. rewrite lookup_snoc_lt; [done|by eapply lookup_lt_Some].
  - intros r x H. destruct (ff_closedp _ _ Hf r x H) as (H1 & H2 & _). rewrite length_app. simpl.
    rewrite decide_False by (unfold d; lia). repeat split; [lia|done|apply not_elem_of_nil].
  - intros id H. by apply elem_of_nil in H.
  - intros i H1 H2. apply lookup_snoc_Some in H1 as [H1|[-> _]].
    2:{ by rewrite decide_True in H2. }
    assert (i <> d) by (apply lookup_lt_Some in H1; unfold d; lia). rewrite decide_False in H2 by done.
    destruct (ff_reads _ _ Hf i H1 H2) as [H'|H']; [|by right]. rewrite Hrq in H'. by apply elem_of_nil in H'.
Qed.

(** Resolving the promise of a chunk in hand. *)
Lemma hand_done g s d chunk : (g_inert g = true -> g_hand g d = None) ->
  inv (with_hand d chunk g) s -> inv g (chunkSteps d chunk s).
Proof.
  intros Hd [Hs Hf]. split; [apply safe_set_promises, (proj1 (safe_with_hand d chunk g s) Hs)|].
  intros Hg. destruct (Hf Hg) as [Hff Hdm]. specialize (Hd Hg). split; [|by apply (demand_same s)].
  set (h := g_hand (with_hand d chunk g)) in *.
  assert (Hp : promises s !! d = Some Pending).
  { apply (ff_hand _ _ Hff d chunk). unfold with_hand. simpl. by rewrite decide_True. }
  set (ds' := deferred_resolve d (RResult chunk false) (promises s)).
  assert (Hds : forall i, ds' !! i = if decide (i = d) then Some (Resolved (RResult chunk false)) else promises s !! i).
  { intros i. unfold ds', deferred_resolve. rewrite lookup_deferred_settle.
    destruct (decide (i = d)) as [->|Hne]; [by rewrite bool_decide_eq_true_2|]. by rewrite bool_decide_eq_false_2 by tauto. }
  assert (Hhlt : forall i, i <> d -> h i = g_hand g i) by (intros i Hi; unfold h, with_hand; simpl; by rewrite decide_False).
  assert (Hhd : h d = Some chunk) by (unfold h, with_hand; simpl; by rewrite decide_True).
  assert (Hat : forall i, delivered_at (g_hand g) ds' i = delivered_at h (promises s) i).
  { intros i. unfold delivered_at. rewrite Hds. destruct (decide (i = d)) as [->|Hne]; [by rewrite Hp, Hhd|].
    by rewrite Hhlt. }
  assert (Hdel : delivered_with (g_hand g) ds' = delivered_with h (promises s)).
  { apply delivered_ext; [apply length_deferred_settle|]. auto. }
  assert (Hrq : requests (chunkSteps d chunk s) = requests s) by done.
  split; rewrite ?Hrq; simpl; fold ds'; rewrite ?Hdel; try apply Hff.
  - intros id Hid. destruct (ff_pending _ _ Hff id Hid) as [H1 H2]. fold h in H2.
    assert (id <> d) by congruence. rewrite Hds, decide_False, <-Hhlt by done. done.
  - intros id i. rewrite Hat. apply (ff_later _ _ Hff).
  - intros id v H. assert (id <> d) by congruence. rewrite Hds, decide_False by done.
    apply (ff_hand _ _ Hff id v). fold h. by rewrite Hhlt.
  - intros r x H. destruct (ff_closedp _ _ Hff r x H) as (H1 & H2 & H3). fold h in H2.
    assert (r_closed x <> d) by congruence. unfold ds', deferred_resolve. rewrite length_deferred_settle.
    rewrite <-Hhlt by done. done.
  - intros i H1 H2. rewrite Hds in H1. destruct (decide (i = d)) as [->|Hne]; [done|].
    apply (ff_reads _ _ Hff); [done|]. fold h. by rewrite Hhlt.
Qed.

Lemma attached g s r : safe g s -> r_stream (get_reader r s) = true -> reader s = Some r.
Proof.
  intros Hs H. unfold get_reader in H. destruct (readers s !! r) as [x|] eqn:E; [|done].
  by apply (sf_reader _ _ Hs r x E).
Qed.

Lemma inv_reading g s : safe g s -> demand s -> demand (reading s).
Proof. intros Hs Hd. by apply (demand_frame s _ [CalledRead (length (promises s))]). Qed.

(** The promise settles before anything else happens. *)
Lemma settle_reading d s : d <> Pending -> deferred_settle (length (promises s)) d (promises (reading s)) = promises s ++ [d].
Proof.
  intros Hd. simpl. unfold deferred_settle. rewrite lookup_snoc_eq.
  by rewrite insert_app_r_alt, Nat.sub_diag by lia.
Qed.

Lemma inv_settled g s d : inv g s -> d <> Pending -> ~ is_chunk d ->
  inv g (set_promises (deferred_settle (length (promises s)) d (promises (reading s))) (reading s)).
Proof.
  intros [Hs Hf] Hd Hc. rewrite settle_reading by done. split.
  - apply safe_set_promises. by apply safe_reading.
  - intros Hg. destruct (Hf Hg). split; [by apply fifo_settled|].
    apply (demand_same (reading s)); try done. by apply (inv_reading g).
Qed.

(** The last chunk of a stream that was asked to close. *)
Lemma take_last g s chunk size c ds :
  inv g s -> state s = Readable -> c_queue (queue s) = [(chunk, size)] -> c_queue c = [] -> container_ok c ->
  settles (at_end s) (promises (reading s)) ds ->
  inv (with_hand (length (promises s)) chunk g)
    (ended Closed ds (readableStreamDefaultControllerClearAlgorithms (set_queue c (reading s)))).
Proof.
  intros [Hs Hf] Hst Hq Hc Hok Hse. set (d := length (promises s)). set (s1 := set_queue c (reading s)).
  assert (E : ended Closed ds (readableStreamDefaultControllerClearAlgorithms s1) =
              readableStreamDefaultControllerClearAlgorithms (ended Closed ds s1)).
  { unfold ended. simpl. by destruct (reader s). }
  assert (Hs1 : safe (with_hand d chunk g) s1).
  { apply safe_with_hand. apply safe_set_queue; [done|]. by apply safe_reading. }
  rewrite E. split.
  - apply safe_clear; [by rewrite (proj1 (ended_frame Closed ds s1))|]. by apply safe_ended.
  - intros Hg. destruct (Hf Hg) as [Hff _]. set (s2 := set_closeRequested false s1).
    assert (Hf2 : fifo (with_hand d chunk g) s2).
    { assert (X : fifo (with_hand d chunk g) (set_queue c (reading (set_closeRequested false s)))).
      { apply (fifo_take g (set_closeRequested false s) chunk size []); try done. destruct Hff. split; try done. }
      exact X. }
    assert (Hs2 : safe (with_hand d chunk g) s2) by (destruct Hs1; by split).
    apply (fifo_demand_ended _ s2 _ Closed ds); try done; simpl; try apply (ended_frame Closed ds s1).
    + unfold s2, s1, ended. simpl. by destruct (reader s).
    + unfold s2, s1, ended. simpl. by destruct (reader s).
    + f_equal. apply (ended_frame Closed ds s1).
Qed.

Lemma read_inv g r s : inv g s -> keeps g (reader_read user r s).
Proof.
  intros Hi. pose proof Hi as [Hs Hf]. unfold reader_read. mstep.
  destruct (r_stream (get_reader r s)) eqn:Hr; [|by split]. mstep.
  pose proof (attached g s r Hs Hr) as Hrd. set (d := length (promises s)).
  unfold bind at 1. unfold new_deferred. fold d.
  unfold readableStreamDefaultReaderRead. mstep. massert by done. mstep.
  change (set_disturbed true _) with (reading s).
  change (state (reading s)) with (state s). destruct (state s) eqn:Hst.
  - unfold pullSteps. mstep. change (queue (reading s)) with (queue s). case_bool_decide as Hq.
    + destruct (c_queue (queue s)) as [|[chunk size] q] eqn:Eq; [done|].
      destruct (dequeueValue (queue s)) as [c rr] eqn:Ed. 
      assert (Hc : c_queue c = q /\ rr = Ret chunk) by (unfold dequeueValue in Ed; rewrite Eq in Ed; by simplify_eq).
      destruct Hc as [Hc ->].
      assert (Hok : container_ok c).
      { pose proof (dequeueValue_ok _ (sf_queue _ _ Hs)) as X. by rewrite Ed in X. }
      mstep. rewrite (bind_eq dequeue_value _ (reading s) (set_queue c (reading s)) chunk) by
        (unfold dequeue_value; change (queue (reading s)) with (queue s); by rewrite Ed).
      mstep. change (closeRequested (set_queue c (reading s))) with (closeRequested s).
      change (queue (set_queue c (reading s))) with c. rewrite Hc.
      assert (Hfresh : g_inert g = true -> g_hand g d = None) by (intros Hg; apply fresh_hand; by apply Hf).
      destruct (closeRequested s && bool_decide (q = [])) eqn:Ecl.
      * apply andb_true_iff in Ecl as [_ Eq0]. apply bool_decide_eq_true in Eq0. subst q. mstep.
        destruct (close_eq (readableStreamDefaultControllerClearAlgorithms (set_queue c (reading s)))
          (sf_valid _ _ (safe_reading _ _ Hs)) Hst) as (ds & Ecs & Hse).
        rewrite (bind_eq _ _ _ _ _ Ecs). mstep. split; [|done]. simpl.
        apply hand_done; [done|]. eapply take_last; try done. by rewrite Eq, Eq0.
      * assert (Hp : returns (with_hand d chunk g)
                  (readableStreamDefaultControllerCallPullIfNeeded user (set_queue c (reading s)))).
        { apply callPull_inv; [done| |].
          - apply safe_with_hand. apply safe_set_queue; [done|]. by apply safe_reading.
          - intros Hg. apply (fifo_take g s chunk size q); try done; [by apply Hf|].
            intros X. rewrite X in Ecl. by apply bool_decide_eq_false in Ecl. }
        destruct Hp as [Hp1 Hp2]. destruct (readableStreamDefaultControllerCallPullIfNeeded user _) as [s2 r2] eqn:E2.
        simpl in Hp1, Hp2. subst r2. rewrite (bind_eq _ _ _ _ _ E2). mstep.
        split; [|done]. simpl. by apply hand_done.
    + mstep. unfold readableStreamAddReadRequest. mstep. unfold readableStreamHasDefaultReader.
      change (reader (reading s)) with (reader s). rewrite Hrd. massert by done. mstep.
      massert by (apply bool_decide_eq_true; exact Hst). mstep. change (reader (reading s)) with (reader s). rewrite Hrd.
      change (get_reader r (reading s)) with (get_reader r s).
      set (s1 := set_requests r _ (reading s)).
      assert (Hp : returns g (readableStreamDefaultControllerCallPullIfNeeded user s1)).
      { apply callPull_inv; [done| |].
        - apply safe_set_requests; [by apply safe_reading|done|done].
        - intros Hg. apply fifo_wait; try done. by apply Hf. }
      destruct Hp as [Hp1 Hp2]. destruct (readableStreamDefaultControllerCallPullIfNeeded user s1) as [s2 r2] eqn:E2.
      simpl in Hp1, Hp2. subst r2. rewrite (bind_eq _ _ _ _ _ E2). by split.
  - mstep. split; [|done]. simpl. apply (inv_settled g s); [done..|]. by intros [v [=]].
  - mstep. split; [|done]. simpl. apply (inv_settled g s); [done..|]. by intros [v [=]].
Qed.

(** ** Cancelling *)

Definition with_over (b : bool) (g : ghost) : ghost :=
  Ghost (g_pull g) (g_hand g) (g_starts g) (g_started g) b (g_inert g).

Lemma inv_set_disturbed g s b : inv g s -> inv g (set_disturbed b s).
Proof.
  intros [Hs Hf]. split; [by destruct Hs; split|]. intros Hg. destruct (Hf Hg).
  split; [by apply (fifo_same g s)|by apply (demand_same s)].
Qed.

Lemma inv_clear g s : state s <> Readable -> inv g s -> inv g (readableStreamDefaultControllerClearAlgorithms s).
Proof.
  intros Hst [Hs Hf]. split; [by apply safe_clear|]. intros Hg. destruct (Hf Hg).
  split; [by apply (fifo_same g s)|by apply (demand_same s)].
Qed.

Lemma cancel_inv g reason s : inv g s -> keeps g (readableStreamCancel user reason s).
Proof.
  intros Hi. unfold readableStreamCancel. mstep. apply (inv_set_disturbed g s true) in Hi.
  set (s0 := set_disturbed true s) in *. pose proof Hi as [Hs Hf].
  destruct (state s0) eqn:Hst; [|by split|by mstep; split].
  destruct (close_eq s0 (sf_valid _ _ Hs) Hst) as (ds & Ec & Hse). rewrite (bind_eq _ _ _ _ _ Ec).
  unfold cancelSteps. mstep.
  replace (cancelAlgorithm _) with true.
  2:{ destruct (sf_algos _ _ Hs Hst) as (_ & X & _). unfold ended. destruct (reader s0); symmetry; exact X. }
  set (s1 := set_queue resetQueue (ended Closed ds s0)).
  assert (Hst1 : state s1 = Closed) by apply (ended_frame Closed ds s0).
  assert (Hi1 : inv (with_over true g) (emit (CalledCancel reason) s1)).
  { split.
    - apply safe_emit; [done|]. assert (X : safe g s1) by (apply safe_set_queue; [apply resetQueue_ok|by apply safe_ended]).
      destruct X. split; try done. intros _ Z. change (state s1 = Readable) in Z. congruence.
    - intros Hg. destruct (Hf Hg) as [Hff Hd].
      destruct (fifo_demand_ended g s0 (emit (CalledCancel reason) s1) Closed ds) as [X Y]; try done; simpl.
      + apply (ended_frame Closed ds s0).
      + apply (ended_frame Closed ds s0).
      + rewrite accepted_app, app_nil_r. f_equal. apply (ended_frame Closed ds s0).
      + intros _ Z. destruct Z. exists reason. apply elem_of_app. right. by apply list_elem_of_singleton.
      + split; [|done]. destruct X. by split. }
  destruct (invoke_inv user user_inv _ _ _ Hi1) as [Hi2 Hr2].
  destruct (invoke user (CalledCancel reason) s1) as [s2 r2] eqn:E2. simpl in Hi2, Hr2. subst r2.
  rewrite (bind_eq _ _ _ _ _ E2). mstep. split; [|done]. simpl.
  apply inv_clear; [by apply (sf_over _ _ (proj1 Hi2))|].
  destruct Hi2 as [Hs2 Hf2]. pose proof (sf_over _ _ Hs2 eq_refl) as Hne.
  split; [destruct Hs2; by split|]. intros Hg. destruct (Hf2 Hg) as [X Y]. split; [|done]. destruct X. by split.
Qed.

(** ** Acquiring and releasing readers *)

Lemma getReader_inv g s : inv g s -> keeps g (setUpReadableStreamDefaultReader s).
Proof.
  intros Hi. pose proof Hi as [Hs Hf]. unfold setUpReadableStreamDefaultReader, isReadableStreamLocked. mstep.
  case_bool_decide as Hl; [by split|].
  unfold readableStreamReaderGenericInitialize. mstep. unfold bind at 1, new_deferred. mstep.
  set (d := length (promises s)). set (x := match state s with
    | Readable => Pending | Closed => Resolved RUndefined | Errored => Rejected (storedError s) end).
  set (s' := set_promises (promises s ++ [x]) (set_reader (Some (length (readers s)))
               (set_readers (readers s ++ [mkReader true d []]) s))).
  match goal with |- keeps g (bind ?m ?k ?s1) =>
    assert (E : m s1 = (s', Ret tt)) end.
  { unfold s', x. destruct (state s); simpl; unfold mret, modify, resolve, reject, deferred_resolve, deferred_reject; simpl.
    - done.
    - f_equal. unfold deferred_settle, d. rewrite lookup_snoc_eq. by rewrite insert_app_r_alt, Nat.sub_diag by lia.
    - f_equal. unfold deferred_settle, d. rewrite lookup_snoc_eq. by rewrite insert_app_r_alt, Nat.sub_diag by lia. }
  rewrite (bind_eq _ _ _ _ _ E). split; [|done]. simpl. clear E.
  assert (Hlk : forall r y, readers s' !! r = Some y ->
    readers s !! r = Some y \/ r = length (readers s) /\ y = mkReader true d []).
  { intros r y H. simpl in H. apply lookup_app_Some in H as [H|[H1 H2]]; [by left|].
    right. apply list_lookup_singleton_Some in H2 as [? <-]. split; [lia|done]. }
  assert (Hrq : requests s' = []).
  { unfold requests, get_reader. simpl. by rewrite lookup_app_r, Nat.sub_diag. }
  assert (Hrq0 : requests s = []) by (unfold requests; by rewrite Hl).
  split.
  - split; simpl; try apply Hs; try done.
    + intros r y H. destruct (Hlk r y H) as [H'|[-> ->]].
      * split; intros X.
        -- apply (sf_reader _ _ Hs r y H') in X. congruence.
        -- injection X as <-. apply lookup_lt_Some in H'. lia.
      * by simpl.
    + intros r [= <-]. rewrite lookup_app_r, Nat.sub_diag by done. by eexists.
    + intros r y H Hst. destruct (Hlk r y H) as [H'|[-> ->]]; [|done]. by apply (sf_idle _ _ Hs r y).
  - intros Hg. destruct (Hf Hg) as [Hff _]. split; [|by apply demand_none].
    pose proof (fresh_hand g s Hff) as Hh. fold d in Hh.
    assert (Hc : ~ is_chunk x) by (unfold x; destruct (state s); by intros [v [=]]).
    pose proof (delivered_snoc_none (g_hand g) (promises s) x Hh Hc) as Hdel.
    split; rewrite ?Hrq; simpl; rewrite ?Hdel; try apply Hff; try done.
    + constructor.
    + intros id H. by apply elem_of_nil in H.
    + intros id i H. by apply elem_of_nil in H.
    + intros id v H. apply (ff_hand _ _ Hff) in H. rewrite lookup_snoc_lt; [done|by eapply lookup_lt_Some].
    + intros r y H. rewrite length_app. simpl. destruct (Hlk r y H) as [H'|[-> ->]].
      * destruct (ff_closedp _ _ Hff r y H') as (? & ? & _). repeat split; [lia|done|apply not_elem_of_nil].
      * simpl. fold d. repeat split; [lia|done|apply not_elem_of_nil].
    + intros id H. by apply elem_of_nil in H.
    + intros i H1 H2. right. exists (length (readers s)), (mkReader true d []).
      apply lookup_snoc_Some in H1 as [H1|[-> H1]].
      * destruct (ff_reads _ _ Hff i H1 H2) as [H|(r & y & X & _)]; [|congruence].
        rewrite Hrq0 in H. by apply elem_of_nil in H.
      * rewrite lookup_app_r, Nat.sub_diag by done. repeat split; try done. unfold x in H1. by destruct (state s).
Qed.

(** The state after the reader [r] was released, with the promises [ds] and
    the closed promise [cl] of the reader. *)
Definition released (r : nat) (ds : deferreds) (cl : nat) (s : rs) : rs :=
  set_promises ds (set_readers (alter (fun _ => mkReader false cl []) r (readers s)) (set_reader None s)).

Lemma release_eq g s r : safe g s -> reader s = Some r ->
  exists ds cl, readableStreamDefaultReaderRelease r s = (released r ds cl s, Ret tt) /\
    (state s = Readable /\ cl = r_closed (get_reader r s) /\ settles (at_end s) (promises s) ds \/
     state s <> Readable /\ cl = length (promises s) /\ exists e, ds = promises s ++ [Rejected e]).
Proof.
  intros Hs Hr. destruct (sf_valid _ _ Hs _ Hr) as [x Hx].
  assert (Hgx : get_reader r s = x) by by apply get_reader_lookup.
  assert (Hstr : r_stream (get_reader r s) = true) by (rewrite Hgx; by apply (sf_reader _ _ Hs r x Hx)).
  unfold readableStreamDefaultReaderRelease, readableStreamReaderGenericRelease. mstep.
  massert by done. mstep. massert by (by apply bool_decide_eq_true). mstep.
  assert (Hdr : forall e s1, r_requests (get_reader r s1) = [] ->
    readableStreamDefaultReaderErrorReadRequests r e s1 = s1).
  { intros e s1 H. unfold readableStreamDefaultReaderErrorReadRequests. by rewrite H. }
  case_bool_decide as Hst.
  - exists (settle_all (Rejected (TypeErr "The reader was released.")) (requests s)
             (deferred_reject (r_closed x) releasedError (promises s))), (r_closed x).
    split.
    + mstep. unfold modify, readableStreamDefaultReaderErrorReadRequests. f_equal. match goal with |- drain r _ (r_requests (get_reader r ?s1)) _ = _ => set (s2 := s1) end.
      assert (Hg2 : get_reader r s2 = mkReader false (r_closed x) (r_requests x)).
      { unfold s2, get_reader. simpl. rewrite list_lookup_alter_eq, Hx. done. }
      rewrite (drain_eq r (Rejected (TypeErr "The reader was released."))); [|done|done|].
      2:{ unfold s2. simpl. rewrite list_lookup_alter_eq, Hx. by eexists. }
      rewrite Hg2. simpl. unfold released, set_requests, s2. simpl. rewrite Hgx.
      unfold requests. rewrite Hr, Hgx. unfold set_promises, set_readers. simpl. f_equal.
      apply list_eq. intros i. destruct (decide (i = r)) as [->|Hne].
      * rewrite !list_lookup_alter_eq, Hx. done.
      * by rewrite !list_lookup_alter_ne.
    + left. split; [done|]. rewrite Hgx. split; [done|]. unfold at_end. rewrite Hr, Hgx.
      assert (E : settles ([r_closed x] ++ requests s) (promises s)
        (settle_all (Rejected (TypeErr "The reader was released.")) (requests s)
          (deferred_reject (r_closed x) releasedError (promises s)))).
      { eapply settles_trans.
        - apply (settles_one _ (Rejected releasedError)); [done|by intros [v [=]]].
        - apply (settle_all_settles (Rejected _)); [done|by intros [v [=]]]. }
      destruct E as [L O D I]. split; try done.
      * intros i Hi. apply O. rewrite elem_of_app in *. tauto.
      * intros i d Hi. apply I. rewrite elem_of_app in *. tauto.
  - exists (promises s ++ [Rejected releasedError]), (length (promises s)). split.
    + mstep. unfold modify, new_deferred. cbv beta iota.
      assert (Hrq : r_requests x = []).
      { pose proof (sf_requests _ _ Hs Hst) as X. unfold requests in X. by rewrite Hr, Hgx in X. }
      rewrite Hdr.
      2:{ unfold get_reader. simpl. rewrite !list_lookup_alter_eq, Hx. done. }
      f_equal. unfold released, set_stream, reject, set_closed, set_promises, set_readers. simpl.
      f_equal.
      * apply list_eq. intros i. destruct (decide (i = r)) as [->|Hne].
        -- rewrite !list_lookup_alter_eq, Hx. simpl. by rewrite Hrq.
        -- by rewrite !list_lookup_alter_ne.
      * unfold deferred_reject, deferred_settle. rewrite lookup_snoc_eq. by rewrite insert_app_r_alt, Nat.sub_diag by lia.
    + right. split; [done|]. split; [done|]. by eexists.
Qed.

Lemma release_inv g s r : inv g s -> reader s = Some r -> returns g (readableStreamDefaultReaderRelease r s).
Proof.
  intros [Hs Hf] Hr. destruct (release_eq g s r Hs Hr) as (ds & cl & -> & Hcases). split; [|done]. simpl.
  destruct (sf_valid _ _ Hs _ Hr) as [x Hx].
  assert (Hlk : forall i y, readers (released r ds cl s) !! i = Some y ->
    i = r /\ y = mkReader false cl [] \/ i <> r /\ readers s !! i = Some y).
  { intros i y H. simpl in H. destruct (decide (i = r)) as [->|Hne].
    - rewrite list_lookup_alter_eq, Hx in H. injection H as <-. by left.
    - rewrite list_lookup_alter_ne in H by done. by right. }
  assert (Hrq : requests (released r ds cl s) = []) by done.
  split.
  - split; simpl; try apply Hs; try done.
    + intros i y H. destruct (Hlk i y H) as [[-> ->]|[Hne H']]; [by simpl|].
      split; [|done]. intros X. apply (sf_reader _ _ Hs i y H') in X. congruence.
    + intros i y H Hst. destruct (Hlk i y H) as [[-> ->]|[Hne H']]; [done|]. by apply (sf_idle _ _ Hs i y).
  - intros Hg. destruct (Hf Hg) as [Hff _]. split; [|by apply demand_none].
    pose proof (fresh_hand g s Hff) as Hh. pose proof (get_reader_lookup _ _ _ Hx) as Hgx.
    assert (Hnone : forall j, j ∈ at_end s -> g_hand g j = None).
    { unfold at_end. rewrite Hr, Hgx. intros j Hj. apply elem_of_app in Hj as [Hj|Hj]; [by apply (ff_pending _ _ Hff)|].
      apply list_elem_of_singleton in Hj as ->. by apply (ff_closedp _ _ Hff r x). }
    assert (Hdel : delivered_with (g_hand g) ds = delivered_with (g_hand g) (promises s)).
    { destruct Hcases as [(_ & _ & Hse)|(_ & _ & e & ->)]; [by eapply delivered_settles|].
      apply delivered_snoc_none; [done|by intros [v [=]]]. }
    assert (Hcl : cl < length ds /\ g_hand g cl = None /\ length (promises s) <= length ds).
    { destruct Hcases as [(_ & -> & Hse)|(_ & -> & e & ->)].
      - rewrite Hgx, (st_length _ _ _ Hse). destruct (ff_closedp _ _ Hff r x Hx) as (? & ? & _). done.
      - rewrite length_app. simpl. repeat split; [lia|done|lia]. }
    split; rewrite ?Hrq; simpl; rewrite ?Hdel; try apply Hff; try done.
    + constructor.
    + intros id H. by apply elem_of_nil in H.
    + intros id i H. by apply elem_of_nil in H.
    + intros id v H. pose proof (ff_hand _ _ Hff id v H) as Hp.
      destruct Hcases as [(_ & _ & Hse)|(_ & _ & e & ->)].
      * rewrite (st_other _ _ _ Hse); [done|]. intros X. apply Hnone in X. congruence.
      * rewrite lookup_snoc_lt; [done|by eapply lookup_lt_Some].
    + intros i y H. destruct (Hlk i y H) as [[-> ->]|[Hne H']]; simpl.
      * destruct Hcl as (? & ? & _). repeat split; [done..|apply not_elem_of_nil].
      * destruct (ff_closedp _ _ Hff i y H') as (? & ? & _). repeat split; [lia|done|apply not_elem_of_nil].
    + intros id H. by apply elem_of_nil in H.
    + intros i H1 H2. exfalso. destruct Hcases as [(Hst & _ & Hse)|(Hst & _ & e & ->)].
      * assert (Hp : promises s !! i = Some Pending).
        { destruct (decide (promises s !! i = Some Pending)) as [|X]; [done|]. by rewrite <-(st_done _ _ _ Hse i X). }
        assert (Hin : i ∈ at_end s).
        { unfold at_end. rewrite Hr, Hgx. apply elem_of_app.
          destruct (ff_reads _ _ Hff i Hp H2) as [H|(r' & y & E1 & E2 & E3 & _)]; [by left|].
          right. apply list_elem_of_singleton. congruence. }
        by destruct (st_ids _ _ _ Hse i Pending Hin Hp H1).
      * apply lookup_snoc_Some in H1 as [H1|[_ H1]]; [|done].
        destruct (ff_reads _ _ Hff i H1 H2) as [H|(r' & y & _ & _ & _ & ?)]; [|done].
        rewrite (sf_requests _ _ Hs Hst) in H. by apply elem_of_nil in H.
Qed.

(** ** Operations of user code *)

Lemma keeps_void {A} g (m : M rs A) s : keeps g (m s) -> keeps g ((do! m; mret tt) s).
Proof. intros H. apply keeps_bind; [done|]. by intros a s' Hi _. Qed.

Lemma run_op_inv g o s : inv g s -> keeps g (run_op user o s).
Proof.
  intros Hi. destruct o as [chunk| |e| | |reason|r|r|r reason]; simpl.
  - unfold controller_enqueue. mstep. destruct (readableStreamDefaultControllerCanCloseOrEnqueue s); [|by split].
    by apply controllerEnqueue_inv.
  - unfold controller_close. mstep. destruct (readableStreamDefaultControllerCanCloseOrEnqueue s); [|by split].
    by apply returns_keeps, controllerClose_inv.
  - by apply returns_keeps, error_inv.
  - by apply keeps_void, getReader_inv.
  - apply keeps_void. unfold setUpReadableStreamBYOBReader. mstep. by destruct (isReadableStreamLocked s).
  - apply keeps_void. unfold stream_cancel. mstep. destruct (isReadableStreamLocked s); [by split|]. by apply cancel_inv.
  - by apply keeps_void, read_inv.
  - unfold reader_releaseLock. mstep. destruct (r_stream (get_reader r s)) eqn:E; [|by split].
    apply returns_keeps, release_inv; [done|]. apply (attached g); [apply Hi|done].
  - apply keeps_void. unfold reader_cancel. mstep. destruct (r_stream (get_reader r s)); [|by split]. by apply cancel_inv.
Qed.

Lemma act_inv g o s : inv g s -> inv g (act user o s).
Proof.
  intros Hi. destruct (run_op_inv g o s Hi) as [H1 H2]. unfold act.
  destruct (run_op user o s) as [s' [a|e]]; simpl in *; [done|].
  apply inv_emit; [split; congruence|done..].
Qed.

Lemma run_acts_inv g acts s : inv g s -> inv g (run_acts user acts s).
Proof. unfold run_acts. revert s. induction acts as [|o acts IH]; intros s Hi; [done|]. by apply IH, act_inv. Qed.

(** A stream that is over stays over. *)
Lemma inv_over g s : inv g s -> state s <> Readable -> inv (with_over true g) s.
Proof.
  intros [Hs Hf] Hst. split; [by destruct Hs; split|]. intros Hg. destruct (Hf Hg) as [X Y]. split; [|done].
  destruct X. by split.
Qed.

Lemma act_over g o s : inv g s -> state s <> Readable -> state (act user o s) <> Readable.
Proof.
  intros Hi Hst. pose proof (act_inv _ o _ (inv_over g s Hi Hst)) as [X _]. by apply (sf_over _ _ X).
Qed.

(** ** Reactions *)

(** The ghost between two events. *)
Definition top (starts : nat) (b inert : bool) : ghost := Ghost false (fun _ => None) starts b false inert.

Definition inv_top (inert : bool) (s : rs) : Prop :=
  exists starts b, inv (top starts b inert) s /\
    (starts = 0 /\ (b = true \/ state s <> Readable) \/ starts = 1 /\ b = false).

Lemma count_delete j k l : l !! k = Some j -> S (count j (delete k l)) = count j l.
Proof.
  intros H. rewrite <-(take_drop_middle l k j H) at 2. rewrite delete_take_drop.
  unfold count. rewrite !filter_app, filter_cons_True, !length_app by done. simpl. lia.
Qed.

Lemma count_delete_ne j j' k l : l !! k = Some j -> j <> j' -> count j' (delete k l) = count j' l.
Proof.
  intros H Hne. rewrite <-(take_drop_middle l k j H) at 2. rewrite delete_take_drop.
  unfold count. by rewrite !filter_app, filter_cons_False, !length_app.
Qed.

Lemma fifo_set_jobs g s l : fifo g s /\ demand s -> fifo g (set_jobs l s) /\ demand (set_jobs l s).
Proof. intros []. split; [by apply (fifo_same g s)|by apply (demand_same s)]. Qed.

Lemma pull_job_inv g k s r : g_pull g = false -> inv g s -> jobs s !! k = Some JPull ->
  inv g (run_job user JPull r (set_jobs (delete k (jobs s)) s)).
Proof.
  intros Hgp [Hs Hf] Hk. set (s1 := set_jobs _ s).
  pose proof (count_delete _ _ _ Hk) as Hc. pose proof (count_delete_ne _ JStart _ _ Hk ltac:(done)) as Hc'.
  pose proof (sf_pulls _ _ Hs) as Hp. rewrite Hgp in Hp. simpl in Hp.
  assert (Hf1 : g_inert g = true -> fifo g s1 /\ demand s1) by (intros Hg; by apply fifo_set_jobs, Hf).
  unfold run_job. destruct r as [u|e].
  - unfold pull_fulfilled. mstep. set (s2 := set_pulling false s1).
    assert (Hp0 : count JPull (jobs s1) = 0) by (simpl; destruct (pulling s); simpl in Hp; lia).
    change (pullAgain s2) with (pullAgain s1).
    assert (Hs2 : safe g (set_pullAgain false s2)).
    { simpl in Hp0. split; simpl; try apply Hs; try done; rewrite ?Hp0, ?Hgp; try done. rewrite Hc'. apply Hs. }
    destruct (pullAgain s1) eqn:Ea.
    + mstep. destruct (callPull_inv user user_inv g (set_pullAgain false s2)) as [X Y]; [done|..].
      * intros Hg. destruct (Hf1 Hg). by apply (fifo_same g s1).
      * destruct (readableStreamDefaultControllerCallPullIfNeeded user _) as [s3 r3]. simpl in X, Y. by subst r3.
    + simpl. split.
      * replace s2 with (set_pullAgain false s2); [done|]. unfold s2, set_pullAgain. simpl.
        change (pullAgain s1) with (pullAgain s) in Ea. rewrite <-Ea. by destruct s.
      * intros Hg. destruct (Hf1 Hg). split; [by apply (fifo_same g s1)|by apply (demand_same s1)].
  - unfold pull_rejected. destruct (error_inv (with_pull true g) e s1) as [[X Y] Z].
    + split; [|intros Hg; destruct (Hf1 Hg); split; [by apply fifo_with_pull|done]].
      split; simpl; try apply Hs; [| |rewrite Hc'; apply Hs]; destruct (pulling s); simpl in *; lia.
    + destruct (readableStreamDefaultControllerError e s1) as [s3 r3]. simpl in X, Y, Z. subst r3.
      destruct X as [Hs3 Hf3]. split.
      * pose proof (sf_pulls _ _ Hs3) as Q. simpl in Q.
        split; try apply Hs3; [rewrite Hgp; simpl; lia|]. intros W. by destruct Z.
      * intros Hg. destruct (Hf3 Hg) as [F D]. split; [exact (proj1 (fifo_with_pull _ _ _) F)|done].
Qed.

Lemma start_job_inv inert k s r : inv (top 1 false inert) s -> jobs s !! k = Some JStart ->
  inv_top inert (run_job user JStart r (set_jobs (delete k (jobs s)) s)).
Proof.
  intros [Hs Hf] Hk. set (g := top 1 false inert) in *. set (s1 := set_jobs _ s).
  pose proof (count_delete _ _ _ Hk) as Hc. pose proof (count_delete_ne _ JPull _ _ Hk ltac:(done)) as Hc'.
  pose proof (sf_starts _ _ Hs) as Hss. simpl in Hss.
  assert (Hs1 : safe (top 0 false inert) s1).
  { destruct Hs. split; simpl in *; try done; [by rewrite Hc'|by rewrite Hc'|lia]. }
  assert (Hf1 : inert = true -> fifo (top 0 false inert) s1 /\ demand s1).
  { intros Hg. apply fifo_set_jobs. destruct (Hf Hg) as [X Y]. split; [|done]. by destruct X; split. }
  pose proof (sf_started _ _ Hs1) as Hst. simpl in Hst. change (started s1) with (started s) in Hst.
  pose proof (sf_notyet _ _ Hs1 Hst) as Hp. pose proof (sf_again _ _ Hs1 Hp) as Ha.
  unfold run_job. destruct r as [u|e].
  - exists 0, true. split; [|by left; auto]. unfold start_fulfilled. mstep. massert by (simpl in *; by rewrite Hp). mstep.
    massert by (simpl in *; by rewrite Ha).
    destruct (callPull_inv user user_inv (top 0 true inert) (set_started true s1)) as [X Y].
    + destruct Hs1. split; try done.
    + intros Hg. destruct (Hf1 Hg) as [X _]. destruct X. by split.
    + destruct (readableStreamDefaultControllerCallPullIfNeeded user _) as [s3 r3]. simpl in X, Y. by subst r3.
  - exists 0, false. unfold start_rejected. destruct (error_inv (top 0 false inert) e s1) as [[X Y] Z]; [done|].
    destruct (readableStreamDefaultControllerError e s1) as [s3 r3]. simpl in X, Y, Z. subst r3. auto.
Qed.

Lemma run_event_inv inert e s : inv_top inert s -> inv_top inert (run_event user e s).
Proof.
  intros (n & b & Hi & Hn). destruct e as [o|k r]; simpl.
  - exists n, b. split; [by apply act_inv|]. destruct Hn as [[-> [->|Hst]]|?]; [by left; auto| |by right].
    left. split; [done|]. right. by apply (act_over (top 0 b inert)).
  - destruct (jobs s !! k) as [[]|] eqn:E; [| |by exists n, b].
    + destruct Hn as [[-> _]|[-> ->]]; [|by apply start_job_inv].
      exfalso. pose proof (sf_starts _ _ (proj1 Hi)) as X. simpl in X. pose proof (count_delete _ _ _ E). lia.
    + exists n, b. split; [by apply pull_job_inv|]. destruct Hn as [[-> [->|Hst]]|?]; [by left; auto| |by right].
      left. split; [done|]. right.
      pose proof (pull_job_inv (with_over true (top 0 b inert)) k s r eq_refl (inv_over _ s Hi Hst) E) as [X _].
      by apply (sf_over _ _ X).
Qed.
End Operations.

(** ** Runs *)

Lemma exec_nil n s : exec n [] s = s.
Proof. by destruct n. Qed.

Lemma exec_inv n g acts s : inv g s -> inv g (exec n acts s).
Proof.
  revert g acts s. induction n as [|n IH]; intros g acts s Hi; [done|].
  apply run_acts_inv; [done|apply exec_nil|done].
Qed.

(** The callbacks do not throw the code's own assertion errors, and the size
    callback is inert when [inert] asks for it. *)
Definition scripts_ok (inert : bool) (sizes : list (list op * result num)) : Prop :=
  Forall (fun x => x.2 <> Raise AssertionErr) sizes /\
  (inert = true -> Forall (fun x => x.1 = []) sizes).

Lemma init_inv inert hwm calls sizes : scripts_ok inert sizes ->
  inv (top 0 false inert) (emit CalledStart (initializeReadableStream hwm calls sizes)).
Proof.
  intros [H1 H2]. split.
  - split; simpl; try done. split; by rewrite list_elem_of_singleton.
  - intros Hg. split; [|by apply demand_none]. split; simpl; try done; try (by intros ? ?%elem_of_nil); [by apply H2|constructor].
Qed.

Lemma create_inv inert hwm calls sizes : scripts_ok inert sizes -> inv_top inert (createReadableStream hwm calls sizes).
Proof.
  intros H. pose proof (init_inv inert hwm calls sizes H) as Hi. unfold createReadableStream.
  unfold setUpReadableStreamDefaultController. cbv zeta.
  destruct (invoke_inv (exec (S (depth (initializeReadableStream hwm calls sizes)))) (exec_inv _) _ _ _ Hi) as [[Hs Hf] _].
  set (s := (invoke _ _ _).1) in *. exists 1, false. split; [|by right]. split.
  - pose proof (sf_pulls _ _ Hs) as H1. pose proof (sf_running _ _ Hs) as H2. pose proof (sf_starts _ _ Hs) as H3.
    unfold count in *. simpl in H1, H2, H3.
    destruct Hs. split; simpl; try done; unfold count; rewrite filter_app, length_app; simpl; try lia.
    intros W. specialize (H2 W). lia.
  - intros Hg. destruct (Hf Hg) as [X Y]. apply fifo_set_jobs. split; [|done]. destruct X. by split.
Qed.

(** The invariant holds after any sequence of events. *)
Lemma run_inv inert hwm calls sizes evs : scripts_ok inert sizes -> inv_top inert (run_stream hwm calls sizes evs).
Proof.
  intros H. unfold run_stream, run. apply (create_inv inert hwm calls) in H. revert H.
  generalize (createReadableStream hwm calls sizes).
  induction evs as [|e evs IH]; intros s Hi; [done|]. simpl. apply IH. unfold step.
  apply run_event_inv; [apply exec_inv|apply exec_nil|done].
Qed.
