(* ===== verification/ReadableStreamTheorems.v ===== *)
(** * Readable streams: theorems

    What the invariant says about a run from the construction of the stream,
    for all scripts of the callbacks and all sequences of events, and that the
    bound on the nesting of callbacks is never reached. *)

From Stdlib Require Import ZArith Lia Sorted.
From stdpp Require Import base list numbers option strings.
From S2P Require Import Prelude JsNumber StreamBase ReadableStream ReadableStreamProps ReadableStreamInv.
From S2P Require Import ReadableStreamSteps.

#[local] Open Scope nat_scope.

(** ** The nesting bound *)

Section Fuel.
(** The scripted calls that are left only decrease, and two interpreters of
    scripts that agree below [k] give the same operations up to [k]. *)
Variable k : nat.
Variables u1 u2 : list op -> rs -> rs.
Hypothesis agree : forall acts s, depth s < k -> u1 acts s = u2 acts s /\ depth (u1 acts s) <= depth s.

#[local] Abbreviation same := (same_upto depth k).

Lemma depth_drain r steps reqs s :
  (forall id s, depth (steps id s) = depth s) -> depth (drain r steps reqs s) = depth s.
Proof. intros H. revert s. induction reqs as [|id reqs IH]; intros s; simpl; [done|]. by rewrite IH, H. Qed.

Lemma same_invoke o : same (invoke u1 o) (invoke u2 o).
Proof.
  constructor. intros s Hs. unfold invoke. destruct (calls s) as [|acts rest] eqn:E; [done|].
  assert (Hd : depth (set_calls rest (emit o s)) < depth s) by (unfold depth; simpl; rewrite E; simpl; lia).
  destruct (agree acts (set_calls rest (emit o s))) as [E1 Hd']; [lia|]. rewrite <-E1. split; [done|]. simpl. lia.
Qed.

Lemma same_invoke_size : same (invoke_size u1) (invoke_size u2).
Proof.
  constructor. intros s Hs. unfold invoke_size. destruct (sizes s) as [|[acts r] rest] eqn:E; [done|].
  assert (Hd : depth (set_sizes rest s) < depth s) by (unfold depth; simpl; rewrite E; simpl; lia).
  destruct (agree acts (set_sizes rest s)) as [E1 Hd']; [lia|]. rewrite <-E1. split; [done|]. simpl. lia.
Qed.

Ltac same_tac := same_upto_tac ltac:(fun _ => first
  [ apply same_invoke | apply same_invoke_size
  | (apply same_modify; intros; first [reflexivity | (simpl; by apply depth_drain)]) ]).

Lemma same_close : same readableStreamClose readableStreamClose.
Proof. unfold readableStreamClose. same_tac. Qed.

Lemma same_rs_error e : same (readableStreamError e) (readableStreamError e).
Proof. unfold readableStreamError, readableStreamDefaultReaderErrorReadRequests. same_tac. Qed.

Lemma same_error e : same (readableStreamDefaultControllerError e) (readableStreamDefaultControllerError e).
Proof. unfold readableStreamDefaultControllerError. same_tac; apply same_rs_error. Qed.

Lemma same_should : same readableStreamDefaultcontrollerShouldCallPull readableStreamDefaultcontrollerShouldCallPull.
Proof. constructor. intros s _. by rewrite should_eq. Qed.

Lemma same_callPull : same (readableStreamDefaultControllerCallPullIfNeeded u1) (readableStreamDefaultControllerCallPullIfNeeded u2).
Proof. unfold readableStreamDefaultControllerCallPullIfNeeded. same_tac; apply same_should. Qed.

Lemma same_waiting : same waiting_reads waiting_reads.
Proof. constructor. intros s _. by rewrite waiting_eq. Qed.

Lemma same_enqueue_value c n : same (enqueue_value c n) (enqueue_value c n).
Proof. constructor. intros s _. unfold enqueue_value. by destruct (enqueueValueWithSize c n (queue s)). Qed.

Lemma same_dequeue_value : same dequeue_value dequeue_value.
Proof. constructor. intros s _. unfold dequeue_value. by destruct (dequeueValue (queue s)). Qed.

Lemma same_fulfill c b : same (readableStreamFulfillReadRequest c b) (readableStreamFulfillReadRequest c b).
Proof. unfold readableStreamFulfillReadRequest. same_tac; apply same_modify; by destruct b. Qed.

Lemma same_enqueue c : same (readableStreamDefaultControllerEnqueue u1 c) (readableStreamDefaultControllerEnqueue u2 c).
Proof.
  unfold readableStreamDefaultControllerEnqueue.
  same_tac; auto using same_waiting, same_fulfill, same_error, same_enqueue_value, same_callPull.
Qed.

Lemma same_pullSteps id : same (pullSteps u1 id) (pullSteps u2 id).
Proof.
  unfold pullSteps, readableStreamAddReadRequest.
  same_tac; auto using same_dequeue_value, same_close, same_callPull.
  apply same_modify. intros s. by destruct (reader s).
Qed.

Lemma same_cancel r : same (readableStreamCancel u1 r) (readableStreamCancel u2 r).
Proof. unfold readableStreamCancel, cancelSteps. same_tac; auto using same_close. Qed.

Lemma same_getReader : same setUpReadableStreamDefaultReader setUpReadableStreamDefaultReader.
Proof. unfold setUpReadableStreamDefaultReader, readableStreamReaderGenericInitialize. same_tac. constructor. by intros s ?. Qed.

Lemma same_run_op o : same (run_op u1 o) (run_op u2 o).
Proof.
  destruct o; simpl; unfold controller_enqueue, controller_close, stream_cancel, reader_read, reader_releaseLock,
    reader_cancel, readableStreamDefaultControllerClose, setUpReadableStreamBYOBReader,
    readableStreamDefaultReaderRead, readableStreamDefaultReaderRelease, readableStreamReaderGenericRelease,
    readableStreamDefaultReaderErrorReadRequests;
    same_tac; auto using same_enqueue, same_close, same_error, same_cancel, same_getReader, same_pullSteps,
      same_enqueue_value, same_dequeue_value.
  all: first [by constructor; intros s' _ | (apply same_modify; intros s'; by destruct (reader s'))].
Qed.

Lemma same_act o s : depth s <= k -> act u1 o s = act u2 o s /\ depth (act u1 o s) <= depth s.
Proof.
  intros Hs. destruct (same_at (same_run_op o) s Hs) as [E Hd]. unfold act. rewrite <-E.
  by destruct (run_op u1 o s) as [s' [a|e]].
Qed.

Lemma same_run_acts acts s : depth s <= k ->
  run_acts u1 acts s = run_acts u2 acts s /\ depth (run_acts u1 acts s) <= depth s.
Proof.
  unfold run_acts. revert s. induction acts as [|o acts IH]; intros s Hs; simpl; [done|].
  destruct (same_act o s Hs) as [E Hd]. rewrite <-E. destruct (IH (act u1 o s)) as [E' Hd']; [lia|].
  split; [done|]. lia.
Qed.

Lemma same_run_job j r s : depth s <= k -> run_job u1 j r s = run_job u2 j r s.
Proof.
  intros Hs. unfold run_job, start_fulfilled, start_rejected, pull_fulfilled, pull_rejected.
  match goal with |- match ?m1 s with _ => _ end = match ?m2 s with _ => _ end =>
    assert (H : same m1 m2) end.
  { destruct j, r; same_tac; auto using same_callPull, same_error. }
  by rewrite (proj1 (same_at H s Hs)).
Qed.

Lemma same_run_event e s : depth s <= k -> run_event u1 e s = run_event u2 e s.
Proof.
  intros Hs. destruct e as [o|i r]; simpl; [by apply same_act|].
  destruct (jobs s !! i); [|done]. by apply same_run_job.
Qed.
End Fuel.

Lemma rs_exec_agree n m acts s : depth s < n -> depth s < m ->
  exec n acts s = exec m acts s /\ depth (exec n acts s) <= depth s.
Proof.
  revert m acts s. induction n as [|n IH]; intros m acts s Hn Hm; [lia|].
  destruct m as [|m]; [lia|]. simpl. apply (same_run_acts (min n m)); [|lia].
  intros acts' s' Hs'. apply IH; lia.
Qed.

(** ** Theorems *)

(** The bound on the nesting of callbacks is never reached: running an
    event with any larger bound gives the same state, so [step] is what the
    unbounded code does, and every event is processed in finitely many steps. *)
Lemma nesting_bound_unreached (n : nat) (e : event) (s : rs) :
  depth s < n -> step s e = run_event (exec n) e s.
Proof.
  intros Hn. unfold step. apply (same_run_event (depth s)); [|done].
  intros acts s' Hs'. apply rs_exec_agree; lia.
Qed.

Lemma nesting_bound_unreached_witness :
  let s := createReadableStream (num_of_Z 0) [[]; [Enqueue (Data 7); Close]] [] in
  depth s < 5 /\ step s (Settle 0 (Ret tt)) = run_event (exec 5) (Settle 0 (Ret tt)) s.
Proof. split; [vm_compute; lia|]. apply nesting_bound_unreached. vm_compute. lia. Defined.

(** C34. No assertion of the stream code ever fails, whatever the callbacks do
    and call, and in whatever order operations are called and promises settle;
    the only assumption is that the size callback does not throw an assertion
    error of its own. *)
Theorem rs_assertions_hold (hwm : num) (calls : list (list op)) (sizes : list (list op * result num)) (evs : list event) :
  Forall (fun x => x.2 <> Raise AssertionErr) sizes ->
  (Threw AssertionErr ∉ log (run_stream hwm calls sizes evs)) /\
  (InternalError AssertionErr ∉ log (run_stream hwm calls sizes evs)).
Proof.
  intros H. destruct (run_inv false hwm calls sizes evs) as (n & b & [Hs _] & _); [by split|].
  apply (sf_noassert _ _ Hs).
Qed.

(** The size callback reads, closes and errors the stream it is called from. *)
Lemma rs_assertions_hold_witness :
  let sizes := [([GetReader; Read 0; Close], Ret (num_of_Z 3)); ([Error (Data 5)], Raise (Data 1))] in
  let evs := [Act (Enqueue (Data 1)); Settle 0 (Ret tt); Act (Read 0); Act (Enqueue (Data 2)); Act (ReleaseLock 0)] in
  (Threw AssertionErr ∉ log (run_stream (num_of_Z 1) [[]; [Enqueue (Data 9)]] sizes evs)) /\
  (InternalError AssertionErr ∉ log (run_stream (num_of_Z 1) [[]; [Enqueue (Data 9)]] sizes evs)).
Proof. intros sizes evs. apply (rs_assertions_hold (num_of_Z 1) [[]; [Enqueue (Data 9)]] sizes evs). by repeat constructor. Defined.

(** C1. Chunks arrive in order and exactly once: the chunks in the results of
    [read()], in the order of the calls, are a prefix of the chunks enqueued;
    while the stream is readable the rest is in the queue, and when it closed
    without having been cancelled every chunk was delivered.  No call of the size
    callback may call the stream (see [reentrant_size_overtakes]) or throw an
    assertion error of its own. *)
Theorem rs_chunks_in_order (hwm : num) (calls : list (list op)) (sizes : list (list op * result num)) (evs : list event) :
  Forall (fun x => x.1 = [] /\ x.2 <> Raise AssertionErr) sizes ->
  let s := run_stream hwm calls sizes evs in
  delivered (promises s) `prefix_of` accepted (log s) /\
  (state s = Readable -> accepted (log s) = delivered (promises s) ++ (c_queue (queue s)).*1) /\
  (state s = Closed -> ~ cancelled (log s) -> accepted (log s) = delivered (promises s)).
Proof.
  intros H s. destruct (run_inv true hwm calls sizes evs) as (n & b & [_ Hf] & _).
  { split; [|intros _]; (eapply Forall_impl; [exact H|]); by intros ? []. }
  destruct (Hf eq_refl) as [Hff _]. split; [apply (ff_over _ _ Hff)|].
  split; [apply (ff_open _ _ Hff)|apply (ff_closed _ _ Hff)].
Qed.

Lemma rs_chunks_in_order_witness :
  let s := run_stream (num_of_Z 2) [[]; [Enqueue (Data 7); Read 0]; []] [([], Ret (num_of_Z 1)); ([], Ret (num_of_Z 1))]
    [Act GetReader; Act (Read 0); Settle 0 (Ret tt); Act (Enqueue (Data 8)); Act (Enqueue (Data 9))] in
  delivered (promises s) = [Data 7; Data 8] /\ delivered (promises s) `prefix_of` accepted (log s).
Proof.
  split; [by vm_compute|].
  apply (rs_chunks_in_order (num_of_Z 2) [[]; [Enqueue (Data 7); Read 0]; []]
    [([], Ret (num_of_Z 1)); ([], Ret (num_of_Z 1))]
    [Act GetReader; Act (Read 0); Settle 0 (Ret tt); Act (Enqueue (Data 8)); Act (Enqueue (Data 9))]).
  by repeat constructor.
Defined.

(** The assumption is needed: a size callback that reads makes the read wait
    behind a queue that is not empty, and the next chunk overtakes. *)
Lemma reentrant_size_overtakes :
  let s := run_stream (num_of_Z 5) [] [([Read 0], Ret (num_of_Z 1))]
    [Act GetReader; Act (Enqueue (Data 1)); Act (Enqueue (Data 2))] in
  accepted (log s) = [Data 1; Data 2] /\ delivered (promises s) = [Data 2].
Proof. by vm_compute. Qed.

(** C16. No read is forgotten.  A promise of a [read()] or of a reader's
    [closed] that is pending after a run belongs to a readable stream; it is the
    closed promise of the current reader, or a read request that waits in it, and
    then the source was asked for a chunk after the read began, or it will be as
    soon as the promise of the running [pull] or of [start] is fulfilled.  So none
    of these is pending once the stream is closed or errored; the promises of
    [cancel()] are not among them.  No call of the size callback may call the
    stream or throw an assertion error of its own. *)
Theorem rs_reads_answered (hwm : num) (calls : list (list op)) (sizes : list (list op * result num))
    (evs : list event) (i : nat) :
  let s := run_stream hwm calls sizes evs in
  Forall (fun x => x.1 = [] /\ x.2 <> Raise AssertionErr) sizes ->
  promises s !! i = Some Pending ->
  state s = Readable /\
  ((exists r x, reader s = Some r /\ readers s !! r = Some x /\ r_closed x = i) \/
   i ∈ requests s /\
   (started s = false /\ JStart ∈ jobs s \/ pullAgain s = true /\ JPull ∈ jobs s \/ pulled_since i (log s))).
Proof.
  intros s H Hp. destruct (run_inv true hwm calls sizes evs) as (n & b & [Hs Hf] & Hn).
  { split; [|intros _]; (eapply Forall_impl; [exact H|]); by intros ? []. }
  fold s in Hs, Hf, Hn. destruct (Hf eq_refl) as [Hff Hd].
  destruct (ff_reads _ _ Hff i Hp eq_refl) as [Hi|(r & x & E1 & E2 & E3 & E4)]; [|split; [done|left; by exists r, x]].
  assert (Hst : state s = Readable).
  { destruct (decide (state s = Readable)) as [|X]; [done|]. rewrite (sf_requests _ _ Hs X) in Hi. by apply elem_of_nil in Hi. }
  split; [done|]. right. split; [done|].
  assert (Hin : forall j, 1 <= count j (jobs s) -> j ∈ jobs s).
  { intros j Hj. unfold count in Hj. destruct (filter _ (jobs s)) as [|y l] eqn:E; [simpl in Hj; lia|].
    assert (Hy : y ∈ filter (fun x => x = j) (jobs s)) by (rewrite E; constructor).
    by apply list_elem_of_filter in Hy as [-> ?]. }
  destruct (Hd i Hi) as [H1|[H1|H1]]; [| |by auto].
  - left. split; [done|]. apply Hin. pose proof (sf_starts _ _ Hs) as X. simpl in X.
    pose proof (sf_started _ _ Hs) as Y. simpl in Y. destruct Hn as [[_ [->|?]]|[-> _]]; [congruence|done|lia].
  - right; left. split; [done|]. apply Hin.
    pose proof (sf_running _ _ Hs Hst) as X. simpl in X. destruct (pulling s) eqn:E; [simpl in X; lia|].
    pose proof (sf_again _ _ Hs E). congruence.
Qed.

Lemma rs_reads_answered_witness :
  let s := run_stream (num_of_Z 0) [] [] [Act GetReader; Act (Read 0); Settle 0 (Ret tt); Act (Read 0)] in
  promises s !! 2 = Some Pending /\ state s = Readable.
Proof.
  split; [by vm_compute|].
  apply (rs_reads_answered (num_of_Z 0) [] [] [Act GetReader; Act (Read 0); Settle 0 (Ret tt); Act (Read 0)] 2);
    [constructor|by vm_compute].
Defined.

(** The queue's total size is a non-negative number at all times, never
    NaN, and the sizes in the queue are finite and non-negative, whatever
    numbers the size callback returns and however the sums round. *)
Lemma rs_total_bounded (hwm : num) (calls : list (list op)) (sizes : list (list op * result num)) (evs : list event) :
  Forall (fun x => x.2 <> Raise AssertionErr) sizes ->
  let s := run_stream hwm calls sizes evs in
  num_le zero (c_total (queue s)) = true /\
  Forall (fun e => is_finite e.2 = true /\ num_le zero e.2 = true) (c_queue (queue s)).
Proof.
  intros H s. destruct (run_inv false hwm calls sizes evs) as (n & b & [Hs _] & _); [by split|].
  destruct (sf_queue _ _ Hs) as [H1 H2]. by split.
Qed.

Lemma rs_total_bounded_witness :
  let sizes := [([], Ret (num_of_Z (2 ^ 53))); ([], Ret (num_of_Z 1)); ([], Ret NaN)] in
  let evs := [Act GetReader; Act (Enqueue (Data 1)); Act (Enqueue (Data 2)); Act (Read 0); Act (Read 0)] in
  num_le zero (c_total (queue (run_stream (num_of_Z 1) [] sizes evs))) = true.
Proof.
  intros sizes evs. apply (rs_total_bounded (num_of_Z 1) [] sizes evs). by repeat constructor.
Defined.

(** [pull] is called only after [start] has finished, and never while the
    promise of an earlier call is unsettled. *)
Lemma rs_pull_protocol (hwm : num) (calls : list (list op)) (sizes : list (list op * result num)) (evs : list event) :
  Forall (fun x => x.2 <> Raise AssertionErr) sizes ->
  let s := run_stream hwm calls sizes evs in
  count JPull (jobs s) <= 1 /\ count JStart (jobs s) <= 1 /\
  (JStart ∈ jobs s -> started s = false /\ JPull ∉ jobs s).
Proof.
  intros H s. destruct (run_inv false hwm calls sizes evs) as (n & b & [Hs _] & Hn); [by split|]. fold s in Hs.
  pose proof (sf_pulls _ _ Hs) as H1. pose proof (sf_starts _ _ Hs) as H2. pose proof (sf_started _ _ Hs) as H3.
  simpl in *. assert (count JPull (jobs s) <= 1) by (destruct (pulling s); simpl in *; lia).
  split; [done|]. split; [lia|]. intros Hj.
  assert (Hc : forall j, j ∈ jobs s -> 1 <= count j (jobs s)).
  { intros j Hin. unfold count. assert (Hy : j ∈ filter (fun x => x = j) (jobs s)) by by apply list_elem_of_filter.
    destruct (filter _ (jobs s)); [by apply elem_of_nil in Hy|simpl; lia]. }
  pose proof (Hc _ Hj). destruct Hn as [[-> _]|[-> ->]]; [lia|]. split; [done|]. intros Hp%Hc.
  rewrite (sf_notyet _ _ Hs H3) in H1. simpl in H1. lia.
Qed.

Lemma rs_pull_protocol_witness :
  let s := run_stream (num_of_Z 3) [] [] [Settle 0 (Ret tt); Act GetReader; Act (Read 0)] in
  count JPull (jobs s) = 1 /\ count JPull (jobs s) <= 1.
Proof.
  split; [by vm_compute|].
  apply (rs_pull_protocol (num_of_Z 3) [] [] [Settle 0 (Ret tt); Act GetReader; Act (Read 0)]). constructor.
Defined.
