(* ===== verification/WritableStream.v ===== *)
(** * Writable streams

    Models [WritableStream], [WritableStreamDefaultWriter] and
    [WritableStreamDefaultController] of [src/ext/web/06_streams.js] with all
    the functions they call.

    The conventions are those of [ReadableStream]: one record [ws] for the
    stream and its controller, writers and deferred promises as positions,
    scripts for the callbacks of the sink ([start], [write], [close], [abort]),
    for [size] and for the listeners of the controller's abort signal, and
    reactions to the sink's promises that wait in [jobs] until they settle. *)

From Stdlib Require Import ZArith Lia.
From stdpp Require Import base list numbers option strings.
From S2P Require Import Prelude JsNumber StreamBase.

#[local] Open Scope Z_scope.

Inductive ws_state := Writable | Erroring | Closed | Errored.

#[export] Instance ws_state_eq_dec : EqDecision ws_state.
Proof. solve_decision. Defined.

(** The operations of the public interface; a writer is named by its number. *)
Inductive op :=
  | GetWriter
  | StreamAbort (reason : value)
  | StreamClose
  | Write (w : nat) (chunk : value)
  | WriterClose (w : nat)
  | WriterAbort (w : nat) (reason : value)
  | ReleaseLock (w : nat)
  | ControllerError (e : value).

(** Reactions of the code to a promise of the underlying sink; [JAbort] keeps
    the deferred of the abort request. *)
Inductive job := JStart | JWrite | JClose | JAbort (d : nat).

(** What waits in the queue: a chunk or the close sentinel. *)
Inductive item := IChunk (chunk : value) | IClose.

(** The log: calls of the sink's callbacks, chunks taken from [write()] with
    the promise it returns, what operations threw, and assertion errors that
    the reactions swallow. *)
Inductive obs :=
  | CalledStart
  | CalledWrite (chunk : value)
  | CalledClose
  | CalledAbort (reason : value)
  | Accepted (id : nat) (chunk : value)
  | Threw (e : value)
  | InternalError (e : value).

Record abort_request := AbortRequest {
  ar_deferred : nat;
  ar_reason : value;
  wasAlreadyErroring : bool;
}.

Record writer_ := mkWriter {
  w_stream : bool;  (* whether [_stream] is set *)
  w_ready : nat;
  w_closed : nat;
}.

Record ws := mkWS {
  state : ws_state;
  storedError : value;
  writer : option nat;
  inFlightWriteRequest : option nat;
  writeRequests : list nat;
  inFlightCloseRequest : option nat;
  closeRequest : option nat;
  pendingAbortRequest : option abort_request;
  backpressure : bool;
  queue : container item; (* [_queue] and [_queueTotalSize] *)
  started : bool;
  writeAlgorithm : bool; (* whether the algorithm is still set *)
  closeAlgorithm : bool;
  abortAlgorithm : bool;
  strategySizeAlgorithm : bool;
  strategyHWM : num;
  aborted : bool; (* of the controller's signal *)
  writers : list writer_;
  promises : deferreds;
  jobs : list job; (* reactions whose promise is not settled *)
  calls : list (list op); (* what the sink's callbacks will do *)
  listeners : list op; (* what the signal's abort listeners will do *)
  sizes : list (list op * result num); (* what the size callback will do *)
  log : list obs;
}.

Definition set_state (x : ws_state) (s : ws) : ws :=
  mkWS x (storedError s) (writer s) (inFlightWriteRequest s) (writeRequests s)
    (inFlightCloseRequest s) (closeRequest s) (pendingAbortRequest s) (backpressure s) (queue s)
    (started s) (writeAlgorithm s) (closeAlgorithm s) (abortAlgorithm s) (strategySizeAlgorithm
    s) (strategyHWM s) (aborted s) (writers s) (promises s) (jobs s) (calls s) (listeners s)
    (sizes s) (log s).
Definition set_storedError (x : value) (s : ws) : ws :=
  mkWS (state s) x (writer s) (inFlightWriteRequest s) (writeRequests s) (inFlightCloseRequest
    s) (closeRequest s) (pendingAbortRequest s) (backpressure s) (queue s) (started s)
    (writeAlgorithm s) (closeAlgorithm s) (abortAlgorithm s) (strategySizeAlgorithm s)
    (strategyHWM s) (aborted s) (writers s) (promises s) (jobs s) (calls s) (listeners s) (sizes
    s) (log s).
Definition set_writer (x : option nat) (s : ws) : ws :=
  mkWS (state s) (storedError s) x (inFlightWriteRequest s) (writeRequests s)
    (inFlightCloseRequest s) (closeRequest s) (pendingAbortRequest s) (backpressure s) (queue s)
    (started s) (writeAlgorithm s) (closeAlgorithm s) (abortAlgorithm s) (strategySizeAlgorithm
    s) (strategyHWM s) (aborted s) (writers s) (promises s) (jobs s) (calls s) (listeners s)
    (sizes s) (log s).
Definition set_inFlightWriteRequest (x : option nat) (s : ws) : ws :=
  mkWS (state s) (storedError s) (writer s) x (writeRequests s) (inFlightCloseRequest s)
    (closeRequest s) (pendingAbortRequest s) (backpressure s) (queue s) (started s)
    (writeAlgorithm s) (closeAlgorithm s) (abortAlgorithm s) (strategySizeAlgorithm s)
    (strategyHWM s) (aborted s) (writers s) (promises s) (jobs s) (calls s) (listeners s) (sizes
    s) (log s).
Definition set_writeRequests (x : list nat) (s : ws) : ws :=
  mkWS (state s) (storedError s) (writer s) (inFlightWriteRequest s) x (inFlightCloseRequest s)
    (closeRequest s) (pendingAbortRequest s) (backpressure s) (queue s) (started s)
    (writeAlgorithm s) (closeAlgorithm s) (abortAlgorithm s) (strategySizeAlgorithm s)
    (strategyHWM s) (aborted s) (writers s) (promises s) (jobs s) (calls s) (listeners s) (sizes
    s) (log s).
Definition set_inFlightCloseRequest (x : option nat) (s : ws) : ws :=
  mkWS (state s) (storedError s) (writer s) (inFlightWriteRequest s) (writeRequests s) x
    (closeRequest s) (pendingAbortRequest s) (backpressure s) (queue s) (started s)
    (writeAlgorithm s) (closeAlgorithm s) (abortAlgorithm s) (strategySizeAlgorithm s)
    (strategyHWM s) (aborted s) (writers s) (promises s) (jobs s) (calls s) (listeners s) (sizes
    s) (log s).
Definition set_closeRequest (x : option nat) (s : ws) : ws :=
  mkWS (state s) (storedError s) (writer s) (inFlightWriteRequest s) (writeRequests s)
    (inFlightCloseRequest s) x (pendingAbortRequest s) (backpressure s) (queue s) (started s)
    (writeAlgorithm s) (closeAlgorithm s) (abortAlgorithm s) (strategySizeAlgorithm s)
    (strategyHWM s) (aborted s) (writers s) (promises s) (jobs s) (calls s) (listeners s) (sizes
    s) (log s).
Definition set_pendingAbortRequest (x : option abort_request) (s : ws) : ws :=
  mkWS (state s) (storedError s) (writer s) (inFlightWriteRequest s) (writeRequests s)
    (inFlightCloseRequest s) (closeRequest s) x (backpressure s) (queue s) (started s)
    (writeAlgorithm s) (closeAlgorithm s) (abortAlgorithm s) (strategySizeAlgorithm s)
    (strategyHWM s) (aborted s) (writers s) (promises s) (jobs s) (calls s) (listeners s) (sizes
    s) (log s).
Definition set_backpressure (x : bool) (s : ws) : ws :=
  mkWS (state s) (storedError s) (writer s) (inFlightWriteRequest s) (writeRequests s)
    (inFlightCloseRequest s) (closeRequest s) (pendingAbortRequest s) x (queue s) (started s)
    (writeAlgorithm s) (closeAlgorithm s) (abortAlgorithm s) (strategySizeAlgorithm s)
    (strategyHWM s) (aborted s) (writers s) (promises s) (jobs s) (calls s) (listeners s) (sizes
    s) (log s).
Definition set_queue (x : container item) (s : ws) : ws :=
  mkWS (state s) (storedError s) (writer s) (inFlightWriteRequest s) (writeRequests s)
    (inFlightCloseRequest s) (closeRequest s) (pendingAbortRequest s) (backpressure s) x
    (started s) (writeAlgorithm s) (closeAlgorithm s) (abortAlgorithm s) (strategySizeAlgorithm
    s) (strategyHWM s) (aborted s) (writers s) (promises s) (jobs s) (calls s) (listeners s)
    (sizes s) (log s).
Definition set_started (x : bool) (s : ws) : ws :=
  mkWS (state s) (storedError s) (writer s) (inFlightWriteRequest s) (writeRequests s)
    (inFlightCloseRequest s) (closeRequest s) (pendingAbortRequest s) (backpressure s) (queue s)
    x (writeAlgorithm s) (closeAlgorithm s) (abortAlgorithm s) (strategySizeAlgorithm s)
    (strategyHWM s) (aborted s) (writers s) (promises s) (jobs s) (calls s) (listeners s) (sizes
    s) (log s).
Definition set_writeAlgorithm (x : bool) (s : ws) : ws :=
  mkWS (state s) (storedError s) (writer s) (inFlightWriteRequest s) (writeRequests s)
    (inFlightCloseRequest s) (closeRequest s) (pendingAbortRequest s) (backpressure s) (queue s)
    (started s) x (closeAlgorithm s) (abortAlgorithm s) (strategySizeAlgorithm s) (strategyHWM
    s) (aborted s) (writers s) (promises s) (jobs s) (calls s) (listeners s) (sizes s) (log s).
Definition set_closeAlgorithm (x : bool) (s : ws) : ws :=
  mkWS (state s) (storedError s) (writer s) (inFlightWriteRequest s) (writeRequests s)
    (inFlightCloseRequest s) (closeRequest s) (pendingAbortRequest s) (backpressure s) (queue s)
    (started s) (writeAlgorithm s) x (abortAlgorithm s) (strategySizeAlgorithm s) (strategyHWM
    s) (aborted s) (writers s) (promises s) (jobs s) (calls s) (listeners s) (sizes s) (log s).
Definition set_abortAlgorithm (x : bool) (s : ws) : ws :=
  mkWS (state s) (storedError s) (writer s) (inFlightWriteRequest s) (writeRequests s)
    (inFlightCloseRequest s) (closeRequest s) (pendingAbortRequest s) (backpressure s) (queue s)
    (started s) (writeAlgorithm s) (closeAlgorithm s) x (strategySizeAlgorithm s) (strategyHWM
    s) (aborted s) (writers s) (promises s) (jobs s) (calls s) (listeners s) (sizes s) (log s).
Definition set_strategySizeAlgorithm (x : bool) (s : ws) : ws :=
  mkWS (state s) (storedError s) (writer s) (inFlightWriteRequest s) (writeRequests s)
    (inFlightCloseRequest s) (closeRequest s) (pendingAbortRequest s) (backpressure s) (queue s)
    (started s) (writeAlgorithm s) (closeAlgorithm s) (abortAlgorithm s) x (strategyHWM s)
    (aborted s) (writers s) (promises s) (jobs s) (calls s) (listeners s) (sizes s) (log s).
Definition set_strategyHWM (x : num) (s : ws) : ws :=
  mkWS (state s) (storedError s) (writer s) (inFlightWriteRequest s) (writeRequests s)
    (inFlightCloseRequest s) (closeRequest s) (pendingAbortRequest s) (backpressure s) (queue s)
    (started s) (writeAlgorithm s) (closeAlgorithm s) (abortAlgorithm s) (strategySizeAlgorithm
    s) x (aborted s) (writers s) (promises s) (jobs s) (calls s) (listeners s) (sizes s) (log
    s).
Definition set_aborted (x : bool) (s : ws) : ws :=
  mkWS (state s) (storedError s) (writer s) (inFlightWriteRequest s) (writeRequests s)
    (inFlightCloseRequest s) (closeRequest s) (pendingAbortRequest s) (backpressure s) (queue s)
    (started s) (writeAlgorithm s) (closeAlgorithm s) (abortAlgorithm s) (strategySizeAlgorithm
    s) (strategyHWM s) x (writers s) (promises s) (jobs s) (calls s) (listeners s) (sizes s)
    (log s).
Definition set_writers (x : list writer_) (s : ws) : ws :=
  mkWS (state s) (storedError s) (writer s) (inFlightWriteRequest s) (writeRequests s)
    (inFlightCloseRequest s) (closeRequest s) (pendingAbortRequest s) (backpressure s) (queue s)
    (started s) (writeAlgorithm s) (closeAlgorithm s) (abortAlgorithm s) (strategySizeAlgorithm
    s) (strategyHWM s) (aborted s) x (promises s) (jobs s) (calls s) (listeners s) (sizes s)
    (log s).
Definition set_promises (x : deferreds) (s : ws) : ws :=
  mkWS (state s) (storedError s) (writer s) (inFlightWriteRequest s) (writeRequests s)
    (inFlightCloseRequest s) (closeRequest s) (pendingAbortRequest s) (backpressure s) (queue s)
    (started s) (writeAlgorithm s) (closeAlgorithm s) (abortAlgorithm s) (strategySizeAlgorithm
    s) (strategyHWM s) (aborted s) (writers s) x (jobs s) (calls s) (listeners s) (sizes s) (log
    s).
Definition set_jobs (x : list job) (s : ws) : ws :=
  mkWS (state s) (storedError s) (writer s) (inFlightWriteRequest s) (writeRequests s)
    (inFlightCloseRequest s) (closeRequest s) (pendingAbortRequest s) (backpressure s) (queue s)
    (started s) (writeAlgorithm s) (closeAlgorithm s) (abortAlgorithm s) (strategySizeAlgorithm
    s) (strategyHWM s) (aborted s) (writers s) (promises s) x (calls s) (listeners s) (sizes s)
    (log s).
Definition set_calls (x : list (list op)) (s : ws) : ws :=
  mkWS (state s) (storedError s) (writer s) (inFlightWriteRequest s) (writeRequests s)
    (inFlightCloseRequest s) (closeRequest s) (pendingAbortRequest s) (backpressure s) (queue s)
    (started s) (writeAlgorithm s) (closeAlgorithm s) (abortAlgorithm s) (strategySizeAlgorithm
    s) (strategyHWM s) (aborted s) (writers s) (promises s) (jobs s) x (listeners s) (sizes s)
    (log s).
Definition set_listeners (x : list op) (s : ws) : ws :=
  mkWS (state s) (storedError s) (writer s) (inFlightWriteRequest s) (writeRequests s)
    (inFlightCloseRequest s) (closeRequest s) (pendingAbortRequest s) (backpressure s) (queue s)
    (started s) (writeAlgorithm s) (closeAlgorithm s) (abortAlgorithm s) (strategySizeAlgorithm
    s) (strategyHWM s) (aborted s) (writers s) (promises s) (jobs s) (calls s) x (sizes s) (log
    s).
Definition set_sizes (x : list (list op * result num)) (s : ws) : ws :=
  mkWS (state s) (storedError s) (writer s) (inFlightWriteRequest s) (writeRequests s)
    (inFlightCloseRequest s) (closeRequest s) (pendingAbortRequest s) (backpressure s) (queue s)
    (started s) (writeAlgorithm s) (closeAlgorithm s) (abortAlgorithm s) (strategySizeAlgorithm
    s) (strategyHWM s) (aborted s) (writers s) (promises s) (jobs s) (calls s) (listeners s) x
    (log s).
Definition set_log (x : list obs) (s : ws) : ws :=
  mkWS (state s) (storedError s) (writer s) (inFlightWriteRequest s) (writeRequests s)
    (inFlightCloseRequest s) (closeRequest s) (pendingAbortRequest s) (backpressure s) (queue s)
    (started s) (writeAlgorithm s) (closeAlgorithm s) (abortAlgorithm s) (strategySizeAlgorithm
    s) (strategyHWM s) (aborted s) (writers s) (promises s) (jobs s) (calls s) (listeners s)
    (sizes s) x.

Definition emit (o : obs) (s : ws) : ws := set_log (log s ++ [o]) s.

(** What a method returns in place of a promise. *)
Inductive promise :=
  | PResolved
  | PRejected (e : value)
  | PDeferred (id : nat).

(** ** Objects *)

Definition new_deferred : M ws nat :=
  fun s => (set_promises (promises s ++ [Pending]) s, Ret (length (promises s))).

Definition resolve (id : nat) (s : ws) : ws :=
  set_promises (deferred_resolve id RUndefined (promises s)) s.
Definition reject (id : nat) (e : value) (s : ws) : ws :=
  set_promises (deferred_reject id e (promises s)) s.

Definition get_writer (w : nat) (s : ws) : writer_ :=
  default (mkWriter false 0 0) (writers s !! w).

Definition set_ready (w : nat) (id : nat) (s : ws) : ws :=
  set_writers (alter (fun x => mkWriter (w_stream x) id (w_closed x)) w (writers s)) s.
Definition set_closed (w : nat) (id : nat) (s : ws) : ws :=
  set_writers (alter (fun x => mkWriter (w_stream x) (w_ready x) id) w (writers s)) s.
Definition set_stream (w : nat) (b : bool) (s : ws) : ws :=
  set_writers (alter (fun x => mkWriter b (w_ready x) (w_closed x)) w (writers s)) s.

(** ** Queries *)

Definition isWritableStreamLocked (s : ws) : bool :=
  match writer s with None => false | Some _ => true end.

Definition writableStreamCloseQueuedOrInFlight (s : ws) : bool :=
  negb (bool_decide (closeRequest s = None) && bool_decide (inFlightCloseRequest s = None)).

Definition writableStreamHasOperationMarkedInFlight (s : ws) : bool :=
  negb (bool_decide (inFlightWriteRequest s = None) && bool_decide (inFlightCloseRequest s = None)).

Definition writableStreamDefaultControllerGetDesiredSize (s : ws) : num :=
  num_sub (strategyHWM s) (c_total (queue s)).

Definition writableStreamDefaultControllerGetBackpressure (s : ws) : bool :=
  num_le (writableStreamDefaultControllerGetDesiredSize s) zero.

(** [null] is [None]. *)
Definition writableStreamDefaultWriterGetDesiredSize (s : ws) : option num :=
  match state s with
  | Errored | Erroring => None
  | Closed => Some zero
  | Writable => Some (writableStreamDefaultControllerGetDesiredSize s)
  end.

(** ** Promises of the writer *)

(** Rejects the promise at once when it is pending, or replaces it by a
    rejected one. *)
Definition writableStreamDefaultWriterEnsureClosedPromiseRejected (w : nat) (error : value) : M ws unit :=
  let! s := gets (fun s => s) in
  if deferred_pending (w_closed (get_writer w s)) (promises s)
  then modify (reject (w_closed (get_writer w s)) error)
  else
    let! d := new_deferred in
    do! modify (set_closed w d);
    modify (reject d error).

Definition writableStreamDefaultWriterEnsureReadyPromiseRejected (w : nat) (error : value) : M ws unit :=
  let! s := gets (fun s => s) in
  if deferred_pending (w_ready (get_writer w s)) (promises s)
  then modify (reject (w_ready (get_writer w s)) error)
  else
    let! d := new_deferred in
    do! modify (set_ready w d);
    modify (reject d error).

Definition writableStreamUpdateBackpressure (b : bool) : M ws unit :=
  do! bind (gets state) (fun st => assert (bool_decide (st = Writable)));
  do! bind (gets writableStreamCloseQueuedOrInFlight) (fun c => assert (negb c));
  let! s := gets (fun s => s) in
  do! (match writer s with
       | Some w =>
           if negb (Bool.eqb b (backpressure s)) then
             if b then
               let! d := new_deferred in modify (set_ready w d)
             else modify (resolve (w_ready (get_writer w s)))
           else mret tt
       | None => mret tt
       end);
  modify (set_backpressure b).

Definition writableStreamRejectCloseAndClosedPromiseIfNeeded : M ws unit :=
  do! bind (gets state) (fun st => assert (bool_decide (st = Errored)));
  let! s := gets (fun s => s) in
  do! (match closeRequest s with
       | Some c =>
           do! assert (bool_decide (inFlightCloseRequest s = None));
           do! modify (reject c (storedError s));
           modify (set_closeRequest None)
       | None => mret tt
       end);
  match writer s with
  | Some w => modify (fun s => reject (w_closed (get_writer w s)) (storedError s) s)
  | None => mret tt
  end.

Definition writableStreamDefaultControllerClearAlgorithms (s : ws) : ws :=
  set_strategySizeAlgorithm false
    (set_abortAlgorithm false (set_closeAlgorithm false (set_writeAlgorithm false s))).

(** Calling an algorithm that was cleared: [undefined] is not a function. *)
Definition not_a_function : value := TypeErr "is not a function".

(** The queue operations, on the controller's fields. *)
Definition enqueue_value (v : item) (size : num) : M ws unit :=
  fun s => let (c, r) := enqueueValueWithSize v size (queue s) in (set_queue c s, r).
Definition dequeue_value : M ws item :=
  fun s => let (c, r) := dequeueValue (queue s) in (set_queue c s, r).
Definition peek_value : M ws item := fun s => (s, peekQueueValue (queue s)).

Definition writableStreamMarkCloseRequestInFlight : M ws unit :=
  do! bind (gets inFlightCloseRequest) (fun r => assert (bool_decide (r = None)));
  do! bind (gets closeRequest) (fun r => assert (bool_decide (r <> None)));
  do! modify (fun s => set_inFlightCloseRequest (closeRequest s) s);
  modify (set_closeRequest None).

Definition writableStreamMarkFirstWriteRequestInFlight : M ws unit :=
  do! bind (gets inFlightWriteRequest) (fun r => assert (bool_decide (r = None)));
  let! reqs := gets writeRequests in
  match reqs with
  | [] => raise AssertionErr
  | r :: rest =>
      do! modify (set_writeRequests rest);
      modify (set_inFlightWriteRequest (Some r))
  end.

Definition writableStreamAddWriteRequest : M ws nat :=
  do! bind (gets isWritableStreamLocked) assert;
  do! bind (gets state) (fun st => assert (bool_decide (st = Writable)));
  let! d := new_deferred in
  do! modify (fun s => set_writeRequests (writeRequests s ++ [d]) s);
  mret d.

(** ** Operations that call the user's code *)

Section Operations.
Variable user : list op -> ws -> ws.

(** A call of a callback of the sink. *)
Definition invoke (o : obs) : M ws unit :=
  fun s =>
    match calls s with
    | [] => (emit o s, Ret tt)
    | acts :: rest => (user acts (set_calls rest (emit o s)), Ret tt)
    end.

(** A call of the strategy's [size]; without a script, it returns 1. *)
Definition invoke_size : M ws num :=
  fun s =>
    match sizes s with
    | [] => (s, Ret (num_of_Z 1))
    | (acts, r) :: rest => (user acts (set_sizes rest s), r)
    end.

(** [[signalAbort]]: the listeners run the first time only. *)
Definition signalAbort : M ws unit :=
  let! a := gets aborted in
  if a then mret tt
  else
    do! modify (set_aborted true);
    modify (fun s => user (listeners s) (set_listeners [] s)).

Definition abortSteps (reason : value) : M ws unit :=
  let! f := gets abortAlgorithm in
  do! (if f then invoke (CalledAbort reason) else raise not_a_function);
  modify writableStreamDefaultControllerClearAlgorithms.

(** [for (...) writeRequest.reject(storedError)] *)
Definition reject_all (ids : list nat) (e : value) (s : ws) : ws :=
  foldl (fun s id => reject id e s) s ids.

Definition writableStreamFinishErroring : M ws unit :=
  do! bind (gets state) (fun st => assert (bool_decide (st = Erroring)));
  do! bind (gets writableStreamHasOperationMarkedInFlight) (fun b => assert (negb b));
  do! modify (set_state Errored);
  do! modify (set_queue resetQueue);
  let! s := gets (fun s => s) in
  do! modify (reject_all (writeRequests s) (storedError s));
  do! modify (set_writeRequests []);
  match pendingAbortRequest s with
  | None => writableStreamRejectCloseAndClosedPromiseIfNeeded
  | Some a =>
      do! modify (set_pendingAbortRequest None);
      if wasAlreadyErroring a then
        do! modify (reject (ar_deferred a) (storedError s));
        writableStreamRejectCloseAndClosedPromiseIfNeeded
      else
        do! abortSteps (ar_reason a);
        modify (fun s => set_jobs (jobs s ++ [JAbort (ar_deferred a)]) s)
  end.

Definition writableStreamStartErroring (reason : value) : M ws unit :=
  do! bind (gets storedError) (fun e => assert (bool_decide (e = Undefined)));
  do! bind (gets state) (fun st => assert (bool_decide (st = Writable)));
  do! modify (set_state Erroring);
  do! modify (set_storedError reason);
  let! w := gets writer in
  do! (match w with
       | Some w => writableStreamDefaultWriterEnsureReadyPromiseRejected w reason
       | None => mret tt
       end);
  let! s := gets (fun s => s) in
  if negb (writableStreamHasOperationMarkedInFlight s) && started s
  then writableStreamFinishErroring
  else mret tt.

Definition writableStreamDealWithRejection (error : value) : M ws unit :=
  let! st := gets state in
  if bool_decide (st = Writable) then writableStreamStartErroring error
  else
    do! assert (bool_decide (st = Erroring));
    writableStreamFinishErroring.

Definition writableStreamDefaultControllerError (error : value) : M ws unit :=
  do! bind (gets state) (fun st => assert (bool_decide (st = Writable)));
  do! modify writableStreamDefaultControllerClearAlgorithms;
  writableStreamStartErroring error.

Definition writableStreamDefaultControllerErrorIfNeeded (error : value) : M ws unit :=
  let! st := gets state in
  if bool_decide (st = Writable) then writableStreamDefaultControllerError error else mret tt.

Definition writableStreamDefaultControllerProcessClose : M ws unit :=
  do! writableStreamMarkCloseRequestInFlight;
  do! dequeue_value;
  do! bind (gets queue) (fun q => assert (bool_decide (c_queue q = [])));
  let! f := gets closeAlgorithm in
  do! (if f then invoke CalledClose else raise not_a_function);
  do! modify writableStreamDefaultControllerClearAlgorithms;
  modify (fun s => set_jobs (jobs s ++ [JClose]) s).

Definition writableStreamDefaultControllerProcessWrite (chunk : value) : M ws unit :=
  do! writableStreamMarkFirstWriteRequestInFlight;
  let! f := gets writeAlgorithm in
  do! (if f then invoke (CalledWrite chunk) else raise not_a_function);
  modify (fun s => set_jobs (jobs s ++ [JWrite]) s).

Definition writableStreamDefaultControllerAdvanceQueueIfNeeded : M ws unit :=
  let! s := gets (fun s => s) in
  if negb (started s) then mret tt
  else if bool_decide (inFlightWriteRequest s <> None) then mret tt
  else
    do! assert (negb (bool_decide (state s = Closed)) && negb (bool_decide (state s = Errored)));
    if bool_decide (state s = Erroring) then writableStreamFinishErroring
    else if bool_decide (c_queue (queue s) = []) then mret tt
    else
      let! value := peek_value in
      match value with
      | IClose => writableStreamDefaultControllerProcessClose
      | IChunk chunk => writableStreamDefaultControllerProcessWrite chunk
      end.

(** [backpressure = getBackpressure(controller); updateBackpressure(stream, backpressure)],
    unless the stream is closing or not writable any more. *)
Definition refresh_backpressure : M ws unit :=
  let! s := gets (fun s => s) in
  if negb (writableStreamCloseQueuedOrInFlight s) && bool_decide (state s = Writable)
  then writableStreamUpdateBackpressure (writableStreamDefaultControllerGetBackpressure s)
  else mret tt.

Definition writableStreamDefaultControllerClose : M ws unit :=
  do! enqueue_value IClose (num_of_Z 0);
  writableStreamDefaultControllerAdvanceQueueIfNeeded.

Definition writableStreamDefaultControllerWrite (id : nat) (chunk : value) (chunkSize : num) : M ws unit :=
  let! ok := try_catch (do! enqueue_value (IChunk chunk) chunkSize;
                        do! modify (emit (Accepted id chunk)); mret true)
    (fun e => do! writableStreamDefaultControllerErrorIfNeeded e; mret false) in
  if (ok : bool) then
    do! refresh_backpressure;
    writableStreamDefaultControllerAdvanceQueueIfNeeded
  else mret tt.

Definition writableStreamDefaultControllerGetChunkSize : M ws num :=
  try_catch
    (let! f := gets strategySizeAlgorithm in
     if f then invoke_size else raise not_a_function)
    (fun e => do! writableStreamDefaultControllerErrorIfNeeded e; mret (num_of_Z 1)).

(** *** Reactions *)

Definition writableStreamFinishInFlightWrite : M ws unit :=
  let! r := gets inFlightWriteRequest in
  match r with
  | None => raise AssertionErr
  | Some id =>
      do! modify (resolve id);
      modify (set_inFlightWriteRequest None)
  end.

Definition write_fulfilled : M ws unit :=
  do! writableStreamFinishInFlightWrite;
  let! st := gets state in
  do! assert (bool_decide (st = Writable) || bool_decide (st = Erroring));
  do! dequeue_value;
  let! s := gets (fun s => s) in
  do! (if negb (writableStreamCloseQueuedOrInFlight s) && bool_decide (st = Writable)
       then writableStreamUpdateBackpressure (writableStreamDefaultControllerGetBackpressure s)
       else mret tt);
  writableStreamDefaultControllerAdvanceQueueIfNeeded.

Definition writableStreamFinishInFlightWriteWithError (error : value) : M ws unit :=
  let! r := gets inFlightWriteRequest in
  match r with
  | None => raise AssertionErr
  | Some id =>
      do! modify (reject id error);
      do! modify (set_inFlightWriteRequest None);
      let! st := gets state in
      do! assert (bool_decide (st = Writable) || bool_decide (st = Erroring));
      writableStreamDealWithRejection error
  end.

Definition write_rejected (reason : value) : M ws unit :=
  let! st := gets state in
  do! (if bool_decide (st = Writable) then modify writableStreamDefaultControllerClearAlgorithms else mret tt);
  writableStreamFinishInFlightWriteWithError reason.

Definition writableStreamFinishInFlightClose : M ws unit :=
  let! r := gets inFlightCloseRequest in
  match r with
  | None => raise AssertionErr
  | Some id =>
      do! modify (resolve id);
      do! modify (set_inFlightCloseRequest None);
      let! st := gets state in
      do! assert (bool_decide (st = Writable) || bool_decide (st = Erroring));
      do! (if bool_decide (st = Erroring) then
             do! modify (set_storedError Undefined);
             let! a := gets pendingAbortRequest in
             match a with
             | Some a =>
                 do! modify (resolve (ar_deferred a));
                 modify (set_pendingAbortRequest None)
             | None => mret tt
             end
           else mret tt);
      do! modify (set_state Closed);
      let! w := gets writer in
      do! (match w with
           | Some w => modify (fun s => resolve (w_closed (get_writer w s)) s)
           | None => mret tt
           end);
      do! bind (gets pendingAbortRequest) (fun a => assert (match a with None => true | Some _ => false end));
      bind (gets storedError) (fun e => assert (bool_decide (e = Undefined)))
  end.

Definition writableStreamFinishInFlightCloseWithError (error : value) : M ws unit :=
  let! r := gets inFlightCloseRequest in
  match r with
  | None => raise AssertionErr
  | Some id =>
      do! modify (reject id error);
      do! modify (set_inFlightCloseRequest None);
      let! st := gets state in
      do! assert (bool_decide (st = Writable) || bool_decide (st = Erroring));
      let! a := gets pendingAbortRequest in
      do! (match a with
           | Some a =>
               do! modify (reject (ar_deferred a) error);
               modify (set_pendingAbortRequest None)
           | None => mret tt
           end);
      writableStreamDealWithRejection error
  end.

(** The reactions to the promise of [abort]. *)
Definition abort_fulfilled (d : nat) : M ws unit :=
  do! modify (resolve d);
  writableStreamRejectCloseAndClosedPromiseIfNeeded.
Definition abort_rejected (d : nat) (reason : value) : M ws unit :=
  do! modify (reject d reason);
  writableStreamRejectCloseAndClosedPromiseIfNeeded.

(** The reactions to the promise of [start]. *)
Definition start_fulfilled : M ws unit :=
  do! bind (gets state) (fun st => assert (bool_decide (st = Writable) || bool_decide (st = Erroring)));
  do! modify (set_started true);
  writableStreamDefaultControllerAdvanceQueueIfNeeded.
Definition start_rejected (r : value) : M ws unit :=
  do! bind (gets state) (fun st => assert (bool_decide (st = Writable) || bool_decide (st = Erroring)));
  do! modify (set_started true);
  writableStreamDealWithRejection r.

(** *** Abort, close, write *)

Definition writableStreamAbort (reason : value) : M ws promise :=
  let! st := gets state in
  if bool_decide (st = Closed) || bool_decide (st = Errored) then mret PResolved
  else
    do! signalAbort;
    (* [state] was read before the listeners ran *)
    if bool_decide (st = Closed) || bool_decide (st = Errored) then mret PResolved
    else
      let! pending := gets pendingAbortRequest in
      match pending with
      | Some a => mret (PDeferred (ar_deferred a))
      | None =>
          do! assert (bool_decide (st = Writable) || bool_decide (st = Erroring));
          let was := bool_decide (st = Erroring) in
          let reason := if was then Undefined else reason in
          let! d := new_deferred in
          do! modify (set_pendingAbortRequest (Some (AbortRequest d reason was)));
          do! (if negb was then writableStreamStartErroring reason else mret tt);
          mret (PDeferred d)
      end.

Definition writableStreamClose : M ws promise :=
  let! st := gets state in
  if bool_decide (st = Closed) || bool_decide (st = Errored)
  then mret (PRejected (TypeErr "Writable stream is closed or errored."))
  else
    do! assert (bool_decide (st = Writable) || bool_decide (st = Erroring));
    do! bind (gets writableStreamCloseQueuedOrInFlight) (fun c => assert (negb c));
    let! d := new_deferred in
    do! modify (set_closeRequest (Some d));
    let! s := gets (fun s => s) in
    do! (match writer s with
         | Some w =>
             if backpressure s && bool_decide (st = Writable)
             then modify (resolve (w_ready (get_writer w s)))
             else mret tt
         | None => mret tt
         end);
    do! writableStreamDefaultControllerClose;
    mret (PDeferred d).

Definition writableStreamDefaultWriterWrite (w : nat) (chunk : value) : M ws promise :=
  do! bind (gets (fun s => w_stream (get_writer w s))) assert;
  let! chunkSize := writableStreamDefaultControllerGetChunkSize in
  let! s := gets (fun s => s) in
  if negb (w_stream (get_writer w s))
  then mret (PRejected (TypeErr "Writer's stream is unexpected."))
  else if bool_decide (state s = Errored) then mret (PRejected (storedError s))
  else if writableStreamCloseQueuedOrInFlight s || bool_decide (state s = Closed)
  then mret (PRejected (TypeErr "The stream is closing or is closed."))
  else if bool_decide (state s = Erroring) then mret (PRejected (storedError s))
  else
    do! assert (bool_decide (state s = Writable));
    let! d := writableStreamAddWriteRequest in
    do! writableStreamDefaultControllerWrite d chunk chunkSize;
    mret (PDeferred d).

Definition writableStreamDefaultWriterCloseWithErrorPropagation (w : nat) : M ws promise :=
  do! bind (gets (fun s => w_stream (get_writer w s))) assert;
  let! s := gets (fun s => s) in
  if writableStreamCloseQueuedOrInFlight s || bool_decide (state s = Closed) then mret PResolved
  else if bool_decide (state s = Errored) then mret (PRejected (storedError s))
  else
    do! assert (bool_decide (state s = Writable) || bool_decide (state s = Erroring));
    writableStreamClose.

Definition writableStreamDefaultWriterRelease (w : nat) : M ws unit :=
  do! bind (gets (fun s => w_stream (get_writer w s))) assert;
  do! bind (gets writer) (fun x => assert (bool_decide (x = Some w)));
  let releasedError := TypeErr "The writer has already been released." in
  do! writableStreamDefaultWriterEnsureReadyPromiseRejected w releasedError;
  do! writableStreamDefaultWriterEnsureClosedPromiseRejected w releasedError;
  do! modify (set_writer None);
  modify (set_stream w false).

(** The new writer is the next position of [writers]. *)
Definition setUpWritableStreamDefaultWriter : M ws nat :=
  let! s := gets (fun s => s) in
  if isWritableStreamLocked s then raise (TypeErr "The stream is already locked.")
  else
    let w := length (writers s) in
    let! ready := new_deferred in
    let! closed := new_deferred in
    do! modify (set_writers (writers s ++ [mkWriter true ready closed]));
    do! modify (set_writer (Some w));
    do! (match state s with
         | Writable =>
             if negb (writableStreamCloseQueuedOrInFlight s) && backpressure s then mret tt
             else modify (resolve ready)
         | Erroring => modify (reject ready (storedError s))
         | Closed => do! modify (resolve ready); modify (resolve closed)
         | Errored => do! modify (reject ready (storedError s)); modify (reject closed (storedError s))
         end);
    mret w.

(** *** The public methods *)

Definition no_stream : value := TypeErr "A writable stream is not associated with the writer.".

Definition stream_abort (reason : value) : M ws promise :=
  let! l := gets isWritableStreamLocked in
  if l then mret (PRejected (TypeErr "The writable stream is locked, therefore cannot be aborted."))
  else writableStreamAbort reason.

Definition stream_close : M ws promise :=
  let! s := gets (fun s => s) in
  if isWritableStreamLocked s
  then mret (PRejected (TypeErr "The writable stream is locked, therefore cannot be closed."))
  else if writableStreamCloseQueuedOrInFlight s
  then mret (PRejected (TypeErr "The writable stream is already closing."))
  else writableStreamClose.

Definition writer_abort (w : nat) (reason : value) : M ws promise :=
  let! has := gets (fun s => w_stream (get_writer w s)) in
  if negb has then mret (PRejected no_stream) else writableStreamAbort reason.

Definition writer_close (w : nat) : M ws promise :=
  let! s := gets (fun s => s) in
  if negb (w_stream (get_writer w s)) then mret (PRejected no_stream)
  else if writableStreamCloseQueuedOrInFlight s
  then mret (PRejected (TypeErr "The associated stream is already closing."))
  else writableStreamClose.

Definition writer_releaseLock (w : nat) : M ws unit :=
  let! s := gets (fun s => s) in
  if negb (w_stream (get_writer w s)) then mret tt
  else
    do! assert (isWritableStreamLocked s);
    writableStreamDefaultWriterRelease w.

Definition writer_write (w : nat) (chunk : value) : M ws promise :=
  let! has := gets (fun s => w_stream (get_writer w s)) in
  if negb has then mret (PRejected (TypeErr "A writable stream is not associate with the writer."))
  else writableStreamDefaultWriterWrite w chunk.

Definition controller_error (e : value) : M ws unit :=
  let! st := gets state in
  if bool_decide (st <> Writable) then mret tt else writableStreamDefaultControllerError e.

Definition run_op (o : op) : M ws unit :=
  match o with
  | GetWriter => do! setUpWritableStreamDefaultWriter; mret tt
  | StreamAbort reason => do! stream_abort reason; mret tt
  | StreamClose => do! stream_close; mret tt
  | Write w chunk => do! writer_write w chunk; mret tt
  | WriterClose w => do! writer_close w; mret tt
  | WriterAbort w reason => do! writer_abort w reason; mret tt
  | ReleaseLock w => writer_releaseLock w
  | ControllerError e => controller_error e
  end.

(** One operation of user code; what it throws is recorded. *)
Definition act (o : op) (s : ws) : ws :=
  match run_op o s with
  | (s', Ret _) => s'
  | (s', Raise e) => emit (Threw e) s'
  end.

Definition run_acts (acts : list op) (s : ws) : ws := foldl (fun s o => act o s) s acts.

(** [uponPromise] swallows what a reaction throws, but reports assertions. *)
Definition run_job (j : job) (r : result unit) (s : ws) : ws :=
  let m :=
    match j, r with
    | JStart, Ret _ => start_fulfilled
    | JStart, Raise e => start_rejected e
    | JWrite, Ret _ => write_fulfilled
    | JWrite, Raise e => write_rejected e
    | JClose, Ret _ => writableStreamFinishInFlightClose
    | JClose, Raise e => writableStreamFinishInFlightCloseWithError e
    | JAbort d, Ret _ => abort_fulfilled d
    | JAbort d, Raise e => abort_rejected d e
    end in
  match m s with
  | (s', Raise AssertionErr) => emit (InternalError AssertionErr) s'
  | (s', _) => s'
  end.

(** A turn of the event loop: user code performs an operation, or the promise
    of the [k]-th waiting reaction settles. *)
Inductive event :=
  | Act (o : op)
  | Settle (k : nat) (r : result unit).

Definition run_event (e : event) (s : ws) : ws :=
  match e with
  | Act o => act o s
  | Settle k r =>
      match jobs s !! k with
      | Some j => run_job j r (set_jobs (delete k (jobs s)) s)
      | None => s
      end
  end.

Definition setUpWritableStreamDefaultController (s : ws) : ws :=
  let s := (writableStreamUpdateBackpressure (writableStreamDefaultControllerGetBackpressure s) s).1 in
  set_jobs (jobs (invoke CalledStart s).1 ++ [JStart]) (invoke CalledStart s).1.
End Operations.

(** ** Tying the knot *)

(** [exec n] runs scripts whose callbacks nest at most [n] deep. *)
Fixpoint exec (n : nat) (acts : list op) (s : ws) : ws :=
  match n with
  | O => s
  | S n => run_acts (exec n) acts s
  end.

(** The calls that are still scripted bound the nesting; the listeners run
    once. *)
Definition depth (s : ws) : nat :=
  length (calls s) + length (sizes s) + (if aborted s then 0 else 1).

Definition initializeWritableStream (hwm : num) (calls : list (list op)) (listeners : list op)
    (sizes : list (list op * result num)) : ws :=
  mkWS Writable Undefined None None [] None None None false resetQueue false true true true true hwm
    false [] [] [] calls listeners sizes [].

Definition createWritableStream (hwm : num) (calls : list (list op)) (listeners : list op)
    (sizes : list (list op * result num)) : ws :=
  let s := initializeWritableStream hwm calls listeners sizes in
  setUpWritableStreamDefaultController (exec (S (depth s))) s.

Definition step (s : ws) (e : event) : ws := run_event (exec (S (depth s))) e s.

Definition run (evs : list event) (s : ws) : ws := foldl step s evs.

(** The state of a stream after [evs]. *)
Definition run_stream hwm calls listeners sizes evs : ws :=
  run evs (createWritableStream hwm calls listeners sizes).

(** ** Examples *)

Example ws_run_basic :
  let s := run_stream (num_of_Z 1) [] [] []
    [Act GetWriter; Act (Write 0 (Data 1)); Act (Write 0 (Data 2)); Act (WriterClose 0);
     Settle 0 (Ret tt); Settle 0 (Ret tt); Settle 0 (Ret tt); Settle 0 (Ret tt)] in
  state s = Closed /\
  log s = [CalledStart; Accepted 2 (Data 1); Accepted 4 (Data 2); CalledWrite (Data 1); CalledWrite (Data 2);
           CalledClose] /\
  promises s = replicate 6 (Resolved RUndefined).
Proof. vm_compute. done. Qed.

(** Writing while the close of the sink is in flight errors the stream: the
    size algorithm is cleared by then, and calling it throws. *)
Lemma write_while_closing_errors :
  let evs := [Settle 0 (Ret tt); Act GetWriter; Act (WriterClose 0); Act (Write 0 (Data 1))] in
  let s := run_stream (num_of_Z 1) [] [] [] evs in
  state s = Erroring /\ storedError s = not_a_function /\
  promises (run_stream (num_of_Z 1) [] [] [] (evs ++ [Settle 0 (Raise (Data 9))])) !! 2%nat = Some (Rejected (Data 9)) /\
  storedError (run_stream (num_of_Z 1) [] [] [] (evs ++ [Settle 0 (Raise (Data 9))])) = not_a_function.
Proof. vm_compute. done. Qed.

(** [abort] does not read the state again after the signal's listeners ran: a
    listener that errors the stream makes it fail an assertion. *)
Lemma abort_listener_breaks_assertion :
  log (run_stream (num_of_Z 1) [] [ControllerError (Data 5)] []
         [Settle 0 (Ret tt); Act (StreamAbort (Data 1))]) = [CalledStart; Threw AssertionErr].
Proof. vm_compute. done. Qed.
