(* ===== verification/WritableStreamProps.v ===== *)
(** * Writable streams: the invariant

    [inv g s] is what holds of a writable stream whenever user code can run.
    The ghost [g] says which calls of the sink are on the stack: a [write] or
    [close] whose promise has not been seen yet, and an [abort] with the
    deferred it will settle.

    The invariant has a part for every state ([in_state]): what is queued and
    in flight, which of the accepted chunks were given to the sink, and which
    promises are settled.  [prom] is the account of the promises: those the
    stream owes to callers are pending and distinct, and nothing else is
    pending but the two promises of the current writer. *)

From Stdlib Require Import ZArith Lia.
From stdpp Require Import base list numbers option strings.
From S2P Require Import Prelude JsNumber StreamBase WritableStream.

#[local] Open Scope nat_scope.

Record ghost := Ghost {
  g_write : bool;
  g_close : bool;
  g_abort : option nat;
  g_starts : nat;
  g_started : bool;
}.

(** ** Observations *)

(** The writes the stream accepted, with their promises. *)
Definition accepted (l : list obs) : list (nat * value) :=
  omap (fun o => match o with Accepted i c => Some (i, c) | _ => None end) l.

(** The chunks given to the sink. *)
Definition written (l : list obs) : list value :=
  omap (fun o => match o with CalledWrite c => Some c | _ => None end) l.

Definition b2n (b : bool) : nat := if b then 1 else 0.
Definition o2n {A} (o : option A) : nat := match o with Some _ => 1 | None => 0 end.

Definition is_start (j : job) : bool := match j with JStart => true | _ => false end.
Definition is_write (j : job) : bool := match j with JWrite => true | _ => false end.
Definition is_close (j : job) : bool := match j with JClose => true | _ => false end.
Definition count (f : job -> bool) (l : list job) : nat := length (filter (fun j => f j = true) l).

Definition abort_jobs (l : list job) : list nat :=
  omap (fun j => match j with JAbort d => Some d | _ => None end) l.

(** ** The account of the promises *)

(** [owed] are pending, distinct from each other and from [own], and nothing
    else is pending. *)
Record prom (owed own : list nat) (ds : deferreds) : Prop := {
  p_nodup : NoDup (owed ++ own);
  p_owed : forall i, i ∈ owed -> ds !! i = Some Pending;
  p_own : forall i, i ∈ own -> i < length ds;
  p_all : forall i, ds !! i = Some Pending -> i ∈ owed ++ own;
}.

(** Settled promises keep their value. *)
Definition grows (ds ds' : deferreds) : Prop :=
  forall i d, ds !! i = Some d -> d <> Pending -> ds' !! i = Some d.

Lemma grows_refl ds : grows ds ds.
Proof. by intros i d H _. Qed.

Lemma grows_trans ds ds1 ds2 : grows ds ds1 -> grows ds1 ds2 -> grows ds ds2.
Proof. intros H1 H2 i d H Hd. apply H2; [by apply H1|done]. Qed.

Lemma grows_settle id d ds : grows ds (deferred_settle id d ds).
Proof.
  intros i x H Hx. rewrite lookup_deferred_settle. case_bool_decide as E; [|done]. destruct E as [-> E]. congruence.
Qed.

Lemma grows_snoc d ds : grows ds (ds ++ [d]).
Proof. intros i x H _. rewrite lookup_app_l; [done|by eapply lookup_lt_Some]. Qed.

Lemma pending_settle id d ds i : d <> Pending ->
  deferred_settle id d ds !! i = Some Pending <-> ds !! i = Some Pending /\ i <> id.
Proof.
  intros Hd. rewrite lookup_deferred_settle. case_bool_decide as E.
  - destruct E as [-> E]. split; [congruence|]. by intros [_ []].
  - split; [|tauto]. intros H. split; [done|]. intros ->. by destruct E.
Qed.

Lemma pending_snoc d ds i : (ds ++ [d]) !! i = Some Pending <-> ds !! i = Some Pending \/ i = length ds /\ d = Pending.
Proof.
  destruct (decide (i < length ds)) as [Hi|Hi].
  - rewrite lookup_app_l by done. split; [by left|]. intros [|[-> _]]; [done|lia].
  - rewrite lookup_app_r by lia. split.
    + intros H. right. destruct (i - length ds) as [|n] eqn:E; simpl in H; [|done]. split; [lia|]. by injection H.
    + intros [H|[-> ->]]; [apply lookup_lt_Some in H; lia|]. by rewrite Nat.sub_diag.
Qed.

Lemma prom_settle_owed a id b own d ds : d <> Pending ->
  prom (a ++ id :: b) own ds -> prom (a ++ b) own (deferred_settle id d ds).
Proof.
  intros Hd [Hn Ho Hw Ha].
  assert (E : (a ++ id :: b) ++ own ≡ₚ id :: (a ++ b) ++ own) by (rewrite <-!app_assoc; simpl; symmetry; apply Permutation_middle).
  rewrite E in Hn. apply NoDup_cons in Hn as [Hni Hn]. split; [done| | |].
  - intros i Hi. apply pending_settle; [done|]. split.
    + apply Ho. rewrite elem_of_app, elem_of_cons. apply elem_of_app in Hi. tauto.
    + intros ->. apply Hni. apply elem_of_app. by left.
  - intros i Hi. rewrite length_deferred_settle. by apply Hw.
  - intros i Hi. apply pending_settle in Hi as [Hi Hne]; [|done]. apply Ha in Hi. rewrite E in Hi.
    by apply elem_of_cons in Hi as [|].
Qed.

Lemma prom_settle_own owed own id d ds : d <> Pending -> id ∉ owed ->
  prom owed own ds -> prom owed own (deferred_settle id d ds).
Proof.
  intros Hd Hi [Hn Ho Hw Ha]. split; [done| | |].
  - intros i H. apply pending_settle; [done|]. split; [by apply Ho|]. intros ->. done.
  - intros i H. rewrite length_deferred_settle. by apply Hw.
  - intros i H. apply pending_settle in H as [H _]; [|done]. by apply Ha.
Qed.

Lemma prom_settle_all a ids b own d ds : d <> Pending ->
  prom (a ++ ids ++ b) own ds -> prom (a ++ b) own (settle_all d ids ds).
Proof.
  intros Hd. revert ds. induction ids as [|id ids IH]; intros ds H; [done|]. simpl.
  apply IH. by apply prom_settle_owed.
Qed.

Lemma grows_settle_all d ids ds : grows ds (settle_all d ids ds).
Proof.
  revert ds. induction ids as [|id ids IH]; intros ds; simpl; [apply grows_refl|].
  eapply grows_trans; [apply grows_settle|apply IH].
Qed.

Lemma lookup_settle_all d ids ds i : d <> Pending -> i ∈ ids -> ds !! i = Some Pending ->
  settle_all d ids ds !! i = Some d.
Proof.
  intros Hd. revert ds. induction ids as [|id ids IH]; intros ds Hi Hp; simpl; [by apply elem_of_nil in Hi|].
  destruct (decide (i = id)) as [->|Hne].
  - apply grows_settle_all; [|done]. rewrite lookup_deferred_settle. by rewrite bool_decide_eq_true_2.
  - apply elem_of_cons in Hi as [|Hi]; [done|]. apply IH; [done|]. by apply pending_settle.
Qed.

Lemma pending_settle_all d ids ds i : d <> Pending -> i ∉ ids ->
  settle_all d ids ds !! i = Some Pending <-> ds !! i = Some Pending.
Proof.
  intros Hd. revert ds. induction ids as [|id ids IH]; intros ds Hi; simpl; [done|].
  apply not_elem_of_cons in Hi as [Hne Hi]. rewrite IH, pending_settle by done. tauto.
Qed.

Lemma prom_new_owed a b own ds : prom (a ++ b) own ds -> prom (a ++ length ds :: b) own (ds ++ [Pending]).
Proof.
  intros [Hn Ho Hw Ha].
  assert (Hlt : forall i, i ∈ (a ++ b) ++ own -> i < length ds).
  { intros i H. apply elem_of_app in H as [H|H]; [by eapply lookup_lt_Some, Ho|by apply Hw]. }
  assert (E : (a ++ length ds :: b) ++ own ≡ₚ length ds :: (a ++ b) ++ own)
    by (rewrite <-!app_assoc; simpl; symmetry; apply Permutation_middle).
  split.
  - rewrite E. apply NoDup_cons. split; [|done]. intros X. apply Hlt in X. lia.
  - intros i H. apply pending_snoc. rewrite elem_of_app, elem_of_cons in H.
    destruct H as [H|[->|H]]; [left; apply Ho; apply elem_of_app; by left|by right|left; apply Ho; apply elem_of_app; by right].
  - intros i H. rewrite length_app. specialize (Hw i H). lia.
  - intros i H. rewrite E, elem_of_cons. apply pending_snoc in H as [H|[-> _]]; [right; by apply Ha|by left].
Qed.

(** Replacing a promise of the writer that is settled. *)
Lemma prom_new_own owed o1 x o2 d ds : ds !! x <> Some Pending ->
  prom owed (o1 ++ x :: o2) ds -> prom owed (o1 ++ length ds :: o2) (ds ++ [d]).
Proof.
  intros Hx [Hn Ho Hw Ha].
  assert (Hlt : forall i, i ∈ owed ++ o1 ++ x :: o2 -> i < length ds).
  { intros i H. apply elem_of_app in H as [H|H]; [by eapply lookup_lt_Some, Ho|by apply Hw]. }
  assert (E : forall y, owed ++ o1 ++ y :: o2 ≡ₚ y :: owed ++ o1 ++ o2).
  { intros y. rewrite !app_assoc. symmetry. apply Permutation_middle. }
  rewrite E in Hn. apply NoDup_cons in Hn as [_ Hn].
  split.
  - rewrite E. apply NoDup_cons. split; [|done]. intros X. assert (length ds < length ds); [|lia].
    apply Hlt. rewrite E. by constructor.
  - intros i H. apply pending_snoc. left. by apply Ho.
  - intros i H. rewrite length_app. simpl. rewrite elem_of_app, elem_of_cons in H.
    destruct H as [H|[->|H]]; [|lia|]; (assert (i < length ds); [|lia]); apply Hw; rewrite elem_of_app, elem_of_cons; tauto.
  - intros i H. rewrite E, elem_of_cons. apply pending_snoc in H as [H|[-> _]]; [|by left].
    right. pose proof (Ha i H) as X. rewrite E, elem_of_cons in X. destruct X as [->|]; [done|done].
Qed.

(** Letting go of a writer whose promises are settled. *)
Lemma prom_drop owed own ds : (forall i, i ∈ own -> ds !! i <> Some Pending) -> prom owed own ds -> prom owed [] ds.
Proof.
  intros H [Hn Ho Hw Ha]. split; [rewrite app_nil_r; by apply NoDup_app in Hn as [? _]|done|by intros i ?%elem_of_nil|].
  intros i Hi. rewrite app_nil_r. pose proof (Ha i Hi) as X. apply elem_of_app in X as [|X]; [done|]. by destruct (H i X).
Qed.

(** Two new promises for a new writer. *)
Lemma prom_adopt owed ds d1 d2 : prom owed [] ds ->
  prom owed [length ds; S (length ds)] (ds ++ [d1] ++ [d2]).
Proof.
  intros [Hn Ho Hw Ha]. rewrite app_nil_r in Hn.
  assert (Hlt : forall i, i ∈ owed -> i < length ds) by (intros i H; by eapply lookup_lt_Some, Ho).
  split.
  - apply NoDup_app. split; [done|]. split.
    + intros x H. apply Hlt in H. rewrite !elem_of_cons, elem_of_nil. lia.
    + repeat constructor; rewrite ?elem_of_cons, ?elem_of_nil; lia.
  - intros i H. rewrite lookup_app_l by by apply Hlt. by apply Ho.
  - intros i H. rewrite !length_app. simpl. rewrite !elem_of_cons, elem_of_nil in H. lia.
  - intros i H. rewrite app_assoc in H. rewrite elem_of_app, !elem_of_cons.
    apply pending_snoc in H as [H|[-> _]]; [apply pending_snoc in H as [H|[-> _]]; [|by auto]|].
    + left. apply Ha in H. by rewrite app_nil_r in H.
    + right. right. left. rewrite length_app. simpl. lia.
Qed.

Lemma prom_perm owed owed' own ds : owed ≡ₚ owed' -> prom owed own ds -> prom owed' own ds.
Proof.
  intros E [Hn Ho Hw Ha]. split; [by rewrite <-E|intros i; rewrite <-E; apply Ho|done|intros i; rewrite <-E; apply Ha].
Qed.

Lemma lookup_lt_prom owed own ds i : prom owed own ds -> i ∈ owed -> i < length ds.
Proof. intros H Hi. eapply lookup_lt_Some, (p_owed _ _ _ H), Hi. Qed.

(** ** The invariant *)

(** The promises that the stream owes to its callers. *)
Definition owed (g : ghost) (s : ws) : list nat :=
  option_list (inFlightWriteRequest s) ++ writeRequests s ++ option_list (inFlightCloseRequest s) ++
  option_list (closeRequest s) ++ (ar_deferred <$> option_list (pendingAbortRequest s)) ++
  option_list (g_abort g) ++ abort_jobs (jobs s).

(** The promises of the current writer. *)
Definition own (s : ws) : list nat :=
  match writer s with
  | Some w => [w_ready (get_writer w s); w_closed (get_writer w s)]
  | None => []
  end.

Record common (g : ghost) (s : ws) : Prop := {
  cm_writes : count is_write (jobs s) + b2n (g_write g) = o2n (inFlightWriteRequest s);
  cm_closes : count is_close (jobs s) + b2n (g_close g) = o2n (inFlightCloseRequest s);
  cm_starts : count is_start (jobs s) = g_starts g;
  cm_started : started s = g_started g;
  cm_excl : inFlightWriteRequest s <> None -> inFlightCloseRequest s = None;
  cm_notyet : started s = false -> inFlightWriteRequest s = None /\ inFlightCloseRequest s = None;
  cm_writer : forall w x, writers s !! w = Some x -> (w_stream x = true <-> writer s = Some w);
  cm_valid : forall w, writer s = Some w -> is_Some (writers s !! w);
  cm_queue : container_ok (queue s);
  cm_user : Forall (fun x => x.2 <> Raise AssertionErr) (sizes s);
  cm_listeners : listeners s = [];
  cm_noassert : (Threw AssertionErr ∉ log s) /\ (InternalError AssertionErr ∉ log s);
  cm_prom : prom (owed g s) (own s) (promises s);
}.

(** Whether the current writer's promises are pending. *)
Definition ready_is (b : bool) (s : ws) : Prop :=
  forall w, writer s = Some w -> deferred_pending (w_ready (get_writer w s)) (promises s) = b.
Definition closed_is (b : bool) (s : ws) : Prop :=
  forall w, writer s = Some w -> deferred_pending (w_closed (get_writer w s)) (promises s) = b.

Definition resolved (ds : deferreds) (i : nat) : Prop := ds !! i = Some (Resolved RUndefined).
Definition rejected (ds : deferreds) (i : nat) : Prop := exists e, ds !! i = Some (Rejected e).

(** The writes in progress. *)
Definition current (s : ws) : list nat := option_list (inFlightWriteRequest s) ++ writeRequests s.

(** The accepted writes are [fin ++ cur]: [fin] are done, [cur] is what the
    queue holds, and the sink has seen [fin] and the write in flight.  In state
    writable the current requests are exactly those of [cur]. *)
Definition opened (strict : bool) (s : ws) : Prop :=
  exists fin cur : list (nat * value),
    accepted (log s) = fin ++ cur /\ Forall (resolved (promises s)) fin.*1 /\
    (c_queue (queue s)).*1 = (IChunk <$> cur.*2) ++ match closeRequest s with Some _ => [IClose] | None => [] end /\
    written (log s) = fin.*2 ++ take (o2n (inFlightWriteRequest s)) cur.*2 /\
    (inFlightWriteRequest s <> None -> cur <> []) /\
    cur.*1 `prefix_of` current s /\ (strict = true -> cur.*1 = current s) /\
    (inFlightCloseRequest s <> None -> cur = [] /\ closeRequest s = None /\ writeRequests s = []).

(** What is left of the account when a write has failed. *)
Definition failing (s : ws) : Prop :=
  exists (fin cur : list (nat * value)) (k : nat),
    accepted (log s) = fin ++ cur /\ Forall (resolved (promises s)) fin.*1 /\
    written (log s) = fin.*2 ++ take k cur.*2 /\ k <= 1 /\
    forall i, i ∈ cur.*1 -> i ∈ current s \/ rejected (promises s) i.

Definition aborting (g : ghost) (s : ws) : Prop := option_list (g_abort g) ++ abort_jobs (jobs s) <> [].

Definition algorithms (s : ws) : Prop :=
  writeAlgorithm s = true /\ closeAlgorithm s = true /\ abortAlgorithm s = true /\ strategySizeAlgorithm s = true.

(** An abort request that will call the sink finds the algorithm. *)
Definition abortable (s : ws) : Prop :=
  forall a, pendingAbortRequest s = Some a -> wasAlreadyErroring a = false ->
    inFlightCloseRequest s = None -> abortAlgorithm s = true.

Definition idle (s : ws) : Prop := inFlightWriteRequest s = None /\ inFlightCloseRequest s = None.

Record in_writable (g : ghost) (s : ws) : Prop := {
  iw_opened : opened true s;
  iw_stored : storedError s = Undefined;
  iw_noabort : pendingAbortRequest s = None;
  iw_algos : inFlightCloseRequest s = None -> algorithms s;
  iw_closed : closed_is true s;
  iw_ready : ready_is (backpressure s && negb (writableStreamCloseQueuedOrInFlight s)) s;
  iw_backpressure : writableStreamCloseQueuedOrInFlight s = false ->
    backpressure s = writableStreamDefaultControllerGetBackpressure s;
  iw_noaborting : ~ aborting g s;
}.

Record in_erroring (g : ghost) (s : ws) : Prop := {
  ie_opened : opened false s;
  ie_abortable : abortable s;
  ie_closed : closed_is true s;
  ie_ready : ready_is false s;
  ie_noaborting : ~ aborting g s;
}.

(** Nothing is left to do. *)
Definition finished (s : ws) : Prop :=
  idle s /\ writeRequests s = [] /\ pendingAbortRequest s = None /\ c_queue (queue s) = [] /\
  started s = true /\ ready_is false s.

Record in_closed (g : ghost) (s : ws) : Prop := {
  ic_finished : finished s;
  ic_done : Forall (resolved (promises s)) (accepted (log s)).*1;
  ic_written : written (log s) = (accepted (log s)).*2;
  ic_closed : closed_is false s;
  ic_noclose : closeRequest s = None;
  ic_noaborting : ~ aborting g s;
}.

Record in_errored (g : ghost) (s : ws) : Prop := {
  ix_finished : finished s;
  ix_failing : failing s;
  ix_closed : ~ aborting g s -> closed_is false s /\ closeRequest s = None;
}.

Definition in_state (g : ghost) (s : ws) : Prop :=
  match state s with
  | Writable => in_writable g s /\ (started s = true -> idle s -> c_queue (queue s) = [])
  | Erroring => in_erroring g s /\ (started s = true -> ~ idle s)
  | Closed => in_closed g s
  | Errored => in_errored g s
  end.

Definition inv (g : ghost) (s : ws) : Prop := common g s /\ in_state g s.

(** ** Lemmas on the parts *)

Lemma ws_accepted_app l l' : accepted (l ++ l') = accepted l ++ accepted l'.
Proof. apply omap_app. Qed.
Lemma written_app l l' : written (l ++ l') = written l ++ written l'.
Proof. apply omap_app. Qed.
Lemma abort_jobs_app l l' : abort_jobs (l ++ l') = abort_jobs l ++ abort_jobs l'.
Proof. apply omap_app. Qed.
Lemma ws_count_app f l l' : count f (l ++ l') = count f l + count f l'.
Proof. unfold count. by rewrite filter_app, length_app. Qed.

Lemma resolved_grows ds ds' l : grows ds ds' -> Forall (resolved ds) l -> Forall (resolved ds') l.
Proof. intros H Hl. eapply Forall_impl; [exact Hl|]. intros i Hi. by apply H. Qed.

Lemma rejected_grows ds ds' i : grows ds ds' -> rejected ds i -> rejected ds' i.
Proof. intros H [e He]. exists e. by apply H. Qed.

(** An open account is one that may fail. *)
Lemma opened_failing b s : opened b s -> failing s.
Proof.
  intros (fin & cur & Ha & Hr & _ & Hw & _ & Hp & _). exists fin, cur, (o2n (inFlightWriteRequest s)).
  split; [done|]. split; [done|]. split; [done|]. split; [by destruct (inFlightWriteRequest s); simpl; lia|].
  intros i Hi. left. destruct Hp as [l ->]. apply elem_of_app. by left.
Qed.

(** The account depends on these fields only. *)
Lemma opened_frame b s s' l :
  opened b s -> queue s' = queue s -> closeRequest s' = closeRequest s ->
  inFlightWriteRequest s' = inFlightWriteRequest s -> writeRequests s' = writeRequests s ->
  inFlightCloseRequest s' = inFlightCloseRequest s -> grows (promises s) (promises s') ->
  log s' = log s ++ l -> accepted l = [] -> written l = [] -> opened b s'.
Proof.
  intros (fin & cur & Ha & Hr & Hq & Hw & Hne & Hp & Hst & Hc) E1 E2 E3 E4 E5 Hg E6 El1 El2.
  exists fin, cur. unfold current in *. rewrite E1, E2, E3, E4, E5, E6, ws_accepted_app, written_app, El1, El2, !app_nil_r.
  split; [done|]. split; [by eapply resolved_grows|]. done.
Qed.

Lemma failing_frame s s' l :
  failing s -> (forall i, i ∈ current s -> i ∈ current s' \/ rejected (promises s') i) ->
  grows (promises s) (promises s') -> log s' = log s ++ l -> accepted l = [] -> written l = [] -> failing s'.
Proof.
  intros (fin & cur & k & Ha & Hr & Hw & Hk & Hc) Hcur Hg E El1 El2.
  exists fin, cur, k. rewrite E, ws_accepted_app, written_app, El1, El2, !app_nil_r.
  split; [done|]. split; [by eapply resolved_grows|]. split; [done|]. split; [done|].
  intros i Hi. destruct (Hc i Hi) as [H|H]; [by apply Hcur|]. right. by eapply rejected_grows.
Qed.

Lemma same_log s s' : log s' = log s -> log s' = log s ++ [].
Proof. by rewrite app_nil_r. Qed.
