(* ===== verification/WritableStreamInv.v ===== *)
(** * Writable streams: erroring, and advancing the queue

    The functions that run no user code are reduced to the state they leave;
    [finishErroring_inv], [startErroring_inv] and [advance_inv] then show that
    the functions that call the sink keep the invariant, given that [user]
    does. *)

From Stdlib Require Import ZArith Lia.
From stdpp Require Import base list numbers option strings.
From S2P Require Import Prelude JsNumber StreamBase WritableStream WritableStreamProps.

#[local] Open Scope nat_scope.

(** ** Writers *)

Lemma get_writer_lookup w x s : writers s !! w = Some x -> get_writer w s = x.
Proof. intros H. unfold get_writer. by rewrite H. Qed.

(** The same writers, up to their promises. *)
Definition wsame (l l' : list writer_) : Prop := forall w, w_stream <$> l' !! w = w_stream <$> l !! w.

Lemma wsame_refl l : wsame l l.
Proof. done. Qed.

Lemma wsame_alter l w f : (forall x, w_stream (f x) = w_stream x) -> wsame l (alter f w l).
Proof.
  intros H i. destruct (decide (w = i)) as [->|Hne].
  - rewrite list_lookup_alter_eq. destruct (l !! i); simpl; by rewrite ?H.
  - by rewrite list_lookup_alter_ne.
Qed.

Lemma wsame_writer l l' wr : wsame l l' ->
  (forall w x, l !! w = Some x -> (w_stream x = true <-> wr = Some w)) ->
  (forall w x, l' !! w = Some x -> (w_stream x = true <-> wr = Some w)).
Proof.
  intros H Hw w x' Hx'. specialize (H w). rewrite Hx' in H. simpl in H.
  destruct (l !! w) as [x|] eqn:E; [|done]. injection H as ->. by apply Hw.
Qed.

Lemma wsame_valid l l' (w : nat) : wsame l l' -> is_Some (l !! w) -> is_Some (l' !! w).
Proof.
  intros H [x Hx]. specialize (H w). rewrite Hx in H. destruct (l' !! w); [by eexists|done].
Qed.

Lemma deferred_pending_true id ds : deferred_pending id ds = true <-> ds !! id = Some Pending.
Proof. unfold deferred_pending. by destruct (ds !! id) as [[]|]. Qed.

Lemma deferred_pending_false id ds : deferred_pending id ds = false <-> ds !! id <> Some Pending.
Proof. unfold deferred_pending. by destruct (ds !! id) as [[]|]. Qed.

Lemma deferred_pending_ext id ds ds' : (ds' !! id = Some Pending <-> ds !! id = Some Pending) ->
  deferred_pending id ds' = deferred_pending id ds.
Proof.
  intros H. destruct (deferred_pending id ds) eqn:E.
  - apply deferred_pending_true. apply H. by apply deferred_pending_true.
  - apply deferred_pending_false. apply deferred_pending_false in E. tauto.
Qed.

(** A state that differs from [s] in promises and writers' promises only. *)
Definition touched (ds : deferreds) (l : list writer_) (s : ws) : ws := set_promises ds (set_writers l s).

Record touches (O : list nat) (s : ws) (ds : deferreds) (l : list writer_) : Prop := {
  t_wsame : wsame (writers s) l;
  t_prom : prom O (own (touched ds l s)) ds;
  t_grows : grows (promises s) ds;
}.

Lemma settle_fresh d ds : deferred_settle (length ds) d (ds ++ [Pending]) = ds ++ [d].
Proof.
  unfold deferred_settle. rewrite lookup_app_r, Nat.sub_diag by done. simpl.
  by rewrite insert_app_r_alt, Nat.sub_diag by lia.
Qed.

Lemma own_eq s w x : writer s = Some w -> writers s !! w = Some x -> own s = [w_ready x; w_closed x].
Proof. intros H1 H2. unfold own. by rewrite H1, (get_writer_lookup _ _ _ H2). Qed.

Lemma ensure_ready O s w e : writer s = Some w -> is_Some (writers s !! w) -> prom O (own s) (promises s) ->
  exists ds l, writableStreamDefaultWriterEnsureReadyPromiseRejected w e s = (touched ds l s, Ret tt) /\
    touches O s ds l /\ ready_is false (touched ds l s) /\ forall b, closed_is b s -> closed_is b (touched ds l s).
Proof.
  intros Hw [x Hx] Hp. pose proof (get_writer_lookup _ _ _ Hx) as Hg.
  pose proof (own_eq s w x Hw Hx) as Ho. rewrite Ho in Hp.
  unfold writableStreamDefaultWriterEnsureReadyPromiseRejected. mstep. rewrite Hg.
  pose proof (p_nodup _ _ _ Hp) as Hn. apply NoDup_app in Hn as (_ & Hd & Hn2).
  assert (Hne : w_ready x <> w_closed x) by (intros E; apply NoDup_cons in Hn2 as [X _]; apply X; rewrite E; constructor).
  assert (Hro : w_ready x ∉ O) by (intros X; apply (Hd _ X); constructor).
  assert (Hlt : w_ready x < length (promises s) /\ w_closed x < length (promises s)).
  { split; apply (p_own _ _ _ Hp); [constructor|]. by apply list_elem_of_further, list_elem_of_singleton. }
  destruct (deferred_pending (w_ready x) (promises s)) eqn:Epe.
  - exists (deferred_reject (w_ready x) e (promises s)), (writers s).
    split; [by destruct s|]. split; [split|split].
    + apply wsame_refl.
    + replace (own (touched _ _ s)) with [w_ready x; w_closed x] by (by rewrite <-Ho).
      by apply prom_settle_own.
    + apply grows_settle.
    + intros w' Hw'. simpl in Hw'. assert (w' = w) as -> by congruence.
      change (get_writer w _) with (get_writer w s). rewrite Hg. apply deferred_pending_false. simpl.
      unfold deferred_reject. rewrite pending_settle by done. tauto.
    + intros b Hb w' Hw'. simpl in Hw'. rewrite <-(Hb w' Hw'). assert (w' = w) as -> by congruence.
      change (get_writer w (touched _ _ s)) with (get_writer w s). rewrite Hg. apply deferred_pending_ext. simpl.
      unfold deferred_reject. rewrite pending_settle by done. split; [tauto|]. by intros ?.
  - exists (promises s ++ [Rejected e]), (alter (fun x => mkWriter (w_stream x) (length (promises s)) (w_closed x)) w (writers s)).
    split.
    { unfold new_deferred. unfold bind at 1. mstep. unfold modify, reject, set_ready, touched, set_promises, set_writers. simpl.
      by rewrite <-(settle_fresh (Rejected e) (promises s)). }
    set (s' := touched _ _ s).
    assert (Hx' : writers s' !! w = Some (mkWriter (w_stream x) (length (promises s)) (w_closed x)))
      by (simpl; by rewrite list_lookup_alter_eq, Hx).
    pose proof (get_writer_lookup _ _ _ Hx') as Hg'.
    split; [split|split].
    + by apply wsame_alter.
    + change (own (touched _ _ s)) with (own s'). rewrite (own_eq s' w _ Hw Hx'). simpl.
      apply (prom_new_own O [] (w_ready x) [w_closed x]); [|done]. by apply deferred_pending_false.
    + apply grows_snoc.
    + intros w' H. simpl in H. assert (w' = w) as -> by congruence. rewrite Hg'. simpl. apply deferred_pending_false.
      rewrite pending_snoc. intros [X|[_ X]]; [|done]. apply lookup_lt_Some in X. lia.
    + intros b Hb w' H. simpl in H. rewrite <-(Hb w' H). assert (w' = w) as -> by congruence. rewrite Hg', Hg.
      simpl. apply deferred_pending_ext. rewrite pending_snoc. split; [|tauto]. intros [|[? ?]]; [done|lia].
Qed.

Lemma ensure_closed O s w e : writer s = Some w -> is_Some (writers s !! w) -> prom O (own s) (promises s) ->
  exists ds l, writableStreamDefaultWriterEnsureClosedPromiseRejected w e s = (touched ds l s, Ret tt) /\
    touches O s ds l /\ closed_is false (touched ds l s) /\ forall b, ready_is b s -> ready_is b (touched ds l s).
Proof.
  intros Hw [x Hx] Hp. pose proof (get_writer_lookup _ _ _ Hx) as Hg.
  pose proof (own_eq s w x Hw Hx) as Ho. rewrite Ho in Hp.
  unfold writableStreamDefaultWriterEnsureClosedPromiseRejected. mstep. rewrite Hg.
  pose proof (p_nodup _ _ _ Hp) as Hn. apply NoDup_app in Hn as (_ & Hd & Hn2).
  assert (Hne : w_ready x <> w_closed x) by (intros E; apply NoDup_cons in Hn2 as [X _]; apply X; rewrite E; constructor).
  assert (Hro : w_closed x ∉ O) by (intros X; apply (Hd _ X); by apply list_elem_of_further, list_elem_of_singleton).
  assert (Hlt : w_ready x < length (promises s) /\ w_closed x < length (promises s)).
  { split; apply (p_own _ _ _ Hp); [constructor|]. by apply list_elem_of_further, list_elem_of_singleton. }
  destruct (deferred_pending (w_closed x) (promises s)) eqn:Epe.
  - exists (deferred_reject (w_closed x) e (promises s)), (writers s).
    split; [by destruct s|]. split; [split|split].
    + apply wsame_refl.
    + replace (own (touched _ _ s)) with [w_ready x; w_closed x] by (by rewrite <-Ho).
      by apply prom_settle_own.
    + apply grows_settle.
    + intros w' Hw'. simpl in Hw'. assert (w' = w) as -> by congruence.
      change (get_writer w _) with (get_writer w s). rewrite Hg. apply deferred_pending_false. simpl.
      unfold deferred_reject. rewrite pending_settle by done. tauto.
    + intros b Hb w' Hw'. simpl in Hw'. rewrite <-(Hb w' Hw'). assert (w' = w) as -> by congruence.
      change (get_writer w (touched _ _ s)) with (get_writer w s). rewrite Hg. apply deferred_pending_ext. simpl.
      unfold deferred_reject. rewrite pending_settle by done. split; [tauto|]. intros ?. split; [done|]. congruence.
  - exists (promises s ++ [Rejected e]), (alter (fun x => mkWriter (w_stream x) (w_ready x) (length (promises s))) w (writers s)).
    split.
    { unfold new_deferred. unfold bind at 1. mstep. unfold modify, reject, set_closed, touched, set_promises, set_writers. simpl.
      by rewrite <-(settle_fresh (Rejected e) (promises s)). }
    set (s' := touched _ _ s).
    assert (Hx' : writers s' !! w = Some (mkWriter (w_stream x) (w_ready x) (length (promises s))))
      by (simpl; by rewrite list_lookup_alter_eq, Hx).
    pose proof (get_writer_lookup _ _ _ Hx') as Hg'.
    split; [split|split].
    + by apply wsame_alter.
    + change (own (touched _ _ s)) with (own s'). rewrite (own_eq s' w _ Hw Hx'). simpl.
      apply (prom_new_own O [w_ready x] (w_closed x) []); [|done]. by apply deferred_pending_false.
    + apply grows_snoc.
    + intros w' H. simpl in H. assert (w' = w) as -> by congruence. rewrite Hg'. simpl. apply deferred_pending_false.
      rewrite pending_snoc. intros [X|[_ X]]; [|done]. apply lookup_lt_Some in X. lia.
    + intros b Hb w' H. simpl in H. rewrite <-(Hb w' H). assert (w' = w) as -> by congruence. rewrite Hg', Hg.
      simpl. apply deferred_pending_ext. rewrite pending_snoc. split; [|tauto]. intros [|[? ?]]; [done|lia].
Qed.

(** ** Leaving the requests in state errored *)

Lemma ready_closed_ne g s w : common g s -> writer s = Some w ->
  w_ready (get_writer w s) <> w_closed (get_writer w s) /\
  (w_ready (get_writer w s) ∉ owed g s) /\ (w_closed (get_writer w s) ∉ owed g s).
Proof.
  intros Hc Hw. pose proof (p_nodup _ _ _ (cm_prom _ _ Hc)) as Hn. unfold own in Hn. rewrite Hw in Hn.
  apply NoDup_app in Hn as (_ & Hd & Hn2). apply NoDup_cons in Hn2 as [X _].
  split; [|split].
  - intros E. apply X. rewrite E. constructor.
  - intros Y. apply (Hd _ Y). constructor.
  - intros Y. apply (Hd _ Y). by apply list_elem_of_further, list_elem_of_singleton.
Qed.

(** The promises of the writer are not touched by settling owed ones. *)
Lemma own_settle A B own d id ds i : d <> Pending -> prom (A ++ id :: B) own ds -> i ∈ own ->
  deferred_pending i (deferred_settle id d ds) = deferred_pending i ds.
Proof.
  intros Hd Hp Hi. apply deferred_pending_ext. rewrite pending_settle by done.
  split; [tauto|]. intros H. split; [done|]. intros ->.
  pose proof (p_nodup _ _ _ Hp) as Hn. apply NoDup_app in Hn as (_ & Hn & _). apply (Hn id); [|done].
  apply elem_of_app. right. constructor.
Qed.

Lemma rejectClose_eq A B s : state s = Errored -> inFlightCloseRequest s = None ->
  (forall w, writer s = Some w -> is_Some (writers s !! w)) ->
  prom (A ++ option_list (closeRequest s) ++ B) (own s) (promises s) ->
  exists ds, writableStreamRejectCloseAndClosedPromiseIfNeeded s = (set_promises ds (set_closeRequest None s), Ret tt) /\
    prom (A ++ B) (own s) ds /\ grows (promises s) ds /\
    closed_is false (set_promises ds (set_closeRequest None s)) /\
    forall b, ready_is b s -> ready_is b (set_promises ds (set_closeRequest None s)).
Proof.
  intros Hst Hic Hv Hp. unfold writableStreamRejectCloseAndClosedPromiseIfNeeded. mstep.
  massert by (by apply bool_decide_eq_true). mstep.
  (* first the close request *)
  assert (H1 : exists ds1, (match closeRequest s with
       | Some c => do! assert (bool_decide (inFlightCloseRequest s = None));
                   do! modify (reject c (storedError s)); modify (set_closeRequest None)
       | None => mret tt end) s = (set_promises ds1 (set_closeRequest None s), Ret tt) /\
     prom (A ++ B) (own s) ds1 /\ grows (promises s) ds1 /\
     forall i, i ∈ own s -> deferred_pending i ds1 = deferred_pending i (promises s)).
  { destruct (closeRequest s) as [c|] eqn:Ec.
    - exists (deferred_reject c (storedError s) (promises s)). mstep. massert by (by apply bool_decide_eq_true). mstep.
      split; [by destruct s|]. split; [by apply prom_settle_owed|]. split; [apply grows_settle|].
      intros i Hi. by apply (own_settle A B (own s)).
    - exists (promises s). split; [destruct s; simpl in *; by subst|]. simpl in Hp. split; [done|]. split; [apply grows_refl|done]. }
  destruct H1 as (ds1 & E1 & Hp1 & Hg1 & Ho1). rewrite (bind_eq _ _ _ _ _ E1).
  destruct (writer s) as [w|] eqn:Ew.
  - destruct (Hv w eq_refl) as [x Hx]. pose proof (get_writer_lookup _ _ _ Hx) as Hgx.
    pose proof (own_eq s w x Ew Hx) as Eo.
    set (ds := deferred_reject (w_closed x) (storedError s) ds1).
    exists ds. split.
    { unfold modify, reject. simpl. change (get_writer w (set_promises _ _)) with (get_writer w s). rewrite Hgx. by destruct s. }
    pose proof (p_nodup _ _ _ Hp1) as Hn. rewrite Eo in Hn. apply NoDup_app in Hn as (_ & Hd & Hn2).
    assert (Hne : w_ready x <> w_closed x) by (intros E; apply NoDup_cons in Hn2 as [X _]; apply X; rewrite E; constructor).
    split; [|split; [|split]].
    + apply prom_settle_own; [done| |done]. intros X. apply (Hd _ X). by apply list_elem_of_further, list_elem_of_singleton.
    + eapply grows_trans; [exact Hg1|apply grows_settle].
    + intros w' H. simpl in H. assert (w' = w) as -> by congruence.
      change (get_writer w _) with (get_writer w s). rewrite Hgx. apply deferred_pending_false. simpl. unfold ds, deferred_reject.
      rewrite pending_settle by done. tauto.
    + intros b Hb w' H. simpl in H. rewrite <-(Hb w' H). assert (w' = w) as -> by congruence.
      change (get_writer w (set_promises _ _)) with (get_writer w s). rewrite Hgx. simpl.
      rewrite <-Ho1 by (rewrite Eo; constructor). apply deferred_pending_ext. unfold ds, deferred_reject.
      rewrite pending_settle by done. split; [tauto|]. by intros ?.
  - exists ds1. split; [done|]. split; [done|]. split; [done|]. split.
    + intros w H. simpl in H. congruence.
    + intros b Hb w H. simpl in H. congruence.
Qed.

Lemma reject_all_eq ids e s : reject_all ids e s = set_promises (settle_all (Rejected e) ids (promises s)) s.
Proof.
  unfold reject_all, settle_all. revert s. induction ids as [|id ids IH]; intros s; simpl; [by destruct s|].
  rewrite IH. by destruct s.
Qed.

(** ** Outcomes *)

Definition returns (g : ghost) (x : ws * result unit) : Prop := inv g x.1 /\ x.2 = Ret tt.
Definition keeps {A} (g : ghost) (x : ws * result A) : Prop := inv g x.1 /\ x.2 <> Raise AssertionErr.

Lemma ws_returns_keeps g x : returns g x -> keeps g x.
Proof. intros [H1 H2]. split; [done|]. by rewrite H2. Qed.

Lemma returns_bind {B} g (m : M ws unit) (k : unit -> M ws B) s : returns g (m s) ->
  exists s', inv g s' /\ bind m k s = k tt s'.
Proof. intros [H1 H2]. unfold bind. destruct (m s) as [s' r]. simpl in *. subst r. by exists s'. Qed.

(** An observation that is no assertion. *)
Definition benign (o : obs) : Prop := o <> Threw AssertionErr /\ o <> InternalError AssertionErr.

Lemma noassert_app l o : benign o -> ((Threw AssertionErr ∉ l) /\ (InternalError AssertionErr ∉ l)) ->
  (Threw AssertionErr ∉ l ++ [o]) /\ (InternalError AssertionErr ∉ l ++ [o]).
Proof. intros [H1 H2] [H3 H4]. rewrite !elem_of_app, !list_elem_of_singleton. split; intros [|]; by auto. Qed.

Lemma common_emit g s o : benign o -> common g s -> common g (emit o s).
Proof. intros Hb H. split; try apply H. by apply noassert_app, H. Qed.

Section Operations.
Variable user : list op -> ws -> ws.
Hypothesis user_inv : forall g acts s, inv g s -> inv g (user acts s).

Lemma ws_invoke_inv g o s : inv g (emit o s) -> returns g (invoke user o s).
Proof.
  intros H. unfold invoke. destruct (calls s) as [|acts rest] eqn:E; [done|].
  split; [|done]. apply user_inv. destruct H as [Hc Hi]. split; [destruct Hc; by split|].
  unfold in_state in *. simpl in *. destruct (state s);
    [destruct Hi as [Hi Hb]; split; [destruct Hi; by split|exact Hb]..|destruct Hi; by split|destruct Hi; by split].
Qed.

(** ** Finishing to error *)

Definition with_abort (d : option nat) (g : ghost) : ghost :=
  Ghost (g_write g) (g_close g) d (g_starts g) (g_started g).

(** What [writableStreamFinishErroring] starts from. *)
Record erring (g : ghost) (s : ws) : Prop := {
  er_common : common g s;
  er_state : state s = Erroring;
  er_idle : idle s;
  er_started : started s = true;
  er_failing : failing s;
  er_abortable : abortable s;
  er_ready : ready_is false s;
  er_noaborting : ~ aborting g s;
}.

Lemma not_aborting g s : ~ aborting g s -> g_abort g = None /\ abort_jobs (jobs s) = [].
Proof.
  unfold aborting. destruct (g_abort g), (abort_jobs (jobs s)); simpl; try done; intros H; by destruct H.
Qed.

Lemma aborting_some d g s : aborting (with_abort (Some d) g) s.
Proof. done. Qed.

(** Only an errored stream waits for [abort]. *)
Lemma aborting_errored g s : inv g s -> aborting g s -> state s = Errored.
Proof. intros [_ H] Ha. unfold in_state in H. destruct (state s); [destruct H as [H _]|destruct H as [H _]| |done]; exfalso; by destruct H. Qed.

Lemma owed_idle g s : idle s -> owed g s =
  writeRequests s ++ option_list (closeRequest s) ++ (ar_deferred <$> option_list (pendingAbortRequest s)) ++
  option_list (g_abort g) ++ abort_jobs (jobs s).
Proof. intros [H1 H2]. unfold owed. by rewrite H1, H2. Qed.

(** The state in which the queue and the requests are gone. *)
Definition gone (s : ws) : ws :=
  set_writeRequests [] (set_promises (settle_all (Rejected (storedError s)) (writeRequests s) (promises s))
    (set_queue resetQueue (set_state Errored s))).

Lemma gone_prom g s : erring g s ->
  prom (option_list (closeRequest s) ++ (ar_deferred <$> option_list (pendingAbortRequest s))) (own s) (promises (gone s)).
Proof.
  intros He. destruct (not_aborting g s) as [Ha Hj]; [exact (er_noaborting _ _ He)|].
  pose proof (cm_prom _ _ (er_common _ _ He)) as Hp. rewrite owed_idle, Ha, Hj in Hp by exact (er_idle _ _ He). simpl in Hp. rewrite !app_nil_r in Hp.
  by apply (prom_settle_all []).
Qed.

(** The accepted writes that were not done are rejected now. *)
Lemma gone_failing g s s' l : erring g s -> grows (promises (gone s)) (promises s') ->
  log s' = log s ++ l -> accepted l = [] -> written l = [] -> failing s'.
Proof.
  intros He Hg El H1 H2. apply (failing_frame s s' l); try done; [exact (er_failing _ _ He)| |].
  - intros i Hi. right. apply (rejected_grows (promises (gone s))); [done|]. exists (storedError s).
    simpl. destruct (er_idle _ _ He) as [Hw _]. unfold current in Hi. rewrite Hw in Hi. simpl in Hi.
    apply lookup_settle_all; [done|done|]. apply (p_owed _ _ _ (cm_prom _ _ (er_common _ _ He))).
    rewrite owed_idle by exact (er_idle _ _ He). apply elem_of_app. by left.
  - eapply grows_trans; [apply grows_settle_all|exact Hg].
Qed.

(** The end of the stream when no call of [abort] is due: [ds] are the promises
    after everything was rejected. *)
Lemma errored_inv g s ds : erring g s -> prom [] (own s) ds -> grows (promises (gone s)) ds ->
  let s' := set_promises ds (set_closeRequest None (set_pendingAbortRequest None (gone s))) in
  closed_is false s' -> ready_is false s' -> inv g s'.
Proof.
  intros He Hp Hg s' Hcl Hre. pose proof He as [Hc Hst Hid Hsd Hf Hab Hrd Hna].
  destruct (not_aborting g s Hna) as [Ha Hj]. split.
  - destruct Hc. split; try done.
    unfold owed. simpl. rewrite (proj1 Hid), (proj2 Hid), Ha, Hj. done.
  - unfold in_state. simpl. split; [repeat split|..]; simpl; try done; try apply Hid.
    apply (gone_failing g s _ []); try done. simpl. by rewrite app_nil_r.
Qed.

Lemma ready_gone g s ds : erring g s -> (forall i, i ∈ own s -> deferred_pending i ds = deferred_pending i (promises s)) ->
  ready_is false (set_promises ds s).
Proof.
  intros He H w Hw. simpl in Hw. change (get_writer w _) with (get_writer w s). simpl.
  rewrite H; [by apply (er_ready _ _ He)|]. unfold own. rewrite Hw. constructor.
Qed.

Lemma own_gone g s i : erring g s -> i ∈ own s ->
  deferred_pending i (promises (gone s)) = deferred_pending i (promises s).
Proof.
  intros He Hi. apply deferred_pending_ext. simpl. apply pending_settle_all; [done|]. intros X.
  pose proof (p_nodup _ _ _ (cm_prom _ _ (er_common _ _ He))) as Hn. apply NoDup_app in Hn as (_ & Hn & _).
  apply (Hn i); [|done]. rewrite owed_idle by exact (er_idle _ _ He). apply elem_of_app. by left.
Qed.

Lemma finishErroring_inv g s : erring g s -> returns g (writableStreamFinishErroring user s).
Proof.
  intros He. pose proof He as [Hc Hst Hid Hsd Hf Hab Hrd Hna]. destruct (not_aborting g s Hna) as [Ha Hj].
  unfold writableStreamFinishErroring. mstep. massert by (by apply bool_decide_eq_true). mstep.
  massert by (unfold writableStreamHasOperationMarkedInFlight; destruct Hid as [-> ->]; done). mstep.
  rewrite reject_all_eq.
  change (pendingAbortRequest (set_queue resetQueue (set_state Errored s))) with (pendingAbortRequest s).
  change (storedError (set_queue resetQueue (set_state Errored s))) with (storedError s).
  change (set_writeRequests [] _) with (gone s).
  pose proof (gone_prom g s He) as Hp. pose proof (own_gone g s) as Hown.
  assert (Hv : forall w, writer (gone s) = Some w -> is_Some (writers (gone s) !! w)) by apply (cm_valid _ _ Hc).
  assert (Hrg : ready_is false (gone s)).
  { intros w Hw. simpl in Hw. change (get_writer w _) with (get_writer w s). rewrite Hown; [by apply Hrd|done|].
    unfold own. rewrite Hw. constructor. }
  destruct (pendingAbortRequest s) as [a|] eqn:Ep.
  - simpl in Hp. mstep. destruct (wasAlreadyErroring a) eqn:Ewas.
    + mstep. match goal with |- context [reject ?i ?e ?x] => set (s1 := reject i e x) end.
      assert (Hp1 : prom ([] ++ option_list (closeRequest s1) ++ []) (own s1) (promises s1)).
      { rewrite app_nil_r. simpl. rewrite <-(app_nil_r (option_list (closeRequest s))).
        by apply prom_settle_owed. }
      destruct (rejectClose_eq [] [] s1 eq_refl (proj2 Hid) Hv Hp1) as (ds & E & Hp2 & Hg2 & Hcl & Hre).
      rewrite E. split; [|done]. simpl.
      assert (Hr1 : ready_is false s1).
      { intros w Hw. simpl in Hw. change (get_writer w s1) with (get_writer w s). simpl.
        unfold deferred_reject. rewrite (own_settle (option_list (closeRequest s)) [] (own s)); [by apply (Hrg w)|done|by simpl|].
        unfold own. rewrite Hw. constructor. }
      specialize (Hre false Hr1).
      eapply (errored_inv g s ds); try done.
      eapply grows_trans; [apply (grows_settle (ar_deferred a))|exact Hg2].
    + unfold abortSteps. mstep.
      change (abortAlgorithm (set_pendingAbortRequest None (gone s))) with (abortAlgorithm s).
      rewrite (Hab a Ep Ewas (proj2 Hid)).
      set (s1 := set_pendingAbortRequest None (gone s)).
      assert (Hi1 : inv (with_abort (Some (ar_deferred a)) g) (emit (CalledAbort (ar_reason a)) s1)).
      { split.
        - apply common_emit; [done|]. destruct Hc. split; try done.
          unfold owed. simpl. rewrite (proj1 Hid), (proj2 Hid), Hj. done.
        - unfold in_state. simpl. split; [repeat split|..]; simpl; try done; try apply Hid.
          + apply (gone_failing g s _ [CalledAbort (ar_reason a)]); try done. apply grows_refl.
          + intros X. by destruct X. }
      destruct (ws_invoke_inv _ _ _ Hi1) as [Hi2 Hr2]. 
      destruct (invoke user (CalledAbort (ar_reason a)) s1) as [s2 r2] eqn:E2. simpl in Hi2, Hr2. subst r2.
      rewrite (bind_eq _ _ _ _ _ E2). mstep. split; [|done]. simpl. clear E2.
      pose proof (aborting_errored _ _ Hi2 (aborting_some _ _ _)) as Est.
      destruct Hi2 as [Hc2 Hs2]. unfold in_state in Hs2. rewrite Est in Hs2.
      split.
      * pose proof (cm_writes _ _ Hc2) as X1. pose proof (cm_closes _ _ Hc2) as X2. pose proof (cm_starts _ _ Hc2) as X3.
        simpl in X1, X2, X3. split; simpl; try apply Hc2; rewrite ?ws_count_app; [unfold count at 2; simpl; lia..|].
        pose proof (cm_prom _ _ Hc2) as Hp2. eapply prom_perm; [|exact Hp2].
        unfold owed. simpl. rewrite Ha, abort_jobs_app. simpl. rewrite !app_assoc. rewrite <-!app_assoc. simpl.
        do 5 apply Permutation_app_head. by rewrite Permutation_app_comm.
      * unfold in_state. simpl. rewrite Est. destruct Hs2 as [Hfi Hfa Hcl]. split.
        -- done.
        -- done.
        -- intros X. destruct X. unfold aborting. simpl. rewrite abort_jobs_app. simpl. rewrite Ha. by destruct (abort_jobs (jobs s2)).
  - simpl in Hp. rewrite app_nil_r in Hp.
    assert (Hp1 : prom ([] ++ option_list (closeRequest (gone s)) ++ []) (own (gone s)) (promises (gone s))) by by rewrite app_nil_r.
    destruct (rejectClose_eq [] [] (gone s) eq_refl (proj2 Hid) Hv Hp1) as (ds & E & Hp2 & Hg2 & Hcl & Hre).
    rewrite E. split; [|done]. simpl. specialize (Hre false Hrg).
    replace (set_closeRequest None (gone s)) with (set_closeRequest None (set_pendingAbortRequest None (gone s))) in *
      by (destruct s; simpl in *; by subst).
    by apply errored_inv.
Qed.

(** ** Starting to error *)

Lemma common_touched g s ds l : common g s -> touches (owed g s) s ds l -> common g (touched ds l s).
Proof.
  intros Hc [Hw Hp Hg]. split; try apply Hc; simpl.
  - by apply (wsame_writer (writers s)), Hc.
  - intros w H. apply (wsame_valid (writers s)); [done|]. by apply (cm_valid _ _ Hc).
  - exact Hp.
Qed.

(** What [writableStreamStartErroring] starts from. *)
Record starting (g : ghost) (s : ws) : Prop := {
  sg_common : common g s;
  sg_state : state s = Writable;
  sg_stored : storedError s = Undefined;
  sg_failing : failing s;
  sg_opened : started s = false \/ ~ idle s -> opened false s;
  sg_abortable : abortable s;
  sg_closed : closed_is true s;
  sg_noaborting : ~ aborting g s;
}.

Lemma hasop_spec s : writableStreamHasOperationMarkedInFlight s = false <-> idle s.
Proof.
  unfold writableStreamHasOperationMarkedInFlight, idle. rewrite negb_false_iff, andb_true_iff.
  by rewrite !bool_decide_eq_true.
Qed.

Lemma startErroring_inv g s reason : starting g s -> returns g (writableStreamStartErroring user reason s).
Proof.
  intros [Hc Hst Hse Hf Ho Hab Hcl Hna]. unfold writableStreamStartErroring. mstep.
  massert by (by apply bool_decide_eq_true). mstep. massert by (by apply bool_decide_eq_true). mstep.
  set (s1 := set_storedError reason (set_state Erroring s)).
  assert (Hc1 : common g s1) by (destruct Hc; by split).
  assert (Hre : exists ds l, (match writer s1 with
       | Some w => writableStreamDefaultWriterEnsureReadyPromiseRejected w reason | None => mret tt end) s1 =
      (touched ds l s1, Ret tt) /\ touches (owed g s1) s1 ds l /\ ready_is false (touched ds l s1) /\
      closed_is true (touched ds l s1)).
  { destruct (writer s1) as [w|] eqn:Ew.
    - destruct (ensure_ready (owed g s1) s1 w reason Ew (cm_valid _ _ Hc1 w Ew) (cm_prom _ _ Hc1)) as (ds & l & E & Ht & Hr & Hk).
      exists ds, l. split; [done|]. split; [done|]. split; [done|]. by apply Hk.
    - exists (promises s1), (writers s1). split; [by destruct s|]. split; [split; [done|apply Hc1|apply grows_refl]|].
      split; intros w Hw; simpl in *; congruence. }
  destruct Hre as (ds & l & E & Ht & Hrd & Hcl2). rewrite (bind_eq _ _ _ _ _ E). mstep.
  set (s2 := touched ds l s1) in *. assert (Hc2 : common g s2) by by apply common_touched.
  destruct (writableStreamHasOperationMarkedInFlight s2) eqn:Eop; simpl andb; cbv iota.
  - assert (Hid : ~ idle s2) by (rewrite <-hasop_spec; by rewrite Eop).
    split; [|done]. split; [done|]. unfold in_state. simpl. split; [|done]. split; try done.
    apply (opened_frame false s s2 []); try done; [by apply Ho; right|apply Ht|simpl; by rewrite app_nil_r].
  - apply hasop_spec in Eop. destruct (started s2) eqn:Esd.
    + apply finishErroring_inv. split; try done.
      apply (failing_frame s s2 []); try done; [by left|apply Ht|simpl; by rewrite app_nil_r].
    + split; [|done]. split; [done|]. unfold in_state. simpl. split; [|intros X; exfalso; change (started s2 = true) in X; congruence]. split; try done.
      apply (opened_frame false s s2 []); try done; [by apply Ho; left|apply Ht|simpl; by rewrite app_nil_r].
Qed.

Lemma dealWithRejection_writable g s e : starting g s -> returns g (writableStreamDealWithRejection user e s).
Proof.
  intros H. unfold writableStreamDealWithRejection. mstep. rewrite bool_decide_eq_true_2 by apply (sg_state _ _ H).
  by apply startErroring_inv.
Qed.

Lemma dealWithRejection_erroring g s e : erring g s -> returns g (writableStreamDealWithRejection user e s).
Proof.
  intros H. unfold writableStreamDealWithRejection. mstep.
  rewrite bool_decide_eq_false_2 by (rewrite (er_state _ _ H); done). mstep.
  massert by (apply bool_decide_eq_true; apply (er_state _ _ H)). by apply finishErroring_inv.
Qed.

(** *** From the invariant in state writable *)

Lemma opened_relax s b : opened b s -> opened false s.
Proof. intros (fin & cur & H1 & H2 & H3 & H4 & H5 & H6 & H7 & H8). by exists fin, cur. Qed.


Lemma common_clear g s : common g s -> common g (writableStreamDefaultControllerClearAlgorithms s).
Proof. intros []. by split. Qed.

Lemma starting_of_inv g s : common g s -> state s = Writable -> in_writable g s ->
  starting g (writableStreamDefaultControllerClearAlgorithms s).
Proof.
  intros Hc Hst Hw. pose proof (iw_opened _ _ Hw) as Ho.
  split; try done; [by apply common_clear|by apply Hw|by apply (opened_failing true)| | |by apply Hw|by apply Hw].
  - intros _. by apply (opened_relax s true).
  - intros a H. simpl in H. rewrite (iw_noabort _ _ Hw) in H. congruence.
Qed.

Lemma errorIfNeeded_inv g s e : inv g s -> returns g (writableStreamDefaultControllerErrorIfNeeded user e s).
Proof.
  intros [Hc Hi]. unfold writableStreamDefaultControllerErrorIfNeeded. mstep. case_bool_decide as H; [|by split].
  unfold writableStreamDefaultControllerError. mstep. massert by (by apply bool_decide_eq_true). mstep.
  apply startErroring_inv. apply starting_of_inv; [done..|]. unfold in_state in Hi. rewrite H in Hi. apply Hi.
Qed.

(** ** Advancing the queue *)

Definition with_write (b : bool) (g : ghost) : ghost := Ghost b (g_close g) (g_abort g) (g_starts g) (g_started g).
Definition with_close (b : bool) (g : ghost) : ghost := Ghost (g_write g) b (g_abort g) (g_starts g) (g_started g).

(** What [writableStreamDefaultControllerAdvanceQueueIfNeeded] starts from. *)
Definition advancing (g : ghost) (s : ws) : Prop :=
  common g s /\ inFlightCloseRequest s = None /\
  (state s = Writable /\ in_writable g s \/ state s = Erroring /\ in_erroring g s).

(** The reaction to a call of the sink that has just returned. *)
Lemma add_job_in_state g g' s j : g_abort g' = g_abort g -> abort_jobs [j] = [] -> in_state g' s ->
  in_state g (set_jobs (jobs s ++ [j]) s).
Proof.
  intros Hg Hj H.
  assert (E : aborting g (set_jobs (jobs s ++ [j]) s) <-> aborting g' s).
  { unfold aborting. simpl. by rewrite abort_jobs_app, Hj, app_nil_r, Hg. }
  unfold in_state in *. simpl. destruct (state s);
    [destruct H as [H Hb]; split; [destruct H; split; try done; by rewrite E|exact Hb]..| |].
  - destruct H. split; try done. by rewrite E.
  - destruct H. split; try done. by rewrite E.
Qed.

Lemma add_write_inv g s : g_write g = false -> inv (with_write true g) s -> inv g (set_jobs (jobs s ++ [JWrite]) s).
Proof.
  intros Hg [Hc Hi]. split; [|by apply (add_job_in_state _ (with_write true g))].
  pose proof (cm_writes _ _ Hc) as X1. pose proof (cm_closes _ _ Hc) as X2. pose proof (cm_starts _ _ Hc) as X3.
  simpl in X1, X2, X3. split; simpl; try apply Hc; rewrite ?ws_count_app; try (unfold count at 2; simpl; rewrite ?Hg; simpl; lia).
  pose proof (cm_prom _ _ Hc) as Hp. unfold owed in *. simpl in *. by rewrite abort_jobs_app, app_nil_r.
Qed.

Lemma add_close_inv g s : g_close g = false -> inv (with_close true g) s -> inv g (set_jobs (jobs s ++ [JClose]) s).
Proof.
  intros Hg [Hc Hi]. split; [|by apply (add_job_in_state _ (with_close true g))].
  pose proof (cm_writes _ _ Hc) as X1. pose proof (cm_closes _ _ Hc) as X2. pose proof (cm_starts _ _ Hc) as X3.
  simpl in X1, X2, X3. split; simpl; try apply Hc; rewrite ?ws_count_app; try (unfold count at 2; simpl; rewrite ?Hg; simpl; lia).
  pose proof (cm_prom _ _ Hc) as Hp. unfold owed in *. simpl in *. by rewrite abort_jobs_app, app_nil_r.
Qed.

Lemma processWrite_inv g s chunk rest : common g s -> state s = Writable -> in_writable g s ->
  started s = true -> idle s -> (c_queue (queue s)).*1 = IChunk chunk :: rest ->
  returns g (writableStreamDefaultControllerProcessWrite user chunk s).
Proof.
  intros Hc Hst Hi Hsd [Hiw Hic] Hq.
  destruct (iw_opened _ _ Hi) as (fin & cur & Ha & Hr & Hit & Hw & _ & _ & Heq & _).
  specialize (Heq eq_refl). unfold current in Heq. rewrite Hiw in Heq, Hw. simpl in Heq, Hw.
  rewrite Hq in Hit. destruct cur as [|[i c] cur]; [by destruct (closeRequest s)|].
  simpl in Hit, Heq. injection Hit as -> Hit.
  unfold writableStreamDefaultControllerProcessWrite, writableStreamMarkFirstWriteRequestInFlight. mstep.
  massert by (by apply bool_decide_eq_true). mstep. rewrite <-Heq. mstep.
  set (s1 := set_inFlightWriteRequest _ _). change (writeAlgorithm s1) with (writeAlgorithm s).
  destruct (iw_algos _ _ Hi Hic) as [-> _].
  assert (Hgw : g_write g = false /\ count is_write (jobs s) = 0).
  { pose proof (cm_writes _ _ Hc) as X. rewrite Hiw in X. simpl in X. destruct (g_write g); simpl in X; [lia|]. split; [done|lia]. }
  destruct Hgw as [Hgw Hc0].
  assert (Hi1 : inv (with_write true g) (emit (CalledWrite c) s1)).
  { split.
    - apply common_emit; [done|]. split; simpl; try apply Hc; try done; [by rewrite Hc0|by intros X; rewrite Hsd in X|].
      pose proof (cm_prom _ _ Hc) as Hp. unfold owed in *. rewrite Hiw, <-Heq in Hp. exact Hp.
    - unfold in_state. simpl. rewrite Hst. split; [|by intros _ [X _]].
      destruct Hi as [_ H2 H3 H4 H5 H6 H7 H8]. split; try done.
      exists fin, ((i, c) :: cur). unfold current. simpl. rewrite ws_accepted_app, written_app, app_nil_r, Ha, Hw, Hq, Hit.
      rewrite app_nil_r. rewrite take_0. repeat split; try done. }
  destruct (ws_invoke_inv _ _ _ Hi1) as [Hi2 Hr2].
  destruct (invoke user (CalledWrite c) s1) as [s2 r2] eqn:E2. simpl in Hi2, Hr2. subst r2.
  rewrite (bind_eq _ _ _ _ _ E2). split; [|done]. by apply add_write_inv.
Qed.

Lemma processClose_inv g s : common g s -> state s = Writable -> in_writable g s ->
  started s = true -> idle s -> (exists rest, (c_queue (queue s)).*1 = IClose :: rest) ->
  returns g (writableStreamDefaultControllerProcessClose user s).
Proof.
  intros Hc Hst Hi Hsd [Hiw Hic] [rest Hq].
  destruct (iw_opened _ _ Hi) as (fin & cur & Ha & Hr & Hit & Hw & _ & _ & Heq & _).
  specialize (Heq eq_refl). unfold current in Heq. rewrite Hiw in Heq, Hw. simpl in Heq, Hw.
  rewrite Hq in Hit. destruct cur as [|[i c] cur]; [|done]. simpl in Hit, Heq, Hw.
  destruct (closeRequest s) as [cr|] eqn:Ecr; [|done]. injection Hit as ->. symmetry in Heq.
  unfold writableStreamDefaultControllerProcessClose, writableStreamMarkCloseRequestInFlight. mstep.
  massert by (by apply bool_decide_eq_true). mstep. massert by (apply bool_decide_eq_true; by rewrite Ecr). mstep.
  set (s1 := set_closeRequest None _).
  destruct (c_queue (queue s)) as [|[v n] q] eqn:Eq; [done|]. simpl in Hq. injection Hq as -> Hq.
  destruct q as [|]; [|done].
  pose proof (dequeueValue_ok _ (cm_queue _ _ Hc)) as Hok.
  destruct (dequeueValue (queue s)) as [c r] eqn:Ed. simpl in Hok.
  assert (Hcq : c_queue c = [] /\ r = Ret IClose) by (unfold dequeueValue in Ed; rewrite Eq in Ed; by simplify_eq).
  destruct Hcq as [Hcq ->].
  rewrite (bind_eq dequeue_value _ s1 (set_queue c s1) IClose) by
    (unfold dequeue_value; change (queue s1) with (queue s); by rewrite Ed).
  mstep. massert by (by apply bool_decide_eq_true). mstep.
  change (closeAlgorithm _) with (closeAlgorithm s). destruct (iw_algos _ _ Hi Hic) as (_ & -> & _).
  assert (Hgc : g_close g = false /\ count is_close (jobs s) = 0).
  { pose proof (cm_closes _ _ Hc) as X. rewrite Hic in X. simpl in X. destruct (g_close g); simpl in X; [lia|]. split; [done|lia]. }
  destruct Hgc as [Hgc Hc0].
  assert (Hi1 : inv (with_close true g) (emit CalledClose (set_queue c s1))).
  { split.
    - apply common_emit; [done|]. split; simpl; try apply Hc; try done.
      + by rewrite Hc0, Ecr.
      + intros X. exfalso. congruence.
      + pose proof (cm_prom _ _ Hc) as Hp. unfold owed in *. simpl. rewrite Hic in Hp. exact Hp.
    - unfold in_state. simpl. rewrite Hst. split; [|intros _ [_ X]; simpl in X; congruence].
      destruct Hi as [_ H2 H3 H4 H5 H6 H7 H8]. 
      assert (Ecl : writableStreamCloseQueuedOrInFlight (emit CalledClose (set_queue c s1)) = true)
        by (unfold writableStreamCloseQueuedOrInFlight; simpl; by rewrite Ecr).
      assert (Ecl0 : writableStreamCloseQueuedOrInFlight s = true)
        by (unfold writableStreamCloseQueuedOrInFlight; by rewrite Ecr).
      split; try done.
      + exists fin, []. unfold current. simpl. rewrite ws_accepted_app, written_app, !app_nil_r, Ha, Hw, Hcq, Hiw, <-Heq.
        rewrite app_nil_r. repeat split; try done.
      + intros X. simpl in X. congruence.
      + rewrite Ecl. rewrite Ecl0 in H6. exact H6.
      + intros X. congruence. }
  destruct (ws_invoke_inv _ _ _ Hi1) as [Hi2 Hr2].
  destruct (invoke user CalledClose (set_queue c s1)) as [s2 r2] eqn:E2. simpl in Hi2, Hr2. subst r2.
  rewrite (bind_eq _ _ _ _ _ E2). mstep. split; [|done]. simpl. apply (add_close_inv g (writableStreamDefaultControllerClearAlgorithms s2)); [done|].
  destruct Hi2 as [Hc2 Hs2]. split; [by apply common_clear|].
  assert (Hin : inFlightCloseRequest s2 <> None).
  { pose proof (cm_closes _ _ Hc2) as X. simpl in X. by destruct (inFlightCloseRequest s2); [|simpl in X; lia]. }
  unfold in_state in *. simpl. destruct (state s2).
  - destruct Hs2 as [H Hb]. split; [|done]. destruct H. by split.
  - destruct Hs2 as [H Hb]. split; [|done]. destruct H as [G1 G2 G3 G4 G5]. split; try done.
    intros a _ _ X. simpl in X. congruence.
  - by destruct Hs2 as [[[_ X] _] _].
  - by destruct Hs2 as [[[_ X] _] _].
Qed.

Lemma advance_inv g s : advancing g s -> returns g (writableStreamDefaultControllerAdvanceQueueIfNeeded user s).
Proof.
  intros (Hc & Hic & Hst). unfold writableStreamDefaultControllerAdvanceQueueIfNeeded. mstep.
  destruct (started s) eqn:Esd; mstep.
  2:{ split; [|done]. split; [done|]. unfold in_state. simpl. destruct Hst as [[-> H]|[-> H]]; split; try done; congruence. }
  case_bool_decide as Hiw.
  { split; [|done]. split; [done|]. unfold in_state. simpl.
    destruct Hst as [[-> H]|[-> H]]; split; try done; [by intros _ [? _]|by intros _ [? _]]. }
  assert (Hid : idle s) by done.
  massert by (by destruct Hst as [[-> _]|[-> _]]).
  destruct Hst as [[Est Hi]|[Est Hi]]; rewrite Est.
  - rewrite bool_decide_eq_false_2 by done. case_bool_decide as Hq.
    { split; [|done]. split; [done|]. unfold in_state. simpl. by rewrite Est. }
    unfold bind, peek_value, peekQueueValue.
    destruct (c_queue (queue s)) as [|[[chunk|] n] q] eqn:Eq; [done|..].
    + eapply (processWrite_inv g s chunk); try done. by rewrite Eq.
    + apply processClose_inv; try done. rewrite Eq. by eexists.
  - rewrite bool_decide_eq_true_2 by done. apply finishErroring_inv. destruct Hi. split; try done.
    by eapply opened_failing.
Qed.
End Operations.
