(* ===== verification/WritableStreamSteps.v ===== *)
(** * Writable streams: methods, reactions and runs

    The second half of the preservation proof: backpressure, [write], [close],
    [abort], the writer's life cycle and the reactions, then [exec] and [run]
    for any sequence of events and any scripts. *)

From Stdlib Require Import ZArith Lia.
From stdpp Require Import base list numbers option strings.
From S2P Require Import Prelude JsNumber StreamBase WritableStream WritableStreamProps WritableStreamInv.

#[local] Open Scope nat_scope.

(** [bool_decide]s on the state. *)
Ltac on_state E := rewrite ?E; rewrite ?(bool_decide_eq_true_2 _ eq_refl); repeat rewrite bool_decide_eq_false_2 by done;
  cbn [orb andb negb]; cbv iota.

(** ** Backpressure *)

Lemma closing_spec s : writableStreamCloseQueuedOrInFlight s = false <->
  closeRequest s = None /\ inFlightCloseRequest s = None.
Proof.
  unfold writableStreamCloseQueuedOrInFlight. rewrite negb_false_iff, andb_true_iff. by rewrite !bool_decide_eq_true.
Qed.

Lemma touched_id s : touched (promises s) (writers s) s = s.
Proof. by destruct s. Qed.

Lemma touches_refl g s : common g s -> touches (owed g s) s (promises s) (writers s).
Proof. intros Hc. split; [done| |apply grows_refl]. rewrite touched_id. apply Hc. Qed.

(** Resolving the ready promise. *)
Lemma resolve_ready g s w : common g s -> writer s = Some w ->
  touches (owed g s) s (deferred_resolve (w_ready (get_writer w s)) RUndefined (promises s)) (writers s) /\
  ready_is false (touched (deferred_resolve (w_ready (get_writer w s)) RUndefined (promises s)) (writers s) s) /\
  forall b, closed_is b s -> closed_is b (touched (deferred_resolve (w_ready (get_writer w s)) RUndefined (promises s)) (writers s) s).
Proof.
  intros Hc Hw. destruct (ready_closed_ne g s w Hc Hw) as (Hne & Hr & _).
  split; [split; [done| |apply grows_settle]|split].
  - change (own (touched _ _ s)) with (own s). apply prom_settle_own; [done|done|apply Hc].
  - intros w' H. simpl in H. assert (w' = w) as -> by congruence. change (get_writer w (touched _ _ s)) with (get_writer w s).
    apply deferred_pending_false. simpl. unfold deferred_resolve. rewrite pending_settle by done. tauto.
  - intros b Hb w' H. simpl in H. rewrite <-(Hb w' H). assert (w' = w) as -> by congruence.
    change (get_writer w (touched _ _ s)) with (get_writer w s). apply deferred_pending_ext. simpl. unfold deferred_resolve.
    rewrite pending_settle by done. split; [tauto|]. intros ?. split; [done|]. congruence.
Qed.

(** A fresh pending ready promise. *)
Lemma renew_ready g s w : common g s -> writer s = Some w -> ready_is false s ->
  exists l, (let! d := new_deferred in modify (set_ready w d)) s = (touched (promises s ++ [Pending]) l s, Ret tt) /\
  touches (owed g s) s (promises s ++ [Pending]) l /\ ready_is true (touched (promises s ++ [Pending]) l s) /\
  forall b, closed_is b s -> closed_is b (touched (promises s ++ [Pending]) l s).
Proof.
  intros Hc Hw Hr. destruct (cm_valid _ _ Hc w Hw) as [x Hx]. pose proof (get_writer_lookup _ _ _ Hx) as Hg.
  pose proof (own_eq s w x Hw Hx) as Ho. pose proof (cm_prom _ _ Hc) as Hp. rewrite Ho in Hp.
  exists (alter (fun x => mkWriter (w_stream x) (length (promises s)) (w_closed x)) w (writers s)). split; [done|].
  set (s' := touched _ _ s).
  assert (Hx' : writers s' !! w = Some (mkWriter (w_stream x) (length (promises s)) (w_closed x)))
    by (simpl; by rewrite list_lookup_alter_eq, Hx).
  pose proof (get_writer_lookup _ _ _ Hx') as Hg'.
  assert (Hlt : w_closed x < length (promises s)).
  { apply (p_own _ _ _ Hp). by apply list_elem_of_further, list_elem_of_singleton. }
  split; [split; [by apply wsame_alter| |apply grows_snoc]|split].
  - change (own (touched _ _ s)) with (own s'). rewrite (own_eq s' w _ Hw Hx'). simpl.
    apply (prom_new_own _ [] (w_ready x) [w_closed x]); [|done].
    apply deferred_pending_false. rewrite <-Hg. by apply Hr.
  - intros w' H. simpl in H. assert (w' = w) as -> by congruence. rewrite Hg'. simpl. apply deferred_pending_true.
    apply pending_snoc. by right.
  - intros b Hb w' H. simpl in H. rewrite <-(Hb w' H). assert (w' = w) as -> by congruence. rewrite Hg', Hg.
    simpl. apply deferred_pending_ext. rewrite pending_snoc. split; [|tauto]. intros [|[? _]]; [done|lia].
Qed.

Lemma update_backpressure g s b : common g s -> state s = Writable -> writableStreamCloseQueuedOrInFlight s = false ->
  ready_is (backpressure s) s -> closed_is true s ->
  exists ds l, writableStreamUpdateBackpressure b s = (set_backpressure b (touched ds l s), Ret tt) /\
    touches (owed g s) s ds l /\ ready_is b (touched ds l s) /\ closed_is true (touched ds l s).
Proof.
  intros Hc Hst Hcl Hr Hk. unfold writableStreamUpdateBackpressure. mstep.
  massert by (by apply bool_decide_eq_true). mstep. massert by (by rewrite Hcl). mstep.
  destruct (writer s) as [w|] eqn:Ew.
  2:{ exists (promises s), (writers s). rewrite touched_id. split; [done|]. split; [by apply touches_refl|].
      split; [|done]. intros w H. congruence. }
  destruct (Bool.eqb b (backpressure s)) eqn:Eb; mstep.
  - apply Bool.eqb_prop in Eb as ->. exists (promises s), (writers s). rewrite touched_id. split; [done|].
    split; [by apply touches_refl|]. done.
  - destruct b.
    + assert (E : backpressure s = false) by (by destruct (backpressure s)). rewrite E in Hr.
      destruct (renew_ready g s w Hc Ew Hr) as (l & E2 & Ht & H1 & H2).
      exists (promises s ++ [Pending]), l. split; [|by auto]. 
      transitivity (bind (let! d := new_deferred in modify (set_ready w d)) (fun _ => modify (set_backpressure true)) s); [done|].
      by rewrite (bind_eq _ _ _ _ _ E2).
    + destruct (resolve_ready g s w Hc Ew) as (Ht & H1 & H2).
      eexists _, _. split; [|by eauto]. mstep. unfold modify, resolve, touched. simpl. by destruct s.
Qed.

Section Operations.
Variable user : list op -> ws -> ws.
Hypothesis user_inv : forall g acts s, inv g s -> inv g (user acts s).
Hypothesis user_nil : forall s, user [] s = s.

(** ** Writing *)

Lemma ws_size_inv g s : inv g s ->
  inv g (invoke_size user s).1 /\ (invoke_size user s).2 <> Raise AssertionErr.
Proof.
  intros [Hc Hi]. unfold invoke_size. destruct (sizes s) as [|[acts r] rest] eqn:E; [done|]. simpl.
  pose proof (cm_user _ _ Hc) as Hu. rewrite E in Hu. apply Forall_cons in Hu as [Hr Hu].
  split; [|done]. apply user_inv. split; [destruct Hc; by split|].
  unfold in_state in *. simpl. destruct (state s);
    [destruct Hi as [Hi Hb]; split; [destruct Hi; by split|exact Hb]..|destruct Hi; by split|destruct Hi; by split].
Qed.

Lemma chunkSize_inv g s : inv g s ->
  exists n s', writableStreamDefaultControllerGetChunkSize user s = (s', Ret n) /\ inv g s'.
Proof.
  intros Hi. unfold writableStreamDefaultControllerGetChunkSize, try_catch. rewrite bind_gets.
  assert (Herr : forall e s1, inv g s1 -> exists n s',
    (do! writableStreamDefaultControllerErrorIfNeeded user e; mret (num_of_Z 1)) s1 = (s', Ret n) /\ inv g s').
  { intros e s1 H1. destruct (returns_bind g _ (fun _ => mret (num_of_Z 1)) s1 (errorIfNeeded_inv user user_inv g s1 e H1)) as (s2 & H2 & ->).
    by exists (num_of_Z 1), s2. }
  destruct (strategySizeAlgorithm s).
  - destruct (ws_size_inv g s Hi) as [H1 H2]. destruct (invoke_size user s) as [s1 [n|e]]; simpl in H1; [by exists n, s1|].
    by apply Herr.
  - by apply Herr.
Qed.

Lemma prom_add_write g s : common g s ->
  prom (option_list (inFlightWriteRequest s) ++ (writeRequests s ++ [length (promises s)]) ++ option_list (inFlightCloseRequest s) ++
    option_list (closeRequest s) ++ (ar_deferred <$> option_list (pendingAbortRequest s)) ++
    option_list (g_abort g) ++ abort_jobs (jobs s)) (own s) (promises s ++ [Pending]).
Proof.
  intros Hc. pose proof (cm_prom _ _ Hc) as Hp. unfold owed in Hp.
  rewrite (app_assoc (option_list (inFlightWriteRequest s))) in Hp. apply prom_new_owed in Hp.
  eapply prom_perm; [|exact Hp]. by rewrite <-!app_assoc.
Qed.

(** The writer's promises are old, so a new promise changes nothing. *)
Lemma own_snoc g s i : common g s -> i ∈ own s -> deferred_pending i (promises s ++ [Pending]) = deferred_pending i (promises s).
Proof.
  intros Hc Hi. apply deferred_pending_ext. rewrite pending_snoc. split; [|tauto].
  intros [|[-> _]]; [done|]. apply (p_own _ _ _ (cm_prom _ _ Hc)) in Hi. lia.
Qed.

Lemma ready_snoc g s b l : common g s -> ready_is b s -> ready_is b (set_promises (promises s ++ [Pending]) (set_writeRequests l s)).
Proof.
  intros Hc Hr w Hw. simpl in Hw. rewrite <-(Hr w Hw). change (get_writer w (set_promises _ _)) with (get_writer w s).
  simpl. apply (own_snoc g); [done|]. unfold own. rewrite Hw. constructor.
Qed.

Lemma closed_snoc g s b l : common g s -> closed_is b s -> closed_is b (set_promises (promises s ++ [Pending]) (set_writeRequests l s)).
Proof.
  intros Hc Hr w Hw. simpl in Hw. rewrite <-(Hr w Hw). change (get_writer w (set_promises _ _)) with (get_writer w s).
  simpl. apply (own_snoc g); [done|]. unfold own. rewrite Hw. by apply list_elem_of_further, list_elem_of_singleton.
Qed.

(** The state after [writableStreamAddWriteRequest]. *)
Definition requested (s : ws) : ws :=
  set_promises (promises s ++ [Pending]) (set_writeRequests (writeRequests s ++ [length (promises s)]) s).

Lemma common_requested g s : common g s -> common g (requested s).
Proof.
  intros Hc. pose proof (prom_add_write g s Hc) as Hp. destruct Hc. by split.
Qed.

Lemma controllerWrite_inv g s chunk size : common g s -> state s = Writable ->
  in_writable g s /\ (started s = true -> idle s -> c_queue (queue s) = []) ->
  writableStreamCloseQueuedOrInFlight s = false ->
  returns g (writableStreamDefaultControllerWrite user (length (promises s)) chunk size (requested s)).
Proof.
  intros Hc Hst [Hi Hb] Hcl. pose proof (common_requested g s Hc) as Hc1. set (s1 := requested s) in *. set (d := length (promises s)).
  pose proof (proj1 (closing_spec s) Hcl) as [Hcr Hic].
  destruct Hi as [Ho Hse Hpa Hal Hclo Hre Hbp Hna]. rewrite Hcl, andb_true_r in Hre.
  pose proof (ready_snoc g s _ (writeRequests s ++ [d]) Hc Hre) as Hre1.
  pose proof (closed_snoc g s _ (writeRequests s ++ [d]) Hc Hclo) as Hclo1.
  destruct Ho as (fin & cur & Ha & Hr & Hit & Hw & Hne & _ & Heq & _). specialize (Heq eq_refl).
  assert (Hg1 : grows (promises s) (promises s1)) by apply grows_snoc.
  unfold writableStreamDefaultControllerWrite, try_catch. unfold bind at 1 2. unfold enqueue_value. change (queue s1) with (queue s).
  destruct (enqueueValueWithSize (IChunk chunk) size (queue s)) as [c r] eqn:Ec.
  assert (Hok : container_ok c).
  { pose proof (enqueueValueWithSize_ok (IChunk chunk) size (queue s) (cm_queue _ _ Hc)) as X. by rewrite Ec in X. }
  unfold enqueueValueWithSize in Ec. destruct r as [[]|e].
  - assert (Hq : c_queue c = c_queue (queue s) ++ [(IChunk chunk, size)]).
    { destruct (negb (isNonNegativeNumber size)); [by simplify_eq|]. destruct size as [|[]|]; by simplify_eq. }
    mstep. set (s2 := emit (Accepted d chunk) (set_queue c s1)).
    assert (Hc2 : common g s2) by (apply common_emit; [done|]; destruct Hc1; by split).
    assert (Hcl2 : writableStreamCloseQueuedOrInFlight s2 = false) by exact Hcl.
    change (returns g ((do! refresh_backpressure; writableStreamDefaultControllerAdvanceQueueIfNeeded user) s2)).
    unfold refresh_backpressure. mstep. rewrite Hcl2. rewrite bool_decide_eq_true_2 by exact Hst. simpl negb. cbv iota. simpl andb. cbv iota.
    destruct (update_backpressure g s2 (writableStreamDefaultControllerGetBackpressure s2) Hc2 Hst Hcl2 Hre1 Hclo1)
      as (ds & l & Eu & Ht & Hr3 & Hk3).
    rewrite (bind_eq _ _ _ _ _ Eu). apply advance_inv; [done|].
    pose proof (common_touched g s2 ds l Hc2 Ht) as Hc3.
    split; [destruct Hc3; by split|]. split; [done|]. left. split; [done|]. split; try done.
    + exists fin, (cur ++ [(d, chunk)]).
      assert (Hcur : (cur ++ [(d, chunk)]).*1 = current s2).
      { rewrite fmap_app, Heq. unfold current. simpl. by rewrite <-app_assoc. }
      split; [simpl; by rewrite ws_accepted_app, Ha, <-app_assoc|].
      split; [simpl; eapply resolved_grows; [apply Ht|]; by eapply resolved_grows|].
      split; [simpl; rewrite Hq, !fmap_app, Hit, Hcr, !app_nil_r; done|].
      split.
      { simpl. rewrite written_app, app_nil_r, Hw, fmap_app. f_equal.
        destruct (inFlightWriteRequest s) as [i|]; simpl; [|by rewrite !take_0].
        destruct cur; [by destruct (Hne ltac:(done))|]. done. }
      split; [by intros _ X; destruct cur|]. split; [rewrite Hcur; by exists []; rewrite app_nil_r|].
      split; [by intros _; rewrite Hcur|]. intros X. simpl in X. congruence.
    + simpl. change (writableStreamCloseQueuedOrInFlight _) with (writableStreamCloseQueuedOrInFlight s2).
      rewrite Hcl2, andb_true_r. exact Hr3.
  - assert (Hcc : c = queue s) by (destruct (negb (isNonNegativeNumber size)), size as [|[]|]; by simplify_eq).
    subst c. replace (set_queue (queue s) s1) with s1 by by destruct s.
    assert (Hret : returns g (writableStreamDefaultControllerErrorIfNeeded user e s1)).
    { unfold writableStreamDefaultControllerErrorIfNeeded. mstep. rewrite bool_decide_eq_true_2 by exact Hst.
      unfold writableStreamDefaultControllerError. mstep. massert by (apply bool_decide_eq_true; exact Hst). mstep.
      assert (Hop : opened false (writableStreamDefaultControllerClearAlgorithms s1)).
      { exists fin, cur. split; [done|]. split; [by eapply resolved_grows|]. split; [done|]. split; [done|]. split; [done|].
        split; [|split; [done|]].
        - unfold current. simpl. rewrite Heq. unfold current. exists [d]. by rewrite <-app_assoc.
        - intros X. simpl in X. congruence. }
      apply startErroring_inv; [done|]. split; try done; [by apply common_clear|by eapply opened_failing|].
      intros a X. simpl in X. congruence. }
    destruct (returns_bind g _ (fun _ => mret false) s1 Hret) as (s3 & H3 & E3).
    destruct (negb (isNonNegativeNumber size)); [simplify_eq|destruct size as [|[]|]; simplify_eq]; rewrite E3; by split.
Qed.

(** ** Composing outcomes *)

Lemma keeps_ret {A} g s (a : A) : inv g s -> keeps g (mret a s).
Proof. by split. Qed.

Lemma ws_keeps_bind {A} g (m : M ws unit) (k : unit -> M ws A) s : returns g (m s) ->
  (forall s', inv g s' -> keeps g (k tt s')) -> keeps g (bind m k s).
Proof. intros H Hk. destruct (returns_bind g m k s H) as (s' & Hs' & ->). by apply Hk. Qed.

Lemma stream_writer g s w : common g s -> w_stream (get_writer w s) = true -> writer s = Some w.
Proof.
  intros Hc H. unfold get_writer in H. destruct (writers s !! w) as [x|] eqn:E; [|done].
  by apply (cm_writer _ _ Hc w x E).
Qed.

Lemma locked_spec s : isWritableStreamLocked s = true <-> writer s <> None.
Proof. unfold isWritableStreamLocked. by destruct (writer s). Qed.

Lemma write_inv g s w chunk : inv g s -> keeps g (writer_write user w chunk s).
Proof.
  intros Hi. unfold writer_write. mstep. destruct (w_stream (get_writer w s)) eqn:Ew; [|by apply keeps_ret].
  unfold writableStreamDefaultWriterWrite. mstep. massert by done.
  destruct (chunkSize_inv g s Hi) as (size & s1 & E & Hi1). rewrite (bind_eq _ _ _ _ _ E). mstep. clear E Hi Ew s.
  destruct (w_stream (get_writer w s1)) eqn:Ew; [|by apply keeps_ret]. pose proof Hi1 as [Hc Hs].
  destruct (writableStreamCloseQueuedOrInFlight s1) eqn:Ecl.
  { case_bool_decide; by apply keeps_ret. }
  unfold in_state in Hs. destruct (state s1) eqn:Est; on_state Est; try by apply keeps_ret.
  massert by done. unfold writableStreamAddWriteRequest. mstep.
  massert by (apply locked_spec; by rewrite (stream_writer g s1 w Hc Ew)). mstep. massert by (by rewrite Est).
  unfold new_deferred at 1. unfold bind at 1. mstep. apply (ws_keeps_bind g); [|intros; by apply keeps_ret].
  by apply controllerWrite_inv.
Qed.

(** ** Closing *)

(** The state after the close request was made and queued. *)
Definition close_requested (c : container item) (ds : deferreds) (s : ws) : ws :=
  set_queue c (set_promises ds (set_closeRequest (Some (length (promises s))) s)).

Lemma prom_add_close g s : common g s -> closeRequest s = None ->
  prom (option_list (inFlightWriteRequest s) ++ writeRequests s ++ option_list (inFlightCloseRequest s) ++
    [length (promises s)] ++ (ar_deferred <$> option_list (pendingAbortRequest s)) ++
    option_list (g_abort g) ++ abort_jobs (jobs s)) (own s) (promises s ++ [Pending]).
Proof.
  intros Hc Hcr. pose proof (cm_prom _ _ Hc) as Hp. unfold owed in Hp. rewrite Hcr in Hp.
  rewrite !app_assoc in Hp. rewrite <-!app_assoc in Hp.
  rewrite (app_assoc (writeRequests s)), (app_assoc (option_list (inFlightWriteRequest s))) in Hp. apply prom_new_owed in Hp.
  eapply prom_perm; [|exact Hp]. by rewrite <-!app_assoc.
Qed.

(** The account after the sentinel was queued. *)
Lemma opened_close b s c ds : opened b s -> closeRequest s = None -> inFlightCloseRequest s = None ->
  c_queue c = c_queue (queue s) ++ [(IClose, num_of_Z 0)] -> grows (promises s) ds -> opened b (close_requested c ds s).
Proof.
  intros (fin & cur & Ha & Hr & Hit & Hw & Hne & Hpr & Heq & _) Hcr Hic Hq Hg.
  exists fin, cur. unfold current in *. simpl. split; [done|]. split; [by eapply resolved_grows|].
  split; [by rewrite Hq, fmap_app, Hit, Hcr, app_nil_r|]. split; [done|]. split; [done|]. split; [done|]. split; [done|].
  intros X. congruence.
Qed.

Lemma enqueue_close (q : container item) : container_ok q ->
  exists c, enqueueValueWithSize IClose (num_of_Z 0) q = (c, Ret tt) /\ container_ok c /\
    c_queue c = c_queue q ++ [(IClose, num_of_Z 0)].
Proof.
  intros Hok. pose proof (enqueueValueWithSize_ok IClose (num_of_Z 0) q Hok) as X.
  destruct (enqueueValueWithSize IClose (num_of_Z 0) q) as [c r] eqn:E. exists c.
  unfold enqueueValueWithSize in E. change (isNonNegativeNumber (num_of_Z 0)) with true in E. simpl in E.
  by simplify_eq.
Qed.

(** Either way, the ready promise is not pending when the close was queued. *)
Lemma close_ready g s d : common g s -> in_state g s -> writableStreamCloseQueuedOrInFlight s = false ->
  (state s = Writable \/ state s = Erroring) ->
  let s1 := set_closeRequest (Some d) (set_promises (promises s ++ [Pending]) s) in
  exists ds, (match writer s1 with
       | Some w => if backpressure s1 && bool_decide (state s = Writable)
                   then modify (resolve (w_ready (get_writer w s1))) else mret tt
       | None => mret tt end) s1 = (set_promises ds s1, Ret tt) /\
    (forall O, prom O (own s) (promises s1) -> (forall i, i ∈ own s -> i ∉ O) -> prom O (own s) ds) /\
    grows (promises s) ds /\ ready_is false (set_promises ds s) /\ closed_is true (set_promises ds s).
Proof.
  intros Hc Hs Hcl Hst s1.
  assert (Hrc : ready_is (backpressure s && bool_decide (state s = Writable)) s /\ closed_is true s).
  { unfold in_state in Hs. destruct Hst as [E|E]; rewrite E in Hs; destruct Hs as [Hs _]; rewrite E.
    - pose proof (iw_ready _ _ Hs) as X. rewrite Hcl in X. split; [exact X|apply Hs].
    - rewrite andb_false_r. split; apply Hs. }
  destruct Hrc as [Hr Hk]. pose proof (ready_snoc g s _ [] Hc Hr) as Hr1. pose proof (closed_snoc g s _ [] Hc Hk) as Hk1.
  assert (Hg : grows (promises s) (promises s1)) by apply grows_snoc.
  change (writer s1) with (writer s). change (backpressure s1) with (backpressure s).
  destruct (writer s) as [w|] eqn:Ew.
  - destruct (backpressure s && bool_decide (state s = Writable)).
    + destruct (ready_closed_ne g s w Hc Ew) as (Hne & _ & _). change (get_writer w s1) with (get_writer w s).
      exists (deferred_resolve (w_ready (get_writer w s)) RUndefined (promises s1)). split; [by destruct s|].
      split; [|split; [|split]].
      * intros O HO Hd. apply prom_settle_own; [done| |done]. apply Hd. unfold own. rewrite Ew. constructor.
      * eapply grows_trans; [exact Hg|apply grows_settle].
      * intros w' H. simpl in H. assert (w' = w) as -> by congruence. change (get_writer w (set_promises _ _)) with (get_writer w s).
        apply deferred_pending_false. simpl. unfold deferred_resolve. rewrite pending_settle by done. tauto.
      * intros w' H. simpl in H. rewrite <-(Hk1 w' H). assert (w' = w) as -> by congruence.
        change (get_writer w (set_promises _ _)) with (get_writer w s). apply deferred_pending_ext. simpl. unfold deferred_resolve.
        rewrite pending_settle by done. split; [tauto|]. intros ?. split; [done|]. congruence.
    + exists (promises s1). split; [by destruct s|]. split; [by auto|]. split; [done|]. by split.
  - exists (promises s1). split; [by destruct s|]. split; [by auto|]. split; [done|]. split; intros w H; simpl in H; congruence.
Qed.

Lemma close_inv g s : inv g s -> writableStreamCloseQueuedOrInFlight s = false -> keeps g (writableStreamClose user s).
Proof.
  intros Hi Hcl. pose proof Hi as [Hc Hs]. pose proof (proj1 (closing_spec s) Hcl) as [Hcr Hic].
  unfold writableStreamClose. mstep.
  destruct (bool_decide (state s = Closed) || bool_decide (state s = Errored)) eqn:Est; [by apply keeps_ret|].
  assert (Hst : state s = Writable \/ state s = Erroring) by (destruct (state s); auto; done).
  massert by (by destruct Hst as [-> | ->]). mstep. massert by (by rewrite Hcl). unfold new_deferred at 1. unfold bind at 1. mstep.
  destruct (close_ready g s (length (promises s)) Hc Hs Hcl Hst) as (ds & E & Hp & Hg & Hr & Hk). simpl in E.
  rewrite (bind_eq _ _ _ _ _ E). clear E.
  apply (ws_keeps_bind g); [|intros; by apply keeps_ret]. unfold writableStreamDefaultControllerClose.
  destruct (enqueue_close (queue s) (cm_queue _ _ Hc)) as (c & Ee & Hok & Hq).
  match goal with |- returns g (bind _ _ ?x) =>
    rewrite (bind_eq (enqueue_value IClose (num_of_Z 0)) _ x (close_requested c ds s) tt)
      by (unfold enqueue_value; change (queue x) with (queue s); rewrite Ee; by destruct s)
  end.
  apply advance_inv; [done|].
  assert (Hc1 : common g (close_requested c ds s)).
  { pose proof (prom_add_close g s Hc Hcr) as Hp1. destruct Hc. split; try done. apply Hp; [done|].
    intros i H1 H2. apply (proj1 (proj2 (proj1 (NoDup_app _ _) (p_nodup _ _ _ Hp1))) i H2 H1). }
  assert (Hcl1 : writableStreamCloseQueuedOrInFlight (close_requested c ds s) = true) by done.
  split; [done|]. split; [done|]. unfold in_state in Hs. destruct Hst as [E|E]; rewrite E in Hs; destruct Hs as [Hs _]; [left|right].
  - split; [done|]. destruct Hs. split; try done; [by apply opened_close|].
    by rewrite Hcl1, andb_false_r.
  - split; [done|]. destruct Hs. split; try done. by apply opened_close.
Qed.
(** ** Aborting *)

(** The signal has no listeners: it only remembers that it was aborted. *)
Lemma signalAbort_inv g s : inv g s -> exists s', signalAbort user s = (s', Ret tt) /\ inv g s' /\ state s' = state s.
Proof.
  intros Hi. unfold signalAbort. mstep. destruct (aborted s); [by exists s|]. mstep. unfold modify.
  rewrite (cm_listeners _ _ (proj1 Hi) : listeners (set_aborted true s) = []), user_nil.
  eexists. split; [done|]. split; [|done]. destruct Hi as [Hc Hs]. split; [destruct Hc; by split|].
  unfold in_state in *. simpl. destruct (state s);
    [destruct Hs as [Hs Hb]; split; [destruct Hs; by split|exact Hb]..|destruct Hs; by split|destruct Hs; by split].
Qed.

(** The state after the abort request was made. *)
Definition abort_requested (reason : value) (was : bool) (s : ws) : ws :=
  set_pendingAbortRequest (Some (AbortRequest (length (promises s)) reason was)) (set_promises (promises s ++ [Pending]) s).

Lemma common_abort_requested g s reason was : common g s -> pendingAbortRequest s = None ->
  common g (abort_requested reason was s).
Proof.
  intros Hc Hpa. pose proof (cm_prom _ _ Hc) as Hp. unfold owed in Hp. rewrite Hpa in Hp. simpl in Hp.
  rewrite (app_assoc (option_list (inFlightCloseRequest s))), (app_assoc (writeRequests s)),
    (app_assoc (option_list (inFlightWriteRequest s))) in Hp. apply prom_new_owed in Hp.
  destruct Hc. split; try done. eapply prom_perm; [|exact Hp]. unfold owed. simpl. by rewrite <-!app_assoc.
Qed.

Lemma opened_abort b s reason was : opened b s -> opened b (abort_requested reason was s).
Proof. intros H. apply (opened_frame b s _ []); try done; [apply grows_snoc|simpl; by rewrite app_nil_r]. Qed.

Lemma abort_inv g s reason : inv g s -> keeps g (writableStreamAbort user reason s).
Proof.
  intros Hi. unfold writableStreamAbort. mstep.
  destruct (bool_decide (state s = Closed) || bool_decide (state s = Errored)) eqn:Est; [by apply keeps_ret|].
  assert (Hst : state s = Writable \/ state s = Erroring) by (destruct (state s); auto; done).
  destruct (signalAbort_inv g s Hi) as (s1 & E & Hi1 & Es). rewrite (bind_eq _ _ _ _ _ E). mstep.
  rewrite <-Es in *. clear E Hi Es s. destruct (pendingAbortRequest s1) as [a|] eqn:Ea; [by apply keeps_ret|].
  massert by (by destruct Hst as [-> | ->]). unfold new_deferred at 1. unfold bind at 1. mstep.
  pose proof Hi1 as [Hc Hs]. unfold in_state in Hs. apply (ws_keeps_bind g); [|intros; by apply keeps_ret].
  change (set_pendingAbortRequest _ _) with (abort_requested (if bool_decide (state s1 = Erroring) then Undefined else reason)
    (bool_decide (state s1 = Erroring)) s1).
  destruct Hst as [E|E]; rewrite E in *; destruct Hs as [Hs Hb]; simpl.
  - pose proof (iw_opened _ _ Hs) as Ho. apply startErroring_inv; [done|].
    split; [by apply common_abort_requested|done|apply Hs|by eapply opened_failing, opened_abort| | | |apply Hs].
    + intros _. by eapply opened_relax, opened_abort.
    + intros a _ _ X. by apply (iw_algos _ _ Hs X).
    + exact (closed_snoc g s1 _ [] Hc (iw_closed _ _ Hs)).
  - split; [|done]. split; [by apply common_abort_requested|]. unfold in_state. simpl. rewrite E. split; [|exact Hb].
    split; [by apply opened_abort, Hs| | | |apply Hs].
    + intros a X Y. simpl in X. by simplify_eq.
    + exact (closed_snoc g s1 _ [] Hc (ie_closed _ _ Hs)).
    + exact (ready_snoc g s1 _ [] Hc (ie_ready _ _ Hs)).
Qed.

(** ** Writers *)

(** The state without a writer. *)
Definition released (ds : deferreds) (l : list writer_) (s : ws) : ws := set_writer None (touched ds l s).

Lemma released_inv g s ds l w : inv g s -> writer s = Some w -> touches (owed g s) s ds l ->
  ready_is false (touched ds l s) -> closed_is false (touched ds l s) ->
  inv g (released ds (alter (fun x => mkWriter false (w_ready x) (w_closed x)) w l) s).
Proof.
  intros [Hc Hs] Hw [Hsame Hp Hg] Hr Hk.
  assert (Hnk : forall b s', writer s' = None -> closed_is b s') by (intros b s' H w' X; congruence).
  split.
  - destruct Hc. split; try done; simpl.
    + intros w' x Hx. split; [|done]. intros Hsx. exfalso.
      destruct (decide (w = w')) as [->|Hne].
      * rewrite list_lookup_alter_eq in Hx. destruct (l !! w'); simpl in Hx; by simplify_eq.
      * rewrite list_lookup_alter_ne in Hx by done.
        apply (wsame_writer _ _ _ Hsame cm_writer w' x Hx) in Hsx. congruence.
    + apply (prom_drop _ (own (touched ds l s))); [|exact Hp]. unfold own. change (writer (touched ds l s)) with (writer s). rewrite Hw.
      intros i Hi. apply deferred_pending_false. rewrite !elem_of_cons, elem_of_nil in Hi.
      destruct Hi as [->|[->|[]]]; [by apply Hr|by apply Hk].
  - unfold in_state in *. simpl. destruct (state s).
    + destruct Hs as [Hs Hb]. split; [|exact Hb]. destruct Hs. split; try done.
      apply (opened_frame true s _ []); try done. simpl. by rewrite app_nil_r.
    + destruct Hs as [Hs Hb]. split; [|exact Hb]. destruct Hs. split; try done.
      apply (opened_frame false s _ []); try done. simpl. by rewrite app_nil_r.
    + destruct Hs. split; try done; [|by eapply resolved_grows]. destruct ic_finished as (H1 & H2 & H3 & H4 & H5 & H6).
      repeat split; try done; apply H1.
    + destruct Hs as [(H1 & H2 & H3 & H4 & H5 & H6) Hf Hx]. split.
      * repeat split; try done; apply H1.
      * apply (failing_frame s _ []); try done; [by left|]. simpl. by rewrite app_nil_r.
      * intros X. split; [by apply Hnk|]. by apply (Hx X).
Qed.

Lemma touched_touched ds l ds' l' s : touched ds' l' (touched ds l s) = touched ds' l' s.
Proof. by destruct s. Qed.

Lemma ws_release_inv g s w : inv g s -> keeps g (writer_releaseLock w s).
Proof.
  intros Hi. unfold writer_releaseLock. mstep. destruct (w_stream (get_writer w s)) eqn:Ew; [|by apply keeps_ret].
  pose proof Hi as [Hc Hs]. pose proof (stream_writer g s w Hc Ew) as Hw.
  massert by (apply locked_spec; by rewrite Hw). unfold writableStreamDefaultWriterRelease. mstep.
  massert by done. mstep. massert by (by apply bool_decide_eq_true). mstep.
  destruct (ensure_ready (owed g s) s w (TypeErr "The writer has already been released.") Hw (cm_valid _ _ Hc w Hw) (cm_prom _ _ Hc))
    as (ds1 & l1 & E1 & Ht1 & Hr1 & _).
  rewrite (bind_eq _ _ _ _ _ E1). pose proof (common_touched g s ds1 l1 Hc Ht1) as Hc1.
  destruct (ensure_closed (owed g s) (touched ds1 l1 s) w (TypeErr "The writer has already been released.") Hw
    (cm_valid _ _ Hc1 w Hw) (cm_prom _ _ Hc1)) as (ds2 & l2 & E2 & Ht2 & Hk2 & Hr2).
  rewrite (bind_eq _ _ _ _ _ E2). rewrite touched_touched in *. unfold bind, modify. split; [|done].
  apply (released_inv g s ds2 l2 w); try done; [|by apply Hr2].
  destruct Ht1 as [H1 _ H2], Ht2 as [H3 H4 H5]. rewrite touched_touched in H4. split; [|done|by eapply grows_trans].
  intros i. by rewrite <-H1, <-H3.
Qed.
(** The state with a new writer, whose promises are [d1] and [d2]. *)
Definition adopted (d1 d2 : deferred) (s : ws) : ws :=
  set_writer (Some (length (writers s)))
    (set_writers (writers s ++ [mkWriter true (length (promises s)) (S (length (promises s)))])
      (set_promises (promises s ++ [d1] ++ [d2]) s)).

(** What the new promises have to be. *)
Definition fits (s : ws) (d1 d2 : deferred) : Prop :=
  match state s with
  | Writable => (d1 = Pending <-> backpressure s && negb (writableStreamCloseQueuedOrInFlight s) = true) /\ d2 = Pending
  | Erroring => d1 <> Pending /\ d2 = Pending
  | Closed | Errored => d1 <> Pending /\ d2 <> Pending
  end.

Lemma get_adopted d1 d2 s : get_writer (length (writers s)) (adopted d1 d2 s) =
  mkWriter true (length (promises s)) (S (length (promises s))).
Proof. apply get_writer_lookup. simpl. by rewrite lookup_app_r, Nat.sub_diag. Qed.

Lemma ready_adopted b d1 d2 s : (d1 = Pending <-> b = true) -> ready_is b (adopted d1 d2 s).
Proof.
  intros H w Hw. simpl in Hw. injection Hw as <-. rewrite get_adopted. simpl. unfold deferred_pending.
  rewrite lookup_app_r, Nat.sub_diag by done. simpl. destruct b, d1; intuition congruence.
Qed.

Lemma closed_adopted b d1 d2 s : (d2 = Pending <-> b = true) -> closed_is b (adopted d1 d2 s).
Proof.
  intros H w Hw. simpl in Hw. injection Hw as <-. rewrite get_adopted. simpl. unfold deferred_pending.
  rewrite lookup_app_r by lia. replace (S (length (promises s)) - length (promises s)) with 1 by lia. simpl.
  destruct b, d2; intuition congruence.
Qed.

Lemma common_adopted g s d1 d2 : common g s -> writer s = None -> common g (adopted d1 d2 s).
Proof.
  intros Hc Hw. pose proof (cm_prom _ _ Hc) as Hp. pose proof (cm_writer _ _ Hc) as Hcw. split; try apply Hc; simpl.
  - intros w x Hx. rewrite lookup_app in Hx. destruct (writers s !! w) as [y|] eqn:E.
    + simplify_eq. rewrite (Hcw w x E), Hw. split; [done|]. intros [= <-]. apply lookup_lt_Some in E. lia.
    + apply lookup_ge_None in E. destruct (w - length (writers s)) as [|n] eqn:En; simpl in Hx; simplify_eq. simpl.
      split; [|done]. intros _. f_equal. lia.
  - intros w [= <-]. rewrite lookup_app_r, Nat.sub_diag by done. by eexists.
  - unfold own in *. rewrite Hw in Hp. change (writer (adopted d1 d2 s)) with (Some (length (writers s))). cbv iota.
    rewrite get_adopted. by apply prom_adopt.
Qed.

Lemma grows_adopted d1 d2 (ds : deferreds) : grows ds (ds ++ [d1] ++ [d2]).
Proof. rewrite app_assoc. eapply grows_trans; apply grows_snoc. Qed.

Lemma adopted_inv g s d1 d2 : inv g s -> writer s = None -> fits s d1 d2 -> inv g (adopted d1 d2 s).
Proof.
  intros [Hc Hs] Hw Hf. split; [by apply common_adopted|]. pose proof (grows_adopted d1 d2 (promises s)) as Hg.
  unfold in_state, fits in *. change (state (adopted d1 d2 s)) with (state s). destruct (state s).
  - destruct Hf as [H1 H2], Hs as [Hs Hb]. split; [|exact Hb]. destruct Hs. split; try done.
    + apply (opened_frame true s _ []); try done. simpl. by rewrite app_nil_r.
    + by apply closed_adopted.
    + by apply ready_adopted.
  - destruct Hf as [H1 H2], Hs as [Hs Hb]. split; [|exact Hb]. destruct Hs. split; try done.
    + apply (opened_frame false s _ []); try done. simpl. by rewrite app_nil_r.
    + by apply closed_adopted.
    + by apply ready_adopted.
  - destruct Hf as [H1 H2], Hs as [(F1 & F2 & F3 & F4 & F5 & F6) G1 G2 G3 G4 G5]. split; try done.
    + repeat split; try done; try apply F1. by apply ready_adopted.
    + by eapply resolved_grows.
    + by apply closed_adopted.
  - destruct Hf as [H1 H2], Hs as [(F1 & F2 & F3 & F4 & F5 & F6) G1 G2]. split; try done.
    + repeat split; try done; try apply F1. by apply ready_adopted.
    + apply (failing_frame s _ []); try done; [by left|]. simpl. by rewrite app_nil_r.
    + intros X. split; [by apply closed_adopted|]. by apply G2.
Qed.

Lemma settle_fresh2 d1 d2 d (ds : deferreds) :
  deferred_settle (length ds) d ((ds ++ [Pending]) ++ [d2]) = ds ++ [d] ++ [d2] /\
  deferred_settle (S (length ds)) d (ds ++ [d1; Pending]) = ds ++ [d1; d].
Proof.
  split.
  - unfold deferred_settle. rewrite <-app_assoc. simpl. rewrite lookup_app_r, Nat.sub_diag by done. simpl.
    by rewrite insert_app_r_alt, Nat.sub_diag by lia.
  - pose proof (settle_fresh d (ds ++ [d1])) as E. rewrite length_app in E. simpl in E.
    rewrite Nat.add_1_r, <-!app_assoc in E. exact E.
Qed.

Lemma getWriter_inv g s : inv g s -> keeps g (setUpWritableStreamDefaultWriter s).
Proof.
  intros Hi. unfold setUpWritableStreamDefaultWriter. mstep. destruct (isWritableStreamLocked s) eqn:El; [by split|].
  assert (Hw : writer s = None) by (unfold isWritableStreamLocked in El; by destruct (writer s)).
  unfold new_deferred at 1. unfold bind at 1. unfold new_deferred at 1. unfold bind at 1. mstep.
  match goal with |- keeps g (bind ?m ?k ?x) => assert (Hm : exists d1 d2, m x = (adopted d1 d2 s, Ret tt) /\ fits s d1 d2) end.
  { pose proof (fun d => proj1 (settle_fresh2 Pending Pending d (promises s))) as E1.
    pose proof (fun d1 d => proj2 (settle_fresh2 d1 Pending d (promises s))) as E2. simpl in E1, E2.
    assert (El2 : length (promises s ++ [Pending]) = S (length (promises s))) by (rewrite length_app; simpl; lia).
    unfold adopted, fits, modify, resolve, reject, deferred_resolve, deferred_reject, bind, mret. simpl. rewrite El2.
    destruct (state s).
    - destruct (writableStreamCloseQueuedOrInFlight s) eqn:Ecl, (backpressure s) eqn:Eb; simpl; rewrite ?E1;
        [exists (Resolved RUndefined), Pending..|exists Pending, Pending|exists (Resolved RUndefined), Pending];
        rewrite <-?app_assoc; (split; [done|split; [|done]]); by split.
    - rewrite E1. by exists (Rejected (storedError s)), Pending.
    - rewrite E1. rewrite E2. by exists (Resolved RUndefined), (Resolved RUndefined).
    - rewrite E1. rewrite E2. by exists (Rejected (storedError s)), (Rejected (storedError s)). }
  destruct Hm as (d1 & d2 & E & Hf). rewrite (bind_eq _ _ _ _ _ E). apply keeps_ret. by apply adopted_inv.
Qed.

(** ** User code *)

Lemma controller_error_inv g s e : inv g s -> keeps g (controller_error user e s).
Proof.
  intros Hi. unfold controller_error. mstep. destruct (decide (state s = Writable)) as [H|H].
  - rewrite bool_decide_eq_false_2 by (intros X; done).
    pose proof (errorIfNeeded_inv user user_inv g s e Hi) as X. unfold writableStreamDefaultControllerErrorIfNeeded in X.
    rewrite bind_gets, bool_decide_eq_true_2 in X by done. by apply ws_returns_keeps.
  - rewrite bool_decide_eq_true_2 by done. by apply keeps_ret.
Qed.

Lemma ws_keeps_void {A} g (m : M ws A) s : keeps g (m s) -> keeps g (bind m (fun _ => mret tt) s).
Proof. unfold keeps, bind. destruct (m s) as [s' [a|e]]; simpl; intros [H1 H2]; (split; [done|congruence]). Qed.

Lemma ws_run_op_inv g s o : inv g s -> keeps g (run_op user o s).
Proof.
  intros Hi. destruct o; simpl; try apply ws_keeps_void.
  - by apply getWriter_inv.
  - unfold stream_abort. mstep. destruct (isWritableStreamLocked s); [by apply keeps_ret|by apply abort_inv].
  - unfold stream_close. mstep. destruct (isWritableStreamLocked s); [by apply keeps_ret|].
    destruct (writableStreamCloseQueuedOrInFlight s) eqn:E; [by apply keeps_ret|by apply close_inv].
  - by apply write_inv.
  - unfold writer_close. mstep. destruct (w_stream (get_writer w s)); [|by apply keeps_ret].
    destruct (writableStreamCloseQueuedOrInFlight s) eqn:E; [by apply keeps_ret|by apply close_inv].
  - unfold writer_abort. mstep. destruct (w_stream (get_writer w s)); [by apply abort_inv|by apply keeps_ret].
  - by apply ws_release_inv.
  - by apply controller_error_inv.
Qed.

(** Recording something that is no call and no chunk. *)
Lemma emit_inv g s o : benign o -> accepted [o] = [] -> written [o] = [] -> inv g s -> inv g (emit o s).
Proof.
  intros Hb Ha Hw [Hc Hs]. split; [by apply common_emit|].
  assert (Ho : forall b, opened b s -> opened b (emit o s)) by (intros b H; apply (opened_frame b s _ [o]); try done; apply grows_refl).
  unfold in_state in *. simpl. destruct (state s).
  - destruct Hs as [Hs Hx]. split; [|exact Hx]. destruct Hs. split; try done. by apply Ho.
  - destruct Hs as [Hs Hx]. split; [|exact Hx]. destruct Hs. split; try done. by apply Ho.
  - destruct Hs. split; try done; simpl; by rewrite ?written_app, ws_accepted_app, Ha, ?Hw, ?app_nil_r.
  - destruct Hs. split; try done. apply (failing_frame s _ [o]); try done; [by left|apply grows_refl].
Qed.

Lemma ws_act_inv g s o : inv g s -> inv g (act user o s).
Proof.
  intros Hi. destruct (ws_run_op_inv g s o Hi) as [H1 H2]. unfold act.
  destruct (run_op user o s) as [s' [[]|e]]; simpl in *; [done|]. apply emit_inv; try done. split; congruence.
Qed.

Lemma ws_run_acts_inv g s acts : inv g s -> inv g (run_acts user acts s).
Proof.
  revert s. induction acts as [|o acts IH]; intros s Hi; [done|]. apply IH. by apply ws_act_inv.
Qed.
End Operations.
