(* ===== verification/WritableStreamRuns.v ===== *)
(** * Writable streams: reactions and runs

    The last part of the preservation proof: what the reactions to the sink's
    promises do, then [exec] and [run] for any sequence of events and any
    scripts ([ws_run_inv]). *)

From Stdlib Require Import ZArith Lia.
From stdpp Require Import base list numbers option strings.
From S2P Require Import Prelude JsNumber StreamBase WritableStream WritableStreamProps WritableStreamInv WritableStreamSteps.

#[local] Open Scope nat_scope.

(** ** Taking a reaction from the list *)

Lemma ws_count_delete f l k j : l !! k = Some j -> count f l = b2n (f j) + count f (delete k l).
Proof.
  intros H. unfold count. transitivity (length (filter (fun j => f j = true) (j :: delete k l))).
  - apply Permutation_length. by rewrite <-(delete_Permutation _ _ _ H).
  - rewrite filter_cons. destruct (f j) eqn:E; [by rewrite decide_True|by rewrite decide_False].
Qed.

Lemma abort_jobs_delete l k j : l !! k = Some j -> abort_jobs l ≡ₚ abort_jobs [j] ++ abort_jobs (delete k l).
Proof.
  intros H. rewrite <-abort_jobs_app. apply omap_Permutation. by apply delete_Permutation.
Qed.

Lemma in_state_jobs g g' s l : (aborting g' (set_jobs l s) <-> aborting g s) -> in_state g s -> in_state g' (set_jobs l s).
Proof.
  intros E H. unfold in_state in *. simpl. destruct (state s);
    [destruct H as [H Hb]; split; [destruct H; split; try done; by rewrite E|exact Hb]..| |].
  - destruct H. split; try done. by rewrite E.
  - destruct H. split; try done. by rewrite E.
Qed.

(** The ghost while the reaction [j] runs. *)
Definition taking (j : job) (g : ghost) : ghost :=
  match j with
  | JStart => Ghost (g_write g) (g_close g) (g_abort g) (pred (g_starts g)) (g_started g)
  | JWrite => with_write true g
  | JClose => with_close true g
  | JAbort d => with_abort (Some d) g
  end.

Lemma take_inv g s k j : g_write g = false -> g_close g = false -> g_abort g = None ->
  inv g s -> jobs s !! k = Some j -> inv (taking j g) (set_jobs (delete k (jobs s)) s).
Proof.
  intros Gw Gc Ga [Hc Hs] Hj. pose proof (abort_jobs_delete _ _ _ Hj) as Ea.
  pose proof (fun f => ws_count_delete f _ _ _ Hj) as Ec.
  assert (Ep : option_list (g_abort (taking j g)) ++ abort_jobs (delete k (jobs s)) ≡ₚ option_list (g_abort g) ++ abort_jobs (jobs s)).
  { rewrite Ga, Ea. destruct j; simpl; by rewrite ?Ga. }
  split.
  - pose proof (cm_writes _ _ Hc) as X1. pose proof (cm_closes _ _ Hc) as X2. pose proof (cm_starts _ _ Hc) as X3.
    pose proof (cm_started _ _ Hc) as X4. rewrite Ec in X1, X2, X3. rewrite ?Gw, ?Gc in *.
    split; try apply Hc; simpl; [destruct j; simpl in *; rewrite ?Gw, ?Gc; simpl; lia..|by destruct j|].
    pose proof (cm_prom _ _ Hc) as Hp. eapply prom_perm; [|exact Hp]. unfold owed. simpl. by rewrite Ep.
  - apply (in_state_jobs g); [|done]. unfold aborting. simpl. split; intros X Y; apply X; apply Permutation_nil_r.
    + by rewrite Ep, Y.
    + by rewrite <-Ep, Y.
Qed.

Section Operations.
Variable user : list op -> ws -> ws.
Hypothesis user_inv : forall g acts s, inv g s -> inv g (user acts s).
Hypothesis user_nil : forall s, user [] s = s.

(** ** A write was performed *)

(** A write or a close in flight means that the stream is writable or erroring. *)
Lemma busy_state g s : inv g s -> ~ idle s -> state s = Writable \/ state s = Erroring.
Proof. intros [_ Hs] Hi. unfold in_state in Hs. destruct (state s); auto; exfalso; apply Hi, Hs. Qed.

(** The state without the write in flight. *)
Definition unwritten (d : deferred) (id : nat) (s : ws) : ws :=
  set_inFlightWriteRequest None (set_promises (deferred_settle id d (promises s)) s).

Lemma common_unwritten g s d id : g_write g = false -> d <> Pending -> common (with_write true g) s ->
  inFlightWriteRequest s = Some id -> common g (unwritten d id s).
Proof.
  intros Hg Hd Hc Hw. pose proof (cm_writes _ _ Hc) as X1. rewrite Hw in X1. simpl in X1.
  pose proof (cm_prom _ _ Hc) as Hp. unfold owed in Hp. rewrite Hw in Hp. simpl in Hp.
  split; try apply Hc; simpl; try done; [rewrite Hg; simpl; lia|intros X; by destruct (cm_notyet _ _ Hc X)|].
  by apply (prom_settle_owed [] id).
Qed.

(** The writer's promises while an owed promise is settled. *)
Lemma own_owed g s d id i : d <> Pending -> common g s -> id ∈ owed g s -> i ∈ own s ->
  deferred_pending i (deferred_settle id d (promises s)) = deferred_pending i (promises s).
Proof.
  intros Hd Hc Hid Hi. apply list_elem_of_split in Hid as (A & B & E). pose proof (cm_prom _ _ Hc) as Hp. rewrite E in Hp.
  by apply (own_settle A B (own s)).
Qed.

Lemma ready_owed g s d id b : d <> Pending -> common g s -> id ∈ owed g s -> ready_is b s ->
  ready_is b (set_promises (deferred_settle id d (promises s)) s).
Proof.
  intros Hd Hc Hid Hr w Hw. simpl in Hw. rewrite <-(Hr w Hw). change (get_writer w (set_promises _ _)) with (get_writer w s).
  simpl. apply (own_owed g); try done. unfold own. rewrite Hw. constructor.
Qed.

Lemma closed_owed g s d id b : d <> Pending -> common g s -> id ∈ owed g s -> closed_is b s ->
  closed_is b (set_promises (deferred_settle id d (promises s)) s).
Proof.
  intros Hd Hc Hid Hr w Hw. simpl in Hw. rewrite <-(Hr w Hw). change (get_writer w (set_promises _ _)) with (get_writer w s).
  simpl. apply (own_owed g); try done. unfold own. rewrite Hw. by apply list_elem_of_further, list_elem_of_singleton.
Qed.

(** The chunk that was written leaves the account. *)
Lemma opened_write b g s id : common g s -> inFlightWriteRequest s = Some id -> opened b s ->
  exists chunk size q,
    c_queue (queue s) = (IChunk chunk, size) :: q /\
    forall c, c_queue c = q -> opened b (set_queue c (unwritten (Resolved RUndefined) id s)).
Proof.
  intros Hc Hiw (fin & cur & Ha & Hr & Hit & Hw & Hne & Hpr & Heq & Hcl). unfold current in *. rewrite Hiw in *. simpl in *.
  destruct cur as [|[i chunk] cur]; [by destruct Hne|]. simpl in *.
  assert (i = id) as -> by (destruct Hpr as [? E]; by injection E).
  destruct (c_queue (queue s)) as [|[it size] q]; [done|]. simpl in Hit. injection Hit as -> Hit.
  exists chunk, size, q. split; [done|]. intros c Hq.
  assert (Hp : promises s !! id = Some Pending).
  { apply (p_owed _ _ _ (cm_prom _ _ Hc)). unfold owed. rewrite Hiw. constructor. }
  exists (fin ++ [(id, chunk)]), cur. unfold current. simpl.
  split; [by rewrite Ha, <-app_assoc|]. split.
  { rewrite fmap_app. apply Forall_app. split; [eapply resolved_grows; [apply grows_settle|done]|].
    apply Forall_singleton. unfold resolved. simpl. rewrite lookup_deferred_settle. by rewrite bool_decide_eq_true_2. }
  split; [by rewrite Hq|]. split; [by rewrite Hw, fmap_app, ?take_0, ?app_nil_r|]. split; [done|].
  split; [by eapply prefix_cons_inv_2|]. split; [intros X; specialize (Heq X); by injection Heq|].
  intros X. pose proof (cm_excl _ _ Hc) as Y. rewrite Hiw in Y. by destruct (X (Y ltac:(done))).
Qed.
(** The advance that follows a write that succeeded. *)
Lemma written_advancing g s id c : g_write g = false -> inv (with_write true g) s -> inFlightWriteRequest s = Some id ->
  container_ok c -> (forall b, opened b s -> opened b (set_queue c (unwritten (Resolved RUndefined) id s))) ->
  let s1 := set_queue c (unwritten (Resolved RUndefined) id s) in
  common g s1 /\ inFlightCloseRequest s1 = None /\ closed_is true s1 /\
  (state s1 = Writable -> writableStreamCloseQueuedOrInFlight s1 = false ->
     ready_is (backpressure s1) s1 /\
     forall b ds l, b = writableStreamDefaultControllerGetBackpressure s1 -> touches (owed g s1) s1 ds l ->
     ready_is b (touched ds l s1) -> closed_is true (touched ds l s1) -> advancing g (set_backpressure b (touched ds l s1))) /\
  ((state s1 = Writable -> writableStreamCloseQueuedOrInFlight s1 = true) -> advancing g s1).
Proof.
  intros Hg Hi Hiw Hok Ho s1. pose proof Hi as [Hc Hs].
  assert (Hid : id ∈ owed (with_write true g) s) by (unfold owed; rewrite Hiw; constructor).
  assert (Hc1 : common g s1).
  { pose proof (common_unwritten g s (Resolved RUndefined) id Hg ltac:(done) Hc Hiw) as X. destruct X. by split. }
  assert (Hic : inFlightCloseRequest s = None) by (apply (cm_excl _ _ Hc); by rewrite Hiw).
  assert (Hst : state s = Writable \/ state s = Erroring) by (apply (busy_state _ _ Hi); intros [X _]; congruence).
  pose proof (fun b => ready_owed _ s (Resolved RUndefined) id b ltac:(done) Hc Hid) as Hr.
  pose proof (fun b => closed_owed _ s (Resolved RUndefined) id b ltac:(done) Hc Hid) as Hk.
  unfold in_state in Hs.
  assert (Hk1 : closed_is true s1) by (apply Hk; destruct Hst as [E|E]; rewrite E in Hs; apply Hs).
  split; [done|]. split; [done|]. split; [done|]. split.
  - intros Est Hcl. change (state s = Writable) in Est. rewrite Est in Hs. destruct Hs as [Hs _].
    change (writableStreamCloseQueuedOrInFlight s = false) in Hcl.
    pose proof (iw_ready _ _ Hs) as X. rewrite Hcl, andb_true_r in X. split; [by apply Hr|].
    intros b ds l Eb Ht Hrb Hkb. pose proof (common_touched g s1 ds l Hc1 Ht) as Hc2.
    split; [destruct Hc2; by split|]. split; [done|]. left. split; [done|]. destruct Hs. split; try done.
    + apply (opened_frame true s1 _ []); try done; [by apply Ho|apply Ht|simpl; by rewrite app_nil_r].
    + change (writableStreamCloseQueuedOrInFlight (set_backpressure _ _)) with (writableStreamCloseQueuedOrInFlight s).
      rewrite Hcl, andb_true_r. exact Hrb.
  - intros Hcl. split; [done|]. split; [done|]. change (state s1) with (state s).
    destruct Hst as [E|E]; [left|right]; (split; [done|]); rewrite E in Hs; destruct Hs as [Hs _].
    + specialize (Hcl E). change (writableStreamCloseQueuedOrInFlight s = true) in Hcl.
      destruct Hs as [H1 H2 H3 H4 H5 H6 H7 H8]. split; try done; [by apply Ho|by apply Hr|].
      intros X. change (writableStreamCloseQueuedOrInFlight s = false) in X. congruence.
    + destruct Hs as [H1 H2 H3 H4 H5]. split; try done; [by apply Ho|by apply Hr].
Qed.

Lemma write_fulfilled_inv g s : g_write g = false -> inv (with_write true g) s -> returns g (write_fulfilled user s).
Proof.
  intros Hg Hi. pose proof Hi as [Hc Hs]. pose proof (cm_writes _ _ Hc) as X. simpl in X.
  destruct (inFlightWriteRequest s) as [id|] eqn:Hiw; [|simpl in X; lia]. clear X.
  assert (Hst : state s = Writable \/ state s = Erroring) by (apply (busy_state _ _ Hi); intros [X _]; congruence).
  assert (Hop : exists b, opened b s).
  { unfold in_state in Hs. destruct Hst as [E|E]; rewrite E in Hs; destruct Hs as [Hs _]; eexists; apply Hs. }
  destruct Hop as [b Hop]. destruct (opened_write b _ s id Hc Hiw Hop) as (chunk & size & q & Eq & _).
  unfold write_fulfilled, writableStreamFinishInFlightWrite. mstep. rewrite Hiw. mstep.
  change (state (set_inFlightWriteRequest _ _)) with (state s). massert by (by destruct Hst as [-> | ->]).
  change (set_inFlightWriteRequest None (resolve id s)) with (unwritten (Resolved RUndefined) id s).
  pose proof (dequeueValue_ok _ (cm_queue _ _ Hc)) as Hok. destruct (dequeueValue (queue s)) as [c r] eqn:Ed. simpl in Hok.
  assert (Hcq : c_queue c = q /\ r = Ret (IChunk chunk)) by (unfold dequeueValue in Ed; rewrite Eq in Ed; by simplify_eq).
  destruct Hcq as [Hcq ->]. set (s1 := set_queue c (unwritten (Resolved RUndefined) id s)).
  rewrite (bind_eq dequeue_value _ _ s1 (IChunk chunk)) by (unfold dequeue_value; change (queue (unwritten _ _ _)) with (queue s); by rewrite Ed).
  assert (Ho : forall b, opened b s -> opened b s1).
  { intros b' Hb'. destruct (opened_write b' _ s id Hc Hiw Hb') as (chunk' & size' & q' & Eq' & Ho).
    apply Ho. rewrite Eq in Eq'. by simplify_eq. }
  destruct (written_advancing g s id c Hg Hi Hiw Hok Ho) as (Hc1 & Hic & Hk & Hfresh & Hskip). fold s1 in Hc1, Hic, Hk, Hfresh, Hskip.
  mstep. change (state s) with (state s1).
  change (if writableStreamCloseQueuedOrInFlight s1 then false else true) with (negb (writableStreamCloseQueuedOrInFlight s1)).
  destruct (negb (writableStreamCloseQueuedOrInFlight s1) && bool_decide (state s1 = Writable)) eqn:Eb.
  - apply andb_true_iff in Eb as [E1 E2]. apply negb_true_iff in E1. apply bool_decide_eq_true in E2.
    destruct (Hfresh E2 E1) as [Hr Hadv].
    destruct (update_backpressure g s1 (writableStreamDefaultControllerGetBackpressure s1) Hc1 E2 E1 Hr Hk) as (ds & l & Eu & Ht & Hr1 & Hk1).
    rewrite (bind_eq _ _ _ _ _ Eu). apply advance_inv; [done|]. by apply Hadv.
  - mstep. apply advance_inv; [done|]. apply Hskip. intros E. rewrite E in Eb.
    rewrite bool_decide_eq_true_2, andb_true_r in Eb by done. by apply negb_false_iff in Eb.
Qed.

(** ** A write failed *)

Lemma failing_write b g s id e : common g s -> inFlightWriteRequest s = Some id -> opened b s ->
  failing (unwritten (Rejected e) id s).
Proof.
  intros Hc Hiw Ho. apply opened_failing in Ho.
  apply (failing_frame s _ []); try done; [|apply grows_settle|simpl; by rewrite app_nil_r].
  intros i Hi. unfold current in *. rewrite Hiw in Hi. simpl in *. apply elem_of_cons in Hi as [->|Hi]; [|by left].
  right. exists e. rewrite lookup_deferred_settle, bool_decide_eq_true_2; [done|]. split; [done|].
  apply (p_owed _ _ _ (cm_prom _ _ Hc)). unfold owed. rewrite Hiw. constructor.
Qed.

Lemma write_rejected_inv g s e : g_write g = false -> inv (with_write true g) s -> returns g (write_rejected user e s).
Proof.
  intros Hg Hi. pose proof Hi as [Hc Hs]. pose proof (cm_writes _ _ Hc) as X. simpl in X.
  destruct (inFlightWriteRequest s) as [id|] eqn:Hiw; [|simpl in X; lia]. clear X.
  assert (Hst : state s = Writable \/ state s = Erroring) by (apply (busy_state _ _ Hi); intros [X _]; congruence).
  assert (Hid : id ∈ owed (with_write true g) s) by (unfold owed; rewrite Hiw; constructor).
  assert (Hic : inFlightCloseRequest s = None) by (apply (cm_excl _ _ Hc); by rewrite Hiw).
  assert (Hsd : started s = true) by (destruct (started s) eqn:E; [done|]; destruct (cm_notyet _ _ Hc E); congruence).
  pose proof (fun b => ready_owed _ s (Rejected e) id b ltac:(done) Hc Hid) as Hr.
  pose proof (fun b => closed_owed _ s (Rejected e) id b ltac:(done) Hc Hid) as Hk.
  pose proof (common_unwritten g s (Rejected e) id Hg ltac:(done) Hc Hiw) as Hc1. unfold in_state in Hs.
  unfold write_rejected. mstep. destruct Hst as [E|E]; rewrite E in *; destruct Hs as [Hs _]; on_state E; mstep;
    unfold writableStreamFinishInFlightWriteWithError; mstep.
  - change (inFlightWriteRequest (writableStreamDefaultControllerClearAlgorithms s)) with (inFlightWriteRequest s). rewrite Hiw. mstep.
    massert by (simpl; by rewrite E).
    change (set_inFlightWriteRequest None (reject id e (writableStreamDefaultControllerClearAlgorithms s)))
      with (writableStreamDefaultControllerClearAlgorithms (unwritten (Rejected e) id s)).
    apply dealWithRejection_writable; [done|]. destruct Hs as [H1 H2 H3 H4 H5 H6 H7 H8].
    split; try done; [by apply common_clear|by apply (failing_write true (with_write true g))| | |by apply Hk].
    + intros [X|X]; [simpl in X; congruence|]. by destruct X.
    + intros a X. simpl in X. congruence.
  - rewrite Hiw. mstep. massert by (simpl; by rewrite E).
    change (set_inFlightWriteRequest None (reject id e s)) with (unwritten (Rejected e) id s).
    apply dealWithRejection_erroring; [done|]. destruct Hs as [H1 H2 H3 H4 H5].
    split; try done; [by apply (failing_write false (with_write true g))|by apply Hr].
Qed.
(** ** The close was performed *)

(** What is known while a close is in flight: it is the last thing to do. *)
Lemma closing_facts g s : inv (with_close true g) s -> exists id fin,
  inFlightCloseRequest s = Some id /\ inFlightWriteRequest s = None /\ writeRequests s = [] /\ closeRequest s = None /\
  started s = true /\ (state s = Writable \/ state s = Erroring) /\ ~ aborting g s /\ c_queue (queue s) = [] /\
  accepted (log s) = fin /\ Forall (resolved (promises s)) fin.*1 /\ written (log s) = fin.*2 /\ ready_is false s /\ closed_is true s /\
  owed (with_close true g) s = id :: (ar_deferred <$> option_list (pendingAbortRequest s)).
Proof.
  intros Hi. pose proof Hi as [Hc Hs]. pose proof (cm_closes _ _ Hc) as X. simpl in X.
  destruct (inFlightCloseRequest s) as [id|] eqn:Hic; [|simpl in X; lia]. clear X.
  assert (Hiw : inFlightWriteRequest s = None).
  { destruct (inFlightWriteRequest s) eqn:E; [|done]. pose proof (cm_excl _ _ Hc) as X. rewrite E, Hic in X. by specialize (X ltac:(done)). }
  assert (Hst : state s = Writable \/ state s = Erroring) by (apply (busy_state _ _ Hi); intros [_ X]; congruence).
  assert (Hsd : started s = true) by (destruct (started s) eqn:E; [done|]; destruct (cm_notyet _ _ Hc E); congruence).
  assert (Hall : (exists b, opened b s) /\ ~ aborting g s /\ ready_is false s /\ closed_is true s).
  { unfold in_state in Hs. destruct Hst as [E|E]; rewrite E in Hs; destruct Hs as [Hs _].
    - destruct Hs as [H1 _ _ _ H5 H6 _ H8]. split; [by eexists|]. split; [exact H8|]. split; [|done].
      replace false with (backpressure s && negb (writableStreamCloseQueuedOrInFlight s)); [done|].
      unfold writableStreamCloseQueuedOrInFlight. rewrite Hic, (bool_decide_eq_false_2 (Some id = None)) by done.
      by rewrite !andb_false_r.
    - destruct Hs as [H1 _ H3 H4 H5]. split; [by eexists|]. by split. }
  destruct Hall as ((b & fin & cur & Ha & Hr & Hit & Hw & _ & _ & _ & Hcl) & Hna & Hre & Hk).
  destruct Hcl as (-> & Hcr & Hwr); [by rewrite Hic|]. rewrite app_nil_r in Ha. rewrite Hcr in Hit. simpl in Hit.
  simpl in Hw; rewrite ?take_nil, app_nil_r in Hw. apply fmap_nil_inv in Hit. destruct (not_aborting g s Hna) as [Hg Hj].
  exists id, fin. unfold owed. simpl. rewrite Hiw, Hwr, Hic, Hcr, Hg, Hj. simpl. rewrite app_nil_r. by repeat split.
Qed.

(** The state without the close in flight and the abort request. *)
Definition unclosed (ds : deferreds) (e : value) (s : ws) : ws :=
  set_pendingAbortRequest None (set_storedError e (set_promises ds (set_inFlightCloseRequest None s))).

(** Settling the close request and the abort request the same way. *)
Definition settle_close (d : deferred) (s : ws) : deferreds :=
  settle_all d (option_list (inFlightCloseRequest s) ++ (ar_deferred <$> option_list (pendingAbortRequest s))) (promises s).

Lemma settle_close_spec d g s : d <> Pending -> inv (with_close true g) s ->
  prom [] (own s) (settle_close d s) /\ grows (promises s) (settle_close d s) /\
  forall i, i ∈ own s -> deferred_pending i (settle_close d s) = deferred_pending i (promises s).
Proof.
  intros Hd Hi. destruct (closing_facts g s Hi) as (id & fin & Hic & _ & _ & _ & _ & _ & _ & _ & _ & _ & _ & _ & _ & Ho).
  pose proof (cm_prom _ _ (proj1 Hi)) as Hp. unfold settle_close. rewrite Hic. simpl option_list.
  change ([id] ++ ?l) with (id :: l). rewrite <-Ho. split; [|split].
  - apply (prom_settle_all [] _ []); [done|]. by rewrite app_nil_r.
  - apply grows_settle_all.
  - intros i Hin. apply deferred_pending_ext. apply pending_settle_all; [done|]. intros X.
    pose proof (p_nodup _ _ _ Hp) as Hn. apply NoDup_app in Hn as (_ & Hn & _). by apply (Hn i).
Qed.

Lemma common_unclosed d g s e : g_close g = false -> d <> Pending -> inv (with_close true g) s ->
  common g (unclosed (settle_close d s) e s).
Proof.
  intros Hg Hd Hi. destruct (settle_close_spec d g s Hd Hi) as (Hp & _ & _).
  destruct (closing_facts g s Hi) as (id & fin & Hic & Hiw & Hwr & Hcr & _ & _ & Hna & _).
  destruct (not_aborting g s Hna) as [Ha Hj]. destruct Hi as [Hc _]. pose proof (cm_closes _ _ Hc) as X. rewrite Hic in X. simpl in X.
  split; try apply Hc; simpl; try done; [rewrite Hg; simpl; lia|].
  unfold owed. simpl. by rewrite Hiw, Hwr, Hcr, Ha, Hj.
Qed.

(** The stream after the close succeeded. *)
Lemma closed_inv g s : g_close g = false -> inv (with_close true g) s ->
  let s1 := set_state Closed (unclosed (settle_close (Resolved RUndefined) s) Undefined s) in
  forall s2, s2 = match writer s with Some w => resolve (w_closed (get_writer w s1)) s1 | None => s1 end -> inv g s2.
Proof.
  intros Hg Hi s1 s2 E. assert (Hd : Resolved RUndefined <> Pending) by done.
  destruct (settle_close_spec _ g s Hd Hi) as (Hp & Hgr & Hown).
  pose proof (common_unclosed _ g s Undefined Hg Hd Hi) as Hc1.
  destruct (closing_facts g s Hi) as (id & fin & Hic & Hiw & Hwr & Hcr & Hsd & Hst & Hna & Hq & Ha & Hr & Hw & Hre & Hk & _).
  assert (Hre1 : ready_is false s1).
  { intros w X. simpl in X. rewrite <-(Hre w X). apply Hown. unfold own. rewrite X. constructor. }
  assert (Hend : exists ds, s2 = set_promises ds s1 /\ prom [] (own s) ds /\ grows (promises s) ds /\
    ready_is false (set_promises ds s1) /\ closed_is false (set_promises ds s1)).
  { destruct (writer s) as [w|] eqn:Ew.
    - exists (deferred_resolve (w_closed (get_writer w s)) RUndefined (promises s1)).
      destruct (ready_closed_ne _ s w (proj1 Hi) Ew) as (Hne & _ & _).
      split; [by rewrite E|]. split; [apply prom_settle_own; [done|by intros ?%elem_of_nil|done]|].
      split; [eapply grows_trans; [exact Hgr|apply grows_settle]|]. split.
      + intros w' X. simpl in X. rewrite <-(Hre1 w' X). assert (w' = w) as -> by congruence.
        change (get_writer w (set_promises _ _)) with (get_writer w s). change (get_writer w s1) with (get_writer w s).
        apply deferred_pending_ext. unfold deferred_resolve. simpl.
        rewrite pending_settle by done. split; [tauto|]. by intros ?.
      + intros w' X. simpl in X. assert (w' = w) as -> by congruence.
        change (get_writer w (set_promises _ _)) with (get_writer w s). apply deferred_pending_false. simpl.
        unfold deferred_resolve. rewrite pending_settle by done. tauto.
    - exists (promises s1). split; [by rewrite E; destruct s|]. split; [exact Hp|]. split; [exact Hgr|]. split; [exact Hre1|].
      intros w X. simpl in X. congruence. }
  destruct Hend as (ds & -> & Hp2 & Hg2 & Hre2 & Hk2). destruct (not_aborting g s Hna) as [Hga Hj]. split.
  - destruct Hc1. split; try done. unfold owed. simpl. by rewrite Hiw, Hwr, Hcr, Hga, Hj.
  - unfold in_state. simpl. split; simpl; try done; rewrite ?Ha; try done.
    by eapply resolved_grows.
Qed.

Lemma close_fulfilled_inv g s : g_close g = false -> inv (with_close true g) s -> returns g (writableStreamFinishInFlightClose s).
Proof.
  intros Hg Hi. pose proof (closed_inv g s Hg Hi) as Hend.
  destruct (closing_facts g s Hi) as (id & fin & Hic & _ & _ & _ & _ & Hst & _).
  unfold writableStreamFinishInFlightClose. mstep. rewrite Hic. mstep. massert by (simpl; by destruct Hst as [-> | ->]).
  change (state (set_inFlightCloseRequest _ _)) with (state s).
  match goal with |- returns g (bind ?m ?k ?x) => assert (E : m x = (unclosed (settle_close (Resolved RUndefined) s) Undefined s, Ret tt)) end.
  { destruct Hi as [_ Hs]. unfold in_state in Hs. unfold settle_close. rewrite Hic. destruct Hst as [E|E]; rewrite E in Hs; destruct Hs as [Hs _]; on_state E.
    - pose proof (iw_noabort _ _ Hs) as H1. pose proof (iw_stored _ _ Hs) as H2.
      unfold unclosed. destruct s; simpl in *. by subst.
    - mstep. simpl. destruct (pendingAbortRequest s) as [a|] eqn:Ep; simpl; [by destruct s|]. destruct s; simpl in *. by subst. }
  rewrite (bind_eq _ _ _ _ _ E). mstep.
  match goal with |- returns g (bind ?m ?k ?x) => assert (E2 : exists s2, m x = (s2, Ret tt) /\ inv g s2 /\
    pendingAbortRequest s2 = None /\ storedError s2 = Undefined) end.
  { change (writer _) with (writer s). eexists. split; [|split; [by apply Hend|]].
    - destruct (writer s); [done|]. done.
    - by destruct (writer s). }
  destruct E2 as (s2 & E2 & Hi2 & Hpa & Hse). rewrite (bind_eq _ _ _ _ _ E2). mstep. rewrite Hpa. massert by done. mstep.
  rewrite Hse. by split.
Qed.

Lemma close_rejected_inv g s e : g_close g = false -> inv (with_close true g) s ->
  returns g (writableStreamFinishInFlightCloseWithError user e s).
Proof.
  intros Hg Hi. assert (Hd : Rejected e <> Pending) by done.
  destruct (settle_close_spec _ g s Hd Hi) as (Hp & Hgr & Hown).
  pose proof (common_unclosed _ g s (storedError s) Hg Hd Hi) as Hc1.
  destruct (closing_facts g s Hi) as (id & fin & Hic & Hiw & Hwr & Hcr & Hsd & Hst & Hna & Hq & Ha & Hr & Hw & Hre & Hk & _).
  set (s1 := unclosed (settle_close (Rejected e) s) (storedError s) s) in *.
  assert (Hre1 : ready_is false s1).
  { intros w X. simpl in X. rewrite <-(Hre w X). apply Hown. unfold own. rewrite X. constructor. }
  assert (Hk1 : closed_is true s1).
  { intros w X. simpl in X. rewrite <-(Hk w X). apply Hown. unfold own. rewrite X. by apply list_elem_of_further, list_elem_of_singleton. }
  assert (Hf : failing s1).
  { exists fin, [], 0. rewrite !app_nil_r. repeat split; try done; [by eapply resolved_grows|lia|by intros i ?%elem_of_nil]. }
  unfold writableStreamFinishInFlightCloseWithError. mstep. rewrite Hic. mstep. massert by (simpl; by destruct Hst as [-> | ->]). mstep.
  match goal with |- returns g (bind ?m ?k ?x) => assert (E : m x = (s1, Ret tt)) end.
  { unfold s1, unclosed, settle_close. simpl. rewrite Hic. destruct (pendingAbortRequest s) as [a|] eqn:Ep; simpl; [by destruct s|].
    destruct s; simpl in *. by subst. }
  rewrite (bind_eq _ _ _ _ _ E). destruct Hi as [_ Hs]. unfold in_state in Hs.
  destruct Hst as [Est|Est]; rewrite Est in Hs; destruct Hs as [Hs _].
  - apply dealWithRejection_writable; [done|]. split; try done; [apply Hs|]. intros [X|X]; [simpl in X; congruence|]. by destruct X.
  - apply dealWithRejection_erroring; [done|]. split; try done.
Qed.
(** ** The abort has ended *)

Lemma abort_done g s d id : g_abort g = None -> d <> Pending -> inv (with_abort (Some id) g) s ->
  returns g (writableStreamRejectCloseAndClosedPromiseIfNeeded (set_promises (deferred_settle id d (promises s)) s)).
Proof.
  intros Hg Hd Hi. pose proof (aborting_errored _ _ Hi (aborting_some _ _ _)) as Est.
  pose proof Hi as [Hc Hs]. unfold in_state in Hs. rewrite Est in Hs. destruct Hs as [(Hid & Hwr & Hpa & Hq & Hsd & Hre) Hf _].
  assert (Hin : id ∈ owed (with_abort (Some id) g) s).
  { rewrite owed_idle by done. rewrite !elem_of_app. right. right. right. left. constructor. }
  set (s1 := set_promises (deferred_settle id d (promises s)) s).
  pose proof (ready_owed _ s d id _ Hd Hc Hin Hre) as Hre1. fold s1 in Hre1.
  pose proof (cm_prom _ _ Hc) as Hp. rewrite owed_idle, Hwr, Hpa in Hp by done. simpl in Hp.
  assert (Hp1 : prom ([] ++ option_list (closeRequest s1) ++ abort_jobs (jobs s)) (own s1) (promises s1)) by by apply (prom_settle_owed (option_list (closeRequest s)) id).
  destruct (rejectClose_eq [] (abort_jobs (jobs s)) s1 Est (proj2 Hid) (cm_valid _ _ Hc) Hp1) as (ds & E & Hp2 & Hg2 & Hk & Hr).
  rewrite E. split; [|done]. simpl fst.
  assert (Hgr : grows (promises s) ds) by (eapply grows_trans; [apply grows_settle|exact Hg2]).
  split.
  - destruct Hc. split; try done. unfold owed. simpl. by rewrite (proj1 Hid), (proj2 Hid), Hwr, Hpa, Hg.
  - unfold in_state. simpl. rewrite Est. split.
    + repeat split; try done; [apply Hid|apply Hid|by apply Hr].
    + apply (failing_frame s _ []); try done; [by left|]. simpl. by rewrite app_nil_r.
    + by intros _.
Qed.

(** ** The start has ended *)

(** The ghosts of a stream on which no call is on the stack. *)
Definition rest (b : bool) : ghost := Ghost false false None (b2n (negb b)) b.

Lemma started_common s : common (Ghost false false None 0 false) s -> common (rest true) (set_started true s).
Proof. intros Hc. pose proof (cm_started _ _ Hc) as X. pose proof (cm_notyet _ _ Hc X) as Y. destruct Hc. by split. Qed.

Lemma starting_state s : inv (Ghost false false None 0 false) s ->
  (state s = Writable \/ state s = Erroring) /\ idle s /\ started s = false.
Proof.
  intros [Hc Hs]. pose proof (cm_started _ _ Hc) as X. simpl in X. pose proof (cm_notyet _ _ Hc X) as Hid.
  split; [|done]. unfold in_state in Hs. destruct (state s); auto; exfalso.
  - destruct (ic_finished _ _ Hs) as (_ & _ & _ & _ & Y & _). congruence.
  - destruct (ix_finished _ _ Hs) as (_ & _ & _ & _ & Y & _). congruence.
Qed.

Lemma start_fulfilled_inv s : inv (Ghost false false None 0 false) s -> returns (rest true) (start_fulfilled user s).
Proof.
  intros Hi. destruct (starting_state s Hi) as (Hst & Hid & Hsd). unfold start_fulfilled. mstep.
  massert by (by destruct Hst as [-> | ->]). mstep. apply advance_inv; [done|]. destruct Hi as [Hc Hs].
  split; [by apply started_common|]. split; [apply Hid|]. unfold in_state in Hs.
  destruct Hst as [E|E]; rewrite E in Hs; destruct Hs as [Hs _]; [left|right]; (split; [done|]); destruct Hs; by split.
Qed.

Lemma start_rejected_inv s e : inv (Ghost false false None 0 false) s -> returns (rest true) (start_rejected user e s).
Proof.
  intros Hi. destruct (starting_state s Hi) as (Hst & Hid & Hsd). unfold start_rejected. mstep.
  massert by (by destruct Hst as [-> | ->]). mstep. destruct Hi as [Hc Hs]. pose proof (started_common s Hc) as Hc1.
  unfold in_state in Hs. destruct Hst as [E|E]; rewrite E in Hs; destruct Hs as [Hs _].
  - apply dealWithRejection_writable; [done|]. destruct Hs. split; try done; [by eapply opened_failing|by intros [X|X]|].
    intros a X. simpl in X. congruence.
  - apply dealWithRejection_erroring; [done|]. destruct Hs. split; try done. by eapply opened_failing.
Qed.

(** ** Turns of the event loop *)

Lemma run_job_inv b s k j r : inv (rest b) s -> jobs s !! k = Some j ->
  exists b', inv (rest b') (run_job user j r (set_jobs (delete k (jobs s)) s)).
Proof.
  intros Hi Hj. pose proof (take_inv (rest b) s k j eq_refl eq_refl eq_refl Hi Hj) as Ht.
  assert (Hret : forall b' (m : M ws unit) s1, returns (rest b') (m s1) ->
    inv (rest b') (match m s1 with (s', Raise AssertionErr) => emit (InternalError AssertionErr) s' | (s', _) => s' end)).
  { intros b' m s1 [H1 H2]. destruct (m s1) as [s2 r2]. simpl in *. by subst r2. }
  set (s1 := set_jobs _ s) in *. unfold run_job. destruct j.
  - exists true. destruct b.
    + exfalso. pose proof (ws_count_delete is_start _ _ _ Hj) as X. rewrite (cm_starts _ _ (proj1 Hi)) in X. simpl in X. lia.
    + destruct r as [[]|e]; apply Hret; [by apply start_fulfilled_inv|by apply start_rejected_inv].
  - exists b. destruct r as [[]|e]; apply Hret; [by apply write_fulfilled_inv|by apply write_rejected_inv].
  - exists b. destruct r as [[]|e]; apply Hret; [by apply close_fulfilled_inv|by apply close_rejected_inv].
  - exists b. destruct r as [[]|e]; apply Hret; unfold abort_fulfilled, abort_rejected; mstep; by apply abort_done.
Qed.

Lemma ws_run_event_inv b s e : inv (rest b) s -> exists b', inv (rest b') (run_event user e s).
Proof.
  intros Hi. destruct e as [o|k r]; simpl.
  - exists b. by apply ws_act_inv.
  - destruct (jobs s !! k) as [j|] eqn:Hj; [|by exists b]. by apply (run_job_inv b).
Qed.

(** ** Construction *)

Lemma initialize_inv hwm calls sizes : Forall (fun x => x.2 <> Raise AssertionErr) sizes ->
  common (Ghost false false None 0 false) (initializeWritableStream hwm calls [] sizes) /\
  in_state (Ghost false false None 0 false)
    (set_backpressure (writableStreamDefaultControllerGetBackpressure (initializeWritableStream hwm calls [] sizes))
      (initializeWritableStream hwm calls [] sizes)).
Proof.
  intros Hs. split.
  - split; simpl; try done; [split; by intros ?%elem_of_nil|].
    split; simpl; try done; [constructor|by intros i ?%elem_of_nil|by intros i ?%elem_of_nil].
  - unfold in_state. simpl. split; [|done]. split; try done.
    + exists [], []. repeat split; try done.
    + by intros [].
Qed.

Lemma ws_create_inv hwm calls sizes : Forall (fun x => x.2 <> Raise AssertionErr) sizes ->
  inv (rest false) (setUpWritableStreamDefaultController user (initializeWritableStream hwm calls [] sizes)).
Proof.
  intros Hs. destruct (initialize_inv hwm calls sizes Hs) as [Hc Hi]. set (s0 := initializeWritableStream hwm calls [] sizes) in *.
  unfold setUpWritableStreamDefaultController.
  change ((writableStreamUpdateBackpressure (writableStreamDefaultControllerGetBackpressure s0) s0).1)
    with (set_backpressure (writableStreamDefaultControllerGetBackpressure s0) s0).
  set (s1 := set_backpressure _ s0) in *. cbv zeta.
  assert (Hi1 : inv (Ghost false false None 0 false) (emit CalledStart s1)) by (apply emit_inv; try done; split; [destruct Hc; by split|done]).
  destruct (ws_invoke_inv user user_inv _ _ _ Hi1) as [[Hc2 Hs2] _]. set (s2 := (invoke user CalledStart s1).1) in *. split.
  - pose proof (cm_writes _ _ Hc2) as X1. pose proof (cm_closes _ _ Hc2) as X2. pose proof (cm_starts _ _ Hc2) as X3.
    simpl in X1, X2, X3. split; simpl; try apply Hc2; rewrite ?ws_count_app; try (unfold count at 2; simpl; lia).
    pose proof (cm_prom _ _ Hc2) as Hp. unfold owed in *. simpl in *. by rewrite abort_jobs_app, app_nil_r.
  - apply (in_state_jobs (Ghost false false None 0 false)); [|done]. unfold aborting. simpl. by rewrite abort_jobs_app, app_nil_r.
Qed.
End Operations.

Lemma ws_exec_nil n s : exec n [] s = s.
Proof. by destruct n. Qed.

Lemma ws_exec_inv n g acts s : inv g s -> inv g (exec n acts s).
Proof.
  revert g acts s. induction n as [|n IH]; intros g acts s Hi; [done|]. simpl.
  apply ws_run_acts_inv; [exact IH|apply ws_exec_nil|done].
Qed.

(** Whatever the sink, the strategy and the user of the stream do. *)
Lemma ws_run_inv hwm calls sizes evs : Forall (fun x => x.2 <> Raise AssertionErr) sizes ->
  exists b, inv (rest b) (run_stream hwm calls [] sizes evs).
Proof.
  intros Hs. unfold run_stream, run, createWritableStream. cbv zeta.
  set (n := S _).
  pose proof (ws_create_inv (exec n) (ws_exec_inv n) hwm calls sizes Hs) as Hi. revert Hi.
  generalize (setUpWritableStreamDefaultController (exec n) (initializeWritableStream hwm calls [] sizes)). clear n.
  intros s Hi. assert (Hb : exists b, inv (rest b) s) by by exists false. clear Hi Hs. revert s Hb.
  induction evs as [|e evs IH]; intros s [b Hi]; [by exists b|]. simpl. apply IH. unfold step.
  by apply (ws_run_event_inv (exec (S (depth s))) (ws_exec_inv (S (depth s))) (ws_exec_nil (S (depth s))) b).
Qed.
