(* ===== verification/WritableStreamTheorems.v ===== *)
(** * Writable streams: theorems

    What the invariant says about a run from the construction of the stream,
    for all scripts of the sink and of [size] and all sequences of events, and
    that the bound on the nesting of callbacks is never reached. *)

From Stdlib Require Import ZArith Lia.
From stdpp Require Import base list numbers option strings.
From S2P Require Import Prelude JsNumber StreamBase WritableStream WritableStreamProps WritableStreamInv WritableStreamSteps.
From S2P Require Import WritableStreamRuns.

#[local] Open Scope nat_scope.

(** ** The nesting bound *)

Section Fuel.
Variable k : nat.
Variables u1 u2 : list op -> ws -> ws.
Hypothesis agree : forall acts s, depth s < k -> u1 acts s = u2 acts s /\ depth (u1 acts s) <= depth s.

#[local] Abbreviation same := (same_upto depth k).

Lemma ws_same_invoke o : same (invoke u1 o) (invoke u2 o).
Proof.
  constructor. intros s Hs. unfold invoke. destruct (calls s) as [|acts rest] eqn:E; [done|].
  assert (Hd : depth (set_calls rest (emit o s)) < depth s) by (unfold depth; simpl; rewrite E; simpl; lia).
  destruct (agree acts (set_calls rest (emit o s))) as [E1 Hd']; [lia|]. rewrite <-E1. split; [done|]. simpl. lia.
Qed.

Lemma ws_same_invoke_size : same (invoke_size u1) (invoke_size u2).
Proof.
  constructor. intros s Hs. unfold invoke_size. destruct (sizes s) as [|[acts r] rest] eqn:E; [done|].
  assert (Hd : depth (set_sizes rest s) < depth s) by (unfold depth; simpl; rewrite E; simpl; lia).
  destruct (agree acts (set_sizes rest s)) as [E1 Hd']; [lia|]. rewrite <-E1. split; [done|]. simpl. lia.
Qed.

Lemma same_signalAbort : same (signalAbort u1) (signalAbort u2).
Proof.
  constructor. intros s Hs. unfold signalAbort. mstep. destruct (aborted s) eqn:E; [done|]. unfold modify, bind. simpl.
  assert (Hd : depth (set_listeners [] (set_aborted true s)) < depth s) by (unfold depth; simpl; rewrite E; lia).
  destruct (agree (listeners s) (set_listeners [] (set_aborted true s))) as [E1 Hd']; [lia|]. rewrite <-E1. split; [done|]. lia.
Qed.

Lemma depth_reject_all ids e s : depth (reject_all ids e s) = depth s.
Proof. by rewrite reject_all_eq. Qed.

Lemma same_new_deferred : same new_deferred new_deferred.
Proof. by constructor. Qed.

Lemma same_items : (forall v n, same (enqueue_value v n) (enqueue_value v n)) /\
  same dequeue_value dequeue_value /\ same peek_value peek_value.
Proof.
  split; [|split]; [intros v n|..]; constructor; intros s _.
  - unfold enqueue_value. by destruct (enqueueValueWithSize v n (queue s)).
  - unfold dequeue_value. by destruct (dequeueValue (queue s)).
  - done.
Qed.

Ltac same_tac := same_upto_tac ltac:(fun _ => first
  [ apply ws_same_invoke | apply ws_same_invoke_size | apply same_signalAbort
  | apply same_new_deferred | apply same_items
  | (apply same_modify; intros; first [reflexivity | apply depth_reject_all]) ]).

Lemma same_ensure w e : same (writableStreamDefaultWriterEnsureClosedPromiseRejected w e)
    (writableStreamDefaultWriterEnsureClosedPromiseRejected w e) /\
  same (writableStreamDefaultWriterEnsureReadyPromiseRejected w e)
    (writableStreamDefaultWriterEnsureReadyPromiseRejected w e).
Proof.
  unfold writableStreamDefaultWriterEnsureClosedPromiseRejected, writableStreamDefaultWriterEnsureReadyPromiseRejected.
  split; same_tac.
Qed.

Lemma same_update b : same (writableStreamUpdateBackpressure b) (writableStreamUpdateBackpressure b).
Proof. unfold writableStreamUpdateBackpressure. same_tac; apply same_new_deferred. Qed.

Lemma same_rejectClose : same writableStreamRejectCloseAndClosedPromiseIfNeeded writableStreamRejectCloseAndClosedPromiseIfNeeded.
Proof. unfold writableStreamRejectCloseAndClosedPromiseIfNeeded. same_tac. Qed.

Lemma same_finishErroring : same (writableStreamFinishErroring u1) (writableStreamFinishErroring u2).
Proof. unfold writableStreamFinishErroring, abortSteps. same_tac; apply same_rejectClose. Qed.

Lemma same_startErroring e : same (writableStreamStartErroring u1 e) (writableStreamStartErroring u2 e).
Proof. unfold writableStreamStartErroring. same_tac; first [apply same_ensure | apply same_finishErroring]. Qed.

Lemma same_dealWith e : same (writableStreamDealWithRejection u1 e) (writableStreamDealWithRejection u2 e).
Proof. unfold writableStreamDealWithRejection. same_tac; first [apply same_startErroring | apply same_finishErroring]. Qed.

Lemma same_errorIfNeeded e : same (writableStreamDefaultControllerErrorIfNeeded u1 e) (writableStreamDefaultControllerErrorIfNeeded u2 e).
Proof.
  unfold writableStreamDefaultControllerErrorIfNeeded, writableStreamDefaultControllerError. same_tac; apply same_startErroring.
Qed.

Lemma same_advance : same (writableStreamDefaultControllerAdvanceQueueIfNeeded u1) (writableStreamDefaultControllerAdvanceQueueIfNeeded u2).
Proof.
  unfold writableStreamDefaultControllerAdvanceQueueIfNeeded, writableStreamDefaultControllerProcessClose,
    writableStreamDefaultControllerProcessWrite, writableStreamMarkCloseRequestInFlight, writableStreamMarkFirstWriteRequestInFlight.
  same_tac; first [apply same_finishErroring | apply same_items].
Qed.

Lemma same_controllerWrite id c n : same (writableStreamDefaultControllerWrite u1 id c n) (writableStreamDefaultControllerWrite u2 id c n).
Proof.
  unfold writableStreamDefaultControllerWrite, refresh_backpressure.
  same_tac; first [apply same_items | apply same_errorIfNeeded | apply same_update | apply same_advance].
Qed.

Lemma same_ws_close : same (writableStreamClose u1) (writableStreamClose u2).
Proof.
  unfold writableStreamClose, writableStreamDefaultControllerClose.
  same_tac; first [apply same_new_deferred | apply same_items | apply same_advance].
Qed.

Lemma same_abort e : same (writableStreamAbort u1 e) (writableStreamAbort u2 e).
Proof. unfold writableStreamAbort. same_tac; first [apply same_new_deferred | apply same_startErroring]. Qed.

Lemma ws_same_run_op o : same (run_op u1 o) (run_op u2 o).
Proof.
  destruct o; simpl; unfold setUpWritableStreamDefaultWriter, stream_abort, stream_close, writer_write, writer_close, writer_abort,
    writer_releaseLock, controller_error, writableStreamDefaultWriterWrite, writableStreamDefaultWriterRelease,
    writableStreamDefaultControllerGetChunkSize, writableStreamAddWriteRequest, writableStreamDefaultControllerError;
  same_tac; first [apply same_new_deferred | apply same_abort | apply same_ws_close | apply same_controllerWrite
    | apply same_errorIfNeeded | apply same_startErroring | apply same_ensure].
Qed.

Lemma ws_same_act o s : depth s <= k -> act u1 o s = act u2 o s /\ depth (act u1 o s) <= depth s.
Proof.
  intros Hs. destruct (same_at (ws_same_run_op o) s Hs) as [E Hd]. unfold act. rewrite <-E.
  by destruct (run_op u1 o s) as [s' [a|e]].
Qed.

Lemma ws_same_run_acts acts s : depth s <= k ->
  run_acts u1 acts s = run_acts u2 acts s /\ depth (run_acts u1 acts s) <= depth s.
Proof.
  unfold run_acts. revert s. induction acts as [|o acts IH]; intros s Hs; simpl; [done|].
  destruct (ws_same_act o s Hs) as [E Hd]. rewrite <-E. destruct (IH (act u1 o s)) as [E' Hd']; [lia|].
  split; [done|]. lia.
Qed.

Lemma ws_same_run_job j r s : depth s <= k -> run_job u1 j r s = run_job u2 j r s.
Proof.
  intros Hs. unfold run_job, start_fulfilled, start_rejected, write_fulfilled, write_rejected, abort_fulfilled, abort_rejected,
    writableStreamFinishInFlightWrite, writableStreamFinishInFlightWriteWithError, writableStreamFinishInFlightClose,
    writableStreamFinishInFlightCloseWithError.
  match goal with |- match ?m1 s with _ => _ end = match ?m2 s with _ => _ end =>
    assert (H : same m1 m2) end.
  { destruct j, r; same_tac;
      first [apply same_advance | apply same_dealWith | apply same_items | apply same_update | apply same_rejectClose]. }
  by rewrite (proj1 (same_at H s Hs)).
Qed.

Lemma ws_same_run_event e s : depth s <= k -> run_event u1 e s = run_event u2 e s.
Proof.
  intros Hs. destruct e as [o|i r]; simpl; [by apply ws_same_act|].
  destruct (jobs s !! i); [|done]. by apply ws_same_run_job.
Qed.
End Fuel.

Lemma ws_exec_agree n m acts s : depth s < n -> depth s < m ->
  exec n acts s = exec m acts s /\ depth (exec n acts s) <= depth s.
Proof.
  revert m acts s. induction n as [|n IH]; intros m acts s Hn Hm; [lia|].
  destruct m as [|m]; [lia|]. simpl. apply (ws_same_run_acts (min n m)); [|lia].
  intros acts' s' Hs'. apply IH; lia.
Qed.

(** ** Shared facts *)

Section Run.
Context (hwm : num) (calls : list (list op)) (sizes : list (list op * result num)) (evs : list event).
Hypothesis sizes_ok : Forall (fun x => x.2 <> Raise AssertionErr) sizes.

Let s : ws := run_stream hwm calls [] sizes evs.

(** The accepted writes: those that are done, then those that are not. *)
Lemma run_account : exists fin cur k,
  accepted (log s) = fin ++ cur /\ written (log s) = fin.*2 ++ take k cur.*2 /\ k <= 1 /\
  Forall (resolved (promises s)) fin.*1 /\
  Forall (fun i => promises s !! i = Some Pending \/ rejected (promises s) i) cur.*1 /\
  (state s = Closed -> cur = []) /\ (state s = Errored -> Forall (rejected (promises s)) cur.*1).
Proof.
  destruct (ws_run_inv hwm calls sizes evs sizes_ok) as [b [Hc Hs]]. fold s in Hc, Hs.
  assert (Hcur : forall i, i ∈ current s -> promises s !! i = Some Pending).
  { intros i Hi. apply (p_owed _ _ _ (cm_prom _ _ Hc)). unfold owed, current in *. rewrite app_assoc, elem_of_app. by left. }
  assert (Hfail : failing s -> exists fin cur k,
    accepted (log s) = fin ++ cur /\ written (log s) = fin.*2 ++ take k cur.*2 /\ k <= 1 /\
    Forall (resolved (promises s)) fin.*1 /\ forall i, i ∈ cur.*1 -> i ∈ current s \/ rejected (promises s) i).
  { intros (fin & cur & k & H1 & H2 & H3 & H4 & H5). exists fin, cur, k. by repeat split. }
  assert (Hdec : (exists b, opened b s) -> exists fin cur k,
    accepted (log s) = fin ++ cur /\ written (log s) = fin.*2 ++ take k cur.*2 /\ k <= 1 /\
    Forall (resolved (promises s)) fin.*1 /\ Forall (fun i => promises s !! i = Some Pending \/ rejected (promises s) i) cur.*1).
  { intros [b' Ho]. destruct (Hfail (opened_failing _ _ Ho)) as (fin & cur & k & H1 & H2 & H3 & H4 & H5).
    exists fin, cur, k. repeat split; try done. apply Forall_forall. intros i Hi. destruct (H5 i Hi); auto. }
  unfold in_state in Hs. destruct (state s) eqn:Est.
  - destruct Hdec as (fin & cur & k & H1 & H2 & H3 & H4 & H5); [eexists; apply Hs|]. by exists fin, cur, k.
  - destruct Hdec as (fin & cur & k & H1 & H2 & H3 & H4 & H5); [eexists; apply Hs|]. by exists fin, cur, k.
  - exists (accepted (log s)), [], 0. rewrite !app_nil_r. destruct Hs. repeat split; try done; first [lia|constructor].
  - destruct (Hfail (ix_failing _ _ Hs)) as (fin & cur & k & H1 & H2 & H3 & H4 & H5).
    assert (Hr : Forall (rejected (promises s)) cur.*1).
    { apply Forall_forall. intros i Hi. destruct (H5 i Hi) as [X|X]; [|done]. unfold current in X.
      destruct (ix_finished _ _ Hs) as ([Y _] & Z & _). rewrite Y, Z in X. by apply elem_of_nil in X. }
    exists fin, cur, k. repeat split; try done. eapply Forall_impl; [exact Hr|]. by right.
Qed.

(** When the sink has answered every call, the stream owes nothing. *)
Lemma run_settled : jobs s = [] -> exists b, inv (rest b) s /\ owed (rest b) s = [] /\
  ((state s = Writable /\ c_queue (queue s) = [] /\ closeRequest s = None) \/
   (state s = Closed \/ state s = Errored) /\ ready_is false s /\ closed_is false s).
Proof.
  intros Hj. destruct (ws_run_inv hwm calls sizes evs sizes_ok) as [b [Hc Hs]]. fold s in Hc, Hs. exists b. split; [by split|].
  pose proof (cm_writes _ _ Hc) as X1. pose proof (cm_closes _ _ Hc) as X2. pose proof (cm_starts _ _ Hc) as X3.
  pose proof (cm_started _ _ Hc) as X4. rewrite Hj in X1, X2, X3. simpl in X1, X2, X3, X4.
  destruct b; [|unfold count in X3; simpl in X3; lia].
  assert (Hid : idle s) by (split; [by destruct (inFlightWriteRequest s)|by destruct (inFlightCloseRequest s)]).
  rewrite owed_idle, Hj by done. assert (Hna : ~ aborting (rest true) s) by (unfold aborting; rewrite Hj; by intros []).
  unfold in_state in Hs. destruct (state s) eqn:Est.
  - destruct Hs as [Hw Hq]. specialize (Hq X4 Hid). pose proof (iw_noabort _ _ Hw) as Hpa.
    destruct (iw_opened _ _ Hw) as (fin & cur & _ & _ & Hit & _ & _ & _ & Heq & _). specialize (Heq eq_refl).
    rewrite Hq in Hit. destruct cur; [|done]. destruct (closeRequest s) eqn:Ecr; [done|].
    unfold current in Heq. rewrite (proj1 Hid) in Heq. simpl in Heq. rewrite <-Heq, Hpa. split; [done|]. by left.
  - destruct Hs as [_ Hs]. by destruct (Hs X4).
  - destruct (ic_finished _ _ Hs) as (_ & Hwr & Hpa & _ & _ & Hre). rewrite Hwr, Hpa, (ic_noclose _ _ Hs). split; [done|].
    right. split; [by left|]. split; [done|]. apply Hs.
  - destruct (ix_finished _ _ Hs) as (_ & Hwr & Hpa & _ & _ & Hre). destruct (ix_closed _ _ Hs Hna) as [Hk Hcr].
    rewrite Hwr, Hpa, Hcr. split; [done|]. right. split; [by right|]. by split.
Qed.
End Run.

(** ** Theorems *)

(** The bound on the nesting of callbacks is never reached: running an
    event with any larger bound gives the same state, so [step] is what the
    unbounded code does. *)
Lemma ws_nesting_bound_unreached (n : nat) (e : event) (s : ws) :
  depth s < n -> step s e = run_event (exec n) e s.
Proof.
  intros Hn. unfold step. apply (ws_same_run_event (depth s)); [|done].
  intros acts s' Hs'. apply ws_exec_agree; lia.
Qed.

Lemma ws_nesting_bound_unreached_witness :
  let s := createWritableStream (num_of_Z 0) [[]; [GetWriter; Write 0 (Data 7)]] [WriterClose 0] [] in
  depth s < 5 /\ step s (Settle 0 (Ret tt)) = run_event (exec 5) (Settle 0 (Ret tt)) s.
Proof. split; [vm_compute; lia|]. apply ws_nesting_bound_unreached. vm_compute. lia. Defined.

(** C35. No assertion of the writable stream code ever fails, whatever the
    sink and [size] do and call, and in whatever order operations are called
    and promises settle, as long as no listener of the controller's abort signal
    calls the stream and [size] throws no assertion error of its own. *)
Theorem ws_assertions_hold (hwm : num) (calls : list (list op)) (sizes : list (list op * result num)) (evs : list event) :
  Forall (fun x => x.2 <> Raise AssertionErr) sizes ->
  (Threw AssertionErr ∉ log (run_stream hwm calls [] sizes evs)) /\
  (InternalError AssertionErr ∉ log (run_stream hwm calls [] sizes evs)).
Proof.
  intros H. destruct (ws_run_inv hwm calls sizes evs H) as [b [Hc _]]. apply (cm_noassert _ _ Hc).
Qed.

(** The sink aborts, closes and writes while it is called. *)
Lemma ws_assertions_hold_witness :
  let calls := [[GetWriter]; [Write 0 (Data 5); WriterAbort 0 (Data 1)]; [ControllerError (Data 2)]] in
  let sizes := [([WriterClose 0], Ret (num_of_Z 3)); ([ReleaseLock 0], Raise (Data 1))] in
  let evs := [Act (Write 0 (Data 4)); Settle 0 (Ret tt); Settle 0 (Raise (Data 9)); Settle 0 (Ret tt)] in
  (Threw AssertionErr ∉ log (run_stream (num_of_Z 1) calls [] sizes evs)) /\
  (InternalError AssertionErr ∉ log (run_stream (num_of_Z 1) calls [] sizes evs)).
Proof. intros calls sizes evs. apply (ws_assertions_hold (num_of_Z 1) calls sizes evs). by repeat constructor. Defined.

(** C2. The sink sees the accepted chunks in order and each at most once, and
    the promises of [write()] tell the truth: those of the first chunks are
    resolved, the sink has seen exactly these chunks and at most one more, and
    no promise of a later chunk is resolved.  When the stream is closed every
    chunk was written; when it is errored the promises of all the others are
    rejected.  The controller's abort signal has no listener that calls the stream,
    and [size] throws no assertion error of its own. *)
Theorem ws_writes_in_order (hwm : num) (calls : list (list op)) (sizes : list (list op * result num)) (evs : list event) :
  Forall (fun x => x.2 <> Raise AssertionErr) sizes ->
  let s := run_stream hwm calls [] sizes evs in
  exists fin cur k,
    accepted (log s) = fin ++ cur /\ written (log s) = fin.*2 ++ take k cur.*2 /\ k <= 1 /\
    Forall (resolved (promises s)) fin.*1 /\
    Forall (fun i => promises s !! i = Some Pending \/ rejected (promises s) i) cur.*1 /\
    (state s = Closed -> cur = []) /\ (state s = Errored -> Forall (rejected (promises s)) cur.*1).
Proof. intros H. by apply run_account. Qed.

Lemma ws_writes_in_order_witness :
  let s := run_stream (num_of_Z 2) [[]; [Write 0 (Data 3)]] [] []
    [Act GetWriter; Act (Write 0 (Data 1)); Act (Write 0 (Data 2)); Settle 0 (Ret tt); Settle 0 (Ret tt)] in
  written (log s) = [Data 1; Data 2] /\ (accepted (log s)).*2 = [Data 1; Data 2; Data 3] /\
  exists fin cur k, accepted (log s) = fin ++ cur /\ written (log s) = fin.*2 ++ take k cur.*2 /\ k <= 1.
Proof.
  split; [by vm_compute|]. split; [by vm_compute|].
  destruct (ws_writes_in_order (num_of_Z 2) [[]; [Write 0 (Data 3)]] []
    [Act GetWriter; Act (Write 0 (Data 1)); Act (Write 0 (Data 2)); Settle 0 (Ret tt); Settle 0 (Ret tt)])
    as (fin & cur & k & H1 & H2 & H3 & _); [constructor|].
  exists fin, cur, k. exact (conj H1 (conj H2 H3)).
Defined.

(** The ready promise of the current writer is pending exactly when the
    stream is writable, no close was requested and the desired size is not
    positive; this is also what the stream's backpressure flag says. *)
Lemma ws_backpressure (hwm : num) (calls : list (list op)) (sizes : list (list op * result num)) (evs : list event) :
  Forall (fun x => x.2 <> Raise AssertionErr) sizes ->
  let s := run_stream hwm calls [] sizes evs in
  let full := num_le (writableStreamDefaultControllerGetDesiredSize s) zero in
  (state s = Writable -> writableStreamCloseQueuedOrInFlight s = false -> backpressure s = full) /\
  forall w, writer s = Some w ->
    (promises s !! w_ready (get_writer w s) = Some Pending <->
     state s = Writable /\ writableStreamCloseQueuedOrInFlight s = false /\ full = true).
Proof.
  intros H s full. destruct (ws_run_inv hwm calls sizes evs H) as [b [Hc Hs]]. fold s in Hc, Hs.
  assert (Hoff : forall w, ready_is false s -> writer s = Some w -> promises s !! w_ready (get_writer w s) <> Some Pending).
  { intros w Hr Hw. apply deferred_pending_false. by apply Hr. }
  unfold in_state in Hs. destruct (state s) eqn:Est.
  - destruct Hs as [Hw _]. pose proof (iw_ready _ _ Hw) as Hr. pose proof (iw_backpressure _ _ Hw) as Hb.
    split; [done|]. intros w Hwr. rewrite <-deferred_pending_true, (Hr w Hwr), andb_true_iff, negb_true_iff.
    split; [|intros (_ & Hcl & Hf); by rewrite (Hb Hcl)]. intros [H1 Hcl]. by rewrite <-H1, (Hb Hcl).
  - split; [done|]. intros w Hwr. split; [|by intros [? _]]. intros X. by destruct (Hoff w (ie_ready _ _ (proj1 Hs)) Hwr).
  - split; [done|]. intros w Hwr. split; [|by intros [? _]]. intros X. destruct (ic_finished _ _ Hs) as (_ & _ & _ & _ & _ & Hr).
    by destruct (Hoff w Hr Hwr).
  - split; [done|]. intros w Hwr. split; [|by intros [? _]]. intros X. destruct (ix_finished _ _ Hs) as (_ & _ & _ & _ & _ & Hr).
    by destruct (Hoff w Hr Hwr).
Qed.

Lemma ws_backpressure_witness :
  let s := run_stream (num_of_Z 1) [] [] [] [Act GetWriter; Act (Write 0 (Data 1))] in
  writer s = Some 0 /\ promises s !! w_ready (get_writer 0 s) = Some Pending.
Proof.
  split; [by vm_compute|].
  apply (ws_backpressure (num_of_Z 1) [] [] [Act GetWriter; Act (Write 0 (Data 1))]); [constructor|by vm_compute|by vm_compute].
Defined.

(** A listener of the controller's abort signal that errors the controller: the
    stream's state was read before it ran, so the first [abort()] throws an assertion
    error after it has stored its request, and a second one returns the promise of
    that request, which is never settled. *)
Lemma listener_leaves_pending :
  let s := run_stream (num_of_Z 1) [] [ControllerError (Data 1)] []
    [Act (StreamAbort (Data 2)); Act (StreamAbort (Data 3)); Settle 0 (Ret tt); Settle 0 (Ret tt)] in
  state s = Errored /\ jobs s = [] /\ promises s = [Pending] /\ log s = [CalledStart; Threw AssertionErr].
Proof. by vm_compute. Qed.

(** C31. Nothing is forgotten: once the sink has answered every call that was
    made to it, every promise returned by [write()], [close()] and [abort()] is
    settled.  What may still be pending are the two promises of the current
    writer of a writable stream with an empty queue and no close request.  The
    controller's abort signal has no listener that calls the stream (see
    [listener_leaves_pending]), and [size] throws no assertion error of its own. *)
Theorem ws_all_settled (hwm : num) (calls : list (list op)) (sizes : list (list op * result num)) (evs : list event) (i : nat) :
  let s := run_stream hwm calls [] sizes evs in
  Forall (fun x => x.2 <> Raise AssertionErr) sizes ->
  jobs s = [] -> promises s !! i = Some Pending ->
  state s = Writable /\ c_queue (queue s) = [] /\ closeRequest s = None /\
  exists w, writer s = Some w /\ (i = w_ready (get_writer w s) \/ i = w_closed (get_writer w s)).
Proof.
  intros s H Hj Hp. destruct (run_settled hwm calls sizes evs H Hj) as (b & [Hc _] & Ho & Hst). fold s in Hc, Ho, Hst.
  pose proof (p_all _ _ _ (cm_prom _ _ Hc) i Hp) as Hi. rewrite Ho in Hi. simpl in Hi. unfold own in Hi.
  destruct (writer s) as [w|] eqn:Ew; [|by apply elem_of_nil in Hi]. rewrite !elem_of_cons, elem_of_nil in Hi.
  destruct Hst as [(Est & Hq & Hcr)|(_ & Hr & Hk)].
  - split; [done|]. split; [done|]. split; [done|]. exists w. split; [done|]. tauto.
  - exfalso. apply deferred_pending_true in Hp. specialize (Hr w Ew). specialize (Hk w Ew).
    destruct Hi as [->|[->|[]]]; congruence.
Qed.

Lemma ws_all_settled_witness :
  let s := run_stream (num_of_Z 1) [] [] [] [Act GetWriter; Act (Write 0 (Data 1)); Settle 0 (Ret tt); Settle 0 (Ret tt)] in
  jobs s = [] /\ promises s !! 1 = Some Pending /\ state s = Writable.
Proof.
  split; [by vm_compute|]. split; [by vm_compute|].
  apply (ws_all_settled (num_of_Z 1) [] [] [Act GetWriter; Act (Write 0 (Data 1)); Settle 0 (Ret tt); Settle 0 (Ret tt)] 1);
    [constructor|by vm_compute|by vm_compute].
Defined.

(** The sink is called one call at a time: at most one of [write] and
    [close] is unanswered, neither is called before [start] was answered, and
    neither while [abort] is unanswered. *)
Lemma ws_sink_protocol (hwm : num) (calls : list (list op)) (sizes : list (list op * result num)) (evs : list event) :
  Forall (fun x => x.2 <> Raise AssertionErr) sizes ->
  let s := run_stream hwm calls [] sizes evs in
  count is_write (jobs s) + count is_close (jobs s) <= 1 /\
  (1 <= count is_start (jobs s) -> count is_write (jobs s) + count is_close (jobs s) = 0) /\
  (abort_jobs (jobs s) <> [] -> count is_write (jobs s) + count is_close (jobs s) + count is_start (jobs s) = 0).
Proof.
  intros H s. destruct (ws_run_inv hwm calls sizes evs H) as [b Hi]. fold s in Hi. pose proof Hi as [Hc Hs].
  pose proof (cm_writes _ _ Hc) as X1. pose proof (cm_closes _ _ Hc) as X2. pose proof (cm_starts _ _ Hc) as X3.
  pose proof (cm_started _ _ Hc) as X4. simpl in X1, X2, X3, X4. split; [|split].
  - pose proof (cm_excl _ _ Hc) as Y. destruct (inFlightWriteRequest s); [rewrite Y in X2 by done|]; simpl in *;
      destruct (inFlightCloseRequest s); simpl in *; lia.
  - intros Hst. destruct b; [simpl in X3; lia|]. destruct (cm_notyet _ _ Hc X4) as [Y1 Y2]. rewrite Y1, Y2 in *. simpl in *. lia.
  - intros Ha. assert (Est : state s = Errored) by (apply (aborting_errored _ _ Hi); exact Ha).
    unfold in_state in Hs. rewrite Est in Hs. destruct (ix_finished _ _ Hs) as ([Y1 Y2] & _ & _ & _ & Y3 & _).
    rewrite Y1, Y2 in *. destruct b; [|congruence]. simpl in *. lia.
Qed.

Lemma ws_sink_protocol_witness :
  let s := run_stream (num_of_Z 1) [] [] [] [Act GetWriter; Act (Write 0 (Data 1)); Act (WriterClose 0); Settle 0 (Ret tt)] in
  count is_write (jobs s) = 1 /\ count is_write (jobs s) + count is_close (jobs s) <= 1.
Proof.
  split; [by vm_compute|].
  apply (ws_sink_protocol (num_of_Z 1) [] [] [Act GetWriter; Act (Write 0 (Data 1)); Act (WriterClose 0); Settle 0 (Ret tt)]).
  constructor.
Defined.
