(* ===== verification/Infra.v ===== *)
(** * Infra: character classes and collecting code points

    Models [src/ext/web/00_infra.js]: the character classes with the regular
    expressions built from them, [collectSequenceOfCodepoints],
    [collectHttpQuotedString], [httpTrim] and the base64url helpers.

    A class is the list of the source, each entry a range of code units; the
    regular expressions the code builds from a class are the functions
    [test_all] ([^[class]+$]), [strip_prefix] and [strip_suffix] (replacing
    [^[class]+] and [[class]+$] by nothing).  [HTTP_BETWEEN_WHITESPACE] is
    matched by trying what the engine tries, in its order ([match_between]).

    [String.prototype.toLowerCase] is a parameter, and so are the two base64
    ops. *)

From Stdlib Require Import ZArith Lia.
From stdpp Require Import base list numbers option strings.
From S2P Require Import Prelude.

#[local] Open Scope Z_scope.

(** ** Character classes *)

(** A class as the source lists it: single characters and ranges. *)
Abbreviation char_class := (list (Z * Z)).

Definition in_class (cls : char_class) (c : Z) : bool :=
  existsb (fun r => (r.1 <=? c) && (c <=? r.2)) cls.

Definition ASCII_DIGIT : char_class := [(48, 57)].
Definition ASCII_UPPER_ALPHA : char_class := [(65, 90)].
Definition ASCII_LOWER_ALPHA : char_class := [(97, 122)].
Definition ASCII_ALPHA : char_class := ASCII_UPPER_ALPHA ++ ASCII_LOWER_ALPHA.
Definition ASCII_ALPHANUMERIC : char_class := ASCII_DIGIT ++ ASCII_ALPHA.
Definition HTTP_TAB_OR_SPACE : char_class := [(9, 9); (32, 32)].
Definition HTTP_WHITESPACE : char_class := (10, 10) :: (13, 13) :: HTTP_TAB_OR_SPACE.
Definition HTTP_TOKEN_CODE_POINT : char_class :=
  [(33, 33); (35, 35); (36, 36); (37, 37); (38, 38); (39, 39); (42, 42); (43, 43); (45, 45); (46, 46);
   (94, 94); (95, 95); (96, 96); (124, 124); (126, 126)] ++ ASCII_ALPHANUMERIC.
Definition HTTP_QUOTED_STRING_TOKEN_POINT : char_class := [(9, 9); (32, 126); (128, 255)].

(** [^[class]+$] *)
Definition test_all (cls : char_class) (s : str) : bool := negb (bool_decide (s = [])) && forallb (in_class cls) s.

(** Replacing [^[class]+] and [[class]+$] by the empty string. *)
Fixpoint strip_prefix (cls : char_class) (s : str) : str :=
  match s with
  | c :: s' => if in_class cls c then strip_prefix cls s' else s
  | [] => []
  end.
Fixpoint strip_suffix (cls : char_class) (s : str) : str :=
  match s with
  | c :: s' => if forallb (in_class cls) s then [] else c :: strip_suffix cls s'
  | [] => []
  end.

Definition token (s : str) : bool := test_all HTTP_TOKEN_CODE_POINT s.

(** ** Collecting *)

(** The loop of [collectSequenceOfCodepoints]. *)
Definition collect_end (input : str) (position : Z) (condition : Z -> bool) : Z :=
  for_up position (slen input)
    (fun i position =>
       match charCodeAt input i with
       | Some c => if condition c then Continue (i + 1) else Break position
       | None => Break position
       end) position.

Definition collectSequenceOfCodepoints (input : str) (position : Z) (condition : Z -> bool) : str * Z :=
  let position' := collect_end input position condition in
  (slice input position position', position').

#[global] Arguments collectSequenceOfCodepoints : simpl never.

(** [s.substring(a, b)] for [0 <= a <= b]. *)
Definition substring (s : str) (a b : Z) : str := slice s a b.

Definition QUOTE : Z := 34.
Definition BACKSLASH : Z := 92.

(** The loop of [collectHttpQuotedString]; [fuel] bounds its rounds, and each
    round but the last moves on by at least one code unit. *)
Fixpoint quoted_loop (fuel : nat) (input : str) (position : Z) (value : str) : jsres (str * Z) :=
  match fuel with
  | O => Throw (JsError "unreachable")
  | S fuel =>
      let (result, position) := collectSequenceOfCodepoints input position
        (fun c => negb (c =? QUOTE) && negb (c =? BACKSLASH)) in
      let value := value ++ result in
      match charCodeAt input position with
      | None => Ok (value, position)
      | Some quoteOrBackslash =>
          let position := position + 1 in
          if quoteOrBackslash =? BACKSLASH then
            match charCodeAt input position with
            | None => Ok (value ++ [BACKSLASH], position)
            | Some c => quoted_loop fuel input (position + 1) (value ++ [c])
            end
          else if negb (quoteOrBackslash =? QUOTE) then Throw (JsTypeError "must be")
          else Ok (value, position)
      end
  end.

Definition collectHttpQuotedString (input : str) (position : Z) (extractValue : bool) : jsres (str * Z) :=
  if negb (code_is (charCodeAt input position) QUOTE) then Throw (JsTypeError "must be")
  else
    let? r := quoted_loop (S (length input)) input (position + 1) [] in
    if extractValue then Ok r
    else Ok (substring input position (r.2 + 1), r.2).

(** ** Trimming *)

Definition isHttpWhitespace (c : option Z) : bool :=
  code_is c 9 || code_is c 10 || code_is c 13 || code_is c 32.

(** What [.] does not match. *)
Definition line_terminator (c : Z) : bool := (c =? 10) || (c =? 13) || (c =? 8232) || (c =? 8233).

(** The lazy group [(.*?)] followed by [[ws]*$]: the shortest group is tried
    first. *)
Fixpoint lazy_group (s : str) : option str :=
  if forallb (in_class HTTP_WHITESPACE) s then Some []
  else match s with
       | c :: s' => if line_terminator c then None else (cons c) <$> lazy_group s'
       | [] => None
       end.

(** [^[ws]*] is greedy: the longest prefix is tried first, then shorter ones. *)
Fixpoint match_between (s : str) : option str :=
  match s with
  | c :: s' =>
      if in_class HTTP_WHITESPACE c
      then match match_between s' with Some r => Some r | None => lazy_group s end
      else lazy_group s
  | [] => lazy_group []
  end.

Definition httpTrim (s : str) : str :=
  if negb (isHttpWhitespace (charCodeAt s 0)) && negb (isHttpWhitespace (charCodeAt s (slen s - 1))) then s
  else default [] (match_between s).

(** ** Case *)

Definition ascii_lower (c : Z) : Z := if in_class ASCII_UPPER_ALPHA c then c + 32 else c.
Definition ascii_upper (c : Z) : Z := if in_class ASCII_LOWER_ALPHA c then c - 32 else c.

(** Replacing every match of [[a-z]] by its upper case. *)
Definition byteUpperCase (s : str) : str := map ascii_upper s.

Definition is_ascii (c : Z) : Prop := 0 <= c < 128.

(** What the code relies on of [toLowerCase]: on ASCII strings it maps the
    letters, and no upper case ASCII letter is ever left. *)
Class LowerCase (toLowerCase : str -> str) : Prop := {
  lower_ascii : forall s, Forall is_ascii s -> toLowerCase s = map ascii_lower s;
  lower_no_upper : forall s, Forall (fun c => in_class ASCII_UPPER_ALPHA c = false) (toLowerCase s);
}.

(** The ASCII mapping itself is one. *)
#[export] Instance ascii_lower_case : LowerCase (map ascii_lower).
Proof.
  split; [done|]. intros s. apply Forall_forall. intros c Hc. apply list_elem_of_In, in_map_iff in Hc as (x & <- & _).
  unfold ascii_lower, in_class. simpl. rewrite !orb_false_r.
  destruct ((65 <=? x) && (x <=? 90)) eqn:E; [|done]. reflect_bools. by zbool.
Qed.

Section Case.
Context (toLowerCase : str -> str).
Definition byteLowerCase (s : str) : str := toLowerCase s.
End Case.

(** ** base64url *)

Definition addPaddingToBase64url (s : str) : jsres str :=
  if Z.rem (slen s) 4 =? 2 then Ok (s ++ lit "==")
  else if Z.rem (slen s) 4 =? 3 then Ok (s ++ lit "=")
  else if Z.rem (slen s) 4 =? 1 then Throw (JsTypeError "Illegal base64url string!")
  else Ok s.

(** [/^[-_A-Z0-9]*?={0,2}$/i] *)
Definition BASE64URL_PATTERN (s : str) : bool :=
  let word c := in_class ([(45, 45); (95, 95)] ++ ASCII_ALPHANUMERIC) c in
  existsb (fun k => let n := (length s - k)%nat in
    (k <=? length s)%nat && forallb word (take n s) && forallb (fun c => c =? 61) (drop n s)) [0; 1; 2]%nat.

(** [s.replaceAll(a, b)] for single characters. *)
Definition replace_char (a b : Z) (s : str) : str := map (fun c => if c =? a then b else c) s.

Definition convertBase64urlToBase64 (s : str) : jsres str :=
  if negb (BASE64URL_PATTERN s) then Throw (JsTypeError "Failed to decode base64url: invalid character")
  else let? p := addPaddingToBase64url s in Ok (replace_char 95 47 (replace_char 45 43 p)).

Section Base64.
Context (op_base64_encode : list Z -> str) (op_base64_decode : str -> jsres (list Z)).

Definition forgivingBase64UrlEncode (data : list Z) : str :=
  replace_char 47 95 (replace_char 43 45 (filter (fun c => c <> 61) (op_base64_encode data))).

Definition forgivingBase64UrlDecode (s : str) : jsres (list Z) :=
  let? b := convertBase64urlToBase64 s in op_base64_decode b.
End Base64.

(** ** Lemmas *)

Lemma in_class_app a b c : in_class (a ++ b) c = in_class a c || in_class b c.
Proof. apply existsb_app. Qed.

Lemma test_all_spec cls s : test_all cls s = true <-> s <> [] /\ Forall (fun c => in_class cls c = true) s.
Proof.
  unfold test_all. rewrite andb_true_iff, negb_true_iff, bool_decide_eq_false, forallb_forall, Forall_forall.
  setoid_rewrite list_elem_of_In. done.
Qed.

Lemma all_class cls s : forallb (in_class cls) s = true <-> Forall (fun c => in_class cls c = true) s.
Proof. rewrite forallb_forall, Forall_forall. by setoid_rewrite list_elem_of_In. Qed.

(** Where collecting stops. *)
Lemma collect_end_spec pre w rest f :
  Forall (fun c => f c = true) w -> match rest with c :: _ => f c = false | [] => True end ->
  collect_end (pre ++ w ++ rest) (slen pre) f = slen pre + slen w.
Proof.
  intros Hw Hr. unfold collect_end, for_up. rewrite !slen_app.
  replace (Z.to_nat _) with (length w + length rest)%nat by (unfold slen; lia).
  revert pre. induction Hw as [|c w Hc Hw IH]; intros pre.
  - simpl. rewrite slen_nil, Z.add_0_r. destruct rest as [|c rest]; [done|]. simpl.
    rewrite charCodeAt_middle by done. by rewrite Hr.
  - cbn [length Nat.add for_n]. rewrite <-app_comm_cons, charCodeAt_middle, Hc by done.
    specialize (IH (pre ++ [c])). rewrite <-app_assoc in IH. simpl in IH.
    rewrite slen_app, slen_cons, slen_nil in IH.
    rewrite slen_cons. replace (slen pre + (1 + slen w)) with (slen pre + (1 + 0) + slen w) by lia.
    rewrite <-IH. f_equal; lia.
Qed.

Lemma collectSequence_spec pre w rest f :
  Forall (fun c => f c = true) w -> match rest with c :: _ => f c = false | [] => True end ->
  collectSequenceOfCodepoints (pre ++ w ++ rest) (slen pre) f = (w, slen pre + slen w).
Proof.
  intros Hw Hr. unfold collectSequenceOfCodepoints. rewrite collect_end_spec by done. f_equal. by apply slice_middle.
Qed.

(** Every string splits at the first code that fails a test. *)
Lemma span_split (f : Z -> bool) (s : str) : exists w rest,
  s = w ++ rest /\ Forall (fun c => f c = true) w /\ match rest with c :: _ => f c = false | [] => True end.
Proof.
  induction s as [|c s IH]; [by exists [], []|]. destruct (f c) eqn:E.
  - destruct IH as (w & rest & -> & Hw & Hr). exists (c :: w), rest. by repeat split; [constructor|].
  - by exists [], (c :: s).
Qed.

(** Past the end nothing is collected. *)
Lemma collect_past input p f : slen input <= p -> collectSequenceOfCodepoints input p f = ([], p).
Proof.
  intros H. unfold collectSequenceOfCodepoints, collect_end, for_up.
  replace (Z.to_nat (slen input - p)) with 0%nat by lia. simpl. f_equal.
  unfold slice. rewrite Z.sub_diag. done.
Qed.

Lemma strip_prefix_id cls s : match s with c :: _ => in_class cls c = false | [] => True end -> strip_prefix cls s = s.
Proof. destruct s as [|c s]; [done|]. simpl. by intros ->. Qed.

Lemma strip_suffix_app cls s t : Forall (fun c => in_class cls c = true) t ->
  match rev s with c :: _ => in_class cls c = false | [] => True end -> strip_suffix cls (s ++ t) = s.
Proof.
  intros Ht. induction s as [|c s IH]; intros Hs.
  - simpl. destruct t as [|c t]; [done|]. cbn [strip_suffix]. by rewrite (proj2 (all_class cls _) Ht).
  - cbn [app strip_suffix]. destruct (forallb (in_class cls) (c :: s ++ t)) eqn:E.
    + exfalso. apply all_class in E. rewrite app_comm_cons in E. apply Forall_app in E as [E _].
      destruct (rev (c :: s)) as [|x l] eqn:Er; [by apply (f_equal length) in Er; rewrite length_rev in Er|].
      assert (x ∈ c :: s) as Hx by (rewrite list_elem_of_In, in_rev, Er; by left).
      rewrite Forall_forall in E. rewrite (E x Hx) in Hs. done.
    + f_equal. apply IH. simpl in Hs. destruct (rev s) as [|x l]; [done|]. done.
Qed.

Lemma strip_suffix_id cls s : match rev s with c :: _ => in_class cls c = false | [] => True end -> strip_suffix cls s = s.
Proof. intros H. rewrite <-(app_nil_r s) at 1. by apply strip_suffix_app. Qed.

(** What is left has no code of the class at its end. *)
Lemma strip_suffix_spec cls s : exists t, s = strip_suffix cls s ++ t /\ Forall (fun c => in_class cls c = true) t /\
  match rev (strip_suffix cls s) with c :: _ => in_class cls c = false | [] => True end.
Proof.
  induction s as [|c s IH] using rev_ind; [by exists []|].
  destruct (in_class cls c) eqn:E.
  - destruct IH as (t & Es & Ht & Hl). exists (t ++ [c]).
    assert (Hi : strip_suffix cls (s ++ [c]) = strip_suffix cls s).
    { rewrite Es at 1. rewrite <-app_assoc. apply strip_suffix_app; [by apply Forall_app; split; [|constructor]|done]. }
    rewrite Hi, app_assoc, <-Es. split; [done|]. split; [|done]. apply Forall_app. split; [done|]. by constructor.
  - exists []. rewrite app_nil_r. assert (Hi : strip_suffix cls (s ++ [c]) = s ++ [c]) by (apply strip_suffix_id; by rewrite rev_app_distr).
    rewrite Hi. split; [done|]. split; [constructor|]. by rewrite rev_app_distr.
Qed.

(** Tokens are ASCII. *)
Lemma token_ascii s : Forall (fun c => in_class HTTP_TOKEN_CODE_POINT c = true) s -> Forall is_ascii s.
Proof.
  intros H. eapply Forall_impl; [exact H|]. intros c Hc. unfold in_class in Hc. simpl in Hc.
  repeat (apply orb_true_iff in Hc as [Hc|Hc]); try done; reflect_bools; unfold is_ascii; lia.
Qed.

(** ** Collecting, in general *)

Lemma collect_general input p f : 0 <= p -> exists w,
  collectSequenceOfCodepoints input p f = (w, p + slen w) /\ Forall (fun c => f c = true) w /\
  match charCodeAt input (p + slen w) with Some c => f c = false | None => True end.
Proof.
  intros Hp. destruct (Z.le_gt_cases p (slen input)) as [H|H].
  - destruct (split_at input p) as (pre & s & -> & <-); [lia|].
    destruct (span_split f s) as (w & rest & -> & Hw & Hr). exists w. rewrite collectSequence_spec by done.
    split; [done|]. split; [done|]. rewrite app_assoc. destruct rest as [|c rest].
    + rewrite app_nil_r. destruct (charCodeAt (pre ++ w) (slen pre + slen w)) eqn:E; [|done].
      apply charCodeAt_Some in E. rewrite slen_app in E. lia.
    + rewrite charCodeAt_middle by by rewrite slen_app. done.
  - exists []. rewrite collect_past, slen_nil, Z.add_0_r by lia. split; [done|]. split; [constructor|].
    destruct (charCodeAt input p) eqn:E; [|done]. apply charCodeAt_Some in E. lia.
Qed.

(** A quoted string always has an end. *)
Lemma quoted_loop_total fuel input p value : 0 <= p -> slen input - p < Z.of_nat fuel -> (0 < fuel)%nat ->
  exists v q, quoted_loop fuel input p value = Ok (v, q) /\ p <= q.
Proof.
  revert p value. induction fuel as [|fuel IH]; intros p value Hp Hf Hpos; [lia|]. cbn [quoted_loop].
  destruct (collect_general input p (fun c => negb (c =? QUOTE) && negb (c =? BACKSLASH)) Hp) as (w & -> & _ & Hstop).
  pose proof (slen_nonneg w). destruct (charCodeAt input (p + slen w)) as [c|] eqn:Ec; [|by eexists _, _; split; [done|lia]].
  apply charCodeAt_Some in Ec. destruct (c =? BACKSLASH) eqn:Eb.
  - destruct (charCodeAt input (p + slen w + 1)) as [d|] eqn:Ed; [|eexists _, _; split; [done|lia]].
    destruct (IH (p + slen w + 1 + 1) ((value ++ w) ++ [d])) as (v & q & -> & Hq); [lia|lia|lia|].
    eexists _, _. split; [done|lia].
  - destruct (c =? QUOTE) eqn:Eq; [|done]. simpl. eexists _, _. split; [done|lia].
Qed.

Lemma collectQuoted_total input p : 0 <= p -> charCodeAt input p = Some QUOTE ->
  exists v q, collectHttpQuotedString input p true = Ok (v, q) /\ p < q.
Proof.
  intros Hp Hq. unfold collectHttpQuotedString. rewrite Hq. cbn [code_is negb]. rewrite Z.eqb_refl. simpl negb. cbv iota.
  destruct (quoted_loop_total (S (length input)) input (p + 1) []) as (v & q & -> & H); [lia|unfold slen; lia|lia|].
  exists v, q. split; [done|lia].
Qed.

(** ** Trimming *)

Lemma lazy_group_spec w t : Forall (fun c => line_terminator c = false) w ->
  match rev w with c :: _ => in_class HTTP_WHITESPACE c = false | [] => True end ->
  Forall (fun c => in_class HTTP_WHITESPACE c = true) t -> lazy_group (w ++ t) = Some w.
Proof.
  intros Hw Hl Ht. induction Hw as [|c w Hc Hw IH]; [destruct t; cbn [app lazy_group]; by rewrite (proj2 (all_class _ _) Ht)|].
  cbn [app lazy_group]. destruct (forallb (in_class HTTP_WHITESPACE) (c :: w ++ t)) eqn:E.
  - exfalso. apply all_class in E. rewrite app_comm_cons in E. apply Forall_app in E as [E _]. apply Forall_rev in E.
    destruct (rev (c :: w)) as [|x l] eqn:Er; [by apply (f_equal length) in Er; rewrite length_rev in Er|].
    apply Forall_cons in E as [E _]. congruence.
  - rewrite Hc, IH; [done|]. simpl in Hl. by destruct (rev w).
Qed.

(** The class of white space has no more codes than the switch. *)
Lemma whitespace_class s i : isHttpWhitespace (charCodeAt s i) = false ->
  forall c, charCodeAt s i = Some c -> in_class HTTP_WHITESPACE c = false.
Proof.
  intros H c E. rewrite E in H. unfold isHttpWhitespace, code_is in H. unfold in_class, HTTP_WHITESPACE, HTTP_TAB_OR_SPACE. simpl.
  reflect_bools. repeat (apply orb_false_iff; split); try done; apply andb_false_iff; rewrite !Z.leb_gt; lia.
Qed.

(** [httpTrim] takes the white space off both ends, when the rest has no line
    terminator. *)
Lemma httpTrim_spec s : Forall (fun c => line_terminator c = false) (strip_suffix HTTP_WHITESPACE (strip_prefix HTTP_WHITESPACE s)) ->
  httpTrim s = strip_suffix HTTP_WHITESPACE (strip_prefix HTTP_WHITESPACE s).
Proof.
  intros H. unfold httpTrim. destruct (_ && _) eqn:E.
  - apply andb_true_iff in E as [E1 E2]. apply negb_true_iff in E1, E2. rewrite strip_prefix_id; [rewrite strip_suffix_id; [done|]|].
    + destruct (rev s) as [|c l] eqn:Er; [done|]. apply (f_equal (@rev Z)) in Er. rewrite rev_involutive in Er. subst s. simpl in *.
      apply (whitespace_class _ _ E2). by rewrite charCodeAt_middle by (rewrite slen_app, slen_cons, slen_nil; lia).
    + destruct s as [|c s]; [done|]. by apply (whitespace_class _ _ E1).
  - clear E. enough (match_between s = Some (strip_suffix HTTP_WHITESPACE (strip_prefix HTTP_WHITESPACE s))) as -> by done.
    induction s as [|c s IH]; [done|]. cbn [match_between strip_prefix] in *. destruct (in_class HTTP_WHITESPACE c) eqn:Ec.
    + by rewrite IH.
    + destruct (strip_suffix_spec HTTP_WHITESPACE (c :: s)) as (t & E & Ht & Hl). rewrite E at 1. by apply lazy_group_spec.
Qed.
