(* ===== verification/Mime.v ===== *)
(** * MIME types

    Models [src/ext/web/01_mimesniff.js]: parsing and serializing MIME types,
    extracting one from header values, and the image signatures.  A [Map] of
    parameters is an association list in insertion order; code that may throw
    is in the error monad, and the theorems say that it does not throw. *)

From Stdlib Require Import ZArith Lia.
From stdpp Require Import base list numbers option strings.
From S2P Require Import Prelude Infra.

#[local] Open Scope Z_scope.

Record MimeType := mkMime {
  mtype : str;
  subtype : str;
  parameters : list (str * str);
}.

Definition map_has (k : str) (m : list (str * str)) : bool := existsb (fun p => str_eqb p.1 k) m.

Fixpoint map_get (k : str) (m : list (str * str)) : option str :=
  match m with
  | (k', v) :: m => if str_eqb k' k then Some v else map_get k m
  | [] => None
  end.

Definition map_set (k v : str) (m : list (str * str)) : list (str * str) :=
  if map_has k m then map (fun p => if str_eqb p.1 k then (p.1, v) else p) m else m ++ [(k, v)].

Definition SLASH : Z := 47.
Definition SEMICOLON : Z := 59.
Definition EQUALS : Z := 61.

Section Mime.
Context (toLowerCase : str -> str).

(** ** Parsing *)

(** Steps 11.7 to 11.9: the value and the position after it; no value when an
    unquoted one is empty. *)
Definition parameter_value (input : str) (position : Z) : jsres (option str * Z) :=
  if code_is (charCodeAt input position) QUOTE then
    let? r := collectHttpQuotedString input position true in
    Ok (Some r.1, r.2 + 1)
  else
    let (value, position) := collectSequenceOfCodepoints input position (fun c => negb (c =? SEMICOLON)) in
    let value := strip_suffix HTTP_WHITESPACE value in
    Ok (if bool_decide (value = []) then None else Some value, position).

(** Step 11.10. *)
Definition add_parameter (name value : str) (params : list (str * str)) : list (str * str) :=
  if negb (bool_decide (name = [])) && token name && test_all HTTP_QUOTED_STRING_TOKEN_POINT value &&
     negb (map_has name params)
  then map_set name value params else params.

(** One round of the loop of step 11. *)
Definition parse_parameter (input : str) (position : Z) (params : list (str * str)) :
    jsres (ctl (Z * list (str * str))) :=
  let position := position + 1 in
  let position := (collectSequenceOfCodepoints input position (in_class HTTP_WHITESPACE)).2 in
  let (name, position) := collectSequenceOfCodepoints input position
    (fun c => negb (c =? SEMICOLON) && negb (c =? EQUALS)) in
  let name := toLowerCase name in
  if (position <? slen input) && code_is (charCodeAt input position) SEMICOLON
  then Ok (Continue (position, params))
  else
    let position := if position <? slen input then position + 1 else position in
    if slen input <=? position then Ok (Break (position, params))
    else
      let? r := parameter_value input position in
      match r with
      | (None, position) => Ok (Continue (position, params))
      | (Some value, position) => Ok (Continue (position, add_parameter name value params))
      end.

(** The loop; every round moves on by at least one code unit. *)
Fixpoint parse_parameters (fuel : nat) (input : str) (position : Z) (params : list (str * str)) :
    jsres (list (str * str)) :=
  match fuel with
  | O => Throw (JsError "unreachable")
  | S fuel =>
      if position <? slen input then
        let? c := parse_parameter input position params in
        match c with
        | Continue (position, params) => parse_parameters fuel input position params
        | Break (_, params) => Ok params
        end
      else Ok params
  end.

Definition parseMimeType (input : str) : jsres (option MimeType) :=
  let input := strip_prefix HTTP_WHITESPACE input in
  let input := strip_suffix HTTP_WHITESPACE input in
  let (type, position) := collectSequenceOfCodepoints input 0 (fun c => negb (c =? SLASH)) in
  if bool_decide (type = []) || negb (token type) then Ok None
  else if slen input <=? position then Ok None
  else
    let position := position + 1 in
    let (subtype, position) := collectSequenceOfCodepoints input position (fun c => negb (c =? SEMICOLON)) in
    let subtype := strip_suffix HTTP_WHITESPACE subtype in
    if bool_decide (subtype = []) || negb (token subtype) then Ok None
    else
      let? params := parse_parameters (S (length input)) input position [] in
      Ok (Some (mkMime (toLowerCase type) (toLowerCase subtype) params)).

(** ** Serializing *)

Definition essence (m : MimeType) : str := mtype m ++ [SLASH] ++ subtype m.

(** [s.replaceAll(c, w)] for a character [c]. *)
Definition replaceAll (c : Z) (w : str) (s : str) : str := flat_map (fun x => if x =? c then w else [x]) s.

Definition serialize_value (value : str) : str :=
  if negb (token value) then
    let value := replaceAll BACKSLASH [BACKSLASH; BACKSLASH] value in
    let value := replaceAll QUOTE [BACKSLASH; QUOTE] value in
    [QUOTE] ++ value ++ [QUOTE]
  else value.

Definition serializeMimeType (m : MimeType) : str :=
  foldl (fun s p => s ++ [SEMICOLON] ++ p.1 ++ [EQUALS] ++ serialize_value p.2) (essence m) (parameters m).

(** ** Extracting *)

(** The variables of the loop: charset, essence, MIME type. *)
Definition extract_step (st : option str * option str * option MimeType) (value : str) :
    jsres (option str * option str * option MimeType) :=
  let '(charset, essence_, mimeType) := st in
  let? t := parseMimeType value in
  match t with
  | None => Ok st
  | Some t =>
      if str_eqb (essence t) (lit "*/*") then Ok st
      else if negb (bool_decide (Some (essence t) = essence_)) then
        Ok (map_get (lit "charset") (parameters t), Some (essence t), Some t)
      else
        match charset with
        | Some c =>
            if negb (map_has (lit "charset") (parameters t))
            then Ok (charset, essence_, Some (mkMime (mtype t) (subtype t) (map_set (lit "charset") c (parameters t))))
            else Ok (charset, essence_, Some t)
        | None => Ok (charset, essence_, Some t)
        end
  end.

Fixpoint extract_loop (values : list str) (st : option str * option str * option MimeType) :
    jsres (option MimeType) :=
  match values with
  | [] => Ok st.2
  | v :: values => let? st := extract_step st v in extract_loop values st
  end.

Definition extractMimeType (headerValues : option (list str)) : jsres (option MimeType) :=
  match headerValues with
  | None => Ok None
  | Some values => extract_loop values (None, None, None)
  end.

Definition ends_with_str (s t : str) : bool := starts_with (rev t) (rev s).

Definition isXML (m : MimeType) : bool :=
  ends_with_str (subtype m) (lit "+xml") || str_eqb (essence m) (lit "text/xml") ||
  str_eqb (essence m) (lit "application/xml").

(** ** Signatures *)

(** [input[s] & mask[p]]; [undefined & n] is 0. *)
Definition masked (input mask : list Z) (s p : Z) : Z :=
  Z.land (default 0 (charCodeAt input s)) (default 0 (charCodeAt mask p)).

Definition skip_ignored (input ignored : list Z) : Z :=
  for_up 0 (slen input)
    (fun i s => if existsb (fun b => code_is (charCodeAt input i) b) ignored then Continue (i + 1) else Break s) 0.

Definition patternMatchingAlgorithm (input pattern mask ignored : list Z) : jsres bool :=
  if negb (slen pattern =? slen mask) then Throw (JsError "Assertion failed.")
  else if slen input <? slen pattern then Ok false
  else
    let s := skip_ignored input ignored in
    Ok (for_up 0 (slen pattern)
      (fun p r => if bool_decide (charCodeAt pattern p = Some (masked input mask (s + p) p)) then Continue true else Break false)
      true).

Definition ImageTypePatternTable : list (list Z * list Z * list Z * str) :=
  let ff n := replicate n 255 in
  [([0; 0; 1; 0], ff 4%nat, [], lit "image/x-icon");
   ([0; 0; 2; 0], ff 4%nat, [], lit "image/x-icon");
   ([66; 77], ff 2%nat, [], lit "image/bmp");
   ([71; 73; 70; 56; 55; 97], ff 6%nat, [], lit "image/gif");
   ([71; 73; 70; 56; 57; 97], ff 6%nat, [], lit "image/gif");
   ([82; 73; 70; 70; 0; 0; 0; 0; 87; 69; 66; 80; 86; 80],
    ff 4%nat ++ replicate 4 0 ++ ff 6%nat, [], lit "image/webp");
   ([137; 80; 78; 71; 13; 10; 26; 10], ff 8%nat, [], lit "image/png");
   ([255; 216; 255], ff 3%nat, [], lit "image/jpeg")].

Fixpoint match_table (input : list Z) (table : list (list Z * list Z * list Z * str)) : jsres (option str) :=
  match table with
  | [] => Ok None
  | (pattern, mask, ignored, name) :: table =>
      let? b := patternMatchingAlgorithm input pattern mask ignored in
      if (b : bool) then Ok (Some name) else match_table input table
  end.

Definition imageTypePatternMatchingAlgorithm (input : list Z) : jsres (option str) :=
  match_table input ImageTypePatternTable.

(** [encode] is [TextEncoder.prototype.encode]. *)
Definition sniffImage (encode : str -> list Z) (mimeTypeString : str) : jsres str :=
  let? m := parseMimeType mimeTypeString in
  match m with
  | None => Ok mimeTypeString
  | Some m =>
      if isXML m then Ok mimeTypeString
      else
        let? t := imageTypePatternMatchingAlgorithm (encode mimeTypeString) in
        Ok (default mimeTypeString t)
  end.
End Mime.

(** ** Examples *)

Example parse_html :
  parseMimeType (map ascii_lower) (lit " Text/HTML ; charset=UTF-8 ") =
  Ok (Some (mkMime (lit "text") (lit "html") [(lit "charset", lit "UTF-8")])).
Proof. by vm_compute. Qed.

Example serialize_quoted :
  serializeMimeType (mkMime (lit "a") (lit "b") [(lit "x", lit "c d\e")]) = lit "a/b;x=" ++ [QUOTE] ++ lit "c d\\e" ++ [QUOTE].
Proof. by vm_compute. Qed.

(** After a quoted value the loop skips two code units, the semicolon and the
    first of the next name: [c=d] is lost here, and kept when a space follows
    the semicolon. *)
Lemma quoted_value_swallows :
  let q := lit "t/h;a=" ++ [QUOTE; 98; QUOTE] in
  parseMimeType (map ascii_lower) (q ++ lit ";c=d") = Ok (Some (mkMime (lit "t") (lit "h") [(lit "a", lit "b")])) /\
  parseMimeType (map ascii_lower) (q ++ lit "; c=d") =
    Ok (Some (mkMime (lit "t") (lit "h") [(lit "a", lit "b"); (lit "c", lit "d")])) /\
  parseMimeType (map ascii_lower) (serializeMimeType (mkMime (lit "t") (lit "h") [(lit "a", lit "b b"); (lit "c", lit "d")])) =
    Ok (Some (mkMime (lit "t") (lit "h") [(lit "a", lit "b b")])).
Proof. by vm_compute. Qed.

(** The signatures are looked for in the text of the MIME type, not in the
    image. *)
Lemma sniff_reads_the_name : sniffImage (map ascii_lower) (fun s => s) (lit "BM/x") = Ok (lit "image/bmp").
Proof. by vm_compute. Qed.
