(* ===== verification/MimeTheorems.v ===== *)
(** * MIME types: theorems

    Parsing never throws and its results are well-formed; parsing what was
    serialized gives the MIME type back, as long as no parameter but the last
    needs quotes. *)

From Stdlib Require Import ZArith Lia.
From stdpp Require Import base list numbers option strings.
From S2P Require Import Prelude Infra Mime.

#[local] Open Scope Z_scope.

(** ** Well-formed MIME types *)

Definition lower (s : str) : Prop := Forall (fun c => in_class ASCII_UPPER_ALPHA c = false) s.

Record mime_ok (m : MimeType) : Prop := {
  mo_type : token (mtype m) = true /\ lower (mtype m);
  mo_subtype : token (subtype m) = true /\ lower (subtype m);
  mo_names : Forall (fun n => token n = true /\ lower n) (parameters m).*1;
  mo_values : Forall (fun v => test_all HTTP_QUOTED_STRING_TOKEN_POINT v = true) (parameters m).*2;
  mo_distinct : NoDup (parameters m).*1;
}.

Lemma map_has_spec k m : map_has k m = true <-> k ∈ m.*1.
Proof.
  unfold map_has. rewrite existsb_exists. split.
  - intros ([k' v] & Hin & E). reflect_bools. simpl in E. subst. apply list_elem_of_fmap. exists (k, v). by rewrite list_elem_of_In.
  - intros H. apply list_elem_of_fmap in H as ([k' v] & -> & H). exists (k', v). rewrite <-list_elem_of_In. split; [done|].
    unfold str_eqb. by apply bool_decide_eq_true.
Qed.

Section Theorems.
Context (toLowerCase : str -> str) {HL : LowerCase toLowerCase}.

Record params_ok (ps : list (str * str)) : Prop := {
  po_names : Forall (fun n => token n = true /\ lower n) ps.*1;
  po_values : Forall (fun v => test_all HTTP_QUOTED_STRING_TOKEN_POINT v = true) ps.*2;
  po_distinct : NoDup ps.*1;
}.

Lemma add_parameter_ok name value ps : lower name -> params_ok ps -> params_ok (add_parameter name value ps).
Proof.
  intros Hn [H1 H2 H3]. unfold add_parameter.
  destruct (_ && _ && _ && _) eqn:E; [|by split]. reflect_bools. unfold map_set.
  destruct (map_has name ps) eqn:Eh; [done|]. split; rewrite fmap_app; simpl.
  - apply Forall_app. split; [done|]. constructor; [by split|constructor].
  - apply Forall_app. split; [done|]. by constructor; [|constructor].
  - apply NoDup_app. split; [done|]. split; [|apply NoDup_singleton]. intros x Hx ->%list_elem_of_singleton.
    assert (map_has name ps = true) by by apply map_has_spec. congruence.
Qed.

Lemma parameter_value_total input p : 0 <= p -> exists v q, parameter_value input p = Ok (v, q) /\ p <= q.
Proof.
  intros Hp. unfold parameter_value. destruct (code_is (charCodeAt input p) QUOTE) eqn:E.
  - destruct (collectQuoted_total input p Hp) as (v & q & -> & Hq).
    { destruct (charCodeAt input p) as [c|]; [|done]. simpl in E. by apply Z.eqb_eq in E as ->. }
    simpl. eexists _, _. split; [done|lia].
  - destruct (collect_general input p (fun c => negb (c =? SEMICOLON)) Hp) as (w & -> & _ & _).
    pose proof (slen_nonneg w). eexists _, _. split; [done|lia].
Qed.

(** A round of the loop returns, moves on, and keeps the parameters in order. *)
Lemma parse_parameter_total input p ps : 0 <= p -> params_ok ps ->
  exists c, parse_parameter toLowerCase input p ps = Ok c /\
    match c with Continue (q, ps') => p < q /\ params_ok ps' | Break (_, ps') => params_ok ps' end.
Proof.
  intros Hp Hps. unfold parse_parameter.
  destruct (collect_general input (p + 1) (in_class HTTP_WHITESPACE)) as (w & -> & _ & _); [lia|].
  pose proof (slen_nonneg w). cbn [snd].
  destruct (collect_general input (p + 1 + slen w) (fun c => negb (c =? SEMICOLON) && negb (c =? EQUALS))) as (n & -> & _ & _); [lia|].
  pose proof (slen_nonneg n). set (q := p + 1 + slen w + slen n).
  destruct ((q <? slen input) && code_is (charCodeAt input q) SEMICOLON); [eexists; split; [done|]; split; [lia|done]|].
  set (q' := if q <? slen input then q + 1 else q). assert (q <= q') by (unfold q'; destruct (q <? slen input); lia).
  destruct (slen input <=? q'); [by eexists|].
  destruct (parameter_value_total input q') as (v & r & -> & Hr); [lia|]. cbn [jsbind].
  destruct v as [v|]; eexists; (split; [done|]); (split; [lia|]); [|done].
  apply add_parameter_ok; [apply lower_no_upper|done].
Qed.

Lemma parse_parameters_total fuel input p ps : 0 <= p -> slen input - p < Z.of_nat fuel -> (0 < fuel)%nat -> params_ok ps ->
  exists ps', parse_parameters toLowerCase fuel input p ps = Ok ps' /\ params_ok ps'.
Proof.
  revert p ps. induction fuel as [|fuel IH]; intros p ps Hp Hf Hpos Hps; [lia|]. cbn [parse_parameters].
  destruct (Z.ltb_spec p (slen input)) as [H|H]; [|by exists ps].
  destruct (parse_parameter_total input p ps Hp Hps) as (c & -> & Hc). cbn [jsbind].
  destruct c as [[q ps']|[q ps']]; [|by exists ps']. destruct Hc as [Hq Hps']. apply IH; [lia|lia|lia|done].
Qed.

(** Lower-casing tokens. *)
Lemma lower_token s : token s = true -> token (toLowerCase s) = true /\ lower (toLowerCase s).
Proof.
  intros H. split; [|apply lower_no_upper]. apply test_all_spec in H as [Hne H].
  rewrite lower_ascii by by apply token_ascii. apply test_all_spec. split; [by destruct s|].
  apply Forall_map. eapply Forall_impl; [exact H|]. intros c Hc. cbv beta. unfold ascii_lower.
  destruct (in_class ASCII_UPPER_ALPHA c) eqn:E; [|done]. unfold in_class in E. simpl in E. rewrite orb_false_r in E.
  reflect_bools. unfold HTTP_TOKEN_CODE_POINT. rewrite in_class_app. apply orb_true_iff. right. unfold in_class. simpl.
  by zbool.
Qed.
End Theorems.

(** ** What the text of a MIME type is made of *)

Lemma token_plain c : in_class HTTP_TOKEN_CODE_POINT c = true ->
  in_class HTTP_WHITESPACE c = false /\ c <> SLASH /\ c <> SEMICOLON /\ c <> EQUALS /\ c <> QUOTE.
Proof.
  intros Hc. unfold in_class in *. simpl in *.
  repeat (apply orb_true_iff in Hc as [Hc|Hc]); try done; reflect_bools;
    (split; [by zbool|]); unfold SLASH, SEMICOLON, EQUALS, QUOTE; lia.
Qed.

Lemma token_first (P : Z -> Prop) s : token s = true -> (forall c, in_class HTTP_TOKEN_CODE_POINT c = true -> P c) ->
  exists c s', s = c :: s' /\ P c.
Proof. intros [Hne H]%test_all_spec HP. destruct s as [|c s]; [done|]. apply Forall_cons in H as [H _]. exists c, s. auto. Qed.

Lemma token_last_ws s t : token s = true -> match rev (t ++ s) with c :: _ => in_class HTTP_WHITESPACE c = false | [] => True end.
Proof.
  intros [Hne H]%test_all_spec. destruct s as [|c s _] using rev_ind; [done|]. rewrite app_assoc, rev_app_distr. simpl.
  apply Forall_app in H as [_ H]. apply Forall_cons in H as [H _]. by apply token_plain.
Qed.

Lemma token_all (f : Z -> bool) s : token s = true -> (forall c, in_class HTTP_TOKEN_CODE_POINT c = true -> f c = true) ->
  Forall (fun c => f c = true) s.
Proof. intros [_ H]%test_all_spec Hf. eapply Forall_impl; [exact H|]. intros c Hc. by apply Hf. Qed.

(** Quoting, in one pass. *)
Definition esc (s : str) : str := flat_map (fun x => if (x =? BACKSLASH) || (x =? QUOTE) then [BACKSLASH; x] else [x]) s.

Lemma esc_spec s : replaceAll QUOTE [BACKSLASH; QUOTE] (replaceAll BACKSLASH [BACKSLASH; BACKSLASH] s) = esc s.
Proof.
  induction s as [|c s IH]; [done|]. unfold replaceAll, esc in *. cbn [flat_map].
  destruct (Z.eqb_spec c BACKSLASH) as [->|H]; simpl; rewrite IH; [done|].
  destruct (Z.eqb_spec c QUOTE) as [->|H']; done.
Qed.

Lemma esc_app s t : esc (s ++ t) = esc s ++ esc t.
Proof. apply flat_map_app. Qed.

Lemma esc_plain s : Forall (fun c => negb (c =? QUOTE) && negb (c =? BACKSLASH) = true) s -> esc s = s.
Proof.
  induction 1 as [|c s Hc Hs IH]; [done|]. unfold esc in *. cbn [flat_map]. rewrite IH. reflect_bools. by zbool.
Qed.

Lemma esc_length s : (length s <= length (esc s))%nat.
Proof.
  induction s as [|c s IH]; [done|]. unfold esc in *. cbn [flat_map]. rewrite length_app.
  destruct ((c =? BACKSLASH) || (c =? QUOTE)); simpl; lia.
Qed.

(** Reading a quoted string undoes the quoting. *)
Lemma quoted_loop_esc fuel pre v rest acc : (length v < fuel)%nat ->
  quoted_loop fuel (pre ++ esc v ++ QUOTE :: rest) (slen pre) acc = Ok (acc ++ v, slen pre + slen (esc v) + 1).
Proof.
  revert pre v acc. induction fuel as [|fuel IH]; intros pre v acc Hf; [lia|]. cbn [quoted_loop].
  destruct (span_split (fun c => negb (c =? QUOTE) && negb (c =? BACKSLASH)) v) as (w & v' & -> & Hw & Hv').
  rewrite esc_app, (esc_plain w Hw). rewrite <-app_assoc. rewrite collectSequence_spec; [|done|].
  2:{ destruct v' as [|c v']; [done|]. unfold esc. cbn [flat_map]. destruct ((c =? BACKSLASH) || (c =? QUOTE)) eqn:E; [done|].
      exfalso. apply orb_false_iff in E as [E1 E2]. cbv beta in Hv'. by rewrite E1, E2 in Hv'. }
  rewrite app_assoc. destruct v' as [|c v'].
  - simpl esc. rewrite !app_nil_l, charCodeAt_middle by by rewrite slen_app. cbv iota.
    change (QUOTE =? BACKSLASH) with false. change (QUOTE =? QUOTE) with true. cbv iota. simpl negb. cbv iota.
    by rewrite !app_nil_r.
  - assert (Hcs : (c =? BACKSLASH) || (c =? QUOTE) = true).
    { destruct (c =? BACKSLASH) eqn:E1, (c =? QUOTE) eqn:E2; done. }
    assert (Ee : esc (c :: v') = [BACKSLASH; c] ++ esc v') by (unfold esc; cbn [flat_map]; by rewrite Hcs).
    rewrite Ee. cbn [app]. rewrite charCodeAt_middle by by rewrite slen_app. cbv iota. rewrite Z.eqb_refl.
    assert (Ea : (pre ++ w) ++ BACKSLASH :: c :: esc v' ++ QUOTE :: rest =
      (pre ++ w ++ [BACKSLASH]) ++ c :: esc v' ++ QUOTE :: rest) by by rewrite <-!app_assoc.
    rewrite Ea, charCodeAt_middle by (rewrite !slen_app, slen_cons, slen_nil; lia).
    assert (Eb : (pre ++ w ++ [BACKSLASH]) ++ c :: esc v' ++ QUOTE :: rest =
      (pre ++ w ++ [BACKSLASH; c]) ++ esc v' ++ QUOTE :: rest) by by rewrite <-!app_assoc.
    rewrite Eb. replace (slen pre + slen w + 1 + 1) with (slen (pre ++ w ++ [BACKSLASH; c]))
      by (rewrite !slen_app, !slen_cons, slen_nil; lia).
    rewrite IH by (rewrite length_app in Hf; simpl in Hf; lia). rewrite <-!app_assoc. f_equal. f_equal.
    rewrite !slen_app, !slen_cons, slen_nil. lia.
Qed.

(** ** Round trip *)

Definition param_text (p : str * str) : str := [SEMICOLON] ++ p.1 ++ [EQUALS] ++ serialize_value p.2.

Lemma serialize_text m : serializeMimeType m = essence m ++ flat_map param_text (parameters m).
Proof.
  unfold serializeMimeType. generalize (essence m). induction (parameters m) as [|p ps IH]; intros s; cbn [foldl flat_map]; [by rewrite app_nil_r|].
  rewrite IH. change (param_text p) with ([SEMICOLON] ++ p.1 ++ [EQUALS] ++ serialize_value p.2). by rewrite <-!app_assoc.
Qed.

(** No value needs quotes, except perhaps the last one. *)
Fixpoint quotes_last (ps : list (str * str)) : Prop :=
  match ps with
  | [] | [_] => True
  | (_, v) :: ps => token v = true /\ quotes_last ps
  end.

Lemma quotes_last_tail n v ps : quotes_last ((n, v) :: ps) -> quotes_last ps /\ (ps = [] \/ token v = true).
Proof. destruct ps; simpl; [by auto|]. intros [? ?]. by auto. Qed.

Lemma text_first ps : match flat_map param_text ps with c :: _ => c = SEMICOLON | [] => True end.
Proof. by destruct ps as [|[n v] ps]. Qed.

Section Roundtrip.
Context (toLowerCase : str -> str) {HL : LowerCase toLowerCase}.

Lemma lower_id s : token s = true -> lower s -> toLowerCase s = s.
Proof.
  intros [_ H]%test_all_spec Hl. rewrite lower_ascii by by apply token_ascii. clear H.
  induction Hl as [|c s Hc Hs IH]; [done|]. simpl. rewrite IH. unfold ascii_lower. by rewrite Hc.
Qed.

(** The value of a parameter, read back. *)
Lemma parameter_value_text pre v ps : test_all HTTP_QUOTED_STRING_TOKEN_POINT v = true -> (ps = [] \/ token v = true) ->
  exists q, parameter_value (pre ++ serialize_value v ++ flat_map param_text ps) (slen pre) = Ok (Some v, q) /\
    (q = slen (pre ++ serialize_value v) \/ ps = [] /\ slen (pre ++ serialize_value v) <= q).
Proof.
  intros Hv Hps. unfold serialize_value. destruct (token v) eqn:Et; simpl negb; cbv iota.
  - destruct (token_first (fun c => c <> QUOTE) v Et) as (c & v' & Ev & Hc); [intros c Hc; by apply token_plain|].
    exists (slen (pre ++ v)). split; [|by left]. unfold parameter_value.
    assert (Eq : code_is (charCodeAt (pre ++ v ++ flat_map param_text ps) (slen pre)) QUOTE = false).
    { rewrite Ev. rewrite <-app_comm_cons, charCodeAt_middle by done. simpl. by zbool. }
    rewrite Eq. rewrite collectSequence_spec.
    + rewrite strip_suffix_id by by apply (token_last_ws v []). rewrite bool_decide_eq_false_2 by by rewrite Ev.
      by rewrite slen_app.
    + apply (token_all (fun c => negb (c =? SEMICOLON))); [done|]. intros x Hx. apply negb_true_iff, Z.eqb_neq. by apply token_plain.
    + pose proof (text_first ps) as X. destruct (flat_map param_text ps); [done|]. by subst.
  - destruct Hps as [->|]; [|done]. rewrite esc_spec. simpl flat_map. rewrite app_nil_r.
    unfold parameter_value, collectHttpQuotedString. cbn [app]. rewrite charCodeAt_middle by done. simpl code_is.
    cbv iota. simpl negb. cbv iota.
    replace (pre ++ QUOTE :: esc v ++ [QUOTE]) with ((pre ++ [QUOTE]) ++ esc v ++ QUOTE :: []) by by rewrite <-app_assoc.
    replace (slen pre + 1) with (slen (pre ++ [QUOTE])) by (rewrite slen_app, slen_cons, slen_nil; lia).
    rewrite quoted_loop_esc.
    + simpl. eexists. split; [done|]. right. split; [done|]. autorewrite with js. lia.
    + rewrite !length_app. pose proof (esc_length v). simpl. lia.
Qed.

Lemma add_parameter_new n v acc : token n = true -> test_all HTTP_QUOTED_STRING_TOKEN_POINT v = true -> n ∉ acc.*1 ->
  add_parameter n v acc = acc ++ [(n, v)].
Proof.
  intros Hn Hv Hnot. unfold add_parameter, map_set.
  assert (Eh : map_has n acc = false) by (destruct (map_has n acc) eqn:E; [|done]; apply map_has_spec in E; done).
  rewrite Hn, Hv, Eh. rewrite bool_decide_eq_false_2; [done|]. intros ->. done.
Qed.

(** One round reads one parameter. *)
Lemma parse_parameter_text pre n v ps acc :
  token n = true -> lower n -> test_all HTTP_QUOTED_STRING_TOKEN_POINT v = true -> (ps = [] \/ token v = true) -> n ∉ acc.*1 ->
  exists q, parse_parameter toLowerCase (pre ++ param_text (n, v) ++ flat_map param_text ps) (slen pre) acc =
      Ok (Continue (q, acc ++ [(n, v)])) /\
    (q = slen (pre ++ param_text (n, v)) \/ ps = [] /\ slen (pre ++ param_text (n, v)) <= q).
Proof.
  intros Hn Hl Hv Hps Hnot. unfold parse_parameter. change (param_text (n, v)) with ([SEMICOLON] ++ n ++ [EQUALS] ++ serialize_value v).
  set (V := serialize_value v). set (T := flat_map param_text ps). set (input := pre ++ _).
  assert (E1 : input = (pre ++ [SEMICOLON]) ++ [] ++ n ++ [EQUALS] ++ V ++ T) by (unfold input; by rewrite <-!app_assoc).
  assert (E2 : input = (pre ++ [SEMICOLON]) ++ n ++ [EQUALS] ++ V ++ T) by done.
  assert (E3 : input = (pre ++ [SEMICOLON] ++ n) ++ EQUALS :: V ++ T) by (unfold input; by rewrite <-!app_assoc).
  assert (E4 : input = (pre ++ [SEMICOLON] ++ n ++ [EQUALS]) ++ V ++ T) by (unfold input; by rewrite <-!app_assoc).
  assert (Hp : slen pre + 1 = slen (pre ++ [SEMICOLON])) by (autorewrite with js; lia).
  rewrite Hp, E1. rewrite collectSequence_spec; [|constructor|].
  2:{ destruct (token_first (fun c => in_class HTTP_WHITESPACE c = false) n Hn) as (c & n' & -> & Hc); [|done].
      intros c Hc. by apply token_plain. }
  cbn [snd]. rewrite slen_nil, Z.add_0_r, app_nil_l. rewrite collectSequence_spec; [| |done].
  2:{ apply (token_all (fun c => negb (c =? SEMICOLON) && negb (c =? EQUALS))); [done|]. intros c Hc.
      destruct (token_plain c Hc) as (_ & _ & H1 & H2 & _). rewrite andb_true_iff, !negb_true_iff, !Z.eqb_neq. done. }
  rewrite <-E2. rewrite (lower_id n Hn Hl). assert (Hat : charCodeAt input (slen (pre ++ [SEMICOLON]) + slen n) = Some EQUALS).
  { rewrite E3. apply charCodeAt_middle. autorewrite with js. lia. }
  pose proof (charCodeAt_Some _ _ _ Hat) as Hlt. rewrite Hat. simpl code_is. rewrite andb_false_r.
  rewrite (proj2 (Z.ltb_lt _ _) (proj2 Hlt)).
  assert (Hv0 : 0 < slen V).
  { unfold V, serialize_value. destruct (token v) eqn:Et; simpl negb; cbv iota.
    - destruct (token_first (fun _ => True) v Et) as (c & v' & -> & _); [done|]. autorewrite with js. slen_pos. lia.
    - autorewrite with js. slen_pos. lia. }
  replace (slen (pre ++ [SEMICOLON]) + slen n + 1) with (slen (pre ++ [SEMICOLON] ++ n ++ [EQUALS])) by (autorewrite with js; lia).
  rewrite (proj2 (Z.leb_gt (slen input) _)) by (rewrite E4; autorewrite with js; slen_pos; lia).
  rewrite E4. destruct (parameter_value_text (pre ++ [SEMICOLON] ++ n ++ [EQUALS]) v ps Hv Hps) as (q & Ev & Hq). fold V T in Ev. rewrite Ev.
  cbn [jsbind]. exists q. rewrite add_parameter_new by done. split; [done|].
  rewrite <-!app_assoc in Hq. exact Hq.
Qed.

Lemma parse_parameters_text fuel pre ps acc : params_ok (acc ++ ps) -> quotes_last ps -> (length ps < fuel)%nat ->
  parse_parameters toLowerCase fuel (pre ++ flat_map param_text ps) (slen pre) acc = Ok (acc ++ ps).
Proof.
  revert pre ps acc. induction fuel as [|fuel IH]; intros pre ps acc Hok Hq Hf; [lia|]. cbn [parse_parameters].
  destruct ps as [|[n v] ps].
  - simpl. rewrite !app_nil_r. by rewrite Z.ltb_irrefl.
  - cbn [flat_map]. rewrite (proj2 (Z.ltb_lt _ _)).
    2:{ unfold param_text. autorewrite with js. slen_pos. lia. }
    destruct Hok as [H1 H2 H3]. rewrite !fmap_app in H1, H2, H3. simpl in H1, H2, H3.
    apply Forall_app in H1 as [H1 [[Hn Hl] H1']%Forall_cons]. apply Forall_app in H2 as [H2 [Hv H2']%Forall_cons].
    destruct (quotes_last_tail n v ps Hq) as [Hq' Hps].
    assert (Hnot : n ∉ acc.*1) by (apply NoDup_app in H3 as (_ & H3 & _); intros X; apply (H3 _ X); constructor).
    destruct (parse_parameter_text pre n v ps acc Hn Hl Hv Hps Hnot) as (q & -> & Hpos). cbn [jsbind].
    destruct Hpos as [->|[-> Hpos]].
    + rewrite app_assoc, IH; [by rewrite <-app_assoc| |done|simpl in Hf; lia].
      rewrite <-app_assoc. split; rewrite !fmap_app; simpl; [apply Forall_app..|done]; split; try done; by constructor.
    + destruct fuel as [|fuel]; [simpl in Hf; lia|]. cbn [parse_parameters]. simpl flat_map. rewrite app_nil_r.
      by rewrite (proj2 (Z.ltb_ge _ _)).
Qed.

Lemma text_length ps : (length ps <= length (flat_map param_text ps))%nat.
Proof. induction ps as [|[n v] ps IH]; [done|]. cbn [flat_map]. rewrite length_app. simpl. lia. Qed.

Lemma text_last m : mime_ok m ->
  match rev (serializeMimeType m) with c :: _ => in_class HTTP_WHITESPACE c = false | [] => True end.
Proof.
  intros Hm. rewrite serialize_text. destruct (parameters m) as [|p ps _] using rev_ind.
  - simpl. rewrite app_nil_r. unfold essence. rewrite app_assoc. apply token_last_ws, Hm.
  - rewrite flat_map_app. cbn [flat_map]. rewrite app_nil_r.
    change (param_text p) with ([SEMICOLON] ++ p.1 ++ [EQUALS] ++ serialize_value p.2). unfold serialize_value.
    destruct (token p.2) eqn:E; cbn [negb]; rewrite !app_assoc; [by apply token_last_ws|]. by rewrite rev_app_distr.
Qed.
End Roundtrip.

(** ** Theorems *)

(** [parseMimeType] returns for every string, and a MIME type it returns is
    well-formed: type, subtype and parameter names are non-empty lower-case HTTP
    tokens, the names are distinct, and the values are non-empty strings of HTTP
    quoted-string code points. *)
Lemma parseMimeType_ok (toLowerCase : str -> str) (input : str) : LowerCase toLowerCase ->
  exists r, parseMimeType toLowerCase input = Ok r /\ match r with Some m => mime_ok m | None => True end.
Proof.
  intros HL. unfold parseMimeType. set (s := strip_suffix _ _).
  destruct (collect_general s 0 (fun c => negb (c =? SLASH))) as (ty & -> & _ & _); [lia|]. pose proof (slen_nonneg ty).
  destruct (token ty) eqn:Et; [|rewrite orb_true_r; by exists None]. rewrite orb_false_r.
  destruct (bool_decide (ty = [])); [by exists None|]. destruct (slen s <=? 0 + slen ty); [by exists None|].
  destruct (collect_general s (0 + slen ty + 1) (fun c => negb (c =? SEMICOLON))) as (st & -> & _ & _); [lia|].
  pose proof (slen_nonneg st).
  destruct (token (strip_suffix HTTP_WHITESPACE st)) eqn:Es; [|rewrite orb_true_r; by exists None]. rewrite orb_false_r.
  destruct (bool_decide _); [by exists None|].
  destruct (parse_parameters_total toLowerCase (S (length s)) s (0 + slen ty + 1 + slen st) []) as (ps & -> & [H1 H2 H3]);
    [lia|unfold slen; lia|lia|by repeat constructor|].
  cbn [jsbind]. eexists. split; [done|]. by split; [apply lower_token|apply lower_token|..].
Qed.

Lemma parseMimeType_ok_witness :
  exists r, parseMimeType (map ascii_lower) (lit "Text/Html; a=b;;C = d") = Ok r /\ match r with Some m => mime_ok m | None => True end.
Proof. apply (parseMimeType_ok (map ascii_lower)). apply ascii_lower_case. Defined.

(** C30. Parsing the serialization of a well-formed MIME type gives it back, when
    no parameter value but the last needs quotes. *)
Theorem mime_roundtrip (toLowerCase : str -> str) (m : MimeType) :
  LowerCase toLowerCase -> mime_ok m -> quotes_last (parameters m) ->
  parseMimeType toLowerCase (serializeMimeType m) = Ok (Some m).
Proof.
  intros HL Hm Hq. pose proof Hm as [[Ht Hlt] [Hs Hls] H1 H2 H3]. unfold parseMimeType.
  destruct (token_first (fun c => in_class HTTP_WHITESPACE c = false) (mtype m) Ht) as (c & t & Ec & Hc);
    [intros c Hc; by apply token_plain|].
  rewrite (strip_prefix_id HTTP_WHITESPACE (serializeMimeType m)) by (rewrite serialize_text; unfold essence; rewrite Ec; exact Hc).
  rewrite strip_suffix_id by by apply text_last. rewrite serialize_text. unfold essence. set (T := flat_map param_text (parameters m)).
  assert (E1 : (mtype m ++ [SLASH] ++ subtype m) ++ T = [] ++ mtype m ++ SLASH :: subtype m ++ T) by by rewrite <-!app_assoc.
  assert (E2 : (mtype m ++ [SLASH] ++ subtype m) ++ T = (mtype m ++ [SLASH]) ++ subtype m ++ T) by by rewrite <-!app_assoc.
  pose proof (fun s => collectSequence_spec [] (mtype m) (SLASH :: subtype m ++ T) s) as C1. rewrite <-E1 in C1.
  pose proof (collectSequence_spec (mtype m ++ [SLASH]) (subtype m) T (fun c => negb (c =? SEMICOLON))) as C2. rewrite <-E2 in C2.
  set (input := (mtype m ++ [SLASH] ++ subtype m) ++ T) in *. change (slen (@nil Z)) with 0 in C1.
  rewrite C1; [| |by rewrite Z.eqb_refl].
  2:{ apply (token_all (fun c => negb (c =? SLASH))); [done|]. intros x Hx. apply negb_true_iff, Z.eqb_neq. by apply token_plain. }
  rewrite Ht. rewrite bool_decide_eq_false_2 by by rewrite Ec. cbn [orb negb]. rewrite Z.add_0_l.
  assert (Hlen : slen input = slen (mtype m) + 1 + slen (subtype m) + slen T) by (unfold input; autorewrite with js; lia).
  slen_pos. rewrite (proj2 (Z.leb_gt _ _)) by lia.
  replace (slen (mtype m) + 1) with (slen (mtype m ++ [SLASH])) by (autorewrite with js; lia).
  rewrite C2.
  2:{ apply (token_all (fun c => negb (c =? SEMICOLON))); [done|]. intros x Hx. apply negb_true_iff, Z.eqb_neq. by apply token_plain. }
  2:{ pose proof (text_first (parameters m)) as X. fold T in X. destruct T; [done|]. by subst. }
  rewrite strip_suffix_id by by apply (token_last_ws (subtype m) []). rewrite Hs.
  rewrite bool_decide_eq_false_2 by (intros X; by rewrite X in Hs). cbn [orb negb].
  replace (slen (mtype m ++ [SLASH]) + slen (subtype m)) with (slen (mtype m ++ [SLASH] ++ subtype m)) by (autorewrite with js; lia).
  pose proof (parse_parameters_text toLowerCase (S (length input)) (mtype m ++ [SLASH] ++ subtype m) (parameters m) []) as E5.
  fold T in E5. fold input in E5. rewrite E5; [|by split|done|].
  - cbn [jsbind app]. rewrite !lower_id by done. by destruct m.
  - unfold input, T. rewrite !length_app. pose proof (text_length (parameters m)). lia.
Qed.

Lemma mime_roundtrip_witness :
  let m := mkMime (lit "text") (lit "html") [(lit "charset", lit "utf-8"); (lit "x", lit "a\b c")] in
  mime_ok m /\ parseMimeType (map ascii_lower) (serializeMimeType m) = Ok (Some m).
Proof.
  assert (Hm : mime_ok (mkMime (lit "text") (lit "html") [(lit "charset", lit "utf-8"); (lit "x", lit "a\b c")])).
  { split; simpl.
    - split; [by vm_compute|]. by repeat constructor.
    - split; [by vm_compute|]. by repeat constructor.
    - repeat constructor; by vm_compute.
    - repeat constructor; by vm_compute.
    - apply NoDup_cons. split; [|apply NoDup_singleton]. intros X%list_elem_of_singleton. done. }
  split; [exact Hm|]. apply (mime_roundtrip (map ascii_lower)); [apply ascii_lower_case|exact Hm|by vm_compute].
Defined.
