(* ===== verification/Headers.v ===== *)
(** * Headers

    Models [src/ext/fetch/20_headers.js]: the header list, the [Headers] methods
    with their argument checks, the sorted and combined view that iteration
    uses, and [getDecodeSplitHeader].

    A call maps the state (the module's cache of checked names and the object)
    to a new state and a result.  [toLowerCase] is a parameter.  The caches of
    the code are plain objects: a lookup also finds what they inherit, and the
    keys [Object.prototype] has are the parameter [inherited]. *)

From Stdlib Require Import ZArith Lia.
From stdpp Require Import base list gmap numbers option strings.
From S2P Require Import Prelude Infra.

#[local] Open Scope Z_scope.

Inductive guard_ := immutable | request | request_no_cors | response | none.

#[export] Instance guard_eq_dec : EqDecision guard_.
Proof. solve_decision. Defined.

Abbreviation HeaderList := (list (str * str)).

Record Headers := mkHeaders {
  headerList : HeaderList;
  guard : guard_;
  iterableHeadersCache : option HeaderList;
}.

(** [HEADER_NAME_CACHE] and [HEADER_CACHE_SIZE]. *)
Record name_cache := mkCache { entries : gmap str bool; cache_size : Z }.

Definition empty_cache : name_cache := mkCache ∅ 0.

Definition HEADER_NAME_CACHE_SIZE_BOUNDARY : Z := 4096.

(** [a < b] on strings. *)
Fixpoint str_lt (a b : str) : bool :=
  match a, b with
  | _, [] => false
  | [], _ :: _ => true
  | x :: a, y :: b => (x <? y) || ((x =? y) && str_lt a b)
  end.

Section Headers.
Context (toLowerCase : str -> str) (inherited : str -> bool).

Definition normalizeHeaderValue (potentialValue : str) : str := httpTrim potentialValue.

Definition checkForInvalidValueChars (value : str) : bool :=
  negb (existsb (fun c => (c =? 10) || (c =? 13) || (c =? 0)) value).

(** What is inherited is a function or an object, which counts as true. *)
Definition checkHeaderNameForHttpTokenCodePoint (c : name_cache) (name : str) : name_cache * bool :=
  match entries c !! name with
  | Some fromCache => (c, fromCache)
  | None =>
      if inherited name then (c, true)
      else
        let valid := token name in
        let c := if HEADER_NAME_CACHE_SIZE_BOUNDARY <? cache_size c then empty_cache else c in
        (mkCache (<[name := valid]> (entries c)) (cache_size c + 1), valid)
  end.

Definition same_name (name : str) (h : str * str) : bool :=
  str_eqb (byteLowerCase toLowerCase h.1) (byteLowerCase toLowerCase name).

Definition set_list (l : HeaderList) (h : Headers) : Headers := mkHeaders l (guard h) (iterableHeadersCache h).

(** A call: the module's cache and the object before, and after. *)
Definition call (A : Type) : Type := name_cache * Headers -> (name_cache * Headers) * jsres A.

Definition invalid_name : js_error := JsTypeError "Header name is not valid.".
Definition invalid_value : js_error := JsTypeError "Header value is not valid.".
Definition is_immutable : js_error := JsTypeError "Headers are immutable.".

Definition appendHeader (name value : str) : call unit := fun '(c, h) =>
  let value := normalizeHeaderValue value in
  let (c, ok) := checkHeaderNameForHttpTokenCodePoint c name in
  if negb ok then ((c, h), Throw invalid_name)
  else if negb (checkForInvalidValueChars value) then ((c, h), Throw invalid_value)
  else if bool_decide (guard h = immutable) then ((c, h), Throw is_immutable)
  else
    let name := match find (same_name name) (headerList h) with Some x => x.1 | None => name end in
    ((c, set_list (headerList h ++ [(name, value)]) h), Ok tt).

(** What the converter of [HeadersInit] gives: a sequence of sequences, or a
    record, whose own keys are listed in order. *)
Inductive HeadersInit :=
  | InitSequence (object : list (list str))
  | InitRecord (object : list (str * str)).

Fixpoint fill_sequence (object : list (list str)) : call unit := fun s =>
  match object with
  | [] => (s, Ok tt)
  | [name; value] :: object =>
      match appendHeader name value s with
      | (s, Ok _) => fill_sequence object s
      | (s, Throw e) => (s, Throw e)
      end
  | _ :: _ => (s, Throw (JsTypeError "Invalid header. Length must be 2"))
  end.

Fixpoint fill_record (object : list (str * str)) : call unit := fun s =>
  match object with
  | [] => (s, Ok tt)
  | (key, value) :: object =>
      match appendHeader key value s with
      | (s, Ok _) => fill_record object s
      | (s, Throw e) => (s, Throw e)
      end
  end.

Definition fillHeaders (object : HeadersInit) : call unit :=
  match object with
  | InitSequence l => fill_sequence l
  | InitRecord l => fill_record l
  end.

(** The constructor: an object whose filling throws is never seen. *)
Definition headers_new (init : option HeadersInit) (c : name_cache) : (name_cache * Headers) * jsres unit :=
  let s := (c, mkHeaders [] none None) in
  match init with
  | Some init => fillHeaders init s
  | None => (s, Ok tt)
  end.

Definition getHeader (l : HeaderList) (name : str) : option str :=
  let entries := (filter (fun h => same_name name h = true) l).*2 in
  if bool_decide (entries = []) then None else Some (js_join (lit ", ") entries).

(** [getDecodeSplitHeader]: the loop, each round of which moves on. *)
Fixpoint split_header (fuel : nat) (input : str) (position : Z) (value : str) (values : list str) : jsres (list str) :=
  match fuel with
  | O => Throw (JsError "unreachable")
  | S fuel =>
      if position <? slen input then
        let (result, position) := collectSequenceOfCodepoints input position (fun c => negb (c =? QUOTE) && negb (c =? 44)) in
        let value := value ++ result in
        let push position value :=
          let value := strip_prefix HTTP_TAB_OR_SPACE value in
          let value := strip_suffix HTTP_TAB_OR_SPACE value in
          split_header fuel input position [] (values ++ [value]) in
        match charCodeAt input position with
        | Some c =>
            if c =? QUOTE then
              let? r := collectHttpQuotedString input position false in
              let value := value ++ r.1 in
              if r.2 <? slen input then split_header fuel input r.2 value values else push r.2 value
            else if negb (c =? 44) then Throw (JsTypeError "Unreachable")
            else push (position + 1) value
        | None => push position value
        end
      else Ok values
  end.

Definition getDecodeSplitHeader (l : HeaderList) (name : str) : jsres (option (list str)) :=
  match getHeader l name with
  | None => Ok None
  | Some initialValue =>
      let? values := split_header (S (length initialValue)) initialValue 0 [] [] in Ok (Some values)
  end.

(** ** Iteration *)

Definition set_cookie : str := lit "set-cookie".

(** One round of the loop: [seenHeaders] maps a name to its index in the
    entries; a name that [Object.prototype] has looks as if it had been seen,
    and reading the entry at that index throws. *)
Definition combine_step (st : gmap str nat * HeaderList) (entry : str * str) : jsres (gmap str nat * HeaderList) :=
  let '(seenHeaders, entries) := st in
  let name := byteLowerCase toLowerCase entry.1 in
  let value := entry.2 in
  if str_eqb name set_cookie then Ok (seenHeaders, entries ++ [(name, value)])
  else
    match seenHeaders !! name with
    | Some i =>
        match entries !! i with
        | Some (_, entryValue) =>
            let v := if 0 <? slen entryValue then entryValue ++ lit ", " ++ value else value in
            Ok (seenHeaders, alter (fun e => (e.1, v)) i entries)
        | None => Throw (JsTypeError "Cannot read properties of undefined")
        end
    | None =>
        if inherited name then Throw (JsTypeError "Cannot read properties of undefined")
        else Ok (<[name := length entries]> seenHeaders, entries ++ [(name, value)])
    end.

Fixpoint combine_loop (l : HeaderList) (st : gmap str nat * HeaderList) : jsres HeaderList :=
  match l with
  | [] => Ok st.2
  | e :: l => let? st := combine_step st e in combine_loop l st
  end.

(** [Array.prototype.sort] is stable: an element goes behind the ones that are
    not greater. *)
Fixpoint insert_entry (e : str * str) (l : HeaderList) : HeaderList :=
  match l with
  | [] => [e]
  | x :: l' => if str_lt e.1 x.1 then e :: l else x :: insert_entry e l'
  end.
Definition sort_entries (l : HeaderList) : HeaderList := foldl (fun acc e => insert_entry e acc) [] l.

Definition iterableHeaders : call HeaderList := fun '(c, h) =>
  match iterableHeadersCache h with
  | Some entries =>
      if bool_decide (guard h = immutable) then ((c, h), Ok entries)
      else
        match combine_loop (headerList h) (∅, []) with
        | Ok entries => ((c, mkHeaders (headerList h) (guard h) (Some (sort_entries entries))), Ok (sort_entries entries))
        | Throw e => ((c, h), Throw e)
        end
  | None =>
      match combine_loop (headerList h) (∅, []) with
      | Ok entries => ((c, mkHeaders (headerList h) (guard h) (Some (sort_entries entries))), Ok (sort_entries entries))
      | Throw e => ((c, h), Throw e)
      end
  end.

(** ** Methods *)

(** [converters.ByteString] on a string. *)
Definition ByteString (s : str) : jsres str :=
  if forallb (fun c => c <=? 255) s then Ok s else Throw (JsTypeError "is not a valid ByteString").

Definition with_bytes {A} (s : str) (k : str -> call A) : call A := fun st =>
  match ByteString s with Ok s => k s st | Throw e => (st, Throw e) end.

Definition headers_append (name value : str) : call unit :=
  with_bytes name (fun name => with_bytes value (fun value => appendHeader name value)).

Definition headers_delete (name : str) : call unit := with_bytes name (fun name '(c, h) =>
  let (c, ok) := checkHeaderNameForHttpTokenCodePoint c name in
  if negb ok then ((c, h), Throw invalid_name)
  else if bool_decide (guard h = immutable) then ((c, h), Throw is_immutable)
  else ((c, set_list (filter (fun x => same_name name x = false) (headerList h)) h), Ok tt)).

Definition headers_get (name : str) : call (option str) := with_bytes name (fun name '(c, h) =>
  let (c, ok) := checkHeaderNameForHttpTokenCodePoint c name in
  if negb ok then ((c, h), Throw invalid_name) else ((c, h), Ok (getHeader (headerList h) name))).

Definition headers_getSetCookie : call (list str) := fun '(c, h) =>
  ((c, h), Ok (filter (fun x => str_eqb (byteLowerCase toLowerCase x.1) set_cookie = true) (headerList h)).*2).

Definition headers_has (name : str) : call bool := with_bytes name (fun name '(c, h) =>
  let (c, ok) := checkHeaderNameForHttpTokenCodePoint c name in
  if negb ok then ((c, h), Throw invalid_name) else ((c, h), Ok (existsb (same_name name) (headerList h)))).

(** The loop of [set]: the first entry of the name gets the value, the others
    are removed. *)
Fixpoint set_loop (name value : str) (added : bool) (l : HeaderList) : HeaderList * bool :=
  match l with
  | [] => ([], added)
  | x :: l =>
      if same_name name x then
        if added then set_loop name value added l
        else let (l, a) := set_loop name value true l in ((x.1, value) :: l, a)
      else let (l, a) := set_loop name value added l in (x :: l, a)
  end.

Definition headers_set (name value : str) : call unit :=
  with_bytes name (fun name => with_bytes value (fun value '(c, h) =>
    let value := normalizeHeaderValue value in
    let (c, ok) := checkHeaderNameForHttpTokenCodePoint c name in
    if negb ok then ((c, h), Throw invalid_name)
    else if negb (checkForInvalidValueChars value) then ((c, h), Throw invalid_value)
    else if bool_decide (guard h = immutable) then ((c, h), Throw is_immutable)
    else
      let (l, added) := set_loop name value false (headerList h) in
      ((c, set_list (if added then l else l ++ [(name, value)]) h), Ok tt))).
End Headers.

(** ** Examples *)

Section Examples.
Let low := map ascii_lower.

Example append_combines :
  (headers_get low (fun _ => false) (lit "ACCEPT")
    (foldl (fun s '(n, v) => (headers_append low (fun _ => false) (lit n) (lit v) s).1) (empty_cache, mkHeaders [] none None)
      [("Accept", " a "); ("accept", "b")]%string)).2 = Ok (Some (lit "a, b")).
Proof. by vm_compute. Qed.

(** A header named [constructor] breaks iteration. *)
Lemma constructor_breaks_iteration :
  (iterableHeaders low (fun k => str_eqb k (lit "constructor")) (empty_cache, mkHeaders [(lit "constructor", lit "x")] none None)).2 =
  Throw (JsTypeError "Cannot read properties of undefined").
Proof. by vm_compute. Qed.

(** With an empty first value, iteration and [get] differ. *)
Lemma empty_value_differs :
  let l := [(lit "a", []); (lit "a", lit "b")] in
  getHeader low l (lit "a") = Some (lit ", b") /\
  (iterableHeaders low (fun _ => false) (empty_cache, mkHeaders l none None)).2 = Ok [(lit "a", lit "b")].
Proof. by vm_compute. Qed.

(** The code unit after a quoted string is taken twice. *)
Lemma split_repeats_unit :
  getDecodeSplitHeader low [(lit "x", [QUOTE; 97; QUOTE; 98])] (lit "x") = Ok (Some [[QUOTE; 97; QUOTE; 98; 98]]).
Proof. by vm_compute. Qed.

(** A value with a line break inside and white space around it is replaced by
    the empty string, where without the white space it is rejected. *)
Lemma trim_hides_line_break :
  (headers_append low (fun _ => false) (lit "x") [32; 97; 10; 98] (empty_cache, mkHeaders [] none None)) =
    ((mkCache {[lit "x" := true]} 1, mkHeaders [(lit "x", [])] none None), Ok tt) /\
  (headers_append low (fun _ => false) (lit "x") [97; 10; 98] (empty_cache, mkHeaders [] none None)).2 = Throw invalid_value.
Proof. by vm_compute. Qed.
End Examples.
