(* ===== verification/HeadersTheorems.v ===== *)
(** * Headers: theorems

    A [Headers] object is a case-insensitive multimap: every sequence of calls
    returns and throws what the same calls on a map from lower-case names to
    lists of values do.  Iteration gives the sorted names, each once with its
    values combined, and every [set-cookie] on its own. *)

From Stdlib Require Import ZArith Lia Sorted.
From stdpp Require Import base list gmap numbers option strings.
From S2P Require Import Prelude Infra Headers.

#[local] Open Scope Z_scope.

(** ** The multimap *)

Abbreviation multimap := (gmap str (list str)).

Inductive hop :=
  | OpAppend (name value : str)
  | OpDelete (name : str)
  | OpGet (name : str)
  | OpGetSetCookie
  | OpHas (name : str)
  | OpSet (name value : str).

Inductive hout :=
  | ODone
  | OValue (v : option str)
  | OValues (vs : list str)
  | OFound (b : bool).

Definition out {A} (f : A -> hout) (r : jsres A) : jsres hout := let? a := r in Ok (f a).

(** The values of a name. *)
Definition values (m : multimap) (k : str) : list str := default [] (m !! k).

Section Spec.
Context (toLowerCase : str -> str) (inherited : str -> bool).

(** The checks every operation starts with. *)
Definition check_name (name : str) (k : jsres hout * multimap) (m : multimap) : jsres hout * multimap :=
  if negb (forallb (fun c => c <=? 255) name) then (Throw (JsTypeError "is not a valid ByteString"), m)
  else if negb (token name) then (Throw invalid_name, m)
  else k.

Definition spec_write (name value : str) (g : guard_) (new : list str -> list str) (m : multimap) : jsres hout * multimap :=
  if negb (forallb (fun c => c <=? 255) name) || negb (forallb (fun c => c <=? 255) value)
  then (Throw (JsTypeError "is not a valid ByteString"), m)
  else if negb (token name) then (Throw invalid_name, m)
  else if negb (checkForInvalidValueChars (httpTrim value)) then (Throw invalid_value, m)
  else if bool_decide (g = immutable) then (Throw is_immutable, m)
  else (Ok ODone, <[toLowerCase name := new (values m (toLowerCase name))]> m).

Definition spec_op (g : guard_) (o : hop) (m : multimap) : jsres hout * multimap :=
  match o with
  | OpAppend name value => spec_write name value g (fun vs => vs ++ [httpTrim value]) m
  | OpSet name value => spec_write name value g (fun _ => [httpTrim value]) m
  | OpDelete name =>
      check_name name
        (if bool_decide (g = immutable) then (Throw is_immutable, m) else (Ok ODone, delete (toLowerCase name) m)) m
  | OpGet name => check_name name (Ok (OValue (js_join (lit ", ") <$> m !! toLowerCase name)), m) m
  | OpGetSetCookie => (Ok (OValues (values m set_cookie)), m)
  | OpHas name => check_name name (Ok (OFound (bool_decide (is_Some (m !! toLowerCase name)))), m) m
  end.

Fixpoint spec_run (g : guard_) (ops : list hop) (m : multimap) : list (jsres hout) :=
  match ops with
  | [] => []
  | o :: ops => let (r, m') := spec_op g o m in r :: spec_run g ops m'
  end.

(** The calls of the implementation. *)
Definition op_call (o : hop) : call hout := fun s =>
  match o with
  | OpAppend name value => let (s, r) := headers_append toLowerCase inherited name value s in (s, out (fun _ => ODone) r)
  | OpDelete name => let (s, r) := headers_delete toLowerCase inherited name s in (s, out (fun _ => ODone) r)
  | OpGet name => let (s, r) := headers_get toLowerCase inherited name s in (s, out OValue r)
  | OpGetSetCookie => let (s, r) := headers_getSetCookie toLowerCase s in (s, out OValues r)
  | OpHas name => let (s, r) := headers_has toLowerCase inherited name s in (s, out OFound r)
  | OpSet name value => let (s, r) := headers_set toLowerCase inherited name value s in (s, out (fun _ => ODone) r)
  end.

Fixpoint run_calls (ops : list hop) (s : name_cache * Headers) : list (jsres hout) :=
  match ops with
  | [] => []
  | o :: ops => let (s, r) := op_call o s in r :: run_calls ops s
  end.

(** ** The map a header list stands for *)

Definition vals (l : HeaderList) (k : str) : list str := (filter (fun h => toLowerCase h.1 = k) l).*2.

Definition represents (l : HeaderList) (m : multimap) : Prop :=
  forall k, m !! k = match vals l k with [] => None | vs => Some vs end.

Lemma vals_app l l' k : vals (l ++ l') k = vals l k ++ vals l' k.
Proof. unfold vals. by rewrite filter_app, fmap_app. Qed.

Lemma vals_cons n v l k : vals ((n, v) :: l) k = if bool_decide (toLowerCase n = k) then v :: vals l k else vals l k.
Proof. unfold vals. rewrite filter_cons. simpl. case_bool_decide; [by rewrite decide_True|by rewrite decide_False]. Qed.

Lemma represents_values l m k : represents l m -> values m k = vals l k.
Proof. intros H. unfold values. rewrite H. by destruct (vals l k). Qed.

(** Changing the values of one name. *)
Lemma represents_insert l l' m k vs : represents l m -> vs <> [] -> vals l' k = vs ->
  (forall k', k' <> k -> vals l' k' = vals l k') -> represents l' (<[k := vs]> m).
Proof.
  intros Hr Hne Hk Ho k'. destruct (decide (k = k')) as [<-|Hn].
  - rewrite lookup_insert_eq, Hk. by destruct vs.
  - by rewrite lookup_insert_ne, Ho.
Qed.

(** ** The operations *)

(** The cache remembers the truth. *)
Definition cache_ok (c : name_cache) : Prop := map_Forall (fun n b => b = token n) (entries c).

Hypothesis inherited_token : forall n, inherited n = true -> token n = true.

Lemma check_name_spec c name : cache_ok c ->
  exists c', checkHeaderNameForHttpTokenCodePoint inherited c name = (c', token name) /\ cache_ok c'.
Proof.
  intros Hc. unfold checkHeaderNameForHttpTokenCodePoint. destruct (entries c !! name) as [b|] eqn:E.
  - exists c. by rewrite (Hc _ _ E).
  - destruct (inherited name) eqn:Ei; [exists c; by rewrite inherited_token|].
    eexists. split; [done|]. apply map_Forall_insert_2; [done|]. by destruct (_ <? _).
Qed.

Lemma same_name_spec name h : same_name toLowerCase name h = true <-> toLowerCase h.1 = toLowerCase name.
Proof. unfold same_name, str_eqb, byteLowerCase. apply bool_decide_eq_true. Qed.

Lemma vals_same name l : vals l (toLowerCase name) = (filter (fun h => same_name toLowerCase name h = true) l).*2.
Proof. unfold vals. f_equal. apply list_filter_iff. intros h. symmetry. apply same_name_spec. Qed.

Lemma getHeader_spec l m name : represents l m -> getHeader toLowerCase l name = js_join (lit ", ") <$> m !! toLowerCase name.
Proof.
  intros Hr. unfold getHeader. rewrite <-vals_same, Hr. destruct (vals l (toLowerCase name)) as [|v vs]; [done|]. done.
Qed.

Lemma has_spec l m name : represents l m -> existsb (same_name toLowerCase name) l = bool_decide (is_Some (m !! toLowerCase name)).
Proof.
  intros Hr. rewrite Hr, vals_same. clear Hr. induction l as [|h l IH]; [done|]. cbn [existsb]. rewrite filter_cons, IH.
  destruct (same_name toLowerCase name h) eqn:E; [rewrite decide_True by done|rewrite decide_False by done; done].
  symmetry. apply bool_decide_eq_true. by eexists.
Qed.

Lemma append_vals l name : let n := match find (same_name toLowerCase name) l with Some x => x.1 | None => name end in
  toLowerCase n = toLowerCase name.
Proof.
  simpl. destruct (find _ l) as [x|] eqn:E; [|done]. apply find_some in E as [_ E]. by apply same_name_spec.
Qed.

Lemma set_loop_added name value l : exists l', set_loop toLowerCase name value true l = (l', true) /\
  forall k, vals l' k = if bool_decide (k = toLowerCase name) then [] else vals l k.
Proof.
  induction l as [|[n v] l IH]; [exists []; split; [done|]; intros k; by case_bool_decide|].
  destruct IH as (l' & E & Hv). cbn [set_loop]. destruct (same_name toLowerCase name (n, v)) eqn:Es; rewrite E.
  - exists l'. split; [done|]. intros k. rewrite Hv, vals_cons. apply same_name_spec in Es. simpl in Es.
    repeat case_bool_decide; congruence.
  - exists ((n, v) :: l'). split; [done|]. intros k. rewrite !vals_cons, Hv.
    assert (Hne : toLowerCase n <> toLowerCase name) by (intros X; by rewrite (proj2 (same_name_spec name (n, v)) X) in Es).
    repeat case_bool_decide; congruence.
Qed.

Lemma set_loop_spec name value l : exists l' a, set_loop toLowerCase name value false l = (l', a) /\
  (forall k, k <> toLowerCase name -> vals l' k = vals l k) /\
  vals l' (toLowerCase name) = (if a then [value] else []) /\ (a = false -> vals l (toLowerCase name) = []).
Proof.
  induction l as [|[n v] l IH]; [by exists [], false|]. cbn [set_loop].
  destruct (same_name toLowerCase name (n, v)) eqn:Es.
  - destruct (set_loop_added name value l) as (l' & E & Hv). rewrite E. apply same_name_spec in Es. simpl in Es.
    exists ((n, value) :: l'), true. split; [done|]. split; [|split; [|done]].
    + intros k Hk. rewrite !vals_cons, Hv. repeat case_bool_decide; congruence.
    + rewrite vals_cons, Hv. rewrite !bool_decide_eq_true_2 by done. done.
  - destruct IH as (l' & a & E & Ho & Hk & Hn). rewrite E.
    assert (Hne : toLowerCase n <> toLowerCase name) by (intros X; by rewrite (proj2 (same_name_spec name (n, v)) X) in Es).
    exists ((n, v) :: l'), a. split; [done|]. split; [|split].
    + intros k Hkn. rewrite !vals_cons, Ho by done. done.
    + rewrite vals_cons, Hk. by rewrite bool_decide_eq_false_2.
    + intros Ha. rewrite vals_cons, Hn by done. by rewrite bool_decide_eq_false_2.
Qed.

Lemma delete_vals name l k : vals (filter (fun x => same_name toLowerCase name x = false) l) k =
  if bool_decide (k = toLowerCase name) then [] else vals l k.
Proof.
  induction l as [|[n v] l IH]; [by case_bool_decide|]. rewrite filter_cons.
  destruct (same_name toLowerCase name (n, v)) eqn:Es.
  - rewrite decide_False by done. rewrite IH, vals_cons. apply same_name_spec in Es. simpl in Es. repeat case_bool_decide; congruence.
  - rewrite decide_True by done. rewrite !vals_cons, IH.
    assert (Hne : toLowerCase n <> toLowerCase name) by (intros X; by rewrite (proj2 (same_name_spec name (n, v)) X) in Es).
    repeat case_bool_decide; congruence.
Qed.

(** ** One call *)

Definition agrees (s : name_cache * Headers) (m : multimap) : Prop := cache_ok s.1 /\ represents (headerList s.2) m.

Lemma write_spec name value g new m (k : str -> str -> call unit) s : guard s.2 = g -> agrees s m ->
  (forall c h, cache_ok c -> represents (headerList h) m -> guard h = g -> exists c', cache_ok c' /\
     k name value (c, h) = (if negb (token name) then ((c', h), Throw invalid_name)
       else if negb (checkForInvalidValueChars (httpTrim value)) then ((c', h), Throw invalid_value)
       else if bool_decide (g = immutable) then ((c', h), Throw is_immutable)
       else ((c', set_list (new (headerList h)) h), Ok tt))) ->
  forall vs, (token name = true -> represents (new (headerList s.2)) (<[toLowerCase name := vs (values m (toLowerCase name))]> m)) ->
  exists s' r, with_bytes name (fun name => with_bytes value (fun value => k name value)) s = (s', r) /\
    out (fun _ => ODone) r = (spec_write name value g vs m).1 /\ agrees s' (spec_write name value g vs m).2 /\ guard s'.2 = g.
Proof.
  intros Hg [Hc Hr] Hk vs Hnew. destruct s as [c h]. simpl in *. unfold with_bytes, ByteString, spec_write.
  destruct (forallb (fun c => c <=? 255) name); [|by exists (c, h), (Throw (JsTypeError "is not a valid ByteString"))].
  destruct (forallb (fun c => c <=? 255) value); [|by exists (c, h), (Throw (JsTypeError "is not a valid ByteString"))].
  destruct (Hk c h Hc Hr Hg) as (c' & Hc' & ->). simpl.
  destruct (token name); simpl; [|by exists (c', h), (Throw invalid_name)].
  destruct (checkForInvalidValueChars (httpTrim value)); simpl; [|by exists (c', h), (Throw invalid_value)].
  case_bool_decide; [by exists (c', h), (Throw is_immutable)|].
  eexists _, _. split; [done|]. split; [done|]. split; [|done]. split; [done|]. by apply Hnew.
Qed.

Lemma append_spec name value s m : agrees s m ->
  exists s' r, headers_append toLowerCase inherited name value s = (s', r) /\
    out (fun _ => ODone) r = (spec_op (guard s.2) (OpAppend name value) m).1 /\
    agrees s' (spec_op (guard s.2) (OpAppend name value) m).2 /\ guard s'.2 = guard s.2.
Proof.
  intros Hs. unfold headers_append, spec_op.
  eapply (write_spec name value (guard s.2)
    (fun l => l ++ [(match find (same_name toLowerCase name) l with Some x => x.1 | None => name end, httpTrim value)])); [done|done| |].
  - intros c h Hc Hr Hg. destruct (check_name_spec c name Hc) as (c' & E & Hc'). exists c'. split; [done|].
    unfold appendHeader, normalizeHeaderValue. rewrite E, Hg. done.
  - intros _. destruct Hs as [_ Hr]. pose proof (append_vals (headerList s.2) name) as Hn. cbv zeta in Hn.
    eapply represents_insert; [exact Hr|by destruct (values m (toLowerCase name))| |].
    + rewrite vals_app, vals_cons, Hn, bool_decide_eq_true_2 by done. by rewrite (represents_values _ _ _ Hr).
    + intros k Hk. rewrite vals_app, vals_cons, Hn, bool_decide_eq_false_2 by congruence. by rewrite app_nil_r.
Qed.

Lemma set_spec name value s m : agrees s m ->
  exists s' r, headers_set toLowerCase inherited name value s = (s', r) /\
    out (fun _ => ODone) r = (spec_op (guard s.2) (OpSet name value) m).1 /\
    agrees s' (spec_op (guard s.2) (OpSet name value) m).2 /\ guard s'.2 = guard s.2.
Proof.
  intros Hs. unfold headers_set, spec_op.
  eapply (write_spec name value (guard s.2)
    (fun l => let (l, added) := set_loop toLowerCase name (httpTrim value) false l in
      if added then l else l ++ [(name, httpTrim value)])); [done|done| |].
  - intros c h Hc Hr Hg. destruct (check_name_spec c name Hc) as (c' & E & Hc'). exists c'. split; [done|].
    unfold normalizeHeaderValue. rewrite E, Hg. by destruct (set_loop toLowerCase name (httpTrim value) false (headerList h)).
  - intros _. destruct Hs as [_ Hr]. destruct (set_loop_spec name (httpTrim value) (headerList s.2)) as (l' & a & E & Ho & Hk & Hn).
    rewrite E. eapply represents_insert; [exact Hr|done| |]; destruct a.
    + done.
    + rewrite vals_app, vals_cons, Hk, bool_decide_eq_true_2 by done. done.
    + done.
    + intros k Hkn. rewrite vals_app, vals_cons, bool_decide_eq_false_2 by congruence. rewrite app_nil_r. by apply Ho.
Qed.

(** The operations that only name a header. *)
Lemma named_spec {A} (name : str) (f : A -> hout) (k : str -> call A) (s : name_cache * Headers) (m : multimap) (r : jsres hout * multimap) : agrees s m ->
  (forall c, cache_ok c -> exists s' r', k name (c, s.2) = (s', r') /\ out f r' = r.1 /\ agrees s' r.2 /\ guard s'.2 = guard s.2) ->
  exists s' r', with_bytes name (fun name '(c, h) =>
      let (c, ok) := checkHeaderNameForHttpTokenCodePoint inherited c name in
      if negb ok then ((c, h), Throw invalid_name) else k name (c, h)) s = (s', r') /\
    out f r' = (check_name name r m).1 /\ agrees s' (check_name name r m).2 /\ guard s'.2 = guard s.2.
Proof.
  intros [Hc Hr] Hk. destruct s as [c h]. unfold with_bytes, ByteString, check_name. simpl in *.
  destruct (forallb (fun c => c <=? 255) name); [|by exists (c, h), (Throw (JsTypeError "is not a valid ByteString"))].
  destruct (check_name_spec c name Hc) as (c' & -> & Hc'). simpl.
  destruct (token name); simpl; [by apply Hk|by exists (c', h), (Throw invalid_name)].
Qed.

Lemma op_spec o s m : agrees s m ->
  exists s' r, op_call o s = (s', r) /\ r = (spec_op (guard s.2) o m).1 /\
    agrees s' (spec_op (guard s.2) o m).2 /\ guard s'.2 = guard s.2.
Proof.
  intros Hs. pose proof Hs as [Hc Hr].
  assert (Hlift : forall A (f : A -> hout) (x : (name_cache * Headers) * jsres A) (r : jsres hout * multimap),
    (exists s' r', x = (s', r') /\ out f r' = r.1 /\ agrees s' r.2 /\ guard s'.2 = guard s.2) ->
    exists s' r', (let (s, r) := x in (s, out f r)) = (s', r') /\ r' = r.1 /\ agrees s' r.2 /\ guard s'.2 = guard s.2).
  { intros A f x r (s' & r' & -> & H1 & H2 & H3). by exists s', (out f r'). }
  destruct o as [name value|name|name| |name|name value]; cbn [op_call]; apply Hlift.
  - by apply append_spec.
  - apply (named_spec name (fun _ => ODone) (fun name '(c, h) =>
      if bool_decide (guard h = immutable) then ((c, h), Throw is_immutable)
      else ((c, set_list (filter (fun x => same_name toLowerCase name x = false) (headerList h)) h), Ok tt))); [done|].
    intros c Hc'. simpl. destruct s as [c0 h]. simpl in *. case_bool_decide as Hg.
    + rewrite Hg. by exists (c, h), (Throw is_immutable).
    + eexists _, _. split; [done|]. split; [done|]. split; [|done]. split; [done|].
      intros k. simpl. rewrite delete_vals. case_bool_decide as Hk; [subst; by rewrite lookup_delete_eq|].
      by rewrite lookup_delete_ne, Hr by congruence.
  - apply (named_spec name OValue (fun name '(c, h) => ((c, h), Ok (getHeader toLowerCase (headerList h) name)))); [done|].
    intros c Hc'. eexists _, _. split; [done|]. split; [|done]. simpl. by rewrite (getHeader_spec _ m).
  - destruct s as [c h]. eexists _, _. split; [done|]. simpl. split; [|done]. rewrite (represents_values _ _ _ Hr).
    unfold vals. do 3 f_equal. apply list_filter_iff. intros x. unfold str_eqb, byteLowerCase. by rewrite bool_decide_eq_true.
  - apply (named_spec name OFound (fun name '(c, h) => ((c, h), Ok (existsb (same_name toLowerCase name) (headerList h))))); [done|].
    intros c Hc'. eexists _, _. split; [done|]. split; [|done]. simpl. by rewrite (has_spec _ m).
  - by apply set_spec.
Qed.

Lemma run_spec ops s m : agrees s m -> run_calls ops s = spec_run (guard s.2) ops m.
Proof.
  revert s m. induction ops as [|o ops IH]; intros s m Hs; [done|]. simpl.
  destruct (op_spec o s m Hs) as (s' & r & -> & -> & Hs' & Hg). rewrite (IH s' _ Hs'), Hg. by destruct (spec_op (guard s.2) o m).
Qed.
End Spec.

(** ** Iteration *)

Section Order.
Lemma str_lt_irrefl a : str_lt a a = false.
Proof. induction a as [|x a IH]; [done|]. simpl. by rewrite Z.ltb_irrefl, Z.eqb_refl, IH. Qed.

Lemma str_lt_trans a b c : str_lt a b = true -> str_lt b c = true -> str_lt a c = true.
Proof.
  revert b c. induction a as [|x a IH]; intros [|y b] [|z c]; simpl; try done.
  rewrite !orb_true_iff, !andb_true_iff, !Z.ltb_lt, !Z.eqb_eq. intros [H1|[-> H1]] [H2|[-> H2]]; [left; lia..|].
  right. split; [done|]. by apply (IH b).
Qed.

Lemma str_lt_total a b : str_lt a b = false -> str_lt b a = false -> a = b.
Proof.
  revert b. induction a as [|x a IH]; intros [|y b]; simpl; try done.
  rewrite !orb_false_iff, !andb_false_iff, !Z.ltb_ge, !Z.eqb_neq. intros [H1 H2] [H3 H4].
  assert (x = y) as -> by lia. destruct H2 as [|H2], H4 as [|H4]; try done. f_equal. by apply IH.
Qed.

(** An entry may stand before another. *)
Definition entry_le (a b : str * str) : Prop := str_lt b.1 a.1 = false.

Lemma lt_le_trans a b c : str_lt a b = true -> str_lt c b = false -> str_lt a c = true.
Proof.
  intros H1 H2. destruct (str_lt b c) eqn:E; [by eapply str_lt_trans|]. by rewrite (str_lt_total c b H2 E).
Qed.
End Order.

(** The values of a name among the entries. *)
Definition evals (es : HeaderList) (k : str) : list str := (filter (fun e => e.1 = k) es).*2.

Lemma evals_app l l' k : evals (l ++ l') k = evals l k ++ evals l' k.
Proof. unfold evals. by rewrite filter_app, fmap_app. Qed.

Lemma evals_cons n v l k : evals ((n, v) :: l) k = if bool_decide (n = k) then v :: evals l k else evals l k.
Proof. unfold evals. rewrite filter_cons. simpl. case_bool_decide; [by rewrite decide_True|by rewrite decide_False]. Qed.

Lemma evals_none l k : Forall (fun e => e.1 <> k) l -> evals l k = [].
Proof.
  induction 1 as [|[n v] l Hn Hl IH]; [done|]. rewrite evals_cons, IH. simpl in Hn. by rewrite bool_decide_eq_false_2.
Qed.

(** Sorting keeps the order of entries with the same name. *)
Lemma insert_entry_spec e l : StronglySorted entry_le l ->
  StronglySorted entry_le (insert_entry e l) /\ forall k, evals (insert_entry e l) k = evals l k ++ evals [e] k.
Proof.
  induction 1 as [|x l Hl IH Hx]; [by split; [repeat constructor|]|]. destruct IH as [IH1 IH2]. cbn [insert_entry].
  destruct (str_lt e.1 x.1) eqn:E.
  - assert (Hall : Forall (fun y => str_lt e.1 y.1 = true) (x :: l)).
    { constructor; [done|]. eapply Forall_impl; [exact Hx|]. intros y Hy. by apply (lt_le_trans _ x.1). }
    split.
    + constructor; [by constructor|]. eapply Forall_impl; [exact Hall|]. intros y Hy. unfold entry_le.
      destruct (str_lt y.1 e.1) eqn:E2; [|done]. pose proof (str_lt_trans _ _ _ Hy E2) as X. by rewrite str_lt_irrefl in X.
    + intros k. destruct e as [n v]. rewrite !evals_cons. destruct (decide (n = k)) as [<-|Hn].
      * rewrite (bool_decide_eq_true_2 (n = n)) by done. rewrite (evals_none (x :: l)); [done|].
        eapply Forall_impl; [exact Hall|]. intros y Hy X. simpl in Hy. by rewrite X, str_lt_irrefl in Hy.
      * rewrite bool_decide_eq_false_2 by done. by rewrite app_nil_r.
  - split.
    + constructor; [done|]. apply Forall_forall. intros y Hy.
      assert (Hin : y = e \/ y ∈ l).
      { clear -Hy. induction l as [|z l IH]; cbn [insert_entry] in Hy; [apply list_elem_of_singleton in Hy; by left|].
        destruct (str_lt e.1 z.1); rewrite !elem_of_cons in *; [tauto|]. destruct Hy as [->|Hy]; [by right; left|].
        destruct (IH Hy); tauto. }
      destruct Hin as [->|Hin]; [done|]. rewrite Forall_forall in Hx. by apply Hx.
    + intros k. destruct x as [n v]. rewrite !evals_cons, IH2. by case_bool_decide.
Qed.

Lemma sort_entries_spec l : StronglySorted entry_le (sort_entries l) /\ forall k, evals (sort_entries l) k = evals l k.
Proof.
  unfold sort_entries.
  assert (H : forall acc, StronglySorted entry_le acc ->
    StronglySorted entry_le (foldl (fun acc e => insert_entry e acc) acc l) /\
    forall k, evals (foldl (fun acc e => insert_entry e acc) acc l) k = evals acc k ++ evals l k).
  { induction l as [|e l IH]; intros acc Ha; cbn [foldl]; [split; [done|]; intros k; by rewrite app_nil_r|].
    destruct (insert_entry_spec e acc Ha) as [H1 H2]. destruct (IH _ H1) as [H3 H4]. split; [done|].
    intros k. rewrite H4, H2. rewrite <-app_assoc. by rewrite <-evals_app. }
  destruct (H [] ltac:(constructor)) as [H1 H2]. split; [done|]. intros k. by rewrite H2.
Qed.

(** How iteration combines the values of a name. *)
Definition combine (a v : str) : str := if 0 <? slen a then a ++ lit ", " ++ v else v.
Definition combined (vs : list str) : list str :=
  match vs with [] => [] | v :: vs => [foldl combine v vs] end.

Lemma combined_snoc vs v : combined (vs ++ [v]) = match combined vs with [] => [v] | a :: _ => [combine a v] end.
Proof. destruct vs as [|w vs]; [done|]. simpl. by rewrite foldl_app. Qed.

(** The same as [get] when no value is empty. *)
Lemma combined_join vs : vs <> [] -> Forall (fun v => v <> []) vs -> combined vs = [js_join (lit ", ") vs].
Proof.
  intros Hne HF. destruct vs as [|v vs]; [done|]. cbn [combined]. f_equal. clear Hne.
  induction vs as [|w vs IH] using rev_ind; [done|].
  rewrite app_comm_cons in HF. apply Forall_app in HF as [HF _]. rewrite foldl_app, IH by done. cbn [foldl].
  rewrite app_comm_cons, js_join_snoc by done. unfold combine.
  rewrite (proj2 (Z.ltb_lt 0 _)); [done|]. apply Forall_cons in HF as [Hv _].
  destruct v as [|c v]; [done|]. destruct vs; simpl; rewrite slen_cons; slen_pos; lia.
Qed.

Lemma evals_alter es i k v v' : es !! i = Some (k, v) -> exists a b, evals es k = a ++ v :: b /\
  forall k', evals (alter (fun e => (e.1, v')) i es) k' = if bool_decide (k' = k) then a ++ v' :: b else evals es k'.
Proof.
  revert i. induction es as [|[n w] es IH]; intros [|i] H; simpl in H; try done.
  - injection H as -> ->. exists [], (evals es k). split; [by rewrite evals_cons, bool_decide_eq_true_2|].
    intros k'. change (alter _ 0%nat ((k, v) :: es)) with ((k, v') :: es). rewrite !evals_cons. repeat case_bool_decide; simpl; congruence.
  - destruct (IH i H) as (a & b & E & Hk). rewrite evals_cons.
    destruct (decide (n = k)) as [->|Hn].
    + exists (w :: a), b. rewrite bool_decide_eq_true_2, E by done. split; [done|].
      intros k'. change (alter _ (S i) ((k, w) :: es)) with ((k, w) :: alter (fun e : str * str => (e.1, v')) i es).
      rewrite !evals_cons, Hk. repeat case_bool_decide; simpl; congruence.
    + exists a, b. rewrite bool_decide_eq_false_2 by done. split; [done|].
      intros k'. change (alter _ (S i) ((n, w) :: es)) with ((n, w) :: alter (fun e : str * str => (e.1, v')) i es).
      rewrite !evals_cons, Hk. repeat case_bool_decide; simpl; congruence.
Qed.

Section Iteration.
Context (toLowerCase : str -> str) (inherited : str -> bool).

(** What the loop knows after the headers [p]. *)
Record combining (p : HeaderList) (seen : gmap str nat) (es : HeaderList) : Prop := {
  cb_vals : forall k, evals es k = if bool_decide (k = set_cookie) then vals toLowerCase p k else combined (vals toLowerCase p k);
  cb_seen : forall k i, seen !! k = Some i -> exists v, es !! i = Some (k, v);
  cb_unseen : forall k, k <> set_cookie -> seen !! k = None -> vals toLowerCase p k = [];
}.

Lemma combine_step_spec p seen es n v : combining p seen es -> inherited (toLowerCase n) = false ->
  exists seen' es', combine_step toLowerCase inherited (seen, es) (n, v) = Ok (seen', es') /\ combining (p ++ [(n, v)]) seen' es'.
Proof.
  intros [H1 H2 H3] Hi. unfold combine_step, byteLowerCase. cbn [fst snd]. set (k := toLowerCase n) in *. unfold str_eqb.
  assert (Hv : forall k', vals toLowerCase (p ++ [(n, v)]) k' = vals toLowerCase p k' ++ if bool_decide (k = k') then [v] else []).
  { intros k'. rewrite vals_app, vals_cons. done. }
  assert (Hkeep : forall x k' i, seen !! k' = Some i -> exists w, (es ++ [x]) !! i = Some (k', w)).
  { intros x k' i Hs. destruct (H2 k' i Hs) as [w Hw]. exists w. by apply lookup_app_l_Some. }
  case_bool_decide as Hsc.
  - eexists _, _. split; [done|]. split.
    + intros k'. rewrite evals_app, evals_cons, H1, Hv. repeat case_bool_decide; subst; simplify_eq; rewrite ?app_nil_r; try done.
    + by apply Hkeep.
    + intros k' Hk' Hs. rewrite Hv, (H3 k' Hk' Hs), bool_decide_eq_false_2 by congruence. done.
  - destruct (seen !! k) as [i|] eqn:Es.
    + destruct (H2 k i Es) as [w Hw]. rewrite Hw. eexists _, _. split; [done|].
      destruct (evals_alter es i k w (if 0 <? slen w then w ++ lit ", " ++ v else v) Hw) as (a & b & Ea & Hb).
      assert (Hc : combined (vals toLowerCase p k) = a ++ w :: b) by (rewrite <-Ea, H1; by rewrite bool_decide_eq_false_2).
      assert (a = [] /\ b = []) as [-> ->].
      { destruct (vals toLowerCase p k); simpl in Hc; [by destruct a|]. destruct a as [|? [|]], b; by simplify_eq. }
      split.
      * intros k'. rewrite Hb, Hv. case_bool_decide as Hk'.
        -- subst k'. rewrite !bool_decide_eq_false_2, bool_decide_eq_true_2 by done. by rewrite combined_snoc, Hc.
        -- rewrite (bool_decide_eq_false_2 (k = k')), app_nil_r by congruence. apply H1.
      * intros k' j Hs. destruct (H2 k' j Hs) as [w' Hw']. destruct (decide (i = j)) as [<-|Hij].
        -- rewrite list_lookup_alter_eq, Hw'. by eexists.
        -- rewrite list_lookup_alter_ne by done. by eexists.
      * intros k' Hk' Hs. assert (k' <> k) by congruence. rewrite Hv, (H3 k' Hk' Hs), bool_decide_eq_false_2 by congruence. done.
    + rewrite Hi. eexists _, _. split; [done|]. pose proof (H3 k Hsc Es) as Hn. split.
      * intros k'. rewrite evals_app, evals_cons, H1, Hv. repeat case_bool_decide; subst; simplify_eq; rewrite ?app_nil_r; try done.
        by rewrite Hn.
      * intros k' j. destruct (decide (k = k')) as [<-|Hk'].
        -- rewrite lookup_insert_eq. intros [= <-]. exists v. by rewrite lookup_app_r, Nat.sub_diag.
        -- rewrite lookup_insert_ne by done. apply Hkeep.
      * intros k' Hk' Hs. assert (k <> k') by (intros <-; by rewrite lookup_insert_eq in Hs). rewrite lookup_insert_ne in Hs by done.
        rewrite Hv, (H3 k' Hk' Hs), bool_decide_eq_false_2 by done. done.
Qed.

Lemma combine_loop_spec l p seen es : combining p seen es -> Forall (fun h => inherited (toLowerCase h.1) = false) l ->
  exists es', combine_loop toLowerCase inherited l (seen, es) = Ok es' /\
    forall k, evals es' k = if bool_decide (k = set_cookie) then vals toLowerCase (p ++ l) k else combined (vals toLowerCase (p ++ l) k).
Proof.
  revert p seen es. induction l as [|[n v] l IH]; intros p seen es Hc HF.
  - exists es. split; [done|]. rewrite app_nil_r. apply Hc.
  - apply Forall_cons in HF as [Hn HF]. destruct (combine_step_spec p seen es n v Hc Hn) as (seen' & es' & E & Hc').
    cbn [combine_loop]. rewrite E. cbn [jsbind]. replace (p ++ (n, v) :: l) with ((p ++ [(n, v)]) ++ l) by by rewrite <-app_assoc.
    by apply (IH _ seen').
Qed.
End Iteration.

(** ** Splitting *)

Definition trimmed (s : str) : str := strip_suffix HTTP_TAB_OR_SPACE (strip_prefix HTTP_TAB_OR_SPACE s).

Definition plain (s : str) : Prop := Forall (fun c => negb (c =? QUOTE) && negb (c =? 44) = true) s.

(** The pieces of a text without quotes, each but the first with the comma
    before it. *)
Definition pieces (v : str) (vs : list str) : str := v ++ flat_map (cons 44) vs.

Lemma split_pieces fuel pre v vs acc : (S (length vs) < fuel)%nat -> Forall plain (v :: vs) -> Forall (fun w => w <> []) vs ->
  (vs = [] -> v <> []) ->
  split_header fuel (pre ++ pieces v vs) (slen pre) [] acc = Ok (acc ++ map trimmed (v :: vs)).
Proof.
  revert pre v vs acc. induction fuel as [|fuel IH]; intros pre v vs acc Hf HF Hne Hlast; [lia|].
  apply Forall_cons in HF as [Hv HF]. cbn [split_header]. destruct vs as [|w vs].
  - unfold pieces. simpl flat_map. rewrite app_nil_r. rewrite (proj2 (Z.ltb_lt _ _)).
    2: { rewrite slen_app. destruct v; [by destruct Hlast|]. rewrite slen_cons. slen_pos. lia. }
    rewrite <-(app_nil_r v) at 1. rewrite collectSequence_spec by done.
    destruct (charCodeAt (pre ++ v) (slen pre + slen v)) eqn:E; [apply charCodeAt_Some in E; rewrite slen_app in E; lia|].
    cbv zeta. destruct fuel as [|fuel]; [simpl in Hf; lia|]. cbn [split_header].
    rewrite (proj2 (Z.ltb_ge _ _)) by (rewrite slen_app; lia). done.
  - change (pieces v (w :: vs)) with (v ++ 44 :: pieces w vs). rewrite (proj2 (Z.ltb_lt _ _)).
    2: { rewrite !slen_app, slen_cons. slen_pos. lia. }
    rewrite collectSequence_spec by done. rewrite app_assoc, charCodeAt_middle by by rewrite slen_app. cbv zeta.
    change (44 =? QUOTE) with false. change (negb (44 =? 44)) with false. cbv iota. rewrite app_nil_l.
    replace ((pre ++ v) ++ 44 :: pieces w vs) with ((pre ++ v ++ [44]) ++ pieces w vs) by by rewrite <-!app_assoc.
    replace (slen pre + slen v + 1) with (slen (pre ++ v ++ [44])) by (rewrite !slen_app, slen_cons, slen_nil; lia).
    simpl in Hf. apply Forall_cons in HF as [Hw HF]. apply Forall_cons in Hne as [Hnw Hne].
    rewrite IH; [by rewrite <-app_assoc|lia|by constructor|done|done].
Qed.

Lemma join_pieces v vs : js_join (lit ", ") (v :: vs) = pieces v (map (cons 32) vs).
Proof.
  revert v. induction vs as [|w vs IH]; intros v; [by unfold pieces; simpl; rewrite app_nil_r|].
  rewrite js_join_cons, IH by done. done.
Qed.

Lemma pieces_length v vs : (length vs <= length (pieces v vs))%nat.
Proof. unfold pieces. rewrite length_app. induction vs; simpl; [lia|]. rewrite length_app. lia. Qed.

(** No input makes the loop throw or go on for ever. *)
Lemma split_header_total fuel input p value values : 0 <= p -> slen input - p < Z.of_nat fuel -> (0 < fuel)%nat ->
  exists vs, split_header fuel input p value values = Ok vs.
Proof.
  revert p value values. induction fuel as [|fuel IH]; intros p value values Hp Hf Hpos; [lia|]. cbn [split_header].
  destruct (Z.ltb_spec p (slen input)) as [H|H]; [|by eexists].
  destruct (collect_general input p (fun c => negb (c =? QUOTE) && negb (c =? 44)) Hp) as (w & E & _ & Hstop).
  rewrite E. pose proof (slen_nonneg w). cbv zeta.
  assert (Hend : forall q v vs, 0 <= q -> slen input <= q \/ p < q -> exists r, split_header fuel input q v vs = Ok r).
  { intros q v vs Hq [Hq'|Hq']; [|apply IH; lia]. destruct fuel; [lia|]. cbn [split_header].
    rewrite (proj2 (Z.ltb_ge _ _)) by done. by eexists. }
  destruct (charCodeAt input (p + slen w)) as [c|] eqn:Ec.
  - pose proof (charCodeAt_Some _ _ _ Ec). destruct (Z.eqb_spec c QUOTE) as [->|Hq].
    + destruct (collectQuoted_total input (p + slen w)) as (v & q & Eq & Hq); [lia|done|].
      unfold collectHttpQuotedString in *. destruct (negb (code_is _ _)); [done|]. destruct (quoted_loop _ _ _ _) as [[v' q']|]; [|done].
      cbn [jsbind] in Eq. injection Eq as -> ->. cbn [jsbind snd fst]. destruct (q <? slen input); apply Hend; lia.
    + destruct (c =? 44) eqn:E44; [|done]. simpl. apply Hend; lia.
  - apply Hend; [lia|]. left. destruct (Z.le_gt_cases (slen input) (p + slen w)); [done|].
    apply charCodeAt_None in Ec. lia.
Qed.

(** ** Theorems *)

(** C19. A [Headers] object is a multimap with case-insensitive names: from an
    empty object, every sequence of calls of append, delete, get, getSetCookie,
    has and set returns and throws exactly what the specification on a map from
    lower-case names to lists of values says, argument checks and the guard
    included; the module's cache of checked names, which is cleared when it is
    full, changes nothing.  The names an object inherits are assumed to be
    tokens, as those of [Object.prototype] are. *)
Theorem headers_multimap (toLowerCase : str -> str) (inherited : str -> bool) (g : guard_) (ops : list hop) :
  (forall n, inherited n = true -> token n = true) ->
  run_calls toLowerCase inherited ops (empty_cache, mkHeaders [] g None) = spec_run toLowerCase g ops ∅.
Proof.
  intros Hi. apply run_spec; [done|]. split; [apply map_Forall_empty|]. intros k. done.
Qed.

Lemma headers_multimap_witness :
  let ops := [OpAppend (lit "Accept") (lit " a "); OpAppend (lit "ACCEPT") (lit "b"); OpGet (lit "accept");
    OpSet (lit "x") (lit "1"); OpDelete (lit "Accept"); OpHas (lit "accept"); OpGet (lit "a b")] in
  (forall n, str_eqb n (lit "constructor") = true -> token n = true) /\
  run_calls (map ascii_lower) (fun n => str_eqb n (lit "constructor")) ops (empty_cache, mkHeaders [] none None) =
  spec_run (map ascii_lower) none ops ∅.
Proof.
  assert (H : forall n, str_eqb n (lit "constructor") = true -> token n = true).
  { intros n E. apply bool_decide_eq_true in E as ->. by vm_compute. }
  split; [exact H|]. apply (headers_multimap (map ascii_lower) (fun n => str_eqb n (lit "constructor")) none). exact H.
Defined.

(** Iterating over headers gives entries sorted by lower-case name; every
    [set-cookie] header is an entry of its own, in order, and every other name is
    there once, with its values joined, which is what [get] returns when none of
    them is empty.  No header may have a name that the plain objects of the code
    inherit. *)
Lemma headers_iteration (toLowerCase : str -> str) (inherited : str -> bool) (c : name_cache) (l : HeaderList) (g : guard_) :
  Forall (fun h => inherited (toLowerCase h.1) = false) l ->
  exists es, (iterableHeaders toLowerCase inherited (c, mkHeaders l g None)).2 = Ok es /\
    StronglySorted entry_le es /\
    evals es set_cookie = vals toLowerCase l set_cookie /\
    forall k, k <> set_cookie ->
      evals es k = combined (vals toLowerCase l k) /\
      (vals toLowerCase l k <> [] -> Forall (fun v => v <> []) (vals toLowerCase l k) ->
       evals es k = [js_join (lit ", ") (vals toLowerCase l k)]).
Proof.
  intros HF. destruct (combine_loop_spec toLowerCase inherited l [] ∅ []) as (es & E & Hv); [|done|].
  { split; [intros k; by case_bool_decide|done|done]. }
  exists (sort_entries es). unfold iterableHeaders. cbn [iterableHeadersCache headerList]. rewrite E.
  destruct (sort_entries_spec es) as [H1 H2]. split; [done|]. split; [done|].
  split; [by rewrite H2, Hv, bool_decide_eq_true_2|]. intros k Hk. rewrite H2, Hv, bool_decide_eq_false_2 by done.
  split; [done|]. apply combined_join.
Qed.

Lemma headers_iteration_witness :
  let l := [(lit "B", lit "2"); (lit "Set-Cookie", lit "x"); (lit "a", lit "1"); (lit "b", lit "3"); (lit "set-cookie", lit "y")] in
  (iterableHeaders (map ascii_lower) (fun _ => false) (empty_cache, mkHeaders l none None)).2 =
    Ok [(lit "a", lit "1"); (lit "b", lit "2, 3"); (lit "set-cookie", lit "x"); (lit "set-cookie", lit "y")] /\
  exists es, (iterableHeaders (map ascii_lower) (fun _ => false) (empty_cache, mkHeaders l none None)).2 = Ok es /\
    StronglySorted entry_le es.
Proof.
  split; [by vm_compute|].
  destruct (headers_iteration (map ascii_lower) (fun _ => false) empty_cache
    [(lit "B", lit "2"); (lit "Set-Cookie", lit "x"); (lit "a", lit "1"); (lit "b", lit "3"); (lit "set-cookie", lit "y")] none)
    as (es & H1 & H2 & _); [by repeat constructor|].
  exists es. exact (conj H1 H2).
Defined.

(** Splitting a combined header gives back the values that were appended:
    when the values of a name have no quotes, no commas and no white space at
    their ends, [getDecodeSplitHeader] returns exactly them, in order; the one
    exception is a single empty value, for which the list is empty. *)
Lemma header_split_join (toLowerCase : str -> str) (l : HeaderList) (name : str) :
  let vs := vals toLowerCase l (toLowerCase name) in
  vs <> [] -> vs <> [[]] -> Forall plain vs -> Forall (fun v => trimmed v = v) vs ->
  getDecodeSplitHeader toLowerCase l name = Ok (Some vs).
Proof.
  intros vs Hne Hne1 Hp Ht. unfold getDecodeSplitHeader, getHeader. rewrite <-vals_same. fold vs.
  rewrite bool_decide_eq_false_2 by done. destruct vs as [|v vs]; [done|]. clear Hne. rewrite join_pieces.
  assert (Hsp : map trimmed (v :: map (cons 32) vs) = v :: vs).
  { apply Forall_cons in Ht as [Hv Ht]. simpl. rewrite Hv. f_equal. clear -Ht. induction Ht as [|w vs Hw Ht IH]; [done|].
    simpl. rewrite IH. f_equal. exact Hw. }
  pose proof (split_pieces (S (length (pieces v (map (cons 32) vs)))) [] v (map (cons 32) vs) []) as H.
  rewrite app_nil_l, slen_nil, Hsp in H. rewrite H; [done| | | |].
  - destruct vs as [|w vs]; [destruct v; [done|]; simpl; lia|]. unfold pieces. rewrite length_app. simpl. rewrite length_app.
    pose proof (pieces_length [] (map (cons 32) vs)) as X. unfold pieces in X. simpl in X. lia.
  - apply Forall_cons in Hp as [Hv Hp]. constructor; [done|]. apply Forall_map. eapply Forall_impl; [exact Hp|].
    intros w Hw. by constructor.
  - apply Forall_map. by apply Forall_true.
  - intros E. destruct vs; [|done]. by intros ->.
Qed.

Lemma header_split_join_witness :
  let l := [(lit "Accept", lit "a b"); (lit "x", lit "y"); (lit "accept", []); (lit "ACCEPT", lit "c")] in
  vals (map ascii_lower) l (lit "accept") = [lit "a b"; []; lit "c"] /\
  getDecodeSplitHeader (map ascii_lower) l (lit "Accept") = Ok (Some [lit "a b"; []; lit "c"]).
Proof.
  split; [by vm_compute|].
  refine (header_split_join (map ascii_lower)
    [(lit "Accept", lit "a b"); (lit "x", lit "y"); (lit "accept", []); (lit "ACCEPT", lit "c")] (lit "Accept") _ _ _ _);
    [by vm_compute|by vm_compute|by repeat constructor|by repeat constructor].
Defined.
