(* ===== verification/WebIdl.v ===== *)
(** * Web IDL: conversions of numbers

    Models the number conversions of [src/ext/webidl/00_webidl.js]:
    [createIntegerConversion] and [createLongLongConversion] with their helpers,
    [float], [double] and their unrestricted forms.

    A number is a [num] of [JsNumber], which has no negative zero; the code here
    tells it apart from zero, so [jnum] adds it.  [Number(V)] and the test for a
    BigInt are parameters: they belong to the engine.  The prefix and context of
    the messages are left out. *)

From Stdlib Require Import ZArith Lia QArith Qround Qabs Setoid.
From stdpp Require Import base numbers option strings.
From S2P Require Import Prelude JsNumber.

#[local] Open Scope Z_scope.

(** ** Numbers with both zeros *)

(** [Num zero] is the positive zero. *)
Inductive jnum := MinusZero | Num (x : num).

Definition value (x : jnum) : num := match x with MinusZero => zero | Num x => x end.

Definition negative (q : Q) : bool := Qnum q <? 0.

(** An integral result; zero has the sign of the operand. *)
Definition signed_Z (neg : bool) (z : Z) : jnum := if (z =? 0) && neg then MinusZero else Num (num_of_Z z).

(** The integer part of a rational. *)
Definition qtrunc (q : Q) : Z := if negative q then - Qfloor (- q) else Qfloor q.

Definition MathTrunc (x : jnum) : jnum :=
  match x with
  | Num (Fin q) => signed_Z (negative q) (qtrunc q)
  | _ => x
  end.

Definition MathFloor (x : jnum) : jnum :=
  match x with
  | Num (Fin q) => Num (num_of_Z (Qfloor q))
  | _ => x
  end.

(** [Math.round] rounds halves up. *)
Definition MathRound (x : jnum) : jnum :=
  match x with
  | Num (Fin q) => signed_Z (negative q) (Qfloor (q + (1 # 2)))
  | _ => x
  end.

Definition is_negative (x : jnum) : bool :=
  match x with
  | MinusZero => true
  | Num (Fin q) => negative q
  | Num (Inf b) => b
  | Num NaN => false
  end.

(** [x % y]: the remainder has the sign of the dividend. *)
Definition js_rem (x y : jnum) : jnum :=
  match value x, value y with
  | Fin p, Fin q =>
      if Qeq_bool q 0 then Num NaN
      else
        let r := (p - inject_Z (qtrunc (p / q)) * q)%Q in
        if Qeq_bool r 0 then (if is_negative x then MinusZero else Num zero) else Num (Fin (Qred r))
  | Fin _, Inf _ => x
  | _, _ => Num NaN
  end.

Definition js_add (x y : jnum) : jnum :=
  match x, y with
  | MinusZero, MinusZero => MinusZero
  | _, _ => Num (num_add (value x) (value y))
  end.

Definition js_sub (x y : jnum) : jnum :=
  match x, value y with
  | MinusZero, Fin q => if Qeq_bool q 0 then (match y with MinusZero => Num zero | _ => MinusZero end) else Num (num_neg (Fin q))
  | _, _ => Num (num_sub (value x) (value y))
  end.

Definition js_lt (x y : jnum) : bool := num_lt (value x) (value y).
Definition js_le (x y : jnum) : bool := num_le (value x) (value y).

(** [x === y] *)
Definition js_eq (x y : jnum) : bool :=
  match value x, value y with
  | Fin p, Fin q => Qeq_bool p q
  | Inf a, Inf b => Bool.eqb a b
  | _, _ => false
  end.

(** [x & y] on the integers that [x] and [y] stand for modulo 2^32. *)
Definition ToInt32 (x : jnum) : Z :=
  match value x with
  | Fin q => let m := qtrunc q mod 2 ^ 32 in if 2 ^ 31 <=? m then m - 2 ^ 32 else m
  | _ => 0
  end.
Definition js_and (x : jnum) (y : Z) : Z := Z.land (ToInt32 x) y.

(** [Math.min] and [Math.max] of numbers that are neither NaN nor the negative
    zero. *)
Definition MathMin (x y : jnum) : jnum := if js_lt y x then y else x.
Definition MathMax (x y : jnum) : jnum := if js_lt x y then y else x.

Definition NumberIsFinite (x : jnum) : bool := is_finite (value x).
Definition NumberIsNaN (x : jnum) : bool := is_nan (value x).

Definition int (z : Z) : jnum := Num (num_of_Z z).

(** ** Helpers *)

Definition censorNegativeZero (x : jnum) : jnum := if js_eq x (int 0) then int 0 else x.

Definition half : jnum := Num (Fin (1 # 2)).
Definition minus_half : jnum := Num (Fin (-1 # 2)).

Definition evenRound (x : jnum) : jnum :=
  if (js_lt (int 0) x && js_eq (js_rem x (int 1)) half && (js_and x 1 =? 0))
     || (js_lt x (int 0) && js_eq (js_rem x (int 1)) minus_half && (js_and x 1 =? 1))
  then censorNegativeZero (MathFloor x)
  else censorNegativeZero (MathRound x).

Definition integerPart (n : jnum) : jnum := censorNegativeZero (MathTrunc n).

Definition sign (x : jnum) : Z := if js_lt x (int 0) then -1 else 1.

Definition modulo (x y : jnum) : jnum :=
  let signMightNotMatch := js_rem x y in
  if negb (sign y =? sign signMightNotMatch) then js_add signMightNotMatch y else signMightNotMatch.

(** ** Conversions *)

Record conversion_opts := mkOpts { enforceRange : bool; clamp : bool }.

Definition NumberMAX_SAFE_INTEGER : Z := 2 ^ 53 - 1.
Definition NumberMIN_SAFE_INTEGER : Z := - (2 ^ 53 - 1).

Section Conversions.
Context {V : Type} (is_bigint : V -> bool) (Number : V -> jsres jnum).

Definition toNumber (v : V) : jsres jnum :=
  if is_bigint v then Throw (JsTypeError "Cannot convert a BigInt value to a number") else Number v.

Definition not_finite : js_error := JsTypeError "is not a finite number".
Definition out_of_range : js_error := JsTypeError "is outside the accepted range".

Definition createIntegerConversion (bitLength : Z) (unsigned : bool) (v : V) (opts : conversion_opts) : jsres jnum :=
  let isSigned := negb unsigned in
  let '(lowerBound, upperBound) :=
    if bitLength =? 64 then (if negb isSigned then 0 else NumberMIN_SAFE_INTEGER, NumberMAX_SAFE_INTEGER)
    else if negb isSigned then (0, 2 ^ bitLength - 1)
    else (- 2 ^ (bitLength - 1), 2 ^ (bitLength - 1) - 1) in
  let twoToTheBitLength := 2 ^ bitLength in
  let twoToOneLessThanTheBitLength := 2 ^ (bitLength - 1) in
  let? x := toNumber v in
  let x := censorNegativeZero x in
  if enforceRange opts then
    if negb (NumberIsFinite x) then Throw not_finite
    else
      let x := integerPart x in
      if js_lt x (int lowerBound) || js_lt (int upperBound) x then Throw out_of_range else Ok x
  else if negb (NumberIsNaN x) && clamp opts then
    let x := MathMin (MathMax x (int lowerBound)) (int upperBound) in
    Ok (evenRound x)
  else if negb (NumberIsFinite x) || js_eq x (int 0) then Ok (int 0)
  else
    let x := integerPart x in
    if js_le (int lowerBound) x && js_le x (int upperBound) then Ok x
    else
      let x := modulo x (int twoToTheBitLength) in
      if isSigned && js_le (int twoToOneLessThanTheBitLength) x then Ok (js_sub x (int twoToTheBitLength)) else Ok x.

(** [BigInt(x)] of an integral number. *)
Definition BigInt (x : jnum) : Z := match value x with Fin q => Qfloor q | _ => 0 end.
Definition BigIntAsUintN (bits x : Z) : Z := x mod 2 ^ bits.
Definition BigIntAsIntN (bits x : Z) : Z :=
  let m := x mod 2 ^ bits in if 2 ^ (bits - 1) <=? m then m - 2 ^ bits else m.

Definition createLongLongConversion (bitLength : Z) (unsigned : bool) (v : V) (opts : conversion_opts) : jsres jnum :=
  let upperBound := NumberMAX_SAFE_INTEGER in
  let lowerBound := if unsigned then 0 else NumberMIN_SAFE_INTEGER in
  let asBigIntN := if unsigned then BigIntAsUintN else BigIntAsIntN in
  let? x := toNumber v in
  let x := censorNegativeZero x in
  if enforceRange opts then
    if negb (NumberIsFinite x) then Throw not_finite
    else
      let x := integerPart x in
      if js_lt x (int lowerBound) || js_lt (int upperBound) x then Throw out_of_range else Ok x
  else if negb (NumberIsNaN x) && clamp opts then
    let x := MathMin (MathMax x (int lowerBound)) (int upperBound) in
    Ok (evenRound x)
  else if negb (NumberIsFinite x) || js_eq x (int 0) then Ok (int 0)
  else
    let xBigInt := BigInt (integerPart x) in
    let xBigInt := asBigIntN bitLength xBigInt in
    Ok (Num (round64 (inject_Z xBigInt))).

Definition byte := createIntegerConversion 8 false.
Definition octet := createIntegerConversion 8 true.
Definition short := createIntegerConversion 16 false.
Definition unsigned_short := createIntegerConversion 16 true.
Definition long := createIntegerConversion 32 false.
Definition unsigned_long := createIntegerConversion 32 true.
Definition long_long := createLongLongConversion 64 false.
Definition unsigned_long_long := createLongLongConversion 64 true.

(** [Math.fround] is a parameter of the float conversions. *)
Definition float (MathFround : jnum -> jnum) (v : V) : jsres jnum :=
  let? x := toNumber v in
  if negb (NumberIsFinite x) then Throw (JsTypeError "is not a finite floating-point value")
  else
    match x with
    | MinusZero => Ok x
    | _ =>
        let y := MathFround x in
        if negb (NumberIsFinite y) then Throw (JsTypeError "is outside the range of a single-precision floating-point value")
        else Ok y
    end.

Definition unrestricted_float (MathFround : jnum -> jnum) (v : V) : jsres jnum :=
  let? x := toNumber v in
  if NumberIsNaN x then Ok x else match x with MinusZero => Ok x | _ => Ok (MathFround x) end.

Definition double (v : V) : jsres jnum :=
  let? x := toNumber v in
  if negb (NumberIsFinite x) then Throw (JsTypeError "is not a finite floating-point value") else Ok x.

Definition unrestricted_double (v : V) : jsres jnum := toNumber v.
End Conversions.

(** ** Examples *)

Section Examples.
Let plain_opts := mkOpts false false.
Let conv {A} (f : (jnum -> bool) -> (jnum -> jsres jnum) -> A) : A := f (fun _ => false) Ok.

Example byte_wraps : conv byte (int 200) plain_opts = Ok (int (-56)).
Proof. by vm_compute. Qed.

Example octet_clamps : conv octet (Num (Fin (-5 # 2))) (mkOpts false true) = Ok (int 0) /\
  conv octet (Num (Fin (5 # 2))) (mkOpts false true) = Ok (int 2) /\ conv octet (Num (Inf false)) (mkOpts false true) = Ok (int 255).
Proof. by vm_compute. Qed.

(** A negative multiple of the modulus becomes the negative zero, which the
    conversion takes care to remove elsewhere. *)
Lemma octet_negative_zero : conv octet (int (-256)) plain_opts = Ok MinusZero.
Proof. by vm_compute. Qed.

(** [-1] as an unsigned 64-bit integer is not a number of JavaScript; the result
    is above the range. *)
Lemma unsigned_long_long_rounds : conv unsigned_long_long (int (-1)) plain_opts = Ok (int (2 ^ 64)).
Proof. by vm_compute. Qed.
End Examples.
