(* ===== verification/WebIdlTheorems.v ===== *)
(** * Web IDL: theorems

    The integer conversions against the definition of the standard: wrapping to
    the width of the type, checking the range, or clamping with rounding to the
    nearest even integer. *)

From Stdlib Require Import ZArith Lia QArith Qround Qabs Lqa Setoid.
From stdpp Require Import base numbers option strings.
From S2P Require Import Prelude JsNumber WebIdl.

#[local] Open Scope Z_scope.

(** ** Specification *)

(** The bounds of an integer type; 64-bit types are limited to the integers that
    a number represents. *)
Definition bounds (bitLength : Z) (unsigned : bool) : Z * Z :=
  if bitLength =? 64 then (if unsigned then 0 else - (2 ^ 53 - 1), 2 ^ 53 - 1)
  else if unsigned then (0, 2 ^ bitLength - 1)
  else (- 2 ^ (bitLength - 1), 2 ^ (bitLength - 1) - 1).

(** The integer of the type that is congruent to [z]. *)
Definition wrap (bitLength : Z) (unsigned : bool) (z : Z) : Z :=
  let m := z mod 2 ^ bitLength in
  if negb unsigned && (2 ^ (bitLength - 1) <=? m) then m - 2 ^ bitLength else m.

Definition clamp_Z (lo hi z : Z) : Z := Z.min (Z.max z lo) hi.

(** What the conversion of a number gives; [None] is a TypeError.  [default] is
    the case without options. *)
Definition idl_convert (lo hi : Z) (default : Q -> num) (opts : conversion_opts) (x : num) : option num :=
  if enforceRange opts then
    match x with
    | Fin q => if (lo <=? qtrunc q) && (qtrunc q <=? hi) then Some (num_of_Z (qtrunc q)) else None
    | _ => None
    end
  else if clamp opts then
    match x with
    | NaN => Some zero
    | Inf neg => Some (num_of_Z (if neg then lo else hi))
    | Fin q => Some (num_of_Z (clamp_Z lo hi (nearest_even q)))
    end
  else match x with Fin q => Some (default q) | _ => Some zero end.

Definition idl_integer (bitLength : Z) (unsigned : bool) : conversion_opts -> num -> option num :=
  idl_convert (bounds bitLength unsigned).1 (bounds bitLength unsigned).2
    (fun q => num_of_Z (wrap bitLength unsigned (qtrunc q))).

(** The 64-bit conversions wrap the integer and round it to a number. *)
Definition idl_long_long (unsigned : bool) : conversion_opts -> num -> option num :=
  idl_convert (bounds 64 unsigned).1 (bounds 64 unsigned).2
    (fun q => round64 (inject_Z (wrap 64 unsigned (qtrunc q)))).

(** A number that is an integer; both zeros are zero. *)
Definition is_int (x : jnum) (z : Z) : Prop := value x = num_of_Z z.

(** ** Integers as numbers *)

Lemma is_int_int z : is_int (int z) z.
Proof. done. Qed.

Lemma is_int_signed b z : is_int (signed_Z b z) z.
Proof. unfold signed_Z. destruct (Z.eqb_spec z 0) as [->|]; [by destruct b|done]. Qed.

Lemma Qle_bool_false p q : Qle_bool p q = false <-> (q < p)%Q.
Proof.
  split; intros H.
  - apply Qnot_le_lt. intros X%Qle_bool_true. congruence.
  - apply not_true_is_false. intros X%Qle_bool_true. by apply (Qlt_not_le _ _ H).
Qed.

Lemma is_int_eq x y a b : is_int x a -> is_int y b -> js_eq x y = (a =? b).
Proof.
  intros Hx Hy. unfold js_eq. rewrite Hx, Hy. apply eq_true_iff_eq. simpl.
  rewrite Qeq_bool_iff, Z.eqb_eq. split; [apply inject_Z_injective|by intros ->].
Qed.

Lemma is_int_le x y a b : is_int x a -> is_int y b -> js_le x y = (a <=? b).
Proof. intros Hx Hy. unfold js_le. rewrite Hx, Hy. apply num_le_Z. Qed.

Lemma is_int_lt x y a b : is_int x a -> is_int y b -> js_lt x y = (a <? b).
Proof. intros Hx Hy. unfold js_lt. rewrite Hx, Hy. apply num_lt_Z. Qed.

Lemma is_int_censor x z : is_int x z -> is_int (censorNegativeZero x) z.
Proof.
  intros H. unfold censorNegativeZero. rewrite (is_int_eq _ _ _ _ H (is_int_int 0)).
  destruct (Z.eqb_spec z 0) as [->|]; [apply is_int_int|done].
Qed.

Lemma censor_value x : match value x, value (censorNegativeZero x) with
  | Fin p, Fin q => (p == q)%Q | Inf a, Inf b => a = b | NaN, NaN => True | _, _ => False end.
Proof.
  unfold censorNegativeZero, js_eq. simpl (value (int 0)). destruct (value x) as [| |q] eqn:E; simpl; rewrite ?E; [done..|].
  destruct (Qeq_bool q _) eqn:Eq; simpl; [by apply Qeq_bool_iff in Eq|]. by rewrite E.
Qed.

(** ** Truncation *)

#[export] Instance negative_proper : Proper (Qeq ==> eq) negative.
Proof.
  intros p q E. unfold negative. apply eq_true_iff_eq. rewrite !Z.ltb_lt.
  unfold Qeq in E. pose proof (Pos2Z.is_pos (Qden p)). pose proof (Pos2Z.is_pos (Qden q)). nia.
Qed.

#[export] Instance qtrunc_proper : Proper (Qeq ==> eq) qtrunc.
Proof. intros p q E. unfold qtrunc. rewrite (negative_proper _ _ E). destruct (negative q); [f_equal|]; apply Qfloor_comp; by rewrite E. Qed.

Lemma negative_true q : negative q = true <-> (q < 0)%Q.
Proof. unfold negative, Qlt. rewrite Z.ltb_lt. simpl. lia. Qed.

Lemma negative_false q : negative q = false <-> (0 <= q)%Q.
Proof. unfold negative, Qle. rewrite Z.ltb_ge. simpl. lia. Qed.

Lemma qtrunc_Z z : qtrunc (inject_Z z) = z.
Proof.
  unfold qtrunc. destruct (negative _); [|apply Qfloor_Z].
  change (- inject_Z z)%Q with (inject_Z (- z)). rewrite Qfloor_Z. lia.
Qed.

Lemma integerPart_spec x q : value x = Fin q -> is_int (integerPart x) (qtrunc q).
Proof.
  intros H. unfold integerPart. apply is_int_censor. destruct x as [|[| |q']]; simpl in *; try done.
  - by injection H as <-.
  - injection H as ->. apply is_int_signed.
Qed.

(** ** Rounding *)

Lemma Qfloor_unique q z : (inject_Z z <= q)%Q -> (q < inject_Z (z + 1))%Q -> Qfloor q = z.
Proof.
  intros H1 H2. pose proof (Qfloor_le q). pose proof (Qlt_floor q).
  assert (z < Qfloor q + 1) by (rewrite Zlt_Qlt; lra). assert (Qfloor q < z + 1) by (rewrite Zlt_Qlt; lra). lia.
Qed.

(** The cases of a half: the integer below when that one is even. *)
Lemma nearest_even_cases q : nearest_even q =
  if Qeq_bool (q - inject_Z (Qfloor q)) (1 # 2) && Z.even (Qfloor q) then Qfloor q else Qfloor (q + (1 # 2)).
Proof.
  unfold nearest_even. pose proof (Qfloor_le q) as H1. pose proof (Qlt_floor q) as H2. set (f := Qfloor q) in *.
  rewrite inject_Z_plus in H2. change (inject_Z 1) with 1%Q in H2.
  assert (Hs : forall z, (inject_Z (z + 1) == inject_Z z + 1)%Q) by (intros z; by rewrite inject_Z_plus).
  destruct (Qcompare_spec (q - inject_Z f) (1 # 2)) as [E|E|E].
  - rewrite (proj2 (Qeq_bool_iff _ _) E). destruct (Z.even f); [done|]. symmetry. apply Qfloor_unique; rewrite ?Hs; lra.
  - destruct (Qeq_bool _ _) eqn:Eq; [apply Qeq_bool_iff in Eq; lra|]. symmetry. apply Qfloor_unique; rewrite ?Hs; lra.
  - destruct (Qeq_bool _ _) eqn:Eq; [apply Qeq_bool_iff in Eq; lra|]. symmetry. apply Qfloor_unique; rewrite ?Hs; lra.
Qed.

(** The remainder modulo one is the fraction, with the sign of the number. *)
Lemma rem_one x q : value x = Fin q -> (q == 0 -> False)%Q ->
  exists r, value (js_rem x (int 1)) = Fin r /\ (r == q - inject_Z (qtrunc q))%Q.
Proof.
  intros H Hq. unfold js_rem. rewrite H. simpl. change (inject_Z 1) with 1%Q.
  assert (E : (q / 1 == q)%Q) by field. rewrite (qtrunc_proper _ _ E).
  destruct (Qeq_bool _ 0) eqn:Ez.
  - apply Qeq_bool_iff in Ez. exists 0%Q. split; [by destruct (is_negative x)|]. lra.
  - eexists. split; [done|]. rewrite Qred_correct. lra.
Qed.

Lemma and_one x q : value x = Fin q -> js_and x 1 = qtrunc q mod 2.
Proof.
  intros H. unfold js_and, ToInt32. rewrite H. change (Z.land ?a 1) with (Z.land a (Z.ones 1)). rewrite Z.land_ones by lia.
  change (2 ^ 1) with 2. set (z := qtrunc q). pose proof (Z.div_mod z (2 ^ 32)).
  destruct (2 ^ 31 <=? z mod 2 ^ 32).
  - rewrite Zminus_mod. change (2 ^ 32 mod 2) with 0. rewrite Z.sub_0_r, Z.mod_mod by lia.
    apply Z.mod_mod_divide. by exists (2 ^ 31).
  - apply Z.mod_mod_divide. by exists (2 ^ 31).
Qed.

Lemma is_int_floor x q : value x = Fin q -> is_int (MathFloor x) (Qfloor q).
Proof.
  intros H. destruct x as [|[| |q']]; simpl in *; try done; injection H as <-; done.
Qed.

Lemma is_int_round x q : value x = Fin q -> is_int (MathRound x) (Qfloor (q + (1 # 2))).
Proof.
  intros H. destruct x as [|[| |q']]; simpl in *; try done; injection H as <-; [done|apply is_int_signed].
Qed.

Lemma mod2_even z : (z mod 2 =? 0) = Z.even z.
Proof. rewrite Zmod_even. by destruct (Z.even z). Qed.

(** The condition of [evenRound] is the half with an even integer below it. *)
Lemma evenRound_condition x q : value x = Fin q ->
  (js_lt (int 0) x && js_eq (js_rem x (int 1)) half && (js_and x 1 =? 0))
  || (js_lt x (int 0) && js_eq (js_rem x (int 1)) minus_half && (js_and x 1 =? 1)) =
  Qeq_bool (q - inject_Z (Qfloor q)) (1 # 2) && Z.even (Qfloor q).
Proof.
  intros H. unfold js_lt. rewrite H. simpl (num_lt _ _). change (inject_Z 0) with 0%Q.
  destruct (Qlt_le_dec 0 q) as [Hq|Hq]; [|destruct (Qlt_le_dec q 0) as [Hq'|Hq']].
  - rewrite (proj2 (Qle_bool_false q 0) Hq), (proj2 (Qle_bool_true 0 q)) by lra. simpl. rewrite orb_false_r.
    destruct (rem_one x q H) as (r & Hr & Er); [lra|]. rewrite (and_one x q H). unfold js_eq. rewrite Hr. simpl value. cbv iota.
    assert (Et : qtrunc q = Qfloor q) by (unfold qtrunc; by rewrite (proj2 (negative_false q)) by lra).
    rewrite Et, mod2_even in *. f_equal. apply eq_true_iff_eq. by rewrite !Qeq_bool_iff, Er.
  - rewrite (proj2 (Qle_bool_true q 0)), (proj2 (Qle_bool_false 0 q)) by lra. simpl.
    destruct (rem_one x q H) as (r & Hr & Er); [lra|]. rewrite (and_one x q H). unfold js_eq. rewrite Hr. simpl value. cbv iota.
    assert (Et : qtrunc q = - Qfloor (- q)) by (unfold qtrunc; by rewrite (proj2 (negative_true q))).
    pose proof (Qfloor_le (- q)) as F1. pose proof (Qlt_floor (- q)) as F2. set (g := Qfloor (- q)) in *.
    rewrite Et in *. rewrite inject_Z_opp in Er. rewrite inject_Z_plus in F2. change (inject_Z 1) with 1%Q in F2.
    pose proof (Qfloor_le q) as G1. pose proof (Qlt_floor q) as G2. rewrite inject_Z_plus in G2. change (inject_Z 1) with 1%Q in G2.
    destruct (Qeq_bool r (-1 # 2)) eqn:E1.
    + apply Qeq_bool_iff in E1. assert (Ef : Qfloor q = - g - 1).
      { apply Qfloor_unique; replace (- g - 1 + 1) with (- g) by lia; unfold Z.sub; rewrite ?inject_Z_plus, ?inject_Z_opp; change (inject_Z 1) with 1%Q; lra. }
      rewrite Ef. unfold Z.sub. rewrite inject_Z_plus, !inject_Z_opp. change (inject_Z 1) with 1%Q.
      rewrite (proj2 (Qeq_bool_iff _ _)) by lra. simpl. rewrite Z.even_add. simpl (Z.even (-1)).
      rewrite Zmod_even. destruct (Z.even (- g)); done.
    + simpl. symmetry. apply andb_false_iff. left. apply not_true_is_false. intros E2%Qeq_bool_iff.
      assert (Eg : g = - Qfloor q - 1).
      { apply Qfloor_unique; replace (- Qfloor q - 1 + 1) with (- Qfloor q) by lia; unfold Z.sub; rewrite ?inject_Z_plus, ?inject_Z_opp; change (inject_Z 1) with 1%Q; lra. }
      apply Bool.diff_false_true. rewrite <-E1. apply Qeq_bool_iff. rewrite Er, Eg. unfold Z.sub.
      rewrite inject_Z_plus, !inject_Z_opp. change (inject_Z 1) with 1%Q. lra.
  - assert (E : (q == 0)%Q) by lra. rewrite (proj2 (Qle_bool_true q 0)), (proj2 (Qle_bool_true 0 q)) by lra. simpl.
    symmetry. apply andb_false_iff. left. apply not_true_is_false. intros E2%Qeq_bool_iff.
    rewrite (Qfloor_comp _ _ E) in E2. change (inject_Z (Qfloor 0)) with 0%Q in E2. lra.
Qed.

Lemma evenRound_spec x q : value x = Fin q -> is_int (evenRound x) (nearest_even q).
Proof.
  intros H. unfold evenRound. rewrite (evenRound_condition x q H), nearest_even_cases.
  destruct (_ && _); apply is_int_censor; [by apply is_int_floor|by apply is_int_round].
Qed.

(** Rounding and clamping commute. *)
Lemma nearest_even_low q z : (q <= inject_Z z)%Q -> nearest_even q <= z.
Proof.
  intros H. rewrite nearest_even_cases. pose proof (Qfloor_le q). destruct (_ && _).
  - rewrite Zle_Qle. lra.
  - rewrite <-(Qfloor_Z z). destruct (Qle_lt_or_eq _ _ H) as [Hlt|E]; [|].
    + apply Z.lt_succ_r. rewrite Qfloor_Z. rewrite Zlt_Qlt. unfold Z.succ. rewrite inject_Z_plus. change (inject_Z 1) with 1%Q.
      pose proof (Qfloor_le (q + (1 # 2))). lra.
    + rewrite Qfloor_Z. apply Z.lt_succ_r. rewrite Zlt_Qlt. unfold Z.succ. rewrite inject_Z_plus. change (inject_Z 1) with 1%Q.
      pose proof (Qfloor_le (q + (1 # 2))). lra.
Qed.

Lemma nearest_even_high q z : (inject_Z z <= q)%Q -> z <= nearest_even q.
Proof.
  intros H. rewrite nearest_even_cases. assert (z <= Qfloor q) by (rewrite <-(Qfloor_Z z); by apply Qfloor_resp_le).
  destruct (_ && _); [done|]. transitivity (Qfloor q); [done|]. apply Qfloor_resp_le. lra.
Qed.

Lemma clamp_spec x lo hi : is_nan (value x) = false -> lo <= hi ->
  is_int (evenRound (MathMin (MathMax x (int lo)) (int hi)))
    (match value x with Fin q => clamp_Z lo hi (nearest_even q) | Inf true => lo | _ => hi end).
Proof.
  intros Hn Hlh. unfold MathMin, MathMax, js_lt, clamp_Z. simpl (value (int _)).
  assert (Hi : forall z, is_int (evenRound (int z)) z).
  { intros z. pose proof (evenRound_spec (int z) (inject_Z z) eq_refl) as H. by rewrite nearest_even_Z in H. }
  assert (Hc : num_lt (num_of_Z hi) (num_of_Z lo) = false) by (rewrite num_lt_Z; by apply Z.ltb_ge).
  destruct (value x) as [|[]|q] eqn:E; [done| | |]; simpl (num_lt _ (num_of_Z lo)); cbv iota.
  - simpl value. rewrite Hc. apply Hi.
  - rewrite E. apply Hi.
  - destruct (Qle_bool (inject_Z lo) q) eqn:E1; simpl negb; cbv iota.
    + rewrite E. simpl (num_lt _ _). apply Qle_bool_true in E1. pose proof (nearest_even_high q lo E1).
      destruct (Qle_bool q (inject_Z hi)) eqn:E2; simpl negb; cbv iota.
      * apply Qle_bool_true in E2. pose proof (nearest_even_low q hi E2).
        rewrite Z.max_l, Z.min_l by lia. by apply evenRound_spec.
      * apply Qle_bool_false in E2. pose proof (nearest_even_high q hi (Qlt_le_weak _ _ E2)). rewrite Z.max_l, Z.min_r by lia. apply Hi.
    + simpl value. rewrite Hc. apply Qle_bool_false in E1. pose proof (nearest_even_low q lo (Qlt_le_weak _ _ E1)).
      rewrite Z.max_r, Z.min_l by lia. apply Hi.
Qed.

(** ** Modulo *)

Lemma qtrunc_quot a n : 0 < n -> qtrunc (inject_Z a / inject_Z n) = Z.quot a n.
Proof.
  intros Hn. assert (0 < inject_Z n)%Q by (change 0%Q with (inject_Z 0); by rewrite <-Zlt_Qlt).
  assert (Hinv : (0 < / inject_Z n)%Q) by by apply Qinv_lt_0_compat.
  unfold qtrunc. destruct (negative _) eqn:E.
  - apply negative_true in E. assert (a < 0).
    { apply Z.nle_gt. intros Ha. apply (Qlt_not_le _ _ E). apply Qmult_le_0_compat; [|lra].
      change 0%Q with (inject_Z 0). by rewrite <-Zle_Qle. }
    assert (Eq : (- (inject_Z a / inject_Z n) == inject_Z (- a) / inject_Z n)%Q) by (rewrite inject_Z_opp; field; lra).
    rewrite (Qfloor_comp _ _ Eq), <-Zdiv_Qdiv. pose proof (Z.quot_opp_l a n ltac:(lia)) as Eo.
    rewrite Z.quot_div_nonneg in Eo by lia. lia.
  - apply negative_false in E. assert (0 <= a).
    { apply Z.nlt_ge. intros Ha. apply (Qle_not_lt _ _ E). rewrite <-(Qmult_0_l (/ inject_Z n)).
      apply Qmult_lt_compat_r; [done|]. change 0%Q with (inject_Z 0). by rewrite <-Zlt_Qlt. }
    rewrite <-Zdiv_Qdiv. by rewrite Z.quot_div_nonneg by lia.
Qed.

Lemma is_int_rem x a n : is_int x a -> 0 < n -> is_int (js_rem x (int n)) (Z.rem a n).
Proof.
  intros Hx Hn. unfold js_rem. rewrite Hx. simpl (value (int n)). cbv iota. unfold num_of_Z.
  destruct (Qeq_bool (inject_Z n) 0) eqn:E.
  { exfalso. apply Qeq_bool_iff in E. unfold Qeq in E. simpl in E. lia. }
  clear E. rewrite qtrunc_quot by done.
  assert (Er : (inject_Z a - inject_Z (Z.quot a n) * inject_Z n == inject_Z (Z.rem a n))%Q).
  { rewrite (Z.quot_rem' a n) at 1. rewrite inject_Z_plus, inject_Z_mult. ring. }
  destruct (Qeq_bool _ 0) eqn:E2.
  - apply Qeq_bool_iff in E2. pose proof (proj1 (inject_Z_injective _ 0) (Qeq_trans _ _ _ (Qeq_sym _ _ Er) E2)) as E3.
    rewrite E3. by destruct (is_negative x).
  - unfold is_int. simpl. rewrite (Qred_complete _ _ Er), Qred_Z. done.
Qed.

Lemma is_int_modulo x a n : is_int x a -> 0 < n <= 2 ^ 53 -> is_int (modulo x (int n)) (a mod n).
Proof.
  intros Hx Hn. unfold modulo, sign. pose proof (is_int_rem x a n Hx (proj1 Hn)) as Hr.
  rewrite (is_int_lt _ _ _ _ (is_int_int n) (is_int_int 0)), (is_int_lt _ _ _ _ Hr (is_int_int 0)).
  rewrite (proj2 (Z.ltb_ge n 0)) by lia.
  pose proof (Z.quot_rem' a n) as Hq. pose proof (Z.rem_bound_abs a n ltac:(lia)) as Hb.
  destruct (Z.ltb_spec (Z.rem a n) 0) as [Hneg|Hpos]; simpl.
  - assert (Em : a mod n = Z.rem a n + n) by (symmetry; apply Z.mod_unique with (q := Z.quot a n - 1); [left; lia|lia]).
    unfold is_int in *. unfold js_add. rewrite Em.
    destruct (js_rem x (int n)) as [|y]; simpl value in *; [exfalso; injection Hr; lia|]. rewrite Hr. apply num_add_Z. lia.
  - assert (Em : a mod n = Z.rem a n) by (symmetry; apply Z.mod_unique with (q := Z.quot a n); [left; lia|lia]). by rewrite Em.
Qed.

Lemma is_int_sub x a n : is_int x a -> Z.abs (a - n) <= 2 ^ 53 -> is_int (js_sub x (int n)) (a - n).
Proof.
  intros Hx Ha. unfold js_sub, is_int in *. destruct x as [|y].
  - assert (a = 0) as -> by (injection Hx as E; lia). simpl (value (int n)). cbv iota. unfold num_of_Z.
    destruct (Qeq_bool _ 0) eqn:E; [apply Qeq_bool_iff in E; by apply (inject_Z_injective n 0) in E as ->|].
    done.
  - simpl value in *. subst y. cbv iota. by apply num_sub_Z.
Qed.

(** ** Theorems *)

(** What the conversions know of the value they start from. *)
Section Conversion.
Context {V : Type} (is_bigint : V -> bool) (Number : V -> jsres jnum).

(** The steps that the two conversions share. *)
Lemma range_spec x q lo hi : value x = Fin q ->
  (if js_lt (integerPart x) (int lo) || js_lt (int hi) (integerPart x) then Throw out_of_range else Ok (integerPart x)) =
  if (lo <=? qtrunc q) && (qtrunc q <=? hi) then Ok (integerPart x) else Throw out_of_range.
Proof.
  intros H. pose proof (integerPart_spec x q H) as Hi.
  rewrite (is_int_lt _ _ _ _ Hi (is_int_int lo)), (is_int_lt _ _ _ _ (is_int_int hi) Hi).
  rewrite !Z.ltb_antisym, <-negb_andb. by destruct (_ && _).
Qed.

Lemma bounds_order b u : 1 <= b -> (bounds b u).1 <= 0 <= (bounds b u).2.
Proof.
  intros Hb. unfold bounds. assert (0 < 2 ^ (b - 1)) by (apply Z.pow_pos_nonneg; lia).
  assert (0 < 2 ^ b) by (apply Z.pow_pos_nonneg; lia). destruct (b =? 64), u; simpl; lia.
Qed.

Lemma wrap_bounds b u z : 1 <= b -> b <> 64 -> (bounds b u).1 <= wrap b u z <= (bounds b u).2.
Proof.
  intros Hb H64. unfold bounds, wrap. rewrite (proj2 (Z.eqb_neq b 64)) by done.
  assert (E : 2 ^ b = 2 * 2 ^ (b - 1)) by (rewrite <-Z.pow_succ_r by lia; f_equal; lia).
  assert (0 < 2 ^ (b - 1)) by (apply Z.pow_pos_nonneg; lia).
  pose proof (Z.mod_pos_bound z (2 ^ b) ltac:(lia)). destruct u; simpl; [lia|].
  destruct (Z.leb_spec (2 ^ (b - 1)) (z mod 2 ^ b)); lia.
Qed.

Lemma wrap_id b u z : 1 <= b -> b <> 64 -> (bounds b u).1 <= z <= (bounds b u).2 -> wrap b u z = z.
Proof.
  intros Hb H64. unfold bounds, wrap. rewrite (proj2 (Z.eqb_neq b 64)) by done.
  assert (E : 2 ^ b = 2 * 2 ^ (b - 1)) by (rewrite <-Z.pow_succ_r by lia; f_equal; lia).
  assert (0 < 2 ^ (b - 1)) by (apply Z.pow_pos_nonneg; lia). destruct u; simpl; intros Hz.
  - apply Z.mod_small. lia.
  - destruct (Z.leb_spec 0 z) as [Hp|Hn].
    + rewrite Z.mod_small by lia. rewrite (proj2 (Z.leb_gt _ _)) by lia. done.
    + rewrite <-(Z.mod_unique z (2 ^ b) (-1) (z + 2 ^ b)) by lia. rewrite (proj2 (Z.leb_le _ _)) by lia. lia.
Qed.

(** What both conversions do with a number, [rest] being the case without
    options of a finite number that is not zero. *)
Lemma convert_spec lo hi default opts y (rest : jsres jnum) : lo <= 0 <= hi ->
  (forall q, (q == 0)%Q -> default q = zero) ->
  (forall q, value y = Fin q -> exists r, rest = Ok r /\ value r = default q) ->
  let out :=
    if enforceRange opts then
      if negb (NumberIsFinite y) then Throw not_finite
      else let x := integerPart y in if js_lt x (int lo) || js_lt (int hi) x then Throw out_of_range else Ok x
    else if negb (NumberIsNaN y) && clamp opts then
      let x := MathMin (MathMax y (int lo)) (int hi) in Ok (evenRound x)
    else if negb (NumberIsFinite y) || js_eq y (int 0) then Ok (int 0)
    else rest in
  match idl_convert lo hi default opts (value y) with
  | Some n => exists r, out = Ok r /\ value r = n
  | None => exists m, out = Throw (JsTypeError m)
  end.
Proof.
  intros Hlh H0 Hrest. cbv zeta. unfold idl_convert, NumberIsFinite, NumberIsNaN. destruct (enforceRange opts).
  - destruct (value y) as [| |q] eqn:E; simpl; [by eexists..|].
    rewrite (range_spec y q lo hi E). destruct (_ && _); [|by eexists]. eexists. split; [done|]. by apply integerPart_spec.
  - destruct (clamp opts) eqn:Ec; simpl.
    + destruct (is_nan (value y)) eqn:En; [destruct (value y); try done; by eexists|]. simpl.
      pose proof (clamp_spec y lo hi En ltac:(lia)) as Hc. destruct (value y) as [|[]|q] eqn:E; [done|..]; by eexists.
    + rewrite andb_false_r. destruct (value y) as [| |q] eqn:E; simpl; [by eexists..|].
      assert (Ej : js_eq y (int 0) = Qeq_bool q 0) by (unfold js_eq; by rewrite E). rewrite Ej. destruct (Qeq_bool q 0) eqn:Eq.
      * apply Qeq_bool_iff in Eq. exists (int 0). split; [done|]. symmetry. by apply H0.
      * by apply Hrest.
Qed.

Lemma idl_convert_eq lo hi default opts x : (forall p q, (p == q)%Q -> default p = default q) ->
  idl_convert lo hi default opts (value (censorNegativeZero x)) = idl_convert lo hi default opts (value x).
Proof.
  intros Hd. pose proof (censor_value x) as H. destruct (value x) as [| |p], (value (censorNegativeZero x)) as [| |q]; try done; [by subst|].
  unfold idl_convert. by rewrite (qtrunc_proper _ _ H), (nearest_even_proper _ _ H), (Hd _ _ H).
Qed.

Lemma wrap_zero b u q : 1 <= b -> (q == 0)%Q -> wrap b u (qtrunc q) = 0.
Proof.
  intros Hb E. rewrite (qtrunc_proper _ _ E). change (qtrunc 0) with 0. unfold wrap.
  assert (0 < 2 ^ (b - 1)) by (apply Z.pow_pos_nonneg; lia). assert (0 < 2 ^ b) by (apply Z.pow_pos_nonneg; lia).
  rewrite Z.mod_0_l, (proj2 (Z.leb_gt _ _)), andb_false_r by lia. done.
Qed.

(** The case without options of the types up to 53 bits. *)
Lemma wrap_spec b u y q : 1 <= b <= 53 -> value y = Fin q -> exists r,
  (let x := integerPart y in
   if js_le (int (bounds b u).1) x && js_le x (int (bounds b u).2) then Ok x
   else
     let x := modulo x (int (2 ^ b)) in
     if negb u && js_le (int (2 ^ (b - 1))) x then Ok (js_sub x (int (2 ^ b))) else Ok x) = Ok r /\
  value r = num_of_Z (wrap b u (qtrunc q)).
Proof.
  intros Hb Hy. cbv zeta. pose proof (integerPart_spec y q Hy) as Hi. set (z := qtrunc q) in *.
  rewrite (is_int_le _ _ _ _ (is_int_int _) Hi), (is_int_le _ _ _ _ Hi (is_int_int _)).
  destruct (_ && _) eqn:E; [reflect_bools; eexists; split; [done|]; rewrite wrap_id; [done|lia|lia|lia]|].
  assert (E2 : 2 ^ b = 2 * 2 ^ (b - 1)) by (rewrite <-Z.pow_succ_r by lia; f_equal; lia).
  assert (0 < 2 ^ (b - 1)) by (apply Z.pow_pos_nonneg; lia). assert (2 ^ b <= 2 ^ 53) by (apply Z.pow_le_mono_r; lia).
  pose proof (is_int_modulo _ z (2 ^ b) Hi ltac:(lia)) as Hm. unfold wrap. pose proof (Z.mod_pos_bound z (2 ^ b) ltac:(lia)).
  rewrite (is_int_le _ _ _ _ (is_int_int _) Hm). destruct (negb u && _); eexists; (split; [done|]); [|done].
  apply is_int_sub; [done|lia].
Qed.

Lemma integer_conversion_number (b : Z) (u : bool) (v : V) (x : jnum) (opts : conversion_opts) :
  1 <= b <= 53 -> is_bigint v = false -> Number v = Ok x ->
  match idl_integer b u opts (value x) with
  | Some n => exists r, createIntegerConversion is_bigint Number b u v opts = Ok r /\ value r = n
  | None => exists m, createIntegerConversion is_bigint Number b u v opts = Throw (JsTypeError m)
  end.
Proof.
  intros Hb Hv Hx. unfold createIntegerConversion, toNumber. rewrite Hv, Hx. cbn [jsbind].
  assert (Hbd : (if b =? 64 then (if negb (negb u) then 0 else NumberMIN_SAFE_INTEGER, NumberMAX_SAFE_INTEGER)
    else if negb (negb u) then (0, 2 ^ b - 1) else (- 2 ^ (b - 1), 2 ^ (b - 1) - 1)) = ((bounds b u).1, (bounds b u).2)).
  { unfold bounds. destruct (b =? 64), u; done. }
  rewrite Hbd. clear Hbd. unfold idl_integer.
  rewrite <-(idl_convert_eq _ _ _ opts x) by (intros p q E; by rewrite (qtrunc_proper _ _ E)).
  apply convert_spec; [apply bounds_order; lia|intros q E; rewrite wrap_zero; [done|lia|done]|].
  intros q Hy. by apply wrap_spec.
Qed.

Lemma long_long_number (u : bool) (v : V) (x : jnum) (opts : conversion_opts) : is_bigint v = false -> Number v = Ok x ->
  match idl_long_long u opts (value x) with
  | Some n => exists r, createLongLongConversion is_bigint Number 64 u v opts = Ok r /\ value r = n
  | None => exists m, createLongLongConversion is_bigint Number 64 u v opts = Throw (JsTypeError m)
  end.
Proof.
  intros Hv Hx. unfold createLongLongConversion, toNumber. rewrite Hv, Hx. cbn [jsbind]. cbv zeta. unfold idl_long_long.
  rewrite <-(idl_convert_eq _ _ _ opts x) by (intros p q E; by rewrite (qtrunc_proper _ _ E)).
  assert (Hb1 : (if u then 0 else NumberMIN_SAFE_INTEGER) = (bounds 64 u).1) by by destruct u. rewrite Hb1.
  change NumberMAX_SAFE_INTEGER with (bounds 64 u).2.
  apply convert_spec; [apply bounds_order; lia|intros q E; rewrite wrap_zero; [done|lia|done]|].
  intros q Hy. eexists. split; [done|]. simpl value. f_equal. f_equal. unfold BigInt.
  rewrite (integerPart_spec _ q Hy). unfold num_of_Z. rewrite Qfloor_Z. by destruct u.
Qed.

(** What a conversion without error returns is an integer of the type. *)
Lemma idl_integer_bounds b u opts x n : 1 <= b <= 53 -> idl_integer b u opts x = Some n ->
  exists z, n = num_of_Z z /\ (bounds b u).1 <= z <= (bounds b u).2.
Proof.
  intros Hb. pose proof (bounds_order b u ltac:(lia)) as Ho. pose proof (fun z => wrap_bounds b u z ltac:(lia) ltac:(lia)) as Hw.
  unfold idl_integer, idl_convert, clamp_Z. destruct (enforceRange opts); [|destruct (clamp opts)].
  - destruct x as [| |q]; try done. destruct (_ && _) eqn:E; intros [= <-]. reflect_bools. by eexists.
  - destruct x as [|neg|q]; intros [= <-]; [by exists 0|eexists; split; [done|]; destruct neg; lia|eexists; split; [done|]; lia].
  - destruct x as [| |q]; intros [= <-]; [by exists 0|by exists 0|by eexists].
Qed.

(** *** The sign of zero *)

Lemma censor_not_minus x : censorNegativeZero x <> MinusZero.
Proof. unfold censorNegativeZero. destruct x; [done|]. by destruct (js_eq _ _). Qed.

Lemma rem_minus z n : 0 < n -> js_rem (int z) (int n) = MinusZero <-> z < 0 /\ (n | z).
Proof.
  intros Hn. pose proof (is_int_rem (int z) z n (is_int_int z) Hn) as Hr. rewrite <-Z.rem_divide by lia.
  unfold js_rem in *. simpl (value (int _)) in *. unfold num_of_Z in *. destruct (Qeq_bool (inject_Z n) 0).
  { done. }
  destruct (Qeq_bool _ 0) eqn:E.
  - assert (Z.rem z n = 0) as H0.
    { destruct (is_negative _) in Hr; unfold is_int in Hr; simpl in Hr; injection Hr; lia. }
    simpl. unfold negative. simpl. destruct (Z.ltb_spec z 0); split; try done; lia.
  - split; [done|]. intros [_ H0]. rewrite H0 in Hr. unfold is_int in Hr. simpl in Hr. injection Hr as Hr.
    exfalso. rewrite <-not_true_iff_false in E. apply E, Qeq_bool_iff. rewrite <-Qred_correct, Hr. done.
Qed.

Lemma int_of x z : is_int x z -> x <> MinusZero -> x = int z.
Proof. destruct x as [|y]; [done|]. intros H _. unfold is_int in H. simpl in H. by subst. Qed.

(** Where the code returns the negative zero: without options, for a number whose
    integer part is a negative multiple of two to the width. *)
Definition gives_minus_zero (b : Z) (opts : conversion_opts) (x : num) : Prop :=
  enforceRange opts = false /\ clamp opts = false /\
  exists q, x = Fin q /\ qtrunc q < 0 /\ (2 ^ b | qtrunc q).

Lemma wrap_sign b u y q r : 1 <= b <= 53 -> value y = Fin q ->
  (let x := integerPart y in
   if js_le (int (bounds b u).1) x && js_le x (int (bounds b u).2) then Ok x
   else
     let x := modulo x (int (2 ^ b)) in
     if negb u && js_le (int (2 ^ (b - 1))) x then Ok (js_sub x (int (2 ^ b))) else Ok x) = Ok r ->
  r = MinusZero <-> qtrunc q < 0 /\ (2 ^ b | qtrunc q).
Proof.
  intros Hb Hy. cbv zeta. pose proof (integerPart_spec y q Hy) as Hi. set (z := qtrunc q) in *.
  apply int_of in Hi; [|apply censor_not_minus]. rewrite Hi, !(is_int_le _ _ _ _ (is_int_int _) (is_int_int _)).
  assert (0 < 2 ^ (b - 1)) by (apply Z.pow_pos_nonneg; lia). assert (0 < 2 ^ b) by (apply Z.pow_pos_nonneg; lia).
  assert (E2 : 2 ^ b = 2 * 2 ^ (b - 1)) by (rewrite <-Z.pow_succ_r by lia; f_equal; lia).
  assert (b =? 64 = false) as H64 by lia.
  destruct (_ && _) eqn:E.
  - intros [= <-]. split; [done|]. intros [Hz [k Hk]]. exfalso. unfold bounds in E. rewrite H64 in E.
    assert (k <= -1) by nia. assert (z <= - 2 ^ b) by nia. destruct u; cbn [fst snd] in E; reflect_bools; lia.
  - assert (Hm : modulo (int z) (int (2 ^ b)) = MinusZero <-> z < 0 /\ (2 ^ b | z)).
    { rewrite <-rem_minus by done. unfold modulo. pose proof (is_int_rem (int z) z (2 ^ b) (is_int_int z) ltac:(done)) as Hr.
      unfold sign. rewrite (is_int_lt _ _ _ _ (is_int_int _) (is_int_int 0)), (proj2 (Z.ltb_ge _ 0)) by lia.
      rewrite (is_int_lt _ _ _ _ Hr (is_int_int 0)). destruct (Z.ltb_spec (Z.rem z (2 ^ b)) 0); simpl; [|done].
      unfold js_add. destruct (js_rem _ _) eqn:Ej; split; try done. intros _. unfold is_int in Hr. simpl in Hr. injection Hr. lia. }
    destruct (negb u && _) eqn:Es; intros [= <-]; [|done].
    assert (modulo (int z) (int (2 ^ b)) <> MinusZero) as Hn.
    { intros Em. rewrite Em in Es. rewrite (is_int_le _ _ (2 ^ (b - 1)) 0) in Es by done. destruct u; simpl in Es; lia. }
    split; [|by rewrite <-Hm]. intros Ej. exfalso. unfold js_sub in Ej. by destruct (modulo _ _).
Qed.

Lemma integer_conversion_sign (b : Z) (u : bool) (v : V) (x r : jnum) (opts : conversion_opts) :
  1 <= b <= 53 -> is_bigint v = false -> Number v = Ok x ->
  createIntegerConversion is_bigint Number b u v opts = Ok r ->
  r = MinusZero <-> gives_minus_zero b opts (value x).
Proof.
  intros Hb Hv Hx. unfold createIntegerConversion, toNumber. rewrite Hv, Hx. cbn [jsbind].
  assert (Hbd : (if b =? 64 then (if negb (negb u) then 0 else NumberMIN_SAFE_INTEGER, NumberMAX_SAFE_INTEGER)
    else if negb (negb u) then (0, 2 ^ b - 1) else (- 2 ^ (b - 1), 2 ^ (b - 1) - 1)) = ((bounds b u).1, (bounds b u).2)).
  { unfold bounds. destruct (b =? 64), u; done. }
  rewrite Hbd. clear Hbd. unfold gives_minus_zero. pose proof (censor_value x) as Hc.
  pose proof (censor_not_minus x) as Hcn. set (y := censorNegativeZero x) in *.
  destruct (enforceRange opts).
  { destruct (NumberIsFinite y); simpl; [|done]. destruct (_ || _); [done|]. intros [= <-].
    split; [by intros ?%censor_not_minus|by intros [? _]]. }
  destruct (clamp opts).
  { split; [|by intros (_ & ? & _)]. intros ->. exfalso. rewrite andb_true_r in H. destruct (negb (NumberIsNaN y)) eqn:En.
    - injection H as H. unfold evenRound in H. destruct (_ || _) in H; by apply censor_not_minus in H.
    - destruct (negb (NumberIsFinite y) || js_eq y (int 0)) eqn:Ef; [done|]. unfold NumberIsNaN, NumberIsFinite in *.
      destruct (value y); done. }
  rewrite andb_false_r. unfold NumberIsFinite. destruct (value y) as [| |q] eqn:E; simpl.
  - intros [= <-]. split; [done|]. intros (_ & _ & q & Eq & _). by rewrite Eq in Hc.
  - intros [= <-]. split; [done|]. intros (_ & _ & q & Eq & _). by rewrite Eq in Hc.
  - destruct (value x) as [| |p] eqn:Ep; try done. 
    assert (Hq : (exists q0, Fin p = Fin q0 /\ qtrunc q0 < 0 /\ (2 ^ b | qtrunc q0)) <-> qtrunc q < 0 /\ (2 ^ b | qtrunc q)).
    { rewrite <-(qtrunc_proper _ _ Hc). split; [by intros (? & [= <-] & ?)|]. intros ?. by exists p. }
    destruct (js_eq y (int 0)) eqn:Ej.
    + intros [= <-]. split; [done|]. intros (_ & _ & [Hz _]%Hq). exfalso. unfold js_eq in Ej. rewrite E in Ej. simpl in Ej.
      apply Qeq_bool_iff in Ej. change (inject_Z 0) with 0%Q in Ej. rewrite (qtrunc_proper _ _ Ej) in Hz. done.
    + intros Hr. rewrite (wrap_sign b u y q r Hb E Hr), <-Hq. naive_solver.
Qed.
End Conversion.

(** C33. The conversions to integer types of up to 53 bits ([byte], [octet],
    [short], [long] and their unsigned forms) are those of the standard: with
    [enforceRange] the integer part or a TypeError, with [clamp] the nearest
    integer of the range, ties to even, and otherwise the integer part modulo two
    to the width; what they return is always an integer of the type.  The zero they
    return is the positive one, as the standard says, except without options for a
    number whose integer part is a negative multiple of two to the width. *)
Theorem integer_conversion {V : Type} (is_bigint : V -> bool) (Number : V -> jsres jnum)
    (b : Z) (u : bool) (v : V) (x : jnum) (opts : conversion_opts) :
  1 <= b <= 53 -> is_bigint v = false -> Number v = Ok x ->
  match idl_integer b u opts (value x) with
  | Some n => exists r z, createIntegerConversion is_bigint Number b u v opts = Ok r /\ value r = n /\
                n = num_of_Z z /\ (bounds b u).1 <= z <= (bounds b u).2 /\
                (r = MinusZero <-> gives_minus_zero b opts (value x))
  | None => exists m, createIntegerConversion is_bigint Number b u v opts = Throw (JsTypeError m)
  end.
Proof.
  intros Hb Hv Hx. pose proof (integer_conversion_number is_bigint Number b u v x opts Hb Hv Hx) as H.
  destruct (idl_integer b u opts (value x)) as [n|] eqn:E; [|done].
  destruct (idl_integer_bounds b u opts _ n Hb E) as (z & -> & Hz). destruct H as (r & Hr & Hn). exists r, z.
  split_and!; try done; try lia. all: by apply (integer_conversion_sign is_bigint Number b u v x r opts).
Qed.

Lemma integer_conversion_witness :
  (1 <= 8 <= 53) /\ idl_integer 8 false (mkOpts false false) (num_of_Z 200) = Some (num_of_Z (-56)) /\
  exists r z, createIntegerConversion (fun _ => false) Ok 8 false (int 200) (mkOpts false false) = Ok r /\
    value r = num_of_Z (-56) /\ num_of_Z (-56) = num_of_Z z /\ (bounds 8 false).1 <= z <= (bounds 8 false).2 /\
    (r = MinusZero <-> gives_minus_zero 8 (mkOpts false false) (value (int 200))).
Proof.
  split; [lia|]. split; [by vm_compute|].
  exact (integer_conversion (fun _ => false) Ok 8 false (int 200) (int 200) (mkOpts false false) ltac:(lia) eq_refl eq_refl).
Defined.

(** The 64-bit conversions are those of the standard as well, except that the
    wrapped integer is rounded to a number, and that is all they lose: an integer
    of up to 53 bits is returned as it is. *)
Lemma long_long_conversion {V : Type} (is_bigint : V -> bool) (Number : V -> jsres jnum)
    (u : bool) (v : V) (x : jnum) (opts : conversion_opts) :
  is_bigint v = false -> Number v = Ok x ->
  match idl_long_long u opts (value x) with
  | Some n => exists r, createLongLongConversion is_bigint Number 64 u v opts = Ok r /\ value r = n /\
                (forall q, value x = Fin q -> enforceRange opts = false -> clamp opts = false ->
                   Z.abs (wrap 64 u (qtrunc q)) <= 2 ^ 53 -> value r = num_of_Z (wrap 64 u (qtrunc q)))
  | None => exists m, createLongLongConversion is_bigint Number 64 u v opts = Throw (JsTypeError m)
  end.
Proof.
  intros Hv Hx. pose proof (long_long_number is_bigint Number u v x opts Hv Hx) as H.
  destruct (idl_long_long u opts (value x)) as [n|] eqn:E; [|done]. destruct H as (r & Hr & Hn). exists r. split; [done|]. split; [done|].
  intros q Eq He Hc Hq. unfold idl_long_long, idl_convert in E. rewrite He, Hc, Eq in E. injection E as <-. rewrite Hn. by apply round64_Z.
Qed.

Lemma long_long_conversion_witness :
  exists r, createLongLongConversion (fun _ => false) Ok 64 false (Num (Fin (-7 # 2))) (mkOpts false false) = Ok r /\ value r = num_of_Z (-3).
Proof.
  destruct (long_long_conversion (fun _ => false) Ok false (Num (Fin (-7 # 2))) (Num (Fin (-7 # 2))) (mkOpts false false) eq_refl eq_refl)
    as (r & H1 & _ & H2).
  exists r. split; [exact H1|]. apply (H2 (-7 # 2)); [reflexivity|reflexivity|reflexivity|]. vm_compute. discriminate.
Defined.
