(* ===== verification/Blob.v ===== *)
(** * Blobs

    Models [src/ext/web/09_file.js] and the store behind it,
    [src/ext/web/blob.rs]: parts in memory and slices of parts, the [Blob]
    constructor, [slice], reading and streaming, and object URLs.

    The store is the state; a call maps it to a new store and a result.  UUIDs are
    numbers taken in turn, since random ones are distinct.  Encoding and decoding
    of text, [toLowerCase] and the URL library are parameters.  A [Blob] is not
    changed after its construction, so it is a value; sizes are integers, which
    the numbers of JavaScript are exact for below 2^53. *)

From Stdlib Require Import ZArith Lia.
From stdpp Require Import base list gmap numbers option strings.
From S2P Require Import Prelude JsNumber Infra WebIdl.

#[local] Open Scope Z_scope.

(** ** The store *)

Inductive BlobPart :=
  | InMemoryBlobPart (data : list Z)
  | SlicedBlobPart (part : BlobPart) (start len : Z).

Definition part_size (p : BlobPart) : Z :=
  match p with
  | InMemoryBlobPart data => slen data
  | SlicedBlobPart _ _ len => len
  end.

(** Indexing a slice out of range panics. *)
Fixpoint part_read (p : BlobPart) : jsres (list Z) :=
  match p with
  | InMemoryBlobPart data => Ok data
  | SlicedBlobPart part start len =>
      let? original := part_read part in
      if (0 <=? start) && (0 <=? len) && (start + len <=? slen original)
      then Ok (slice original start (start + len)) else Throw (JsError "panic")
  end.

(** [Blob] of [blob.rs]. *)
Record StoredBlob := mkStored { media_type : str; stored_parts : list BlobPart }.

(** Reading a whole stored blob asserts its size. *)
Fixpoint read_parts (ps : list BlobPart) : jsres (list Z) :=
  match ps with
  | [] => Ok []
  | p :: ps => let? chunk := part_read p in let? bytes := read_parts ps in Ok (chunk ++ bytes)
  end.
Definition stored_size (b : StoredBlob) : Z := foldr (fun p n => part_size p + n) 0 (stored_parts b).
Definition read_all (b : StoredBlob) : jsres (list Z) :=
  let? bytes := read_parts (stored_parts b) in
  if slen bytes =? stored_size b then Ok bytes else Throw (JsError "panic").

Section Store.
Context {Url : Type} `{Countable Url}.

Record BlobStore := mkStore {
  parts : gmap Z BlobPart;
  object_urls : gmap Url StoredBlob;
  next_uuid : Z;
}.

Definition empty_store : BlobStore := mkStore ∅ ∅ 0.

(** A call on the store. *)
Definition io (A : Type) : Type := BlobStore -> BlobStore * jsres A.
Definition io_ret {A} (a : A) : io A := fun s => (s, Ok a).
Definition io_throw {A} (e : js_error) : io A := fun s => (s, Throw e).
Definition io_bind {A B} (m : io A) (k : A -> io B) : io B := fun s =>
  match m s with
  | (s, Ok a) => k a s
  | (s, Throw e) => (s, Throw e)
  end.
Definition io_of {A} (r : jsres A) : io A := fun s => (s, r).

Definition insert_part (part : BlobPart) : io Z := fun s =>
  (mkStore (<[next_uuid s := part]> (parts s)) (object_urls s) (next_uuid s + 1), Ok (next_uuid s)).

Definition get_part (id : Z) : io (option BlobPart) := fun s => (s, Ok (parts s !! id)).

Definition remove_part (id : Z) : io unit := fun s =>
  (mkStore (delete id (parts s)) (object_urls s) (next_uuid s), Ok tt).
End Store.
#[global] Arguments BlobStore Url {_ _}.
#[global] Arguments io Url {_ _} A.

Declare Scope blob_scope.
Delimit Scope blob_scope with blob.
Notation "'let!' x ':=' m 'in' k" := (io_bind m (fun x => k))
  (at level 10, x name, m at level 100, k at level 200) : blob_scope.

Section Blob.
Context {Url : Type} `{Countable Url}.
#[local] Open Scope blob_scope.

(** ** Ops *)

Definition op_blob_create_part (data : list Z) : io Url Z := insert_part (InMemoryBlobPart data).

Definition part_not_found : js_error := JsTypeError "Blob part not found".

(** Negative numbers are not a [usize]: the arguments are rejected. *)
Definition op_blob_slice_part (id start len : Z) : io Url Z :=
  if (start <? 0) || (len <? 0) then io_throw (JsTypeError "invalid arguments")
  else
    let! part := get_part id in
    match part with
    | None => io_throw part_not_found
    | Some part =>
        if part_size part <? start + len
        then io_throw (JsTypeError "start + len can not be larger than blob part size")
        else insert_part (SlicedBlobPart part start len)
    end.

Definition op_blob_read_part (id : Z) : io Url (list Z) :=
  let! part := get_part id in
  match part with
  | None => io_throw part_not_found
  | Some part => io_of (part_read part)
  end.

Definition op_blob_remove_part (id : Z) : io Url unit := remove_part id.

(** ** References and blobs *)

Record BlobReference := mkRef { ref_id : Z; ref_size : Z }.

Definition fromUint8Array (data : list Z) : io Url BlobReference :=
  let! id := op_blob_create_part data in io_ret (mkRef id (slen data)).

Definition ref_slice (r : BlobReference) (start end_ : Z) : io Url BlobReference :=
  let size := end_ - start in
  let! id := op_blob_slice_part (ref_id r) start size in
  io_ret (mkRef id size).

Inductive Blob := mkBlob (type_ : str) (size_ : Z) (parts_ : list (BlobReference + Blob)).

Definition blob_type (b : Blob) : str := match b with mkBlob t _ _ => t end.
Definition blob_size (b : Blob) : Z := match b with mkBlob _ s _ => s end.
Definition blob_parts (b : Blob) : list (BlobReference + Blob) := match b with mkBlob _ _ p => p end.

(** [part.size] *)
Definition item_size (p : BlobReference + Blob) : Z :=
  match p with inl r => ref_size r | inr b => blob_size b end.

(** ** Text *)

Definition NORMALIZE_PATTERN : char_class := [(32, 126)].

Section Text.
Context (toLowerCase : str -> str) (encode : str -> list Z).

Definition normalizeType (s : str) : str :=
  let normalizedType := if forallb (in_class NORMALIZE_PATTERN) s then s else [] in
  toLowerCase normalizedType.

Definition collectCodepointsNotCRLF (input : str) (position : Z) : str * Z :=
  collectSequenceOfCodepoints input position (fun c => negb ((c =? 13) || (c =? 10))).

(** The loop: each round moves past a line end. *)
Fixpoint line_endings_loop (fuel : nat) (s : str) (result : str) (position : Z) : str :=
  match fuel with
  | O => result
  | S fuel =>
      if position <? slen s then
        let codePoint := charCodeAt s position in
        let '(result, position) :=
          if code_is codePoint 13 then
            let result := result ++ [10] in
            let position := position + 1 in
            (result, if (position <? slen s) && code_is (charCodeAt s position) 10 then position + 1 else position)
          else if code_is codePoint 10 then (result ++ [10], position + 1)
          else (result, position) in
        let (token, newPosition) := collectCodepointsNotCRLF s position in
        line_endings_loop fuel s (result ++ token) newPosition
      else result
  end.

(** [isWindows] is false in the code. *)
Definition convertLineEndingsToNative (s : str) : str :=
  let (result, position) := collectCodepointsNotCRLF s 0 in
  line_endings_loop (S (length s)) s result position.

(** ** Construction *)

(** An element of the constructor's argument; a view has a buffer, an offset and
    a length. *)
Inductive BlobInit :=
  | IArrayBuffer (buffer : list Z)
  | ITypedArray (buffer : list Z) (byteOffset byteLength : Z)
  | IDataView (buffer : list Z) (byteOffset byteLength : Z)
  | IBlob (b : Blob)
  | IString (s : str).

Definition view_bytes (buffer : list Z) (byteOffset byteLength : Z) : list Z :=
  slice buffer byteOffset (byteOffset + byteLength).

(** One round of the loop: the part and its size. *)
Definition process_element (element : BlobInit) (native : bool) : io Url ((BlobReference + Blob) * Z) :=
  match element with
  | IArrayBuffer buffer =>
      let! r := fromUint8Array (sliceFrom buffer 0) in io_ret (inl r, slen buffer)
  | ITypedArray buffer byteOffset byteLength | IDataView buffer byteOffset byteLength =>
      let! r := fromUint8Array (view_bytes buffer byteOffset byteLength) in io_ret (inl r, byteLength)
  | IBlob b => io_ret (inr b, blob_size b)
  | IString s =>
      let chunk := encode (if native then convertLineEndingsToNative s else s) in
      let! r := fromUint8Array chunk in io_ret (inl r, slen chunk)
  end.

Fixpoint processBlobParts (inits : list BlobInit) (native : bool) : io Url (list (BlobReference + Blob) * Z) :=
  match inits with
  | [] => io_ret ([], 0)
  | element :: inits =>
      let! first := process_element element native in
      let! rest := processBlobParts inits native in
      io_ret (first.1 :: rest.1, first.2 + rest.2)
  end.

Definition blob_new (inits : list BlobInit) (native : bool) (type_ : str) : io Url Blob :=
  let! r := processBlobParts inits native in
  io_ret (mkBlob (normalizeType type_) r.2 r.1).

(** ** Slicing *)

(** An argument of [slice], converted to a [long long] with clamping. *)
Definition to_index (x : option jnum) : jsres (option Z) :=
  match x with
  | None => Ok None
  | Some x => let? r := long_long (fun _ => false) Ok x (mkOpts false true) in Ok (Some (BigInt r))
  end.

(** [relativeStart] and [relativeEnd]. *)
Definition relative (size : Z) (i : option Z) (default : Z) : Z :=
  match i with
  | None => default
  | Some i => if i <? 0 then Z.max (size + i) 0 else Z.min i size
  end.

(** The loop of [slice]; [slice_nested] is the method on a part that is a blob. *)
Section SliceLoop.
Variables (slice_nested : Blob -> option jnum -> option jnum -> option str -> io Url Blob) (span : Z).

Definition slice_part (part : BlobReference + Blob) (start end_ : Z) : io Url (BlobReference + Blob) :=
  match part with
  | inl r => let! c := ref_slice r start end_ in io_ret (inl c)
  | inr b => let! c := slice_nested b (Some (int start)) (Some (int end_)) None in io_ret (inr c)
  end.

Fixpoint slice_loop (parts : list (BlobReference + Blob)) (relativeStart relativeEnd added : Z) :
    io Url (list (BlobReference + Blob)) :=
  match parts with
  | [] => io_ret []
  | part :: parts =>
      if span <=? added then io_ret []
      else
        let size := item_size part in
        if negb (relativeStart =? 0) && (size <=? relativeStart)
        then slice_loop parts (relativeStart - size) (relativeEnd - size) added
        else
          let! chunk := slice_part part relativeStart (Z.min size relativeEnd) in
          let! rest := slice_loop parts 0 (relativeEnd - size) (added + item_size chunk) in
          io_ret (chunk :: rest)
  end.
End SliceLoop.

Fixpoint blob_slice (b : Blob) (start end_ : option jnum) (contentType : option str) : io Url Blob :=
  match b with
  | mkBlob _ size parts =>
      let! start := io_of (to_index start) in
      let! end_ := io_of (to_index end_) in
      let relativeStart := relative size start 0 in
      let relativeEnd := relative size end_ size in
      let span := Z.max (relativeEnd - relativeStart) 0 in
      let! blobParts := slice_loop blob_slice span parts relativeStart relativeEnd 0 in
      let relativeContentType := match contentType with None => [] | Some t => normalizeType t end in
      io_ret (mkBlob (normalizeType relativeContentType) span blobParts)
  end.
End Text.

(** ** Reading *)

(** The chunks of [toIterator]: a reference gives its bytes in one piece, a blob
    the pieces of its stream, in which empty ones are left out. *)
Section Chunks.
Variable (nested_chunks : Blob -> io Url (list (list Z))).

Definition item_chunks (part : BlobReference + Blob) : io Url (list (list Z)) :=
  match part with
  | inl r => let! value := op_blob_read_part (ref_id r) in io_ret [value]
  | inr b => let! cs := nested_chunks b in io_ret (filter (fun c => c <> []) cs)
  end.

Fixpoint toIterator (parts : list (BlobReference + Blob)) : io Url (list (list Z)) :=
  match parts with
  | [] => io_ret []
  | part :: parts =>
      let! first := item_chunks part in
      let! rest := toIterator parts in
      io_ret (first ++ rest)
  end.
End Chunks.

Fixpoint blob_chunks (b : Blob) : io Url (list (list Z)) :=
  match b with mkBlob _ _ parts => toIterator blob_chunks parts end.

(** What a pull of [stream()] does: the next chunk that is not empty, or closing.
    The chunks are those of the iterator that are left. *)
Fixpoint stream_pull (chunks : list (list Z)) : option (list Z) * list (list Z) :=
  match chunks with
  | [] => (None, [])
  | value :: chunks => if 0 <? slen value then (Some value, chunks) else stream_pull chunks
  end.

(** [TypedArray.prototype.set] *)
Definition typed_array_set (bytes value : list Z) (offset : Z) : jsres (list Z) :=
  if slen bytes <? offset + slen value then Throw (JsRangeError "offset is out of bounds")
  else Ok (take (Z.to_nat offset) bytes ++ value ++ drop (Z.to_nat (offset + slen value)) bytes).

Fixpoint u8_loop (chunks : list (list Z)) (bytes : list Z) (offset : Z) : jsres (list Z) :=
  match chunks with
  | [] => Ok bytes
  | value :: chunks =>
      let byteLength := slen value in
      if 0 <? byteLength then
        let? bytes := typed_array_set bytes value offset in
        u8_loop chunks bytes (offset + byteLength)
      else u8_loop chunks bytes offset
  end.

Definition u8Array (b : Blob) (size : Z) : io Url (list Z) :=
  let! chunks := blob_chunks b in
  io_of (u8_loop chunks (replicate (Z.to_nat size) 0) 0).

Definition arrayBuffer (b : Blob) : io Url (list Z) := u8Array b (blob_size b).

Definition text (decode : list Z -> str) (b : Blob) : io Url str :=
  let! buffer := u8Array b (blob_size b) in io_ret (decode buffer).

(** ** Object URLs *)

Fixpoint getParts (b : Blob) (bag : list Z) : list Z :=
  match b with
  | mkBlob _ _ parts =>
      foldl (fun bag part => match part with inl r => bag ++ [ref_id r] | inr b => getParts b bag end) bag parts
  end.

Section ObjectUrl.
Context (new_url : Z -> Url) (parse : str -> jsres Url) (to_string : Url -> str)
  (without_fragment : Url -> Url) (scheme_blob : Url -> bool).

Fixpoint collect_parts (ids : list Z) : io Url (list BlobPart) :=
  match ids with
  | [] => io_ret []
  | id :: ids =>
      let! part := get_part id in
      match part with
      | None => io_throw part_not_found
      | Some part => let! rest := collect_parts ids in io_ret (part :: rest)
      end
  end.

Definition insert_object_url (b : StoredBlob) : io Url Url := fun s =>
  let url := new_url (next_uuid s) in
  (mkStore (parts s) (<[url := b]> (object_urls s)) (next_uuid s + 1), Ok url).

Definition op_blob_create_object_url (media_type : str) (part_ids : list Z) : io Url str :=
  let! ps := collect_parts part_ids in
  let! url := insert_object_url (mkStored media_type ps) in
  io_ret (to_string url).

Definition op_blob_revoke_object_url (url : str) : io Url unit :=
  let! url := io_of (parse url) in
  fun s => (mkStore (parts s) (delete url (object_urls s)) (next_uuid s), Ok tt).

(** The parts of a stored blob get new identifiers. *)
Fixpoint share_parts (ps : list BlobPart) : io Url (list BlobReference) :=
  match ps with
  | [] => io_ret []
  | p :: ps =>
      let! uuid := insert_part p in
      let! rest := share_parts ps in
      io_ret (mkRef uuid (part_size p) :: rest)
  end.

Definition op_blob_from_object_url (url : str) : io Url (option (str * list BlobReference)) :=
  let! url := io_of (parse url) in
  if negb (scheme_blob url) then io_ret None
  else fun s =>
    match object_urls s !! without_fragment url with
    | Some b => (let! ps := share_parts (stored_parts b) in io_ret (Some (media_type b, ps))) s
    | None => (s, Ok None)
    end.

Definition blobFromObjectUrl (url : str) : io Url (option Blob) :=
  let! blobData := op_blob_from_object_url url in
  match blobData with
  | None => io_ret None
  | Some (media_type, refs) =>
      io_ret (Some (mkBlob media_type (foldl (fun total r => total + ref_size r) 0 refs) (map inl refs)))
  end.

Definition createObjectURL (b : Blob) : io Url str := op_blob_create_object_url (blob_type b) (getParts b []).

Definition revokeObjectURL (url : str) : io Url unit := op_blob_revoke_object_url url.
End ObjectUrl.
End Blob.

(** ** Files *)

Record File := mkFile { file_blob : Blob; file_name : str; lastModified : Z }.

(** [now] is the clock; a given time has been converted to an integer. *)
Definition file_new {Url} `{Countable Url} (toLowerCase : str -> str) (encode : str -> list Z)
    (fileBits : list BlobInit) (fileName : str) (native : bool) (type_ : str) (last : option Z) (now : Z) : io Url File :=
  io_bind (blob_new toLowerCase encode fileBits native type_) (fun b =>
  io_ret (mkFile b fileName (match last with None => now | Some t => t end))).

(** ** Examples *)

Section Examples.
Let low := map ascii_lower.
Let enc (s : str) : list Z := s.

Example slice_across_parts :
  (io_bind (blob_new low enc [IString (lit "hello"); IArrayBuffer []; IString (lit " world")] false (lit "Text/Plain")) (fun b =>
   io_bind (blob_slice low b (Some (int 3)) (Some (int (-2))) None) (fun c =>
   io_bind (blob_new low enc [IString (lit "<"); IBlob c; IString (lit ">")] false []) (fun d =>
   io_bind (blob_slice low d (Some (int 1)) (Some (int 4)) (Some (lit "A/B"))) (fun e =>
   io_bind (arrayBuffer e) (fun bytes => io_ret (bytes, blob_size e, blob_type e))))))
   (empty_store (Url := str))).2 = Ok (lit "lo ", 3, lit "a/b").
Proof. by vm_compute. Qed.

Example native_endings : convertLineEndingsToNative (lit "a" ++ [13; 10] ++ lit "b" ++ [13; 13] ++ [10; 10]) =
  lit "a" ++ [10] ++ lit "b" ++ [10; 10; 10].
Proof. by vm_compute. Qed.
End Examples.
