(* ===== verification/BlobTheorems.v ===== *)
(** * Blobs: theorems

    A blob stands for a sequence of bytes: building one concatenates, [slice]
    takes the bytes between two clamped positions whatever the parts are, reading
    gives the bytes, and a blob goes through an object URL unchanged. *)

From Stdlib Require Import ZArith Lia.
From stdpp Require Import base list gmap numbers option strings.
From S2P Require Import Prelude JsNumber Infra WebIdl WebIdlTheorems Blob.

#[local] Open Scope Z_scope.

(** ** Windows of a list *)

(** The elements from position [a] up to position [b]. *)
Definition window {A} (l : list A) (a b : Z) : list A := take (Z.to_nat (b - a)) (drop (Z.to_nat a) l).

Lemma window_empty {A} (l : list A) a b : b <= a -> window l a b = [].
Proof. intros H. unfold window. by replace (Z.to_nat (b - a)) with 0%nat by lia. Qed.

Lemma slen_window {A} (l : list A) a b : 0 <= a -> b <= slen l -> slen (window l a b) = Z.max (b - a) 0.
Proof. intros Ha Hb. unfold window, slen in *. rewrite length_take, length_drop. lia. Qed.

Lemma window_skip {A} (l l' : list A) a b : slen l <= a -> window (l ++ l') a b = window l' (a - slen l) (b - slen l).
Proof.
  intros H. unfold window, slen in *. rewrite drop_app_ge by lia.
  replace (Z.to_nat (a - Z.of_nat (length l))) with (Z.to_nat a - length l)%nat by lia.
  replace (b - Z.of_nat (length l) - (a - Z.of_nat (length l))) with (b - a) by lia. done.
Qed.

Lemma window_app {A} (l l' : list A) a b : 0 <= a <= slen l -> a <= b ->
  window (l ++ l') a b = window l a (Z.min (slen l) b) ++ window l' 0 (b - slen l).
Proof.
  intros Ha Hb. unfold window, slen in *. rewrite drop_app_le by lia. change (drop (Z.to_nat 0) l') with l'.
  rewrite take_app. rewrite length_drop. f_equal.
  - destruct (Z.le_ge_cases b (Z.of_nat (length l))); [by rewrite Z.min_r by lia|]. rewrite Z.min_l by lia.
    rewrite !take_ge; [done|rewrite length_drop; lia|rewrite length_drop; lia].
  - f_equal. lia.
Qed.

Lemma window_all {A} (l : list A) : window l 0 (slen l) = l.
Proof. unfold window, slen. change (drop (Z.to_nat 0) l) with l. apply take_ge. lia. Qed.

Lemma window_window {A} (l : list A) a b c d : 0 <= c <= d -> d <= b - a -> 0 <= a ->
  window (window l a b) c d = window l (a + c) (a + d).
Proof.
  intros H1 H2 Ha. unfold window. rewrite skipn_firstn_comm, drop_drop, take_take. f_equal; [lia|]. f_equal. lia.
Qed.

(** [slice] on arrays with positions in range is a window. *)
Lemma slice_window {A} (l : list A) a b : 0 <= a <= slen l -> 0 <= b <= slen l -> slice l a b = window l a b.
Proof.
  intros Ha Hb. unfold slice, clamp_index, window. rewrite !(proj2 (Z.ltb_ge _ _)) by lia. by rewrite !Z.min_l by lia.
Qed.

(** ** What parts and blobs stand for *)

Fixpoint part_ok (p : BlobPart) : Prop :=
  match p with
  | InMemoryBlobPart _ => True
  | SlicedBlobPart p start len => part_ok p /\ 0 <= start /\ 0 <= len /\ start + len <= part_size p
  end.

Fixpoint part_bytes (p : BlobPart) : list Z :=
  match p with
  | InMemoryBlobPart data => data
  | SlicedBlobPart p start len => window (part_bytes p) start (start + len)
  end.

Lemma part_bytes_size p : part_ok p -> slen (part_bytes p) = part_size p.
Proof.
  destruct p as [|p start len]; [done|]. revert start len.
  induction p as [data|p IH s l]; intros start len (Hp & H1 & H2 & H3); cbn [part_bytes part_size] in *.
  - rewrite slen_window; lia.
  - rewrite slen_window; [lia|lia|]. rewrite (IH s l Hp). lia.
Qed.

Lemma part_size_nonneg p : part_ok p -> 0 <= part_size p.
Proof. intros H. rewrite <-part_bytes_size by done. apply slen_nonneg. Qed.

Lemma part_read_spec p : part_ok p -> part_read p = Ok (part_bytes p).
Proof.
  induction p as [|p IH start len]; [done|]. intros (Hp & H1 & H2 & H3). cbn [part_read part_bytes]. rewrite IH by done. cbn [jsbind].
  rewrite (part_bytes_size p Hp). rewrite !(proj2 (Z.leb_le _ _)) by lia. simpl. f_equal. apply slice_window; rewrite part_bytes_size by done; lia.
Qed.

Section Blobs.
Context {Url : Type} `{Countable Url}.
Implicit Types st : BlobStore Url.

(** Identifiers are handed out in turn. *)
Definition store_ok st : Prop := map_Forall (fun id p => id < next_uuid st /\ part_ok p) (parts st).

Definition ref_ok st (r : BlobReference) : Prop :=
  exists p, parts st !! ref_id r = Some p /\ part_ok p /\ part_size p = ref_size r.

Definition ref_bytes st (r : BlobReference) : list Z :=
  match parts st !! ref_id r with Some p => part_bytes p | None => [] end.

Fixpoint items_size (ps : list (BlobReference + Blob)) : Z :=
  match ps with [] => 0 | p :: ps => item_size p + items_size ps end.

(** A blob whose references are in the store and whose sizes add up. *)
Fixpoint blob_ok st (b : Blob) : Prop :=
  match b with
  | mkBlob _ size ps =>
      size = items_size ps /\
      foldr (fun p rest => match p with inl r => ref_ok st r | inr b => blob_ok st b end /\ rest) True ps
  end.

Fixpoint blob_bytes st (b : Blob) : list Z :=
  match b with
  | mkBlob _ _ ps => flat_map (fun p => match p with inl r => ref_bytes st r | inr b => blob_bytes st b end) ps
  end.

Definition item_ok st (p : BlobReference + Blob) : Prop := match p with inl r => ref_ok st r | inr b => blob_ok st b end.
Definition item_bytes st (p : BlobReference + Blob) : list Z := match p with inl r => ref_bytes st r | inr b => blob_bytes st b end.
Definition items_bytes st (ps : list (BlobReference + Blob)) : list Z := flat_map (item_bytes st) ps.

Lemma blob_ok_unfold st t size ps : blob_ok st (mkBlob t size ps) <-> size = items_size ps /\ Forall (item_ok st) ps.
Proof.
  cbn [blob_ok]. enough (E : foldr (fun p rest => match p with inl r => ref_ok st r | inr b => blob_ok st b end /\ rest) True ps <->
    Forall (item_ok st) ps) by (by rewrite E). induction ps as [|p ps IH]; simpl; [done|]. rewrite IH, Forall_cons. done.
Qed.

(** Induction over nested blobs. *)
Lemma blob_nested_ind (P : Blob -> Prop) :
  (forall t size ps, Forall (fun p => match p with inl _ => True | inr b => P b end) ps -> P (mkBlob t size ps)) -> forall b, P b.
Proof.
  intros Hstep. fix IH 1. intros [t size ps]. apply Hstep. induction ps as [|p ps IHps]; constructor; [|exact IHps].
  destruct p as [r|b]; [exact I|apply IH].
Qed.

Lemma item_size_spec st p : item_ok st p -> slen (item_bytes st p) = item_size p.
Proof.
  assert (Hb : forall b, blob_ok st b -> slen (blob_bytes st b) = blob_size b).
  { apply (blob_nested_ind (fun b => blob_ok st b -> slen (blob_bytes st b) = blob_size b)). intros t size ps HF Hok.
    apply blob_ok_unfold in Hok as [-> Hok]. change (blob_bytes st (mkBlob t (items_size ps) ps)) with (items_bytes st ps). simpl.
    induction ps as [|p' ps IH]; [done|]. apply Forall_cons in HF as [HF1 HF], Hok as [Hok1 Hok]. unfold items_bytes in *. simpl.
    rewrite slen_app, IH by done. f_equal. destruct p' as [r|b]; [|by apply HF1].
    destruct Hok1 as (q & Hq & Hp & Hs). simpl. unfold ref_bytes. rewrite Hq, <-Hs. by apply part_bytes_size. }
  destruct p as [r|b]; [|apply Hb]. intros (q & Hq & Hp & Hs). simpl. unfold ref_bytes. rewrite Hq, <-Hs. by apply part_bytes_size.
Qed.

Lemma item_size_nonneg st p : item_ok st p -> 0 <= item_size p.
Proof. intros Hp. rewrite <-(item_size_spec st p Hp). apply slen_nonneg. Qed.

Lemma items_size_spec st ps : Forall (item_ok st) ps -> slen (items_bytes st ps) = items_size ps.
Proof.
  induction 1 as [|p ps Hp _ IH]; [done|]. unfold items_bytes in *. simpl. by rewrite slen_app, IH, (item_size_spec st p Hp).
Qed.

(** ** Growing the store *)

Definition extends st st' : Prop := parts st ⊆ parts st' /\ object_urls st' = object_urls st.

#[export] Instance extends_preorder : PreOrder extends.
Proof.
  split; [by intros st|]. intros a b c [H1 H2] [H3 H4]. split; [by transitivity (parts b)|congruence].
Qed.

Lemma item_extends st st' p : parts st ⊆ parts st' -> item_ok st p -> item_ok st' p /\ item_bytes st' p = item_bytes st p.
Proof.
  intros Hsub. assert (Hr : forall r, ref_ok st r -> ref_ok st' r /\ ref_bytes st' r = ref_bytes st r).
  { intros r (q & Hq & Hp & Hs). pose proof (lookup_weaken _ _ _ _ Hq Hsub) as Hq'. split; [by exists q|].
    unfold ref_bytes. by rewrite Hq, Hq'. }
  assert (Hb : forall b, blob_ok st b -> blob_ok st' b /\ blob_bytes st' b = blob_bytes st b).
  { apply (blob_nested_ind (fun b => blob_ok st b -> blob_ok st' b /\ blob_bytes st' b = blob_bytes st b)). intros t size ps HF Hok.
    apply blob_ok_unfold in Hok as [-> Hok].
    enough (Forall (item_ok st') ps /\ items_bytes st' ps = items_bytes st ps) as [H1 H2] by (split; [by apply blob_ok_unfold|done]).
    induction ps as [|p' ps IH]; [done|]. apply Forall_cons in HF as [HF1 HF], Hok as [Hok1 Hok]. destruct (IH HF Hok) as [H1 H2].
    assert (item_ok st' p' /\ item_bytes st' p' = item_bytes st p') as [H3 H4] by (destruct p' as [r|b]; [by apply Hr|by apply HF1]).
    split; [by constructor|]. unfold items_bytes in *. simpl. by rewrite H2, H4. }
  destruct p; [apply Hr|apply Hb].
Qed.

Lemma items_extends st st' ps : parts st ⊆ parts st' -> Forall (item_ok st) ps ->
  Forall (item_ok st') ps /\ items_bytes st' ps = items_bytes st ps.
Proof.
  intros Hsub. induction 1 as [|p ps Hp _ [IH1 IH2]]; [done|]. destruct (item_extends st st' p Hsub Hp) as [H1 H2].
  split; [by constructor|]. unfold items_bytes in *. simpl. by rewrite H2, IH2.
Qed.

Lemma insert_part_spec st p : store_ok st -> part_ok p ->
  exists st', insert_part p st = (st', Ok (next_uuid st)) /\ store_ok st' /\ extends st st' /\
    parts st' !! next_uuid st = Some p.
Proof.
  intros Hst Hp. eexists. split; [done|]. assert (Hn : parts st !! next_uuid st = None).
  { destruct (parts st !! next_uuid st) as [q|] eqn:E; [|done]. destruct (Hst _ _ E). lia. }
  split; [|split].
  - apply map_Forall_insert_2; [split; [simpl; lia|done]|]. intros id q Hq. destruct (Hst _ _ Hq). simpl. split; [lia|done].
  - split; [by apply insert_subseteq|done].
  - simpl. by rewrite lookup_insert_eq.
Qed.

(** ** Slicing *)

Definition max_size : Z := 2 ^ 53 - 1.

Lemma long_long_clamped x : is_nan (value x) = false ->
  exists r, long_long (fun _ => false) Ok x (mkOpts false true) = Ok r /\
    value r = num_of_Z (match value x with Fin q => clamp_Z (- max_size) max_size (nearest_even q) | Inf true => - max_size | _ => max_size end).
Proof.
  intros Hn. pose proof (long_long_number (fun _ => false) Ok false x x (mkOpts false true) eq_refl eq_refl) as Hl.
  unfold idl_long_long, idl_convert in Hl. cbn [enforceRange clamp] in Hl. destruct (value x) as [|[]|q]; done.
Qed.

Lemma to_index_int z : - max_size <= z <= max_size -> to_index (Some (int z)) = Ok (Some z).
Proof.
  intros Hz. destruct (long_long_clamped (int z) eq_refl) as (r & Hr & Hv). cbn [to_index]. rewrite Hr. cbn [jsbind].
  change (value (int z)) with (Fin (QArith_base.inject_Z z)) in Hv. cbv iota in Hv. rewrite nearest_even_Z in Hv. unfold BigInt. rewrite Hv. unfold clamp_Z.
  rewrite Z.max_l, Z.min_l by lia. unfold num_of_Z. by rewrite Qround.Qfloor_Z.
Qed.

Lemma ref_slice_spec st r a b : store_ok st -> ref_ok st r -> 0 <= a <= b -> b <= ref_size r ->
  exists st' r', ref_slice r a b st = (st', Ok r') /\ store_ok st' /\ extends st st' /\ ref_ok st' r' /\
    ref_size r' = b - a /\ ref_bytes st' r' = window (ref_bytes st r) a b.
Proof.
  intros Hst (p & Hp & Hpok & Hs) Hab Hb. unfold ref_slice, op_blob_slice_part, io_bind, get_part.
  rewrite (proj2 (Z.ltb_ge a 0)), (proj2 (Z.ltb_ge (b - a) 0)) by lia. cbn [orb]. rewrite Hp.
  rewrite (proj2 (Z.ltb_ge _ _)) by lia.
  assert (Hn : part_ok (SlicedBlobPart p a (b - a))) by (simpl; repeat split; [done|lia..]).
  destruct (insert_part_spec st _ Hst Hn) as (st' & -> & Hst' & Hext & Hl).
  eexists _, _. split; [done|]. split; [done|]. split; [done|]. split; [by exists (SlicedBlobPart p a (b - a))|].
  split; [done|]. unfold ref_bytes. simpl ref_id. rewrite Hl, Hp. cbn [part_bytes]. f_equal. lia.
Qed.

Section Slice.
Context (toLowerCase : str -> str).

(** What [slice] does on a blob, for positions that were made relative. *)
Definition slice_result (b : Blob) (start end_ : Z) (st : BlobStore Url) (res : BlobStore Url * jsres Blob) : Prop :=
  exists st' b', res = (st', Ok b') /\ store_ok st' /\ extends st st' /\ blob_ok st' b' /\
    blob_size b' = Z.max (end_ - start) 0 /\ blob_bytes st' b' = window (blob_bytes st b) start end_.

Definition slices (b : Blob) : Prop := forall st start end_ s e ct,
  store_ok st -> blob_ok st b -> blob_size b <= max_size -> to_index start = Ok s -> to_index end_ = Ok e ->
  slice_result b (relative (blob_size b) s 0) (relative (blob_size b) e (blob_size b)) st (blob_slice toLowerCase b start end_ ct st).

(** A part that is a reference or a blob for which [slice] is right. *)
Lemma slice_part_spec st p a b : store_ok st -> item_ok st p -> match p with inl _ => True | inr b => slices b end ->
  item_size p <= max_size -> 0 <= a <= b -> b <= item_size p ->
  exists st' c, slice_part (blob_slice toLowerCase) p a b st = (st', Ok c) /\ store_ok st' /\ extends st st' /\ item_ok st' c /\
    item_size c = b - a /\ item_bytes st' c = window (item_bytes st p) a b.
Proof.
  intros Hst Hp Hs Hm Hab Hb. unfold slice_part, io_bind. destruct p as [r|blob].
  - destruct (ref_slice_spec st r a b Hst Hp Hab Hb) as (st' & r' & -> & H1 & H2 & H3 & H4 & H5). by exists st', (inl r').
  - simpl in Hm, Hb. destruct (Hs st (Some (int a)) (Some (int b)) (Some a) (Some b) None Hst Hp Hm) as (st' & b' & -> & H1 & H2 & H3 & H4 & H5);
      [apply to_index_int; lia|apply to_index_int; lia|].
    unfold relative in H4, H5. rewrite (proj2 (Z.ltb_ge a 0)), (proj2 (Z.ltb_ge b 0)), !Z.min_l in H4, H5 by lia.
    exists st', (inr b'). split; [done|]. split; [done|]. split; [done|]. split; [done|]. split; [simpl; lia|done].
Qed.

Lemma slice_loop_spec ps : forall st span rs re added, store_ok st -> Forall (item_ok st) ps ->
  Forall (fun p => match p with inl _ => True | inr b => slices b end) ps -> items_size ps <= max_size ->
  0 <= rs -> re <= items_size ps -> span - added = Z.max (re - rs) 0 ->
  exists st' cs, slice_loop (blob_slice toLowerCase) span ps rs re added st = (st', Ok cs) /\ store_ok st' /\ extends st st' /\
    Forall (item_ok st') cs /\ items_size cs = Z.max (re - rs) 0 /\ items_bytes st' cs = window (items_bytes st ps) rs re.
Proof.
  induction ps as [|p ps IH]; intros st span rs re added Hst Hok HF Hm Hrs Hre Hspan; cbn [slice_loop].
  - exists st, []. split; [done|]. split; [done|]. split; [done|]. split; [constructor|]. simpl in Hre. split; [simpl; lia|].
    by rewrite window_empty by lia.
  - destruct (Z.leb_spec span added) as [Hd|Hd].
    { exists st, []. split; [done|]. split; [done|]. split; [done|]. split; [constructor|]. split; [simpl; lia|]. by rewrite window_empty by lia. }
    apply Forall_cons in Hok as [Hp Hok], HF as [HFp HF]. cbn [items_size] in *.
    pose proof (item_size_nonneg st p Hp). pose proof (item_size_spec st p Hp) as Hsz. pose proof (items_size_spec st ps Hok) as Hssz.
    pose proof (slen_nonneg (items_bytes st ps)). change (items_bytes st (p :: ps)) with (item_bytes st p ++ items_bytes st ps).
    destruct (negb (rs =? 0) && (item_size p <=? rs)) eqn:E.
    + reflect_bools. destruct (IH st span (rs - item_size p) (re - item_size p) added) as (st' & cs & K1 & K2 & K3 & K4 & K5 & K6);
        [done|done|done|lia|lia|lia|lia|].
      exists st', cs. rewrite window_skip, Hsz by lia. split; [done|]. split; [done|]. split; [done|]. split; [done|]. split; [lia|done].
    + assert (rs <= item_size p) by (destruct (Z.eqb_spec rs 0); [lia|]; simpl in E; apply Z.leb_gt in E; lia).
      destruct (slice_part_spec st p rs (Z.min (item_size p) re) Hst Hp HFp) as (st1 & c & E1 & K1 & K2 & K3 & K4 & K5); [lia|lia|lia|].
      destruct (items_extends st st1 ps (proj1 K2) Hok) as [Hok1 Hb1].
      destruct (IH st1 span 0 (re - item_size p) (added + item_size c)) as (st2 & cs & E2 & G1 & G2 & G3 & G4 & G5);
        [done|done|done|lia|lia|lia|lia|].
      unfold io_bind. rewrite E1, E2. destruct (item_extends st1 st2 c (proj1 G2) K3) as [K3' K5'].
      exists st2, (c :: cs). split; [done|]. split; [done|]. split; [by transitivity st1|]. split; [by constructor|].
      split; [simpl; lia|]. change (items_bytes st2 (c :: cs)) with (item_bytes st2 c ++ items_bytes st2 cs).
      rewrite G5, K5', K5, Hb1. rewrite window_app by lia. by rewrite Hsz.
Qed.

Lemma relative_bounds size i d : 0 <= size -> 0 <= d <= size -> 0 <= relative size i d <= size.
Proof. intros Hs Hd. unfold relative. destruct i as [i|]; [|lia]. destruct (Z.ltb_spec i 0); lia. Qed.

Lemma blob_slice_spec b : slices b.
Proof.
  revert b. apply blob_nested_ind. intros t size ps HF st start end_ s e ct Hst Hok Hm Hs He.
  pose proof Hok as Hok'. apply blob_ok_unfold in Hok' as [-> Hok']. cbn [blob_slice blob_size] in *. unfold io_bind, io_of. rewrite Hs, He.
  pose proof (items_size_spec st ps Hok') as Hsz. pose proof (slen_nonneg (items_bytes st ps)).
  pose proof (relative_bounds (items_size ps) s 0 ltac:(lia) ltac:(lia)) as Hr1.
  pose proof (relative_bounds (items_size ps) e (items_size ps) ltac:(lia) ltac:(lia)) as Hr2.
  set (rs := relative (items_size ps) s 0) in *. set (re := relative (items_size ps) e (items_size ps)) in *.
  destruct (slice_loop_spec ps st (Z.max (re - rs) 0) rs re 0) as (st' & cs & E & K1 & K2 & K3 & K4 & K5); [done|done|done|lia|lia|lia|lia|].
  rewrite E. eexists _, _. split; [done|]. split; [done|]. split; [done|]. split; [by apply blob_ok_unfold|]. split; [done|]. exact K5.
Qed.
End Slice.
(** ** Reading *)

Lemma op_read_spec st r : ref_ok st r -> op_blob_read_part (ref_id r) st = (st, Ok (ref_bytes st r)).
Proof.
  intros (p & Hp & Hok & _). unfold op_blob_read_part, io_bind, get_part, io_of, ref_bytes. rewrite Hp. by rewrite part_read_spec.
Qed.

Lemma concat_nonempty (cs : list (list Z)) : concat (filter (fun c => c <> []) cs) = concat cs.
Proof.
  induction cs as [|c cs IH]; [done|]. rewrite filter_cons. case_decide as Hc; simpl; rewrite IH; [done|].
  destruct c; [done|]. discriminate Hc.
Qed.

Lemma blob_chunks_spec b : forall st, blob_ok st b ->
  exists cs, blob_chunks b st = (st, Ok cs) /\ concat cs = blob_bytes st b.
Proof.
  revert b. apply (blob_nested_ind (fun b => forall st, blob_ok st b ->
    exists cs, blob_chunks b st = (st, Ok cs) /\ concat cs = blob_bytes st b)).
  intros t size ps HF st Hok. apply blob_ok_unfold in Hok as [_ Hok]. cbn [blob_chunks].
  change (blob_bytes st (mkBlob t size ps)) with (items_bytes st ps).
  induction ps as [|p ps IH]; [by exists []|]. apply Forall_cons in HF as [HF1 HF], Hok as [Hok1 Hok].
  destruct (IH HF Hok) as (cs & E & Hcs). cbn [toIterator]. unfold io_bind, item_chunks. destruct p as [r|b].
  - unfold io_bind. rewrite (op_read_spec st r Hok1). unfold io_ret at 1. rewrite E. eexists. split; [done|]. rewrite concat_app, Hcs. simpl. by rewrite app_nil_r.
  - destruct (HF1 st Hok1) as (cs1 & E1 & Hcs1). unfold io_bind. rewrite E1. unfold io_ret at 1. rewrite E. eexists. split; [done|].
    by rewrite concat_app, Hcs, concat_nonempty, Hcs1.
Qed.

Lemma u8_loop_spec cs done rest : length rest = length (concat cs) ->
  u8_loop cs (done ++ rest) (slen done) = Ok (done ++ concat cs).
Proof.
  revert done rest. induction cs as [|c cs IH]; intros done rest Hl; cbn [u8_loop concat] in *.
  - by destruct rest.
  - rewrite length_app in Hl. destruct (Z.ltb_spec 0 (slen c)) as [Hc|Hc].
    + unfold typed_array_set. rewrite (proj2 (Z.ltb_ge _ _)) by (unfold slen; rewrite length_app; lia). cbn [jsbind].
      replace (Z.to_nat (slen done)) with (length done) by (unfold slen; lia). rewrite take_app_length.
      rewrite drop_app_ge by (unfold slen; lia).
      replace (Z.to_nat (slen done + slen c) - length done)%nat with (length c) by (unfold slen; lia).
      rewrite app_assoc. replace (slen done + slen c) with (slen (done ++ c)) by apply slen_app.
      rewrite IH by (rewrite length_drop; lia). by rewrite <-app_assoc.
    + destruct c; [|unfold slen in Hc; simpl in Hc; lia]. simpl in *. by apply IH.
Qed.

Lemma arrayBuffer_spec st b : blob_ok st b -> arrayBuffer b st = (st, Ok (blob_bytes st b)).
Proof.
  intros Hok. unfold arrayBuffer, u8Array, io_bind, io_of. destruct (blob_chunks_spec b st Hok) as (cs & -> & Hcs).
  f_equal. pose proof (item_size_spec st (inr b) Hok) as Hs. simpl in Hs.
  pose proof (u8_loop_spec cs [] (replicate (Z.to_nat (blob_size b)) 0)) as Hu. change (slen []) with 0 in Hu. cbn [app] in Hu.
  rewrite Hu, Hcs; [done|]. rewrite length_replicate, Hcs. unfold slen in Hs. lia.
Qed.

(** The chunks that a consumer of [stream()] gets. *)
Fixpoint stream_all (fuel : nat) (chunks : list (list Z)) : list (list Z) :=
  match fuel with
  | O => []
  | S fuel => match stream_pull chunks with
              | (None, _) => []
              | (Some value, chunks) => value :: stream_all fuel chunks
              end
  end.

Lemma stream_all_spec fuel cs : (length cs < fuel)%nat ->
  stream_all fuel cs = filter (fun c => c <> []) cs.
Proof.
  revert fuel. induction cs as [|c cs IH]; intros fuel Hf; (destruct fuel as [|fuel]; [simpl in Hf; lia|]); [done|]. simpl in Hf.
  rewrite filter_cons. cbn [stream_all stream_pull]. destruct (Z.ltb_spec 0 (slen c)) as [Hc|Hc].
  - rewrite decide_True by (intros ->; done). f_equal. apply IH. lia.
  - destruct c; [|unfold slen in Hc; simpl in Hc; lia]. rewrite decide_False by auto.
    rewrite <-(IH (S fuel)) by lia. done.
Qed.

(** ** Construction *)

Section New.
Context (toLowerCase : str -> str) (encode : str -> list Z).

(** The bytes of an element of the argument. *)
Definition init_bytes st (native : bool) (i : BlobInit) : list Z :=
  match i with
  | IArrayBuffer buffer => buffer
  | ITypedArray buffer off len | IDataView buffer off len => window buffer off (off + len)
  | IBlob b => blob_bytes st b
  | IString s => encode (if native then convertLineEndingsToNative s else s)
  end.

(** A view lies in its buffer. *)
Definition init_ok st (i : BlobInit) : Prop :=
  match i with
  | ITypedArray buffer off len | IDataView buffer off len => 0 <= off /\ 0 <= len /\ off + len <= slen buffer
  | IBlob b => blob_ok st b
  | _ => True
  end.

Lemma fromUint8Array_spec st data : store_ok st -> exists st' r, fromUint8Array data st = (st', Ok r) /\
  store_ok st' /\ extends st st' /\ ref_ok st' r /\ ref_size r = slen data /\ ref_bytes st' r = data.
Proof.
  intros Hst. unfold fromUint8Array, op_blob_create_part, io_bind.
  destruct (insert_part_spec st (InMemoryBlobPart data) Hst I) as (st' & -> & H1 & H2 & H3).
  eexists _, _. split; [done|]. split; [done|]. split; [done|]. split; [by exists (InMemoryBlobPart data)|]. split; [done|].
  unfold ref_bytes. simpl. by rewrite H3.
Qed.

Lemma init_extends st st' native i : parts st ⊆ parts st' -> init_ok st i -> init_ok st' i /\ init_bytes st' native i = init_bytes st native i.
Proof. intros Hsub Hi. destruct i; simpl in *; try done. by destruct (item_extends st st' (inr b) Hsub Hi). Qed.

Lemma element_spec st i native : store_ok st -> init_ok st i ->
  exists st1 p, process_element encode i native st = (st1, Ok (p, item_size p)) /\ store_ok st1 /\ extends st st1 /\ item_ok st1 p /\
    item_bytes st1 p = init_bytes st native i.
Proof.
  intros Hst Hi. unfold process_element, io_bind. destruct i as [buffer|buffer off len|buffer off len|b|s]; cbn [init_ok init_bytes] in *.
  - destruct (fromUint8Array_spec st (sliceFrom buffer 0) Hst) as (st1 & r & -> & H1 & H2 & H3 & H4 & H5).
      assert (E : sliceFrom buffer 0 = buffer) by apply slice_all. rewrite E in *. exists st1, (inl r). simpl. by rewrite H4.
  - destruct (fromUint8Array_spec st (view_bytes buffer off len) Hst) as (st1 & r & -> & H1 & H2 & H3 & H4 & H5).
      unfold view_bytes in *. rewrite slice_window in * by lia. rewrite slen_window in H4 by lia. exists st1, (inl r). simpl.
      replace (ref_size r) with len by lia. done.
  - destruct (fromUint8Array_spec st (view_bytes buffer off len) Hst) as (st1 & r & -> & H1 & H2 & H3 & H4 & H5).
      unfold view_bytes in *. rewrite slice_window in * by lia. rewrite slen_window in H4 by lia. exists st1, (inl r). simpl.
      replace (ref_size r) with len by lia. done.
  - by exists st, (inr b).
  - cbv zeta. destruct (fromUint8Array_spec st (encode (if native then convertLineEndingsToNative s else s)) Hst) as (st1 & r & -> & H1 & H2 & H3 & H4 & H5).
      exists st1, (inl r). simpl. by rewrite H4.
Qed.

Lemma process_spec inits native : forall st, store_ok st -> Forall (init_ok st) inits ->
  exists st' ps, processBlobParts encode inits native st = (st', Ok (ps, items_size ps)) /\ store_ok st' /\ extends st st' /\
    Forall (item_ok st') ps /\ items_bytes st' ps = flat_map (init_bytes st native) inits.
Proof.
  induction inits as [|i inits IH]; intros st Hst HF; [by exists st, []|]. apply Forall_cons in HF as [Hi HF].
  destruct (element_spec st i native Hst Hi) as (st1 & p & E1 & H1 & H2 & H3 & H4). cbn [processBlobParts]. unfold io_bind at 1. rewrite E1.
  assert (HF1 : Forall (init_ok st1) inits) by (eapply Forall_impl; [exact HF|]; intros j Hj; by destruct (init_extends st st1 native j (proj1 H2) Hj)).
  destruct (IH st1 H1 HF1) as (st2 & ps & E2 & G1 & G2 & G3 & G4). unfold io_bind. rewrite E2.
  destruct (item_extends st1 st2 p (proj1 G2) H3) as [H3' H4'].
  exists st2, (p :: ps). split; [done|]. split; [done|]. split; [by transitivity st1|]. split; [by constructor|].
  change (items_bytes st2 (p :: ps)) with (item_bytes st2 p ++ items_bytes st2 ps). rewrite G4, H4', H4. simpl. f_equal.
  clear -HF H2. induction HF as [|j l Hj _ IHl]; [done|]. simpl. rewrite IHl. f_equal. by destruct (init_extends st st1 native j (proj1 H2) Hj).
Qed.

Lemma blob_new_spec inits native t st : store_ok st -> Forall (init_ok st) inits ->
  exists st' b, blob_new toLowerCase encode inits native t st = (st', Ok b) /\ store_ok st' /\ extends st st' /\ blob_ok st' b /\
    blob_bytes st' b = flat_map (init_bytes st native) inits /\ blob_type b = normalizeType toLowerCase t.
Proof.
  intros Hst HF. destruct (process_spec inits native st Hst HF) as (st' & ps & E & H1 & H2 & H3 & H4).
  unfold blob_new, io_bind. rewrite E. eexists _, _. split; [done|]. split; [done|]. split; [done|]. split; [by apply blob_ok_unfold|]. done.
Qed.
End New.
(** ** Object URLs *)

Fixpoint blob_ids (b : Blob) : list Z :=
  match b with mkBlob _ _ ps => flat_map (fun p => match p with inl r => [ref_id r] | inr b => blob_ids b end) ps end.

Lemma getParts_ids b bag : getParts b bag = bag ++ blob_ids b.
Proof.
  revert b bag. apply (blob_nested_ind (fun b => forall bag, getParts b bag = bag ++ blob_ids b)). intros t size ps HF bag.
  cbn [getParts blob_ids]. revert bag. induction ps as [|p ps IH]; intros bag; simpl; [by rewrite app_nil_r|].
  apply Forall_cons in HF as [HFp HF]. rewrite (IH HF). destruct p as [r|b]; [by rewrite <-app_assoc|]. by rewrite HFp, <-app_assoc.
Qed.

Lemma collect_parts_app ids ids' st ps ps' : collect_parts ids st = (st, Ok ps) -> collect_parts ids' st = (st, Ok ps') ->
  collect_parts (ids ++ ids') st = (st, Ok (ps ++ ps')).
Proof.
  revert ps. induction ids as [|id ids IH]; intros ps; cbn [collect_parts app].
  - by intros [= <-].
  - unfold io_bind, get_part. destruct (parts st !! id) as [p|]; [|done].
    destruct (collect_parts ids st) as [st' [rest|]] eqn:E; [|done]. intros [= -> <-] H'. by rewrite (IH rest).
Qed.

Lemma collect_parts_spec st b : blob_ok st b -> exists ps, collect_parts (blob_ids b) st = (st, Ok ps) /\
  Forall part_ok ps /\ flat_map part_bytes ps = blob_bytes st b.
Proof.
  revert b. apply (blob_nested_ind (fun b => blob_ok st b -> exists ps, collect_parts (blob_ids b) st = (st, Ok ps) /\
    Forall part_ok ps /\ flat_map part_bytes ps = blob_bytes st b)).
  intros t size ps HF Hok. apply blob_ok_unfold in Hok as [_ Hok]. change (blob_bytes st (mkBlob t size ps)) with (items_bytes st ps).
  cbn [blob_ids]. induction ps as [|p ps IH]; [by exists []|]. apply Forall_cons in HF as [HF1 HF], Hok as [Hok1 Hok].
  destruct (IH HF Hok) as (qs & E & H1 & H2). cbn [flat_map].
  assert (exists q, collect_parts (match p with inl r => [ref_id r] | inr b => blob_ids b end) st = (st, Ok q) /\ Forall part_ok q /\
    flat_map part_bytes q = item_bytes st p) as (q & Eq & H3 & H4).
  { destruct p as [r|b]; [|by apply HF1]. destruct Hok1 as (q & Hq & Hp & Hs). exists [q]. cbn [collect_parts]. unfold io_bind, get_part.
    rewrite Hq. split; [done|]. split; [by constructor|]. simpl. rewrite app_nil_r. unfold ref_bytes. by rewrite Hq. }
  exists (q ++ qs). split; [by apply collect_parts_app|]. split; [by apply Forall_app|]. rewrite flat_map_app, H4, H2. done.
Qed.

Lemma share_parts_spec ps : forall st, store_ok st -> Forall part_ok ps ->
  exists st' refs, share_parts ps st = (st', Ok refs) /\ store_ok st' /\ extends st st' /\
    Forall (item_ok st') (map inl refs) /\ items_bytes st' (map inl refs) = flat_map part_bytes ps.
Proof.
  induction ps as [|p ps IH]; intros st Hst HF; [by exists st, []|]. apply Forall_cons in HF as [Hp HF]. cbn [share_parts]. unfold io_bind.
  destruct (insert_part_spec st p Hst Hp) as (st1 & -> & H1 & H2 & H3). destruct (IH st1 H1 HF) as (st2 & refs & -> & G1 & G2 & G3 & G4).
  eexists _, _. split; [done|]. split; [done|]. split; [by transitivity st1|].
  pose proof (lookup_weaken _ _ _ _ H3 (proj1 G2)) as H4. simpl map. split; [constructor; [by exists p|done]|].
  unfold items_bytes in *. simpl. rewrite G4. f_equal. unfold ref_bytes. simpl. by rewrite H4.
Qed.

Lemma total_size refs n : foldl (fun total r => total + ref_size r) n refs = n + items_size (map inl refs).
Proof. revert n. induction refs as [|r refs IH]; intros n; simpl; [lia|]. rewrite IH. lia. Qed.

Section Urls.
Context (new_url : Z -> Url) (parse : str -> jsres Url) (to_string : Url -> str)
  (without_fragment : Url -> Url) (scheme_blob : Url -> bool).

(** The URL library on the URLs that are made here. *)
Record url_library : Prop := {
  url_parse : forall i, parse (to_string (new_url i)) = Ok (new_url i);
  url_scheme : forall i, scheme_blob (new_url i) = true;
  url_fragment : forall i, without_fragment (new_url i) = new_url i;
}.

Lemma create_url_spec st b : store_ok st -> blob_ok st b ->
  exists st1 ps, createObjectURL new_url to_string b st = (st1, Ok (to_string (new_url (next_uuid st)))) /\ store_ok st1 /\
    parts st1 = parts st /\ object_urls st1 = <[new_url (next_uuid st) := mkStored (blob_type b) ps]> (object_urls st) /\
    Forall part_ok ps /\ flat_map part_bytes ps = blob_bytes st b.
Proof.
  intros Hst Hok. unfold createObjectURL, op_blob_create_object_url. rewrite getParts_ids. cbn [app].
  destruct (collect_parts_spec st b Hok) as (ps & E & H1 & H2). unfold io_bind. rewrite E.
  eexists _, ps. split; [done|]. split; [|done]. intros id p Hp. destruct (Hst id p Hp). simpl. split; [lia|done].
Qed.

Lemma from_url_spec st i t ps : url_library -> store_ok st -> Forall part_ok ps -> object_urls st !! new_url i = Some (mkStored t ps) ->
  exists st' b, blobFromObjectUrl parse without_fragment scheme_blob (to_string (new_url i)) st = (st', Ok (Some b)) /\
    store_ok st' /\ extends st st' /\ blob_ok st' b /\ blob_bytes st' b = flat_map part_bytes ps /\ blob_type b = t.
Proof.
  intros [L1 L2 L3] Hst Hp Hu. unfold blobFromObjectUrl, op_blob_from_object_url, io_bind, io_of. rewrite L1, L2. cbv beta iota delta [negb].
  rewrite L3, Hu. cbn [stored_parts media_type]. destruct (share_parts_spec ps st Hst Hp) as (st' & refs & -> & H1 & H2 & H3 & H4).
  eexists _, _. split; [done|]. split; [done|]. split; [done|]. split; [|done].
  apply blob_ok_unfold. split; [|done]. rewrite total_size. lia.
Qed.
(** ** Blobs in use *)

(** What a program holds: the store and the blobs it can reach. *)
Record world := mkWorld { w_store : BlobStore Url; w_live : list Blob }.

Section World.
Context (toLowerCase : str -> str) (encode : str -> list Z).

(** An init of the constructor is made of buffers and blobs at hand. *)
Definition init_live (live : list Blob) (i : BlobInit) : Prop :=
  match i with
  | ITypedArray buffer off len | IDataView buffer off len => 0 <= off /\ 0 <= len /\ off + len <= slen buffer
  | IBlob b => b ∈ live
  | _ => True
  end.

(** The calls of a program and the work of the garbage collector: a part is
    removed once no blob at hand refers to it. *)
Inductive blob_step : world -> world -> Prop :=
  | step_new st live inits native t st' b :
      Forall (init_live live) inits -> blob_new toLowerCase encode inits native t st = (st', Ok b) ->
      blob_step (mkWorld st live) (mkWorld st' (b :: live))
  | step_slice st live b start end_ ct st' b' :
      b ∈ live -> blob_size b <= max_size -> blob_slice toLowerCase b start end_ ct st = (st', Ok b') ->
      blob_step (mkWorld st live) (mkWorld st' (b' :: live))
  | step_create_url st live b st' url :
      b ∈ live -> createObjectURL new_url to_string b st = (st', Ok url) -> blob_step (mkWorld st live) (mkWorld st' live)
  | step_from_url st live url st' b :
      blobFromObjectUrl parse without_fragment scheme_blob url st = (st', Ok (Some b)) ->
      blob_step (mkWorld st live) (mkWorld st' (b :: live))
  | step_revoke st live url st' :
      revokeObjectURL parse url st = (st', Ok tt) -> blob_step (mkWorld st live) (mkWorld st' live)
  | step_forget st live b live' : live ≡ₚ b :: live' -> blob_step (mkWorld st live) (mkWorld st live')
  | step_finalize st live id st' :
      Forall (fun b => id ∉ blob_ids b) live -> op_blob_remove_part id st = (st', Ok tt) ->
      blob_step (mkWorld st live) (mkWorld st' live).

Definition world_ok (w : world) : Prop :=
  store_ok (w_store w) /\ map_Forall (fun _ b => Forall part_ok (stored_parts b)) (object_urls (w_store w)) /\
  Forall (blob_ok (w_store w)) (w_live w).

Lemma live_extends st st' (live : list Blob) : parts st ⊆ parts st' -> Forall (blob_ok st) live -> Forall (blob_ok st') live.
Proof. intros Hsub HF. eapply Forall_impl; [exact HF|]. intros b Hb. by destruct (item_extends st st' (inr b) Hsub Hb). Qed.

Lemma blob_ok_parts st st' b : parts st' = parts st -> blob_ok st b -> blob_ok st' b.
Proof. intros E Hb. assert (Hsub : parts st ⊆ parts st') by by rewrite E. by destruct (item_extends st st' (inr b) Hsub Hb). Qed.

(** Removing a part that a blob does not refer to. *)
Lemma remove_keeps st st' id b : parts st' = delete id (parts st) -> id ∉ blob_ids b -> blob_ok st b -> blob_ok st' b.
Proof.
  intros E. revert b. apply (blob_nested_ind (fun b => id ∉ blob_ids b -> blob_ok st b -> blob_ok st' b)). intros t size ps HF Hid Hok.
  apply blob_ok_unfold in Hok as [-> Hok]. apply blob_ok_unfold. split; [done|]. cbn [blob_ids] in Hid.
  induction ps as [|p ps IH]; [constructor|]. apply Forall_cons in HF as [HF1 HF], Hok as [Hok1 Hok]. cbn [flat_map] in Hid.
  rewrite elem_of_app in Hid. constructor; [|apply IH; tauto]. destruct p as [r|b]; [|by apply HF1; tauto].
  destruct Hok1 as (q & Hq & Hp). exists q. split; [|done]. rewrite E. apply lookup_delete_Some. split; [|done].
  intros ->. apply Hid. left. by left.
Qed.

Lemma blob_step_ok w w' : world_ok w -> blob_step w w' -> world_ok w'.
Proof.
  intros (Hst & Hu & HF) Hstep. destruct Hstep as [st live inits native t st' b Hi E|st live b start end_ ct st' b' Hb Hs E|
    st live b st' url Hb E|st live url st' b E|st live url st' E|st live b live' Hp|st live id st' Hi E]; simpl in *.
  - assert (Hi' : Forall (init_ok st) inits).
    { eapply Forall_impl; [exact Hi|]. intros i Hlive. destruct i; try done. rewrite Forall_forall in HF. by apply HF. }
    destruct (blob_new_spec toLowerCase encode inits native t st Hst Hi') as (st1 & b1 & E1 & H1 & H2 & H3 & _).
    rewrite E in E1. injection E1 as <- <-. split; [done|]. destruct H2 as [H2 H2']. simpl. split; [by rewrite H2'|].
    constructor; [done|]. by apply (live_extends st).
  - rewrite Forall_forall in HF. pose proof (HF b Hb) as Hok.
    assert (Hix : forall x, exists s, to_index x = Ok s).
    { intros [x|]; [|by exists None]. unfold to_index. pose proof (long_long_number (fun _ => false) Ok false x x (mkOpts false true) eq_refl eq_refl) as Hl.
      unfold long_long. destruct (idl_long_long false (mkOpts false true) (value x)) eqn:El; [destruct Hl as (r & -> & _); by eexists|].
      unfold idl_long_long, idl_convert in El. cbn [enforceRange clamp] in El. by destruct (value x). }
    destruct (Hix start) as [s1 Es], (Hix end_) as [e1 Ee].
    destruct (blob_slice_spec toLowerCase b st start end_ s1 e1 ct Hst Hok Hs Es Ee) as (st1 & b1 & E1 & H1 & H2 & H3 & _).
    rewrite E in E1. injection E1 as <- <-. split; [done|]. destruct H2 as [H2 H2']. simpl. split; [by rewrite H2'|].
    constructor; [done|]. apply (live_extends st); [done|]. by apply Forall_forall.
  - rewrite Forall_forall in HF. pose proof (HF b Hb) as Hok.
    destruct (create_url_spec st b Hst Hok) as (st1 & ps & E1 & H1 & H2 & H3 & H4 & _). rewrite E in E1. injection E1 as <- _.
    split; [done|]. simpl. split; [rewrite H3; by apply map_Forall_insert_2|].
    apply (live_extends st); [by rewrite H2|]. by apply Forall_forall.
  - unfold blobFromObjectUrl, op_blob_from_object_url, io_bind, io_of in E. destruct (parse url) as [u|]; [|done].
    destruct (negb (scheme_blob u)); [done|]. destruct (object_urls st !! without_fragment u) as [sb|] eqn:Eu; [|done].
    destruct (share_parts_spec (stored_parts sb) st Hst (Hu _ _ Eu)) as (st1 & refs & E1 & H1 & H2 & H3 & _). rewrite E1 in E.
    injection E as <- <-. split; [done|]. destruct H2 as [H2 H2']. simpl. split; [by rewrite H2'|].
    constructor; [|by apply (live_extends st)]. apply blob_ok_unfold. split; [|done]. rewrite total_size. lia.
  - unfold revokeObjectURL, op_blob_revoke_object_url, io_bind, io_of in E. destruct (parse url) as [u|]; [|done]. injection E as <-.
    split; [done|]. simpl. split; [by apply map_Forall_delete|]. eapply Forall_impl; [exact HF|]. intros b. by apply blob_ok_parts.
  - split; [done|]. split; [done|]. simpl. rewrite Hp in HF. by apply Forall_cons in HF as [_ HF].
  - injection E as <-. split; [by apply map_Forall_delete|]. split; [done|]. simpl. rewrite Forall_forall in *. intros b Hb.
    by apply (remove_keeps st _ id); [|apply Hi|apply HF].
Qed.
End World.
End Urls.
End Blobs.

(** ** Line endings *)

(** Every line end is a line feed. *)
Fixpoint native_lines (s : str) : str :=
  match s with
  | [] => []
  | c :: s' =>
      if c =? 13 then 10 :: match s' with d :: s'' => if d =? 10 then native_lines s'' else native_lines s' | [] => [] end
      else c :: native_lines s'
  end.

Lemma native_lines_plain w s : Forall (fun c => negb ((c =? 13) || (c =? 10)) = true) w ->
  native_lines (w ++ s) = w ++ native_lines s.
Proof.
  induction 1 as [|c w Hc _ IH]; [done|]. cbn [native_lines app]. rewrite IH. by destruct (c =? 13).
Qed.

Lemma collect_lines pre w rest : Forall (fun c => negb ((c =? 13) || (c =? 10)) = true) w ->
  match rest with c :: _ => negb ((c =? 13) || (c =? 10)) = false | [] => True end ->
  collectCodepointsNotCRLF (pre ++ w ++ rest) (slen pre) = (w, slen pre + slen w).
Proof. apply collectSequence_spec. Qed.

(** A round of the loop that has just passed a line end. *)
Lemma line_endings_rest fuel pre s acc :
  (forall pre' rest acc', (length rest <= length s)%nat ->
     match rest with c :: _ => negb ((c =? 13) || (c =? 10)) = false | [] => True end ->
     line_endings_loop fuel (pre' ++ rest) acc' (slen pre') = acc' ++ native_lines rest) ->
  (let (token, newPosition) := collectCodepointsNotCRLF (pre ++ s) (slen pre) in
   line_endings_loop fuel (pre ++ s) (acc ++ token) newPosition) = acc ++ native_lines s.
Proof.
  intros IH. destruct (span_split (fun c => negb ((c =? 13) || (c =? 10))) s) as (w & rest & -> & Hw & Hr).
  rewrite collect_lines by done. rewrite app_assoc, <-slen_app, IH; [|rewrite length_app; lia|done].
  by rewrite native_lines_plain, app_assoc.
Qed.

Lemma line_endings_loop_spec fuel : forall pre rest acc, (length rest < fuel)%nat ->
  match rest with c :: _ => negb ((c =? 13) || (c =? 10)) = false | [] => True end ->
  line_endings_loop fuel (pre ++ rest) acc (slen pre) = acc ++ native_lines rest.
Proof.
  induction fuel as [|fuel IH]; intros pre rest acc Hf Hr; [lia|]. cbn [line_endings_loop].
  destruct rest as [|c rest]; [rewrite app_nil_r, Z.ltb_irrefl; by rewrite app_nil_r|].
  rewrite (proj2 (Z.ltb_lt _ _)) by (rewrite slen_app, slen_cons; slen_pos; lia). rewrite charCodeAt_middle by done.
  replace (pre ++ c :: rest) with ((pre ++ [c]) ++ rest) by by rewrite <-app_assoc.
  replace (slen pre + 1) with (slen (pre ++ [c])) by (rewrite slen_app, slen_cons, slen_nil; lia). cbn [code_is native_lines]. simpl in Hf.
  destruct (Z.eqb_spec c 13) as [->|Hc].
  - destruct rest as [|d rest].
    + rewrite (proj2 (Z.ltb_ge _ _)) by (rewrite app_nil_r; lia). cbn [andb]. rewrite line_endings_rest; [by rewrite <-app_assoc|].
      intros pre' rest' acc' Hl Hr'. apply IH; [simpl in *; lia|done].
    + rewrite (proj2 (Z.ltb_lt _ _)) by (rewrite !slen_app, !slen_cons; slen_pos; lia). rewrite charCodeAt_middle by done. cbn [code_is andb].
      destruct (d =? 10) eqn:Ed.
      * apply Z.eqb_eq in Ed as ->. replace ((pre ++ [13]) ++ 10 :: rest) with ((pre ++ [13; 10]) ++ rest) by by rewrite <-!app_assoc.
        replace (slen (pre ++ [13]) + 1) with (slen (pre ++ [13; 10])) by (rewrite !slen_app, !slen_cons, !slen_nil; lia).
        rewrite line_endings_rest; [by rewrite <-app_assoc|]. intros pre' rest' acc' Hl Hr'. apply IH; [simpl in *; lia|done].
      * rewrite line_endings_rest; [by rewrite <-app_assoc|]. intros pre' rest' acc' Hl Hr'. apply IH; [simpl in *; lia|done].
  - destruct (Z.eqb_spec c 10) as [->|Hc']; [|done]. rewrite line_endings_rest; [by rewrite <-app_assoc|].
    intros pre' rest' acc' Hl Hr'. apply IH; [lia|done].
Qed.

Lemma convert_spec_lines s : convertLineEndingsToNative s = native_lines s.
Proof.
  unfold convertLineEndingsToNative. apply (line_endings_rest (S (length s)) [] s []).
  intros pre rest acc Hl Hr. apply line_endings_loop_spec; [lia|done].
Qed.

Lemma native_lines_no_cr s : Forall (fun c => c <> 13) (native_lines s).
Proof.
  induction s as [s IH] using (induction_ltof1 _ (@length Z)). destruct s as [|c s]; [constructor|]. cbn [native_lines].
  unfold ltof in IH. destruct (Z.eqb_spec c 13) as [->|Hc].
  - constructor; [done|]. destruct s as [|d s]; [constructor|]. destruct (d =? 10); apply IH; simpl; lia.
  - constructor; [done|]. apply IH. simpl. lia.
Qed.

Lemma native_lines_id s : Forall (fun c => c <> 13) s -> native_lines s = s.
Proof.
  induction 1 as [|c s Hc _ IH]; [done|]. cbn [native_lines]. by rewrite (proj2 (Z.eqb_neq c 13)), IH.
Qed.

(** ** Theorems *)

Lemma relative_slice {A} (l : list A) s e :
  window l (relative (slen l) s 0) (relative (slen l) e (slen l)) = slice l (default 0 s) (default (slen l) e).
Proof.
  pose proof (slen_nonneg l). unfold window, slice, clamp_index, relative.
  assert (E1 : match s with None => 0 | Some i => if i <? 0 then Z.max (slen l + i) 0 else Z.min i (slen l) end =
    (if default 0 s <? 0 then Z.max 0 (slen l + default 0 s) else Z.min (default 0 s) (slen l))).
  { destruct s as [i|]; simpl; [by rewrite Z.max_comm|lia]. }
  assert (E2 : match e with None => slen l | Some i => if i <? 0 then Z.max (slen l + i) 0 else Z.min i (slen l) end =
    (if default (slen l) e <? 0 then Z.max 0 (slen l + default (slen l) e) else Z.min (default (slen l) e) (slen l))).
  { destruct e as [i|]; simpl; [by rewrite Z.max_comm|]. rewrite (proj2 (Z.ltb_ge _ _)) by done. lia. }
  by rewrite E1, E2.
Qed.

(** C29. [slice] is [Array.prototype.slice] on the bytes: whatever parts a blob is
    made of, blobs in blobs included, the slice reads as the bytes between the two
    positions, its size is their number, and the original still reads as before. *)
Theorem blob_slice_bytes {Url : Type} `{Countable Url} (toLowerCase : str -> str) (st : BlobStore Url) (b : Blob)
    (start end_ : option jnum) (s e : option Z) (ct : option str) :
  store_ok st -> blob_ok st b -> blob_size b <= max_size -> to_index start = Ok s -> to_index end_ = Ok e ->
  exists st' b' bytes, blob_slice toLowerCase b start end_ ct st = (st', Ok b') /\
    arrayBuffer b st = (st, Ok bytes) /\ arrayBuffer b st' = (st', Ok bytes) /\
    arrayBuffer b' st' = (st', Ok (slice bytes (default 0 s) (default (slen bytes) e))) /\
    blob_size b' = slen (slice bytes (default 0 s) (default (slen bytes) e)).
Proof.
  intros Hst Hok Hm Hs He.
  destruct (blob_slice_spec toLowerCase b st start end_ s e ct Hst Hok Hm Hs He) as (st' & b' & E & H1 & H2 & H3 & H4 & H5).
  destruct (item_extends st st' (inr b) (proj1 H2) Hok) as [Hok' Hb']. pose proof (item_size_spec st (inr b) Hok) as Hsz. simpl in Hsz, Hb', Hok'.
  rewrite <-Hsz in H4, H5. rewrite relative_slice in H5.
  exists st', b', (blob_bytes st b). split; [done|]. split; [by apply arrayBuffer_spec|].
  split; [rewrite <-Hb'; by apply arrayBuffer_spec|]. rewrite <-H5. split; [by apply arrayBuffer_spec|].
  symmetry. by apply (item_size_spec st' (inr b')).
Qed.

Lemma blob_slice_bytes_witness :
  let b := mkBlob [] 5 [inl (mkRef 0 2); inr (mkBlob [] 3 [inl (mkRef 1 3)])] in
  let st := mkStore (Url := Z) {[0 := InMemoryBlobPart [1; 2]; 1 := InMemoryBlobPart [3; 4; 5]]} ∅ 2 in
  exists st' b', blob_slice id b (Some (int 1)) (Some (int (-1))) None st = (st', Ok b') /\ (arrayBuffer b' st').2 = Ok [2; 3; 4].
Proof.
  destruct (blob_slice_bytes id (mkStore (Url := Z) {[0 := InMemoryBlobPart [1; 2]; 1 := InMemoryBlobPart [3; 4; 5]]} ∅ 2)
    (mkBlob [] 5 [inl (mkRef 0 2); inr (mkBlob [] 3 [inl (mkRef 1 3)])]) (Some (int 1)) (Some (int (-1))) (Some 1) (Some (-1)) None)
    as (st' & b' & bytes & H1 & H2 & _ & H4 & _).
  - apply map_Forall_insert_2; [split; [simpl; lia|exact I]|]. apply map_Forall_singleton. split; [simpl; lia|exact I].
  - apply blob_ok_unfold. split; [reflexivity|]. constructor; [by exists (InMemoryBlobPart [1; 2])|]. constructor; [|constructor].
    apply blob_ok_unfold. split; [reflexivity|]. constructor; [by exists (InMemoryBlobPart [3; 4; 5])|constructor].
  - unfold max_size. simpl. lia.
  - reflexivity.
  - reflexivity.
  - exists st', b'. assert (Eb : bytes = [1; 2; 3; 4; 5]) by (injection H2 as <-; reflexivity).
    subst bytes. split; [exact H1|]. rewrite H4. reflexivity.
Defined.

(** C3. Blobs stay readable: in every state a program can reach by constructing
    and slicing blobs, making, resolving and revoking object URLs, while the
    garbage collector removes parts that no blob at hand refers to, reading a blob
    at hand succeeds, gives as many bytes as its size says, and its stream gives
    the same bytes in chunks that are not empty. *)
Theorem blobs_stay_readable {Url : Type} `{Countable Url} (new_url : Z -> Url) (parse : str -> jsres Url)
    (to_string : Url -> str) (without_fragment : Url -> Url) (scheme_blob : Url -> bool)
    (toLowerCase : str -> str) (encode : str -> list Z) (w : world) (b : Blob) :
  rtc (blob_step new_url parse to_string without_fragment scheme_blob toLowerCase encode) (mkWorld empty_store []) w ->
  b ∈ w_live w ->
  exists bytes chunks, arrayBuffer b (w_store w) = (w_store w, Ok bytes) /\ slen bytes = blob_size b /\
    blob_chunks b (w_store w) = (w_store w, Ok chunks) /\
    concat (stream_all (S (length chunks)) chunks) = bytes /\ Forall (fun c => c <> []) (stream_all (S (length chunks)) chunks).
Proof.
  intros Hr Hb. assert (Hw : world_ok w).
  { revert Hr. apply rtc_ind_r; [split; [apply map_Forall_empty|]; split; [apply map_Forall_empty|constructor]|].
    intros w1 w2 _ Hs Hok. by eapply blob_step_ok. }
  destruct Hw as (_ & _ & HF). rewrite Forall_forall in HF. specialize (HF b Hb).
  destruct (blob_chunks_spec b (w_store w) HF) as (cs & E & Hcs).
  exists (blob_bytes (w_store w) b), cs. split; [by apply arrayBuffer_spec|]. split; [by apply (item_size_spec _ (inr b))|].
  split; [done|]. rewrite stream_all_spec by lia. split; [by rewrite concat_nonempty|].
  apply Forall_forall. intros c Hc. by apply list_elem_of_filter in Hc as [Hc _].
Qed.

Lemma blobs_stay_readable_witness :
  exists w b, rtc (blob_step (fun i => i) (fun _ => Ok 0) (fun _ => []) (fun u => u) (fun _ => true) id id) (mkWorld empty_store []) w /\
    b ∈ w_live w /\ blob_size b = 2 /\ exists bytes, arrayBuffer b (w_store w) = (w_store w, Ok bytes) /\ slen bytes = 2.
Proof.
  pose (st := (blob_new (Url := Z) id id [IArrayBuffer [7; 8]] false [] empty_store).1).
  pose (b := mkBlob [] 2 [inl (mkRef 0 2)]).
  exists (mkWorld st [b]), b.
  assert (Hr : rtc (blob_step (fun i => i) (fun _ => Ok 0) (fun _ => []) (fun u => u) (fun _ => true) id id) (mkWorld empty_store []) (mkWorld st [b])).
  { apply rtc_once. apply (step_new _ _ _ _ _ _ _ empty_store [] [IArrayBuffer [7; 8]] false []); [by repeat constructor|reflexivity]. }
  assert (Hb : b ∈ w_live (mkWorld st [b])) by by left.
  split; [exact Hr|]. split; [exact Hb|]. split; [reflexivity|].
  destruct (blobs_stay_readable _ _ _ _ _ _ _ _ b Hr Hb) as (bytes & chunks & H1 & H2 & _). exists bytes. exact (conj H1 H2).
Defined.

(** A blob goes through an object URL: the URL that [createObjectURL] returns
    gives back a blob with the same type and the same bytes, whatever became of
    the parts of the original, until the URL is revoked. *)
Lemma blob_url_roundtrip {Url : Type} `{Countable Url} (new_url : Z -> Url) (parse : str -> jsres Url)
    (to_string : Url -> str) (without_fragment : Url -> Url) (scheme_blob : Url -> bool) (st : BlobStore Url) (b : Blob) :
  url_library new_url parse to_string without_fragment scheme_blob -> store_ok st -> blob_ok st b ->
  exists st1 url bytes, createObjectURL new_url to_string b st = (st1, Ok url) /\ arrayBuffer b st = (st, Ok bytes) /\
    forall st2, store_ok st2 -> object_urls st2 = object_urls st1 ->
      (exists st3 b', blobFromObjectUrl parse without_fragment scheme_blob url st2 = (st3, Ok (Some b')) /\
         blob_type b' = blob_type b /\ arrayBuffer b' st3 = (st3, Ok bytes)) /\
      (exists st3, revokeObjectURL parse url st2 = (st3, Ok tt) /\
         blobFromObjectUrl parse without_fragment scheme_blob url st3 = (st3, Ok None)).
Proof.
  intros Hl Hst Hok. destruct (create_url_spec new_url to_string st b Hst Hok) as (st1 & ps & E & H1 & H2 & H3 & H4 & H5).
  exists st1, (to_string (new_url (next_uuid st))), (blob_bytes st b). split; [done|]. split; [by apply arrayBuffer_spec|].
  intros st2 Hst2 Eu. split.
  - destruct (from_url_spec new_url parse to_string without_fragment scheme_blob st2 (next_uuid st) (blob_type b) ps Hl Hst2 H4)
      as (st3 & b' & E3 & G1 & G2 & G3 & G4 & G5); [by rewrite Eu, H3, lookup_insert_eq|].
    exists st3, b'. split; [done|]. split; [done|]. rewrite <-H5, <-G4. by apply arrayBuffer_spec.
  - destruct Hl as [L1 L2 L3]. unfold revokeObjectURL, op_blob_revoke_object_url, io_bind, io_of. rewrite L1. eexists. split; [done|].
    unfold blobFromObjectUrl, op_blob_from_object_url, io_bind, io_of. rewrite L1, L2. cbv beta iota delta [negb].
    rewrite L3. simpl object_urls. by rewrite lookup_delete_eq.
Qed.

Lemma blob_url_roundtrip_witness :
  let st := mkStore (Url := Z) {[0 := InMemoryBlobPart [1; 2]]} ∅ 1 in
  let b := mkBlob (lit "a/b") 2 [inl (mkRef 0 2)] in
  exists st1 url, createObjectURL (fun i => i) (fun i => [i]) b st = (st1, Ok url) /\
    exists st3 b', blobFromObjectUrl (fun s => match s with [i] => Ok i | _ => Throw (JsTypeError "Invalid URL") end) (fun u => u) (fun _ => true)
      url (mkStore ∅ (object_urls st1) 5) = (st3, Ok (Some b')) /\ blob_type b' = lit "a/b".
Proof.
  destruct (blob_url_roundtrip (fun i => i) (fun s => match s with [i] => Ok i | _ => Throw (JsTypeError "Invalid URL") end)
    (fun i => [i]) (fun u => u) (fun _ => true) (mkStore (Url := Z) {[0 := InMemoryBlobPart [1; 2]]} ∅ 1) (mkBlob (lit "a/b") 2 [inl (mkRef 0 2)]))
    as (st1 & url & bytes & H1 & _ & H2).
  - split; reflexivity.
  - apply map_Forall_singleton. split; [simpl; lia|exact I].
  - apply blob_ok_unfold. split; [reflexivity|]. constructor; [by exists (InMemoryBlobPart [1; 2])|constructor].
  - exists st1, url. split; [exact H1|].
    destruct (H2 (mkStore ∅ (object_urls st1) 5)) as [(st3 & b' & H3 & H4 & _) _]; [apply map_Forall_empty|reflexivity|].
    exists st3, b'. exact (conj H3 H4).
Defined.

(** The constructor concatenates: a new blob reads as the bytes of its
    elements in order, where with native line endings every carriage return, with
    the line feed after it if there is one, becomes one line feed. *)
Lemma blob_new_bytes {Url : Type} `{Countable Url} (toLowerCase : str -> str) (encode : str -> list Z)
    (st : BlobStore Url) (inits : list BlobInit) (native : bool) (t : str) :
  store_ok st -> Forall (init_ok st) inits ->
  exists st' b, blob_new toLowerCase encode inits native t st = (st', Ok b) /\ blob_type b = normalizeType toLowerCase t /\
    arrayBuffer b st' = (st', Ok (flat_map (fun i => match i with
      | IString s => encode (if native then native_lines s else s)
      | _ => init_bytes encode st native i
      end) inits)).
Proof.
  intros Hst HF. destruct (blob_new_spec toLowerCase encode inits native t st Hst HF) as (st' & b & E & H1 & H2 & H3 & H4 & H5).
  exists st', b. split; [done|]. split; [done|]. rewrite (arrayBuffer_spec st' b H3), H4. do 2 f_equal.
  apply flat_map_ext. intros [ | | | |s]; try done. simpl. by rewrite convert_spec_lines.
Qed.

Lemma blob_new_bytes_witness :
  exists st' b, blob_new (Url := Z) id id [IString [97; 13; 10; 98]; ITypedArray [1; 2; 3] 1 2] true (lit "x") empty_store = (st', Ok b) /\
    arrayBuffer b st' = (st', Ok [97; 10; 98; 2; 3]).
Proof.
  destruct (blob_new_bytes (Url := Z) id id empty_store [IString [97; 13; 10; 98]; ITypedArray [1; 2; 3] 1 2] true (lit "x"))
    as (st' & b & H1 & _ & H2).
  - apply map_Forall_empty.
  - constructor; [exact I|]. constructor; [|constructor]. simpl. unfold slen. simpl. lia.
  - exists st', b. exact (conj H1 H2).
Defined.
