(* ===== verification/EventTarget.v ===== *)
(** * Events and event targets

    Models [src/ext/web/02_event.js]: the [Event] flags, listeners, the event
    path, dispatch, and the report of exceptions.

    A world holds the targets with their listeners, the events and, for the
    properties, a log of the listeners that were called.  A listener is an object,
    compared by identity, so it has a number.  User code is the parameter [call]:
    what a callback does to the world and what it throws.  Nodes are objects of
    the user too: [nodeType], [parentNode] and [getRootNode] are parameters.
    [isSlottable] is false in the code, so there are no slots; the activation
    target is computed by the code and never used. *)

From Stdlib Require Import ZArith Lia.
From stdpp Require Import base list gmap numbers option strings.
From S2P Require Import Prelude.

#[local] Open Scope Z_scope.

(** ** Data *)

(** A callback is a function, an object whose [handleEvent] is called, or the
    closure that an abort signal runs to remove a listener; each has an identity. *)
Inductive Callback :=
  | CbFunction (f : Z)
  | CbObject (o : Z)
  | CbAbortSteps (id : Z) (self : Z) (type_ : str) (cb : Callback) (capture : bool).

#[export] Instance callback_eq_dec : EqDecision Callback.
Proof.
  intros a b. revert b. induction a as [f|o|id self t cb IH c]; intros b; destruct b as [f'|o'|id' self' t' cb' c'];
    try (right; congruence).
  - destruct (decide (f = f')); [left|right]; congruence.
  - destruct (decide (o = o')); [left|right]; congruence.
  - destruct (IH cb'); [|right; congruence].
    destruct (decide (id = id' /\ self = self' /\ t = t' /\ c = c')) as [(-> & -> & -> & ->)|]; [left; congruence|right; naive_solver].
Defined.

Record Listener := mkListener {
  lid : Z;
  callback : Callback;
  capture : bool;
  once : bool;
  passive : bool;
}.

#[export] Instance listener_eq_dec : EqDecision Listener.
Proof. solve_decision. Defined.

Record TargetData := mkTarget {
  host : option Z;
  mode : str;
  listeners : gmap str (list Listener);
}.

Definition getDefaultTargetData : TargetData := mkTarget None [] ∅.

(** An item of the path; the list of touch targets is always empty. *)
Record path_item := mkItem {
  item : Z;
  itemInShadowTree : bool;
  item_target : option Z;
  item_relatedTarget : option Z;
  rootOfClosedTree : bool;
  slotInClosedTree : bool;
}.

Definition NONE : Z := 0.
Definition CAPTURING_PHASE : Z := 1.
Definition AT_TARGET : Z := 2.
Definition BUBBLING_PHASE : Z := 3.

Record Event := mkEvent {
  type_ : str;
  bubbles : bool;
  cancelable : bool;
  currentTarget : option Z;
  eventPhase : Z;
  target : option Z;
  relatedTarget : option Z;
  canceledFlag : bool;
  stopPropagationFlag : bool;
  stopImmediatePropagationFlag : bool;
  inPassiveListener : bool;
  dispatched : bool;
  path : list path_item;
}.

(** The state of a signal; [AbortSignal] says what its fields are. *)
Record SignalData := mkSignal {
  abortReason : option Z;
  abortAlgos : option (list Z);
  dependent : bool;
  sourceSignals : option (list Z);
  dependentSignals : option (list Z);
  timerId : option Z;
}.

Record world := mkWorld {
  targets : gmap Z TargetData;
  events : gmap Z Event;
  signals : gmap Z SignalData;
  refs : gmap Z bool;
  next_id : Z;
  stackedCalls : Z;
  unhandled : list Z;
  isUnloadDispatched : bool;
  log : list (Z * Z);
}.

Definition set_targets f w := mkWorld (f (targets w)) (events w) (signals w) (refs w) (next_id w) (stackedCalls w) (unhandled w) (isUnloadDispatched w) (log w).
Definition set_events f w := mkWorld (targets w) (f (events w)) (signals w) (refs w) (next_id w) (stackedCalls w) (unhandled w) (isUnloadDispatched w) (log w).
Definition set_signals f w := mkWorld (targets w) (events w) (f (signals w)) (refs w) (next_id w) (stackedCalls w) (unhandled w) (isUnloadDispatched w) (log w).
Definition set_refs f w := mkWorld (targets w) (events w) (signals w) (f (refs w)) (next_id w) (stackedCalls w) (unhandled w) (isUnloadDispatched w) (log w).
Definition set_next_id n w := mkWorld (targets w) (events w) (signals w) (refs w) n (stackedCalls w) (unhandled w) (isUnloadDispatched w) (log w).
Definition set_stacked n w := mkWorld (targets w) (events w) (signals w) (refs w) (next_id w) n (unhandled w) (isUnloadDispatched w) (log w).
Definition add_unhandled e w := mkWorld (targets w) (events w) (signals w) (refs w) (next_id w) (stackedCalls w) (unhandled w ++ [e]) (isUnloadDispatched w) (log w).
Definition set_unload w := mkWorld (targets w) (events w) (signals w) (refs w) (next_id w) (stackedCalls w) (unhandled w) true (log w).
Definition add_log x w := mkWorld (targets w) (events w) (signals w) (refs w) (next_id w) (stackedCalls w) (unhandled w) (isUnloadDispatched w) (log w ++ [x]).

(** ** Accessors of events *)

Definition upd (e : Z) (f : Event -> Event) : world -> world := set_events (alter f e).

Definition setCurrentTarget (e : Z) (v : option Z) := upd e (fun x =>
  mkEvent (type_ x) (bubbles x) (cancelable x) v (eventPhase x) (target x) (relatedTarget x) (canceledFlag x) (stopPropagationFlag x) (stopImmediatePropagationFlag x) (inPassiveListener x) (dispatched x) (path x)).
Definition setEventPhase (e : Z) (v : Z) := upd e (fun x =>
  mkEvent (type_ x) (bubbles x) (cancelable x) (currentTarget x) v (target x) (relatedTarget x) (canceledFlag x) (stopPropagationFlag x) (stopImmediatePropagationFlag x) (inPassiveListener x) (dispatched x) (path x)).
Definition setTarget (e : Z) (v : option Z) := upd e (fun x =>
  mkEvent (type_ x) (bubbles x) (cancelable x) (currentTarget x) (eventPhase x) v (relatedTarget x) (canceledFlag x) (stopPropagationFlag x) (stopImmediatePropagationFlag x) (inPassiveListener x) (dispatched x) (path x)).
Definition setRelatedTarget (e : Z) (v : option Z) := upd e (fun x =>
  mkEvent (type_ x) (bubbles x) (cancelable x) (currentTarget x) (eventPhase x) (target x) v (canceledFlag x) (stopPropagationFlag x) (stopImmediatePropagationFlag x) (inPassiveListener x) (dispatched x) (path x)).
Definition setCanceled (e : Z) (v : bool) := upd e (fun x =>
  mkEvent (type_ x) (bubbles x) (cancelable x) (currentTarget x) (eventPhase x) (target x) (relatedTarget x) v (stopPropagationFlag x) (stopImmediatePropagationFlag x) (inPassiveListener x) (dispatched x) (path x)).
Definition setStopPropagation (e : Z) (v : bool) := upd e (fun x =>
  mkEvent (type_ x) (bubbles x) (cancelable x) (currentTarget x) (eventPhase x) (target x) (relatedTarget x) (canceledFlag x) v (stopImmediatePropagationFlag x) (inPassiveListener x) (dispatched x) (path x)).
Definition setStopImmediatePropagation (e : Z) (v : bool) := upd e (fun x =>
  mkEvent (type_ x) (bubbles x) (cancelable x) (currentTarget x) (eventPhase x) (target x) (relatedTarget x) (canceledFlag x) (stopPropagationFlag x) v (inPassiveListener x) (dispatched x) (path x)).
Definition setInPassiveListener (e : Z) (v : bool) := upd e (fun x =>
  mkEvent (type_ x) (bubbles x) (cancelable x) (currentTarget x) (eventPhase x) (target x) (relatedTarget x) (canceledFlag x) (stopPropagationFlag x) (stopImmediatePropagationFlag x) v (dispatched x) (path x)).
Definition setDispatched (e : Z) (v : bool) := upd e (fun x =>
  mkEvent (type_ x) (bubbles x) (cancelable x) (currentTarget x) (eventPhase x) (target x) (relatedTarget x) (canceledFlag x) (stopPropagationFlag x) (stopImmediatePropagationFlag x) (inPassiveListener x) v (path x)).
Definition setPath (e : Z) (v : list path_item) := upd e (fun x =>
  mkEvent (type_ x) (bubbles x) (cancelable x) (currentTarget x) (eventPhase x) (target x) (relatedTarget x) (canceledFlag x) (stopPropagationFlag x) (stopImmediatePropagationFlag x) (inPassiveListener x) (dispatched x) v).

(** The constructor of [Event]. *)
Definition event_new (t : str) (bubbles cancelable : bool) : Event :=
  mkEvent t bubbles cancelable None NONE None None false false false false false [].

Definition get_event (w : world) (e : Z) : Event := default (event_new [] false false) (events w !! e).

(** The methods a listener calls. *)
Definition stopPropagation (e : Z) (w : world) : world := setStopPropagation e true w.
Definition stopImmediatePropagation (e : Z) (w : world) : world := setStopImmediatePropagation e true (setStopPropagation e true w).
Definition set_cancelBubble (e : Z) (v : bool) (w : world) : world := setStopPropagation e v w.
Definition set_returnValue (e : Z) (v : bool) (w : world) : world := if negb v then setCanceled e true w else w.
Definition preventDefault (e : Z) (w : world) : world :=
  if cancelable (get_event w e) && negb (inPassiveListener (get_event w e)) then setCanceled e true w else w.

(** [composedPath]: a scan down from the end to the current target, then one scan
    in each direction. *)
Fixpoint current_index (current : Z) (rev_path : list path_item) (index level : Z) : Z * Z :=
  match rev_path with
  | [] => (0, level)
  | p :: rest =>
      let level := if rootOfClosedTree p then level + 1 else level in
      if item p =? current then (index, level)
      else current_index current rest (index - 1) (if slotInClosedTree p then level - 1 else level)
  end.

(** One scan: [enters] and [leaves] tell when the level of hiding goes up and
    down. *)
Fixpoint hidden_scan (enters leaves : path_item -> bool) (l : list path_item) (level maxLevel : Z) : list Z :=
  match l with
  | [] => []
  | p :: l =>
      let level := if enters p then level + 1 else level in
      let shown := if level <=? maxLevel then [item p] else [] in
      if leaves p
      then let level := level - 1 in shown ++ hidden_scan enters leaves l level (if level <? maxLevel then level else maxLevel)
      else shown ++ hidden_scan enters leaves l level maxLevel
  end.

Definition composedPath (ev : Event) : jsres (list Z) :=
  if slen (path ev) =? 0 then Ok []
  else
    match currentTarget ev with
    | None => Throw (JsError "assertion error")
    | Some current =>
        let '(index, level) := current_index current (rev (path ev)) (slen (path ev) - 1) 0 in
        let before := rev (take (Z.to_nat index) (path ev)) in
        let after := drop (Z.to_nat (index + 1)) (path ev) in
        Ok (rev (hidden_scan rootOfClosedTree slotInClosedTree before level level) ++ [current] ++
            hidden_scan slotInClosedTree rootOfClosedTree after level level)
    end.

Section Targets.
Context (nodeType : Z -> option Z) (parentNode : Z -> option Z) (getRootNode : Z -> bool -> option Z).
Context (has_handleEvent : Z -> bool) (call : Callback -> Z -> world -> world * option Z).

(** ** Trees *)

Definition DOCUMENT_FRAGMENT_NODE : Z := 11.

Definition isNode (t : option Z) : bool :=
  match t with Some t => match nodeType t with Some _ => true | None => false end | None => false end.

Definition getParent (t : Z) : option Z := if isNode (Some t) then parentNode t else None.
Definition getRoot (t : Z) : option Z := if isNode (Some t) then getRootNode t true else None.

Definition getHost (w : world) (t : Z) : option Z := match targets w !! t with Some d => host d | None => None end.
Definition getMode (w : world) (t : Z) : option str := mode <$> targets w !! t.
Definition getListeners (w : world) (t : Z) : gmap str (list Listener) :=
  match targets w !! t with Some d => listeners d | None => ∅ end.

Definition listenerCount (w : world) (t : Z) (ty : str) : Z :=
  match getListeners w t !! ty with Some l => slen l | None => 0 end.

Definition isShadowRoot (w : world) (n : option Z) : bool :=
  match n with
  | Some n => isNode (Some n) && bool_decide (nodeType n = Some DOCUMENT_FRAGMENT_NODE) && bool_decide (getHost w n <> None)
  | None => false
  end.

(** [None]: the fuel is used up. *)
Fixpoint isShadowInclusiveAncestor (fuel : nat) (w : world) (ancestor : option Z) (node : option Z) : option bool :=
  match fuel with
  | O => None
  | S fuel =>
      match node with
      | Some n =>
          if isNode node then
            if bool_decide (node = ancestor) then Some true
            else isShadowInclusiveAncestor fuel w ancestor (if isShadowRoot w node then getHost w n else getParent n)
          else Some false
      | None => Some false
      end
  end.

Fixpoint retarget (fuel : nat) (w : world) (a : option Z) (b : Z) : option (option Z) :=
  match fuel with
  | O => None
  | S fuel' =>
      match a with
      | Some x =>
          if negb (isNode a) then Some a
          else
            match getRootNode x false with
            | Some aRoot =>
                if negb (isShadowRoot w (Some aRoot)) then Some a
                else if isNode (Some b) then
                  match isShadowInclusiveAncestor fuel w (Some aRoot) (Some b) with
                  | Some true => Some a
                  | Some false => retarget fuel' w (getHost w aRoot) b
                  | None => None
                  end
                else retarget fuel' w (getHost w aRoot) b
            | None => retarget fuel' w a b
            end
      | None => Some a
      end
  end.

Definition path_entry (w : world) (t : Z) (targetOverride related : option Z) : path_item :=
  mkItem t (isNode (Some t) && isShadowRoot w (getRoot t)) targetOverride related
    (isShadowRoot w (Some t) && bool_decide (getMode w t = Some (lit "closed"))) false.

Definition appendToEventPath (e t : Z) (targetOverride related : option Z) (w : world) : world :=
  setPath e (path (get_event w e) ++ [path_entry w t targetOverride related]) w.

(** The loop that populates the path. *)
Fixpoint path_loop (fuel : nat) (e targetImpl : Z) (eventRelated : option Z) (parent : option Z) (w : world) : option world :=
  match fuel with
  | O => None
  | S fuel' =>
      match parent with
      | None => Some w
      | Some p =>
          match retarget fuel w eventRelated p, isShadowInclusiveAncestor fuel w (getRoot targetImpl) (Some p) with
          | Some related, Some inTree =>
              if isNode parent && inTree then
                path_loop fuel' e targetImpl eventRelated (getParent p) (appendToEventPath e p None related w)
              else if bool_decide (parent = related) then Some w
              else path_loop fuel' e p eventRelated (getParent p) (appendToEventPath e p (Some p) related w)
          | _, _ => None
          end
      end
  end.

(** ** Listeners *)

Definition upd_listeners (t : Z) (ty : str) (f : list Listener -> list Listener) : world -> world :=
  set_targets (alter (fun d => mkTarget (host d) (mode d) (alter f ty (listeners d))) t).

(** [listeners[type]] of a target. *)
Definition listenersOf (w : world) (t : Z) (ty : str) : option (list Listener) := getListeners w t !! ty.

Definition removeEventListener (self : Z) (ty : str) (cb : option Callback) (capture_ : bool) (w : world) : world :=
  match cb, listenersOf w self ty with
  | Some cb, Some _ =>
      let w := upd_listeners self ty (filter (fun l => callback l <> cb)) w in
      (* the loop that follows looks for the callback that was filtered out *)
      upd_listeners self ty (fun ls =>
        match list_find (fun l => capture l = capture_ /\ callback l = cb) ls with
        | Some (i, _) => delete i ls
        | None => ls
        end) w
  | _, _ => w
  end.

(** Calling a callback: what it throws. *)
Definition run_callback (cb : Callback) (e : Z) (w : world) : world * option Z :=
  match cb with
  | CbObject o => if has_handleEvent o then call cb e w else (w, None)
  | CbFunction _ => call cb e w
  | CbAbortSteps _ self ty cb c => (removeEventListener self ty (Some cb) c w, None)
  end.

(** The loop over the copied listeners. *)
Fixpoint inner_loop (e t : Z) (ty : str) (handlers : list Listener) (w : world) : world * option Z :=
  match handlers with
  | [] => (w, None)
  | l :: handlers =>
      let current := default [] (listenersOf w t ty) in
      if negb (bool_decide (l ∈ current)) then inner_loop e t ty handlers w
      else
        let phase := eventPhase (get_event w e) in
        if ((phase =? CAPTURING_PHASE) && negb (capture l)) || ((phase =? BUBBLING_PHASE) && capture l)
        then inner_loop e t ty handlers w
        else
          let w := if once l then upd_listeners t ty (fun ls => match list_find (eq l) ls with Some (i, _) => delete i ls | None => ls end) w else w in
          let w := if passive l then setInPassiveListener e true w else w in
          match run_callback (callback l) e (add_log (e, lid l) w) with
          | (w, Some err) => (w, Some err)
          | (w, None) =>
              let w := setInPassiveListener e false w in
              if stopImmediatePropagationFlag (get_event w e) then (w, None) else inner_loop e t ty handlers w
          end
  end.

Definition innerInvokeEventListeners (e t : Z) (w : world) : world * option Z :=
  let ty := type_ (get_event w e) in
  match listenersOf w t ty with
  | None => (w, None)
  | Some handlers => inner_loop e t ty handlers w
  end.

(** [report] is [reportException]. *)
Section Dispatch.
Context (report : Z -> world -> world).

(** The target of the path item at [i] or of the nearest one below. *)
Fixpoint nearest_target (l : list path_item) : option Z :=
  match l with
  | [] => None
  | p :: l => match item_target p with Some t => Some t | None => nearest_target l end
  end.

Definition invokeEventListeners (e : Z) (i : nat) (tuple : path_item) (w : world) : world :=
  let p := path (get_event w e) in
  let w :=
    match nearest_target (rev (take (S i) p)) with
    | Some t => setTarget e (Some t) w
    | None => w
    end in
  let w := setRelatedTarget e (item_relatedTarget tuple) w in
  if stopPropagationFlag (get_event w e) then w
  else
    let w := setCurrentTarget e (Some (item tuple)) w in
    match innerInvokeEventListeners e (item tuple) w with
    | (w, None) => w
    | (w, Some err) => report err w
    end.

(** The two loops over the path. *)
Fixpoint capture_loop (e : Z) (l : list (nat * path_item)) (w : world) : world :=
  match l with
  | [] => w
  | (i, tuple) :: l =>
      capture_loop e l (match item_target tuple with None => invokeEventListeners e i tuple w | Some _ => w end)
  end.

Fixpoint bubble_loop (e : Z) (l : list (nat * path_item)) (w : world) : world :=
  match l with
  | [] => w
  | (i, tuple) :: l =>
      let phase := match item_target tuple with Some _ => AT_TARGET | None => BUBBLING_PHASE end in
      let w := setEventPhase e phase w in
      let w :=
        if ((phase =? BUBBLING_PHASE) && bubbles (get_event w e)) || (phase =? AT_TARGET)
        then invokeEventListeners e i tuple w else w in
      bubble_loop e l w
  end.

Definition indexed (l : list path_item) : list (nat * path_item) := imap pair l.

Definition clear_targets (w : world) (l : list path_item) : bool :=
  match list_find (fun p => item_target p <> None) (rev l) with
  | Some (_, tuple) =>
      (isNode (item_target tuple) && isShadowRoot w (match item_target tuple with Some t => getRoot t | None => None end))
      || (isNode (item_relatedTarget tuple) && isShadowRoot w (match item_relatedTarget tuple with Some t => getRoot t | None => None end))
  | None => false
  end.

(** [eventRelated] is the [relatedTarget] property of the event object, which
    plain events do not have. *)
Definition dispatch (fuel : nat) (targetImpl e : Z) (eventRelated : option Z) (w : world) : option (world * bool) :=
  let w := setDispatched e true w in
  match retarget fuel w eventRelated targetImpl with
  | None => None
  | Some related =>
      let invoked :=
        if negb (bool_decide (Some targetImpl = related)) || bool_decide (Some targetImpl = eventRelated) then
          let w := appendToEventPath e targetImpl (Some targetImpl) related w in
          match path_loop fuel e targetImpl eventRelated (getParent targetImpl) w with
          | None => None
          | Some w =>
              let p := path (get_event w e) in
              let clearTargets := clear_targets w p in
              let w := setEventPhase e CAPTURING_PHASE w in
              let w := capture_loop e (rev (indexed p)) w in
              let w := bubble_loop e (indexed p) w in
              Some (w, clearTargets)
          end
        else Some (w, false) in
      match invoked with
      | None => None
      | Some (w, clearTargets) =>
          let w := setEventPhase e NONE w in
          let w := setCurrentTarget e None w in
          let w := setPath e [] w in
          let w := setDispatched e false w in
          let w := set_cancelBubble e false w in
          let w := setStopImmediatePropagation e false w in
          let w := if clearTargets then setRelatedTarget e None (setTarget e None w) else w in
          Some (w, negb (canceledFlag (get_event w e)))
      end
  end.

Inductive dispatch_outcome :=
  | Returned (b : bool)
  | InvalidState
  | OutOfFuel.

Definition dispatchEvent (globalThis : Z) (fuel : nat) (self e : Z) (eventRelated : option Z) (w : world) : world * dispatch_outcome :=
  let ty := type_ (get_event w e) in
  let w := if str_eqb ty (lit "unload") && (self =? globalThis) then set_unload w else w in
  match listenersOf w self ty with
  | None => (setTarget e (Some self) w, Returned true)
  | Some _ =>
      if dispatched (get_event w e) then (w, InvalidState)
      else if negb (eventPhase (get_event w e) =? NONE) then (w, InvalidState)
      else
        match dispatch fuel self e eventRelated w with
        | Some (w, b) => (w, Returned b)
        | None => (w, OutOfFuel)
        end
  end.
End Dispatch.

(** ** Reporting exceptions *)

(** The event of a report. *)
Definition new_error_event (w : world) : world :=
  set_next_id (next_id w + 1) (set_events (insert (next_id w) (event_new (lit "error") false true)) w).

(** An exception that is thrown while one is being reported is passed on as
    unhandled. *)
Definition report_nested (err : Z) (w : world) : world :=
  let w := new_error_event (set_stacked (stackedCalls w + 1) w) in
  let w := add_unhandled err w in
  set_stacked (stackedCalls w - 1) w.

Definition reportException (globalThis : Z) (fuel : nat) (err : Z) (w : world) : world :=
  let w := set_stacked (stackedCalls w + 1) w in
  let e := next_id w in
  let w := new_error_event w in
  let w :=
    if 1 <? stackedCalls w then add_unhandled err w
    else
      match dispatchEvent report_nested globalThis fuel globalThis e None w with
      | (w, Returned true) => add_unhandled err w
      | (w, _) => w
      end in
  set_stacked (stackedCalls w - 1) w.

(** ** Adding listeners *)

(** The options after conversion; [signal] is the target of a signal. *)
Record listener_opts := mkLOpts { o_capture : bool; o_once : bool; o_passive : bool; o_signal : option Z }.

(** [signal_add] is [addEventListener("abort", ...)] of a signal. *)
Definition addEventListener (signal_add : Z -> Callback -> world -> world)
    (self : Z) (ty : str) (cb : option Callback) (opts : listener_opts) (w : world) : world :=
  match cb, targets w !! self with
  | Some cb, Some d =>
      let w := match listeners d !! ty with
               | None => set_targets (insert self (mkTarget (host d) (mode d) (<[ty := []]> (listeners d)))) w
               | Some _ => w
               end in
      if existsb (fun l => Bool.eqb (capture l) (o_capture opts) && bool_decide (callback l = cb)) (default [] (listenersOf w self ty))
      then w
      else
        let push w :=
          set_next_id (next_id w + 1)
            (upd_listeners self ty (fun ls => ls ++ [mkListener (next_id w) cb (o_capture opts) (o_once opts) (o_passive opts)]) w) in
        match o_signal opts with
        | Some s =>
            match signals w !! s with
            | Some sd =>
                if bool_decide (abortReason sd <> None) then w
                else
                  let steps := CbAbortSteps (next_id w) self ty cb (o_capture opts) in
                  push (signal_add s steps (set_next_id (next_id w + 1) w))
            | None => push w
            end
        | None => push w
        end
  | _, _ => w
  end.
End Targets.

(** ** Examples *)

Section Examples.
Let cb (f : Z) : Callback := CbFunction f.
Let no_signal : Z -> Callback -> world -> world := fun _ _ w => w.
Let opts (c o p : bool) : listener_opts := mkLOpts c o p None.
Let w0 : world := mkWorld {[1 := getDefaultTargetData]} {[10 := event_new (lit "x") false true]} ∅ ∅ 100 0 [] false [].
(** Callback 7 throws, callback 8 stops, callback 9 cancels. *)
Let calls (c : Callback) (e : Z) (w : world) : world * option Z :=
  match c with
  | CbFunction 7 => (w, Some 77)
  | CbFunction 8 => (stopImmediatePropagation e w, None)
  | CbFunction 9 => (preventDefault e w, None)
  | _ => (w, None)
  end.
Let add (f : Z) (c o p : bool) : world -> world := addEventListener no_signal 1 (lit "x") (Some (cb f)) (opts c o p).
Let fire : world -> world * dispatch_outcome :=
  dispatchEvent (fun _ => None) (fun _ => None) (fun _ _ => None) (fun _ => true) calls report_nested 0 1 1 10 None.

Example dispatch_calls_in_order :
  let r := fire (add 3 false false false (add 9 true true false (add 2 false false false (add 2 false true true w0)))) in
  map snd (log r.1) = [100; 101; 102] /\ r.2 = Returned false /\ map lid (default [] (listenersOf r.1 1 (lit "x"))) = [102].
Proof. by vm_compute. Qed.

(** Removing a listener for one phase removes the one for the other phase too. *)
Lemma remove_ignores_capture :
  let w := add 2 true false false (add 2 false false false w0) in
  map lid (default [] (listenersOf w 1 (lit "x"))) = [100; 101] /\
  listenersOf (removeEventListener 1 (lit "x") (Some (cb 2)) true w) 1 (lit "x") = Some [].
Proof. by vm_compute. Qed.

(** A listener that throws keeps the listeners after it from being called, and a
    passive one leaves its mark on the event: a later [preventDefault] is ignored. *)
Lemma throw_skips_listeners :
  let r := fire (add 3 false false false (add 7 false false true w0)) in
  map snd (log r.1) = [100] /\ unhandled r.1 = [77] /\ inPassiveListener (get_event r.1 10) = true /\
  canceledFlag (get_event (preventDefault 10 r.1) 10) = false.
Proof. by vm_compute. Qed.
End Examples.
