(* ===== verification/EventTheorems.v ===== *)
(** * Events: theorems

    Listeners are called in the order of registration, at most once per dispatch,
    and never when they were added after it started; an event is as before when
    its dispatch is over.  User code may do whatever the methods of events and
    targets let it do, dispatching other events included: [evolves] says what that
    is, and every operation of the model, dispatch first, is shown to stay within
    it. *)

From Stdlib Require Import ZArith Lia.
From stdpp Require Import base list gmap numbers option strings relations.
From S2P Require Import Prelude EventTarget.

#[local] Open Scope Z_scope.

(** ** What user code can do *)

(** The listeners that were called for an event. *)
Definition calls_of (e : Z) (w : world) : list Z := (filter (fun x => x.1 = e) (log w)).*2.

Definition listeners_at (w : world) (t : Z) (ty : str) : list Listener := default [] (listenersOf w t ty).

(** A list of listeners loses some and gets new ones at its end, with numbers
    from [n] up to [n']. *)
Definition list_evolves (n n' : Z) (l l' : list Listener) : Prop :=
  exists kept fresh, l' = kept ++ fresh /\ kept `sublist_of` l /\
    Forall (fun x => n <= lid x < n') fresh /\ NoDup (lid <$> fresh).

(** What stays the same about an event that is being dispatched. *)
Record same_frame (a b : Event) : Prop := {
  sf_type : type_ b = type_ a;
  sf_phase : eventPhase b = eventPhase a;
  sf_bubbles : bubbles b = bubbles a;
  sf_current : currentTarget b = currentTarget a;
  sf_path : path b = path a;
  sf_dispatched : dispatched b = dispatched a;
}.

Record world_wf (w : world) : Prop := {
  wf_listeners : forall t ty, NoDup (lid <$> listeners_at w t ty) /\ Forall (fun l => lid l < next_id w) (listeners_at w t ty);
  wf_events : forall e, is_Some (events w !! e) -> e < next_id w;
}.

(** The steps that leave alone the events in [open]. *)
Record steps_within (open : Z -> Prop) (w w' : world) : Prop := {
  sw_next : next_id w <= next_id w';
  sw_wf : world_wf w -> world_wf w';
  sw_lists : forall t ty, list_evolves (next_id w) (next_id w') (listeners_at w t ty) (listeners_at w' t ty);
  sw_keep : forall t ty, is_Some (listenersOf w t ty) -> is_Some (listenersOf w' t ty);
  sw_open : world_wf w -> forall e, open e -> dispatched (get_event w e) = true ->
    same_frame (get_event w e) (get_event w' e) /\ calls_of e w' = calls_of e w;
}.

Definition evolves : world -> world -> Prop := steps_within (fun _ => True).
(** Everything but the event that is being dispatched. *)
Definition evolves_but (e : Z) : world -> world -> Prop := steps_within (fun x => x <> e).

(** ** Lists of listeners *)

Lemma list_evolves_refl n l : list_evolves n n l l.
Proof. exists l, []. rewrite app_nil_r. repeat split; [done|constructor|constructor]. Qed.

Lemma sublist_lids (l l' : list Listener) : l `sublist_of` l' -> (lid <$> l) `sublist_of` (lid <$> l').
Proof. induction 1; simpl; by constructor. Qed.

Lemma list_evolves_trans n1 n2 n3 l1 l2 l3 : n1 <= n2 -> n2 <= n3 ->
  list_evolves n1 n2 l1 l2 -> list_evolves n2 n3 l2 l3 -> list_evolves n1 n3 l1 l3.
Proof.
  intros Hn Hn' (k1 & f1 & -> & S1 & B1 & N1) (k2 & f2 & -> & S2 & B2 & N2).
  apply sublist_app_r in S2 as (a & b & -> & Sa & Sb). exists a, (b ++ f2). rewrite app_assoc. split; [done|].
  split; [by transitivity k1|].
  assert (Bb : Forall (fun x => n1 <= lid x < n2) b).
  { rewrite Forall_forall in *. intros x Hx. apply B1. by apply (sublist_subseteq _ _ Sb). }
  split.
  - apply Forall_app. split; [eapply Forall_impl; [exact Bb|]; simpl; intros; lia|eapply Forall_impl; [exact B2|]; simpl; intros; lia].
  - rewrite fmap_app. apply NoDup_app. split; [apply (sublist_NoDup _ (lid <$> f1)); [done|by apply sublist_lids]|]. split; [|done].
    intros i Hi Hj. apply list_elem_of_fmap in Hi as (x & -> & Hx). apply list_elem_of_fmap in Hj as (y & E & Hy).
    rewrite Forall_forall in Bb, B2. specialize (Bb x Hx). specialize (B2 y Hy). lia.
Qed.

(** A listener from before is only ever lost. *)
Lemma list_evolves_old n n' l l' x : list_evolves n n' l l' -> x ∈ l' -> lid x < n -> x ∈ l.
Proof.
  intros (k & f & -> & Sk & Bf & _) Hx Hn. apply elem_of_app in Hx as [Hx|Hx]; [by apply (sublist_subseteq _ _ Sk)|].
  rewrite Forall_forall in Bf. specialize (Bf x Hx). lia.
Qed.

(** Removing a listener by identity. *)
Definition remove_listener (l : Listener) (ls : list Listener) : list Listener :=
  match list_find (eq l) ls with Some (i, _) => delete i ls | None => ls end.

Lemma remove_listener_sublist l ls : remove_listener l ls `sublist_of` ls.
Proof. unfold remove_listener. destruct (list_find (eq l) ls) as [[i x]|]; [apply sublist_delete|done]. Qed.

Lemma remove_listener_gone l ls : NoDup ls -> l ∉ remove_listener l ls.
Proof.
  intros Hn. unfold remove_listener. destruct (list_find (eq l) ls) as [[i x]|] eqn:E.
  - apply list_find_Some in E as (Hi & <- & _). intros Hin. apply list_elem_of_lookup in Hin as [j Hj].
    destruct (decide (j < i)%nat) as [Hl|Hl].
    + rewrite list_lookup_delete_lt in Hj by done. pose proof (NoDup_lookup _ _ _ _ Hn Hi Hj). lia.
    + rewrite list_lookup_delete_ge in Hj by lia. pose proof (NoDup_lookup _ _ _ _ Hn Hi Hj). lia.
  - apply list_find_None in E. rewrite Forall_forall in E. intros Hin. by apply (E l Hin).
Qed.

Lemma remove_listener_other l x ls : x <> l -> x ∈ ls -> x ∈ remove_listener l ls.
Proof.
  intros Hx Hin. unfold remove_listener. destruct (list_find (eq l) ls) as [[i y]|] eqn:E; [|done].
  apply list_find_Some in E as (Hi & <- & _). apply list_elem_of_lookup in Hin as [j Hj].
  destruct (decide (j < i)%nat) as [Hl|Hl]; [apply (list_elem_of_lookup_2 _ j); by rewrite list_lookup_delete_lt|].
  destruct (decide (j = i)) as [->|Hne]; [congruence|]. apply (list_elem_of_lookup_2 _ (j - 1)).
  rewrite list_lookup_delete_ge by lia. by replace (S (j - 1)) with j by lia.
Qed.

(** ** Steps *)

#[export] Instance same_frame_preorder : PreOrder same_frame.
Proof. split; [by split|]. intros a b c [] []. split; congruence. Qed.

#[export] Instance steps_within_preorder open : PreOrder (steps_within open).
Proof.
  split.
  - intros w. split; [done|done|intros; apply list_evolves_refl|done|done].
  - intros a b c [N1 W1 L1 K1 O1] [N2 W2 L2 K2 O2]. split; [lia|auto| |auto|].
    + intros t ty. by apply (list_evolves_trans _ (next_id b) _ _ (listeners_at b t ty)).
    + intros Hw e He Hd. destruct (O1 Hw e He Hd) as [F1 C1]. destruct (O2 (W1 Hw) e He) as [F2 C2]; [by rewrite (sf_dispatched _ _ F1)|].
      split; [by transitivity (get_event b e)|congruence].
Qed.

#[export] Instance evolves_preorder : PreOrder evolves := steps_within_preorder _.
#[export] Instance evolves_but_preorder e : PreOrder (evolves_but e) := steps_within_preorder _.

Lemma steps_weaken (o o' : Z -> Prop) w w' : (forall e, o' e -> o e) -> steps_within o w w' -> steps_within o' w w'.
Proof. intros Ho [N W L K O]. split; auto. Qed.

Lemma evolves_weaken o w w' : evolves w w' -> steps_within o w w'.
Proof. by apply steps_weaken. Qed.

(** Worlds that differ in counters and reports only. *)
Lemma steps_same o w w' : targets w' = targets w -> events w' = events w -> next_id w' = next_id w -> log w' = log w -> steps_within o w w'.
Proof.
  intros Ht He Hn Hl. assert (HL : forall t ty, listenersOf w' t ty = listenersOf w t ty).
  { intros t ty. unfold listenersOf, getListeners. by rewrite Ht. }
  assert (HLA : forall t ty, listeners_at w' t ty = listeners_at w t ty) by (intros t ty; unfold listeners_at; by rewrite HL).
  assert (HG : forall e, get_event w' e = get_event w e) by (intros e; unfold get_event; by rewrite He).
  split.
  - lia.
  - intros [H1 H2]. split; [intros t ty; rewrite HLA, Hn; apply H1|intros e; rewrite He, Hn; apply H2].
  - intros t ty. rewrite HLA, Hn. apply list_evolves_refl.
  - intros t ty. by rewrite HL.
  - intros _ e _ _. rewrite HG. unfold calls_of. by rewrite Hl.
Qed.

Lemma get_event_upd w e f x : get_event (upd e f w) x =
  if bool_decide (x = e) then match events w !! e with Some ev => f ev | None => event_new [] false false end else get_event w x.
Proof.
  unfold get_event, upd, set_events. simpl. case_bool_decide as Hx.
  - subst x. rewrite lookup_alter_eq. by destruct (events w !! e).
  - by rewrite lookup_alter_ne by done.
Qed.

(** Changing an event. *)
Lemma upd_steps (o : Z -> Prop) e f w : (o e -> forall ev, same_frame ev (f ev)) -> steps_within o w (upd e f w).
Proof.
  intros Hf. split; [done| |intros; apply list_evolves_refl|done|].
  - intros [H1 H2]. split; [apply H1|]. intros x Hx. apply H2. unfold upd, set_events in Hx. simpl in Hx.
    destruct (decide (x = e)) as [->|Hne]; [rewrite lookup_alter_eq in Hx; by destruct (events w !! e); [|destruct Hx]|].
    by rewrite lookup_alter_ne in Hx by done.
  - intros _ x Hx Hd. rewrite get_event_upd. case_bool_decide as Hxe; [|by split]. subst x. split; [|done].
    unfold get_event in *. destruct (events w !! e) as [ev|]; [|done]. by apply Hf.
Qed.

(** Changing the listeners of a target to a part of them. *)
Lemma listeners_upd w t ty f t' ty' : listenersOf (upd_listeners t ty f w) t' ty' =
  if bool_decide (t' = t /\ ty' = ty) then f <$> listenersOf w t ty else listenersOf w t' ty'.
Proof.
  unfold listenersOf, getListeners, upd_listeners, set_targets. simpl. case_bool_decide as Hx.
  - destruct Hx as [-> ->]. rewrite lookup_alter_eq. destruct (targets w !! t) as [d|]; simpl; [by rewrite lookup_alter_eq|done].
  - destruct (decide (t' = t)) as [->|Hne]; [|by rewrite lookup_alter_ne by done]. rewrite lookup_alter_eq.
    destruct (targets w !! t) as [d|]; simpl; [|done]. rewrite lookup_alter_ne; [done|]. intros ->. by apply Hx.
Qed.

Lemma listeners_at_upd w t ty f t' ty' : listeners_at (upd_listeners t ty f w) t' ty' =
  if bool_decide (t' = t /\ ty' = ty) then match listenersOf w t ty with Some l => f l | None => [] end else listeners_at w t' ty'.
Proof. unfold listeners_at. rewrite listeners_upd. case_bool_decide; [|done]. by destruct (listenersOf w t ty). Qed.

Lemma sublist_steps o t ty f w : (forall l, f l `sublist_of` l) -> steps_within o w (upd_listeners t ty f w).
Proof.
  intros Hf. assert (Hs : forall t' ty', listeners_at (upd_listeners t ty f w) t' ty' `sublist_of` listeners_at w t' ty').
  { intros t' ty'. rewrite listeners_at_upd. case_bool_decide as Hx; [|done]. destruct Hx as [-> ->]. unfold listeners_at.
    destruct (listenersOf w t ty); [apply Hf|done]. }
  split; [done| | |intros t' ty' H; rewrite listeners_upd; case_bool_decide as Hx; [|done]; destruct Hx as [-> ->]; by apply fmap_is_Some|by split].
  - intros [H1 H2]. split; [|apply H2]. intros t' ty'. destruct (H1 t' ty') as [N B]. split.
    + eapply sublist_NoDup; [exact N|]. apply sublist_lids, Hs.
    + rewrite Forall_forall in *. intros x Hx. apply B. by apply (sublist_subseteq _ _ (Hs t' ty')).
  - intros t' ty'. exists (listeners_at (upd_listeners t ty f w) t' ty'), []. rewrite app_nil_r.
    split; [done|]. split; [apply Hs|]. by split; constructor.
Qed.

Lemma add_log_steps (o : Z -> Prop) e i w : ~ o e -> steps_within o w (add_log (e, i) w).
Proof.
  intros Ho. split; [done|intros [H1 H2]; by split|intros; apply list_evolves_refl|done|].
  intros _ x Hx _. split; [done|]. unfold calls_of, add_log. simpl. rewrite filter_app, filter_cons, decide_False by (simpl; congruence).
  by rewrite filter_nil, app_nil_r.
Qed.

Lemma calls_add_log e i w : calls_of e (add_log (e, i) w) = calls_of e w ++ [i].
Proof. unfold calls_of, add_log. simpl. rewrite filter_app, filter_cons, decide_True by done. by rewrite fmap_app. Qed.

(** A fresh event. *)
Lemma new_error_event_steps o w : steps_within o w (new_error_event w).
Proof.
  split; [simpl; lia| | |done|].
  - intros [H1 H2]. split.
    + intros t ty. destruct (H1 t ty) as [N B]. split; [done|]. eapply Forall_impl; [exact B|]. simpl. intros; lia.
    + intros e He. unfold new_error_event in *. simpl in *. destruct (decide (e = next_id w)) as [->|Hne]; [lia|].
      rewrite lookup_insert_ne in He by done. specialize (H2 e He). lia.
  - intros t ty. exists (listeners_at w t ty), []. rewrite app_nil_r. split; [done|]. split; [done|]. split; constructor.
  - intros [H1 H2] e He Hd. unfold get_event, new_error_event. simpl. rewrite lookup_insert_ne; [by split|].
    intros <-. unfold get_event in Hd. destruct (events w !! next_id w) as [ev|] eqn:E; [|done].
    assert (next_id w < next_id w) by (apply H2; by eexists). lia.
Qed.

(** While an event is not being dispatched there is nothing to keep about it. *)
Lemma but_evolves e w w' : dispatched (get_event w e) = false -> evolves_but e w w' -> evolves w w'.
Proof.
  intros Hd [N W L K O]. split; auto. intros Hw x _ Hx. apply O; [done|intros ->; congruence|done].
Qed.

(** ** Dispatch *)

Section Dispatch.
Context (nodeType : Z -> option Z) (parentNode : Z -> option Z) (getRootNode : Z -> bool -> option Z).
Context (has_handleEvent : Z -> bool) (call : Callback -> Z -> world -> world * option Z).
Hypothesis calls_ok : forall cb e w, evolves w (call cb e w).1.

Lemma remove_evolves self ty cb c w : evolves w (removeEventListener self ty cb c w).
Proof.
  unfold removeEventListener. destruct cb as [cb|]; [|done]. destruct (listenersOf w self ty); [|done].
  etransitivity; [apply (sublist_steps _ self ty (filter (fun l => callback l <> cb))); intros; apply sublist_filter|].
  apply sublist_steps. intros ls. destruct (list_find _ ls) as [[i x]|]; [apply sublist_delete|done].
Qed.

Lemma run_callback_evolves cb e w : evolves w (run_callback has_handleEvent call cb e w).1.
Proof.
  destruct cb as [f|ob|id self t cb c]; cbn [run_callback fst]; [apply calls_ok| |apply remove_evolves].
  destruct (has_handleEvent ob); [apply calls_ok|done].
Qed.

(** What one round does before the callback. *)
Definition before_call (e t : Z) (ty : str) (l : Listener) (w : world) : world :=
  let w := if once l then upd_listeners t ty (remove_listener l) w else w in
  add_log (e, lid l) (if passive l then setInPassiveListener e true w else w).

Lemma before_call_steps e t ty l w : evolves_but e w (before_call e t ty l w).
Proof.
  unfold before_call. etransitivity; [|etransitivity; [|apply add_log_steps; by auto]].
  - instantiate (1 := if once l then upd_listeners t ty (remove_listener l) w else w).
    destruct (once l); [apply sublist_steps, remove_listener_sublist|done].
  - destruct (passive l); [apply upd_steps; by auto|done].
Qed.

Lemma before_call_frame e t ty l w : same_frame (get_event w e) (get_event (before_call e t ty l w) e) /\
  calls_of e (before_call e t ty l w) = calls_of e w ++ [lid l].
Proof.
  unfold before_call. set (w1 := if once l then upd_listeners t ty (remove_listener l) w else w). split; [|by rewrite calls_add_log; unfold w1; destruct (passive l), (once l)].
  change (get_event (add_log ?x ?w) e) with (get_event w e). assert (E : get_event w1 e = get_event w e) by (unfold w1; by destruct (once l)).
  rewrite <-E. destruct (passive l); [|done]. unfold setInPassiveListener. rewrite get_event_upd, bool_decide_eq_true_2 by done.
  unfold get_event. destruct (events w1 !! e); by split.
Qed.

(** Removing the passive mark keeps the frame. *)
Lemma unmark_frame e w : same_frame (get_event w e) (get_event (setInPassiveListener e false w) e) /\
  stopImmediatePropagationFlag (get_event (setInPassiveListener e false w) e) = stopImmediatePropagationFlag (get_event w e).
Proof.
  unfold setInPassiveListener. rewrite get_event_upd, bool_decide_eq_true_2 by done. unfold get_event. destruct (events w !! e); by repeat split.
Qed.

Lemma inner_loop_eq e t ty l hs w : inner_loop has_handleEvent call e t ty (l :: hs) w =
  if negb (bool_decide (l ∈ listeners_at w t ty)) then inner_loop has_handleEvent call e t ty hs w
  else if ((eventPhase (get_event w e) =? CAPTURING_PHASE) && negb (capture l)) || ((eventPhase (get_event w e) =? BUBBLING_PHASE) && capture l)
  then inner_loop has_handleEvent call e t ty hs w
  else match run_callback has_handleEvent call (callback l) e (before_call e t ty l w) with
       | (w, Some err) => (w, Some err)
       | (w, None) =>
           let w := setInPassiveListener e false w in
           if stopImmediatePropagationFlag (get_event w e) then (w, None) else inner_loop has_handleEvent call e t ty hs w
       end.
Proof. reflexivity. Qed.

(** The listeners that are called come from the copied list, in its order. *)
Lemma inner_loop_spec e t ty hs : forall w, world_wf w -> dispatched (get_event w e) = true ->
  evolves_but e w (inner_loop has_handleEvent call e t ty hs w).1 /\
  same_frame (get_event w e) (get_event (inner_loop has_handleEvent call e t ty hs w).1 e) /\
  exists ids, calls_of e (inner_loop has_handleEvent call e t ty hs w).1 = calls_of e w ++ ids /\ ids `sublist_of` (lid <$> hs).
Proof.
  induction hs as [|l hs IH]; intros w Hw Hd.
  - split; [done|]. split; [done|]. exists []. by rewrite app_nil_r.
  - rewrite inner_loop_eq.
    assert (Hskip : evolves_but e w (inner_loop has_handleEvent call e t ty hs w).1 /\
      same_frame (get_event w e) (get_event (inner_loop has_handleEvent call e t ty hs w).1 e) /\
      exists ids, calls_of e (inner_loop has_handleEvent call e t ty hs w).1 = calls_of e w ++ ids /\ ids `sublist_of` (lid <$> l :: hs)).
    { destruct (IH w Hw Hd) as (H1 & H2 & ids & H3 & H4). split; [done|]. split; [done|]. exists ids. split; [done|]. simpl. by constructor. }
    destruct (negb _); [done|]. destruct (_ || _); [done|]. clear Hskip.
    pose proof (before_call_steps e t ty l w) as Hb. destruct (before_call_frame e t ty l w) as [Fb Cb].
    set (wb := before_call e t ty l w) in *. pose proof (run_callback_evolves (callback l) e wb) as Hr.
    pose proof (sw_wf _ _ _ Hb Hw) as Hwb. destruct (run_callback has_handleEvent call (callback l) e wb) as [w1 r]. simpl in Hr.
    destruct (sw_open _ _ _ Hr Hwb e I) as [F1 C1]; [by rewrite (sf_dispatched _ _ Fb)|].
    assert (H01 : evolves_but e w w1) by (transitivity wb; [done|by apply evolves_weaken]).
    assert (F01 : same_frame (get_event w e) (get_event w1 e)) by by transitivity (get_event wb e).
    assert (C01 : calls_of e w1 = calls_of e w ++ [lid l]) by congruence.
    destruct r as [err|].
    { split; [done|]. split; [done|]. exists [lid l]. split; [done|]. simpl. apply sublist_skip, sublist_nil_l. }
    cbv zeta. destruct (unmark_frame e w1) as [F2 _]. set (w2 := setInPassiveListener e false w1) in *.
    assert (H02 : evolves_but e w w2) by (transitivity w1; [done|apply upd_steps; by auto]).
    assert (F02 : same_frame (get_event w e) (get_event w2 e)) by by transitivity (get_event w1 e).
    assert (C02 : calls_of e w2 = calls_of e w ++ [lid l]) by done.
    destruct (stopImmediatePropagationFlag (get_event w2 e)).
    { split; [done|]. split; [done|]. exists [lid l]. split; [done|]. simpl. apply sublist_skip, sublist_nil_l. }
    destruct (IH w2) as (H1 & H2 & ids & H3 & H4); [by apply (sw_wf _ _ _ H02)|by rewrite (sf_dispatched _ _ F02)|].
    split; [by transitivity w2|]. split; [by transitivity (get_event w2 e)|].
    exists (lid l :: ids). split; [rewrite H3, C02, <-app_assoc; done|]. simpl. by apply sublist_skip.
Qed.
(** Callbacks that neither throw, nor stop the event, nor remove one of [hs0]. *)
Definition quiet (e t : Z) (ty : str) (hs0 : list Listener) : Prop :=
  forall l w, l ∈ hs0 -> dispatched (get_event w e) = true ->
    (run_callback has_handleEvent call (callback l) e w).2 = None /\
    stopImmediatePropagationFlag (get_event (run_callback has_handleEvent call (callback l) e w).1 e) = stopImmediatePropagationFlag (get_event w e) /\
    forall x, x ∈ hs0 -> x ∈ listeners_at w t ty -> x ∈ listeners_at (run_callback has_handleEvent call (callback l) e w).1 t ty.

Lemma before_call_listeners e t ty l w : is_Some (listenersOf w t ty) ->
  listeners_at (before_call e t ty l w) t ty = if once l then remove_listener l (listeners_at w t ty) else listeners_at w t ty.
Proof.
  intros [ls Hls]. unfold before_call. change (listeners_at (add_log ?x ?w) t ty) with (listeners_at w t ty).
  assert (E : forall b w1, listeners_at (if b : bool then setInPassiveListener e true w1 else w1) t ty = listeners_at w1 t ty) by (intros [] w1; done).
  rewrite E. destruct (once l); [|done]. rewrite listeners_at_upd, bool_decide_eq_true_2 by done. unfold listeners_at. by rewrite Hls.
Qed.

Lemma before_call_stop e t ty l w :
  stopImmediatePropagationFlag (get_event (before_call e t ty l w) e) = stopImmediatePropagationFlag (get_event w e).
Proof.
  unfold before_call. change (get_event (add_log ?x ?w) e) with (get_event w e). set (w1 := if once l then _ else _).
  assert (E : get_event w1 e = get_event w e) by (unfold w1; by destruct (once l)). rewrite <-E. destruct (passive l); [|done].
  unfold setInPassiveListener. rewrite get_event_upd, bool_decide_eq_true_2 by done. unfold get_event. by destruct (events w1 !! e).
Qed.

Lemma inner_loop_all e t ty hs0 : quiet e t ty hs0 -> NoDup hs0 -> forall hs w, hs `sublist_of` hs0 ->
  world_wf w -> dispatched (get_event w e) = true -> eventPhase (get_event w e) = AT_TARGET ->
  stopImmediatePropagationFlag (get_event w e) = false -> Forall (fun l => l ∈ listeners_at w t ty) hs ->
  let r := inner_loop has_handleEvent call e t ty hs w in
  r.2 = None /\ calls_of e r.1 = calls_of e w ++ (lid <$> hs) /\
  (forall x, x ∈ hs0 -> x ∈ listeners_at w t ty -> x ∉ hs \/ once x = false -> x ∈ listeners_at r.1 t ty) /\
  (forall x, x ∈ hs -> once x = true -> x ∉ listeners_at r.1 t ty).
Proof.
  intros Hq Hn0. induction hs as [|l hs IH]; intros w Hsub Hw Hd Hph Hst Hin r; unfold r; clear r.
  { split; [done|]. split; [by rewrite app_nil_r|]. split; [done|]. intros x Hx. by apply elem_of_nil in Hx. }
  apply Forall_cons in Hin as [Hl Hin]. rewrite inner_loop_eq, bool_decide_eq_true_2, Hph by done. simpl negb. cbv iota. cbn [andb orb].
  change (AT_TARGET =? CAPTURING_PHASE) with false. change (AT_TARGET =? BUBBLING_PHASE) with false. cbn [andb orb].
  assert (Hl0 : l ∈ hs0) by (apply (sublist_subseteq _ _ Hsub); by left).
  assert (Hndl : l ∉ hs) by (apply (sublist_NoDup _ _ Hn0) in Hsub; by apply NoDup_cons in Hsub as [? _]).
  assert (Hsome : is_Some (listenersOf w t ty)) by (unfold listeners_at in Hl; destruct (listenersOf w t ty); [by eexists|by apply elem_of_nil in Hl]).
  pose proof (before_call_steps e t ty l w) as Hb. destruct (before_call_frame e t ty l w) as [Fb Cb].
  pose proof (before_call_listeners e t ty l w Hsome) as Lb. pose proof (before_call_stop e t ty l w) as Sb.
  set (wb := before_call e t ty l w) in *. pose proof (sw_wf _ _ _ Hb Hw) as Hwb.
  assert (Hdb : dispatched (get_event wb e) = true) by by rewrite (sf_dispatched _ _ Fb).
  pose proof (run_callback_evolves (callback l) e wb) as Hr. destruct (Hq l wb Hl0 Hdb) as (Q1 & Q2 & Q3).
  destruct (run_callback has_handleEvent call (callback l) e wb) as [w1 res]. simpl in Hr, Q1, Q2, Q3. subst res.
  destruct (sw_open _ _ _ Hr Hwb e I Hdb) as [F1 C1]. cbv zeta. destruct (unmark_frame e w1) as [F2 S2].
  set (w2 := setInPassiveListener e false w1) in *. rewrite S2, Q2, Sb, Hst.
  assert (H12 : evolves_but e w w2) by (transitivity wb; [done|]; transitivity w1; [by apply evolves_weaken|apply upd_steps; by auto]).
  assert (F02 : same_frame (get_event w e) (get_event w2 e)) by (transitivity (get_event wb e); [done|by transitivity (get_event w1 e)]).
  assert (Hkeep : forall x, x ∈ hs0 -> x ∈ listeners_at w t ty -> x <> l \/ once l = false -> x ∈ listeners_at w2 t ty).
  { intros x Hx0 Hx Hor. change (listeners_at w2 t ty) with (listeners_at w1 t ty). apply Q3; [done|]. rewrite Lb.
    destruct (once l) eqn:Eo; [|done]. apply remove_listener_other; [|done]. by destruct Hor. }
  destruct (IH w2) as (I1 & I2 & I3 & I4).
  - transitivity (l :: hs); [|done]. by apply sublist_cons.
  - by apply (sw_wf _ _ _ H12).
  - by rewrite (sf_dispatched _ _ F02).
  - by rewrite (sf_phase _ _ F02).
  - by rewrite S2, Q2, Sb.
  - rewrite Forall_forall in *. intros x Hx. apply Hkeep; [apply (sublist_subseteq _ _ Hsub); by right|by apply Hin|]. left. by intros ->.
  - split; [done|]. split; [rewrite I2; change (calls_of e w2) with (calls_of e w1); rewrite C1, Cb, <-app_assoc; done|]. split.
    + intros x Hx0 Hx Hor. assert (Hxl : x <> l \/ once l = false).
      { destruct (decide (x = l)) as [->|]; [|by left]. destruct Hor as [Hn|]; [|by right]. destruct Hn. by left. }
      apply I3; [done|by apply Hkeep|]. destruct Hor as [Hn|]; [|by right]. left. intros Hxh. apply Hn. by right.
    + intros x Hx Ho. apply elem_of_cons in Hx as [->|Hx]; [|by apply I4].
      intros Hf. assert (Hlt : lid l < next_id w) by (destruct (wf_listeners _ Hw t ty) as [_ B]; rewrite Forall_forall in B; by apply B).
      destruct (inner_loop_spec e t ty hs w2) as (J1 & _); [by apply (sw_wf _ _ _ H12)|by rewrite (sf_dispatched _ _ F02)|].
      pose proof (sw_next _ _ _ H12). pose proof (sw_next _ _ _ Hb). pose proof (sw_next _ _ _ Hr).
      apply (list_evolves_old _ _ _ _ l (sw_lists _ _ _ J1 t ty)) in Hf; [|lia].
      change (listeners_at w2 t ty) with (listeners_at w1 t ty) in Hf.
      apply (list_evolves_old _ _ _ _ l (sw_lists _ _ _ Hr t ty)) in Hf; [|lia]. rewrite Lb, Ho in Hf.
      apply remove_listener_gone in Hf; [done|]. destruct (wf_listeners _ Hw t ty) as [Nd _]. by apply NoDup_fmap_1 in Nd.
Qed.
(** *** The whole dispatch stays within what user code can do *)

Section Report.
Context (report : Z -> world -> world).
Hypothesis report_ok : forall err w, world_wf w -> evolves w (report err w).

(** The steps on the event itself. *)
Lemma own_step e f w : evolves_but e w (upd e f w).
Proof. apply upd_steps. by auto. Qed.

Lemma inner_invoke_but e t w : world_wf w -> dispatched (get_event w e) = true ->
  evolves_but e w (innerInvokeEventListeners has_handleEvent call e t w).1.
Proof.
  intros Hw Hd. unfold innerInvokeEventListeners. destruct (listenersOf w t _); [|done]. by apply inner_loop_spec.
Qed.

(** A step that keeps the event as one that is being dispatched. *)
Definition keeps (e : Z) (w w' : world) : Prop := evolves_but e w w' /\ (dispatched (get_event w e) = true -> dispatched (get_event w' e) = true).

Lemma keeps_refl e w : keeps e w w.
Proof. by split. Qed.

Lemma keeps_trans e a b c : keeps e a b -> keeps e b c -> keeps e a c.
Proof. intros [H1 H2] [H3 H4]. split; [by transitivity b|auto]. Qed.

Lemma keeps_upd e f w : (forall ev, dispatched (f ev) = dispatched ev) -> keeps e w (upd e f w).
Proof.
  intros Hf. split; [apply own_step|]. rewrite get_event_upd, bool_decide_eq_true_2 by done. unfold get_event.
  destruct (events w !! e); [by rewrite Hf|done].
Qed.

Lemma evolves_keeps e w w' : world_wf w -> evolves w w' -> keeps e w w'.
Proof.
  intros Hw H. split; [by apply evolves_weaken|]. intros Hd. destruct (sw_open _ _ _ H Hw e I Hd) as [F _]. by rewrite (sf_dispatched _ _ F).
Qed.

Lemma invoke_keeps e i tuple w : world_wf w -> dispatched (get_event w e) = true ->
  keeps e w (invokeEventListeners has_handleEvent call report e i tuple w).
Proof.
  intros Hw Hd. unfold invokeEventListeners.
  set (w1 := match nearest_target _ with Some t => setTarget e (Some t) w | None => w end).
  assert (H1 : keeps e w w1) by (unfold w1; destruct (nearest_target _); [by apply keeps_upd|apply keeps_refl]).
  set (w2 := setRelatedTarget e (item_relatedTarget tuple) w1).
  assert (H2 : keeps e w w2) by (apply (keeps_trans _ _ w1); [done|by apply keeps_upd]).
  destruct (stopPropagationFlag (get_event w2 e)); [done|]. cbv zeta.
  set (w3 := setCurrentTarget e (Some (item tuple)) w2).
  assert (H3 : keeps e w w3) by (apply (keeps_trans _ _ w2); [done|by apply keeps_upd]).
  assert (Hw3 : world_wf w3) by by apply (sw_wf _ _ _ (proj1 H3)). pose proof (proj2 H3 Hd) as Hd3.
  unfold innerInvokeEventListeners. destruct (listenersOf w3 (item tuple) (type_ (get_event w3 e))) as [hs|]; [|done].
  destruct (inner_loop_spec e (item tuple) (type_ (get_event w3 e)) hs w3 Hw3 Hd3) as (J1 & J2 & _).
  destruct (inner_loop has_handleEvent call e (item tuple) (type_ (get_event w3 e)) hs w3) as [w4 r]. simpl in J1, J2.
  assert (H4 : keeps e w3 w4) by (split; [done|]; intros _; by rewrite (sf_dispatched _ _ J2)).
  apply (keeps_trans _ _ w3); [done|]. destruct r as [err|]; [|done]. apply (keeps_trans _ _ w4); [done|].
  pose proof (sw_wf _ _ _ J1 Hw3) as Hw4. apply evolves_keeps; [done|by apply report_ok].
Qed.

Lemma capture_keeps e l : forall w, world_wf w -> dispatched (get_event w e) = true ->
  keeps e w (capture_loop has_handleEvent call report e l w).
Proof.
  induction l as [|[i tuple] l IH]; intros w Hw Hd; [apply keeps_refl|]. cbn [capture_loop].
  destruct (item_target tuple); [by apply IH|]. pose proof (invoke_keeps e i tuple w Hw Hd) as [H1 H2].
  apply (keeps_trans _ _ (invokeEventListeners has_handleEvent call report e i tuple w)); [done|].
  apply IH; [by apply (sw_wf _ _ _ H1)|auto].
Qed.

Lemma bubble_keeps e l : forall w, world_wf w -> dispatched (get_event w e) = true ->
  keeps e w (bubble_loop has_handleEvent call report e l w).
Proof.
  induction l as [|[i tuple] l IH]; intros w Hw Hd; [apply keeps_refl|]. cbn [bubble_loop].
  set (ph := match item_target tuple with Some _ => AT_TARGET | None => BUBBLING_PHASE end).
  assert (H1 : keeps e w (setEventPhase e ph w)) by by apply keeps_upd. set (w1 := setEventPhase e ph w) in *.
  set (w2 := if _ || _ then _ else _).
  assert (H2 : keeps e w w2).
  { unfold w2. destruct (_ || _); [|done]. apply (keeps_trans _ _ w1); [done|].
    apply invoke_keeps; [by apply (sw_wf _ _ _ (proj1 H1))|by apply H1]. }
  apply (keeps_trans _ _ w2); [done|]. apply IH; [by apply (sw_wf _ _ _ (proj1 H2))|by apply H2].
Qed.

Lemma path_loop_keeps fuel e er : forall t p w w', path_loop nodeType parentNode getRootNode fuel e t er p w = Some w' -> keeps e w w'.
Proof.
  induction fuel as [|fuel IH]; intros t p w w'; [done|]. cbn [path_loop]. destruct p as [p|]; [|intros [= <-]; apply keeps_refl].
  destruct (retarget _ _ _ _ _ _ _) as [rel|]; [|done]. destruct (isShadowInclusiveAncestor _ _ _ _ _ _) as [b|]; [|done].
  assert (Ha : forall o, keeps e w (appendToEventPath nodeType getRootNode e p o rel w)) by (intros o; by apply keeps_upd).
  destruct (_ && _); [|destruct (bool_decide (Some p = rel))].
  - intros E%IH. by eapply keeps_trans.
  - intros [= <-]. apply keeps_refl.
  - intros E%IH. by eapply keeps_trans.
Qed.

(** The event after its dispatch. *)
Definition event_idle (ev : Event) : Prop :=
  eventPhase ev = NONE /\ currentTarget ev = None /\ path ev = [] /\ dispatched ev = false /\
  stopPropagationFlag ev = false /\ stopImmediatePropagationFlag ev = false.

(** The last steps of a dispatch. *)
Definition finish (e : Z) (clear : bool) (w : world) : world :=
  let w := setStopImmediatePropagation e false (set_cancelBubble e false (setDispatched e false (setPath e [] (setCurrentTarget e None (setEventPhase e NONE w))))) in
  if clear then setRelatedTarget e None (setTarget e None w) else w.

Lemma events_upd e f w : events (upd e f w) = alter f e (events w).
Proof. done. Qed.

Lemma calls_upd x e f w : calls_of x (upd e f w) = calls_of x w.
Proof. done. Qed.

(** Several changes of one event are one. *)
Lemma get_event_chain e f w : get_event (upd e f w) e = match events w !! e with Some ev => f ev | None => event_new [] false false end.
Proof. by rewrite get_event_upd, bool_decide_eq_true_2. Qed.

Lemma finish_event e clear w : get_event (finish e clear w) e = match events w !! e with
  | Some x => mkEvent (type_ x) (bubbles x) (cancelable x) None NONE (if clear then None else target x) (if clear then None else relatedTarget x)
      (canceledFlag x) false false (inPassiveListener x) false []
  | None => event_new [] false false end.
Proof.
  unfold finish, setRelatedTarget, setTarget, setStopImmediatePropagation, set_cancelBubble, setStopPropagation, setDispatched, setPath, setCurrentTarget, setEventPhase.
  destruct clear; unfold get_event; rewrite !events_upd, !lookup_alter_eq; by destruct (events w !! e).
Qed.

Lemma finish_spec e clear w : evolves_but e w (finish e clear w) /\
  (is_Some (events w !! e) -> event_idle (get_event (finish e clear w) e)) /\
  calls_of e (finish e clear w) = calls_of e w /\
  canceledFlag (get_event (finish e clear w) e) = canceledFlag (get_event w e).
Proof.
  split; [|split; [|split]].
  - unfold finish. cbv zeta. set (w1 := setEventPhase e NONE w).
    transitivity w1; [apply own_step|]. set (w2 := setCurrentTarget e None w1). transitivity w2; [apply own_step|].
    set (w3 := setPath e [] w2). transitivity w3; [apply own_step|]. set (w4 := setDispatched e false w3). transitivity w4; [apply own_step|].
    set (w5 := set_cancelBubble e false w4). transitivity w5; [apply own_step|]. set (w6 := setStopImmediatePropagation e false w5).
    transitivity w6; [apply own_step|]. destruct clear; [|done]. set (w7 := setTarget e None w6). transitivity w7; apply own_step.
  - intros [ev Hev]. rewrite finish_event, Hev. by repeat split.
  - unfold finish, setRelatedTarget, setTarget, setStopImmediatePropagation, set_cancelBubble, setStopPropagation, setDispatched, setPath, setCurrentTarget, setEventPhase.
    destruct clear; by rewrite !calls_upd.
  - rewrite finish_event. unfold get_event. by destruct (events w !! e).
Qed.

Lemma dispatch_evolves fuel t e er w w' b : world_wf w -> dispatched (get_event w e) = false -> is_Some (events w !! e) ->
  dispatch nodeType parentNode getRootNode has_handleEvent call report fuel t e er w = Some (w', b) ->
  evolves w w' /\ event_idle (get_event w' e) /\ b = negb (canceledFlag (get_event w' e)).
Proof.
  intros Hw Hd Hev E. unfold dispatch in E. set (w1 := setDispatched e true w) in *.
  assert (H1 : evolves_but e w w1) by apply own_step.
  assert (Hd1 : dispatched (get_event w1 e) = true).
  { unfold w1, setDispatched. rewrite get_event_upd, bool_decide_eq_true_2 by done. destruct Hev as [ev ->]. done. }
  destruct (retarget _ _ _ _ _ _ _) as [rel|]; [|done].
  assert (Hfin : forall w2 c, keeps e w1 w2 -> Some (finish e c w2, negb (canceledFlag (get_event (finish e c w2) e))) = Some (w', b) ->
    evolves w w' /\ event_idle (get_event w' e) /\ b = negb (canceledFlag (get_event w' e))).
  { intros w2 c [H2 H2'] [= <- <-]. destruct (finish_spec e c w2) as (F1 & F2 & _). split; [|split; [|done]].
    - apply (but_evolves e); [done|]. transitivity w1; [done|]. by transitivity w2.
    - apply F2. specialize (H2' Hd1). unfold get_event in H2'. destruct (events w2 !! e); [by eexists|done]. }
  destruct (_ || _); [|by apply (Hfin w1 false); [apply keeps_refl|]].
  set (w2 := appendToEventPath _ _ _ _ _ _ _) in *. assert (H2 : keeps e w1 w2) by by apply keeps_upd.
  destruct (path_loop _ _ _ _ _ _ _ _ _) as [w3|] eqn:Ep; [|done]. apply path_loop_keeps in Ep. cbv zeta in E.
  assert (H3 : keeps e w1 w3) by by eapply keeps_trans. set (w4 := setEventPhase e CAPTURING_PHASE w3) in *.
  assert (H4 : keeps e w1 w4) by (eapply keeps_trans; [done|by apply keeps_upd]).
  assert (Hwf : forall x, keeps e w1 x -> world_wf x /\ dispatched (get_event x e) = true).
  { intros x Hx. split; [apply (sw_wf _ _ _ (proj1 Hx)), (sw_wf _ _ _ H1 Hw)|by apply Hx]. }
  destruct (Hwf w4 H4) as [W4 D4]. set (w5 := capture_loop _ _ _ _ _ w4) in *.
  assert (H5 : keeps e w1 w5) by (apply (keeps_trans _ _ w4); [done|by apply capture_keeps]).
  destruct (Hwf w5 H5) as [W5 D5]. set (w6 := bubble_loop _ _ _ _ _ w5) in *.
  apply (Hfin w6 (clear_targets nodeType getRootNode w3 (path (get_event w3 e)))); [|exact E].
  apply (keeps_trans _ _ w5); [done|by apply bubble_keeps].
Qed.
Lemma dispatchEvent_evolves globalThis fuel t e er w : world_wf w -> is_Some (events w !! e) ->
  evolves w (dispatchEvent nodeType parentNode getRootNode has_handleEvent call report globalThis fuel t e er w).1.
Proof.
  intros Hw Hev. unfold dispatchEvent. set (ty := type_ (get_event w e)).
  set (w1 := if _ && _ then set_unload w else w). assert (H1 : evolves w w1) by (unfold w1; destruct (_ && _); [by apply steps_same|done]).
  assert (E1 : events w1 = events w) by (unfold w1; by destruct (_ && _)).
  destruct (listenersOf w1 t ty); [|transitivity w1; [done|]; apply upd_steps; by split].
  destruct (dispatched (get_event w1 e)) eqn:Ed; [done|]. destruct (negb _); [done|].
  destruct (dispatch _ _ _ _ _ _ _ _ _ _ _) as [[w2 b]|] eqn:E; [|done].
  transitivity w1; [done|]. apply dispatch_evolves in E as [E _]; [done|by apply (sw_wf _ _ _ H1)|done|by rewrite E1].
Qed.

(** *** A target that is not a node *)

(** The event when its listeners are called. *)
Definition at_target (t : Z) (entry : path_item) (x : Event) : Event :=
  mkEvent (type_ x) (bubbles x) (cancelable x) (Some t) AT_TARGET (Some t) None (canceledFlag x) (stopPropagationFlag x)
    (stopImmediatePropagationFlag x) (inPassiveListener x) true [entry].

Definition plain_entry (t : Z) : path_item := mkItem t false (Some t) None false false.

(** All that a dispatch does to the event before the listeners are called. *)
Definition prepared (t e : Z) (stop : bool) (w : world) : world :=
  let w := appendToEventPath nodeType getRootNode e t (Some t) None (setDispatched e true w) in
  let w := setEventPhase e AT_TARGET (setEventPhase e CAPTURING_PHASE w) in
  let w := setRelatedTarget e None (setTarget e (Some t) w) in
  if stop then w else setCurrentTarget e (Some t) w.

Lemma prepared_event t e w ev : nodeType t = None -> events w !! e = Some ev -> path ev = [] ->
  get_event (prepared t e false w) e = at_target t (plain_entry t) ev.
Proof.
  intros Ht Hev Hp. unfold prepared, appendToEventPath, setCurrentTarget, setRelatedTarget, setTarget, setEventPhase, setPath, setDispatched.
  cbv iota. unfold get_event. rewrite !events_upd, !lookup_alter_eq, Hev. simpl.
  rewrite Hp. unfold path_entry, isNode, isShadowRoot, isNode. by rewrite Ht.
Qed.

Lemma prepared_steps t e stop w : evolves_but e w (prepared t e stop w) /\ calls_of e (prepared t e stop w) = calls_of e w /\
  forall t' ty, listenersOf (prepared t e stop w) t' ty = listenersOf w t' ty.
Proof.
  unfold prepared, appendToEventPath. split; [|split].
  - set (w1 := setDispatched e true w). transitivity w1; [apply own_step|]. set (w2 := setPath e _ w1). transitivity w2; [apply own_step|].
    set (w3 := setEventPhase e CAPTURING_PHASE w2). transitivity w3; [apply own_step|]. set (w4 := setEventPhase e AT_TARGET w3).
    transitivity w4; [apply own_step|]. set (w5 := setTarget e (Some t) w4). transitivity w5; [apply own_step|].
    set (w6 := setRelatedTarget e None w5). transitivity w6; [apply own_step|]. destruct stop; [done|apply own_step].
  - unfold setCurrentTarget, setRelatedTarget, setTarget, setEventPhase, setPath, setDispatched. cbv zeta. destruct stop; by rewrite !calls_upd.
  - intros t' ty. assert (Hu : forall f w, listenersOf (upd e f w) t' ty = listenersOf w t' ty) by done.
    unfold setCurrentTarget, setRelatedTarget, setTarget, setEventPhase, setPath, setDispatched. cbv zeta. destruct stop; by rewrite !Hu.
Qed.

Lemma dispatch_plain fuel t e w ev : nodeType t = None -> events w !! e = Some ev -> path ev = [] ->
  exists c, dispatch nodeType parentNode getRootNode has_handleEvent call report (S fuel) t e None w =
    let w6 :=
      if stopPropagationFlag ev then prepared t e true w
      else match innerInvokeEventListeners has_handleEvent call e t (prepared t e false w) with
           | (w, None) => w
           | (w, Some err) => report err w
           end in
    Some (finish e c w6, negb (canceledFlag (get_event (finish e c w6) e))).
Proof.
  intros Ht Hev Hp. unfold dispatch. cbn [retarget].
  rewrite (bool_decide_eq_false_2 (Some t = None)) by done. cbn [negb orb].
  assert (Hpar : getParent nodeType parentNode t = None) by (unfold getParent, isNode; by rewrite Ht). rewrite Hpar. cbn [path_loop]. cbv zeta.
  set (w1 := setDispatched e true w). set (w2 := appendToEventPath nodeType getRootNode e t (Some t) None w1).
  assert (E2 : path (get_event w2 e) = [plain_entry t]).
  { unfold w2, w1, appendToEventPath, setPath, setDispatched. unfold get_event. rewrite !events_upd, !lookup_alter_eq, Hev. simpl.
    rewrite Hp. unfold path_entry, isNode, isShadowRoot, isNode. by rewrite Ht. }
  eexists. rewrite E2. cbn [indexed imap rev app capture_loop item_target plain_entry bubble_loop].
  change (AT_TARGET =? BUBBLING_PHASE) with false. change (AT_TARGET =? AT_TARGET) with true. cbn [andb orb].
  set (w5 := setEventPhase e AT_TARGET (setEventPhase e CAPTURING_PHASE w2)).
  assert (E5 : path (get_event w5 e) = [plain_entry t]).
  { rewrite <-E2. unfold w5, setEventPhase, get_event. rewrite !events_upd, !lookup_alter_eq. by destruct (events w2 !! e). }
  unfold invokeEventListeners. cbv zeta. rewrite E5. cbn [take rev app nearest_target item_target plain_entry].
  set (w6 := setRelatedTarget e _ (setTarget e (Some t) w5)).
  assert (E6 : stopPropagationFlag (get_event w6 e) = stopPropagationFlag ev).
  { unfold w6, w5, w2, w1, appendToEventPath, setCurrentTarget, setRelatedTarget, setTarget, setEventPhase, setPath, setDispatched, get_event.
    rewrite !events_upd, !lookup_alter_eq, Hev. done. }
  rewrite E6. destruct (stopPropagationFlag ev); reflexivity.
Qed.
End Report.

Lemma report_nested_evolves err w : evolves w (report_nested err w).
Proof.
  unfold report_nested. set (w1 := set_stacked (stackedCalls w + 1) w). transitivity w1; [by apply steps_same|].
  transitivity (new_error_event w1); [apply new_error_event_steps|]. by apply steps_same.
Qed.

Lemma reportException_evolves globalThis fuel err w : world_wf w ->
  evolves w (reportException nodeType parentNode getRootNode has_handleEvent call globalThis fuel err w).
Proof.
  intros Hw. unfold reportException. set (w1 := set_stacked (stackedCalls w + 1) w). assert (H1 : evolves w w1) by by apply steps_same.
  assert (H2 : evolves w1 (new_error_event w1)) by apply new_error_event_steps. set (w2 := new_error_event w1) in *.
  assert (Hev : is_Some (events w2 !! next_id w1)) by (unfold w2, new_error_event; simpl; rewrite lookup_insert_eq; by eexists).
  assert (H02 : evolves w w2) by by transitivity w1. pose proof (sw_wf _ _ _ H02 Hw) as Hw2.
  set (w3 := if 1 <? stackedCalls w2 then _ else _). assert (H3 : evolves w2 w3).
  { unfold w3. destruct (1 <? stackedCalls w2); [by apply steps_same|].
    pose proof (dispatchEvent_evolves report_nested (fun err w _ => report_nested_evolves err w) globalThis fuel globalThis (next_id w1) None w2 Hw2 Hev) as H.
    destruct (dispatchEvent _ _ _ _ _ _ _ _ _ _ _) as [w4 [[|]| |]]; simpl in H; [|done|done|done].
    transitivity w4; [done|by apply steps_same]. }
  transitivity w2; [done|]. transitivity w3; [done|by apply steps_same].
Qed.
End Dispatch.

(** ** Adding listeners *)

Lemma push_evolves self ty cb c o p w :
  evolves w (set_next_id (next_id w + 1) (upd_listeners self ty (fun ls => ls ++ [mkListener (next_id w) cb c o p]) w)).
Proof.
  set (new := mkListener (next_id w) cb c o p). set (w' := set_next_id _ _).
  assert (HL : forall t' ty', listeners_at w' t' ty' = listeners_at w t' ty' \/ listeners_at w' t' ty' = listeners_at w t' ty' ++ [new]).
  { intros t' ty'. change (listeners_at w' t' ty') with (listeners_at (upd_listeners self ty (fun ls => ls ++ [new]) w) t' ty').
    rewrite listeners_at_upd. case_bool_decide as Hx; [|by left]. destruct Hx as [-> ->]. unfold listeners_at.
    destruct (listenersOf w self ty); [by right|by left]. }
  split; [simpl; lia| | | |done].
  - intros [H1 H2]. split.
    + intros t' ty'. destruct (H1 t' ty') as [N B]. simpl next_id.
      assert (B' : Forall (fun l => lid l < next_id w + 1) (listeners_at w t' ty')) by (eapply Forall_impl; [exact B|]; simpl; intros; lia).
      destruct (HL t' ty') as [->| ->]; [done|]. rewrite fmap_app. split; [|apply Forall_app; split; [done|constructor; [simpl; lia|constructor]]].
      apply NoDup_app. split; [done|]. split; [|apply NoDup_singleton]. intros i Hi Hj. apply list_elem_of_singleton in Hj as ->.
      apply list_elem_of_fmap in Hi as (x & E & Hx). rewrite Forall_forall in B. specialize (B x Hx). simpl in E. lia.
    + intros e He. specialize (H2 e He). simpl. lia.
  - intros t' ty'. destruct (HL t' ty') as [->| ->].
    + exists (listeners_at w t' ty'), []. rewrite app_nil_r. split; [done|]. split; [done|]. split; constructor.
    + exists (listeners_at w t' ty'), [new]. split; [done|]. split; [done|]. split; [constructor; [simpl; lia|constructor]|]. apply NoDup_singleton.
  - intros t' ty' H. change (listenersOf w' t' ty') with (listenersOf (upd_listeners self ty (fun ls => ls ++ [new]) w) t' ty').
    rewrite listeners_upd. case_bool_decide as Hx; [|done]. destruct Hx as [-> ->]. by apply fmap_is_Some.
Qed.

Lemma add_evolves signal_add self ty cb opts w : (forall s c w, evolves w (signal_add s c w)) ->
  evolves w (addEventListener signal_add self ty cb opts w).
Proof.
  intros Hs. unfold addEventListener. destruct cb as [cb|]; [|done]. destruct (targets w !! self) as [d|] eqn:Ed; [|done].
  set (w1 := match listeners d !! ty with None => _ | Some _ => w end). assert (H1 : evolves w w1).
  { unfold w1. destruct (listeners d !! ty) eqn:El; [done|]. set (w' := set_targets _ w).
    assert (HL : forall t' ty', listenersOf w' t' ty' = listenersOf w t' ty' \/ (listenersOf w t' ty' = None /\ listenersOf w' t' ty' = Some [])).
    { intros t' ty'. unfold listenersOf, getListeners, w', set_targets. simpl. destruct (decide (t' = self)) as [->|Hne]; [|left; by rewrite lookup_insert_ne].
      rewrite lookup_insert_eq, Ed. simpl. destruct (decide (ty' = ty)) as [->|Hty]; [right; by rewrite lookup_insert_eq, El|left; by rewrite lookup_insert_ne]. }
    assert (HA : forall t' ty', listeners_at w' t' ty' = listeners_at w t' ty').
    { intros t' ty'. unfold listeners_at. by destruct (HL t' ty') as [->|[-> ->]]. }
    split; [done| | | |done].
    - intros [H1 H2]. split; [|done]. intros t' ty'. rewrite HA. apply H1.
    - intros t' ty'. rewrite HA. apply list_evolves_refl.
    - intros t' ty' H. destruct (HL t' ty') as [->|[E _]]; [done|]. rewrite E in H. by destruct H. }
  destruct (existsb _ _); [done|]. transitivity w1; [done|].
  destruct (o_signal opts) as [sg|]; [|apply push_evolves]. destruct (signals w1 !! sg) as [sd|]; [|apply push_evolves].
  case_bool_decide; [done|]. set (steps := CbAbortSteps _ _ _ _ _). set (w2 := set_next_id (next_id w1 + 1) w1).
  assert (H2 : evolves w1 w2).
  { split; [simpl; lia| | |done|done].
    - intros [G1 G2]. split; [|intros e He; specialize (G2 e He); simpl; lia]. intros t' ty'. destruct (G1 t' ty') as [N B].
      split; [done|]. eapply Forall_impl; [exact B|]. simpl. intros; lia.
    - intros t' ty'. exists (listeners_at w1 t' ty'), []. rewrite app_nil_r. split; [done|]. split; [done|]. split; constructor. }
  transitivity w2; [done|]. transitivity (signal_add sg steps w2); [apply Hs|apply push_evolves].
Qed.

(** The methods of an event. *)
Lemma event_methods_evolve e w :
  evolves w (stopPropagation e w) /\ evolves w (stopImmediatePropagation e w) /\ evolves w (preventDefault e w) /\
  (forall v, evolves w (set_cancelBubble e v w)) /\ forall v, evolves w (set_returnValue e v w).
Proof.
  assert (Hs : forall v w, evolves w (setStopPropagation e v w)) by (intros; apply upd_steps; by split).
  assert (Hc : forall w, evolves w (setCanceled e true w)) by (intros; apply upd_steps; by split).
  split; [apply Hs|]. split; [transitivity (setStopPropagation e true w); [apply Hs|apply upd_steps; by split]|].
  split; [unfold preventDefault; by destruct (_ && _)|]. split; [intros; apply Hs|]. intros []; [done|apply Hc].
Qed.

(** *** Checking a world *)

Lemma listeners_at_all (Q : list Listener -> Prop) w : Q [] ->
  map_Forall (fun _ d => map_Forall (fun _ ls => Q ls) (listeners d)) (targets w) -> forall t ty, Q (listeners_at w t ty).
Proof.
  intros Hnil H t ty. unfold listeners_at, listenersOf, getListeners. destruct (targets w !! t) as [d|] eqn:E; [|done].
  destruct (listeners d !! ty) as [ls|] eqn:El; [|done]. apply (H t d E ty ls El).
Qed.

Lemma wf_check w :
  map_Forall (fun _ d => map_Forall (fun _ ls => NoDup (lid <$> ls) /\ Forall (fun l => lid l < next_id w) ls) (listeners d)) (targets w) ->
  map_Forall (fun e _ => e < next_id w) (events w) -> world_wf w.
Proof.
  intros Hl He. split; [|intros e [ev E]; by apply (He e ev)].
  apply (listeners_at_all (fun ls => NoDup (lid <$> ls) /\ Forall (fun l => lid l < next_id w) ls)); [by split; constructor|done].
Qed.

(** A callback that cancels the event. *)
Lemma preventDefault_quiet e w : stopImmediatePropagationFlag (get_event (preventDefault e w) e) = stopImmediatePropagationFlag (get_event w e) /\
  stopPropagationFlag (get_event (preventDefault e w) e) = stopPropagationFlag (get_event w e) /\
  forall t ty, listenersOf (preventDefault e w) t ty = listenersOf w t ty.
Proof.
  unfold preventDefault. destruct (_ && _); [|done]. unfold setCanceled. rewrite get_event_chain. unfold get_event. by destruct (events w !! e).
Qed.

(** ** Theorems *)

(** C6. Dispatching at a target that is not a node calls its listeners in the
    order in which they were registered, each at most once, and none that is added
    meanwhile; when the callbacks neither throw, nor stop the event, nor remove
    listeners, all of them are called and the [once] ones are gone afterwards.  The
    event is as before, and the result says whether it was cancelled.  User code may
    do whatever events and targets let it do ([evolves]), which is also all that
    the dispatch itself does. *)
Theorem listeners_called_in_order (nodeType parentNode : Z -> option Z) (getRootNode : Z -> bool -> option Z)
    (has_handleEvent : Z -> bool) (call : Callback -> Z -> world -> world * option Z)
    (globalThis : Z) (fuel : nat) (t e : Z) (w : world) (ev : Event) (ls : list Listener) :
  (forall cb e w, evolves w (call cb e w).1) -> nodeType t = None -> (0 < fuel)%nat -> world_wf w ->
  events w !! e = Some ev -> event_idle ev -> listenersOf w t (type_ ev) = Some ls ->
  exists w' b ids,
    dispatchEvent nodeType parentNode getRootNode has_handleEvent call
      (reportException nodeType parentNode getRootNode has_handleEvent call globalThis fuel) globalThis fuel t e None w = (w', Returned b) /\
    calls_of e w' = calls_of e w ++ ids /\ ids `sublist_of` (lid <$> ls) /\
    event_idle (get_event w' e) /\ b = negb (canceledFlag (get_event w' e)) /\ evolves w w' /\
    (quiet has_handleEvent call e t (type_ ev) ls ->
       ids = lid <$> ls /\ forall l, l ∈ ls -> once l = true -> l ∉ listeners_at w' t (type_ ev)).
Proof.
  intros Hc Ht Hf Hw Hev Hidle Hls. destruct fuel as [|fuel]; [lia|]. destruct Hidle as (Hph & _ & Hp & Hd & Hsp & Hsi).
  set (rep := reportException nodeType parentNode getRootNode has_handleEvent call globalThis (S fuel)).
  assert (Hrep : forall err w, world_wf w -> evolves w (rep err w)) by (intros; by apply reportException_evolves).
  assert (Hge : get_event w e = ev) by (unfold get_event; by rewrite Hev).
  unfold dispatchEvent. rewrite Hge. set (w0 := if _ && _ then set_unload w else w).
  assert (H0 : evolves w w0) by (unfold w0; destruct (_ && _); [by apply steps_same|done]).
  assert (E0 : events w0 = events w /\ log w0 = log w /\ listenersOf w0 t (type_ ev) = Some ls) by (unfold w0; by destruct (_ && _)).
  destruct E0 as (E0 & L0 & Hls0). rewrite Hls0. assert (Hge0 : get_event w0 e = ev) by (unfold get_event; by rewrite E0, Hev).
  rewrite Hge0, Hd, Hph. simpl negb. cbv iota. pose proof (sw_wf _ _ _ H0 Hw) as Hw0.
  assert (Hev0 : events w0 !! e = Some ev) by by rewrite E0.
  destruct (dispatch_plain nodeType parentNode getRootNode has_handleEvent call rep fuel t e w0 ev Ht Hev0 Hp) as (c & E).
  assert (Hd0 : dispatched (get_event w0 e) = false) by by rewrite Hge0. assert (His : is_Some (events w0 !! e)) by (rewrite Hev0; by eexists).
  cbv zeta in E. rewrite Hsp in E. rewrite E.
  destruct (dispatch_evolves nodeType parentNode getRootNode has_handleEvent call Hc rep Hrep (S fuel) t e None w0 _ _ Hw0 Hd0 His E) as (V1 & V2 & V3).
  destruct (prepared_steps nodeType getRootNode t e false w0) as (P1 & P2 & P3).
  pose proof (prepared_event nodeType getRootNode t e w0 ev Ht Hev0 Hp) as Pe. set (wp := prepared nodeType getRootNode t e false w0) in *.
  pose proof (sw_wf _ _ _ P1 Hw0) as Hwp. set (ty := type_ ev) in *.
  assert (Ei : innerInvokeEventListeners has_handleEvent call e t wp = inner_loop has_handleEvent call e t ty ls wp).
  { unfold innerInvokeEventListeners. rewrite Pe. simpl type_. fold ty. by rewrite P3, Hls0. }
  assert (Hdp : dispatched (get_event wp e) = true) by by rewrite Pe.
  destruct (inner_loop_spec has_handleEvent call Hc e t ty ls wp Hwp Hdp) as (I1 & I2 & ids & I3 & I4).
  rewrite Ei in *. set (r := inner_loop has_handleEvent call e t ty ls wp) in *.
  set (w6 := match r with (w, None) => w | (w, Some err) => rep err w end) in *.
  assert (H6 : evolves r.1 w6) by (unfold w6; destruct r as [wr [err|]]; [apply Hrep; by apply (sw_wf _ _ _ I1)|done]).
  assert (Hwr : world_wf r.1) by by apply (sw_wf _ _ _ I1).
  assert (C6 : calls_of e w6 = calls_of e r.1) by (apply (sw_open _ _ _ H6 Hwr e I); by rewrite (sf_dispatched _ _ I2)).
  destruct (finish_spec e c w6) as (F1 & _ & F3 & _).
  assert (Cw : calls_of e w0 = calls_of e w) by (unfold calls_of; by rewrite L0).
  exists (finish e c w6), (negb (canceledFlag (get_event (finish e c w6) e))), ids. split; [done|].
  split; [by rewrite F3, C6, I3, P2, Cw|]. split; [done|]. split; [done|]. split; [done|]. split; [by transitivity w0|].
  intros Hq. destruct (wf_listeners _ Hw0 t ty) as [Nd Bd].
  assert (La : listeners_at w0 t ty = ls) by (unfold listeners_at; by rewrite Hls0). rewrite La in Nd, Bd.
  assert (Lp : listeners_at wp t ty = ls) by (unfold listeners_at; by rewrite P3, Hls0).
  destruct (inner_loop_all has_handleEvent call Hc e t ty ls Hq (NoDup_fmap_1 _ _ Nd) ls wp) as (A1 & A2 & A3 & A4);
    [done|done|done|by rewrite Pe|by rewrite Pe|apply Forall_forall; intros x Hx; by rewrite Lp|]. fold r in A1, A2, A3, A4. split.
  - rewrite I3 in A2. by apply app_inv_head in A2.
  - intros l Hl Ho Hin. assert (Hlt : lid l < next_id w0) by (rewrite Forall_forall in Bd; by apply Bd).
    pose proof (sw_next _ _ _ P1). pose proof (sw_next _ _ _ I1). pose proof (sw_next _ _ _ H6).
    apply (list_evolves_old _ _ _ _ l (sw_lists _ _ _ F1 t ty)) in Hin; [|lia].
    apply (list_evolves_old _ _ _ _ l (sw_lists _ _ _ H6 t ty)) in Hin; [|lia]. by apply (A4 l).
Qed.

Lemma listeners_called_in_order_witness :
  let call := fun (_ : Callback) e w => (preventDefault e w, None : option Z) in
  let l1 := mkListener 1 (CbFunction 1) false true false in
  let l2 := mkListener 2 (CbFunction 2) true false false in
  let ev := event_new (lit "x") true true in
  let w := mkWorld {[7 := mkTarget None [] {[lit "x" := [l1; l2]]}]} {[10 := ev]} ∅ ∅ 11 0 [] false [] in
  exists w' b ids,
    dispatchEvent (fun _ => None) (fun _ => None) (fun _ _ => None) (fun _ => true) call
      (reportException (fun _ => None) (fun _ => None) (fun _ _ => None) (fun _ => true) call 0 1) 0 1 7 10 None w = (w', Returned b) /\
    calls_of 10 w' = calls_of 10 w ++ ids /\ ids `sublist_of` [1; 2] /\
    event_idle (get_event w' 10) /\ b = negb (canceledFlag (get_event w' 10)) /\ evolves w w' /\
    (quiet (fun _ => true) call 10 7 (lit "x") [l1; l2] ->
       ids = [1; 2] /\ forall l, l ∈ [l1; l2] -> once l = true -> l ∉ listeners_at w' 7 (lit "x")).
Proof.
  intros call l1 l2 ev w.
  apply (listeners_called_in_order (fun _ => None) (fun _ => None) (fun _ _ => None) (fun _ => true) call 0 1 7 10 w ev [l1; l2]).
  - intros cb e w1. apply event_methods_evolve.
  - reflexivity.
  - lia.
  - apply wf_check; refine (bool_decide_unpack _ _); vm_compute; exact I.
  - vm_compute. reflexivity.
  - exact (conj eq_refl (conj eq_refl (conj eq_refl (conj eq_refl (conj eq_refl eq_refl))))).
  - vm_compute. reflexivity.
Defined.
