(* ===== verification/EventTree.v ===== *)
(** * Events in a tree: theorems

    An event that is dispatched at a node of a tree without shadow roots goes down
    from the root to the parent of the target, reaches the target, and goes up
    again when it bubbles. *)

From Stdlib Require Import ZArith Lia.
From stdpp Require Import base list gmap numbers option strings relations.
From S2P Require Import Prelude EventTarget EventTheorems.

#[local] Open Scope Z_scope.

(** A listener is called in a phase. *)
Definition runs (ph : Z) (l : Listener) : bool :=
  negb (((ph =? CAPTURING_PHASE) && negb (capture l)) || ((ph =? BUBBLING_PHASE) && capture l)).

(** What is left of the listeners after a phase, and which are called in it. *)
Definition remaining (ph : Z) (ls : list Listener) : list Listener := filter (fun l => once l && runs ph l = false) ls.
Definition called (ph : Z) (ls : list Listener) : list Z := lid <$> filter (fun l => runs ph l = true) ls.

Lemma remove_listener_middle l pre post : l ∉ pre -> remove_listener l (pre ++ l :: post) = pre ++ post.
Proof.
  intros Hl. unfold remove_listener. rewrite list_find_app_r by (apply list_find_None, Forall_forall; intros x Hx ->; done).
  simpl. rewrite decide_True by done. simpl. apply delete_middle.
Qed.

Lemma bind_ext_in (f g : Z -> list Z) l : (forall x, x ∈ l -> f x = g x) -> l ≫= f = l ≫= g.
Proof. induction l as [|x l IH]; [done|]. intros H. simpl. rewrite H by by left. f_equal. apply IH. intros y Hy. apply H. by right. Qed.

Section Tree.
Context (has_handleEvent : Z -> bool) (call : Callback -> Z -> world -> world * option Z).
Hypothesis calls_ok : forall cb e w, evolves w (call cb e w).1.
Context (e : Z) (ty : str) (bb : bool) (P : list path_item) (L0 : Z -> list Listener).

(** Callbacks that leave the listeners and the flags of the event alone. *)
Definition silent : Prop := forall l w, (exists x, l ∈ L0 x) -> dispatched (get_event w e) = true ->
  let r := run_callback has_handleEvent call (callback l) e w in
  r.2 = None /\ stopImmediatePropagationFlag (get_event r.1 e) = stopImmediatePropagationFlag (get_event w e) /\
  stopPropagationFlag (get_event r.1 e) = stopPropagationFlag (get_event w e) /\
  forall x, listenersOf r.1 x ty = listenersOf w x ty.

(** The state of a dispatch that nothing has stopped. *)
Record running (w : world) : Prop := {
  run_wf : world_wf w;
  run_dispatched : dispatched (get_event w e) = true;
  run_type : type_ (get_event w e) = ty;
  run_bubbles : bubbles (get_event w e) = bb;
  run_path : path (get_event w e) = P;
  run_stop : stopPropagationFlag (get_event w e) = false;
  run_stopImmediate : stopImmediatePropagationFlag (get_event w e) = false;
}.

(** Steps on the event that keep a dispatch going. *)
Lemma running_upd f w : (forall ev, type_ (f ev) = type_ ev /\ bubbles (f ev) = bubbles ev /\ path (f ev) = path ev /\ dispatched (f ev) = dispatched ev /\
    stopPropagationFlag (f ev) = stopPropagationFlag ev /\ stopImmediatePropagationFlag (f ev) = stopImmediatePropagationFlag ev) ->
  running w -> running (upd e f w).
Proof.
  intros Hf Hr. pose proof Hr as [R1 R2 R3 R4 R5 R6 R7]. assert (Hev : exists ev, events w !! e = Some ev).
  { unfold get_event in R2. destruct (events w !! e); [by eexists|done]. }
  destruct Hev as [ev Hev]. assert (Hge : get_event w e = ev) by (unfold get_event; by rewrite Hev). rewrite Hge in *.
  destruct (Hf ev) as (F1 & F2 & F3 & F4 & F5 & F6).
  assert (Hu : get_event (upd e f w) e = f ev) by (by rewrite get_event_chain, Hev).
  split; rewrite ?Hu; try congruence. by apply (sw_wf _ _ _ (own_step e f w)).
Qed.

Lemma running_frame w w' : running w -> world_wf w' -> same_frame (get_event w e) (get_event w' e) ->
  stopPropagationFlag (get_event w' e) = stopPropagationFlag (get_event w e) ->
  stopImmediatePropagationFlag (get_event w' e) = stopImmediatePropagationFlag (get_event w e) -> running w'.
Proof. intros [] Hw [] Hs Hi. split; try done; congruence. Qed.

(** What a round does to the listeners before the callback. *)
Lemma before_call_all t l pre hs w : listenersOf w t ty = Some (pre ++ l :: hs) -> l ∉ pre ->
  forall x, listenersOf (before_call e t ty l w) x ty =
    if bool_decide (x = t) then Some (if once l then pre ++ hs else pre ++ l :: hs) else listenersOf w x ty.
Proof.
  intros Hl Hn x. unfold before_call. change (listenersOf (add_log ?z ?w) x ty) with (listenersOf w x ty).
  assert (E : forall b w1, listenersOf (if b : bool then setInPassiveListener e true w1 else w1) x ty = listenersOf w1 x ty) by (intros [] w1; done).
  rewrite E. case_bool_decide as Hx; [subst x|].
  - destruct (once l); [|done]. rewrite listeners_upd, bool_decide_eq_true_2, Hl by done. simpl. by rewrite remove_listener_middle.
  - destruct (once l); [|done]. rewrite listeners_upd, bool_decide_eq_false_2 by tauto. done.
Qed.

Lemma before_call_propagation t l w : stopPropagationFlag (get_event (before_call e t ty l w) e) = stopPropagationFlag (get_event w e).
Proof.
  unfold before_call. change (get_event (add_log ?x ?w) e) with (get_event w e). set (w1 := if once l then _ else _).
  assert (E : get_event w1 e = get_event w e) by (unfold w1; by destruct (once l)). rewrite <-E. destruct (passive l); [|done].
  unfold setInPassiveListener. rewrite get_event_chain. unfold get_event. by destruct (events w1 !! e).
Qed.

Hypothesis Hsilent : silent.

(** One round with a listener that is called. *)
Lemma round_silent t l pre hs w : running w -> l ∈ L0 t -> listenersOf w t ty = Some (pre ++ l :: hs) -> l ∉ pre ->
  exists w1, run_callback has_handleEvent call (callback l) e (before_call e t ty l w) = (w1, None) /\
    let w2 := setInPassiveListener e false w1 in
    running w2 /\ eventPhase (get_event w2 e) = eventPhase (get_event w e) /\ calls_of e w2 = calls_of e w ++ [lid l] /\
    forall x, listenersOf w2 x ty = if bool_decide (x = t) then Some (if once l then pre ++ hs else pre ++ l :: hs) else listenersOf w x ty.
Proof.
  intros Hr Hl0 Hl Hn. pose proof (before_call_all t l pre hs w Hl Hn) as Lb. pose proof (before_call_steps e t ty l w) as Hb.
  destruct (before_call_frame e t ty l w) as [Fb Cb]. pose proof (before_call_stop e t ty l w) as Sb. pose proof (before_call_propagation t l w) as Spb.
  set (wb := before_call e t ty l w) in *. pose proof Hr as [R1 R2 R3 R4 R5 R6 R7]. pose proof (sw_wf _ _ _ Hb R1) as Hwb.
  assert (Hdb : dispatched (get_event wb e) = true) by by rewrite (sf_dispatched _ _ Fb).
  pose proof (run_callback_evolves has_handleEvent call calls_ok (callback l) e wb) as Hrc.
  destruct (Hsilent l wb (ex_intro _ t Hl0) Hdb) as (Q1 & Q2 & Q3 & Q4).
  destruct (run_callback has_handleEvent call (callback l) e wb) as [w1 res]. simpl in Hrc, Q1, Q2, Q3, Q4. subst res.
  destruct (sw_open _ _ _ Hrc Hwb e I Hdb) as [F1 C1]. exists w1. split; [done|]. cbv zeta.
  assert (Hr1 : running w1) by (apply (running_frame w); [done|by apply (sw_wf _ _ _ Hrc)|by transitivity (get_event wb e)|congruence|congruence]).
  split; [apply running_upd; [by intros ev|done]|]. destruct (unmark_frame e w1) as [F2 _].
  split; [by rewrite (sf_phase _ _ F2), (sf_phase _ _ F1), (sf_phase _ _ Fb)|].
  split; [change (calls_of e (setInPassiveListener e false w1)) with (calls_of e w1); congruence|].
  intros x. change (listenersOf (setInPassiveListener e false w1) x ty) with (listenersOf w1 x ty). by rewrite Q4.
Qed.

Lemma inner_loop_silent t ph hs : hs ⊆ L0 t -> forall pre w, running w -> eventPhase (get_event w e) = ph -> listenersOf w t ty = Some (pre ++ hs) ->
  NoDup (pre ++ hs) ->
  let r := inner_loop has_handleEvent call e t ty hs w in
  r.2 = None /\ running r.1 /\ eventPhase (get_event r.1 e) = ph /\ calls_of e r.1 = calls_of e w ++ called ph hs /\
  listenersOf r.1 t ty = Some (pre ++ remaining ph hs) /\ forall x, x <> t -> listenersOf r.1 x ty = listenersOf w x ty.
Proof.
  induction hs as [|l hs IH]; intros Hin pre w Hr Hph Hl Hn r; unfold r; clear r.
  { split; [done|]. split; [done|]. split; [done|]. split; [by rewrite app_nil_r|]. split; [exact Hl|done]. }
  assert (Hin' : hs ⊆ L0 t) by (intros x Hx; apply Hin; by right). specialize (IH Hin').
  assert (Hat : listeners_at w t ty = pre ++ l :: hs) by (unfold listeners_at; by rewrite Hl).
  assert (Hnl : (l ∉ pre ++ hs) /\ NoDup (pre ++ hs)) by (rewrite <-Permutation_middle in Hn; by apply NoDup_cons in Hn).
  destruct Hnl as [Hnl Hn']. rewrite elem_of_app in Hnl.
  rewrite inner_loop_eq, Hat, bool_decide_eq_true_2, Hph by (apply elem_of_app; right; by left). cbn [negb].
  unfold called, remaining. rewrite !filter_cons. assert (Erun := eq_refl (runs ph l)). unfold runs in Erun at 2.
  destruct (_ || _) eqn:Eskip; cbn [negb] in Erun; rewrite Erun.
  { rewrite (decide_False (P := false = true)) by done. rewrite andb_false_r, decide_True by done.
    assert (Hl' : listenersOf w t ty = Some ((pre ++ [l]) ++ hs)) by by rewrite <-app_assoc.
    destruct (IH (pre ++ [l]) w Hr Hph Hl') as (I1 & I2 & I3 & I4 & I5 & I6); [by rewrite <-app_assoc|]. rewrite <-app_assoc in I5. done. }
  rewrite decide_True by done. rewrite andb_true_r.
  destruct (round_silent t l pre hs w Hr) as (w1 & -> & Hr2 & Hph2 & C2 & L2); [apply Hin; by left|done|tauto|].
  cbv zeta. rewrite (run_stopImmediate _ Hr2). set (w2 := setInPassiveListener e false w1) in *. rewrite Hph in Hph2.
  assert (Lt : listenersOf w2 t ty = Some (if once l then pre ++ hs else pre ++ l :: hs)) by by rewrite L2, bool_decide_eq_true_2.
  assert (Lx : forall x, x <> t -> listenersOf w2 x ty = listenersOf w x ty) by (intros; by rewrite L2, bool_decide_eq_false_2).
  destruct (once l) eqn:Eo.
  - rewrite decide_False by done. destruct (IH pre w2 Hr2 Hph2 Lt Hn') as (I1 & I2 & I3 & I4 & I5 & I6).
    split; [done|]. split; [done|]. split; [done|]. split; [rewrite I4, C2, <-app_assoc; done|]. split; [done|]. intros x Hx. by rewrite I6, Lx.
  - rewrite decide_True by done. replace (pre ++ l :: hs) with ((pre ++ [l]) ++ hs) in * by by rewrite <-app_assoc.
    destruct (IH (pre ++ [l]) w2 Hr2 Hph2 Lt Hn) as (I1 & I2 & I3 & I4 & I5 & I6).
    split; [done|]. split; [done|]. split; [done|]. split; [rewrite I4, C2, <-app_assoc; done|]. split; [rewrite I5, <-app_assoc; done|].
    intros x Hx. by rewrite I6, Lx.
Qed.
(** *** The loops over the path *)

Context (report : Z -> world -> world).

Definition listeners_in (S : Z -> option (list Listener)) (w : world) : Prop := forall x, listenersOf w x ty = S x.
Definition known (S : Z -> option (list Listener)) : Prop := forall x ls, S x = Some ls -> ls ⊆ L0 x.

(** The listeners after the targets [xs] were visited. *)
Definition visit (ph : Z) (xs : list Z) (S : Z -> option (list Listener)) (x : Z) : option (list Listener) :=
  if bool_decide (x ∈ xs) then remaining ph <$> S x else S x.
Definition visited (ph : Z) (xs : list Z) (S : Z -> option (list Listener)) : list Z :=
  xs ≫= (fun x => called ph (default [] (S x))).

Lemma visit_known ph xs S : known S -> known (visit ph xs S).
Proof.
  intros Hk x ls. unfold visit. case_bool_decide; [|apply Hk]. destruct (S x) as [l|] eqn:E; [|done]. intros [= <-].
  intros y Hy. apply list_elem_of_filter in Hy as [_ Hy]. by apply (Hk x l).
Qed.

Lemma visit_cons ph x xs S : x ∉ xs -> forall y, visit ph xs (visit ph [x] S) y = visit ph (x :: xs) S y.
Proof.
  intros Hx y. unfold visit. destruct (decide (y = x)) as [->|Hy].
  - rewrite (bool_decide_eq_false_2 (x ∈ xs)) by done. rewrite (bool_decide_eq_true_2 (x ∈ [x])) by by left.
    by rewrite (bool_decide_eq_true_2 (x ∈ x :: xs)) by by left.
  - rewrite (bool_decide_eq_false_2 (y ∈ [x])) by set_solver. by rewrite (bool_decide_ext (y ∈ x :: xs) (y ∈ xs)) by set_solver.
Qed.

Lemma visited_ext ph xs S S' : (forall x, x ∈ xs -> S' x = S x) -> visited ph xs S' = visited ph xs S.
Proof. intros H. unfold visited. apply bind_ext_in. intros x Hx. by rewrite H. Qed.

Lemma set_event_same f w S : listeners_in S w -> listeners_in S (upd e f w).
Proof. intros H x. apply H. Qed.

Lemma phase_upd f w : running w -> (forall ev, eventPhase (f ev) = eventPhase ev) -> eventPhase (get_event (upd e f w) e) = eventPhase (get_event w e).
Proof.
  intros Hr Hf. rewrite get_event_chain. pose proof (run_dispatched _ Hr) as Hd. unfold get_event in *. destruct (events w !! e); [apply Hf|done].
Qed.

(** The state of a dispatch: the phase, the calls so far and the listeners. *)
Definition at_state (ph : Z) (ids : list Z) (S : Z -> option (list Listener)) (w : world) : Prop :=
  running w /\ eventPhase (get_event w e) = ph /\ calls_of e w = ids /\ listeners_in S w.

(** Changes of the event that no listener sees. *)
Lemma at_state_upd f ph ids S w : (forall ev, type_ (f ev) = type_ ev /\ bubbles (f ev) = bubbles ev /\ path (f ev) = path ev /\ dispatched (f ev) = dispatched ev /\
    stopPropagationFlag (f ev) = stopPropagationFlag ev /\ stopImmediatePropagationFlag (f ev) = stopImmediatePropagationFlag ev) ->
  (forall ev, eventPhase (f ev) = eventPhase ev) -> at_state ph ids S w -> at_state ph ids S (upd e f w).
Proof.
  intros Hf Hp (H1 & H2 & H3 & H4). split; [by apply running_upd|]. split; [by rewrite phase_upd|]. by split; [rewrite calls_upd|apply set_event_same].
Qed.

Lemma at_state_phase ph' ph ids S w : at_state ph ids S w -> at_state ph' ids S (setEventPhase e ph' w).
Proof.
  intros (H1 & H2 & H3 & H4). unfold setEventPhase. split; [by apply running_upd|]. split; [|by split; [rewrite calls_upd|apply set_event_same]].
  rewrite get_event_chain. pose proof (run_dispatched _ H1) as Hd. unfold get_event in *. by destruct (events w !! e).
Qed.

Lemma invoke_silent i tuple ph ids S w : known S -> at_state ph ids S w ->
  at_state ph (ids ++ called ph (default [] (S (item tuple)))) (visit ph [item tuple] S)
    (invokeEventListeners has_handleEvent call report e i tuple w).
Proof.
  intros Hk Hs. unfold invokeEventListeners. cbv zeta. set (wt := match nearest_target _ with Some t => _ | None => _ end).
  assert (Ht : at_state ph ids S wt) by (unfold wt; destruct (nearest_target _); [by apply at_state_upd|done]).
  set (wr := setRelatedTarget e _ wt). assert (Hr : at_state ph ids S wr) by by apply at_state_upd.
  rewrite (run_stop _ (proj1 Hr)). set (wc := setCurrentTarget e _ wr). assert (Hc : at_state ph ids S wc) by by apply at_state_upd.
  destruct Hc as (H1 & H2 & H3 & H4). unfold innerInvokeEventListeners. rewrite (run_type _ H1), H4.
  destruct (S (item tuple)) as [ls|] eqn:E; simpl.
  - destruct (wf_listeners _ (run_wf _ H1) (item tuple) ty) as [Nd _]. unfold listeners_at in Nd. rewrite H4, E in Nd. simpl in Nd.
    assert (Hl : listenersOf wc (item tuple) ty = Some ([] ++ ls)) by by rewrite H4.
    destruct (inner_loop_silent (item tuple) ph ls (Hk _ _ E) [] wc H1 H2 Hl (NoDup_fmap_1 _ _ Nd)) as (I1 & I2 & I3 & I4 & I5 & I6).
    destruct (inner_loop _ _ _ _ _ _ _) as [w1 r]. simpl in *. subst r. split; [done|]. split; [done|]. split; [congruence|].
    intros x. unfold visit. case_bool_decide as Hx; [apply list_elem_of_singleton in Hx as ->; by rewrite I5, E|].
    rewrite I6, H4; [done|]. intros ->. apply Hx. by left.
  - rewrite app_nil_r. split; [done|]. split; [done|]. split; [done|]. intros x. unfold visit. rewrite H4. case_bool_decide as Hx; [|done].
    apply list_elem_of_singleton in Hx as ->. by rewrite E.
Qed.

Lemma at_state_ext ph ids ids' S S' w : ids = ids' -> (forall x, S x = S' x) -> at_state ph ids S w -> at_state ph ids' S' w.
Proof. intros -> HS (H1 & H2 & H3 & H4). split; [done|]. split; [done|]. split; [done|]. intros x. by rewrite H4. Qed.

Lemma visited_step ph x xs S ids : x ∉ xs ->
  (ids ++ called ph (default [] (S x))) ++ visited ph xs (visit ph [x] S) = ids ++ visited ph (x :: xs) S.
Proof.
  intros Hx. rewrite <-app_assoc. f_equal. unfold visited at 2. simpl. f_equal. apply visited_ext. intros y Hy. unfold visit.
  rewrite bool_decide_eq_false_2; [done|]. intros ->%list_elem_of_singleton. done.
Qed.

(** The items that are not targets. *)
Definition on_way (l : list (nat * path_item)) : list Z := item <$> filter (fun p => item_target p = None) (l.*2).

Lemma capture_silent l : forall ids S w, NoDup (on_way l) -> known S -> at_state CAPTURING_PHASE ids S w ->
  at_state CAPTURING_PHASE (ids ++ visited CAPTURING_PHASE (on_way l) S) (visit CAPTURING_PHASE (on_way l) S)
    (capture_loop has_handleEvent call report e l w).
Proof.
  induction l as [|[i tuple] l IH]; intros ids S w Hn Hk Hs.
  - apply (at_state_ext _ ids _ S); [by rewrite app_nil_r|done|done].
  - simpl. unfold on_way in *. simpl in *. rewrite filter_cons in *. destruct (item_target tuple) as [t|]; [rewrite decide_False in * by done; by apply IH|].
    rewrite decide_True in * by done. simpl in *. apply NoDup_cons in Hn as [Hx Hn].
    pose proof (IH _ _ _ Hn (visit_known _ _ _ Hk) (invoke_silent i tuple _ _ _ _ Hk Hs)) as H.
    eapply at_state_ext; [| |exact H]; [by apply visited_step|intros x; by apply visit_cons].
Qed.

Lemma bubble_silent l : Forall (fun p => item_target p.2 = None) l -> forall ids S w ph, NoDup (item <$> l.*2) -> known S -> at_state ph ids S w ->
  exists ph', at_state ph' (ids ++ if bb then visited BUBBLING_PHASE (item <$> l.*2) S else [])
    (if bb then visit BUBBLING_PHASE (item <$> l.*2) S else S) (bubble_loop has_handleEvent call report e l w).
Proof.
  induction l as [|[i tuple] l IH]; intros Hf ids S w ph Hn Hk Hs.
  - exists ph. apply (at_state_ext _ ids _ S); [by destruct bb; rewrite app_nil_r|intros; by destruct bb|done].
  - apply Forall_cons in Hf as [Ht Hf]. simpl in Ht, Hn. apply NoDup_cons in Hn as [Hx Hn]. cbn [bubble_loop]. rewrite Ht. cbv zeta.
    pose proof (at_state_phase BUBBLING_PHASE _ _ _ _ Hs) as Hs1. rewrite (run_bubbles _ (proj1 Hs1)).
    change (BUBBLING_PHASE =? BUBBLING_PHASE) with true. change (BUBBLING_PHASE =? AT_TARGET) with false. rewrite orb_false_r. cbn [andb].
    destruct bb.
    + destruct (IH Hf _ _ _ _ Hn (visit_known _ _ _ Hk) (invoke_silent i tuple _ _ _ _ Hk Hs1)) as [ph' H]. exists ph'.
      eapply at_state_ext; [| |exact H]; [by apply visited_step|intros x; by apply visit_cons].
    + apply (IH Hf _ _ _ _ Hn Hk Hs1).
Qed.
End Tree.

(** ** The path of a tree *)

Section Path.
Context (nodeType parentNode : Z -> option Z) (getRootNode : Z -> bool -> option Z).

(** [l] are the ancestors of [t], its parent first. *)
Fixpoint ancestors_are (t : Z) (l : list Z) : Prop :=
  match l with
  | [] => parentNode t = None
  | p :: l => parentNode t = Some p /\ ancestors_are p l
  end.

(** The target and its ancestors are the nodes of a tree without shadow roots. *)
Record plain_tree (w : world) (t : Z) (l : list Z) : Prop := {
  pt_chain : ancestors_are t l;
  pt_nodes : forall x, x ∈ t :: l -> is_Some (nodeType x);
  pt_root : getRootNode t true = last (t :: l);
  pt_hosts : forall x, getHost w x = None;
}.

Lemma ancestors_unique t l l' : ancestors_are t l -> ancestors_are t l' -> l = l'.
Proof.
  revert t l'. induction l as [|p l IH]; intros t [|p' l']; simpl; intros H H'; [done|destruct H'; congruence|destruct H; congruence|].
  destruct H as [H1 H2], H' as [H1' H2']. rewrite H1 in H1'. injection H1' as <-. f_equal. by apply (IH p).
Qed.

Lemma ancestors_suffix t a x b : ancestors_are t (a ++ x :: b) -> ancestors_are x b.
Proof. revert t. induction a as [|y a IH]; intros t; simpl; intros [_ H]; [done|by apply (IH y)]. Qed.

Lemma ancestors_nodup t l : ancestors_are t l -> NoDup (t :: l).
Proof.
  revert t. induction l as [|p l IH]; intros t H; [apply NoDup_singleton|]. apply NoDup_cons. split; [|apply IH; apply H].
  intros Hin. apply list_elem_of_split in Hin as (a & b & E). pose proof H as Hs. rewrite E in Hs. apply ancestors_suffix in Hs.
  pose proof (ancestors_unique _ _ _ H Hs) as Hl. rewrite Hl in E. apply (f_equal length) in E. rewrite length_app in E. simpl in E. lia.
Qed.

Lemma no_shadow_root w n : (forall x, getHost w x = None) -> isShadowRoot nodeType w n = false.
Proof. intros Hh. unfold isShadowRoot. destruct n as [n|]; [|done]. rewrite (bool_decide_eq_false_2 (getHost w n <> None)) by (by rewrite Hh; intros []). by rewrite andb_false_r. Qed.

Lemma getParent_chain t l : is_Some (nodeType t) -> ancestors_are t l -> getParent nodeType parentNode t = head l.
Proof. intros [n Hn] H. unfold getParent, isNode. rewrite Hn. destruct l; simpl in *; [done|by destruct H]. Qed.

Lemma ancestor_found w root l : forall p fuel, (forall x, getHost w x = None) -> ancestors_are p l -> (forall x, x ∈ p :: l -> is_Some (nodeType x)) ->
  last (p :: l) = Some root -> (length l < fuel)%nat -> isShadowInclusiveAncestor nodeType parentNode fuel w (Some root) (Some p) = Some true.
Proof.
  induction l as [|q l IH]; intros p fuel Hh Hc Hn Hr Hf; (destruct fuel as [|fuel]; [lia|]); cbn [isShadowInclusiveAncestor].
  - destruct (Hn p) as [n Hp]; [by left|]. injection Hr as <-. unfold isNode. rewrite Hp. by rewrite bool_decide_eq_true_2.
  - destruct (Hn p) as [n Hp]; [by left|]. assert (Hnode : isNode nodeType (Some p) = true) by (unfold isNode; by rewrite Hp). rewrite Hnode.
    case_bool_decide; [done|]. rewrite no_shadow_root, (getParent_chain p (q :: l)) by (done || by eexists). simpl in Hf. apply IH; [done|apply Hc| |done|lia].
    intros x Hx. apply Hn. by right.
Qed.

(** The items of the ancestors. *)
Definition way_entry (x : Z) : path_item := mkItem x false None None false false.

Lemma path_entry_plain w x o : (forall x, getHost w x = None) -> path_entry nodeType getRootNode w x o None = mkItem x false o None false false.
Proof. intros Hh. unfold path_entry. by rewrite !no_shadow_root, andb_false_r by done. Qed.

Lemma setPath_same e w ev : events w !! e = Some ev -> setPath e (path ev) w = w.
Proof.
  intros He. unfold setPath, upd, set_events. destruct w as [a b c d f g h i j]. simpl in *. f_equal. apply map_eq. intros k.
  destruct (decide (k = e)) as [->|Hk]; [rewrite lookup_alter_eq, He; by destruct ev|by rewrite lookup_alter_ne].
Qed.

Lemma setPath_setPath e p q w : setPath e p (setPath e q w) = setPath e p w.
Proof. unfold setPath, upd, set_events. simpl. f_equal. apply map_eq. intros k.
  destruct (decide (k = e)) as [->|Hk]; [rewrite !lookup_alter_eq; by destruct (events w !! e)|by rewrite !lookup_alter_ne].
Qed.

Lemma path_get e p w ev : events w !! e = Some ev -> path (get_event (setPath e p w) e) = p.
Proof. intros He. unfold setPath. by rewrite get_event_chain, He. Qed.

Lemma path_loop_tree e t root l : forall fuel w ev, events w !! e = Some ev -> (forall x, getHost w x = None) -> (length l < fuel)%nat ->
  (forall p l', l = p :: l' -> ancestors_are p l') -> (forall x, x ∈ l -> is_Some (nodeType x)) ->
  getRoot nodeType getRootNode t = Some root -> (l <> [] -> last l = Some root) ->
  path_loop nodeType parentNode getRootNode fuel e t None (head l) w = Some (setPath e (path ev ++ (way_entry <$> l)) w).
Proof.
  induction l as [|p l IH]; intros fuel w ev He Hh Hf Hc Hn Hr Hl; (destruct fuel as [|fuel]; [lia|]); cbn [path_loop head].
  - by rewrite app_nil_r, (setPath_same e w ev).
  - simpl in Hf. replace (retarget nodeType parentNode getRootNode (S fuel) w None p) with (Some (None : option Z)) by done. cbv iota.
    rewrite Hr, (ancestor_found w root l p (S fuel) Hh (Hc p l eq_refl) Hn (Hl ltac:(done))) by lia.
    destruct (Hn p) as [n Hp]; [by left|]. assert (Hnode : isNode nodeType (Some p) = true) by (unfold isNode; by rewrite Hp). rewrite Hnode. cbn [andb].
    unfold appendToEventPath. assert (Hge : get_event w e = ev) by (unfold get_event; by rewrite He). rewrite Hge, path_entry_plain by done.
    rewrite (getParent_chain p l) by (by eexists || by apply Hc). fold (way_entry p).
    set (w1 := setPath e (path ev ++ [way_entry p]) w). assert (He1 : exists ev1, events w1 !! e = Some ev1 /\ path ev1 = path ev ++ [way_entry p]).
    { unfold w1, setPath. rewrite events_upd, lookup_alter_eq, He. simpl. by eexists. }
    destruct He1 as (ev1 & He1 & Hp1). rewrite (IH fuel w1 ev1); [|done|done|lia| | |done|].
    + rewrite Hp1. unfold w1. rewrite setPath_setPath, <-app_assoc. done.
    + intros q l' ->. specialize (Hc p (q :: l') eq_refl). apply Hc.
    + intros x Hx. apply Hn. by right.
    + intros Hne. destruct l; [done|]. apply Hl. done.
Qed.
End Path.

(** ** Dispatch at a node *)

Lemma called_capturing ls : called CAPTURING_PHASE ls = lid <$> filter (fun l => capture l = true) ls.
Proof. unfold called. f_equal. apply list_filter_iff. intros l. unfold runs. simpl. by destruct (capture l). Qed.

Lemma called_bubbling ls : called BUBBLING_PHASE ls = lid <$> filter (fun l => capture l = false) ls.
Proof. unfold called. f_equal. apply list_filter_iff. intros l. unfold runs. simpl. by destruct (capture l). Qed.

Lemma called_at_target ls : called AT_TARGET ls = lid <$> ls.
Proof. unfold called. f_equal. induction ls as [|l ls IH]; [done|]. by rewrite filter_cons, decide_True, IH. Qed.

(** What the way down removes is not called on the way up. *)
Lemma called_after_capturing ls : called BUBBLING_PHASE (remaining CAPTURING_PHASE ls) = called BUBBLING_PHASE ls.
Proof.
  unfold called, remaining. f_equal. rewrite list_filter_filter. apply list_filter_iff. intros l. unfold runs. simpl.
  destruct (capture l), (once l); simpl; naive_solver.
Qed.

Lemma on_way_rev l : on_way (rev l) = rev (on_way l).
Proof.
  unfold on_way. induction l as [|[i p] l IH]; [done|]. cbn [rev]. rewrite fmap_app, filter_app, fmap_app, IH.
  change ([(i, p)].*2) with [p]. rewrite (filter_cons _ p []).
  change (((i, p) :: l).*2) with (p :: l.*2). rewrite (filter_cons _ p (l.*2)).
  destruct (decide (item_target p = None)); simpl; [done|]. by rewrite app_nil_r.
Qed.

Lemma elem_of_rev (x : Z) l : x ∈ rev l <-> x ∈ l.
Proof. by rewrite !list_elem_of_In, <-in_rev. Qed.

Lemma indexed_snd (f : nat -> nat) l : (imap (fun i p => (f i, p)) l).*2 = (l : list path_item).
Proof. revert f. induction l as [|p l IH]; intros f; [done|]. simpl. f_equal. apply (IH (f ∘ S)). Qed.

Lemma way_items (l : list Z) : item <$> (way_entry <$> l) = l.
Proof. induction l as [|x l IH]; [done|]. simpl. f_equal. apply IH. Qed.

Lemma way_targets (l : list Z) : filter (fun p => item_target p = None) (way_entry <$> l) = way_entry <$> l.
Proof. induction l as [|x l IH]; [done|]. rewrite !fmap_cons. by rewrite filter_cons, decide_True, IH. Qed.

Section Walk.
Context (has_handleEvent : Z -> bool) (call : Callback -> Z -> world -> world * option Z) (report : Z -> world -> world).
Hypothesis calls_ok : forall cb e w, evolves w (call cb e w).1.
Context (e : Z) (ty : str) (bb : bool) (t : Z) (anc : list Z) (S : Z -> option (list Listener)).

Definition tree_path : list path_item := mkItem t false (Some t) None false false :: (way_entry <$> anc).

(** The listeners in the order of a dispatch. *)
Definition dispatch_order : list Z :=
  (rev anc ≫= fun x => lid <$> filter (fun l => capture l = true) (default [] (S x))) ++ (lid <$> default [] (S t)) ++
  if bb then anc ≫= fun x => lid <$> filter (fun l => capture l = false) (default [] (S x)) else [].

(** The two loops over the path. *)
Lemma walk_silent ids w : silent has_handleEvent call e ty (fun x => default [] (S x)) -> NoDup (t :: anc) ->
  at_state e ty bb tree_path CAPTURING_PHASE ids S w ->
  exists ph S', at_state e ty bb tree_path ph (ids ++ dispatch_order) S'
    (bubble_loop has_handleEvent call report e (indexed tree_path) (capture_loop has_handleEvent call report e (rev (indexed tree_path)) w)).
Proof.
  intros Hsil Hn Hs. pose proof Hn as Hn'. apply NoDup_cons in Hn' as [Ht Hna].
  assert (Hk : known (fun x => default [] (S x)) S) by (intros x ls E y Hy; by rewrite E).
  assert (Hw : on_way (rev (indexed tree_path)) = rev anc).
  { rewrite on_way_rev. f_equal. unfold on_way, indexed. rewrite (indexed_snd id). unfold tree_path. rewrite filter_cons, decide_False by done.
    by rewrite way_targets, way_items. }
  assert (Hnr : NoDup (on_way (rev (indexed tree_path)))) by (rewrite Hw; by rewrite <-Permutation_rev).
  pose proof (capture_silent has_handleEvent call calls_ok e ty bb tree_path _ Hsil report _ ids S w Hnr Hk Hs) as H1. rewrite Hw in H1.
  set (w1 := capture_loop _ _ _ _ _ w) in *. set (S1 := visit CAPTURING_PHASE (rev anc) S) in *.
  assert (Hk1 : known (fun x => default [] (S x)) S1) by by apply visit_known.
  unfold indexed, tree_path. cbn [imap bubble_loop item_target]. change (AT_TARGET =? BUBBLING_PHASE) with false. change (AT_TARGET =? AT_TARGET) with true.
  cbn [andb orb]. pose proof (at_state_phase e ty bb tree_path AT_TARGET _ _ _ _ H1) as H2.
  pose proof (invoke_silent has_handleEvent call calls_ok e ty bb tree_path _ Hsil report 0 (mkItem t false (Some t) None false false) _ _ _ _ Hk1 H2) as H3.
  simpl item in H3. set (w3 := invokeEventListeners _ _ _ _ _ _ _) in *. set (S3 := visit AT_TARGET [t] S1) in *.
  set (rest := imap (pair ∘ Datatypes.S) (way_entry <$> anc)).
  assert (Hr : rest.*2 = way_entry <$> anc) by apply (indexed_snd Datatypes.S).
  assert (Hf : Forall (fun p => item_target p.2 = None) rest).
  { apply Forall_forall. intros p Hp. assert (Hp2 : p.2 ∈ rest.*2) by (apply list_elem_of_fmap; by exists p).
    rewrite Hr in Hp2. apply list_elem_of_fmap in Hp2 as (x & -> & _). done. }
  assert (Hi : item <$> rest.*2 = anc) by by rewrite Hr, way_items.
  destruct (bubble_silent has_handleEvent call calls_ok e ty bb tree_path _ Hsil report rest Hf _ S3 w3 _ ltac:(by rewrite Hi)
    (visit_known _ _ _ _ Hk1) H3) as [ph H4]. rewrite Hi in H4. eexists ph, _. eapply at_state_ext; [|done|exact H4].
  rewrite <-!app_assoc. f_equal. unfold dispatch_order. f_equal; [|f_equal].
  - unfold visited. apply list_bind_ext; [|done]. intros x. apply called_capturing.
  - rewrite called_at_target. unfold S1, visit. rewrite bool_decide_eq_false_2; [done|]. by rewrite elem_of_rev.
  - destruct bb; [|done]. unfold visited. assert (Hext : forall x, x ∈ anc -> called BUBBLING_PHASE (default [] (S3 x)) = lid <$> filter (fun l => capture l = false) (default [] (S x))).
    { intros x Hx. unfold S3, S1, visit. rewrite bool_decide_eq_false_2 by (intros ->%list_elem_of_singleton; done).
      rewrite bool_decide_eq_true_2 by by apply elem_of_rev. destruct (S x); [|done]. simpl.
      by rewrite called_after_capturing, called_bubbling. }
    by apply bind_ext_in.
Qed.
End Walk.

(** ** Theorems *)

Section Order.
Context (nodeType parentNode : Z -> option Z) (getRootNode : Z -> bool -> option Z).
Context (has_handleEvent : Z -> bool) (call : Callback -> Z -> world -> world * option Z) (report : Z -> world -> world).
Hypothesis calls_ok : forall cb e w, evolves w (call cb e w).1.

(** What a dispatch comes to at a node. *)
Lemma dispatch_tree fuel t anc e w ev : plain_tree nodeType parentNode getRootNode w t anc -> (length anc < fuel)%nat ->
  events w !! e = Some ev -> path ev = [] ->
  exists c, dispatch nodeType parentNode getRootNode has_handleEvent call report fuel t e None w =
    let w2 := setEventPhase e CAPTURING_PHASE (setPath e (tree_path t anc) (setDispatched e true w)) in
    let w3 := bubble_loop has_handleEvent call report e (indexed (tree_path t anc))
                (capture_loop has_handleEvent call report e (rev (indexed (tree_path t anc))) w2) in
    Some (finish e c w3, negb (canceledFlag (get_event (finish e c w3) e))).
Proof.
  intros [Hc Hn Hr Hh] Hf Hev Hp. unfold dispatch. set (w1 := setDispatched e true w).
  assert (Hre : retarget nodeType parentNode getRootNode fuel w1 None t = Some None) by (destruct fuel; [lia|done]). rewrite Hre.
  rewrite (bool_decide_eq_false_2 (Some t = None)) by done. cbn [negb orb]. unfold appendToEventPath.
  assert (Hp1 : path (get_event w1 e) = []) by (unfold w1, setDispatched; rewrite get_event_chain, Hev; done).
  assert (Hh1 : forall x, getHost w1 x = None) by done. rewrite Hp1, path_entry_plain by done. cbn [app].
  set (w2 := setPath e [_] w1). destruct (last (t :: anc)) as [root|] eqn:El; [|by destruct anc using rev_ind; [|rewrite app_comm_cons, last_snoc in El]].
  assert (Hev2 : exists ev2, events w2 !! e = Some ev2 /\ path ev2 = [mkItem t false (Some t) None false false]).
  { unfold w2, w1, setPath, setDispatched. rewrite !events_upd, !lookup_alter_eq, Hev. simpl. by eexists. }
  destruct Hev2 as (ev2 & Hev2 & Hp2). destruct (Hn t) as [n Hnt]; [by left|].
  rewrite (getParent_chain nodeType parentNode t anc) by (by eexists || done).
  rewrite (path_loop_tree nodeType parentNode getRootNode e t root anc fuel w2 ev2 Hev2 Hh1 Hf).
  - eexists. rewrite Hp2. unfold w2. rewrite setPath_setPath. change ([_] ++ _) with (tree_path t anc).
    rewrite (path_get e (tree_path t anc) w1 (get_event w1 e)); [cbv zeta; reflexivity|].
    unfold w1, setDispatched. rewrite get_event_chain, events_upd, lookup_alter_eq, Hev. done.
  - intros p l' ->. apply Hc.
  - intros x Hx. apply Hn. by right.
  - unfold getRoot, isNode. by rewrite Hnt, Hr.
  - intros Hne. by destruct anc.
Qed.
End Order.

(** The listeners of the ancestors are called only when the target has listeners
    of its own: [dispatchEvent] returns at once otherwise. *)
Lemma ancestors_skipped :
  let l := mkListener 1 (CbFunction 1) true false false in
  let w := mkWorld {[100 := getDefaultTargetData; 101 := mkTarget None [] {[lit "x" := [l]]}]} {[110 := event_new (lit "x") true true]} ∅ ∅ 111 0 [] false [] in
  let parentNode x := if x =? 100 then Some 101 else None in
  let r := dispatchEvent (fun _ => Some 1) parentNode (fun _ _ => Some 101) (fun _ => true) (fun _ _ w => (w, None)) report_nested 0 3 100 110 None w in
  calls_of 110 r.1 = [] /\ r.2 = Returned true.
Proof. by vm_compute. Qed.

(** C22. Dispatching at a node of a tree without shadow roots calls the capturing
    listeners of the ancestors from the root down, then all listeners of the
    target, then, if the event bubbles, the other listeners of the ancestors from
    the parent up, each list in the order of registration, when the target has a
    list of listeners for the type (see [ancestors_skipped]) and the callbacks
    neither throw nor stop the event nor change listeners.  Afterwards the event is
    as before, and the result says whether it was cancelled. *)
Theorem tree_order (nodeType parentNode : Z -> option Z) (getRootNode : Z -> bool -> option Z)
    (has_handleEvent : Z -> bool) (call : Callback -> Z -> world -> world * option Z) (report : Z -> world -> world)
    (globalThis : Z) (fuel : nat) (t : Z) (anc : list Z) (e : Z) (w : world) (ev : Event) (ls : list Listener) :
  (forall cb e w, evolves w (call cb e w).1) -> plain_tree nodeType parentNode getRootNode w t anc -> (length anc < fuel)%nat ->
  world_wf w -> events w !! e = Some ev -> event_idle ev -> listenersOf w t (type_ ev) = Some ls ->
  silent has_handleEvent call e (type_ ev) (fun x => listeners_at w x (type_ ev)) ->
  exists w' b,
    dispatchEvent nodeType parentNode getRootNode has_handleEvent call report globalThis fuel t e None w = (w', Returned b) /\
    calls_of e w' = calls_of e w ++
      (rev anc ≫= fun x => lid <$> filter (fun l => capture l = true) (listeners_at w x (type_ ev))) ++
      (lid <$> ls) ++
      (if bubbles ev then anc ≫= fun x => lid <$> filter (fun l => capture l = false) (listeners_at w x (type_ ev)) else []) /\
    event_idle (get_event w' e) /\ b = negb (canceledFlag (get_event w' e)).
Proof.
  intros Hc Ht Hf Hw Hev (Hph & _ & Hp & Hd & Hsp & Hsi) Hls Hsil.
  assert (Hge : get_event w e = ev) by (unfold get_event; by rewrite Hev).
  unfold dispatchEvent. rewrite Hge. set (w0 := if _ && _ then set_unload w else w).
  assert (E0 : events w0 = events w /\ log w0 = log w /\ targets w0 = targets w /\ next_id w0 = next_id w) by (unfold w0; by destruct (_ && _)).
  destruct E0 as (E0 & L0 & T0 & N0). assert (Hl0 : forall x ty, listenersOf w0 x ty = listenersOf w x ty) by (intros; unfold listenersOf, getListeners; by rewrite T0).
  assert (Hw0 : world_wf w0) by (apply (sw_wf _ _ _ (steps_same (fun _ => True) w w0 T0 E0 N0 L0)); done).
  assert (Hge0 : get_event w0 e = ev) by (unfold get_event; by rewrite E0, Hev). rewrite Hl0, Hls, Hge0, Hd, Hph. cbn [negb]. change (NONE =? NONE) with true. cbn [negb].
  assert (Ht0 : plain_tree nodeType parentNode getRootNode w0 t anc).
  { destruct Ht as [T1 T2 T3 T4]. split; [done|done|done|]. intros x. unfold getHost. rewrite T0. apply T4. }
  destruct (dispatch_tree nodeType parentNode getRootNode has_handleEvent call report fuel t anc e w0 ev Ht0 Hf) as [c ->]; [by rewrite E0|done|].
  cbv zeta. set (w2 := setEventPhase e CAPTURING_PHASE _). pose proof (ancestors_nodup _ _ _ (pt_chain _ _ _ _ _ _ Ht)) as Hnd.
  assert (H2 : at_state e (type_ ev) (bubbles ev) (tree_path t anc) CAPTURING_PHASE (calls_of e w) (fun x => listenersOf w x (type_ ev)) w2).
  { assert (G2 : get_event w2 e = mkEvent (type_ ev) (bubbles ev) (cancelable ev) (currentTarget ev) CAPTURING_PHASE (target ev) (relatedTarget ev)
      (canceledFlag ev) (stopPropagationFlag ev) (stopImmediatePropagationFlag ev) (inPassiveListener ev) true (tree_path t anc)).
    { unfold w2, setEventPhase, setPath, setDispatched, get_event. rewrite !events_upd, !lookup_alter_eq, E0, Hev. done. }
    split; [|split; [by rewrite G2|split; [change (calls_of e w2) with (calls_of e w0); unfold calls_of; by rewrite L0|intros x; apply Hl0]]].
    split; rewrite ?G2; try done. unfold w2, setEventPhase, setPath, setDispatched. do 3 (apply (sw_wf _ _ _ (own_step e _ _))). done. }
  destruct (walk_silent has_handleEvent call report Hc e (type_ ev) (bubbles ev) t anc _ _ w2 Hsil Hnd H2) as (ph & S' & H3).
  set (w3 := bubble_loop _ _ _ _ _ _) in *. destruct H3 as (R3 & _ & C3 & _). destruct (finish_spec e c w3) as (_ & F2 & F3 & _).
  assert (His : is_Some (events w3 !! e)).
  { pose proof (run_dispatched _ _ _ _ _ R3) as Hd3. unfold get_event in Hd3. destruct (events w3 !! e); [by eexists|done]. }
  eexists _, _. split; [reflexivity|]. split; [|split; [by apply F2|done]].
  rewrite F3, C3. f_equal. unfold dispatch_order. simpl. by rewrite Hls.
Qed.

Lemma tree_order_witness :
  let call := fun (_ : Callback) e w => (preventDefault e w, None : option Z) in
  let l i c := mkListener i (CbFunction i) c false false in
  let ls := [l 1 true; l 2 false] in
  let ev := event_new (lit "x") true true in
  let target i := mkTarget None [] {[lit "x" := [l (i + 1) true; l (i + 2) false]]} in
  let w := mkWorld {[100 := target 0; 101 := target 2; 102 := target 4]} {[110 := ev]} ∅ ∅ 111 0 [] false [] in
  let parentNode x := if x =? 100 then Some 101 else if x =? 101 then Some 102 else None in
  exists w' b,
    dispatchEvent (fun _ => Some 1) parentNode (fun _ _ => Some 102) (fun _ => true) call report_nested 0 3 100 110 None w = (w', Returned b) /\
    calls_of 110 w' = [] ++ [5; 3] ++ [1; 2] ++ [4; 6] /\ event_idle (get_event w' 110) /\ b = negb (canceledFlag (get_event w' 110)).
Proof.
  intros call l ls ev target w parentNode.
  apply (tree_order (fun _ => Some 1) parentNode (fun _ _ => Some 102) (fun _ => true) call report_nested 0 3 100 [101; 102] 110 w ev ls).
  - intros cb e w1. apply event_methods_evolve.
  - split; [by vm_compute|by intros; eexists|reflexivity|].
    intros x. unfold getHost. destruct (targets w !! x) as [d|] eqn:E; [|reflexivity].
    revert x d E. change (map_Forall (fun _ d => host d = None) (targets w)). refine (bool_decide_unpack _ _). vm_compute. exact I.
  - simpl. lia.
  - apply wf_check; refine (bool_decide_unpack _ _); vm_compute; exact I.
  - vm_compute. reflexivity.
  - exact (conj eq_refl (conj eq_refl (conj eq_refl (conj eq_refl (conj eq_refl eq_refl))))).
  - vm_compute. reflexivity.
  - intros y w1 (x & Hy) _. assert (Hf : exists i, callback y = CbFunction i).
    { assert (H : Forall (fun y => match callback y with CbFunction _ => true | _ => false end = true) (listeners_at w x (type_ ev))).
      { apply (listeners_at_all (Forall _)); [constructor|]. refine (bool_decide_unpack _ _). vm_compute. exact I. }
      rewrite Forall_forall in H. specialize (H y Hy). destruct (callback y); [by eexists|done|done]. }
    destruct Hf as [i ->]. simpl. destruct (preventDefault_quiet 110 w1) as (P1 & P2 & P3). split; [reflexivity|]. split; [exact P1|]. split; [exact P2|].
    intros z. apply P3.
Defined.
