(* ===== verification/AbortSignal.v ===== *)
(** * Abort signals

    Models [src/ext/web/03_abort_signal.js] on the worlds of [EventTarget]: a
    signal is an event target with a [SignalData].  An algorithm is a number, and
    [run_algo] says what it does; algorithms are functions of the runtime and do
    not throw.  A weak reference is to a number, and [alive] tells which objects the
    garbage collector has left.  Timers are numbers, and [refs] tells which of them
    keep the event loop running. *)

From Stdlib Require Import ZArith Lia.
From stdpp Require Import base list gmap numbers option strings.
From S2P Require Import Prelude EventTarget.

#[local] Open Scope Z_scope.

(** ** Sets of weak references *)

Section Signals.
Context (nodeType parentNode : Z -> option Z) (getRootNode : Z -> bool -> option Z).
Context (has_handleEvent : Z -> bool) (call : Callback -> Z -> world -> world * option Z).
Context (report : Z -> world -> world) (globalThis : Z) (efuel : nat).
Context (run_algo : Z -> world -> world) (alive : Z -> bool).

Definition weak_has (value : Z) (refs : list Z) : bool := bool_decide (value ∈ refs).
Definition weak_add (value : Z) (refs : list Z) : list Z := if weak_has value refs then refs else refs ++ [value].
Definition toArray (refs : list Z) : list Z := List.filter alive refs.

(** ** Fields *)

Definition upd_signal (s : Z) (f : SignalData -> SignalData) : world -> world := set_signals (alter f s).

Definition setAbortReason (v : option Z) (d : SignalData) := mkSignal v (abortAlgos d) (dependent d) (sourceSignals d) (dependentSignals d) (timerId d).
Definition setAbortAlgos (v : option (list Z)) (d : SignalData) := mkSignal (abortReason d) v (dependent d) (sourceSignals d) (dependentSignals d) (timerId d).
Definition setDependent (v : bool) (d : SignalData) := mkSignal (abortReason d) (abortAlgos d) v (sourceSignals d) (dependentSignals d) (timerId d).
Definition setSourceSignals (v : option (list Z)) (d : SignalData) := mkSignal (abortReason d) (abortAlgos d) (dependent d) v (dependentSignals d) (timerId d).
Definition setDependentSignals (v : option (list Z)) (d : SignalData) := mkSignal (abortReason d) (abortAlgos d) (dependent d) (sourceSignals d) v (timerId d).
Definition setTimerId (v : option Z) (d : SignalData) := mkSignal (abortReason d) (abortAlgos d) (dependent d) (sourceSignals d) (dependentSignals d) v.

Definition new_data : SignalData := mkSignal None None false None None None.
Definition get_signal (w : world) (s : Z) : SignalData := default new_data (signals w !! s).

Definition aborted (w : world) (s : Z) : bool := bool_decide (abortReason (get_signal w s) <> None).

(** The constructor, as the runtime calls it. *)
Definition newSignal (w : world) : Z * world :=
  let s := next_id w in
  (s, set_next_id (s + 1) (set_signals (insert s new_data) (set_targets (insert s getDefaultTargetData) w))).

(** What is thrown, if anything. *)
Definition throwIfAborted (w : world) (s : Z) : option Z :=
  match abortReason (get_signal w s) with Some r => Some r | None => None end.

(** ** Algorithms *)

Definition add (s a : Z) (w : world) : world :=
  if aborted w s then w
  else upd_signal s (fun d => setAbortAlgos (Some (let l := default [] (abortAlgos d) in if bool_decide (a ∈ l) then l else l ++ [a])) d) w.

Definition remove (s a : Z) (w : world) : world :=
  upd_signal s (fun d => setAbortAlgos (option_map (List.filter (fun x => negb (x =? a))) (abortAlgos d)) d) w.

(** ** Aborting *)

Definition new_abort_event (w : world) : world :=
  set_next_id (next_id w + 1) (set_events (insert (next_id w) (event_new (lit "abort") false false)) w).

(** The event of an abort. *)
Definition dispatch_abort (s : Z) (w : world) : world :=
  let e := next_id w in
  (dispatchEvent nodeType parentNode getRootNode has_handleEvent call report globalThis efuel s e None (new_abort_event w)).1.

Definition run_algos (algos : option (list Z)) (w : world) : world :=
  match algos with Some l => foldl (fun w a => run_algo a w) w l | None => w end.

(** The recursion goes on to the dependent signals; [None]: the fuel is used up. *)
Fixpoint signalAbort (fuel : nat) (s : Z) (reason : Z) (w : world) : option world :=
  match fuel with
  | O => None
  | S fuel =>
      if aborted w s then Some w
      else
        let algos := abortAlgos (get_signal w s) in
        let w := upd_signal s (fun d => setAbortAlgos None (setAbortReason (Some reason) d)) w in
        let w := run_algos algos (dispatch_abort s w) in
        match dependentSignals (get_signal w s) with
        | None => Some w
        | Some deps => foldl (fun ow d => match ow with Some w => signalAbort fuel d reason w | None => None end) (Some w) (toArray deps)
        end
  end.

(** [reason] may be left out; [AbortError] and [TimeoutError] are the exceptions
    that the code makes. *)
Definition controller_abort (AbortError : Z) (fuel : nat) (s : Z) (reason : option Z) (w : world) : option world :=
  signalAbort fuel s (default AbortError reason) w.

Definition signal_abort (AbortError : Z) (fuel : nat) (reason : option Z) (w : world) : option (Z * world) :=
  let '(s, w) := newSignal w in
  match controller_abort AbortError fuel s reason w with Some w => Some (s, w) | None => None end.

(** ** Timeouts *)

Definition refTimer (t : Z) (w : world) : world := set_refs (insert t true) w.
Definition unrefTimer (t : Z) (w : world) : world := set_refs (insert t false) w.

Definition signal_timeout (w : world) : Z * world :=
  let '(s, w) := newSignal w in
  let t := next_id w in
  let w := set_next_id (t + 1) (refTimer t w) in
  (s, unrefTimer t (upd_signal s (setTimerId (Some t)) w)).

(** The callback of the timer. *)
Definition timeout_fires (TimeoutError : Z) (fuel : nat) (s : Z) (w : world) : option world :=
  signalAbort fuel s TimeoutError (upd_signal s (setTimerId None) w).

(** ** Dependent signals *)

Definition first_aborted (signals : list Z) (w : world) : option Z :=
  match List.filter (aborted w) signals with s :: _ => abortReason (get_signal w s) | [] => None end.

Definition link (source result : Z) (w : world) : world :=
  let w := upd_signal result (fun d => setSourceSignals (Some (weak_add source (default [] (sourceSignals d)))) d) w in
  upd_signal source (fun d => setDependentSignals (Some (weak_add result (default [] (dependentSignals d)))) d) w.

(** The sources of a dependent signal. *)
Fixpoint link_sources (sources : list Z) (result : Z) (w : world) : world * jsres unit :=
  match sources with
  | [] => (w, Ok tt)
  | s :: sources =>
      if aborted w s then (w, Throw (JsError "assertion error"))
      else if dependent (get_signal w s) then (w, Throw (JsError "assertion error"))
      else if weak_has s (default [] (sourceSignals (get_signal w result))) then link_sources sources result w
      else link_sources sources result (link s result w)
  end.

Fixpoint link_all (l : list Z) (result : Z) (w : world) : world * jsres unit :=
  match l with
  | [] => (w, Ok tt)
  | s :: l =>
      if negb (dependent (get_signal w s)) then link_all l result (link s result w)
      else
        match link_sources (toArray (default [] (sourceSignals (get_signal w s)))) result w with
        | (w, Ok _) => link_all l result w
        | (w, Throw err) => (w, Throw err)
        end
  end.

Definition createDependentAbortSignal (l : list Z) (w : world) : world * jsres Z :=
  let '(result, w) := newSignal w in
  match first_aborted l w with
  | Some reason => (upd_signal result (setAbortReason (Some reason)) w, Ok result)
  | None =>
      let w := upd_signal result (fun d => setSourceSignals (Some []) (setDependent true d)) w in
      match link_all l result w with
      | (w, Ok _) => (w, Ok result)
      | (w, Throw err) => (w, Throw err)
      end
  end.

(** ** Listeners *)

Definition ref_sources (sources : list Z) (w : world) : world :=
  foldl (fun w s => match timerId (get_signal w s) with Some t => refTimer t w | None => w end) w sources.

Definition after_add (s : Z) (w : world) : world :=
  if listenerCount w s (lit "abort") >? 0 then
    match timerId (get_signal w s), sourceSignals (get_signal w s) with
    | Some t, _ => refTimer t w
    | None, Some sources => ref_sources (toArray sources) w
    | None, None => w
    end
  else w.

(** What [addEventListener] of an event target does with its signal option: the
    listener for ["abort"] is added without options. *)
Definition plain_add (s : Z) (cb : Callback) (w : world) : world :=
  after_add s (EventTarget.addEventListener (fun _ _ w => w) s (lit "abort") (Some cb) (mkLOpts false false false None) w).

Definition signal_addEventListener (s : Z) (ty : str) (cb : option Callback) (opts : listener_opts) (w : world) : world :=
  after_add s (EventTarget.addEventListener plain_add s ty cb opts w).

Definition unref_sources (this : Z) (sources : list Z) (w : world) : world :=
  foldl (fun w s =>
    match timerId (get_signal w s) with
    | Some t =>
        if forallb (fun d => (d =? this) || (listenerCount w d (lit "abort") =? 0)) (toArray (default [] (dependentSignals (get_signal w s))))
        then unrefTimer t w else w
    | None => w
    end) w sources.

Definition signal_removeEventListener (s : Z) (ty : str) (cb : option Callback) (capture : bool) (w : world) : world :=
  let w := EventTarget.removeEventListener s ty cb capture w in
  if listenerCount w s (lit "abort") =? 0 then
    match timerId (get_signal w s), sourceSignals (get_signal w s) with
    | Some t, _ => unrefTimer t w
    | None, Some sources => unref_sources s (toArray sources) w
    | None, None => w
    end
  else w.
End Signals.
