(* ===== verification/AbortTheorems.v ===== *)
(** * Abort signals: theorems

    Aborting a signal aborts the signals that depend on it, and [AbortSignal.any]
    makes a signal that depends on the sources of its arguments.  User code may run
    in between: [sig_evolves] is what it can do to signals. *)

From Stdlib Require Import ZArith Lia.
From stdpp Require Import base list gmap numbers option strings relations.
From S2P Require Import Prelude EventTarget AbortSignal.

#[local] Open Scope Z_scope.

(** ** Dispatch keeps what its callbacks keep *)

Section Preserve.
Context (R : relation world) {R_pre : PreOrder R}.
Hypothesis R_same : forall w w', signals w' = signals w -> next_id w' = next_id w -> R w w'.
Context (nodeType parentNode : Z -> option Z) (getRootNode : Z -> bool -> option Z).
Context (has_handleEvent : Z -> bool) (call : Callback -> Z -> world -> world * option Z).
Hypothesis R_call : forall cb e w, R w (call cb e w).1.
Context (report : Z -> world -> world).
Hypothesis R_report : forall err w, R w (report err w).

Lemma upd_preserves e f w : R w (upd e f w).
Proof. by apply R_same. Qed.

Lemma remove_preserves self ty cb c w : R w (removeEventListener self ty cb c w).
Proof. unfold removeEventListener. destruct cb; [|done]. destruct (listenersOf w self ty); [|done]. by apply R_same. Qed.

Lemma run_callback_preserves cb e w : R w (run_callback has_handleEvent call cb e w).1.
Proof.
  destruct cb as [f|o|id self t cb c]; cbn [run_callback fst]; [apply R_call| |apply remove_preserves]. destruct (has_handleEvent o); [apply R_call|done].
Qed.

Lemma inner_loop_preserves e t ty hs : forall w, R w (inner_loop has_handleEvent call e t ty hs w).1.
Proof.
  induction hs as [|l hs IH]; intros w; cbn [inner_loop]; [done|]. cbv zeta. destruct (negb _); [done|]. destruct (_ || _); [done|].
  set (wb := add_log _ _). assert (Hb : R w wb) by (unfold wb; apply R_same; by destruct (once l), (passive l)).
  pose proof (run_callback_preserves (callback l) e wb) as Hr. destruct (run_callback has_handleEvent call (callback l) e wb) as [w1 r]. simpl in Hr.
  transitivity wb; [done|]. transitivity w1; [done|]. destruct r; [done|].
  transitivity (setInPassiveListener e false w1); [apply upd_preserves|]. by destruct (stopImmediatePropagationFlag _).
Qed.

Lemma invoke_preserves e i tuple w : R w (invokeEventListeners has_handleEvent call report e i tuple w).
Proof.
  unfold invokeEventListeners. cbv zeta. set (wt := match nearest_target _ with Some t => _ | None => _ end).
  transitivity wt; [unfold wt; destruct (nearest_target _); [apply upd_preserves|done]|].
  set (wr := setRelatedTarget e _ wt). transitivity wr; [apply upd_preserves|]. destruct (stopPropagationFlag _); [done|].
  set (wc := setCurrentTarget e _ wr). transitivity wc; [apply upd_preserves|]. unfold innerInvokeEventListeners.
  destruct (listenersOf _ _ _) as [hs|]; [|done]. pose proof (inner_loop_preserves e (item tuple) (type_ (get_event wc e)) hs wc) as H.
  destruct (inner_loop _ _ _ _ _ _ _) as [w1 [err|]]; simpl in H; [|done]. by transitivity w1.
Qed.

Lemma capture_loop_preserves e l : forall w, R w (capture_loop has_handleEvent call report e l w).
Proof.
  induction l as [|[i tuple] l IH]; intros w; cbn [capture_loop]; [done|]. etransitivity; [|apply IH].
  destruct (item_target tuple); [done|apply invoke_preserves].
Qed.

Lemma bubble_loop_preserves e l : forall w, R w (bubble_loop has_handleEvent call report e l w).
Proof.
  induction l as [|[i tuple] l IH]; intros w; cbn [bubble_loop]; [done|]. cbv zeta. etransitivity; [|apply IH].
  set (w1 := setEventPhase e _ w). transitivity w1; [apply upd_preserves|]. destruct (_ || _); [apply invoke_preserves|done].
Qed.

Lemma path_loop_preserves fuel e er : forall t p w w', path_loop nodeType parentNode getRootNode fuel e t er p w = Some w' -> R w w'.
Proof.
  induction fuel as [|fuel IH]; intros t p w w'; [done|]. cbn [path_loop]. destruct p as [p|]; [|by intros [= <-]].
  destruct (retarget _ _ _ _ _ _ _) as [rel|]; [|done]. destruct (isShadowInclusiveAncestor _ _ _ _ _ _) as [b|]; [|done].
  destruct (_ && b); [intros H; etransitivity; [|exact (IH _ _ _ _ H)]; apply upd_preserves|].
  destruct (bool_decide _); [by intros [= <-]|]. intros H; etransitivity; [|exact (IH _ _ _ _ H)]; apply upd_preserves.
Qed.

Lemma dispatch_preserves fuel t e er w w' b :
  dispatch nodeType parentNode getRootNode has_handleEvent call report fuel t e er w = Some (w', b) -> R w w'.
Proof.
  unfold dispatch. set (w1 := setDispatched e true w). intros H. transitivity w1; [apply upd_preserves|].
  destruct (retarget _ _ _ _ _ _ _) as [rel|]; [|done]. set (inv := if _ || _ then _ else _) in H.
  assert (Hi : forall w2 c, inv = Some (w2, c) -> R w1 w2).
  { unfold inv. intros w2 c. destruct (_ || _); [|by intros [= <- _]]. destruct (path_loop _ _ _ _ _ _ _ _ _) as [w3|] eqn:E; [|done].
    intros [= <- _]. apply path_loop_preserves in E. etransitivity; [|etransitivity; [|etransitivity; [|apply bubble_loop_preserves]; apply capture_loop_preserves]; apply upd_preserves].
    etransitivity; [|exact E]. apply upd_preserves. }
  destruct inv as [[w2 c]|]; [|done]. transitivity w2; [by eapply Hi|]. injection H as <- _.
  apply R_same; by destruct c.
Qed.

Lemma dispatchEvent_preserves globalThis fuel t e er w :
  R w (dispatchEvent nodeType parentNode getRootNode has_handleEvent call report globalThis fuel t e er w).1.
Proof.
  unfold dispatchEvent. cbv zeta. set (w0 := if _ && _ then set_unload w else w). transitivity w0; [unfold w0; destruct (_ && _); [by apply R_same|done]|].
  destruct (listenersOf _ _ _); [|apply upd_preserves]. destruct (dispatched _); [done|]. destruct (negb _); [done|].
  destruct (dispatch _ _ _ _ _ _ _ _ _ _ _) as [[w1 b]|] eqn:E; [|done]. by apply dispatch_preserves in E.
Qed.
End Preserve.

(** ** What user code can do to signals *)

Definition sources_of (d : SignalData) : list Z := default [] (sourceSignals d).
Definition dependents_of (d : SignalData) : list Z := default [] (dependentSignals d).

(** Signals and their sources know each other, and there are two layers only. *)
Record sig_wf (w : world) : Prop := {
  wf_plain : forall s d, signals w !! s = Some d -> dependent d = false -> sourceSignals d = None;
  wf_leaf : forall s d, signals w !! s = Some d -> dependent d = true -> dependentSignals d = None;
  wf_down : forall s d x, signals w !! s = Some d -> x ∈ dependents_of d ->
    exists dx, signals w !! x = Some dx /\ dependent dx = true /\ s ∈ sources_of dx;
  wf_up : forall x dx s, signals w !! x = Some dx -> s ∈ sources_of dx ->
    exists d, signals w !! s = Some d /\ dependent d = false /\ x ∈ dependents_of d;
  wf_fresh : forall s, is_Some (signals w !! s) -> s < next_id w;
}.

(** A signal keeps its kind, its reason once it has one, and its dependents. *)
Record data_evolves (d d' : SignalData) : Prop := {
  de_kind : dependent d' = dependent d;
  de_reason : forall r, abortReason d = Some r -> abortReason d' = Some r;
  de_deps : dependents_of d ⊆ dependents_of d';
}.

Record sig_evolves (w w' : world) : Prop := {
  se_wf : sig_wf w -> sig_wf w';
  se_data : forall s d, signals w !! s = Some d -> exists d', signals w' !! s = Some d' /\ data_evolves d d';
}.

#[export] Instance data_evolves_preorder : PreOrder data_evolves.
Proof. split; [by split|]. intros a b c [] []. split; [congruence|auto|set_solver]. Qed.

#[export] Instance sig_evolves_preorder : PreOrder sig_evolves.
Proof.
  split; [split; [done|intros s d Hs; by exists d]|]. intros a b c [W1 D1] [W2 D2]. split; [auto|]. intros s d Hs.
  destruct (D1 s d Hs) as (d1 & H1 & E1). destruct (D2 s d1 H1) as (d2 & H2 & E2). exists d2. split; [done|]. by transitivity d1.
Qed.

Lemma sig_evolves_same w w' : signals w' = signals w -> next_id w' = next_id w -> sig_evolves w w'.
Proof.
  intros Hs Hn. split; [|intros s d H; exists d; by rewrite Hs]. intros [A B C D E]. split; rewrite ?Hs, ?Hn; done.
Qed.

(** A larger counter. *)
Lemma sig_evolves_next w w' : signals w' = signals w -> next_id w <= next_id w' -> sig_evolves w w'.
Proof.
  intros Hs Hn. split; [|intros s d H; exists d; by rewrite Hs]. intros [A B C D E]. split; rewrite ?Hs; try done. intros s H. specialize (E s H). lia.
Qed.

(** A change of one signal that keeps its links. *)
Lemma upd_signal_evolves s f w : (forall d, dependent (f d) = dependent d /\ sourceSignals (f d) = sourceSignals d /\ dependentSignals (f d) = dependentSignals d) ->
  (forall d, signals w !! s = Some d -> forall r, abortReason d = Some r -> abortReason (f d) = Some r) -> sig_evolves w (upd_signal s f w).
Proof.
  intros Hf Hr. set (g := fun x d => if bool_decide (x = s) then f d else d).
  assert (Hg : forall x, signals (upd_signal s f w) !! x = g x <$> signals w !! x).
  { intros x. unfold upd_signal, set_signals, g. simpl. destruct (decide (x = s)) as [->|Hx].
    - rewrite lookup_alter_eq. by rewrite bool_decide_eq_true_2.
    - rewrite lookup_alter_ne by done. rewrite bool_decide_eq_false_2 by done. by destruct (signals w !! x). }
  assert (Hk : forall x d, dependent (g x d) = dependent d /\ sourceSignals (g x d) = sourceSignals d /\ dependentSignals (g x d) = dependentSignals d).
  { intros x d. unfold g. case_bool_decide; [apply Hf|done]. }
  split.
  - intros [A B C D E]. assert (Hinv : forall x d, signals (upd_signal s f w) !! x = Some d -> exists d0, signals w !! x = Some d0 /\ d = g x d0).
    { intros x d. rewrite Hg. destruct (signals w !! x) as [d0|]; [|done]. intros [= <-]. by exists d0. }
    assert (Hfwd : forall x d0, signals w !! x = Some d0 -> signals (upd_signal s f w) !! x = Some (g x d0)) by (intros x d0 H; by rewrite Hg, H).
    split.
    + intros x d H Hd. apply Hinv in H as (d0 & H & ->). destruct (Hk x d0) as (K1 & K2 & K3). rewrite K2. apply (A x); congruence.
    + intros x d H Hd. apply Hinv in H as (d0 & H & ->). destruct (Hk x d0) as (K1 & K2 & K3). rewrite K3. apply (B x); congruence.
    + intros x d y H Hy. apply Hinv in H as (d0 & H & ->). destruct (Hk x d0) as (K1 & K2 & K3). unfold dependents_of in Hy. rewrite K3 in Hy.
      destruct (C x d0 y H Hy) as (dy & H1 & H2 & H3). exists (g y dy). destruct (Hk y dy) as (L1 & L2 & L3). unfold sources_of. rewrite L1, L2. auto.
    + intros x d y H Hy. apply Hinv in H as (d0 & H & ->). destruct (Hk x d0) as (K1 & K2 & K3). unfold sources_of in Hy. rewrite K2 in Hy.
      destruct (D x d0 y H Hy) as (dy & H1 & H2 & H3). exists (g y dy). destruct (Hk y dy) as (L1 & L2 & L3). unfold dependents_of. rewrite L1, L3. auto.
    + intros x [d H]. apply Hinv in H as (d0 & H & _). apply E. by eexists.
  - intros x d H. exists (g x d). rewrite Hg, H. split; [done|]. destruct (Hk x d) as (K1 & K2 & K3). split; [done| |unfold dependents_of; by rewrite K3].
    intros r. unfold g. case_bool_decide as Hx; [subst x; by apply Hr|done].
Qed.

Lemma get_signal_some w s d : signals w !! s = Some d -> get_signal w s = d.
Proof. intros H. unfold get_signal. by rewrite H. Qed.

Lemma upd_signal_get s f w d : signals w !! s = Some d -> signals (upd_signal s f w) !! s = Some (f d).
Proof. intros H. unfold upd_signal, set_signals. simpl. by rewrite lookup_alter_eq, H. Qed.

Definition reason_of (w : world) (s : Z) : option Z := abortReason (get_signal w s).

Lemma evolves_reason w w' s r : sig_evolves w w' -> reason_of w s = Some r -> reason_of w' s = Some r.
Proof.
  intros [_ D] H. unfold reason_of, get_signal in *. destruct (signals w !! s) as [d|] eqn:E; [|done].
  destruct (D s d E) as (d' & -> & V). by apply V.
Qed.

(** ** Aborting *)

Section Abort.
Context (nodeType parentNode : Z -> option Z) (getRootNode : Z -> bool -> option Z).
Context (has_handleEvent : Z -> bool) (call : Callback -> Z -> world -> world * option Z).
Context (report : Z -> world -> world) (globalThis : Z) (efuel : nat) (run_algo : Z -> world -> world) (alive : Z -> bool).

#[local] Abbreviation abort := (signalAbort nodeType parentNode getRootNode has_handleEvent call report globalThis efuel run_algo alive).
#[local] Abbreviation fire := (dispatch_abort nodeType parentNode getRootNode has_handleEvent call report globalThis efuel).

Lemma fire_preserves (R : relation world) `{!PreOrder R} s w :
  (forall w w', signals w' = signals w -> next_id w <= next_id w' -> R w w') ->
  (forall cb e w, R w (call cb e w).1) -> (forall err w, R w (report err w)) -> R w (fire s w).
Proof.
  intros Hs Hc Hr. unfold dispatch_abort. transitivity (new_abort_event w); [apply Hs; [done|simpl; lia]|].
  apply dispatchEvent_preserves; [done|intros; apply Hs; [done|lia]|done|done].
Qed.

Lemma run_algos_preserves (R : relation world) `{!PreOrder R} algos w : (forall a w, R w (run_algo a w)) -> R w (run_algos run_algo algos w).
Proof.
  intros H. unfold run_algos. destruct algos as [l|]; [|done]. revert w. induction l as [|a l IH]; intros w; [done|]. simpl.
  transitivity (run_algo a w); [apply H|apply IH].
Qed.

Lemma aborted_spec w s : aborted w s = bool_decide (reason_of w s <> None).
Proof. done. Qed.

Section Any_code.
Hypothesis code_calls : forall cb e w, sig_evolves w (call cb e w).1.
Hypothesis code_report : forall err w, sig_evolves w (report err w).
Hypothesis code_algos : forall a w, sig_evolves w (run_algo a w).

(** What happens to one signal before its dependents. *)
Definition abort_one (s reason : Z) (w : world) : world :=
  run_algos run_algo (abortAlgos (get_signal w s)) (fire s (upd_signal s (fun d => setAbortAlgos None (setAbortReason (Some reason) d)) w)).

Lemma abort_one_spec s r w d : signals w !! s = Some d -> abortReason d = None ->
  sig_evolves w (abort_one s r w) /\ reason_of (abort_one s r w) s = Some r.
Proof.
  intros Hs Hr. unfold abort_one. set (f := fun d : SignalData => _). set (w1 := upd_signal s f w).
  assert (H1 : sig_evolves w w1) by (apply upd_signal_evolves; [done|intros d' Hd' r'; congruence]).
  set (w2 := run_algos _ _ _). assert (H2 : sig_evolves w1 w2).
  { unfold w2. transitivity (fire s w1); [apply fire_preserves; [apply _|apply sig_evolves_next|done|done]|by apply run_algos_preserves; [apply _|]]. }
  split; [by transitivity w1|]. apply (evolves_reason w1); [done|]. unfold reason_of. by rewrite (get_signal_some w1 s (f d)) by (by apply upd_signal_get).
Qed.

(** Aborting [s] aborts it, and its dependents from before. *)
Definition abort_reaches (fuel : nat) (s r : Z) (w : world) : Prop :=
  exists w', abort fuel s r w = Some w' /\ sig_evolves w w' /\ reason_of w' s <> None /\ (reason_of w s = None -> reason_of w' s = Some r) /\
    (reason_of w s = None -> forall x, x ∈ dependents_of (get_signal w s) -> alive x = true -> reason_of w' x <> None).

Lemma abort_list fuel r : (forall s w d, sig_wf w -> signals w !! s = Some d -> dependent d = true -> abort_reaches fuel s r w) ->
  forall ds w, sig_wf w -> (forall x, x ∈ ds -> exists d, signals w !! x = Some d /\ dependent d = true) ->
  exists w', foldl (fun ow d => match ow with Some w => abort fuel d r w | None => None end) (Some w) ds = Some w' /\
    sig_evolves w w' /\ forall x, x ∈ ds -> reason_of w' x <> None.
Proof.
  intros Hone ds. induction ds as [|x ds IH]; intros w Hw Hds.
  - exists w. split; [done|]. split; [done|]. intros x Hx. by apply elem_of_nil in Hx.
  - destruct (Hds x) as (d & Hx & Hd); [by left|]. destruct (Hone x w d Hw Hx Hd) as (w1 & E & V & N & _). simpl. rewrite E.
    destruct (IH w1) as (w2 & E2 & V2 & N2); [by apply V| |].
    + intros y Hy. destruct (Hds y) as (dy & H1 & H2); [by right|]. destruct (se_data _ _ V y dy H1) as (dy' & H3 & H4). exists dy'. split; [done|].
      by rewrite (de_kind _ _ H4).
    + exists w2. split; [done|]. split; [by transitivity w1|]. intros y Hy. apply elem_of_cons in Hy as [->|Hy]; [|by apply N2].
      destruct (reason_of w1 x) as [r1|] eqn:Er; [|done]. by rewrite (evolves_reason _ _ _ _ V2 Er).
Qed.

Lemma abort_spec fuel : forall s r w d, sig_wf w -> signals w !! s = Some d ->
  ((if dependent d then 1 else 2) <= fuel)%nat -> abort_reaches fuel s r w.
Proof.
  induction fuel as [|fuel IH]; intros s r w d Hw Hs Hf; [destruct (dependent d); lia|].
  unfold abort_reaches. cbn [signalAbort]. rewrite aborted_spec. unfold reason_of. rewrite (get_signal_some w s d Hs). case_bool_decide as Ha.
  { exists w. unfold reason_of. rewrite (get_signal_some w s d Hs). split; [done|]. split; [done|]. split; [done|]. split; intros E; by destruct Ha. }
  assert (Hr : abortReason d = None) by (destruct (abortReason d); [by destruct Ha|done]). clear Ha.
  destruct (abort_one_spec s r w d Hs Hr) as [V R1]. unfold abort_one in V, R1. rewrite (get_signal_some w s d Hs) in V, R1. cbv zeta. set (w1 := run_algos _ _ _) in *.
  pose proof (se_wf _ _ V Hw) as Hw1. destruct (se_data _ _ V s d Hs) as (d1 & Hs1 & V1).
  assert (Hdep : forall x, x ∈ dependents_of d -> x ∈ dependents_of d1) by apply (de_deps _ _ V1). rewrite (get_signal_some w1 s d1 Hs1).
  destruct (dependentSignals d1) as [deps|] eqn:Ed.
  2: { exists w1. split; [done|]. split; [done|]. unfold reason_of in R1 |- *. rewrite R1. split; [done|]. split; [done|].
       intros _ x Hx. apply Hdep in Hx. unfold dependents_of in Hx. rewrite Ed in Hx. by apply elem_of_nil in Hx. }
  assert (Hk : dependent d = false).
  { destruct (dependent d) eqn:Ek; [|done]. pose proof (wf_leaf _ Hw1 s d1 Hs1). rewrite (de_kind _ _ V1) in H. specialize (H Ek). congruence. }
  rewrite Hk in Hf. destruct (abort_list fuel r) with (ds := toArray alive deps) (w := w1) as (w2 & E2 & V2 & N2).
  - intros x w0 dx H1 H2 H3. apply (IH x r w0 dx H1 H2). rewrite H3. lia.
  - done.
  - intros x Hx. apply list_elem_of_In, List.filter_In in Hx as [Hx _]. apply list_elem_of_In in Hx.
    destruct (wf_down _ Hw1 s d1 x Hs1) as (dx & H1 & H2 & _); [unfold dependents_of; by rewrite Ed|]. by exists dx.
  - exists w2. split; [done|]. split; [by transitivity w1|]. pose proof (evolves_reason _ _ _ _ V2 R1) as R2. unfold reason_of in R2 |- *. rewrite R2. split; [done|]. split; [done|].
    intros _ x Hx Hal. apply N2. apply list_elem_of_In, List.filter_In. split; [|done]. apply list_elem_of_In. apply Hdep in Hx. unfold dependents_of in Hx. by rewrite Ed in Hx.
Qed.
End Any_code.

(** Code that leaves signals alone. *)
Section Quiet_code.
Hypothesis quiet_calls : forall cb e w, signals (call cb e w).1 = signals w.
Hypothesis quiet_report : forall err w, signals (report err w) = signals w.
Hypothesis quiet_algos : forall a w, signals (run_algo a w) = signals w.

Definition same_signals (w w' : world) : Prop := signals w' = signals w.

#[local] Instance same_signals_preorder : PreOrder same_signals.
Proof. split; [done|]. intros a b c H1 H2. unfold same_signals in *. congruence. Qed.

Definition mark (r : Z) (d : SignalData) : SignalData :=
  match abortReason d with Some _ => d | None => setAbortAlgos None (setAbortReason (Some r) d) end.

Definition mark_all (r : Z) (xs : list Z) (m : gmap Z SignalData) : gmap Z SignalData := foldl (fun m x => alter (mark r) x m) m xs.

Lemma mark_mark r d : mark r (mark r d) = mark r d.
Proof. unfold mark. by destruct (abortReason d) eqn:E; [rewrite E|]. Qed.

Lemma mark_links r d : dependent (mark r d) = dependent d /\ sourceSignals (mark r d) = sourceSignals d /\ dependentSignals (mark r d) = dependentSignals d.
Proof. unfold mark. by destruct (abortReason d). Qed.

Lemma mark_all_lookup r xs : forall m x, mark_all r xs m !! x = if bool_decide (x ∈ xs) then mark r <$> m !! x else m !! x.
Proof.
  induction xs as [|y xs IH]; intros m x; [done|]. unfold mark_all in *. simpl. rewrite IH. destruct (decide (x = y)) as [->|Hx].
  - rewrite lookup_alter_eq. rewrite (bool_decide_eq_true_2 (y ∈ y :: xs)) by by left. case_bool_decide; [|done]. destruct (m !! y); simpl; [by rewrite mark_mark|done].
  - rewrite lookup_alter_ne by done. by rewrite (bool_decide_ext (x ∈ y :: xs) (x ∈ xs)) by set_solver.
Qed.

Lemma abort_one_quiet s r w d : signals w !! s = Some d -> abortReason d = None -> signals (abort_one s r w) = alter (mark r) s (signals w).
Proof.
  intros Hs Hr. unfold abort_one. set (f := fun d : SignalData => _). set (w1 := upd_signal s f w).
  assert (H1 : same_signals w1 (fire s w1)) by (apply fire_preserves; [apply _|done|done|done]).
  pose proof (run_algos_preserves same_signals (abortAlgos (get_signal w s)) (fire s w1) quiet_algos) as H2. unfold same_signals in H1, H2. rewrite H2, H1.
  unfold w1, upd_signal, set_signals. simpl. apply map_eq. intros x. destruct (decide (x = s)) as [->|Hx]; [|by rewrite !lookup_alter_ne].
  rewrite !lookup_alter_eq, Hs. simpl. unfold mark. by rewrite Hr.
Qed.

Lemma abort_quiet_list fuel r ds : forall w,
  (forall x w d, x ∈ ds -> signals w !! x = Some d -> dependentSignals d = None ->
     exists w', abort fuel x r w = Some w' /\ signals w' = alter (mark r) x (signals w)) ->
  (forall x, x ∈ ds -> exists d, signals w !! x = Some d /\ dependentSignals d = None) ->
  exists w', foldl (fun ow d => match ow with Some w => abort fuel d r w | None => None end) (Some w) ds = Some w' /\ signals w' = mark_all r ds (signals w).
Proof.
  induction ds as [|x ds IH]; intros w Hone Hds; [by exists w|]. destruct (Hds x) as (d & Hx & Hd); [by left|].
  destruct (Hone x w d) as (w1 & E & Hw1); [by left|done|done|]. simpl. rewrite E. destruct (IH w1) as (w2 & E2 & Hw2).
  - intros y w0 dy Hy. apply Hone. by right.
  - intros y Hy. destruct (Hds y) as (dy & H1 & H2); [by right|]. rewrite Hw1. destruct (decide (y = x)) as [->|Hne].
    + rewrite lookup_alter_eq, H1. exists (mark r dy). split; [done|]. destruct (mark_links r dy) as (_ & _ & ->). done.
    + rewrite lookup_alter_ne by done. by exists dy.
  - exists w2. split; [done|]. by rewrite Hw2, Hw1.
Qed.

Lemma abort_leaf_quiet fuel x r w d : signals w !! x = Some d -> dependentSignals d = None ->
  exists w', abort (S fuel) x r w = Some w' /\ signals w' = alter (mark r) x (signals w).
Proof.
  intros Hx Hd. cbn [signalAbort]. rewrite aborted_spec. unfold reason_of. rewrite (get_signal_some w x d Hx). case_bool_decide as Ha.
  - exists w. split; [done|]. apply map_eq. intros y. destruct (decide (y = x)) as [->|Hne]; [|by rewrite lookup_alter_ne].
    rewrite lookup_alter_eq, Hx. simpl. unfold mark. by destruct (abortReason d).
  - assert (Hr : abortReason d = None) by (destruct (abortReason d); [by destruct Ha|done]).
    pose proof (abort_one_quiet x r w d Hx Hr) as Hq. unfold abort_one in Hq. rewrite (get_signal_some w x d Hx) in Hq. cbv zeta. set (w1 := run_algos _ _ _) in *.
    assert (H1 : signals w1 !! x = Some (mark r d)) by by rewrite Hq, lookup_alter_eq, Hx. rewrite (get_signal_some w1 x _ H1).
    destruct (mark_links r d) as (_ & _ & ->). rewrite Hd. by exists w1.
Qed.

Lemma abort_quiet fuel s r w d w' : sig_wf w -> signals w !! s = Some d -> abortReason d = None -> abort (S (S fuel)) s r w = Some w' ->
  forall x, signals w' !! x = if bool_decide (x = s \/ x ∈ toArray alive (dependents_of d)) then mark r <$> signals w !! x else signals w !! x.
Proof.
  intros Hw Hs Hr. remember (S fuel) as f eqn:Hfuel. cbn [signalAbort]. rewrite aborted_spec. unfold reason_of. rewrite (get_signal_some w s d Hs), bool_decide_eq_false_2 by (by rewrite Hr; intros []).
  pose proof (abort_one_quiet s r w d Hs Hr) as Hq. unfold abort_one in Hq. rewrite (get_signal_some w s d Hs) in Hq. cbv zeta. set (w1 := run_algos _ _ _) in *.
  assert (H1 : signals w1 !! s = Some (mark r d)) by by rewrite Hq, lookup_alter_eq, Hs. rewrite (get_signal_some w1 s _ H1).
  destruct (mark_links r d) as (_ & _ & ->). unfold dependents_of. destruct (dependentSignals d) as [deps|] eqn:Ed; simpl.
  - destruct (abort_quiet_list f r (toArray alive deps) w1) as (w2 & E2 & Hw2).
    + intros x w0 dx _ H2 H3. rewrite Hfuel. by apply (abort_leaf_quiet fuel x r w0 dx).
    + intros x Hx. apply list_elem_of_In, List.filter_In in Hx as [Hx _]. apply list_elem_of_In in Hx.
      destruct (wf_down _ Hw s d x Hs) as (dx & H2 & H3 & _); [unfold dependents_of; by rewrite Ed|].
      assert (Hxs : x <> s) by (intros ->; rewrite Hs in H2; injection H2 as <-; pose proof (wf_leaf _ Hw s d Hs H3); congruence).
      exists dx. rewrite Hq, lookup_alter_ne by done. split; [done|]. by apply (wf_leaf _ Hw x dx).
    + intros E. rewrite E2 in E. injection E as <-. intros x. rewrite Hw2, mark_all_lookup, Hq. destruct (decide (x = s)) as [->|Hx].
      * rewrite lookup_alter_eq, (bool_decide_eq_true_2 (s = s \/ _)) by by left. case_bool_decide; [|done]. rewrite Hs. simpl. by rewrite mark_mark.
      * rewrite lookup_alter_ne by done. by rewrite (bool_decide_ext (x = s \/ x ∈ toArray alive deps) (x ∈ toArray alive deps)) by naive_solver.
  - intros [= <-] x. rewrite Hq. destruct (decide (x = s)) as [->|Hx].
    + by rewrite lookup_alter_eq, bool_decide_eq_true_2 by by left.
    + rewrite lookup_alter_ne, bool_decide_eq_false_2; [done| |done]. intros [?|Hx']; [done|]. by apply elem_of_nil in Hx'.
Qed.
End Quiet_code.
End Abort.

(** ** Dependent signals *)

(** Linking signals to [r] changes nothing but their links. *)
Record data_linked (r x : Z) (d d' : SignalData) : Prop := {
  dl_reason : abortReason d' = abortReason d;
  dl_algos : abortAlgos d' = abortAlgos d;
  dl_kind : dependent d' = dependent d;
  dl_sources : x <> r -> sourceSignals d' = sourceSignals d;
  dl_deps : forall y, y <> r -> y ∈ dependents_of d' <-> y ∈ dependents_of d;
  dl_grow : dependents_of d ⊆ dependents_of d';
}.

Record linked (r : Z) (w w' : world) : Prop := {
  ln_wf : sig_wf w -> sig_wf w';
  ln_next : next_id w' = next_id w;
  ln_data : forall x d, signals w !! x = Some d -> exists d', signals w' !! x = Some d' /\ data_linked r x d d';
}.

#[export] Instance linked_preorder r : PreOrder (linked r).
Proof.
  split.
  - intros w. split; [done|done|]. intros x d H. exists d. split; [done|]. by split.
  - intros a b c [W1 N1 D1] [W2 N2 D2]. split; [auto|congruence|]. intros x d Hx. destruct (D1 x d Hx) as (d1 & H1 & [A1 A2 A3 A4 A5 A6]).
    destruct (D2 x d1 H1) as (d2 & H2 & [B1 B2 B3 B4 B5 B6]). exists d2. split; [done|]. split; [congruence..|intros Hn; by rewrite B4, A4|intros y Hy; by rewrite B5, A5|set_solver].
Qed.

Lemma weak_add_elem x y l : x ∈ weak_add y l <-> x = y \/ x ∈ l.
Proof. unfold weak_add, weak_has. case_bool_decide as H; [split; [by right|]; by intros [->|]|]. set_solver. Qed.

(** The signals of a world after a link. *)
Lemma link_lookup s r w x : s <> r -> signals (link s r w) !! x =
  if bool_decide (x = s) then (fun d => setDependentSignals (Some (weak_add r (dependents_of d))) d) <$> signals w !! x
  else if bool_decide (x = r) then (fun d => setSourceSignals (Some (weak_add s (sources_of d))) d) <$> signals w !! x else signals w !! x.
Proof.
  intros Hsr. unfold link, upd_signal, set_signals. simpl. destruct (decide (x = s)) as [->|Hs].
  - rewrite lookup_alter_eq, lookup_alter_ne, bool_decide_eq_true_2 by congruence. done.
  - rewrite lookup_alter_ne, (bool_decide_eq_false_2 (x = s)) by congruence. destruct (decide (x = r)) as [->|Hr].
    + by rewrite lookup_alter_eq, bool_decide_eq_true_2.
    + by rewrite lookup_alter_ne, bool_decide_eq_false_2.
Qed.

Section Link.
Context (s r : Z) (w : world) (ds dr : SignalData).
Hypothesis Hs : signals w !! s = Some ds.
Hypothesis Ks : dependent ds = false.
Hypothesis Hr : signals w !! r = Some dr.
Hypothesis Kr : dependent dr = true.

Lemma link_apart : s <> r.
Proof. intros ->. congruence. Qed.

Definition linked_data (x : Z) (d : SignalData) : SignalData :=
  if bool_decide (x = s) then setDependentSignals (Some (weak_add r (dependents_of d))) d
  else if bool_decide (x = r) then setSourceSignals (Some (weak_add s (sources_of d))) d else d.

Lemma link_get x : signals (link s r w) !! x = linked_data x <$> signals w !! x.
Proof.
  rewrite link_lookup by apply link_apart. unfold linked_data. case_bool_decide; [done|]. case_bool_decide; [done|]. by destruct (signals w !! x).
Qed.

Lemma linked_data_kind x d : dependent (linked_data x d) = dependent d /\ abortReason (linked_data x d) = abortReason d /\ abortAlgos (linked_data x d) = abortAlgos d.
Proof. unfold linked_data. repeat case_bool_decide; done. Qed.

Lemma linked_data_sources x d y : y ∈ sources_of (linked_data x d) <-> y ∈ sources_of d \/ (x = r /\ y = s).
Proof.
  pose proof link_apart. unfold linked_data. case_bool_decide; [split; [by left|intros [?|[? _]]; [done|congruence]]|].
  case_bool_decide; [|naive_solver]. unfold sources_of at 1. simpl. rewrite weak_add_elem. naive_solver.
Qed.

Lemma linked_data_deps x d y : y ∈ dependents_of (linked_data x d) <-> y ∈ dependents_of d \/ (x = s /\ y = r).
Proof.
  pose proof link_apart. unfold linked_data. case_bool_decide; [|case_bool_decide; naive_solver].
  unfold dependents_of at 1. simpl. rewrite weak_add_elem. naive_solver.
Qed.

Lemma link_wf : sig_wf w -> sig_wf (link s r w).
Proof.
  pose proof link_apart as Hsr. intros [A B C D E].
  assert (Hinv : forall x d, signals (link s r w) !! x = Some d -> exists d0, signals w !! x = Some d0 /\ d = linked_data x d0).
  { intros x d. rewrite link_get. destruct (signals w !! x) as [d0|]; [|done]. intros [= <-]. by exists d0. }
  assert (Hfwd : forall x d, signals w !! x = Some d -> signals (link s r w) !! x = Some (linked_data x d)) by (intros x d H; by rewrite link_get, H).
  split.
  - intros x d H Hk. apply Hinv in H as (d0 & H & ->). destruct (linked_data_kind x d0) as (K & _). rewrite K in Hk. unfold linked_data.
    case_bool_decide as Hx; [exact (A x d0 H Hk)|]. case_bool_decide as Hx'; [subst x; congruence|exact (A x d0 H Hk)].
  - intros x d H Hk. apply Hinv in H as (d0 & H & ->). destruct (linked_data_kind x d0) as (K & _). rewrite K in Hk. unfold linked_data.
    case_bool_decide as Hx; [subst x; congruence|]. case_bool_decide as Hx'; exact (B x d0 H Hk).
  - intros x d y H Hy. apply Hinv in H as (d0 & H & ->). apply linked_data_deps in Hy as [Hy|[-> ->]].
    + destruct (C x d0 y H Hy) as (dy & H1 & H2 & H3). exists (linked_data y dy). split; [by apply Hfwd|]. destruct (linked_data_kind y dy) as (-> & _).
      split; [done|]. apply linked_data_sources. by left.
    + exists (linked_data r dr). split; [by apply Hfwd|]. destruct (linked_data_kind r dr) as (-> & _). split; [done|]. apply linked_data_sources. by right.
  - intros x d y H Hy. apply Hinv in H as (d0 & H & ->). apply linked_data_sources in Hy as [Hy|[-> ->]].
    + destruct (D x d0 y H Hy) as (dy & H1 & H2 & H3). exists (linked_data y dy). split; [by apply Hfwd|]. destruct (linked_data_kind y dy) as (-> & _).
      split; [done|]. apply linked_data_deps. by left.
    + exists (linked_data s ds). split; [by apply Hfwd|]. destruct (linked_data_kind s ds) as (-> & _). split; [done|]. apply linked_data_deps. by right.
  - intros x [d H]. apply Hinv in H as (d0 & H & _). apply E. by eexists.
Qed.

Lemma link_spec : linked r w (link s r w) /\
  forall y, y ∈ sources_of (get_signal (link s r w) r) <-> y ∈ sources_of (get_signal w r) \/ y = s.
Proof.
  split.
  - split; [apply link_wf|done|]. intros x d H. exists (linked_data x d). split; [by rewrite link_get, H|]. destruct (linked_data_kind x d) as (K1 & K2 & K3).
    split; [done..| | |].
    + intros Hx. unfold linked_data. case_bool_decide; [done|]. by rewrite bool_decide_eq_false_2.
    + intros y Hy. rewrite linked_data_deps. naive_solver.
    + intros y Hy. apply linked_data_deps. by left.
  - intros y. rewrite (get_signal_some w r dr Hr), (get_signal_some _ r (linked_data r dr)) by by rewrite link_get, Hr.
    rewrite linked_data_sources. naive_solver.
Qed.
End Link.

Section Any.
Context (alive : Z -> bool).

(** The sources that a list of signals stands for. *)
Definition source_list (w : world) (l : list Z) : list Z :=
  l ≫= fun s => if dependent (get_signal w s) then toArray alive (sources_of (get_signal w s)) else [s].

(** A signal in [w] and in [w'], which is [w] with more links to [r]. *)
Lemma linked_get r w w' x d : linked r w w' -> signals w !! x = Some d -> data_linked r x d (get_signal w' x) /\ signals w' !! x = Some (get_signal w' x).
Proof. intros L H. destruct (ln_data _ _ _ L x d H) as (d' & H' & V). by rewrite (get_signal_some w' x d' H'). Qed.

Lemma link_sources_spec r xs : forall w dr, signals w !! r = Some dr -> dependent dr = true ->
  (forall x, x ∈ xs -> exists d, signals w !! x = Some d /\ dependent d = false /\ abortReason d = None) ->
  exists w', link_sources xs r w = (w', Ok tt) /\ linked r w w' /\
    forall y, y ∈ sources_of (get_signal w' r) <-> y ∈ sources_of (get_signal w r) \/ y ∈ xs.
Proof.
  induction xs as [|x xs IH]; intros w dr Hr Kr Hxs.
  - exists w. split; [done|]. split; [done|]. set_solver.
  - destruct (Hxs x) as (d & Hx & Kx & Rx); [by left|]. cbn [link_sources]. unfold aborted. rewrite (get_signal_some w x d Hx), Rx, Kx, bool_decide_eq_false_2 by (by intros []).
    unfold weak_has. case_bool_decide as Hin.
    + destruct (IH w dr Hr Kr) as (w' & E & L & Hy); [intros y Hy; apply Hxs; by right|]. exists w'. split; [done|]. split; [done|].
      intros y. rewrite Hy, elem_of_cons. unfold sources_of. naive_solver.
    + destruct (link_spec x r w d dr Hx Kx Hr Kr) as [L1 S1]. destruct (linked_get r w _ r dr L1 Hr) as [V1 Hr1].
      destruct (IH (link x r w) _ Hr1) as (w' & E & L & Hy); [by rewrite (dl_kind _ _ _ _ V1)| |].
      * intros y Hy. destruct (Hxs y) as (dy & H1 & H2 & H3); [by right|]. destruct (linked_get r w _ y dy L1 H1) as [V2 H4]. eexists. split; [exact H4|].
        by rewrite (dl_kind _ _ _ _ V2), (dl_reason _ _ _ _ V2).
      * exists w'. split; [done|]. split; [by transitivity (link x r w)|]. intros y. rewrite Hy, S1, elem_of_cons. naive_solver.
Qed.

(** Every argument is a signal that is not aborted, nor is a source of it. *)
Definition linkable (w : world) (x : Z) : Prop :=
  exists d, signals w !! x = Some d /\ abortReason d = None /\ forall y, y ∈ sources_of d -> reason_of w y = None.

Lemma linkable_linked r w w' x : sig_wf w -> linked r w w' -> x <> r -> linkable w x -> linkable w' x.
Proof.
  intros Hw L Hx (d & H & Rx & Hs). destruct (linked_get r w w' x d L H) as [V H']. eexists. split; [exact H'|]. rewrite (dl_reason _ _ _ _ V). split; [done|].
  intros y Hy. unfold sources_of in Hy. rewrite (dl_sources _ _ _ _ V) in Hy by done. specialize (Hs y Hy).
  destruct (wf_up _ Hw x d y H Hy) as (dy & Hdy & _). destruct (linked_get r w w' y dy L Hdy) as [Vy Hy']. unfold reason_of in *.
  rewrite (get_signal_some w y dy Hdy) in Hs. by rewrite (dl_reason _ _ _ _ Vy).
Qed.

Lemma source_list_linked r w w' l : linked r w w' -> (forall x, x ∈ l -> x <> r /\ linkable w x) -> source_list w' l = source_list w l.
Proof.
  intros L. unfold source_list. induction l as [|x l IH]; intros Hl; [done|]. rewrite !bind_cons, IH by (intros y Hy; apply Hl; by right). f_equal.
  destruct (Hl x) as [Hx (d & H & _)]; [by left|]. destruct (linked_get r w w' x d L H) as [V _]. rewrite (get_signal_some w x d H).
  unfold sources_of. by rewrite (dl_kind _ _ _ _ V), (dl_sources _ _ _ _ V).
Qed.

Lemma link_all_spec r l : forall w dr, sig_wf w -> signals w !! r = Some dr -> dependent dr = true ->
  (forall x, x ∈ l -> x <> r /\ linkable w x) ->
  exists w', link_all alive l r w = (w', Ok tt) /\ linked r w w' /\
    forall y, y ∈ sources_of (get_signal w' r) <-> y ∈ sources_of (get_signal w r) \/ y ∈ source_list w l.
Proof.
  induction l as [|x l IH]; intros w dr Hw Hr Kr Hl.
  { exists w. split; [done|]. split; [done|]. set_solver. }
  destruct (Hl x) as [Hxr (d & Hx & Rx & Hsx)]; [by left|].
  assert (Hstep : exists w1, link_all alive (x :: l) r w = link_all alive l r w1 /\ linked r w w1 /\
    forall y, y ∈ sources_of (get_signal w1 r) <-> y ∈ sources_of (get_signal w r) \/ y ∈ source_list w [x]).
  { cbn [link_all]. unfold source_list. simpl. rewrite (get_signal_some w x d Hx). destruct (dependent d) eqn:Kx; simpl.
    - destruct (link_sources_spec r (toArray alive (sources_of d)) w dr Hr Kr) as (w1 & E & L & Hy).
      + intros y Hy. apply list_elem_of_In, List.filter_In in Hy as [Hy _]. apply list_elem_of_In in Hy. destruct (wf_up _ Hw x d y Hx Hy) as (dy & H1 & H2 & _).
        exists dy. split; [done|]. split; [done|]. specialize (Hsx y Hy). unfold reason_of in Hsx. by rewrite (get_signal_some w y dy H1) in Hsx.
      + exists w1. unfold sources_of in E at 1. rewrite E. split; [done|]. split; [done|]. intros y. by rewrite Hy, app_nil_r.
    - destruct (link_spec x r w d dr Hx Kx Hr Kr) as [L1 S1]. exists (link x r w). split; [done|]. split; [done|]. intros y. rewrite S1. set_solver. }
  destruct Hstep as (w1 & E1 & L1 & S1). destruct (linked_get r w w1 r dr L1 Hr) as [V1 Hr1]. rewrite E1.
  assert (Hl' : forall y, y ∈ l -> y <> r /\ linkable w y) by (intros y Hy; apply Hl; by right).
  destruct (IH w1 _ (ln_wf _ _ _ L1 Hw) Hr1) as (w2 & E2 & L2 & S2); [by rewrite (dl_kind _ _ _ _ V1)| |].
  - intros y Hy. destruct (Hl' y Hy) as [H1 H2]. split; [done|]. by apply (linkable_linked r w).
  - exists w2. split; [done|]. split; [by transitivity w1|]. intros y. rewrite S2, S1, (source_list_linked r w w1 l L1 Hl').
    unfold source_list. rewrite !bind_cons, !elem_of_app. change ([] ≫= ?f) with (@nil Z). rewrite elem_of_nil. tauto.
Qed.

(** A fresh signal without links. *)
Definition unlinked (d : SignalData) : Prop :=
  (dependent d = false -> sourceSignals d = None) /\ sources_of d = [] /\ dependentSignals d = None.

Lemma fresh_wf w w' d : sig_wf w -> unlinked d -> signals w' = <[next_id w := d]> (signals w) -> next_id w' = next_id w + 1 ->
  sig_wf w' /\ forall x dx, signals w !! x = Some dx -> x <> next_id w /\ signals w' !! x = Some dx.
Proof.
  intros [A B C D E] (U1 & U2 & U3) Hs Hn.
  assert (Hk : forall x dx, signals w !! x = Some dx -> x <> next_id w /\ signals w' !! x = Some dx).
  { intros x dx H. assert (x < next_id w) by (apply E; by eexists). split; [lia|]. rewrite Hs, lookup_insert_ne by lia. done. }
  split; [|done]. assert (Hl : forall x dx, signals w' !! x = Some dx -> (x = next_id w /\ dx = d) \/ signals w !! x = Some dx).
  { intros x dx. rewrite Hs. destruct (decide (x = next_id w)) as [->|Hx]; [rewrite lookup_insert_eq; intros [= <-]; by left|].
    rewrite lookup_insert_ne by done. by right. }
  split.
  - intros s dx H Hd. apply Hl in H as [[-> ->]|H]; [auto|by apply (A s)].
  - intros s dx H Hd. apply Hl in H as [[-> ->]|H]; [auto|by apply (B s)].
  - intros s dx x H Hx. apply Hl in H as [[-> ->]|H]; [unfold dependents_of in Hx; rewrite U3 in Hx; by apply elem_of_nil in Hx|].
    destruct (C s dx x H Hx) as (dy & H1 & H2 & H3). exists dy. split; [by apply Hk|done].
  - intros s dx x H Hx. apply Hl in H as [[-> ->]|H]; [rewrite U2 in Hx; by apply elem_of_nil in Hx|].
    destruct (D s dx x H Hx) as (dy & H1 & H2 & H3). exists dy. split; [by apply Hk|done].
  - intros s [dx H]. rewrite Hn. apply Hl in H as [[-> _]|H]; [lia|]. assert (s < next_id w) by (apply E; by eexists). lia.
Qed.

Lemma newSignal_signals w f : signals (upd_signal (next_id w) f (newSignal w).2) = <[next_id w := f new_data]> (signals w).
Proof.
  unfold upd_signal, newSignal, set_next_id, set_signals, set_targets. simpl. apply map_eq. intros x.
  destruct (decide (x = next_id w)) as [->|Hx]; [by rewrite lookup_alter_eq, !lookup_insert_eq|]. by rewrite lookup_alter_ne, !lookup_insert_ne.
Qed.

Lemma first_aborted_spec l w w' : (forall x, x ∈ l -> reason_of w' x = reason_of w x) -> first_aborted l w' = head (omap (reason_of w) l).
Proof.
  intros Hr. unfold first_aborted. induction l as [|x l IH]; [done|]. simpl. rewrite aborted_spec, Hr by by left. case_bool_decide as Hx.
  - change (abortReason (get_signal w' x)) with (reason_of w' x). rewrite Hr by by left. destruct (reason_of w x); [done|by destruct Hx].
  - destruct (reason_of w x); [done|]. apply IH. intros y Hy. apply Hr. by right.
Qed.

(** The arguments of [AbortSignal.any]: signals that no abort has reached half way. *)
Definition arguments_ok (w : world) (l : list Z) : Prop :=
  forall x, x ∈ l -> exists d, signals w !! x = Some d /\ (abortReason d = None -> forall y, y ∈ sources_of d -> reason_of w y = None).

Lemma arguments_linkable w w2 n l : sig_wf w -> arguments_ok w l -> (forall x d, signals w !! x = Some d -> x <> n /\ signals w2 !! x = Some d) ->
  head (omap (reason_of w) l) = None ->
  (forall x, x ∈ l -> x <> n /\ linkable w2 x) /\ source_list w2 l = source_list w l.
Proof.
  intros Hw Hl Hold Hh. split.
  - intros x Hx. destruct (Hl x Hx) as (d & H & Hs). destruct (Hold x d H) as [Hxn H2]. split; [done|]. exists d. split; [done|].
    assert (Hrx : abortReason d = None).
    { destruct (abortReason d) as [r|] eqn:Er; [|done]. assert (Hin : r ∈ omap (reason_of w) l).
      { apply list_elem_of_omap. exists x. split; [done|]. unfold reason_of. by rewrite (get_signal_some w x d H). }
      destruct (omap (reason_of w) l); [by apply elem_of_nil in Hin|done]. }
    split; [done|]. intros y Hy. specialize (Hs Hrx y Hy). destruct (wf_up _ Hw x d y H Hy) as (dy & Hdy & _). unfold reason_of in *.
    rewrite (get_signal_some w2 y dy) by by apply Hold. by rewrite (get_signal_some w y dy Hdy) in Hs.
  - unfold source_list. clear -Hl Hold. induction l as [|x l IH]; [done|]. rewrite !bind_cons, IH by (intros y Hy; apply Hl; by right). f_equal.
    destruct (Hl x) as (d & H & _); [by left|]. by rewrite (get_signal_some w x d H), (get_signal_some w2 x d (proj2 (Hold x d H))).
Qed.

(** What [createDependentAbortSignal] comes to. *)
Lemma any_spec l w : sig_wf w -> arguments_ok w l ->
  let n := next_id w in
  exists w', createDependentAbortSignal alive l w = (w', Ok n) /\ sig_wf w' /\
    (forall x d, signals w !! x = Some d -> data_linked n x d (get_signal w' x)) /\
    match head (omap (reason_of w) l) with
    | Some r => reason_of w' n = Some r
    | None => exists dn, signals w' !! n = Some dn /\ abortReason dn = None /\ forall y, y ∈ sources_of dn <-> y ∈ source_list w l
    end.
Proof.
  intros Hw Hl n. unfold createDependentAbortSignal. replace (newSignal w) with (n, (newSignal w).2) by done. set (w1 := (newSignal w).2).
  assert (S1 : signals w1 = <[n := new_data]> (signals w)) by done.
  destruct (fresh_wf w w1 new_data Hw) as [W1 Hold]; [done|done|done|]. fold n in Hold.
  rewrite (first_aborted_spec l w w1).
  2: { intros x Hx. destruct (Hl x Hx) as (d & H & _). unfold reason_of. by rewrite (get_signal_some w x d H), (get_signal_some w1 x d (proj2 (Hold x d H))). }
  destruct (head (omap (reason_of w) l)) as [r|] eqn:Eh.
  - set (w2 := upd_signal n _ w1). pose proof (newSignal_signals w (setAbortReason (Some r))) as S2. fold n w1 w2 in S2.
    destruct (fresh_wf w w2 (setAbortReason (Some r) new_data) Hw) as [W2 Hold2]; [done|done|done|]. exists w2. split; [done|]. split; [done|]. split.
    + intros x d H. rewrite (get_signal_some w2 x d) by by apply Hold2. by split.
    + unfold reason_of, get_signal. by rewrite S2, lookup_insert_eq.
  - set (dn := setSourceSignals (Some []) (setDependent true new_data)). set (w2 := upd_signal n _ w1).
    assert (S2 : signals w2 = <[n := dn]> (signals w)) by apply (newSignal_signals w).
    destruct (fresh_wf w w2 dn Hw) as [W2 Hold2]; [done|done|done|]. fold n in Hold2.
    assert (Hn2 : signals w2 !! n = Some dn) by by rewrite S2, lookup_insert_eq.
    destruct (arguments_linkable w w2 n l Hw Hl Hold2 Eh) as [Hlk Hlist].
    destruct (link_all_spec n l w2 dn W2 Hn2 eq_refl Hlk) as (w3 & E3 & L3 & Y3). rewrite E3. exists w3. split; [done|]. split; [by apply L3|].
    split; [intros x d H; destruct (Hold2 x d H) as [_ H2]; by apply (linked_get n w2 w3 x d L3)|].
    destruct (linked_get n w2 w3 n dn L3 Hn2) as [Vn Hn3]. exists (get_signal w3 n). split; [done|]. split; [by rewrite (dl_reason _ _ _ _ Vn)|].
    intros y. rewrite Y3, Hlist, (get_signal_some w2 n dn Hn2). simpl. split; [by intros [Hy%elem_of_nil|]|by right].
Qed.
End Any.

(** *** Checking a world *)

Lemma sig_wf_check w :
  map_Forall (fun _ d => (dependent d = false -> sourceSignals d = None) /\ (dependent d = true -> dependentSignals d = None)) (signals w) ->
  map_Forall (fun s d => Forall (fun x => is_Some (signals w !! x) /\ dependent (get_signal w x) = true /\ s ∈ sources_of (get_signal w x)) (dependents_of d)) (signals w) ->
  map_Forall (fun x d => Forall (fun s => is_Some (signals w !! s) /\ dependent (get_signal w s) = false /\ x ∈ dependents_of (get_signal w s)) (sources_of d)) (signals w) ->
  map_Forall (fun s _ => s < next_id w) (signals w) -> sig_wf w.
Proof.
  intros H1 H2 H3 H4. split.
  - intros s d H. apply (H1 s d H).
  - intros s d H. apply (H1 s d H).
  - intros s d x H Hx. specialize (H2 s d H). rewrite Forall_forall in H2. destruct (H2 x Hx) as ([dx E] & A). rewrite (get_signal_some w x dx E) in A. by exists dx.
  - intros x d s H Hs. specialize (H3 x d H). rewrite Forall_forall in H3. destruct (H3 s Hs) as ([ds E] & A). rewrite (get_signal_some w s ds E) in A. by exists ds.
  - intros s [d H]. apply (H4 s d H).
Qed.

(** ** Theorems *)

Section Theorems.
Context (nodeType parentNode : Z -> option Z) (getRootNode : Z -> bool -> option Z).
Context (has_handleEvent : Z -> bool) (call : Callback -> Z -> world -> world * option Z).
Context (report : Z -> world -> world) (globalThis : Z) (efuel : nat) (run_algo : Z -> world -> world) (alive : Z -> bool).

(** C7. Aborting a signal that is not aborted ends, whatever listeners and
    algorithms do to signals meanwhile (two levels of recursion are enough); the
    signal has the reason, every live signal that depended on it is aborted, and
    reasons that were there stay.  When the code that runs leaves signals alone, the
    signal and its live dependents get the reason and lose their algorithms unless
    they were aborted before, and nothing else changes. *)
Theorem abort_reaches_all (s r : Z) (w : world) (d : SignalData) (fuel : nat) :
  (forall cb e w, sig_evolves w (call cb e w).1) -> (forall err w, sig_evolves w (report err w)) -> (forall a w, sig_evolves w (run_algo a w)) ->
  sig_wf w -> signals w !! s = Some d -> abortReason d = None -> (2 <= fuel)%nat ->
  exists w', signalAbort nodeType parentNode getRootNode has_handleEvent call report globalThis efuel run_algo alive fuel s r w = Some w' /\
    sig_wf w' /\ sig_evolves w w' /\ reason_of w' s = Some r /\
    (forall x, x ∈ dependents_of d -> alive x = true -> reason_of w' x <> None) /\
    ((forall cb e w, signals (call cb e w).1 = signals w) -> (forall err w, signals (report err w) = signals w) ->
     (forall a w, signals (run_algo a w) = signals w) ->
     forall x, signals w' !! x = if bool_decide (x = s \/ x ∈ toArray alive (dependents_of d)) then mark r <$> signals w !! x else signals w !! x).
Proof.
  intros Hc Hr Ha Hw Hs Hd Hf.
  destruct (abort_spec nodeType parentNode getRootNode has_handleEvent call report globalThis efuel run_algo alive Hc Hr Ha fuel s r w d Hw Hs) as (w' & E & V & _ & R & N);
    [destruct (dependent d); lia|].
  assert (Hn : reason_of w s = None) by (unfold reason_of; by rewrite (get_signal_some w s d Hs)).
  exists w'. split; [done|]. split; [by apply V|]. split; [done|]. split; [by apply R|].
  split; [intros x Hx; apply N; [done|]; by rewrite (get_signal_some w s d Hs)|]. intros Qc Qr Qa. destruct fuel as [|[|fuel]]; [lia|lia|].
  by apply (abort_quiet nodeType parentNode getRootNode has_handleEvent call report globalThis efuel run_algo alive Qc Qr Qa fuel s r w d).
Qed.

(** C23. [AbortSignal.any] does not throw when no signal is in the middle of
    aborting.  With an aborted argument the new signal has the reason of the first
    one; else it is not aborted, its sources are those of the arguments, it depends
    on each of them, and aborting a source then aborts it with the same reason, if
    the source was not aborted, the new signal is alive, and the listeners, reports
    and algorithms that run leave signals unchanged.  The signals from before keep
    their state. *)
Theorem any_follows_sources (l : list Z) (w : world) :
  sig_wf w -> arguments_ok w l ->
  let n := next_id w in
  exists w', createDependentAbortSignal alive l w = (w', Ok n) /\ sig_wf w' /\
    (forall x d, signals w !! x = Some d -> data_linked n x d (get_signal w' x)) /\
    match head (omap (reason_of w) l) with
    | Some r => reason_of w' n = Some r
    | None =>
        reason_of w' n = None /\ (forall y, y ∈ sources_of (get_signal w' n) <-> y ∈ source_list alive w l) /\
        (forall y, y ∈ source_list alive w l -> n ∈ dependents_of (get_signal w' y)) /\
        forall y r fuel, y ∈ source_list alive w l -> reason_of w' y = None -> alive n = true ->
          (forall cb e w, sig_evolves w (call cb e w).1 /\ signals (call cb e w).1 = signals w) ->
          (forall err w, sig_evolves w (report err w) /\ signals (report err w) = signals w) ->
          (forall a w, sig_evolves w (run_algo a w) /\ signals (run_algo a w) = signals w) ->
          exists w2, signalAbort nodeType parentNode getRootNode has_handleEvent call report globalThis efuel run_algo alive (S (S fuel)) y r w' = Some w2 /\
            reason_of w2 n = Some r
    end.
Proof.
  intros Hw Hl n. destruct (any_spec alive l w Hw Hl) as (w' & E & W' & V & Hcase). fold n in E, V, Hcase. exists w'. split; [done|]. split; [done|]. split; [done|].
  destruct (head (omap (reason_of w) l)) as [r|]; [done|]. destruct Hcase as (dn & Hn & Rn & Hsrc). unfold reason_of at 1. rewrite (get_signal_some w' n dn Hn).
  assert (Hdep : forall y, y ∈ source_list alive w l -> exists dy, signals w' !! y = Some dy /\ n ∈ dependents_of dy).
  { intros y Hy. apply Hsrc in Hy. destruct (wf_up _ W' n dn y Hn Hy) as (dy & H1 & _ & H2). by exists dy. }
  split; [done|]. split; [done|]. split; [intros y Hy; destruct (Hdep y Hy) as (dy & H1 & H2); by rewrite (get_signal_some w' y dy H1)|].
  intros y r fuel Hy Hry Hal Hc Hr Ha. destruct (Hdep y Hy) as (dy & H1 & H2). unfold reason_of in Hry. rewrite (get_signal_some w' y dy H1) in Hry.
  destruct (abort_spec nodeType parentNode getRootNode has_handleEvent call report globalThis efuel run_algo alive
    (fun cb e w => proj1 (Hc cb e w)) (fun err w => proj1 (Hr err w)) (fun a w => proj1 (Ha a w)) (S (S fuel)) y r w' dy W' H1) as (w4 & E4 & _);
    [destruct (dependent dy); lia|]. exists w4. split; [done|].
  pose proof (abort_quiet nodeType parentNode getRootNode has_handleEvent call report globalThis efuel run_algo alive
    (fun cb e w => proj2 (Hc cb e w)) (fun err w => proj2 (Hr err w)) (fun a w => proj2 (Ha a w)) fuel y r w' dy w4 W' H1 Hry E4 n) as Hq.
  rewrite bool_decide_eq_true_2 in Hq by (right; apply list_elem_of_In, List.filter_In; split; [by apply list_elem_of_In|done]).
  rewrite Hn in Hq. unfold reason_of, get_signal. rewrite Hq. simpl. unfold mark. by rewrite Rn.
Qed.
End Theorems.

(** A signal 1, and signals 2 and 3 that depend on it; 3 is gone. *)
Definition example_world : world :=
  mkWorld {[1 := getDefaultTargetData; 2 := getDefaultTargetData; 3 := getDefaultTargetData]} ∅
    {[1 := mkSignal None (Some [7]) false None (Some [2; 3]) None; 2 := mkSignal None None true (Some [1]) None None;
      3 := mkSignal None None true (Some [1]) None None]} ∅ 4 0 [] false [].

Lemma example_wf : sig_wf example_world.
Proof. apply sig_wf_check; refine (bool_decide_unpack _ _); vm_compute; exact I. Qed.

Definition example_alive (x : Z) : bool := negb (x =? 3).

Lemma abort_reaches_all_witness :
  exists w', signalAbort (fun _ => None) (fun _ => None) (fun _ _ => None) (fun _ => true) (fun _ _ w => (w, None)) (fun _ w => w) 0 1 (fun _ w => w)
      example_alive 2 1 99 example_world = Some w' /\ sig_wf w' /\ sig_evolves example_world w' /\ reason_of w' 1 = Some 99 /\
    (forall x, x ∈ [2; 3] -> example_alive x = true -> reason_of w' x <> None) /\
    ((forall (cb : Callback) (e : Z) (w : world), signals w = signals w) -> (forall (err : Z) (w : world), signals w = signals w) ->
     (forall (a : Z) (w : world), signals w = signals w) ->
     forall x, signals w' !! x = if bool_decide (x = 1 \/ x ∈ [2]) then mark 99 <$> signals example_world !! x else signals example_world !! x).
Proof.
  apply (abort_reaches_all (fun _ => None) (fun _ => None) (fun _ _ => None) (fun _ => true) (fun _ _ w => (w, None)) (fun _ w => w) 0 1 (fun _ w => w)
    example_alive 1 99 example_world (mkSignal None (Some [7]) false None (Some [2; 3]) None) 2).
  - intros cb e w. simpl. reflexivity.
  - intros err w. reflexivity.
  - intros a w. reflexivity.
  - exact example_wf.
  - vm_compute. reflexivity.
  - reflexivity.
  - lia.
Defined.

Lemma any_follows_sources_witness :
  exists w', createDependentAbortSignal example_alive [2] example_world = (w', Ok 4) /\ sig_wf w' /\
    (forall x d, signals example_world !! x = Some d -> data_linked 4 x d (get_signal w' x)) /\
    reason_of w' 4 = None /\ (forall y, y ∈ sources_of (get_signal w' 4) <-> y ∈ [1]) /\
    (forall y, y ∈ [1] -> 4 ∈ dependents_of (get_signal w' y)) /\
    forall y r fuel, y ∈ [1] -> reason_of w' y = None -> example_alive 4 = true ->
      (forall (cb : Callback) (e : Z) w, sig_evolves w w /\ signals w = signals w) -> (forall (err : Z) w, sig_evolves w w /\ signals w = signals w) ->
      (forall (a : Z) w, sig_evolves w w /\ signals w = signals w) ->
      exists w2, signalAbort (fun _ => None) (fun _ => None) (fun _ _ => None) (fun _ => true) (fun _ _ w => (w, None)) (fun _ w => w) 0 1 (fun _ w => w)
        example_alive (S (S fuel)) y r w' = Some w2 /\ reason_of w2 4 = Some r.
Proof.
  apply (any_follows_sources (fun _ => None) (fun _ => None) (fun _ _ => None) (fun _ => true) (fun _ _ w => (w, None)) (fun _ w => w) 0 1 (fun _ w => w)
    example_alive [2] example_world).
  - exact example_wf.
  - intros x Hx. apply list_elem_of_singleton in Hx. subst x. exists (mkSignal None None true (Some [1]) None None). split; [vm_compute; reflexivity|].
    intros _ y Hy. apply list_elem_of_singleton in Hy. subst y. vm_compute. reflexivity.
Defined.

(** ** Divergences *)

(** In an abort listener of a source, the dependents are not aborted yet while the
    source is: [AbortSignal.any] of a dependent fails an assertion. *)
Lemma any_in_listener_throws :
  let w := upd_signal 1 (fun d => setAbortAlgos None (setAbortReason (Some 99) d)) example_world in
  reason_of w 2 = None /\ (createDependentAbortSignal example_alive [2] w).2 = Throw (JsError "assertion error").
Proof. by vm_compute. Qed.

(** Removing a listener lets the timer of a timeout signal go although other
    listeners wait for it: a listener of the timeout signal removed while a
    dependent has one, and the other way round. *)
Lemma timer_let_go :
  let cb i := Some (CbFunction i) in
  let on s i := signal_addEventListener (fun _ => true) s (lit "abort") (cb i) (mkLOpts false false false None) in
  let off s i := signal_removeEventListener (fun _ => true) s (lit "abort") (cb i) false in
  let '(s, w) := signal_timeout (mkWorld ∅ ∅ ∅ ∅ 1 0 [] false []) in
  let '(w, _) := createDependentAbortSignal (fun _ => true) [s] w in
  refs (on s 11 (on 3 10 w)) !! 2 = Some true /\
  (listenerCount (off s 11 (on s 11 (on 3 10 w))) 3 (lit "abort") = 1 /\ refs (off s 11 (on s 11 (on 3 10 w))) !! 2 = Some false) /\
  (listenerCount (off 3 10 (on s 11 (on 3 10 w))) s (lit "abort") = 1 /\ refs (off 3 10 (on s 11 (on 3 10 w))) !! 2 = Some false).
Proof. by vm_compute. Qed.
