(* ===== verification/BufferInts.v ===== *)
(** * Buffers: integers

    Models the integer methods of [src/ext/node/polyfills/internal/buffer.mjs]:
    reading and writing integers of one to six bytes and of eight bytes, with the
    checks of offsets and values.

    A buffer is a list of bytes.  An offset is any argument; [buf[offset + k]] is
    [elem buf offset k], which is undefined unless the offset is an integer and the
    place is in the buffer (adding a small [k] to an integer is exact where the
    result is in a buffer, and the code looks at [buf[offset]] first, which is
    undefined for every other number).  The readers add products of bytes and powers
    of two that stay below 2^53, so they are exact and integers here; the operators
    that work on 32 bits are written out.  A value that is written is a number
    after [+value]. *)

From Stdlib Require Import ZArith Lia QArith Qround.
From stdpp Require Import base list numbers strings.
From S2P Require Import Prelude JsNumber.

#[local] Open Scope Z_scope.

(** ** Arguments and errors *)

Inductive arg := Undefined | NotNumber | Number (x : num).

(** The range that an error of this kind names. *)
Inductive err_range :=
  | RInteger
  | RBetween (lo hi : Z)
  | RUnsigned (bits : Z)
  | RSigned (bits : Z)
  | RAtLeast (lo : Z)
  | RBelow (hi : Z)
  | RIndex.

Inductive buf_error :=
  | InvalidArgType (name : string)
  | OutOfRange (name : string) (range : err_range)
  | OutOfBounds
  | BufRangeError (msg : string)
  | InvalidArgValue (name : string)
  | UnknownEncoding
  | BufTypeError (msg : string).

Definition res (A : Type) : Type := buf_error + A.

Definition rbind {A B} (m : res A) (k : A -> res B) : res B := match m with inl e => inl e | inr a => k a end.

Declare Scope buf_scope.
Delimit Scope buf_scope with buf.
Notation "'let!' x ':=' m 'in' k" := (rbind m (fun x => k)) (at level 10, x pattern, m at level 100, k at level 200) : buf_scope.
#[local] Open Scope buf_scope.

(** A default parameter. *)
Definition or_zero (a : arg) : arg := match a with Undefined => Number zero | _ => a end.

(** The integer that a number is. *)
Definition index (x : num) : option Z :=
  match x with
  | Fin q => if Qeq_bool q (inject_Z (Qfloor q)) then Some (Qfloor q) else None
  | _ => None
  end.

Definition elem (buf : list Z) (offset : num) (k : Z) : option Z :=
  match index offset with
  | Some i => if 0 <=? i + k then buf !! Z.to_nat (i + k) else None
  | None => None
  end.

Definition byte (buf : list Z) (offset : num) (k : Z) : Z := default 0 (elem buf offset k).

Definition validateNumber (value : arg) (name : string) : res num :=
  match value with Number x => inr x | _ => inl (InvalidArgType name) end.

(** [Math.floor(value) !== value] *)
Definition not_integer (x : num) : bool :=
  match x with NaN => true | Inf _ => false | Fin _ => bool_decide (index x = None) end.

Definition boundsError (value : arg) (length : Z) (type : option string) : buf_error :=
  let name := default "offset"%string type in
  match value with
  | Number x =>
      if not_integer x then OutOfRange name RInteger
      else if length <? 0 then OutOfBounds
      else OutOfRange name (RBetween (match type with Some _ => 1 | None => 0 end) length)
  | _ => InvalidArgType name
  end.

(** ** Operators on 32 bits *)

Definition to_int32 (z : Z) : Z := (z + 2 ^ 31) mod 2 ^ 32 - 2 ^ 31.
Definition js_or (a b : Z) : Z := Z.lor (to_int32 a) (to_int32 b).
Definition js_and (a b : Z) : Z := Z.land (to_int32 a) (to_int32 b).
Definition js_shl (a k : Z) : Z := to_int32 (Z.shiftl (to_int32 a) k).
Definition js_sar (a k : Z) : Z := Z.shiftr (to_int32 a) k.

Definition qtrunc (q : Q) : Z := if Qnum q <? 0 then - Qfloor (- q) else Qfloor q.
Definition num_trunc (x : num) : Z := match x with Fin q => qtrunc q | _ => 0 end.
Definition to_uint32 (x : num) : Z := num_trunc x mod 2 ^ 32.
Definition js_ushr (x : num) (k : Z) : num := num_of_Z (Z.shiftr (to_uint32 x) k).

(** ** Reading *)

(** The first lines of every reader: the number, and the bytes at both ends. *)
Definition ends (buf : list Z) (offset : arg) (n : Z) : res (num * Z * Z) :=
  let! offset := validateNumber offset "offset" in
  match elem buf offset 0, elem buf offset (n - 1) with
  | Some first, Some last => inr (offset, first, last)
  | _, _ => inl (boundsError (Number offset) (slen buf - n) None)
  end.

Definition readUInt48LE (buf : list Z) (offset : arg) : res Z :=
  let! (o, first, last) := ends buf (or_zero offset) 6 in
  inr (first + byte buf o 1 * 2 ^ 8 + byte buf o 2 * 2 ^ 16 + byte buf o 3 * 2 ^ 24 + (byte buf o 4 + last * 2 ^ 8) * 2 ^ 32).

Definition readUInt40LE (buf : list Z) (offset : arg) : res Z :=
  let! (o, first, last) := ends buf (or_zero offset) 5 in
  inr (first + byte buf o 1 * 2 ^ 8 + byte buf o 2 * 2 ^ 16 + byte buf o 3 * 2 ^ 24 + last * 2 ^ 32).

Definition readUInt24LE (buf : list Z) (offset : arg) : res Z :=
  let! (o, first, last) := ends buf (or_zero offset) 3 in
  inr (first + byte buf o 1 * 2 ^ 8 + last * 2 ^ 16).

Definition readUInt48BE (buf : list Z) (offset : arg) : res Z :=
  let! (o, first, last) := ends buf (or_zero offset) 6 in
  inr ((first * 2 ^ 8 + byte buf o 1) * 2 ^ 32 + byte buf o 2 * 2 ^ 24 + byte buf o 3 * 2 ^ 16 + byte buf o 4 * 2 ^ 8 + last).

Definition readUInt40BE (buf : list Z) (offset : arg) : res Z :=
  let! (o, first, last) := ends buf (or_zero offset) 5 in
  inr (first * 2 ^ 32 + byte buf o 1 * 2 ^ 24 + byte buf o 2 * 2 ^ 16 + byte buf o 3 * 2 ^ 8 + last).

Definition readUInt24BE (buf : list Z) (offset : arg) : res Z :=
  let! (o, first, last) := ends buf (or_zero offset) 3 in
  inr (first * 2 ^ 16 + byte buf o 1 * 2 ^ 8 + last).

Definition readUInt8 (buf : list Z) (offset : arg) : res Z :=
  let! offset := validateNumber (or_zero offset) "offset" in
  match elem buf offset 0 with Some val => inr val | None => inl (boundsError (Number offset) (slen buf - 1) None) end.

Definition readUInt16LE (buf : list Z) (offset : arg) : res Z :=
  let! (o, first, last) := ends buf (or_zero offset) 2 in inr (first + last * 2 ^ 8).

Definition readUInt16BE (buf : list Z) (offset : arg) : res Z :=
  let! (o, first, last) := ends buf (or_zero offset) 2 in inr (first * 2 ^ 8 + last).

Definition readUInt32LE (buf : list Z) (offset : arg) : res Z :=
  let! (o, first, last) := ends buf (or_zero offset) 4 in
  inr (first + byte buf o 1 * 2 ^ 8 + byte buf o 2 * 2 ^ 16 + last * 2 ^ 24).

Definition readUInt32BE (buf : list Z) (offset : arg) : res Z :=
  let! (o, first, last) := ends buf (or_zero offset) 4 in
  inr (first * 2 ^ 24 + byte buf o 1 * 2 ^ 16 + byte buf o 2 * 2 ^ 8 + last).

Definition readInt8 (buf : list Z) (offset : arg) : res Z :=
  let! offset := validateNumber (or_zero offset) "offset" in
  match elem buf offset 0 with
  | Some val => inr (js_or val (js_and val (2 ^ 7) * 0x1fffffe))
  | None => inl (boundsError (Number offset) (slen buf - 1) None)
  end.

Definition readInt16LE (buf : list Z) (offset : arg) : res Z :=
  let! (o, first, last) := ends buf (or_zero offset) 2 in
  let val := first + last * 2 ^ 8 in inr (js_or val (js_and val (2 ^ 15) * 0x1fffe)).

Definition readInt16BE (buf : list Z) (offset : arg) : res Z :=
  let! (o, first, last) := ends buf (or_zero offset) 2 in
  let val := first * 2 ^ 8 + last in inr (js_or val (js_and val (2 ^ 15) * 0x1fffe)).

Definition readInt24LE (buf : list Z) (offset : arg) : res Z :=
  let! (o, first, last) := ends buf (or_zero offset) 3 in
  let val := first + byte buf o 1 * 2 ^ 8 + last * 2 ^ 16 in inr (js_or val (js_and val (2 ^ 23) * 0x1fe)).

Definition readInt24BE (buf : list Z) (offset : arg) : res Z :=
  let! (o, first, last) := ends buf (or_zero offset) 3 in
  let val := first * 2 ^ 16 + byte buf o 1 * 2 ^ 8 + last in inr (js_or val (js_and val (2 ^ 23) * 0x1fe)).

Definition readInt32LE (buf : list Z) (offset : arg) : res Z :=
  let! (o, first, last) := ends buf (or_zero offset) 4 in
  inr (first + byte buf o 1 * 2 ^ 8 + byte buf o 2 * 2 ^ 16 + js_shl last 24).

Definition readInt32BE (buf : list Z) (offset : arg) : res Z :=
  let! (o, first, last) := ends buf (or_zero offset) 4 in
  inr (js_shl first 24 + byte buf o 1 * 2 ^ 16 + byte buf o 2 * 2 ^ 8 + last).

Definition readInt40LE (buf : list Z) (offset : arg) : res Z :=
  let! (o, first, last) := ends buf (or_zero offset) 5 in
  inr (js_or last (js_and last (2 ^ 7) * 0x1fffffe) * 2 ^ 32 + first + byte buf o 1 * 2 ^ 8 + byte buf o 2 * 2 ^ 16 + byte buf o 3 * 2 ^ 24).

Definition readInt40BE (buf : list Z) (offset : arg) : res Z :=
  let! (o, first, last) := ends buf (or_zero offset) 5 in
  inr (js_or first (js_and first (2 ^ 7) * 0x1fffffe) * 2 ^ 32 + byte buf o 1 * 2 ^ 24 + byte buf o 2 * 2 ^ 16 + byte buf o 3 * 2 ^ 8 + last).

Definition readInt48LE (buf : list Z) (offset : arg) : res Z :=
  let! (o, first, last) := ends buf (or_zero offset) 6 in
  let val := byte buf o 4 + last * 2 ^ 8 in
  inr (js_or val (js_and val (2 ^ 15) * 0x1fffe) * 2 ^ 32 + first + byte buf o 1 * 2 ^ 8 + byte buf o 2 * 2 ^ 16 + byte buf o 3 * 2 ^ 24).

Definition readInt48BE (buf : list Z) (offset : arg) : res Z :=
  let! (o, first, last) := ends buf (or_zero offset) 6 in
  let val := byte buf o 1 + first * 2 ^ 8 in
  inr (js_or val (js_and val (2 ^ 15) * 0x1fffe) * 2 ^ 32 + byte buf o 2 * 2 ^ 24 + byte buf o 3 * 2 ^ 16 + byte buf o 4 * 2 ^ 8 + last).

(** [byteLength === n] *)
Definition is_length (byteLength : arg) (n : Z) : bool :=
  match byteLength with Number x => bool_decide (index x = Some n) | _ => false end.

Definition no_length (byteLength : arg) : buf_error := boundsError byteLength 6 (Some "byteLength"%string).

(** [offset === undefined] *)
Definition required (offset : arg) : res unit := match offset with Undefined => inl (InvalidArgType "offset") | _ => inr tt end.

Definition readUIntLE (buf : list Z) (offset byteLength : arg) : res Z :=
  let! _ := required offset in
  if is_length byteLength 6 then readUInt48LE buf offset
  else if is_length byteLength 5 then readUInt40LE buf offset
  else if is_length byteLength 3 then readUInt24LE buf offset
  else if is_length byteLength 4 then readUInt32LE buf offset
  else if is_length byteLength 2 then readUInt16LE buf offset
  else if is_length byteLength 1 then readUInt8 buf offset
  else inl (no_length byteLength).

Definition readUIntBE (buf : list Z) (offset byteLength : arg) : res Z :=
  let! _ := required offset in
  if is_length byteLength 6 then readUInt48BE buf offset
  else if is_length byteLength 5 then readUInt40BE buf offset
  else if is_length byteLength 3 then readUInt24BE buf offset
  else if is_length byteLength 4 then readUInt32BE buf offset
  else if is_length byteLength 2 then readUInt16BE buf offset
  else if is_length byteLength 1 then readUInt8 buf offset
  else inl (no_length byteLength).

Definition readIntLE (buf : list Z) (offset byteLength : arg) : res Z :=
  let! _ := required offset in
  if is_length byteLength 6 then readInt48LE buf offset
  else if is_length byteLength 5 then readInt40LE buf offset
  else if is_length byteLength 3 then readInt24LE buf offset
  else if is_length byteLength 4 then readInt32LE buf offset
  else if is_length byteLength 2 then readInt16LE buf offset
  else if is_length byteLength 1 then readInt8 buf offset
  else inl (no_length byteLength).

Definition readIntBE (buf : list Z) (offset byteLength : arg) : res Z :=
  let! _ := required offset in
  if is_length byteLength 6 then readInt48BE buf offset
  else if is_length byteLength 5 then readInt40BE buf offset
  else if is_length byteLength 3 then readInt24BE buf offset
  else if is_length byteLength 4 then readInt32BE buf offset
  else if is_length byteLength 2 then readInt16BE buf offset
  else if is_length byteLength 1 then readInt8 buf offset
  else inl (no_length byteLength).

(** The 64-bit readers take the offset modulo 2^32; anything that is no number
    counts as 0 here ([ToNumber] of such an argument is not modelled). *)
Definition offset_uint32 (offset : arg) : arg :=
  match offset with Number x => Number (js_ushr x 0) | _ => Number zero end.

Definition readBigUInt64LE (buf : list Z) (offset : arg) : res Z :=
  let! (o, first, last) := ends buf (offset_uint32 offset) 8 in
  let lo := first + byte buf o 1 * 2 ^ 8 + byte buf o 2 * 2 ^ 16 + byte buf o 3 * 2 ^ 24 in
  let hi := byte buf o 4 + byte buf o 5 * 2 ^ 8 + byte buf o 6 * 2 ^ 16 + last * 2 ^ 24 in
  inr (lo + Z.shiftl hi 32).

Definition readBigUInt64BE (buf : list Z) (offset : arg) : res Z :=
  let! (o, first, last) := ends buf (offset_uint32 offset) 8 in
  let hi := first * 2 ^ 24 + byte buf o 1 * 2 ^ 16 + byte buf o 2 * 2 ^ 8 + byte buf o 3 in
  let lo := byte buf o 4 * 2 ^ 24 + byte buf o 5 * 2 ^ 16 + byte buf o 6 * 2 ^ 8 + last in
  inr (Z.shiftl hi 32 + lo).

Definition readBigInt64LE (buf : list Z) (offset : arg) : res Z :=
  let! (o, first, last) := ends buf (offset_uint32 offset) 8 in
  let val := byte buf o 4 + byte buf o 5 * 2 ^ 8 + byte buf o 6 * 2 ^ 16 + js_shl last 24 in
  inr (Z.shiftl val 32 + (first + byte buf o 1 * 2 ^ 8 + byte buf o 2 * 2 ^ 16 + byte buf o 3 * 2 ^ 24)).

Definition readBigInt64BE (buf : list Z) (offset : arg) : res Z :=
  let! (o, first, last) := ends buf (offset_uint32 offset) 8 in
  let val := js_shl first 24 + byte buf o 1 * 2 ^ 16 + byte buf o 2 * 2 ^ 8 + byte buf o 3 in
  inr (Z.shiftl val 32 + (byte buf o 4 * 2 ^ 24 + byte buf o 5 * 2 ^ 16 + byte buf o 6 * 2 ^ 8 + last)).

(** ** Writing *)

(** [buf[i] = v] for an index in the buffer; a byte takes the last eight bits. *)
Definition set_at (i v : Z) (buf : list Z) : list Z := <[Z.to_nat i := v mod 2 ^ 8]> buf.

(** [buf[i] = x] for a number. *)
Definition set_num (i : Z) (x : num) (buf : list Z) : list Z := set_at i (num_trunc x) buf.

Definition checkBounds (buf : list Z) (offset : arg) (byteLength2 : Z) : res Z :=
  let! x := validateNumber offset "offset" in
  match elem buf x 0, elem buf x byteLength2, index x with
  | Some _, Some _, Some i => inr i
  | _, _, _ => inl (boundsError (Number x) (slen buf - (byteLength2 + 1)) None)
  end.

(** The range in the message, as [checkInt] and [checkIntBI] make it. *)
Definition value_range (min max byteLength : Z) : err_range :=
  if 3 <? byteLength then
    if min =? 0 then RUnsigned ((byteLength + 1) * 8) else RSigned ((byteLength + 1) * 8 - 1)
  else RBetween min max.

Definition checkInt (value : num) (min max : Z) (buf : list Z) (offset : arg) (byteLength : Z) : res Z :=
  if num_lt (num_of_Z max) value || num_lt value (num_of_Z min) then inl (OutOfRange "value" (value_range min max byteLength))
  else checkBounds buf offset byteLength.

Definition checkIntBI (value min max : Z) (buf : list Z) (offset : arg) (byteLength2 : Z) : res Z :=
  if (max <? value) || (value <? min) then inl (OutOfRange "value" (value_range min max byteLength2))
  else checkBounds buf offset byteLength2.

(** [Math.floor(value * 2 ** -32)] *)
Definition high_part (value : num) : num :=
  match value with
  | Fin q => match round64 (q * pow2 (-32)) with Fin r => num_of_Z (Qfloor r) | y => y end
  | y => y
  end.

Definition writeU_Int8 (buf : list Z) (value : num) (offset : arg) (min max : Z) : res (list Z * Z) :=
  let! x := validateNumber offset "offset" in
  if num_lt (num_of_Z max) value || num_lt value (num_of_Z min) then inl (OutOfRange "value" (RBetween min max))
  else
    match elem buf x 0, index x with
    | Some _, Some i => inr (set_num i value buf, i + 1)
    | _, _ => inl (boundsError (Number x) (slen buf - 1) None)
    end.

Definition writeU_Int16LE (buf : list Z) (value : num) (offset : arg) (min max : Z) : res (list Z * Z) :=
  let! i := checkInt value min max buf offset 1 in
  inr (set_num (i + 1) (js_ushr value 8) (set_num i value buf), i + 2).

Definition writeU_Int16BE (buf : list Z) (value : num) (offset : arg) (min max : Z) : res (list Z * Z) :=
  let! i := checkInt value min max buf offset 1 in
  inr (set_num (i + 1) value (set_num i (js_ushr value 8) buf), i + 2).

Definition writeU_Int24LE (buf : list Z) (value : num) (offset : arg) (min max : Z) : res (list Z * Z) :=
  let! i := checkInt value min max buf offset 2 in
  let buf := set_num i value buf in
  let value := js_ushr value 8 in
  let buf := set_num (i + 1) value buf in
  let value := js_ushr value 8 in
  inr (set_num (i + 2) value buf, i + 3).

Definition writeU_Int24BE (buf : list Z) (value : num) (offset : arg) (min max : Z) : res (list Z * Z) :=
  let! i := checkInt value min max buf offset 2 in
  let buf := set_num (i + 2) value buf in
  let value := js_ushr value 8 in
  let buf := set_num (i + 1) value buf in
  let value := js_ushr value 8 in
  inr (set_num i value buf, i + 3).

(** Four bytes from [i] on, lowest first or last. *)
Definition low_up (i : Z) (value : num) (buf : list Z) : list Z :=
  let buf := set_num i value buf in
  let value := js_ushr value 8 in
  let buf := set_num (i + 1) value buf in
  let value := js_ushr value 8 in
  let buf := set_num (i + 2) value buf in
  let value := js_ushr value 8 in
  set_num (i + 3) value buf.

Definition low_down (i : Z) (value : num) (buf : list Z) : list Z :=
  let buf := set_num (i + 3) value buf in
  let value := js_ushr value 8 in
  let buf := set_num (i + 2) value buf in
  let value := js_ushr value 8 in
  let buf := set_num (i + 1) value buf in
  let value := js_ushr value 8 in
  set_num i value buf.

Definition writeU_Int32LE (buf : list Z) (value : num) (offset : arg) (min max : Z) : res (list Z * Z) :=
  let! i := checkInt value min max buf offset 3 in inr (low_up i value buf, i + 4).

Definition writeU_Int32BE (buf : list Z) (value : num) (offset : arg) (min max : Z) : res (list Z * Z) :=
  let! i := checkInt value min max buf offset 3 in inr (low_down i value buf, i + 4).

Definition _writeUInt32LE (buf : list Z) (value : num) (offset : arg) (min max : Z) : res (list Z * Z) :=
  let! i := checkInt value min max buf offset 3 in inr (low_up i value buf, i + 4).

Definition _writeUInt32BE (buf : list Z) (value : num) (offset : arg) (min max : Z) : res (list Z * Z) :=
  let! i := checkInt value min max buf offset 3 in inr (low_down i value buf, i + 4).

Definition writeU_Int40LE (buf : list Z) (value : num) (offset : arg) (min max : Z) : res (list Z * Z) :=
  let! i := checkInt value min max buf offset 4 in
  inr (set_num (i + 4) (high_part value) (low_up i value buf), i + 5).

Definition writeU_Int40BE (buf : list Z) (value : num) (offset : arg) (min max : Z) : res (list Z * Z) :=
  let! i := checkInt value min max buf offset 4 in
  let buf := set_num i (high_part value) buf in
  inr (low_down (i + 1) value buf, i + 5).

Definition writeU_Int48LE (buf : list Z) (value : num) (offset : arg) (min max : Z) : res (list Z * Z) :=
  let! i := checkInt value min max buf offset 5 in
  let newVal := high_part value in
  let buf := low_up i value buf in
  let buf := set_num (i + 4) newVal buf in
  inr (set_num (i + 5) (js_ushr newVal 8) buf, i + 6).

Definition writeU_Int48BE (buf : list Z) (value : num) (offset : arg) (min max : Z) : res (list Z * Z) :=
  let! i := checkInt value min max buf offset 5 in
  let newVal := high_part value in
  let buf := set_num i (js_ushr newVal 8) buf in
  let buf := set_num (i + 1) newVal buf in
  inr (low_down (i + 2) value buf, i + 6).

Definition writeUIntLE (buf : list Z) (value : num) (offset byteLength : arg) : res (list Z * Z) :=
  if is_length byteLength 6 then writeU_Int48LE buf value offset 0 0xffffffffffff
  else if is_length byteLength 5 then writeU_Int40LE buf value offset 0 0xffffffffff
  else if is_length byteLength 3 then writeU_Int24LE buf value offset 0 0xffffff
  else if is_length byteLength 4 then writeU_Int32LE buf value offset 0 0xffffffff
  else if is_length byteLength 2 then writeU_Int16LE buf value offset 0 0xffff
  else if is_length byteLength 1 then writeU_Int8 buf value offset 0 0xff
  else inl (no_length byteLength).

Definition writeUIntBE (buf : list Z) (value : num) (offset byteLength : arg) : res (list Z * Z) :=
  if is_length byteLength 6 then writeU_Int48BE buf value offset 0 0xffffffffffff
  else if is_length byteLength 5 then writeU_Int40BE buf value offset 0 0xffffffffff
  else if is_length byteLength 3 then writeU_Int24BE buf value offset 0 0xffffff
  else if is_length byteLength 4 then writeU_Int32BE buf value offset 0 0xffffffff
  else if is_length byteLength 2 then writeU_Int16BE buf value offset 0 0xffff
  else if is_length byteLength 1 then writeU_Int8 buf value offset 0 0xff
  else inl (no_length byteLength).

Definition writeIntLE (buf : list Z) (value : num) (offset byteLength : arg) : res (list Z * Z) :=
  if is_length byteLength 6 then writeU_Int48LE buf value offset (-0x800000000000) 0x7fffffffffff
  else if is_length byteLength 5 then writeU_Int40LE buf value offset (-0x8000000000) 0x7fffffffff
  else if is_length byteLength 3 then writeU_Int24LE buf value offset (-0x800000) 0x7fffff
  else if is_length byteLength 4 then writeU_Int32LE buf value offset (-0x80000000) 0x7fffffff
  else if is_length byteLength 2 then writeU_Int16LE buf value offset (-0x8000) 0x7fff
  else if is_length byteLength 1 then writeU_Int8 buf value offset (-0x80) 0x7f
  else inl (no_length byteLength).

Definition writeIntBE (buf : list Z) (value : num) (offset byteLength : arg) : res (list Z * Z) :=
  if is_length byteLength 6 then writeU_Int48BE buf value offset (-0x800000000000) 0x7fffffffffff
  else if is_length byteLength 5 then writeU_Int40BE buf value offset (-0x8000000000) 0x7fffffffff
  else if is_length byteLength 3 then writeU_Int24BE buf value offset (-0x800000) 0x7fffff
  else if is_length byteLength 4 then writeU_Int32BE buf value offset (-0x80000000) 0x7fffffff
  else if is_length byteLength 2 then writeU_Int16BE buf value offset (-0x8000) 0x7fff
  else if is_length byteLength 1 then writeU_Int8 buf value offset (-0x80) 0x7f
  else inl (no_length byteLength).

(** The methods of a fixed width. *)
Definition writeUInt8 buf value offset := writeU_Int8 buf value (or_zero offset) 0 0xff.
Definition writeUInt16LE buf value offset := writeU_Int16LE buf value (or_zero offset) 0 0xffff.
Definition writeUInt16BE buf value offset := writeU_Int16BE buf value (or_zero offset) 0 0xffff.
Definition writeUInt32LE buf value offset := _writeUInt32LE buf value (or_zero offset) 0 0xffffffff.
Definition writeUInt32BE buf value offset := _writeUInt32BE buf value (or_zero offset) 0 0xffffffff.
Definition writeInt8 buf value offset := writeU_Int8 buf value (or_zero offset) (-0x80) 0x7f.
Definition writeInt16LE buf value offset := writeU_Int16LE buf value (or_zero offset) (-0x8000) 0x7fff.
Definition writeInt16BE buf value offset := writeU_Int16BE buf value (or_zero offset) (-0x8000) 0x7fff.
Definition writeInt32LE buf value offset := writeU_Int32LE buf value (or_zero offset) (-0x80000000) 0x7fffffff.
Definition writeInt32BE buf value offset := writeU_Int32BE buf value (or_zero offset) (-0x80000000) 0x7fffffff.

(** Eight bytes; the value is a bigint. *)
Definition wrtBigUInt64LE (buf : list Z) (value : Z) (offset : arg) (min max : Z) : res (list Z * Z) :=
  let! i := checkIntBI value min max buf offset 7 in
  let lo := Z.land value 4294967295 in
  let buf := set_at i lo buf in
  let lo := js_sar lo 8 in
  let buf := set_at (i + 1) lo buf in
  let lo := js_sar lo 8 in
  let buf := set_at (i + 2) lo buf in
  let lo := js_sar lo 8 in
  let buf := set_at (i + 3) lo buf in
  let hi := Z.land (Z.shiftr value 32) 4294967295 in
  let buf := set_at (i + 4) hi buf in
  let hi := js_sar hi 8 in
  let buf := set_at (i + 5) hi buf in
  let hi := js_sar hi 8 in
  let buf := set_at (i + 6) hi buf in
  let hi := js_sar hi 8 in
  inr (set_at (i + 7) hi buf, i + 8).

Definition wrtBigUInt64BE (buf : list Z) (value : Z) (offset : arg) (min max : Z) : res (list Z * Z) :=
  let! i := checkIntBI value min max buf offset 7 in
  let lo := Z.land value 4294967295 in
  let buf := set_at (i + 7) lo buf in
  let lo := js_sar lo 8 in
  let buf := set_at (i + 6) lo buf in
  let lo := js_sar lo 8 in
  let buf := set_at (i + 5) lo buf in
  let lo := js_sar lo 8 in
  let buf := set_at (i + 4) lo buf in
  let hi := Z.land (Z.shiftr value 32) 4294967295 in
  let buf := set_at (i + 3) hi buf in
  let hi := js_sar hi 8 in
  let buf := set_at (i + 2) hi buf in
  let hi := js_sar hi 8 in
  let buf := set_at (i + 1) hi buf in
  let hi := js_sar hi 8 in
  inr (set_at i hi buf, i + 8).

Definition writeBigUInt64LE buf value offset := wrtBigUInt64LE buf value (or_zero offset) 0 0xffffffffffffffff.
Definition writeBigUInt64BE buf value offset := wrtBigUInt64BE buf value (or_zero offset) 0 0xffffffffffffffff.
Definition writeBigInt64LE buf value offset := wrtBigUInt64LE buf value (or_zero offset) (-0x8000000000000000) 0x7fffffffffffffff.
Definition writeBigInt64BE buf value offset := wrtBigUInt64BE buf value (or_zero offset) (-0x8000000000000000) 0x7fffffffffffffff.

(** ** Examples *)

Example write_then_read :
  let z := num_of_Z in let at_ i := Number (num_of_Z i) in
  writeIntBE [0; 0; 0; 0; 0; 0; 0] (z (-5)) (at_ 1) (at_ 6) = inr ([0; 255; 255; 255; 255; 255; 251], 7) /\
  readIntBE [0; 255; 255; 255; 255; 255; 251] (at_ 1) (at_ 6) = inr (-5) /\
  readUIntLE [1; 2; 3] (at_ 1) (at_ 3) = inl (OutOfRange "offset" (RBetween 0 0)) /\
  readUIntLE [1; 2] (at_ 0) (at_ 3) = inl OutOfBounds.
Proof. by vm_compute. Qed.

(** A negative fraction is truncated in the low bytes and rounded down in the high
    ones. *)
Lemma fractions_tear : writeIntBE [0; 0; 0; 0; 0; 0] (Fin (-1 # 2)) (Number zero) (Number (num_of_Z 6)) = inr ([255; 255; 0; 0; 0; 0], 6).
Proof. by vm_compute. Qed.
