(* ===== verification/BufferIntsTheorems.v ===== *)
(** * Buffers, integers: theorems

    Reading and writing against a reference: [access] says which offsets are
    allowed and which error an offset gets otherwise, and a number is the value of
    its bytes in base 256. *)

From Stdlib Require Import ZArith Lia QArith Qround Qpower Lqa.
From stdpp Require Import base list numbers strings.
From S2P Require Import Prelude JsNumber BufferInts.

#[local] Open Scope Z_scope.
#[local] Open Scope buf_scope.

(** ** Reference definitions *)

(** The place that an offset names for [n] bytes. *)
Definition access (n : Z) (buf : list Z) (offset : arg) : res Z :=
  let outside := if slen buf <? n then OutOfBounds else OutOfRange "offset" (RBetween 0 (slen buf - n)) in
  match offset with
  | Number x =>
      match index x, x with
      | Some i, _ => if (0 <=? i) && (i + n <=? slen buf) then inr i else inl outside
      | None, Inf _ => inl outside
      | None, _ => inl (OutOfRange "offset" RInteger)
      end
  | _ => inl (InvalidArgType "offset")
  end.

Fixpoint le_value (bs : list Z) : Z := match bs with [] => 0 | b :: bs => b + 256 * le_value bs end.
Fixpoint le_bytes (n : nat) (z : Z) : list Z := match n with O => [] | S n => z mod 256 :: le_bytes n (z / 256) end.

(** The [n] bytes from [i] on, and a buffer with other bytes from [i] on. *)
Definition sub (buf : list Z) (i : Z) (n : nat) : list Z := (fun k => buf !!! Z.to_nat (i + Z.of_nat k)) <$> seq 0 n.
Definition put (i : Z) (bs : list Z) (buf : list Z) : list Z := take (Z.to_nat i) buf ++ bs ++ drop (Z.to_nat i + length bs) buf.

(** The number of [n] bytes in two's complement. *)
Definition signed (n : Z) (z : Z) : Z := if z <? 2 ^ (8 * n - 1) then z else z - 2 ^ (8 * n).

Definition bytes_ok (buf : list Z) : Prop := Forall (fun b => 0 <= b < 256) buf.

(** The widths that [byteLength] may name. *)
Definition width (byteLength : arg) : option Z :=
  match byteLength with
  | Number x => match index x with Some n => if (1 <=? n) && (n <=? 6) then Some n else None | None => None end
  | _ => None
  end.

(** ** Bytes of numbers *)

Lemma le_value_range bs : bytes_ok bs -> 0 <= le_value bs < 256 ^ Z.of_nat (length bs).
Proof.
  induction 1 as [|b bs Hb _ IH]; [done|]. simpl length. rewrite Nat2Z.inj_succ, Z.pow_succ_r by lia. cbn [le_value]. lia.
Qed.

Lemma le_value_bytes n : forall z, le_value (le_bytes n z) = z mod 256 ^ Z.of_nat n.
Proof.
  induction n as [|n IH]; intros z; [by rewrite Z.mod_1_r|]. rewrite Nat2Z.inj_succ, Z.pow_succ_r by lia. cbn [le_bytes le_value].
  rewrite IH. rewrite Z.rem_mul_r; lia.
Qed.

Lemma le_bytes_ok n : forall z, bytes_ok (le_bytes n z).
Proof. induction n as [|n IH]; intros z; constructor; [apply Z.mod_pos_bound; lia|apply IH]. Qed.

Lemma length_le_bytes n : forall z, length (le_bytes n z) = n.
Proof. induction n as [|n IH]; intros z; [done|]. simpl. by rewrite IH. Qed.

Lemma signed_mod n z : 1 <= n -> - 2 ^ (8 * n - 1) <= z < 2 ^ (8 * n - 1) -> signed n (z mod 256 ^ n) = z.
Proof.
  intros Hn Hz. unfold signed. change 256 with (2 ^ 8). rewrite <-Z.pow_mul_r by lia.
  assert (E : 2 ^ (8 * n) = 2 * 2 ^ (8 * n - 1)) by (rewrite <-Z.pow_succ_r by lia; f_equal; lia).
  rewrite E. set (p := 2 ^ (8 * n - 1)) in *. destruct (Z.ltb_spec z 0).
  - rewrite <-(Z.mod_unique z (2 * p) (-1) (z + 2 * p)) by lia. rewrite (proj2 (Z.ltb_ge _ _)) by lia. lia.
  - rewrite Z.mod_small by lia. rewrite (proj2 (Z.ltb_lt _ _)) by lia. done.
Qed.

(** Sign extension with the operators on 32 bits. *)
Lemma to_int32_small z : - 2 ^ 31 <= z < 2 ^ 31 -> to_int32 z = z.
Proof. intros H. unfold to_int32. rewrite Z.mod_small; lia. Qed.

Lemma land_bit v k : 0 <= k -> 0 <= v < 2 ^ (k + 1) -> Z.land v (2 ^ k) = if v <? 2 ^ k then 0 else 2 ^ k.
Proof.
  intros Hk Hv. assert (E : 2 ^ (k + 1) = 2 * 2 ^ k) by (rewrite Z.pow_add_r by lia; lia). rewrite E in Hv.
  assert (Hp : 0 < 2 ^ k) by (apply Z.pow_pos_nonneg; lia).
  apply Z.bits_inj'. intros j Hj. rewrite Z.land_spec, Z.pow2_bits_eqb by lia. destruct (Z.eqb_spec k j) as [<-|Hne].
  - rewrite andb_true_r, Z.testbit_eqb by lia. destruct (Z.ltb_spec v (2 ^ k)).
    + rewrite Z.bits_0, Z.div_small by lia. done.
    + rewrite Z.pow2_bits_true by lia. rewrite <-(Z.div_unique v (2 ^ k) 1 (v - 2 ^ k)) by lia. done.
  - rewrite andb_false_r. destruct (v <? 2 ^ k); [by rewrite Z.bits_0|]. by rewrite Z.pow2_bits_false.
Qed.

Lemma lor_high v w : 0 <= w -> 0 <= v < 2 ^ w -> Z.lor v (- 2 ^ w) = v - 2 ^ w.
Proof.
  intros Hw Hv. assert (Hd : Z.land v (- 2 ^ w) = 0).
  { apply Z.bits_inj'. intros j Hj. rewrite Z.bits_0, Z.land_spec. destruct (Z.ltb_spec j w).
    - replace (- 2 ^ w) with (-1 * 2 ^ w) by lia. rewrite Z.mul_pow2_bits_low by lia. apply andb_false_r.
    - destruct (decide (v = 0)) as [->|]; [by rewrite Z.bits_0|]. assert (Z.log2 v < w) by (apply Z.log2_lt_pow2; lia).
      by rewrite (Z.bits_above_log2 v j) by lia. }
  rewrite <-Z.lxor_lor by done. rewrite <-Z.add_nocarry_lxor by done. lia.
Qed.

Lemma sext n c v : 1 <= n <= 3 -> 0 <= v < 2 ^ (8 * n) -> 2 ^ (8 * n - 1) * c = 2 ^ 32 - 2 ^ (8 * n) ->
  js_or v (js_and v (2 ^ (8 * n - 1)) * c) = signed n v.
Proof.
  intros Hn Hv Hc. assert (Hw : 2 ^ (8 * n) <= 2 ^ 24) by (apply Z.pow_le_mono_r; lia). assert (E : 2 ^ (8 * n) = 2 * 2 ^ (8 * n - 1)) by (rewrite <-Z.pow_succ_r by lia; f_equal; lia).
  assert (Hp : 0 < 2 ^ (8 * n - 1)) by (apply Z.pow_pos_nonneg; lia). unfold js_or, js_and, signed.
  rewrite (to_int32_small v), (to_int32_small (2 ^ (8 * n - 1))) by lia. rewrite land_bit by (try lia; by replace (8 * n - 1 + 1) with (8 * n) by lia).
  destruct (Z.ltb_spec v (2 ^ (8 * n - 1))).
  - rewrite Z.mul_0_l, (to_int32_small 0) by lia. apply Z.lor_0_r.
  - rewrite Hc. replace (to_int32 (2 ^ 32 - 2 ^ (8 * n))) with (- 2 ^ (8 * n)); [by apply lor_high; lia|].
    unfold to_int32. rewrite <-(Z.mod_unique (2 ^ 32 - 2 ^ (8 * n) + 2 ^ 31) (2 ^ 32) 1 (2 ^ 31 - 2 ^ (8 * n))); lia.
Qed.

(** The top byte of 32 bits. *)
Lemma shl_24 b : 0 <= b < 256 -> js_shl b 24 = signed 1 b * 2 ^ 24.
Proof.
  intros Hb. unfold js_shl, signed. rewrite (to_int32_small b), Z.shiftl_mul_pow2 by lia. change (2 ^ (8 * 1 - 1)) with 128. change (2 ^ (8 * 1)) with 256. unfold to_int32.
  destruct (Z.ltb_spec b 128); [rewrite Z.mod_small; lia|].
  rewrite <-(Z.mod_unique (b * 2 ^ 24 + 2 ^ 31) (2 ^ 32) 1 (b * 2 ^ 24 - 2 ^ 31)); lia.
Qed.

(** ** Places *)

Lemma slen_nat (buf : list Z) : slen buf = Z.of_nat (length buf).
Proof. done. Qed.

Lemma access_inv n buf offset i : access n buf offset = inr i -> exists x, offset = Number x /\ index x = Some i /\ 0 <= i /\ i + n <= slen buf.
Proof.
  unfold access. destruct offset as [| |x]; [done..|]. destruct (index x) as [j|] eqn:E; [|by destruct x].
  destruct (Z.leb_spec 0 j); [|done]. destruct (Z.leb_spec (j + n) (slen buf)); [|done]. simpl. intros [= <-]. by exists x.
Qed.

Lemma elem_in buf x i k : index x = Some i -> 0 <= i + k < slen buf -> elem buf x k = Some (buf !!! Z.to_nat (i + k)).
Proof.
  intros Hx Hk. unfold elem. rewrite Hx, (proj2 (Z.leb_le _ _)) by lia. apply list_lookup_lookup_total_lt. rewrite slen_nat in Hk. lia.
Qed.

Lemma byte_in buf x i k : index x = Some i -> 0 <= i + k < slen buf -> byte buf x k = buf !!! Z.to_nat (i + k).
Proof. intros Hx Hk. unfold byte. by rewrite (elem_in buf x i). Qed.

Lemma elem_out buf x i k : index x = Some i -> ~ (0 <= i + k < slen buf) -> elem buf x k = None.
Proof.
  intros Hx Hk. unfold elem. rewrite Hx. destruct (Z.leb_spec 0 (i + k)); [|done]. apply lookup_ge_None. rewrite slen_nat in Hk. lia.
Qed.

Lemma index_none buf x k : index x = None -> elem buf x k = None.
Proof. intros Hx. unfold elem. by rewrite Hx. Qed.

(** The error of a failed check is that of [access]. *)
Lemma access_error n buf x : access n buf (Number x) <> inr (default 0 (index x)) \/ index x = None ->
  access n buf (Number x) = inl (boundsError (Number x) (slen buf - n) None).
Proof.
  intros H. unfold access, boundsError, not_integer in *. simpl. replace (slen buf - n <? 0) with (slen buf <? n) by (destruct (Z.ltb_spec (slen buf) n), (Z.ltb_spec (slen buf - n) 0); lia || done).
  destruct x as [|b|q]; [done..|]. destruct (index (Fin q)) as [i|]; simpl.
  - destruct (_ && _); [|done]. destruct H as [H|H]; [by destruct H|done].
  - done.
Qed.

(** The first lines of the readers. *)
Lemma ends_spec n buf offset : 1 <= n ->
  ends buf offset n = let! i := access n buf offset in
    match offset with Number x => inr (x, buf !!! Z.to_nat i, buf !!! Z.to_nat (i + (n - 1))) | _ => inl OutOfBounds end.
Proof.
  intros Hn. unfold ends. destruct offset as [| |x]; [done..|]. cbn [rbind validateNumber].
  destruct (access n buf (Number x)) as [e|i] eqn:E; cbn [rbind].
  - destruct (index x) as [i|] eqn:Ei.
    + assert (Hout : ~ (0 <= i /\ i + n <= slen buf)).
      { intros [H1 H2]. unfold access in E. rewrite Ei, (proj2 (Z.leb_le 0 i)), (proj2 (Z.leb_le (i + n) _)) in E by lia. done. }
      assert (Eb : inl e = inl (boundsError (Number x) (slen buf - n) None) :> res Z).
      { rewrite <-E. apply access_error. left. rewrite E. done. }
      injection Eb as ->. destruct (decide (0 <= i + 0 < slen buf)) as [H0|H0]; [|by rewrite (elem_out buf x i 0)].
      rewrite (elem_in buf x i 0), (elem_out buf x i (n - 1)) by (done || lia). done.
    + rewrite !index_none by done. f_equal. pose proof (access_error n buf x (or_intror Ei)) as Hx. rewrite E in Hx. by injection Hx.
  - apply access_inv in E as (y & [= <-] & Hx & Hi & Hj). rewrite (elem_in buf x i 0), (elem_in buf x i (n - 1)) by (done || lia). by rewrite Z.add_0_r.
Qed.

Lemma validate_one buf offset : 
  (let! x := validateNumber offset "offset" in
   match elem buf x 0 with Some val => inr val | None => inl (boundsError (Number x) (slen buf - 1) None) end) =
  let! i := access 1 buf offset in inr (buf !!! Z.to_nat i).
Proof.
  pose proof (ends_spec 1 buf offset ltac:(lia)) as H. unfold ends in H. destruct offset as [| |x]; [done..|]. cbn [rbind validateNumber] in *.
  change (1 - 1) with 0 in H. destruct (access 1 buf (Number x)) as [e|i]; cbn [rbind] in *; destruct (elem buf x 0); try done; [by injection H as <-|].
  injection H as -> _. done.
Qed.

(** *** Readers *)

(** What a reader comes to, once its expression is known for offsets in range. *)
Lemma reader_spec (n : nat) (F : num -> Z -> Z -> Z) (G : list Z -> Z) buf offset : (1 <= n)%nat ->
  (forall x i, index x = Some i -> 0 <= i -> i + Z.of_nat n <= slen buf ->
     F x (buf !!! Z.to_nat (i + 0)) (buf !!! Z.to_nat (i + (Z.of_nat n - 1))) = G (sub buf i n)) ->
  (let! (o, first, last) := ends buf offset (Z.of_nat n) in inr (F o first last)) =
  let! i := access (Z.of_nat n) buf offset in inr (G (sub buf i n)).
Proof.
  intros Hn HF. rewrite ends_spec by lia. destruct (access (Z.of_nat n) buf offset) as [e|i] eqn:E; [done|].
  apply access_inv in E as (x & -> & Hx & Hi & Hj). cbn [rbind]. rewrite <-(HF x i Hx Hi Hj). by rewrite Z.add_0_r.
Qed.

Lemma sub_ok buf i n : bytes_ok buf -> 0 <= i -> i + Z.of_nat n <= slen buf -> bytes_ok (sub buf i n).
Proof.
  intros Hb Hi Hn. unfold sub. apply Forall_fmap, Forall_forall. intros k Hk. apply elem_of_seq in Hk. simpl.
  rewrite slen_nat in Hn. unfold bytes_ok in Hb. rewrite Forall_lookup in Hb. apply (Hb (Z.to_nat (i + Z.of_nat k))).
  apply list_lookup_lookup_total_lt. lia.
Qed.

Lemma length_sub buf i n : length (sub buf i n) = n.
Proof. unfold sub. by rewrite length_fmap, length_seq. Qed.

Definition be_value (bs : list Z) : Z := le_value (rev bs).

(** Numerals for the sizes. *)
Ltac norm_nats :=
  repeat match goal with |- context [Z.of_nat ?k] => let v := eval vm_compute in (Z.of_nat k) in change (Z.of_nat k) with v end;
  repeat match goal with |- context [Z.sub (Zpos ?a) 1] => let v := eval vm_compute in (Z.sub (Zpos a) 1) in change (Z.sub (Zpos a) 1) with v end.

(** Bytes in range and their expressions. *)
Ltac reader n G := intros buf offset;
  intros; match goal with |- ?f _ _ = _ => unfold f end;
  (refine (reader_spec n _ G buf _ ltac:(lia) _)); intros x i Hx Hi Hn; cbn [Z.of_nat Pos.of_succ_nat Pos.succ] in *;
  rewrite ?(byte_in buf x i) by (done || lia); unfold be_value, sub; cbn [seq fmap list_fmap rev app le_value Z.of_nat Pos.of_succ_nat Pos.succ];
  rewrite ?Z.add_0_r; norm_nats.

Lemma readUInt16LE_spec : forall buf offset, readUInt16LE buf offset = let! i := access 2 buf (or_zero offset) in inr (le_value (sub buf i 2)).
Proof. reader 2%nat le_value. lia. Qed.

Lemma readUInt24LE_spec : forall buf offset, readUInt24LE buf offset = let! i := access 3 buf (or_zero offset) in inr (le_value (sub buf i 3)).
Proof. reader 3%nat le_value. lia. Qed.

Lemma readUInt32LE_spec : forall buf offset, readUInt32LE buf offset = let! i := access 4 buf (or_zero offset) in inr (le_value (sub buf i 4)).
Proof. reader 4%nat le_value. lia. Qed.

Lemma readUInt40LE_spec : forall buf offset, readUInt40LE buf offset = let! i := access 5 buf (or_zero offset) in inr (le_value (sub buf i 5)).
Proof. reader 5%nat le_value. lia. Qed.

Lemma readUInt48LE_spec : forall buf offset, readUInt48LE buf offset = let! i := access 6 buf (or_zero offset) in inr (le_value (sub buf i 6)).
Proof. reader 6%nat le_value. lia. Qed.

Lemma readUInt16BE_spec : forall buf offset, readUInt16BE buf offset = let! i := access 2 buf (or_zero offset) in inr (be_value (sub buf i 2)).
Proof. reader 2%nat be_value. lia. Qed.

Lemma readUInt24BE_spec : forall buf offset, readUInt24BE buf offset = let! i := access 3 buf (or_zero offset) in inr (be_value (sub buf i 3)).
Proof. reader 3%nat be_value. lia. Qed.

Lemma readUInt32BE_spec : forall buf offset, readUInt32BE buf offset = let! i := access 4 buf (or_zero offset) in inr (be_value (sub buf i 4)).
Proof. reader 4%nat be_value. lia. Qed.

Lemma readUInt40BE_spec : forall buf offset, readUInt40BE buf offset = let! i := access 5 buf (or_zero offset) in inr (be_value (sub buf i 5)).
Proof. reader 5%nat be_value. lia. Qed.

Lemma readUInt48BE_spec : forall buf offset, readUInt48BE buf offset = let! i := access 6 buf (or_zero offset) in inr (be_value (sub buf i 6)).
Proof. reader 6%nat be_value. lia. Qed.

Lemma readUInt8_spec buf offset : readUInt8 buf offset = let! i := access 1 buf (or_zero offset) in inr (le_value (sub buf i 1)).
Proof.
  unfold readUInt8. rewrite validate_one. destruct (access 1 buf _) as [e|i]; [done|]. cbn. by rewrite !Z.add_0_r.
Qed.

(** Signed readers: the value of the bytes in two's complement. *)
Lemma signed_split n hi lo : 1 <= n -> 0 <= hi < 2 ^ (8 * n) -> 0 <= lo < 2 ^ 32 -> signed n hi * 2 ^ 32 + lo = signed (n + 4) (hi * 2 ^ 32 + lo).
Proof.
  intros Hn Hh Hl. unfold signed. replace (8 * (n + 4) - 1) with (8 * n - 1 + 32) by lia. replace (8 * (n + 4)) with (8 * n + 32) by lia.
  rewrite !Z.pow_add_r by lia. set (p := 2 ^ (8 * n - 1)). set (q := 2 ^ (8 * n)). destruct (Z.ltb_spec hi p), (Z.ltb_spec (hi * 2 ^ 32 + lo) (p * 2 ^ 32)); lia.
Qed.

Lemma signed_top b lo : 0 <= b < 256 -> 0 <= lo < 2 ^ 24 -> signed 1 b * 2 ^ 24 + lo = signed 4 (b * 2 ^ 24 + lo).
Proof.
  intros Hb Hl. unfold signed. change (2 ^ (8 * 1 - 1)) with 128. change (2 ^ (8 * 1)) with 256. change (2 ^ (8 * 4 - 1)) with (128 * 2 ^ 24). change (2 ^ (8 * 4)) with (256 * 2 ^ 24).
  destruct (Z.ltb_spec b 128), (Z.ltb_spec (b * 2 ^ 24 + lo) (128 * 2 ^ 24)); lia.
Qed.

Lemma byte_bounds buf i k : bytes_ok buf -> 0 <= i + k < slen buf -> 0 <= buf !!! Z.to_nat (i + k) < 256.
Proof.
  intros Hb Hk. unfold bytes_ok in Hb. rewrite Forall_lookup in Hb. apply (Hb (Z.to_nat (i + k))). apply list_lookup_lookup_total_lt. rewrite slen_nat in Hk. lia.
Qed.

(** The bounds of all bytes in the goal. *)
Ltac bounds Hb i n := match n with
  | O => pose proof (byte_bounds _ i 0 Hb ltac:(lia)) as X0; rewrite Z.add_0_r in X0
  | S ?m => bounds Hb i m; let k := eval vm_compute in (Z.of_nat n) in pose proof (byte_bounds _ i k Hb ltac:(lia))
  end.

Lemma readInt8_spec buf offset : bytes_ok buf -> readInt8 buf offset = let! i := access 1 buf (or_zero offset) in inr (signed 1 (le_value (sub buf i 1))).
Proof.
  intros Hb. pose proof (validate_one buf (or_zero offset)) as H. unfold readInt8. destruct (or_zero offset) as [| |x]; [done..|]. cbn [rbind validateNumber] in *.
  destruct (access 1 buf (Number x)) as [e|i] eqn:E; cbn [rbind] in *; destruct (elem buf x 0) as [v|]; try done.
  apply access_inv in E as (y & [= <-] & Hx & Hi & Hn). injection H as ->. cbn. rewrite !Z.add_0_r. f_equal. bounds Hb i 0%nat. apply (sext 1 0x1fffffe); [lia|done|done].
Qed.

Lemma readInt16LE_spec : forall buf offset, bytes_ok buf -> readInt16LE buf offset = let! i := access 2 buf (or_zero offset) in inr (signed 2 (le_value (sub buf i 2))).
Proof. reader 2%nat (fun bs => signed 2 (le_value bs)). bounds H i 1%nat. change (2 ^ 15) with (2 ^ (8 * 2 - 1)). rewrite (sext 2 0x1fffe) by (reflexivity || lia). f_equal. lia. Qed.

Lemma readInt24LE_spec : forall buf offset, bytes_ok buf -> readInt24LE buf offset = let! i := access 3 buf (or_zero offset) in inr (signed 3 (le_value (sub buf i 3))).
Proof. reader 3%nat (fun bs => signed 3 (le_value bs)). bounds H i 2%nat. change (2 ^ 23) with (2 ^ (8 * 3 - 1)). rewrite (sext 3 0x1fe) by (reflexivity || lia). f_equal. lia. Qed.

Lemma readInt32LE_spec : forall buf offset, bytes_ok buf -> readInt32LE buf offset = let! i := access 4 buf (or_zero offset) in inr (signed 4 (le_value (sub buf i 4))).
Proof. reader 4%nat (fun bs => signed 4 (le_value bs)). bounds H i 3%nat. rewrite shl_24 by done. rewrite Z.add_comm, signed_top by lia. f_equal. lia. Qed.

Lemma readInt40LE_spec : forall buf offset, bytes_ok buf -> readInt40LE buf offset = let! i := access 5 buf (or_zero offset) in inr (signed 5 (le_value (sub buf i 5))).
Proof.
  reader 5%nat (fun bs => signed 5 (le_value bs)). bounds H i 4%nat. change (2 ^ 7) with (2 ^ (8 * 1 - 1)). rewrite (sext 1 0x1fffffe) by (reflexivity || lia).
  rewrite <-!Z.add_assoc, (signed_split 1) by lia. f_equal. lia.
Qed.

Lemma readInt48LE_spec : forall buf offset, bytes_ok buf -> readInt48LE buf offset = let! i := access 6 buf (or_zero offset) in inr (signed 6 (le_value (sub buf i 6))).
Proof.
  reader 6%nat (fun bs => signed 6 (le_value bs)). bounds H i 5%nat. change (2 ^ 15) with (2 ^ (8 * 2 - 1)). rewrite (sext 2 0x1fffe) by (reflexivity || lia).
  rewrite <-!Z.add_assoc, (signed_split 2) by lia. f_equal. lia.
Qed.

Lemma readInt16BE_spec : forall buf offset, bytes_ok buf -> readInt16BE buf offset = let! i := access 2 buf (or_zero offset) in inr (signed 2 (be_value (sub buf i 2))).
Proof. reader 2%nat (fun bs => signed 2 (be_value bs)). bounds H i 1%nat. change (2 ^ 15) with (2 ^ (8 * 2 - 1)). rewrite (sext 2 0x1fffe) by (reflexivity || lia). f_equal. lia. Qed.

Lemma readInt24BE_spec : forall buf offset, bytes_ok buf -> readInt24BE buf offset = let! i := access 3 buf (or_zero offset) in inr (signed 3 (be_value (sub buf i 3))).
Proof. reader 3%nat (fun bs => signed 3 (be_value bs)). bounds H i 2%nat. change (2 ^ 23) with (2 ^ (8 * 3 - 1)). rewrite (sext 3 0x1fe) by (reflexivity || lia). f_equal. lia. Qed.

Lemma readInt32BE_spec : forall buf offset, bytes_ok buf -> readInt32BE buf offset = let! i := access 4 buf (or_zero offset) in inr (signed 4 (be_value (sub buf i 4))).
Proof. reader 4%nat (fun bs => signed 4 (be_value bs)). bounds H i 3%nat. rewrite shl_24 by done. rewrite <-!Z.add_assoc, signed_top by lia. f_equal. lia. Qed.

Lemma readInt40BE_spec : forall buf offset, bytes_ok buf -> readInt40BE buf offset = let! i := access 5 buf (or_zero offset) in inr (signed 5 (be_value (sub buf i 5))).
Proof.
  reader 5%nat (fun bs => signed 5 (be_value bs)). bounds H i 4%nat. change (2 ^ 7) with (2 ^ (8 * 1 - 1)). rewrite (sext 1 0x1fffffe) by (reflexivity || lia).
  rewrite <-!Z.add_assoc, (signed_split 1) by lia. f_equal. lia.
Qed.

Lemma readInt48BE_spec : forall buf offset, bytes_ok buf -> readInt48BE buf offset = let! i := access 6 buf (or_zero offset) in inr (signed 6 (be_value (sub buf i 6))).
Proof.
  reader 6%nat (fun bs => signed 6 (be_value bs)). bounds H i 5%nat. change (2 ^ 15) with (2 ^ (8 * 2 - 1)). rewrite (sext 2 0x1fffe) by (reflexivity || lia).
  rewrite <-!Z.add_assoc, (signed_split 2) by lia. f_equal. lia.
Qed.

Lemma readBigUInt64LE_spec : forall buf offset, readBigUInt64LE buf offset = let! i := access 8 buf (offset_uint32 offset) in inr (le_value (sub buf i 8)).
Proof. reader 8%nat le_value. rewrite Z.shiftl_mul_pow2 by lia. lia. Qed.

Lemma readBigInt64LE_spec : forall buf offset, bytes_ok buf ->
  readBigInt64LE buf offset = let! i := access 8 buf (offset_uint32 offset) in inr (signed 8 (le_value (sub buf i 8))).
Proof.
  reader 8%nat (fun bs => signed 8 (le_value bs)). bounds H i 7%nat. rewrite shl_24, Z.shiftl_mul_pow2 by lia.
  rewrite (Z.add_comm _ (signed 1 _ * _)), signed_top, (signed_split 4) by lia. f_equal. lia.
Qed.

Lemma readBigUInt64BE_spec : forall buf offset, readBigUInt64BE buf offset = let! i := access 8 buf (offset_uint32 offset) in inr (be_value (sub buf i 8)).
Proof. reader 8%nat be_value. rewrite Z.shiftl_mul_pow2 by lia. lia. Qed.

Lemma readBigInt64BE_spec : forall buf offset, bytes_ok buf ->
  readBigInt64BE buf offset = let! i := access 8 buf (offset_uint32 offset) in inr (signed 8 (be_value (sub buf i 8))).
Proof.
  reader 8%nat (fun bs => signed 8 (be_value bs)). bounds H i 7%nat. rewrite shl_24, Z.shiftl_mul_pow2 by lia.
  rewrite <-(Z.add_assoc (signed 1 _ * _ + _)), <-(Z.add_assoc (signed 1 _ * _)), signed_top, (signed_split 4) by lia. f_equal. lia.
Qed.

(** *** The readers of a given width *)

Lemma width_cases byteLength n : width byteLength = Some n ->
  (n = 1 \/ n = 2 \/ n = 3 \/ n = 4 \/ n = 5 \/ n = 6) /\ forall m, is_length byteLength m = (n =? m).
Proof.
  unfold width, is_length. destruct byteLength as [| |x]; [done..|]. destruct (index x) as [k|]; [|done].
  destruct (Z.leb_spec 1 k); [|done]. destruct (Z.leb_spec k 6); [|done]. intros [= <-]. split; [lia|]. intros m.
  destruct (Z.eqb_spec k m) as [->|]; [by rewrite bool_decide_eq_true_2|]. rewrite bool_decide_eq_false_2; [done|]. congruence.
Qed.

Lemma width_none byteLength m : width byteLength = None -> 1 <= m <= 6 -> is_length byteLength m = false.
Proof.
  unfold width, is_length. destruct byteLength as [| |x]; [done..|]. intros H Hm. apply bool_decide_eq_false_2. intros E. rewrite E in H.
  rewrite (proj2 (Z.leb_le 1 m)), (proj2 (Z.leb_le m 6)) in H by lia. done.
Qed.

(** The error of a width that is none. *)
Definition length_error (byteLength : arg) : buf_error :=
  match byteLength with
  | Number x => match index x, x with None, Fin _ | None, NaN => OutOfRange "byteLength" RInteger | _, _ => OutOfRange "byteLength" (RBetween 1 6) end
  | _ => InvalidArgType "byteLength"
  end.

Lemma no_length_spec byteLength : no_length byteLength = length_error byteLength.
Proof.
  unfold no_length, boundsError, length_error, not_integer. destruct byteLength as [| |x]; [done..|]. destruct x as [|b|q]; [done..|].
  by destruct (index (Fin q)).
Qed.

(** What a reader of [n] bytes should return. *)
Definition read_reference (value : Z -> list Z -> Z) (buf : list Z) (offset byteLength : arg) : res Z :=
  match offset with
  | Undefined => inl (InvalidArgType "offset")
  | _ =>
      match width byteLength with
      | Some n => let! i := access n buf offset in inr (value n (sub buf i (Z.to_nat n)))
      | None => inl (length_error byteLength)
      end
  end.

(** A choice by width agrees with the reference when each case does. *)
Lemma by_width (value : Z -> list Z -> Z) (r : Z -> res Z) buf offset byteLength :
  (forall n, 1 <= n <= 6 -> r n = let! i := access n buf (or_zero offset) in inr (value n (sub buf i (Z.to_nat n)))) ->
  (let! _ := required offset in
   if is_length byteLength 6 then r 6 else if is_length byteLength 5 then r 5 else if is_length byteLength 3 then r 3
   else if is_length byteLength 4 then r 4 else if is_length byteLength 2 then r 2 else if is_length byteLength 1 then r 1
   else inl (no_length byteLength)) = read_reference value buf offset byteLength.
Proof.
  intros Hr. unfold read_reference. destruct offset as [| |x]; [done| |]; cbn [rbind required or_zero] in *.
  all: destruct (width byteLength) as [n|] eqn:E;
    [destruct (width_cases _ _ E) as [Hn Hl]; rewrite !Hl; destruct Hn as [->|[->|[->|[->|[->| ->]]]]]; simpl; by rewrite Hr by lia
    |rewrite !(width_none byteLength) by (done || lia); by rewrite no_length_spec].
Qed.

(** *** Writing *)

Lemma length_put i bs buf : 0 <= i -> i + slen bs <= slen buf -> length (put i bs buf) = length buf.
Proof. intros Hi Hn. unfold put. rewrite !slen_nat in Hn. rewrite !length_app, length_take, length_drop. lia. Qed.

Lemma put_lookup i bs buf k : 0 <= i -> i + slen bs <= slen buf ->
  put i bs buf !! k = if bool_decide (Z.to_nat i <= k < Z.to_nat i + length bs)%nat then bs !! (k - Z.to_nat i)%nat else buf !! k.
Proof.
  intros Hi Hn. rewrite !slen_nat in Hn. unfold put. assert (Ht : length (take (Z.to_nat i) buf) = Z.to_nat i) by (rewrite length_take; lia).
  case_bool_decide as Hk.
  - rewrite lookup_app_r by lia. rewrite lookup_app_l by lia. by rewrite Ht.
  - destruct (decide (k < Z.to_nat i)%nat).
    + rewrite lookup_app_l by lia. by rewrite lookup_take_lt.
    + rewrite lookup_app_r by lia. rewrite lookup_app_r by lia. rewrite lookup_drop, Ht. f_equal. lia.
Qed.

(** Two puts side by side are one, in either order. *)
Lemma put_up i j a b buf : 0 <= i -> j = i + slen a -> j + slen b <= slen buf -> put j b (put i a buf) = put i (a ++ b) buf.
Proof.
  intros Hi -> Hn. apply list_eq. intros k. rewrite !slen_nat in *. 
  assert (Hl : slen (put i a buf) = slen buf) by (rewrite !slen_nat, length_put by (rewrite ?slen_nat; lia); done).
  rewrite put_lookup by (rewrite ?Hl, ?slen_nat; lia). rewrite !put_lookup by (rewrite ?slen_nat, ?length_app; lia). rewrite length_app.
  repeat case_bool_decide; try lia; [by rewrite lookup_app_r by lia; f_equal; lia|by rewrite lookup_app_l by lia|done].
Qed.

Lemma put_down i j a b buf : 0 <= i -> j = i + slen a -> j + slen b <= slen buf -> put i a (put j b buf) = put i (a ++ b) buf.
Proof.
  intros Hi -> Hn. apply list_eq. intros k. rewrite !slen_nat in *.
  assert (Hl : slen (put (i + Z.of_nat (length a)) b buf) = slen buf) by (rewrite !slen_nat, length_put by (rewrite ?slen_nat; lia); done).
  rewrite put_lookup by (rewrite ?Hl, ?slen_nat; lia). rewrite !put_lookup by (rewrite ?slen_nat, ?length_app; lia). rewrite length_app.
  repeat case_bool_decide; try lia; [by rewrite lookup_app_l by lia|by rewrite lookup_app_r by lia; f_equal; lia|done].
Qed.

Lemma set_at_put i v buf : 0 <= i < slen buf -> set_at i v buf = put i [v mod 256] buf.
Proof.
  intros Hi. unfold set_at, put. rewrite slen_nat in Hi. change (2 ^ 8) with 256. rewrite insert_take_drop by lia. simpl. f_equal. f_equal. f_equal. lia.
Qed.

Lemma num_trunc_Z z : num_trunc (num_of_Z z) = z.
Proof.
  unfold num_trunc, num_of_Z, qtrunc. simpl Qnum. change (- inject_Z z)%Q with (inject_Z (- z)). rewrite !Qfloor_Z. destruct (z <? 0); lia.
Qed.

Lemma set_num_put i v buf : 0 <= i < slen buf -> set_num i (num_of_Z v) buf = put i [v mod 256] buf.
Proof. intros Hi. unfold set_num. rewrite num_trunc_Z. by apply set_at_put. Qed.

Lemma js_ushr_Z z : js_ushr (num_of_Z z) 8 = num_of_Z (z mod 2 ^ 32 / 256).
Proof. unfold js_ushr, to_uint32. rewrite num_trunc_Z, Z.shiftr_div_pow2 by lia. done. Qed.

Lemma js_ushr_small u : 0 <= u < 2 ^ 32 -> js_ushr (num_of_Z u) 8 = num_of_Z (u / 256).
Proof. intros H. by rewrite js_ushr_Z, Z.mod_small. Qed.

Lemma le_bytes_mod n z : le_bytes n (z mod 256 ^ Z.of_nat n) = le_bytes n z.
Proof.
  revert z. induction n as [|n IH]; intros z; [done|]. rewrite Nat2Z.inj_succ, Z.pow_succ_r by lia. cbn [le_bytes].
  assert (0 < 256 ^ Z.of_nat n) by (apply Z.pow_pos_nonneg; lia).
  rewrite Z.rem_mul_r by lia. f_equal.
  - rewrite Z.mul_comm, Z_mod_plus_full. apply Z.mod_mod. lia.
  - rewrite <-(IH (z / 256)). f_equal. rewrite Z.mul_comm, Z.div_add by lia. rewrite Z.div_small by (apply Z.mod_pos_bound; lia). done.
Qed.

Lemma le_bytes_app n m : forall z, le_bytes (n + m) z = le_bytes n z ++ le_bytes m (z / 256 ^ Z.of_nat n).
Proof.
  induction n as [|n IH]; intros z; [by rewrite Z.div_1_r|]. simpl plus. cbn [le_bytes app]. rewrite IH. f_equal. f_equal. f_equal.
  rewrite Nat2Z.inj_succ, Z.pow_succ_r by lia. apply Z.div_div; [lia|apply Z.pow_pos_nonneg; lia].
Qed.

(** [high_part] of an integer. *)
Lemma high_part_Z z : Z.abs z < 2 ^ 50 -> high_part (num_of_Z z) = num_of_Z (z / 2 ^ 32).
Proof.
  intros Hz. unfold high_part, num_of_Z. set (q := (inject_Z z * pow2 (-32))%Q). assert (Hq : q = (z * 1 # 4294967296)%Q) by done.
  assert (Hfl : Qfloor q = z / 2 ^ 32) by (rewrite Hq; unfold Qfloor; by rewrite Z.mul_1_r).
  assert (Hr : exists r, round64 q = Fin r /\ (r == q)%Q).
  { unfold round64. replace (Qnum q) with (z * 1) by done. destruct (Z.eqb_spec (z * 1) 0) as [E|E]; [exists 0%Q; split; [done|]; rewrite Hq; unfold Qeq; simpl; lia|].
    set (s := Z.min _ _). assert (Hs : 33 <= s).
    { unfold s. apply Z.min_glb; [|lia]. assert (qlog2 (Qabs.Qabs q) <= 19); [|lia]. rewrite Hq. unfold qlog2. simpl Qnum. simpl Qden.
      assert (Z.log2 (Z.abs (z * 1)) <= 50) by (replace 50 with (Z.log2 (2 ^ 50)) by done; apply Z.log2_le_mono; lia).
      change (Z.log2 4294967296) with 32. destruct (Qle_bool _ _); lia. }
    assert (Hm : (q * pow2 s == inject_Z (z * 2 ^ (s - 32)))%Q).
    { unfold q. rewrite <-Qmult_assoc. unfold pow2. rewrite <-Qpower_plus by (intros [=]). replace (-32 + s) with (s - 32) by lia.
      rewrite inject_Z_mult. f_equiv. apply pow2_Z. lia. }
    rewrite (nearest_even_proper _ _ Hm), nearest_even_Z. set (r := (inject_Z (z * 2 ^ (s - 32)) * pow2 (- s))%Q).
    assert (Er : (r == q)%Q) by (unfold r; rewrite <-Hm, <-Qmult_assoc, pow2_opp; ring).
    replace (Qle_bool (pow2 1024) (Qabs.Qabs r)) with false; [exists (Qred r); split; [done|]; by rewrite Qred_correct|].
    symmetry. apply not_true_is_false. intros X%Qle_bool_true. rewrite Er in X. rewrite pow2_Z in X by lia.
    assert (Hb : (Qabs.Qabs q <= inject_Z (2 ^ 50))%Q) by (rewrite Hq; unfold Qle; simpl; lia).
    assert (Hc : (inject_Z (2 ^ 1024) <= inject_Z (2 ^ 50))%Q) by (eapply Qle_trans; [exact X|exact Hb]). rewrite <-Zle_Qle in Hc.
    assert (2 ^ 50 < 2 ^ 1024) by reflexivity. lia. }
  destruct Hr as (r & -> & Er). by rewrite (Qfloor_comp _ _ Er), Hfl.
Qed.

Lemma checkBounds_spec buf offset k : 0 <= k -> checkBounds buf offset k = access (k + 1) buf offset.
Proof.
  intros Hk. pose proof (ends_spec (k + 1) buf offset ltac:(lia)) as H. unfold ends in H. unfold checkBounds. destruct offset as [| |x]; [done..|].
  cbn [rbind validateNumber] in *. replace (k + 1 - 1) with k in H by lia. destruct (access (k + 1) buf (Number x)) as [e|i] eqn:E; cbn [rbind] in H.
  - assert (He : forall a b : buf_error, inl a = inl b :> res (num * Z * Z) -> inl a = inl b :> res Z) by (intros a b [= ->]; done).
    destruct (elem buf x 0); [|by apply He]. destruct (elem buf x k); [done|by apply He].
  - apply access_inv in E as (y & [= <-] & Hx & _). destruct (elem buf x 0); [|done]. destruct (elem buf x k); [|done]. by rewrite Hx.
Qed.

Definition in_range (min z max : Z) : bool := (min <=? z) && (z <=? max).

Lemma range_test min z max : num_lt (num_of_Z max) (num_of_Z z) || num_lt (num_of_Z z) (num_of_Z min) = negb (in_range min z max).
Proof. rewrite !num_lt_Z. unfold in_range. destruct (Z.ltb_spec max z), (Z.ltb_spec z min), (Z.leb_spec min z), (Z.leb_spec z max); lia || done. Qed.

Lemma checkInt_spec z min max buf offset k : 0 <= k ->
  checkInt (num_of_Z z) min max buf offset k = if in_range min z max then access (k + 1) buf offset else inl (OutOfRange "value" (value_range min max k)).
Proof. intros Hk. unfold checkInt. rewrite range_test. destruct (in_range min z max); [by apply checkBounds_spec|done]. Qed.

Lemma low_bytes z : let u := z mod 2 ^ 32 in le_bytes 4 z = [z mod 256; u / 256 mod 256; u / 256 / 256 mod 256; u / 256 / 256 / 256 mod 256].
Proof.
  intros u. rewrite <-(le_bytes_mod 4 z). change (256 ^ Z.of_nat 4) with (2 ^ 32). fold u. cbn [le_bytes]. f_equal. unfold u.
  change (2 ^ 32) with (256 * 2 ^ 24). rewrite Z.rem_mul_r by lia. rewrite Z.mul_comm, Z_mod_plus_full. apply Z.mod_mod. lia.
Qed.

(** The three bytes above the lowest of four. *)
Ltac ushrs z := rewrite !(js_ushr_Z z); pose proof (Z.mod_pos_bound z (2 ^ 32) ltac:(lia)) as Hu; set (u := z mod 2 ^ 32) in *;
  assert (Hu1 : 0 <= u / 256 < 2 ^ 32) by (split; [apply Z.div_pos; lia|apply Z.div_lt_upper_bound; lia]);
  assert (Hu2 : 0 <= u / 256 / 256 < 2 ^ 32) by (split; [apply Z.div_pos; lia|apply Z.div_lt_upper_bound; lia]);
  rewrite ?(js_ushr_small (u / 256)), ?(js_ushr_small (u / 256 / 256)) by done.

(** Puts that follow each other. *)
Lemma length_put_slen i bs buf : 0 <= i -> i + slen bs <= slen buf -> slen (put i bs buf) = slen buf.
Proof. intros Hi Hn. rewrite (slen_nat (put i bs buf)), length_put by done. done. Qed.

Lemma slen_set_num i x buf : slen (set_num i x buf) = slen buf.
Proof. rewrite !slen_nat. unfold set_num, set_at. by rewrite length_insert. Qed.

Lemma set_put_up i j v a buf : 0 <= i -> j = i + slen a -> j < slen buf -> set_num j (num_of_Z v) (put i a buf) = put i (a ++ [v mod 256]) buf.
Proof.
  intros Hi Hj Hn. assert (H0 : 0 <= slen a) by apply slen_nonneg. rewrite set_num_put by (rewrite length_put_slen by lia; lia).
  apply put_up; [done|done|]. rewrite slen_cons, slen_nil. lia.
Qed.

Lemma set_put_down i j v a buf : 0 <= i -> j = i + 1 -> j + slen a <= slen buf -> set_num i (num_of_Z v) (put j a buf) = put i (v mod 256 :: a) buf.
Proof.
  intros Hi Hj Hn. assert (H0 : 0 <= slen a) by apply slen_nonneg. rewrite set_num_put by (rewrite length_put_slen by lia; lia).
  rewrite put_down; [done|done| |done]. rewrite slen_cons, slen_nil. lia.
Qed.

Ltac sizes := rewrite ?slen_app, ?slen_cons, ?slen_nil; lia.
Ltac puts buf := rewrite (set_num_put _ _ buf) by lia; repeat first [rewrite set_put_up by sizes | rewrite set_put_down by sizes]; cbn [app].

Lemma low_up_spec i z buf : 0 <= i -> i + 4 <= slen buf -> low_up i (num_of_Z z) buf = put i (le_bytes 4 z) buf.
Proof. intros Hi Hn. unfold low_up. cbv zeta. rewrite low_bytes. cbv zeta. ushrs z. puts buf. done. Qed.

Lemma low_down_spec i z buf : 0 <= i -> i + 4 <= slen buf -> low_down i (num_of_Z z) buf = put i (rev (le_bytes 4 z)) buf.
Proof. intros Hi Hn. unfold low_down. cbv zeta. rewrite low_bytes. cbv zeta. ushrs z. puts buf. done. Qed.

(** What a writer of [n] bytes should do with an integer. *)
Definition write_at (order : list Z -> list Z) (n : nat) (buf : list Z) (z : Z) (offset : arg) (min max : Z) : res (list Z * Z) :=
  if in_range min z max then let! i := access (Z.of_nat n) buf offset in inr (put i (order (le_bytes n z)) buf, i + Z.of_nat n)
  else inl (OutOfRange "value" (value_range min max (Z.of_nat n - 1))).

(** A writer, once its bytes are known for offsets in range. *)
Lemma writer_spec (n : nat) (k : Z) order buf z offset min max (F : Z -> list Z * Z) : k = Z.of_nat n - 1 -> 0 <= k ->
  (in_range min z max = true -> forall i, 0 <= i -> i + Z.of_nat n <= slen buf -> F i = (put i (order (le_bytes n z)) buf, i + Z.of_nat n)) ->
  (let! i := checkInt (num_of_Z z) min max buf offset k in inr (F i)) = write_at order n buf z offset min max.
Proof.
  intros -> Hk HF. unfold write_at. rewrite checkInt_spec by done. replace (Z.of_nat n - 1 + 1) with (Z.of_nat n) by lia.
  destruct (in_range min z max); [|done]. destruct (access _ _ _) as [e|i] eqn:E; [done|]. apply access_inv in E as (x & _ & _ & Hi & Hn).
  cbn [rbind]. by rewrite (HF eq_refl i).
Qed.

Ltac writer n := let Hr := fresh "Hr" in
  match goal with |- ?f _ _ _ _ _ = write_at ?o _ _ _ _ _ _ => unfold f; apply (writer_spec n _ o); [done|done|]; intros Hr i Hi Hn; norm_nats;
    repeat match goal with H : context [Z.of_nat ?k] |- _ => let v := eval vm_compute in (Z.of_nat k) in change (Z.of_nat k) with v in H end end.

Lemma slen_le_bytes n z : slen (le_bytes n z) = Z.of_nat n.
Proof. by rewrite slen_nat, length_le_bytes. Qed.

Lemma slen_rev (l : list Z) : slen (rev l) = slen l.
Proof. by rewrite !slen_nat, length_rev. Qed.

Section Writers.
Context (buf : list Z) (z : Z) (offset : arg) (min max : Z).

Lemma write16LE_spec : writeU_Int16LE buf (num_of_Z z) offset min max = write_at id 2 buf z offset min max.
Proof.
  writer 2%nat. f_equal. rewrite <-(le_bytes_mod 2 z). rewrite le_bytes_mod. pose proof (low_bytes z) as L. cbv zeta in L. cbn [le_bytes] in L |- *. injection L as L1 _ _.
  rewrite L1. ushrs z. puts buf. done.
Qed.

Lemma write16BE_spec : writeU_Int16BE buf (num_of_Z z) offset min max = write_at (@rev Z) 2 buf z offset min max.
Proof.
  writer 2%nat. f_equal. pose proof (low_bytes z) as L. cbv zeta in L. cbn [le_bytes] in L |- *. injection L as L1 _ _.
  rewrite L1. ushrs z. puts buf. done.
Qed.

Lemma write24LE_spec : writeU_Int24LE buf (num_of_Z z) offset min max = write_at id 3 buf z offset min max.
Proof.
  writer 3%nat. f_equal. pose proof (low_bytes z) as L. cbv zeta in L. cbn [le_bytes] in L |- *. injection L as L1 L2 _.
  rewrite L1, L2. ushrs z. puts buf. done.
Qed.

Lemma write24BE_spec : writeU_Int24BE buf (num_of_Z z) offset min max = write_at (@rev Z) 3 buf z offset min max.
Proof.
  writer 3%nat. f_equal. pose proof (low_bytes z) as L. cbv zeta in L. cbn [le_bytes] in L |- *. injection L as L1 L2 _.
  rewrite L1, L2. ushrs z. puts buf. done.
Qed.

Lemma write32LE_spec : writeU_Int32LE buf (num_of_Z z) offset min max = write_at id 4 buf z offset min max.
Proof. writer 4%nat. by rewrite low_up_spec. Qed.

Lemma write32BE_spec : writeU_Int32BE buf (num_of_Z z) offset min max = write_at (@rev Z) 4 buf z offset min max.
Proof. writer 4%nat. by rewrite low_down_spec. Qed.

Hypothesis Hmin : - 2 ^ 50 < min.
Hypothesis Hmax : max < 2 ^ 50.

Lemma high_part_range : in_range min z max = true -> high_part (num_of_Z z) = num_of_Z (z / 2 ^ 32).
Proof. unfold in_range. intros H. apply high_part_Z. destruct (Z.leb_spec min z); [|done]. destruct (Z.leb_spec z max); [|done]. lia. Qed.

Lemma write40LE_spec : writeU_Int40LE buf (num_of_Z z) offset min max = write_at id 5 buf z offset min max.
Proof.
  writer 5%nat. rewrite high_part_range by done. rewrite low_up_spec by lia. rewrite (le_bytes_app 4 1). change (256 ^ Z.of_nat 4) with (2 ^ 32).
  rewrite set_put_up by (rewrite ?slen_le_bytes; lia). done.
Qed.

Lemma write40BE_spec : writeU_Int40BE buf (num_of_Z z) offset min max = write_at (@rev Z) 5 buf z offset min max.
Proof.
  writer 5%nat. rewrite high_part_range by done. rewrite low_down_spec by (rewrite ?slen_set_num; lia). rewrite set_num_put by lia.
  rewrite (le_bytes_app 4 1), rev_app_distr. change (256 ^ Z.of_nat 4) with (2 ^ 32).
  rewrite put_up by (rewrite ?slen_rev, ?slen_cons, ?slen_nil, ?slen_le_bytes; lia). f_equal; lia.
Qed.

Lemma write48LE_spec : writeU_Int48LE buf (num_of_Z z) offset min max = write_at id 6 buf z offset min max.
Proof.
  writer 6%nat. cbv zeta. rewrite high_part_range by done. rewrite low_up_spec by lia. rewrite (le_bytes_app 4 2). change (256 ^ Z.of_nat 4) with (2 ^ 32). set (h := z / 2 ^ 32).
  pose proof (low_bytes h) as L. cbv zeta in L. cbn [le_bytes] in L. injection L as L1 _ _. rewrite js_ushr_Z.
  rewrite set_put_up by (rewrite ?slen_le_bytes; lia). rewrite set_put_up by (rewrite ?slen_app, ?slen_cons, ?slen_nil, ?slen_le_bytes; lia).
  rewrite <-app_assoc. change (le_bytes 2 h) with [h mod 256; h / 256 mod 256]. rewrite L1. done.
Qed.

Lemma write48BE_spec : writeU_Int48BE buf (num_of_Z z) offset min max = write_at (@rev Z) 6 buf z offset min max.
Proof.
  writer 6%nat. cbv zeta. rewrite high_part_range by done. rewrite low_down_spec by (rewrite ?slen_set_num; lia). rewrite (le_bytes_app 4 2), rev_app_distr. change (256 ^ Z.of_nat 4) with (2 ^ 32).
  set (h := z / 2 ^ 32). pose proof (low_bytes h) as L. cbv zeta in L. cbn [le_bytes] in L. injection L as L1 _ _. rewrite js_ushr_Z. puts buf.
  change (le_bytes 2 h) with [h mod 256; h / 256 mod 256]. rewrite L1.
  rewrite put_up by (rewrite ?slen_rev, ?slen_cons, ?slen_nil, ?slen_le_bytes; lia). f_equal; lia.
Qed.

Lemma write8_spec : writeU_Int8 buf (num_of_Z z) offset min max =
  match offset with Number _ => if in_range min z max then let! i := access 1 buf offset in inr (put i [z mod 256] buf, i + 1) else inl (OutOfRange "value" (RBetween min max))
  | _ => inl (InvalidArgType "offset") end.
Proof.
  unfold writeU_Int8. destruct offset as [| |x]; [done..|]. cbn [rbind validateNumber]. rewrite range_test. destruct (in_range min z max); [|done].
  pose proof (checkBounds_spec buf (Number x) 0 ltac:(lia)) as H. unfold checkBounds in H. cbn [rbind validateNumber] in H. change (0 + 1) with 1 in H. rewrite <-H. clear H.
  cbn [negb]. destruct (elem buf x 0) eqn:E; [|done]. destruct (index x) as [i|] eqn:Ei; [|done]. cbn [rbind]. rewrite set_num_put; [done|].
  destruct (decide (0 <= i + 0 < slen buf)); [lia|]. by rewrite (elem_out buf x i 0) in E.
Qed.
End Writers.

(** Eight bytes. *)
Lemma set_at_num i v buf : set_at i v buf = set_num i (num_of_Z v) buf.
Proof. unfold set_num. by rewrite num_trunc_Z. Qed.

Lemma to_int32_mod v : to_int32 v mod 2 ^ 32 = v mod 2 ^ 32.
Proof.
  unfold to_int32. rewrite Zminus_mod_idemp_l. f_equal. lia.
Qed.

Lemma to_int32_range v : - 2 ^ 31 <= to_int32 v < 2 ^ 31.
Proof. unfold to_int32. pose proof (Z.mod_pos_bound (v + 2 ^ 31) (2 ^ 32) ltac:(lia)). lia. Qed.

Lemma sar_bytes v : le_bytes 4 v = [v mod 256; js_sar v 8 mod 256; js_sar (js_sar v 8) 8 mod 256; js_sar (js_sar (js_sar v 8) 8) 8 mod 256].
Proof.
  pose proof (to_int32_range v) as R. unfold js_sar. rewrite !Z.shiftr_div_pow2 by lia. change (2 ^ 8) with 256.
  assert (Hd : forall t, - 2 ^ 31 <= t < 2 ^ 31 -> - 2 ^ 31 <= t / 256 < 2 ^ 31).
  { intros t Ht. split; [apply Z.div_le_lower_bound; lia|apply Z.div_lt_upper_bound; lia]. }
  set (t := to_int32 v) in *. rewrite (to_int32_small (t / 256)) by auto. rewrite (to_int32_small (t / 256 / 256)) by auto.
  assert (E : le_bytes 4 v = le_bytes 4 t).
  { rewrite <-(le_bytes_mod 4 v), <-(le_bytes_mod 4 t). change (256 ^ Z.of_nat 4) with (2 ^ 32). unfold t. by rewrite to_int32_mod. }
  assert (E0 : v mod 256 = t mod 256) by (cbn [le_bytes] in E; by injection E). rewrite E0. exact E.
Qed.

Definition write_big (order : list Z -> list Z) (buf : list Z) (z : Z) (offset : arg) (min max : Z) : res (list Z * Z) :=
  if in_range min z max then let! i := access 8 buf offset in inr (put i (order (le_bytes 8 z)) buf, i + 8)
  else inl (OutOfRange "value" (value_range min max 7)).

Lemma checkIntBI_spec z min max buf offset :
  checkIntBI z min max buf offset 7 = if in_range min z max then access 8 buf offset else inl (OutOfRange "value" (value_range min max 7)).
Proof.
  unfold checkIntBI. pose proof (range_test min z max) as H. rewrite !num_lt_Z in H. rewrite H. destruct (in_range min z max); [|done].
  by rewrite checkBounds_spec.
Qed.

Lemma land_low v : Z.land v 4294967295 = v mod 2 ^ 32.
Proof. change 4294967295 with (Z.ones 32). by rewrite Z.land_ones. Qed.

(** The two halves of eight bytes. *)
Lemma big_bytes z : le_bytes 8 z = le_bytes 4 (z mod 2 ^ 32) ++ le_bytes 4 (z / 2 ^ 32 mod 2 ^ 32).
Proof.
  rewrite (le_bytes_app 4 4). change (256 ^ Z.of_nat 4) with (2 ^ 32). f_equal.
  - by rewrite <-(le_bytes_mod 4 z).
  - by rewrite <-(le_bytes_mod 4 (z / 2 ^ 32)).
Qed.

Lemma wrtBigUInt64LE_spec buf z offset min max : wrtBigUInt64LE buf z offset min max = write_big id buf z offset min max.
Proof.
  unfold wrtBigUInt64LE, write_big. rewrite checkIntBI_spec. destruct (in_range min z max); [|done]. destruct (access 8 buf offset) as [e|i] eqn:E; [done|].
  apply access_inv in E as (x & _ & _ & Hi & Hn). cbn [rbind]. cbv zeta. rewrite big_bytes, !land_low, !sar_bytes, Z.shiftr_div_pow2, !set_at_num by lia. puts buf. done.
Qed.

Lemma wrtBigUInt64BE_spec buf z offset min max : wrtBigUInt64BE buf z offset min max = write_big (@rev Z) buf z offset min max.
Proof.
  unfold wrtBigUInt64BE, write_big. rewrite checkIntBI_spec. destruct (in_range min z max); [|done]. destruct (access 8 buf offset) as [e|i] eqn:E; [done|].
  apply access_inv in E as (x & _ & _ & Hi & Hn). cbn [rbind]. cbv zeta. rewrite big_bytes, !land_low, !sar_bytes, Z.shiftr_div_pow2, !set_at_num by lia. puts buf. done.
Qed.

(** *** The writers of a given width *)

Definition write_reference (order : list Z -> list Z) (lo hi : Z -> Z) (buf : list Z) (z : Z) (offset byteLength : arg) : res (list Z * Z) :=
  match width byteLength with
  | Some n =>
      if (n =? 1) && (match offset with Number _ => false | _ => true end) then inl (InvalidArgType "offset")
      else if in_range (lo n) z (hi n) then let! i := access n buf offset in inr (put i (order (le_bytes (Z.to_nat n) z)) buf, i + n)
      else inl (OutOfRange "value" (value_range (lo n) (hi n) (n - 1)))
  | None => inl (length_error byteLength)
  end.

Definition umin (n : Z) : Z := 0.
Definition umax (n : Z) : Z := 2 ^ (8 * n) - 1.
Definition smin (n : Z) : Z := - 2 ^ (8 * n - 1).
Definition smax (n : Z) : Z := 2 ^ (8 * n - 1) - 1.

Lemma write_by_width order (lo hi : Z -> Z) (w : Z -> res (list Z * Z)) buf z offset byteLength :
  order [z mod 256] = [z mod 256] ->
  w 1 = writeU_Int8 buf (num_of_Z z) offset (lo 1) (hi 1) ->
  (forall n : nat, (2 <= n <= 6)%nat -> w (Z.of_nat n) = write_at order n buf z offset (lo (Z.of_nat n)) (hi (Z.of_nat n))) ->
  (if is_length byteLength 6 then w 6 else if is_length byteLength 5 then w 5 else if is_length byteLength 3 then w 3
   else if is_length byteLength 4 then w 4 else if is_length byteLength 2 then w 2 else if is_length byteLength 1 then w 1
   else inl (no_length byteLength)) = write_reference order lo hi buf z offset byteLength.
Proof.
  intros Ho H1 Hw. unfold write_reference. destruct (width byteLength) as [n|] eqn:E.
  - destruct (width_cases _ _ E) as [Hn Hl]. rewrite !Hl. destruct Hn as [->|[->|[->|[->|[->| ->]]]]]; simpl.
    + rewrite H1, write8_spec. destruct offset as [| |x]; [done..|]. destruct (in_range _ _ _); [|done]. by rewrite Ho.
    + apply (Hw 2%nat). lia.
    + apply (Hw 3%nat). lia.
    + apply (Hw 4%nat). lia.
    + apply (Hw 5%nat). lia.
    + apply (Hw 6%nat). lia.
  - rewrite !(width_none byteLength) by (done || lia). by rewrite no_length_spec.
Qed.

(** The widths from two to six. *)
Ltac widths := intros n Hn; assert (Hc : (n = 2 \/ n = 3 \/ n = 4 \/ n = 5 \/ n = 6)%nat) by lia;
  destruct Hc as [->|[->|[->|[->| ->]]]].

Definition write_le (n : Z) (buf : list Z) (z : Z) (offset : arg) (min max : Z) : res (list Z * Z) :=
  match n with
  | 1 => writeU_Int8 buf (num_of_Z z) offset min max | 2 => writeU_Int16LE buf (num_of_Z z) offset min max
  | 3 => writeU_Int24LE buf (num_of_Z z) offset min max | 4 => writeU_Int32LE buf (num_of_Z z) offset min max
  | 5 => writeU_Int40LE buf (num_of_Z z) offset min max | 6 => writeU_Int48LE buf (num_of_Z z) offset min max
  | _ => inl OutOfBounds
  end.

Definition write_be (n : Z) (buf : list Z) (z : Z) (offset : arg) (min max : Z) : res (list Z * Z) :=
  match n with
  | 1 => writeU_Int8 buf (num_of_Z z) offset min max | 2 => writeU_Int16BE buf (num_of_Z z) offset min max
  | 3 => writeU_Int24BE buf (num_of_Z z) offset min max | 4 => writeU_Int32BE buf (num_of_Z z) offset min max
  | 5 => writeU_Int40BE buf (num_of_Z z) offset min max | 6 => writeU_Int48BE buf (num_of_Z z) offset min max
  | _ => inl OutOfBounds
  end.

Lemma write_le_spec buf z offset (lo hi : Z -> Z) : (forall n, 1 <= n <= 6 -> - 2 ^ 50 < lo n /\ hi n < 2 ^ 50) ->
  forall n : nat, (2 <= n <= 6)%nat -> write_le (Z.of_nat n) buf z offset (lo (Z.of_nat n)) (hi (Z.of_nat n)) = write_at id n buf z offset (lo (Z.of_nat n)) (hi (Z.of_nat n)).
Proof.
  intros Hb. widths; [apply write16LE_spec|apply write24LE_spec|apply write32LE_spec|apply write40LE_spec; apply Hb; lia|apply write48LE_spec; apply Hb; lia].
Qed.

Lemma write_be_spec buf z offset (lo hi : Z -> Z) : (forall n, 1 <= n <= 6 -> - 2 ^ 50 < lo n /\ hi n < 2 ^ 50) ->
  forall n : nat, (2 <= n <= 6)%nat -> write_be (Z.of_nat n) buf z offset (lo (Z.of_nat n)) (hi (Z.of_nat n)) = write_at (@rev Z) n buf z offset (lo (Z.of_nat n)) (hi (Z.of_nat n)).
Proof.
  intros Hb. widths; [apply write16BE_spec|apply write24BE_spec|apply write32BE_spec|apply write40BE_spec; apply Hb; lia|apply write48BE_spec; apply Hb; lia].
Qed.

Lemma unsigned_bounds n : 1 <= n <= 6 -> - 2 ^ 50 < umin n /\ umax n < 2 ^ 50.
Proof. intros H. unfold umin, umax. assert (2 ^ (8 * n) <= 2 ^ 48) by (apply Z.pow_le_mono_r; lia). lia. Qed.

Lemma signed_bounds n : 1 <= n <= 6 -> - 2 ^ 50 < smin n /\ smax n < 2 ^ 50.
Proof. intros H. unfold smin, smax. assert (2 ^ (8 * n - 1) <= 2 ^ 48) by (apply Z.pow_le_mono_r; lia). lia. Qed.

Lemma writes_spec buf z offset byteLength :
  writeUIntLE buf (num_of_Z z) offset byteLength = write_reference id umin umax buf z offset byteLength /\
  writeUIntBE buf (num_of_Z z) offset byteLength = write_reference (@rev Z) umin umax buf z offset byteLength /\
  writeIntLE buf (num_of_Z z) offset byteLength = write_reference id smin smax buf z offset byteLength /\
  writeIntBE buf (num_of_Z z) offset byteLength = write_reference (@rev Z) smin smax buf z offset byteLength.
Proof.
  split; [|split; [|split]].
  - exact (write_by_width id umin umax (fun n => write_le n buf z offset (umin n) (umax n)) buf z offset byteLength eq_refl eq_refl (write_le_spec buf z offset umin umax unsigned_bounds)).
  - exact (write_by_width (@rev Z) umin umax (fun n => write_be n buf z offset (umin n) (umax n)) buf z offset byteLength eq_refl eq_refl (write_be_spec buf z offset umin umax unsigned_bounds)).
  - exact (write_by_width id smin smax (fun n => write_le n buf z offset (smin n) (smax n)) buf z offset byteLength eq_refl eq_refl (write_le_spec buf z offset smin smax signed_bounds)).
  - exact (write_by_width (@rev Z) smin smax (fun n => write_be n buf z offset (smin n) (smax n)) buf z offset byteLength eq_refl eq_refl (write_be_spec buf z offset smin smax signed_bounds)).
Qed.

(** *** Reading what was written *)

Lemma sub_put i bs buf : 0 <= i -> i + slen bs <= slen buf -> sub (put i bs buf) i (length bs) = bs.
Proof.
  intros Hi Hn. apply list_eq. intros k. unfold sub. rewrite list_lookup_fmap. destruct (decide (k < length bs)%nat) as [Hk|Hk].
  - rewrite lookup_seq_lt by done. simpl. pose proof (length_put i bs buf Hi Hn) as Hl. pose proof (put_lookup i bs buf (Z.to_nat (i + Z.of_nat k)) Hi Hn) as Hp.
    rewrite !slen_nat in Hn. rewrite <-(list_lookup_lookup_total_lt (put i bs buf)) by lia. rewrite Hp, bool_decide_eq_true_2 by lia. f_equal. lia.
  - rewrite lookup_seq_ge by lia. by rewrite (proj2 (lookup_ge_None bs k)) by lia.
Qed.

Lemma access_length n buf buf' offset : slen buf' = slen buf -> access n buf' offset = access n buf offset.
Proof. intros H. unfold access. by rewrite H. Qed.

Lemma bytes_put i bs buf : bytes_ok bs -> bytes_ok buf -> bytes_ok (put i bs buf).
Proof.
  intros H1 H2. unfold put, bytes_ok in *. apply Forall_app. split; [by apply Forall_take|]. apply Forall_app. split; [done|by apply Forall_drop].
Qed.

Lemma width_Z n : 1 <= n <= 6 -> width (Number (num_of_Z n)) = Some n.
Proof.
  intros H. unfold width, index, num_of_Z. rewrite Qfloor_Z, Qeq_bool_refl. by rewrite (proj2 (Z.leb_le 1 n)), (proj2 (Z.leb_le n 6)) by lia.
Qed.

(** Bytes written at [i] and read again. *)
Lemma put_facts i (n : nat) bs buf : bytes_ok buf -> bytes_ok bs -> length bs = n -> 0 <= i -> i + Z.of_nat n <= slen buf ->
  let buf' := put i bs buf in
  slen buf' = slen buf /\ bytes_ok buf' /\ (forall k, ~ (i <= k < i + Z.of_nat n) -> 0 <= k -> buf' !! Z.to_nat k = buf !! Z.to_nat k) /\ sub buf' i n = bs.
Proof.
  intros Hb Hbs <- Hi Hn buf'. unfold buf'. rewrite <-slen_nat in *. split; [by apply length_put_slen|]. split; [by apply bytes_put|].
  split; [|by apply sub_put]. intros k Hk H0. rewrite put_lookup by done. rewrite bool_decide_eq_false_2; [done|]. rewrite slen_nat in *. lia.
Qed.

(** Values in range are written and read back, and touch nothing else; the others
    are refused. *)
Definition keeps_int (write : list Z -> num -> arg -> arg -> res (list Z * Z)) (read : list Z -> arg -> arg -> res Z)
    (min max : Z) (buf : list Z) (z : Z) (offset : arg) (i n : Z) : Prop :=
  let len := Number (num_of_Z n) in
  if in_range min z max then
    exists buf', write buf (num_of_Z z) offset len = inr (buf', i + n) /\ slen buf' = slen buf /\ bytes_ok buf' /\
      (forall k, ~ (i <= k < i + n) -> 0 <= k -> buf' !! Z.to_nat k = buf !! Z.to_nat k) /\ read buf' offset len = inr z
  else exists range, write buf (num_of_Z z) offset len = inl (OutOfRange "value" range).

Lemma keeps_int_intro write read lo hi order (value : Z -> list Z -> Z) buf z offset i n : bytes_ok buf -> 1 <= n <= 6 -> access n buf offset = inr i ->
  (forall byteLength, write buf (num_of_Z z) offset byteLength = write_reference order lo hi buf z offset byteLength) ->
  (forall buf', bytes_ok buf' -> forall byteLength, read buf' offset byteLength = read_reference value buf' offset byteLength) ->
  (forall bs, length (order bs) = length bs) -> (forall bs, bytes_ok bs -> bytes_ok (order bs)) ->
  (in_range (lo n) z (hi n) = true -> value n (order (le_bytes (Z.to_nat n) z)) = z) ->
  keeps_int write read (lo n) (hi n) buf z offset i n.
Proof.
  intros Hb Hn Ha Hw Hr Hol Hok Hv. unfold keeps_int. cbv zeta. pose proof (width_Z n Hn) as Hwd. destruct (access_inv _ _ _ _ Ha) as (x & -> & Hx & Hi & Hj).
  rewrite Hw. unfold write_reference. rewrite Hwd, andb_false_r. destruct (in_range (lo n) z (hi n)); [|by eexists].
  rewrite Ha. cbn [rbind]. eexists. split; [done|].
  destruct (put_facts i (Z.to_nat n) (order (le_bytes (Z.to_nat n) z)) buf Hb) as (P1 & P2 & P3 & P4); [apply Hok, le_bytes_ok|by rewrite Hol, length_le_bytes|done|lia|].
  rewrite Z2Nat.id in P3 by lia. split; [done|]. split; [done|]. split; [done|]. rewrite Hr by done. unfold read_reference. rewrite Hwd, (access_length n buf), Ha by done. cbn [rbind].
  rewrite P4. by rewrite Hv.
Qed.

Lemma reads_spec buf offset byteLength : bytes_ok buf ->
  readUIntLE buf offset byteLength = read_reference (fun _ => le_value) buf offset byteLength /\
  readUIntBE buf offset byteLength = read_reference (fun _ => be_value) buf offset byteLength /\
  readIntLE buf offset byteLength = read_reference (fun n bs => signed n (le_value bs)) buf offset byteLength /\
  readIntBE buf offset byteLength = read_reference (fun n bs => signed n (be_value bs)) buf offset byteLength.
Proof.
  intros Hb. split; [|split; [|split]].
  - refine (by_width (fun _ => le_value) (fun n => match n with 1 => readUInt8 buf offset | 2 => readUInt16LE buf offset | 3 => readUInt24LE buf offset
      | 4 => readUInt32LE buf offset | 5 => readUInt40LE buf offset | 6 => readUInt48LE buf offset | _ => inl OutOfBounds end) buf offset byteLength _).
    intros n Hn. assert (n = 1 \/ n = 2 \/ n = 3 \/ n = 4 \/ n = 5 \/ n = 6) as [->|[->|[->|[->|[->| ->]]]]] by lia;
      [apply readUInt8_spec|apply readUInt16LE_spec|apply readUInt24LE_spec|apply readUInt32LE_spec|apply readUInt40LE_spec|apply readUInt48LE_spec].
  - refine (by_width (fun _ => be_value) (fun n => match n with 1 => readUInt8 buf offset | 2 => readUInt16BE buf offset | 3 => readUInt24BE buf offset
      | 4 => readUInt32BE buf offset | 5 => readUInt40BE buf offset | 6 => readUInt48BE buf offset | _ => inl OutOfBounds end) buf offset byteLength _).
    intros n Hn. assert (n = 1 \/ n = 2 \/ n = 3 \/ n = 4 \/ n = 5 \/ n = 6) as [->|[->|[->|[->|[->| ->]]]]] by lia;
      [apply readUInt8_spec|apply readUInt16BE_spec|apply readUInt24BE_spec|apply readUInt32BE_spec|apply readUInt40BE_spec|apply readUInt48BE_spec].
  - refine (by_width (fun n bs => signed n (le_value bs)) (fun n => match n with 1 => readInt8 buf offset | 2 => readInt16LE buf offset | 3 => readInt24LE buf offset
      | 4 => readInt32LE buf offset | 5 => readInt40LE buf offset | 6 => readInt48LE buf offset | _ => inl OutOfBounds end) buf offset byteLength _).
    intros n Hn. assert (n = 1 \/ n = 2 \/ n = 3 \/ n = 4 \/ n = 5 \/ n = 6) as [->|[->|[->|[->|[->| ->]]]]] by lia;
      [by apply readInt8_spec|by apply readInt16LE_spec|by apply readInt24LE_spec|by apply readInt32LE_spec|by apply readInt40LE_spec|by apply readInt48LE_spec].
  - refine (by_width (fun n bs => signed n (be_value bs)) (fun n => match n with 1 => readInt8 buf offset | 2 => readInt16BE buf offset | 3 => readInt24BE buf offset
      | 4 => readInt32BE buf offset | 5 => readInt40BE buf offset | 6 => readInt48BE buf offset | _ => inl OutOfBounds end) buf offset byteLength _).
    intros n Hn. assert (n = 1 \/ n = 2 \/ n = 3 \/ n = 4 \/ n = 5 \/ n = 6) as [->|[->|[->|[->|[->| ->]]]]] by lia;
      [by apply readInt8_spec|by apply readInt16BE_spec|by apply readInt24BE_spec|by apply readInt32BE_spec|by apply readInt40BE_spec|by apply readInt48BE_spec].
Qed.

Lemma unsigned_back n z : 1 <= n -> in_range 0 z (umax n) = true -> le_value (le_bytes (Z.to_nat n) z) = z.
Proof.
  intros Hn H. unfold in_range, umax in H. destruct (Z.leb_spec 0 z); [|done]. destruct (Z.leb_spec z (2 ^ (8 * n) - 1)); [|done].
  rewrite le_value_bytes, Z2Nat.id by lia. change 256 with (2 ^ 8). rewrite <-Z.pow_mul_r by lia. apply Z.mod_small. lia.
Qed.

Lemma signed_back n z : 1 <= n -> in_range (smin n) z (smax n) = true -> signed n (le_value (le_bytes (Z.to_nat n) z)) = z.
Proof.
  intros Hn H. unfold in_range, smin, smax in H. destruct (Z.leb_spec (- 2 ^ (8 * n - 1)) z); [|done]. destruct (Z.leb_spec z (2 ^ (8 * n - 1) - 1)); [|done].
  rewrite le_value_bytes, Z2Nat.id by lia. apply signed_mod; lia.
Qed.

(** The same for eight bytes. *)
Definition keeps_big (write : list Z -> Z -> arg -> res (list Z * Z)) (read : list Z -> arg -> res Z)
    (min max : Z) (buf : list Z) (z : Z) (offset : arg) (i : Z) : Prop :=
  if in_range min z max then
    exists buf', write buf z offset = inr (buf', i + 8) /\ slen buf' = slen buf /\ bytes_ok buf' /\
      (forall k, ~ (i <= k < i + 8) -> 0 <= k -> buf' !! Z.to_nat k = buf !! Z.to_nat k) /\ read buf' offset = inr z
  else exists range, write buf z offset = inl (OutOfRange "value" range).

Lemma offset_uint32_access buf x i : slen buf <= 2 ^ 31 - 1 -> access 8 buf (Number x) = inr i -> access 8 buf (offset_uint32 (Number x)) = inr i.
Proof.
  intros Hl Ha. destruct (access_inv _ _ _ _ Ha) as (y & [= <-] & Hx & Hi & Hj). unfold offset_uint32, js_ushr. rewrite Z.shiftr_0_r.
  assert (Ht : to_uint32 x = i).
  { unfold to_uint32. unfold index in Hx. destruct x as [|b|q]; [done..|]. destruct (Qeq_bool q (inject_Z (Qfloor q))) eqn:E; [|done]. injection Hx as Hq.
    apply Qeq_bool_eq in E. rewrite Hq in E. unfold num_trunc, qtrunc. replace (Qnum q <? 0) with false; [rewrite Hq; apply Z.mod_small; lia|].
    symmetry. apply Z.ltb_ge. unfold Qeq in E. simpl in E. lia. }
  rewrite Ht. unfold access, index, num_of_Z. rewrite Qfloor_Z, Qeq_bool_refl. by rewrite (proj2 (Z.leb_le 0 i)), (proj2 (Z.leb_le (i + 8) _)) by lia.
Qed.

Lemma keeps_big_intro write read min max order (value : list Z -> Z) buf z x i : bytes_ok buf -> slen buf <= 2 ^ 31 - 1 -> access 8 buf (Number x) = inr i ->
  write buf z (Number x) = write_big order buf z (Number x) min max ->
  (forall buf', bytes_ok buf' -> read buf' (Number x) = let! i := access 8 buf' (offset_uint32 (Number x)) in inr (value (sub buf' i 8))) ->
  (forall bs, length (order bs) = length bs) -> (forall bs, bytes_ok bs -> bytes_ok (order bs)) ->
  (in_range min z max = true -> value (order (le_bytes 8 z)) = z) ->
  keeps_big write read min max buf z (Number x) i.
Proof.
  intros Hb Hl Ha Hw Hr Hol Hok Hv. unfold keeps_big. destruct (access_inv _ _ _ _ Ha) as (y & [= <-] & Hx & Hi & Hj).
  rewrite Hw. unfold write_big. destruct (in_range min z max); [|by eexists]. rewrite Ha. cbn [rbind]. eexists. split; [done|].
  destruct (put_facts i 8 (order (le_bytes 8 z)) buf Hb) as (P1 & P2 & P3 & P4); [apply Hok, le_bytes_ok|by rewrite Hol, length_le_bytes|done|lia|].
  split; [done|]. split; [done|]. split; [done|]. rewrite Hr by done. rewrite (access_length 8 buf), (offset_uint32_access buf x i) by done. cbn [rbind].
  rewrite P4. by rewrite Hv.
Qed.

Lemma bytes_rev bs : bytes_ok bs -> bytes_ok (rev bs).
Proof. intros H. unfold bytes_ok in *. by rewrite <-Permutation_rev. Qed.

Lemma be_rev bs : be_value (rev bs) = le_value bs.
Proof. unfold be_value. by rewrite rev_involutive. Qed.

(** ** Theorems *)




(** At an offset that is allowed, each writer of one to six or of eight bytes
    stores every value of its range so that the reader of its name reads it back,
    leaves all other bytes as they are, and returns the offset behind it; other
    values are refused with a range error. *)
Lemma int_roundtrip (buf : list Z) (z : Z) (offset : arg) :
  bytes_ok buf -> slen buf <= 2 ^ 31 - 1 ->
  (forall n i, 1 <= n <= 6 -> access n buf offset = inr i ->
    keeps_int writeUIntLE readUIntLE 0 (2 ^ (8 * n) - 1) buf z offset i n /\
    keeps_int writeUIntBE readUIntBE 0 (2 ^ (8 * n) - 1) buf z offset i n /\
    keeps_int writeIntLE readIntLE (- 2 ^ (8 * n - 1)) (2 ^ (8 * n - 1) - 1) buf z offset i n /\
    keeps_int writeIntBE readIntBE (- 2 ^ (8 * n - 1)) (2 ^ (8 * n - 1) - 1) buf z offset i n) /\
  (forall i, access 8 buf offset = inr i ->
    keeps_big writeBigUInt64LE readBigUInt64LE 0 (2 ^ 64 - 1) buf z offset i /\
    keeps_big writeBigUInt64BE readBigUInt64BE 0 (2 ^ 64 - 1) buf z offset i /\
    keeps_big writeBigInt64LE readBigInt64LE (- 2 ^ 63) (2 ^ 63 - 1) buf z offset i /\
    keeps_big writeBigInt64BE readBigInt64BE (- 2 ^ 63) (2 ^ 63 - 1) buf z offset i).
Proof.
  intros Hb Hl. split.
  - intros n i Hn Ha. destruct (writes_spec buf z offset (Number (num_of_Z n))) as (W1 & W2 & W3 & W4).
    split; [|split; [|split]].
    + apply (keeps_int_intro _ _ umin umax id (fun _ => le_value)); try done; [intros; apply writes_spec|intros; by apply reads_spec|apply unsigned_back; lia].
    + apply (keeps_int_intro _ _ umin umax (@rev Z) (fun _ => be_value)); try done; [intros; apply writes_spec|intros; by apply reads_spec|apply length_rev|apply bytes_rev|].
      rewrite be_rev. apply unsigned_back; lia.
    + apply (keeps_int_intro _ _ smin smax id (fun n bs => signed n (le_value bs))); try done; [intros; apply writes_spec|intros; by apply reads_spec|apply signed_back; lia].
    + apply (keeps_int_intro _ _ smin smax (@rev Z) (fun n bs => signed n (be_value bs))); try done; [intros; apply writes_spec|intros; by apply reads_spec|apply length_rev|apply bytes_rev|].
      rewrite be_rev. apply signed_back; lia.
  - intros i Ha. destruct (access_inv _ _ _ _ Ha) as (x & -> & _). split; [|split; [|split]].
    + apply (keeps_big_intro _ _ _ _ id le_value); try done; [apply wrtBigUInt64LE_spec|intros; apply readBigUInt64LE_spec|apply (unsigned_back 8); lia].
    + apply (keeps_big_intro _ _ _ _ (@rev Z) be_value); try done; [apply wrtBigUInt64BE_spec|intros; apply readBigUInt64BE_spec|apply length_rev|apply bytes_rev|].
      rewrite be_rev. apply (unsigned_back 8); lia.
    + apply (keeps_big_intro _ _ _ _ id (fun bs => signed 8 (le_value bs))); try done; [apply wrtBigUInt64LE_spec|intros; by apply readBigInt64LE_spec|apply (signed_back 8); lia].
    + apply (keeps_big_intro _ _ _ _ (@rev Z) (fun bs => signed 8 (be_value bs))); try done; [apply wrtBigUInt64BE_spec|intros; by apply readBigInt64BE_spec|apply length_rev|apply bytes_rev|].
      rewrite be_rev. apply (signed_back 8); lia.
Qed.

Lemma int_roundtrip_witness :
  keeps_int writeIntBE readIntBE (-8388608) 8388607 [0; 0; 0; 0; 9] (-2) (Number (num_of_Z 1)) 1 3.
Proof.
  assert (Hb : bytes_ok [0; 0; 0; 0; 9]) by (refine (bool_decide_unpack _ _); vm_compute; exact I).
  destruct (int_roundtrip [0; 0; 0; 0; 9] (-2) (Number (num_of_Z 1)) Hb ltac:(vm_compute; intros [=])) as [H _].
  destruct (H 3 1 ltac:(lia) eq_refl) as (_ & _ & _ & H4). exact H4.
Defined.
