(* ===== verification/BufferOps.v ===== *)
(** * Buffers: allocation, comparison, copying

    Models the functions of [src/ext/node/polyfills/internal/buffer.mjs] that work on
    bytes: allocation, comparison, concatenation, copying, swapping.

    A buffer is a view of some memory, and memories are shared: [store] holds the
    memories, and [copy] runs on two views that may overlap.  Operations that see
    one buffer only, or copy what they see first, take lists of bytes. *)

From Stdlib Require Import ZArith Lia QArith Qround.
From stdpp Require Import base list numbers strings gmap.
From S2P Require Import Prelude JsNumber BufferBinding BufferInts.

#[local] Open Scope Z_scope.
#[local] Open Scope buf_scope.

(** ** Numbers *)

Definition kMaxLength : Z := 2147483647.
Definition MAX_UINT32 : Z := 2 ^ 32.
Definition MAX_SAFE : Z := 2 ^ 53 - 1.

Definition toInteger (n : num) (defaultVal : Z) : Z :=
  if num_le (num_of_Z (- MAX_SAFE)) n && num_le n (num_of_Z MAX_SAFE)
  then match n with Fin q => Qfloor q | _ => defaultVal end
  else defaultVal.

Definition validateOffset (value : arg) (name : string) (min max : Z) : res Z :=
  match value with
  | Number x =>
      match BufferInts.index x with
      | Some i => if (i <? min) || (max <? i) then inl (OutOfRange name (RBetween min max)) else inr i
      | None => inl (OutOfRange name RInteger)
      end
  | _ => inl (InvalidArgType name)
  end.

(** [n | 0] *)
Definition bit_or_0 (x : num) : Z := to_int32 (num_trunc x).

(** ** Allocation *)

Definition assertSize (size : arg) : res num :=
  let! x := validateNumber size "size" in
  if num_le (num_of_Z 0) x && num_le x (num_of_Z kMaxLength) then inr x else inl (InvalidArgValue "size").

(** [new Uint8Array(length)] takes the integer part and refuses a negative one. *)
Definition createBuffer (length : num) : res (list Z) :=
  if num_lt (num_of_Z kMaxLength) length then inl (BufRangeError "size")
  else if num_trunc length <? 0 then inl (BufRangeError "Invalid typed array length")
  else inr (zeros (num_trunc length)).

Definition checked (length : num) : res Z :=
  if num_le (num_of_Z kMaxLength) length then inl (BufRangeError "Attempt to allocate Buffer larger than maximum size") else inr (bit_or_0 length).

Definition allocUnsafe (size : arg) : res (list Z) :=
  let! x := assertSize size in
  if num_lt x (num_of_Z 0) then createBuffer (num_of_Z 0)
  else let! n := checked x in createBuffer (num_of_Z (to_int32 n)).

(** The elements of an array after [& 255]. *)
Definition fromArrayLike (array : list num) : res (list Z) :=
  let! n := checked (num_of_Z (Z.of_nat (length array))) in
  let! buf := createBuffer (num_of_Z (to_int32 n)) in
  inr (for_up 0 (to_int32 n)
    (fun i buf => Continue (set_at i (Z.land (to_int32 (num_trunc (default NaN (array !! Z.to_nat i)))) 255) buf)) buf).

(** ** Comparison *)

(** The loop, and the comparison of the first difference or of the lengths. *)
Definition compare_loop (a b : list Z) (x y : Z) : Z * Z :=
  for_up 0 (Z.min x y)
    (fun i '(x, y) =>
       let p := a !!! Z.to_nat i in let q := b !!! Z.to_nat i in
       if negb (p =? q) then Break (p, q) else Continue (x, y))
    (x, y).

Definition order3 (x y : Z) : Z := if x <? y then -1 else if y <? x then 1 else 0.

(** [Buffer.from] of a [Uint8Array] copies it. *)
Definition from_bytes (l : list Z) : res (list Z) := fromArrayLike (num_of_Z <$> l).

(** Both arguments are copied, so [a === b] never holds; a [Buffer] is a [Uint8Array] too. *)
Definition static_compare (a b : list Z) : res Z :=
  let! a := from_bytes a in
  let! b := from_bytes b in
  let '(x, y) := compare_loop a b (slen a) (slen b) in
  inr (order3 x y).

(** [same] is [this === b]. *)
Definition equals (same : bool) (this b : list Z) : res bool :=
  if same then inr true else let! c := static_compare this b in inr (c =? 0).

(** A target bound of [compare]: undefined, or checked. *)
Definition target_bound (value : arg) (name : string) (max default_ : Z) : res Z :=
  match value with Undefined => inr default_ | _ => validateOffset value name 0 max end.

(** A bound on this buffer: when there is one, [checked_], the target bound, is checked (again). *)
Definition this_bound (value : option num) (checked_ : Z) (name : string) (max default_ : Z) : res num :=
  match value with
  | None => inr (num_of_Z default_)
  | Some x => let! _ := validateOffset (Number (num_of_Z checked_)) name 0 max in inr x
  end.

(** [subarray] with indices that are not negative. *)
Definition subarray (l : list Z) (start end_ : Z) : list Z := slice l (Z.min start (slen l)) (Z.max start (Z.min end_ (slen l))).

(** The target is a copy, so [this === target] never holds.  The last two bounds
    are numbers or undefined. *)
Definition compare (this target : list Z) (start end_ : arg) (thisStart thisEnd : option num) : res Z :=
  let! target := from_bytes target in
  let! start := target_bound start "targetStart" kMaxLength 0 in
  let! end_ := target_bound end_ "targetEnd" (slen target) (slen target) in
  let! thisStart := this_bound thisStart start "sourceStart" kMaxLength 0 in
  let! thisEnd := this_bound thisEnd end_ "sourceEnd" (slen this) (slen this) in
  if (start <? 0) || (slen target <? end_) || num_lt thisStart zero || num_lt (num_of_Z (slen this)) thisEnd
  then inl (OutOfRange "out of range index" RIndex)
  else if num_le thisEnd thisStart && (end_ <=? start) then inr 0
  else if num_le thisEnd thisStart then inr (-1)
  else if end_ <=? start then inr 1
  else
    let thisStart := BufferInts.to_uint32 thisStart in
    let thisEnd := BufferInts.to_uint32 thisEnd in
    let '(x, y) := compare_loop (subarray this thisStart thisEnd) (subarray target start end_) (thisEnd - thisStart) (end_ - start) in
    inr (order3 x y).

(** ** Views *)

Record view_ := mkView { v_buf : Z; v_off : Z; v_len : Z }.

Abbreviation store := (gmap Z (list Z)).

Definition memory (st : store) (v : view_) : list Z := default [] (st !! v_buf v).
Definition bytes (st : store) (v : view_) : list Z := take (Z.to_nat (v_len v)) (drop (Z.to_nat (v_off v)) (memory st v)).

(** [bs] written into the memory at [i]. *)
Definition overwrite (i : Z) (bs : list Z) (m : list Z) : list Z := take (Z.to_nat i) m ++ bs ++ drop (Z.to_nat i + length bs) m.

(** [target.set(bs, i)]; the bytes are copied before anything is written. *)
Definition set_bytes (st : store) (v : view_) (i : Z) (bs : list Z) : store := alter (overwrite (v_off v + i) bs) (v_buf v) st.

(** [copyWithin] of a typed array with indices that are not negative. *)
Definition copyWithin (st : store) (v : view_) (target start end_ : Z) : store :=
  let to := Z.min target (v_len v) in
  let from := Z.min start (v_len v) in
  let final := Z.min end_ (v_len v) in
  let count := Z.min (final - from) (v_len v - to) in
  if 0 <? count then set_bytes st v to (slice (bytes st v) from (from + count)) else st.

Definition copyActual (st : store) (source target : view_) (targetStart sourceStart sourceEnd : Z) : store * Z :=
  let sourceEnd := if v_len target - targetStart <? sourceEnd - sourceStart then sourceStart + v_len target - targetStart else sourceEnd in
  let nb := sourceEnd - sourceStart in
  let sourceLen := v_len source - sourceStart in
  let nb := if sourceLen <? nb then sourceLen else nb in
  let bs := if negb (sourceStart =? 0) || (sourceEnd <? v_len source) then slice (bytes st source) sourceStart (sourceStart + nb) else bytes st source in
  (set_bytes st target targetStart bs, nb).

(** What [copy] does after its checks. *)
Definition copy_body (same : bool) (st : store) (this target : view_) (targetStart sourceStart sourceEnd : Z) : store * Z :=
  if v_len target <=? targetStart then (st, 0)
  else
    let sourceEnd := if (0 <? sourceEnd) && (sourceEnd <? sourceStart) then sourceStart else sourceEnd in
    if sourceEnd =? sourceStart then (st, 0)
    else if (v_len target =? 0) || (v_len this =? 0) then (st, 0)
    else
      let sourceEnd := if v_len this <? sourceEnd then v_len this else sourceEnd in
      let sourceEnd := if v_len target - targetStart <? sourceEnd - sourceStart then v_len target - targetStart + sourceStart else sourceEnd in
      let len := sourceEnd - sourceStart in
      let st :=
        if same then copyWithin st this targetStart sourceStart sourceEnd
        else set_bytes st target targetStart (subarray (bytes st this) sourceStart sourceEnd) in
      (st, len).

(** The bounds of [copy]: a number or undefined. *)
Definition copy_targetStart (targetStart : option num) : res Z :=
  match targetStart with
  | None => inr 0
  | Some x => let i := toInteger x 0 in if i <? 0 then inl (OutOfRange "targetStart" (RAtLeast 0)) else inr i
  end.

Definition copy_sourceStart (length : Z) (sourceStart : option num) : res Z :=
  match sourceStart with
  | None => inr 0
  | Some x =>
      let i := toInteger x 0 in
      if (i <? 0) || (length <? i) then inl (OutOfRange "sourceStart" (RBetween 0 length))
      else if MAX_UINT32 <=? i then inl (OutOfRange "sourceStart" (RBelow MAX_UINT32)) else inr i
  end.

Definition copy_sourceEnd (length : Z) (sourceEnd : option num) : res Z :=
  match sourceEnd with
  | None => inr length
  | Some x =>
      let i := toInteger x 0 in
      if i <? 0 then inl (OutOfRange "sourceEnd" (RAtLeast 0))
      else if MAX_UINT32 <=? i then inl (OutOfRange "sourceEnd" (RBelow MAX_UINT32)) else inr i
  end.

(** [same] is [this === target]. *)
Definition copy (same : bool) (st : store) (this target : view_) (targetStart sourceStart sourceEnd : option num) : res (store * Z) :=
  let! targetStart := copy_targetStart targetStart in
  let! sourceStart := copy_sourceStart (v_len this) sourceStart in
  let! sourceEnd := copy_sourceEnd (v_len this) sourceEnd in
  inr (copy_body same st this target targetStart sourceStart sourceEnd).

(** ** Swapping *)

Definition swap (b : list Z) (n m : Z) : list Z :=
  let i := b !!! Z.to_nat n in
  let b := <[Z.to_nat n := b !!! Z.to_nat m]> b in
  <[Z.to_nat m := i]> b.

(** [for (let i = 0; i < len; i += k)] runs [len / k] times when [k] divides [len]. *)
Definition swap16 (b : list Z) : res (list Z) :=
  if negb (slen b mod 2 =? 0) then inl (BufRangeError "Buffer size must be a multiple of 16-bits")
  else inr (for_up 0 (slen b / 2) (fun k b => let i := k * 2 in Continue (swap b i (i + 1))) b).

Definition swap32 (b : list Z) : res (list Z) :=
  if negb (slen b mod 4 =? 0) then inl (BufRangeError "Buffer size must be a multiple of 32-bits")
  else inr (for_up 0 (slen b / 4) (fun k b => let i := k * 4 in Continue (swap (swap b i (i + 3)) (i + 1) (i + 2))) b).

Definition swap64 (b : list Z) : res (list Z) :=
  if negb (slen b mod 8 =? 0) then inl (BufRangeError "Buffer size must be a multiple of 64-bits")
  else inr (for_up 0 (slen b / 8)
    (fun k b => let i := k * 8 in Continue (swap (swap (swap (swap b i (i + 7)) (i + 1) (i + 6)) (i + 2) (i + 5)) (i + 3) (i + 4))) b).

(** ** Concatenation *)

(** An element of the list: bytes, or something else with a length. *)
Inductive concat_item := CBytes (l : list Z) | COther (len : Z).

Definition item_length (x : concat_item) : Z := match x with CBytes l => slen l | COther n => n end.

(** The loop that copies; the target is a new buffer. *)
Fixpoint concat_loop (l : list concat_item) (buffer : list Z) (pos : Z) : res (list Z * Z) :=
  match l with
  | [] => inr (buffer, pos)
  | COther _ :: _ => inl (InvalidArgType "list")
  | CBytes b :: l =>
      let st : store := {[0 := b; 1 := buffer]} in
      let '(st, nb) := copyActual st (mkView 0 0 (slen b)) (mkView 1 0 (slen buffer)) pos 0 (slen b) in
      concat_loop l (default [] (st !! 1)) (pos + nb)
  end.

(** [fill(0, start, end)] *)
Definition zero_fill (start end_ : Z) (b : list Z) : list Z := for_up start end_ (fun i b => Continue (set_at i 0 b)) b.

Definition concat (l : list concat_item) (length : arg) : res (list Z) :=
  match l with
  | [] => inr []
  | _ =>
      let! length := match length with
                     | Undefined => inr (foldl (fun n x => n + item_length x) 0 l)
                     | _ => validateOffset length "length" 0 MAX_SAFE
                     end in
      let! buffer := allocUnsafe (Number (num_of_Z length)) in
      let! (buffer, pos) := concat_loop l buffer 0 in
      inr (if pos <? length then zero_fill pos length buffer else buffer)
  end.
