(* ===== verification/BufferOpsTheorems.v ===== *)
(** * Buffers: what allocation, comparison and copying do

    [copy] moves exactly the bytes the source had before, also between views that
    overlap; [concat] is concatenation, cut or padded with zeros; [compare] is the
    lexicographic order; the swaps reverse each group of bytes. *)

From Stdlib Require Import ZArith Lia QArith Qround.
From stdpp Require Import base list numbers strings gmap.
From S2P Require Import Prelude JsNumber BufferBinding BufferTheorems BufferInts BufferIntsTheorems BufferOps.

#[local] Open Scope Z_scope.
#[local] Open Scope buf_scope.
#[local] Arguments num_of_Z : simpl never.
#[local] Arguments num_lt : simpl never.
#[local] Arguments num_le : simpl never.

(** ** Memory *)

Lemma slice_in {A} (l : list A) a b : 0 <= a -> a <= b -> b <= slen l -> slice l a b = take (Z.to_nat (b - a)) (drop (Z.to_nat a) l).
Proof. intros. unfold slice, clamp_index. zbool. by rewrite !Z.min_l by lia. Qed.

Lemma lookup_slice {A} (l : list A) a b k : 0 <= a -> a <= b -> b <= slen l -> (k < Z.to_nat (b - a))%nat -> slice l a b !! k = l !! (Z.to_nat a + k)%nat.
Proof. intros. rewrite slice_in by done. rewrite lookup_take_lt by done. by rewrite lookup_drop. Qed.

Lemma slen_slice_in {A} (l : list A) a b : 0 <= a -> a <= b -> b <= slen l -> slen (slice l a b) = b - a.
Proof. intros. rewrite slice_in by done. unfold slen in *. rewrite length_take, length_drop. lia. Qed.

Lemma subarray_in l a b : 0 <= a -> a <= b -> b <= slen l -> subarray l a b = slice l a b.
Proof. intros. unfold subarray. by rewrite !Z.min_l, Z.max_r by lia. Qed.

Lemma overwrite_lookup i bs m k : 0 <= i -> i + slen bs <= slen m ->
  overwrite i bs m !! k = if bool_decide (i <= Z.of_nat k < i + slen bs) then bs !! (k - Z.to_nat i)%nat else m !! k.
Proof.
  unfold overwrite, slen. intros. case_bool_decide as Hk.
  - rewrite lookup_app_r, length_take, Nat.min_l by (rewrite ?length_take; lia). rewrite lookup_app_l by lia. done.
  - destruct (decide (Z.of_nat k < i)).
    + rewrite lookup_app_l by (rewrite length_take; lia). by rewrite lookup_take_lt by lia.
    + rewrite lookup_app_r, length_take, Nat.min_l by (rewrite ?length_take; lia).
      rewrite lookup_app_r, lookup_drop by lia. f_equal. lia.
Qed.

Lemma slen_overwrite i bs m : 0 <= i -> i + slen bs <= slen m -> slen (overwrite i bs m) = slen m.
Proof. unfold overwrite, slen. rewrite !length_app, length_take, length_drop. lia. Qed.

(** The byte at an address. *)
Definition cell (st : store) (b : Z) (k : Z) : option Z := if k <? 0 then None else default [] (st !! b) !! Z.to_nat k.

(** A view that lies in its memory. *)
Definition valid (st : store) (v : view_) : Prop := 0 <= v_off v /\ 0 <= v_len v /\ v_off v + v_len v <= slen (memory st v).

Lemma slen_bytes st v : valid st v -> slen (bytes st v) = v_len v.
Proof. unfold valid, bytes, slen. rewrite length_take, length_drop. lia. Qed.

Lemma bytes_cell st v k : valid st v -> (k < Z.to_nat (v_len v))%nat -> bytes st v !! k = cell st (v_buf v) (v_off v + Z.of_nat k).
Proof.
  intros (Ho & Hl & _) Hk. unfold bytes, cell. rewrite lookup_take_lt by done. rewrite lookup_drop. zbool.
  unfold memory. f_equal. lia.
Qed.

Lemma set_bytes_cell st v i bs b k : valid st v -> 0 <= i -> i + slen bs <= v_len v ->
  cell (set_bytes st v i bs) b k =
  if bool_decide (b = v_buf v /\ v_off v + i <= k < v_off v + i + slen bs) then bs !! Z.to_nat (k - v_off v - i) else cell st b k.
Proof.
  intros (Ho & Hl & Hm) Hi Hb. unfold set_bytes, cell.
  destruct (decide (b = v_buf v)) as [->|Hne].
  - rewrite lookup_alter_eq. destruct (st !! v_buf v) as [m|] eqn:Em.
    + unfold memory in Hm. rewrite Em in Hm. simpl in Hm |- *. destruct (Z.ltb_spec k 0).
      * rewrite bool_decide_eq_false_2; [done|]. intros [_ ?]. lia.
      * rewrite overwrite_lookup by lia. rewrite Z2Nat.id by done.
        rewrite (bool_decide_ext (v_off v + i <= k < v_off v + i + slen bs) (v_buf v = v_buf v /\ v_off v + i <= k < v_off v + i + slen bs)) by tauto.
        case_bool_decide; [f_equal; lia|done].
    + unfold memory in Hm. rewrite Em in Hm. change (slen (default [] None)) with 0 in Hm. slen_pos.
      rewrite bool_decide_eq_false_2; [done|]. intros [_ ?]. pose proof (slen_nonneg bs). lia.
  - rewrite (lookup_alter_ne) by done. rewrite bool_decide_eq_false_2 by tauto. done.
Qed.

(** ** Copying *)

(** [st'] is [st] with [n] bytes moved from [from] in one memory to [to] in another. *)
Definition moved (st st' : store) (sb from db to n : Z) : Prop :=
  forall b k, cell st' b k = if bool_decide (b = db /\ to <= k < to + n) then cell st sb (from + (k - to)) else cell st b k.

Lemma moved_none st sb from db to n : n <= 0 -> moved st st sb from db to n.
Proof. intros Hn b k. rewrite bool_decide_eq_false_2 by lia. done. Qed.

Lemma set_bytes_moved st this target ts ss n : valid st this -> valid st target -> 0 <= ss -> 0 <= ts -> 0 <= n -> ss + n <= v_len this -> ts + n <= v_len target ->
  moved st (set_bytes st target ts (slice (bytes st this) ss (ss + n))) (v_buf this) (v_off this + ss) (v_buf target) (v_off target + ts) n.
Proof.
  intros Hv Hw Hs Ht Hn Hss Hts b k. pose proof (slen_bytes _ _ Hv) as Hl.
  assert (En : slen (slice (bytes st this) ss (ss + n)) = n) by (rewrite slen_slice_in; lia).
  rewrite set_bytes_cell by (rewrite ?En; done || lia). rewrite En. case_bool_decide as Hk; [|done].
  rewrite lookup_slice by lia. rewrite bytes_cell by (done || lia). f_equal. lia.
Qed.

Lemma set_bytes_nil st v i : 0 <= v_off v + i -> set_bytes st v i [] = st.
Proof.
  intros Hi. unfold set_bytes, overwrite. apply map_eq. intros b. destruct (decide (b = v_buf v)) as [->|Hne].
  - rewrite lookup_alter_eq. destruct (st !! v_buf v) as [m|]; [|done]. simpl. by rewrite Nat.add_0_r, take_drop.
  - by rewrite lookup_alter_ne.
Qed.

Lemma subarray_nil l a b : b <= a -> 0 <= a -> subarray l a b = [].
Proof.
  intros. unfold subarray, slice, clamp_index. pose proof (slen_nonneg l). zbool; try lia.
  match goal with |- take ?n _ = _ => replace n with 0%nat by lia end. done.
Qed.

(** A bound after [toInteger]. *)
Definition bound (value : option num) (default_ : Z) : Z := from_option (fun x => toInteger x 0) default_ value.

(** How many bytes there are to copy. *)
Definition copy_count (this target : view_) (ts ss se : Z) : Z := Z.max 0 (Z.min (Z.min se (v_len this) - ss) (v_len target - ts)).

(** The step that moves bytes, for an end at or after the start or an end of 0. *)
Lemma copy_step same st this target ts ss e n : valid st this -> valid st target -> (same = true -> this = target) ->
  0 <= ts < v_len target -> 0 <= ss <= v_len this -> 0 <= n -> e = ss + n \/ (n = 0 /\ 0 <= e <= ss) -> ss + n <= v_len this -> ts + n <= v_len target ->
  moved st (if same then copyWithin st this ts ss e else set_bytes st target ts (subarray (bytes st this) ss e))
    (v_buf this) (v_off this + ss) (v_buf target) (v_off target + ts) n.
Proof.
  intros Hv Hw Hsame Ht Hs Hn He Hsn Htn. pose proof (slen_bytes _ _ Hv) as Hl. destruct same.
  - specialize (Hsame eq_refl). subst target. unfold copyWithin. rewrite !(Z.min_l _ (v_len this)) by lia.
    destruct He as [-> | [-> He]].
    + replace (Z.min (ss + n - ss) (v_len this - ts)) with n by lia.
      destruct (Z.ltb_spec 0 n); [by apply set_bytes_moved; lia || done|apply moved_none; lia].
    + replace (0 <? Z.min (e - ss) (v_len this - ts)) with false by lia. by apply moved_none.
  - destruct He as [-> | [-> He]].
    + rewrite subarray_in by lia. apply set_bytes_moved; done || lia.
    + destruct Hw as [? _]. rewrite subarray_nil, set_bytes_nil by lia. by apply moved_none.
Qed.

(** [copy] after its checks. *)
Lemma copy_core same st this target ts ss se : valid st this -> valid st target -> (same = true -> this = target) ->
  0 <= ts -> 0 <= ss <= v_len this -> 0 <= se ->
  (copy_body same st this target ts ss se).2 = (if (se =? 0) && (ts <? v_len target) then - ss else copy_count this target ts ss se) /\
  moved st (copy_body same st this target ts ss se).1 (v_buf this) (v_off this + ss) (v_buf target) (v_off target + ts) (copy_count this target ts ss se).
Proof.
  intros Hv Hw Hsame Ht Hs He. unfold copy_body, copy_count.
  destruct (Z.leb_spec (v_len target) ts) as [Hle|Hlt].
  { replace (ts <? v_len target) with false by lia. rewrite andb_false_r. split; [simpl; lia|apply moved_none; lia]. }
  replace (ts <? v_len target) with true by lia. rewrite andb_true_r.
  destruct ((0 <? se) && (se <? ss)) eqn:Hcut.
  { rewrite Z.eqb_refl. split; [replace (se =? 0) with false by lia; simpl; lia|apply moved_none; lia]. }
  destruct (Z.eqb_spec se ss) as [->|Hne].
  { split; [destruct (Z.eqb_spec ss 0); simpl; lia|apply moved_none; lia]. }
  destruct ((v_len target =? 0) || (v_len this =? 0)) eqn:Hz.
  { split; [replace (se =? 0) with false by lia; simpl; lia|apply moved_none; lia]. }
  split.
  - simpl. destruct (Z.eqb_spec se 0), (Z.ltb_spec (v_len this) se);
      match goal with |- context [v_len target - ts <? ?x] => destruct (Z.ltb_spec (v_len target - ts) x) end; lia.
  - apply copy_step; try done; try lia. destruct (Z.ltb_spec (v_len this) se);
      match goal with |- context [v_len target - ts <? ?x] => destruct (Z.ltb_spec (v_len target - ts) x) end; lia.
Qed.

(** The checks of [copy]. *)
Lemma copy_checks same st this target a b c : 0 <= v_len this -> v_len this < 2 ^ 32 ->
  let ts := bound a 0 in let ss := bound b 0 in let se := bound c (v_len this) in
  copy same st this target a b c =
  if ts <? 0 then inl (OutOfRange "targetStart" (RAtLeast 0))
  else if (ss <? 0) || (v_len this <? ss) then inl (OutOfRange "sourceStart" (RBetween 0 (v_len this)))
  else if (se <? 0) || (MAX_UINT32 <=? se) then inl (OutOfRange "sourceEnd" (if se <? 0 then RAtLeast 0 else RBelow MAX_UINT32))
  else inr (copy_body same st this target ts ss se).
Proof.
  intros H0 H32 ts ss se. unfold copy.
  assert (copy_targetStart a = if ts <? 0 then inl (OutOfRange "targetStart" (RAtLeast 0)) else inr ts) as -> by by destruct a.
  assert (copy_sourceStart (v_len this) b = if (ss <? 0) || (v_len this <? ss) then inl (OutOfRange "sourceStart" (RBetween 0 (v_len this))) else inr ss) as ->.
  { subst ss. destruct b as [b|]; simpl.
    - destruct (_ || _) eqn:Hb; [done|]. by replace (MAX_UINT32 <=? toInteger b 0) with false by (unfold MAX_UINT32; lia).
    - by replace (v_len this <? 0) with false by lia. }
  assert (copy_sourceEnd (v_len this) c = if (se <? 0) || (MAX_UINT32 <=? se) then inl (OutOfRange "sourceEnd" (if se <? 0 then RAtLeast 0 else RBelow MAX_UINT32)) else inr se) as ->.
  { subst se. destruct c as [c|]; simpl.
    - destruct (_ <? 0); simpl; [done|]. by destruct (_ <=? _).
    - replace (v_len this <? 0) with false by lia. by replace (MAX_UINT32 <=? v_len this) with false by (unfold MAX_UINT32; lia). }
  destruct (_ <? 0); [done|]. simpl. destruct (_ || _); [done|]. simpl. by destruct (_ || _).
Qed.

(** [Buffer.prototype.copy] throws exactly when a bound is out of range.  Otherwise
    it moves the bytes that the source has from [sourceStart] on to [targetStart] in
    the target, as many as both ranges allow, reads all of them before it writes,
    also when the views overlap, and changes nothing else in any memory.  It returns
    their number, or [- sourceStart] when [sourceEnd] is 0. *)
Lemma copy_moves same st this target a b c : valid st this -> valid st target -> v_len this < 2 ^ 32 -> (same = true -> this = target) ->
  let ts := bound a 0 in let ss := bound b 0 in let se := bound c (v_len this) in
  let n := copy_count this target ts ss se in
  match copy same st this target a b c with
  | inl _ => ts < 0 \/ ss < 0 \/ v_len this < ss \/ se < 0 \/ 2 ^ 32 <= se
  | inr (st', m) =>
      (0 <= ts /\ 0 <= ss <= v_len this /\ 0 <= se < 2 ^ 32) /\
      m = (if (se =? 0) && (ts <? v_len target) then - ss else n) /\
      moved st st' (v_buf this) (v_off this + ss) (v_buf target) (v_off target + ts) n
  end.
Proof.
  intros Hv Hw H32 Hsame ts ss se n. rewrite copy_checks by (done || apply Hv). fold ts ss se.
  unfold MAX_UINT32. destruct (ts <? 0) eqn:Et; [lia|]. destruct ((ss <? 0) || (v_len this <? ss)) eqn:Es; [lia|].
  destruct ((se <? 0) || (2 ^ 32 <=? se)) eqn:Ee; [lia|].
  pose proof (copy_core same st this target ts ss se Hv Hw Hsame ltac:(lia) ltac:(lia) ltac:(lia)) as Hc.
  destruct (copy_body _ _ _ _ _ _ _) as [st' m]. split; [lia|exact Hc].
Qed.

(** Two bytes forward within one buffer. *)
Lemma copy_moves_witness :
  let v := mkView 7 1 4 in let st : store := {[7 := [9; 1; 2; 3; 4; 9]]} in
  match copy true st v v (Some (num_of_Z 1)) None (Some (num_of_Z 3)) with
  | inl _ => False
  | inr (st', m) => m = 3 /\ moved st st' 7 1 7 2 3 /\ st' !! 7 = Some [9; 1; 1; 2; 3; 9]
  end.
Proof.
  intros v st.
  pose proof (copy_moves true st v v (Some (num_of_Z 1)) None (Some (num_of_Z 3))
    ltac:(vm_compute; split_and!; discriminate) ltac:(vm_compute; split_and!; discriminate) ltac:(done) ltac:(done)) as H.
  vm_compute in H. vm_compute. destruct H as (_ & _ & H). split_and!; [done|exact H|done].
Defined.

(** With an end of 0 behind the start, [copy] returns a negative count. *)
Lemma copy_negative_count :
  let v := mkView 0 0 4 in let w := mkView 1 0 4 in let st : store := {[0 := [1; 2; 3; 4]; 1 := [0; 0; 0; 0]]} in
  copy false st v w None (Some (num_of_Z 2)) (Some (num_of_Z 0)) = inr (st, -2).
Proof. reflexivity. Qed.

(** ** Concatenation *)

Lemma allocUnsafe_spec n : 0 <= n -> allocUnsafe (Number (num_of_Z n)) =
  if kMaxLength <? n then inl (InvalidArgValue "size")
  else if n =? kMaxLength then inl (BufRangeError "Attempt to allocate Buffer larger than maximum size")
  else inr (zeros n).
Proof.
  intros Hn. unfold allocUnsafe, assertSize, validateNumber. simpl rbind. rewrite !num_le_Z.
  destruct (Z.ltb_spec kMaxLength n); zbool; simpl rbind; [done|]. rewrite num_lt_Z. zbool.
  unfold checked. rewrite num_le_Z. destruct (Z.eqb_spec n kMaxLength); zbool; simpl rbind; [done|]. unfold kMaxLength in *.
  unfold bit_or_0. rewrite num_trunc_Z, !to_int32_small by (rewrite ?to_int32_small; lia).
  unfold createBuffer, kMaxLength. rewrite num_lt_Z, num_trunc_Z. by zbool.
Qed.

Lemma overwrite_zeros p b n : slen b <= n -> overwrite (slen p) b (p ++ zeros n) = (p ++ b) ++ zeros (n - slen b).
Proof.
  unfold overwrite, slen, zeros. intros Hn. rewrite Nat2Z.id, take_app_length, <-app_assoc, drop_app_ge by lia.
  do 2 f_equal. replace (length p + length b - length p)%nat with (length b) by lia. rewrite drop_replicate. f_equal. lia.
Qed.

(** One round: as much of [b] as there is room for. *)
Lemma concat_copy b p n : 0 <= n ->
  let st : store := {[0 := b; 1 := p ++ zeros n]} in
  let m := Z.min (slen b) n in
  copyActual st (mkView 0 0 (slen b)) (mkView 1 0 (slen (p ++ zeros n))) (slen p) 0 (slen b) =
  (<[1 := (p ++ take (Z.to_nat n) b) ++ zeros (n - m)]> st, m).
Proof.
  intros Hn st m. unfold copyActual. simpl v_len. pose proof (slen_nonneg b).
  assert (slen (zeros n) = n) as Hz by (unfold slen, zeros; rewrite length_replicate; lia).
  rewrite slen_app, Hz. replace (slen p + n - slen p) with n by lia. rewrite !Z.sub_0_r, !Z.add_0_l.
  assert (bytes st (mkView 0 0 (slen b)) = b) as ->.
  { unfold bytes, memory, st. simpl. rewrite lookup_insert_eq. simpl. rewrite drop_0. unfold slen. by rewrite Nat2Z.id, firstn_all. }
  assert (Hset : forall bs, slen bs <= n -> set_bytes st (mkView 1 0 (slen p + n)) (slen p) bs = <[1 := (p ++ bs) ++ zeros (n - slen bs)]> st).
  { intros bs Hbs. unfold set_bytes. simpl. unfold st. rewrite Z.add_0_l. apply map_eq. intros k.
    destruct (decide (k = 1)) as [->|Hk].
    - rewrite lookup_alter_eq, lookup_insert_eq, lookup_insert_ne, lookup_singleton_eq by done. simpl. by rewrite overwrite_zeros.
    - by rewrite lookup_alter_ne, (lookup_insert_ne _ 1) by done. }
  replace (slen p + n - slen p) with n by lia. replace (negb (0 =? 0)) with false by done. simpl orb. subst m.
  destruct (Z.ltb_spec n (slen b)) as [Hlt|Hge].
  - replace (n <? slen b) with true by lia. replace (slen b <? n) with false by lia.
    assert (slice b 0 n = take (Z.to_nat n) b) as -> by (rewrite slice_in by lia; by rewrite Z.sub_0_r, drop_0).
    assert (slen (take (Z.to_nat n) b) = n) as Ht by (unfold slen in *; rewrite length_take; lia).
    rewrite Hset by lia. by rewrite Ht, Z.min_r by lia.
  - rewrite Z.ltb_irrefl, Hset, take_ge by (unfold slen in *; lia). by rewrite Z.min_l.
Qed.

(** The bytes of the items, when all of them are bytes. *)
Fixpoint item_bytes (l : list concat_item) : option (list Z) :=
  match l with
  | [] => Some []
  | CBytes b :: l => (b ++.) <$> item_bytes l
  | COther _ :: _ => None
  end.

Lemma concat_loop_spec l : forall p n, 0 <= n ->
  concat_loop l (p ++ zeros n) (slen p) =
  match item_bytes l with
  | None => inl (InvalidArgType "list")
  | Some bs => inr (p ++ take (Z.to_nat n) bs ++ zeros (n - Z.min (slen bs) n), slen p + Z.min (slen bs) n)
  end.
Proof.
  induction l as [|[b|k] l IH]; intros p n Hn; cbn [concat_loop item_bytes].
  - change (slen []) with 0. rewrite Z.min_l, take_nil, Z.sub_0_r by lia. simpl. do 2 f_equal. lia.
  - rewrite concat_copy by done. rewrite lookup_insert_eq. simpl default.
    pose proof (slen_nonneg b). assert (Hm : slen (take (Z.to_nat n) b) = Z.min (slen b) n) by (unfold slen; rewrite length_take; lia).
    replace (slen p + Z.min (slen b) n) with (slen (p ++ take (Z.to_nat n) b)) by (rewrite slen_app; lia).
    rewrite IH by lia. destruct (item_bytes l) as [bs|]; simpl; [|done]. do 2 f_equal.
    + rewrite <-!app_assoc. f_equal. pose proof (slen_nonneg bs). rewrite slen_app.
      destruct (decide (slen b <= n)).
      * rewrite take_ge by (unfold slen in *; lia). rewrite (take_app_ge b) by (unfold slen in *; lia). rewrite <-app_assoc. f_equal.
        f_equal; [f_equal; unfold slen in *; lia|f_equal; lia].
      * rewrite (take_app_le b) by (unfold slen in *; lia). f_equal. replace (n - Z.min (slen b) n) with 0 by lia. simpl. f_equal. lia.
    + rewrite !slen_app, Hm. pose proof (slen_nonneg bs). lia.
  - done.
Qed.

Lemma total_length l : forall n, foldl (fun n x => n + item_length x) n l = n + foldr (fun x n => item_length x + n) 0 l.
Proof. induction l as [|x l IH]; intros n; simpl; [lia|]. rewrite IH. lia. Qed.

Lemma zero_fill_zeros p n : 0 <= n -> zero_fill (slen p) (slen p + n) (p ++ zeros n) = p ++ zeros n.
Proof.
  intros Hn. unfold zero_fill. apply (for_up_inv (fun _ b => b = p ++ zeros n)); [lia|done| |done].
  intros i b Hi ->. eexists. split; [done|]. unfold set_at. apply list_insert_id.
  unfold slen, zeros in *. rewrite lookup_app_r by lia. apply lookup_replicate. change (0 mod 2 ^ 8) with 0. lia.
Qed.

(** The length of the result: what is asked for, or the sum of the lengths. *)
Definition concat_length (l : list concat_item) (length : arg) : res Z :=
  match length with
  | Undefined => inr (foldr (fun x n => item_length x + n) 0 l)
  | _ => validateOffset length "length" 0 MAX_SAFE
  end.

Lemma concat_unfold x l length : concat (x :: l) length =
  let! n := concat_length (x :: l) length in
  let! buffer := allocUnsafe (Number (num_of_Z n)) in
  let! (buffer, pos) := concat_loop (x :: l) buffer 0 in
  inr (if pos <? n then zero_fill pos n buffer else buffer).
Proof. unfold concat, concat_length. destruct length; [|done|done]. by rewrite total_length, Z.add_0_l. Qed.

(** [Buffer.concat] gives the bytes of the items one after the other, cut off or
    padded with zeros to the length that is asked for; every way it throws is named. *)
Lemma concat_joins l length : Forall (fun x => 0 <= item_length x) l ->
  concat l length =
  match l with
  | [] => inr []
  | _ =>
      let! n := concat_length l length in
      if kMaxLength <? n then inl (InvalidArgValue "size")
      else if n =? kMaxLength then inl (BufRangeError "Attempt to allocate Buffer larger than maximum size")
      else match item_bytes l with
           | None => inl (InvalidArgType "list")
           | Some bs => inr (take (Z.to_nat n) bs ++ zeros (n - slen bs))
           end
  end.
Proof.
  intros Hl. destruct l as [|x l]; [done|]. rewrite concat_unfold. remember (x :: l) as l' eqn:El. clear El.
  assert (Hn : match concat_length l' length with inr n => 0 <= n | inl _ => True end).
  { unfold concat_length. destruct length as [| |y].
    - clear -Hl. induction Hl as [|y k Hy _ IH]; simpl; lia.
    - done.
    - unfold validateOffset. destruct (BufferInts.index y); [|done]. destruct (_ || _) eqn:E; [done|lia]. }
  destruct (concat_length l' length) as [e|n]; [done|]. cbn [rbind]. rewrite allocUnsafe_spec by done.
  destruct (kMaxLength <? n); [done|]. destruct (n =? kMaxLength); [done|]. cbn [rbind].
  pose proof (concat_loop_spec l' [] n Hn) as Hc. change (slen []) with 0 in Hc. simpl app in Hc. rewrite Hc.
  destruct (item_bytes l') as [bs|]; [|done]. cbn [rbind]. rewrite Z.add_0_l. pose proof (slen_nonneg bs).
  destruct (Z.ltb_spec (Z.min (slen bs) n) n) as [Hlt|Hge].
  - rewrite take_ge by (unfold slen in *; lia). rewrite Z.min_l by lia.
    pose proof (zero_fill_zeros bs (n - slen bs) ltac:(lia)) as Hz. replace (slen bs + (n - slen bs)) with n in Hz by lia. by rewrite Hz.
  - unfold zeros. by replace (Z.to_nat (n - Z.min (slen bs) n)) with (Z.to_nat (n - slen bs)) by lia.
Qed.

Lemma concat_joins_witness :
  concat [CBytes [1; 2]; CBytes []; CBytes [3]] (Number (num_of_Z 5)) = inr [1; 2; 3; 0; 0].
Proof. rewrite (concat_joins [CBytes [1; 2]; CBytes []; CBytes [3]] (Number (num_of_Z 5))); [reflexivity|repeat constructor; simpl; discriminate]. Defined.

(** ** Comparison *)

(** The lexicographic order of byte strings. *)
Fixpoint lex (a b : list Z) : Z :=
  match a, b with
  | [], [] => 0
  | [], _ :: _ => -1
  | _ :: _, [] => 1
  | x :: a, y :: b => if x <? y then -1 else if y <? x then 1 else lex a b
  end.

Lemma lex_zero a : forall b, lex a b = 0 <-> a = b.
Proof.
  induction a as [|x a IH]; intros [|y b]; simpl; try done.
  destruct (Z.ltb_spec x y), (Z.ltb_spec y x); try (split; [lia|intros [=]; lia]).
  rewrite IH. split; [intros ->; f_equal; lia|by intros [= _ ->]].
Qed.

Lemma lex_opp a : forall b, lex b a = - lex a b.
Proof. induction a as [|x a IH]; intros [|y b]; simpl; try done. rewrite IH. destruct (Z.ltb_spec x y), (Z.ltb_spec y x); lia. Qed.

Lemma lex_trans a : forall b c, lex a b = -1 -> lex b c = -1 -> lex a c = -1.
Proof.
  induction a as [|x a IH]; intros [|y b] [|z c]; simpl; try done; intros H1 H2.
  destruct (Z.ltb_spec x y), (Z.ltb_spec y x), (Z.ltb_spec y z), (Z.ltb_spec z y), (Z.ltb_spec x z), (Z.ltb_spec z x); try lia; eauto.
Qed.

Lemma lex_app p a b : lex (p ++ a) (p ++ b) = lex a b.
Proof. induction p as [|x p IH]; [done|]. simpl. by rewrite Z.ltb_irrefl. Qed.

(** The loop finds the first difference. *)
Lemma compare_loop_lex a b : order3 (compare_loop a b (slen a) (slen b)).1 (compare_loop a b (slen a) (slen b)).2 = lex a b.
Proof.
  unfold compare_loop. pose proof (slen_nonneg a). pose proof (slen_nonneg b).
  apply (for_up_rule (fun i st => st = (slen a, slen b) /\ exists p a' b', a = p ++ a' /\ b = p ++ b' /\ slen p = i)
    (fun st => order3 st.1 st.2 = lex a b)); [lia|split; [done|by exists [], a, b]| |].
  - intros i st Hi (-> & p & a' & b' & Ea & Eb & Hp).
    destruct a' as [|x a']; [rewrite app_nil_r in Ea; subst; lia|]. destruct b' as [|y b']; [rewrite app_nil_r in Eb; subst; lia|].
    assert (Hx : a !!! Z.to_nat i = x) by (rewrite Ea; apply list_lookup_total_middle; unfold slen in *; lia).
    assert (Hy : b !!! Z.to_nat i = y) by (rewrite Eb; apply list_lookup_total_middle; unfold slen in *; lia).
    rewrite Hx, Hy. destruct (Z.eqb_spec x y) as [->|Hne]; simpl.
    + split; [done|]. exists (p ++ [y]), a', b'. rewrite <-!app_assoc, slen_app. split_and!; [done|done|]. change (slen [y]) with 1. lia.
    + rewrite Ea, Eb, lex_app. simpl. unfold order3. destruct (Z.ltb_spec x y), (Z.ltb_spec y x); lia.
  - intros st (-> & p & a' & b' & Ea & Eb & Hp). simpl. rewrite Ea, Eb, lex_app in *. rewrite !slen_app in *. unfold order3.
    pose proof (slen_nonneg a'). pose proof (slen_nonneg b').
    destruct a' as [|x a'], b' as [|y b']; simpl; change (slen (@nil Z)) with 0 in *; rewrite ?slen_cons in *; slen_pos; zbool; done || lia.
Qed.

Lemma from_bytes_spec l : bytes_ok l -> from_bytes l =
  if kMaxLength <=? slen l then inl (BufRangeError "Attempt to allocate Buffer larger than maximum size") else inr l.
Proof.
  intros Hl. unfold from_bytes, fromArrayLike, checked. rewrite length_fmap, num_le_Z. fold (slen l).
  destruct (Z.leb_spec kMaxLength (slen l)) as [Hm|Hm]; [done|]. cbn [rbind]. pose proof (slen_nonneg l). unfold kMaxLength in Hm.
  unfold bit_or_0. rewrite num_trunc_Z, !to_int32_small by (rewrite ?to_int32_small; lia).
  unfold createBuffer. rewrite num_lt_Z, num_trunc_Z. unfold kMaxLength. zbool. cbn [rbind]. f_equal.
  apply (for_up_inv (fun i buf => exists p q, l = p ++ q /\ slen p = i /\ buf = p ++ zeros (slen q))); [lia|by exists [], l| |].
  - intros i buf Hi (p & q & E & Hp & ->). destruct q as [|x q]; [rewrite app_nil_r in E; subst; lia|].
    eexists. split; [done|]. exists (p ++ [x]), q. rewrite <-app_assoc, slen_app. split_and!; [done|change (slen [x]) with 1; lia|].
    rewrite list_lookup_fmap, E, list_lookup_middle by (unfold slen in *; lia). simpl default. rewrite num_trunc_Z.
    rewrite E in Hl. apply Forall_app in Hl as [_ Hl]. inversion_clear Hl as [|?? Hx]. simpl in Hx.
    rewrite to_int32_small by lia. change 255 with (Z.ones 8). rewrite Z.land_ones, (Z.mod_small x) by lia.
    unfold set_at. rewrite Z.mod_small by lia. rewrite slen_cons, Z.add_comm, zeros_S by apply slen_nonneg.
    unfold slen in Hp. rewrite insert_app_r_alt by lia. replace (Z.to_nat i - length p)%nat with 0%nat by lia. by rewrite <-app_assoc.
  - intros buf (p & q & E & Hp & ->). assert (q = []) as -> by (apply slen_0; rewrite E, slen_app in Hp; slen_pos; lia).
    by rewrite E.
Qed.

Lemma static_compare_spec a b : bytes_ok a -> bytes_ok b -> slen a < kMaxLength -> slen b < kMaxLength -> static_compare a b = inr (lex a b).
Proof.
  intros Ha Hb Hla Hlb. unfold static_compare. rewrite !from_bytes_spec by done. zbool. cbn [rbind].
  pose proof (compare_loop_lex a b) as Hc. destruct (compare_loop a b _ _) as [x y]. by rewrite <-Hc.
Qed.

Lemma index_Z i : BufferInts.index (num_of_Z i) = Some i.
Proof. unfold BufferInts.index, num_of_Z. rewrite Qfloor_Z. by rewrite (proj2 (Qeq_bool_iff _ _)). Qed.

Lemma validateOffset_Z i name min max : validateOffset (Number (num_of_Z i)) name min max =
  if (i <? min) || (max <? i) then inl (OutOfRange name (RBetween min max)) else inr i.
Proof. unfold validateOffset. by rewrite index_Z. Qed.

(** [compare] with ranges that are in both buffers and do not trip the checks. *)
Lemma compare_spec this target s e ts te : bytes_ok target -> slen target < kMaxLength -> slen this < kMaxLength ->
  0 <= s <= e -> e <= slen target -> e <= slen this -> 0 <= ts <= te -> te <= slen this ->
  compare this target (Number (num_of_Z s)) (Number (num_of_Z e)) (Some (num_of_Z ts)) (Some (num_of_Z te)) =
  inr (lex (slice this ts te) (slice target s e)).
Proof.
  intros Hb Hl Hl' Hs He He' Ht Hte. unfold compare, target_bound, this_bound, zero. change (Fin 0) with (num_of_Z 0).
  rewrite from_bytes_spec by done. replace (kMaxLength <=? slen target) with false by lia. cbn [rbind].
  assert (Hv : forall i n max, 0 <= i <= max -> validateOffset (Number (num_of_Z i)) n 0 max = inr i).
  { intros i n max Hi. rewrite validateOffset_Z. by replace ((i <? 0) || (max <? i)) with false by lia. }
  repeat (rewrite Hv by lia; cbn [rbind]). rewrite !num_lt_Z, !num_le_Z.
  replace ((s <? 0) || (slen target <? e) || (ts <? 0) || (slen this <? te)) with false by lia.
  assert (Hnil : forall (l : list Z) a, 0 <= a -> a <= slen l -> slice l a a = []) by (intros; rewrite slice_in by lia; by rewrite Z.sub_diag).
  assert (Hlen : forall (l : list Z) a b, 0 <= a -> a < b -> b <= slen l -> exists x r, slice l a b = x :: r).
  { intros l a b ???. pose proof (slen_slice_in l a b ltac:(lia) ltac:(lia) ltac:(lia)) as Hn.
    destruct (slice l a b); [change (slen []) with 0 in Hn; lia|eauto]. }
  destruct (Z.leb_spec te ts), (Z.leb_spec e s); simpl.
  - replace te with ts by lia. replace e with s by lia. by rewrite !Hnil by lia.
  - replace te with ts by lia. rewrite Hnil by lia. by destruct (Hlen target s e) as (? & ? & ->); [lia..|].
  - replace e with s by lia. rewrite Hnil by lia. by destruct (Hlen this ts te) as (? & ? & ->); [lia..|].
  - unfold to_uint32. rewrite !num_trunc_Z, !Z.mod_small by (unfold kMaxLength in *; lia).
    rewrite !subarray_in by lia. pose proof (compare_loop_lex (slice this ts te) (slice target s e)) as Hc.
    rewrite !slen_slice_in in Hc by lia. destruct (compare_loop _ _ _ _) as [x y]. by rewrite <-Hc.
Qed.

(** [Buffer.compare] is the lexicographic order of bytes: 0 exactly for equal bytes,
    opposite when the arguments are swapped, transitive; [equals] is equality; and
    [compare] with ranges compares the ranges. *)
Lemma compare_orders a b : bytes_ok a -> bytes_ok b -> slen a < kMaxLength -> slen b < kMaxLength ->
  static_compare a b = inr (lex a b) /\
  (static_compare a b = inr 0 <-> a = b) /\
  static_compare b a = inr (- lex a b) /\
  (forall c, bytes_ok c -> slen c < kMaxLength -> static_compare a b = inr (-1) -> static_compare b c = inr (-1) -> static_compare a c = inr (-1)) /\
  equals false a b = inr (bool_decide (a = b)) /\
  (forall s e ts te, 0 <= s <= e -> e <= slen b -> e <= slen a -> 0 <= ts <= te -> te <= slen a ->
     compare a b (Number (num_of_Z s)) (Number (num_of_Z e)) (Some (num_of_Z ts)) (Some (num_of_Z te)) = inr (lex (slice a ts te) (slice b s e))).
Proof.
  intros Ha Hb Hla Hlb. unfold equals. rewrite !static_compare_spec by done. split_and!.
  - done.
  - rewrite <-(lex_zero a b). split; [by intros [= ->]|by intros ->].
  - by rewrite lex_opp.
  - intros c Hc Hlc. rewrite !static_compare_spec by done. intros [= H1] [= H2]. f_equal. by eapply lex_trans.
  - cbn [rbind]. f_equal. case_bool_decide as E; [by rewrite (proj2 (lex_zero a b) E)|].
    apply Z.eqb_neq. by rewrite lex_zero.
  - intros. by apply compare_spec.
Qed.

Lemma compare_orders_witness :
  static_compare [1; 2] [1; 3; 0] = inr (-1) /\ static_compare [1; 3; 0] [1; 2] = inr 1 /\
  compare [1; 2; 3] [0; 1; 2] (Number (num_of_Z 1)) (Number (num_of_Z 3)) (Some (num_of_Z 0)) (Some (num_of_Z 2)) = inr 0.
Proof.
  assert (Hok : forall l, forallb (fun b => (0 <=? b) && (b <? 256)) l = true -> bytes_ok l).
  { intros l Hl. apply Forall_forall. intros x Hx. rewrite forallb_forall in Hl. apply list_elem_of_In, Hl in Hx. lia. }
  destruct (compare_orders [1; 2] [1; 3; 0] ltac:(by apply Hok) ltac:(by apply Hok) eq_refl eq_refl) as (H1 & _ & H2 & _).
  destruct (compare_orders [1; 2; 3] [0; 1; 2] ltac:(by apply Hok) ltac:(by apply Hok) eq_refl eq_refl) as (_ & _ & _ & _ & _ & H3).
  split_and!; [exact H1|exact H2|]. rewrite H3 by (unfold slen; simpl; lia). reflexivity.
Defined.

(** The end of the target range is checked against the length of this buffer, so a
    comparison of ranges that are in their buffers throws. *)
Lemma compare_checks_wrong_bound :
  compare [1; 2; 3] [1; 2; 3; 4; 5] (Number (num_of_Z 2)) (Number (num_of_Z 5)) (Some (num_of_Z 0)) (Some (num_of_Z 3)) =
  inl (OutOfRange "sourceEnd" (RBetween 0 3)).
Proof. reflexivity. Qed.

(** ** Swapping *)

(** Each group of [n] bytes in reverse order. *)
Fixpoint rev_groups (n count : nat) (b : list Z) : list Z :=
  match count with O => b | S c => reverse (take n b) ++ rev_groups n c (drop n b) end.

Lemma length_rev_groups n c : forall b, length (rev_groups n c b) = length b.
Proof.
  induction c as [|c IH]; intros b; [done|]. simpl. rewrite length_app, length_reverse, IH, <-length_app. by rewrite take_drop.
Qed.

Lemma rev_groups_twice n c : forall b, (n * c <= length b)%nat -> rev_groups n c (rev_groups n c b) = b.
Proof.
  induction c as [|c IH]; intros b Hb; [done|]. simpl.
  assert (Hl : length (reverse (take n b)) = n) by (rewrite length_reverse, length_take; lia).
  rewrite take_app_length', drop_app_length' by done. rewrite reverse_involutive, IH by (rewrite length_drop; lia). apply take_drop.
Qed.

Lemma swap_app p l i j : 0 <= i < slen l -> 0 <= j < slen l -> swap (p ++ l) (slen p + i) (slen p + j) = p ++ swap l i j.
Proof.
  intros Hi Hj. unfold swap, slen in *.
  assert (Hlen : forall k, 0 <= k -> Z.to_nat (Z.of_nat (length p) + k) = (length p + Z.to_nat k)%nat) by lia.
  rewrite !Hlen by lia. rewrite !list_lookup_total_alt, !lookup_app_r by lia. rewrite !insert_app_r.
  by replace (length p + Z.to_nat i - length p)%nat with (Z.to_nat i) by lia;
    replace (length p + Z.to_nat j - length p)%nat with (Z.to_nat j) by lia.
Qed.

(** A loop over groups that reverses each of them. *)
Lemma groups_loop n body b : (0 < n)%nat ->
  (forall g p q, length g = n -> body (slen p) (p ++ g ++ q) = p ++ reverse g ++ q) ->
  slen b mod Z.of_nat n = 0 ->
  for_up 0 (slen b / Z.of_nat n) (fun k b => Continue (body (k * Z.of_nat n) b)) b = rev_groups n (length b / n) b.
Proof.
  intros Hn Hbody Hmod. 
  assert (Hc : slen b / Z.of_nat n = Z.of_nat (length b / n)) by (unfold slen; by rewrite Nat2Z.inj_div).
  rewrite Hc.
  assert (Hlen : length b = (n * (length b / n))%nat) by (apply Nat.Div0.div_exact, Nat2Z.inj; rewrite Nat2Z.inj_mod; exact Hmod).
  remember (length b / n)%nat as c eqn:Ec. clear Ec Hc Hmod.
  apply (for_up_inv (fun i st => exists k p q, i = Z.of_nat k /\ (k <= c)%nat /\ length p = (k * n)%nat /\ length q = ((c - k) * n)%nat /\
     st = p ++ q /\ rev_groups n c b = p ++ rev_groups n (c - k) q)); [lia| | |].
  - exists 0%nat, [], b. rewrite Nat.sub_0_r. split_and!; done || lia.
  - intros i st Hi (k & p & q & -> & Hk & Hp & Hq & -> & E). 
    assert (Eb : body (Z.of_nat k * Z.of_nat n) (p ++ q) = p ++ reverse (take n q) ++ drop n q).
    { replace (Z.of_nat k * Z.of_nat n) with (slen p) by (unfold slen; lia).
      rewrite <-Hbody by (rewrite length_take; nia). by rewrite take_drop. }
    rewrite Eb. eexists. split; [done|].
    exists (S k), (p ++ reverse (take n q)), (drop n q). replace (c - k)%nat with (S (c - S k)) in E by lia. simpl in E.
    rewrite <-!app_assoc. rewrite !length_app, length_reverse, length_take, length_drop.
    split_and!; [lia|lia|nia|nia|done|done].
  - intros st (k & p & q & Hk & _ & Hp & Hq & -> & E). replace (c - k)%nat with 0%nat in * by lia. done.
Qed.

(** What a swap of groups of [n] bytes does. *)
Definition swap_reference (n : nat) (msg : string) (b : list Z) : res (list Z) :=
  if negb (slen b mod Z.of_nat n =? 0) then inl (BufRangeError msg) else inr (rev_groups n (length b / n) b).

Ltac swap_chunk :=
  intros g p q Hg; repeat (destruct g as [|? g]; try discriminate Hg);
  rewrite <-(Z.add_0_r (slen p)) at 1; rewrite <-?Z.add_assoc; simpl Z.add;
  rewrite !swap_app by (unfold slen; simpl; lia); done.

Lemma swap16_spec b : swap16 b = swap_reference 2 "Buffer size must be a multiple of 16-bits" b.
Proof.
  unfold swap16, swap_reference. change (Z.of_nat 2) with 2. destruct (Z.eqb_spec (slen b mod 2) 0) as [Hm|]; [|done]. simpl negb. f_equal.
  apply (groups_loop 2 (fun i b => swap b i (i + 1))); [lia| |done]. swap_chunk.
Qed.

Lemma swap32_spec b : swap32 b = swap_reference 4 "Buffer size must be a multiple of 32-bits" b.
Proof.
  unfold swap32, swap_reference. change (Z.of_nat 4) with 4. destruct (Z.eqb_spec (slen b mod 4) 0) as [Hm|]; [|done]. simpl negb. f_equal.
  apply (groups_loop 4 (fun i b => swap (swap b i (i + 3)) (i + 1) (i + 2))); [lia| |done]. swap_chunk.
Qed.

Lemma swap64_spec b : swap64 b = swap_reference 8 "Buffer size must be a multiple of 64-bits" b.
Proof.
  unfold swap64, swap_reference. change (Z.of_nat 8) with 8. destruct (Z.eqb_spec (slen b mod 8) 0) as [Hm|]; [|done]. simpl negb. f_equal.
  apply (groups_loop 8 (fun i b => swap (swap (swap (swap b i (i + 7)) (i + 1) (i + 6)) (i + 2) (i + 5)) (i + 3) (i + 4))); [lia| |done]. swap_chunk.
Qed.

Lemma swap_twice n msg b b' : (0 < n)%nat -> swap_reference n msg b = inr b' -> swap_reference n msg b' = inr b.
Proof.
  unfold swap_reference, slen. intros Hn. destruct (negb _) eqn:E; [done|]. intros [= <-]. rewrite length_rev_groups, E. f_equal.
  apply rev_groups_twice. apply Nat.Div0.mul_div_le.
Qed.

(** [swap16], [swap32] and [swap64] reverse each group of two, four and eight bytes,
    throw when the length is no multiple of that, and undo themselves. *)
Lemma swaps_reverse b :
  swap16 b = swap_reference 2 "Buffer size must be a multiple of 16-bits" b /\
  swap32 b = swap_reference 4 "Buffer size must be a multiple of 32-bits" b /\
  swap64 b = swap_reference 8 "Buffer size must be a multiple of 64-bits" b /\
  (forall b', swap16 b = inr b' -> swap16 b' = inr b) /\
  (forall b', swap32 b = inr b' -> swap32 b' = inr b) /\
  (forall b', swap64 b = inr b' -> swap64 b' = inr b).
Proof.
  split_and!; [apply swap16_spec|apply swap32_spec|apply swap64_spec|..]; intros b';
    rewrite ?swap16_spec, ?swap32_spec, ?swap64_spec; apply swap_twice; lia.
Qed.
