(* ===== verification/BufferStrings.v ===== *)
(** * Buffers and strings

    Models the functions of [src/ext/node/polyfills/internal/buffer.mjs] that turn
    strings into bytes and back, fill and search: [toString], [write],
    [Buffer.from] of a string, [byteLength], [fill], [indexOf], [lastIndexOf] and
    [includes], with the table of encodings; and
    [src/ext/node/polyfills/internal/normalize_encoding.mjs].

    The UTF-8 and base64 codecs, [toLowerCase] and the number of a string are
    parameters; the UTF-8 decoding of a buffer is [decoder_decode], which is the
    engine's after a byte order mark is dropped ([op_encoding_decode_utf8] of
    [src/ext/web/lib.rs]). *)

From Stdlib Require Import ZArith Lia QArith Qround.
From stdpp Require Import base list numbers strings.
From S2P Require Import Prelude JsNumber BufferBinding StringDecoder BufferInts BufferOps.

#[local] Open Scope Z_scope.
#[local] Open Scope buf_scope.

(** ** Encodings *)

Inductive enc := Ascii | Base64 | Base64url | Hex | Latin1 | Ucs2 | Utf8 | Utf16le.

#[export] Instance enc_eq_dec : EqDecision enc.
Proof. solve_decision. Defined.

Section Strings.
Context (toLowerCase : str -> str).
(** [TextEncoder.encode], [TextDecoder.decode], [core.byteLength], the base64 codecs. *)
Context (utf8_encode : str -> list Z) (utf8_decode : list Z -> str) (utf8_length : str -> Z).
Context (base64ToBytes base64UrlToBytes : str -> list Z) (base64Encode base64UrlEncode : list Z -> str).
(** The bytes that [encodeInto] writes into so much space. *)
Context (encodeInto : str -> Z -> list Z).

Definition getEncodingOps (encoding : str) : option enc :=
  let encoding := toLowerCase encoding in
  let eqs s := str_eqb encoding (lit s) in
  let hex := if eqs "hex"%string then Some Hex else None in
  match slen encoding with
  | 4 => if eqs "utf8"%string then Some Utf8 else if eqs "ucs2"%string then Some Ucs2 else None
  | 5 => if eqs "utf-8"%string then Some Utf8 else if eqs "ascii"%string then Some Ascii else if eqs "ucs-2"%string then Some Ucs2 else None
  | 7 => if eqs "utf16le"%string then Some Utf16le else None
  | 8 => if eqs "utf-16le"%string then Some Utf16le else None
  | 6 => if eqs "latin1"%string || eqs "binary"%string then Some Latin1 else if eqs "base64"%string then Some Base64 else hex
  | 3 => hex
  | 9 => if eqs "base64url"%string then Some Base64url else None
  | _ => None
  end.

Definition base64ByteLength (s : str) (bytes : Z) : Z :=
  let is_pad i := bool_decide (charCodeAt s i = Some 0x3D) in
  let bytes := if is_pad (bytes - 1) then bytes - 1 else bytes in
  let bytes := if (1 <? bytes) && is_pad (bytes - 1) then bytes - 1 else bytes in
  Z.shiftr (bytes * 3 mod 2 ^ 32) 2.

Definition ops_byteLength (e : enc) (s : str) : Z :=
  match e with
  | Ascii | Latin1 => slen s
  | Base64 | Base64url => base64ByteLength s (slen s)
  | Hex => Z.shiftr (slen s mod 2 ^ 32) 1
  | Ucs2 | Utf16le => slen s * 2
  | Utf8 => utf8_length s
  end.

(** [byteLength] of a string; [encoding] is falsy or a string. *)
Definition byteLength (s : str) (encoding : option str) : Z :=
  if slen s =? 0 then 0
  else
    match encoding with
    | None => utf8_length s
    | Some encoding =>
        if slen encoding =? 0 then utf8_length s
        else match getEncodingOps encoding with None => utf8_length s | Some e => ops_byteLength e s end
    end.

(** *** From bytes to strings *)

Definition latin1Slice (buf : list Z) (start end_ : Z) : str :=
  let end_ := Z.min (slen buf) end_ in
  for_up start end_ (fun i ret => Continue (ret ++ [buf !!! Z.to_nat i])) [].

(** The table of two digits for a byte. *)
Definition hex_table (b : Z) : str :=
  let digit d := if d <? 10 then 48 + d else 87 + d in [digit (b / 16); digit (b mod 16)].

Definition hexSlice (buf : list Z) (start end_ : Z) : str :=
  let len := slen buf in
  let start := if start <=? 0 then 0 else start in
  let end_ := if (end_ <=? 0) || (len <? end_) then len else end_ in
  for_up start end_ (fun i out => Continue (out ++ hex_table (buf !!! Z.to_nat i))) [].

Definition ops_slice (e : enc) (buf : list Z) (start end_ : Z) : str :=
  match e with
  | Ascii => bytesToAscii (subarray buf start end_)
  | Base64 => base64Encode (subarray buf start end_)
  | Base64url => base64UrlEncode (subarray buf start end_)
  | Hex => hexSlice buf start end_
  | Latin1 => latin1Slice buf start end_
  | Ucs2 | Utf16le => bytesToUtf16le (subarray buf start end_)
  | Utf8 => utf8_decode (subarray buf start end_)
  end.

(** [start <= 0] and the like on a number or undefined. *)
Definition opt_num (a : option num) : num := default NaN a.

(** [toString(encoding, start, end)]; undefined compares like NaN. *)
Definition buffer_toString (buf : list Z) (encoding : option str) (start end_ : option num) : res str :=
  let len := slen buf in
  let range :=
    if num_le (opt_num start) (num_of_Z 0) then Some 0
    else if num_le (num_of_Z len) (opt_num start) then None
    else Some (bit_or_0 (opt_num start)) in
  match range with
  | None => inr []
  | Some start =>
      let end_ := match end_ with
                  | None => len
                  | Some x => if num_lt (num_of_Z len) x then len else bit_or_0 x
                  end in
      if end_ <=? start then inr []
      else
        match encoding with
        | None => inr (utf8_decode (subarray buf start end_))
        | Some encoding =>
            match getEncodingOps encoding with
            | None => inl UnknownEncoding
            | Some e => inr (ops_slice e buf start end_)
            end
        end
  end.

(** *** From strings to bytes *)

Definition encode (e : enc) (s : str) (room : Z) : list Z :=
  match e with
  | Ascii | Latin1 => asciiToBytes s
  | Base64 => base64ToBytes s
  | Base64url => base64UrlToBytes s
  | Hex => hexToBytes s
  | Ucs2 | Utf16le => utf16leToBytes s (Some room)
  | Utf8 => utf8_encode s
  end.

Definition blitBuffer (src dst : list Z) (offset byteLength : Z) : list Z * Z :=
  let bytesToWrite := Z.min (Z.min byteLength (slen src)) (slen dst - offset) in
  let src := if bytesToWrite <? slen src then subarray src 0 bytesToWrite else src in
  (overwrite offset src dst, bytesToWrite).

(** A length of 0 is falsy and counts as Infinity. *)
Definition utf8Write (buf : list Z) (s : str) (offset length : Z) : list Z * Z :=
  let maxLength := if length =? 0 then slen buf - offset else Z.min length (slen buf - offset) in
  let bs := encodeInto s (if negb (offset =? 0) || (maxLength <? slen buf) then slen (subarray buf offset (maxLength + offset)) else slen buf) in
  (overwrite offset bs buf, slen bs).

Definition ops_write (e : enc) (buf : list Z) (s : str) (offset length : Z) : list Z * Z :=
  match e with
  | Utf8 => utf8Write buf s offset length
  | _ => blitBuffer (encode e s (slen buf - offset)) buf offset length
  end.

(** The arguments of [write] after the string. *)
Inductive write_arg := WUndefined | WString (s : str) | WNumber (x : num) | WOther.

Definition to_arg (a : write_arg) : arg := match a with WNumber x => Number x | WUndefined => Undefined | _ => NotNumber end.

(** The offset, the length and the encoding, when there is an offset. *)
Definition write_args (buf : list Z) (offset length : write_arg) (encoding : option str) : res (Z * Z * option str) :=
  match offset, length with
  | WString e, WUndefined => inr (0, slen buf, Some e)
  | _, _ =>
      let! offset := validateOffset (to_arg offset) "offset" 0 (slen buf) in
      let remaining := slen buf - offset in
      match length with
      | WUndefined => inr (offset, remaining, encoding)
      | WString e => inr (offset, remaining, Some e)
      | _ =>
          let! length := validateOffset (to_arg length) "length" 0 (slen buf) in
          inr (offset, if remaining <? length then remaining else length, encoding)
      end
  end.

(** The write itself; an empty encoding is falsy. *)
Definition write_encoded (buf : list Z) (s : str) (offset length : Z) (encoding : option str) : res (list Z * Z) :=
  match encoding with
  | None => inr (utf8Write buf s offset length)
  | Some encoding =>
      if slen encoding =? 0 then inr (utf8Write buf s offset length)
      else
        match getEncodingOps encoding with
        | None => inl UnknownEncoding
        | Some e => inr (ops_write e buf s offset length)
        end
  end.

Definition write (buf : list Z) (s : str) (offset length : write_arg) (encoding : option str) : res (list Z * Z) :=
  match offset with
  | WUndefined => inr (utf8Write buf s 0 (slen buf))
  | _ => let! (offset, length, encoding) := write_args buf offset length encoding in write_encoded buf s offset length encoding
  end.

(** [slowCases] has one length more than that of the string decoder. *)
Definition util_slowCases (e : str) : option str :=
  let eqs s := str_eqb e (lit s) in
  match slen e with
  | 9 => if eqs "base64url"%string || eqs "BASE64URL"%string || str_eqb (toLowerCase e) (lit "base64url") then Some (lit "base64url") else None
  | _ => slowCases toLowerCase e
  end.

Definition util_normalizeEncoding (e : str) : option str :=
  if str_eqb e (lit "utf8") || str_eqb e (lit "utf-8") then Some (lit "utf8") else util_slowCases e.

Definition isEncoding (e : str) : bool := negb (slen e =? 0) && bool_decide (util_normalizeEncoding e <> None).

Definition fromString (s : str) (encoding : option str) : res (list Z) :=
  let encoding := match encoding with Some e => if slen e =? 0 then lit "utf8" else e | None => lit "utf8" end in
  if negb (isEncoding encoding) then inl UnknownEncoding
  else
    let length := to_int32 (byteLength s (Some encoding)) in
    let! buf := createBuffer (num_of_Z length) in
    let! (buf, actual) := write buf s (WString encoding) WUndefined None in
    inr (if negb (actual =? length) then subarray buf 0 actual else buf).

(** *** Filling *)

Inductive fill_value := FString (s : str) | FNumber (x : num) | FBool (b : bool) | FBytes (l : list Z) | FNullish.

(** [start] and [end]: a number, undefined, or a string. *)
Inductive fill_bound := BUndefined | BNumber (x : num) | BString (s : str).

(** The number of a string. *)
Context (string_number : str -> num).

Definition bound_num (a : fill_bound) : num :=
  match a with BUndefined => NaN | BNumber x => x | BString s => string_number s end.

(** What is left of the bounds and the encoding of a string value. *)
Definition fill_encoding (buf : list Z) (start end_ : fill_bound) (encoding : option str) : fill_bound * fill_bound * option str :=
  match start, end_ with
  | BString e, _ => (BNumber zero, BNumber (num_of_Z (slen buf)), Some e)
  | _, BString e => (start, BNumber (num_of_Z (slen buf)), Some e)
  | _, _ => (start, end_, encoding)
  end.

Definition fill_args (buf : list Z) (val : fill_value) (start end_ : fill_bound) (encoding : option str) : res (fill_bound * fill_bound * option str) :=
  match val with
  | FString _ =>
      let '(start, end_, encoding) := fill_encoding buf start end_ encoding in
      match encoding with
      | Some e => if isEncoding e then inr (start, end_, encoding) else inl (BufTypeError "Unknown encoding")
      | None => inr (start, end_, encoding)
      end
  | _ => inr (start, end_, encoding)
  end.

(** The value: a number, or what gives bytes. *)
Definition fill_code (val : fill_value) (encoding : option str) : Z + fill_value :=
  match val with
  | FString s =>
      let code := default 0 (charCodeAt s 0) in
      let eqs n := bool_decide (encoding = Some (lit n)) in
      if (slen s =? 1) && ((eqs "utf8"%string && (code <? 128)) || eqs "latin1"%string) then inl code
      else if slen s =? 0 then inl 0 else inr val
  | FNumber x => inl (Z.land (to_int32 (num_trunc x)) 255)
  | FBool b => inl (if b then 1 else 0)
  | FNullish => inl 0
  | FBytes l => inr val
  end.

(** The bytes of a value that is no number; a [Uint8Array] that is no [Buffer] is copied. *)
Definition fill_bytes (val : fill_value) (encoding : option str) : res (list Z) :=
  match val with FBytes l => inr l | FString s => fromString s encoding | _ => inr [] end.

(** The bytes of the value do not share memory with this buffer. *)
Definition fill (buf : list Z) (val : fill_value) (start end_ : fill_bound) (encoding : option str) : res (list Z) :=
  let! (start, end_, encoding) := fill_args buf val start end_ encoding in
  let len := num_of_Z (slen buf) in
  if num_lt (bound_num start) zero || num_lt len (bound_num start) || num_lt len (bound_num end_)
  then inl (BufRangeError "Out of range index")
  else if num_le (bound_num end_) (bound_num start) then inr buf
  else
    let start := BufferInts.to_uint32 (bound_num start) in
    let end_ := match end_ with BUndefined => slen buf | _ => BufferInts.to_uint32 (bound_num end_) end in
    match fill_code val encoding with
    | inl v => inr (for_up start end_ (fun i buf => Continue (set_at i v buf)) buf)
    | inr val =>
        let! bytes := fill_bytes val encoding in
        let len := slen bytes in
        if len =? 0 then inl (InvalidArgValue "value")
        else inr (for_up 0 (end_ - start) (fun i buf => Continue (set_at (i + start) (bytes !!! Z.to_nat (i mod len)) buf)) buf)
    end.

(** [encoding] is undefined or a string. *)
Definition alloc (size : arg) (val : option fill_value) (encoding : option str) : res (list Z) :=
  let! size := assertSize size in
  let! buffer := createBuffer size in
  match val with
  | None => inr buffer
  | Some val => fill buffer val (match encoding with Some e => BString e | None => BUndefined end) BUndefined None
  end.

(** *** Searching *)

Inductive search_value := SNumber (x : num) | SString (s : str) | SBytes (l : list Z) | SOther.

(** The byte offset: an integer or undefined, or a string that is the encoding. *)
Definition bidirectionalIndexOf (buffer : list Z) (val : search_value) (byteOffset : option Z + str) (encoding : option str) (dir : bool) : res (option Z) :=
  let '(byteOffset, encoding) :=
    match byteOffset with
    | inr e => (None, Some e)
    | inl o => ((fun x => Z.min 0x7fffffff (Z.max (-0x80000000) x)) <$> o, encoding)
    end in
  let offset := default (if dir then 0 else slen buffer) byteOffset in
  match val with
  | SNumber x => match indexOfNumber buffer (BufferInts.to_uint32 x) offset dir with Ok i => inr i | Throw _ => inl (BufTypeError "Multi byte number search is not supported") end
  | SString s =>
      match (match encoding with None => Some Utf8 | Some e => getEncodingOps e end) with
      | None => inl UnknownEncoding
      | Some e =>
          inr (indexOfBuffer buffer (match e with Ucs2 | Utf16le => utf16leToBytes s None | _ => encode e s 0 end) offset dir)
      end
  | SBytes l => inr (indexOfBuffer buffer l offset dir)
  | SOther => inl (InvalidArgType "value")
  end.

Definition includes (buffer : list Z) (val : search_value) (byteOffset : option Z + str) (encoding : option str) : res bool :=
  let! r := bidirectionalIndexOf buffer val byteOffset encoding true in
  inr (match r with Some i => negb (i =? -1) | None => false end).
End Strings.

(** ** The decoder of the module *)

Section Utf8.
(** The engine's decoding of UTF-8, with replacement characters and no special
    treatment of a byte order mark; for bytes whose string is not too long. *)
Context (new_from_utf8 : list Z -> str).

Definition op_encoding_decode_utf8 (buf : list Z) (ignore_bom : bool) : str :=
  let buf :=
    if negb ignore_bom && (slen buf >=? 3) && (byte_at buf 0 =? 0xEF) && (byte_at buf 1 =? 0xBB) && (byte_at buf 2 =? 0xBF)
    then sliceFrom buf 3 else buf in
  new_from_utf8 buf.

(** [decoder.decode(bytes)] with [const decoder = new TextDecoder()]. *)
Definition decoder_decode (bytes : list Z) : str := op_encoding_decode_utf8 bytes false.

(** [toString] of a buffer that holds a run of bytes, as the string decoder uses it. *)
Definition node_slice (toLowerCase : str -> str) (base64Encode base64UrlEncode : list Z -> str)
    (encoding : str) (bytes : list Z) : jsres str :=
  match buffer_toString toLowerCase decoder_decode base64Encode base64UrlEncode bytes (Some encoding) None None with
  | inl _ => Throw ERR_UNKNOWN_ENCODING
  | inr s => Ok s
  end.
End Utf8.
