(* ===== verification/BufferStringsTheorems.v ===== *)
(** * Buffers and strings: what the conversions keep

    A string that is written stays within its range of the buffer; bytes survive
    hexadecimal and latin1 text, strings survive UTF-16 (and UTF-8, when the codec
    keeps them); [fill] repeats its value; a [StringDecoder] gives what [toString]
    gives for all the bytes at once. *)

From Stdlib Require Import ZArith Lia QArith Qround.
From stdpp Require Import base list numbers strings sets.
From S2P Require Import Prelude JsNumber BufferBinding BufferTheorems StringDecoder StringDecoderProps StringDecoderTheorems BufferInts BufferIntsTheorems BufferOps BufferOpsTheorems BufferStrings.

#[local] Open Scope Z_scope.
#[local] Open Scope buf_scope.
#[local] Arguments num_of_Z : simpl never.
#[local] Arguments num_lt : simpl never.
#[local] Arguments num_le : simpl never.
#[local] Arguments num_trunc : simpl never.

(** What is known of the encoder: [encodeInto] writes a prefix that fits, all of it
    when there is room, and [core.byteLength] is the length. *)
Class Utf8Encoder (utf8_encode : str -> list Z) (utf8_length : str -> Z) (encodeInto : str -> Z -> list Z) : Prop := {
  into_prefix : forall s room, encodeInto s room `prefix_of` utf8_encode s;
  into_fits : forall s room, 0 <= room -> slen (encodeInto s room) <= room;
  into_all : forall s room, slen (utf8_encode s) <= room -> encodeInto s room = utf8_encode s;
  length_encode : forall s, utf8_length s = slen (utf8_encode s);
  encode_nil : utf8_encode [] = []
}.

(** Digits and lower-case letters. *)
Definition lower (s : str) : bool := forallb (fun c => ((48 <=? c) && (c <=? 57)) || ((97 <=? c) && (c <=? 122))) s.

Section Strings.
Context (toLowerCase : str -> str) (utf8_encode : str -> list Z) (utf8_decode : list Z -> str) (utf8_length : str -> Z).
Context (base64ToBytes base64UrlToBytes : str -> list Z) (base64Encode base64UrlEncode : list Z -> str).
Context (encodeInto : str -> Z -> list Z) {Hutf8 : Utf8Encoder utf8_encode utf8_length encodeInto}.
Context (Hlower : forall s, lower s = true -> toLowerCase s = s).

#[local] Abbreviation encode := (encode utf8_encode base64ToBytes base64UrlToBytes).
#[local] Abbreviation write := (write toLowerCase utf8_encode base64ToBytes base64UrlToBytes encodeInto).
#[local] Abbreviation fromString := (fromString toLowerCase utf8_encode utf8_length base64ToBytes base64UrlToBytes encodeInto).
#[local] Abbreviation toString := (buffer_toString toLowerCase utf8_decode base64Encode base64UrlEncode).

(** ** Writing *)

(** [bs] was written at [off]. *)
Definition wrote (buf buf' : list Z) (off : Z) (bs : list Z) : Prop :=
  0 <= off /\ off + slen bs <= slen buf /\ buf' = overwrite off bs buf.

Lemma take_is_prefix {A} n (l : list A) : take n l `prefix_of` l.
Proof. exists (drop n l). by rewrite take_drop. Qed.

Lemma blit_wrote src dst off len : 0 <= off <= slen dst -> 0 <= len ->
  exists bs, bs `prefix_of` src /\ slen bs <= len /\ slen bs = (blitBuffer src dst off len).2 /\ wrote dst (blitBuffer src dst off len).1 off bs.
Proof.
  intros Ho Hl. unfold blitBuffer. simpl. set (n := Z.min (Z.min len (slen src)) (slen dst - off)). pose proof (slen_nonneg src).
  destruct (Z.ltb_spec n (slen src)) as [Hlt|Hge].
  - assert (subarray src 0 n = take (Z.to_nat n) src) as -> by (rewrite subarray_in, slice_in by lia; by rewrite Z.sub_0_r, drop_0).
    assert (slen (take (Z.to_nat n) src) = n) as Hn by (unfold slen in *; rewrite length_take; lia).
    exists (take (Z.to_nat n) src). rewrite Hn. split_and!; [apply take_is_prefix|lia|done|split_and!; lia || done].
  - exists src. split_and!; [done|lia|lia|split_and!; lia || done].
Qed.

Lemma utf8_wrote buf s off len : 0 <= off <= slen buf -> 0 <= len ->
  exists bs, bs `prefix_of` utf8_encode s /\ slen bs <= (if len =? 0 then slen buf - off else len) /\ slen bs = (utf8Write encodeInto buf s off len).2 /\ wrote buf (utf8Write encodeInto buf s off len).1 off bs.
Proof.
  intros Ho Hl. unfold utf8Write. simpl.
  set (max := if len =? 0 then slen buf - off else Z.min len (slen buf - off)).
  set (room := if _ || _ then _ else _).
  assert (Hroom : 0 <= room <= slen buf - off /\ room <= max).
  { subst room max. destruct (negb (off =? 0) || _) eqn:E.
    - rewrite subarray_in by (destruct (len =? 0); lia). rewrite slen_slice_in by (destruct (len =? 0); lia). destruct (len =? 0); lia.
    - destruct (len =? 0); lia. }
  pose proof (into_fits s room ltac:(lia)). exists (encodeInto s room).
  split_and!; [apply into_prefix|subst max; destruct (len =? 0); lia|done|split_and!; lia || done].
Qed.

(** A write in an encoding, and how long it may be. *)
Lemma ops_wrote e buf s off len : 0 <= off <= slen buf -> 0 <= len ->
  let r := ops_write utf8_encode base64ToBytes base64UrlToBytes encodeInto e buf s off len in
  exists bs, bs `prefix_of` encode e s (slen buf - off) /\ (0 < len -> slen bs <= len) /\ slen bs = r.2 /\ wrote buf r.1 off bs.
Proof.
  intros Ho Hl r.
  assert (Hb : forall src, exists bs, bs `prefix_of` src /\ (0 < len -> slen bs <= len) /\ slen bs = (blitBuffer src buf off len).2 /\ wrote buf (blitBuffer src buf off len).1 off bs).
  { intros src. destruct (blit_wrote src buf off len Ho Hl) as (bs & ? & ? & ? & ?). exists bs. by split_and!. }
  destruct e; try apply Hb.
  destruct (utf8_wrote buf s off len Ho Hl) as (bs & ? & Hlen & ? & ?). exists bs. split_and!; [done| |done|done].
  intros. by replace (len =? 0) with false in Hlen by lia.
Qed.

Lemma validateOffset_inr a name min max i : validateOffset a name min max = inr i -> min <= i <= max.
Proof.
  unfold validateOffset. destruct a as [| |x]; try done. destruct (BufferInts.index x) as [j|]; [|done].
  destruct (_ || _) eqn:E; [done|]. intros [= <-]. lia.
Qed.

Lemma write_args_inr buf offset length encoding off len enc : write_args buf offset length encoding = inr (off, len, enc) ->
  0 <= off <= slen buf /\ 0 <= len.
Proof.
  unfold write_args. pose proof (slen_nonneg buf).
  assert (Hgen : forall k, rbind (validateOffset (to_arg offset) "offset" 0 (slen buf)) k = inr (off, len, enc) ->
    exists o, 0 <= o <= slen buf /\ k o = inr (off, len, enc)).
  { intros k Hk. destruct (validateOffset _ _ _ _) as [|o] eqn:E; [done|]. exists o. split; [by eapply validateOffset_inr|done]. }
  destruct offset as [|e|x|], length as [|e'|y|]; try (intros [= <- <- <-]; lia);
    intros H'; apply Hgen in H' as (o & Ho & H');
    try (injection H' as <- <- <-; lia);
    (destruct (validateOffset _ _ _ _) as [|l] eqn:E in H'; [done|]; apply validateOffset_inr in E; injection H' as <- <- <-; case_match; lia).
Qed.

Lemma write_encoded_wrote buf s off len enc buf' n : 0 <= off <= slen buf -> 0 <= len ->
  write_encoded toLowerCase utf8_encode base64ToBytes base64UrlToBytes encodeInto buf s off len enc = inr (buf', n) ->
  exists e bs, bs `prefix_of` encode e s (slen buf - off) /\ n = slen bs /\ wrote buf buf' off bs.
Proof.
  intros Ho Hl.
  assert (Hops : forall e, inr (ops_write utf8_encode base64ToBytes base64UrlToBytes encodeInto e buf s off len) = (inr (buf', n) : res (list Z * Z)) ->
    exists e bs, bs `prefix_of` encode e s (slen buf - off) /\ n = slen bs /\ wrote buf buf' off bs).
  { intros e E. apply (inj inr) in E. destruct (ops_wrote e buf s off len Ho Hl) as (bs & ? & _ & Hn & Hw). rewrite E in Hn, Hw. by exists e, bs. }
  unfold write_encoded. destruct enc as [enc|]; [|apply (Hops Utf8)].
  destruct (slen enc =? 0); [apply (Hops Utf8)|]. destruct (getEncodingOps toLowerCase enc) as [e|]; [|done].
  apply Hops.
Qed.

(** [write] writes a prefix of the encoded string into the buffer at its offset and
    changes no other byte; its result is the number of bytes written.  With an offset
    and a length in the buffer and an encoding there is, it does not throw, and it
    writes no more than the length. *)
Lemma write_in_range buf s :
  (forall offset length encoding buf' n, write buf s offset length encoding = inr (buf', n) ->
     exists e off room bs, bs `prefix_of` encode e s room /\ n = slen bs /\ wrote buf buf' off bs) /\
  (forall off len encoding e, 0 <= off <= slen buf -> 0 < len <= slen buf -> encoding <> [] -> getEncodingOps toLowerCase encoding = Some e ->
     exists buf' bs, write buf s (WNumber (num_of_Z off)) (WNumber (num_of_Z len)) (Some encoding) = inr (buf', slen bs) /\
       bs `prefix_of` encode e s (slen buf - off) /\ slen bs <= len /\ wrote buf buf' off bs).
Proof.
  split.
  - intros offset length encoding buf' n Hw. pose proof (slen_nonneg buf).
    assert (exists off len enc, 0 <= off <= slen buf /\ 0 <= len /\
      write_encoded toLowerCase utf8_encode base64ToBytes base64UrlToBytes encodeInto buf s off len enc = inr (buf', n)) as (off & len & enc & Ho & Hl & He).
    { unfold BufferStrings.write in Hw. destruct offset; [exists 0, (slen buf), None; split_and!; lia || done|..];
        (destruct (write_args _ _ _ _) as [|[[off len] enc]] eqn:E in Hw; [done|]; apply write_args_inr in E as [??]; by exists off, len, enc). }
    destruct (write_encoded_wrote _ _ _ _ _ _ _ Ho Hl He) as (e & bs & ? & ? & ?). by exists e, off, (slen buf - off), bs.
  - intros off len encoding e Ho Hl Hne He. unfold BufferStrings.write, write_args. simpl to_arg.
    rewrite !validateOffset_Z. replace ((off <? 0) || (slen buf <? off)) with false by lia. cbn [rbind].
    replace ((len <? 0) || (slen buf <? len)) with false by lia. cbn [rbind]. unfold write_encoded.
    replace (slen encoding =? 0) with false by (symmetry; apply Z.eqb_neq; intros E; by apply Hne, slen_0). rewrite He.
    set (len' := if _ <? _ then _ else _). assert (0 <= len' <= len) by (subst len'; case_match; lia).
    destruct (ops_wrote e buf s off len' Ho ltac:(lia)) as (bs & Hp & Hlen & Hn & Hw).
    eexists _, bs. split_and!; [rewrite Hn; by rewrite <-surjective_pairing|done| |exact Hw].
    destruct Hw as (_ & Hw & _). destruct (decide (0 < len')); [lia|]. subst len'. destruct (Z.ltb_spec (slen buf - off) len); lia.
Qed.

(** ** Round trips *)

Lemma slen_zeros n : 0 <= n -> slen (zeros n) = n.
Proof. intros. unfold slen, zeros. rewrite length_replicate. lia. Qed.

Lemma overwrite_all bs : overwrite 0 bs (zeros (slen bs)) = bs.
Proof. unfold overwrite, zeros, slen. rewrite Nat2Z.id. simpl. by rewrite drop_ge, app_nil_r by (rewrite length_replicate; lia). Qed.

Lemma ops_write_exact e s bs : encode e s (slen bs) = bs ->
  ops_write utf8_encode base64ToBytes base64UrlToBytes encodeInto e (zeros (slen bs)) s 0 (slen bs) = (bs, slen bs).
Proof.
  intros He. pose proof (slen_nonneg bs).
  assert (Hblit : blitBuffer bs (zeros (slen bs)) 0 (slen bs) = (bs, slen bs)).
  { unfold blitBuffer. rewrite slen_zeros by done. replace (Z.min _ _) with (slen bs) by lia. rewrite Z.ltb_irrefl. by rewrite overwrite_all. }
  assert (Hutf : e <> Utf8 -> ops_write utf8_encode base64ToBytes base64UrlToBytes encodeInto e (zeros (slen bs)) s 0 (slen bs) =
    blitBuffer (encode e s (slen (zeros (slen bs)) - 0)) (zeros (slen bs)) 0 (slen bs)) by by destruct e.
  destruct (decide (e = Utf8)) as [->|Hne].
  - change (encode Utf8 s (slen bs)) with (utf8_encode s) in He.
    unfold ops_write, utf8Write. rewrite slen_zeros by done. rewrite Z.sub_0_r, Z.min_id.
    replace (if slen bs =? 0 then slen bs else slen bs) with (slen bs) by by destruct (_ =? 0).
    replace (negb (0 =? 0)) with false by done. rewrite Z.ltb_irrefl. simpl orb. cbv iota.
    rewrite into_all by (by rewrite He). by rewrite He, overwrite_all.
  - rewrite Hutf by done. rewrite slen_zeros, Z.sub_0_r by done. by rewrite He.
Qed.

Lemma fromString_exact e name s bs : getEncodingOps toLowerCase name = Some e -> isEncoding toLowerCase name = true ->
  encode e s (slen bs) = bs -> ops_byteLength utf8_length e s = slen bs -> (s = [] -> bs = []) -> slen bs <= kMaxLength ->
  fromString s (Some name) = inr bs.
Proof.
  intros Hops His Henc Hlen Hnil Hmax. unfold BufferStrings.fromString.
  assert (Hne : slen name =? 0 = false) by (unfold isEncoding in His; destruct (slen name =? 0); done).
  rewrite Hne, His. simpl negb. cbv iota. pose proof (slen_nonneg bs). unfold kMaxLength in Hmax.
  assert (byteLength toLowerCase utf8_length s (Some name) = slen bs) as ->.
  { unfold byteLength. destruct (Z.eqb_spec (slen s) 0) as [Hs|]; [by rewrite Hnil by by apply slen_0|]. by rewrite Hne, Hops. }
  rewrite to_int32_small by lia. unfold createBuffer, kMaxLength. rewrite num_lt_Z, num_trunc_Z.
  replace (2147483647 <? slen bs) with false by lia. replace (slen bs <? 0) with false by lia. cbn [rbind].
  unfold BufferStrings.write, write_args. cbn [rbind]. unfold write_encoded. rewrite Hne, Hops, slen_zeros by done.
  rewrite ops_write_exact by done. cbn [rbind]. by rewrite Z.eqb_refl.
Qed.

(** A loop that appends something for each byte. *)
Lemma append_loop (f : Z -> list Z) (l : list Z) : for_up 0 (slen l) (fun i out => Continue (out ++ f (l !!! Z.to_nat i))) [] = flat_map f l.
Proof.
  apply (for_up_inv (fun i out => exists p q, l = p ++ q /\ slen p = i /\ out = flat_map f p)); [apply slen_nonneg|by exists [], l| |].
  - intros i out Hi (p & q & E & Hp & ->). destruct q as [|x q]; [rewrite app_nil_r in E; subst; lia|].
    eexists. split; [done|]. exists (p ++ [x]), q. rewrite <-app_assoc, slen_app. change (slen [x]) with 1. split_and!; [done|lia|].
    rewrite flat_map_app. simpl. rewrite app_nil_r. do 2 f_equal. rewrite E. apply list_lookup_total_middle. unfold slen in *; lia.
  - intros out (p & q & E & Hp & ->). assert (q = []) as -> by (apply slen_0; rewrite E, slen_app in Hp; slen_pos; lia).
    by rewrite E, app_nil_r.
Qed.

Lemma hexSlice_all buf : hexSlice buf 0 (slen buf) = hex_text buf.
Proof.
  unfold hexSlice. replace (if (slen buf <=? 0) || (slen buf <? slen buf) then slen buf else slen buf) with (slen buf) by by destruct (_ || _).
  change (if 0 <=? 0 then 0 else 0) with 0. by rewrite append_loop.
Qed.

Lemma latin1Slice_all buf : latin1Slice buf 0 (slen buf) = buf.
Proof. unfold latin1Slice. rewrite Z.min_id, (append_loop (fun b => [b])). induction buf as [|x buf IH]; [done|]. simpl. by rewrite IH. Qed.

Lemma asciiToBytes_bytes buf : bytes_ok buf -> asciiToBytes buf = buf.
Proof.
  intros Hb. unfold asciiToBytes.
  apply (for_up_inv (fun i bs => exists p q, buf = p ++ q /\ slen p = i /\ bs = p ++ zeros (slen q))); [apply slen_nonneg|by exists [], buf| |].
  - intros i bs Hi (p & q & E & Hp & ->). destruct q as [|x q]; [rewrite app_nil_r in E; subst; lia|].
    eexists. split; [done|]. exists (p ++ [x]), q. rewrite <-app_assoc, slen_app. change (slen [x]) with 1. split_and!; [done|lia|].
    assert (charCodeAt buf i = Some x) as -> by (rewrite E; by apply charCodeAt_middle). simpl default.
    rewrite E in Hb. apply Forall_app in Hb as [_ Hb]. inversion_clear Hb as [|?? Hx].
    rewrite slen_cons, Z.add_comm, set_byte_append by (lia || apply slen_nonneg).
    change 255 with (Z.ones 8). rewrite !Z.land_ones, !Z.mod_small by (rewrite ?Z.mod_small; lia). done.
  - intros bs (p & q & E & Hp & ->). assert (q = []) as -> by (apply slen_0; rewrite E, slen_app in Hp; slen_pos; lia).
    by rewrite E.
Qed.

Lemma utf16_room s room : room = slen s * 2 -> room < 2 ^ 32 -> utf16leToBytes s (Some room) = pairs lo hi s.
Proof.
  intros -> Hr. rewrite <-utf16_bytes. unfold utf16leToBytes. pose proof (slen_nonneg s).
  destruct (Z.eqb_spec (slen s * 2) 0) as [->|]; [done|].
  unfold BufferBinding.to_uint32. rewrite Z.mod_small, Z.shiftr_div_pow2 by lia. change (2 ^ 1) with 2. by rewrite !Z.div_mul, !Z.min_id, ?Z.div_mul by lia.
Qed.

(** [toString] of the whole buffer. *)
Lemma toString_all e name buf : getEncodingOps toLowerCase name = Some e -> 
  toString buf (Some name) None None = inr (if slen buf =? 0 then [] else ops_slice utf8_decode base64Encode base64UrlEncode e buf 0 (slen buf)).
Proof.
  intros Hops. unfold buffer_toString, opt_num. simpl. rewrite Hops. pose proof (slen_nonneg buf).
  destruct (Z.eqb_spec (slen buf) 0); destruct (Z.leb_spec (slen buf) (bit_or_0 NaN)) as [Hb|Hb]; try done; change (bit_or_0 NaN) with 0 in Hb; lia.
Qed.

(** Bytes survive [toString] and [Buffer.from] in hexadecimal and latin1; a string of
    any code units survives [Buffer.from] and [toString] in UTF-16, and in UTF-8 when
    the decoder gives back what was encoded. *)
Lemma string_roundtrip : utf8_decode [] = [] ->
  (forall buf, bytes_ok buf -> slen buf <= kMaxLength -> forall name, name = lit "hex" \/ name = lit "latin1" ->
     exists s, toString buf (Some name) None None = inr s /\ fromString s (Some name) = inr buf) /\
  (forall s, Forall code_unit s -> slen s * 2 <= kMaxLength ->
     exists b, fromString s (Some (lit "utf16le")) = inr b /\ slen b = slen s * 2 /\ toString b (Some (lit "utf16le")) None None = inr s) /\
  (forall s, utf8_decode (utf8_encode s) = s -> slen (utf8_encode s) <= kMaxLength ->
     exists b, fromString s (Some (lit "utf8")) = inr b /\ toString b (Some (lit "utf8")) None None = inr s).
Proof.
  intros Hdec. assert (Hget : forall name e, lower (lit name) = true -> getEncodingOps id (lit name) = Some e -> getEncodingOps toLowerCase (lit name) = Some e).
  { intros name e Hl. unfold getEncodingOps. by rewrite Hlower. }
  split_and!.
  - intros buf Hb Hmax name [-> | ->].
    + exists (hex_text buf). split.
      * rewrite (toString_all Hex) by by apply Hget. f_equal. destruct (Z.eqb_spec (slen buf) 0) as [E|]; [by apply slen_0 in E as ->|apply hexSlice_all].
      * apply (fromString_exact Hex); [by apply Hget|by vm_compute|by apply hex_roundtrip| |by destruct buf|done].
        simpl. unfold hex_text. rewrite slen_pairs, Z.mod_small, Z.shiftr_div_pow2 by (pose proof (slen_nonneg buf); unfold kMaxLength in *; lia).
        change (2 ^ 1) with 2. by rewrite Z.div_mul.
    + exists buf. split.
      * rewrite (toString_all Latin1) by by apply Hget. f_equal. destruct (Z.eqb_spec (slen buf) 0) as [E|]; [by apply slen_0 in E as ->|apply latin1Slice_all].
      * apply (fromString_exact Latin1); [by apply Hget|by vm_compute|by apply asciiToBytes_bytes|done|done|done].
  - intros s Hs Hmax. exists (pairs lo hi s). pose proof (slen_pairs lo hi s) as Hl. split_and!; [|done|].
    + apply (fromString_exact Utf16le); [by apply Hget|by vm_compute|apply utf16_room; unfold kMaxLength in *; lia|done|by intros ->|lia].
    + rewrite (toString_all Utf16le) by by apply Hget. f_equal. destruct (Z.eqb_spec (slen (pairs lo hi s)) 0) as [E|].
      * symmetry. apply slen_0. lia.
      * simpl. rewrite subarray_in, slice_all by (lia || apply slen_nonneg). rewrite <-utf16_bytes. by apply utf16_roundtrip.
  - intros s Hs Hmax. exists (utf8_encode s). split.
    + apply (fromString_exact Utf8); [by apply Hget|by vm_compute|done|apply length_encode|intros ->; apply encode_nil|done].
    + rewrite (toString_all Utf8) by by apply Hget. f_equal. destruct (Z.eqb_spec (slen (utf8_encode s)) 0) as [E|].
      * apply slen_0 in E. by rewrite <-Hs, E, Hdec.
      * simpl. by rewrite subarray_in, slice_all by (lia || apply slen_nonneg).
Qed.

(** ** Filling *)

Context (string_number : str -> num).
#[local] Abbreviation fill := (fill toLowerCase utf8_encode utf8_length base64ToBytes base64UrlToBytes encodeInto string_number).

(** The first [n] bytes of a pattern that is repeated. *)
Definition cycle (pat : list Z) (n : nat) : list Z := (fun i => pat !!! (i mod length pat)%nat) <$> seq 0 n.

Lemma overwrite_snoc off l v buf : 0 <= off -> off + slen l < slen buf ->
  set_at (off + slen l) v (overwrite off l buf) = overwrite off (l ++ [v mod 2 ^ 8]) buf.
Proof.
  intros Ho Hl. unfold set_at. unfold overwrite, slen in *. rewrite length_app. simpl length.
  replace (Z.to_nat (off + Z.of_nat (length l))) with (Z.to_nat off + length l)%nat by lia.
  rewrite <-!app_assoc. rewrite insert_app_r_alt by (rewrite length_take; lia). rewrite insert_app_r_alt by (rewrite length_take; lia).
  rewrite length_take, Nat.min_l by lia. replace (Z.to_nat off + length l - Z.to_nat off - length l)%nat with 0%nat by lia.
  do 2 f_equal. destruct (lookup_lt_is_Some_2 buf (Z.to_nat off + length l)) as [x Hx]; [lia|].
  rewrite (drop_S _ _ _ Hx). simpl. do 2 f_equal. lia.
Qed.

(** A loop that writes the bytes [f] at consecutive places. *)
Lemma write_loop_spec (place f : Z -> Z) a b off buf : a <= b -> (forall i, place i = off + (i - a)) ->
  0 <= off -> off + (b - a) <= slen buf ->
  for_up a b (fun i buf => Continue (set_at (place i) (f i) buf)) buf = overwrite off ((fun k => f (a + Z.of_nat k) mod 2 ^ 8) <$> seq 0 (Z.to_nat (b - a))) buf.
Proof.
  intros Hab Hpl Ho Hb.
  apply (for_up_inv (fun i st => st = overwrite off ((fun k => f (a + Z.of_nat k) mod 2 ^ 8) <$> seq 0 (Z.to_nat (i - a))) buf)); [done| | |done].
  - rewrite Z.sub_diag. simpl. unfold overwrite. simpl. by rewrite Nat.add_0_r, take_drop.
  - intros i st Hi ->. eexists. split; [done|].
    assert (Hs : slen ((fun k => f (a + Z.of_nat k) mod 2 ^ 8) <$> seq 0 (Z.to_nat (i - a))) = i - a) by (unfold slen; rewrite length_fmap, length_seq; lia).
    rewrite Hpl. rewrite <-Hs at 1. rewrite overwrite_snoc by (rewrite ?Hs; lia).
    replace (Z.to_nat (i + 1 - a)) with (S (Z.to_nat (i - a))) by lia. rewrite seq_S, fmap_app. simpl.
    do 5 f_equal. lia.
Qed.

(** The bytes that a value stands for. *)
Definition fill_pattern (val : fill_value) (encoding : option str) : res (list Z) :=
  match fill_code val encoding with
  | inl v => inr [v mod 2 ^ 8]
  | inr val => fill_bytes toLowerCase utf8_encode utf8_length base64ToBytes base64UrlToBytes encodeInto val encoding
  end.

(** [fill] with bounds repeats the bytes of the value over the range, cuts the last
    repetition and leaves the rest of the buffer alone; it throws for bounds outside
    the buffer and for a value without bytes. *)
Lemma fill_repeats buf val s e encoding :
  slen buf < 2 ^ 32 -> (forall x, encoding = Some x -> isEncoding toLowerCase x = true) ->
  (forall pat, fill_pattern val encoding = inr pat -> bytes_ok pat) ->
  fill buf val (BNumber (num_of_Z s)) (BNumber (num_of_Z e)) encoding =
  if (s <? 0) || (slen buf <? s) || (slen buf <? e) then inl (BufRangeError "Out of range index")
  else if e <=? s then inr buf
  else
    let! pat := fill_pattern val encoding in
    if slen pat =? 0 then inl (InvalidArgValue "value") else inr (overwrite s (cycle pat (Z.to_nat (e - s))) buf).
Proof.
  intros Hbuf Henc Hok. unfold BufferStrings.fill.
  assert (fill_args toLowerCase buf val (BNumber (num_of_Z s)) (BNumber (num_of_Z e)) encoding = inr (BNumber (num_of_Z s), BNumber (num_of_Z e), encoding)) as ->.
  { destruct val; try done. simpl. destruct encoding as [x|]; [|done]. by rewrite Henc. }
  cbn [rbind bound_num]. change zero with (num_of_Z 0). rewrite !num_lt_Z, num_le_Z.
  destruct (_ || _) eqn:Hr; [done|]. destruct (Z.leb_spec e s) as [|Hes]; [done|].
  unfold BufferInts.to_uint32. rewrite !num_trunc_Z, !Z.mod_small by lia.
  unfold fill_pattern in *. destruct (fill_code val encoding) as [v|v].
  - cbn [rbind]. change (slen [v mod 2 ^ 8] =? 0) with false. cbv iota. f_equal.
    rewrite (write_loop_spec (fun i => i) (fun _ => v) s e s) by (intros; lia). f_equal.
  - destruct (fill_bytes _ _ _ _ _ _ v encoding) as [|pat] eqn:Ep; [done|]. cbn [rbind].
    destruct (Z.eqb_spec (slen pat) 0) as [|Hne]; [done|]. f_equal. pose proof (Hok pat eq_refl) as Hpat.
    assert (Hidx : forall i, 0 <= i -> Z.to_nat (i mod slen pat) = (Z.to_nat i mod length pat)%nat).
    { intros i Hi. unfold slen in *. rewrite Z2Nat.inj_mod, Nat2Z.id by lia. done. }
    rewrite (write_loop_spec (fun i => i + s) (fun i => pat !!! Z.to_nat (i mod slen pat)) 0 (e - s) s); try lia.
    f_equal. unfold cycle. rewrite Z.sub_0_r. apply list_fmap_ext. intros k x _. rewrite Hidx, Z.add_0_l, Nat2Z.id by lia.
    apply Z.mod_small. assert (length pat <> 0%nat) by (unfold slen in *; lia).
    apply (Forall_lookup_total_1 _ _ _ Hpat). by apply Nat.mod_upper_bound.
Qed.
End Strings.

(** ** [toString] and the string decoder *)

(** [bytesToUtf16le] takes the bytes two by two. *)
Lemma bytesToUtf16le_ucs2 bytes : bytesToUtf16le bytes = ucs2 bytes.
Proof.
  unfold bytesToUtf16le. pose proof (slen_nonneg bytes).
  apply (for_up_inv (fun i res => exists p q, bytes = p ++ q /\ slen p = i * 2 /\ res = ucs2 p)).
  - apply Z.div_pos; lia.
  - by exists [], bytes.
  - intros i res Hi (p & q & E & Hp & ->).
    destruct q as [|x [|y q]].
    { rewrite app_nil_r in E. subst. Z.to_euclidean_division_equations. lia. }
    { rewrite E, slen_app in *. change (slen [x]) with 1 in *. Z.to_euclidean_division_equations. lia. }
    eexists. split; [done|]. exists (p ++ [x; y]), q. rewrite <-app_assoc, slen_app. change (slen [x; y]) with 2.
    split_and!; [done|lia|]. rewrite (ucs2_app p) by (exists i; lia). simpl. do 2 f_equal.
    assert (charCodeAt bytes (i * 2) = Some x) as -> by (rewrite E, <-Hp; by apply charCodeAt_middle).
    assert (charCodeAt bytes (i * 2 + 1) = Some y) as ->; [|done].
    rewrite E. replace (p ++ x :: y :: q) with ((p ++ [x]) ++ y :: q) by by rewrite <-app_assoc.
    apply charCodeAt_middle. rewrite slen_app. change (slen [x]) with 1. lia.
  - intros res (p & q & E & Hp & ->). rewrite E, (ucs2_app p) by by eexists.
    destruct q as [|x [|y q]]; [by rewrite app_nil_r..|exfalso].
    rewrite E, slen_app, !slen_cons in Hp. slen_pos. Z.to_euclidean_division_equations. lia.
Qed.
Lemma bytesToAscii_map bytes : bytesToAscii bytes = (fun b => Z.land b 127) <$> bytes.
Proof.
  unfold bytesToAscii.
  apply (for_up_inv (fun i res => exists p q, bytes = p ++ q /\ slen p = i /\ res = (fun b => Z.land b 127) <$> p));
    [apply slen_nonneg|by exists [], bytes| |].
  - intros i res Hi (p & q & E & Hp & ->). destruct q as [|x q]; [rewrite app_nil_r in E; subst; lia|].
    eexists. split; [done|]. exists (p ++ [x]), q. rewrite <-app_assoc, slen_app. change (slen [x]) with 1. split_and!; [done|lia|].
    assert (charCodeAt bytes i = Some x) as -> by (rewrite E; by apply charCodeAt_middle). by rewrite fmap_app.
  - intros res (p & q & E & Hp & ->). assert (q = []) as -> by (apply slen_0; rewrite E, slen_app in Hp; slen_pos; lia).
    by rewrite E, app_nil_r.
Qed.

(** What is known of the engine's strings and codecs: [toLowerCase] keeps digits
    and lower-case letters; decoding UTF-8 can be cut where the decoder is between
    characters or a new character starts; base64 can be cut after whole groups of
    three bytes. *)
Class Codecs (toLowerCase : str -> str) (new_from_utf8 base64Encode : list Z -> str) : Prop := {
  lower_same : forall s, lower s = true -> toLowerCase s = s;
  utf8_cut : forall a b, cut StringDecoder.Utf8 a b -> new_from_utf8 (a ++ b) = new_from_utf8 a ++ new_from_utf8 b;
  base64_cut : forall a b, cut StringDecoder.Base64 a b -> base64Encode (a ++ b) = base64Encode a ++ base64Encode b;
}.

(** A byte order mark somewhere in the bytes. *)
Definition has_bom (bytes : list Z) : Prop := exists a b, bytes = a ++ [0xEF; 0xBB; 0xBF] ++ b.

Section Chunks.
Context (toLowerCase : str -> str) (new_from_utf8 base64Encode base64UrlEncode : list Z -> str).
Context {laws : Codecs toLowerCase new_from_utf8 base64Encode}.
#[local] Abbreviation node_slice := (node_slice new_from_utf8 toLowerCase base64Encode base64UrlEncode).

(** What [toString] gives, apart from byte order marks. *)
Definition plain (e : Encoding) (bytes : list Z) : str :=
  match e with
  | StringDecoder.Utf8 => new_from_utf8 bytes
  | StringDecoder.Base64 => base64Encode bytes
  | StringDecoder.Utf16 => ucs2 bytes
  | StringDecoder.Ascii => (fun b => Z.land b 127) <$> bytes
  | StringDecoder.Latin1 => bytes
  | StringDecoder.Hex => hex_text bytes
  end.

Lemma plain_cut e a b : cut e a b -> plain e (a ++ b) = plain e a ++ plain e b.
Proof.
  destruct e; simpl; intros H.
  - by apply utf8_cut.
  - by apply base64_cut.
  - by apply ucs2_app.
  - apply fmap_app.
  - done.
  - apply flat_map_app.
Qed.

Lemma plain_nil e : plain e [] = [].
Proof.
  assert (E : plain e ([] ++ []) = plain e [] ++ plain e []).
  { apply plain_cut. destruct e; simpl; try done; [left; constructor| |]; apply Z.divide_0_r. }
  apply (f_equal List.length) in E. rewrite length_app in E. apply nil_length_inv. simpl in E. lia.
Qed.

Lemma decoder_decode_plain bytes : ~ has_bom bytes -> decoder_decode new_from_utf8 bytes = new_from_utf8 bytes.
Proof.
  intros Hno. unfold decoder_decode, op_encoding_decode_utf8.
  destruct (_ && _) eqn:E; [|done]. exfalso. apply Hno.
  destruct bytes as [|x [|y [|z bytes]]]; [done..|]. exists [], bytes. rewrite !andb_true_iff, !Z.eqb_eq in E.
  destruct E as [[[_ E0] E1] E2]. cbv in E0, E1, E2. by subst.
Qed.

(** The decoder's names are names that [toString] knows. *)
Lemma known_ops en : en ∈ known_encodings ->
  exists e, getEncodingOps toLowerCase en = Some e /\ getEncodingOps id en = Some e.
Proof.
  intros Hen. assert (Hall : Forall (fun en => lower en = true /\ exists e, getEncodingOps id en = Some e) known_encodings)
    by (repeat constructor; by eexists).
  rewrite Forall_forall in Hall. destruct (Hall en Hen) as (Hl & e & He). exists e. split; [|done].
  unfold getEncodingOps in *. by rewrite lower_same.
Qed.

Lemma node_slice_known en bytes : en ∈ known_encodings ->
  node_slice en bytes =
  Ok (match (encoding_of en).1 with StringDecoder.Utf8 => decoder_decode new_from_utf8 bytes | e => plain e bytes end).
Proof.
  intros Hen. unfold BufferStrings.node_slice.
  destruct (known_ops en Hen) as (e & He & Hid).
  rewrite (toString_all toLowerCase (decoder_decode new_from_utf8) base64Encode base64UrlEncode e) by done.
  f_equal. pose proof (slen_nonneg bytes). destruct (Z.eqb_spec (slen bytes) 0) as [E|Hne].
  - apply slen_0 in E as ->. destruct (encoding_of en).1 eqn:Ee; try (by rewrite plain_nil).
    rewrite decoder_decode_plain; [symmetry; apply (plain_nil StringDecoder.Utf8)|]. by intros ([|??] & ? & ?).
  - unfold known_encodings in Hen. set_unfold in Hen. destruct Hen as (name & -> & Hen).
    repeat (destruct Hen as [->|Hen]); [..|done]; injection Hid as <-; simpl;
      rewrite ?subarray_in, ?slice_all by lia; try done.
    + apply bytesToUtf16le_ucs2.
    + apply hexSlice_all.
    + apply latin1Slice_all.
    + apply bytesToAscii_map.
Qed.

(** The ranges that the decoder asks [toString] for are the runs of bytes that its
    model decodes. *)
Lemma append_range {A} (f : Z -> list A) l a b : 0 <= a -> a <= b -> b <= slen l ->
  for_up a b (fun i out => Continue (out ++ f (l !!! Z.to_nat i))) [] = flat_map f (slice l a b).
Proof.
  intros Ha Hab Hb. apply (for_up_inv (fun i out => out = flat_map f (slice l a i))); [done| | |done].
  - rewrite slice_in by lia. by rewrite Z.sub_diag.
  - intros i out Hi ->. eexists. split; [done|]. rewrite !slice_in by lia.
    replace (Z.to_nat (i + 1 - a)) with (S (Z.to_nat (i - a))) by lia.
    assert (Hlt : (Z.to_nat i < List.length l)%nat) by (unfold slen in *; lia).
    destruct (lookup_lt_is_Some_2 l _ Hlt) as [x Hx].
    rewrite (take_S_r _ _ x) by (rewrite lookup_drop; by replace (Z.to_nat a + Z.to_nat (i - a))%nat with (Z.to_nat i) by lia).
    rewrite flat_map_app. simpl. by rewrite app_nil_r, (list_lookup_total_correct _ _ _ Hx).
Qed.

Lemma ops_slice_range dec e buf a b : 0 <= a -> a < b -> b <= slen buf ->
  ops_slice dec base64Encode base64UrlEncode e buf a b =
  ops_slice dec base64Encode base64UrlEncode e (slice buf a b) 0 (slen (slice buf a b)).
Proof.
  intros Ha Hab Hb. pose proof (slen_slice_in buf a b Ha ltac:(lia) Hb) as Hs.
  assert (Hsub : subarray buf a b = subarray (slice buf a b) 0 (slen (slice buf a b)))
    by (rewrite (subarray_in buf), subarray_in, slice_all by lia; done).
  destruct e; simpl; try (by rewrite Hsub).
  - rewrite hexSlice_all. unfold hexSlice.
    replace (if a <=? 0 then 0 else a) with a by (destruct (Z.leb_spec a 0); lia).
    replace ((b <=? 0) || (slen buf <? b)) with false by lia. by rewrite append_range by lia.
  - rewrite latin1Slice_all. unfold latin1Slice. rewrite Z.min_r by lia. rewrite (append_range (fun x => [x])) by lia.
    generalize (slice buf a b). clear. intros r. induction r as [|x r IH]; [done|]. simpl. by rewrite IH.
Qed.

Lemma toString_ranges en buf start end_ : en ∈ known_encodings -> slen buf < 2 ^ 31 -> 0 <= end_ ->
  buf_toString node_slice en buf start end_ =
  match buffer_toString toLowerCase (decoder_decode new_from_utf8) base64Encode base64UrlEncode buf (Some en)
          (Some (num_of_Z start)) (Some (num_of_Z end_)) with
  | inl _ => Throw ERR_UNKNOWN_ENCODING
  | inr s => Ok s
  end.
Proof.
  intros Hen Hlen Hend. unfold buf_toString, buffer_toString, opt_num. simpl default. rewrite !num_le_Z, num_lt_Z.
  pose proof (slen_nonneg buf). rewrite Z.geb_leb, Z.gtb_ltb.
  set (range := if start <=? 0 then Some 0 else _).
  assert (Hr : range = if negb (start <=? 0) && (slen buf <=? start) then None else Some (if start <=? 0 then 0 else start)).
  { subst range. unfold bit_or_0. rewrite num_trunc_Z. destruct (Z.leb_spec start 0); [done|]. simpl.
    destruct (Z.leb_spec (slen buf) start); [done|]. by rewrite to_int32_small by lia. }
  rewrite Hr. destruct (negb _ && _) eqn:E1; [done|].
  replace (if slen buf <? end_ then slen buf else bit_or_0 (num_of_Z end_)) with (if slen buf <? end_ then slen buf else end_).
  2:{ destruct (Z.ltb_spec (slen buf) end_); [done|]. unfold bit_or_0. rewrite num_trunc_Z, to_int32_small; lia. }
  set (a := if start <=? 0 then 0 else start). set (b := if slen buf <? end_ then slen buf else end_).
  destruct (Z.leb_spec b a) as [|Hab]; [done|].
  assert (0 <= a) by (subst a; destruct (Z.leb_spec start 0); lia).
  assert (b <= slen buf) by (subst b; destruct (Z.ltb_spec (slen buf) end_); lia).
  assert (exists e, getEncodingOps toLowerCase en = Some e) as [e He].
  { destruct (known_ops en Hen) as (e & He & _). by exists e. }
  unfold BufferStrings.node_slice. rewrite (toString_all toLowerCase (decoder_decode new_from_utf8) base64Encode base64UrlEncode e) by done.
  rewrite He, (ops_slice_range _ _ buf a b) by lia. by rewrite (proj2 (Z.eqb_neq _ 0)) by (rewrite slen_slice_in; lia).
Qed.

(** The encoding of a new decoder. *)
Lemma new_known junk name sd : new_StringDecoder toLowerCase junk name = Ok sd -> encoding sd <> lit "undefined" ->
  encoding sd ∈ known_encodings /\ StringDecoder.enc sd = (encoding_of (encoding sd)).1.
Proof.
  unfold new_StringDecoder. intros (en & Hk & H)%jsbind_Ok Hraw.
  destruct (encoding_of en) as [e n] eqn:E. injection H as <-. simpl in *. rewrite E.
  by destruct (normalizeEncoding_known _ _ _ Hk).
Qed.

(** The whole of a stream of chunks. *)
Definition stream_ok (sd : StringDecoder) (chunks : list (list Z)) (s : str) : Prop :=
  exists sd1 out sd2 out2,
    write_all node_slice chunks sd = (sd1, Ok out) /\ end_ node_slice None sd1 = (sd2, Ok out2) /\
    out ++ out2 = s /\ lastTotal sd2 = 0 /\ sd_inv (encoding sd) (StringDecoder.enc sd) [] sd2.

(** UTF-8: the runs of bytes that are decoded make up the stream, so that none of
    them has a byte order mark. *)
Lemma utf8_chunks junk name sd chunks :
  (forall n, 0 <= n -> slen (junk n) = n) ->
  new_StringDecoder toLowerCase junk name = Ok sd -> encoding sd <> lit "undefined" -> StringDecoder.enc sd = StringDecoder.Utf8 ->
  Forall (fun c => slen c <= MAX_STRING_LENGTH) chunks -> ~ has_bom (List.concat chunks) ->
  stream_ok sd chunks (new_from_utf8 (List.concat chunks)).
Proof.
  intros Hj Hnew Hraw He Hmax Hno. destruct (new_known _ _ _ Hnew Hraw) as [Hk Hen]. rewrite He in Hen.
  assert (Hns : forall b, node_slice (encoding sd) b = Ok (decoder_decode new_from_utf8 b))
    by (intros b; rewrite node_slice_known by done; by rewrite <-Hen).
  destruct (write_all_pieces chunks sd) as (sd1 & r1 & He1 & H1).
  destruct (end_pieces sd1) as (sd2 & r2 & H2). rewrite He1 in H2.
  pose proof (fun D => decoder_chunks_gen toLowerCase junk name (fun _ b => Ok (D b)) D sd chunks Hj Hnew Hraw
    ltac:(done)) as Hgen.
  assert (Hrun : forall D : list Z -> str, (forall a b, cut StringDecoder.Utf8 a b -> D (a ++ b) = D a ++ D b) ->
    exists ps qs, r1 = Ok ps /\ r2 = Ok qs /\ List.concat (D <$> ps ++ qs) = D (List.concat chunks) /\
      lastTotal sd2 = 0 /\ sd_inv (encoding sd) (StringDecoder.enc sd) [] sd2).
  { intros D HD. destruct (Hgen D) as (sd1' & o1 & sd2' & o2 & E1 & E2 & Eo & Ht & Hi); [by rewrite He|by rewrite He|done|].
    rewrite (H1 _ D) in E1 by done. destruct r1 as [ps|]; [|done]. injection E1 as <- <-.
    rewrite (H2 _ D) in E2 by done. destruct r2 as [qs|]; [|done]. injection E2 as <- <-.
    exists ps, qs. by rewrite decoded_app. }
  destruct (Hrun (fun b => b)) as (ps & qs & -> & -> & Hall & _); [done|]. rewrite list_fmap_id in Hall.
  destruct (Hrun new_from_utf8) as (? & ? & [= <-] & [= <-] & Hraw2 & Ht & Hi); [intros; by apply utf8_cut|].
  exists sd1, (List.concat (decoder_decode new_from_utf8 <$> ps)), sd2, (List.concat (decoder_decode new_from_utf8 <$> qs)).
  split; [exact (H1 _ _ Hns)|]. split; [exact (H2 _ _ Hns)|]. split_and!; [|done|done].
  rewrite <-decoded_app, <-Hraw2. f_equal. apply list_fmap_ext. intros i b Hb. apply decoder_decode_plain.
  intros (x & y & ->). apply Hno. rewrite <-Hall. apply take_drop_middle in Hb. rewrite <-Hb.
  rewrite concat_app, concat_cons. rewrite <-!app_assoc, (app_assoc _ x). by eexists _, _.
Qed.

(** C27. However a byte stream is cut into chunks, writing the chunks to a new
    string decoder and then calling [end] returns, in total, what [toString] in the
    decoder's encoding gives for a buffer that holds all of the stream, and leaves
    the decoder as good as new.  This holds for every encoding and for all bytes,
    malformed UTF-8 included, if in UTF-8 the stream has no byte order mark (see
    [chunk_bom_lost]), the encoding is not ["raw"], and no chunk is longer than a
    string may be. *)
Theorem decoder_chunks junk name sd chunks :
  (forall n, 0 <= n -> slen (junk n) = n) ->
  new_StringDecoder toLowerCase junk name = Ok sd -> encoding sd <> lit "undefined" ->
  Forall (fun c => slen c <= MAX_STRING_LENGTH) chunks ->
  (StringDecoder.enc sd = StringDecoder.Utf8 -> ~ has_bom (List.concat chunks)) ->
  exists sd1 out sd2 out2,
    write_all node_slice chunks sd = (sd1, Ok out) /\ end_ node_slice None sd1 = (sd2, Ok out2) /\
    Ok (out ++ out2) = node_slice (encoding sd) (List.concat chunks) /\
    lastTotal sd2 = 0 /\ sd_inv (encoding sd) (StringDecoder.enc sd) [] sd2.
Proof.
  intros Hj Hnew Hraw Hmax Hno. destruct (new_known _ _ _ Hnew Hraw) as [Hk Hen].
  pose proof (node_slice_known _ (List.concat chunks) Hk) as Hns. rewrite <-Hen in Hns.
  destruct (decide (StringDecoder.enc sd = StringDecoder.Utf8)) as [He|He].
  - rewrite He, decoder_decode_plain in Hns by auto. rewrite Hns.
    destruct (utf8_chunks junk name sd chunks) as (sd1 & o & sd2 & o2 & E1 & E2 & <- & ? & ?); auto 10.
    by exists sd1, o, sd2, o2.
  - destruct (decoder_chunks_gen toLowerCase junk name node_slice (plain (StringDecoder.enc sd)) sd chunks)
      as (sd1 & o & sd2 & o2 & E1 & E2 & E3 & ? & ?); try done.
    + intros b _. rewrite node_slice_known, <-Hen by done. by destruct (StringDecoder.enc sd).
    + intros a b. apply plain_cut.
    + intros -> a x. apply ucs2_odd.
    + exists sd1, o, sd2, o2. rewrite Hns, E3. split_and!; [done|done| |done|done]. by destruct (StringDecoder.enc sd).
Qed.
End Chunks.
(** ** Examples *)

(** The encoder on ASCII strings. *)
Definition ascii_into (s : str) (room : Z) : list Z := take (Z.to_nat room) s.

#[local] Instance ascii_encoder : Utf8Encoder id slen ascii_into.
Proof.
  split; unfold ascii_into, slen, id.
  - intros. apply take_is_prefix.
  - intros. rewrite length_take. lia.
  - intros. apply take_ge. lia.
  - done.
  - done.
Defined.

Lemma write_in_range_witness :
  exists buf' bs, write id id id id ascii_into [0; 0; 0; 0] (lit "abc") (WNumber (num_of_Z 1)) (WNumber (num_of_Z 2)) (Some (lit "latin1")) = inr (buf', slen bs) /\
    slen bs <= 2 /\ wrote [0; 0; 0; 0] buf' 1 bs.
Proof.
  destruct (write_in_range id id slen id id ascii_into [0; 0; 0; 0] (lit "abc")) as [_ H].
  destruct (H 1 2 (lit "latin1") Latin1) as (buf' & bs & E & _ & Hl & Hw); [unfold slen; simpl; lia|unfold slen; simpl; lia|done|done|].
  exists buf', bs. by split_and!.
Defined.

Lemma string_roundtrip_witness :
  exists s, buffer_toString id id id id [0; 255; 16] (Some (lit "hex")) None None = inr s /\
    fromString id id slen id id ascii_into s (Some (lit "hex")) = inr [0; 255; 16].
Proof.
  destruct (string_roundtrip id id id slen id id id id ascii_into ltac:(done) eq_refl) as (H & _).
  apply (H [0; 255; 16]); [repeat constructor; lia|vm_compute; discriminate|by left].
Defined.

Lemma fill_repeats_witness :
  fill id id slen id id ascii_into (fun _ => NaN) [9; 9; 9; 9; 9; 9] (FString (lit "ab")) (BNumber (num_of_Z 1)) (BNumber (num_of_Z 4)) (Some (lit "latin1")) =
  inr [9; 97; 98; 97; 9; 9].
Proof.
  rewrite (fill_repeats id id slen id id ascii_into (fun _ => NaN) [9; 9; 9; 9; 9; 9] (FString (lit "ab")) 1 4 (Some (lit "latin1"))).
  - reflexivity.
  - reflexivity.
  - intros x [= <-]. reflexivity.
  - intros pat E. vm_compute in E. injection E as <-. repeat constructor; lia.
Defined.

(** A length of 0 is no limit for a string in UTF-8. *)
Lemma write_zero_length :
  write id id id id ascii_into [0; 0; 0] (lit "ab") (WNumber (num_of_Z 0)) (WNumber (num_of_Z 0)) None = inr (lit "ab" ++ [0], 2).
Proof. reflexivity. Qed.

#[export] Instance plain_codecs : Codecs id id id.
Proof. by split. Defined.

(** Three bytes of UTF-8, malformed, in two chunks; an engine that decodes a byte to a character. *)
Lemma decoder_chunks_witness :
  exists sd1 out sd2 out2,
    write_all (node_slice id id id id) [[0x61; 0xE2]; [0x82]] (mkDecoder (lit "utf8") StringDecoder.Utf8 [0; 0; 0; 0] 0 0) = (sd1, Ok out) /\
    end_ (node_slice id id id id) None sd1 = (sd2, Ok out2) /\
    Ok (out ++ out2) = node_slice id id id id (lit "utf8") [0x61; 0xE2; 0x82] /\
    lastTotal sd2 = 0 /\ sd_inv (lit "utf8") StringDecoder.Utf8 [] sd2.
Proof.
  apply (decoder_chunks id id id id (fun n => replicate (Z.to_nat n) 0) (Some (lit "utf8"))
           (mkDecoder (lit "utf8") StringDecoder.Utf8 [0; 0; 0; 0] 0 0) [[0x61; 0xE2]; [0x82]]).
  - intros n Hn. unfold slen. rewrite length_replicate. lia.
  - reflexivity.
  - by intros [=].
  - repeat constructor; by vm_compute.
  - intros _ (a & b & E). simpl in E. by destruct a as [|? [|? [|? [|??]]]].
Defined.

(** A byte order mark that a chunk starts with is lost, wherever the chunk is in
    the stream: the letter a in one chunk and a zero width no-break space in the
    next give the letter only, while [toString] of all the bytes gives both. *)
Lemma chunk_bom_lost :
  let utf8_decoder := mkDecoder (lit "utf8") StringDecoder.Utf8 [0; 0; 0; 0] 0 0 in
  let slice := node_slice id id id id (lit "utf8") in
  (write_all (node_slice id id id id) [[0x61]; [0xEF; 0xBB; 0xBF]] utf8_decoder).2 = Ok [0x61] /\
  slice [0x61; 0xEF; 0xBB; 0xBF] = Ok [0x61; 0xEF; 0xBB; 0xBF].
Proof. done. Qed.
