(* ===== verification/NodeEvents.v ===== *)
(** * Event emitters

    Models [src/ext/node/polyfills/_events.mjs]: emitters, their listeners,
    [once] wrappers, errors, the limit on listeners and captured rejections.

    The objects of JavaScript that are shared and changed are in a heap: the object
    [_events] of an emitter, which the code replaces now and then while older code
    still holds it, the arrays of listeners, and the state of a [once] wrapper.

    User code is a program of operations on emitters ([prog]): what a function does
    depends on the state when it is called and on the results of its operations,
    exceptions included, which it may catch.  [emit] runs user code, which runs
    [emit] again, so the recursion is on fuel, the depth of the call stack: when it is
    used up, the call of [emit] or of a function throws the engine's [RangeError], as
    JavaScript does, and nothing else happens.  So every run ends, with a value or an
    exception, and what is proved holds for stacks of any depth.
    The log is a ghost: each run of [emit] has a number and records whom it calls. *)

From Stdlib Require Import ZArith Lia QArith.
From stdpp Require Import base list numbers strings gmap sorting.
From S2P Require Import Prelude JsNumber.

#[local] Open Scope Z_scope.

(** ** Data *)

(** Names of events: strings (those that are array indices apart) and symbols. *)
Inductive key := KIndex (n : Z) | KName (s : string) | KSymbol (n : Z).

#[export] Instance key_eq_dec : EqDecision key.
Proof. solve_decision. Defined.

Definition kErrorMonitor : key := KSymbol 0.
Definition error : key := KName "error".
Definition newListener_ : key := KName "newListener".
Definition removeListener_ : key := KName "removeListener".

(** A function: of the user, or a wrapper made by [_onceWrap]. *)
Inductive fn := User (n : Z) | Wrapper (n : Z).

#[export] Instance fn_eq_dec : EqDecision fn.
Proof. solve_decision. Defined.

(** Values: a thenable, an object whose [then] throws when it is read, instances of
    [Error] from elsewhere and from this code, and whatever else. *)
Inductive value :=
  | Undefined
  | Bool (b : bool)
  | Fn (f : fn)
  | KeyVal (k : key)
  | Thenable (p : Z)
  | BadThen (e : Z)
  | ErrorVal (e : Z)
  | NodeError (code : string)
  | UnhandledError (context : value)
  | Other (n : Z).

Definition is_error (v : value) : bool :=
  match v with ErrorVal _ | NodeError _ | UnhandledError _ => true | _ => false end.

(** A property of [_events]: one function, or an array of them. *)
Inductive slot := SFn (f : fn) | SArr (a : Z).

(** An object made by [Object.create(null)], its properties in order of insertion. *)
Abbreviation obj := (list (key * slot)).

Fixpoint prop (o : obj) (k : key) : option slot :=
  match o with
  | [] => None
  | (k', s) :: o => if decide (k' = k) then Some s else prop o k
  end.

(** Assignment to a property. *)
Fixpoint put (o : obj) (k : key) (s : slot) : obj :=
  match o with
  | [] => [(k, s)]
  | (k', s') :: o => if decide (k' = k) then (k', s) :: o else (k', s') :: put o k s
  end.

(** [delete o[k]] *)
Definition del (o : obj) (k : key) : obj := filter (fun x => x.1 <> k) o.

Definition index_of (k : key) : option Z := match k with KIndex n => Some n | _ => None end.
Definition is_name (k : key) : bool := match k with KName _ => true | _ => false end.
Definition is_symbol (k : key) : bool := match k with KSymbol _ => true | _ => false end.

(** [Reflect.ownKeys]: indices in order, strings, symbols. *)
Definition ownKeys (o : obj) : list key :=
  (KIndex <$> merge_sort Z.le (omap index_of o.*1)) ++ filter (fun k => is_name k = true) o.*1 ++ filter (fun k => is_symbol k = true) o.*1.

Record Emitter := mkEmitter {
  _events : option Z;
  _eventsCount : Z;
  _maxListeners : option num;
  kCapture : bool;
  (** the method [Symbol.for("nodejs.rejection")] *)
  kRejection : option fn;
}.

(** The state of a wrapper. *)
Record wrap := mkWrap { fired : bool; target : Z; wtype : key; listener : fn }.

Record array := mkArray { items : list fn; warned : bool }.

Record call_rec := mkCall { c_emit : Z; c_fn : fn; c_args : list value }.

Record world := mkWorld {
  emitters : gmap Z Emitter;
  objs : gmap Z obj;
  arrays : gmap Z array;
  wraps : gmap Z wrap;
  next : Z;
  defaultMaxListeners : num;
  (** the warnings about leaks: emitter, event, number of listeners *)
  warnings : list (Z * key * Z);
  (** promises whose rejection is watched, with what [emit] was called with *)
  watched : list (Z * Z * key * list value);
  (** ghosts: the calls that runs of [emit] made, and the wrappers that called their listener *)
  log : list call_rec;
  once_log : list Z;
}.

Definition set_emitters f w := mkWorld (f (emitters w)) (objs w) (arrays w) (wraps w) (next w) (defaultMaxListeners w) (warnings w) (watched w) (log w) (once_log w).
Definition set_objs f w := mkWorld (emitters w) (f (objs w)) (arrays w) (wraps w) (next w) (defaultMaxListeners w) (warnings w) (watched w) (log w) (once_log w).
Definition set_arrays f w := mkWorld (emitters w) (objs w) (f (arrays w)) (wraps w) (next w) (defaultMaxListeners w) (warnings w) (watched w) (log w) (once_log w).
Definition set_wraps f w := mkWorld (emitters w) (objs w) (arrays w) (f (wraps w)) (next w) (defaultMaxListeners w) (warnings w) (watched w) (log w) (once_log w).
Definition set_next n w := mkWorld (emitters w) (objs w) (arrays w) (wraps w) n (defaultMaxListeners w) (warnings w) (watched w) (log w) (once_log w).
Definition set_default n w := mkWorld (emitters w) (objs w) (arrays w) (wraps w) (next w) n (warnings w) (watched w) (log w) (once_log w).
Definition add_warning x w := mkWorld (emitters w) (objs w) (arrays w) (wraps w) (next w) (defaultMaxListeners w) (warnings w ++ [x]) (watched w) (log w) (once_log w).
Definition add_watched x w := mkWorld (emitters w) (objs w) (arrays w) (wraps w) (next w) (defaultMaxListeners w) (warnings w) (watched w ++ [x]) (log w) (once_log w).
Definition add_log x w := mkWorld (emitters w) (objs w) (arrays w) (wraps w) (next w) (defaultMaxListeners w) (warnings w) (watched w) (log w ++ [x]) (once_log w).
Definition add_once x w := mkWorld (emitters w) (objs w) (arrays w) (wraps w) (next w) (defaultMaxListeners w) (warnings w) (watched w) (log w) (once_log w ++ [x]).

(** ** Runs *)

(** A run ends with a value or an exception. *)
Definition M (A : Type) : Type := world -> (value + A) * world.

Definition ret {A} (a : A) : M A := fun w => (inr a, w).
Definition throw {A} (e : value) : M A := fun w => (inl e, w).
Definition mbind {A B} (m : M A) (k : A -> M B) : M B := fun w =>
  match m w with
  | (inl e, w) => (inl e, w)
  | (inr a, w) => k a w
  end.
(** What the engine throws when the call stack is full. *)
Definition stack_overflow : value := NodeError "RangeError".
Definition read {A} (f : world -> A) : M A := fun w => (inr (f w), w).
Definition modify (f : world -> world) : M unit := fun w => (inr tt, f w).
(** The value or the exception of a run. *)
Definition attempt {A} (m : M A) : M (value + A) := fun w => let '(r, w) := m w in (inr r, w).

Declare Scope run_scope.
Delimit Scope run_scope with run.
Notation "'do' x ':=' m 'in' k" := (mbind m (fun x => k)) (at level 10, x pattern, m at level 100, k at level 200) : run_scope.
#[local] Open Scope run_scope.

(** A number for a new object. *)
Definition fresh : M Z := fun w => (inr (next w), set_next (next w + 1) w).

Definition no_emitter : Emitter := mkEmitter None 0 None false None.
Definition get_emitter (w : world) (em : Z) : Emitter := default no_emitter (emitters w !! em).
Definition get_obj (w : world) (o : Z) : obj := default [] (objs w !! o).
Definition get_array (w : world) (a : Z) : array := default (mkArray [] false) (arrays w !! a).
Definition get_wrap (w : world) (n : Z) : wrap := default (mkWrap false 0 error (User 0)) (wraps w !! n).

Definition upd_emitter (em : Z) (f : Emitter -> Emitter) : M unit := modify (fun w => set_emitters (<[em := f (get_emitter w em)]>) w).
Definition upd_obj (o : Z) (f : obj -> obj) : M unit := modify (fun w => set_objs (<[o := f (get_obj w o)]>) w).
Definition upd_array (a : Z) (f : array -> array) : M unit := modify (fun w => set_arrays (<[a := f (get_array w a)]>) w).
Definition upd_wrap (n : Z) (f : wrap -> wrap) : M unit := modify (fun w => set_wraps (<[n := f (get_wrap w n)]>) w).

(** [em._events = Object.create(null); em._eventsCount = count] *)
Definition reset_events (em : Z) (count : Z) : M unit :=
  do o := fresh in
  do _ := modify (set_objs (<[o := []]>)) in
  upd_emitter em (fun e => mkEmitter (Some o) count (_maxListeners e) (kCapture e) (kRejection e)).

Definition set_count (em : Z) (count : Z) : M unit :=
  upd_emitter em (fun e => mkEmitter (_events e) count (_maxListeners e) (kCapture e) (kRejection e)).

Definition set_capture (em : Z) (b : bool) : M unit :=
  upd_emitter em (fun e => mkEmitter (_events e) (_eventsCount e) (_maxListeners e) b (kRejection e)).

(** [f.listener] *)
Definition listener_of (w : world) (f : fn) : option fn :=
  match f with User _ => None | Wrapper n => listener <$> wraps w !! n end.

(** [f.listener ?? f], [f.listener || f] *)
Definition unwrapped (w : world) (f : fn) : fn := default f (listener_of w f).

(** ** Limits *)

Definition checkMax (n : num) : bool := num_lt n zero || is_nan n.

Definition setMaxListeners (em : Z) (n : num) : M unit :=
  if checkMax n then throw (NodeError "ERR_OUT_OF_RANGE")
  else upd_emitter em (fun e => mkEmitter (_events e) (_eventsCount e) (Some n) (kCapture e) (kRejection e)).

Definition setDefaultMaxListeners (n : num) : M unit :=
  if checkMax n then throw (NodeError "ERR_OUT_OF_RANGE") else modify (set_default n).

Definition getMaxListeners (w : world) (em : Z) : num := default (defaultMaxListeners w) (_maxListeners (get_emitter w em)).

(** [EventEmitter.init]; the last argument is the option [captureRejections], or else
    the default. *)
Definition init (em : Z) (captureRejections : bool) : M unit :=
  do e := read (fun w => get_emitter w em) in
  do _ := match _events e with None => reset_events em 0 | Some _ => ret tt end in
  upd_emitter em (fun e => mkEmitter (_events e) (_eventsCount e)
    (match _maxListeners e with Some n => if num_le n zero && num_le zero n || is_nan n then None else Some n | None => None end)
    captureRejections (kRejection e)).

(** ** Reading *)

Definition eventsOf (w : world) (em : Z) : obj := match _events (get_emitter w em) with Some o => get_obj w o | None => [] end.

Definition slot_fns (w : world) (s : option slot) : list fn :=
  match s with None => [] | Some (SFn f) => [f] | Some (SArr a) => items (get_array w a) end.

Definition _listeners (w : world) (em : Z) (type : key) (unwrap : bool) : list fn :=
  match _events (get_emitter w em) with
  | None => []
  | Some o =>
      match prop (get_obj w o) type with
      | None => []
      | Some (SFn f) => if unwrap then [unwrapped w f] else [f]
      | Some (SArr a) => let l := items (get_array w a) in if unwrap then unwrapped w <$> l else l
      end
  end.

Definition listeners (w : world) (em : Z) (type : key) : list fn := _listeners w em type true.
Definition rawListeners (w : world) (em : Z) (type : key) : list fn := _listeners w em type false.

Definition listenerCount (w : world) (em : Z) (type : key) : Z :=
  match _events (get_emitter w em) with
  | None => 0
  | Some o =>
      match prop (get_obj w o) type with
      | None => 0
      | Some (SFn _) => 1
      | Some (SArr a) => slen (items (get_array w a))
      end
  end.

Definition eventNames (w : world) (em : Z) : list key :=
  if 0 <? _eventsCount (get_emitter w em) then ownKeys (eventsOf w em) else [].

(** ** User code *)

Inductive action :=
  | AOn (em : Z) (type : key) (f : option fn)
  | APrepend (em : Z) (type : key) (f : option fn)
  | AOnce (em : Z) (type : key) (f : option fn)
  | APrependOnce (em : Z) (type : key) (f : option fn)
  | AOff (em : Z) (type : key) (f : option fn)
  | ARemoveAll (em : Z) (type : option key)
  | AEmit (em : Z) (type : key) (args : list value)
  | ASetMax (em : Z) (n : num).

(** What a function does: an operation and then what depends on its value or
    exception; it ends with a value or an exception. *)
Inductive prog :=
  | Return (v : value)
  | Raise (e : value)
  | Act (a : action) (k : value + value -> prog).

Section Emitters.
(** The program of a user function, called on an emitter with arguments. *)
Context (body : Z -> Z -> list value -> world -> prog).

Section Operations.
Context (emit : Z -> key -> list value -> M bool) (call : fn -> Z -> list value -> M value).

Definition checkListener (f : option fn) : M fn := match f with Some f => ret f | None => throw (NodeError "ERR_INVALID_ARG_TYPE") end.

(** The warning about a leak; [a] is the array. *)
Definition check_leak (em : Z) (type : key) (a : Z) : M unit :=
  do m := read (fun w => getMaxListeners w em) in
  do existing := read (fun w => get_array w a) in
  let n := slen (items existing) in
  if num_lt zero m && num_lt m (num_of_Z n) && negb (warned existing) then
    do _ := upd_array a (fun x => mkArray (items x) true) in
    modify (add_warning (em, type, n))
  else ret tt.

(** [_addListener] after [newListener]: [o] is [events]. *)
Definition add_to (em o : Z) (type : key) (f : fn) (prepend : bool) : M unit :=
  do existing := read (fun w => prop (get_obj w o) type) in
  match existing with
  | None =>
      do _ := upd_obj o (fun x => put x type (SFn f)) in
      do e := read (fun w => get_emitter w em) in
      set_count em (_eventsCount e + 1)
  | Some (SFn g) =>
      do a := fresh in
      do _ := modify (set_arrays (<[a := mkArray (if prepend then [f; g] else [g; f]) false]>)) in
      do _ := upd_obj o (fun x => put x type (SArr a)) in
      check_leak em type a
  | Some (SArr a) =>
      do _ := upd_array a (fun x => mkArray (if prepend then f :: items x else items x ++ [f]) (warned x)) in
      check_leak em type a
  end.

Definition _addListener (em : Z) (type : key) (f : option fn) (prepend : bool) : M unit :=
  do f := checkListener f in
  do events := read (fun w => _events (get_emitter w em)) in
  match events with
  | None =>
      do _ := reset_events em 0 in
      do o := read (fun w => default 0 (_events (get_emitter w em))) in
      add_to em o type f prepend
  | Some o =>
      do listens := read (fun w => prop (get_obj w o) newListener_) in
      do _ := match listens with
              | Some _ => do f' := read (fun w => unwrapped w f) in do _ := emit em newListener_ [KeyVal type; Fn f'] in ret tt
              | None => ret tt
              end in
      do events := read (fun w => _events (get_emitter w em)) in
      match events with
      | Some o => add_to em o type f prepend
      | None => throw (NodeError "TypeError")
      end
  end.

Definition addListener em type f : M unit := _addListener em type f false.
Definition prependListener em type f : M unit := _addListener em type f true.

Definition _onceWrap (em : Z) (type : key) (f : fn) : M fn :=
  do n := fresh in
  do _ := modify (set_wraps (<[n := mkWrap false em type f]>)) in
  ret (Wrapper n).

Definition once (em : Z) (type : key) (f : option fn) : M unit :=
  do f := checkListener f in
  do wrapped := _onceWrap em type f in
  addListener em type (Some wrapped).

Definition prependOnceListener (em : Z) (type : key) (f : option fn) : M unit :=
  do f := checkListener f in
  do wrapped := _onceWrap em type f in
  prependListener em type (Some wrapped).

(** [g === f || g.listener === f] *)
Definition matches (w : world) (f g : fn) : bool := bool_decide (g = f) || bool_decide (listener_of w g = Some f).

(** The last position of a listener that matches. *)
Fixpoint last_match (p : fn -> bool) (l : list fn) : option nat :=
  match l with
  | [] => None
  | g :: l => match last_match p l with Some i => Some (S i) | None => if p g then Some 0%nat else None end
  end.

(** The event after a removal, when someone listens for it. *)
Definition tell_removed (em o : Z) (type : key) (f : fn) : M unit :=
  do listens := read (fun w => prop (get_obj w o) removeListener_) in
  match listens with
  | Some _ => do _ := emit em removeListener_ [KeyVal type; Fn f] in ret tt
  | None => ret tt
  end.

(** The removal of one function, the only listener of its event. *)
Definition remove_single (em o : Z) (type : key) (f g : fn) : M unit :=
  do e := read (fun w => get_emitter w em) in
  let count := _eventsCount e - 1 in
  if count =? 0 then reset_events em count
  else
    do _ := set_count em count in
    do _ := upd_obj o (fun x => del x type) in
    do f' := read (fun w => default f (listener_of w g)) in
    tell_removed em o type f'.

Definition removeListener (em : Z) (type : key) (f : option fn) : M unit :=
  do f := checkListener f in
  do events := read (fun w => _events (get_emitter w em)) in
  match events with
  | None => ret tt
  | Some o =>
      do list := read (fun w => prop (get_obj w o) type) in
      match list with
      | None => ret tt
      | Some (SFn g) =>
          do yes := read (fun w => matches w f g) in
          if yes : bool then remove_single em o type f g else ret tt
      | Some (SArr a) =>
          do position := read (fun w => last_match (matches w f) (items (get_array w a))) in
          match position with
          | None => ret tt
          | Some i =>
              do _ := upd_array a (fun x => mkArray (delete i (items x)) (warned x)) in
              do l := read (fun w => items (get_array w a)) in
              do _ := match l with [g] => upd_obj o (fun x => put x type (SFn g)) | _ => ret tt end in
              tell_removed em o type f
          end
      end
  end.

(** [for (let i = listeners.length - 1; i >= 0; i--)], on the array as it is then. *)
Fixpoint remove_loop (em : Z) (type : key) (a : Z) (i : nat) : M unit :=
  match i with
  | O => ret tt
  | S i =>
      do f := read (fun w => items (get_array w a) !! i) in
      do _ := removeListener em type f in
      remove_loop em type a i
  end.

(** [removeAllListeners(type)] *)
Definition removeAllOf (em : Z) (type : key) : M unit :=
  do events := read (fun w => _events (get_emitter w em)) in
  match events with
  | None => ret tt
  | Some o =>
      do x := read (fun w => get_obj w o) in
      match prop x removeListener_ with
      | None =>
          match prop x type with
          | None => ret tt
          | Some _ =>
              do e := read (fun w => get_emitter w em) in
              let count := _eventsCount e - 1 in
              if count =? 0 then reset_events em count
              else do _ := set_count em count in upd_obj o (fun x => del x type)
          end
      | Some _ =>
          match prop x type with
          | None => ret tt
          | Some (SFn f) => removeListener em type (Some f)
          | Some (SArr a) => do l := read (fun w => items (get_array w a)) in remove_loop em type a (length l)
          end
      end
  end.

Fixpoint remove_keys (em : Z) (ks : list key) : M unit :=
  match ks with
  | [] => ret tt
  | k :: ks =>
      if decide (k = removeListener_) then remove_keys em ks
      else do _ := removeAllOf em k in remove_keys em ks
  end.

Definition removeAllListeners (em : Z) (type : option key) : M unit :=
  match type with
  | Some type => removeAllOf em type
  | None =>
      do events := read (fun w => _events (get_emitter w em)) in
      match events with
      | None => ret tt
      | Some o =>
          do x := read (fun w => get_obj w o) in
          match prop x removeListener_ with
          | None => reset_events em 0
          | Some _ =>
              do _ := remove_keys em (ownKeys x) in
              do _ := removeAllOf em removeListener_ in
              reset_events em 0
          end
      end
  end.

(** ** Running user code *)

Definition perform (a : action) : M value :=
  match a with
  | AOn em type f => do _ := addListener em type f in ret Undefined
  | APrepend em type f => do _ := prependListener em type f in ret Undefined
  | AOnce em type f => do _ := once em type f in ret Undefined
  | APrependOnce em type f => do _ := prependOnceListener em type f in ret Undefined
  | AOff em type f => do _ := removeListener em type f in ret Undefined
  | ARemoveAll em type => do _ := removeAllListeners em type in ret Undefined
  | AEmit em type args => do b := emit em type args in ret (Bool b)
  | ASetMax em n => do _ := setMaxListeners em n in ret Undefined
  end.

Fixpoint run (p : prog) : M value :=
  match p with
  | Return v => ret v
  | Raise e => throw e
  | Act a k => do r := attempt (perform a) in run (k r)
  end.

Definition onceWrapper (n : Z) (args : list value) : M value :=
  do s := read (fun w => get_wrap w n) in
  if fired s then ret Undefined
  else
    do _ := removeListener (target s) (wtype s) (Some (Wrapper n)) in
    do _ := upd_wrap n (fun s => mkWrap true (target s) (wtype s) (listener s)) in
    do _ := modify (add_once n) in
    call (listener s) (target s) args.

Definition call_body (f : fn) (em : Z) (args : list value) : M value :=
  match f with
  | User n => fun w => run (body n em args w) w
  | Wrapper n => onceWrapper n args
  end.

(** ** Emitting *)

Definition addCatch (em : Z) (result : value) (type : key) (args : list value) : M unit :=
  do e := read (fun w => get_emitter w em) in
  if negb (kCapture e) then ret tt
  else
    match result with
    | Thenable p => modify (add_watched (p, em, type, args))
    | BadThen err => do _ := emit em error [ErrorVal err] in ret tt
    | _ => ret tt
    end.

Definition catch_result (em : Z) (result : value) (type : key) (args : list value) : M unit :=
  match result with Undefined => ret tt | _ => addCatch em result type args end.

(** The calls of one run of [emit], number [id]. *)
Fixpoint emit_loop (id em : Z) (type : key) (args : list value) (l : list fn) : M unit :=
  match l with
  | [] => ret tt
  | f :: l =>
      do _ := modify (add_log (mkCall id f args)) in
      do result := call f em args in
      do _ := catch_result em result type args in
      emit_loop id em type args l
  end.

Definition unhandled (args : list value) : M bool :=
  let er := match args with er :: _ => er | [] => Undefined end in
  throw (if is_error er then er else UnhandledError er).

Definition emit_body (em : Z) (type : key) (args : list value) : M bool :=
  let doError := bool_decide (type = error) in
  do events := read (fun w => _events (get_emitter w em)) in
  match events with
  | None => if doError then unhandled args else ret false
  | Some o =>
      do monitor := read (fun w => prop (get_obj w o) kErrorMonitor) in
      do _ := match monitor with
              | Some _ => if doError then do _ := emit em kErrorMonitor args in ret tt else ret tt
              | None => ret tt
              end in
      do x := read (fun w => get_obj w o) in
      match prop x type with
      | None => if doError then unhandled args else ret false
      | Some handler =>
          do l := read (fun w => slot_fns w (Some handler)) in
          do id := fresh in
          do _ := emit_loop id em type args l in
          ret true
      end
  end.

(** [emitUnhandledRejectionOrErr], when a watched promise is rejected; capturing is
    switched on again also when [emit] throws. *)
Definition emitUnhandledRejectionOrErr (em : Z) (err : value) (type : key) (args : list value) : M unit :=
  do e := read (fun w => get_emitter w em) in
  match kRejection e with
  | Some f => do _ := call f em (err :: KeyVal type :: args) in ret tt
  | None =>
      let prev := kCapture e in
      do _ := set_capture em false in
      do r := attempt (emit em error [err]) in
      do _ := set_capture em prev in
      match r with inl e => throw e | inr _ => ret tt end
  end.
End Operations.

(** [emit] and the call of a function, on a stack with room for [fuel] levels. *)
Fixpoint emit_fuel (fuel : nat) (em : Z) (type : key) (args : list value) : M bool :=
  match fuel with O => throw stack_overflow | S n => emit_body (emit_fuel n) (call_fuel n) em type args end
with call_fuel (fuel : nat) (f : fn) (em : Z) (args : list value) : M value :=
  match fuel with O => throw stack_overflow | S n => call_body (emit_fuel n) (call_fuel n) f em args end.
End Emitters.
