(* ===== verification/NodeEventsProps.v ===== *)
(** * Event emitters: invariants

    What every operation keeps, whatever user code does: the count of events, the
    shape of the slots, one home for each array and each object ([wf]); and, when user
    code only adds functions of its own, the homes of [once] wrappers and that they
    call their listener at most once ([once_ok]).  [evolved] collects what may happen
    to the world during a run; it is proved of each operation given that it holds of
    [emit] and of the calls, and then of [emit] by induction on fuel. *)

From Stdlib Require Import ZArith Lia QArith.
From stdpp Require Import base list numbers strings gmap sorting.
From S2P Require Import Prelude JsNumber NodeEvents.

#[local] Open Scope Z_scope.
#[local] Open Scope run_scope.

(** ** Weakest preconditions *)

Definition wp {A} (m : M A) (Q : value + A -> world -> Prop) (w : world) : Prop :=
  let '(r, w') := m w in Q r w'.

Lemma wp_mono {A} (m : M A) (Q Q' : value + A -> world -> Prop) w : wp m Q w -> (forall r w', Q r w' -> Q' r w') -> wp m Q' w.
Proof. unfold wp. destruct (m w) as [r w']; auto. Qed.

Lemma wp_eq {A} (m : M A) Q w r w' : m w = (r, w') -> Q r w' -> wp m Q w.
Proof. unfold wp. by intros ->. Qed.

Lemma wp_inv {A} (m : M A) Q w r w' : wp m Q w -> m w = (r, w') -> Q r w'.
Proof. unfold wp. by intros H E; rewrite E in H. Qed.

Lemma wp_ret {A} (a : A) Q w : Q (inr a) w -> wp (ret a) Q w.
Proof. done. Qed.

Lemma wp_throw {A} e (Q : value + A -> world -> Prop) w : Q (inl e) w -> wp (throw e) Q w.
Proof. done. Qed.

Lemma wp_bind {A B} (m : M A) (k : A -> M B) Q w :
  wp m (fun r w' => match r with inl e => Q (inl e) w' | inr a => wp (k a) Q w' end) w -> wp (mbind m k) Q w.
Proof. unfold wp, mbind. destruct (m w) as [[e|a] w']; auto. Qed.

Lemma wp_read {A B} (f : world -> A) (k : A -> M B) Q w : wp (k (f w)) Q w -> wp (mbind (read f) k) Q w.
Proof. done. Qed.

Lemma wp_modify f Q w : Q (inr tt) (f w) -> wp (modify f) Q w.
Proof. done. Qed.

Lemma wp_fresh Q w : Q (inr (next w)) (set_next (next w + 1) w) -> wp fresh Q w.
Proof. done. Qed.

Lemma wp_attempt {A} (m : M A) Q w : wp m (fun r w' => Q (inr r) w') w -> wp (attempt m) Q w.
Proof. unfold wp, attempt. destruct (m w) as [r w']; auto. Qed.

Ltac wp_step := first [apply wp_read | apply wp_bind | apply wp_modify | apply wp_ret | apply wp_throw | apply wp_attempt].

(** ** Objects *)

Lemma prop_elem o k s : prop o k = Some s -> (k, s) ∈ o.
Proof.
  induction o as [|[k' s'] o IH]; simpl; [done|]. destruct (decide (k' = k)) as [->|].
  - intros [= ->]. left.
  - intros H. right. auto.
Qed.

Lemma prop_None o k : prop o k = None <-> k ∉ o.*1.
Proof.
  induction o as [|[k' s'] o IH]; csimpl; [split; [intros _; apply not_elem_of_nil|done]|].
  rewrite not_elem_of_cons. destruct (decide (k' = k)); [split; [done|intros [? _]; congruence]|].
  rewrite IH. split; [intros; split; [congruence|done]|by intros [_ ?]].
Qed.

Lemma prop_put o k s k' : prop (put o k s) k' = if decide (k = k') then Some s else prop o k'.
Proof.
  induction o as [|[k1 s1] o IH]; csimpl; [done|].
  destruct (decide (k1 = k)) as [->|]; csimpl; [by destruct (decide (k = k'))|]. rewrite IH.
  destruct (decide (k1 = k')), (decide (k = k')); congruence.
Qed.

Lemma put_keys o k s : (put o k s).*1 = if decide (prop o k = None) then o.*1 ++ [k] else o.*1.
Proof.
  induction o as [|[k1 s1] o IH]; csimpl; [done|]. destruct (decide (k1 = k)) as [->|]; csimpl; [done|].
  rewrite IH. by destruct (decide (prop o k = None)).
Qed.

Lemma prop_del o k k' : prop (del o k) k' = if decide (k = k') then None else prop o k'.
Proof.
  induction o as [|[k1 s1] o IH]; csimpl; [by destruct (decide _)|]. unfold del in *. rewrite filter_cons. csimpl.
  destruct (decide (k1 <> k)) as [Hne|Hne]; csimpl; rewrite IH.
  - destruct (decide (k1 = k')), (decide (k = k')); congruence.
  - apply dec_stable in Hne. subst. by destruct (decide (k = k')).
Qed.

Lemma del_sublist o k : (del o k).*1 `sublist_of` o.*1.
Proof. apply fmap_sublist, sublist_filter. Qed.

Lemma length_del o k s : NoDup o.*1 -> prop o k = Some s -> length o = S (length (del o k)).
Proof.
  induction o as [|[k1 s1] o IH]; csimpl; [done|]. rewrite NoDup_cons. intros [Hni Hnd]. unfold del in *. rewrite filter_cons. csimpl.
  destruct (decide (k1 = k)) as [->|Hne].
  - intros _. rewrite decide_False by tauto. f_equal. symmetry.
    assert (Hall : forall x, x ∈ o -> x.1 <> k) by (intros x Hx E; apply Hni; rewrite <-E; by apply list_elem_of_fmap_2).
    clear -Hall. induction o as [|x o IH]; [done|]. rewrite filter_cons, decide_True by (apply Hall; left). csimpl. f_equal. apply IH.
    intros y Hy. apply Hall. by right.
  - intros Hp. rewrite decide_True by done. csimpl. f_equal. by apply IH.
Qed.

(** ** The heap *)

Abbreviation events_of w em := (_events (get_emitter w em)).

Definition lst (w : world) (em : Z) (k : key) : list fn := slot_fns w (prop (eventsOf w em) k).

Record wf (w : world) : Prop := {
  wf_obj : forall em o, events_of w em = Some o ->
    o < next w /\ NoDup (get_obj w o).*1 /\ _eventsCount (get_emitter w em) = slen (get_obj w o);
  wf_none : forall em, events_of w em = None -> _eventsCount (get_emitter w em) = 0;
  wf_home : forall em em' o, events_of w em = Some o -> events_of w em' = Some o -> em = em';
  wf_array : forall em k a, prop (eventsOf w em) k = Some (SArr a) -> a < next w /\ 2 <= slen (items (get_array w a));
  wf_heap : forall o k a, prop (get_obj w o) k = Some (SArr a) -> a < next w;
  wf_single : forall em k em' k' a, prop (eventsOf w em) k = Some (SArr a) -> prop (eventsOf w em') k' = Some (SArr a) -> em = em' /\ k = k';
}.

(** The functions in an object, current or not. *)
Definition obj_free (f : fn) (w : world) (o : Z) : Prop := forall k, f ∉ slot_fns w (prop (get_obj w o) k).
Definition free (f : fn) (w : world) : Prop := forall em k, f ∉ lst w em k.

Lemma free_obj f w em o : free f w -> events_of w em = Some o -> obj_free f w o.
Proof. intros Hf He k. specialize (Hf em k). unfold lst, eventsOf in Hf. by rewrite He in Hf. Qed.

Definition is_user (f : fn) : Prop := match f with User _ => True | Wrapper _ => False end.

#[export] Instance is_user_dec f : Decision (is_user f).
Proof. destruct f; [left|right]; done || (intros []). Defined.

Abbreviation wrappers l := (filter (fun f => ~ is_user f) l).

(** Wrappers are listed where they were made for, once, and have called their
    listener at most once. *)
Record once_ok (w : world) : Prop := {
  oo_wraps : forall n s, wraps w !! n = Some s -> n < next w /\ is_user (listener s);
  oo_home : forall em k n, Wrapper n ∈ lst w em k -> exists s, wraps w !! n = Some s /\ target s = em /\ wtype s = k;
  oo_nodup : forall em k, NoDup (wrappers (lst w em k));
  oo_known : forall n o, wraps w !! n = None -> obj_free (Wrapper n) w o;
  oo_once : NoDup (once_log w);
  oo_fired : forall n, n ∈ once_log w -> fired (get_wrap w n) = true;
  oo_gone : forall n, n ∈ once_log w -> free (Wrapper n) w;
}.

(** User code that adds functions of its own only, and no wrapper that it got from
    [rawListeners] or in a [removeListener] event. *)
Definition plain (a : action) : Prop :=
  match a with
  | AOn _ _ (Some f) | APrepend _ _ (Some f) | AOnce _ _ (Some f) | APrependOnce _ _ (Some f) => is_user f
  | _ => True
  end.

Fixpoint hygienic (p : prog) : Prop :=
  match p with Act a k => plain a /\ forall r, hygienic (k r) | _ => True end.

Definition hygienic_code (body : Z -> Z -> list value -> world -> prog) : Prop := forall n em args w, hygienic (body n em args w).

Section Props.
(** Whether user code is promised to be hygienic: [False] for results about any code. *)
Context (hyg : Prop).

(** What a run may do.  Numbers from [lo] on are new; [X] are the wrappers that the run
    may call although nobody lists them. *)
Record evolved (lo : Z) (X : Z -> Prop) (w w' : world) : Prop := {
  ev_next : next w <= next w';
  ev_wf : wf w';
  ev_log : exists new, log w' = log w ++ new /\ Forall (fun c => lo <= c_emit c) new;
  ev_wraps : hyg -> once_ok w -> forall n s, wraps w !! n = Some s -> exists s', wraps w' !! n = Some s' /\ target s' = target s /\ wtype s' = wtype s /\ listener s' = listener s;
  ev_once : hyg -> once_ok w -> once_ok w';
  ev_free : hyg -> once_ok w -> forall n, n < lo -> ~ X n -> free (Wrapper n) w ->
    free (Wrapper n) w' /\ (forall o, obj_free (Wrapper n) w o -> obj_free (Wrapper n) w' o) /\
    (fired (get_wrap w' n) = fired (get_wrap w n)) /\ (n ∈ once_log w' <-> n ∈ once_log w);
}.

Definition none : Z -> Prop := fun _ => False.

Lemma evolved_refl lo X w : wf w -> evolved lo X w w.
Proof.
  intros Hw. split; try done; [exists []; by rewrite app_nil_r|eauto].
Qed.

Lemma evolved_trans lo X w1 w2 w3 : evolved lo X w1 w2 -> evolved lo X w2 w3 -> evolved lo X w1 w3.
Proof.
  intros [N1 W1 (n1 & L1 & F1) P1 O1 R1] [N2 W2 (n2 & L2 & F2) P2 O2 R2]. split.
  - lia.
  - done.
  - exists (n1 ++ n2). rewrite L2, L1, app_assoc. split; [done|by apply Forall_app].
  - intros Hh Ho n s Hs. destruct (P1 Hh Ho n s Hs) as (s' & Hs' & E1 & E2 & E3). destruct (P2 Hh (O1 Hh Ho) n s' Hs') as (s'' & Hs'' & E1' & E2' & E3').
    exists s''. split_and!; congruence.
  - auto.
  - intros Hh Ho n Hn HX Hf. destruct (R1 Hh Ho n Hn HX Hf) as (Hf2 & Ho2 & Hi2 & Hl2).
    destruct (R2 Hh (O1 Hh Ho) n Hn HX Hf2) as (Hf3 & Ho3 & Hi3 & Hl3).
    split_and!; [done|auto|congruence|by rewrite Hl3].
Qed.

Lemma evolved_weaken lo lo' (X Y : Z -> Prop) w w' : lo' <= lo -> (hyg -> forall n, X n -> Y n) -> evolved lo X w w' -> evolved lo' Y w w'.
Proof.
  intros Hl HX [N W (new & L & F) P O R]. split; try done.
  - exists new. split; [done|]. eapply Forall_impl; [exact F|]. simpl. lia.
  - intros Hh Ho n Hn HY. apply R; [done|done|lia|]. intros HX'. by apply HY, HX.
Qed.

(** Wrappers in [X] that were listed before do not matter. *)
Lemma evolved_discharge lo (X : Z -> Prop) w w' : (hyg -> once_ok w -> forall n, n < lo -> free (Wrapper n) w -> ~ X n) -> evolved lo X w w' -> evolved lo none w w'.
Proof. intros HX [N W L P O R]. split; try done. intros Hh Ho n Hn _ Hf. apply R; auto. Qed.

(** *** Changes that do not touch the listeners *)

Record heap_same (w w' : world) : Prop := {
  hs_events : forall em, events_of w' em = events_of w em;
  hs_count : forall em, _eventsCount (get_emitter w' em) = _eventsCount (get_emitter w em);
  hs_objs : forall o, get_obj w' o = get_obj w o;
  hs_arrays : forall a, items (get_array w' a) = items (get_array w a);
}.

Lemma heap_same_refl w : heap_same w w.
Proof. done. Qed.

Lemma heap_eventsOf w w' em : heap_same w w' -> eventsOf w' em = eventsOf w em.
Proof. intros [E C O A]. unfold eventsOf. rewrite E. destruct (events_of w em); [apply O|done]. Qed.

Lemma heap_slot w w' s : heap_same w w' -> slot_fns w' s = slot_fns w s.
Proof. intros [E C O A]. destruct s as [[f|a]|]; simpl; auto. Qed.

Lemma heap_lst w w' em k : heap_same w w' -> lst w' em k = lst w em k.
Proof. intros H. unfold lst. by rewrite (heap_slot _ _ _ H), (heap_eventsOf _ _ _ H). Qed.

Lemma heap_wf w w' : heap_same w w' -> next w <= next w' -> wf w -> wf w'.
Proof.
  intros H Hn [H1 H2 H3 H4 H6 H5]. pose proof (heap_eventsOf w w') as He. destruct H as [E C O A]. split.
  - intros em o. rewrite E, O, C. intros Ho. destruct (H1 em o Ho) as (? & ? & ?). split_and!; [lia|done|done].
  - intros em. rewrite E, C. auto.
  - intros em em' o. rewrite !E. eauto.
  - intros em k a. rewrite He, A by done. intros Ha. destruct (H4 em k a Ha). split; [lia|done].
  - intros o k a. rewrite O. intros Ha. specialize (H6 o k a Ha). lia.
  - intros em k em' k' a. rewrite !He by done. eauto.
Qed.

(** A change of the ghosts and of numbers only. *)
Lemma evolved_ghost lo X w w' : wf w -> heap_same w w' -> next w <= next w' -> wraps w' = wraps w -> once_log w' = once_log w ->
  (exists new, log w' = log w ++ new /\ Forall (fun c => lo <= c_emit c) new) -> evolved lo X w w'.
Proof.
  intros Hw Hs Hn Hwr Hol Hlog. pose proof (fun em k => heap_lst w w' em k Hs) as Hl. split.
  - done.
  - by eapply heap_wf.
  - done.
  - intros _ _ n s. rewrite Hwr. eauto.
  - intros _ [O1 O2 O3 O6 O4 O5 O7]. split.
    + intros n s. rewrite Hwr. intros Hx. destruct (O1 n s Hx). split; [lia|done].
    + intros em k n. rewrite Hl, Hwr. auto.
    + intros em k. rewrite Hl. auto.
    + intros n o. rewrite Hwr. intros Hx k. rewrite (heap_slot _ _ _ Hs), (hs_objs _ _ Hs). by apply O6.
    + by rewrite Hol.
    + intros n. unfold get_wrap. rewrite Hol, Hwr. apply O5.
    + intros n. rewrite Hol. intros Hn' em k. rewrite Hl. by apply O7.
  - intros _ _ n _ _ Hf. unfold get_wrap. rewrite Hol, Hwr. split_and!; [|  |done|done].
    + intros em k. rewrite Hl. apply Hf.
    + intros o Ho k. rewrite (heap_slot _ _ _ Hs), (hs_objs _ _ Hs). apply Ho.
Qed.

Ltac ghost := apply evolved_ghost; [done|by split| |done|done|exists []; by rewrite app_nil_r]; simpl; lia.

Lemma fresh_evolves lo X w : wf w -> evolved lo X w (set_next (next w + 1) w).
Proof. intros. ghost. Qed.

Lemma get_upd_emitter w em e em' : get_emitter (set_emitters (<[em := e]>) w) em' = if decide (em = em') then e else get_emitter w em'.
Proof.
  unfold get_emitter. simpl. destruct (decide (em = em')) as [->|]; [by rewrite lookup_insert_eq|by rewrite lookup_insert_ne].
Qed.

Lemma get_upd_obj w o x o' : get_obj (set_objs (<[o := x]>) w) o' = if decide (o = o') then x else get_obj w o'.
Proof. unfold get_obj. simpl. destruct (decide (o = o')) as [->|]; [by rewrite lookup_insert_eq|by rewrite lookup_insert_ne]. Qed.

Lemma get_upd_array w a x a' : get_array (set_arrays (<[a := x]>) w) a' = if decide (a = a') then x else get_array w a'.
Proof. unfold get_array. simpl. destruct (decide (a = a')) as [->|]; [by rewrite lookup_insert_eq|by rewrite lookup_insert_ne]. Qed.

(** A change of an emitter that keeps its listeners. *)
Lemma emitter_evolves lo X w em e : wf w -> _events e = events_of w em -> _eventsCount e = _eventsCount (get_emitter w em) ->
  evolved lo X w (set_emitters (<[em := e]>) w).
Proof.
  intros Hw He Hc. apply evolved_ghost; [done| |done|done|done|exists []; by rewrite app_nil_r]. split; intros; rewrite ?get_upd_emitter; try done;
    destruct (decide _); congruence.
Qed.

(** *** Changes of the lists *)

(** Lists lose functions, and the list of one event gets those in [added]. *)
Lemma evolved_lists lo X em k (added : list fn) w w' : wf w' -> wraps w' = wraps w -> once_log w' = once_log w -> log w' = log w -> next w <= next w' ->
  (forall em' k' f, f ∈ lst w' em' k' -> f ∈ lst w em' k' \/ (em' = em /\ k' = k /\ f ∈ added)) ->
  (hyg -> once_ok w -> forall em' k', NoDup (wrappers (lst w' em' k'))) ->
  (hyg -> once_ok w -> forall n, Wrapper n ∈ added -> lo <= n /\ n ∉ once_log w /\ exists s, wraps w !! n = Some s /\ target s = em /\ wtype s = k) ->
  (forall f o, f ∉ added -> free f w -> obj_free f w o -> obj_free f w' o) ->
  evolved lo X w w'.
Proof.
  intros Hw Hwr Hol Hlog Hn Hin Hnd Hadd Hobj. split.
  - done.
  - done.
  - exists []. by rewrite app_nil_r.
  - intros _ _ n s. rewrite Hwr. eauto.
  - intros Hh Ho. pose proof (Hnd Hh Ho) as Hnd'. pose proof (Hadd Hh Ho) as Hadd'. destruct Ho as [O1 O2 O3 O6 O4 O5 O7]. split.
    + intros n s. rewrite Hwr. intros Hx. destruct (O1 n s Hx). split; [lia|done].
    + intros em' k' n Hx. rewrite Hwr. apply Hin in Hx as [Hx|(-> & -> & Hx)]; [by apply O2|]. by apply Hadd'.
    + done.
    + intros n o. rewrite Hwr. intros Hx. apply Hobj; [| |by apply O6].
      * intros Ha. apply Hadd' in Ha as (_ & _ & s & Hs & _). congruence.
      * intros em' k' Hy. apply O2 in Hy as (s & Hs & _). congruence.
    + by rewrite Hol.
    + intros n. unfold get_wrap. rewrite Hol, Hwr. apply O5.
    + intros n. rewrite Hol. intros Hx em' k' Hy. apply Hin in Hy as [Hy|(_ & _ & Hy)]; [by eapply O7|]. by apply Hadd' in Hy as (_ & ? & _).
  - intros Hh Ho n Hlo _ Hf. unfold get_wrap. rewrite Hol, Hwr.
    assert (Hna : Wrapper n ∉ added) by (intros Hx; apply Hadd in Hx as [? _]; done || lia). split_and!; [|auto|done|done].
    intros em' k' Hx. apply Hin in Hx as [Hx|(_ & _ & Hx)]; [by eapply Hf|done].
Qed.

(** [Object.create(null)] with a count of 0. *)
Definition after_reset (em : Z) (w : world) : world :=
  let w1 := set_objs (<[next w := []]>) (set_next (next w + 1) w) in
  let e := get_emitter w em in
  set_emitters (<[em := mkEmitter (Some (next w)) 0 (_maxListeners e) (kCapture e) (kRejection e)]>) w1.

Lemma wp_reset em Q w : Q (inr tt) (after_reset em w) -> wp (reset_events em 0) Q w.
Proof. done. Qed.

Lemma reset_eventsOf em w em' : wf w -> eventsOf (after_reset em w) em' = if decide (em = em') then [] else eventsOf w em'.
Proof.
  intros Hw. unfold after_reset, eventsOf. rewrite get_upd_emitter. destruct (decide (em = em')) as [->|Hne]; simpl.
  - unfold get_obj. simpl. by rewrite lookup_insert_eq.
  - change (get_emitter (set_objs _ _) em') with (get_emitter w em'). destruct (events_of w em') as [o|] eqn:He; [|done].
    apply (wf_obj w Hw) in He as [Ho _]. unfold get_obj. simpl. by rewrite lookup_insert_ne by lia.
Qed.

Lemma reset_evolves lo X em w : wf w -> evolved lo X w (after_reset em w).
Proof.
  intros Hw. pose proof (fun em' => reset_eventsOf em w em' Hw) as He.
  assert (Hslot : forall s, slot_fns (after_reset em w) s = slot_fns w s) by done.
  assert (Hl : forall em' k', lst (after_reset em w) em' k' = if decide (em = em') then [] else lst w em' k').
  { intros em' k'. unfold lst. rewrite Hslot, He. by destruct (decide (em = em')). }
  assert (Hev : forall em', events_of (after_reset em w) em' = if decide (em = em') then Some (next w) else events_of w em').
  { intros em'. unfold after_reset. rewrite get_upd_emitter. by destruct (decide (em = em')). }
  assert (Hct : forall em', _eventsCount (get_emitter (after_reset em w) em') = if decide (em = em') then 0 else _eventsCount (get_emitter w em')).
  { intros em'. unfold after_reset. rewrite get_upd_emitter. by destruct (decide (em = em')). }
  apply (evolved_lists lo X em error []); try done.
  - split.
    + intros em' o. rewrite Hev, Hct. destruct (decide (em = em')) as [->|].
      * intros [= <-]. unfold get_obj. simpl. rewrite lookup_insert_eq. split_and!; [lia|constructor|done].
      * intros Ho. destruct (wf_obj w Hw em' o Ho) as (? & ? & ?). unfold get_obj. simpl. rewrite lookup_insert_ne by lia. split_and!; [lia|done|done].
    + intros em'. rewrite Hev, Hct. destruct (decide (em = em')); [done|]. apply (wf_none w Hw).
    + intros em1 em2 o. rewrite !Hev. destruct (decide (em = em1)), (decide (em = em2)); try congruence.
      * intros [= <-] Ho. apply (wf_obj w Hw) in Ho. lia.
      * intros Ho [= <-]. apply (wf_obj w Hw) in Ho. lia.
      * apply (wf_home w Hw).
    + intros em' k a. rewrite He. destruct (decide (em = em')); [done|]. intros Ha. destruct (wf_array w Hw em' k a Ha). split; [simpl; lia|done].
    + intros o k a. unfold get_obj. simpl. destruct (decide (o = next w)) as [->|]; [by rewrite lookup_insert_eq|].
      rewrite lookup_insert_ne by done. intros Ha. apply (wf_heap w Hw) in Ha. lia.
    + intros em1 k1 em2 k2 a. rewrite !He. destruct (decide (em = em1)), (decide (em = em2)); try done. apply (wf_single w Hw).
  - simpl. lia.
  - intros em' k' f. rewrite Hl. destruct (decide (em = em')); [by intros ?%elem_of_nil|by left].
  - intros Hh Ho em' k'. rewrite Hl. destruct (decide (em = em')); [constructor|apply (oo_nodup w Ho)].
  - intros _ _ n Hn. by apply elem_of_nil in Hn.
  - intros f o _ _ Ho k. rewrite Hslot. unfold get_obj. simpl. destruct (decide (o = next w)) as [->|].
    + rewrite lookup_insert_eq. apply not_elem_of_nil.
    + rewrite lookup_insert_ne by done. apply Ho.
Qed.

(** One slot of the current object [o] of [em] becomes [s']. *)
Record slot_change (em o : Z) (k : key) (s' : option slot) (added : list fn) (w w' : world) : Prop := {
  sc_cur : events_of w em = Some o;
  sc_events : forall em', events_of w' em' = events_of w em';
  sc_counts : forall em', em' <> em -> _eventsCount (get_emitter w' em') = _eventsCount (get_emitter w em');
  sc_count : _eventsCount (get_emitter w' em) = slen (get_obj w' o);
  sc_keys : NoDup (get_obj w' o).*1;
  sc_prop : forall k', prop (get_obj w' o) k' = if decide (k = k') then s' else prop (get_obj w o) k';
  sc_objs : forall o', o' <> o -> get_obj w' o' = get_obj w o';
  sc_arrays : forall a, a < next w -> prop (get_obj w o) k <> Some (SArr a) -> items (get_array w' a) = items (get_array w a);
  sc_items : forall a f, a < next w -> f ∈ items (get_array w' a) -> f ∈ items (get_array w a) \/ f ∈ added;
  sc_new : forall a, s' = Some (SArr a) -> a < next w' /\ 2 <= slen (items (get_array w' a)) /\ (prop (get_obj w o) k = Some (SArr a) \/ next w <= a);
  sc_next : next w <= next w';
  sc_wraps : wraps w' = wraps w;
  sc_once : once_log w' = once_log w;
  sc_log : log w' = log w;
}.

Section SlotChange.
Context (em o : Z) (k : key) (s' : option slot) (added : list fn) (w w' : world) (Hw : wf w) (H : slot_change em o k s' added w w').

Lemma sc_eventsOf em' k' : prop (eventsOf w' em') k' = if decide (em' = em /\ k' = k) then s' else prop (eventsOf w em') k'.
Proof.
  unfold eventsOf. rewrite (sc_events _ _ _ _ _ _ _ H). destruct (decide (em' = em)) as [->|Hne].
  - rewrite (sc_cur _ _ _ _ _ _ _ H), (sc_prop _ _ _ _ _ _ _ H). destruct (decide (k = k')) as [<-|Hk].
    + by rewrite decide_True.
    + rewrite decide_False; [done|]. intros [_ E]. by symmetry in E.
  - rewrite decide_False by tauto. destruct (events_of w em') as [o'|] eqn:He; [|done].
    rewrite (sc_objs _ _ _ _ _ _ _ H); [done|]. intros ->. apply Hne. eapply wf_home; eauto using sc_cur.
Qed.

Lemma sc_untouched em' k' a : ~ (em' = em /\ k' = k) -> prop (eventsOf w em') k' = Some (SArr a) -> items (get_array w' a) = items (get_array w a).
Proof.
  intros Hne Ha. apply (sc_arrays _ _ _ _ _ _ _ H); [by eapply wf_array|]. intros Hk. apply Hne.
  eapply (wf_single w Hw); [exact Ha|]. unfold eventsOf. by rewrite (sc_cur _ _ _ _ _ _ _ H).
Qed.

Lemma sc_lst em' k' : lst w' em' k' = if decide (em' = em /\ k' = k) then slot_fns w' s' else lst w em' k'.
Proof.
  unfold lst. rewrite sc_eventsOf. destruct (decide (em' = em /\ k' = k)) as [|Hne]; [done|].
  destruct (prop (eventsOf w em') k') as [[f|a]|] eqn:E; [done| |done]. simpl. by eapply sc_untouched.
Qed.

Lemma sc_wf : wf w'.
Proof.
  pose proof H as [C1 C2 C3 C4 C5 C6 C7 C8 C9 C10 C11 _ _ _]. split.
  - intros em' o'. rewrite C2. intros Ho. destruct (wf_obj w Hw em' o' Ho) as (L & N & T). destruct (decide (em' = em)) as [->|Hne].
    + assert (o' = o) as -> by congruence. split_and!; [lia|done|done].
    + assert (o' <> o) by (intros ->; apply Hne; eapply wf_home; eauto). rewrite C7, C3 by done. split_and!; [lia|done|done].
  - intros em'. rewrite C2. intros He. assert (em' <> em) by congruence. rewrite C3 by done. by apply (wf_none w Hw).
  - intros em1 em2 o'. rewrite !C2. apply (wf_home w Hw).
  - intros em' k' a. rewrite sc_eventsOf. destruct (decide (em' = em /\ k' = k)) as [|Hne].
    + intros E. destruct (C10 a E) as (? & ? & _). done.
    + intros Ha. rewrite (sc_untouched em' k' a) by done. destruct (wf_array w Hw em' k' a Ha). split; [lia|done].
  - intros o' k' a. destruct (decide (o' = o)) as [->|Hne].
    + rewrite C6. destruct (decide (k = k')); [intros E; by apply C10|intros Ha; apply (wf_heap w Hw) in Ha; lia].
    + rewrite C7 by done. intros Ha. apply (wf_heap w Hw) in Ha. lia.
  - assert (Hcur : prop (eventsOf w em) k = prop (get_obj w o) k) by (unfold eventsOf; by rewrite C1).
    assert (Hx : forall em' k' a, ~ (em' = em /\ k' = k) -> s' = Some (SArr a) -> prop (eventsOf w em') k' = Some (SArr a) -> False).
    { intros em' k' a Hne E Ha. destruct (C10 a E) as (_ & _ & [Hk|Hk]).
      - apply Hne. eapply (wf_single w Hw); [exact Ha|by rewrite Hcur].
      - apply (wf_array w Hw) in Ha as [? _]. lia. }
    intros em1 k1 em2 k2 a. rewrite !sc_eventsOf.
    destruct (decide (em1 = em /\ k1 = k)) as [[-> ->]|N1], (decide (em2 = em /\ k2 = k)) as [[-> ->]|N2]; [done| | |apply (wf_single w Hw)].
    + intros E Ha. destruct (Hx _ _ _ N2 E Ha).
    + intros Ha E. destruct (Hx _ _ _ N1 E Ha).
Qed.

Lemma sc_obj_free f o' : f ∉ added -> f ∉ slot_fns w' s' -> obj_free f w o' -> obj_free f w' o'.
Proof.
  intros Hna Hs Ho k'. assert (Hsl : forall s, (forall a, s = Some (SArr a) -> a < next w) -> f ∉ slot_fns w s -> f ∉ slot_fns w' s).
  { intros [[g|a]|] Hlt; simpl; auto. intros Hn Hin. apply (sc_items _ _ _ _ _ _ _ H) in Hin as [?|?]; auto. }
  destruct (decide (o' = o)) as [->|Hne].
  - rewrite (sc_prop _ _ _ _ _ _ _ H). destruct (decide (k = k')); [done|]. apply Hsl; [|apply Ho]. intros a. apply (wf_heap w Hw).
  - rewrite (sc_objs _ _ _ _ _ _ _ H) by done. apply Hsl; [|apply Ho]. intros a. apply (wf_heap w Hw).
Qed.

Lemma slot_evolves lo X : (forall f, f ∈ slot_fns w' s' -> f ∈ lst w em k \/ f ∈ added) ->
  (hyg -> once_ok w -> NoDup (wrappers (slot_fns w' s'))) ->
  (hyg -> once_ok w -> forall n, Wrapper n ∈ added -> lo <= n /\ n ∉ once_log w /\ exists s, wraps w !! n = Some s /\ target s = em /\ wtype s = k) ->
  evolved lo X w w'.
Proof.
  intros Hin Hnd Hadd. destruct H as [_ _ _ _ _ _ _ _ _ _ C11 C12 C13 C14].
  apply (evolved_lists lo X em k added); try done; [apply sc_wf| | |].
  - intros em' k' f. rewrite sc_lst. destruct (decide _) as [[-> ->]|]; [|by left]. intros Hf. apply Hin in Hf as [|]; auto.
  - intros Hh Ho em' k'. rewrite sc_lst. destruct (decide _); [auto|apply (oo_nodup w Ho)].
  - intros f o' Hna Hf. apply sc_obj_free; [done|]. intros Hs. apply Hin in Hs as [Hs|]; [|done]. by eapply Hf.
Qed.
End SlotChange.

(** *** The changes that operations make *)

(** What is known of the current object. *)
Lemma cur_facts w em o : wf w -> events_of w em = Some o -> o < next w /\ NoDup (get_obj w o).*1 /\ _eventsCount (get_emitter w em) = slen (get_obj w o).
Proof. intros Hw. apply (wf_obj w Hw). Qed.

Lemma cur_array w em o k a : wf w -> events_of w em = Some o -> prop (get_obj w o) k = Some (SArr a) -> a < next w /\ 2 <= slen (items (get_array w a)).
Proof. intros Hw He Ha. apply (wf_array w Hw em k). unfold eventsOf. by rewrite He. Qed.

Lemma NoDup_put (x : obj) k s : NoDup x.*1 -> NoDup (put x k s).*1.
Proof.
  intros Hn. rewrite put_keys. destruct (decide _) as [Hp|]; [|done]. apply NoDup_app. split_and!; [done| |apply NoDup_singleton].
  intros y Hy ->%list_elem_of_singleton. by apply prop_None in Hp.
Qed.

Lemma slen_put (x : obj) k s : slen (put x k s) = slen x + if decide (prop x k = None) then 1 else 0.
Proof.
  unfold slen. rewrite <-!(length_fmap fst), put_keys. destruct (decide _); [rewrite length_app; csimpl; lia|lia].
Qed.

Definition w_add_first em o k f w : world :=
  let w1 := set_objs (<[o := put (get_obj w o) k (SFn f)]>) w in
  let e := get_emitter w em in
  set_emitters (<[em := mkEmitter (_events e) (_eventsCount e + 1) (_maxListeners e) (kCapture e) (kRejection e)]>) w1.

Lemma add_first_change em o k f w : wf w -> events_of w em = Some o -> prop (get_obj w o) k = None ->
  slot_change em o k (Some (SFn f)) [f] w (w_add_first em o k f w).
Proof.
  intros Hw He Hp. destruct (cur_facts _ _ _ Hw He) as (? & ? & ?). unfold w_add_first.
  assert (Ho : forall o', get_obj (w_add_first em o k f w) o' = if decide (o = o') then put (get_obj w o) k (SFn f) else get_obj w o') by (intros; etransitivity; [apply get_upd_obj|done]).
  split; rewrite ?Ho; try done.
  - intros em'. rewrite get_upd_emitter. destruct (decide (em = em')) as [->|]; done.
  - intros em' Hne. rewrite get_upd_emitter. by destruct (decide (em = em')).
  - rewrite get_upd_emitter, !decide_True by done. rewrite slen_put, decide_True by done. simpl. lia.
  - rewrite decide_True by done. by apply NoDup_put.
  - intros k'. rewrite decide_True by done. apply prop_put.
  - intros o' Hne. rewrite Ho. by rewrite decide_False.
  - intros a g _ Hg. by left.
Qed.

Definition w_add_second (o : Z) (k : key) (l : list fn) w : world :=
  set_objs (<[o := put (get_obj w o) k (SArr (next w))]>) (set_arrays (<[next w := mkArray l false]>) (set_next (next w + 1) w)).

Lemma add_second_change em o k f g l w : wf w -> events_of w em = Some o -> prop (get_obj w o) k = Some (SFn g) -> 2 <= slen l ->
  slot_change em o k (Some (SArr (next w))) [f] w (w_add_second o k l w).
Proof.
  intros Hw He Hp Hl. destruct (cur_facts _ _ _ Hw He) as (? & ? & ?).
  assert (Ho : forall o', get_obj (w_add_second o k l w) o' = if decide (o = o') then put (get_obj w o) k (SArr (next w)) else get_obj w o') by (intros; etransitivity; [apply get_upd_obj|done]).
  assert (Ha : forall a, get_array (w_add_second o k l w) a = if decide (next w = a) then mkArray l false else get_array w a) by (intros; etransitivity; [apply get_upd_array|done]).
  split; rewrite ?Ho; try done.
  - rewrite decide_True by done. rewrite slen_put, decide_False by congruence. unfold w_add_second. simpl. change (get_emitter (set_objs _ _) em) with (get_emitter w em). lia.
  - rewrite decide_True by done. by apply NoDup_put.
  - intros k'. rewrite decide_True by done. apply prop_put.
  - intros o' Hne. rewrite Ho. by rewrite decide_False.
  - intros a Hlt _. rewrite Ha. by rewrite decide_False by lia.
  - intros a h Hlt. rewrite Ha, decide_False by lia. by left.
  - intros a [= <-]. rewrite Ha, decide_True by done. simpl. split_and!; [lia|done|right; lia].
  - simpl. lia.
Qed.

Definition w_array a (l : list fn) w : world := set_arrays (<[a := mkArray l (warned (get_array w a))]>) w.

Lemma array_change em o k a f l w : wf w -> events_of w em = Some o -> prop (get_obj w o) k = Some (SArr a) -> 2 <= slen l ->
  (forall g, g ∈ l -> g ∈ items (get_array w a) \/ g ∈ f) -> slot_change em o k (Some (SArr a)) f w (w_array a l w).
Proof.
  intros Hw He Hp Hl Hin. destruct (cur_facts _ _ _ Hw He) as (? & ? & ?). destruct (cur_array _ _ _ _ _ Hw He Hp).
  assert (Ha : forall a', get_array (w_array a l w) a' = if decide (a = a') then mkArray l (warned (get_array w a)) else get_array w a') by (intros; etransitivity; [apply get_upd_array|done]).
  split; try done.
  - intros k'. change (get_obj (w_array a l w) o) with (get_obj w o). destruct (decide (k = k')) as [<-|]; done.
  - intros a' Hlt Hne. rewrite Ha. rewrite decide_False; [done|congruence].
  - intros a' g Hlt. rewrite Ha. destruct (decide (a = a')) as [<-|]; [apply Hin|by left].
  - intros a' [= <-]. rewrite Ha, decide_True by done. simpl. split_and!; [lia|done|by left].
Qed.

Definition w_collapse o k a (g : fn) w : world := set_objs (<[o := put (get_obj w o) k (SFn g)]>) (w_array a [g] w).

Lemma collapse_change em o k a g w : wf w -> events_of w em = Some o -> prop (get_obj w o) k = Some (SArr a) -> g ∈ items (get_array w a) ->
  slot_change em o k (Some (SFn g)) [] w (w_collapse o k a g w).
Proof.
  intros Hw He Hp Hg. destruct (cur_facts _ _ _ Hw He) as (? & ? & ?). destruct (cur_array _ _ _ _ _ Hw He Hp).
  assert (Ho : forall o', get_obj (w_collapse o k a g w) o' = if decide (o = o') then put (get_obj w o) k (SFn g) else get_obj w o') by (intros; etransitivity; [apply get_upd_obj|done]).
  assert (Ha : forall a', get_array (w_collapse o k a g w) a' = if decide (a = a') then mkArray [g] (warned (get_array w a)) else get_array w a') by (intros; etransitivity; [apply get_upd_array|done]).
  split; rewrite ?Ho; try done.
  - rewrite decide_True by done. rewrite slen_put, decide_False by congruence. change (get_emitter (w_collapse o k a g w) em) with (get_emitter w em). lia.
  - rewrite decide_True by done. by apply NoDup_put.
  - intros k'. rewrite decide_True by done. apply prop_put.
  - intros o' Hne. rewrite Ho. by rewrite decide_False.
  - intros a' Hlt Hne. rewrite Ha. rewrite decide_False; [done|congruence].
  - intros a' h Hlt. rewrite Ha. destruct (decide (a = a')) as [<-|]; [|by left]. simpl. intros ->%list_elem_of_singleton. by left.
Qed.

Definition w_delete em o k w : world :=
  let e := get_emitter w em in
  set_objs (<[o := del (get_obj w o) k]>) (set_emitters (<[em := mkEmitter (_events e) (_eventsCount e - 1) (_maxListeners e) (kCapture e) (kRejection e)]>) w).

Lemma delete_change em o k s w : wf w -> events_of w em = Some o -> prop (get_obj w o) k = Some s ->
  slot_change em o k None [] w (w_delete em o k w).
Proof.
  intros Hw He Hp. destruct (cur_facts _ _ _ Hw He) as (? & Hnd & ?).
  assert (Ho : forall o', get_obj (w_delete em o k w) o' = if decide (o = o') then del (get_obj w o) k else get_obj w o') by (intros; etransitivity; [apply get_upd_obj|done]).
  assert (Hem : forall em', get_emitter (w_delete em o k w) em' = get_emitter (set_emitters (<[em := mkEmitter (_events (get_emitter w em)) (_eventsCount (get_emitter w em) - 1) (_maxListeners (get_emitter w em)) (kCapture (get_emitter w em)) (kRejection (get_emitter w em))]>) w) em') by done.
  split; rewrite ?Ho; try done.
  - intros em'. rewrite Hem, get_upd_emitter. destruct (decide (em = em')) as [->|]; done.
  - intros em' Hne. rewrite Hem, get_upd_emitter. by destruct (decide (em = em')).
  - rewrite Hem, get_upd_emitter, !decide_True by done. simpl. pose proof (length_del _ _ _ Hnd Hp). unfold slen in *. lia.
  - rewrite decide_True by done. eapply sublist_NoDup; [exact Hnd|apply del_sublist].
  - intros k'. rewrite decide_True by done. apply prop_del.
  - intros o' Hne. rewrite Ho. by rewrite decide_False.
  - intros a g _ Hg. by left.
Qed.
End Props.
