(* ===== verification/NodeEventsSteps.v ===== *)
(** * Event emitters: the operations

    [evolved] for every operation, given that it holds of [emit] and of calls; what
    the operations do to the lists of listeners. *)

From Stdlib Require Import ZArith Lia QArith.
From stdpp Require Import base list numbers strings gmap sorting.
From S2P Require Import Prelude JsNumber NodeEvents NodeEventsProps.

#[local] Open Scope Z_scope.
#[local] Open Scope run_scope.

Section Steps.
Context (hyg : Prop).

#[local] Abbreviation evolved := (evolved hyg).

(** [em] keeps its other lists and has [l] for [k]. *)
Definition list_is (em : Z) (k : key) (l : list fn) (w w' : world) : Prop :=
  forall em' k', lst w' em' k' = if decide (em' = em /\ k' = k) then l else lst w em' k'.

(** Whether a function may be added: a wrapper only by the call that made it. *)
Definition addable (lo em : Z) (k : key) (f : fn) (w : world) : Prop :=
  hyg -> once_ok w -> forall n, f = Wrapper n -> lo <= n /\ n < next w /\ (n ∉ once_log w /\ exists s, wraps w !! n = Some s /\ target s = em /\ wtype s = k) /\ free (Wrapper n) w.

Lemma addable_user lo em k f w : (hyg -> is_user f) -> addable lo em k f w.
Proof. intros Hu Hh _ n ->. by specialize (Hu Hh). Qed.

Lemma addable_later lo em k f w w' : addable lo em k f w -> evolved (next w) none w w' -> (hyg -> once_ok w) -> addable lo em k f w'.
Proof.
  intros Ha Hev Ho Hh _ n Hn. destruct (Ha Hh (Ho Hh) n Hn) as (Hlo & Hlt & (Hol & s & Hs & <- & <-) & Hf). split_and!.
  - done.
  - pose proof (ev_next _ _ _ _ _ Hev). lia.
  - by rewrite (proj2 (proj2 (proj2 (ev_free _ _ _ _ _ Hev Hh (Ho Hh) n Hlt ltac:(by intros []) Hf)))).
  - destruct (ev_wraps _ _ _ _ _ Hev Hh (Ho Hh) n s Hs) as (s' & Hs' & ? & ? & ?). eauto.
  - by apply (ev_free _ _ _ _ _ Hev Hh (Ho Hh) n Hlt ltac:(by intros [])).
Qed.

Lemma wp_check_leak em k a Q w :
  (forall w', heap_same w w' -> next w' = next w -> wraps w' = wraps w -> once_log w' = once_log w -> log w' = log w -> Q (inr tt) w') ->
  wp (check_leak em k a) Q w.
Proof.
  intros HQ. unfold check_leak. do 2 apply wp_read. destruct (_ && _).
  - apply wp_bind, wp_modify. apply wp_modify. apply HQ; try done. split; try done. intros a'.
    change (get_array (add_warning _ _) a') with (get_array (set_arrays (<[a := mkArray (items (get_array w a)) true]>) w) a').
    rewrite get_upd_array. by destruct (decide (a = a')) as [->|].
  - by apply HQ.
Qed.

Lemma wrappers_snoc l f : NoDup (wrappers l) -> is_user f \/ f ∉ l -> NoDup (wrappers (l ++ [f])).
Proof.
  intros Hl Hf. rewrite filter_app. apply NoDup_app. split_and!; [done| |].
  - intros x Hx Hy. apply list_elem_of_filter in Hx as [? Hx], Hy as [_ ->%list_elem_of_singleton]. tauto.
  - rewrite filter_cons. destruct (decide _); [apply NoDup_singleton|constructor].
Qed.

Lemma wrappers_cons l f : NoDup (wrappers l) -> is_user f \/ f ∉ l -> NoDup (wrappers (f :: l)).
Proof.
  intros Hl Hf. rewrite filter_cons. destruct (decide _); [|done]. constructor; [|done]. intros [_ ?]%list_elem_of_filter. tauto.
Qed.

Definition with_fn (prepend : bool) (f : fn) (l : list fn) : list fn := if prepend then f :: l else l ++ [f].

Lemma elem_with_fn b f l g : g ∈ with_fn b f l <-> g ∈ l \/ g = f.
Proof. unfold with_fn. destruct b; rewrite ?elem_of_cons, ?elem_of_app, ?list_elem_of_singleton; tauto. Qed.

Lemma slen_with_fn b f l : slen (with_fn b f l) = slen l + 1.
Proof. unfold with_fn. destruct b; rewrite ?slen_cons, ?slen_app; change (slen [f]) with 1; lia. Qed.

(** A change of a slot that adds [f]. *)
Lemma slot_add_evolves lo em o k s f b w w' : wf w -> slot_change em o k s [f] w w' -> addable lo em k f w ->
  slot_fns w' s = with_fn b f (lst w em k) -> evolved lo none w w' /\ list_is em k (with_fn b f (lst w em k)) w w'.
Proof.
  intros Hw Hc Ha Hs. split.
  - eapply slot_evolves; [done|exact Hc|..]; rewrite ?Hs.
    + intros g Hg. apply elem_with_fn in Hg as [|Hg]; [by left|]. right. by apply list_elem_of_singleton.
    + intros Hh Ho. assert (Hf : is_user f \/ f ∉ lst w em k).
      { destruct f as [|n]; [by left|right]. by destruct (Ha Hh Ho n eq_refl) as (_ & _ & _ & Hf). }
      unfold with_fn. destruct b; [apply wrappers_cons|apply wrappers_snoc]; auto; apply (oo_nodup w Ho).
    + intros Hh Ho n Hn%list_elem_of_singleton. destruct (Ha Hh Ho n) as (? & _ & ? & _); [done|]. auto.
  - intros em' k'. rewrite (sc_lst _ _ _ _ _ _ _ Hw Hc). destruct (decide _); [done|done].
Qed.

Lemma heap_list_is em k l w w1 w2 : list_is em k l w w1 -> heap_same w1 w2 -> list_is em k l w w2.
Proof. intros H Hs em' k'. by rewrite (heap_lst _ _ _ _ Hs). Qed.

Lemma add_to_spec lo em o k f b w : wf w -> lo <= next w -> events_of w em = Some o -> addable lo em k f w ->
  wp (add_to em o k f b) (fun r w' => r = inr tt /\ evolved lo none w w' /\ list_is em k (with_fn b f (lst w em k)) w w') w.
Proof.
  intros Hw Hlo He Ha. unfold add_to. apply wp_read.
  assert (Hl : lst w em k = slot_fns w (prop (get_obj w o) k)) by (unfold lst, eventsOf; by rewrite He).
  assert (Hleak : forall a w1, evolved lo none w w1 /\ list_is em k (with_fn b f (lst w em k)) w w1 ->
    wp (check_leak em k a) (fun r w' => r = inr tt /\ evolved lo none w w' /\ list_is em k (with_fn b f (lst w em k)) w w') w1).
  { intros a w1 [Hev Hli]. apply wp_check_leak. intros w2 Hs Hn Hwr Hol Hlog. split_and!; [done| |by eapply heap_list_is].
    eapply evolved_trans; [exact Hev|]. apply evolved_ghost; [by eapply ev_wf|done|lia|done|done|]. exists []. by rewrite app_nil_r. }
  destruct (prop (get_obj w o) k) as [[g|a]|] eqn:Hp; simpl in Hl.
  - change (wp (check_leak em k (next w)) (fun r w' => r = inr tt /\ evolved lo none w w' /\ list_is em k (with_fn b f (lst w em k)) w w')
      (w_add_second o k (if b then [f; g] else [g; f]) w)).
    apply Hleak. eapply (slot_add_evolves lo em o k (Some (SArr (next w)))); [done| |done|].
    + eapply add_second_change; [done|done|exact Hp|]. by destruct b.
    + simpl. unfold w_add_second, get_array. simpl. rewrite lookup_insert_eq. simpl. rewrite Hl. by destruct b.
  - change (wp (check_leak em k a) (fun r w' => r = inr tt /\ evolved lo none w w' /\ list_is em k (with_fn b f (lst w em k)) w w')
      (w_array a (with_fn b f (items (get_array w a))) w)).
    apply Hleak. eapply (slot_add_evolves lo em o k (Some (SArr a))); [done| |done|].
    + eapply array_change; [done|done|exact Hp| |].
      * destruct (cur_array _ _ _ _ _ Hw He Hp). rewrite slen_with_fn. lia.
      * intros g Hg. apply elem_with_fn in Hg as [|Hg]; [by left|right]. by apply list_elem_of_singleton.
    + simpl. unfold w_array. rewrite get_upd_array, decide_True by done. simpl. by rewrite Hl.
  - change (inr (A := value) tt = inr tt /\ evolved lo none w (w_add_first em o k f w) /\ list_is em k (with_fn b f (lst w em k)) w (w_add_first em o k f w)).
    split; [done|]. eapply (slot_add_evolves lo em o k (Some (SFn f))); [done|by apply add_first_change|done|].
    simpl. rewrite Hl. by destruct b.
Qed.

(** ** Operations *)

(** A run that evolves the world, with new numbers from [lo] on. *)
Definition ok (lo : Z) {A} (m : M A) (w : world) : Prop := wp m (fun _ w' => evolved lo none w w') w.

Lemma ok_weaken lo lo' {A} (m : M A) w : lo' <= lo -> ok lo m w -> ok lo' m w.
Proof. intros Hlo H. eapply wp_mono; [exact H|]. simpl. intros _ w' Hev. by eapply evolved_weaken. Qed.

Lemma ok_ret lo {A} (a : A) w : wf w -> ok lo (ret a) w.
Proof. intros. by apply evolved_refl. Qed.

Lemma ok_throw lo {A} e w : wf w -> ok lo (throw (A := A) e) w.
Proof. intros. by apply evolved_refl. Qed.

Lemma ok_bind lo {A B} (m : M A) (k : A -> M B) w : ok lo m w -> (forall a w1, evolved lo none w w1 -> wf w1 -> ok lo (k a) w1) -> ok lo (mbind m k) w.
Proof.
  intros Hm Hk. apply wp_bind. eapply wp_mono; [exact Hm|]. simpl. intros [e|a] w1 Hev; [done|].
  eapply wp_mono; [apply (Hk a w1 Hev); by eapply ev_wf|]. simpl. intros _ w2 Hev2. by eapply evolved_trans.
Qed.

Lemma ok_read lo {A B} (f : world -> A) (k : A -> M B) w : ok lo (k (f w)) w -> ok lo (mbind (read f) k) w.
Proof. done. Qed.

Lemma ok_attempt lo {A} (m : M A) w : ok lo m w -> ok lo (attempt m) w.
Proof. intros H. apply wp_attempt. exact H. Qed.

Definition good (w : world) : Prop := wf w /\ (hyg -> once_ok w).

Lemma good_later lo X w w' : good w -> evolved lo X w w' -> good w'.
Proof. intros [_ Ho] Hev. split; [by eapply ev_wf|]. intros Hh. by apply (ev_once _ _ _ _ _ Hev Hh), Ho. Qed.

Section Operations.
Context (emit : Z -> key -> list value -> M bool) (call : fn -> Z -> list value -> M value).
Context (Hemit : forall em k args w, good w -> ok (next w) (emit em k args) w).

Lemma emit_ok lo em k args w : good w -> lo <= next w -> ok lo (emit em k args) w.
Proof. intros. eapply ok_weaken; [done|by apply Hemit]. Qed.

Lemma then_ret lo {A} (m : M A) w : wf w -> ok lo m w -> ok lo (mbind m (fun _ => ret tt)) w.
Proof. intros Hw Hm. apply ok_bind; [done|]. intros. by apply ok_ret. Qed.

Lemma addListener_ok lo em k f b w : good w -> lo <= next w -> (forall g, f = Some g -> addable lo em k g w) ->
  ok lo (_addListener emit em k f b) w.
Proof.
  intros [Hw Ho] Hlo Ha. unfold _addListener. destruct f as [f|]; [|by apply ok_throw].
  apply (ok_read lo (fun _ => f)). specialize (Ha f eq_refl).
  assert (Hadd : forall w1 o, evolved (next w) none w w1 -> events_of w1 em = Some o -> ok lo (add_to em o k f b) w1).
  { intros w1 o Hev He. eapply wp_mono.
    - apply (add_to_spec lo); [by eapply ev_wf|pose proof (ev_next _ _ _ _ _ Hev); lia|exact He|by eapply addable_later].
    - by intros r w' (_ & Hev' & _). }
  apply ok_read. destruct (events_of w em) as [o|] eqn:He.
  - apply ok_read.
    assert (Hcont : forall w1, evolved (next w) none w w1 -> wf w1 -> ok lo (do events := read (fun w => events_of w em) in
      match events with Some o => add_to em o k f b | None => throw (NodeError "TypeError") end) w1).
    { intros w1 Hev Hw1. apply ok_read. destruct (events_of w1 em) as [o1|] eqn:He1; [by apply Hadd|by apply ok_throw]. }
    destruct (prop (get_obj w o) newListener_).
    + apply wp_bind. apply wp_read. apply wp_bind. eapply wp_mono; [by apply Hemit|]. simpl. intros [e|a] w1 Hev; [by eapply evolved_weaken|].
      apply wp_ret. eapply wp_mono; [apply (Hcont w1 Hev); by eapply ev_wf|]. simpl. intros _ w2 Hev2.
      eapply evolved_trans; [by eapply evolved_weaken|exact Hev2].
    + apply wp_bind, wp_ret. apply Hcont; [by apply evolved_refl|done].
  - apply wp_bind, wp_reset. apply wp_read. pose proof (reset_evolves hyg (next w) none em w Hw) as Hr.
    eapply wp_mono; [apply (Hadd (after_reset em w)); [done|]|].
    + unfold after_reset. by rewrite get_upd_emitter, decide_True.
    + simpl. intros _ w2 Hev2. eapply evolved_trans; [eapply evolved_weaken; [exact Hlo| |exact Hr]; done|exact Hev2].
Qed.

(** A new wrapper. *)
Lemma wrap_evolves lo X em k f w : wf w -> (hyg -> is_user f) -> lo <= next w ->
  evolved lo X w (set_wraps (<[next w := mkWrap false em k f]>) (set_next (next w + 1) w)).
Proof.
  intros Hw Hu Hlo. set (w' := set_wraps _ _).
  assert (Hfresh : hyg -> once_ok w -> wraps w !! next w = None).
  { intros _ Ho. destruct (wraps w !! next w) as [s|] eqn:E; [|done]. apply (oo_wraps w Ho) in E. lia. }
  assert (Hg : forall n, n <> next w -> get_wrap w' n = get_wrap w n) by (intros n Hn; unfold get_wrap, w'; simpl; by rewrite lookup_insert_ne).
  split.
  - simpl. lia.
  - apply (heap_wf w); [done|simpl; lia|done].
  - exists []. by rewrite app_nil_r.
  - intros Hh Ho n s Hs. exists s. unfold w'. simpl. rewrite lookup_insert_ne; [done|]. intros <-. by rewrite Hfresh in Hs.
  - intros Hh Ho. pose proof (Hfresh Hh Ho) as Hf. destruct Ho as [O1 O2 O3 O6 O4 O5 O7]. split.
    + intros n s. unfold w'. simpl. rewrite lookup_insert_Some. intros [[<- <-]|[_ Hs]]; [split; [lia|auto]|]. destruct (O1 n s Hs). split; [lia|done].
    + intros em' k' n Hn. change (lst w' em' k') with (lst w em' k') in Hn. destruct (O2 em' k' n Hn) as (s & Hs & ? & ?). exists s.
      unfold w'. simpl. rewrite lookup_insert_ne; [done|]. intros <-. congruence.
    + exact O3.
    + intros n o. unfold w'. simpl. intros [Hx _]%lookup_insert_None. by apply O6.
    + exact O4.
    + intros n Hn. assert (n <> next w) by (intros ->; apply O5 in Hn; unfold get_wrap in Hn; by rewrite Hf in Hn). rewrite Hg by done. by apply O5.
    + exact O7.
  - intros Hh Ho n Hn _ Hf. rewrite Hg by lia. split_and!; done.
Qed.

Lemma once_gen_ok lo em k f b w : good w -> lo <= next w -> (hyg -> forall g, f = Some g -> is_user g) ->
  ok lo (do f := checkListener f in do wrapped := _onceWrap em k f in _addListener emit em k (Some wrapped) b) w.
Proof.
  intros Hg Hlo Hu. pose proof Hg as [Hw Ho]. destruct f as [f|]; [|by apply ok_throw]. apply (ok_read lo (fun _ => f)).
  set (w1 := set_wraps (<[next w := mkWrap false em k f]>) (set_next (next w + 1) w)).
  assert (Hev : evolved lo none w w1) by (apply wrap_evolves; eauto).
  assert (Hgoal : ok lo (_addListener emit em k (Some (Wrapper (next w))) b) w1).
  { apply addListener_ok; [by eapply good_later|simpl; lia|].
    intros g [= <-] Hh Ho1 n [= <-]. split_and!; [done|simpl; lia| | |].
    - intros Hx. apply (oo_fired w (Ho Hh)) in Hx. unfold get_wrap in Hx. destruct (wraps w !! next w) as [s|] eqn:E; [|done].
      apply (oo_wraps w (Ho Hh)) in E as [? _]. lia.
    - eexists. unfold w1. simpl. by rewrite lookup_insert_eq.
    - intros em' k' Hin. change (lst w1 em' k') with (lst w em' k') in Hin. apply (oo_home w (Ho Hh)) in Hin as (s & Hs & _).
      apply (oo_wraps w (Ho Hh)) in Hs as [? _]. lia. }
  change (wp (_addListener emit em k (Some (Wrapper (next w))) b) (fun _ w' => evolved lo none w w') w1).
  eapply wp_mono; [exact Hgoal|]. simpl. intros _ w2 Hev2. by eapply evolved_trans.
Qed.

(** ** Removing *)

Lemma tell_ok lo em o k f w : good w -> lo <= next w -> ok lo (tell_removed emit em o k f) w.
Proof.
  intros Hg Hlo. pose proof Hg as [Hw _]. unfold tell_removed. apply ok_read. destruct (prop _ _); [|by apply ok_ret]. apply then_ret; [done|by apply emit_ok].
Qed.

Definition remove_last (p : fn -> bool) (l : list fn) : list fn := match last_match p l with Some i => delete i l | None => l end.

Lemma elem_delete {A} i (l : list A) x : x ∈ delete i l -> x ∈ l.
Proof. intros Hx. eapply elem_of_submseteq; [exact Hx|]. apply sublist_submseteq, sublist_delete. Qed.

Lemma wrappers_delete i l : NoDup (wrappers l) -> NoDup (wrappers (delete i l)).
Proof.
  revert i. induction l as [|f l IH]; intros [|i] Hl; csimpl; try done.
  - rewrite filter_cons in Hl. destruct (decide _); [by inversion Hl|done].
  - change (delete (S i) (f :: l)) with (f :: delete i l). rewrite filter_cons in *. destruct (decide _); [|by apply IH].
    inversion_clear Hl as [|?? Hn Hd]. constructor; [|by apply IH]. intros [Hp Hx]%list_elem_of_filter. apply Hn, list_elem_of_filter.
    split; [done|by eapply elem_delete].
Qed.

Lemma last_match_lt p l i : last_match p l = Some i -> (i < length l)%nat.
Proof.
  revert i. induction l as [|f l IH]; intros i; simpl; [done|]. destruct (last_match p l) as [j|].
  - intros [= <-]. specialize (IH j eq_refl). lia.
  - destruct (p f); [intros [= <-]; lia|done].
Qed.

(** A change of a slot that loses functions. *)
Lemma lose_evolves lo em o k s l w w' : wf w -> slot_change em o k s [] w w' -> slot_fns w' s = l ->
  (forall f, f ∈ l -> f ∈ lst w em k) -> (NoDup (wrappers (lst w em k)) -> NoDup (wrappers l)) -> evolved lo none w w' /\ list_is em k l w w'.
Proof.
  intros Hw Hc <- Hin Hnd. split.
  - eapply slot_evolves; [done|exact Hc| | |].
    + intros f Hf. left. auto.
    + intros _ Ho. apply Hnd, (oo_nodup w Ho).
    + intros _ _ n Hn. by apply elem_of_nil in Hn.
  - intros em' k'. rewrite (sc_lst _ _ _ _ _ _ _ Hw Hc). done.
Qed.

(** The state after the change of a removal, before anybody is told. *)
Definition removed (em : Z) (k : key) (f : fn) (w w1 : world) : Prop :=
  (forall lo, evolved lo none w w1) /\ list_is em k (remove_last (matches w f) (lst w em k)) w w1 /\ wraps w1 = wraps w /\ once_log w1 = once_log w.

Lemma list_is_same em k l w : l = lst w em k -> list_is em k l w w.
Proof. intros -> em' k'. destruct (decide _) as [[-> ->]|]; done. Qed.

Lemma removed_none em k f w : wf w -> remove_last (matches w f) (lst w em k) = lst w em k -> removed em k f w w.
Proof. intros Hw He. split_and!; [intros; by apply evolved_refl|by apply list_is_same|done|done]. Qed.

Lemma single_key (x : obj) k s k' : slen x = 1 -> prop x k = Some s -> k' <> k -> prop x k' = None.
Proof.
  unfold slen. destruct x as [|[k1 s1] [|]]; simpl; try lia. intros _. destruct (decide (k1 = k)) as [->|]; [|done].
  intros _ Hne. by destruct (decide (k = k')).
Qed.

Lemma reset_list_is em o k s w : wf w -> events_of w em = Some o -> _eventsCount (get_emitter w em) = 1 -> prop (get_obj w o) k = Some s ->
  list_is em k [] w (after_reset em w).
Proof.
  intros Hw He Hc Hp em' k'. unfold lst. rewrite reset_eventsOf by done. destruct (decide (em' = em /\ k' = k)) as [[-> ->]|Hne].
  - by rewrite decide_True.
  - destruct (decide (em = em')) as [->|]; [|done]. unfold eventsOf. rewrite He.
    rewrite (single_key (get_obj w o) k s k'); [done| |done|tauto]. destruct (cur_facts _ _ _ Hw He) as (_ & _ & <-). done.
Qed.

(** The last part of a removal. *)
Definition told (em : Z) (k : key) (f : fn) (w : world) (r : value + unit) (w' : world) : Prop :=
  exists w1, removed em k f w w1 /\ evolved (next w1) none w1 w' /\ (lst w em removeListener_ = [] -> r = inr tt /\ w' = w1).

Lemma told_none em k f w : wf w -> remove_last (matches w f) (lst w em k) = lst w em k -> told em k f w (inr tt) w.
Proof. intros Hw He. exists w. split_and!; [by apply removed_none|by apply evolved_refl|done]. Qed.

Lemma tell_told em o k f f' w w1 : good w1 -> removed em k f w w1 -> events_of w1 em = Some o ->
  wp (tell_removed emit em o k f') (told em k f w) w1.
Proof.
  intros Hg1 Hr He. pose proof Hg1 as [Hw1 _]. unfold tell_removed. apply wp_read. destruct (prop (get_obj w1 o) removeListener_) as [s|] eqn:Hp.
  - apply wp_bind. eapply wp_mono; [by apply Hemit|]. simpl. intros r w2 Hev.
    assert (Hno : lst w em removeListener_ = [] -> False).
    { intros Hnil. destruct Hr as (Hev1 & Hli & _). specialize (Hli em removeListener_).
      assert (Hl : lst w1 em removeListener_ <> []).
      { unfold lst, eventsOf. rewrite He, Hp. destruct s as [g|a]; [done|]. simpl.
        destruct (cur_array _ _ _ _ _ Hw1 He Hp) as [_ Hs]. destruct (items _); [done|done]. }
      rewrite Hli in Hl. destruct (decide _) as [[_ <-]|]; [|done]. rewrite Hnil in Hl. done. }
    destruct r; [|apply wp_ret]; exists w1; (split_and!; [done|done|intros H; by destruct (Hno H)]).
  - apply wp_ret. exists w1. split_and!; [done|by apply evolved_refl|done].
Qed.

Lemma cur_lst w em o k : events_of w em = Some o -> lst w em k = slot_fns w (prop (get_obj w o) k).
Proof. intros He. unfold lst, eventsOf. by rewrite He. Qed.

Lemma single_told em o k f g w : good w -> events_of w em = Some o -> prop (get_obj w o) k = Some (SFn g) -> matches w f g = true ->
  wp (remove_single emit em o k f g) (told em k f w) w.
Proof.
  intros Hg He Hp Hm. pose proof Hg as [Hw _]. unfold remove_single. apply wp_read.
  assert (Hl : lst w em k = [g]) by (by rewrite (cur_lst _ _ _ _ He), Hp).
  assert (Hrem : remove_last (matches w f) (lst w em k) = []) by (rewrite Hl; unfold remove_last; simpl; by rewrite Hm).
  destruct (Z.eqb_spec (_eventsCount (get_emitter w em) - 1) 0) as [E|E].
  - rewrite E. apply wp_reset. exists (after_reset em w). split_and!; [|apply evolved_refl; by eapply ev_wf, (reset_evolves hyg 0 none)|done].
    split_and!; [intros; by apply reset_evolves| |done|done]. rewrite Hrem. eapply reset_list_is; eauto. lia.
  - apply wp_bind, wp_modify. apply wp_bind, wp_modify. apply wp_read.
    pose proof (delete_change _ _ _ _ _ Hw He Hp) as Hc.
    change (wp (tell_removed emit em o k (default f (listener_of w g))) (told em k f w) (w_delete em o k w)).
    assert (Hboth : forall lo, evolved lo none w (w_delete em o k w) /\ list_is em k [] w (w_delete em o k w)).
    { intros lo. apply (lose_evolves lo em o k None []); [done|exact Hc|done|by intros ? ?%elem_of_nil|constructor]. }
    assert (Hev : forall lo, evolved lo none w (w_delete em o k w)) by apply Hboth. pose proof (proj2 (Hboth 0)) as Hli.
    apply tell_told; [by eapply good_later, (Hev 0)| |rewrite (sc_events _ _ _ _ _ _ _ Hc); done].
    split_and!; [done|by rewrite Hrem|done|done].
Qed.

Lemma array_told em o k f a i w : good w -> events_of w em = Some o -> prop (get_obj w o) k = Some (SArr a) ->
  last_match (matches w f) (items (get_array w a)) = Some i ->
  wp (do _ := upd_array a (fun x => mkArray (delete i (items x)) (warned x)) in
      do l := read (fun w => items (get_array w a)) in
      do _ := match l with [g] => upd_obj o (fun x => put x k (SFn g)) | _ => ret tt end in
      tell_removed emit em o k f) (told em k f w) w.
Proof.
  intros Hgood He Hp Hi. pose proof Hgood as [Hw _]. set (l := delete i (items (get_array w a))). destruct (cur_array _ _ _ _ _ Hw He Hp) as [Ha H2].
  assert (Hl : lst w em k = items (get_array w a)) by (by rewrite (cur_lst _ _ _ _ He), Hp).
  assert (Hrem : remove_last (matches w f) (lst w em k) = l) by (rewrite Hl; unfold remove_last; by rewrite Hi).
  assert (Hlen : slen l = slen (items (get_array w a)) - 1) by (unfold l, slen in *; rewrite length_delete by (apply lookup_lt_is_Some_2; by eapply last_match_lt); lia).
  assert (Hin : forall g, g ∈ l -> g ∈ lst w em k) by (intros g Hg; rewrite Hl; by eapply elem_delete).
  assert (Hnd : NoDup (wrappers (lst w em k)) -> NoDup (wrappers l)) by (rewrite Hl; apply wrappers_delete).
  assert (Hfin : forall s w1, slot_change em o k s [] w w1 -> slot_fns w1 s = l -> wraps w1 = wraps w -> once_log w1 = once_log w ->
    wp (tell_removed emit em o k f) (told em k f w) w1).
  { intros s w1 Hc Hs Hwr Hol. apply tell_told.
    - eapply (good_later 0); [exact Hgood|]. by eapply (lose_evolves 0); [done|exact Hc|exact Hs| |].
    - split_and!; [intros lo; by eapply (lose_evolves lo); [done|exact Hc|exact Hs| |]|rewrite Hrem; by eapply (lose_evolves 0); [done|exact Hc|exact Hs| |]|done|done].
    - by rewrite (sc_events _ _ _ _ _ _ _ Hc). }
  apply wp_bind, wp_modify. apply wp_read.
  change (set_arrays _ w) with (w_array a l w).
  assert (items (get_array (w_array a l w) a) = l) as -> by (unfold w_array; by rewrite get_upd_array, decide_True).
  assert (Harr : 2 <= slen l -> wp (tell_removed emit em o k f) (told em k f w) (w_array a l w)).
  { intros Hl2. apply (Hfin (Some (SArr a))); [|by simpl; unfold w_array; rewrite get_upd_array, decide_True|done|done].
    apply array_change; [done|done|done|done|]. intros g Hg. left. rewrite <-Hl. auto. }
  destruct l as [|g [|g' l']] eqn:El.
  - change (slen []) with 0 in Hlen. lia.
  - apply wp_bind, wp_modify. change (set_objs _ _) with (w_collapse o k a g w).
    apply (Hfin (Some (SFn g))); [|done|done|done]. eapply collapse_change; [done|done|done|]. rewrite <-Hl. apply Hin. left.
  - apply wp_bind, wp_ret. apply Harr. rewrite !slen_cons. slen_pos. lia.
Qed.

Lemma removeListener_told em k f w : good w -> wp (removeListener emit em k (Some f)) (told em k f w) w.
Proof.
  intros Hg. pose proof Hg as [Hw _]. unfold removeListener. simpl. apply (wp_read (fun _ => f)). apply wp_read.
  destruct (events_of w em) as [o|] eqn:He.
  2:{ apply wp_ret, told_none; [done|]. unfold lst, eventsOf. by rewrite He. }
  apply wp_read. destruct (prop (get_obj w o) k) as [[g|a]|] eqn:Hp.
  - apply wp_read. destruct (matches w f g) eqn:Hm; [by apply single_told|]. apply wp_ret, told_none; [done|].
    rewrite (cur_lst _ _ _ _ He), Hp. unfold remove_last. simpl. by rewrite Hm.
  - apply wp_read. destruct (last_match (matches w f) (items (get_array w a))) as [i|] eqn:Hi; [by apply array_told|].
    apply wp_ret, told_none; [done|]. rewrite (cur_lst _ _ _ _ He), Hp. unfold remove_last. simpl. by rewrite Hi.
  - apply wp_ret, told_none; [done|]. by rewrite (cur_lst _ _ _ _ He), Hp.
Qed.

Lemma removeListener_ok lo em k f w : good w -> lo <= next w -> ok lo (removeListener emit em k f) w.
Proof.
  intros Hg Hlo. destruct f as [f|]; [|by apply ok_throw; destruct Hg]. eapply wp_mono; [by apply removeListener_told|].
  simpl. intros r w' (w1 & (Hev & _) & Hev' & _). eapply evolved_trans; [apply Hev|]. eapply evolved_weaken; [|done|exact Hev'].
  pose proof (ev_next _ _ _ _ _ (Hev 0)). lia.
Qed.

Lemma ok_then lo {A B} (m : M A) (k : A -> M B) w : good w -> lo <= next w -> ok lo m w ->
  (forall a w1, good w1 -> lo <= next w1 -> ok lo (k a) w1) -> ok lo (mbind m k) w.
Proof.
  intros Hg Hlo Hm Hk. apply ok_bind; [done|]. intros a w1 Hev _. apply Hk; [by eapply good_later|]. pose proof (ev_next _ _ _ _ _ Hev). lia.
Qed.

Lemma reset_ok lo em w : good w -> ok lo (reset_events em 0) w.
Proof. intros [Hw _]. apply wp_reset. by apply reset_evolves. Qed.

Lemma remove_loop_ok lo em k a i : forall w, good w -> lo <= next w -> ok lo (remove_loop emit em k a i) w.
Proof.
  induction i as [|i IH]; intros w Hg Hlo; simpl; [apply ok_ret, Hg|]. apply ok_read.
  apply ok_then; [done|done|by apply removeListener_ok|]. intros. by apply IH.
Qed.

Lemma delete_ok lo em o k s w : good w -> events_of w em = Some o -> prop (get_obj w o) k = Some s -> evolved lo none w (w_delete em o k w).
Proof.
  intros [Hw _] He Hp. pose proof (delete_change _ _ _ _ _ Hw He Hp) as Hc.
  apply (lose_evolves lo em o k None []); [done|exact Hc|done|by intros ? ?%elem_of_nil|constructor].
Qed.

Lemma removeAllOf_ok lo em k w : good w -> lo <= next w -> ok lo (removeAllOf emit em k) w.
Proof.
  intros Hg Hlo. unfold removeAllOf. apply ok_read. destruct (events_of w em) as [o|] eqn:He; [|apply ok_ret, Hg].
  apply ok_read. destruct (prop (get_obj w o) removeListener_).
  - destruct (prop (get_obj w o) k) as [[f|a]|]; [by apply removeListener_ok|by apply remove_loop_ok|apply ok_ret, Hg].
  - destruct (prop (get_obj w o) k) as [s|] eqn:Hp; [|apply ok_ret, Hg]. apply ok_read.
    destruct (Z.eqb_spec (_eventsCount (get_emitter w em) - 1) 0) as [->|]; [by apply reset_ok|].
    apply (delete_ok lo em o k s w Hg He Hp).
Qed.

Lemma remove_keys_ok lo em ks : forall w, good w -> lo <= next w -> ok lo (remove_keys emit em ks) w.
Proof.
  induction ks as [|k ks IH]; intros w Hg Hlo; simpl; [apply ok_ret, Hg|]. destruct (decide _); [by apply IH|].
  apply ok_then; [done|done|by apply removeAllOf_ok|]. intros. by apply IH.
Qed.

Lemma removeAllListeners_ok lo em k w : good w -> lo <= next w -> ok lo (removeAllListeners emit em k) w.
Proof.
  intros Hg Hlo. unfold removeAllListeners. destruct k as [k|]; [by apply removeAllOf_ok|].
  apply ok_read. destruct (events_of w em) as [o|]; [|apply ok_ret, Hg]. apply ok_read.
  destruct (prop (get_obj w o) removeListener_); [|by apply reset_ok].
  apply ok_then; [done|done|by apply remove_keys_ok|]. intros _ w1 Hg1 Hlo1.
  apply ok_then; [done|done|by apply removeAllOf_ok|]. intros _ w2 Hg2 Hlo2. by apply reset_ok.
Qed.

Lemma setMax_ok lo em n w : good w -> ok lo (setMaxListeners em n) w.
Proof.
  intros [Hw _]. unfold setMaxListeners. destruct (checkMax n); [by apply ok_throw|]. apply wp_modify. by apply emitter_evolves.
Qed.

Lemma perform_ok lo a w : good w -> lo <= next w -> (hyg -> plain a) -> ok lo (perform emit a) w.
Proof.
  intros Hg Hlo Hp.
  assert (Hret : forall A (m : M A) (v : A -> value), ok lo m w -> ok lo (do x := m in ret (v x)) w).
  { intros A m v Hm. apply ok_then; [done|done|done|]. intros x w1 [Hw1 _] _. by apply ok_ret. }
  assert (Huser : forall em k f, (hyg -> match f with Some f => is_user f | None => True end) -> forall g, f = Some g -> addable lo em k g w).
  { intros em k f Hu g ->. by apply addable_user. }
  destruct a as [em k f|em k f|em k f|em k f|em k f|em k|em k args|em n]; simpl; apply (Hret _ _ _).
  - apply addListener_ok; [done|done|]. apply Huser. intros Hh. specialize (Hp Hh). by destruct f.
  - apply addListener_ok; [done|done|]. apply Huser. intros Hh. specialize (Hp Hh). by destruct f.
  - apply once_gen_ok; [done|done|]. intros Hh g ->. by apply Hp.
  - apply once_gen_ok; [done|done|]. intros Hh g ->. by apply Hp.
  - by apply removeListener_ok.
  - by apply removeAllListeners_ok.
  - by apply emit_ok.
  - by apply setMax_ok.
Qed.

Lemma run_ok lo p : forall w, good w -> lo <= next w -> (hyg -> hygienic p) -> ok lo (run emit p) w.
Proof.
  induction p as [v|e|a k IH]; intros w Hg Hlo Hp; simpl; [apply ok_ret, Hg|apply ok_throw, Hg|].
  apply ok_then; [done|done|apply ok_attempt, perform_ok; [done|done|intros Hh; by apply Hp]|].
  intros r w1 Hg1 Hlo1. apply IH; [done|done|]. intros Hh. by apply Hp.
Qed.

(** ** Wrappers *)

(** Calling a function: only its own wrapper may fire. *)
Definition call_spec (c : fn -> Z -> list value -> M value) : Prop :=
  forall f em args w, good w -> (hyg -> forall n, f = Wrapper n -> is_Some (wraps w !! n)) ->
    wp (c f em args) (fun _ w' => evolved (next w) (fun n => f = Wrapper n) w w') w.

Context (Hcall : call_spec call).

Lemma fire_evolves lo n w : good w -> (hyg -> n ∉ once_log w /\ is_Some (wraps w !! n) /\ free (Wrapper n) w) ->
  evolved lo (eq n) w (add_once n (set_wraps (<[n := mkWrap true (target (get_wrap w n)) (wtype (get_wrap w n)) (listener (get_wrap w n))]>) w)).
Proof.
  intros [Hw _] Hn. set (w' := add_once _ _).
  assert (Hg : forall m, m <> n -> wraps w' !! m = wraps w !! m) by (intros m Hm; unfold w'; simpl; by rewrite lookup_insert_ne).
  assert (Hgn : wraps w' !! n = Some (mkWrap true (target (get_wrap w n)) (wtype (get_wrap w n)) (listener (get_wrap w n)))) by apply lookup_insert_eq.
  assert (Hs : heap_same w w') by done. split.
  - done.
  - by apply (heap_wf w).
  - exists []. by rewrite app_nil_r.
  - intros _ _ m s Hm. destruct (decide (m = n)) as [->|]; [|rewrite Hg by done; eauto].
    rewrite Hgn. unfold get_wrap. rewrite Hm. eauto.
  - intros Hh [O1 O2 O3 O6 O4 O5 O7]. destruct (Hn Hh) as (Hnl & [s Hsome] & Hfree).
    assert (Hget : get_wrap w n = s) by (unfold get_wrap; by rewrite Hsome). rewrite Hget in Hgn. split.
    + intros m s' Hm. destruct (decide (m = n)) as [->|]; [|rewrite Hg in Hm by done; by apply O1].
      rewrite Hgn in Hm. injection Hm as <-. exact (O1 n s Hsome).
    + intros em k m Hm. change (lst w' em k) with (lst w em k) in Hm. destruct (O2 em k m Hm) as (s' & Hs' & Ht & Hk).
      destruct (decide (m = n)) as [->|]; [|rewrite Hg by done; eauto]. rewrite Hgn. assert (s' = s) as -> by congruence. eauto.
    + exact O3.
    + intros m o Hm. destruct (decide (m = n)) as [->|]; [congruence|]. rewrite Hg in Hm by done. exact (O6 m o Hm).
    + change (once_log w') with (once_log w ++ [n]). apply NoDup_app. split_and!; [done| |apply NoDup_singleton].
      intros m Hm ->%list_elem_of_singleton. done.
    + intros m. change (once_log w') with (once_log w ++ [n]). rewrite elem_of_app, list_elem_of_singleton. unfold get_wrap at 1.
      destruct (decide (m = n)) as [->|]; [by rewrite Hgn|]. rewrite Hg by done. intros [Hm|]; [by apply O5|done].
    + intros m. change (once_log w') with (once_log w ++ [n]). rewrite elem_of_app, list_elem_of_singleton. intros [Hm| ->]; [|exact Hfree]. exact (O7 m Hm).
  - intros Hh Ho m _ Hm Hf. assert (m <> n) by congruence. unfold get_wrap. rewrite Hg by done. split_and!; [done|done|done|].
    change (once_log w') with (once_log w ++ [n]). rewrite elem_of_app, list_elem_of_singleton. naive_solver.
Qed.

(** Removing a wrapper from its home leaves it nowhere. *)
Lemma last_match_elem p l f : f ∈ l -> p f = true -> exists i g, last_match p l = Some i /\ l !! i = Some g /\ p g = true.
Proof.
  induction l as [|g l IH]; [by intros ?%elem_of_nil|]. intros Hf Hp. simpl. destruct (last_match p l) as [i|] eqn:E.
  - clear IH Hf. exists (S i).
    assert (Hx : forall l i, last_match p l = Some i -> exists g, l !! i = Some g /\ p g = true).
    { clear. induction l as [|h l IH]; intros i; simpl; [done|]. destruct (last_match p l) as [j|] eqn:E.
      - intros [= <-]. by apply IH.
      - destruct (p h) eqn:Hh; [|done]. intros [= <-]. eauto. }
    destruct (Hx l i E) as (h & ? & ?). eauto.
  - apply elem_of_cons in Hf as [->|Hf]; [rewrite Hp; eauto|]. by destruct (IH Hf Hp) as (? & ? & ? & _).
Qed.

Lemma delete_nodup (l : list fn) i f : NoDup (wrappers l) -> ~ is_user f -> l !! i = Some f -> f ∉ delete i l.
Proof.
  revert i. induction l as [|g l IH]; intros [|i] Hnd Hu Hi; simpl in Hi; try done.
  - injection Hi as ->. rewrite filter_cons, decide_True in Hnd by done. inversion_clear Hnd as [|?? Hn _]. csimpl. intros Hf. apply Hn.
    by apply list_elem_of_filter.
  - change (delete (S i) (g :: l)) with (g :: delete i l). rewrite filter_cons in Hnd. rewrite not_elem_of_cons. split.
    + intros <-. rewrite decide_True in Hnd by done. inversion_clear Hnd as [|?? Hn _]. apply Hn, list_elem_of_filter. split; [done|].
      by eapply list_elem_of_lookup_2.
    + apply IH; [|done|done]. destruct (decide _); [by inversion Hnd|done].
Qed.

Lemma removed_free n s w w1 : hyg -> once_ok w -> wraps w !! n = Some s -> removed (target s) (wtype s) (Wrapper n) w w1 -> free (Wrapper n) w1.
Proof.
  intros Hh Ho Hs (_ & Hli & _) em k. rewrite Hli. destruct (decide _) as [[-> ->]|Hne].
  - unfold remove_last. set (l := lst w (target s) (wtype s)). destruct (decide (Wrapper n ∈ l)) as [Hin|Hni].
    + destruct (last_match_elem (matches w (Wrapper n)) l (Wrapper n) Hin) as (i & g & Hi & Hg & Hm).
      { unfold matches. by rewrite bool_decide_eq_true_2. }
      rewrite Hi. apply delete_nodup; [apply (oo_nodup w Ho)|by intros []|]. rewrite Hg. f_equal.
      unfold matches in Hm. apply orb_true_iff in Hm as [Hm|Hm]; apply bool_decide_eq_true in Hm; [done|].
      destruct g as [|m]; [done|]. simpl in Hm. apply fmap_Some in Hm as (s' & Hs' & Hl). apply (oo_wraps w Ho) in Hs' as [_ Hu]. by rewrite <-Hl in Hu.
    + destruct (last_match _ _); [|done]. intros Hx. apply Hni. by eapply elem_delete.
  - intros Hin. destruct (oo_home w Ho em k n Hin) as (s' & Hs' & <- & <-). assert (s' = s) as -> by congruence. tauto.
Qed.

Lemma none_any lo (X : Z -> Prop) w w' : evolved lo none w w' -> evolved lo X w w'.
Proof. intros H. eapply evolved_weaken; [reflexivity| |exact H]. by intros _ n []. Qed.

Lemma onceWrapper_ok n args w : good w -> (hyg -> is_Some (wraps w !! n)) ->
  wp (onceWrapper emit call n args) (fun _ w' => evolved (next w) (fun m => Wrapper n = Wrapper m) w w') w.
Proof.
  intros Hg Hkn. pose proof Hg as [Hw Ho]. unfold onceWrapper. apply wp_read. set (s := get_wrap w n).
  destruct (fired s) eqn:Hfired; [apply wp_ret; by apply evolved_refl|].
  apply wp_bind. eapply wp_mono; [by apply removeListener_told|]. simpl. intros r w2 (w1 & Hrem & Hev2 & _).
  pose proof Hrem as (Hev1 & _ & Hwr1 & Hol1). pose proof (ev_next _ _ _ _ _ (Hev1 0)) as Hn1.
  assert (Hev : evolved (next w) none w w2).
  { eapply evolved_trans; [apply Hev1|]. by eapply evolved_weaken; [exact Hn1| |exact Hev2]. }
  destruct r as [e|[]]; [by apply none_any|].
  assert (Hfire : hyg -> n ∉ once_log w2 /\ is_Some (wraps w2 !! n) /\ free (Wrapper n) w2).
  { intros Hh. destruct (Hkn Hh) as [s0 Hs]. assert (s = s0) as E by (unfold s, get_wrap; by rewrite Hs). specialize (Ho Hh).
    assert (Hfr : free (Wrapper n) w1) by (rewrite E in Hrem; by eapply removed_free).
    assert (Ho1 : once_ok w1) by by apply (ev_once _ _ _ _ _ (Hev1 0)).
    destruct (oo_wraps w Ho n s0 Hs) as [Hlt _].
    destruct (ev_free _ _ _ _ _ Hev2 Hh Ho1 n ltac:(lia) ltac:(by intros []) Hfr) as (Hfr2 & _ & _ & Hin). split_and!; [| |done].
    - rewrite Hin, Hol1. intros Hx. apply (oo_fired w Ho) in Hx. fold s in Hx. congruence.
    - destruct (ev_wraps _ _ _ _ _ Hev Hh Ho n s0 Hs) as (s' & -> & _). eauto. }
  assert (Hg2 : good w2) by by eapply good_later.
  apply wp_bind, wp_modify. apply wp_bind, wp_modify.
  set (w3 := add_once _ _). assert (Hev3 : evolved (next w) (eq n) w2 w3) by by apply fire_evolves.
  assert (Hn3 : next w <= next w3) by (pose proof (ev_next _ _ _ _ _ Hev); pose proof (ev_next _ _ _ _ _ Hev3); lia).
  assert (Hg3 : good w3) by by eapply good_later.
  assert (Hl : hyg -> is_user (listener s)).
  { intros Hh. destruct (Hkn Hh) as [s0 Hs]. unfold s, get_wrap. rewrite Hs. by apply (oo_wraps w (Ho Hh) n). }
  eapply wp_mono.
  - apply Hcall; [done|]. intros Hh m Hm. specialize (Hl Hh). by rewrite Hm in Hl.
  - simpl. intros _ w4 Hev4. eapply evolved_trans; [by apply none_any|]. eapply evolved_trans.
    + eapply evolved_weaken; [reflexivity| |exact Hev3]. by intros _ m ->.
    + eapply evolved_weaken; [exact Hn3| |exact Hev4]. intros Hh m Hm. specialize (Hl Hh). by rewrite Hm in Hl.
Qed.

Lemma call_body_ok body : (hyg -> hygienic_code body) -> call_spec (call_body body emit call).
Proof.
  intros Hb [u|n] em args w Hg Hkn; simpl.
  - change (wp (fun w => run emit (body u em args w) w) (fun _ w' => evolved (next w) (fun n => User u = Wrapper n) w w') w).
    eapply (wp_mono (run emit (body u em args w))); [|intros r w'; apply none_any].
    apply run_ok; [done|lia|]. intros Hh. by apply Hb.
  - apply onceWrapper_ok; [done|]. intros Hh. by apply (Hkn Hh n).
Qed.

(** ** Emitting *)

Lemma catch_ok lo em v k args w : good w -> lo <= next w -> ok lo (catch_result emit em v k args) w.
Proof.
  intros Hg Hlo. pose proof Hg as [Hw _].
  assert (Hadd : ok lo (addCatch emit em v k args) w).
  { unfold addCatch. apply ok_read. destruct (negb _); [by apply ok_ret|]. destruct v; try (by apply ok_ret).
    - apply wp_modify. apply evolved_ghost; [done|done|done|done|done|]. exists []. by rewrite app_nil_r.
    - apply then_ret; [done|by apply emit_ok]. }
  unfold catch_result. destruct v; try exact Hadd. by apply ok_ret.
Qed.

Definition known (l : list fn) (w : world) : Prop := hyg -> forall n, Wrapper n ∈ l -> is_Some (wraps w !! n).

Lemma known_later lo X l w w' : good w -> known l w -> evolved lo X w w' -> known l w'.
Proof. intros [_ Ho] Hk Hev Hh n Hn. destruct (Hk Hh n Hn) as [s Hs]. destruct (ev_wraps _ _ _ _ _ Hev Hh (Ho Hh) n s Hs) as (s' & -> & _). eauto. Qed.

Lemma log_evolves lo X id f args w : wf w -> lo <= id -> evolved lo X w (add_log (mkCall id f args) w).
Proof. intros Hw Hid. apply evolved_ghost; [done|done|done|done|done|]. exists [mkCall id f args]. split; [done|]. by repeat constructor. Qed.

Lemma emit_loop_ok lo id em k args l : forall w, good w -> lo <= id -> lo <= next w -> known l w ->
  wp (emit_loop emit call id em k args l) (fun _ w' => evolved lo (fun n => Wrapper n ∈ l) w w') w.
Proof.
  induction l as [|f l IH]; intros w Hg Hid Hlo Hkn; simpl; [apply wp_ret, evolved_refl, Hg|].
  set (X := fun n => Wrapper n ∈ f :: l).
  apply wp_bind, wp_modify. set (w1 := add_log _ w). assert (Hev1 : evolved lo X w w1) by (apply log_evolves; [apply Hg|done]).
  assert (Hg1 : good w1) by by eapply good_later.
  apply wp_bind. eapply wp_mono.
  { apply Hcall; [done|]. intros Hh n ->. apply (known_later _ _ _ _ _ Hg Hkn Hev1 Hh). left. }
  simpl. intros r w2 Hev2. assert (Hev2' : evolved lo X w1 w2).
  { eapply evolved_weaken; [exact Hlo| |exact Hev2]. intros _ n ->. left. }
  assert (Hg2 : good w2) by by eapply good_later. assert (Hn2 : lo <= next w2) by (pose proof (ev_next _ _ _ _ _ Hev2); simpl in *; lia).
  destruct r as [e|v]; [by eapply evolved_trans|].
  apply wp_bind. eapply wp_mono; [by apply (catch_ok lo)|]. simpl. intros r w3 Hev3.
  assert (H13 : evolved lo X w w3) by (eapply evolved_trans; [exact Hev1|]; eapply evolved_trans; [exact Hev2'|by apply none_any]).
  destruct r as [e|[]]; [done|]. assert (Hg3 : good w3) by by eapply good_later.
  eapply wp_mono.
  - apply IH; [done|done|pose proof (ev_next _ _ _ _ _ Hev3); lia|]. eapply known_later; [exact Hg| |exact H13]. intros Hh n Hn. apply Hkn; [done|by right].
  - simpl. intros _ w4 Hev4. eapply evolved_trans; [exact H13|]. eapply evolved_weaken; [reflexivity| |exact Hev4]. intros _ n Hn. by right.
Qed.

Lemma emit_body_ok em k args w : good w -> ok (next w) (emit_body emit call em k args) w.
Proof.
  intros Hg. pose proof Hg as [Hw Ho]. unfold emit_body. apply ok_read. destruct (events_of w em) as [o|] eqn:He.
  2:{ destruct (bool_decide _); [by apply ok_throw|by apply ok_ret]. }
  apply ok_read.
  assert (Hmain : forall w1, evolved (next w) none w w1 -> wp (do x := read (fun w => get_obj w o) in
      match prop x k with
      | None => if bool_decide (k = error) then unhandled args else ret false
      | Some handler => do l := read (fun w => slot_fns w (Some handler)) in do id := fresh in do _ := emit_loop emit call id em k args l in ret true
      end) (fun _ w' => evolved (next w) none w w') w1).
  { intros w1 Hev. assert (Hg1 : good w1) by by eapply good_later. pose proof (ev_next _ _ _ _ _ Hev) as Hn. apply wp_read.
    destruct (prop (get_obj w1 o) k) as [h|] eqn:Hp; [|by destruct (bool_decide _)].
    apply wp_read. set (l := slot_fns w1 (Some h)). apply wp_bind.
    change (wp (do _ := emit_loop emit call (next w1) em k args l in ret true) (fun _ w' => evolved (next w) none w w') (set_next (next w1 + 1) w1)).
    set (w2 := set_next _ w1). assert (Hev2 : evolved (next w) none w w2) by (eapply evolved_trans; [exact Hev|apply fresh_evolves, Hg1]).
    apply wp_bind. eapply wp_mono.
    - apply (emit_loop_ok (next w)); [exact (good_later _ _ _ _ Hg Hev2)|lia|simpl; lia|]. intros Hh n Hin. change (wraps w2) with (wraps w1).
      destruct (wraps w1 !! n) as [s|] eqn:E; [eauto|]. exfalso. destruct Hg1 as [_ Ho1]. apply (oo_known w1 (Ho1 Hh) n o E k). by rewrite Hp.
    - simpl. intros r w3 Hev3. assert (Hfin : evolved (next w) none w w3).
      { eapply evolved_discharge; [|eapply evolved_trans; [apply none_any; exact Hev2|exact Hev3]].
        intros Hh Ho' n Hlt Hf Hin. destruct (ev_free _ _ _ _ _ Hev Hh Ho' n Hlt ltac:(by intros []) Hf) as (_ & Hobj & _).
        apply (Hobj o (free_obj _ _ _ _ Hf He) k). by rewrite Hp. }
      destruct r; [done|by apply wp_ret]. }
  assert (Hw0 : evolved (next w) none w w) by by apply evolved_refl.
  apply wp_bind. destruct (prop (get_obj w o) kErrorMonitor); [|by apply wp_ret, Hmain].
  destruct (bool_decide (k = error)) eqn:Ek; [|by apply wp_ret, Hmain].
  apply wp_bind. eapply wp_mono; [by apply Hemit|]. simpl. intros r w1 Hev. destruct r; [done|]. apply wp_ret. by apply Hmain.
Qed.
End Operations.

(** [emit] and calls, on any stack. *)
Lemma fuel_ok body fuel : (hyg -> hygienic_code body) -> (forall em k args w, good w -> ok (next w) (emit_fuel body fuel em k args) w) /\ call_spec (call_fuel body fuel).
Proof.
  intros Hb. induction fuel as [|n [He Hc]].
  { split; [intros em k args w [Hw _]; by apply ok_throw|intros f em args w [Hw _] _; by apply evolved_refl]. }
  split.
  - intros em k args w Hg. simpl. by apply emit_body_ok.
  - intros f em args w Hg Hk. simpl. by apply call_body_ok.
Qed.
End Steps.
