(* ===== verification/NodeEventsTheorems.v ===== *)
(** * Event emitters: theorems

    Listeners are called in order, from the list as it was when [emit] looked at it;
    [once] listeners are called at most once; the slots of [_events] stand for lists of
    listeners, and the operations do to the lists what they should. *)

From Stdlib Require Import ZArith Lia QArith.
From stdpp Require Import base list numbers strings gmap sorting.
From S2P Require Import Prelude JsNumber NodeEvents NodeEventsProps NodeEventsSteps.

#[local] Open Scope Z_scope.
#[local] Open Scope run_scope.

(** ** The order of calls *)

(** The calls of one run of [emit] among new entries of the log. *)
Definition calls (id : Z) (l : list call_rec) : list call_rec := filter (fun c => c_emit c = id) l.

(** What [emit] throws when nobody handles an error. *)
Definition unhandled_error (args : list value) : value :=
  let er := default Undefined (head args) in if is_error er then er else UnhandledError er.

Section Order.
Context (body : Z -> Z -> list value -> world -> prog).

#[local] Abbreviation evolved := (evolved False).

Lemma wf_good w : wf w -> good False w.
Proof. intros Hw. split; [done|by intros []]. Qed.

Lemma calls_new id lo new : Forall (fun c => lo <= c_emit c) new -> id < lo -> calls id new = [].
Proof.
  intros Hn Hid. induction Hn as [|c new Hc _ IH]; [done|]. unfold calls in *. rewrite filter_cons, decide_False by lia. done.
Qed.

Lemma evolved_calls lo X w w' id : evolved lo X w w' -> id < lo -> calls id (log w') = calls id (log w).
Proof.
  intros Hev Hid. destruct (ev_log _ _ _ _ _ Hev) as (new & -> & Hn). unfold calls. rewrite filter_app. fold (calls id new).
  by rewrite (calls_new _ _ _ Hn Hid), app_nil_r.
Qed.

Lemma any_fuel_ok fuel : (forall em k args w, wf w -> ok False (next w) (emit_fuel body fuel em k args) w) /\ call_spec False (call_fuel body fuel).
Proof. destruct (fuel_ok False body fuel ltac:(by intros [])) as [He Hc]. split; [|done]. intros. by apply He, wf_good. Qed.

(** A listener was called in [v] and returned, and what it returned was taken care of. *)
Definition returned (fuel : nat) (em : Z) (k : key) (args : list value) (f : fn) (v v' : world) : Prop :=
  exists result v1, call_fuel body fuel f em args v = (inr result, v1) /\ catch_result (emit_fuel body fuel) em result k args v1 = (inr tt, v').

(** A listener was called in [v] and threw, or the [error] event threw that is emitted
    when [then] of its result cannot be read. *)
Definition threw (fuel : nat) (em : Z) (k : key) (args : list value) (f : fn) (e : value) (v v' : world) : Prop :=
  call_fuel body fuel f em args v = (inl e, v') \/
  exists result v1, call_fuel body fuel f em args v = (inr result, v1) /\ catch_result (emit_fuel body fuel) em result k args v1 = (inl e, v').

(** How the calls of one run of [emit] went. *)
Definition called (fuel : nat) (em : Z) (k : key) (args : list value) (l l1 : list fn) (r : value + bool) (w' : world) : Prop :=
  (r = inr true /\ l1 = l /\ Forall (fun f => exists v v', returned fuel em k args f v v') l) \/
  exists l0 f l2 e v, r = inl e /\ l = l0 ++ f :: l2 /\ l1 = l0 ++ [f] /\
    Forall (fun f => exists v v', returned fuel em k args f v v') l0 /\ threw fuel em k args f e v w'.

Section Loop.
Context (fuel : nat).
#[local] Abbreviation emit := (emit_fuel body fuel).
#[local] Abbreviation call := (call_fuel body fuel).

(** One listener of the loop. *)
Lemma one_call id em args f w : wf w -> id < next w ->
  let w1 := add_log (mkCall id f args) w in
  wf w1 /\ wp (call f em args) (fun r w2 => wf w2 /\ id < next w2 /\ calls id (log w2) = calls id (log w) ++ [mkCall id f args]) w1.
Proof.
  intros Hw Hid w1. destruct (any_fuel_ok fuel) as [_ Hc].
  assert (Hev1 : evolved id none w w1) by (apply log_evolves; [done|lia]).
  assert (Hw1 : wf w1) by by eapply ev_wf. split; [done|].
  assert (Hl1 : calls id (log w1) = calls id (log w) ++ [mkCall id f args]).
  { unfold calls, w1. simpl. rewrite filter_app. f_equal. rewrite filter_cons, decide_True by done. done. }
  eapply wp_mono; [apply Hc; [by apply wf_good|by intros []]|]. simpl. intros r w2 Hev2. split_and!; [by eapply ev_wf| |].
  - pose proof (ev_next _ _ _ _ _ Hev2). simpl in *. lia.
  - by rewrite (evolved_calls _ _ _ _ id Hev2).
Qed.

Lemma emit_loop_calls id em k args l : forall w, wf w -> id < next w ->
  wp (emit_loop emit call id em k args l) (fun r w' =>
    exists l1, calls id (log w') = calls id (log w) ++ ((fun f => mkCall id f args) <$> l1) /\
      called fuel em k args l l1 (match r with inl e => inl e | inr _ => inr true end) w') w.
Proof.
  destruct (any_fuel_ok fuel) as [He _].
  induction l as [|f l IH]; intros w Hw Hid; simpl.
  { apply wp_ret. exists []. csimpl. rewrite app_nil_r. split; [done|left]. split_and!; [done|done|constructor]. }
  apply wp_bind, wp_modify. destruct (one_call id em args f w Hw Hid) as [Hw1 Hcall]. set (w1 := add_log _ w) in *.
  apply wp_bind. destruct (call f em args w1) as [r w2] eqn:Ec. apply (wp_eq _ _ _ _ _ Ec).
  destruct (wp_inv _ _ _ _ _ Hcall Ec) as (Hw2 & Hn2 & Hl2). destruct r as [e|v].
  { exists [f]. split; [done|]. right. exists [], f, l, e, w1. split_and!; [done|done|done|constructor|by left]. }
  apply wp_bind. pose proof (catch_ok False emit (fun em k args w H => He em k args w (proj1 H)) (next w2) em v k args w2 (wf_good _ Hw2) ltac:(lia)) as Hok.
  destruct (catch_result emit em v k args w2) as [r w3] eqn:Ex. apply (wp_eq _ _ _ _ _ Ex). pose proof (wp_inv _ _ _ _ _ Hok Ex) as Hev3. simpl in Hev3.
  assert (Hl3 : calls id (log w3) = calls id (log w) ++ [mkCall id f args]) by (rewrite (evolved_calls _ _ _ _ id Hev3) by (simpl in *; lia); done).
  destruct r as [e|[]].
  { exists [f]. split; [done|]. right. exists [], f, l, e, w1. split_and!; [done|done|done|constructor|right; by exists v, w2]. }
  pose proof (ev_next _ _ _ _ _ Hev3).
  assert (Hret : exists v v', returned fuel em k args f v v') by (exists w1, w3; by exists v, w2).
  eapply wp_mono; [apply IH; [by eapply ev_wf|lia]|]. simpl. intros r w4 (l1 & Hc4 & Hcl). exists (f :: l1). split.
  { rewrite Hc4, Hl3. csimpl. by rewrite <-app_assoc. }
  destruct Hcl as [(Hr & -> & Hall)|(l0 & g & l2 & e & u & Hr & -> & -> & Hall & Ht)].
  - left. split_and!; [done|done|by constructor].
  - right. exists (f :: l0), g, l2, e, u. split_and!; [done|done|done|by constructor|done].
Qed.
End Loop.

Lemma listed w em o k : wf w -> events_of w em = Some o -> (prop (get_obj w o) k = None <-> lst w em k = []).
Proof.
  intros Hw He. rewrite (cur_lst _ _ _ _ He). destruct (prop (get_obj w o) k) as [[f|a]|] eqn:Hp; simpl; [done| |done].
  split; [done|]. destruct (cur_array _ _ _ _ _ Hw He Hp) as [_ H2]. intros E. rewrite E in H2. change (slen []) with 0 in H2. lia.
Qed.

(** C8. [emit] of an event, which for an [error] event nobody monitors: without listeners
    it returns false, or throws when the event is an error, and nothing changes.
    Otherwise it calls listeners that were listed when it started, in their order, each
    once, whatever they do to the emitter meanwhile: all of them and each returns, then
    the result is true; or those up to the first whose call throws (or for whose result
    [then] cannot be read and the [error] event for that throws), and its exception is
    the one of [emit].  For a call stack of any depth, the call of [emit] itself
    having room on it. *)
Theorem emit_calls_in_order fuel em k args w : wf w -> (k = error -> lst w em kErrorMonitor = []) ->
  let '(r, w') := emit_fuel body (S fuel) em k args w in
  (lst w em k = [] /\ w' = w /\ r = (if bool_decide (k = error) then inl (unhandled_error args) else inr false)) \/
  (lst w em k <> [] /\ exists l1 new, log w' = log w ++ new /\
     calls (next w) new = (fun f => mkCall (next w) f args) <$> l1 /\
     called fuel em k args (lst w em k) l1 r w').
Proof.
  intros Hw Hmon. destruct (emit_fuel body (S fuel) em k args w) as [r w'] eqn:Hrun.
  destruct (any_fuel_ok (S fuel)) as [Hok _]. specialize (Hok em k args w Hw). unfold ok, wp in Hok. rewrite Hrun in Hok.
  destruct (ev_log _ _ _ _ _ Hok) as (new & Hlog & _).
  assert (Hrest : forall Q, wp (emit_body (emit_fuel body fuel) (call_fuel body fuel) em k args) Q w -> Q r w').
  { intros Q HQ. unfold wp in HQ. simpl in Hrun. by rewrite Hrun in HQ. }
  apply (Hrest (fun r w' => log w' = log w ++ new -> _)); [|done]. clear Hrun Hok Hlog Hrest. unfold emit_body. apply wp_read.
  assert (Hun : unhandled args = throw (unhandled_error args)) by (unfold unhandled, unhandled_error; by destruct args).
  destruct (events_of w em) as [o|] eqn:He.
  2:{ assert (lst w em k = []) by (unfold lst, eventsOf; by rewrite He). rewrite Hun.
      destruct (bool_decide _); [apply wp_throw|apply wp_ret]; intros _; by left. }
  apply wp_read, wp_bind.
  assert (Hskip : match prop (get_obj w o) kErrorMonitor with Some _ => if bool_decide (k = error) then do _ := emit_fuel body fuel em kErrorMonitor args in ret tt else ret tt | None => ret tt end = ret tt).
  { case_bool_decide as Ek; [|by destruct (prop _ _)]. by rewrite (proj2 (listed w em o kErrorMonitor Hw He) (Hmon Ek)). }
  rewrite Hskip. apply wp_ret, wp_read. destruct (prop (get_obj w o) k) as [h|] eqn:Hp.
  2:{ pose proof (proj1 (listed w em o k Hw He) Hp). rewrite Hun. destruct (bool_decide _); [apply wp_throw|apply wp_ret]; intros _; by left. }
  apply wp_read. assert (slot_fns w (Some h) = lst w em k) as -> by (by rewrite (cur_lst _ _ _ _ He), Hp).
  apply wp_bind. apply wp_fresh, wp_bind.
  assert (Hev : evolved (next w) none w (set_next (next w + 1) w)) by by apply fresh_evolves.
  eapply wp_mono; [apply (emit_loop_calls fuel (next w)); [by eapply ev_wf|simpl; lia]|].
  simpl. intros r1 w1 (l1 & Hcalls & Hcl).
  assert (Hne : lst w em k <> []) by (rewrite <-(listed w em o k Hw He); by rewrite Hp).
  assert (Hnew : log w1 = log w ++ new -> calls (next w) new = (fun f => mkCall (next w) f args) <$> l1).
  { intros E. rewrite E in Hcalls. unfold calls in Hcalls. rewrite filter_app in Hcalls. by apply app_inv_head in Hcalls. }
  destruct r1 as [e|[]]; [|apply wp_ret]; intros E; right; (split; [done|]); exists l1, new; split_and!; auto.
Qed.
End Order.

(** ** Lists of listeners *)

Section Quiet.
Context (emit : Z -> key -> list value -> M bool).

Lemma add_quiet em k f b w : wf w -> lst w em newListener_ = [] ->
  exists w', _addListener emit em k (Some f) b w = (inr tt, w') /\ wf w' /\ list_is em k (with_fn b f (lst w em k)) w w'.
Proof.
  intros Hw Hq. unfold _addListener. simpl checkListener. unfold mbind at 1, ret at 1. unfold mbind at 1, read at 1.
  assert (Hadd : forall w1 o, wf w1 -> events_of w1 em = Some o -> (forall em' k', lst w1 em' k' = lst w em' k') ->
    exists w', add_to em o k f b w1 = (inr tt, w') /\ wf w' /\ list_is em k (with_fn b f (lst w em k)) w w').
  { intros w1 o Hw1 He Hl. pose proof (add_to_spec False (next w1) em o k f b w1 Hw1 ltac:(lia) He ltac:(by intros [])) as Hs.
    destruct (add_to em o k f b w1) as [r w'] eqn:E. destruct (wp_inv _ _ _ _ _ Hs E) as (-> & Hev & Hli).
    exists w'. split_and!; [done|by eapply ev_wf|]. intros em' k'. by rewrite Hli, !Hl. }
  destruct (events_of w em) as [o|] eqn:He.
  - unfold mbind at 1, read at 1. rewrite (proj2 (listed w em o newListener_ Hw He) Hq).
    unfold mbind at 1, ret at 1. unfold mbind at 1, read at 1. rewrite He. by apply Hadd.
  - pose proof (reset_evolves False 0 none em w Hw) as Hr.
    change (exists w', add_to em (default 0 (events_of (after_reset em w) em)) k f b (after_reset em w) = (inr tt, w') /\ wf w' /\ list_is em k (with_fn b f (lst w em k)) w w').
    apply Hadd; [by eapply ev_wf| |].
    + unfold after_reset. by rewrite get_upd_emitter, decide_True.
    + intros em' k'. unfold lst. rewrite reset_eventsOf by done. destruct (decide (em = em')) as [->|]; [|done].
      unfold eventsOf. by rewrite He.
Qed.
End Quiet.

Lemma ownKeys_elem o k : k ∈ ownKeys o <-> k ∈ o.*1.
Proof.
  unfold ownKeys. rewrite !elem_of_app, list_elem_of_fmap, !list_elem_of_filter. setoid_rewrite merge_sort_Permutation.
  setoid_rewrite list_elem_of_omap. split.
  - intros [(n & -> & k' & Hk' & E)|[[_ ?]|[_ ?]]]; [|done|done]. destruct k'; try done. by injection E as ->.
  - intros Hk. destruct k as [n|s|n]; [left; eauto|right; left|right; right]; done.
Qed.

Lemma removeAllOf_quiet emit em k w : wf w -> lst w em removeListener_ = [] ->
  exists w', removeAllOf emit em k w = (inr tt, w') /\ wf w' /\ list_is em k [] w w'.
Proof.
  intros Hw Hr. unfold removeAllOf. unfold mbind at 1, read at 1.
  assert (Hsame : lst w em k = [] -> list_is em k [] w w) by (intros E; apply list_is_same; by rewrite E).
  destruct (events_of w em) as [o|] eqn:He; [|exists w; split_and!; [done|done|apply Hsame; unfold lst, eventsOf; by rewrite He]].
  unfold mbind at 1, read at 1. rewrite (proj2 (listed w em o removeListener_ Hw He) Hr).
  destruct (prop (get_obj w o) k) as [s|] eqn:Hp; [|exists w; split_and!; [done|done|apply Hsame; by apply (listed w em o k Hw He)]].
  unfold mbind at 1, read at 1. destruct (Z.eqb_spec (_eventsCount (get_emitter w em) - 1) 0) as [E|E].
  - rewrite E. exists (after_reset em w). split_and!; [done|by eapply ev_wf, (reset_evolves False 0 none)|].
    eapply reset_list_is; eauto. lia.
  - exists (w_delete em o k w). pose proof (delete_change _ _ _ _ _ Hw He Hp) as Hc.
    destruct (lose_evolves False 0 em o k None [] w (w_delete em o k w) Hw Hc eq_refl) as [Hev Hli]; [by intros ? ?%elem_of_nil|constructor|].
    split_and!; [done|by eapply ev_wf|done].
Qed.

Lemma readers w em k : rawListeners w em k = lst w em k /\ listeners w em k = unwrapped w <$> lst w em k /\ listenerCount w em k = slen (lst w em k).
Proof.
  unfold rawListeners, listeners, _listeners, listenerCount, lst, eventsOf. destruct (events_of w em) as [o|]; [|done].
  by destruct (prop (get_obj w o) k) as [[f|a]|].
Qed.

Lemma eventNames_lists w em k : wf w -> k ∈ eventNames w em <-> lst w em k <> [].
Proof.
  intros Hw. unfold eventNames. destruct (events_of w em) as [o|] eqn:He.
  - rewrite <-(listed w em o k Hw He). rewrite prop_None. assert (eventsOf w em = get_obj w o) as -> by (unfold eventsOf; by rewrite He).
    destruct (cur_facts _ _ _ Hw He) as (_ & _ & ->). destruct (Z.ltb_spec 0 (slen (get_obj w o))).
    + rewrite ownKeys_elem. split; [by intros ? []|]. intros Hn. by apply dec_stable.
    + assert (get_obj w o = []) as -> by (apply slen_0; slen_pos; pose proof (slen_nonneg (get_obj w o)); lia). split; [by intros ?%elem_of_nil|]. intros []. apply not_elem_of_nil.
  - rewrite (wf_none w Hw em He). unfold lst, eventsOf. rewrite He. simpl. split; [by intros ?%elem_of_nil|done].
Qed.

(** C20. The lists that the slots of [_events] stand for.  When nobody listens for
    additions and removals, [on] and [prependListener] put a function at the end or
    the beginning of the list of its event, [off] takes out the last listener that is
    the function or wraps it, [removeAllListeners] empties one list or all lists of
    the emitter; other lists stay, and nothing throws.  The readers give the list, the
    functions in it without their wrappers, its length, and the events whose lists are
    not empty. *)
Theorem emitter_lists body fuel em k w : wf w -> lst w em newListener_ = [] -> lst w em removeListener_ = [] ->
  (forall f b, exists w', _addListener (emit_fuel body fuel) em k (Some f) b w = (inr tt, w') /\ wf w' /\
     list_is em k (if b then f :: lst w em k else lst w em k ++ [f]) w w') /\
  (forall f, exists w', removeListener (emit_fuel body fuel) em k (Some f) w = (inr tt, w') /\ wf w' /\
     list_is em k (remove_last (matches w f) (lst w em k)) w w') /\
  (exists w', removeAllListeners (emit_fuel body fuel) em (Some k) w = (inr tt, w') /\ wf w' /\ list_is em k [] w w') /\
  (exists w', removeAllListeners (emit_fuel body fuel) em None w = (inr tt, w') /\ wf w' /\
     forall em' k', lst w' em' k' = if decide (em' = em) then [] else lst w em' k') /\
  rawListeners w em k = lst w em k /\ listeners w em k = unwrapped w <$> lst w em k /\
  listenerCount w em k = slen (lst w em k) /\ (k ∈ eventNames w em <-> lst w em k <> []).
Proof.
  intros Hw Hn Hr. destruct (fuel_ok False body fuel ltac:(by intros [])) as [He _]. split_and!.
  - intros f b. exact (add_quiet (emit_fuel body fuel) em k f b w Hw Hn).
  - intros f. pose proof (removeListener_told False (emit_fuel body fuel) He em k f w (wf_good w Hw)) as Ht.
    destruct (removeListener (emit_fuel body fuel) em k (Some f) w) as [r w'] eqn:E.
    destruct (wp_inv _ _ _ _ _ Ht E) as (w1 & (Hev & Hli & _) & _ & Hq). destruct (Hq Hr) as [-> ->].
    exists w1. split_and!; [done|by eapply ev_wf, (Hev 0)|done].
  - by apply removeAllOf_quiet.
  - unfold removeAllListeners. unfold mbind at 1, read at 1. destruct (events_of w em) as [o|] eqn:Hev.
    + unfold mbind at 1, read at 1. rewrite (proj2 (listed w em o removeListener_ Hw Hev) Hr).
      exists (after_reset em w). split_and!; [done|by eapply ev_wf, (reset_evolves False 0 none)|].
      intros em' k'. unfold lst. rewrite reset_eventsOf by done. by destruct (decide (em = em')), (decide (em' = em)); try congruence.
    + exists w. split_and!; [done|done|]. intros em' k'. destruct (decide (em' = em)) as [->|]; [|done]. unfold lst, eventsOf. by rewrite Hev.
  - apply readers.
  - apply readers.
  - apply readers.
  - by apply eventNames_lists.
Qed.

(** ** Whatever user code does *)

Lemma run_evolves hyg body fuel p w : (hyg -> hygienic_code body) -> good hyg w -> (hyg -> hygienic p) ->
  evolved hyg (next w) none w (run (emit_fuel body fuel) p w).2.
Proof.
  intros Hb Hg Hp. destruct (fuel_ok hyg body fuel Hb) as [He _].
  pose proof (run_ok hyg (emit_fuel body fuel) He (next w) p w Hg ltac:(lia) Hp) as Hok.
  destruct (run (emit_fuel body fuel) p w) as [r w'] eqn:E. exact (wp_inv _ _ _ _ _ Hok E).
Qed.

Lemma run_wf body fuel p w : wf w -> wf (run (emit_fuel body fuel) p w).2.
Proof. intros Hw. eapply ev_wf, (run_evolves False); [by intros []|by apply wf_good|by intros []]. Qed.

Lemma run_once body fuel p w : wf w -> once_ok w -> hygienic_code body -> hygienic p -> once_ok (run (emit_fuel body fuel) p w).2.
Proof. intros Hw Ho Hb Hp. eapply (ev_once _ _ _ _ _ (run_evolves True body fuel p w (fun _ => Hb) (conj Hw (fun _ => Ho)) (fun _ => Hp))); done. Qed.

(** C38. After any program of user code on a sound world, wrappers taken from
    [rawListeners] and added again included, on a call stack of any depth, and whether
    the program returns or throws: each emitter counts the events in [_events], an array
    has two functions at least and belongs to one event of one emitter, different
    emitters have different objects, and the world is sound again. *)
Theorem emitters_stay_sound body fuel p w : wf w ->
  let w' := (run (emit_fuel body fuel) p w).2 in
  wf w' /\
  (forall em, _eventsCount (get_emitter w' em) = slen (eventsOf w' em) /\ NoDup (eventsOf w' em).*1) /\
  (forall em k a, prop (eventsOf w' em) k = Some (SArr a) -> 2 <= slen (items (get_array w' a)) /\
     forall em' k', prop (eventsOf w' em') k' = Some (SArr a) -> em' = em /\ k' = k) /\
  (forall em em' o, _events (get_emitter w' em) = Some o -> _events (get_emitter w' em') = Some o -> em = em').
Proof.
  intros Hw w'. assert (Hw' : wf w') by by apply run_wf. split_and!; [done| | |].
  - intros em. unfold eventsOf. destruct (_events (get_emitter w' em)) as [o|] eqn:Ho.
    + destruct (wf_obj w' Hw' em o Ho) as (_ & ? & ?). done.
    + split; [by apply (wf_none w' Hw')|constructor].
  - intros em k a Ha. destruct (wf_array w' Hw' em k a Ha) as [_ H2]. split; [done|]. intros em' k' Ha'. by eapply (wf_single w' Hw').
  - apply (wf_home w' Hw').
Qed.

(** C14. A listener added with [once] or [prependOnceListener] is called at most once,
    whatever user code emits, nested or not, adds and removes, and is not listed any
    more when it has been called, provided that user code adds functions of its own
    only: not a wrapper that it got from [rawListeners].  For a call stack of any
    depth, and whether the program returns or throws. *)
Theorem once_at_most_once body fuel p w : wf w -> once_ok w -> hygienic_code body -> hygienic p ->
  let w' := (run (emit_fuel body fuel) p w).2 in
  NoDup (once_log w') /\ forall n, n ∈ once_log w' -> forall em k, Wrapper n ∉ rawListeners w' em k.
Proof.
  intros Hw Ho Hh Hp w'. assert (Ho' : once_ok w') by by apply run_once. split; [apply (oo_once w' Ho')|].
  intros n Hn em k. rewrite (proj1 (readers w' em k)). by apply (oo_gone w' Ho').
Qed.

(** ** Examples *)

(** One emitter without listeners. *)
Definition start : world := mkWorld {[0 := mkEmitter (Some 0) 0 None false None]} {[0 := []]} ∅ ∅ 1 (num_of_Z 10) [] [] [] [].

Lemma start_events em : events_of start em = if decide (em = 0) then Some 0 else None.
Proof.
  unfold get_emitter, start. simpl. destruct (decide (em = 0)) as [->|].
  - by rewrite lookup_singleton_eq.
  - by rewrite lookup_singleton_ne.
Qed.

Lemma start_obj o : get_obj start o = [].
Proof. unfold get_obj, start. simpl. destruct (decide (o = 0)) as [->|]; [by rewrite lookup_singleton_eq|by rewrite lookup_singleton_ne]. Qed.

Lemma start_eventsOf em : eventsOf start em = [].
Proof. unfold eventsOf. destruct (events_of start em); [apply start_obj|done]. Qed.

Lemma start_lst em k : lst start em k = [].
Proof. unfold lst. by rewrite start_eventsOf. Qed.

Lemma start_good : wf start /\ once_ok start.
Proof.
  assert (Hc : forall em, _eventsCount (get_emitter start em) = 0).
  { intros em. unfold get_emitter, start. simpl. destruct (decide (em = 0)) as [->|]; [by rewrite lookup_singleton_eq|by rewrite lookup_singleton_ne]. }
  split; split.
  - intros em o. rewrite start_events. destruct (decide _); [|done]. intros [= <-]. rewrite start_obj, Hc. split_and!; [done|constructor|done].
  - intros em _. apply Hc.
  - intros em em' o. rewrite !start_events. destruct (decide (em = 0)), (decide (em' = 0)); congruence.
  - intros em k a. by rewrite start_eventsOf.
  - intros o k a. by rewrite start_obj.
  - intros em k em' k' a. by rewrite start_eventsOf.
  - intros n s. simpl. by rewrite lookup_empty.
  - intros em k n. rewrite start_lst. by intros ?%elem_of_nil.
  - intros em k. rewrite start_lst. constructor.
  - intros n o _ k. rewrite start_obj. apply not_elem_of_nil.
  - constructor.
  - intros n. by intros ?%elem_of_nil.
  - intros n. by intros ?%elem_of_nil.
Qed.

Definition seq_prog (l : list action) : prog := foldr (fun a p => Act a (fun _ => p)) (Return Undefined) l.

(** The world after some operations. *)
Definition after (body : Z -> Z -> list value -> world -> prog) (l : list action) (w : world) : world :=
  (run (emit_fuel body 9) (seq_prog l) w).2.

Lemma seq_hygienic l : Forall plain l -> hygienic (seq_prog l).
Proof. induction 1 as [|a l Ha _ IH]; [done|]. by split. Qed.

(** Function 1 removes function 2 and adds function 3; the others do nothing. *)
Definition busy_body (n em : Z) (args : list value) (w : world) : prog :=
  if n =? 1 then seq_prog [AOff em (KName "x") (Some (User 2)); AOn em (KName "x") (Some (User 3))] else Return Undefined.

Definition busy_world : world := after busy_body [AOn 0 (KName "x") (Some (User 1)); AOnce 0 (KName "x") (Some (User 2))] start.

Lemma busy_wf : wf busy_world.
Proof. apply run_wf, start_good. Qed.

Lemma emit_calls_in_order_witness : lst busy_world 0 (KName "x") = [User 1; Wrapper 1] /\
  exists new, log (emit_fuel busy_body 9 0 (KName "x") [] busy_world).2 = log busy_world ++ new /\
    c_fn <$> calls (next busy_world) new = [User 1; Wrapper 1].
Proof.
  assert (Hl : lst busy_world 0 (KName "x") = [User 1; Wrapper 1]) by (vm_compute; reflexivity). split; [exact Hl|].
  assert (Hr : (emit_fuel busy_body 9 0 (KName "x") [] busy_world).1 = inr true) by (vm_compute; reflexivity).
  pose proof (emit_calls_in_order busy_body 8 0 (KName "x") [] busy_world busy_wf ltac:(discriminate)) as H.
  destruct (emit_fuel busy_body 9 0 (KName "x") [] busy_world) as [r w'].
  destruct H as [(H & _)|(_ & l1 & new & Hlog & Hcalls & Hc)]; [rewrite Hl in H; discriminate H|].
  exists new. split; [exact Hlog|]. rewrite Hcalls. destruct Hc as [(_ & -> & _)|(l0 & f & l2 & e & v & -> & _)]; [|discriminate Hr].
  rewrite Hl. reflexivity.
Defined.

Lemma emitter_lists_witness : exists w', removeListener (emit_fuel busy_body 9) 0 (KName "x") (Some (User 2)) busy_world = (inr tt, w') /\
  lst w' 0 (KName "x") = [User 1].
Proof.
  destruct (emitter_lists busy_body 9 0 (KName "x") busy_world busy_wf ltac:(vm_compute; reflexivity) ltac:(vm_compute; reflexivity)) as (_ & H & _).
  destruct (H (User 2)) as (w' & E & _ & Hl). exists w'. split; [exact E|]. rewrite Hl. vm_compute. reflexivity.
Defined.

Definition busy_prog : prog := seq_prog [AEmit 0 (KName "x") []; AEmit 0 (KName "x") []].

Lemma emitters_stay_sound_witness : let w' := (run (emit_fuel busy_body 9) busy_prog busy_world).2 in
  _eventsCount (get_emitter w' 0) = slen (eventsOf w' 0).
Proof. apply (emitters_stay_sound busy_body 9 busy_prog busy_world busy_wf). Defined.

(** User code that emits in a listener of its own event. *)
Definition nested_body (n em : Z) (args : list value) (w : world) : prog :=
  match args with [] => seq_prog [AEmit em (KName "x") [Other 1]] | _ => Return Undefined end.

Lemma nested_hygienic : hygienic_code nested_body.
Proof. intros n em args w. unfold nested_body. destruct args; repeat split. Qed.

Definition nested_world : world := after nested_body [AOn 0 (KName "x") (Some (User 1)); AOnce 0 (KName "x") (Some (User 2))] start.

Lemma nested_ok : wf nested_world /\ once_ok nested_world.
Proof.
  split; [apply run_wf, start_good|]. apply run_once; [apply start_good|apply start_good|apply nested_hygienic|]. apply seq_hygienic. repeat constructor.
Qed.

Lemma once_at_most_once_witness : let w' := (run (emit_fuel nested_body 9) busy_prog nested_world).2 in
  once_log w' = [1] /\ NoDup (once_log w').
Proof.
  split; [vm_compute; reflexivity|].
  apply (once_at_most_once nested_body 9 busy_prog nested_world (proj1 nested_ok) (proj2 nested_ok) nested_hygienic).
  apply seq_hygienic. repeat constructor.
Defined.

(** ** What goes wrong *)

(** A listener for removals that removes listeners itself. *)
Definition clearing_body (n em : Z) (args : list value) (w : world) : prog :=
  if n =? 9 then seq_prog [AOff em (KName "x") (Some (User 1)); AOff em (KName "x") (Some (User 2))] else Return Undefined.

(** [removeAllListeners] goes through the array it started with by index; when a
    listener for removals has removed others, it passes [undefined] on and throws. *)
Lemma removeAll_throws :
  let w := after clearing_body [AOn 0 (KName "x") (Some (User 1)); AOn 0 (KName "x") (Some (User 2)); AOn 0 (KName "x") (Some (User 3)); AOn 0 removeListener_ (Some (User 9))] start in
  fst (removeAllListeners (emit_fuel clearing_body 9) 0 (Some (KName "x")) w) = inl (NodeError "ERR_INVALID_ARG_TYPE").
Proof. vm_compute. reflexivity. Qed.

(** The event about the removal of a [once] listener names the listener when it was
    alone, and the wrapper when there were others. *)
Lemma removal_names_wrapper :
  let quiet := fun _ _ _ _ => Return Undefined in
  let w1 := after quiet [AOn 0 removeListener_ (Some (User 9)); AOnce 0 (KName "x") (Some (User 1)); AEmit 0 (KName "x") []] start in
  let w2 := after quiet [AOn 0 removeListener_ (Some (User 9)); AOnce 0 (KName "x") (Some (User 1)); AOn 0 (KName "x") (Some (User 2)); AEmit 0 (KName "x") []] start in
  (c_args <$> filter (fun c => c_fn c = User 9) (log w1)) = [[KeyVal (KName "x"); Fn (User 1)]] /\
  (c_args <$> filter (fun c => c_fn c = User 9) (log w2)) = [[KeyVal (KName "x"); Fn (Wrapper 1)]].
Proof. vm_compute. split; reflexivity. Qed.

(** Function 2 takes the wrapper of a [once] listener from [rawListeners] and adds it
    again; function 9, a listener for removals, emits the event. *)
Definition readding_body (n em : Z) (args : list value) (w : world) : prog :=
  if n =? 2 then match rawListeners w em (KName "x") with f :: _ => seq_prog [AOn em (KName "x") (Some f)] | [] => Return Undefined end
  else if n =? 9 then seq_prog [AEmit em (KName "x") []] else Return Undefined.

(** Then the [once] listener is called twice: the wrapper removes one of its two
    entries, and is called again before it notes that it fired. *)
Lemma readded_wrapper_fires_twice :
  once_log (after readding_body [AOnce 0 (KName "x") (Some (User 1)); AOn 0 (KName "y") (Some (User 2)); AEmit 0 (KName "y") [];
    AOn 0 removeListener_ (Some (User 9)); AEmit 0 (KName "x") []] start) = [1; 1].
Proof. vm_compute. reflexivity. Qed.

(** A listener that emits its own event without end gets the engine's exception. *)
Lemma endless_emit_throws :
  let body := fun _ em _ _ => Act (AEmit em (KName "x") []) (fun r => match r with inl e => Raise e | inr v => Return v end) in
  let w := after body [AOn 0 (KName "x") (Some (User 1))] start in
  fst (emit_fuel body 100 0 (KName "x") [] w) = inl stack_overflow.
Proof. vm_compute. reflexivity. Qed.
