(* ===== verification/NodeEventsOn.v ===== *)
(** * Iterating over events

    Models [on] of [src/ext/node/polyfills/_events.mjs], the asynchronous iterator over
    the events of an emitter: its queues of events and of promises, its end by an
    error, by [return] or by [throw].  The promises are numbered in the order of the
    calls of [next]; [settled] records what they were settled with, the first time.
    Which handlers are attached is part of the state: [return] and [throw] detach the
    handlers of an event emitter, but those on an event target and the one for an abort
    were added inside another function and stay ([eventTargetAgnosticAddListener]).  An
    emitter in the middle of [emit] also calls handlers that are detached by now. *)

From Stdlib Require Import ZArith Lia.
From stdpp Require Import base list numbers strings gmap.
From S2P Require Import Prelude NodeEvents.

(** What a promise of [next] is settled with. *)
Inductive settled_with := Item (args : list value) | Done | Rejected (err : value).

Record iterator := mkIterator {
  unconsumedEvents : list (list value);
  unconsumedPromises : list nat;
  it_error : option value;
  finished : bool;
  (** the emitter has no [on] and is an event target *)
  on_target : bool;
  (** the handlers that are attached *)
  a_event : bool;
  a_error : bool;
  a_abort : bool;
  (** the number of promises that [next] made, and their results *)
  made : nat;
  settled : gmap nat settled_with;
}.

(** [signal] says whether there is one; [error_event], whether the event is [error]. *)
Definition on (target error_event signal : bool) : iterator :=
  mkIterator [] [] None false target true (negb error_event && negb target) signal 0 ∅.

(** [resolve] and [reject]: only the first counts. *)
Definition settle (p : nat) (r : settled_with) (it : iterator) : iterator :=
  mkIterator (unconsumedEvents it) (unconsumedPromises it) (it_error it) (finished it) (on_target it) (a_event it) (a_error it) (a_abort it) (made it) 
    (match settled it !! p with Some _ => settled it | None => <[p := r]> (settled it) end).

Definition set_events l it := mkIterator l (unconsumedPromises it) (it_error it) (finished it) (on_target it) (a_event it) (a_error it) (a_abort it) (made it) (settled it).
Definition set_promises l it := mkIterator (unconsumedEvents it) l (it_error it) (finished it) (on_target it) (a_event it) (a_error it) (a_abort it) (made it) (settled it).
Definition set_error e it := mkIterator (unconsumedEvents it) (unconsumedPromises it) e (finished it) (on_target it) (a_event it) (a_error it) (a_abort it) (made it) (settled it).
Definition set_finished it := mkIterator (unconsumedEvents it) (unconsumedPromises it) (it_error it) true (on_target it) (a_event it) (a_error it) (a_abort it) (made it) (settled it).
Definition set_made n it := mkIterator (unconsumedEvents it) (unconsumedPromises it) (it_error it) (finished it) (on_target it) (a_event it) (a_error it) (a_abort it) n (settled it).

(** The removal of [eventHandler] and [errorHandler]: on an event target the listener is
    not [eventHandler] but an arrow function around it, and nothing is removed. *)
Definition detach it := mkIterator (unconsumedEvents it) (unconsumedPromises it) (it_error it) (finished it) (on_target it)
  (on_target it && a_event it) (on_target it && a_error it) (a_abort it) (made it) (settled it).
(** The listener for an abort is attached with [once]. *)
Definition detach_abort it := mkIterator (unconsumedEvents it) (unconsumedPromises it) (it_error it) (finished it) (on_target it) (a_event it) (a_error it) false (made it) (settled it).

(** [if (error)] *)
Definition truthy (v : value) : bool := match v with Undefined | Bool false => false | Other n => negb (Z.eqb n 0) | _ => true end.

Definition it_next (it : iterator) : iterator :=
  let p := made it in
  let it := set_made (S p) it in
  match unconsumedEvents it with
  | value :: l => settle p (Item value) (set_events l it)
  | [] =>
      match it_error it with
      | Some e => set_error None (settle p (Rejected e) it)
      | None => if finished it then settle p Done it else set_promises (unconsumedPromises it ++ [p]) it
      end
  end.

(** The promises stay in their queue, and the listener for an abort, an arrow function
    too, stays attached to the signal. *)
Definition it_return (it : iterator) : iterator :=
  let it := set_finished (detach it) in
  foldl (fun it p => settle p Done it) it (unconsumedPromises it).

(** [throw] of an instance of [Error]. *)
Definition it_throw (err : value) (it : iterator) : iterator := detach (set_error (Some err) it).

Definition eventHandler (args : list value) (it : iterator) : iterator :=
  match unconsumedPromises it with
  | p :: l => settle p (Item args) (set_promises l it)
  | [] => set_events (unconsumedEvents it ++ [args]) it
  end.

Definition errorHandler (err : value) (it : iterator) : iterator :=
  let it := set_finished it in
  let it :=
    match unconsumedPromises it with
    | p :: l => settle p (Rejected err) (set_promises l it)
    | [] => set_error (if truthy err then Some err else None) it
    end in
  it_return it.

(** [AbortError] *)
Definition abortListener (it : iterator) : iterator := errorHandler (NodeError "AbortError") it.

(** ** Steps *)

(** What happens: calls of the methods of the iterator, and the emitter and the signal,
    which call the handlers that are attached; a run of [emit] that was under way when
    its handler was detached calls it too. *)
Inductive step :=
  | Next
  | Event (underway : bool) (args : list value)
  | Error (underway : bool) (err : value)
  | Abort
  | Return
  | Throw (err : value).

Definition on_step (it : iterator) (s : step) : iterator :=
  match s with
  | Next => it_next it
  | Event underway args => if a_event it || underway then eventHandler args it else it
  | Error underway err => if a_error it || underway then errorHandler err it else it
  | Abort => if a_abort it then abortListener (detach_abort it) else it
  | Return => it_return it
  | Throw err => if is_error err then it_throw err it else it
  end.

Definition on_steps (it : iterator) (l : list step) : iterator := foldl on_step it l.

(** ** What should come out *)

(** How the iterator ends: with an error or without. *)
Inductive ending := Running | Ended (err : option value).

Section Source.
Context (target error_event signal : bool).

#[local] Abbreviation listens_error := (negb error_event && negb target).

(** The events until the end, and the end: the first error, abort or [return]. *)
Definition expect (x : list (list value) * ending) (s : step) : list (list value) * ending :=
  match x.2 with
  | Ended _ => x
  | Running =>
      match s with
      | Event _ args => (x.1 ++ [args], Running)
      | Error _ err => if listens_error then (x.1, Ended (Some err)) else x
      | Abort => if signal then (x.1, Ended (Some (NodeError "AbortError"))) else x
      | Return => (x.1, Ended None)
      | Next | Throw _ => x
      end
  end.

(** No handler is called after the end; errors are not falsy values, and [throw] is not
    called. *)
Definition timely_step (fin : ending) (s : step) : bool :=
  match s, fin with
  | Next, _ | Return, _ | Event _ _, Running | Abort, Running => true
  | Event underway _, Ended _ => negb underway && negb target
  | Error underway err, Running => truthy err && (listens_error || negb underway)
  | Error underway err, Ended _ => truthy err && negb underway
  | Abort, Ended _ => negb signal
  | Throw _, _ => false
  end.

Fixpoint timely (x : list (list value) * ending) (l : list step) : bool :=
  match l with [] => true | s :: l => timely_step x.2 s && timely (expect x s) l end.
End Source.

(** What the [i]-th call of [next] gets. *)
Definition answer (es : list (list value)) (fin : ending) (i : nat) : option settled_with :=
  match es !! i with
  | Some args => Some (Item args)
  | None =>
      match fin with
      | Running => None
      | Ended (Some err) => if decide (i = length es) then Some (Rejected err) else Some Done
      | Ended None => Some Done
      end
  end.

(** ** The invariant *)

Record on_inv (es : list (list value)) (fin : ending) (it : iterator) : Prop := {
  oi_events : unconsumedEvents it = drop (made it) es;
  oi_settled : forall i, settled it !! i = if decide (i < made it)%nat then answer es fin i else None;
  oi_running : fin = Running -> finished it = false /\ it_error it = None /\ unconsumedPromises it = seq (length es) (made it - length es);
  oi_ended : forall e, fin = Ended e -> finished it = true /\
    it_error it = (if decide (made it <= length es)%nat then e else None) /\ Forall (fun p => (p < made it)%nat) (unconsumedPromises it);
}.

Lemma answer_ended es e i : exists r, answer es (Ended e) i = Some r.
Proof. unfold answer. destruct (es !! i); [eauto|]. destruct e; [|eauto]. destruct (decide _); eauto. Qed.

Lemma settle_many l r : forall it, let it' := foldl (fun it p => settle p r it) it l in
  unconsumedEvents it' = unconsumedEvents it /\ unconsumedPromises it' = unconsumedPromises it /\ it_error it' = it_error it /\ finished it' = finished it /\
  on_target it' = on_target it /\ a_event it' = a_event it /\ a_error it' = a_error it /\ a_abort it' = a_abort it /\ made it' = made it /\
  forall i, settled it' !! i = match settled it !! i with Some x => Some x | None => if decide (i ∈ l) then Some r else None end.
Proof.
  induction l as [|p l IH]; intros it; simpl.
  - split_and!; try done. intros i. by destruct (settled it !! i).
  - destruct (IH (settle p r it)) as (E1 & E2 & E3 & E4 & Ea & Eb & Ec & Ed & E6 & Es). split_and!; try done. intros i. rewrite Es. unfold settle. simpl.
    destruct (settled it !! p) as [x|] eqn:Hp.
    + destruct (settled it !! i) as [y|] eqn:Hi; [done|]. assert (i <> p) by congruence.
      destruct (decide (i ∈ l)), (decide (i ∈ p :: l)) as [Hin|Hin]; try done; exfalso; [apply Hin; by right|].
      apply elem_of_cons in Hin as [|]; done.
    + destruct (decide (i = p)) as [->|Hne].
      * rewrite lookup_insert_eq, Hp. rewrite decide_True by left. done.
      * rewrite lookup_insert_ne by done. destruct (settled it !! i); [done|].
        destruct (decide (i ∈ l)), (decide (i ∈ p :: l)) as [Hin|Hin]; try done; exfalso; [apply Hin; by right|].
        apply elem_of_cons in Hin as [|]; done.
Qed.

Lemma next_inv es fin it : on_inv es fin it -> on_inv es fin (it_next it).
Proof.
  intros [He Hs Hr Hd]. assert (Hp : settled it !! made it = None) by (rewrite Hs, decide_False by lia; done).
  assert (Hset : forall r, Some r = answer es fin (made it) -> forall i, <[made it := r]> (settled it) !! i = if decide (i < S (made it))%nat then answer es fin i else None).
  { intros r Hr' i. destruct (decide (i = made it)) as [->|Hne].
    - rewrite lookup_insert_eq. by rewrite decide_True by lia.
    - rewrite lookup_insert_ne, Hs by done. destruct (decide (i < made it)%nat), (decide (i < S (made it))%nat); done || lia. }
  unfold it_next, settle. cbn [set_made unconsumedEvents]. destruct (unconsumedEvents it) as [|v l] eqn:Eq.
  - assert (Hlen : (length es <= made it)%nat) by (apply skipn_nil_iff || (apply (f_equal length) in He; rewrite length_drop in He; simpl in He; lia)).
    assert (Hnone : es !! made it = None) by by apply lookup_ge_None.
    assert (Hdrop : [] = drop (S (made it)) es) by (symmetry; apply drop_ge; lia).
    simpl. destruct (it_error it) as [e|] eqn:Ee.
    + destruct fin as [|x]; [by destruct (Hr eq_refl) as (_ & ? & _)|]. destruct (Hd x eq_refl) as (Hf & Hx & Hpr).
      rewrite Hp. assert (made it = length es /\ x = Some e) as [Hm ->] by (destruct (decide _); [split; [lia|done]|done]).
      split; simpl; [by rewrite ?Eq| |done|].
      * apply Hset. unfold answer. rewrite Hnone, decide_True by done. done.
      * intros e' [= <-]. split_and!; [done|by rewrite decide_False by lia|]. eapply Forall_impl; [exact Hpr|]. simpl. lia.
    + destruct fin as [|x].
      * destruct (Hr eq_refl) as (Hf & _ & Hpr). rewrite Hf. split; simpl; [by rewrite ?Eq| | |done].
        -- intros i. rewrite Hs. destruct (decide (i < made it)%nat), (decide (i < S (made it))%nat); try done; [lia|].
           assert (i = made it) as -> by lia. unfold answer. by rewrite Hnone.
        -- intros _. split_and!; [done|done|]. rewrite Hpr. replace (S (made it) - length es)%nat with (S (made it - length es)) by lia.
           rewrite seq_S. do 2 f_equal. lia.
      * destruct (Hd x eq_refl) as (Hf & Hx & Hpr). rewrite Hf, Hp. split; simpl; [by rewrite ?Eq| |done|].
        -- apply Hset. unfold answer. rewrite Hnone. destruct x as [e|]; [|done]. destruct (decide (made it <= length es)%nat); [done|]. by rewrite decide_False by lia.
        -- intros e' [= <-]. split_and!; [done| |eapply Forall_impl; [exact Hpr|]; simpl; lia].
           destruct (decide (made it <= length es)%nat), (decide (S (made it) <= length es)%nat); done || lia || congruence.
  - assert (Hv : es !! made it = Some v) by (rewrite <-(Nat.add_0_r (made it)), <-lookup_drop, <-He; done).
    assert (Hl : l = drop (S (made it)) es) by (rewrite <-(drop_S es v (made it) Hv) in He || (rewrite (drop_S es v (made it) Hv) in He; by injection He)).
    pose proof (lookup_lt_Some _ _ _ Hv) as Hlt. simpl. rewrite Hp. split; simpl; [done| | |].
    + apply Hset. unfold answer. by rewrite Hv.
    + intros E. destruct (Hr E) as (Hf & Hx & Hpr). split_and!; [done|done|]. rewrite Hpr.
      replace (made it - length es)%nat with 0%nat by lia. by replace (S (made it) - length es)%nat with 0%nat by lia.
    + intros e E. destruct (Hd e E) as (Hf & Hx & Hpr). split_and!; [done| |eapply Forall_impl; [exact Hpr|]; simpl; lia].
      rewrite Hx, !decide_True by lia. done.
Qed.

Lemma return_inv es fin it : on_inv es fin it -> on_inv es (match fin with Running => Ended None | _ => fin end) (it_return it).
Proof.
  intros [He Hs Hr Hd]. unfold it_return. destruct (settle_many (unconsumedPromises it) Done (set_finished (detach it))) as (E1 & E2 & E3 & E4 & Ea & Eb & Ec & Ed & E6 & Es).
  change (unconsumedPromises (set_finished (detach it))) with (unconsumedPromises it).
  set (it' := foldl _ _ _) in *. simpl in *. destruct fin as [|e].
  - destruct (Hr eq_refl) as (_ & Hx & Hp). split; [by rewrite E1, E6| |done|].
    + intros i. rewrite Es, Hs, E6. unfold answer. destruct (decide (i < made it)%nat) as [Hi|Hi].
      * destruct (es !! i) eqn:E; [done|]. apply lookup_ge_None in E. rewrite decide_True; [done|]. rewrite Hp. apply elem_of_seq. lia.
      * rewrite decide_False; [done|]. rewrite Hp. rewrite elem_of_seq. lia.
    + intros e [= <-]. rewrite E2, E3, E4, Hx. split_and!; [done|by repeat case_match|]. rewrite E6, Hp. apply Forall_forall. intros p. rewrite elem_of_seq. lia.
  - destruct (Hd e eq_refl) as (_ & Hx & Hp). split; [by rewrite E1, E6| |done|].
    + intros i. rewrite Es, Hs, E6. destruct (decide (i < made it)%nat) as [Hi|Hi].
      * by destruct (answer_ended es e i) as [r ->].
      * rewrite decide_False; [done|]. intros Hin. rewrite Forall_forall in Hp. by apply Hi, Hp.
    + intros e' [= <-]. rewrite E2, E3, E4, E6. done.
Qed.

Lemma event_inv es it args : on_inv es Running it -> on_inv (es ++ [args]) Running (eventHandler args it).
Proof.
  intros [He Hs Hr Hd]. destruct (Hr eq_refl) as (Hf & Hx & Hp). unfold eventHandler.
  assert (Hlen : length (es ++ [args]) = S (length es)) by (rewrite length_app; simpl; lia).
  assert (Hans : forall i, i <> length es -> answer (es ++ [args]) Running i = answer es Running i).
  { intros i Hi. unfold answer. destruct (decide (i < length es)%nat); [by rewrite lookup_app_l|].
    rewrite lookup_app_r by lia. rewrite (lookup_ge_None_2 es) by lia. destruct (i - length es)%nat eqn:Eq; [lia|done]. }
  assert (Hnew : answer (es ++ [args]) Running (length es) = Some (Item args)) by (unfold answer; by rewrite list_lookup_middle).
  destruct (unconsumedPromises it) as [|p l] eqn:Ep.
  - assert (Hm : (made it <= length es)%nat) by (destruct (made it - length es)%nat eqn:E; [lia|done]).
    split; simpl; [by rewrite He, drop_app_le| | |done].
    + intros i. rewrite Hs. destruct (decide (i < made it)%nat); [|done]. by rewrite Hans by lia.
    + intros _. rewrite Hlen, Ep. by replace (made it - S (length es))%nat with 0%nat by lia.
  - assert (Hm : exists d, (made it - length es)%nat = S d /\ p = length es /\ l = seq (S (length es)) d).
    { destruct (made it - length es)%nat as [|d] eqn:E; [done|]. simpl in Hp. injection Hp as -> ->. eauto. }
    destruct Hm as (d & Hd' & -> & ->). assert (Hsp : settled it !! length es = None).
    { rewrite Hs, decide_True by lia. unfold answer. by rewrite lookup_ge_None_2. }
    unfold settle. simpl. rewrite Hsp. split; simpl; [| | |done].
    + rewrite He, !drop_ge by (rewrite ?Hlen; lia). done.
    + intros i. destruct (decide (i = length es)) as [->|Hne].
      * rewrite lookup_insert_eq, decide_True by lia. by rewrite Hnew.
      * rewrite lookup_insert_ne, Hs by done. by rewrite Hans.
    + intros _. rewrite Hlen. split_and!; [done|done|]. f_equal. lia.
Qed.

Lemma on_error_inv es it err : on_inv es Running it -> truthy err = true -> on_inv es (Ended (Some err)) (errorHandler err it).
Proof.
  intros [He Hs Hr Hd] Ht. destruct (Hr eq_refl) as (Hf & Hx & Hp). unfold errorHandler. simpl. rewrite Ht.
  destruct (unconsumedPromises it) as [|p l] eqn:Ep.
  - assert (Hm : (made it <= length es)%nat) by (destruct (made it - length es)%nat eqn:E; [lia|done]).
    unfold it_return. simpl. rewrite Ep. simpl. split; simpl; [done| |done|].
    + intros i. rewrite Hs. destruct (decide (i < made it)%nat); [|done]. unfold answer.
      destruct (lookup_lt_is_Some_2 es i) as [x ->]; [lia|done].
    + intros e [= <-]. rewrite decide_True, Ep by done. split_and!; done || constructor.
  - assert (Hm : exists d, (made it - length es)%nat = S d /\ p = length es /\ l = seq (S (length es)) d).
    { destruct (made it - length es)%nat as [|d] eqn:E; [done|]. simpl in Hp. injection Hp as -> ->. eauto. }
    destruct Hm as (d & Hd' & -> & ->). assert (Hsp : settled it !! length es = None).
    { rewrite Hs, decide_True by lia. unfold answer. by rewrite lookup_ge_None_2. }
    unfold settle. simpl. rewrite Hsp. unfold it_return. simpl.
    match goal with |- on_inv _ _ (foldl _ ?x _) => destruct (settle_many (seq (S (length es)) d) Done x) as (E1 & E2 & E3 & E4 & Ea & Eb & Ec & Ed & E6 & Es) end.
    set (it' := foldl _ _ _) in *. simpl in *. split; [by rewrite E1, E6| |done|].
    + intros i. rewrite Es, E6. unfold answer. destruct (decide (i = length es)) as [->|Hne].
      * rewrite lookup_insert_eq. rewrite decide_True by lia. by rewrite lookup_ge_None_2.
      * rewrite lookup_insert_ne, Hs by done. unfold answer. destruct (decide (i < made it)%nat) as [Hi|Hi].
        -- destruct (es !! i) eqn:E; [done|]. apply lookup_ge_None in E. rewrite decide_True; [done|]. apply elem_of_seq. lia.
        -- rewrite decide_False; [done|]. rewrite elem_of_seq. lia.
    + intros e [= <-]. rewrite E2, E3, E4, E6, Hx, decide_False by lia. split_and!; [done|done|].
      apply Forall_forall. intros q. rewrite elem_of_seq. lia.
Qed.

(** The handlers that are attached. *)
Record attached_inv (target error_event signal : bool) (fin : ending) (it : iterator) : Prop := {
  ai_target : on_target it = target;
  ai_event : a_event it = match fin with Running => true | Ended _ => target end;
  ai_error : a_error it = match fin with Running => negb error_event && negb target | Ended _ => false end;
  ai_no_signal : signal = false -> a_abort it = false;
}.

Section Runs.
Context (target error_event signal : bool).
#[local] Abbreviation attached := (attached_inv target error_event signal).

Lemma settle_attached fin p r it : attached fin it -> attached fin (settle p r it).
Proof. by intros []. Qed.

Lemma next_attached fin it : attached fin it -> attached fin (it_next it).
Proof. intros [? ? ? ?]. unfold it_next. simpl. destruct (unconsumedEvents it); [|done]. destruct (it_error it); [done|]. by destruct (finished it). Qed.

Lemma event_attached fin args it : attached fin it -> attached fin (eventHandler args it).
Proof. intros [? ? ? ?]. unfold eventHandler. by destruct (unconsumedPromises it). Qed.

Lemma return_attached fin e it : attached fin it -> attached (Ended e) (it_return it).
Proof.
  intros [E1 E2 E3 E4]. unfold it_return. set (it1 := set_finished (detach it)).
  destruct (settle_many (unconsumedPromises it1) Done it1) as (_ & _ & _ & _ & Ha & Hb & Hc & Hd & _).
  split; rewrite ?Ha, ?Hb, ?Hc, ?Hd; simpl; rewrite ?E1, ?E2, ?E3; try done.
  - by destruct target, fin.
  - by destruct target, fin, error_event.
Qed.

Lemma error_attached fin e err it : attached fin it -> attached (Ended e) (errorHandler err it).
Proof.
  intros H. unfold errorHandler. simpl. apply (return_attached fin). destruct H. by destruct (unconsumedPromises it).
Qed.

Lemma next_abort it : a_abort (it_next it) = a_abort it.
Proof. unfold it_next. simpl. destruct (unconsumedEvents it); [|done]. destruct (it_error it); [done|]. by destruct (finished it). Qed.

Lemma event_abort args it : a_abort (eventHandler args it) = a_abort it.
Proof. unfold eventHandler. by destruct (unconsumedPromises it). Qed.

(** What holds after steps that were timely. *)
Definition iter_inv (x : list (list value) * ending) (it : iterator) : Prop :=
  on_inv x.1 x.2 it /\ attached x.2 it /\ (x.2 = Running -> a_abort it = signal).

Lemma step_inv x it s : iter_inv x it -> timely_step target error_event signal x.2 s = true ->
  iter_inv (expect target error_event signal x s) (on_step it s).
Proof.
  destruct x as [es fin]. intros (Hi & Ha & Hs) Ht. simpl in Hi, Ha, Hs, Ht. unfold iter_inv, expect. destruct s as [|u args|u err| | |err]; simpl.
  - destruct fin; (split_and!; [by apply next_inv|by apply next_attached|by rewrite next_abort]).
  - rewrite (ai_event _ _ _ _ _ Ha). destruct fin as [|e]; simpl in *; [split_and!; [by apply event_inv|by apply event_attached|by rewrite event_abort]|].
    apply andb_true_iff in Ht as [Hu Htg]. by destruct u, target.
  - rewrite (ai_error _ _ _ _ _ Ha). destruct fin as [|e]; simpl in *; apply andb_true_iff in Ht as [Htr Hu]; [|by destruct u].
    destruct (negb error_event && negb target); simpl in *; [|by destruct u]. split_and!; [by apply on_error_inv|by eapply error_attached|done].
  - destruct fin as [|e]; simpl in *.
    + assert (Hat : attached (Ended (Some (NodeError "AbortError"))) (abortListener (detach_abort it))).
      { apply (error_attached Running). destruct Ha. by split. }
      rewrite Hs by done. destruct signal; [|done]. split_and!; [|exact Hat|done]. apply on_error_inv; [|done]. destruct Hi. by split.
    + rewrite (ai_no_signal _ _ _ _ _ Ha); [done|]. by destruct signal.
  - destruct fin as [|e]; (split_and!; [by apply (return_inv _ _ _ Hi)|by eapply return_attached|done]).
  - done.
Qed.

Lemma steps_inv l : forall x it, iter_inv x it -> timely target error_event signal x l = true ->
  iter_inv (foldl (expect target error_event signal) x l) (on_steps it l).
Proof.
  induction l as [|s l IH]; intros x it Hi Ht; [done|]. simpl in Ht. apply andb_true_iff in Ht as [Hs Hl].
  apply IH; [by apply step_inv|done].
Qed.
End Runs.

(** C28. Whatever the order of events, calls of [next], an error or abort and [return]: the
    [i]-th call of [next] gets the [i]-th event; when the events end, the call after
    the last one is rejected with the error, if there was one, and all others say that
    the iteration is done; before the end, only calls beyond the events that came wait.
    The condition [timely] is that no handler is called after the end, where the end is
    the first error, abort or [return], that errors are not falsy values, and that
    [throw] is not called.  After the end, the handlers that are called are those on
    event targets, on a signal that is aborted later, and those that an [emit] under way
    calls: an event emitter without a signal calls none between runs of [emit]. *)
Theorem on_iterates target error_event signal l :
  timely target error_event signal ([], Running) l = true ->
  let it := on_steps (on target error_event signal) l in
  let x := foldl (expect target error_event signal) ([], Running) l in
  forall i, settled it !! i = if decide (i < made it)%nat then answer x.1 x.2 i else None.
Proof.
  intros Ht it x i. assert (Hi : iter_inv target error_event signal x it).
  { apply steps_inv; [|done]. split_and!; [by split|by split|done]. }
  apply (oi_settled _ _ _ (proj1 Hi)).
Qed.

Lemma on_iterates_witness :
  let it := on_steps (on false false true) [Next; Next; Event false [Other 1]; Error false (ErrorVal 5); Event false [Other 2]; Next; Return; Next] in
  settled it !! 0%nat = Some (Item [Other 1]) /\ settled it !! 1%nat = Some (Rejected (ErrorVal 5)) /\ settled it !! 3%nat = Some Done.
Proof.
  intros it. unfold it. rewrite !(on_iterates false false true) by reflexivity. split; [reflexivity|]. split; reflexivity.
Defined.

(** Steps that an event emitter and its users make between runs of [emit]. *)
Definition between_emits (s : step) : Prop :=
  match s with Event underway _ => underway = false | Error underway err => underway = false /\ truthy err = true | Throw _ => False | _ => True end.

(** For an event emitter without a signal the condition is no restriction. *)
Lemma emitter_timely error_event l : forall x, Forall between_emits l -> timely false error_event false x l = true.
Proof.
  induction l as [|s l IH]; intros x Hl; [done|]. inversion_clear Hl as [|?? Hs Hl']. simpl. rewrite IH by done. rewrite andb_true_r.
  destruct s as [|u args|u err| | |err]; simpl in *; destruct x.2; try done; try (by rewrite Hs); destruct Hs as [-> ->]; try done. by rewrite orb_true_r.
Qed.

(** ** What goes wrong *)

(** After [throw], calls of [next] wait for ever once the error has been given. *)
Lemma throw_hangs : let it := on_steps (on false false false) [Throw (ErrorVal 5); Event false [Other 1]; Next; Next] in
  settled it !! 1%nat = None /\ finished it = false.
Proof. split; reflexivity. Qed.

(** The listener for an abort outlives [return]: an abort makes the next call reject. *)
Lemma abort_after_return : settled (on_steps (on false false true) [Return; Abort; Next]) !! 0%nat = Some (Rejected (NodeError "AbortError")).
Proof. reflexivity. Qed.

(** So does the listener on an event target: an event after the end comes out. *)
Lemma event_after_return : settled (on_steps (on true false false) [Return; Event false [Other 1]; Next]) !! 0%nat = Some (Item [Other 1]).
Proof. reflexivity. Qed.
