(* ===== verification/FormData.v ===== *)
(** * Form data

    Models [src/ext/fetch/21_formdata.js]: the entry list of [FormData] and its
    methods, the serializer to [multipart/form-data], the parser of such bodies,
    and the part of [src/ext/fetch/22_body.js] that turns the bytes of a body into
    form data.

    A call that makes a [Blob] changes the store of blobs, one that checks a header
    name the cache of [20_headers.js]; the parser changes both.  [core.encode],
    [core.decode], the parser of URL-encoded bodies, [toLowerCase] and the keys that
    plain objects inherit are parameters; the clock and the two random numbers of
    the boundary are arguments. *)

From Stdlib Require Import ZArith Lia.
From stdpp Require Import base list gmap numbers option strings.
From S2P Require Import Prelude JsNumber Infra Mime Headers Blob.

#[local] Open Scope Z_scope.

(** ** Strings *)

Definition CR : Z := 13.
Definition LF : Z := 10.
Definition CRLF : str := [CR; LF].

Definition high_surrogate (c : Z) : bool := (55296 <=? c) && (c <=? 56319).
Definition low_surrogate (c : Z) : bool := (56320 <=? c) && (c <=? 57343).

(** [String.prototype.toWellFormed]: a lone surrogate becomes U+FFFD. *)
Fixpoint toWellFormed (s : str) : str :=
  match s with
  | [] => []
  | c :: s' =>
      if high_surrogate c then
        match s' with
        | d :: s'' => if low_surrogate d then c :: d :: toWellFormed s'' else 65533 :: toWellFormed s'
        | [] => [65533]
        end
      else if low_surrogate c then 65533 :: toWellFormed s'
      else c :: toWellFormed s'
  end.

(** [converters.USVString] on a string. *)
Definition USVString (s : str) : str := toWellFormed s.

(** What [String.prototype.trim] removes. *)
Definition JS_SPACE : char_class :=
  [(9, 13); (32, 32); (160, 160); (5760, 5760); (8192, 8202); (8232, 8233); (8239, 8239); (8287, 8287); (12288, 12288); (65279, 65279)].
Definition js_trim (s : str) : str := strip_suffix JS_SPACE (strip_prefix JS_SPACE s).

(** [s.padStart(n, c)] with one code unit. *)
Definition padStart (s : str) (n c : Z) : str := replicate (Z.to_nat (n - slen s)) c ++ s.

(** [s.split(CRLF)] *)
Fixpoint split_crlf (s : str) : list str :=
  match s with
  | [] => [[]]
  | c :: s' =>
      match (match s' with d :: s'' => if (c =? CR) && (d =? LF) then Some (split_crlf s'') else None | [] => None end) with
      | Some segs => [] :: segs
      | None => match split_crlf s' with [] => [[c]] | seg :: segs => (c :: seg) :: segs end
      end
  end.

(** ** Entries *)

Inductive FormDataEntryValue := FString (s : str) | FFile (f : File).

Record FormDataEntry := mkEntry { entry_name : str; entry_value : FormDataEntryValue }.

(** An argument [string | Blob]; a file is a blob. *)
Inductive FormArg := AString (s : str) | ABlob (b : Blob) | AFile (f : File).

Definition named (name : str) (e : FormDataEntry) : bool := str_eqb (entry_name e) name.

(** The state: the list under the symbol [entryList]. *)
Abbreviation FormData := (list FormDataEntry).

Definition formdata_new : FormData := [].

Section FormData.
Context {Url : Type} `{Countable Url}.
Context (toLowerCase : str -> str) (inherited : str -> bool) (encode : str -> list Z) (decode : list Z -> str).
#[local] Open Scope blob_scope.

Definition createEntry (name : str) (value : FormArg) (filename : option str) (now : Z) : io Url FormDataEntry :=
  let! value :=
    match value with
    | AString s => io_ret (FString s)
    | AFile f => io_ret (FFile f)
    | ABlob b => let! f := file_new toLowerCase encode [IBlob b] (lit "blob") false (blob_type b) None now in io_ret (FFile f)
    end in
  match value, filename with
  | FFile f, Some filename =>
      let! f := file_new toLowerCase encode [IBlob (file_blob f)] filename false (blob_type (file_blob f)) (Some (lastModified f)) now in
      io_ret (mkEntry name (FFile f))
  | _, _ => io_ret (mkEntry name value)
  end.

(** What [append] and [set] do with their arguments. *)
Definition convert_entry (name : str) (value : FormArg) (filename : option str) (now : Z) : io Url FormDataEntry :=
  let name := USVString name in
  match value with
  | AString s => createEntry name (AString (USVString s)) filename now
  | _ => createEntry name value (USVString <$> filename) now
  end.

Definition formdata_append (name : str) (value : FormArg) (filename : option str) (now : Z) (fd : FormData) : io Url FormData :=
  let! entry := convert_entry name value filename now in io_ret (fd ++ [entry]).

(** The loops remove by index; each round shortens the list or moves on. *)
Fixpoint delete_loop (fuel : nat) (name : str) (i : nat) (fd : FormData) : FormData :=
  match fuel, fd !! i with
  | S fuel, Some e => if named name e then delete_loop fuel name i (delete i fd) else delete_loop fuel name (S i) fd
  | _, _ => fd
  end.

Definition formdata_delete (name : str) (fd : FormData) : FormData :=
  delete_loop (length fd) (USVString name) 0 fd.

Fixpoint get_loop (name : str) (fd : FormData) : option FormDataEntryValue :=
  match fd with
  | [] => None
  | entry :: fd => if named name entry then Some (entry_value entry) else get_loop name fd
  end.

Definition formdata_get (name : str) (fd : FormData) : option FormDataEntryValue := get_loop (USVString name) fd.

Fixpoint getAll_loop (name : str) (fd : FormData) (returnList : list FormDataEntryValue) : list FormDataEntryValue :=
  match fd with
  | [] => returnList
  | entry :: fd => getAll_loop name fd (if named name entry then returnList ++ [entry_value entry] else returnList)
  end.

Definition formdata_getAll (name : str) (fd : FormData) : list FormDataEntryValue := getAll_loop (USVString name) fd [].

Fixpoint has_loop (name : str) (fd : FormData) : bool :=
  match fd with
  | [] => false
  | entry :: fd => if named name entry then true else has_loop name fd
  end.

Definition formdata_has (name : str) (fd : FormData) : bool := has_loop (USVString name) fd.

Fixpoint replace_loop (fuel : nat) (name : str) (entry : FormDataEntry) (added : bool) (i : nat) (fd : FormData) : FormData * bool :=
  match fuel, fd !! i with
  | S fuel, Some e =>
      if named name e then
        if negb added then replace_loop fuel name entry true (S i) (<[i := entry]> fd)
        else replace_loop fuel name entry added i (delete i fd)
      else replace_loop fuel name entry added (S i) fd
  | _, _ => (fd, added)
  end.

Definition formdata_set (name : str) (value : FormArg) (filename : option str) (now : Z) (fd : FormData) : io Url FormData :=
  let! entry := convert_entry name value filename now in
  let (fd, added) := replace_loop (length fd) (USVString name) entry false 0 fd in
  io_ret (if negb added then fd ++ [entry] else fd).

(** ** Iteration

    An iterator keeps an index and looks at the list each time. *)

Definition pair_next (target : FormData) (index : nat) : option (str * FormDataEntryValue) * nat :=
  match target !! index with
  | None => (None, index)
  | Some entry => (Some (entry_name entry, entry_value entry), S index)
  end.

(** [for (const pair of target)], the list staying as it is. *)
Fixpoint for_of {A} (fuel : nat) (target : FormData) (index : nat) (body : str * FormDataEntryValue -> A -> A) (a : A) : A :=
  match fuel with
  | O => a
  | S fuel =>
      match pair_next target index with
      | (None, _) => a
      | (Some x, index) => for_of fuel target index body (body x a)
      end
  end.

(** ** Serializing *)

(** Replacing [/\r?\n|\r/g] by a line break. *)
Fixpoint replace_breaks (s : str) : str :=
  match s with
  | [] => []
  | c :: s' =>
      if c =? CR then
        CRLF ++ match s' with d :: s'' => if d =? LF then replace_breaks s'' else replace_breaks s' | [] => [] end
      else if c =? LF then CRLF ++ replace_breaks s'
      else c :: replace_breaks s'
  end.

Definition ESCAPE_MAP (c : Z) : str :=
  if c =? LF then lit "%0A" else if c =? CR then lit "%0D" else if c =? QUOTE then lit "%22" else [c].

Definition escape (s : str) (isFilename : bool) : str :=
  flat_map ESCAPE_MAP (if isFilename then s else replace_breaks s).

(** Replacing [/\r(?!\n)|(?<!\r)\n/g] by a line break; [prev] is the unit before. *)
Fixpoint serialize_breaks (prev : option Z) (s : str) : str :=
  match s with
  | [] => []
  | c :: s' =>
      (if ((c =? CR) && negb (code_is (s' !! 0%nat) LF)) || ((c =? LF) && negb (code_is prev CR)) then CRLF else [c])
      ++ serialize_breaks (Some c) s'
  end.

(** The texts of the two random numbers are arguments. *)
Definition random_boundary (random1 random2 : str) : str :=
  padStart (sliceFrom (filter (fun c => c <> 46) (random1 ++ random2)) (-28)) 32 45.

Definition octet_stream : str := lit "application/octet-stream".

Definition entry_chunks (prefix : str) (x : str * FormDataEntryValue) : list BlobInit :=
  let (name, value) := x in
  match value with
  | FString value =>
      [IString (prefix ++ escape name false ++ [QUOTE] ++ CRLF ++ CRLF ++ serialize_breaks None value ++ CRLF)]
  | FFile value =>
      [IString (prefix ++ escape name false ++ [QUOTE] ++ lit "; filename=" ++ [QUOTE] ++ escape (file_name value) true ++ [QUOTE] ++ CRLF ++
         lit "Content-Type: " ++ (if bool_decide (blob_type (file_blob value) = []) then octet_stream else blob_type (file_blob value)) ++
         CRLF ++ CRLF);
       IBlob (file_blob value); IString CRLF]
  end.

Definition formDataToBlob (random1 random2 : str) (fd : FormData) : io Url Blob :=
  let boundary := random_boundary random1 random2 in
  let prefix := lit "--" ++ boundary ++ CRLF ++ lit "Content-Disposition: form-data; name=" ++ [QUOTE] in
  let chunks := for_of (S (length fd)) fd 0 (fun x chunks => chunks ++ entry_chunks prefix x) [] in
  let chunks := chunks ++ [IString (lit "--" ++ boundary ++ lit "--")] in
  blob_new toLowerCase encode chunks false (lit "multipart/form-data; boundary=" ++ boundary).

(** ** Parsing headers *)

(** Replacing a string in double quotes, with none inside, by what is between. *)
Definition unquote (s : str) : str :=
  match s with
  | q :: s' =>
      match rev s' with
      | q' :: mid => if (q =? QUOTE) && (q' =? QUOTE) && forallb (fun c => negb (c =? QUOTE)) mid then rev mid else s
      | [] => s
      end
  | [] => s
  end.

Fixpoint disposition_loop (values : list str) (params : list (str * str)) : list (str * str) :=
  match values with
  | [] => params
  | value :: values =>
      disposition_loop values
        (match split_on (fun c => c =? EQUALS) (js_trim value) with
         | k :: v :: _ => map_set k (unquote v) params
         | _ => params
         end)
  end.

Definition parseContentDisposition (value : str) : list (str * str) :=
  disposition_loop (drop 1 (split_on (fun c => c =? SEMICOLON) value)) [].

Definition decodeLatin1StringAsUtf8 (latin1String : str) : str := decode (map (fun c => c mod 256) latin1String).

Fixpoint set_headers (rawHeaders : list str) : call unit := fun s =>
  match rawHeaders with
  | [] => (s, Ok tt)
  | rawHeader :: rawHeaders =>
      let sepIndex := indexOf rawHeader 58 in
      if sepIndex <? 0 then set_headers rawHeaders s
      else
        match headers_set toLowerCase inherited (slice rawHeader 0 sepIndex) (sliceFrom rawHeader (sepIndex + 1)) s with
        | (s, Ok _) => set_headers rawHeaders s
        | (s, Throw e) => (s, Throw e)
        end
  end.

(** The method [#parseHeaders]. *)
Definition parseHeaders (headersText : str) (c : name_cache) : (name_cache * Headers) * jsres (list (str * str)) :=
  match headers_new toLowerCase inherited None c with
  | (s, Throw e) => (s, Throw e)
  | (s, Ok _) =>
      match set_headers (split_crlf headersText) s with
      | (s, Throw e) => (s, Throw e)
      | (s, Ok _) =>
          match headers_get toLowerCase inherited (lit "Content-Disposition") s with
          | (s, Throw e) => (s, Throw e)
          | (s, Ok v) => (s, Ok (parseContentDisposition (default [] v)))
          end
      end
  end.

(** ** Parsing bodies *)

Record MultipartParser := mkParser { boundary : str; body : list Z; boundaryChars : list Z }.

Definition no_boundary : js_error := JsTypeError "multipart/form-data must provide a boundary".

Definition parser_new (body : list Z) (boundary : option str) : jsres MultipartParser :=
  match boundary with
  | None | Some [] => Throw no_boundary
  | Some boundary => Ok (mkParser (lit "--" ++ boundary) body (encode (lit "--" ++ boundary)))
  end.

(** The local variables of [parse]. *)
Record parse_state := mkState {
  formData : FormData;
  headerText : str;
  boundaryIndex : Z;
  state : Z;
  fileStart : Z;
}.

(** A call that changes the cache and the store. *)
Definition M (A : Type) : Type := name_cache * BlobStore Url -> (name_cache * BlobStore Url) * jsres A.
Definition m_ret {A} (a : A) : M A := fun w => (w, Ok a).
Definition m_throw {A} (e : js_error) : M A := fun w => (w, Throw e).
Definition m_bind {A B} (m : M A) (k : A -> M B) : M B := fun w =>
  match m w with
  | (w, Ok a) => k a w
  | (w, Throw e) => (w, Throw e)
  end.
Definition m_io {A} (m : io Url A) : M A := fun w => let (st, r) := m w.2 in ((w.1, st), r).
Definition m_of {A} (r : jsres A) : M A := fun w => (w, r).
(** A call on a fresh [Headers] object, which is returned. *)
Definition m_headers {A} (m : name_cache -> (name_cache * Headers) * jsres A) : M (Headers * A) := fun w =>
  let '((c, h), r) := m w.1 in ((c, w.2), let? a := r in Ok (h, a)).

(** A string that is missing or empty counts as false. *)
Definition truthy (s : option str) : option str := match s with Some [] => None | _ => s end.

(** A boundary has been read: the part between [fileStart] and [end_] is added. *)
Definition add_part (p : MultipartParser) (clock : Z -> Z) (i end_ : Z) (s : parse_state) : M parse_state :=
  m_bind (m_headers (parseHeaders (headerText s))) (fun '(headers, disposition) =>
  let content := slice (body p) (fileStart s) end_ in
  let latin1Filename := map_get (lit "filename") disposition in
  let latin1Name := map_get (lit "name") disposition in
  let s := mkState (formData s) [] 0 3 (fileStart s) in
  match truthy latin1Name with
  | None => m_ret s
  | Some latin1Name =>
      let name := decodeLatin1StringAsUtf8 latin1Name in
      m_bind
        (match truthy latin1Filename with
         | Some latin1Filename =>
             m_bind (m_headers (fun c => headers_get toLowerCase inherited (lit "Content-Type") (c, headers))) (fun '(_, t) =>
             m_bind (m_io (blob_new toLowerCase encode [ITypedArray content 0 (slen content)] false (default octet_stream (truthy t)))) (fun blob =>
             m_io (formdata_append name (ABlob blob) (Some (decodeLatin1StringAsUtf8 latin1Filename)) (clock i) (formData s))))
         | None => m_io (formdata_append name (AString (decode content)) None (clock i) (formData s))
         end) (fun fd =>
      m_ret (mkState fd (headerText s) (boundaryIndex s) (state s) (fileStart s)))
  end).

(** One round of the loop, at an index in range. *)
Definition parse_step (p : MultipartParser) (clock : Z -> Z) (i : Z) (s : parse_state) : M parse_state :=
  let byte := default 0 (charCodeAt (body p) i) in
  let prevByte := charCodeAt (body p) (i - 1) in
  let isNewLine := (byte =? LF) && code_is prevByte CR in
  let s := if state s =? 1 then mkState (formData s) (headerText s ++ [byte]) (boundaryIndex s) (state s) (fileStart s) else s in
  if (state s =? 0) && isNewLine then m_ret (mkState (formData s) (headerText s) (boundaryIndex s) 1 (fileStart s))
  else if state s =? 1 then
    if isNewLine && code_is (charCodeAt (body p) (i + 1)) CR && code_is (charCodeAt (body p) (i + 2)) LF
    then m_ret (mkState (formData s) (headerText s) (boundaryIndex s) 2 (i + 3))
    else m_ret s
  else if state s =? 2 then
    let index := if negb (code_is (charCodeAt (boundaryChars p) (boundaryIndex s)) byte) then 0 else boundaryIndex s + 1 in
    let s := mkState (formData s) (headerText s) index (state s) (fileStart s) in
    if slen (boundary p) <=? index then add_part p clock i (i - index - 1) s else m_ret s
  else if (state s =? 3) && isNewLine then m_ret (mkState (formData s) (headerText s) (boundaryIndex s) 1 (fileStart s))
  else m_ret s.

Fixpoint parse_loop (p : MultipartParser) (clock : Z -> Z) (n : nat) (i : Z) (s : parse_state) : M parse_state :=
  match n with
  | O => m_ret s
  | S n => m_bind (parse_step p clock i s) (fun s => parse_loop p clock n (i + 1) s)
  end.

Definition unable : js_error := JsTypeError "Unable to parse body as form data.".

Definition parse (p : MultipartParser) (clock : Z -> Z) : M FormData :=
  if slen (body p) <? slen (boundary p) * 2 + 4 then
    let decodedBody := decode (body p) in
    let lastBoundary := boundary p ++ lit "--" in
    if str_eqb decodedBody lastBoundary || str_eqb decodedBody (lastBoundary ++ CRLF) then m_ret formdata_new
    else m_throw unable
  else
    m_bind (parse_loop p clock (length (body p)) 0 (mkState formdata_new [] 0 0 0)) (fun s => m_ret (formData s)).

Definition parseFormData (body : list Z) (boundary : option str) (clock : Z -> Z) : M FormData :=
  m_bind (m_of (parser_new body boundary)) (fun parser => parse parser clock).

Definition formDataFromEntries (entries : list FormDataEntry) : FormData := entries.

(** ** The body of a request or response as form data *)

Definition package_form_data (parseUrlEncoded : list Z -> list (str * str)) (bytes : list Z) (mimeType : option MimeType)
    (clock : Z -> Z) : M FormData :=
  match mimeType with
  | Some mimeType =>
      if str_eqb (essence mimeType) (lit "multipart/form-data") then
        parseFormData bytes (map_get (lit "boundary") (parameters mimeType)) clock
      else if str_eqb (essence mimeType) (lit "application/x-www-form-urlencoded") then
        m_ret (formDataFromEntries (map (fun x => mkEntry x.1 (FString x.2)) (parseUrlEncoded bytes)))
      else m_throw (JsTypeError "Body can not be decoded as form data")
  | None => m_throw (JsTypeError "Missing content type")
  end.
End FormData.

(** ** Examples *)

Section Examples.
Let low := map ascii_lower.
Let id_encode (s : str) : list Z := s.
Let id_decode (s : list Z) : str := s.

(** Serializing and parsing again: the names, strings, file names, types and bytes. *)
Definition resend (fd : FormData) (w : name_cache * BlobStore str) : jsres (list (str * (str + (str * str * jsres (list Z))))) :=
  (m_bind (m_io (formDataToBlob low id_encode (lit "0.125") (lit "0.5") fd)) (fun b =>
   m_bind (m_io (arrayBuffer b)) (fun bytes =>
   m_bind (m_of (parseMimeType low (blob_type b))) (fun m =>
   m_bind (package_form_data low (fun _ => false) id_encode id_decode (fun _ => []) bytes m (fun i => i)) (fun fd w =>
   (w, Ok (map (fun e => (entry_name e, match entry_value e with
     | FString s => inl s
     | FFile f => inr (file_name f, blob_type (file_blob f), (arrayBuffer (file_blob f) w.2).2)
     end)) fd)))))) w).2.

Let with_file : BlobStore str := mkStore {[0 := InMemoryBlobPart (lit "hello")]} ∅ 1.
Let file (name : str) : File := mkFile (mkBlob (lit "text/plain") 5 [inl (mkRef 0 5)]) name 0.
Let send (fd : FormData) := resend fd (empty_cache, with_file).

Example resend_entries :
  send [mkEntry (lit "a") (FString (lit "x" ++ [LF] ++ lit "y")); mkEntry (lit "f") (FFile (file (lit "h.txt"))); mkEntry (lit "b") (FString [])] =
  Ok [(lit "a", inl (lit "x" ++ CRLF ++ lit "y")); (lit "f", inr (lit "h.txt", lit "text/plain", Ok (lit "hello"))); (lit "b", inl [])].
Proof. by vm_compute. Qed.

Example resend_empty : send [] = Ok [].
Proof. by vm_compute. Qed.

(** A semicolon in the name of a field ends the parameter although it is quoted:
    what follows is read as parameters, and a string becomes a file. *)
Lemma name_injects_filename :
  send [mkEntry (lit "a; filename=b") (FString (lit "x"))] =
  Ok [([QUOTE] ++ lit "a", inr (lit "b" ++ [QUOTE], octet_stream, Ok (lit "x")))].
Proof. by vm_compute. Qed.

(** An equals sign cuts the name short. *)
Lemma name_cut_at_equals : send [mkEntry (lit "a=b") (FString (lit "x"))] = Ok [([QUOTE] ++ lit "a", inl (lit "x"))].
Proof. by vm_compute. Qed.

(** Entries whose name is empty are lost, and files with an empty name come back
    as strings. *)
Lemma empty_names_lost :
  send [mkEntry [] (FString (lit "x")); mkEntry (lit "f") (FFile (file []))] = Ok [(lit "f", inl (lit "hello"))].
Proof. by vm_compute. Qed.

(** What the serializer escapes is not unescaped. *)
Lemma quotes_stay_escaped : send [mkEntry ([QUOTE] ++ lit "a") (FString (lit "x"))] = Ok [(lit "%22a", inl (lit "x"))].
Proof. by vm_compute. Qed.

(** A NUL in a name makes the parser throw. *)
Lemma nul_in_name_throws : send [mkEntry [97; 0] (FString (lit "x"))] = Throw invalid_value.
Proof. by vm_compute. Qed.

(** A boundary is compared byte by byte as UTF-8, but its length is counted in
    code units: with U+00E9 in it the last byte of a boundary is not looked at. *)
Lemma long_boundary_cut :
  let enc (s : str) := flat_map (fun c => if c <? 128 then [c] else [195; 169]) s in
  let line (s : str) := s ++ CRLF in
  let part (v : str) := line (enc (lit "--" ++ [233])) ++ line (lit "Content-Disposition: form-data; name=a") ++ CRLF ++ v in
  (parseFormData (Url := str) low (fun _ => false) enc id_decode (part (lit "xyz" ++ CRLF ++ lit "--" ++ [195; 0]) ++ lit "--") (Some [233]) (fun i => i)
    (empty_cache, empty_store)).2 = Ok [mkEntry (lit "a") (FString (lit "xyz"))].
Proof. by vm_compute. Qed.
End Examples.
