(* ===== verification/FormDataProps.v ===== *)
(** * Form data: properties of the operations

    The loops over the entry list as list operations; well-formed strings and what
    the serializer does to them; what is asked of the UTF-8 coder; and the headers
    of a part, as they are written and as they are read. *)

From Stdlib Require Import ZArith Lia.
From stdpp Require Import base list gmap numbers option strings.
From S2P Require Import Prelude JsNumber Infra Mime Headers HeadersTheorems Blob BlobTheorems FormData.

#[local] Open Scope Z_scope.

(** ** Lists of entries *)

Section Lists.
Implicit Types fd : FormData.

(** The entries of other names, and the values of a name. *)
Definition others (name : str) (fd : FormData) : FormData := filter (fun e => entry_name e <> name) fd.
Definition values_of (name : str) (fd : FormData) : list FormDataEntryValue := map entry_value (filter (fun e => entry_name e = name) fd).

Lemma named_eq name e : named name e = bool_decide (entry_name e = name).
Proof. done. Qed.

Lemma others_cons name e fd : others name (e :: fd) = if named name e then others name fd else e :: others name fd.
Proof. unfold others. rewrite filter_cons, named_eq. repeat case_decide; repeat case_bool_decide; simplify_eq; done. Qed.

Lemma values_cons name e fd : values_of name (e :: fd) = if named name e then entry_value e :: values_of name fd else values_of name fd.
Proof. unfold values_of. rewrite filter_cons, named_eq. unfold bool_decide; repeat case_decide; done. Qed.

Lemma delete_loop_spec name rest : forall pre, delete_loop (length rest) name (length pre) (pre ++ rest) = pre ++ others name rest.
Proof.
  induction rest as [|e rest IH]; intros pre; [simpl; unfold others; by rewrite filter_nil, !app_nil_r|]. cbn [delete_loop length]. rewrite list_lookup_middle by done.
  rewrite others_cons. destruct (named name e) eqn:En.
  - by rewrite delete_middle, IH.
  - specialize (IH (pre ++ [e])). rewrite length_app, Nat.add_comm, <-!app_assoc in IH. exact IH.
Qed.

Lemma getAll_loop_spec name fd : forall acc, getAll_loop name fd acc = acc ++ values_of name fd.
Proof.
  induction fd as [|e fd IH]; intros acc; simpl; [by rewrite app_nil_r|]. rewrite IH, values_cons.
  destruct (named name e); [by rewrite <-app_assoc|done].
Qed.

Lemma get_loop_spec name fd : get_loop name fd = head (values_of name fd).
Proof. induction fd as [|e fd IH]; [done|]. simpl. rewrite values_cons. by destruct (named name e). Qed.

Lemma has_loop_spec name fd : has_loop name fd = true <-> values_of name fd <> [].
Proof. induction fd as [|e fd IH]; [done|]. simpl. rewrite values_cons. by destruct (named name e). Qed.

(** The first entry of the name is replaced, the others are removed. *)
Fixpoint replaced (name : str) (entry : FormDataEntry) (fd : FormData) : FormData :=
  match fd with
  | [] => [entry]
  | e :: fd => if named name e then entry :: others name fd else e :: replaced name entry fd
  end.

Lemma replace_rest name entry rest : forall pre,
  replace_loop (length rest) name entry true (length pre) (pre ++ rest) = (pre ++ others name rest, true).
Proof.
  induction rest as [|e rest IH]; intros pre; [simpl; unfold others; by rewrite filter_nil, !app_nil_r|]. cbn [replace_loop length]. rewrite list_lookup_middle by done.
  rewrite others_cons. destruct (named name e) eqn:En.
  - simpl negb. cbv iota. by rewrite delete_middle, IH.
  - specialize (IH (pre ++ [e])). rewrite length_app, Nat.add_comm, <-!app_assoc in IH. exact IH.
Qed.

Lemma replace_loop_spec name entry rest : forall pre, let (fd, added) := replace_loop (length rest) name entry false (length pre) (pre ++ rest) in
  (if negb added then fd ++ [entry] else fd) = pre ++ replaced name entry rest.
Proof.
  induction rest as [|e rest IH]; intros pre; [simpl; by rewrite app_nil_r|]. cbn [replace_loop length replaced]. rewrite list_lookup_middle by done.
  destruct (named name e) eqn:En.
  - simpl negb. cbv iota. rewrite insert_app_r_alt, Nat.sub_diag by lia. simpl insert.
    pose proof (replace_rest name entry rest (pre ++ [entry])) as E. rewrite length_app, Nat.add_comm, <-!app_assoc in E.
    change (list_insert 0%nat entry (e :: rest)) with (entry :: rest). change (length [entry] + length pre)%nat with (S (length pre)) in E. simpl app in E. by rewrite E.
  - specialize (IH (pre ++ [e])). rewrite length_app, Nat.add_comm, <-!app_assoc in IH. exact IH.
Qed.

Lemma values_replaced name entry n fd : entry_name entry = name ->
  values_of n (replaced name entry fd) = if bool_decide (n = name) then [entry_value entry] else values_of n fd.
Proof.
  intros En. assert (Ho : forall l, values_of n (others name l) = if bool_decide (n = name) then [] else values_of n l).
  { induction l as [|e l IH]; [by case_bool_decide|]. rewrite others_cons, (values_cons n e l), !named_eq.
    repeat case_bool_decide; subst; try done; try (rewrite values_cons, named_eq); repeat case_bool_decide; subst; try done; by rewrite IH. }
  induction fd as [|e fd IH]; cbn [replaced].
  - rewrite values_cons, named_eq, En. repeat case_bool_decide; subst; done.
  - rewrite (values_cons n e fd), !named_eq. destruct (decide (entry_name e = name)) as [E1|E1].
    + rewrite (bool_decide_true (entry_name e = name)) by done. rewrite values_cons, named_eq, Ho. repeat case_bool_decide; subst; try done; congruence.
    + rewrite (bool_decide_false (entry_name e = name)) by done. rewrite values_cons, named_eq, IH. repeat case_bool_decide; subst; done.
Qed.
End Lists.

(** ** Well-formed strings *)

Definition well_formed (s : str) : Prop := toWellFormed s = s /\ Forall (fun c => 0 <= c < 65536) s.

Lemma well_formed_app_r s t : toWellFormed s = s -> toWellFormed (s ++ t) = s ++ toWellFormed t.
Proof.
  revert s. fix IH 1. intros [|c s]; [done|]. cbn [toWellFormed app]. destruct (high_surrogate c) eqn:Eh.
  - destruct s as [|d s]; [intros [= <-]; by vm_compute in Eh|]. cbn [app]. destruct (low_surrogate d) eqn:El.
    + intros [= E]. by rewrite (IH s E).
    + intros [= <- _]. by vm_compute in Eh.
  - destruct (low_surrogate c) eqn:El; [intros [= <- _]; by vm_compute in El|]. intros [= E]. by rewrite (IH s E).
Qed.

Lemma well_formed_app s t : well_formed s -> well_formed t -> well_formed (s ++ t).
Proof. intros [H1 H2] [H3 H4]. split; [by rewrite well_formed_app_r, H3|by apply Forall_app]. Qed.

(** For literals. *)
Lemma ascii_check s : forallb (fun c => (0 <=? c) && (c <? 128)) s = true -> Forall is_ascii s.
Proof. rewrite forallb_forall. intros H. apply Forall_forall. intros c Hc. apply list_elem_of_In, H in Hc. unfold is_ascii. reflect_bools. lia. Qed.

(** Strings without surrogates. *)
Lemma well_formed_plain s : Forall (fun c => 0 <= c < 55296) s -> well_formed s.
Proof.
  intros H. split; [|eapply Forall_impl; [exact H|]; intros; simpl in *; lia].
  induction H as [|c s Hc _ IH]; [done|]. cbn [toWellFormed]. unfold high_surrogate, low_surrogate. zbool. by rewrite IH.
Qed.

Lemma well_formed_ascii s : Forall is_ascii s -> well_formed s.
Proof. intros H. apply well_formed_plain. eapply Forall_impl; [exact H|]. unfold is_ascii. intros; simpl in *; lia. Qed.

(** Replacing single ASCII units by ASCII strings keeps strings well-formed. *)
Lemma well_formed_flat_map f s : (forall c, is_ascii c -> Forall is_ascii (f c)) -> (forall c, 128 <= c -> f c = [c]) ->
  well_formed s -> well_formed (flat_map f s).
Proof.
  intros Ha Hn [H1 H2]. revert s H1 H2. fix IH 1. intros [|c s] H1 H2; [done|]. cbn [toWellFormed] in H1. apply Forall_cons in H2 as [Hc H2].
  destruct (high_surrogate c) eqn:Eh.
  - destruct s as [|d s]; [injection H1 as <-; by vm_compute in Eh|]. destruct (low_surrogate d) eqn:El; [|injection H1 as <- _; by vm_compute in Eh].
    injection H1 as H1. apply Forall_cons in H2 as [Hd H2].
    assert (Eh' := Eh). assert (El' := El). unfold high_surrogate in Eh'. unfold low_surrogate in El'. reflect_bools.
    cbn [flat_map]. rewrite (Hn c), (Hn d) by lia. specialize (IH s H1 H2). rewrite !app_assoc. apply well_formed_app; [|exact IH].
    split; [cbn [toWellFormed app]; by rewrite Eh, El|]. by repeat (apply Forall_cons_2; [done|]).
  - destruct (low_surrogate c) eqn:El; [injection H1 as <- _; by vm_compute in El|]. injection H1 as H1. specialize (IH s H1 H2).
    cbn [flat_map]. apply well_formed_app; [|exact IH]. destruct (decide (c < 128)); [apply well_formed_ascii, Ha; unfold is_ascii; lia|].
    rewrite (Hn c) by lia. split; [cbn [toWellFormed]; by rewrite Eh, El|]. by repeat (apply Forall_cons_2; [done|]).
Qed.

(** ** Line breaks and escapes *)

(** The two patterns for line breaks replace the same. *)
Lemma breaks_agree s : forall prev, code_is prev CR = false -> serialize_breaks prev s = replace_breaks s.
Proof.
  revert s. fix IH 1. intros [|c s] prev Hp; [done|]. pose proof (IH s) as IHs. cbn [serialize_breaks replace_breaks]. rewrite Hp.
  destruct (c =? CR) eqn:Ec; [reflect_bools; subst c|].
  - destruct s as [|d s]; [done|]. change (code_is ((d :: s) !! 0%nat) LF) with (d =? LF). destruct (d =? LF) eqn:Ed; reflect_bools.
    + subst d. cbn [negb andb orb serialize_breaks app]. by rewrite (IH s).
    + cbn [negb andb orb]. f_equal. rewrite <-(IHs None) by done. cbn [serialize_breaks]. by rewrite (proj2 (Z.eqb_neq d LF)) by lia.
  - cbn [negb andb orb]. rewrite andb_true_r. destruct (c =? LF) eqn:El; rewrite (IH s) by done; done.
Qed.

Lemma well_formed_breaks s : well_formed s -> well_formed (replace_breaks s).
Proof.
  intros [H1 H2]. rewrite <-(breaks_agree s None) by done. generalize (@None Z). revert s H1 H2. fix IH 1. intros [|c s] H1 H2 prev; [done|].
  cbn [toWellFormed] in H1. apply Forall_cons in H2 as [Hc H2]. cbn [serialize_breaks]. destruct (high_surrogate c) eqn:Eh.
  - destruct s as [|d s]; [injection H1 as <-; by vm_compute in Eh|]. destruct (low_surrogate d) eqn:El; [|injection H1 as <- _; by vm_compute in Eh].
    injection H1 as H1. apply Forall_cons in H2 as [Hd H2]. cbn [serialize_breaks].
    assert (Eh' := Eh). assert (El' := El). unfold high_surrogate in Eh'. unfold low_surrogate in El'. unfold CR, LF. reflect_bools. zbool. cbn [andb orb].
    rewrite app_assoc. apply well_formed_app; [|exact (IH s H1 H2 (Some d))].
    split; [cbn [toWellFormed app]; by rewrite Eh, El|]. by repeat (apply Forall_cons_2; [done|]).
  - destruct (low_surrogate c) eqn:El; [injection H1 as <- _; by vm_compute in El|]. injection H1 as H1.
    apply well_formed_app; [|exact (IH s H1 H2 (Some c))]. destruct (_ || _); [by apply well_formed_ascii; repeat constructor|].
    split; [cbn [toWellFormed]; by rewrite Eh, El|]. by repeat (apply Forall_cons_2; [done|]).
Qed.

Lemma breaks_forall (P : Z -> Prop) s : P CR -> P LF -> Forall P s -> Forall P (replace_breaks s).
Proof.
  intros H1 H2. rewrite <-(breaks_agree s None) by done. generalize (@None Z). induction s as [|c s IH]; intros prev H; [done|].
  apply Forall_cons in H as [Hc H]. cbn [serialize_breaks]. apply Forall_app. split; [|by apply IH]. destruct (_ || _); by repeat constructor.
Qed.

Lemma breaks_head s : head (replace_breaks s) = head s \/ head (replace_breaks s) = Some CR.
Proof. destruct s as [|c s]; [by left|]. cbn [replace_breaks]. destruct (c =? CR); [by right|]. destruct (c =? LF); [by right|by left]. Qed.

Lemma breaks_nonempty s : s <> [] -> replace_breaks s <> [].
Proof. destruct s as [|c s]; [done|]. intros _. cbn [replace_breaks]. by repeat case_match. Qed.

(** Units that a name or a file name may have: the parser drops or rejects the
    others. *)
Definition safe_unit (c : Z) : Prop := c <> 0 /\ c <> SEMICOLON /\ c <> EQUALS.
Definition BOM : Z := 65279.

Record sendable (s : str) : Prop := {
  send_some : s <> [];
  send_formed : well_formed s;
  send_bom : head s <> Some BOM;
  send_units : Forall safe_unit s;
}.

(** What is left after escaping. *)
Definition clean_unit (c : Z) : Prop := safe_unit c /\ c <> CR /\ c <> LF /\ c <> QUOTE.
Record clean (s : str) : Prop := {
  clean_sendable : sendable s;
  clean_units : Forall clean_unit s;
}.

Lemma escape_map_clean s : sendable s -> clean (flat_map ESCAPE_MAP s).
Proof.
  intros [H1 H2 H3 H4].
  assert (HF : Forall clean_unit (flat_map ESCAPE_MAP s)).
  { clear -H4. induction H4 as [|c s Hc _ IH]; [done|]. cbn [flat_map]. apply Forall_app. split; [|done]. unfold ESCAPE_MAP.
    repeat case_match; reflect_bools; vm_compute lit; repeat (apply Forall_cons_2; [|]); try apply Forall_nil_2;
      try (unfold clean_unit, safe_unit, SEMICOLON, EQUALS, CR, LF, QUOTE; lia). done. }
  split; [|done]. split.
  - destruct s as [|c s]; [done|]. cbn [flat_map]. unfold ESCAPE_MAP at 1. by repeat case_match.
  - apply well_formed_flat_map; [| |done].
    + intros c Hc. unfold ESCAPE_MAP. repeat case_match; first [by apply ascii_check|by apply Forall_cons_2; [|apply Forall_nil_2]].
    + intros c Hc. unfold ESCAPE_MAP, LF, CR, QUOTE. by zbool.
  - destruct s as [|c s]; [done|]. cbn [flat_map]. unfold ESCAPE_MAP at 1. by repeat case_match.
  - eapply Forall_impl; [exact HF|]. by intros c [Hc _].
Qed.

Lemma escape_clean s b : sendable s -> clean (escape s b).
Proof.
  intros H. unfold escape. apply escape_map_clean. destruct b; [done|]. destruct H as [H1 H2 H3 H4]. split.
  - by apply breaks_nonempty.
  - by apply well_formed_breaks.
  - by destruct (breaks_head s) as [->| ->].
  - by apply breaks_forall.
Qed.

(** ** The coder *)

(** What is known of UTF-8, with a decoder that skips a byte order mark. *)
Class Utf8 (encode : str -> list Z) (decode : list Z -> str) : Prop := {
  utf8_ascii : forall s, Forall is_ascii s -> encode s = s;
  utf8_app : forall s t, well_formed s -> well_formed t -> encode (s ++ t) = encode s ++ encode t;
  utf8_bytes : forall s, well_formed s -> Forall (fun b => 0 <= b < 256) (encode s);
  utf8_only : forall s c, well_formed s -> is_ascii c -> c ∈ encode s -> c ∈ s;
  utf8_decode : forall s, well_formed s -> head s <> Some BOM -> decode (encode s) = s;
}.

Section Coder.
Context (encode : str -> list Z) (decode : list Z -> str) {U : Utf8 encode decode}.

(** A byte of a clean name. *)
Definition name_byte (c : Z) : Prop := 0 <= c < 256 /\ clean_unit c.

Lemma encode_clean s : clean s -> encode s <> [] /\ Forall name_byte (encode s).
Proof.
  intros [[H1 H2 H3 H4] H5]. split.
  - intros E. apply H1. assert (E0 : encode [] = []) by (by apply utf8_ascii).
    assert (E1 : decode (encode []) = []) by (apply utf8_decode; [by apply well_formed_ascii|done]).
    pose proof (utf8_decode s H2 H3) as E2. rewrite E, <-E0, E1 in E2. done.
  - apply Forall_forall. intros c Hc. pose proof (utf8_bytes s H2) as Hb. rewrite Forall_forall in Hb, H5. split; [by apply Hb|].
    assert (Ha : is_ascii c -> clean_unit c) by (intros Ha; by apply H5, utf8_only).
    unfold clean_unit, safe_unit, is_ascii, SEMICOLON, EQUALS, CR, LF, QUOTE in *. specialize (Hb c Hc). simpl in Hb. lia.
Qed.
End Coder.

(** ** The headers of a part *)

Definition quoted (s : str) : str := [QUOTE] ++ s ++ [QUOTE].

(** A parameter after its semicolon. *)
Definition param (k v : str) : str := [32] ++ k ++ [EQUALS] ++ quoted v.

(** The value of [Content-Disposition]. *)
Definition disposition (params : list (str * str)) : str :=
  lit "form-data" ++ flat_map (fun '(k, v) => [SEMICOLON] ++ param k v) params.

Lemma unquote_quoted s : Forall (fun c => c <> QUOTE) s -> unquote (quoted s) = s.
Proof.
  intros H. unfold unquote, quoted. cbn [app]. rewrite rev_app_distr. cbn [rev app]. rewrite rev_involutive.
  replace (forallb (fun c => negb (c =? QUOTE)) (rev s)) with true; [done|]. symmetry. apply forallb_forall. intros c Hc.
  apply in_rev in Hc. rewrite Forall_forall in H. apply list_elem_of_In, H in Hc. apply negb_true_iff, Z.eqb_neq. done.
Qed.

(** A parameter name: letters. *)
Definition letters (s : str) : Prop := s <> [] /\ Forall (fun c => in_class ASCII_LOWER_ALPHA c = true) s.

Lemma lower_not c : in_class ASCII_LOWER_ALPHA c = true -> 97 <= c <= 122.
Proof. unfold in_class, ASCII_LOWER_ALPHA. simpl. rewrite orb_false_r. intros H. reflect_bools. lia. Qed.

Lemma trim_param k v : letters k -> js_trim (param k v) = k ++ [EQUALS] ++ quoted v.
Proof.
  intros [Hk HF]. unfold js_trim, param. change (strip_prefix JS_SPACE ([32] ++ k ++ [EQUALS] ++ quoted v)) with (strip_prefix JS_SPACE (k ++ [EQUALS] ++ quoted v)).
  rewrite strip_prefix_id.
  - apply strip_suffix_id. unfold quoted. rewrite !app_assoc, rev_app_distr. done.
  - destruct k as [|c k]; [done|]. apply Forall_cons in HF as [Hc _]. apply lower_not in Hc. cbn [app]. unfold in_class, JS_SPACE. cbn [existsb fst snd]. by zbool.
Qed.

Lemma split_param k v : letters k -> Forall clean_unit v -> split_on (fun c => c =? EQUALS) (js_trim (param k v)) = [k; quoted v].
Proof.
  intros Hk Hv. rewrite trim_param by done. cbn [app]. rewrite split_on_app_sep; [|done|].
  - rewrite split_on_nosep; [done|]. unfold quoted. apply Forall_app. split; [by constructor|]. apply Forall_app. split; [|by constructor].
    eapply Forall_impl; [exact Hv|]. intros c Hc. apply Z.eqb_neq. apply Hc.
  - destruct Hk as [_ HF]. eapply Forall_impl; [exact HF|]. intros c Hc. apply lower_not in Hc. unfold EQUALS. simpl. by zbool.
Qed.

Lemma disposition_loop_spec ps : forall acc, Forall (fun '(k, v) => letters k /\ Forall clean_unit v) ps ->
  disposition_loop (map (fun '(k, v) => param k v) ps) acc = foldl (fun acc '(k, v) => map_set k v acc) acc ps.
Proof.
  induction ps as [|[k v] ps IH]; intros acc H; [done|]. apply Forall_cons in H as [[Hk Hv] H]. cbn [map disposition_loop foldl].
  rewrite split_param, unquote_quoted, IH; [done|done| |done|done]. eapply Forall_impl; [exact Hv|]. intros c Hc. apply Hc.
Qed.

Lemma disposition_split ps : Forall (fun '(k, v) => letters k /\ Forall clean_unit v) ps ->
  drop 1 (split_on (fun c => c =? SEMICOLON) (disposition ps)) = map (fun '(k, v) => param k v) ps.
Proof.
  intros H. unfold disposition.
  assert (E : forall a, Forall (fun c => (c =? SEMICOLON) = false) a ->
    split_on (fun c => c =? SEMICOLON) (a ++ flat_map (fun '(k, v) => [SEMICOLON] ++ param k v) ps) = a :: map (fun '(k, v) => param k v) ps).
  { induction H as [|[k v] ps [Hk Hv] _ IH]; intros a Ha; [simpl; rewrite app_nil_r; by apply split_on_nosep|].
    cbn [flat_map map app]. rewrite split_on_app_sep by done. f_equal. apply IH. unfold param, quoted.
    destruct Hk as [_ Hk]. repeat (apply Forall_app; split); try (by constructor).
    - eapply Forall_impl; [exact Hk|]. intros c Hc. apply lower_not in Hc. unfold SEMICOLON. simpl. by zbool.
    - eapply Forall_impl; [exact Hv|]. intros c Hc. apply Z.eqb_neq. apply Hc. }
  rewrite E; [done|]. by repeat constructor.
Qed.

Lemma parse_disposition ps : Forall (fun '(k, v) => letters k /\ Forall clean_unit v) ps ->
  parseContentDisposition (disposition ps) = foldl (fun acc '(k, v) => map_set k v acc) [] ps.
Proof. intros H. unfold parseContentDisposition. by rewrite disposition_split, disposition_loop_spec. Qed.

Section Headers.
Context (toLowerCase : str -> str) (inherited : str -> bool) {L : LowerCase toLowerCase}.
Hypothesis inherited_token : forall n, inherited n = true -> token n = true.

(** A byte of a header value, and a value with no white space around it. *)
Definition value_byte (c : Z) : Prop := 0 <= c < 256 /\ c <> 0 /\ c <> CR /\ c <> LF.
Record value_ok (v : str) : Prop := {
  value_bytes : Forall value_byte v;
  value_first : match v with c :: _ => in_class HTTP_WHITESPACE c = false | [] => True end;
  value_last : match rev v with c :: _ => in_class HTTP_WHITESPACE c = false | [] => True end;
}.

Lemma value_check v : forallb (fun c => (0 <? c) && (c <? 256) && negb (c =? CR) && negb (c =? LF)) v = true -> Forall value_byte v.
Proof.
  rewrite forallb_forall. intros H. apply Forall_forall. intros c Hc. apply list_elem_of_In, H in Hc. unfold value_byte. reflect_bools. lia.
Qed.

Lemma trim_value v : value_ok v -> normalizeHeaderValue ([32] ++ v) = v.
Proof.
  intros [H1 H2 H3]. unfold normalizeHeaderValue.
  assert (E : strip_suffix HTTP_WHITESPACE (strip_prefix HTTP_WHITESPACE ([32] ++ v)) = v).
  { change (strip_prefix HTTP_WHITESPACE ([32] ++ v)) with (strip_prefix HTTP_WHITESPACE v). by rewrite strip_prefix_id, strip_suffix_id. }
  rewrite httpTrim_spec; [done|]. rewrite E. eapply Forall_impl; [exact H1|]. intros c (Hc & _ & H4 & H5). unfold line_terminator, CR, LF in *. by zbool.
Qed.

Lemma value_valid v : Forall value_byte v -> checkForInvalidValueChars v = true.
Proof.
  intros H. unfold checkForInvalidValueChars. apply negb_true_iff. destruct (existsb _ v) eqn:E; [|done]. exfalso.
  apply existsb_exists in E as (c & Hc & E). rewrite Forall_forall in H. apply list_elem_of_In, H in Hc as (_ & H1 & H2 & H3). unfold CR, LF in *.
  repeat rewrite orb_true_iff in E. rewrite !Z.eqb_eq in E. lia.
Qed.

Lemma byte_string v : Forall (fun c => 0 <= c < 256) v -> ByteString v = Ok v.
Proof.
  intros H. unfold ByteString. replace (forallb (fun c => c <=? 255) v) with true; [done|]. symmetry. apply forallb_forall. intros c Hc.
  rewrite Forall_forall in H. apply list_elem_of_In, H in Hc. apply Z.leb_le. lia.
Qed.

Lemma token_bytes s : token s = true -> Forall (fun c => 0 <= c < 256) s.
Proof.
  intros H. apply test_all_spec in H as [_ H]. eapply Forall_impl; [exact (token_ascii s H)|]. unfold is_ascii. intros; simpl in *; lia.
Qed.

Lemma set_loop_fresh key v l : Forall (fun h => same_name toLowerCase key h = false) l -> set_loop toLowerCase key v false l = (l, false).
Proof. induction 1 as [|x l Hx _ IH]; [done|]. cbn [set_loop]. by rewrite Hx, IH. Qed.

Lemma set_fresh c h key v : cache_ok c -> token key = true -> value_ok v -> guard h = none ->
  Forall (fun h => same_name toLowerCase key h = false) (headerList h) ->
  exists c', headers_set toLowerCase inherited key ([32] ++ v) (c, h) = ((c', set_list (headerList h ++ [(key, v)]) h), Ok tt) /\ cache_ok c'.
Proof.
  intros Hc Hk Hv Hg Hl. assert (Hv' := value_bytes _ Hv). unfold headers_set, with_bytes.
  rewrite (byte_string key) by (by apply token_bytes). rewrite (byte_string ([32] ++ v)).
  2:{ apply Forall_app. split; [by repeat constructor|]. eapply Forall_impl; [exact Hv'|]. by intros x [Hx _]. }
  destruct (check_name_spec inherited inherited_token c key Hc) as (c' & -> & Hc'). rewrite Hk, trim_value by done. cbn [negb].
  rewrite value_valid by done. cbn [negb]. rewrite Hg, bool_decide_false by done. rewrite set_loop_fresh by done. by exists c'.
Qed.

Lemma get_value c h key v : cache_ok c -> token key = true -> (filter (fun h => same_name toLowerCase key h = true) (headerList h)).*2 = [v] ->
  exists c', headers_get toLowerCase inherited key (c, h) = ((c', h), Ok (Some v)) /\ cache_ok c'.
Proof.
  intros Hc Hk E. unfold headers_get, with_bytes. rewrite (byte_string key) by (by apply token_bytes).
  destruct (check_name_spec inherited inherited_token c key Hc) as (c' & -> & Hc'). rewrite Hk. cbn [negb]. exists c'. split; [|done].
  unfold getHeader. by rewrite E.
Qed.

(** ** Lines *)

Lemma split_line l r : Forall (fun c => c <> CR) l -> split_crlf (l ++ CRLF ++ r) = l :: split_crlf r.
Proof.
  induction 1 as [|c l Hc Hl IH]; [done|]. cbn [app split_crlf]. rewrite IH. rewrite (proj2 (Z.eqb_neq c CR)) by done. by destruct l.
Qed.

(** A header as it is written. *)
Definition header_line (key v : str) : str := key ++ lit ": " ++ v.

Lemma indexOf_skip c s r : forall i, Forall (fun x => x <> c) s -> indexOf_from (s ++ c :: r) c i = i + slen s.
Proof.
  intros i H. revert i. induction H as [|x s Hx _ IH]; intros i; cbn [app indexOf_from].
  - rewrite Z.eqb_refl, slen_nil. lia.
  - rewrite (proj2 (Z.eqb_neq x c)) by done. rewrite IH, slen_cons. lia.
Qed.

Lemma set_line c h key v rest : cache_ok c -> token key = true -> value_ok v -> guard h = none ->
  Forall (fun h => same_name toLowerCase key h = false) (headerList h) ->
  exists c', cache_ok c' /\ set_headers toLowerCase inherited (header_line key v :: rest) (c, h) =
    set_headers toLowerCase inherited rest (c', set_list (headerList h ++ [(key, v)]) h).
Proof.
  intros Hc Hk Hv Hg Hl. destruct (set_fresh c h key v Hc Hk Hv Hg Hl) as (c' & E & Hc'). exists c'. split; [done|].
  assert (Hi : indexOf (header_line key v) 58 = slen key).
  { unfold indexOf, header_line. apply (indexOf_skip 58 key ([32] ++ v)). apply test_all_spec in Hk as [_ Hk].
    eapply Forall_impl; [exact Hk|]. intros x Hx ->. by vm_compute in Hx. }
  cbn [set_headers]. rewrite Hi, (proj2 (Z.ltb_ge _ _)) by apply slen_nonneg. unfold header_line.
  rewrite slice_prefix by (pose proof (slen_nonneg key); lia).
  change (key ++ lit ": " ++ v) with (key ++ [58] ++ [32] ++ v). rewrite app_assoc, sliceFrom_suffix; [|rewrite slen_app, slen_cons, slen_nil; lia].
  by rewrite E.
Qed.

Definition CD : str := lit "Content-Disposition".
Definition CT : str := lit "Content-Type".

Lemma cd_self v : same_name toLowerCase CD (CD, v) = true.
Proof. by apply same_name_spec. Qed.

Lemma ct_self v : same_name toLowerCase CT (CT, v) = true.
Proof. by apply same_name_spec. Qed.

Lemma ct_cd v : same_name toLowerCase CT (CD, v) = false.
Proof. unfold same_name, byteLowerCase. simpl fst. rewrite (lower_ascii CD), (lower_ascii CT) by (by apply ascii_check). by vm_compute. Qed.

Lemma cd_ct v : same_name toLowerCase CD (CT, v) = false.
Proof. unfold same_name, byteLowerCase. simpl fst. rewrite (lower_ascii CD), (lower_ascii CT) by (by apply ascii_check). by vm_compute. Qed.

Lemma disposition_ok ps : ps <> [] -> Forall (fun '(k, v) => letters k /\ Forall name_byte v) ps -> value_ok (disposition ps).
Proof.
  intros Hne H. unfold disposition. split.
  - apply Forall_app. split; [by apply value_check|]. clear Hne. induction H as [|[k v] ps [[_ Hk] Hv] _ IH]; [done|]. cbn [flat_map]. apply Forall_app. split; [|done].
    unfold param, quoted. repeat (apply Forall_app; split); try (by apply value_check).
    + eapply Forall_impl; [exact Hk|]. intros c Hc. apply lower_not in Hc. unfold value_byte, CR, LF. lia.
    + eapply Forall_impl; [exact Hv|]. intros c (Hc & H1 & H2 & H3 & H4). by destruct H1.
  - done.
  - destruct ps as [|[k v] ps _] using rev_ind; [done|]. rewrite flat_map_app. cbn [flat_map]. unfold param, quoted. rewrite app_nil_r, !app_assoc, rev_app_distr. done.
Qed.

Lemma name_letters : letters (lit "name").
Proof. split; [done|]. by repeat constructor. Qed.

Lemma filename_letters : letters (lit "filename").
Proof. split; [done|]. by repeat constructor. Qed.

Lemma name_bytes_clean v : Forall name_byte v -> Forall clean_unit v.
Proof. intros H. eapply Forall_impl; [exact H|]. by intros c [_ Hc]. Qed.

Lemma line_no_cr key v : token key = true -> Forall value_byte v -> Forall (fun c => c <> CR /\ c <> LF) (header_line key v).
Proof.
  intros Hk Hv. unfold header_line. apply Forall_app. split; [|apply Forall_app; split; [by repeat constructor|]].
  - apply test_all_spec in Hk as [_ Hk]. eapply Forall_impl; [exact Hk|]. intros x Hx. split; intros ->; by vm_compute in Hx.
  - eapply Forall_impl; [exact Hv|]. intros c Hc. apply Hc.
Qed.

Lemma split_lines ls : Forall (Forall (fun c => c <> CR /\ c <> LF)) ls -> split_crlf (flat_map (fun l => l ++ CRLF) ls) = ls ++ [[]].
Proof.
  induction 1 as [|l ls Hl _ IH]; [done|]. cbn [flat_map]. rewrite <-app_assoc, split_line, IH; [done|].
  eapply Forall_impl; [exact Hl|]. by intros c [Hc _].
Qed.

(** The headers of a string and of a file. *)
Definition string_headers (n : str) : list str := [header_line CD (disposition [(lit "name", n)])].
Definition file_headers (n f t : str) : list str :=
  [header_line CD (disposition [(lit "name", n); (lit "filename", f)]); header_line CT t].

(** What [parseHeaders] does when the lines are set one after the other. *)
Lemma parse_headers_lines c c1 ls l ps : Forall (Forall (fun c => c <> CR /\ c <> LF)) ls ->
  set_headers toLowerCase inherited (ls ++ [[]]) (c, mkHeaders [] none None) = ((c1, mkHeaders l none None), Ok tt) -> cache_ok c1 ->
  (filter (fun h => same_name toLowerCase CD h = true) l).*2 = [disposition ps] -> Forall (fun '(k, v) => letters k /\ Forall clean_unit v) ps ->
  exists c2, parseHeaders toLowerCase inherited (flat_map (fun l => l ++ CRLF) ls) c =
    ((c2, mkHeaders l none None), Ok (foldl (fun acc '(k, v) => map_set k v acc) [] ps)) /\ cache_ok c2.
Proof.
  intros Hls E Hc1 Hf Hps. unfold parseHeaders, headers_new. rewrite split_lines, E by done. cbv iota.
  destruct (get_value c1 (mkHeaders l none None) CD (disposition ps) Hc1 eq_refl Hf) as (c2 & Eg & Hc2).
  change (lit "Content-Disposition") with CD. rewrite Eg. exists c2. split; [|done]. change (default [] (Some (disposition ps))) with (disposition ps). by rewrite parse_disposition.
Qed.

Lemma parse_string_headers c n : cache_ok c -> Forall name_byte n ->
  exists c' h, parseHeaders toLowerCase inherited (flat_map (fun l => l ++ CRLF) (string_headers n)) c = ((c', h), Ok [(lit "name", n)]) /\ cache_ok c'.
Proof.
  intros Hc Hn. set (d := disposition [(lit "name", n)]).
  assert (Hv : value_ok d) by (apply disposition_ok; [done|]; repeat constructor; [apply name_letters|done]).
  destruct (set_line c (mkHeaders [] none None) CD d [[]] Hc eq_refl Hv eq_refl (Forall_nil_2 _)) as (c1 & Hc1 & E).
  destruct (parse_headers_lines c c1 (string_headers n) [(CD, d)] [(lit "name", n)]) as (c2 & E2 & Hc2); try done.
  - constructor; [apply line_no_cr; [done|apply Hv]|constructor].
  - by rewrite filter_cons_True by apply cd_self.
  - repeat constructor; [apply name_letters|by apply name_bytes_clean].
  - by eexists c2, _.
Qed.

Lemma parse_file_headers c n f t : cache_ok c -> Forall name_byte n -> Forall name_byte f -> value_ok t ->
  exists c' h, parseHeaders toLowerCase inherited (flat_map (fun l => l ++ CRLF) (file_headers n f t)) c =
    ((c', h), Ok [(lit "name", n); (lit "filename", f)]) /\ cache_ok c' /\
    exists c2, headers_get toLowerCase inherited CT (c', h) = ((c2, h), Ok (Some t)) /\ cache_ok c2.
Proof.
  intros Hc Hn Hf Ht. set (ps := [(lit "name", n); (lit "filename", f)]). set (d := disposition ps).
  assert (Hps : Forall (fun '(k, v) => letters k /\ Forall name_byte v) ps).
  { repeat constructor; [apply name_letters|done|apply filename_letters|done]. }
  assert (Hv : value_ok d) by by apply disposition_ok.
  destruct (set_line c (mkHeaders [] none None) CD d [header_line CT t; []] Hc eq_refl Hv eq_refl (Forall_nil_2 _)) as (c1 & Hc1 & E1).
  destruct (set_line c1 (mkHeaders [(CD, d)] none None) CT t [[]] Hc1 eq_refl Ht eq_refl) as (c2 & Hc2 & E2).
  { constructor; [apply ct_cd|constructor]. }
  destruct (parse_headers_lines c c2 (file_headers n f t) [(CD, d); (CT, t)] ps) as (c3 & E3 & Hc3).
  - constructor; [apply line_no_cr; [done|apply Hv]|]. constructor; [apply line_no_cr; [done|apply Ht]|constructor].
  - etransitivity; [exact E1|exact E2].
  - done.
  - rewrite filter_cons_True by apply cd_self. by rewrite filter_cons_False by (by rewrite cd_ct).
  - eapply Forall_impl; [exact Hps|]. intros [k v] [Hk Hb]. split; [done|by apply name_bytes_clean].
  - eexists c3, _. split; [exact E3|]. split; [done|]. apply get_value; [done|done|].
    cbn [headerList]. rewrite filter_cons_False by (by rewrite ct_cd). by rewrite filter_cons_True by apply ct_self.
Qed.
End Headers.
