(* ===== verification/FormDataParse.v ===== *)
(** * Form data: the parser

    What the loop of [MultipartParser.parse] does on the segments of a body: a line
    that is skipped, the headers of a part, its content, and the boundary. *)

From Stdlib Require Import ZArith Lia.
From stdpp Require Import base list gmap numbers option strings.
From S2P Require Import Prelude JsNumber Infra Mime Headers HeadersTheorems Blob BlobTheorems FormData FormDataProps.

#[local] Open Scope Z_scope.

(** [d] is somewhere in [s]. *)
Definition occurs (d s : list Z) : Prop := exists a b, s = a ++ d ++ b.

Lemma occurs_tail d s t : occurs d t -> occurs d (s ++ t).
Proof. intros (a & b & ->). exists (s ++ a), b. by rewrite <-app_assoc. Qed.

(** A boundary has none of the line break's units. *)
Lemma occurs_split d a x b : x ∉ d -> d <> [] -> occurs d (a ++ x :: b) -> occurs d a \/ occurs d b.
Proof.
  intros Hx Hd (u & v & E). revert a E. induction u as [|y u IH]; intros a E; cbn [app] in E.
  - destruct (decide (length d <= length a)%nat) as [Hl|Hl].
    + left. exists [], (drop (length d) a). cbn [app]. apply (f_equal (take (length d))) in E. rewrite take_app_le, take_app_length in E by lia.
      rewrite <-E at 1. by rewrite take_drop.
    + exfalso. apply Hx. apply (f_equal (fun l => l !! length a)) in E. rewrite list_lookup_middle in E by done.
      rewrite lookup_app_l in E by lia. by eapply list_elem_of_lookup_2.
  - destruct a as [|z a]; cbn [app] in E.
    + right. injection E as _ E. exists u, v. done.
    + injection E as <- E. destruct (IH a E) as [H|H]; [left|by right]. destruct H as (u' & v' & ->). exists (z :: u'), v'. done.
Qed.

Section Parse.
Context {Url : Type} `{Countable Url}.
Context (toLowerCase : str -> str) (inherited : str -> bool) (encode : str -> list Z) (decode : list Z -> str).
Context (p : MultipartParser) (clock : Z -> Z).
Implicit Types w : name_cache * BlobStore Url.

#[local] Abbreviation step := (parse_step (Url := Url) toLowerCase inherited encode decode p clock).
#[local] Abbreviation loop := (parse_loop (Url := Url) toLowerCase inherited encode decode p clock).

Lemma loop_cons i n s s1 w w1 r : step i s w = (w1, Ok s1) -> loop n (i + 1) s1 w1 = r -> loop (S n) i s w = r.
Proof. intros E <-. cbn [parse_loop]. unfold m_bind. by rewrite E. Qed.

Lemma loop_app a b i s w w1 s1 : loop a i s w = (w1, Ok s1) -> loop (a + b) i s w = loop b (i + Z.of_nat a) s1 w1.
Proof.
  revert i s w. induction a as [|a IH]; intros i s w E.
  - cbn [parse_loop] in E. injection E as <- <-. by rewrite Z.add_0_r.
  - cbn [parse_loop Nat.add] in *. unfold m_bind in *. destruct (step i s w) as [w2 [s2|e]]; [|done]. rewrite (IH _ _ _ E). f_equal. lia.
Qed.

(** Going on after a segment. *)
Lemma loop_seg (pre seg : list Z) n s w w1 s1 r : loop (length seg) (slen pre) s w = (w1, Ok s1) -> loop n (slen (pre ++ seg)) s1 w1 = r ->
  loop (length seg + n) (slen pre) s w = r.
Proof. intros E <-. rewrite (loop_app _ _ _ _ _ _ _ E), slen_app. done. Qed.

Lemma byte_here pre c post : body p = pre ++ c :: post -> charCodeAt (body p) (slen pre) = Some c.
Proof. intros ->. by apply charCodeAt_middle. Qed.

Lemma slen_snoc (pre : list Z) c : slen (pre ++ [c]) = slen pre + 1.
Proof. by rewrite slen_app, slen_cons, slen_nil. Qed.

Lemma byte_before pre d c post : body p = (pre ++ [d]) ++ c :: post -> charCodeAt (body p) (slen (pre ++ [d]) - 1) = Some d.
Proof. rewrite <-app_assoc. cbn [app]. intros E. rewrite slen_snoc, Z.add_simpl_r. by eapply byte_here. Qed.

Lemma shift (pre seg post : list Z) c : body p = pre ++ (c :: seg) ++ post -> body p = (pre ++ [c]) ++ seg ++ post.
Proof. intros ->. by rewrite <-app_assoc. Qed.

(** ** Skipped lines *)

Definition with_header (s : parse_state) (t : str) : parse_state := mkState (formData s) (headerText s ++ t) (boundaryIndex s) (state s) (fileStart s).
Definition with_state (s : parse_state) (q : Z) : parse_state := mkState (formData s) (headerText s) (boundaryIndex s) q (fileStart s).
Definition with_index (s : parse_state) (k : Z) : parse_state := mkState (formData s) (headerText s) k (state s) (fileStart s).

(** Before the first line break and after a boundary. *)
Definition skipping (s : parse_state) : Prop := state s = 0 \/ state s = 3.

Lemma skip_segment seg : forall pre post s w, body p = pre ++ seg ++ post -> skipping s -> Forall (fun c => c <> LF) seg ->
  loop (length seg) (slen pre) s w = (w, Ok s).
Proof.
  induction seg as [|c seg IH]; intros pre post s w E Hs HF; [done|]. apply Forall_cons in HF as [Hc HF].
  eapply (loop_cons _ _ _ s _ w); [|rewrite <-(slen_snoc _ c); apply (IH _ post); [by apply shift|done|done]].
  unfold parse_step. rewrite (byte_here pre c (seg ++ post)) by done. change (default 0 (Some c)) with c. rewrite (proj2 (Z.eqb_neq c LF)) by done. cbn [andb].
  destruct s. destruct Hs as [Hs|Hs]; simpl in Hs; subst; done.
Qed.

Lemma skip_line seg pre post s w : body p = pre ++ (seg ++ CRLF) ++ post -> skipping s -> Forall (fun c => c <> LF) seg ->
  loop (length (seg ++ CRLF)) (slen pre) s w = (w, Ok (with_state s 1)).
Proof.
  intros E Hs HF. replace (length (seg ++ CRLF)) with (length (seg ++ [CR]) + 1)%nat by (rewrite !length_app; simpl; lia).
  eapply loop_seg; [apply (skip_segment (seg ++ [CR]) pre (LF :: post)); [|done|]|].
  - rewrite E. by rewrite <-!app_assoc.
  - apply Forall_app. split; [done|]. by repeat constructor.
  - eapply loop_cons; [|done]. rewrite app_assoc. unfold parse_step.
    assert (E' : body p = ((pre ++ seg) ++ [CR]) ++ LF :: post) by (rewrite E; by rewrite <-!app_assoc).
    rewrite (byte_here _ LF post E'), (byte_before _ CR LF post E'). destruct s. destruct Hs as [Hs|Hs]; simpl in Hs; subst; done.
Qed.

(** ** Headers *)

Lemma header_segment seg : forall pre post s w, body p = pre ++ seg ++ post -> state s = 1 -> Forall (fun c => c <> LF) seg ->
  loop (length seg) (slen pre) s w = (w, Ok (with_header s seg)).
Proof.
  induction seg as [|c seg IH]; intros pre post s w E Hs HF; [by destruct s; unfold with_header; simpl; rewrite app_nil_r|].
  apply Forall_cons in HF as [Hc HF].
  eapply (loop_cons _ _ _ (with_header s [c])).
  - unfold parse_step. rewrite (byte_here pre c (seg ++ post)) by done. change (default 0 (Some c)) with c. rewrite (proj2 (Z.eqb_neq c LF)) by done.
    destruct s; simpl in Hs; by subst.
  - rewrite <-(slen_snoc _ c). rewrite (IH _ post) by (try apply shift; done). unfold with_header. cbn [headerText formData boundaryIndex state fileStart].
    by rewrite <-app_assoc.
Qed.

(** The line feed at the end of a header line. *)
Lemma header_end pre post s w : body p = (pre ++ [CR]) ++ LF :: post -> state s = 1 ->
  loop 1 (slen (pre ++ [CR])) s w = (w, Ok (if code_is (post !! 0%nat) CR && code_is (post !! 1%nat) LF
    then mkState (formData s) (headerText s ++ [LF]) (boundaryIndex s) 2 (slen (pre ++ [CR]) + 3) else with_header s [LF])).
Proof.
  intros E Hs. assert (Hnext : forall j, 0 <= j -> charCodeAt (body p) (slen (pre ++ [CR]) + 1 + j) = post !! Z.to_nat j).
  { intros j Hj. rewrite E. replace ((pre ++ [CR]) ++ LF :: post) with (((pre ++ [CR]) ++ [LF]) ++ post) by by rewrite <-!app_assoc.
    rewrite <-(slen_snoc _ LF), charCodeAt_app_r by lia. unfold charCodeAt. rewrite (proj2 (Z.ltb_ge _ _)) by lia. f_equal. lia. }
  pose proof (Hnext 0 (Z.le_refl 0)) as H0. pose proof (Hnext 1 ltac:(lia)) as H1. rewrite Z.add_0_r in H0.
  replace (slen (pre ++ [CR]) + 1 + 1) with (slen (pre ++ [CR]) + 2) in H1 by lia. change (Z.to_nat 0) with 0%nat in H0. change (Z.to_nat 1) with 1%nat in H1.
  eapply loop_cons; [|reflexivity]. unfold parse_step. rewrite (byte_here _ LF post E), (byte_before _ CR LF post E), H0, H1.
  destruct s; simpl in Hs; subst. by destruct (code_is (post !! 0%nat) CR), (code_is (post !! 1%nat) LF).
Qed.

Lemma slen_crlf : slen CRLF = 2.
Proof. done. Qed.

(** A header line: some units, no line break in it. *)
Definition line_ok (l : str) : Prop := l <> [] /\ Forall (fun c => c <> CR /\ c <> LF) l.
Definition line_text (ls : list str) : str := flat_map (fun l => l ++ CRLF) ls.

Lemma header_line_text l pre post s w : body p = pre ++ (l ++ CRLF) ++ post -> state s = 1 -> line_ok l ->
  loop (length (l ++ CRLF)) (slen pre) s w = (w, Ok (if code_is (post !! 0%nat) CR && code_is (post !! 1%nat) LF
    then mkState (formData s) (headerText s ++ l ++ CRLF) (boundaryIndex s) 2 (slen (pre ++ l ++ CRLF) + 2) else with_header s (l ++ CRLF))).
Proof.
  intros E Hs [_ Hl]. replace (length (l ++ CRLF)) with (length (l ++ [CR]) + 1)%nat by (rewrite !length_app; simpl; lia).
  assert (E' : body p = ((pre ++ l) ++ [CR]) ++ LF :: post) by (rewrite E; by rewrite <-!app_assoc).
  eapply loop_seg; [apply (header_segment (l ++ [CR]) pre (LF :: post)); [by rewrite E'; rewrite <-!app_assoc|done|]|].
  - apply Forall_app. split; [eapply Forall_impl; [exact Hl|]; by intros c [_ Hc]|]. by repeat constructor.
  - rewrite app_assoc, (header_end (pre ++ l) post) by done. unfold with_header. cbn [headerText formData boundaryIndex state fileStart].
    replace (slen (pre ++ l ++ CRLF) + 2) with (slen ((pre ++ l) ++ [CR]) + 3) by (rewrite !slen_app, slen_crlf, !slen_cons, !slen_nil; lia).
    by rewrite <-!app_assoc.
Qed.

Lemma header_lines ls : forall pre post s w, body p = pre ++ line_text ls ++ CRLF ++ post -> state s = 1 -> ls <> [] -> Forall line_ok ls ->
  loop (length (line_text ls)) (slen pre) s w =
    (w, Ok (mkState (formData s) (headerText s ++ line_text ls) (boundaryIndex s) 2 (slen (pre ++ line_text ls ++ CRLF)))).
Proof.
  induction ls as [|l ls IH]; intros pre post s w E Hs Hne HF; [done|]. apply Forall_cons in HF as [Hl HF]. unfold line_text in *. cbn [flat_map] in *.
  fold (line_text ls) in *. destruct ls as [|l' ls].
  - cbn [line_text flat_map] in *. rewrite app_nil_r in *. rewrite (header_line_text l pre (CRLF ++ post)) by done. cbn [app CRLF lookup].
    change (code_is ((CRLF ++ post) !! 0%nat) CR && code_is ((CRLF ++ post) !! 1%nat) LF) with true. cbv iota.
    do 3 f_equal. rewrite !slen_app, slen_crlf. lia.
  - rewrite length_app. rewrite <-app_assoc in E. eapply loop_seg; [by apply (header_line_text l pre (line_text (l' :: ls) ++ CRLF ++ post))|].
    assert (Hc : code_is ((line_text (l' :: ls) ++ CRLF ++ post) !! 0%nat) CR = false).
    { apply Forall_cons in HF as [[Hn Hl'] _]. destruct l' as [|c l']; [done|]. apply Forall_cons in Hl' as [[Hc _] _]. by apply Z.eqb_neq. }
    rewrite Hc. cbn [andb]. rewrite (IH _ post); [|by rewrite E, <-!app_assoc|done|done|done].
    unfold with_header. cbn [headerText formData boundaryIndex state fileStart]. by rewrite <-!app_assoc.
Qed.

(** ** Contents and boundaries *)

(** The boundary is ASCII, with no line break in it. *)
Hypothesis chars : boundaryChars p = boundary p.
Hypothesis some_chars : boundary p <> [].
Hypothesis no_break : Forall (fun c => c <> CR /\ c <> LF) (boundary p).

Lemma break_notin c : c = CR \/ c = LF -> c ∉ boundary p.
Proof. intros Hc Hin. rewrite Forall_forall in no_break. destruct (no_break c Hin). by destruct Hc. Qed.

(** One unit in a content. *)
Definition next_index (k c : Z) : Z := if code_is (charCodeAt (boundary p) k) c then k + 1 else 0.

Lemma content_step pre c post s w : body p = pre ++ c :: post -> state s = 2 ->
  step (slen pre) s w = let k := next_index (boundaryIndex s) c in
    if slen (boundary p) <=? k then add_part toLowerCase inherited encode decode p clock (slen pre) (slen pre - k - 1) (with_index s k) w else (w, Ok (with_index s k)).
Proof.
  intros E Hs. unfold parse_step, next_index. rewrite (byte_here pre c post E), chars. change (default 0 (Some c)) with c.
  destruct s as [fd ht bi q fs]. simpl in Hs. subst q. cbn [state formData headerText boundaryIndex fileStart]. unfold with_index.
  change (2 =? 1) with false. change (2 =? 0) with false. change (2 =? 2) with true. cbn [andb state formData headerText boundaryIndex fileStart].
  change (2 =? 1) with false. change (2 =? 2) with true. cbn [andb state formData headerText boundaryIndex fileStart].
  destruct (code_is (charCodeAt (boundary p) bi) c); cbn [negb]; by destruct (_ <=? _).
Qed.

Lemma break_resets k c : c = CR \/ c = LF -> next_index k c = 0.
Proof.
  intros Hc. unfold next_index. destruct (code_is _ c) eqn:E; [|done]. exfalso. apply (break_notin c Hc).
  destruct (charCodeAt (boundary p) k) as [y|] eqn:Ey; [|done]. cbn [code_is] in E. apply Z.eqb_eq in E. subst y.
  unfold charCodeAt in Ey. destruct (_ <? _); [done|]. by eapply list_elem_of_lookup_2.
Qed.

(** A content that does not have the boundary in it. *)
Lemma scan_content seg : forall k pre post s w, body p = pre ++ seg ++ post -> state s = 2 -> boundaryIndex s = Z.of_nat k ->
  (k < length (boundary p))%nat -> ~ occurs (boundary p) (take k (boundary p) ++ seg) ->
  exists k', (k' < length (boundary p))%nat /\ loop (length seg) (slen pre) s w = (w, Ok (with_index s (Z.of_nat k'))).
Proof.
  induction seg as [|c seg IH]; intros k pre post s w E Hs Hk Hlt Ho; [exists k; split; [done|]; destruct s; simpl in *; by subst|].
  pose proof (content_step pre c (seg ++ post) s w E Hs) as Es. cbv zeta in Es. rewrite Hk in Es. unfold next_index in Es.
  assert (Hgo : exists k1, (k1 < length (boundary p))%nat /\ step (slen pre) s w = (w, Ok (with_index s (Z.of_nat k1))) /\ ~ occurs (boundary p) (take k1 (boundary p) ++ seg)).
  { unfold charCodeAt in Es. rewrite (proj2 (Z.ltb_ge _ _)), Nat2Z.id in Es by lia. destruct (boundary p !! k) as [x|] eqn:Ex; [|apply lookup_ge_None in Ex; lia].
    cbn [code_is] in Es. destruct (x =? c) eqn:Exc; reflect_bools.
    - subst x. assert (Et : take k (boundary p) ++ c :: seg = take (S k) (boundary p) ++ seg) by (rewrite (take_S_r _ _ _ Ex), <-app_assoc; done).
      rewrite Et in Ho. destruct (decide (S k = length (boundary p))) as [El|El].
      + exfalso. apply Ho. exists [], seg. cbn [app]. by rewrite El, take_ge by lia.
      + exists (S k). split; [lia|]. split; [|done]. rewrite (proj2 (Z.leb_gt _ _)) in Es by (unfold slen; lia). rewrite Es. do 3 f_equal. lia.
    - exists 0%nat. split; [lia|]. split; [rewrite (proj2 (Z.leb_gt _ _)) in Es by (unfold slen; lia); done|]. cbn [take app].
      intros Hoc. apply Ho. change (take k (boundary p) ++ c :: seg) with (take k (boundary p) ++ [c] ++ seg). rewrite app_assoc. by apply occurs_tail. }
  destruct Hgo as (k1 & Hlt1 & E1 & Ho1). destruct (IH k1 (pre ++ [c]) post (with_index s (Z.of_nat k1)) w) as (k' & Hk' & E'); try done; [by apply shift|].
  exists k'. split; [done|]. cbn [length]. eapply loop_cons; [exact E1|]. by rewrite <-(slen_snoc _ c), E'.
Qed.

(** The boundary itself, up to its last unit. *)
Lemma scan_boundary d1 : forall d0 pre post s w, body p = pre ++ d1 ++ post -> state s = 2 -> boundaryIndex s = slen d0 ->
  (exists rest, boundary p = d0 ++ d1 ++ rest /\ rest <> []) ->
  loop (length d1) (slen pre) s w = (w, Ok (with_index s (slen (d0 ++ d1)))).
Proof.
  induction d1 as [|c d1 IH]; intros d0 pre post s w E Hs Hk (rest & Eb & Hr); [rewrite app_nil_r; destruct s; simpl in *; by subst|].
  cbn [length]. eapply loop_cons.
  - rewrite (content_step pre c (d1 ++ post)) by done. cbv zeta. unfold next_index. rewrite Hk, Eb. cbn [app]. rewrite charCodeAt_middle by done.
    cbn [code_is]. rewrite Z.eqb_refl, (proj2 (Z.leb_gt _ _)); [done|]. destruct rest; [done|]. rewrite !slen_app, !slen_cons, slen_app, slen_cons.
    pose proof (slen_nonneg d1). pose proof (slen_nonneg rest). lia.
  - rewrite <-(slen_snoc _ c). rewrite (IH (d0 ++ [c]) (pre ++ [c]) post); [|by apply shift|done|by rewrite slen_snoc|].
    + unfold with_index. cbn [headerText formData boundaryIndex state fileStart]. by rewrite <-app_assoc.
    + exists rest. by rewrite <-app_assoc.
Qed.

Lemma content_no_boundary content : ~ occurs (boundary p) content -> ~ occurs (boundary p) (CRLF ++ content ++ [CR]).
Proof.
  intros Ho Hoc. assert (Hn : ~ occurs (boundary p) []) by (intros (a & b & E); by destruct a, (boundary p)).
  apply (occurs_split _ [] CR) in Hoc as [Hoc|Hoc]; [done| |by apply break_notin; left|done].
  apply (occurs_split _ [] LF) in Hoc as [Hoc|Hoc]; [done| |by apply break_notin; right|done].
  apply (occurs_split _ content CR) in Hoc as [Hoc|Hoc]; [done|done|by apply break_notin; left|done].
Qed.

(** From the blank line to the end of the next boundary. *)
Lemma part_content content pre post s w : body p = pre ++ (CRLF ++ content ++ CRLF ++ boundary p) ++ post -> state s = 2 -> boundaryIndex s = 0 ->
  fileStart s = slen (pre ++ CRLF) -> ~ occurs (boundary p) content ->
  loop (length (CRLF ++ content ++ CRLF ++ boundary p)) (slen pre) s w =
    (let i := slen (pre ++ CRLF ++ content ++ CRLF ++ boundary p) - 1 in
     add_part toLowerCase inherited encode decode p clock i (slen (pre ++ CRLF ++ content)) (with_index s (slen (boundary p)))) w.
Proof.
  intros E Hs Hk Hf Ho. destruct (exists_last some_chars) as (d & x & Ed).
  replace (CRLF ++ content ++ CRLF ++ boundary p) with ((CRLF ++ content ++ [CR]) ++ [LF] ++ d ++ [x]) in E |- * by (rewrite Ed; by rewrite <-!app_assoc).
  assert (Hno : ~ occurs (boundary p) (take 0 (boundary p) ++ CRLF ++ content ++ [CR])) by (by apply content_no_boundary).
  rewrite !length_app. rewrite <-!length_app. rewrite (length_app (CRLF ++ content ++ [CR])).
  destruct (scan_content (CRLF ++ content ++ [CR]) 0 pre (([LF] ++ d ++ [x]) ++ post) s w) as (k & Hlt & E1); try done.
  { by rewrite E, <-!app_assoc. }
  { rewrite Ed, length_app. simpl. lia. }
  eapply loop_seg; [exact E1|]. set (pre1 := pre ++ CRLF ++ content ++ [CR]).
  assert (E2 : body p = pre1 ++ LF :: d ++ [x] ++ post) by (rewrite E; unfold pre1; by rewrite <-!app_assoc).
  cbn [length app]. eapply loop_cons.
  { rewrite (content_step pre1 LF (d ++ [x] ++ post)) by done. cbv zeta. rewrite break_resets by (by right).
    rewrite (proj2 (Z.leb_gt _ _)); [reflexivity|]. unfold slen. lia. }
  rewrite <-(slen_snoc _ LF), length_app. eapply loop_seg.
  { apply (scan_boundary d [] (pre1 ++ [LF]) ([x] ++ post)); [by rewrite E2, <-app_assoc|done|done|]. by exists [x]. }
  set (pre2 := (pre1 ++ [LF]) ++ d). assert (E3 : body p = pre2 ++ x :: post) by (rewrite E2; unfold pre2; by rewrite <-!app_assoc).
  cbn [parse_loop length]. unfold m_bind. rewrite (content_step pre2 x post) by done. cbv zeta. unfold next_index. cbn [boundaryIndex with_index].
  cbn [app]. assert (Ex : charCodeAt (boundary p) (slen d) = Some x) by (rewrite Ed; by apply charCodeAt_middle). rewrite Ex. cbn [code_is].
  assert (El : slen (boundary p) = slen d + 1) by (rewrite Ed; apply slen_snoc).
  rewrite Z.eqb_refl, (proj2 (Z.leb_le _ _)) by lia. rewrite <-El.
  replace (slen pre2 - slen (boundary p) - 1) with (slen (pre ++ CRLF ++ content))
    by (unfold pre2, pre1; rewrite El, !slen_app, !slen_cons, !slen_nil, slen_crlf; lia).
  replace (slen pre2) with (slen (pre ++ (CRLF ++ content ++ [CR]) ++ LF :: d ++ [x]) - 1)
    by (unfold pre2, pre1; rewrite !slen_app, !slen_cons, slen_app, !slen_cons, !slen_nil, slen_crlf; lia).
  unfold with_index. cbn [headerText formData boundaryIndex state fileStart]. by destruct (add_part _ _ _ _ _ _ _ _ _ _) as [w' [s'|e]].
Qed.

(** A whole part, from the line break after a boundary to the end of the next
    boundary. *)
Definition part_text (ls : list str) (content : list Z) : list Z := CRLF ++ line_text ls ++ CRLF ++ content ++ CRLF ++ boundary p.

Lemma loop_part ls content pre post s w : body p = pre ++ part_text ls content ++ post -> skipping s -> boundaryIndex s = 0 -> headerText s = [] ->
  ls <> [] -> Forall line_ok ls -> ~ occurs (boundary p) content ->
  exists i fs e, slice (body p) fs e = content /\
    loop (length (part_text ls content)) (slen pre) s w =
      add_part toLowerCase inherited encode decode p clock i e (mkState (formData s) (line_text ls) (slen (boundary p)) 2 fs) w.
Proof.
  intros E Hs Hk Ht Hne Hls Ho. unfold part_text in *. set (rest := CRLF ++ content ++ CRLF ++ boundary p) in *.
  set (pre1 := pre ++ CRLF). set (pre2 := pre1 ++ line_text ls).
  exists (slen (pre2 ++ rest) - 1), (slen (pre2 ++ CRLF)), (slen (pre2 ++ CRLF ++ content)). split.
  { rewrite E. unfold rest, pre2, pre1. replace (pre ++ (CRLF ++ line_text ls ++ CRLF ++ content ++ CRLF ++ boundary p) ++ post) with
      ((((pre ++ CRLF) ++ line_text ls) ++ CRLF) ++ content ++ CRLF ++ boundary p ++ post) by by rewrite <-!app_assoc.
    apply slice_middle; [done|]. rewrite !slen_app. lia. }
  rewrite length_app. eapply loop_seg.
  { apply (skip_line [] pre ((line_text ls ++ rest) ++ post)); [by rewrite E, <-!app_assoc|done|constructor]. }
  rewrite length_app. eapply loop_seg.
  { apply (header_lines ls pre1 (content ++ CRLF ++ boundary p ++ post)); [|done|done|done]. rewrite E. unfold pre1, rest. by rewrite <-!app_assoc. }
  unfold rest. rewrite (part_content content pre2 post); [|by rewrite E; unfold pre2, pre1, rest; rewrite <-!app_assoc|done|done|unfold pre2; by rewrite <-!app_assoc|done].
  cbv zeta. unfold with_index, with_state. cbn [headerText formData boundaryIndex state fileStart]. rewrite Ht. cbn [app].
  unfold pre2. by rewrite <-!app_assoc.
Qed.
End Parse.
