(* ===== verification/FormDataTheorems.v ===== *)
(** * Form data: theorems

    The methods of [FormData] are the operations of a list of named values; and
    form data that is serialized to [multipart/form-data] and parsed again comes
    back with the same entries, in order. *)

From Stdlib Require Import ZArith Lia.
From stdpp Require Import base list gmap numbers option strings.
From S2P Require Import Prelude JsNumber Infra Mime MimeTheorems Headers HeadersTheorems Blob BlobTheorems FormData FormDataProps FormDataParse.

#[local] Open Scope Z_scope.

Section FormData.
Context {Url : Type} `{Countable Url}.
Context (toLowerCase : str -> str) (inherited : str -> bool) (encode : str -> list Z) (decode : list Z -> str).
Context {L : LowerCase toLowerCase} {U : Utf8 encode decode}.
Hypothesis inherited_token : forall n, inherited n = true -> token n = true.
Implicit Types st : BlobStore Url.

(** ** Files *)

Lemma file_new_spec st inits name t last now : store_ok st -> Forall (init_ok st) inits ->
  exists st' f, file_new toLowerCase encode inits name false t last now st = (st', Ok f) /\ store_ok st' /\ extends st st' /\
    blob_ok st' (file_blob f) /\ blob_bytes st' (file_blob f) = flat_map (init_bytes encode st false) inits /\
    blob_type (file_blob f) = normalizeType toLowerCase t /\ file_name f = name.
Proof.
  intros Hst HF. destruct (blob_new_spec toLowerCase encode inits false t st Hst HF) as (st' & b & E & H1 & H2 & H3 & H4 & H5).
  unfold file_new, io_bind at 1. rewrite E. by eexists st', _.
Qed.

(** A blob that is appended under a file name becomes a file with its bytes. *)
Lemma append_file st name b filename now fd : store_ok st -> blob_ok st b -> toWellFormed name = name -> toWellFormed filename = filename ->
  normalizeType toLowerCase (blob_type b) = blob_type b ->
  exists st' f, formdata_append toLowerCase encode name (ABlob b) (Some filename) now fd st = (st', Ok (fd ++ [mkEntry name (FFile f)])) /\
    store_ok st' /\ extends st st' /\ blob_ok st' (file_blob f) /\ blob_bytes st' (file_blob f) = blob_bytes st b /\
    blob_type (file_blob f) = blob_type b /\ file_name f = filename.
Proof.
  intros Hst Hb Hn Hf Ht. unfold formdata_append, convert_entry, createEntry, USVString. cbn [fmap option_fmap option_map]. rewrite Hn, Hf.
  destruct (file_new_spec st [IBlob b] (lit "blob") (blob_type b) None now Hst) as (st1 & f1 & E1 & A1 & A2 & A3 & A4 & A5 & A6); [by constructor|].
  destruct (file_new_spec st1 [IBlob (file_blob f1)] filename (blob_type (file_blob f1)) (Some (lastModified f1)) now A1) as (st2 & f2 & E2 & B1 & B2 & B3 & B4 & B5 & B6);
    [by constructor|].
  unfold io_bind. rewrite E1. cbn [io_ret]. unfold io_ret. rewrite E2. exists st2, f2. split; [done|]. split; [done|]. split; [by transitivity st1|].
  split; [done|]. split; [by rewrite B4; simpl; rewrite app_nil_r, A4; simpl; rewrite app_nil_r|]. split; [by rewrite B5, A5, !Ht|done].
Qed.

(** ** Adding a part *)

Section Part.
Context (p : MultipartParser) (clock : Z -> Z).
#[local] Abbreviation add_part := (add_part (Url := Url) toLowerCase inherited encode decode p clock).

Lemma latin1_name s : clean s -> decodeLatin1StringAsUtf8 decode (encode s) = s.
Proof.
  intros [[H1 H2 H3 H4] H5]. unfold decodeLatin1StringAsUtf8. pose proof (utf8_bytes s H2) as Hb.
  replace (map (fun c => c mod 256) (encode s)) with (encode s); [by apply utf8_decode|].
  clear -Hb. induction Hb as [|c l Hc _ IH]; [done|]. cbn [map]. rewrite <-IH. f_equal. symmetry. by apply Z.mod_small.
Qed.

Lemma truthy_some s : s <> [] -> truthy (Some s) = Some s.
Proof. by destruct s. Qed.

Lemma add_string i e fs k fd c st name v : cache_ok c -> clean name -> decode (slice (body p) fs e) = v -> toWellFormed v = v ->
  exists c', cache_ok c' /\ add_part i e (mkState fd (line_text (string_headers (encode name))) k 2 fs) (c, st) =
    ((c', st), Ok (mkState (fd ++ [mkEntry name (FString v)]) [] 0 3 fs)).
Proof.
  intros Hc Hn Hd Hv. destruct (encode_clean encode decode name Hn) as [Hne Hb].
  destruct (parse_string_headers toLowerCase inherited inherited_token c (encode name) Hc Hb) as (c' & h & E & Hc').
  exists c'. split; [done|]. unfold FormData.add_part, m_bind at 1, m_headers. cbn [headerText fst]. unfold line_text. rewrite E. cbn [jsbind].
  change (map_get (lit "name") [(lit "name", encode name)]) with (Some (encode name)).
  change (map_get (lit "filename") [(lit "name", encode name)]) with (@None str). rewrite truthy_some by done. cbn [truthy].
  rewrite latin1_name by done. cbn [formData fileStart]. rewrite Hd. unfold m_bind, m_io, formdata_append, convert_entry, createEntry, USVString, io_bind, io_ret.
  cbn [snd fst]. rewrite Hv, (proj1 (send_formed _ (clean_sendable _ Hn))). done.
Qed.

(** A type as a constructor leaves it, with no space around it. *)
Record type_ok (t : str) : Prop := {
  type_chars : Forall (fun c => in_class NORMALIZE_PATTERN c = true) t;
  type_lower : Forall (fun c => in_class ASCII_UPPER_ALPHA c = false) t;
  type_first : match t with c :: _ => c <> 32 | [] => True end;
  type_last : match rev t with c :: _ => c <> 32 | [] => True end;
}.

Lemma printable c : in_class NORMALIZE_PATTERN c = true -> 32 <= c <= 126.
Proof. unfold in_class, NORMALIZE_PATTERN. simpl. rewrite orb_false_r. intros E. reflect_bools. lia. Qed.

Lemma printable_space c : in_class NORMALIZE_PATTERN c = true -> c <> 32 -> in_class HTTP_WHITESPACE c = false.
Proof. intros Hc Hn. apply printable in Hc. unfold in_class, HTTP_WHITESPACE, HTTP_TAB_OR_SPACE. cbn [existsb fst snd]. by zbool. Qed.

Lemma lower_chars t : Forall (fun c => in_class NORMALIZE_PATTERN c = true) t -> Forall (fun c => in_class ASCII_UPPER_ALPHA c = false) t ->
  normalizeType toLowerCase t = t.
Proof.
  intros H1 H2. unfold normalizeType. rewrite (proj2 (all_class _ _) H1), lower_ascii.
  - clear H1. induction H2 as [|c t Hc _ IH]; [done|]. cbn [map]. rewrite IH. unfold ascii_lower. by rewrite Hc.
  - eapply Forall_impl; [exact H1|]. intros c Hc. apply printable in Hc. unfold is_ascii. lia.
Qed.

Lemma type_value t : type_ok t -> value_ok t.
Proof.
  intros [H1 H2 H3 H4]. split.
  - eapply Forall_impl; [exact H1|]. intros c Hc. apply printable in Hc. unfold value_byte, CR, LF. lia.
  - destruct t as [|c t]; [done|]. apply Forall_cons in H1 as [Hc _]. by apply printable_space.
  - apply Forall_rev in H1. destruct (rev t) as [|c l]; [done|]. apply Forall_cons in H1 as [Hc _]. by apply printable_space.
Qed.

Lemma add_file i e fs k fd c st name filename t : cache_ok c -> store_ok st -> clean name -> clean filename -> type_ok t -> t <> [] ->
  exists c' st' f, cache_ok c' /\ store_ok st' /\ extends st st' /\
    add_part i e (mkState fd (line_text (file_headers (encode name) (encode filename) t)) k 2 fs) (c, st) =
      ((c', st'), Ok (mkState (fd ++ [mkEntry name (FFile f)]) [] 0 3 fs)) /\
    blob_ok st' (file_blob f) /\ blob_bytes st' (file_blob f) = slice (body p) fs e /\ blob_type (file_blob f) = t /\ file_name f = filename.
Proof.
  intros Hc Hst Hn Hf Ht Htn. destruct (encode_clean encode decode name Hn) as [Hne Hb]. destruct (encode_clean encode decode filename Hf) as [Hfe Hfb].
  destruct (parse_file_headers toLowerCase inherited inherited_token c (encode name) (encode filename) t Hc Hb Hfb (type_value t Ht))
    as (c1 & h & E & Hc1 & c2 & E2 & Hc2).
  set (content := slice (body p) fs e).
  destruct (blob_new_spec toLowerCase encode [ITypedArray content 0 (slen content)] false t st Hst) as (st1 & b & Eb & A1 & A2 & A3 & A4 & A5).
  { constructor; [|constructor]. simpl. pose proof (slen_nonneg content). lia. }
  rewrite (lower_chars t (type_chars _ Ht) (type_lower _ Ht)) in A5.
  destruct (append_file st1 name b filename (clock i) fd A1 A3) as (st2 & f & Ea & B1 & B2 & B3 & B4 & B5 & B6).
  { apply (send_formed _ (clean_sendable _ Hn)). } { apply (send_formed _ (clean_sendable _ Hf)). }
  { rewrite A5. apply lower_chars; apply Ht. }
  exists c2, st2, f. split; [done|]. split; [done|]. split; [by transitivity st1|]. split; [|split; [done|]].
  - unfold FormData.add_part, m_bind at 1, m_headers at 1. cbn [headerText fst]. unfold line_text. rewrite E. cbn [jsbind].
    change (map_get (lit "name") [(lit "name", encode name); (lit "filename", encode filename)]) with (Some (encode name)).
    change (map_get (lit "filename") [(lit "name", encode name); (lit "filename", encode filename)]) with (Some (encode filename)).
    rewrite !truthy_some, !latin1_name by done. cbn [formData fileStart]. fold content. change (lit "Content-Type") with CT.
    unfold m_bind, m_headers, m_io. cbn [fst snd]. rewrite E2. cbn [jsbind]. rewrite truthy_some by done. cbn [default]. unfold id. cbn [fst snd].
    change (default octet_stream (Some t)) with t. rewrite Eb. cbn [fst snd]. by rewrite Ea.
  - split; [|split; [by rewrite B5, A5|done]]. rewrite B4, A4. simpl. rewrite app_nil_r. unfold content. apply window_all.
Qed.

(** ** Entries on the wire *)

Definition sent_type (f : File) : str := if bool_decide (blob_type (file_blob f) = []) then octet_stream else blob_type (file_blob f).

Definition entry_lines (e : FormDataEntry) : list str :=
  let name := encode (escape (entry_name e) false) in
  match entry_value e with
  | FString _ => string_headers name
  | FFile f => file_headers name (encode (escape (file_name f) true)) (sent_type f)
  end.

Definition entry_content st (e : FormDataEntry) : list Z :=
  match entry_value e with
  | FString s => encode (replace_breaks s)
  | FFile f => blob_bytes st (file_blob f)
  end.

(** What can be sent with the delimiter [d]. *)
Record entry_ok st (d : str) (e : FormDataEntry) : Prop := {
  ok_name : sendable (entry_name e);
  ok_value : match entry_value e with
    | FString s => well_formed s /\ head s <> Some BOM
    | FFile f => sendable (file_name f) /\ type_ok (blob_type (file_blob f)) /\ blob_ok st (file_blob f)
    end;
  ok_content : ~ occurs d (entry_content st e);
}.

(** [e'] is what [e] is after it has been sent. *)
Definition survives st st' (e e' : FormDataEntry) : Prop :=
  entry_name e' = escape (entry_name e) false /\
  match entry_value e, entry_value e' with
  | FString s, FString s' => s' = replace_breaks s
  | FFile f, FFile f' => file_name f' = escape (file_name f) true /\ blob_type (file_blob f') = sent_type f /\
      blob_ok st' (file_blob f') /\ blob_bytes st' (file_blob f') = blob_bytes st (file_blob f)
  | _, _ => False
  end.

Lemma survives_extends st st1 st2 e e' : extends st1 st2 -> survives st st1 e e' -> survives st st2 e e'.
Proof.
  intros [Hsub _] [H1 H2]. split; [done|]. destruct (entry_value e), (entry_value e'); try done. destruct H2 as (H2 & H3 & H4 & H5).
  destruct (item_extends st1 st2 (inr (file_blob f0)) Hsub H4) as [H6 H7]. simpl in H6, H7. by rewrite H7.
Qed.

Lemma sent_type_ok f : type_ok (blob_type (file_blob f)) -> type_ok (sent_type f) /\ sent_type f <> [].
Proof. intros Ht. unfold sent_type. case_bool_decide as E; [|done]. split; [|done]. split; [by repeat constructor|by repeat constructor|done|done]. Qed.

Lemma breaks_bom v : head v <> Some BOM -> head (replace_breaks v) <> Some BOM.
Proof. intros Hv. by destruct (breaks_head v) as [-> | ->]. Qed.

Lemma add_entry st0 d e i e_ fs k fd c st : entry_ok st0 d e -> cache_ok c -> store_ok st -> slice (body p) fs e_ = entry_content st0 e ->
  exists c' st' e', cache_ok c' /\ store_ok st' /\ extends st st' /\ survives st0 st' e e' /\
    add_part i e_ (mkState fd (line_text (entry_lines e)) k 2 fs) (c, st) = ((c', st'), Ok (mkState (fd ++ [e']) [] 0 3 fs)).
Proof.
  intros [H1 H2 _] Hc Hst E. unfold entry_lines, entry_content, survives in *. destruct e as [name [v|f]]; cbn [entry_name entry_value] in *.
  - destruct H2 as [Hw Hb]. pose proof (well_formed_breaks v Hw) as Hw'.
    destruct (add_string i e_ fs k fd c st (escape name false) (replace_breaks v)) as (c' & Hc' & Ea).
    { done. } { by apply escape_clean. } { rewrite E. apply utf8_decode; [done|by apply breaks_bom]. } { apply Hw'. }
    exists c', st, (mkEntry (escape name false) (FString (replace_breaks v))). done.
  - destruct H2 as (Hf & Ht & Hb). destruct (sent_type_ok f Ht) as [Ht' Hne].
    destruct (add_file i e_ fs k fd c st (escape name false) (escape (file_name f) true) (sent_type f)) as (c' & st' & f' & A1 & A2 & A3 & A4 & A5 & A6 & A7 & A8);
      [done|done|by apply escape_clean|by apply escape_clean|done|done|].
    exists c', st', (mkEntry (escape name false) (FFile f')). cbn [entry_name entry_value]. by rewrite A6, E.
Qed.

(** ** Bodies *)

Hypothesis chars : boundaryChars p = boundary p.
Hypothesis some_chars : boundary p <> [].
Hypothesis no_break : Forall (fun c => c <> CR /\ c <> LF) (boundary p).

(** What comes after a boundary. *)
Fixpoint rest_text st (es : FormData) : list Z :=
  match es with
  | [] => lit "--"
  | e :: es => part_text p (entry_lines e) (entry_content st e) ++ rest_text st es
  end.

Lemma entry_lines_ok st d e : entry_ok st d e -> entry_lines e <> [] /\ Forall line_ok (entry_lines e).
Proof.
  intros [H1 H2 _]. destruct (encode_clean encode decode _ (escape_clean _ false H1)) as [_ Hb]. unfold entry_lines.
  destruct (entry_value e) as [v|f].
  - split; [done|]. constructor; [|constructor]. split; [done|]. apply line_no_cr; [done|]. apply disposition_ok; [done|]. repeat constructor; [apply name_letters|done].
  - destruct H2 as (Hf & Ht & _). destruct (encode_clean encode decode _ (escape_clean _ true Hf)) as [_ Hfb]. destruct (sent_type_ok f Ht) as [Ht' _].
    split; [done|]. constructor; [|constructor; [|constructor]]; (split; [done|]; apply line_no_cr; [done|]).
    + apply disposition_ok; [done|]. repeat constructor; [apply name_letters|done|apply filename_letters|done].
    + apply (value_bytes _ (type_value _ Ht')).
Qed.

Lemma loop_entries st0 es : forall pre s c st, body p = pre ++ rest_text st0 es -> skipping s -> boundaryIndex s = 0 -> headerText s = [] ->
  Forall (entry_ok st0 (boundary p)) es -> cache_ok c -> store_ok st ->
  exists c' st' s' fd, parse_loop toLowerCase inherited encode decode p clock (length (rest_text st0 es)) (slen pre) s (c, st) = ((c', st'), Ok s') /\
    formData s' = formData s ++ fd /\ Forall2 (survives st0 st') es fd /\ cache_ok c' /\ store_ok st' /\ extends st st'.
Proof.
  induction es as [|e es IH]; intros pre s c st E Hs Hk Ht HF Hc Hst.
  - exists c, st, s, []. cbn [rest_text] in *. rewrite (skip_segment _ _ _ _ _ _ (lit "--") pre []); [|by rewrite app_nil_r|done|by repeat constructor].
    rewrite app_nil_r. done.
  - apply Forall_cons in HF as [He HF]. cbn [rest_text] in *. destruct (entry_lines_ok _ _ _ He) as [Hl1 Hl2].
    destruct (loop_part toLowerCase inherited encode decode p clock chars some_chars no_break (entry_lines e) (entry_content st0 e) pre (rest_text st0 es) s (c, st) E Hs Hk Ht Hl1 Hl2
      (ok_content _ _ _ He)) as (i & fs & e_ & Ec & El).
    destruct (add_entry st0 (boundary p) e i e_ fs (slen (boundary p)) (formData s) c st He Hc Hst Ec) as (c1 & st1 & e' & A1 & A2 & A3 & A4 & A5).
    rewrite A5 in El.
    destruct (IH (pre ++ part_text p (entry_lines e) (entry_content st0 e)) (mkState (formData s ++ [e']) [] 0 3 fs) c1 st1) as (c2 & st2 & s2 & fd & B1 & B2 & B3 & B4 & B5 & B6);
      [by rewrite E, <-app_assoc|by right|done|done|done|done|done|].
    exists c2, st2, s2, (e' :: fd). split; [rewrite length_app; by eapply loop_seg|]. split; [by rewrite B2; cbn [formData]; rewrite <-app_assoc|].
    split; [constructor; [by eapply survives_extends|done]|]. split; [done|]. split; [done|]. by transitivity st1.
Qed.
End Part.

(** ** The boundary *)

(** The characters of a number between 0 and 1 as text: digits, a point, an
    exponent. *)
Definition number_text (s : str) : Prop := Forall (fun c => 48 <= c <= 57 \/ c = 46 \/ c = 101 \/ c = 45) s.

Definition boundary_char (c : Z) : Prop := 48 <= c <= 57 \/ c = 101 \/ c = 45.

Lemma random_boundary_chars r1 r2 : number_text r1 -> number_text r2 ->
  random_boundary r1 r2 <> [] /\ Forall boundary_char (random_boundary r1 r2).
Proof.
  intros H1 H2. unfold random_boundary, padStart. set (t := sliceFrom _ _). split.
  - intros E. apply app_eq_nil in E as [E1 E2]. rewrite E2 in E1. by vm_compute in E1.
  - apply Forall_app. split; [apply Forall_replicate; unfold boundary_char; lia|].
    assert (Hf : Forall boundary_char (filter (fun c => c <> 46) (r1 ++ r2))).
    { apply Forall_forall. intros c Hc. apply list_elem_of_filter in Hc as [Hn Hc].
      assert (Hr : number_text (r1 ++ r2)) by by apply Forall_app. unfold number_text in Hr. rewrite Forall_forall in Hr. specialize (Hr c Hc).
      unfold boundary_char. simpl in Hr. lia. }
    unfold t, sliceFrom, slice. apply Forall_take, Forall_drop. exact Hf.
Qed.

Lemma boundary_token b : b <> [] -> Forall boundary_char b -> token b = true /\ Forall is_ascii b /\ Forall (fun c => c <> CR /\ c <> LF) b /\
  Forall (fun c => in_class ASCII_UPPER_ALPHA c = false) b /\ Forall (fun c => in_class NORMALIZE_PATTERN c = true) b.
Proof.
  intros Hne HF. assert (HP : forall P : Z -> Prop, (forall c, boundary_char c -> P c) -> Forall P b) by (intros P HP; eapply Forall_impl; [exact HF|done]).
  split; [|split; [|split; [|split]]].
  - apply test_all_spec. split; [done|]. apply HP. intros c Hc. unfold boundary_char in Hc.
    unfold in_class, HTTP_TOKEN_CODE_POINT, ASCII_ALPHANUMERIC, ASCII_DIGIT, ASCII_ALPHA. apply existsb_exists.
    destruct Hc as [Hc|[->| ->]]; [exists (48, 57)|exists (97, 122)|exists (45, 45)]; (split; [vm_compute; tauto|cbn [fst snd]]); [by zbool|done|done].
  - apply HP. unfold boundary_char, is_ascii. lia.
  - apply HP. unfold boundary_char, CR, LF. lia.
  - apply HP. intros c Hc. unfold boundary_char in Hc. unfold in_class, ASCII_UPPER_ALPHA. cbn [existsb fst snd]. destruct Hc as [Hc|[->| ->]]; [by zbool|done|done].
  - apply HP. intros c Hc. unfold boundary_char in Hc. unfold in_class, NORMALIZE_PATTERN. cbn [existsb fst snd]. by zbool.
Qed.

Lemma parse_boundary b : token b = true -> let input := lit "multipart/form-data; boundary=" ++ b in
  parse_parameter toLowerCase input 19 [] = Ok (Continue (slen input, [(lit "boundary", b)])).
Proof.
  intros Hb input. assert (Hlen : slen input = 30 + slen b) by (unfold input; rewrite slen_app; done).
  destruct (token_first (fun c => c <> QUOTE) b Hb) as (x & b' & Eb & Hx); [intros c Hc; by apply token_plain|].
  assert (Hpos : 0 < slen b) by (rewrite Eb, slen_cons; pose proof (slen_nonneg b'); lia).
  pose proof (fun f => collectSequence_spec (lit "multipart/form-data;") [32] (lit "boundary=" ++ b) f) as C1.
  pose proof (fun f => collectSequence_spec (lit "multipart/form-data; ") (lit "boundary") (lit "=" ++ b) f) as C2.
  pose proof (fun f => collectSequence_spec (lit "multipart/form-data; boundary=") b [] f) as C3. rewrite app_nil_r in C3.
  change (lit "multipart/form-data;" ++ [32] ++ lit "boundary=" ++ b) with input in C1.
  change (lit "multipart/form-data; " ++ lit "boundary" ++ lit "=" ++ b) with input in C2. fold input in C3.
  unfold parse_parameter. change (19 + 1) with (slen (lit "multipart/form-data;")). rewrite C1; [|by repeat constructor|done]. cbn [snd].
  change (slen (lit "multipart/form-data;") + slen [32]) with (slen (lit "multipart/form-data; ")). rewrite C2; [|by repeat constructor|done].
  rewrite lower_ascii by (by apply ascii_check). change (map ascii_lower (lit "boundary")) with (lit "boundary").
  change (slen (lit "multipart/form-data; ") + slen (lit "boundary")) with 29. change (charCodeAt input 29) with (Some EQUALS).
  change (code_is (Some EQUALS) SEMICOLON) with false. rewrite andb_false_r, (proj2 (Z.ltb_lt _ _)), (proj2 (Z.leb_gt _ _)) by lia.
  change (29 + 1) with (slen (lit "multipart/form-data; boundary=")). unfold parameter_value.
  replace (code_is (charCodeAt input (slen (lit "multipart/form-data; boundary="))) QUOTE) with false.
  2:{ unfold input. rewrite Eb, charCodeAt_middle by done. symmetry. by apply Z.eqb_neq. }
  rewrite C3; [| |done].
  2:{ apply (token_all (fun c => negb (c =? SEMICOLON))); [done|]. intros c Hc. apply negb_true_iff, Z.eqb_neq. by apply token_plain. }
  rewrite strip_suffix_id by (by apply (token_last_ws b [])). rewrite bool_decide_false by (by rewrite Eb). cbn [jsbind].
  rewrite add_parameter_new; [|done| |by apply not_elem_of_nil].
  { do 3 f_equal. rewrite Hlen. done. }
  apply test_all_spec. split; [by rewrite Eb|]. apply (token_all (in_class HTTP_QUOTED_STRING_TOKEN_POINT)); [done|]. intros c Hc. unfold in_class in *. simpl in *.
  repeat (apply orb_true_iff in Hc as [Hc|Hc]); try done; reflect_bools; by zbool.
Qed.

(** The type of the blob names the boundary. *)
Lemma parse_multipart b : token b = true ->
  parseMimeType toLowerCase (lit "multipart/form-data; boundary=" ++ b) = Ok (Some (mkMime (lit "multipart") (lit "form-data") [(lit "boundary", b)])).
Proof.
  intros Hb. unfold parseMimeType. rewrite strip_prefix_id by done. rewrite strip_suffix_id by (by apply token_last_ws).
  set (input := lit "multipart/form-data; boundary=" ++ b).
  pose proof (fun f => collectSequence_spec [] (lit "multipart") (lit "/form-data; boundary=" ++ b) f) as C1.
  pose proof (fun f => collectSequence_spec (lit "multipart/") (lit "form-data") (lit "; boundary=" ++ b) f) as C2.
  change ([] ++ lit "multipart" ++ lit "/form-data; boundary=" ++ b) with input in C1. change (lit "multipart/" ++ lit "form-data" ++ lit "; boundary=" ++ b) with input in C2.
  change (slen []) with 0 in C1. rewrite C1; [|by repeat constructor|done]. cbv iota beta. change (bool_decide (lit "multipart" = []) || negb (token (lit "multipart"))) with false. cbv iota.
  assert (Hlen : slen input = 30 + slen b) by (unfold input; rewrite slen_app; done). pose proof (slen_nonneg b).
  change (0 + slen (lit "multipart")) with 9. rewrite (proj2 (Z.leb_gt _ _)) by lia. change (9 + 1) with (slen (lit "multipart/")).
  rewrite C2; [|by repeat constructor|done]. cbv iota beta. change (strip_suffix HTTP_WHITESPACE (lit "form-data")) with (lit "form-data").
  change (bool_decide (lit "form-data" = []) || negb (token (lit "form-data"))) with false. cbv iota.
  assert (E : parse_parameters toLowerCase (S (length input)) input 19 [] = Ok [(lit "boundary", b)]).
  { replace (length input) with (S (29 + length b)) by (unfold slen in Hlen; lia). cbn [parse_parameters]. rewrite (proj2 (Z.ltb_lt _ _)) by lia.
    pose proof (parse_boundary b Hb) as Ep. cbv zeta in Ep. fold input in Ep. rewrite Ep. cbn [jsbind]. by rewrite Z.ltb_irrefl. }
  change (slen (lit "multipart/") + slen (lit "form-data")) with 19. rewrite E. cbn [jsbind]. by rewrite (lower_ascii (lit "multipart")), (lower_ascii (lit "form-data")) by (by apply ascii_check).
Qed.

(** ** Serializing *)

Lemma for_of_all {A} (f : str * FormDataEntryValue -> A -> A) rest : forall pre a,
  for_of (S (length rest)) (pre ++ rest) (length pre) f a = foldl (fun a e => f (entry_name e, entry_value e) a) a rest.
Proof.
  induction rest as [|e rest IH]; intros pre a; cbn [for_of length]; unfold pair_next.
  - rewrite app_nil_r, lookup_ge_None_2 by done. done.
  - rewrite list_lookup_middle by done. specialize (IH (pre ++ [e])). rewrite length_app, Nat.add_comm, <-app_assoc in IH. apply IH.
Qed.

Lemma encode_id a : Forall is_ascii a -> encode a = a.
Proof. apply utf8_ascii. Qed.

Lemma encode_app s t : well_formed s -> well_formed t -> encode (s ++ t) = encode s ++ encode t.
Proof. apply utf8_app. Qed.

Lemma encode_ascii a t : Forall is_ascii a -> well_formed t -> encode (a ++ t) = a ++ encode t.
Proof. intros Ha Ht. rewrite encode_app by (done || by apply well_formed_ascii). by rewrite (encode_id a). Qed.

Lemma well_formed_ascii_app a t : Forall is_ascii a -> well_formed t -> well_formed (a ++ t).
Proof. intros Ha Ht. apply well_formed_app; [by apply well_formed_ascii|done]. Qed.

Lemma breaks_none s : serialize_breaks None s = replace_breaks s.
Proof. by apply breaks_agree. Qed.

(** The bytes of an entry. *)
Lemma entry_bytes st b e : Forall is_ascii b -> entry_ok st (lit "--" ++ b) e ->
  flat_map (init_bytes encode st false)
    (entry_chunks (lit "--" ++ b ++ CRLF ++ lit "Content-Disposition: form-data; name=" ++ [QUOTE]) (entry_name e, entry_value e)) =
  (lit "--" ++ b) ++ CRLF ++ line_text (entry_lines e) ++ CRLF ++ entry_content st e ++ CRLF.
Proof.
  intros Hb [H1 H2 _]. set (prefix := lit "--" ++ _). assert (Hp : Forall is_ascii prefix).
  { unfold prefix. repeat (apply Forall_app; split); try done; by apply ascii_check. }
  pose proof (send_formed _ (clean_sendable _ (escape_clean _ false H1))) as Hn.
  assert (Hcr : Forall is_ascii CRLF) by by apply ascii_check. assert (Hq : Forall is_ascii [QUOTE]) by by apply ascii_check.
  destruct e as [name [v|f]]; cbn [entry_name entry_value entry_chunks] in *; unfold entry_lines, entry_content; cbn [entry_name entry_value flat_map init_bytes].
  - destruct H2 as [Hv _]. apply well_formed_breaks in Hv. rewrite breaks_none, app_nil_r.
    rewrite (encode_ascii prefix), (encode_app (escape name false)), (encode_ascii [QUOTE]), !(encode_ascii CRLF), (encode_app (replace_breaks v)), (encode_id CRLF)
      by auto 10 using well_formed_app, well_formed_ascii, well_formed_ascii_app.
    unfold string_headers, line_text, header_line, disposition, param, quoted, prefix. cbn [flat_map]. by rewrite <-!app_assoc.
  - destruct H2 as (Hf & Ht & _). pose proof (send_formed _ (clean_sendable _ (escape_clean _ true Hf))) as Hf'.
    destruct (sent_type_ok f Ht) as [Ht' _]. unfold sent_type in Ht'. unfold sent_type. set (t := if bool_decide _ then _ else _) in *.
    assert (Hta : Forall is_ascii t).
    { eapply Forall_impl; [exact (type_chars _ Ht')|]. intros c Hc. apply printable in Hc. unfold is_ascii. lia. }
    assert (Hl1 : Forall is_ascii (lit "; filename=")) by by apply ascii_check. assert (Hl2 : Forall is_ascii (lit "Content-Type: ")) by by apply ascii_check.
    rewrite (encode_id CRLF) by done.
    rewrite (encode_ascii prefix), (encode_app (escape name false)), (encode_ascii [QUOTE]), (encode_ascii (lit "; filename=")), (encode_ascii [QUOTE]),
      (encode_app (escape (file_name f) true)), (encode_ascii [QUOTE]), (encode_ascii CRLF), (encode_ascii (lit "Content-Type: ")), (encode_ascii t), (encode_id (CRLF ++ CRLF))
      by auto 20 using well_formed_app, well_formed_ascii, well_formed_ascii_app, Forall_app_2.
    unfold file_headers, line_text, header_line, disposition, param, quoted, prefix. cbn [flat_map]. rewrite app_nil_r. by rewrite <-!app_assoc.
Qed.

Lemma chunks_flat prefix fd : for_of (S (length fd)) fd 0 (fun x chunks => chunks ++ entry_chunks prefix x) [] =
  flat_map (fun e => entry_chunks prefix (entry_name e, entry_value e)) fd.
Proof.
  etransitivity; [exact (for_of_all (fun x chunks => chunks ++ entry_chunks prefix x) fd [] [])|].
  enough (E : forall acc, foldl (fun a e => a ++ entry_chunks prefix (entry_name e, entry_value e)) acc fd =
    acc ++ flat_map (fun e => entry_chunks prefix (entry_name e, entry_value e)) fd) by apply E.
  induction fd as [|e fd IH]; intros acc; cbn [foldl flat_map]; [by rewrite app_nil_r|]. by rewrite IH, app_assoc.
Qed.

(** The bytes of a form: a boundary, and what comes after it. *)
Lemma form_bytes st b p fd : Forall is_ascii b -> boundary p = lit "--" ++ b -> Forall (entry_ok st (lit "--" ++ b)) fd ->
  let prefix := lit "--" ++ b ++ CRLF ++ lit "Content-Disposition: form-data; name=" ++ [QUOTE] in
  flat_map (init_bytes encode st false) (flat_map (fun e => entry_chunks prefix (entry_name e, entry_value e)) fd ++ [IString (lit "--" ++ b ++ lit "--")]) =
  boundary p ++ rest_text p st fd.
Proof.
  intros Hb Ep HF prefix. induction HF as [|e fd He _ IH].
  - cbn [flat_map app init_bytes rest_text]. rewrite app_nil_r, Ep, <-app_assoc. apply encode_id.
    repeat (apply Forall_app; split); try done; by apply ascii_check.
  - cbn [flat_map rest_text]. rewrite <-app_assoc, flat_map_app, IH. unfold prefix. rewrite entry_bytes by done. unfold part_text. rewrite Ep. by rewrite <-!app_assoc.
Qed.

Lemma form_sent st r1 r2 p fd : let b := random_boundary r1 r2 in store_ok st -> number_text r1 -> number_text r2 ->
  boundary p = lit "--" ++ b -> Forall (entry_ok st (lit "--" ++ b)) fd ->
  exists st' blob, formDataToBlob toLowerCase encode r1 r2 fd st = (st', Ok blob) /\ store_ok st' /\ extends st st' /\ blob_ok st' blob /\
    blob_bytes st' blob = boundary p ++ rest_text p st fd /\ blob_type blob = lit "multipart/form-data; boundary=" ++ b.
Proof.
  intros b Hst H1 H2 Ep HF. destruct (random_boundary_chars r1 r2 H1 H2) as [Hne Hb]. fold b in Hne, Hb.
  destruct (boundary_token b Hne Hb) as (_ & Ha & _ & Hu & Hn). unfold formDataToBlob. fold b. rewrite chunks_flat. set (prefix := lit "--" ++ _).
  destruct (blob_new_spec toLowerCase encode (flat_map (fun e => entry_chunks prefix (entry_name e, entry_value e)) fd ++ [IString (lit "--" ++ b ++ lit "--")]) false
    (lit "multipart/form-data; boundary=" ++ b) st Hst) as (st' & blob & E & A1 & A2 & A3 & A4 & A5).
  { apply Forall_app. split; [|by constructor]. clear -HF. induction HF as [|e fd He _ IH]; [done|]. cbn [flat_map]. apply Forall_app. split; [|done].
    destruct He as [_ Hv _]. destruct e as [n [v|f]]; cbn [entry_value entry_name entry_chunks] in *; [by constructor|]. destruct Hv as (_ & _ & Hv). by repeat constructor. }
  pose proof (form_bytes st b p fd Ha Ep HF) as Ef. cbv zeta in Ef. fold prefix in Ef. rewrite Ef in A4. exists st', blob. split; [exact E|]. split; [done|]. split; [done|]. split; [done|]. split; [done|].
  rewrite A5. apply lower_chars; apply Forall_app; (split; [by repeat constructor|done]).
Qed.

(** ** Parsing it again *)

Lemma parse_form st0 st c b p clock fd : Forall is_ascii b -> Forall (fun c => c <> CR /\ c <> LF) b -> store_ok st -> cache_ok c ->
  boundary p = lit "--" ++ b -> body p = (lit "--" ++ b) ++ rest_text p st0 fd -> boundaryChars p = encode (lit "--" ++ b) -> Forall (entry_ok st0 (lit "--" ++ b)) fd ->
  exists c' st' fd', parse toLowerCase inherited encode decode p clock (c, st) = ((c', st'), Ok fd') /\ cache_ok c' /\ store_ok st' /\ Forall2 (survives st0 st') fd fd'.
Proof.
  intros Ha Hb Hst Hc E1 E3 E2 HF. set (d := lit "--" ++ b) in *. assert (Hd : Forall is_ascii d) by (apply Forall_app; split; [by apply ascii_check|done]).
  assert (Hbreak : Forall (fun c => c <> CR /\ c <> LF) d) by (apply Forall_app; split; [by repeat constructor|done]).
  rewrite (encode_id d) in E2 by done.
  unfold parse. rewrite E1. destruct fd as [|e fd].
  - cbn [rest_text] in E3. rewrite E3, (proj2 (Z.ltb_lt _ _)) by (rewrite slen_app; change (slen (lit "--")) with 2; pose proof (slen_nonneg d); lia).
    assert (Hall : Forall is_ascii (d ++ lit "--")) by (apply Forall_app; split; [done|by apply ascii_check]).
    assert (Ed : decode (d ++ lit "--") = d ++ lit "--").
    { rewrite <-(encode_id (d ++ lit "--")) at 1 by done. apply utf8_decode; [by apply well_formed_ascii|done]. }
    rewrite Ed. unfold str_eqb at 1. rewrite bool_decide_true by done. exists c, st, []. done.
  - rewrite (proj2 (Z.ltb_ge _ _)).
    2:{ rewrite E3. cbn [rest_text]. unfold part_text. rewrite E1, !slen_app, slen_crlf. pose proof (slen_nonneg (line_text (entry_lines e))).
        pose proof (slen_nonneg (entry_content st0 e)). pose proof (slen_nonneg (rest_text p st0 fd)). lia. }
    destruct (loop_entries p clock ltac:(by rewrite E1) ltac:(by rewrite E1) ltac:(by rewrite E1) st0 (e :: fd) d (mkState formdata_new [] 0 0 0) c st E3) as (c' & st' & s' & fd' & B1 & B2 & B3 & B4 & B5 & _);
      [by left|done|done|by rewrite E1|done|done|].
    assert (El : parse_loop toLowerCase inherited encode decode p clock (length (body p)) 0 (mkState formdata_new [] 0 0 0) (c, st) = ((c', st'), Ok s')).
    { rewrite E3, length_app. apply (loop_seg toLowerCase inherited encode decode p clock [] d _ _ _ (c, st) (mkState formdata_new [] 0 0 0)); [|done].
      apply (skip_segment _ _ _ _ _ _ d [] (rest_text p st0 (e :: fd))); [done|by left|]. eapply Forall_impl; [exact Hbreak|]. by intros x [_ Hx]. }
    unfold m_bind. rewrite El. exists c', st', fd'. cbn [app formData] in B2. by rewrite B2.
Qed.
End FormData.

(** ** Main theorems *)

Lemma createEntry_spec {Url : Type} `{Countable Url} (toLowerCase : str -> str) (encode : str -> list Z) (name : str) (value : FormArg)
    (filename : option str) (now : Z) (st : BlobStore Url) :
  exists st' e, createEntry toLowerCase encode name value filename now st = (st', Ok e) /\ entry_name e = name.
Proof. unfold createEntry. destruct value, filename; by eexists _, _. Qed.

Lemma convert_entry_spec {Url : Type} `{Countable Url} (toLowerCase : str -> str) (encode : str -> list Z) (name : str) (value : FormArg)
    (filename : option str) (now : Z) (st : BlobStore Url) :
  exists st' e, convert_entry toLowerCase encode name value filename now st = (st', Ok e) /\ entry_name e = USVString name.
Proof. unfold convert_entry. destruct value; apply createEntry_spec. Qed.

(** C21. The methods of [FormData] on the list of entries, for a name with its lone
    surrogates replaced: [delete] leaves the entries of other names, [getAll] gives
    the values in order, [get] the first, [has] whether there is one; [append] adds
    an entry at the end, and [set] puts it in the place of the first of the name and
    removes the others, so that the values of other names stay. *)
Theorem formdata_lists {Url : Type} `{Countable Url} (toLowerCase : str -> str) (encode : str -> list Z) (fd : FormData) (name : str)
    (value : FormArg) (filename : option str) (now : Z) (st : BlobStore Url) :
  let n := USVString name in
  formdata_delete name fd = others n fd /\
  formdata_getAll name fd = values_of n fd /\
  formdata_get name fd = head (values_of n fd) /\
  (formdata_has name fd = true <-> values_of n fd <> []) /\
  exists st' e, entry_name e = n /\
    formdata_append toLowerCase encode name value filename now fd st = (st', Ok (fd ++ [e])) /\
    formdata_set toLowerCase encode name value filename now fd st = (st', Ok (replaced n e fd)) /\
    forall m, values_of m (replaced n e fd) = if bool_decide (m = n) then [entry_value e] else values_of m fd.
Proof.
  intros n. split; [exact (delete_loop_spec n fd [])|]. split; [exact (getAll_loop_spec n fd [])|]. split; [apply get_loop_spec|]. split; [apply has_loop_spec|].
  destruct (convert_entry_spec toLowerCase encode name value filename now st) as (st' & e & E & En). exists st', e. split; [done|].
  unfold formdata_append, formdata_set, io_bind. rewrite E. split; [done|]. split; [|intros m; by apply values_replaced].
  pose proof (replace_loop_spec n e fd []) as Er. cbn [app length] in Er. fold n. destruct (replace_loop (length fd) n e false 0 fd) as [fd' added].
  unfold io_ret. by rewrite Er.
Qed.

(** [e'] is what the other side gets for [e]: the name and the file name escaped,
    line breaks of a string made uniform, and a file with the same bytes and type,
    the default type for none. *)
Definition received {Url : Type} `{Countable Url} (st st' : BlobStore Url) (e e' : FormDataEntry) : Prop :=
  entry_name e' = escape (entry_name e) false /\
  match entry_value e, entry_value e' with
  | FString s, FString s' => s' = replace_breaks s
  | FFile f, FFile f' => file_name f' = escape (file_name f) true /\ blob_type (file_blob f') = sent_type f /\
      exists bytes, arrayBuffer (file_blob f) st = (st, Ok bytes) /\ arrayBuffer (file_blob f') st' = (st', Ok bytes)
  | _, _ => False
  end.

Lemma survives_received {Url : Type} `{Countable Url} (encode : str -> list Z) (st st' : BlobStore Url) d e e' :
  entry_ok encode st d e -> survives st st' e e' -> received st st' e e'.
Proof.
  intros [_ Hv _] [H1 H2]. split; [done|]. destruct (entry_value e) as [v|f], (entry_value e') as [v'|f']; try done.
  destruct H2 as (H2 & H3 & H4 & H5), Hv as (_ & _ & Hv). split; [done|]. split; [done|]. exists (blob_bytes st (file_blob f)).
  split; [by apply arrayBuffer_spec|]. rewrite <-H5. by apply arrayBuffer_spec.
Qed.

(** C9. Form data survives [multipart/form-data]: the blob that [formDataToBlob] makes
    has a type that names the boundary, and its bytes parse, with that type, to the
    same entries in the same order.  Names and file names must not be empty or start
    with a byte order mark and must have no semicolon, equals sign, NUL or lone
    surrogate; a string must not start with a byte order mark or have a lone
    surrogate; the type of a file must be as a constructor leaves one, with no space
    around it (an empty one comes back as [application/octet-stream]); the blobs of
    files are in the store; and the boundary must not be in a content. *)
Theorem multipart_roundtrip {Url : Type} `{Countable Url} (toLowerCase : str -> str) (inherited : str -> bool) (encode : str -> list Z)
    (decode : list Z -> str) (parseUrlEncoded : list Z -> list (str * str)) (clock : Z -> Z) (c : name_cache) (st : BlobStore Url)
    (random1 random2 : str) (fd : FormData) :
  LowerCase toLowerCase -> Utf8 encode decode -> (forall n, inherited n = true -> token n = true) ->
  cache_ok c -> store_ok st -> number_text random1 -> number_text random2 ->
  Forall (entry_ok encode st (lit "--" ++ random_boundary random1 random2)) fd ->
  exists st1 blob bytes m c2 st2 fd',
    formDataToBlob toLowerCase encode random1 random2 fd st = (st1, Ok blob) /\
    arrayBuffer blob st1 = (st1, Ok bytes) /\
    parseMimeType toLowerCase (blob_type blob) = Ok (Some m) /\
    package_form_data toLowerCase inherited encode decode parseUrlEncoded bytes (Some m) clock (c, st1) = ((c2, st2), Ok fd') /\
    Forall2 (received st st2) fd fd'.
Proof.
  intros HL HU Hi Hc Hst H1 H2 HF. set (b := random_boundary random1 random2) in *.
  destruct (random_boundary_chars random1 random2 H1 H2) as [Hne Hb]. fold b in Hne, Hb. destruct (boundary_token b Hne Hb) as (Ht & Ha & Hbr & _ & _).
  set (p0 := mkParser (lit "--" ++ b) [] []).
  destruct (form_sent toLowerCase encode decode st random1 random2 p0 fd Hst H1 H2 eq_refl HF) as (st1 & blob & E1 & A1 & A2 & A3 & A4 & A5). fold b in A5.
  set (p := mkParser (lit "--" ++ b) (blob_bytes st1 blob) (encode (lit "--" ++ b))).
  destruct (parse_form toLowerCase inherited encode decode Hi st st1 c b p clock fd Ha Hbr A1 Hc eq_refl A4 eq_refl HF) as (c2 & st2 & fd' & E2 & B1 & B2 & B3).
  exists st1, blob, (blob_bytes st1 blob), (mkMime (lit "multipart") (lit "form-data") [(lit "boundary", b)]), c2, st2, fd'.
  split; [done|]. split; [by apply arrayBuffer_spec|]. split; [rewrite A5; by apply parse_multipart|]. split.
  - unfold package_form_data. change (str_eqb (essence (mkMime (lit "multipart") (lit "form-data") [(lit "boundary", b)])) (lit "multipart/form-data")) with true. cbv iota.
    change (map_get (lit "boundary") (parameters (mkMime (lit "multipart") (lit "form-data") [(lit "boundary", b)]))) with (Some b).
    unfold parseFormData, parser_new, m_bind, m_of. destruct b as [|x b0] eqn:Eb; [done|]. exact E2.
  - clear -HF B3. induction B3 as [|e e' fd fd' He _ IH]; constructor; apply Forall_cons in HF as [Hok HF]; [|by apply IH].
    by eapply survives_received.
Qed.

(** A coder as the theorem asks for: one byte for ASCII, three for other units. *)
Definition three_bytes (c : Z) : list Z := if (0 <=? c) && (c <? 128) then [c] else [224 + c / 4096; 128 + c / 64 mod 64; 128 + c mod 64].
Fixpoint from_three_bytes (l : list Z) : str :=
  match l with
  | [] => []
  | a :: l' =>
      if a <? 128 then a :: from_three_bytes l'
      else match l' with
           | b :: c :: l'' => ((a - 224) * 4096 + (b - 128) * 64 + (c - 128)) :: from_three_bytes l''
           | _ => []
           end
  end.

Lemma three_bytes_cases c : 0 <= c < 65536 -> (0 <= c < 128 /\ three_bytes c = [c]) \/
  (128 <= c /\ three_bytes c = [224 + c / 4096; 128 + c / 64 mod 64; 128 + c mod 64] /\
    Forall (fun b => 128 <= b < 256) (three_bytes c) /\ c = (c / 4096) * 4096 + (c / 64 mod 64) * 64 + c mod 64).
Proof.
  intros Hc. unfold three_bytes. destruct (decide (c < 128)); [left; split; [lia|by zbool]|]. right. split; [lia|]. zbool. cbn [andb]. split; [done|].
  assert (0 <= c / 4096 < 16) by (split; [apply Z.div_pos|apply Z.div_lt_upper_bound]; lia).
  pose proof (Z.mod_pos_bound (c / 64) 64 ltac:(lia)). pose proof (Z.mod_pos_bound c 64 ltac:(lia)).
  split; [repeat (apply Forall_cons_2; [lia|]); apply Forall_nil_2|].
  pose proof (Z.div_mod c 64 ltac:(lia)). pose proof (Z.div_mod (c / 64) 64 ltac:(lia)). rewrite Zdiv.Zdiv_Zdiv in * by lia. change (64 * 64) with 4096 in *. lia.
Qed.

#[export] Instance three_bytes_utf8 : Utf8 (flat_map three_bytes) from_three_bytes.
Proof.
  split.
  - intros s Hs. induction Hs as [|c s Hc _ IH]; [done|]. cbn [flat_map]. rewrite IH. unfold three_bytes, is_ascii in *. by zbool.
  - intros s t _ _. apply flat_map_app.
  - intros s [_ Hs]. induction Hs as [|c s Hc _ IH]; [done|]. cbn [flat_map]. apply Forall_app. split; [|done].
    destruct (three_bytes_cases c Hc) as [[H ->]|(_ & _ & H & _)]; [by constructor; [lia|]|]. eapply Forall_impl; [exact H|]. intros; simpl in *; lia.
  - intros s c [_ Hs] Ha Hin. induction Hs as [|x s Hx _ IH]; [done|]. cbn [flat_map] in Hin. apply elem_of_app in Hin as [Hin|Hin]; [|right; by apply IH].
    destruct (three_bytes_cases x Hx) as [[H E]|(_ & _ & H & _)]; [rewrite E in Hin; apply list_elem_of_singleton in Hin as ->; left|].
    rewrite Forall_forall in H. specialize (H c Hin). unfold is_ascii in Ha. simpl in H. lia.
  - intros s [_ Hs] _. induction Hs as [|c s Hc _ IH]; [done|]. cbn [flat_map].
    destruct (three_bytes_cases c Hc) as [[H ->]|(H1 & -> & H2 & E)]; cbn [app from_three_bytes].
    + rewrite (proj2 (Z.ltb_lt _ _)) by lia. by rewrite IH.
    + assert (0 <= c / 4096) by (apply Z.div_pos; lia). rewrite (proj2 (Z.ltb_ge _ _)) by lia. rewrite IH. f_equal. lia.
Qed.

Lemma short_content (d s : list Z) : (length s < length d)%nat -> ~ occurs d s.
Proof. intros Hl (a & b & ->). rewrite !length_app in Hl. lia. Qed.

Lemma number_check s : forallb (fun c => ((48 <=? c) && (c <=? 57)) || (c =? 46) || (c =? 101) || (c =? 45)) s = true -> number_text s.
Proof.
  rewrite forallb_forall. intros Hs. apply Forall_forall. intros c Hc. apply list_elem_of_In, Hs in Hc.
  rewrite !orb_true_iff, andb_true_iff, !Z.leb_le, !Z.eqb_eq in Hc. tauto.
Qed.

Lemma plain_sendable s : s <> [] -> forallb (fun c => (0 <? c) && (c <? 128) && negb (c =? SEMICOLON) && negb (c =? EQUALS)) s = true -> sendable s.
Proof.
  intros Hne Hs. rewrite forallb_forall in Hs.
  assert (HF : Forall (fun c => 0 < c < 128 /\ c <> SEMICOLON /\ c <> EQUALS) s).
  { apply Forall_forall. intros c Hc. apply list_elem_of_In, Hs in Hc. reflect_bools. lia. }
  split; [done| | |].
  - apply well_formed_ascii. eapply Forall_impl; [exact HF|]. unfold is_ascii. intros; simpl in *; lia.
  - destruct s as [|c s]; [done|]. apply Forall_cons in HF as [Hc _]. intros [= ->]. unfold BOM in Hc. lia.
  - eapply Forall_impl; [exact HF|]. unfold safe_unit. intros; simpl in *; lia.
Qed.

Lemma multipart_roundtrip_witness :
  let st := mkStore (Url := Z) {[0 := InMemoryBlobPart [0; 255; 13]]} ∅ 1 in
  let file := mkFile (mkBlob (lit "image/png") 3 [inl (mkRef 0 3)]) (lit "a.png") 0 in
  let fd := [mkEntry (lit "text") (FString (lit "a" ++ [LF] ++ lit "b")); mkEntry [233] (FFile file)] in
  exists st1 blob bytes m c2 st2 fd',
    formDataToBlob (map ascii_lower) (flat_map three_bytes) (lit "0.25") (lit "1.5e-7") fd st = (st1, Ok blob) /\
    arrayBuffer blob st1 = (st1, Ok bytes) /\ parseMimeType (map ascii_lower) (blob_type blob) = Ok (Some m) /\
    package_form_data (map ascii_lower) (fun _ => false) (flat_map three_bytes) from_three_bytes (fun _ => []) bytes (Some m) (fun i => i) (empty_cache, st1) =
      ((c2, st2), Ok fd') /\ Forall2 (received st st2) fd fd'.
Proof.
  apply (multipart_roundtrip (map ascii_lower) (fun _ => false) (flat_map three_bytes) from_three_bytes (fun _ => []) (fun i => i) empty_cache
    (mkStore (Url := Z) {[0 := InMemoryBlobPart [0; 255; 13]]} ∅ 1) (lit "0.25") (lit "1.5e-7")).
  - apply ascii_lower_case.
  - apply three_bytes_utf8.
  - done.
  - apply map_Forall_empty.
  - apply map_Forall_singleton. split; [simpl; lia|exact I].
  - by apply number_check.
  - by apply number_check.
  - apply Forall_cons_2; [|apply Forall_cons_2; [|apply Forall_nil_2]].
    + split; [by apply plain_sendable|split; [by apply well_formed_ascii, ascii_check|done]|]. apply short_content. vm_compute. lia.
    + split; [| |apply short_content; vm_compute; lia].
      * split; [done|by apply well_formed_plain; apply Forall_cons_2; [lia|apply Forall_nil_2]|done|]. apply Forall_cons_2; [|apply Forall_nil_2].
        unfold safe_unit, SEMICOLON, EQUALS. lia.
      * cbn [entry_value file_name file_blob]. split; [by apply plain_sendable|]. split; [split; [by repeat constructor|by repeat constructor|done|done]|].
        apply blob_ok_unfold. split; [reflexivity|]. constructor; [by exists (InMemoryBlobPart [0; 255; 13])|constructor].
Defined.
