(* ===== verification/Crypto.v ===== *)
(** * Web Crypto: keys and algorithms

    Models the first part of [src/ext/crypto/00_crypto.js]: the registry of
    algorithms and [normalizeAlgorithm], the [CryptoKey] objects with the store of
    key data, and the functions that keys are made with.

    Scripts can reach some of the objects a key is made of: [key.usages] and
    [key.algorithm] return the internal array and object, and an exported key can be
    the buffer the key is kept in.  These objects are therefore in a heap, the
    [world], and a [CryptoKey] refers to them.  A script can also define properties
    on a key object, which hide the accessors of the prototype: [own_extractable]
    and [own_usages].

    A string the code compares with constants is a constructor for each constant,
    and one for the others.  The ops, which call the cryptographic libraries, are
    parameters ([crypto_ops]); [toUpperCase] is one too. *)

From Stdlib Require Import ZArith Lia.
From stdpp Require Import base list gmap numbers option strings.
From S2P Require Import Prelude JsNumber WebIdl.

#[local] Open Scope Z_scope.

Abbreviation bytes := (list Z).

(** ** Names *)

Inductive Name :=
  | RSASSA | RSA_PSS | RSA_OAEP | ECDSA | ECDH | AES_CTR | AES_CBC | AES_GCM | AES_KW | HMAC
  | HKDF | PBKDF2 | X25519 | Ed25519 | SHA1 | SHA256 | SHA384 | SHA512
  | OtherName (s : str).

#[export] Instance Name_eq_dec : EqDecision Name.
Proof. solve_decision. Defined.

Definition name_string (n : Name) : str :=
  match n with
  | RSASSA => lit "RSASSA-PKCS1-v1_5" | RSA_PSS => lit "RSA-PSS" | RSA_OAEP => lit "RSA-OAEP"
  | ECDSA => lit "ECDSA" | ECDH => lit "ECDH" | AES_CTR => lit "AES-CTR" | AES_CBC => lit "AES-CBC"
  | AES_GCM => lit "AES-GCM" | AES_KW => lit "AES-KW" | HMAC => lit "HMAC" | HKDF => lit "HKDF"
  | PBKDF2 => lit "PBKDF2" | X25519 => lit "X25519" | Ed25519 => lit "Ed25519" | SHA1 => lit "SHA-1"
  | SHA256 => lit "SHA-256" | SHA384 => lit "SHA-384" | SHA512 => lit "SHA-512" | OtherName s => s
  end.

Inductive Curve := P256 | P384 | P521 | OtherCurve (s : str).

#[export] Instance Curve_eq_dec : EqDecision Curve.
Proof. solve_decision. Defined.

Definition curve_of (s : str) : Curve :=
  if str_eqb s (lit "P-256") then P256 else if str_eqb s (lit "P-384") then P384
  else if str_eqb s (lit "P-521") then P521 else OtherCurve s.

Definition supportedNamedCurves : list Curve := [P256; P384; P521].

Inductive KeyType := Public | Private | Secret.
Inductive KeyFormat := Raw | Pkcs8 | Spki | Jwk.
Inductive KeyUsage := Encrypt | Decrypt | Sign | Verify | DeriveKey | DeriveBits | WrapKey | UnwrapKey.

#[export] Instance KeyType_eq_dec : EqDecision KeyType.
Proof. solve_decision. Defined.
#[export] Instance KeyFormat_eq_dec : EqDecision KeyFormat.
Proof. solve_decision. Defined.
#[export] Instance KeyUsage_eq_dec : EqDecision KeyUsage.
Proof. solve_decision. Defined.

Definition recognisedUsages : list KeyUsage := [Encrypt; Decrypt; Sign; Verify; DeriveKey; DeriveBits; WrapKey; UnwrapKey].

Definition usage_string (u : KeyUsage) : str :=
  match u with
  | Encrypt => lit "encrypt" | Decrypt => lit "decrypt" | Sign => lit "sign" | Verify => lit "verify"
  | DeriveKey => lit "deriveKey" | DeriveBits => lit "deriveBits" | WrapKey => lit "wrapKey" | UnwrapKey => lit "unwrapKey"
  end.

(** [ArrayPrototypeIncludes] *)
Definition includes {A} `{EqDecision A} (l : list A) (x : A) : bool := bool_decide (x ∈ l).

Definition usageIntersection (a b : list KeyUsage) : list KeyUsage := filter (fun i => includes b i = true) a.

(** [ArrayPrototypeFind(usages, (u) => !ArrayPrototypeIncludes(allowed, u)) !== undefined] *)
Definition other_usage (usages allowed : list KeyUsage) : bool := existsb (fun u => negb (includes allowed u)) usages.

(** ** Algorithms *)

Inductive crypto_op :=
  | Odigest | OgenerateKey | Osign | Overify | OimportKey | OderiveBits | Oencrypt | Odecrypt
  | OgetKeyLength | OwrapKey | OunwrapKey.

(** The dictionaries of parameters. *)
Inductive ParamType :=
  | RsaHashedKeyGenParams | EcKeyGenParams | AesKeyGenParams | HmacKeyGenParams | RsaPssParams | EcdsaParams
  | RsaHashedImportParams | EcKeyImportParams | HmacImportParams | HkdfParams | Pbkdf2Params | EcdhKeyDeriveParams
  | RsaOaepParams | AesCbcParams | AesGcmParams | AesCtrParams | AesDerivedKeyParams.

Definition supportedAlgorithms (op : crypto_op) : list (Name * option ParamType) :=
  match op with
  | Odigest => [(SHA1, None); (SHA256, None); (SHA384, None); (SHA512, None)]
  | OgenerateKey =>
      [(RSASSA, Some RsaHashedKeyGenParams); (RSA_PSS, Some RsaHashedKeyGenParams); (RSA_OAEP, Some RsaHashedKeyGenParams);
       (ECDSA, Some EcKeyGenParams); (ECDH, Some EcKeyGenParams); (AES_CTR, Some AesKeyGenParams); (AES_CBC, Some AesKeyGenParams);
       (AES_GCM, Some AesKeyGenParams); (AES_KW, Some AesKeyGenParams); (HMAC, Some HmacKeyGenParams); (X25519, None); (Ed25519, None)]
  | Osign | Overify =>
      [(RSASSA, None); (RSA_PSS, Some RsaPssParams); (ECDSA, Some EcdsaParams); (HMAC, None); (Ed25519, None)]
  | OimportKey =>
      [(RSASSA, Some RsaHashedImportParams); (RSA_PSS, Some RsaHashedImportParams); (RSA_OAEP, Some RsaHashedImportParams);
       (ECDSA, Some EcKeyImportParams); (ECDH, Some EcKeyImportParams); (HMAC, Some HmacImportParams); (HKDF, None); (PBKDF2, None);
       (AES_CTR, None); (AES_CBC, None); (AES_GCM, None); (AES_KW, None); (Ed25519, None); (X25519, None)]
  | OderiveBits =>
      [(HKDF, Some HkdfParams); (PBKDF2, Some Pbkdf2Params); (ECDH, Some EcdhKeyDeriveParams); (X25519, Some EcdhKeyDeriveParams)]
  | Oencrypt | Odecrypt =>
      [(RSA_OAEP, Some RsaOaepParams); (AES_CBC, Some AesCbcParams); (AES_GCM, Some AesGcmParams); (AES_CTR, Some AesCtrParams)]
  | OgetKeyLength =>
      [(AES_CBC, Some AesDerivedKeyParams); (AES_CTR, Some AesDerivedKeyParams); (AES_GCM, Some AesDerivedKeyParams);
       (AES_KW, Some AesDerivedKeyParams); (HMAC, Some HmacImportParams); (HKDF, None); (PBKDF2, None)]
  | OwrapKey | OunwrapKey => [(AES_KW, None)]
  end.

(** [supportedAlgorithms[op][name] !== undefined] *)
Definition supports (op : crypto_op) (name : Name) : bool := existsb (fun e => bool_decide (e.1 = name)) (supportedAlgorithms op).

(** A buffer or a view of one. *)
Inductive buffer_source := ArrayBuffer (buffer : bytes) | BufferView (buffer : bytes) (byteOffset byteLength : Z).

Definition copyBuffer (input : buffer_source) : bytes :=
  match input with
  | BufferView buffer byteOffset byteLength => slice buffer byteOffset (byteOffset + byteLength)
  | ArrayBuffer buffer => slice buffer 0 (slen buffer)
  end.

(** The members of an algorithm object as a script gives it; a key is named by its
    reference. *)
Record Members := mkMembers {
  m_name : option str;
  m_length : option jnum;
  m_modulusLength : option jnum;
  m_tagLength : option jnum;
  m_saltLength : option jnum;
  m_iterations : option jnum;
  m_publicExponent : option bytes;
  m_iv : option buffer_source;
  m_additionalData : option buffer_source;
  m_label : option buffer_source;
  m_counter : option buffer_source;
  m_salt : option buffer_source;
  m_info : option buffer_source;
  m_namedCurve : option str;
  m_public : option Z;
}.

Inductive AlgorithmIdentifier :=
  | AlgString (s : str)
  | AlgObject (hash : option AlgorithmIdentifier) (m : Members).

Definition only_name (s : str) : Members :=
  mkMembers (Some s) None None None None None None None None None None None None None None.

(** A normalized algorithm; the buffers are read when the call starts. *)
Record Normalized := mkNorm {
  n_name : Name;
  n_hash : option Name;
  n_length : option Z;
  n_modulusLength : option Z;
  n_tagLength : option Z;
  n_saltLength : option Z;
  n_iterations : option Z;
  n_publicExponent : option bytes;
  n_iv : option bytes;
  n_additionalData : option bytes;
  n_label : option bytes;
  n_counter : option bytes;
  n_salt : option bytes;
  n_info : option bytes;
  n_namedCurve : option Curve;
  n_public : option Z;
}.

Definition no_params (name : Name) : Normalized :=
  mkNorm name None None None None None None None None None None None None None None None.

(** A normalized algorithm passed to a method again. *)
Definition as_identifier (n : Normalized) : AlgorithmIdentifier :=
  AlgObject ((fun h => AlgObject None (only_name (name_string h))) <$> n_hash n)
    (mkMembers (Some (name_string (n_name n))) (int <$> n_length n) (int <$> n_modulusLength n) (int <$> n_tagLength n)
      (int <$> n_saltLength n) (int <$> n_iterations n) (n_publicExponent n) (ArrayBuffer <$> n_iv n) (ArrayBuffer <$> n_additionalData n)
      (ArrayBuffer <$> n_label n) (ArrayBuffer <$> n_counter n) (ArrayBuffer <$> n_salt n) (ArrayBuffer <$> n_info n)
      ((fun c => match c with P256 => lit "P-256" | P384 => lit "P-384" | P521 => lit "P-521" | OtherCurve s => s end) <$> n_namedCurve n)
      (n_public n)).

(** ** Normalizing *)

Section Normalize.
Context (toUpperCase : str -> str).

(** The loop over the registered names: the last one that matches. *)
Fixpoint find_algorithm (registered : list (Name * option ParamType)) (algName : str) (found : option (Name * option ParamType)) :
    option (Name * option ParamType) :=
  match registered with
  | [] => found
  | (key, type) :: registered =>
      if str_eqb (toUpperCase (name_string key)) (toUpperCase algName)
      then find_algorithm registered (name_string key) (Some (key, type))
      else find_algorithm registered algName found
  end.

Definition missing_member : js_error := JsTypeError "required member is undefined".
Definition required {A} (o : option A) : jsres A := match o with Some a => Ok a | None => Throw missing_member end.

(** An integer with [enforceRange]. *)
Definition enforced (conversion : (jnum -> bool) -> (jnum -> jsres jnum) -> jnum -> conversion_opts -> jsres jnum) (x : jnum) : jsres Z :=
  let? r := conversion (fun _ => false) Ok x (mkOpts true false) in Ok (BigInt r).
Definition optional_long (o : option jnum) : jsres (option Z) :=
  match o with None => Ok None | Some x => let? z := enforced unsigned_long x in Ok (Some z) end.

(** [webidl.converters[desiredType](algorithm)] without the hash. *)
Definition convert (t : ParamType) (name : Name) (m : Members) : jsres Normalized :=
  match t with
  | RsaHashedKeyGenParams =>
      let? modulusLength := required (m_modulusLength m) in
      let? modulusLength := enforced unsigned_long modulusLength in
      let? publicExponent := required (m_publicExponent m) in
      Ok (mkNorm name None None (Some modulusLength) None None None (Some publicExponent) None None None None None None None None)
  | EcKeyGenParams | EcKeyImportParams =>
      let? namedCurve := required (m_namedCurve m) in
      Ok (mkNorm name None None None None None None None None None None None None None (Some (curve_of namedCurve)) None)
  | AesKeyGenParams =>
      let? length := required (m_length m) in
      let? length := enforced unsigned_short length in
      Ok (mkNorm name None (Some length) None None None None None None None None None None None None None)
  | AesDerivedKeyParams =>
      let? length := required (m_length m) in
      let? length := enforced unsigned_long length in
      Ok (mkNorm name None (Some length) None None None None None None None None None None None None None)
  | HmacKeyGenParams | HmacImportParams =>
      let? length := optional_long (m_length m) in
      Ok (mkNorm name None length None None None None None None None None None None None None None)
  | RsaPssParams =>
      let? saltLength := required (m_saltLength m) in
      let? saltLength := enforced unsigned_long saltLength in
      Ok (mkNorm name None None None None (Some saltLength) None None None None None None None None None None)
  | EcdsaParams | RsaHashedImportParams => Ok (no_params name)
  | HkdfParams =>
      let? salt := required (m_salt m) in
      let? info := required (m_info m) in
      Ok (mkNorm name None None None None None None None None None None None (Some (copyBuffer salt)) (Some (copyBuffer info)) None None)
  | Pbkdf2Params =>
      let? iterations := required (m_iterations m) in
      let? iterations := enforced unsigned_long iterations in
      let? salt := required (m_salt m) in
      Ok (mkNorm name None None None None None (Some iterations) None None None None None (Some (copyBuffer salt)) None None None)
  | EcdhKeyDeriveParams =>
      let? public := required (m_public m) in
      Ok (mkNorm name None None None None None None None None None None None None None None (Some public))
  | RsaOaepParams =>
      Ok (mkNorm name None None None None None None None None None (copyBuffer <$> m_label m) None None None None None)
  | AesCbcParams =>
      let? iv := required (m_iv m) in
      Ok (mkNorm name None None None None None None None (Some (copyBuffer iv)) None None None None None None None)
  | AesGcmParams =>
      let? iv := required (m_iv m) in
      let? tagLength := optional_long (m_tagLength m) in
      Ok (mkNorm name None None None tagLength None None None (Some (copyBuffer iv)) (copyBuffer <$> m_additionalData m) None None None None None None)
  | AesCtrParams =>
      let? counter := required (m_counter m) in
      let? length := required (m_length m) in
      let? length := enforced unsigned_short length in
      Ok (mkNorm name None (Some length) None None None None None None None None (Some (copyBuffer counter)) None None None None)
  end.

(** The dictionaries with a [HashAlgorithmIdentifier]; it is required in all of
    them. *)
Definition has_hash (t : ParamType) : bool :=
  match t with
  | RsaHashedKeyGenParams | HmacKeyGenParams | EcdsaParams | HmacImportParams | HkdfParams | Pbkdf2Params | RsaHashedImportParams => true
  | _ => false
  end.

Definition with_hash (n : Normalized) (hash : Name) : Normalized :=
  mkNorm (n_name n) (Some hash) (n_length n) (n_modulusLength n) (n_tagLength n) (n_saltLength n) (n_iterations n) (n_publicExponent n)
    (n_iv n) (n_additionalData n) (n_label n) (n_counter n) (n_salt n) (n_info n) (n_namedCurve n) (n_public n).

Definition unrecognized : js_error := DOMException "Unrecognized algorithm name" "NotSupportedError".

(** [hash] is what the hash of the object normalizes to. *)
Definition normalize_object (hash : option (jsres Normalized)) (m : Members) (op : crypto_op) : jsres Normalized :=
  let? algName := required (m_name m) in
  match find_algorithm (supportedAlgorithms op) algName None with
  | None => Throw unrecognized
  | Some (name, None) => Ok (no_params name)
  | Some (name, Some desiredType) =>
      let? n := convert desiredType name m in
      if has_hash desiredType then
        let? hash := required hash in
        let? hash := hash in
        Ok (with_hash n (n_name hash))
      else Ok n
  end.

Fixpoint normalizeAlgorithm (algorithm : AlgorithmIdentifier) (op : crypto_op) : jsres Normalized :=
  match algorithm with
  | AlgString s => normalize_object None (only_name s) op
  | AlgObject hash m =>
      normalize_object (match hash with Some h => Some (normalizeAlgorithm h Odigest) | None => None end) m op
  end.
End Normalize.

(** ** Objects *)

(** The object behind [key.algorithm]. *)
Record KeyAlgorithm := mkAlg {
  a_name : Name;
  a_length : option Z;
  a_hash : option Name;
  a_modulusLength : option Z;
  a_publicExponent : option bytes;
  a_namedCurve : option Curve;
}.

(** What [KEY_STORE] holds: [{ type, data }], or the bytes themselves. *)
Inductive inner := IStored (type : KeyType) (data : Z) | IBytes (data : Z).

(** The same with the contents of the buffer, as an op gets it. *)
Inductive key_material := KStored (type : KeyType) (data : bytes) | KBytes (data : bytes).

Record CryptoKey := mkKey {
  k_type : KeyType;
  k_extractable : bool;
  k_usages : Z;
  k_algorithm : Z;
  k_handle : Z;
  own_extractable : option bool;
  own_usages : option Z;
}.

Record world := mkWorld {
  KEY_STORE : gmap Z inner;
  keys : gmap Z CryptoKey;
  arrays : gmap Z (list KeyUsage);
  algorithms : gmap Z KeyAlgorithm;
  buffers : gmap Z bytes;
  next : Z;
}.

Definition no_algorithm : KeyAlgorithm := mkAlg (OtherName []) None None None None None.
Definition empty_world : world := mkWorld ∅ ∅ ∅ ∅ ∅ 0.

(** Code that changes objects and may throw. *)
Definition M (A : Type) : Type := world -> world * jsres A.
Definition ret {A} (a : A) : M A := fun w => (w, Ok a).
Definition throw {A} (e : js_error) : M A := fun w => (w, Throw e).
Definition bind {A B} (m : M A) (k : A -> M B) : M B := fun w =>
  match m w with
  | (w, Ok a) => k a w
  | (w, Throw e) => (w, Throw e)
  end.
Definition of_res {A} (r : jsres A) : M A := fun w => (w, r).
Definition gets {A} (f : world -> A) : M A := fun w => (w, Ok (f w)).
(** What other code does while a call waits. *)
Definition await (u : world -> world) : M unit := fun w => (u w, Ok tt).
Definition check (b : bool) (e : js_error) : M unit := if b then ret tt else throw e.
Definition try {A} (m h : M A) : M A := fun w => match m w with (w, Ok a) => (w, Ok a) | (w, Throw _) => h w end.

Declare Scope crypto_scope.
Delimit Scope crypto_scope with crypto.
Notation "'let!' x ':=' m 'in' k" := (bind m (fun x => k))
  (at level 10, x name, m at level 100, k at level 200) : crypto_scope.
Notation "'do!' m ';' k" := (bind m (fun _ => k))
  (at level 10, m at level 100, k at level 200) : crypto_scope.
#[local] Open Scope crypto_scope.

Definition alloc_buffer (b : bytes) : M Z := fun w =>
  (mkWorld (KEY_STORE w) (keys w) (arrays w) (algorithms w) (<[next w := b]> (buffers w)) (next w + 1), Ok (next w)).
Definition alloc_array (a : list KeyUsage) : M Z := fun w =>
  (mkWorld (KEY_STORE w) (keys w) (<[next w := a]> (arrays w)) (algorithms w) (buffers w) (next w + 1), Ok (next w)).
Definition alloc_algorithm (a : KeyAlgorithm) : M Z := fun w =>
  (mkWorld (KEY_STORE w) (keys w) (arrays w) (<[next w := a]> (algorithms w)) (buffers w) (next w + 1), Ok (next w)).
(** [const handle = {}; WeakMapPrototypeSet(KEY_STORE, handle, i)] *)
Definition new_handle (i : inner) : M Z := fun w =>
  (mkWorld (<[next w := i]> (KEY_STORE w)) (keys w) (arrays w) (algorithms w) (buffers w) (next w + 1), Ok (next w)).
Definition alloc_key (k : CryptoKey) : M Z := fun w =>
  (mkWorld (KEY_STORE w) (<[next w := k]> (keys w)) (arrays w) (algorithms w) (buffers w) (next w + 1), Ok (next w)).

Definition constructKey (type : KeyType) (extractable : bool) (usages : list KeyUsage) (algorithm handle : Z) : M Z :=
  let! usages := alloc_array usages in
  alloc_key (mkKey type extractable usages algorithm handle None None).

(** [webidl.converters.CryptoKey] *)
Definition get_key (r : Z) : M CryptoKey := fun w =>
  match keys w !! r with Some k => (w, Ok k) | None => (w, Throw (JsTypeError "is not of type CryptoKey")) end.

Definition usages_of (k : CryptoKey) (w : world) : list KeyUsage := default [] (arrays w !! k_usages k).
Definition algorithm_of (k : CryptoKey) (w : world) : KeyAlgorithm := default no_algorithm (algorithms w !! k_algorithm k).
Definition buffer_of (r : Z) (w : world) : bytes := default [] (buffers w !! r).

Definition material (i : inner) (w : world) : key_material :=
  match i with IStored t data => KStored t (buffer_of data w) | IBytes data => KBytes (buffer_of data w) end.

(** [WeakMapPrototypeGet(KEY_STORE, key[_handle])], passed to an op. *)
Definition key_data (k : CryptoKey) : M key_material := fun w =>
  match KEY_STORE w !! k_handle k with
  | Some i => (w, Ok (material i w))
  | None => (w, Throw (JsTypeError "expected key data"))
  end.

(** [key.extractable] and [key.usages] *)
Definition seen_extractable (k : CryptoKey) : bool := default (k_extractable k) (own_extractable k).
Definition seen_usages (k : CryptoKey) : Z := default (k_usages k) (own_usages k).

(** [o.hash.name] *)
Definition hash_name (hash : option Name) : M Name :=
  match hash with Some h => ret h | None => throw (JsTypeError "Cannot read properties of undefined") end.

Definition invalid_usages : js_error := DOMException "Invalid key usages" "SyntaxError".
Definition not_implemented : js_error := DOMException "Not implemented" "NotSupportedError".

(** ** Key lengths *)

(** [null] is [None]. *)
Definition getKeyLength (algorithm : Normalized) : jsres (option Z) :=
  match n_name algorithm with
  | AES_CBC | AES_CTR | AES_GCM | AES_KW =>
      match n_length algorithm with
      | Some length => if includes [128; 192; 256] length then Ok (Some length)
                       else Throw (DOMException "length must be 128, 192, or 256" "OperationError")
      | None => Throw (DOMException "length must be 128, 192, or 256" "OperationError")
      end
  | HMAC =>
      match n_length algorithm with
      | None =>
          match n_hash algorithm with
          | Some SHA1 => Ok (Some 512)
          | Some SHA256 => Ok (Some 512)
          | Some SHA384 => Ok (Some 1024)
          | Some SHA512 => Ok (Some 1024)
          | Some _ => Throw (DOMException "Unrecognized hash algorithm" "NotSupportedError")
          | None => Throw (JsTypeError "Cannot read properties of undefined")
          end
      | Some length => if negb (length =? 0) then Ok (Some length) else Throw (JsTypeError "Invalid length.")
      end
  | HKDF => Ok None
  | PBKDF2 => Ok None
  | _ => Throw (JsTypeError "unreachable")
  end.
