(* ===== verification/CryptoKeys.v ===== *)
(** * Web Crypto: generating, importing and exporting keys

    Models [generateKey], the [importKey] and [exportKey] functions of each
    algorithm in [src/ext/crypto/00_crypto.js], with their checks in order.  The ops
    are fields of [crypto_ops]; one that generates a key takes the moment of the
    call, since two calls give different keys. *)

From Stdlib Require Import ZArith Lia.
From stdpp Require Import base list gmap numbers option strings.
From S2P Require Import Prelude JsNumber WebIdl Crypto.

#[local] Open Scope Z_scope.
#[local] Open Scope crypto_scope.

(** ** JSON Web Keys *)

Record JsonWebKey := mkJwk {
  kty : option str;
  use : option str;
  key_ops : option (list str);
  alg : option str;
  ext : option bool;
  crv : option str;
  jwk_x : option str;
  jwk_y : option str;
  jwk_d : option str;
  jwk_n : option str;
  jwk_e : option str;
  jwk_p : option str;
  jwk_q : option str;
  jwk_dp : option str;
  jwk_dq : option str;
  jwk_qi : option str;
  jwk_oth : bool;
  jwk_k : option str;
}.

Definition empty_jwk : JsonWebKey :=
  mkJwk None None None None None None None None None None None None None None None None false None.

(** The key fields an op writes are assigned to [{ kty, ... }]. *)
Definition jwk_with (j : JsonWebKey) (kty_ : str) (alg_ crv_ : option str) (ext_ : bool) : JsonWebKey :=
  mkJwk (Some kty_) (use j) (key_ops j) alg_ (Some ext_) crv_ (jwk_x j) (jwk_y j) (jwk_d j) (jwk_n j) (jwk_e j) (jwk_p j) (jwk_q j) (jwk_dp j)
    (jwk_dq j) (jwk_qi j) (jwk_oth j) (jwk_k j).

(** The argument of [importKey], and what [exportKey] returns: a buffer, or a JSON
    Web Key whose [key_ops] is an array that may be shared. *)
Inductive key_input := DBuffer (b : bytes) | DJwk (j : JsonWebKey).
Inductive exported := EBuffer (r : Z) | EJwk (j : JsonWebKey) (ops : Z).

(** ** Ops *)

Inductive generate_args :=
  | GenRSA (modulusLength : option Z) (publicExponent : option bytes)
  | GenEC (namedCurve : option Curve)
  | GenAES (length : option Z)
  | GenHMAC (hash : Name) (length : option Z).

Inductive import_data :=
  | InRaw (b : bytes) | InPkcs8 (b : bytes) | InSpki (b : bytes)
  | InJwkSecret (j : JsonWebKey) | InJwkPrivateEc (j : JsonWebKey) | InJwkPublicEc (j : JsonWebKey)
  | InJwkPrivateRsa (j : JsonWebKey) | InJwkPublicRsa (j : JsonWebKey).

Record import_args := mkImport { i_algorithm : Name; i_aes : bool; i_namedCurve : option Curve; i_hash : option Name }.
Record import_result := mkImported { i_modulusLength : option Z; i_publicExponent : option bytes; i_type : KeyType; i_data : bytes }.

Inductive export_format := XRaw | XPkcs8 | XSpki | XJwkSecret | XJwkPublic | XJwkPrivate.
(** [algorithm: "AES"] is [None]. *)
Record export_args := mkExport { x_format : export_format; x_algorithm : option Name; x_namedCurve : option Curve }.

Record crypt_args := mkCrypt {
  c_algorithm : Name; c_hash : option Name; c_label : bytes; c_iv : bytes; c_counter : bytes; c_length : option Z; c_ctrLength : option Z;
  c_additionalData : option bytes; c_tagLength : option Z
}.
Record sign_args := mkSign { s_algorithm : Name; s_hash : Name; s_saltLength : option Z; s_namedCurve : option Curve }.
Record derive_args := mkDerive {
  d_algorithm : Name; d_hash : option Name; d_iterations : option Z; d_info : option bytes; d_length : Z; d_publicKey : option key_material;
  d_namedCurve : option Curve
}.

Record crypto_ops := {
  op_crypto_subtle_digest : Name -> bytes -> jsres bytes;
  op_crypto_generate_key : generate_args -> Z -> jsres bytes;
  op_crypto_generate_x25519_keypair : Z -> bytes * bytes;
  op_crypto_generate_ed25519_keypair : Z -> option (bytes * bytes);
  op_crypto_import_key : import_args -> import_data -> jsres import_result;
  op_crypto_import_spki_ed25519 : bytes -> option bytes;
  op_crypto_import_pkcs8_ed25519 : bytes -> option bytes;
  op_crypto_import_spki_x25519 : bytes -> option bytes;
  op_crypto_import_pkcs8_x25519 : bytes -> option bytes;
  op_crypto_base64url_decode : option str -> jsres bytes;
  op_crypto_base64url_encode : bytes -> str;
  op_crypto_jwk_x_ed25519 : bytes -> jsres str;
  op_crypto_export_key : export_args -> key_material -> jsres bytes;
  op_crypto_export_jwk : export_args -> key_material -> jsres JsonWebKey;
  op_crypto_export_spki_ed25519 : bytes -> jsres bytes;
  op_crypto_export_pkcs8_ed25519 : bytes -> jsres bytes;
  op_crypto_export_spki_x25519 : bytes -> jsres bytes;
  op_crypto_export_pkcs8_x25519 : bytes -> jsres bytes;
  op_crypto_encrypt : crypt_args -> key_material -> bytes -> jsres bytes;
  op_crypto_decrypt : crypt_args -> key_material -> bytes -> jsres bytes;
  op_crypto_sign_key : sign_args -> key_material -> bytes -> jsres bytes;
  op_crypto_verify_key : sign_args -> key_material -> bytes -> bytes -> jsres bool;
  op_crypto_sign_ed25519 : bytes -> bytes -> option bytes;
  op_crypto_verify_ed25519 : bytes -> bytes -> bytes -> bool;
  op_crypto_derive_bits : derive_args -> key_material -> bytes -> jsres bytes;
  op_crypto_derive_bits_x25519 : bytes -> bytes -> bool * bytes;
  op_crypto_wrap_key : key_material -> bytes -> jsres bytes;
  op_crypto_unwrap_key : key_material -> bytes -> jsres bytes;
}.

Section Keys.
Context (toUpperCase toLowerCase : str -> str) (ops : crypto_ops).

(** ** Generating *)

Inductive generated := GKey (key : Z) | GPair (publicKey privateKey : Z).

(** The key pair that shares one algorithm object. *)
Definition key_pair (extractable : bool) (publicUsages privateUsages : list KeyUsage) (algorithm publicHandle privateHandle : Z) : M generated :=
  let! publicKey := constructKey Public true publicUsages algorithm publicHandle in
  let! privateKey := constructKey Private extractable privateUsages algorithm privateHandle in
  ret (GPair publicKey privateKey).

(** A key whose data an op generates; [u] is what happens meanwhile. *)
Definition generate_data (args : generate_args) (type : KeyType) (u : world -> world) : M (Z * bytes) :=
  let! moment := gets next in
  let! keyData := of_res (op_crypto_generate_key ops args moment) in
  do! await u;
  let! data := alloc_buffer keyData in
  let! handle := new_handle (IStored type data) in
  ret (handle, keyData).

Definition generateKeyRSA (n : Normalized) (extractable : bool) (usages publicUsages privateUsages : list KeyUsage) (u : world -> world) : M generated :=
  do! check (negb (other_usage usages (publicUsages ++ privateUsages))) invalid_usages;
  let! h := generate_data (GenRSA (n_modulusLength n) (n_publicExponent n)) Private u in
  let! algorithm := alloc_algorithm (mkAlg (n_name n) None (n_hash n) (n_modulusLength n) (n_publicExponent n) None) in
  key_pair extractable (usageIntersection usages publicUsages) (usageIntersection usages privateUsages) algorithm h.1 h.1.

Definition generateKeyEC (n : Normalized) (extractable : bool) (usages publicUsages privateUsages : list KeyUsage) (u : world -> world) : M generated :=
  do! check (negb (other_usage usages (publicUsages ++ privateUsages))) invalid_usages;
  match n_namedCurve n with
  | Some namedCurve =>
      if includes supportedNamedCurves namedCurve then
        let! h := generate_data (GenEC (Some namedCurve)) Private u in
        let! algorithm := alloc_algorithm (mkAlg (n_name n) None None None None (Some namedCurve)) in
        key_pair extractable (usageIntersection usages publicUsages) (usageIntersection usages privateUsages) algorithm h.1 h.1
      else throw (DOMException "Curve not supported" "NotSupportedError")
  | None => throw (DOMException "Curve not supported" "NotSupportedError")
  end.

Definition generateKeyAES (n : Normalized) (extractable : bool) (usages : list KeyUsage) (u : world -> world) : M generated :=
  do! check (match n_length n with Some length => includes [128; 192; 256] length | None => false end)
    (DOMException "Invalid key length" "OperationError");
  let! h := generate_data (GenAES (n_length n)) Secret u in
  let! algorithm := alloc_algorithm (mkAlg (n_name n) (n_length n) None None None None) in
  let! key := constructKey Secret extractable usages algorithm h.1 in
  ret (GKey key).

(** Keys of the two 25519 algorithms, whose data are the bytes themselves. *)
Definition generate25519 (name : Name) (kp : bytes * bytes) (extractable : bool) (publicUsages privateUsages : list KeyUsage) : M generated :=
  let! privateData := alloc_buffer kp.1 in
  let! publicData := alloc_buffer kp.2 in
  let! handle := new_handle (IBytes privateData) in
  let! publicHandle := new_handle (IBytes publicData) in
  let! algorithm := alloc_algorithm (mkAlg name None None None None None) in
  key_pair extractable publicUsages privateUsages algorithm publicHandle handle.

Definition generateKeyHMAC (n : Normalized) (extractable : bool) (usages : list KeyUsage) (u : world -> world) : M generated :=
  do! check (negb (other_usage usages [Sign; Verify])) invalid_usages;
  do! check (negb (bool_decide (n_length n = Some 0))) (DOMException "Invalid length" "OperationError");
  let! hash := hash_name (n_hash n) in
  let! h := generate_data (GenHMAC hash (n_length n)) Secret u in
  let! algorithm := alloc_algorithm (mkAlg (n_name n) (Some (slen h.2 * 8)) (Some hash) None None None) in
  let! key := constructKey Secret extractable usages algorithm h.1 in
  ret (GKey key).

(** The function [generateKey]. *)
Definition generate_key (n : Normalized) (extractable : bool) (usages : list KeyUsage) (u : world -> world) : M generated :=
  match n_name n with
  | RSASSA | RSA_PSS => generateKeyRSA n extractable usages [Verify] [Sign] u
  | RSA_OAEP => generateKeyRSA n extractable usages [Encrypt; WrapKey] [Decrypt; UnwrapKey] u
  | ECDSA => generateKeyEC n extractable usages [Verify] [Sign] u
  | ECDH => generateKeyEC n extractable usages [] [DeriveKey; DeriveBits] u
  | AES_CTR | AES_CBC | AES_GCM =>
      do! check (negb (other_usage usages [Encrypt; Decrypt; WrapKey; UnwrapKey])) invalid_usages;
      generateKeyAES n extractable usages u
  | AES_KW =>
      do! check (negb (other_usage usages [WrapKey; UnwrapKey])) invalid_usages;
      generateKeyAES n extractable usages u
  | X25519 =>
      do! check (negb (other_usage usages [DeriveKey; DeriveBits])) invalid_usages;
      let! moment := gets next in
      generate25519 X25519 (op_crypto_generate_x25519_keypair ops moment) extractable
        (usageIntersection usages []) (usageIntersection usages [DeriveKey; DeriveBits])
  | Ed25519 =>
      do! check (negb (other_usage usages [Sign; Verify])) invalid_usages;
      let! moment := gets next in
      match op_crypto_generate_ed25519_keypair ops moment with
      | Some kp => generate25519 Ed25519 kp extractable (usageIntersection usages [Verify]) (usageIntersection usages [Sign])
      | None => throw (DOMException "Failed to generate key" "OperationError")
      end
  | HMAC => generateKeyHMAC n extractable usages u
  | _ => throw (JsTypeError "Cannot read properties of undefined")
  end.

(** ** Importing *)

(** The end of every import: the data, the algorithm object and the key. *)
Definition import_new (stored : bool) (type : KeyType) (data : bytes) (a : KeyAlgorithm) (keyType : KeyType) (extractable : bool)
    (usages : list KeyUsage) : M Z :=
  let! data := alloc_buffer data in
  let! handle := new_handle (if stored then IStored type data else IBytes data) in
  let! algorithm := alloc_algorithm a in
  constructKey keyType extractable usages algorithm handle.

(** [ArrayPrototypeFind(jwk.key_ops, ...)] and [ArrayPrototypeEvery(jwk.key_ops, ...)] *)
Definition check_key_ops (j : JsonWebKey) (keyUsages : list KeyUsage) (e : js_error) : M unit :=
  match key_ops j with
  | None => ret tt
  | Some ops =>
      do! check (forallb (fun u => includes (map usage_string recognisedUsages) u) ops) e;
      check (forallb (fun u => includes (map usage_string keyUsages) u) ops) e
  end.

Definition bad_key_ops : js_error := DOMException "'key_ops' property of JsonWebKey is invalid" "DataError".
Definition bad_ext : js_error := DOMException "'ext' property of JsonWebKey must not be false if extractable is true" "DataError".
Definition check_ext (j : JsonWebKey) (extractable : bool) (e : js_error) : M unit :=
  check (negb (bool_decide (ext j = Some false) && extractable)) e.

(** [keyUsages.length > 0 && jwk.use !== undefined && jwk.use !== expected] *)
Definition check_use (j : JsonWebKey) (keyUsages : list KeyUsage) (expected : str) (e : js_error) : M unit :=
  check (negb (negb (bool_decide (keyUsages = [])) && negb (bool_decide (use j = None)) && negb (bool_decide (use j = Some expected)))) e.

Definition plain_algorithm (name : Name) : KeyAlgorithm := mkAlg name None None None None None.

Definition importKeyEd25519 (format : KeyFormat) (keyData : key_input) (extractable : bool) (keyUsages : list KeyUsage) : M Z :=
  let add type data := import_new false type data (plain_algorithm Ed25519) type extractable (usageIntersection keyUsages recognisedUsages) in
  match format, keyData with
  | Raw, DBuffer b =>
      do! check (negb (other_usage keyUsages [Verify])) invalid_usages;
      add Public b
  | Spki, DBuffer b =>
      do! check (negb (other_usage keyUsages [Verify])) invalid_usages;
      match op_crypto_import_spki_ed25519 ops b with
      | Some data => add Public data
      | None => throw (DOMException "Invalid key data" "DataError")
      end
  | Pkcs8, DBuffer b =>
      do! check (negb (other_usage keyUsages [Sign])) invalid_usages;
      match op_crypto_import_pkcs8_ed25519 ops b with
      | Some data => add Private data
      | None => throw (DOMException "Invalid key data" "DataError")
      end
  | Jwk, DJwk jwk =>
      do! check (negb (other_usage keyUsages (if bool_decide (jwk_d jwk = None) then [Verify] else [Sign]))) invalid_usages;
      do! check (bool_decide (kty jwk = Some (lit "OKP"))) (DOMException "Invalid key type" "DataError");
      do! check (bool_decide (crv jwk = Some (lit "Ed25519"))) (DOMException "Invalid curve" "DataError");
      do! check_use jwk keyUsages (lit "sig") (DOMException "Invalid key usage" "DataError");
      do! check_key_ops jwk keyUsages bad_key_ops;
      do! check_ext jwk extractable (DOMException "Invalid key extractability" "DataError");
      match jwk_d jwk with
      | Some d =>
          match op_crypto_base64url_decode ops (Some d) with
          | Ok data => add Private data
          | Throw _ => throw (DOMException "invalid private key data" "DataError")
          end
      | None =>
          match op_crypto_base64url_decode ops (jwk_x jwk) with
          | Ok data => add Public data
          | Throw _ => throw (DOMException "invalid public key data" "DataError")
          end
      end
  | _, _ => throw not_implemented
  end.

Definition importKeyX25519 (format : KeyFormat) (keyData : key_input) (extractable : bool) (keyUsages : list KeyUsage) : M Z :=
  let add type data usages := import_new false type data (plain_algorithm X25519) type extractable usages in
  match format, keyData with
  | Raw, DBuffer b =>
      do! check (bool_decide (keyUsages = [])) invalid_usages;
      add Public b []
  | Spki, DBuffer b =>
      do! check (bool_decide (keyUsages = [])) invalid_usages;
      match op_crypto_import_spki_x25519 ops b with
      | Some data => add Public data []
      | None => throw (DOMException "Invalid key data" "DataError")
      end
  | Pkcs8, DBuffer b =>
      do! check (negb (other_usage keyUsages [DeriveKey; DeriveBits])) invalid_usages;
      match op_crypto_import_pkcs8_x25519 ops b with
      | Some data => add Private data (usageIntersection keyUsages recognisedUsages)
      | None => throw (DOMException "Invalid key data" "DataError")
      end
  | Jwk, DJwk jwk =>
      do! check (negb (negb (bool_decide (jwk_d jwk = None)) && other_usage keyUsages [DeriveKey; DeriveBits])) invalid_usages;
      do! check (negb (bool_decide (jwk_d jwk = None) && negb (bool_decide (keyUsages = [])))) invalid_usages;
      do! check (bool_decide (kty jwk = Some (lit "OKP"))) (DOMException "Invalid key type" "DataError");
      do! check (bool_decide (crv jwk = Some (lit "X25519"))) (DOMException "Invalid curve" "DataError");
      do! check_use jwk keyUsages (lit "enc") (DOMException "Invalid key use" "DataError");
      do! check_key_ops jwk keyUsages bad_key_ops;
      do! check_ext jwk extractable (DOMException "Invalid key extractability" "DataError");
      match jwk_d jwk with
      | Some d =>
          let! data := of_res (op_crypto_base64url_decode ops (Some d)) in
          add Private data (usageIntersection keyUsages [DeriveKey; DeriveBits])
      | None =>
          let! data := of_res (op_crypto_base64url_decode ops (jwk_x jwk)) in
          add Public data []
      end
  | _, _ => throw not_implemented
  end.

(** [aesJwkAlg[name][length]] *)
Definition aesJwkAlg (name : Name) (length : Z) : option str :=
  match name with
  | AES_CTR => if length =? 128 then Some (lit "A128CTR") else if length =? 192 then Some (lit "A192CTR") else if length =? 256 then Some (lit "A256CTR") else None
  | AES_CBC => if length =? 128 then Some (lit "A128CBC") else if length =? 192 then Some (lit "A192CBC") else if length =? 256 then Some (lit "A256CBC") else None
  | AES_GCM => if length =? 128 then Some (lit "A128GCM") else if length =? 192 then Some (lit "A192GCM") else if length =? 256 then Some (lit "A256GCM") else None
  | AES_KW => if length =? 128 then Some (lit "A128KW") else if length =? 192 then Some (lit "A192KW") else if length =? 256 then Some (lit "A256KW") else None
  | _ => None
  end.

Definition not_oct : js_error := DOMException "'kty' property of JsonWebKey must be 'oct'" "DataError".
Definition no_k : js_error := DOMException "'k' property of JsonWebKey must be present" "DataError".

Definition importKeyAES (format : KeyFormat) (n : Normalized) (keyData : key_input) (extractable : bool) (keyUsages supportedKeyUsages : list KeyUsage) : M Z :=
  do! check (negb (other_usage keyUsages supportedKeyUsages)) invalid_usages;
  let! data :=
    match format, keyData with
    | Raw, DBuffer b =>
        do! check (includes [128; 192; 256] (slen b * 8)) (DOMException "Invalid key length" "DataError");
        ret b
    | Jwk, DJwk jwk =>
        do! check (bool_decide (kty jwk = Some (lit "oct"))) not_oct;
        do! check (negb (bool_decide (jwk_k jwk = None))) no_k;
        let! raw := of_res (op_crypto_import_key ops (mkImport (OtherName (lit "AES")) true None None) (InJwkSecret jwk)) in
        let data := i_data raw in
        do! (if includes [128; 192; 256] (slen data * 8)
             then check (bool_decide (alg jwk = None) || bool_decide (alg jwk = aesJwkAlg (n_name n) (slen data * 8))) (DOMException "Invalid algorithm" "DataError")
             else throw (DOMException "Invalid key length" "DataError"));
        do! check_use jwk keyUsages (lit "enc") (DOMException "Invalid key usages" "DataError");
        do! check_key_ops jwk keyUsages bad_key_ops;
        do! check_ext jwk extractable bad_ext;
        ret data
    | _, _ => throw not_implemented
    end in
  import_new true Secret data (mkAlg (n_name n) (Some (slen data * 8)) None None None None) Secret extractable
    (usageIntersection keyUsages recognisedUsages).

(** The [alg] of a JSON Web Key for a hash. *)
Definition hmacJwkAlg (hash : Name) : option str :=
  match hash with
  | SHA1 => Some (lit "HS1") | SHA256 => Some (lit "HS256") | SHA384 => Some (lit "HS384") | SHA512 => Some (lit "HS512")
  | _ => None
  end.

Definition hmacAlgMessage (hash : Name) : string :=
  match hash with
  | SHA1 => "'alg' property of JsonWebKey must be 'HS1'"
  | SHA256 => "'alg' property of JsonWebKey must be 'HS256'"
  | SHA384 => "'alg' property of JsonWebKey must be 'HS384'"
  | _ => "'alg' property of JsonWebKey must be 'HS512'"
  end.

Definition importKeyHMAC (format : KeyFormat) (n : Normalized) (keyData : key_input) (extractable : bool) (keyUsages : list KeyUsage) : M Z :=
  do! check (negb (other_usage keyUsages [Sign; Verify])) invalid_usages;
  let! data :=
    match format, keyData with
    | Raw, DBuffer b => ret b
    | Jwk, DJwk jwk =>
        do! check (bool_decide (kty jwk = Some (lit "oct"))) not_oct;
        do! check (negb (bool_decide (jwk_k jwk = None))) no_k;
        let! raw := of_res (op_crypto_import_key ops (mkImport HMAC false None None) (InJwkSecret jwk)) in
        let! hash := hash_name (n_hash n) in
        do! (match hmacJwkAlg hash with
             | Some a => check (bool_decide (alg jwk = None) || bool_decide (alg jwk = Some a)) (DOMException (hmacAlgMessage hash) "DataError")
             | None => throw (JsTypeError "unreachable")
             end);
        do! check_use jwk keyUsages (lit "sig") (DOMException "'use' property of JsonWebKey must be 'sig'" "DataError");
        do! check_key_ops jwk keyUsages bad_key_ops;
        do! check_ext jwk extractable bad_ext;
        ret (i_data raw)
    | _, _ => throw not_implemented
    end in
  let length := slen data * 8 in
  do! check (negb (length =? 0)) (DOMException "Key length is zero" "DataError");
  let! length :=
    match n_length n with
    | None => ret length
    | Some l => do! check (negb ((length <? l) || (l <=? length - 8))) (DOMException "Key length is invalid" "DataError"); ret l
    end in
  import_new true Secret data (mkAlg HMAC (Some length) (n_hash n) None None None) Secret extractable (usageIntersection keyUsages recognisedUsages).

(** [SUPPORTED_KEY_USAGES[name]]: public, private, and the [use] of a JSON Web
    Key. *)
Definition SUPPORTED_KEY_USAGES (name : Name) : list KeyUsage * list KeyUsage * str :=
  match name with
  | RSASSA | RSA_PSS | ECDSA => ([Verify], [Sign], lit "sig")
  | RSA_OAEP => ([Encrypt; WrapKey], [Decrypt; UnwrapKey], lit "enc")
  | ECDH => ([], [DeriveKey; DeriveBits], lit "enc")
  | _ => ([], [], [])
  end.
Definition public_usages (name : Name) : list KeyUsage := (SUPPORTED_KEY_USAGES name).1.1.
Definition private_usages (name : Name) : list KeyUsage := (SUPPORTED_KEY_USAGES name).1.2.
Definition jwkUse (name : Name) : str := (SUPPORTED_KEY_USAGES name).2.
Definition useMessage (name : Name) : string :=
  match name with
  | RSASSA | RSA_PSS | ECDSA => "'use' property of JsonWebKey must be 'sig'"
  | _ => "'use' property of JsonWebKey must be 'enc'"
  end.

(** The curve for the [alg] of a JSON Web Key, which goes with ECDSA only. *)
Definition check_ec_alg (jwk : JsonWebKey) (n : Normalized) : M unit :=
  match alg jwk with
  | Some a =>
      if bool_decide (n_name n = ECDSA) then
        let algNamedCurve :=
          if str_eqb a (lit "ES256") then Some P256 else if str_eqb a (lit "ES384") then Some P384 else if str_eqb a (lit "ES512") then Some P521 else None in
        do! check (negb (bool_decide (algNamedCurve = None))) (DOMException "Curve algorithm not supported" "DataError");
        check (bool_decide (algNamedCurve = n_namedCurve n)) (DOMException "Mismatched curve algorithm" "DataError")
      else ret tt
  | None => ret tt
  end.

Definition importKeyEC (format : KeyFormat) (n : Normalized) (keyData : key_input) (extractable : bool) (keyUsages : list KeyUsage) : M Z :=
  let import input keyType :=
    let! raw := of_res (op_crypto_import_key ops (mkImport (n_name n) false (n_namedCurve n) None) input) in
    import_new true (i_type raw) (i_data raw) (mkAlg (n_name n) None None None None (n_namedCurve n)) keyType extractable
      (usageIntersection keyUsages recognisedUsages) in
  match format, keyData with
  | Raw, DBuffer b =>
      do! check (match n_namedCurve n with Some c => includes supportedNamedCurves c | None => false end) (DOMException "Invalid namedCurve" "DataError");
      do! check (negb (other_usage keyUsages (public_usages (n_name n)))) invalid_usages;
      import (InRaw b) Public
  | Pkcs8, DBuffer b =>
      do! check (negb (other_usage keyUsages (private_usages (n_name n)))) invalid_usages;
      import (InPkcs8 b) Private
  | Spki, DBuffer b =>
      do! (if bool_decide (n_name n = ECDSA) then check (negb (other_usage keyUsages (public_usages (n_name n)))) invalid_usages
           else check (bool_decide (keyUsages = [])) (DOMException "Key usage must be empty" "SyntaxError"));
      import (InSpki b) Public
  | Jwk, DJwk jwk =>
      let keyType := if bool_decide (jwk_d jwk = None) then Public else Private in
      do! check (negb (other_usage keyUsages (if bool_decide (jwk_d jwk = None) then public_usages (n_name n) else private_usages (n_name n)))) invalid_usages;
      do! check (bool_decide (kty jwk = Some (lit "EC"))) (DOMException "'kty' property of JsonWebKey must be 'EC'" "DataError");
      do! check_use jwk keyUsages (jwkUse (n_name n)) (DOMException (useMessage (n_name n)) "DataError");
      do! check_key_ops jwk keyUsages (DOMException "'key_ops' member of JsonWebKey is invalid" "DataError");
      do! check_ext jwk extractable bad_ext;
      do! check_ec_alg jwk n;
      do! check (negb (bool_decide (jwk_x jwk = None))) (DOMException "'x' property of JsonWebKey is required for EC keys" "DataError");
      do! check (negb (bool_decide (jwk_y jwk = None))) (DOMException "'y' property of JsonWebKey is required for EC keys" "DataError");
      if bool_decide (jwk_d jwk = None) then import (InJwkPublicEc jwk) Public else import (InJwkPrivateEc jwk) Private
  | _, _ => throw not_implemented
  end.

(** The hash for the [alg] of a JSON Web Key; [None] is a name that is not
    supported. *)
Definition rsaJwkHash (name : Name) (a : str) : option Name :=
  let pick (s1 s256 s384 s512 : str) :=
    if str_eqb a s1 then Some SHA1 else if str_eqb a s256 then Some SHA256 else if str_eqb a s384 then Some SHA384 else if str_eqb a s512 then Some SHA512 else None in
  match name with
  | RSASSA => pick (lit "RS1") (lit "RS256") (lit "RS384") (lit "RS512")
  | RSA_PSS => pick (lit "PS1") (lit "PS256") (lit "PS384") (lit "PS512")
  | _ => pick (lit "RSA-OAEP") (lit "RSA-OAEP-256") (lit "RSA-OAEP-384") (lit "RSA-OAEP-512")
  end.

Definition rsaAlgMessage (name : Name) : string :=
  match name with
  | RSASSA => "'alg' property of JsonWebKey must be one of 'RS1', 'RS256', 'RS384', 'RS512'"
  | RSA_PSS => "'alg' property of JsonWebKey must be one of 'PS1', 'PS256', 'PS384', 'PS512'"
  | _ => "'alg' property of JsonWebKey must be one of 'RSA-OAEP', 'RSA-OAEP-256', 'RSA-OAEP-384', or 'RSA-OAEP-512'"
  end.
Definition rsaHashMessage (name : Name) : string :=
  match name with
  | RSASSA => "'alg' property of JsonWebKey must be 'RSASSA-PKCS1-v1_5'"
  | RSA_PSS => "'alg' property of JsonWebKey must be 'RSA-PSS'"
  | _ => "'alg' property of JsonWebKey must be 'RSA-OAEP'"
  end.

Definition check_rsa_alg (jwk : JsonWebKey) (n : Normalized) : M unit :=
  match alg jwk with
  | None => ret tt
  | Some a =>
      match rsaJwkHash (n_name n) a with
      | None => throw (DOMException (rsaAlgMessage (n_name n)) "DataError")
      | Some hash =>
          let! normalizedHash := of_res (normalizeAlgorithm toUpperCase (AlgString (name_string hash)) Odigest) in
          let! expected := hash_name (n_hash n) in
          check (bool_decide (n_name normalizedHash = expected)) (DOMException (rsaHashMessage (n_name n)) "DataError")
      end
  end.

(** A private key must have [q], [dp], [dq] and [qi], and no [oth]. *)
Definition check_rsa_private (jwk : JsonWebKey) : M unit :=
  let missing (o : option str) := bool_decide (o = None) in
  if missing (jwk_p jwk) && missing (jwk_q jwk) && missing (jwk_dp jwk) && missing (jwk_dq jwk) && missing (jwk_qi jwk)
  then throw (DOMException "only optimized private keys are supported" "NotSupportedError")
  else
    do! check (negb (missing (jwk_q jwk))) (DOMException "'q' property of JsonWebKey is required for private keys" "DataError");
    do! check (negb (missing (jwk_dp jwk))) (DOMException "'dp' property of JsonWebKey is required for private keys" "DataError");
    do! check (negb (missing (jwk_dq jwk))) (DOMException "'dq' property of JsonWebKey is required for private keys" "DataError");
    do! check (negb (missing (jwk_qi jwk))) (DOMException "'qi' property of JsonWebKey is required for private keys" "DataError");
    check (negb (jwk_oth jwk)) (DOMException "'oth' property of JsonWebKey is not supported" "NotSupportedError").

(** [toUpperCase] of a missing string throws. *)
Definition upper (s : option str) : M str :=
  match s with Some s => ret (toUpperCase s) | None => throw (JsTypeError "called on null or undefined") end.

Definition importKeyRSA (format : KeyFormat) (n : Normalized) (keyData : key_input) (extractable : bool) (keyUsages : list KeyUsage) : M Z :=
  let import input keyType :=
    let! hash := hash_name (n_hash n) in
    let! raw := of_res (op_crypto_import_key ops (mkImport (n_name n) false None (Some hash)) input) in
    import_new true (i_type raw) (i_data raw) (mkAlg (n_name n) None (Some hash) (i_modulusLength raw) (i_publicExponent raw) None) keyType extractable
      (usageIntersection keyUsages recognisedUsages) in
  match format, keyData with
  | Pkcs8, DBuffer b =>
      do! check (negb (other_usage keyUsages (private_usages (n_name n)))) invalid_usages;
      import (InPkcs8 b) Private
  | Spki, DBuffer b =>
      do! check (negb (other_usage keyUsages (public_usages (n_name n)))) invalid_usages;
      import (InSpki b) Public
  | Jwk, DJwk jwk =>
      do! check (negb (other_usage keyUsages (if bool_decide (jwk_d jwk = None) then public_usages (n_name n) else private_usages (n_name n)))) invalid_usages;
      let! kty_ := upper (kty jwk) in
      do! check (bool_decide (kty_ = lit "RSA")) (DOMException "'kty' property of JsonWebKey must be 'RSA'" "DataError");
      do! check (negb (negb (bool_decide (keyUsages = [])) && match use jwk with Some u => negb (bool_decide (toLowerCase u = jwkUse (n_name n))) | None => false end))
        (DOMException (useMessage (n_name n)) "DataError");
      do! check_key_ops jwk keyUsages bad_key_ops;
      do! check_ext jwk extractable bad_ext;
      do! check_rsa_alg jwk n;
      if bool_decide (jwk_d jwk = None) then
        do! check (negb (bool_decide (jwk_n jwk = None))) (DOMException "'n' property of JsonWebKey is required for public keys" "DataError");
        do! check (negb (bool_decide (jwk_e jwk = None))) (DOMException "'e' property of JsonWebKey is required for public keys" "DataError");
        import (InJwkPublicRsa jwk) Public
      else
        do! check_rsa_private jwk;
        import (InJwkPrivateRsa jwk) Private
  | _, _ => throw not_implemented
  end.

(** [importKeyHKDF] and [importKeyPBKDF2]. *)
Definition import_derivation_key (name : Name) (format : KeyFormat) (keyData : key_input) (extractable : bool) (keyUsages : list KeyUsage) : M Z :=
  match format, keyData with
  | Raw, DBuffer b =>
      do! check (negb (other_usage keyUsages [DeriveKey; DeriveBits])) invalid_usages;
      do! check (negb extractable) (DOMException "Key must not be extractable" "SyntaxError");
      import_new true Secret b (plain_algorithm name) Secret false (usageIntersection keyUsages recognisedUsages)
  | _, _ => throw (DOMException "Format not supported" "NotSupportedError")
  end.

Definition importKeyHKDF := import_derivation_key HKDF.
Definition importKeyPBKDF2 := import_derivation_key PBKDF2.

(** ** Exporting *)

(** [innerKey.data], and [innerKey] as bytes; [TypedArrayPrototypeGetBuffer] of
    anything else throws. *)
Definition not_a_typed_array : js_error := JsTypeError "this is not a typed array.".
Definition stored_buffer (i : inner) : M Z := match i with IStored _ data => ret data | IBytes _ => throw not_a_typed_array end.
Definition bytes_buffer (i : inner) : M Z := match i with IBytes data => ret data | IStored _ _ => throw not_a_typed_array end.

Definition export_jwk (k : CryptoKey) (j : JsonWebKey) (kty_ : str) (alg_ crv_ : option str) : M exported :=
  ret (EJwk (jwk_with j kty_ alg_ crv_ (k_extractable k)) (seen_usages k)).

(** An op's result in a new buffer. *)
Definition export_bytes (r : jsres bytes) : M exported := let! b := of_res r in let! r := alloc_buffer b in ret (EBuffer r).

Definition must_be (k : CryptoKey) (t : KeyType) (msg : string) : M unit := check (bool_decide (k_type k = t)) (DOMException msg "InvalidAccessError").

Definition exportKeyAES (format : KeyFormat) (k : CryptoKey) (i : inner) : M exported :=
  match format with
  | Raw => let! data := stored_buffer i in ret (EBuffer data)
  | Jwk =>
      let! m := gets (material i) in
      let! data := of_res (op_crypto_export_jwk ops (mkExport XJwkSecret None None) m) in
      let! a := gets (algorithm_of k) in
      match a_length a with
      | Some length =>
          if includes [128; 192; 256] length
          then match a_name a with
               | AES_CTR | AES_CBC | AES_GCM | AES_KW => export_jwk k data (lit "oct") (aesJwkAlg (a_name a) length) (crv data)
               | _ => throw (JsTypeError "Cannot read properties of undefined")
               end
          else throw (DOMException "Invalid key length" "NotSupportedError")
      | None => throw (DOMException "Invalid key length" "NotSupportedError")
      end
  | _ => throw not_implemented
  end.

Definition exportKeyHMAC (format : KeyFormat) (k : CryptoKey) (i : inner) : M exported :=
  match format with
  | Raw => let! data := stored_buffer i in ret (EBuffer data)
  | Jwk =>
      let! m := gets (material i) in
      let! a := gets (algorithm_of k) in
      let! data := of_res (op_crypto_export_jwk ops (mkExport XJwkSecret (Some (a_name a)) None) m) in
      let! hash := hash_name (a_hash a) in
      match hmacJwkAlg hash with
      | Some _ => export_jwk k (mkJwk None None None None None None None None None None None None None None None None false (jwk_k data))
                    (lit "oct") (hmacJwkAlg hash) None
      | None => throw (DOMException "Hash algorithm not supported" "NotSupportedError")
      end
  | _ => throw not_implemented
  end.

Definition rsaJwkAlg (name : Name) (hash : Name) : option str :=
  match name, hash with
  | RSASSA, SHA1 => Some (lit "RS1") | RSASSA, SHA256 => Some (lit "RS256") | RSASSA, SHA384 => Some (lit "RS384") | RSASSA, SHA512 => Some (lit "RS512")
  | RSASSA, _ => None
  | RSA_PSS, SHA1 => Some (lit "PS1") | RSA_PSS, SHA256 => Some (lit "PS256") | RSA_PSS, SHA384 => Some (lit "PS384") | RSA_PSS, SHA512 => Some (lit "PS512")
  | RSA_PSS, _ => None
  | _, SHA1 => Some (lit "RSA-OAEP") | _, SHA256 => Some (lit "RSA-OAEP-256") | _, SHA384 => Some (lit "RSA-OAEP-384") | _, SHA512 => Some (lit "RSA-OAEP-512")
  | _, _ => None
  end.

Definition jwk_format (k : CryptoKey) : export_format := if bool_decide (k_type k = Private) then XJwkPrivate else XJwkPublic.

Definition exportKeyRSA (format : KeyFormat) (k : CryptoKey) (i : inner) : M exported :=
  let! m := gets (material i) in
  let! a := gets (algorithm_of k) in
  match format with
  | Pkcs8 =>
      do! must_be k Private "Key is not a private key";
      export_bytes (op_crypto_export_key ops (mkExport XPkcs8 (Some (a_name a)) None) m)
  | Spki =>
      do! must_be k Public "Key is not a public key";
      export_bytes (op_crypto_export_key ops (mkExport XSpki (Some (a_name a)) None) m)
  | Jwk =>
      let! hash := hash_name (a_hash a) in
      match rsaJwkAlg (a_name a) hash with
      | Some _ =>
          let! data := of_res (op_crypto_export_jwk ops (mkExport (jwk_format k) (Some (a_name a)) None) m) in
          export_jwk k data (lit "RSA") (rsaJwkAlg (a_name a) hash) (crv data)
      | None => throw (DOMException "Hash algorithm not supported" "NotSupportedError")
      end
  | Raw => throw not_implemented
  end.

(** [pkcs8Der[15] = 0x20] *)
Definition fix_der (b : bytes) : bytes := <[15%nat := 32]> b.

(** The bytes of a 25519 key as an op or [SafeArrayIterator] gets them. *)
Definition inner_bytes (i : inner) : M bytes := let! r := bytes_buffer i in gets (buffer_of r).

Definition exportKeyEd25519 (format : KeyFormat) (k : CryptoKey) (i : inner) : M exported :=
  match format with
  | Raw => do! must_be k Public "Key is not a public key"; let! data := bytes_buffer i in ret (EBuffer data)
  | Spki => do! must_be k Public "Key is not a public key"; let! b := inner_bytes i in export_bytes (op_crypto_export_spki_ed25519 ops b)
  | Pkcs8 =>
      do! must_be k Private "Key is not a public key";
      let! b := inner_bytes i in
      export_bytes (let? d := op_crypto_export_pkcs8_ed25519 ops ([4; 34] ++ b) in Ok (fix_der d))
  | Jwk =>
      let! b := inner_bytes i in
      let! x := (if bool_decide (k_type k = Private) then of_res (op_crypto_jwk_x_ed25519 ops b) else ret (op_crypto_base64url_encode ops b)) in
      let d := if bool_decide (k_type k = Private) then Some (op_crypto_base64url_encode ops b) else None in
      export_jwk k (mkJwk None None None None None None (Some x) None d None None None None None None None false None)
        (lit "OKP") None (Some (lit "Ed25519"))
  end.

Definition exportKeyX25519 (format : KeyFormat) (k : CryptoKey) (i : inner) : M exported :=
  match format with
  | Raw => do! must_be k Public "Key is not a public key"; let! data := bytes_buffer i in ret (EBuffer data)
  | Spki => do! must_be k Public "Key is not a public key"; let! b := inner_bytes i in export_bytes (op_crypto_export_spki_x25519 ops b)
  | Pkcs8 =>
      do! must_be k Private "Key is not a public key";
      let! b := inner_bytes i in
      export_bytes (let? d := op_crypto_export_pkcs8_x25519 ops ([4; 34] ++ b) in Ok (fix_der d))
  | Jwk =>
      do! check (negb (bool_decide (k_type k = Private))) not_implemented;
      let! b := inner_bytes i in
      export_jwk k (mkJwk None None None None None None (Some (op_crypto_base64url_encode ops b)) None None None None None None None None None false None)
        (lit "OKP") None (Some (lit "X25519"))
  end.

Definition ecJwkAlg (c : option Curve) : option str :=
  match c with
  | Some P256 => Some (lit "ES256") | Some P384 => Some (lit "ES384") | Some P521 => Some (lit "ES512")
  | _ => None
  end.

Definition curve_string (c : Curve) : str :=
  match c with P256 => lit "P-256" | P384 => lit "P-384" | P521 => lit "P-521" | OtherCurve s => s end.

Definition exportKeyEC (format : KeyFormat) (k : CryptoKey) (i : inner) : M exported :=
  let! m := gets (material i) in
  let! a := gets (algorithm_of k) in
  let args f := mkExport f (Some (a_name a)) (a_namedCurve a) in
  match format with
  | Raw => do! must_be k Public "Key is not a public key"; export_bytes (op_crypto_export_key ops (args XRaw) m)
  | Pkcs8 => do! must_be k Private "Key is not a private key"; export_bytes (op_crypto_export_key ops (args XPkcs8) m)
  | Spki => do! must_be k Public "Key is not a public key"; export_bytes (op_crypto_export_key ops (args XSpki) m)
  | Jwk =>
      do! check (negb (bool_decide (a_name a = ECDSA)) || negb (bool_decide (ecJwkAlg (a_namedCurve a) = None)))
        (DOMException "Curve algorithm not supported" "DataError");
      let! data := of_res (op_crypto_export_jwk ops (args (jwk_format k)) m) in
      export_jwk k data (lit "EC") (if bool_decide (a_name a = ECDSA) then ecJwkAlg (a_namedCurve a) else Some (lit "ECDH")) (curve_string <$> a_namedCurve a)
  end.
End Keys.
