(* ===== verification/SubtleCrypto.v ===== *)
(** * Web Crypto: the methods of [SubtleCrypto]

    Models the class [SubtleCrypto] of [src/ext/crypto/00_crypto.js] with the
    functions [encrypt] and [deriveBits] it calls.  A method that goes on after an
    [await] takes an argument for each: what other code does to the objects
    meanwhile.  The result of an op is a new buffer, which the methods return by its
    contents.

    [JSONStringify] and [JSONParse] on a JSON Web Key are parameters; [JSONParse]
    stands for the conversion to the dictionary too. *)

From Stdlib Require Import ZArith Lia.
From stdpp Require Import base list gmap numbers option strings.
From S2P Require Import Prelude JsNumber WebIdl Crypto CryptoKeys.

#[local] Open Scope Z_scope.
#[local] Open Scope crypto_scope.

Definition operation_error (msg : string) : js_error := DOMException msg "OperationError".
Definition access_error (msg : string) : js_error := DOMException msg "InvalidAccessError".

(** [normalizedAlgorithm.name !== key[_algorithm].name] *)
Definition same_name (n : Normalized) (k : CryptoKey) (e : js_error) : M unit :=
  let! a := gets (algorithm_of k) in check (bool_decide (n_name n = a_name a)) e.

(** [!ArrayPrototypeIncludes(key[_usages], usage)] *)
Definition has_usage (k : CryptoKey) (usage : KeyUsage) (msg : string) : M unit :=
  let! usages := gets (usages_of k) in check (includes usages usage) (access_error msg).

(** [WeakMapPrototypeGet(KEY_STORE, key[_handle])]; a handle always has an entry. *)
Definition get_inner (k : CryptoKey) : M inner := fun w =>
  match KEY_STORE w !! k_handle k with
  | Some i => (w, Ok i)
  | None => (w, Throw (JsTypeError "Cannot read properties of undefined"))
  end.

Definition wrong_type : string := "Key type not supported".
Definition unreachable : js_error := JsTypeError "unreachable".

(** [new Uint8Array(n)] for an absent buffer, and the other defaults. *)
Definition or_empty (b : option bytes) : bytes := default [] b.

(** [result[_extractable] = extractable; result[_usages] = usages] *)
Definition set_slots (r : Z) (extractable : bool) (usages : list KeyUsage) : M unit :=
  let! usages := alloc_array usages in
  let! k := get_key r in
  fun w => (mkWorld (KEY_STORE w)
              (<[r := mkKey (k_type k) extractable usages (k_algorithm k) (k_handle k) (own_extractable k) (own_usages k)]> (keys w))
              (arrays w) (algorithms w) (buffers w) (next w), Ok tt).

(** The [key_ops] of an exported key as they are when it is read. *)
Definition with_key_ops (j : JsonWebKey) (usages : list KeyUsage) : JsonWebKey :=
  mkJwk (kty j) (use j) (Some (map usage_string usages)) (alg j) (ext j) (crv j) (jwk_x j) (jwk_y j) (jwk_d j) (jwk_n j) (jwk_e j) (jwk_p j) (jwk_q j)
    (jwk_dp j) (jwk_dq j) (jwk_qi j) (jwk_oth j) (jwk_k j).

(** [ret[i] = StringPrototypeCharCodeAt(jwk, i)] in a [Uint8Array]. *)
Definition char_bytes (s : str) : bytes := map (fun c => c mod 256) s.

Section Subtle.
Context (toUpperCase toLowerCase : str -> str) (ops : crypto_ops).
Context (JSONStringify : JsonWebKey -> str) (JSONParse : str -> jsres JsonWebKey).

Definition normalize (algorithm : AlgorithmIdentifier) (op : crypto_op) : M Normalized := of_res (normalizeAlgorithm toUpperCase algorithm op).

Definition digest (algorithm : AlgorithmIdentifier) (data : buffer_source) : M bytes :=
  let data := copyBuffer data in
  let! n := normalize algorithm Odigest in
  of_res (op_crypto_subtle_digest ops (n_name n) data).

(** ** Encrypting and decrypting *)

Definition tag_lengths : list Z := [32; 64; 96; 104; 112; 120; 128].

(** [ArrayPrototypeIncludes([12, 16], ...) === undefined]: a boolean is never
    [undefined]. *)
Definition iv_check (iv : bytes) : M unit := ret tt.

(** The default of [tagLength], and its check. *)
Definition tag_length (n : Normalized) : M Z :=
  match n_tagLength n with
  | None => ret 128
  | Some t => do! check (includes tag_lengths t) (operation_error "Invalid tag length"); ret t
  end.

Definition ctr_length (n : Normalized) : M unit :=
  match n_length n with
  | Some l => check (negb ((l =? 0) || (128 <? l))) (operation_error "Counter length must not be 0 or greater than 128")
  | None => ret tt
  end.

Definition oaep_args (k : CryptoKey) (n : Normalized) : M crypt_args :=
  let! a := gets (algorithm_of k) in
  let! hash := hash_name (a_hash a) in
  ret (mkCrypt RSA_OAEP (Some hash) (or_empty (n_label n)) [] [] None None None None).

Definition cbc_args (k : CryptoKey) (n : Normalized) (msg : string) : M crypt_args :=
  do! check (slen (or_empty (n_iv n)) =? 16) (operation_error msg);
  let! a := gets (algorithm_of k) in
  ret (mkCrypt AES_CBC None [] (or_empty (n_iv n)) [] (a_length a) None None None).

Definition ctr_args (k : CryptoKey) (n : Normalized) : M crypt_args :=
  do! check (slen (or_empty (n_counter n)) =? 16) (operation_error "Counter vector must be 16 bytes");
  do! ctr_length n;
  let! a := gets (algorithm_of k) in
  ret (mkCrypt AES_CTR None [] [] (or_empty (n_counter n)) (a_length a) (n_length n) None None).

Definition gcm_args (k : CryptoKey) (n : Normalized) (tagLength : Z) : M crypt_args :=
  let! a := gets (algorithm_of k) in
  ret (mkCrypt AES_GCM None [] (or_empty (n_iv n)) [] (a_length a) None (n_additionalData n) (Some tagLength)).

(** The function [encrypt]. *)
Definition encrypt_data (n : Normalized) (k : CryptoKey) (data : bytes) : M bytes :=
  let! keyData := key_data k in
  match n_name n with
  | RSA_OAEP =>
      do! must_be k Public wrong_type;
      let! args := oaep_args k n in
      of_res (op_crypto_encrypt ops args keyData data)
  | AES_CBC =>
      let! args := cbc_args k n "Initialization vector must be 16 bytes" in
      of_res (op_crypto_encrypt ops args keyData data)
  | AES_CTR =>
      let! args := ctr_args k n in
      of_res (op_crypto_encrypt ops args keyData data)
  | AES_GCM =>
      do! check (negb (2 ^ 39 - 256 <? slen data)) (operation_error "Plaintext too large");
      do! iv_check (or_empty (n_iv n));
      let! tagLength := tag_length n in
      let! args := gcm_args k n tagLength in
      of_res (op_crypto_encrypt ops args keyData data)
  | _ => throw not_implemented
  end.

Definition encrypt (algorithm : AlgorithmIdentifier) (key : Z) (data : buffer_source) : M bytes :=
  let! k := get_key key in
  let data := copyBuffer data in
  let! n := normalize algorithm Oencrypt in
  do! same_name n k (access_error "Encryption algorithm doesn't match key algorithm.");
  do! has_usage k Encrypt "Key does not support the 'encrypt' operation.";
  encrypt_data n k data.

Definition decrypt (algorithm : AlgorithmIdentifier) (key : Z) (data : buffer_source) : M bytes :=
  let! k := get_key key in
  let data := copyBuffer data in
  let! n := normalize algorithm Odecrypt in
  do! same_name n k (operation_error "Decryption algorithm doesn't match key algorithm.");
  do! has_usage k Decrypt "Key does not support the 'decrypt' operation.";
  let! keyData := key_data k in
  match n_name n with
  | RSA_OAEP =>
      do! must_be k Private wrong_type;
      let! args := oaep_args k n in
      of_res (op_crypto_decrypt ops args keyData data)
  | AES_CBC =>
      let! args := cbc_args k n "Counter must be 16 bytes" in
      of_res (op_crypto_decrypt ops args keyData data)
  | AES_CTR =>
      let! args := ctr_args k n in
      of_res (op_crypto_decrypt ops args keyData data)
  | AES_GCM =>
      let! tagLength := tag_length n in
      do! check (negb (slen data * 8 <? tagLength)) (operation_error "Tag length overflows ciphertext");
      do! iv_check (or_empty (n_iv n));
      let! args := gcm_args k n tagLength in
      of_res (op_crypto_decrypt ops args keyData data)
  | _ => throw not_implemented
  end.

(** ** Signing and verifying *)

(** P-256 goes with SHA-256 and P-384 with SHA-384. *)
Definition ecdsa_hash (c : option Curve) (hash : Name) : bool :=
  negb ((bool_decide (c = Some P256) && negb (bool_decide (hash = SHA256))) || (bool_decide (c = Some P384) && negb (bool_decide (hash = SHA384)))).

(** The 25519 ops take the bytes. *)
Definition raw_bytes (m : key_material) : M bytes :=
  match m with KBytes b => ret b | KStored _ _ => throw (JsTypeError "expected typed ArrayBufferView") end.

Definition sign (algorithm : AlgorithmIdentifier) (key : Z) (data : buffer_source) : M bytes :=
  let! k := get_key key in
  let data := copyBuffer data in
  let! n := normalize algorithm Osign in
  let! keyData := key_data k in
  do! same_name n k (access_error "Signing algorithm doesn't match key algorithm.");
  do! has_usage k Sign "Key does not support the 'sign' operation.";
  let! a := gets (algorithm_of k) in
  match n_name n with
  | RSASSA =>
      do! must_be k Private wrong_type;
      let! hash := hash_name (a_hash a) in
      of_res (op_crypto_sign_key ops (mkSign RSASSA hash None None) keyData data)
  | RSA_PSS =>
      do! must_be k Private wrong_type;
      let! hash := hash_name (a_hash a) in
      of_res (op_crypto_sign_key ops (mkSign RSA_PSS hash (n_saltLength n) None) keyData data)
  | ECDSA =>
      do! must_be k Private wrong_type;
      let! hash := hash_name (n_hash n) in
      do! check (match a_namedCurve a with Some c => includes supportedNamedCurves c | None => false end) (DOMException "Curve not supported" "NotSupportedError");
      do! check (ecdsa_hash (a_namedCurve a) hash) not_implemented;
      of_res (op_crypto_sign_key ops (mkSign ECDSA hash None (a_namedCurve a)) keyData data)
  | HMAC =>
      let! hash := hash_name (a_hash a) in
      of_res (op_crypto_sign_key ops (mkSign HMAC hash None None) keyData data)
  | Ed25519 =>
      do! must_be k Private wrong_type;
      let! raw := raw_bytes keyData in
      match op_crypto_sign_ed25519 ops raw data with
      | Some signature => ret signature
      | None => throw (operation_error "Failed to sign")
      end
  | _ => throw unreachable
  end.

Definition verify (algorithm : AlgorithmIdentifier) (key : Z) (signature data : buffer_source) : M bool :=
  let! k := get_key key in
  let signature := copyBuffer signature in
  let data := copyBuffer data in
  let! n := normalize algorithm Overify in
  let! keyData := key_data k in
  do! same_name n k (access_error "Verifying algorithm doesn't match key algorithm.");
  do! has_usage k Verify "Key does not support the 'verify' operation.";
  let! a := gets (algorithm_of k) in
  match n_name n with
  | RSASSA =>
      do! must_be k Public wrong_type;
      let! hash := hash_name (a_hash a) in
      of_res (op_crypto_verify_key ops (mkSign RSASSA hash None None) keyData signature data)
  | RSA_PSS =>
      do! must_be k Public wrong_type;
      let! hash := hash_name (a_hash a) in
      of_res (op_crypto_verify_key ops (mkSign RSA_PSS hash (n_saltLength n) None) keyData signature data)
  | HMAC =>
      let! hash := hash_name (a_hash a) in
      of_res (op_crypto_verify_key ops (mkSign HMAC hash None None) keyData signature data)
  | ECDSA =>
      do! must_be k Public wrong_type;
      let! hash := hash_name (n_hash n) in
      do! check (ecdsa_hash (a_namedCurve a) hash) not_implemented;
      of_res (op_crypto_verify_key ops (mkSign ECDSA hash None (a_namedCurve a)) keyData signature data)
  | Ed25519 =>
      do! must_be k Public wrong_type;
      let! raw := raw_bytes keyData in
      ret (op_crypto_verify_ed25519 ops raw data signature)
  | _ => throw unreachable
  end.

(** ** Importing and exporting *)

Inductive key_source := SBuffer (b : buffer_source) | SJwk (j : JsonWebKey).

Definition key_argument (format : KeyFormat) (keyData : key_source) : M key_input :=
  match keyData with
  | SBuffer b => if bool_decide (format = Jwk) then throw (JsTypeError "keyData is not a JsonWebKey") else ret (DBuffer (copyBuffer b))
  | SJwk j => if bool_decide (format = Jwk) then ret (DJwk j) else throw (JsTypeError "keyData is a JsonWebKey")
  end.

Definition import_with (n : Normalized) (format : KeyFormat) (keyData : key_input) (extractable : bool) (keyUsages : list KeyUsage) : M Z :=
  match n_name n with
  | HMAC => importKeyHMAC ops format n keyData extractable keyUsages
  | ECDH | ECDSA => importKeyEC ops format n keyData extractable keyUsages
  | RSASSA | RSA_PSS | RSA_OAEP => importKeyRSA toUpperCase toLowerCase ops format n keyData extractable keyUsages
  | HKDF => importKeyHKDF format keyData extractable keyUsages
  | PBKDF2 => importKeyPBKDF2 format keyData extractable keyUsages
  | AES_CTR | AES_CBC | AES_GCM => importKeyAES ops format n keyData extractable keyUsages [Encrypt; Decrypt; WrapKey; UnwrapKey]
  | AES_KW => importKeyAES ops format n keyData extractable keyUsages [WrapKey; UnwrapKey]
  | X25519 => importKeyX25519 ops format keyData extractable keyUsages
  | Ed25519 => importKeyEd25519 ops format keyData extractable keyUsages
  | _ => throw not_implemented
  end.

Definition importKey (format : KeyFormat) (keyData : key_source) (algorithm : AlgorithmIdentifier) (extractable : bool) (keyUsages : list KeyUsage) : M Z :=
  let! keyData := key_argument format keyData in
  let! n := normalize algorithm OimportKey in
  import_with n format keyData extractable keyUsages.

(** The key is exported before it is asked whether it may be. *)
Definition exportKey (format : KeyFormat) (key : Z) : M exported :=
  let! k := get_key key in
  let! i := get_inner k in
  let! a := gets (algorithm_of k) in
  let! result :=
    match a_name a with
    | HMAC => exportKeyHMAC ops format k i
    | RSASSA | RSA_PSS | RSA_OAEP => exportKeyRSA ops format k i
    | ECDH | ECDSA => exportKeyEC ops format k i
    | Ed25519 => exportKeyEd25519 ops format k i
    | X25519 => exportKeyX25519 ops format k i
    | AES_CTR | AES_CBC | AES_GCM | AES_KW => exportKeyAES ops format k i
    | _ => throw not_implemented
    end in
  do! check (seen_extractable k) (access_error "Key is not extractable");
  ret result.

(** ** Deriving *)

Definition invalid_length : js_error := operation_error "Invalid length".

(** [length == null || length == 0 || length % 8 !== 0] *)
Definition whole_bytes (length : option Z) : M Z :=
  match length with
  | Some l => do! check (negb ((l =? 0) || negb (l mod 8 =? 0))) invalid_length; ret l
  | None => throw invalid_length
  end.

(** A shared secret cut to [length] bits, rounded up to bytes. *)
Definition cut_secret (secret : bytes) (length : option Z) : M bytes :=
  match length with
  | None => ret secret
  | Some l => do! check (negb (slen secret * 8 <? l)) invalid_length; ret (slice secret 0 ((l + 7) / 8))
  end.

(** Steps 1 to 4 of the two key agreements. *)
Definition agreement_key (n : Normalized) (baseKey : CryptoKey) : M CryptoKey :=
  do! must_be baseKey Private "Invalid key type";
  let! public := of_res (required (n_public n)) in
  let! publicKey := get_key public in
  do! must_be publicKey Public "Invalid key type";
  let! pa := gets (algorithm_of publicKey) in
  let! ba := gets (algorithm_of baseKey) in
  do! check (bool_decide (a_name pa = a_name ba)) (access_error "Algorithm mismatch");
  ret publicKey.

(** The function [deriveBits]. *)
Definition derive_bits (n : Normalized) (baseKey : CryptoKey) (length : option Z) : M bytes :=
  match n_name n with
  | PBKDF2 =>
      let! length := whole_bytes length in
      do! check (negb (bool_decide (n_iterations n = Some 0))) (operation_error "iterations must not be zero");
      let! keyData := key_data baseKey in
      let! hash := hash_name (n_hash n) in
      of_res (op_crypto_derive_bits ops (mkDerive PBKDF2 (Some hash) (n_iterations n) None length None None) keyData (or_empty (n_salt n)))
  | ECDH =>
      let! publicKey := agreement_key n baseKey in
      let! pa := gets (algorithm_of publicKey) in
      let! ba := gets (algorithm_of baseKey) in
      do! check (bool_decide (a_namedCurve pa = a_namedCurve ba)) (access_error "namedCurve mismatch");
      if match a_namedCurve pa with Some c => includes supportedNamedCurves c | None => false end then
        let! baseKeyData := key_data baseKey in
        let! publicKeyData := key_data publicKey in
        let! buf := of_res (op_crypto_derive_bits ops (mkDerive ECDH None None None (default 0 length) (Some publicKeyData) (a_namedCurve pa)) baseKeyData []) in
        cut_secret buf length
      else throw not_implemented
  | HKDF =>
      let! length := whole_bytes length in
      let! keyDerivationKey := key_data baseKey in
      let! hash := hash_name (n_hash n) in
      of_res (op_crypto_derive_bits ops (mkDerive HKDF (Some hash) None (n_info n) length None None) keyDerivationKey (or_empty (n_salt n)))
  | X25519 =>
      let! publicKey := agreement_key n baseKey in
      let! k := key_data baseKey in
      let! k := raw_bytes k in
      let! u := key_data publicKey in
      let! u := raw_bytes u in
      let secret := op_crypto_derive_bits_x25519 ops k u in
      do! check (negb secret.1) (operation_error "Invalid key");
      cut_secret secret.2 length
  | _ => throw not_implemented
  end.

(** The bits are derived before it is asked whether the key may be used so. *)
Definition deriveBits (algorithm : AlgorithmIdentifier) (baseKey : Z) (length : option jnum) (u : world -> world) : M bytes :=
  let! k := get_key baseKey in
  let! length :=
    match length with
    | None => ret None
    | Some x => let! z := of_res (unsigned_long (fun _ => false) Ok x (mkOpts false false)) in ret (Some (BigInt z))
    end in
  let! n := normalize algorithm OderiveBits in
  let! result := derive_bits n k length in
  do! await u;
  do! same_name n k (access_error "Invalid algorithm name");
  do! has_usage k DeriveBits "baseKey usages does not contain `deriveBits`";
  ret result.

Definition secret_type (t : KeyType) : bool := bool_decide (t = Private) || bool_decide (t = Secret).

Definition deriveKey (algorithm : AlgorithmIdentifier) (baseKey : Z) (derivedKeyType : AlgorithmIdentifier) (extractable : bool) (keyUsages : list KeyUsage)
    (u1 u2 : world -> world) : M Z :=
  let! k := get_key baseKey in
  let! n := normalize algorithm OderiveBits in
  let! nImport := normalize derivedKeyType OimportKey in
  let! nLength := normalize derivedKeyType OgetKeyLength in
  do! same_name n k (access_error "Invalid algorithm name");
  do! has_usage k DeriveKey "baseKey usages does not contain `deriveKey`";
  let! length := of_res (getKeyLength nLength) in
  let! secret := derive_bits n k length in
  do! await u1;
  let! result := importKey Raw (SBuffer (ArrayBuffer secret)) (as_identifier nImport) extractable keyUsages in
  do! await u2;
  let! r := get_key result in
  do! check (negb (secret_type (k_type r) && bool_decide (keyUsages = []))) (JsSyntaxError "Invalid key usages");
  ret result.

(** ** Wrapping *)

(** [try { normalizeAlgorithm(a, op) } catch { normalizeAlgorithm(a, other) }] *)
Definition normalize_either (algorithm : AlgorithmIdentifier) (op other : crypto_op) : M Normalized :=
  try (normalize algorithm op) (normalize algorithm other).

(** What is wrapped, read when the export is there. *)
Definition wrapped_bytes (e : exported) : M bytes :=
  match e with
  | EBuffer r => gets (buffer_of r)
  | EJwk j ops => let! usages := gets (fun w => default [] (arrays w !! ops)) in ret (char_bytes (JSONStringify (with_key_ops j usages)))
  end.

(** The initialization vector of AES-CBC and the counter of AES-CTR are copied by
    [encrypt], after the wait: [iv] is what the buffer then has, if it was written
    to.  The other buffers are copied when the algorithm is normalized. *)
Definition reread (n : Normalized) (iv : option bytes) : Normalized :=
  match iv with
  | None => n
  | Some b =>
      match n_name n with
      | AES_CBC =>
          mkNorm (n_name n) (n_hash n) (n_length n) (n_modulusLength n) (n_tagLength n) (n_saltLength n) (n_iterations n) (n_publicExponent n)
            (Some b) (n_additionalData n) (n_label n) (n_counter n) (n_salt n) (n_info n) (n_namedCurve n) (n_public n)
      | AES_CTR =>
          mkNorm (n_name n) (n_hash n) (n_length n) (n_modulusLength n) (n_tagLength n) (n_saltLength n) (n_iterations n) (n_publicExponent n)
            (n_iv n) (n_additionalData n) (n_label n) (Some b) (n_salt n) (n_info n) (n_namedCurve n) (n_public n)
      | _ => n
      end
  end.

Definition wrapKey (format : KeyFormat) (key wrappingKey : Z) (wrapAlgorithm : AlgorithmIdentifier) (u : world -> world) (iv : option bytes) : M bytes :=
  let! k := get_key key in
  let! wk := get_key wrappingKey in
  let! n := normalize_either wrapAlgorithm OwrapKey Oencrypt in
  do! same_name n wk (access_error "Wrapping algorithm doesn't match key algorithm.");
  do! has_usage wk WrapKey "Key does not support the 'wrapKey' operation.";
  do! check (k_extractable k) (access_error "Key is not extractable");
  let! exportedKey := exportKey format key in
  do! await u;
  let! data := wrapped_bytes exportedKey in
  if supports OwrapKey (n_name n) then
    let! keyData := key_data wk in
    of_res (op_crypto_wrap_key ops keyData data)
  else if supports Oencrypt (n_name n) then
    let! temporary := constructKey (k_type wk) (k_extractable wk) [Encrypt] (k_algorithm wk) (k_handle wk) in
    let! tk := get_key temporary in
    encrypt_data (reread n iv) tk data
  else throw (DOMException "Algorithm not supported" "NotSupportedError").

(** The argument of [importKey] for the unwrapped bytes. *)
Definition unwrapped_source (format : KeyFormat) (b : bytes) : M key_source :=
  if bool_decide (format = Jwk) then let! j := of_res (JSONParse b) in ret (SJwk j) else ret (SBuffer (ArrayBuffer b)).

Definition unwrap_bytes (n : Normalized) (uk : CryptoKey) (wrappedKey : bytes) : M bytes :=
  if supports OunwrapKey (n_name n) then
    let! keyData := key_data uk in
    of_res (op_crypto_unwrap_key ops keyData wrappedKey)
  else if supports Odecrypt (n_name n) then
    let! temporary := constructKey (k_type uk) (k_extractable uk) [Decrypt] (k_algorithm uk) (k_handle uk) in
    decrypt (as_identifier n) temporary (ArrayBuffer wrappedKey)
  else throw (DOMException "Algorithm not supported" "NotSupportedError").

Definition unwrapKey (format : KeyFormat) (wrappedKey : buffer_source) (unwrappingKey : Z) (unwrapAlgorithm unwrappedKeyAlgorithm : AlgorithmIdentifier)
    (extractable : bool) (keyUsages : list KeyUsage) (u1 u2 : world -> world) : M Z :=
  let! uk := get_key unwrappingKey in
  let wrappedKey := copyBuffer wrappedKey in
  let! n := normalize_either unwrapAlgorithm OunwrapKey Odecrypt in
  let! nKey := normalize unwrappedKeyAlgorithm OimportKey in
  do! same_name n uk (access_error "Unwrapping algorithm doesn't match key algorithm.");
  do! has_usage uk UnwrapKey "Key does not support the 'unwrapKey' operation.";
  let! key := unwrap_bytes n uk wrappedKey in
  do! await u1;
  let! source := unwrapped_source format key in
  let! result := importKey format source (as_identifier nKey) extractable keyUsages in
  do! await u2;
  let! r := get_key result in
  do! check (negb (secret_type (k_type r) && bool_decide (keyUsages = []))) (JsSyntaxError "Invalid key type.");
  do! set_slots result extractable (usageIntersection keyUsages recognisedUsages);
  ret result.

(** ** Generating *)

Definition generateKey (algorithm : AlgorithmIdentifier) (extractable : bool) (keyUsages : list KeyUsage) (u1 u2 : world -> world) : M generated :=
  let! n := normalize algorithm OgenerateKey in
  let! result := generate_key ops n extractable keyUsages u1 in
  do! await u2;
  match result with
  | GKey key =>
      let! k := get_key key in
      do! check (negb (secret_type (k_type k) && bool_decide (keyUsages = []))) invalid_usages;
      ret result
  | GPair _ privateKey =>
      let! k := get_key privateKey in
      let! usages := gets (usages_of k) in
      do! check (negb (bool_decide (usages = []))) invalid_usages;
      ret result
  end.
End Subtle.
