(* ===== verification/CryptoProps.v ===== *)
(** * Web Crypto: what the methods keep

    The objects behind the keys stay well formed ([wf]), and no method changes the
    internal slots of a key that was there before ([evolves]).  Both are shown of the
    pieces the methods are made of and of their compositions; [other_code] is the
    same requirement on what runs while a method waits. *)

From Stdlib Require Import ZArith Lia.
From stdpp Require Import base list gmap numbers option strings.
From S2P Require Import Prelude JsNumber WebIdl Crypto CryptoKeys SubtleCrypto.

#[local] Open Scope Z_scope.
#[local] Open Scope crypto_scope.

(** ** Well-formed worlds *)

Definition inner_ref (i : inner) : Z := match i with IStored _ d => d | IBytes d => d end.
Definition is_handle (h : Z) (w : world) : Prop := is_Some (KEY_STORE w !! h).
Definition is_algorithm (a : Z) (w : world) : Prop := is_Some (algorithms w !! a).
Definition is_array (a : Z) (w : world) : Prop := is_Some (arrays w !! a).
Definition is_buffer (b : Z) (w : world) : Prop := is_Some (buffers w !! b).

Record key_ok (w : world) (r : Z) (k : CryptoKey) : Prop := {
  ok_fresh : r < next w;
  ok_handle : is_handle (k_handle k) w;
  ok_algorithm : is_algorithm (k_algorithm k) w;
  ok_usages : is_array (k_usages k) w;
}.

Record wf (w : world) : Prop := {
  wf_keys : forall r k, keys w !! r = Some k -> key_ok w r k;
  wf_store : forall h i, KEY_STORE w !! h = Some i -> h < next w /\ is_buffer (inner_ref i) w;
}.

(** ** What a key keeps *)

Record same_slots (k k' : CryptoKey) : Prop := {
  same_type : k_type k' = k_type k;
  same_extractable : k_extractable k' = k_extractable k;
  same_usages : k_usages k' = k_usages k;
  same_algorithm : k_algorithm k' = k_algorithm k;
  same_handle : k_handle k' = k_handle k;
}.

Record evolves (w w' : world) : Prop := {
  ev_keys : forall r k, keys w !! r = Some k -> exists k', keys w' !! r = Some k' /\ same_slots k k';
  ev_store : forall h i, KEY_STORE w !! h = Some i -> KEY_STORE w' !! h = Some i;
  ev_algorithms : forall a, is_algorithm a w -> is_algorithm a w';
  ev_arrays : forall a, is_array a w -> is_array a w';
  ev_buffers : forall b, is_buffer b w -> is_buffer b w';
  ev_next : next w <= next w';
}.

#[export] Instance same_slots_preorder : PreOrder same_slots.
Proof.
  split; [by intros k|].
  intros k1 k2 k3 [] []; split; congruence.
Qed.

#[export] Instance evolves_preorder : PreOrder evolves.
Proof.
  split; [intros w; split; eauto; [|lia]; intros r k; exists k; split; [done|reflexivity]|].
  intros w1 w2 w3 [K1 S1 A1 R1 B1 N1] [K2 S2 A2 R2 B2 N2]. split; eauto; [|lia].
  intros r k Hk. destruct (K1 r k Hk) as (k' & Hk' & Hs). destruct (K2 r k' Hk') as (k2 & Hk2 & Hs2).
  exists k2. split; [done|]. by transitivity k'.
Qed.

Lemma evolves_handle h w w' : evolves w w' -> is_handle h w -> is_handle h w'.
Proof. intros E [i Hi]. exists i. by apply (ev_store _ _ E). Qed.

(** ** Triples *)

Definition triple {A} (P : world -> Prop) (m : M A) (Q : A -> world -> Prop) : Prop := forall w, wf w -> P w ->
  wf (m w).1 /\ evolves w (m w).1 /\ match (m w).2 with Ok a => Q a (m w).1 | Throw _ => True end.

(** A property that lasts. *)
Definition stable (P : world -> Prop) : Prop := forall w w', evolves w w' -> P w -> P w'.

Definition keeps {A} (m : M A) : Prop := triple (fun _ => True) m (fun _ _ => True).

(** A key that was not there before. *)
Definition makes (m : M Z) : Prop := forall b, triple (fun w => b <= next w) m (fun r _ => b <= r).

Lemma spec_bind {A B} P (m : M A) Q (k : A -> M B) R :
  triple P m Q -> (forall a, triple (Q a) (k a) R) -> triple P (bind m k) R.
Proof.
  intros Hm Hk w Hw HP. specialize (Hm w Hw HP). unfold bind.
  destruct (m w) as [w1 [a|e]]; simpl in *; destruct Hm as (W1 & E1 & Q1); [|done].
  destruct (Hk a w1 W1 Q1) as (W2 & E2 & Q2). split; [done|]. split; [by transitivity w1|done].
Qed.

Lemma triple_frame {A} P (m : M A) Q F : stable F -> triple P m Q -> triple (fun w => P w /\ F w) m (fun a w => Q a w /\ F w).
Proof.
  intros HF Hm w Hw [HP HFw]. destruct (Hm w Hw HP) as (W & E & HQ). split; [done|]. split; [done|].
  destruct (m w) as [w1 [a|e]]; simpl in *; [split; [done|]; by apply (HF w)|done].
Qed.

Lemma spec_weaken {A} (P P' : world -> Prop) (m : M A) (Q Q' : A -> world -> Prop) :
  triple P m Q -> (forall w, P' w -> P w) -> (forall a w, Q a w -> Q' a w) -> triple P' m Q'.
Proof.
  intros Hm HP HQ w Hw HP'. destruct (Hm w Hw (HP w HP')) as (W & E & HQw). split; [done|]. split; [done|].
  destruct (m w) as [w1 [a|e]]; simpl in *; eauto.
Qed.

Lemma keeps_frame {A} (m : M A) F : stable F -> keeps m -> triple F m (fun _ w => F w).
Proof. intros HF Hm. eapply spec_weaken; [exact (triple_frame _ _ _ F HF Hm)| |]; naive_solver. Qed.

Lemma triple_also {A} (m : M A) Q F : stable F -> triple (fun _ => True) m Q -> triple F m (fun a w => Q a w /\ F w).
Proof. intros HF Hm. eapply spec_weaken; [exact (triple_frame _ _ _ F HF Hm)| |]; naive_solver. Qed.

Lemma stable_next b : stable (fun w => b <= next w).
Proof. intros w w' E H. pose proof (ev_next _ _ E). lia. Qed.

Lemma stable_handle h : stable (is_handle h).
Proof. intros w w' E. by apply evolves_handle. Qed.

Lemma stable_algorithm a : stable (is_algorithm a).
Proof. intros w w' E. apply (ev_algorithms _ _ E). Qed.

Lemma stable_buffer b : stable (is_buffer b).
Proof. intros w w' E. apply (ev_buffers _ _ E). Qed.

Lemma stable_and P Q : stable P -> stable Q -> stable (fun w => P w /\ Q w).
Proof. intros HP HQ w w' E [? ?]. split; [by apply (HP w)|by apply (HQ w)]. Qed.

Create HintDb crypto.
#[export] Hint Resolve stable_next stable_handle stable_algorithm stable_buffer stable_and : crypto.

Lemma kept_bind {A B} (m : M A) (k : A -> M B) : keeps m -> (forall a, keeps (k a)) -> keeps (bind m k).
Proof. intros Hm Hk. by apply (spec_bind _ _ _ _ _ Hm). Qed.

Lemma makes_bind {A} (m : M A) (k : A -> M Z) : keeps m -> (forall a, makes (k a)) -> makes (bind m k).
Proof. intros Hm Hk b. eapply spec_bind; [apply keeps_frame; [apply stable_next|done]|]. intros a. apply Hk. Qed.

Lemma makes_keeps m : makes m -> keeps m.
Proof. intros H w Hw _. destruct (H (next w) w Hw (Z.le_refl _)) as (W & E & _). split; [done|]. split; [done|]. by destruct (m w).2. Qed.

Ltac keeps_start := intros w Hw HP; cbn; split; [done|]; split; [reflexivity|done].

Lemma kept_ret {A} (a : A) : keeps (ret a).
Proof. keeps_start. Qed.
Lemma keeps_throw {A} e : keeps (@throw A e).
Proof. keeps_start. Qed.
Lemma makes_throw e : makes (throw e).
Proof. intros b; keeps_start. Qed.
Lemma keeps_check b e : keeps (check b e).
Proof. destruct b; keeps_start. Qed.
Lemma keeps_gets {A} (f : world -> A) : keeps (gets f).
Proof. keeps_start. Qed.
Lemma keeps_of_res {A} (r : jsres A) : keeps (of_res r).
Proof. intros w Hw HP; cbn. split; [done|]. split; [reflexivity|]. by destruct r. Qed.
Lemma keeps_get_key r : keeps (get_key r).
Proof. intros w Hw HP. unfold get_key. destruct (keys w !! r); (split; [done|]; split; [reflexivity|done]). Qed.
Lemma keeps_key_data k : keeps (key_data k).
Proof. intros w Hw HP. unfold key_data. case_match; (split; [done|]; split; [reflexivity|done]). Qed.
Lemma keeps_get_inner k : keeps (get_inner k).
Proof. intros w Hw HP. unfold get_inner. case_match; (split; [done|]; split; [reflexivity|done]). Qed.
Lemma keeps_try {A} (m h : M A) : keeps m -> keeps h -> keeps (try m h).
Proof.
  intros Hm Hh w Hw _. unfold try. specialize (Hm w Hw I). destruct (m w) as [w1 [a|e]]; simpl in *; [naive_solver|].
  destruct Hm as (W & E & _). destruct (Hh w1 W I) as (W2 & E2 & _). split; [done|]. split; [by transitivity w1|]. by destruct (h w1).2.
Qed.

(** ** What runs while a method waits *)

Definition other_code (u : world -> world) : Prop := forall w, wf w -> wf (u w) /\ evolves w (u w).

Lemma keeps_await u : other_code u -> keeps (await u).
Proof. intros Hu w Hw _. destruct (Hu w Hw). by split. Qed.

#[export] Hint Resolve kept_ret keeps_throw keeps_check keeps_gets keeps_of_res keeps_get_key keeps_key_data keeps_get_inner keeps_try
  keeps_await makes_throw : crypto.

(** ** New objects *)

Lemma is_Some_insert_lookup {A} (m : gmap Z A) i j x : is_Some (m !! j) -> is_Some (<[i := x]> m !! j).
Proof. intros [y Hy]. destruct (decide (i = j)) as [<-|]; [rewrite lookup_insert_eq|rewrite lookup_insert_ne by done]; eauto. Qed.

Lemma keys_same r w w' k : keys w' = keys w -> keys w !! r = Some k -> exists k', keys w' !! r = Some k' /\ same_slots k k'.
Proof. intros -> Hk. exists k. split; [done|reflexivity]. Qed.

Lemma key_ok_evolves w w' r k : evolves w w' -> key_ok w r k -> key_ok w' r k.
Proof.
  intros E [F H A U]. split; [pose proof (ev_next _ _ E); lia|by eapply evolves_handle|by apply (ev_algorithms _ _ E)|by apply (ev_arrays _ _ E)].
Qed.

(** A world that only has more objects, the keys and the store being the same. *)
Lemma more_objects w w' :
  keys w' = keys w -> KEY_STORE w' = KEY_STORE w -> (forall a, is_algorithm a w -> is_algorithm a w') -> (forall a, is_array a w -> is_array a w') ->
  (forall b, is_buffer b w -> is_buffer b w') -> next w <= next w' -> wf w -> wf w' /\ evolves w w'.
Proof.
  intros HK HS HA HR HB HN [WK WS].
  assert (E : evolves w w') by (split; try done; [by intros r k; apply keys_same|by rewrite HS]).
  split; [|done]. split.
  - rewrite HK. intros r k Hk. eapply key_ok_evolves; eauto.
  - rewrite HS. intros h i Hi. destruct (WS h i Hi). split; [lia|auto].
Qed.

Lemma and3 (A B C : Prop) : A /\ B -> C -> A /\ B /\ C.
Proof. tauto. Qed.

Ltac more := apply more_objects; cbn; try done; try lia; intros ?; unfold is_algorithm, is_array, is_buffer; cbn; auto using is_Some_insert_lookup.

Lemma alloc_buffer_ok b : triple (fun _ => True) (alloc_buffer b) is_buffer.
Proof.
  intros w Hw _. cbn. apply and3; [more|]. unfold is_buffer; cbn. rewrite lookup_insert_eq. eauto.
Qed.

Lemma alloc_array_ok a : triple (fun _ => True) (alloc_array a) is_array.
Proof.
  intros w Hw _. cbn. apply and3; [more|]. unfold is_array; cbn. rewrite lookup_insert_eq. eauto.
Qed.

Lemma alloc_algorithm_ok a : triple (fun _ => True) (alloc_algorithm a) is_algorithm.
Proof.
  intros w Hw _. cbn. apply and3; [more|]. unfold is_algorithm; cbn. rewrite lookup_insert_eq. eauto.
Qed.

Lemma triple_keeps {A} (m : M A) Q : triple (fun _ => True) m Q -> keeps m.
Proof. intros H. by eapply spec_weaken. Qed.

Lemma keeps_alloc_buffer b : keeps (alloc_buffer b).
Proof. eapply triple_keeps, alloc_buffer_ok. Qed.
Lemma keeps_alloc_array a : keeps (alloc_array a).
Proof. eapply triple_keeps, alloc_array_ok. Qed.
#[export] Hint Resolve keeps_alloc_buffer keeps_alloc_array : crypto.

Lemma new_handle_ok i : triple (is_buffer (inner_ref i)) (new_handle i) is_handle.
Proof.
  intros w Hw Hb. pose proof Hw as [WK WS]. set (w' := (new_handle i w).1).
  assert (E : evolves w w').
  { split; try done; cbn; [by intros r k; apply keys_same| |lia].
    intros h j Hj. rewrite lookup_insert_ne; [done|]. destruct (WS h j Hj). lia. }
  split; [|split; [done|unfold is_handle; cbn; rewrite lookup_insert_eq; eauto]]. split; cbn.
  - intros r k Hk. eapply key_ok_evolves; eauto.
  - intros h j. destruct (decide (next w = h)) as [<-|]; [rewrite lookup_insert_eq|rewrite lookup_insert_ne by done].
    + intros [= <-]. split; [lia|done].
    + intros Hj. destruct (WS h j Hj). split; [lia|done].
Qed.

Lemma alloc_key_ok k b :
  triple (fun w => is_array (k_usages k) w /\ is_handle (k_handle k) w /\ is_algorithm (k_algorithm k) w /\ b <= next w) (alloc_key k) (fun r _ => b <= r).
Proof.
  intros w Hw (U & H & A & Hb). pose proof Hw as [WK WS]. set (w' := (alloc_key k w).1).
  assert (E : evolves w w').
  { split; try done; cbn; [|lia]. intros r j Hj. exists j. split; [|reflexivity].
    rewrite lookup_insert_ne; [done|]. pose proof (ok_fresh _ _ _ (WK r j Hj)). lia. }
  split; [|split; [done|done]]. split; cbn.
  - intros r j. destruct (decide (next w = r)) as [<-|]; [rewrite lookup_insert_eq|rewrite lookup_insert_ne by done].
    + intros [= <-]. split; cbn; [lia|done|done|done].
    + intros Hj. eapply key_ok_evolves; eauto.
  - intros h j Hj. destruct (WS h j Hj). split; [lia|done].
Qed.

Lemma constructKey_ok type extractable usages a h b :
  triple (fun w => is_handle h w /\ is_algorithm a w /\ b <= next w) (constructKey type extractable usages a h) (fun r _ => b <= r).
Proof.
  unfold constructKey. eapply spec_bind; [apply triple_also; [eauto 10 with crypto|apply alloc_array_ok]|].
  intros r. eapply spec_weaken; [apply (alloc_key_ok _ b)|cbn; tauto|done].
Qed.

Lemma import_new_makes stored type data a keyType extractable usages : makes (import_new stored type data a keyType extractable usages).
Proof.
  intros b. unfold import_new. eapply spec_bind; [apply triple_also; [auto with crypto|apply alloc_buffer_ok]|].
  intros d. eapply spec_bind.
  { apply triple_frame; [auto with crypto|]. eapply (spec_weaken _ _ _ _ is_handle); [apply new_handle_ok| |done]. cbn. intros w. by destruct stored. }
  intros h. cbn. eapply spec_bind; [apply triple_also; [auto with crypto|apply alloc_algorithm_ok]|].
  intros al. eapply spec_weaken; [apply (constructKey_ok _ _ _ _ _ b)|cbn beta; tauto|done].
Qed.
#[export] Hint Resolve import_new_makes : crypto.

(** ** The methods *)

Lemma keeps_under {A} F (m : M A) : keeps m -> triple F m (fun _ _ => True).
Proof. intros H. eapply spec_weaken; [exact H|done|done]. Qed.

Ltac kept := repeat first [match goal with |- forall _, _ => intro end | match goal with |- keeps (bind _ _) => apply kept_bind | |- makes (bind _ _) => apply makes_bind | |- triple _ _ (fun _ _ => True) => apply keeps_under end
  | solve [auto with crypto] | case_match].

Section Kept.
Context (toUpperCase toLowerCase : str -> str) (ops : crypto_ops) (JSONStringify : JsonWebKey -> str) (JSONParse : str -> jsres JsonWebKey).

Lemma keeps_hash_name h : keeps (hash_name h).
Proof. unfold hash_name. kept. Qed.
Lemma keeps_must_be k t msg : keeps (must_be k t msg).
Proof. unfold must_be. kept. Qed.
Lemma keeps_same_name n k e : keeps (same_name n k e).
Proof. unfold same_name. kept. Qed.
Lemma keeps_has_usage k u msg : keeps (has_usage k u msg).
Proof. unfold has_usage. kept. Qed.
Lemma keeps_normalize a op : keeps (normalize toUpperCase a op).
Proof. unfold normalize. kept. Qed.
Lemma keeps_check_key_ops j us e : keeps (check_key_ops j us e).
Proof. unfold check_key_ops. kept. Qed.
Lemma keeps_check_ext j x e : keeps (check_ext j x e).
Proof. unfold check_ext. kept. Qed.
Lemma keeps_check_use j us x e : keeps (check_use j us x e).
Proof. unfold check_use. kept. Qed.
Lemma keeps_check_ec_alg j n : keeps (check_ec_alg j n).
Proof. unfold check_ec_alg. kept. Qed.
Lemma keeps_check_rsa_private j : keeps (check_rsa_private j).
Proof. unfold check_rsa_private. cbv zeta. kept. Qed.
Lemma keeps_upper s : keeps (upper toUpperCase s).
Proof. unfold upper. kept. Qed.
Lemma keeps_raw_bytes m : keeps (raw_bytes m).
Proof. unfold raw_bytes. kept. Qed.
Hint Resolve keeps_hash_name keeps_must_be keeps_same_name keeps_has_usage keeps_normalize keeps_check_key_ops keeps_check_ext keeps_check_use
  keeps_check_ec_alg keeps_check_rsa_private keeps_upper keeps_raw_bytes : crypto.

Lemma keeps_check_rsa_alg j n : keeps (check_rsa_alg toUpperCase j n).
Proof. unfold check_rsa_alg. kept. Qed.
Hint Resolve keeps_check_rsa_alg : crypto.

(** Every way to import makes a new key. *)
Lemma import_with_makes n format keyData extractable us : makes (import_with toUpperCase toLowerCase ops n format keyData extractable us).
Proof.
  unfold import_with, importKeyHMAC, importKeyEC, importKeyRSA, importKeyHKDF, importKeyPBKDF2, import_derivation_key, importKeyAES, importKeyX25519, importKeyEd25519.
  cbv zeta. destruct (n_name n); kept.
Qed.

Lemma importKey_makes format keyData a extractable us : makes (importKey toUpperCase toLowerCase ops format keyData a extractable us).
Proof.
  unfold importKey, key_argument. kept. apply import_with_makes.
Qed.

Lemma importKey_keeps format keyData a extractable us : keeps (importKey toUpperCase toLowerCase ops format keyData a extractable us).
Proof. apply makes_keeps, importKey_makes. Qed.
Hint Resolve importKey_keeps : crypto.

Lemma digest_keeps a data : keeps (digest toUpperCase ops a data).
Proof. unfold digest. kept. Qed.

Lemma keeps_oaep_args k n : keeps (oaep_args k n).
Proof. unfold oaep_args. kept. Qed.
Lemma keeps_cbc_args k n msg : keeps (cbc_args k n msg).
Proof. unfold cbc_args. kept. Qed.
Lemma keeps_ctr_args k n : keeps (ctr_args k n).
Proof. unfold ctr_args, ctr_length. kept. Qed.
Lemma keeps_gcm_args k n t : keeps (gcm_args k n t).
Proof. unfold gcm_args. kept. Qed.
Lemma keeps_tag_length n : keeps (tag_length n).
Proof. unfold tag_length. kept. Qed.
Lemma keeps_iv_check iv : keeps (iv_check iv).
Proof. unfold iv_check. kept. Qed.
Hint Resolve keeps_oaep_args keeps_cbc_args keeps_ctr_args keeps_gcm_args keeps_tag_length keeps_iv_check : crypto.

Lemma encrypt_data_keeps n k data : keeps (encrypt_data ops n k data).
Proof. unfold encrypt_data. kept. Qed.
Hint Resolve encrypt_data_keeps : crypto.

Lemma encrypt_keeps a key data : keeps (encrypt toUpperCase ops a key data).
Proof. unfold encrypt. kept. Qed.

Lemma decrypt_keeps a key data : keeps (decrypt toUpperCase ops a key data).
Proof. unfold decrypt. kept. Qed.
Hint Resolve decrypt_keeps : crypto.

Lemma sign_keeps a key data : keeps (sign toUpperCase ops a key data).
Proof. unfold sign. kept. Qed.

Lemma verify_keeps a key s data : keeps (verify toUpperCase ops a key s data).
Proof. unfold verify. kept. Qed.

Lemma exportKey_keeps format key : keeps (exportKey ops format key).
Proof.
  unfold exportKey, exportKeyHMAC, exportKeyRSA, exportKeyEC, exportKeyEd25519, exportKeyX25519, exportKeyAES, export_jwk, export_bytes, inner_bytes, stored_buffer,
    bytes_buffer. cbv zeta. kept.
Qed.
Hint Resolve exportKey_keeps : crypto.

Lemma derive_bits_keeps n k length : keeps (derive_bits ops n k length).
Proof. unfold derive_bits, whole_bytes, cut_secret, agreement_key. kept. Qed.
Hint Resolve derive_bits_keeps : crypto.

Lemma deriveBits_keeps a key length u : other_code u -> keeps (deriveBits toUpperCase ops a key length u).
Proof. unfold deriveBits. kept. Qed.

Lemma deriveKey_keeps a key t extractable us u1 u2 :
  other_code u1 -> other_code u2 -> keeps (deriveKey toUpperCase toLowerCase ops a key t extractable us u1 u2).
Proof. unfold deriveKey. kept. Qed.

(** *** Wrapping *)

Definition usable (k : CryptoKey) (w : world) : Prop := is_handle (k_handle k) w /\ is_algorithm (k_algorithm k) w.

Lemma stable_usable k : stable (usable k).
Proof. apply stable_and; auto with crypto. Qed.
Hint Resolve stable_usable : crypto.

Lemma get_key_usable r : triple (fun _ => True) (get_key r) usable.
Proof.
  intros w Hw _. unfold get_key. destruct (keys w !! r) as [k|] eqn:E; (split; [done|]; split; [reflexivity|]); [|done].
  destruct (wf_keys _ Hw _ _ E). by split.
Qed.

Lemma framed_bind {A B} F (m : M A) (k : A -> M B) Q : stable F -> keeps m -> (forall a, triple F (k a) Q) -> triple F (bind m k) Q.
Proof. intros HF Hm Hk. eapply spec_bind; [by apply keeps_frame|]. done. Qed.

Ltac framed := repeat first [match goal with |- forall _, _ => intro | |- triple _ (bind _ _) _ => apply framed_bind; [solve [auto with crypto]|solve [kept]|] end | case_match].

Lemma constructKey_under type extractable us k : triple (usable k) (constructKey type extractable us (k_algorithm k) (k_handle k)) (fun _ _ => True).
Proof.
  intros w Hw [H A]. destruct (constructKey_ok type extractable us (k_algorithm k) (k_handle k) (next w) w Hw) as (W & E & _).
  { split; [done|]. split; [done|lia]. }
  split; [done|]. split; [done|]. by case_match.
Qed.

Lemma keeps_wrapped_bytes e : keeps (wrapped_bytes JSONStringify e).
Proof. unfold wrapped_bytes. kept. Qed.
Lemma keeps_normalize_either a op op' : keeps (normalize_either toUpperCase a op op').
Proof. unfold normalize_either. kept. Qed.
Lemma keeps_unwrapped_source format b : keeps (unwrapped_source JSONParse format b).
Proof. unfold unwrapped_source. kept. Qed.
Hint Resolve keeps_wrapped_bytes keeps_normalize_either keeps_unwrapped_source : crypto.

Lemma wrapKey_keeps format key wk a u iv : other_code u -> keeps (wrapKey toUpperCase ops JSONStringify format key wk a u iv).
Proof.
  intros Hu. unfold wrapKey. apply kept_bind; [kept|]. intros k. eapply spec_bind; [apply get_key_usable|].
  framed; try solve [apply keeps_under; kept].
  eapply spec_bind; [apply constructKey_under|]. intros t. apply keeps_under. kept.
Qed.

Lemma unwrap_bytes_under n k b : triple (usable k) (unwrap_bytes toUpperCase ops n k b) (fun _ _ => True).
Proof.
  unfold unwrap_bytes. framed; try solve [apply keeps_under; kept].
  eapply spec_bind; [apply constructKey_under|]. intros t. apply keeps_under. kept.
Qed.

(** Setting the slots of a key that is newer than [w0]. *)
Lemma set_slots_new w0 w r extractable us :
  wf w -> evolves w0 w -> next w0 <= r -> (forall r' k, keys w0 !! r' = Some k -> r' < next w0) -> is_Some (keys w !! r) ->
  exists w', set_slots r extractable us w = (w', Ok tt) /\ wf w' /\ evolves w0 w'.
Proof.
  intros Hw E Hr Hold [k Hk]. destruct (alloc_array_ok us w Hw I) as (W1 & E1 & A1). cbn in *.
  destruct (ev_keys _ _ E1 _ _ Hk) as (k1 & Hk1 & _). cbn in Hk1. simplify_eq.
  unfold set_slots, bind. cbn. unfold get_key; cbn. rewrite Hk. eexists. split; [done|].
  destruct (wf_keys _ Hw _ _ Hk) as [F H A U]. destruct W1 as [WK WS]. cbn in *. split; [split|]; cbn.
  - intros r' k'. destruct (decide (r = r')) as [<-|]; [rewrite lookup_insert_eq|rewrite lookup_insert_ne by done].
    + intros [= <-]. split; cbn; [lia|done|done|done].
    + intros Hk'. by destruct (WK r' k' Hk').
  - done.
  - destruct E as [K S A' R B N], E1 as [K1 S1 A1' R1 B1 N1]. split; cbn in *; eauto; [|lia].
    intros r' k' Hk'. rewrite lookup_insert_ne; [by apply K|]. pose proof (Hold r' k' Hk'). lia.
Qed.

Lemma old_keys w r k : wf w -> keys w !! r = Some k -> r < next w.
Proof. intros Hw Hk. by destruct (wf_keys _ Hw _ _ Hk). Qed.

(** The end of [unwrapKey]: import, and set the slots of the new key. *)
Lemma import_and_set format source a extractable us u b :
  other_code u ->
  triple (fun w => b <= next w)
    (let! result := importKey toUpperCase toLowerCase ops format source a extractable us in
     do! await u;
     let! r := get_key result in
     do! check (negb (secret_type (k_type r) && bool_decide (us = []))) (JsSyntaxError "Invalid key type.");
     do! set_slots result extractable (usageIntersection us recognisedUsages);
     ret result) (fun r _ => b <= r).
Proof.
  intros Hu w Hw Hb. unfold bind. destruct (importKey_makes format source a extractable us (next w) w Hw (Z.le_refl _)) as (W1 & E1 & F1).
  destruct (importKey _ _ _ _ _ _ _ _ w) as [w1 [r|e]]; cbn -[set_slots] in *; [|tauto].
  destruct (Hu w1 W1) as [W2 E2]. unfold get_key; cbn -[set_slots].
  destruct (keys (u w1) !! r) as [k|] eqn:Hk; cbn -[set_slots]; [|split; [done|]; split; [by transitivity w1|done]].
  unfold check. destruct (negb _); cbn -[set_slots]; [|split; [done|]; split; [by transitivity w1|done]].
  destruct (set_slots_new w (u w1) r extractable (usageIntersection us recognisedUsages)) as (w' & -> & W' & E'); eauto using old_keys.
  { by transitivity w1. }
  cbn. split; [done|]. split; [done|lia].
Qed.

Lemma unwrapKey_makes format wrapped key a ka extractable us u1 u2 :
  other_code u1 -> other_code u2 -> makes (unwrapKey toUpperCase toLowerCase ops JSONParse format wrapped key a ka extractable us u1 u2).
Proof.
  intros Hu1 Hu2 b. unfold unwrapKey. eapply spec_bind; [apply triple_also; [apply (stable_next b)|apply get_key_usable]|].
  intros k. cbn beta zeta. do 4 (apply framed_bind; [auto with crypto|solve [kept]|]; intros ?).
  eapply spec_bind; [apply triple_frame; [auto with crypto|apply unwrap_bytes_under]|].
  intros c. apply (spec_weaken (fun w => b <= next w) _ _ (fun r _ => b <= r)); [|cbn beta; tauto|done]. do 2 (apply framed_bind; [auto with crypto|solve [kept]|]; intros ?).
  by apply import_and_set.
Qed.

(** *** Generating *)

Lemma generate_data_ok args t u : other_code u -> triple (fun _ => True) (generate_data ops args t u) (fun p w => is_handle p.1 w).
Proof.
  intros Hu. unfold generate_data. apply framed_bind; [done|kept|]. intros moment. apply framed_bind; [done|kept|]. intros d.
  apply framed_bind; [done|kept|]. intros _. eapply spec_bind; [apply alloc_buffer_ok|]. intros r.
  eapply spec_bind; [apply (new_handle_ok (IStored t r))|]. intros h w Hw Hh. cbn. split; [done|]. split; [reflexivity|done].
Qed.

Lemma constructKey_plain type extractable us a h :
  triple (fun w => is_algorithm a w /\ is_handle h w) (constructKey type extractable us a h) (fun _ _ => True).
Proof.
  intros w Hw [A H]. destruct (constructKey_ok type extractable us a h (next w) w Hw) as (W & E & _); [split; [done|]; split; [done|lia]|].
  split; [done|]. split; [done|]. by case_match.
Qed.
Lemma key_pair_ok extractable us us' a h h' :
  triple (fun w => is_algorithm a w /\ is_handle h w /\ is_handle h' w) (key_pair extractable us us' a h h') (fun _ _ => True).
Proof.
  unfold key_pair. eapply (spec_weaken (fun w => (is_algorithm a w /\ is_handle h w) /\ (is_algorithm a w /\ is_handle h' w)) _ _ (fun _ _ => True)); [|tauto|done].
  eapply spec_bind; [apply triple_frame; [auto with crypto|apply constructKey_plain]|]. intros p.
  eapply (spec_weaken (fun w => is_algorithm a w /\ is_handle h' w) _ _ (fun _ _ => True)); [|cbn beta; tauto|done].
  eapply spec_bind; [apply constructKey_plain|]. intros q. kept.
Qed.

(** A key pair made from one handle. *)
Lemma pair_from_data args t u extractable us us' (alg_ : bytes -> KeyAlgorithm) :
  other_code u ->
  keeps (let! h := generate_data ops args t u in
         let! algorithm := alloc_algorithm (alg_ h.2) in
         key_pair extractable us us' algorithm h.1 h.1).
Proof.
  intros Hu. eapply spec_bind; [by apply generate_data_ok|]. intros h. cbn beta.
  eapply spec_bind; [apply triple_also; [auto with crypto|apply alloc_algorithm_ok]|]. intros al.
  eapply spec_weaken; [apply key_pair_ok|cbn beta; tauto|done].
Qed.

Lemma key_from_data args t u extractable us (alg_ : bytes -> KeyAlgorithm) :
  other_code u ->
  keeps (let! h := generate_data ops args t u in
         let! algorithm := alloc_algorithm (alg_ h.2) in
         let! key := constructKey Secret extractable us algorithm h.1 in
         ret (GKey key)).
Proof.
  intros Hu. eapply spec_bind; [by apply generate_data_ok|]. intros h. cbn beta.
  eapply spec_bind; [apply triple_also; [auto with crypto|apply alloc_algorithm_ok]|]. intros al.
  eapply spec_bind; [apply constructKey_plain|]. intros k. kept.
Qed.

Lemma generate25519_keeps name kp extractable us us' : keeps (generate25519 name kp extractable us us').
Proof.
  unfold generate25519. eapply spec_bind; [apply alloc_buffer_ok|]. intros d.
  eapply spec_bind; [apply triple_also; [auto with crypto|apply alloc_buffer_ok]|]. intros d'. cbn beta.
  eapply (spec_weaken (fun w => is_buffer d w /\ is_buffer d' w)); [|tauto|intros ? ? H; exact H].
  eapply spec_bind; [apply triple_frame; [auto with crypto|apply (new_handle_ok (IBytes d))]|]. intros h. cbn beta.
  eapply (spec_weaken (fun w => is_buffer d' w /\ is_handle h w)); [|tauto|intros ? ? H; exact H].
  eapply spec_bind; [apply triple_frame; [auto with crypto|apply (new_handle_ok (IBytes d'))]|]. intros h'. cbn beta.
  eapply spec_bind; [apply triple_also; [auto with crypto|apply alloc_algorithm_ok]|]. intros al.
  apply key_pair_ok.
Qed.

Lemma generateKeyRSA_keeps n extractable us pus sus u : other_code u -> keeps (generateKeyRSA ops n extractable us pus sus u).
Proof.
  intros Hu. unfold generateKeyRSA. apply kept_bind; [kept|]. intros _.
  by apply (pair_from_data _ _ _ _ _ _ (fun _ => mkAlg (n_name n) None (n_hash n) (n_modulusLength n) (n_publicExponent n) None)).
Qed.

Lemma generateKeyEC_keeps n extractable us pus sus u : other_code u -> keeps (generateKeyEC ops n extractable us pus sus u).
Proof.
  intros Hu. unfold generateKeyEC. apply kept_bind; [kept|]. intros _. destruct (n_namedCurve n) as [c|]; [|kept]. case_match; [|kept].
  by apply (pair_from_data _ _ _ _ _ _ (fun _ => mkAlg (n_name n) None None None None (Some c))).
Qed.

Lemma generateKeyAES_keeps n extractable us u : other_code u -> keeps (generateKeyAES ops n extractable us u).
Proof.
  intros Hu. unfold generateKeyAES. apply kept_bind; [kept|]. intros _.
  by apply (key_from_data _ _ _ _ _ (fun _ => mkAlg (n_name n) (n_length n) None None None None)).
Qed.

Lemma generateKeyHMAC_keeps n extractable us u : other_code u -> keeps (generateKeyHMAC ops n extractable us u).
Proof.
  intros Hu. unfold generateKeyHMAC. do 3 (apply kept_bind; [kept|]; intros ?).
  by apply (key_from_data _ _ _ _ _ (fun d => mkAlg (n_name n) (Some (slen d * 8)) (Some _) None None None)).
Qed.
Hint Resolve generateKeyRSA_keeps generateKeyEC_keeps generateKeyAES_keeps generateKeyHMAC_keeps generate25519_keeps : crypto.

Lemma generate_key_keeps n extractable us u : other_code u -> keeps (generate_key ops n extractable us u).
Proof. intros Hu. unfold generate_key. kept. Qed.

Lemma generateKey_keeps a extractable us u1 u2 : other_code u1 -> other_code u2 -> keeps (generateKey toUpperCase ops a extractable us u1 u2).
Proof. intros H1 H2. pose proof (fun n => generate_key_keeps n extractable us u1 H1). unfold generateKey. kept. Qed.
End Kept.

(** ** Successful calls *)

Lemma get_key_ok r w w' k : get_key r w = (w', Ok k) -> w' = w /\ keys w !! r = Some k.
Proof. unfold get_key. case_match; naive_solver. Qed.

Lemma bind_ok {A B} (m : M A) (k : A -> M B) w w' b : bind m k w = (w', Ok b) -> exists a w1, m w = (w1, Ok a) /\ k a w1 = (w', Ok b).
Proof. unfold bind. destruct (m w) as [w1 [a|e]]; [eauto|done]. Qed.

Lemma of_res_ok {A} (r : jsres A) w w' a : of_res r w = (w', Ok a) -> w' = w /\ r = Ok a.
Proof. unfold of_res. naive_solver. Qed.

Lemma check_ok b e w w' x : check b e w = (w', Ok x) -> w' = w /\ b = true.
Proof. unfold check. destruct b; [|done]. by intros [= <- _]. Qed.

Lemma same_name_ok n k e w w' x : same_name n k e w = (w', Ok x) -> w' = w /\ n_name n = a_name (algorithm_of k w).
Proof. unfold same_name. intros (a & w1 & [= <- <-] & [-> H%bool_decide_eq_true]%check_ok)%bind_ok. done. Qed.

Lemma has_usage_ok k u msg w w' x : has_usage k u msg w = (w', Ok x) -> w' = w /\ u ∈ usages_of k w.
Proof. unfold has_usage. intros (a & w1 & [= <- <-] & [-> H%bool_decide_eq_true]%check_ok)%bind_ok. done. Qed.

Lemma must_be_ok k t msg w w' x : must_be k t msg w = (w', Ok x) -> w' = w /\ k_type k = t.
Proof. unfold must_be. by intros [-> H%bool_decide_eq_true]%check_ok. Qed.

Lemma key_data_ok k w w' m : key_data k w = (w', Ok m) -> w' = w /\ exists i, KEY_STORE w !! k_handle k = Some i /\ m = material i w.
Proof. unfold key_data. case_match; naive_solver. Qed.

(** Going through a successful call: the first step of it. *)
Ltac step H :=
  let a := fresh "a" in let w1 := fresh "w" in let E := fresh "E" in
  match type of H with bind _ _ _ = _ => idtac end;
  apply bind_ok in H as (a & w1 & E & H);
  first [apply get_key_ok in E as [-> E] | apply of_res_ok in E as [-> E] | apply same_name_ok in E as [-> E] | apply has_usage_ok in E as [-> E]
        | apply must_be_ok in E as [-> E] | apply key_data_ok in E as [-> E] | apply check_ok in E as [-> E] | (injection E as <- <-; idtac) | idtac].

(** ** Calls that go through *)

Lemma bind_run {A B} (m : M A) (k : A -> M B) w w1 a : m w = (w1, Ok a) -> bind m k w = k a w1.
Proof. unfold bind. by intros ->. Qed.

Lemma get_key_run r w k : keys w !! r = Some k -> get_key r w = (w, Ok k).
Proof. unfold get_key. by intros ->. Qed.

Lemma get_inner_run k w i : KEY_STORE w !! k_handle k = Some i -> get_inner k w = (w, Ok i).
Proof. unfold get_inner. by intros ->. Qed.

Lemma key_data_run k w i : KEY_STORE w !! k_handle k = Some i -> key_data k w = (w, Ok (material i w)).
Proof. unfold key_data. by intros ->. Qed.

Lemma check_run b e w : b = true -> check b e w = (w, Ok tt).
Proof. by intros ->. Qed.

Lemma of_res_run {A} (r : jsres A) a w : r = Ok a -> of_res r w = (w, Ok a).
Proof. by intros ->. Qed.

Lemma same_name_run n k e w : n_name n = a_name (algorithm_of k w) -> same_name n k e w = (w, Ok tt).
Proof. intros H. unfold same_name. erewrite bind_run by done. apply check_run. by apply bool_decide_eq_true_2. Qed.

Lemma has_usage_run k u msg w : u ∈ usages_of k w -> has_usage k u msg w = (w, Ok tt).
Proof. intros H. unfold has_usage. erewrite bind_run by done. apply check_run. by apply bool_decide_eq_true_2. Qed.
