(* ===== verification/CryptoTheorems.v ===== *)
(** * Web Crypto: theorems

    Programs are lists of actions: what a script can do to the objects it gets hold
    of, and the calls of [SubtleCrypto], each with the actions that run at its
    [await]s.  The slots of a key are own properties whose keys are symbols, which a
    script finds with [Object.getOwnPropertySymbols], so a script can also write them.
    As long as no script does ([leaves_slots]), a key that is not extractable stays so
    and is not wrapped, nor exported unless a script has hidden its [extractable]
    accessor; a call that needs a usage succeeds only with a key that has it; an
    imported key has only usages its algorithm and type allow; and an unwrapped key
    is the key that was wrapped. *)

From Stdlib Require Import ZArith Lia.
From stdpp Require Import base list gmap numbers option strings.
From S2P Require Import Prelude JsNumber WebIdl Crypto CryptoKeys SubtleCrypto CryptoProps.

#[local] Open Scope Z_scope.
#[local] Open Scope crypto_scope.

(** ** Programs *)

(** Assigning to a slot, [key[symbol] = value]. *)
Inductive slot_value :=
  | SlotType (t : KeyType)
  | SlotExtractable (v : bool)
  | SlotUsages (array : Z)
  | SlotAlgorithm (object : Z)
  | SlotHandle (handle : Z).

Inductive action :=
  | WriteSlot (key : Z) (v : slot_value)
  | WriteBuffer (r : Z) (b : bytes)
  | WriteArray (r : Z) (us : list KeyUsage)
  | WriteAlgorithm (r : Z) (a : KeyAlgorithm)
  | DefineExtractable (key : Z) (v : bool)
  | DefineUsages (key : Z) (us : list KeyUsage)
  | Digest (a : AlgorithmIdentifier) (data : buffer_source)
  | EncryptCall (a : AlgorithmIdentifier) (key : Z) (data : buffer_source)
  | DecryptCall (a : AlgorithmIdentifier) (key : Z) (data : buffer_source)
  | SignCall (a : AlgorithmIdentifier) (key : Z) (data : buffer_source)
  | VerifyCall (a : AlgorithmIdentifier) (key : Z) (signature data : buffer_source)
  | ImportCall (format : KeyFormat) (keyData : key_source) (a : AlgorithmIdentifier) (extractable : bool) (us : list KeyUsage)
  | ExportCall (format : KeyFormat) (key : Z)
  | DeriveBitsCall (a : AlgorithmIdentifier) (key : Z) (length : option jnum) (l : list action)
  | DeriveKeyCall (a : AlgorithmIdentifier) (key : Z) (t : AlgorithmIdentifier) (extractable : bool) (us : list KeyUsage) (l1 l2 : list action)
  | WrapCall (format : KeyFormat) (key wrappingKey : Z) (a : AlgorithmIdentifier) (l : list action) (iv : option bytes)
  | UnwrapCall (format : KeyFormat) (wrapped : buffer_source) (key : Z) (a ka : AlgorithmIdentifier) (extractable : bool) (us : list KeyUsage) (l1 l2 : list action)
  | GenerateCall (a : AlgorithmIdentifier) (extractable : bool) (us : list KeyUsage) (l1 l2 : list action).

(** Assigning to an object that is there. *)
Definition write {A} (r : Z) (x : A) (m : gmap Z A) : gmap Z A := match m !! r with Some _ => <[r := x]> m | None => m end.

(** [Object.defineProperty(key, "extractable", ...)] and the same for [usages]. *)
Definition define_extractable (v : bool) (k : CryptoKey) : CryptoKey :=
  mkKey (k_type k) (k_extractable k) (k_usages k) (k_algorithm k) (k_handle k) (Some v) (own_usages k).
Definition define_usages (a : Z) (k : CryptoKey) : CryptoKey :=
  mkKey (k_type k) (k_extractable k) (k_usages k) (k_algorithm k) (k_handle k) (own_extractable k) (Some a).

Definition write_slot (v : slot_value) (k : CryptoKey) : CryptoKey :=
  match v with
  | SlotType t => mkKey t (k_extractable k) (k_usages k) (k_algorithm k) (k_handle k) (own_extractable k) (own_usages k)
  | SlotExtractable b => mkKey (k_type k) b (k_usages k) (k_algorithm k) (k_handle k) (own_extractable k) (own_usages k)
  | SlotUsages r => mkKey (k_type k) (k_extractable k) r (k_algorithm k) (k_handle k) (own_extractable k) (own_usages k)
  | SlotAlgorithm r => mkKey (k_type k) (k_extractable k) (k_usages k) r (k_handle k) (own_extractable k) (own_usages k)
  | SlotHandle h => mkKey (k_type k) (k_extractable k) (k_usages k) (k_algorithm k) h (own_extractable k) (own_usages k)
  end.

(** Programs that do not write slots, at their awaits neither. *)
Fixpoint leaves_slots (a : action) : bool :=
  match a with
  | WriteSlot _ _ => false
  | DeriveBitsCall _ _ _ l => forallb leaves_slots l
  | DeriveKeyCall _ _ _ _ _ l1 l2 => forallb leaves_slots l1 && forallb leaves_slots l2
  | WrapCall _ _ _ _ l _ => forallb leaves_slots l
  | UnwrapCall _ _ _ _ _ _ _ l1 l2 => forallb leaves_slots l1 && forallb leaves_slots l2
  | GenerateCall _ _ _ l1 l2 => forallb leaves_slots l1 && forallb leaves_slots l2
  | _ => true
  end.

Definition set_keys (w : world) (ks : gmap Z CryptoKey) : world := mkWorld (KEY_STORE w) ks (arrays w) (algorithms w) (buffers w) (next w).

Section Theorems.
Context (toUpperCase toLowerCase : str -> str) (ops : crypto_ops) (JSONStringify : JsonWebKey -> str) (JSONParse : str -> jsres JsonWebKey).

Fixpoint act (a : action) (w : world) : world :=
  let many l w := fold_left (fun w a => act a w) l w in
  match a with
  | WriteSlot key v => set_keys w (alter (write_slot v) key (keys w))
  | WriteBuffer r b => mkWorld (KEY_STORE w) (keys w) (arrays w) (algorithms w) (write r b (buffers w)) (next w)
  | WriteArray r us => mkWorld (KEY_STORE w) (keys w) (write r us (arrays w)) (algorithms w) (buffers w) (next w)
  | WriteAlgorithm r al => mkWorld (KEY_STORE w) (keys w) (arrays w) (write r al (algorithms w)) (buffers w) (next w)
  | DefineExtractable key v => set_keys w (alter (define_extractable v) key (keys w))
  | DefineUsages key us => let w' := (alloc_array us w).1 in set_keys w' (alter (define_usages (next w)) key (keys w'))
  | Digest al data => (digest toUpperCase ops al data w).1
  | EncryptCall al key data => (encrypt toUpperCase ops al key data w).1
  | DecryptCall al key data => (decrypt toUpperCase ops al key data w).1
  | SignCall al key data => (sign toUpperCase ops al key data w).1
  | VerifyCall al key signature data => (verify toUpperCase ops al key signature data w).1
  | ImportCall format keyData al extractable us => (importKey toUpperCase toLowerCase ops format keyData al extractable us w).1
  | ExportCall format key => (exportKey ops format key w).1
  | DeriveBitsCall al key length l => (deriveBits toUpperCase ops al key length (many l) w).1
  | DeriveKeyCall al key t extractable us l1 l2 => (deriveKey toUpperCase toLowerCase ops al key t extractable us (many l1) (many l2) w).1
  | WrapCall format key wrappingKey al l iv => (wrapKey toUpperCase ops JSONStringify format key wrappingKey al (many l) iv w).1
  | UnwrapCall format wrapped key al ka extractable us l1 l2 =>
      (unwrapKey toUpperCase toLowerCase ops JSONParse format wrapped key al ka extractable us (many l1) (many l2) w).1
  | GenerateCall al extractable us l1 l2 => (generateKey toUpperCase ops al extractable us (many l1) (many l2) w).1
  end.

Definition run (program : list action) (w : world) : world := fold_left (fun w a => act a w) program w.

(** ** Every action keeps the worlds well formed and the slots of the keys *)

Lemma keeps_other {A} (m : M A) : keeps m -> other_code (fun w => (m w).1).
Proof. intros Hm w Hw. by destruct (Hm w Hw I) as (? & ? & _). Qed.

Lemma is_Some_write {A} (m : gmap Z A) r x j : is_Some (m !! j) -> is_Some (write r x m !! j).
Proof. unfold write. case_match; [apply is_Some_insert_lookup|done]. Qed.

Lemma alter_keys (f : CryptoKey -> CryptoKey) key w : (forall k, same_slots k (f k)) -> wf w -> wf (set_keys w (alter f key (keys w))) /\ evolves w (set_keys w (alter f key (keys w))).
Proof.
  intros Hf Hw.
  assert (E : evolves w (set_keys w (alter f key (keys w)))).
  { split; cbn; eauto; [|lia]. intros r k Hk. destruct (decide (key = r)) as [<-|].
    - exists (f k). rewrite lookup_alter_eq, Hk. by split.
    - exists k. rewrite lookup_alter_ne by done. split; [done|reflexivity]. }
  split; [|done]. destruct Hw as [WK WS]. split; cbn; [|done]. intros r k'. rewrite lookup_alter.
  case_decide as D; [subst|intros Hk; eapply key_ok_evolves; eauto]. destruct (keys w !! r) as [k|] eqn:Hk; [|done]. intros [= <-].
  destruct (WK r k Hk) as [F H A U], (Hf k) as [T X U' A' H']. split; cbn; rewrite ?H', ?A', ?U'; assumption.
Qed.

Lemma other_fold l : Forall (fun a => other_code (act a)) l -> other_code (fun w => fold_left (fun w a => act a w) l w).
Proof.
  induction 1 as [|a l Ha _ IH]; intros w Hw; cbn; [split; [done|reflexivity]|].
  destruct (Ha w Hw) as [W1 E1]. destruct (IH _ W1) as [W2 E2]. split; [done|]. by transitivity (act a w).
Qed.

Ltac same_keys := apply more_objects; cbn; try done; intros ?; unfold is_algorithm, is_array, is_buffer; cbn; auto using is_Some_write.

(** The actions that run at an [await]. *)
Ltac sub l IH Hl := revert Hl; clear -IH; revert l; let IHl := fresh in fix IHl 1; intros [|b l]; cbn; [constructor|];
  intros [?%IH ?%IHl]%andb_prop; by constructor.

Lemma act_ok : forall a, leaves_slots a = true -> other_code (act a).
Proof.
  fix IH 1.
  assert (F : forall l, Forall (fun a => other_code (act a)) l -> other_code (fun w => fold_left (fun w a => act a w) l w)) by apply other_fold.
  intros [key v|r b|r us|r al|key v|key us|al data|al key data|al key data|al key data|al key sg data|fm kd al x us|fm key|al key len l|al key t x us l1 l2|fm key wk al l iv
    |fm wr key al ka x us l1 l2|al x us l1 l2]; cbn [leaves_slots].
  - done.
  - intros _ w Hw. same_keys.
  - intros _ w Hw. same_keys.
  - intros _ w Hw. same_keys.
  - intros _ w Hw. by apply alter_keys.
  - intros _ w Hw. cbn. destruct (keeps_alloc_array us w Hw I) as (W & E & _).
    destruct (alter_keys (define_usages (next w)) key _ ltac:(done) W) as [W2 E2]. split; [done|]. by etransitivity.
  - intros _. apply keeps_other, digest_keeps.
  - intros _. apply keeps_other, encrypt_keeps.
  - intros _. apply keeps_other, decrypt_keeps.
  - intros _. apply keeps_other, sign_keeps.
  - intros _. apply keeps_other, verify_keeps.
  - intros _. apply keeps_other, importKey_keeps.
  - intros _. apply keeps_other, exportKey_keeps.
  - intros Hl. apply keeps_other, deriveBits_keeps, F. sub l IH Hl.
  - intros [H1 H2]%andb_prop. apply keeps_other, deriveKey_keeps; apply F; [sub l1 IH H1|sub l2 IH H2].
  - intros Hl. apply keeps_other, wrapKey_keeps, F. sub l IH Hl.
  - intros [H1 H2]%andb_prop. apply keeps_other, makes_keeps, unwrapKey_makes; apply F; [sub l1 IH H1|sub l2 IH H2].
  - intros [H1 H2]%andb_prop. apply keeps_other, (generateKey_keeps _ toLowerCase _ JSONParse); apply F; [sub l1 IH H1|sub l2 IH H2].
Qed.

Lemma program_ok program : forallb leaves_slots program = true -> other_code (run program).
Proof.
  intros Hp. apply other_fold. induction program as [|a l IH]; [constructor|]. apply andb_prop in Hp as [Ha Hl]. constructor; [by apply act_ok|by apply IH].
Qed.

Lemma run_app l1 l2 w : run (l1 ++ l2) w = run l2 (run l1 w).
Proof. apply fold_left_app. Qed.

Lemma wf_empty : wf empty_world.
Proof. split; cbn; intros ? ?; rewrite lookup_empty; done. Qed.

(** ** Keys that are not extractable *)

Lemma bind_throw {A B} (m : M A) (k : A -> M B) w : (forall w' a, m w = (w', Ok a) -> exists e, (k a w').2 = Throw e) -> exists e, (bind m k w).2 = Throw e.
Proof. intros H. unfold bind. destruct (m w) as [w1 [a|e]] eqn:E; [by apply (H w1)|by exists e]. Qed.

Lemma bind_throw_first {A B} (m : M A) (k : A -> M B) w e : (m w).2 = Throw e -> (bind m k w).2 = Throw e.
Proof. intros H. unfold bind. destruct (m w) as [w1 [a|e']]; simpl in *; by simplify_eq. Qed.

(** A key whose slot is false is not wrapped. *)
Lemma wrapKey_refuses format r wk a u iv w k :
  keys w !! r = Some k -> k_extractable k = false -> exists e, (wrapKey toUpperCase ops JSONStringify format r wk a u iv w).2 = Throw e.
Proof.
  intros Hk Hx. unfold wrapKey. apply bind_throw. intros w1 k1 [-> H1]%get_key_ok. simplify_eq.
  do 4 (apply bind_throw; intros ? ? _). rewrite Hx. by eexists.
Qed.

Lemma exportKey_refuses format r w k :
  keys w !! r = Some k -> seen_extractable k = false -> exists e, (exportKey ops format r w).2 = Throw e.
Proof.
  intros Hk Hx. unfold exportKey. apply bind_throw. intros w1 k1 [-> H1]%get_key_ok. simplify_eq.
  do 3 (apply bind_throw; intros ? ? _). rewrite Hx. by eexists.
Qed.

(** C4. A key that is not extractable stays so, as long as no script writes the slots
    of keys, which are own properties with symbols as keys.  Whatever program made it
    and whatever program runs afterwards - scripts that write to the arrays, algorithm
    objects and buffers they have got, that define properties on the key with the names
    of its accessors, and calls of every method with other actions at their awaits,
    [unwrapKey] with its writes to slots among them - the key's slot stays false, its
    type and its entry in the key store stay the same, [wrapKey] refuses it in every
    format under every wrapping key, and so does [exportKey] unless a script has defined
    a property [extractable] of its own on the key object.  Scripts do not change
    [CryptoKey.prototype]. *)
Theorem nonextractable_stays program program' r k :
  forallb leaves_slots (program ++ program') = true ->
  let w := run program empty_world in
  let w' := run (program ++ program') empty_world in
  keys w !! r = Some k -> k_extractable k = false ->
  exists k', keys w' !! r = Some k' /\ k_extractable k' = false /\ k_type k' = k_type k /\
    KEY_STORE w' !! k_handle k' = KEY_STORE w !! k_handle k /\
    (forall format wk a u iv, exists e, (wrapKey toUpperCase ops JSONStringify format r wk a u iv w').2 = Throw e) /\
    (own_extractable k' <> Some true -> forall format, exists e, (exportKey ops format r w').2 = Throw e).
Proof.
  rewrite forallb_app. intros [Hp Hp']%andb_prop w w' Hk Hx. destruct (program_ok program Hp empty_world wf_empty) as [Hw _]. fold w in Hw.
  assert (E : evolves w w') by (unfold w'; rewrite run_app; by apply program_ok).
  destruct (ev_keys _ _ E _ _ Hk) as (k' & Hk' & S). exists k'. destruct S as [T X U A H].
  destruct (ok_handle _ _ _ (wf_keys _ Hw _ _ Hk)) as [i Hi].
  split; [done|]. split; [congruence|]. split; [done|]. split; [rewrite H, Hi; by apply (ev_store _ _ E)|]. split.
  - intros. apply (wrapKey_refuses _ _ _ _ _ _ _ k'); congruence.
  - intros Ho format. apply (exportKey_refuses _ _ _ k'); [done|]. unfold seen_extractable. destruct (own_extractable k') as [[]|]; simpl; congruence.
Qed.

(** ** Usages *)

(** [key] may be used for [usage] by [name]. *)
Definition permitted (w : world) (key : Z) (name : Name) (usage : KeyUsage) : Prop :=
  exists k, keys w !! key = Some k /\ usage ∈ usages_of k w /\ a_name (algorithm_of k w) = name.

Lemma normalize_either_ok a op op' w w' n :
  normalize_either toUpperCase a op op' w = (w', Ok n) -> w' = w /\ (normalizeAlgorithm toUpperCase a op = Ok n \/ normalizeAlgorithm toUpperCase a op' = Ok n).
Proof.
  unfold normalize_either, try, normalize, of_res. destruct (normalizeAlgorithm toUpperCase a op) as [m|e]; [|naive_solver].
  intros [= <- <-]. auto.
Qed.

(** C5. Every operation that succeeds was allowed.  If [encrypt], [decrypt], [sign],
    [verify], [deriveKey], [wrapKey] or [unwrapKey] returns, the key that does the
    work is a key whose usages had the one for the operation when it was called, and
    whose algorithm is the one that the argument names; for [deriveBits], which looks
    after the derivation, they have it when the method returns. *)
Theorem usages_enforced a key :
  (forall data w w' b, encrypt toUpperCase ops a key data w = (w', Ok b) ->
     exists n, normalizeAlgorithm toUpperCase a Oencrypt = Ok n /\ permitted w key (n_name n) Encrypt) /\
  (forall data w w' b, decrypt toUpperCase ops a key data w = (w', Ok b) ->
     exists n, normalizeAlgorithm toUpperCase a Odecrypt = Ok n /\ permitted w key (n_name n) Decrypt) /\
  (forall data w w' b, sign toUpperCase ops a key data w = (w', Ok b) ->
     exists n, normalizeAlgorithm toUpperCase a Osign = Ok n /\ permitted w key (n_name n) Sign) /\
  (forall s data w w' b, verify toUpperCase ops a key s data w = (w', Ok b) ->
     exists n, normalizeAlgorithm toUpperCase a Overify = Ok n /\ permitted w key (n_name n) Verify) /\
  (forall t x us u1 u2 w w' r, deriveKey toUpperCase toLowerCase ops a key t x us u1 u2 w = (w', Ok r) ->
     exists n, normalizeAlgorithm toUpperCase a OderiveBits = Ok n /\ permitted w key (n_name n) DeriveKey) /\
  (forall format r u iv w w' b, wrapKey toUpperCase ops JSONStringify format r key a u iv w = (w', Ok b) ->
     exists n, (normalizeAlgorithm toUpperCase a OwrapKey = Ok n \/ normalizeAlgorithm toUpperCase a Oencrypt = Ok n) /\ permitted w key (n_name n) WrapKey) /\
  (forall format b ka x us u1 u2 w w' r, unwrapKey toUpperCase toLowerCase ops JSONParse format b key a ka x us u1 u2 w = (w', Ok r) ->
     exists n, (normalizeAlgorithm toUpperCase a OunwrapKey = Ok n \/ normalizeAlgorithm toUpperCase a Odecrypt = Ok n) /\ permitted w key (n_name n) UnwrapKey) /\
  (forall length u w w' b, deriveBits toUpperCase ops a key length u w = (w', Ok b) ->
     exists n k, normalizeAlgorithm toUpperCase a OderiveBits = Ok n /\ keys w !! key = Some k /\
       DeriveBits ∈ usages_of k w' /\ a_name (algorithm_of k w') = n_name n).
Proof.
  split_and!; intros *; intros H.
  - unfold encrypt in H. repeat step H. exists a1. split; [done|]. exists a0. by split_and!.
  - unfold decrypt in H. do 4 step H. exists a1. split; [done|]. exists a0. by split_and!.
  - unfold sign in H. do 5 step H. exists a1. split; [done|]. exists a0. by split_and!.
  - unfold verify in H. do 5 step H. exists a1. split; [done|]. exists a0. by split_and!.
  - unfold deriveKey in H. do 6 step H. exists a1. split; [done|]. exists a0. by split_and!.
  - unfold wrapKey in H. do 3 step H. apply normalize_either_ok in E1 as [-> E1]. do 2 step H. exists a2. split; [done|]. exists a1. by split_and!.
  - unfold unwrapKey in H. do 2 step H. apply normalize_either_ok in E0 as [-> E0]. do 3 step H. exists a1. split; [done|]. exists a0. by split_and!.
  - unfold deriveBits in H. do 7 step H. injection H as <- <-. exists a2, a0. by split_and!.
Qed.
End Theorems.

(** ** Imported keys *)

Section Imported.
Context (toUpperCase toLowerCase : str -> str) (ops : crypto_ops).

(** The usages a key of an algorithm may have. *)
Definition allowed (name : Name) (t : KeyType) : list KeyUsage :=
  match name, t with
  | (RSASSA | RSA_PSS | ECDSA | Ed25519), Public => [Verify]
  | (RSASSA | RSA_PSS | ECDSA | Ed25519), Private => [Sign]
  | RSA_OAEP, Public => [Encrypt; WrapKey]
  | RSA_OAEP, Private => [Decrypt; UnwrapKey]
  | (ECDH | X25519), Private => [DeriveKey; DeriveBits]
  | (HKDF | PBKDF2), Secret => [DeriveKey; DeriveBits]
  | (AES_CTR | AES_CBC | AES_GCM), Secret => [Encrypt; Decrypt; WrapKey; UnwrapKey]
  | AES_KW, Secret => [WrapKey; UnwrapKey]
  | HMAC, Secret => [Sign; Verify]
  | _, _ => []
  end.

(** The key [r]: its slots, its algorithm and its data. *)
Definition is_key (w : world) (r : Z) (t : KeyType) (extractable : bool) (us : list KeyUsage) (a : KeyAlgorithm) (m : key_material) : Prop :=
  exists k i, keys w !! r = Some k /\ k_type k = t /\ k_extractable k = extractable /\ usages_of k w = us /\ algorithm_of k w = a /\
    KEY_STORE w !! k_handle k = Some i /\ material i w = m /\ own_extractable k = None /\ own_usages k = None.

Definition material_bytes (m : key_material) : bytes := match m with KStored _ b => b | KBytes b => b end.
Definition is_aes (name : Name) : bool := match name with AES_CTR | AES_CBC | AES_GCM | AES_KW => true | _ => false end.

Lemma intersection_all us l : us ⊆ l -> usageIntersection us l = us.
Proof.
  unfold usageIntersection. induction us as [|u us IH]; intros H; [done|]. rewrite filter_cons_True; [rewrite IH; [done|set_solver]|].
  unfold includes. rewrite bool_decide_eq_true_2; [done|set_solver].
Qed.

Lemma recognised_all us : usageIntersection us recognisedUsages = us.
Proof. apply intersection_all. intros u _. destruct u; unfold recognisedUsages; set_solver. Qed.

Lemma no_other_usage us l : negb (other_usage us l) = true -> us ⊆ l.
Proof.
  intros H%negb_true_iff u Hu. unfold other_usage in H. destruct (decide (u ∈ l)) as [|Hn]; [done|].
  assert (existsb (fun u => negb (includes l u)) us = true); [|congruence]. apply existsb_exists. exists u. split; [by apply list_elem_of_In|].
  unfold includes. by rewrite bool_decide_eq_false_2.
Qed.

Lemma import_new_ok stored type data a kt x us w w' r :
  import_new stored type data a kt x us w = (w', Ok r) ->
  is_key w' r kt x us a (if stored then KStored type data else KBytes data).
Proof.
  unfold import_new, constructKey, alloc_key, alloc_array, alloc_algorithm, new_handle, alloc_buffer, bind; cbn. intros [= <- <-].
  eexists _, _. cbn. rewrite lookup_insert_eq. split; [done|]. cbn. unfold usages_of, algorithm_of; cbn. rewrite !lookup_insert_eq. cbn.
  do 4 (split; [done|]). split; [done|]. split; [|done]. destruct stored; cbn; unfold buffer_of; cbn; by rewrite lookup_insert_eq.
Qed.

(** What importing makes of [n]. *)
Definition well_imported (n : Normalized) (x : bool) (us : list KeyUsage) (w' : world) (r : Z) : Prop :=
  exists t al m, is_key w' r t x us al m /\ a_name al = n_name n /\ us ⊆ allowed (n_name n) t /\
    (is_aes (n_name n) = true -> a_length al = Some (slen (material_bytes m) * 8) /\ slen (material_bytes m) * 8 ∈ [128; 192; 256]) /\
    (n_name n = HKDF \/ n_name n = PBKDF2 -> x = false).

Ltac imported H := apply import_new_ok in H; rewrite ?recognised_all in H; eexists _, _, _; split; [exact H|].
Ltac usages := match goal with E : negb (other_usage ?us _) = true |- ?us ⊆ _ => exact (no_other_usage _ _ E) | E : bool_decide (?us = []) = true |- ?us ⊆ _ => apply bool_decide_eq_true in E; by rewrite E end.

Lemma importKeyEd25519_ok n format d x us w w' r :
  n_name n = Ed25519 -> importKeyEd25519 ops format d x us w = (w', Ok r) -> well_imported n x us w' r.
Proof.
  intros Hn H. unfold importKeyEd25519 in H. cbv zeta in H. unfold well_imported. rewrite Hn.
  destruct format, d; try done; repeat step H; repeat case_match; try done; imported H; split_and!; try done; try usages; try naive_solver.
Qed.

Lemma importKeyX25519_ok n format d x us w w' r :
  n_name n = X25519 -> importKeyX25519 ops format d x us w = (w', Ok r) -> well_imported n x us w' r.
Proof.
  intros Hn H. unfold importKeyX25519 in H. cbv zeta in H. unfold well_imported. rewrite Hn.
  destruct format, d as [b|j]; try done.
  - step H. apply bool_decide_eq_true in E as ->. imported H. split_and!; try done. naive_solver.
  - step H. case_match; [|done]. imported H. split_and!; try done; [usages|naive_solver].
  - step H. apply bool_decide_eq_true in E as ->. case_match; [|done]. imported H. split_and!; try done. naive_solver.
  - do 7 step H. destruct (jwk_d j); step H.
    + assert (us ⊆ [DeriveKey; DeriveBits]) by (apply no_other_usage, E). rewrite intersection_all in H by done.
      imported H. split_and!; try done. naive_solver.
    + assert (us = []) as -> by (cbn in E0; destruct (bool_decide (us = [])) eqn:D; [by apply bool_decide_eq_true in D|done]).
      imported H. split_and!; try done. naive_solver.
Qed.

Lemma importKeyEC_ok n format d x us w w' r :
  n_name n = ECDH \/ n_name n = ECDSA -> importKeyEC ops format n d x us w = (w', Ok r) -> well_imported n x us w' r.
Proof.
  intros Hn H. unfold importKeyEC in H. cbv zeta in H. unfold well_imported.
  assert (D : forall t, is_aes (n_name n) = false /\ ~ (n_name n = HKDF \/ n_name n = PBKDF2) /\
    allowed (n_name n) t = match t with Public => public_usages (n_name n) | Private => private_usages (n_name n) | Secret => [] end)
    by (intros []; destruct Hn as [-> | ->]; naive_solver).
  destruct format, d as [b|j]; try done.
  - do 3 step H. imported H. destruct (D Public) as (-> & ? & ->). split_and!; try done. usages.
  - do 2 step H. imported H. destruct (D Private) as (-> & ? & ->). split_and!; try done. usages.
  - do 2 step H. imported H. destruct (D Public) as (-> & ? & ->). split_and!; try done.
    destruct Hn as [Hn|Hn]; rewrite Hn in E; cbn in E; apply check_ok in E as [_ E]; rewrite ?Hn; usages.
  - do 8 step H. destruct (bool_decide _); step H; imported H; [destruct (D Public) as (-> & ? & ->)|destruct (D Private) as (-> & ? & ->)]; split_and!; try done; usages.
Qed.

Lemma importKeyRSA_ok n format d x us w w' r :
  n_name n = RSASSA \/ n_name n = RSA_PSS \/ n_name n = RSA_OAEP -> importKeyRSA toUpperCase toLowerCase ops format n d x us w = (w', Ok r) -> well_imported n x us w' r.
Proof.
  intros Hn H. unfold importKeyRSA in H. cbv zeta in H. unfold well_imported.
  destruct format, d as [b|j]; try done; repeat step H; repeat case_match; try done; repeat step H; imported H; destruct Hn as [Hn|[Hn|Hn]]; rewrite Hn in *; split_and!; try done; try usages; try naive_solver.
Qed.

Lemma import_derivation_key_ok name n format d x us w w' r :
  n_name n = name -> name = HKDF \/ name = PBKDF2 -> import_derivation_key name format d x us w = (w', Ok r) -> well_imported n x us w' r.
Proof.
  intros Hn Hname H. unfold import_derivation_key in H. unfold well_imported. rewrite Hn.
  destruct format, d as [b|j]; try done. do 2 step H. apply negb_true_iff in E0 as ->. imported H. destruct Hname as [-> | ->]; split_and!; try done; usages.
Qed.

Lemma importKeyAES_ok n format d x us supported w w' r :
  is_aes (n_name n) = true -> supported = allowed (n_name n) Secret -> importKeyAES ops format n d x us supported w = (w', Ok r) -> well_imported n x us w' r.
Proof.
  intros Hn -> H. unfold importKeyAES in H. unfold well_imported. do 2 step H. imported H.
  assert (slen a0 * 8 ∈ [128; 192; 256]).
  { clear H. destruct format, d as [b|j]; try done; rename E0 into H; repeat step H; simplify_eq/=.
    - apply bool_decide_eq_true in E0. by injection H as <- <-.
    - injection H as <- <-. destruct (includes [128; 192; 256] (slen (i_data a3) * 8)) eqn:I; [by apply bool_decide_eq_true in I|done]. }
  split_and!; try done; [usages|]. intros [Hh|Hh]; by rewrite Hh in Hn.
Qed.

Lemma importKeyHMAC_ok n format d x us w w' r :
  n_name n = HMAC -> importKeyHMAC ops format n d x us w = (w', Ok r) -> well_imported n x us w' r.
Proof.
  intros Hn H. unfold importKeyHMAC in H. cbv zeta in H. unfold well_imported. rewrite Hn. do 4 step H. imported H. split_and!; try done; [usages|naive_solver].
Qed.

(** C11. An imported key is well typed.  If [importKey] returns, for any algorithm and
    format, the key has the extractability and the usages that were asked for, every
    one of which is allowed for a key of its type and algorithm; its algorithm object
    has the normalized name; the length of an AES key is that of its data, 128, 192 or
    256 bits; and keys for HKDF and PBKDF2 are not extractable. *)
Theorem importKey_well_typed format d a x us w w' r :
  importKey toUpperCase toLowerCase ops format d a x us w = (w', Ok r) ->
  exists n, normalizeAlgorithm toUpperCase a OimportKey = Ok n /\ well_imported n x us w' r.
Proof.
  unfold importKey. intros H. step H. step H. exists a1. split; [done|]. unfold import_with in H.
  destruct (n_name a1) eqn:Hn; try done;
    eauto using importKeyHMAC_ok, importKeyEC_ok, importKeyRSA_ok, import_derivation_key_ok, importKeyX25519_ok, importKeyEd25519_ok.
  all: eapply importKeyAES_ok; [..|exact H]; by rewrite Hn.
Qed.

(** ** Generated keys *)

Lemma key_pair_made x us us' a h h' w w' g al i i' :
  algorithms w !! a = Some al -> KEY_STORE w !! h = Some i -> KEY_STORE w !! h' = Some i' -> key_pair x us us' a h h' w = (w', Ok g) ->
  exists p q, g = GPair p q /\ is_key w' p Public true us al (material i w) /\ is_key w' q Private x us' al (material i' w).
Proof.
  intros Ha Hi Hi'. unfold key_pair, constructKey, bind; cbn. intros [= <- <-]. eexists _, _. split; [done|].
  split; eexists _, _; cbn; unfold usages_of, algorithm_of; cbn.
  - rewrite lookup_insert_ne, lookup_insert_eq by lia. split; [done|]. cbn. rewrite lookup_insert_ne, lookup_insert_eq, Ha by lia. by split_and!.
  - rewrite lookup_insert_eq. split; [done|]. cbn. rewrite lookup_insert_eq, Ha. by split_and!.
Qed.

Lemma secret_made x us a h w w' r al i :
  algorithms w !! a = Some al -> KEY_STORE w !! h = Some i -> constructKey Secret x us a h w = (w', Ok r) -> is_key w' r Secret x us al (material i w).
Proof.
  intros Ha Hi. unfold constructKey, bind; cbn. intros [= <- <-]. eexists _, _. cbn. rewrite lookup_insert_eq. split; [done|].
  unfold usages_of, algorithm_of; cbn. rewrite lookup_insert_eq, Ha. by split_and!.
Qed.

(** The data an op generated, in the store under a new handle. *)
Lemma generate_data_made args t u w w' p : generate_data ops args t u w = (w', Ok p) ->
  exists d, KEY_STORE w' !! p.1 = Some (IStored t d) /\ buffer_of d w' = p.2.
Proof.
  unfold generate_data. intros H. do 3 step H. erewrite bind_run in H by done. erewrite bind_run in H by done. injection H as <- <-. cbn.
  rewrite lookup_insert_eq. eexists. split; [done|]. unfold buffer_of; cbn. by rewrite lookup_insert_eq.
Qed.

(** What generating makes of [n]. *)
Definition well_generated (n : Normalized) (x : bool) (us : list KeyUsage) (w' : world) (g : generated) : Prop :=
  match g with
  | GKey r => exists al m, is_key w' r Secret x us al m /\ a_name al = n_name n /\ us ⊆ allowed (n_name n) Secret /\
      (is_aes (n_name n) = true -> a_length al = n_length n /\ exists l, n_length n = Some l /\ l ∈ [128; 192; 256]) /\
      (n_name n = HMAC -> a_length al = Some (slen (material_bytes m) * 8))
  | GPair p q => exists al mp mq, a_name al = n_name n /\
      is_key w' p Public true (usageIntersection us (allowed (n_name n) Public)) al mp /\
      is_key w' q Private x (usageIntersection us (allowed (n_name n) Private)) al mq /\
      us ⊆ allowed (n_name n) Public ++ allowed (n_name n) Private
  end.

(** The end of generating a pair from data under one handle. *)
Lemma pair_made (d : bytes) x us us' al h i w w' g :
  KEY_STORE w !! h = Some i -> (let! algorithm := alloc_algorithm al in key_pair x us us' algorithm h h) w = (w', Ok g) ->
  exists p q m, g = GPair p q /\ is_key w' p Public true us al m /\ is_key w' q Private x us' al m.
Proof.
  intros Hi H. erewrite bind_run in H by done. eapply key_pair_made in H as (p & q & -> & K1 & K2); [..|exact Hi|exact Hi]; [|cbn; by rewrite lookup_insert_eq].
  by exists p, q, (material i w).
Qed.

Lemma generateKeyRSA_made n x us u w w' g :
  generateKeyRSA ops n x us (allowed (n_name n) Public) (allowed (n_name n) Private) u w = (w', Ok g) -> well_generated n x us w' g.
Proof.
  unfold generateKeyRSA. intros H. step H. apply bind_ok in H as (h & w1 & (d & Hd & _)%generate_data_made & H).
  eapply pair_made in H as (p & q & m & -> & K1 & K2); [|exact []|exact Hd].
  eexists _, m, m. split; [|split; [exact K1|]; split; [exact K2|by apply no_other_usage]]. done.
Qed.

Lemma generateKeyEC_made n x us u w w' g :
  generateKeyEC ops n x us (allowed (n_name n) Public) (allowed (n_name n) Private) u w = (w', Ok g) -> well_generated n x us w' g.
Proof.
  unfold generateKeyEC. intros H. step H. destruct (n_namedCurve n) as [c|]; [|done]. destruct (includes supportedNamedCurves c); [|done].
  apply bind_ok in H as (h & w1 & (d & Hd & _)%generate_data_made & H).
  eapply pair_made in H as (p & q & m & -> & K1 & K2); [|exact []|exact Hd].
  eexists _, m, m. split; [|split; [exact K1|]; split; [exact K2|by apply no_other_usage]]. done.
Qed.

Lemma generate25519_made n x us kp w w' g :
  us ⊆ allowed (n_name n) Public ++ allowed (n_name n) Private ->
  generate25519 (n_name n) kp x (usageIntersection us (allowed (n_name n) Public)) (usageIntersection us (allowed (n_name n) Private)) w = (w', Ok g) ->
  well_generated n x us w' g.
Proof.
  intros Hus H. unfold generate25519 in H. do 5 (erewrite bind_run in H by done).
  eapply key_pair_made in H as (p & q & -> & K1 & K2); cbn; rewrite ?lookup_insert_eq; try done.
  2: { rewrite lookup_insert_ne by lia. by rewrite lookup_insert_eq. }
  eexists _, _, _. split; [|split; [exact K1|]; split; [exact K2|done]]. done.
Qed.

Lemma generateKeyAES_made n x us u w w' g :
  is_aes (n_name n) = true -> us ⊆ allowed (n_name n) Secret -> generateKeyAES ops n x us u w = (w', Ok g) -> well_generated n x us w' g.
Proof.
  intros Haes Hus H. unfold generateKeyAES in H. step H. apply bind_ok in H as (h & w1 & (d & Hd & _)%generate_data_made & H).
  erewrite bind_run in H by done. apply bind_ok in H as (r & w2 & H & [= <- <-]).
  eapply secret_made in H; [|cbn; by rewrite lookup_insert_eq|exact Hd]. eexists _, _. split; [exact H|]. split_and!; try done; cbn.
  - intros _. split; [done|]. destruct (n_length n) as [l|]; [|done]. exists l. split; [done|]. by apply bool_decide_eq_true in E.
  - intros Hh. by rewrite Hh in Haes.
Qed.

Lemma generateKeyHMAC_made n x us u w w' g : n_name n = HMAC -> generateKeyHMAC ops n x us u w = (w', Ok g) -> well_generated n x us w' g.
Proof.
  intros Hn H. unfold generateKeyHMAC in H. do 3 step H. apply bind_ok in H as (h & w1 & (d & Hd & Hb)%generate_data_made & H).
  erewrite bind_run in H by done. apply bind_ok in H as (r & w2 & H & [= <- <-]).
  eapply secret_made in H; [|cbn; by rewrite lookup_insert_eq|exact Hd]. eexists _, _. split; [exact H|]. rewrite Hn. split_and!; try done; [by apply no_other_usage|].
  intros _. cbn. by rewrite <-Hb.
Qed.

Lemma generate_key_made n x us u w w' g : generate_key ops n x us u w = (w', Ok g) -> well_generated n x us w' g.
Proof.
  unfold generate_key. destruct (n_name n) eqn:Hn; try done; intros H.
  - apply generateKeyRSA_made with (u := u) (w := w). by rewrite Hn.
  - apply generateKeyRSA_made with (u := u) (w := w). by rewrite Hn.
  - apply generateKeyRSA_made with (u := u) (w := w). by rewrite Hn.
  - apply generateKeyEC_made with (u := u) (w := w). by rewrite Hn.
  - apply generateKeyEC_made with (u := u) (w := w). by rewrite Hn.
  - step H. eapply generateKeyAES_made; [by rewrite Hn|rewrite Hn; by apply no_other_usage|exact H].
  - step H. eapply generateKeyAES_made; [by rewrite Hn|rewrite Hn; by apply no_other_usage|exact H].
  - step H. eapply generateKeyAES_made; [by rewrite Hn|rewrite Hn; by apply no_other_usage|exact H].
  - step H. eapply generateKeyAES_made; [by rewrite Hn|rewrite Hn; by apply no_other_usage|exact H].
  - by eapply generateKeyHMAC_made.
  - do 2 step H. eapply generate25519_made; rewrite Hn; [by apply no_other_usage|exact H].
  - do 2 step H. destruct (op_crypto_generate_ed25519_keypair ops _) as [kp|]; [|done]. eapply generate25519_made; rewrite Hn; [|exact H].
    apply no_other_usage in E. intros y Hy%E. cbn. rewrite !elem_of_cons in *. tauto.
Qed.

(** C13. A generated key is well typed.  If [generateKey] returns, it returns either a
    secret key with the extractability and usages that were asked for, of which there
    is at least one and all are allowed for the algorithm, or a pair: a public key,
    which is extractable, and a private key with the extractability asked for, which
    have one algorithm object and share the usages between them, each with those that
    its type may have, the private key at least one.  An AES key has the length that
    was asked for, 128, 192 or 256 bits, an HMAC key that of its data.  Other code may
    run while the data are generated. *)
Theorem generateKey_well_typed a x us u w w' g :
  generateKey toUpperCase ops a x us u (fun w => w) w = (w', Ok g) ->
  exists n, normalizeAlgorithm toUpperCase a OgenerateKey = Ok n /\ well_generated n x us w' g /\
    match g with GKey _ => us <> [] | GPair _ _ => usageIntersection us (allowed (n_name n) Private) <> [] end.
Proof.
  unfold generateKey. intros H. step H. exists a0. split; [done|]. apply bind_ok in H as (g' & w1 & G%generate_key_made & H).
  erewrite bind_run in H by done. destruct g' as [r|p q].
  - destruct G as (al & m & K & G). pose proof K as (k & i & Hk & Ht & _). erewrite bind_run in H by (by apply get_key_run). step H. injection H as <- <-.
    split; [by exists al, m|]. intros ->. by rewrite Ht in E0.
  - destruct G as (al & mp & mq & N & K1 & K2 & U). pose proof K2 as (k & i & Hk & Ht & _ & Hu & _). erewrite bind_run in H by (by apply get_key_run).
    erewrite bind_run in H by done. step H. injection H as <- <-. split; [by exists al, mp, mq|]. intros Z0. rewrite Hu, Z0 in E0. done.
Qed.
End Imported.
