(* ===== verification/CryptoWrap.v ===== *)
(** * Web Crypto: wrapping and unwrapping

    A key that is wrapped in the raw format and unwrapped with the same wrapping key
    is the same key data again.  The module [Ciphers] models the ops that encrypt,
    decrypt, wrap and unwrap with secret keys ([src/ext/crypto/encrypt.rs],
    [decrypt.rs], [lib.rs]): their checks and the cutting of the tag of AES-GCM, which
    [decrypt.rs] takes in full length only.  What they call of other crates is
    parameters, the record [crates]: CBC with padding, GCM with a detached tag, the
    key streams of CTR, and AES key wrap.  [CrateLaws] says of these that decryption
    undoes encryption, that a tag has 16 bytes and a wrapped key 8 bytes more.  The
    class [CipherLaws] is what wrapping asks of the ops; the ops of [Ciphers] satisfy
    it.

    The methods pass normalized algorithms to each other, which normalize them
    again.  That changes nothing: a registered name is found under itself, and what
    the dictionary conversions return converts to itself.  Of [toUpperCase] only its
    meaning on ASCII strings is used. *)

From Stdlib Require Import ZArith Lia QArith Qround.
From stdpp Require Import base list gmap numbers option strings.
From S2P Require Import Prelude JsNumber Infra WebIdl WebIdlTheorems Crypto CryptoKeys SubtleCrypto CryptoProps CryptoTheorems.

#[local] Open Scope Z_scope.
#[local] Open Scope crypto_scope.

(** ** Normalizing twice *)

(** [StringPrototypeToUpperCase] on ASCII strings. *)
Class UpperAscii (toUpperCase : str -> str) : Prop :=
  upper_ascii s : Forall (fun c => 0 <= c < 128) s -> toUpperCase s = byteUpperCase s.

(** The names that are registered. *)
Definition registered_names : list Name :=
  [RSASSA; RSA_PSS; RSA_OAEP; ECDSA; ECDH; AES_CTR; AES_CBC; AES_GCM; AES_KW; HMAC; HKDF; PBKDF2; X25519; Ed25519; SHA1; SHA256; SHA384; SHA512].

Definition ascii_codes (s : str) : bool := forallb (fun c => (0 <=? c) && (c <? 128)) s.

Lemma ascii_codes_ok s : ascii_codes s = true -> Forall (fun c => 0 <= c < 128) s.
Proof.
  unfold ascii_codes. intros H. rewrite forallb_forall in H. apply Forall_forall. intros c Hc%list_elem_of_In%H. lia.
Qed.

Definition names_distinct : bool :=
  forallb (fun a => ascii_codes (name_string a) && forallb (fun b => bool_decide (str_eqb (byteUpperCase (name_string a)) (byteUpperCase (name_string b)) = bool_decide (a = b)))
    registered_names) registered_names.

Section Normalize.
Context {toUpperCase : str -> str} `{!UpperAscii toUpperCase}.

Lemma upper_names a b : a ∈ registered_names -> b ∈ registered_names ->
  str_eqb (toUpperCase (name_string a)) (toUpperCase (name_string b)) = bool_decide (a = b).
Proof.
  assert (H : names_distinct = true) by by vm_compute. unfold names_distinct in H. rewrite forallb_forall in H.
  intros Ha%list_elem_of_In Hb%list_elem_of_In. pose proof (H a Ha) as Hx. pose proof (H b Hb) as Hy.
  apply andb_true_iff in Hx as [Hx Hd], Hy as [Hy _]. rewrite !(upper_ascii (toUpperCase := toUpperCase)) by (by apply ascii_codes_ok).
  rewrite forallb_forall in Hd. by apply Hd, bool_decide_eq_true in Hb.
Qed.

Lemma find_algorithm_none l name found :
  Forall (fun e => e.1 ∈ registered_names) l -> name ∈ registered_names -> name ∉ l.*1 -> find_algorithm toUpperCase l (name_string name) found = found.
Proof.
  intros Hl Hr. induction Hl as [|[key type] l Hk Hl IH]; csimpl; [done|]. intros [Hne Hn]%not_elem_of_cons.
  rewrite upper_names, bool_decide_eq_false_2 by done. by apply IH.
Qed.

Lemma find_algorithm_self l name t :
  Forall (fun e => e.1 ∈ registered_names) l -> NoDup l.*1 -> (name, t) ∈ l -> find_algorithm toUpperCase l (name_string name) None = Some (name, t).
Proof.
  induction 1 as [|[key type] l Hk Hl IH]; csimpl; [by intros _ ?%not_elem_of_nil|].
  intros [Hd Hnd]%NoDup_cons [[= -> ->]|Hin]%elem_of_cons.
  - rewrite upper_names, bool_decide_eq_true_2 by done. by apply find_algorithm_none.
  - assert (name ∈ l.*1) by (apply list_elem_of_fmap; by exists (name, t)).
    assert (name ∈ registered_names) by (rewrite Forall_forall in Hl; by apply (Hl (name, t))).
    rewrite upper_names, bool_decide_eq_false_2 by (try done; by intros ->). by apply IH.
Qed.

Lemma registered op : Forall (fun e => e.1 ∈ registered_names) (supportedAlgorithms op) /\ NoDup (supportedAlgorithms op).*1.
Proof.
  split; [apply (bool_decide_unpack _)|apply (bool_decide_unpack _)]; by destruct op; vm_compute.
Qed.

Lemma find_algorithm_in l s found name t : find_algorithm toUpperCase l s found = Some (name, t) -> found = Some (name, t) \/ (name, t) ∈ l.
Proof.
  revert s found. induction l as [|[key type] l IH]; intros s found; cbn; [auto|].
  destruct (str_eqb _ _); intros [H|H]%IH; [injection H as <- <-| | |]; rewrite ?elem_of_cons; auto.
Qed.

(** A name that was found is found again, with the same dictionary. *)
Lemma find_again op s name t :
  find_algorithm toUpperCase (supportedAlgorithms op) s None = Some (name, t) ->
  find_algorithm toUpperCase (supportedAlgorithms op) (name_string name) None = Some (name, t).
Proof. intros [?|H]%find_algorithm_in; [done|]. by apply find_algorithm_self; [apply registered|apply registered|]. Qed.

(** ** Conversions *)

Lemma BigInt_int z : BigInt (int z) = z.
Proof. unfold BigInt, int. cbn. apply Qfloor_Z. Qed.

Lemma enforced_again b x z : 1 <= b <= 53 ->
  enforced (fun i n => createIntegerConversion i n b true) x = Ok z -> enforced (fun i n => createIntegerConversion i n b true) (int z) = Ok z.
Proof.
  intros Hb. unfold enforced.
  pose proof (integer_conversion_number (fun _ => false) Ok b true x x (mkOpts true false) Hb eq_refl eq_refl) as H.
  destruct (idl_integer b true (mkOpts true false) (value x)) as [m|] eqn:E; [|by destruct H as (? & ->)].
  destruct H as (r & -> & Hr). destruct (idl_integer_bounds b true _ _ _ Hb E) as (y & -> & Hy). cbn [jsbind]. intros [= <-].
  assert (BigInt r = y) as -> by (unfold BigInt; rewrite Hr; cbn; apply Qfloor_Z).
  pose proof (integer_conversion_number (fun _ => false) Ok b true (int y) (int y) (mkOpts true false) Hb eq_refl eq_refl) as H.
  assert (E2 : idl_integer b true (mkOpts true false) (value (int y)) = Some (num_of_Z y)).
  { unfold idl_integer, idl_convert; cbn -[bounds]. rewrite qtrunc_Z.
    assert (((bounds b true).1 <=? y) && (y <=? (bounds b true).2) = true) as -> by lia. done. }
  rewrite E2 in H. destruct H as (r2 & -> & Hr2). cbn [jsbind]. unfold BigInt. rewrite Hr2. f_equal. apply Qfloor_Z.
Qed.

Lemma unsigned_long_again x z : enforced unsigned_long x = Ok z -> enforced unsigned_long (int z) = Ok z.
Proof. by apply (enforced_again 32). Qed.

Lemma unsigned_short_again x z : enforced unsigned_short x = Ok z -> enforced unsigned_short (int z) = Ok z.
Proof. by apply (enforced_again 16). Qed.

Lemma optional_long_again x z : optional_long x = Ok z -> optional_long (int <$> z) = Ok z.
Proof.
  unfold optional_long. destruct x as [x|]; [|by intros [= <-]]. destruct (enforced unsigned_long x) as [y|] eqn:E; cbn [jsbind]; [|done].
  intros [= <-]. cbn -[enforced]. by rewrite (unsigned_long_again _ _ E).
Qed.

Lemma copyBuffer_ArrayBuffer b : copyBuffer (ArrayBuffer b) = b.
Proof. apply slice_all. Qed.

Lemma copied (b : option bytes) : copyBuffer <$> (ArrayBuffer <$> b) = b.
Proof. destruct b; cbn; [by rewrite slice_all|done]. Qed.

Lemma required_ok {A} (o : option A) a : required o = Ok a -> o = Some a.
Proof. destruct o; cbn; congruence. Qed.

Lemma jsbind_ok {A B} (r : jsres A) (k : A -> jsres B) b : (let? a := r in k a) = Ok b -> exists a, r = Ok a /\ k a = Ok b.
Proof. destruct r; cbn; [eauto|done]. Qed.

Lemma curve_again s :
  curve_of (match curve_of s with P256 => lit "P-256" | P384 => lit "P-384" | P521 => lit "P-521" | OtherCurve s => s end) = curve_of s.
Proof.
  destruct (curve_of s) eqn:E; try by vm_compute.
  unfold curve_of in E. repeat case_match; try done. injection E as <-. unfold curve_of. repeat case_match; congruence.
Qed.

(** The members a normalized algorithm gives. *)
Definition as_members (n : Normalized) : Members :=
  match as_identifier n with AlgObject _ m => m | AlgString _ => only_name [] end.

Lemma convert_again t name m n h : convert t name m = Ok n -> convert t name (as_members (with_hash n h)) = Ok n /\ convert t name (as_members n) = Ok n.
Proof.
  destruct t; cbn -[enforced copyBuffer]; intros H.
  all: repeat match goal with H : (let? _ := _ in _) = Ok _ |- _ => let x := fresh "x" in let E := fresh "E" in apply jsbind_ok in H as (x & E & H) end.
  all: injection H as <-; cbn -[enforced copyBuffer optional_long].
  all: try match goal with E : enforced unsigned_long _ = Ok _ |- _ => rewrite !(unsigned_long_again _ _ E) end.
  all: try match goal with E : enforced unsigned_short _ = Ok _ |- _ => rewrite !(unsigned_short_again _ _ E) end.
  all: try match goal with E : optional_long _ = Ok _ |- _ => rewrite !(optional_long_again _ _ E) end.
  all: cbn -[enforced copyBuffer optional_long]; rewrite ?copyBuffer_ArrayBuffer, ?copied, ?curve_again; try done.
Qed.

(** ** Algorithms *)

Lemma normalize_digest_name s h : normalizeAlgorithm toUpperCase s Odigest = Ok h ->
  normalizeAlgorithm toUpperCase (AlgObject None (only_name (name_string (n_name h)))) Odigest = Ok (no_params (n_name h)).
Proof.
  assert (D : forall hh m, normalize_object toUpperCase hh m Odigest = Ok h ->
    normalize_object toUpperCase None (only_name (name_string (n_name h))) Odigest = Ok (no_params (n_name h))).
  { intros hh m. unfold normalize_object. intros (algName & _ & H)%jsbind_ok.
    destruct (find_algorithm _ _ _ _) as [[name t]|] eqn:F; [|done].
    assert (t = None) as ->.
    { apply find_algorithm_in in F as [?|F]; [done|]. cbn in F. set_solver. }
    injection H as <-. cbn -[find_algorithm supportedAlgorithms name_string]. by rewrite (find_again _ _ _ _ F). }
  destruct s; cbn -[normalize_object]; apply D.
Qed.

Lemma convert_name t name m n : convert t name m = Ok n -> n_name n = name.
Proof.
  destruct t; cbn -[enforced copyBuffer optional_long]; intros H.
  all: repeat match goal with H : (let? _ := _ in _) = Ok _ |- _ => apply jsbind_ok in H as (? & _ & H) end.
  all: by injection H as <-.
Qed.

Lemma normalize_object_again hash m op n :
  (forall r, hash = Some r -> exists s, r = normalizeAlgorithm toUpperCase s Odigest) ->
  normalize_object toUpperCase hash m op = Ok n -> normalizeAlgorithm toUpperCase (as_identifier n) op = Ok n.
Proof.
  intros Hh H. unfold normalize_object in H. apply jsbind_ok in H as (algName & _ & H).
  destruct (find_algorithm _ _ _ _) as [[name [t|]]|] eqn:F; try done; apply find_again in F.
  2: { injection H as <-. cbn -[find_algorithm supportedAlgorithms name_string]. by rewrite F. }
  apply jsbind_ok in H as (n0 & E & H). destruct (has_hash t) eqn:HT.
  - apply jsbind_ok in H as (r & ->%required_ok & H). apply jsbind_ok in H as (hn & -> & [= <-]).
    destruct (Hh _ eq_refl) as (s & Hs). symmetry in Hs. apply normalize_digest_name in Hs.
    destruct (convert_again _ _ _ _ (n_name hn) E) as [E1 _]. apply convert_name in E.
    change (as_identifier (with_hash n0 (n_name hn))) with
      (AlgObject (Some (AlgObject None (only_name (name_string (n_name hn))))) (as_members (with_hash n0 (n_name hn)))).
    cbn -[find_algorithm supportedAlgorithms name_string normalize_object convert as_members has_hash].
    cbn -[find_algorithm supportedAlgorithms name_string normalize_object] in Hs. rewrite Hs.
    unfold normalize_object. cbn -[find_algorithm supportedAlgorithms name_string convert has_hash]. rewrite E, F.
    change (convert t name _) with (convert t name (as_members (with_hash n0 (n_name hn)))). rewrite E1. cbn -[has_hash]. by rewrite HT.
  - injection H as <-. destruct (convert_again _ _ _ _ SHA1 E) as [_ E1]. apply convert_name in E.
    cbn -[find_algorithm supportedAlgorithms name_string normalize_object convert has_hash].
    unfold normalize_object. cbn -[find_algorithm supportedAlgorithms name_string convert has_hash]. rewrite E, F.
    change (convert t name _) with (convert t name (as_members n0)). rewrite E1. cbn -[has_hash]. by rewrite HT.
Qed.

(** Normalizing a normalized algorithm gives it again. *)
Lemma normalizeAlgorithm_again a op n : normalizeAlgorithm toUpperCase a op = Ok n -> normalizeAlgorithm toUpperCase (as_identifier n) op = Ok n.
Proof.
  destruct a as [s|hash m]; cbn -[normalize_object as_identifier]; intros H; (eapply normalize_object_again; [|exact H]); [done|].
  intros r. destruct hash as [h|]; [|done]. intros [= <-]. by exists h.
Qed.
End Normalize.

(** ** Ciphers *)

Module Ciphers.
(** What the ops call of other crates: the first argument of a cipher is the size of its
    key in bits, that of [ctr_keystream] the size of the counter.  [rsa_oaep] stands for
    the two functions for RSA-OAEP. *)
Record crates := {
  cbc_encrypt_padded : Z -> bytes -> bytes -> bytes -> bytes;
  cbc_decrypt_padded : Z -> bytes -> bytes -> bytes -> option bytes;
  gcm_encrypt_detached : Z -> bytes -> bytes -> bytes -> bytes -> option (bytes * bytes);
  gcm_decrypt_detached : Z -> bytes -> bytes -> bytes -> bytes -> bytes -> option bytes;
  ctr_keystream : Z -> Z -> bytes -> bytes -> bytes -> option bytes;
  kw_wrap_vec : Z -> bytes -> bytes -> option bytes;
  kw_unwrap_vec : Z -> bytes -> bytes -> option bytes;
  encrypt_rsa_oaep : crypt_args -> key_material -> bytes -> jsres bytes;
  decrypt_rsa_oaep : crypt_args -> key_material -> bytes -> jsres bytes;
}.

(** A panic of an op. *)
Definition panic : js_error := JsError "panicked".

Definition as_secret_key (m : key_material) : jsres bytes :=
  match m with KStored Secret data => Ok data | _ => Throw (JsTypeError "expected secret key") end.

(** A number that the op needs. *)
Definition field (o : option Z) : jsres Z := match o with Some z => Ok z | None => Throw (JsTypeError "missing field") end.

Definition key_bits (length : Z) : bool := (length =? 128) || (length =? 192) || (length =? 256).

Definition or_error {A} (o : option A) (e : js_error) : jsres A := match o with Some a => Ok a | None => Throw e end.

Section Ops.
Context (cr : crates).

(** [new_from_slices] *)
Definition new_from_slices (length : Z) (key iv : bytes) : bool := (slen key =? length / 8) && (slen iv =? 16).

Definition encrypt_aes_cbc (key : key_material) (length : Z) (iv data : bytes) : jsres bytes :=
  let? key := as_secret_key key in
  if negb (key_bits length) then Throw (JsTypeError "invalid length")
  else if negb (new_from_slices length key iv) then Throw (operation_error "invalid key or iv")
  else Ok (cbc_encrypt_padded cr length key iv data).

Definition decrypt_aes_cbc (key : key_material) (length : Z) (iv data : bytes) : jsres bytes :=
  let? key := as_secret_key key in
  if negb (key_bits length) then Throw panic
  else if negb (new_from_slices length key iv) then Throw (operation_error "Invalid key or iv")
  else or_error (cbc_decrypt_padded cr length key iv data) (operation_error "Decryption failed").

Definition encrypt_aes_gcm_general (key iv : bytes) (length : Z) (data additional_data : bytes) : jsres (bytes * bytes) :=
  if negb (key_bits length) then Throw (JsTypeError "invalid length")
  else if negb (slen key =? length / 8) then Throw (operation_error "Encryption failed")
  else or_error (gcm_encrypt_detached cr length key iv additional_data data) (operation_error "Encryption failed").

Definition encrypt_aes_gcm (key : key_material) (length tag_length : Z) (iv : bytes) (additional_data : option bytes) (data : bytes) : jsres bytes :=
  let? key := as_secret_key key in
  let additional_data := default [] additional_data in
  if negb ((slen iv =? 12) || (slen iv =? 16)) then Throw (JsTypeError "iv length not equal to 12 or 16")
  else
    let? x := encrypt_aes_gcm_general key iv length data additional_data in
    let '(ciphertext, tag) := x in
    if slen tag <? tag_length / 8 then Throw panic
    else Ok (ciphertext ++ take (Z.to_nat (tag_length / 8)) tag).

Definition decrypt_aes_gcm_gen (key tag nonce : bytes) (length : Z) (additional_data plaintext : bytes) : jsres bytes :=
  if negb (key_bits length) then Throw (JsTypeError "invalid length")
  else if negb (slen key =? length / 8) then Throw (operation_error "Decryption failed")
  else or_error (gcm_decrypt_detached cr length key nonce additional_data plaintext tag) (operation_error "Decryption failed").

Definition decrypt_aes_gcm (key : key_material) (length tag_length : Z) (iv : bytes) (additional_data : option bytes) (data : bytes) : jsres bytes :=
  let? key := as_secret_key key in
  let additional_data := default [] additional_data in
  if negb (tag_length =? 128) then Throw (JsTypeError "tag length not equal to 128")
  else
    let sep := slen data - tag_length / 8 in
    if sep <? 0 then Throw panic
    else
      let tag := drop (Z.to_nat sep) data in
      let plaintext := take (Z.to_nat sep) data in
      if negb ((slen iv =? 12) || (slen iv =? 16)) then Throw (JsTypeError "iv length not equal to 12 or 16")
      else decrypt_aes_gcm_gen key tag iv length additional_data plaintext.

(** [encrypt_aes_ctr_gen] and [decrypt_aes_ctr_gen]; the arrays they make of slices panic
    when the length is wrong. *)
Definition aes_ctr_gen (ctr_length key_length : Z) (key counter data : bytes) (msg : string) : jsres bytes :=
  if negb ((slen key =? key_length / 8) && (slen counter =? 16)) then Throw panic
  else or_error (ctr_keystream cr ctr_length key_length key counter data) (operation_error msg).

Definition aes_ctr (key : key_material) (key_length : Z) (counter : bytes) (ctr_length : Z) (data : bytes) (msg : string) : jsres bytes :=
  let? key := as_secret_key key in
  if negb ((ctr_length =? 32) || (ctr_length =? 64) || (ctr_length =? 128)) then Throw (JsTypeError "invalid counter length. Currently supported 32/64/128 bits")
  else if negb (key_bits key_length) then Throw (JsTypeError "invalid length")
  else aes_ctr_gen ctr_length key_length key counter data msg.

Definition encrypt_op (args : crypt_args) (key : key_material) (data : bytes) : jsres bytes :=
  match c_algorithm args with
  | RSA_OAEP => encrypt_rsa_oaep cr args key data
  | AES_CBC => let? length := field (c_length args) in encrypt_aes_cbc key length (c_iv args) data
  | AES_GCM =>
      let? length := field (c_length args) in
      let? tag_length := field (c_tagLength args) in
      encrypt_aes_gcm key length tag_length (c_iv args) (c_additionalData args) data
  | AES_CTR =>
      let? ctr_length := field (c_ctrLength args) in
      let? key_length := field (c_length args) in
      aes_ctr key key_length (c_counter args) ctr_length data "tried to encrypt too much data"
  | _ => Throw (JsTypeError "unknown variant")
  end.

Definition decrypt_op (args : crypt_args) (key : key_material) (data : bytes) : jsres bytes :=
  match c_algorithm args with
  | RSA_OAEP => decrypt_rsa_oaep cr args key data
  | AES_CBC => let? length := field (c_length args) in decrypt_aes_cbc key length (c_iv args) data
  | AES_CTR =>
      let? ctr_length := field (c_ctrLength args) in
      let? key_length := field (c_length args) in
      aes_ctr key key_length (c_counter args) ctr_length data "tried to decrypt too much data"
  | AES_GCM =>
      let? length := field (c_length args) in
      let? tag_length := field (c_tagLength args) in
      decrypt_aes_gcm key length tag_length (c_iv args) (c_additionalData args) data
  | _ => Throw (JsTypeError "unknown variant")
  end.

(** [match key.len()] *)
Definition kek_bits (key : bytes) : option Z :=
  if slen key =? 16 then Some 128 else if slen key =? 24 then Some 192 else if slen key =? 32 then Some 256 else None.

Definition wrap_op (key : key_material) (data : bytes) : jsres bytes :=
  let? key := as_secret_key key in
  if negb (slen data mod 8 =? 0) then Throw (JsTypeError "Data must be multiple of 8 bytes")
  else
    let? bits := or_error (kek_bits key) (JsTypeError "Invalid key length") in
    or_error (kw_wrap_vec cr bits key data) (operation_error "encryption error").

Definition unwrap_op (key : key_material) (data : bytes) : jsres bytes :=
  let? key := as_secret_key key in
  if negb (slen data mod 8 =? 0) then Throw (JsTypeError "Data must be multiple of 8 bytes")
  else
    let? bits := or_error (kek_bits key) (JsTypeError "Invalid key length") in
    or_error (kw_unwrap_vec cr bits key data) (operation_error "decryption error - integrity check failed").
End Ops.

(** The ops of the runtime: these four, and the others. *)
Definition cipher_ops (cr : crates) (others : crypto_ops) : crypto_ops := {|
  op_crypto_subtle_digest := op_crypto_subtle_digest others;
  op_crypto_generate_key := op_crypto_generate_key others;
  op_crypto_generate_x25519_keypair := op_crypto_generate_x25519_keypair others;
  op_crypto_generate_ed25519_keypair := op_crypto_generate_ed25519_keypair others;
  op_crypto_import_key := op_crypto_import_key others;
  op_crypto_import_spki_ed25519 := op_crypto_import_spki_ed25519 others;
  op_crypto_import_pkcs8_ed25519 := op_crypto_import_pkcs8_ed25519 others;
  op_crypto_import_spki_x25519 := op_crypto_import_spki_x25519 others;
  op_crypto_import_pkcs8_x25519 := op_crypto_import_pkcs8_x25519 others;
  op_crypto_base64url_decode := op_crypto_base64url_decode others;
  op_crypto_base64url_encode := op_crypto_base64url_encode others;
  op_crypto_jwk_x_ed25519 := op_crypto_jwk_x_ed25519 others;
  op_crypto_export_key := op_crypto_export_key others;
  op_crypto_export_jwk := op_crypto_export_jwk others;
  op_crypto_export_spki_ed25519 := op_crypto_export_spki_ed25519 others;
  op_crypto_export_pkcs8_ed25519 := op_crypto_export_pkcs8_ed25519 others;
  op_crypto_export_spki_x25519 := op_crypto_export_spki_x25519 others;
  op_crypto_export_pkcs8_x25519 := op_crypto_export_pkcs8_x25519 others;
  op_crypto_encrypt := encrypt_op cr;
  op_crypto_decrypt := decrypt_op cr;
  op_crypto_sign_key := op_crypto_sign_key others;
  op_crypto_verify_key := op_crypto_verify_key others;
  op_crypto_sign_ed25519 := op_crypto_sign_ed25519 others;
  op_crypto_verify_ed25519 := op_crypto_verify_ed25519 others;
  op_crypto_derive_bits := op_crypto_derive_bits others;
  op_crypto_derive_bits_x25519 := op_crypto_derive_bits_x25519 others;
  op_crypto_wrap_key := wrap_op cr;
  op_crypto_unwrap_key := unwrap_op cr;
|}.

(** The laws of the crates. *)
Class CrateLaws (cr : crates) : Prop := {
  cbc_law n key iv b : cbc_decrypt_padded cr n key iv (cbc_encrypt_padded cr n key iv b) = Some b;
  gcm_law n key iv ad b c t : gcm_encrypt_detached cr n key iv ad b = Some (c, t) -> slen t = 16 /\ gcm_decrypt_detached cr n key iv ad c t = Some b;
  ctr_law l n key counter b c : ctr_keystream cr l n key counter b = Some c -> ctr_keystream cr l n key counter c = Some b;
  kw_law n key b c : kw_wrap_vec cr n key b = Some c -> slen c = slen b + 8 /\ kw_unwrap_vec cr n key c = Some b;
}.
End Ciphers.
Export Ciphers.

(** What wrapping asks of the ops. *)
Class CipherLaws (ops : crypto_ops) : Prop := {
  decrypt_encrypt args m b c : c_algorithm args <> RSA_OAEP -> (c_algorithm args = AES_GCM -> c_tagLength args = Some 128) ->
    op_crypto_encrypt ops args m b = Ok c -> op_crypto_decrypt ops args m c = Ok b;
  unwrap_wrap m b c : op_crypto_wrap_key ops m b = Ok c -> op_crypto_unwrap_key ops m c = Ok b;
  tag_in_ciphertext args m b c : c_algorithm args = AES_GCM -> c_tagLength args = Some 128 -> op_crypto_encrypt ops args m b = Ok c -> 128 <= slen c * 8;
}.

Section Laws.
Context (cr : crates) `{!CrateLaws cr} (others : crypto_ops).

Lemma or_error_ok {A} (o : option A) e a : or_error o e = Ok a -> o = Some a.
Proof. destruct o; cbn; congruence. Qed.

Lemma cbc_inverse m length iv b c : encrypt_aes_cbc cr m length iv b = Ok c -> decrypt_aes_cbc cr m length iv c = Ok b.
Proof.
  unfold encrypt_aes_cbc, decrypt_aes_cbc. destruct (as_secret_key m) as [key|]; cbn [jsbind]; [|done]. destruct (negb (key_bits length)); [done|].
  destruct (negb (new_from_slices length key iv)); [done|]. intros [= <-]. by rewrite cbc_law.
Qed.

Lemma ctr_inverse m kl counter cl b c msg msg' : aes_ctr cr m kl counter cl b msg = Ok c -> aes_ctr cr m kl counter cl c msg' = Ok b.
Proof.
  unfold aes_ctr, aes_ctr_gen. destruct (as_secret_key m) as [key|]; cbn [jsbind]; [|done]. do 3 (destruct (negb _); [done|]).
  intros H%or_error_ok. by rewrite (ctr_law _ _ _ _ _ _ H).
Qed.

(** With a full tag, a ciphertext is what the crate gives, and the tag. *)
Lemma gcm_encrypted m length iv ad b c : encrypt_aes_gcm cr m length 128 iv ad b = Ok c ->
  exists key x t, as_secret_key m = Ok key /\ key_bits length = true /\ (slen key =? length / 8) = true /\ ((slen iv =? 12) || (slen iv =? 16)) = true /\
    gcm_encrypt_detached cr length key iv (default [] ad) b = Some (x, t) /\ c = x ++ t /\ slen t = 16.
Proof.
  unfold encrypt_aes_gcm, encrypt_aes_gcm_general. destruct (as_secret_key m) as [key|]; cbn [jsbind]; [|done].
  destruct (_ || _) eqn:Hiv; cbn [negb]; [|done]. destruct (key_bits length) eqn:Hl; cbn [negb jsbind]; [|done].
  destruct (slen key =? length / 8) eqn:Hk; cbn [negb jsbind]; [|done].
  destruct (gcm_encrypt_detached cr length key iv (default [] ad) b) as [[x t]|] eqn:E; cbn [or_error jsbind]; [|done].
  destruct (gcm_law _ _ _ _ _ _ _ E) as [Ht _]. change (128 / 8) with 16. rewrite (proj2 (Z.ltb_ge (slen t) 16)) by lia. intros [= <-].
  assert (take (Z.to_nat 16) t = t) as -> by (apply take_ge; unfold slen in Ht; lia). by exists key, x, t.
Qed.

Lemma gcm_inverse m length iv ad b c : encrypt_aes_gcm cr m length 128 iv ad b = Ok c -> decrypt_aes_gcm cr m length 128 iv ad c = Ok b.
Proof.
  intros (key & x & t & Hm & Hl & Hk & Hiv & E & -> & Ht)%gcm_encrypted. destruct (gcm_law _ _ _ _ _ _ _ E) as [_ D].
  unfold decrypt_aes_gcm, decrypt_aes_gcm_gen. rewrite Hm. cbn [jsbind]. change (negb (128 =? 128)) with false. change (128 / 8) with 16. cbv iota zeta.
  pose proof (slen_nonneg x). rewrite slen_app, Ht. replace (slen x + 16 - 16) with (slen x) by lia. rewrite (proj2 (Z.ltb_ge (slen x) 0)) by lia.
  replace (Z.to_nat (slen x)) with (List.length x) by (unfold slen; lia). rewrite drop_app_length, take_app_length, Hiv, Hl, Hk. cbn [negb]. by rewrite D.
Qed.

Lemma kw_inverse m b c : wrap_op cr m b = Ok c -> unwrap_op cr m c = Ok b.
Proof.
  unfold wrap_op, unwrap_op. destruct (as_secret_key m) as [key|]; cbn [jsbind]; [|done]. destruct (Z.eqb_spec (slen b mod 8) 0) as [H8|]; cbn [negb]; [|done].
  destruct (or_error (kek_bits key) _) as [bits|]; cbn [jsbind]; [|done]. intros H%or_error_ok. destruct (kw_law _ _ _ _ H) as [Hl D].
  assert (slen c mod 8 = 0) as -> by (rewrite Hl; change (slen b + 8) with (slen b + 1 * 8); by rewrite Z_mod_plus_full). cbn [negb Z.eqb]. by rewrite D.
Qed.

#[export] Instance cipher_ops_laws : CipherLaws (cipher_ops cr others).
Proof.
  split; cbn [op_crypto_encrypt op_crypto_decrypt op_crypto_wrap_key op_crypto_unwrap_key cipher_ops].
  - intros args m b c Hr Ht. unfold encrypt_op, decrypt_op. destruct (c_algorithm args); try done.
    + destruct (field (c_ctrLength args)) as [cl|]; cbn [jsbind]; [|done]. destruct (field (c_length args)) as [kl|]; cbn [jsbind]; [|done]. apply ctr_inverse.
    + destruct (field (c_length args)) as [l|]; cbn [jsbind]; [|done]. apply cbc_inverse.
    + destruct (field (c_length args)) as [l|]; cbn [jsbind]; [|done]. rewrite (Ht eq_refl). cbn [field jsbind]. apply gcm_inverse.
  - apply kw_inverse.
  - intros args m b c Ha Ht. unfold encrypt_op. rewrite Ha, Ht. destruct (field (c_length args)) as [l|]; cbn [field jsbind]; [|done].
    intros (key & x & t & _ & _ & _ & _ & _ & -> & Hs)%gcm_encrypted. rewrite slen_app. pose proof (slen_nonneg x). lia.
Qed.
End Laws.

(** What a cipher with a secret key is called with. *)
Definition cipher_args (n : Normalized) (a : KeyAlgorithm) : option crypt_args :=
  match n_name n with
  | AES_CBC => Some (mkCrypt AES_CBC None [] (or_empty (n_iv n)) [] (a_length a) None None None)
  | AES_CTR => Some (mkCrypt AES_CTR None [] [] (or_empty (n_counter n)) (a_length a) (n_length n) None None)
  | AES_GCM => Some (mkCrypt AES_GCM None [] (or_empty (n_iv n)) [] (a_length a) None (n_additionalData n) (Some (default 128 (n_tagLength n))))
  | _ => None
  end.

Definition cipher_valid (n : Normalized) : bool :=
  match n_name n with
  | AES_CBC => slen (or_empty (n_iv n)) =? 16
  | AES_CTR => (slen (or_empty (n_counter n)) =? 16) && match n_length n with Some l => negb ((l =? 0) || (128 <? l)) | None => true end
  | AES_GCM => match n_tagLength n with Some t => includes tag_lengths t | None => true end
  | _ => false
  end.

Lemma cipher_args_facts n a args : cipher_args n a = Some args ->
  n_name n <> RSA_OAEP /\ c_algorithm args = n_name n /\ (n_name n = AES_GCM -> c_tagLength args = Some (default 128 (n_tagLength n))).
Proof. unfold cipher_args. destruct (n_name n); try done; by intros [= <-]. Qed.

Lemma ctr_args_eq k n w : n_name n = AES_CTR -> exists args e, cipher_args n (algorithm_of k w) = Some args /\
  ctr_args k n w = (w, if cipher_valid n then Ok args else Throw e).
Proof.
  intros Hn. unfold cipher_args, cipher_valid, ctr_args, ctr_length, bind, check, gets. rewrite Hn.
  destruct (slen _ =? 16); cbn; [|by eexists _, _]. destruct (n_length n) as [l|]; cbn -[negb orb]; [destruct (negb _); cbn|]; by eexists _, _.
Unshelve. all: exact unreachable.
Qed.

Lemma cbc_args_eq k n msg w : n_name n = AES_CBC -> exists args e, cipher_args n (algorithm_of k w) = Some args /\
  cbc_args k n msg w = (w, if cipher_valid n then Ok args else Throw e).
Proof.
  intros Hn. unfold cipher_args, cipher_valid, cbc_args, bind, check, gets. rewrite Hn. destruct (slen _ =? 16); cbn; by eexists _, _.
Unshelve. all: exact unreachable.
Qed.

Lemma gcm_args_eq k n w : n_name n = AES_GCM -> exists e, tag_length n w = (w, if cipher_valid n then Ok (default 128 (n_tagLength n)) else Throw e) /\
  exists args, cipher_args n (algorithm_of k w) = Some args /\ gcm_args k n (default 128 (n_tagLength n)) w = (w, Ok args) /\
    c_tagLength args = Some (default 128 (n_tagLength n)).
Proof.
  intros Hn. unfold cipher_args, cipher_valid, tag_length, gcm_args, bind, check, gets. rewrite Hn.
  destruct (n_tagLength n) as [t|]; cbn; [destruct (includes tag_lengths t); cbn|]; (exists (operation_error "Invalid tag length"); split; [done|]; eexists; by split_and!).
Qed.

Section Wrap.
Context {toUpperCase : str -> str} `{!UpperAscii toUpperCase} (toLowerCase : str -> str).
Context {ops : crypto_ops} `{!CipherLaws ops} (JSONStringify : JsonWebKey -> str) (JSONParse : str -> jsres JsonWebKey).

Lemma encrypt_data_secret n k data w w' c :
  k_type k = Secret -> encrypt_data ops n k data w = (w', Ok c) ->
  exists args i, cipher_args n (algorithm_of k w) = Some args /\ cipher_valid n = true /\ KEY_STORE w !! k_handle k = Some i /\
    op_crypto_encrypt ops args (material i w) data = Ok c.
Proof.
  intros Ht H. unfold encrypt_data in H. step H. destruct E as (i & Hi & ->).
  destruct (n_name n) eqn:Hn; try done.
  - step H. congruence.
  - destruct (ctr_args_eq k n w Hn) as (args & e & -> & Ha). step H. rewrite Ha in E. destruct (cipher_valid n); [|done]. injection E as <- <-.
    apply of_res_ok in H as [_ H]. eauto 10.
  - destruct (cbc_args_eq k n "Initialization vector must be 16 bytes" w Hn) as (args & e & -> & Ha). step H. rewrite Ha in E.
    destruct (cipher_valid n); [|done]. injection E as <- <-. apply of_res_ok in H as [_ H]. eauto 10.
  - destruct (gcm_args_eq k n w Hn) as (e & Ht' & args & -> & Ha & _). do 2 step H. step H. rewrite Ht' in E1. destruct (cipher_valid n); [|done].
    injection E1 as <- <-. apply bind_ok in H as (args' & w1 & E2 & H). rewrite Ha in E2. injection E2 as <- <-. apply of_res_ok in H as [_ H]. eauto 10.
Qed.

(** Decrypting with a key that may be used for it. *)
Lemma decrypt_secret a n key k i args b c w :
  normalizeAlgorithm toUpperCase a Odecrypt = Ok n -> keys w !! key = Some k -> n_name n = a_name (algorithm_of k w) -> Decrypt ∈ usages_of k w ->
  KEY_STORE w !! k_handle k = Some i -> cipher_args n (algorithm_of k w) = Some args -> cipher_valid n = true ->
  (n_name n = AES_GCM -> default 128 (n_tagLength n) = 128) ->
  op_crypto_encrypt ops args (material i w) b = Ok c -> decrypt toUpperCase ops a key (ArrayBuffer c) w = (w, Ok b).
Proof.
  intros Hn Hk Hname Hu Hi Hargs Hv H128 He. unfold decrypt. rewrite copyBuffer_ArrayBuffer.
  erewrite bind_run by (by apply get_key_run). erewrite bind_run by (by apply of_res_run). erewrite bind_run by (by apply same_name_run).
  erewrite bind_run by (by apply has_usage_run). erewrite bind_run by (by apply key_data_run). assert (Hd : op_crypto_decrypt ops args (material i w) c = Ok b).
  { apply cipher_args_facts in Hargs as (Hr & Ha & Ht). eapply decrypt_encrypt; [by rewrite Ha|intros E; rewrite Ht by congruence; f_equal; apply H128; congruence|done]. }
  destruct (n_name n) eqn:N; try (unfold cipher_valid in Hv; by rewrite N in Hv).
  - destruct (ctr_args_eq k n w N) as (args' & e & Ha' & Ha). rewrite Hv in Ha. erewrite bind_run by exact Ha. apply of_res_run. congruence.
  - destruct (cbc_args_eq k n "Counter must be 16 bytes" w N) as (args' & e & Ha' & Ha). rewrite Hv in Ha. erewrite bind_run by exact Ha. apply of_res_run. congruence.
  - destruct (gcm_args_eq k n w N) as (e & Ht & args' & Ha' & Ha & Htag). rewrite Hargs in Ha'. injection Ha' as <-. rewrite Hv in Ht.
    rewrite (H128 eq_refl) in *. pose proof (cipher_args_facts _ _ _ Hargs) as (_ & Hc & _). rewrite N in Hc.
    pose proof (tag_in_ciphertext _ _ _ _ Hc Htag He) as Hlen. erewrite bind_run by exact Ht. erewrite bind_run by (apply check_run; lia).
    erewrite bind_run by done. erewrite bind_run by exact Ha. by apply of_res_run.
Qed.

(** ** Wrapping *)

(** [c] is [b] wrapped with the key data [m]. *)
Definition wraps (n : Normalized) (a : KeyAlgorithm) (m : key_material) (b c : bytes) : Prop :=
  (supports OwrapKey (n_name n) = true /\ op_crypto_wrap_key ops m b = Ok c) \/
  (supports OwrapKey (n_name n) = false /\ supports Oencrypt (n_name n) = true /\ exists args, cipher_args n a = Some args /\ cipher_valid n = true /\ op_crypto_encrypt ops args m b = Ok c).

(** A key object with the algorithm and the data of another. *)
Lemma constructKey_run t x us a h w : exists w' r v, constructKey t x us a h w = (w', Ok r) /\ keys w' !! r = Some (mkKey t x v a h None None) /\
  usages_of (mkKey t x v a h None None) w' = us /\ algorithms w' = algorithms w /\ KEY_STORE w' = KEY_STORE w /\ buffers w' = buffers w.
Proof.
  unfold constructKey, bind; cbn. eexists _, _, _. split; [done|]. cbn. rewrite lookup_insert_eq. split; [done|].
  unfold usages_of; cbn. by rewrite lookup_insert_eq.
Qed.

Definition raw_exportable (name : Name) : bool := is_aes name || bool_decide (name = HMAC).

Lemma exportKey_raw r k t d w w' e :
  keys w !! r = Some k -> KEY_STORE w !! k_handle k = Some (IStored t d) -> raw_exportable (a_name (algorithm_of k w)) = true ->
  exportKey ops Raw r w = (w', Ok e) -> w' = w /\ e = EBuffer d.
Proof.
  intros Hk Hi Hr. unfold exportKey. erewrite bind_run by (by apply get_key_run). erewrite bind_run by (by apply get_inner_run). erewrite bind_run by done.
  assert (D : forall m : M exported, m = exportKeyAES ops Raw k (IStored t d) \/ m = exportKeyHMAC ops Raw k (IStored t d) ->
    (let! result := m in do! check (seen_extractable k) (access_error "Key is not extractable"); ret result) w = (w', Ok e) -> w' = w /\ e = EBuffer d).
  { intros m [-> | ->]; (erewrite bind_run by done); intros (x & w1 & [-> _]%check_ok & [= <- <-])%bind_ok; done. }
  destruct (a_name (algorithm_of k w)); try done; apply D; auto.
Qed.

Lemma wrapKey_raw r wk a x us t b ar xk usk ak mk w w' c :
  is_key w r Secret x us ar (KStored t b) -> raw_exportable (a_name ar) = true -> is_key w wk Secret xk usk ak mk ->
  wrapKey toUpperCase ops JSONStringify Raw r wk a (fun w => w) None w = (w', Ok c) ->
  exists n, normalize_either toUpperCase a OwrapKey Oencrypt w = (w, Ok n) /\ n_name n = a_name ak /\ wraps n ak mk b c.
Proof.
  intros (k & i & Hk & _ & _ & _ & Ha & Hi & Hm & _) Hraw (k2 & i2 & Hk2 & Ht2 & _ & _ & Ha2 & Hi2 & Hm2 & _) H.
  unfold wrapKey in H. step H. simplify_eq. step H. simplify_eq.
  apply bind_ok in H as (n & w1 & En & H). pose proof En as [-> _]%normalize_either_ok. do 3 step H.
  destruct i as [t' d|d]; [|done]. injection Hm as <- <-.
  apply bind_ok in H as (e & w1 & [-> ->]%(exportKey_raw _ k t' d) & H); try done.
  erewrite bind_run in H by done. erewrite bind_run in H by done.
  exists n. split; [done|]. split; [done|]. destruct (supports OwrapKey (n_name n)) eqn:S1.
  - step H. destruct E2 as (j & Hj & ->). apply of_res_ok in H as [_ H]. left. split; [done|]. by simplify_eq.
  - destruct (supports Oencrypt (n_name n)) eqn:S2; [|done].
    destruct (constructKey_run (k_type k2) (k_extractable k2) [Encrypt] (k_algorithm k2) (k_handle k2) w) as (w2 & r2 & v & E' & Hk' & _ & HA & HS & HB).
    erewrite bind_run in H by exact E'. erewrite bind_run in H by (by apply get_key_run).
    apply encrypt_data_secret in H as (args & j & Hargs & Hv & Hj & He); [|done]. cbn in Hj. rewrite HS in Hj. right. split; [done|]. split; [done|].
    exists args. split; [unfold algorithm_of in Hargs; cbn in Hargs; by rewrite HA in Hargs|]. split; [done|].
    assert (j = i2) as -> by congruence. by replace (material i2 w) with (material i2 w2) by (unfold material, buffer_of; by rewrite HB).
Qed.

(** ** Unwrapping *)

Lemma normalize_supports a op n : normalizeAlgorithm toUpperCase a op = Ok n -> supports op (n_name n) = true.
Proof.
  assert (D : forall h m, normalize_object toUpperCase h m op = Ok n -> supports op (n_name n) = true).
  { intros h m. unfold normalize_object. intros (s & _ & H)%jsbind_ok. destruct (find_algorithm _ _ _ _) as [[name t]|] eqn:F; [|done].
    assert (n_name n = name) as ->.
    { destruct t as [t|]; [|by injection H as <-]. apply jsbind_ok in H as (n0 & <-%convert_name & H). destruct (has_hash t); [|by injection H as <-].
      apply jsbind_ok in H as (? & _ & H). by apply jsbind_ok in H as (? & _ & [= <-]). }
    apply find_algorithm_in in F as [?|F]; [done|]. unfold supports. apply existsb_exists. exists (name, t).
    split; [by apply list_elem_of_In|]. by apply bool_decide_eq_true_2. }
  destruct a; apply D.
Qed.

(** The operations of wrapping and of unwrapping are registered alike. *)
Lemma normalize_either_same a w : normalize_either toUpperCase a OunwrapKey Odecrypt w = normalize_either toUpperCase a OwrapKey Oencrypt w.
Proof. by destruct a. Qed.

Lemma unwrap_bytes_run a n k i ak b c w :
  normalize_either toUpperCase a OwrapKey Oencrypt w = (w, Ok n) -> n_name n = a_name ak -> KEY_STORE w !! k_handle k = Some i -> algorithm_of k w = ak ->
  (n_name n = AES_GCM -> default 128 (n_tagLength n) = 128) ->
  wraps n ak (material i w) b c -> exists w', unwrap_bytes toUpperCase ops n k c w = (w', Ok b).
Proof.
  intros Hn Hname Hi Ha H128 [[S E]|(S & S' & args & Hargs & Hv & E)]; unfold unwrap_bytes.
  - change (supports OunwrapKey (n_name n)) with (supports OwrapKey (n_name n)). rewrite S. exists w.
    erewrite bind_run by (by apply key_data_run). by apply of_res_run, unwrap_wrap.
  - change (supports OunwrapKey (n_name n)) with (supports OwrapKey (n_name n)). rewrite S.
    change (supports Odecrypt (n_name n)) with (supports Oencrypt (n_name n)). rewrite S'.
    apply normalize_either_ok in Hn as [_ [Hn|Hn]]; [apply normalize_supports in Hn; congruence|].
    assert (Hd : normalizeAlgorithm toUpperCase (as_identifier n) Odecrypt = Ok n) by (apply normalizeAlgorithm_again in Hn; exact Hn).
    destruct (constructKey_run (k_type k) (k_extractable k) [Decrypt] (k_algorithm k) (k_handle k) w) as (w2 & r2 & v & E' & Hk' & Hu & HA & HS & HB).
    exists w2. erewrite bind_run by exact E'.
    assert (Ha' : algorithm_of (mkKey (k_type k) (k_extractable k) v (k_algorithm k) (k_handle k) None None) w2 = ak)
      by (rewrite <-Ha; unfold algorithm_of; cbn; by rewrite HA).
    eapply decrypt_secret; [exact Hd|exact Hk'|by rewrite Ha'|rewrite Hu; set_solver|cbn; by rewrite HS|by rewrite Ha'|done|done|].
    by replace (material i w2) with (material i w) by (unfold material, buffer_of; by rewrite HB).
Qed.

(** The imported key with its slots set again. *)
Lemma set_slots_run w r t x us a m y vs : is_key w r t x us a m -> exists w', set_slots r y vs w = (w', Ok tt) /\ is_key w' r t y vs a m.
Proof.
  intros (k & i & Hk & Ht & Hx & Hu & Ha & Hi & Hm & Ho & Ho'). unfold set_slots, bind; cbn. unfold get_key; cbn. rewrite Hk. eexists. split; [done|].
  eexists _, i. cbn. rewrite lookup_insert_eq. split; [done|]. unfold usages_of; cbn. rewrite lookup_insert_eq. by split_and!.
Qed.

Lemma import_aes_run a n b x us w :
  normalizeAlgorithm toUpperCase a OimportKey = Ok n -> is_aes (n_name n) = true -> slen b * 8 ∈ [128; 192; 256] -> us ⊆ allowed (n_name n) Secret ->
  exists w' r, importKey toUpperCase toLowerCase ops Raw (SBuffer (ArrayBuffer b)) a x us w = (w', Ok r) /\
    is_key w' r Secret x us (mkAlg (n_name n) (Some (slen b * 8)) None None None None) (KStored Secret b).
Proof.
  intros Hn Haes Hl Hus. unfold importKey, key_argument. rewrite copyBuffer_ArrayBuffer. erewrite bind_run by done. erewrite bind_run by (by apply of_res_run).
  assert (D : forall l, allowed (n_name n) Secret = l -> exists w' r, importKeyAES ops Raw n (DBuffer b) x us l w = (w', Ok r) /\
    is_key w' r Secret x us (mkAlg (n_name n) (Some (slen b * 8)) None None None None) (KStored Secret b)).
  { intros l <-. unfold importKeyAES. erewrite bind_run; [|apply check_run].
    2: { apply negb_true_iff. unfold other_usage. apply not_true_iff_false. intros (u & Hu%list_elem_of_In & Hn')%existsb_exists.
         unfold includes in Hn'. rewrite bool_decide_eq_true_2 in Hn' by (by apply Hus). done. }
    erewrite bind_run; [|erewrite bind_run; [done|]; apply check_run; by apply bool_decide_eq_true_2]. rewrite recognised_all.
    destruct (import_new true Secret b (mkAlg (n_name n) (Some (slen b * 8)) None None None None) Secret x us w) as [w' [r|e]] eqn:E; [|done].
    exists w', r. split; [done|]. by apply import_new_ok in E. }
  unfold import_with. destruct (n_name n); try done; by apply D.
Qed.

Lemma unwrap_wrapped r wk a ka nk usr us t b ar xk xk' usk usk' ak mk c x w w' w1 u :
  is_key w r Secret true usr ar (KStored t b) -> raw_exportable (a_name ar) = true -> is_key w wk Secret xk usk ak mk ->
  wrapKey toUpperCase ops JSONStringify Raw r wk a (fun w => w) None w = (w', Ok c) ->
  is_key w1 wk Secret xk' usk' ak mk -> UnwrapKey ∈ usk' ->
  normalizeAlgorithm toUpperCase ka OimportKey = Ok nk -> is_aes (n_name nk) = true -> slen b * 8 ∈ [128; 192; 256] ->
  us <> [] -> us ⊆ allowed (n_name nk) Secret ->
  (forall n, normalizeAlgorithm toUpperCase a Oencrypt = Ok n -> n_name n = AES_GCM -> default 128 (n_tagLength n) = 128) ->
  exists w2 r2, unwrapKey toUpperCase toLowerCase ops JSONParse Raw (ArrayBuffer c) wk a ka x us u (fun w => w) w1 = (w2, Ok r2) /\
    is_key w2 r2 Secret x us (mkAlg (n_name nk) (Some (slen b * 8)) None None None None) (KStored Secret b).
Proof.
  intros Hr Hraw Hwk H Hwk1 Hu Hnk Haes Hl Hne Hus H128.
  destruct (wrapKey_raw _ _ _ _ _ _ _ _ _ _ _ _ _ _ _ Hr Hraw Hwk H) as (n & Hn & Hname & Hw).
  destruct Hwk1 as (k & i & Hk & _ & _ & Huk & Ha & Hi & Hm & _). subst mk.
  assert (Hn1 : normalize_either toUpperCase a OwrapKey Oencrypt w1 = (w1, Ok n)).
  { unfold normalize_either, try, normalize, of_res in *. by destruct (normalizeAlgorithm toUpperCase a OwrapKey), (normalizeAlgorithm toUpperCase a Oencrypt); simplify_eq. }
  assert (H128' : n_name n = AES_GCM -> default 128 (n_tagLength n) = 128).
  { intros En. apply normalize_either_ok in Hn as [_ [Hn|Hn]]; [apply normalize_supports in Hn; by rewrite En in Hn|]. by apply H128. }
  destruct (unwrap_bytes_run a n k i ak b c w1 Hn1 Hname Hi Ha H128' Hw) as (w2 & E).
  destruct (import_aes_run (as_identifier nk) nk b x us (u w2) (normalizeAlgorithm_again _ _ _ Hnk) Haes Hl Hus) as (w3 & r3 & Ei & K3).
  destruct (set_slots_run _ _ _ _ _ _ _ x us K3) as (w4 & E4 & K4). exists w4, r3. split; [|done].
  unfold unwrapKey. rewrite copyBuffer_ArrayBuffer. erewrite bind_run by (by apply get_key_run). rewrite (bind_run _ _ _ w1 n) by (by rewrite normalize_either_same).
  erewrite bind_run by (by apply of_res_run). erewrite bind_run by (apply same_name_run; congruence). erewrite bind_run by (apply has_usage_run; by rewrite Huk).
  erewrite bind_run by exact E. erewrite bind_run by done. erewrite bind_run by done. erewrite bind_run by exact Ei. erewrite bind_run by done.
  destruct K3 as (k3 & i3 & Hk3 & Ht3 & _). erewrite bind_run by (by apply get_key_run).
  erewrite bind_run by (apply check_run; rewrite (bool_decide_eq_false_2 _ Hne), andb_false_r; done).
  rewrite recognised_all. by erewrite bind_run by exact E4.
Qed.
End Wrap.

(** C10. A key that is wrapped in the raw format comes back when it is unwrapped with
    the same wrapping key, whatever has happened to the other objects since: the
    unwrapped key has the same data, the requested algorithm, extractability and
    usages, and other code that runs while the bytes are decrypted changes nothing.
    This covers AES-KW, which the registry has for wrapping, and AES-CBC, AES-CTR
    and AES-GCM, for which a temporary key with the usage for decryption is made and
    the normalized algorithm is normalized again; the tag of AES-GCM must have 128
    bits.  The ops are those of [Ciphers], with crates that satisfy their laws. *)
Theorem wrap_unwrap (toUpperCase toLowerCase : str -> str) `{!UpperAscii toUpperCase} (cr : crates) `{!CrateLaws cr} (others : crypto_ops)
    (JSONStringify : JsonWebKey -> str) (JSONParse : str -> jsres JsonWebKey) r wk a ka nk usr us t b ar xk xk' usk usk' ak mk c x w w' w1 u :
  let ops := cipher_ops cr others in
  is_key w r Secret true usr ar (KStored t b) -> raw_exportable (a_name ar) = true -> is_key w wk Secret xk usk ak mk ->
  wrapKey toUpperCase ops JSONStringify Raw r wk a (fun w => w) None w = (w', Ok c) ->
  is_key w1 wk Secret xk' usk' ak mk -> UnwrapKey ∈ usk' ->
  normalizeAlgorithm toUpperCase ka OimportKey = Ok nk -> is_aes (n_name nk) = true -> slen b * 8 ∈ [128; 192; 256] ->
  us <> [] -> us ⊆ allowed (n_name nk) Secret ->
  (forall n, normalizeAlgorithm toUpperCase a Oencrypt = Ok n -> n_name n = AES_GCM -> default 128 (n_tagLength n) = 128) ->
  exists w2 r2, unwrapKey toUpperCase toLowerCase ops JSONParse Raw (ArrayBuffer c) wk a ka x us u (fun w => w) w1 = (w2, Ok r2) /\
    is_key w2 r2 Secret x us (mkAlg (n_name nk) (Some (slen b * 8)) None None None None) (KStored Secret b).
Proof. exact (unwrap_wrapped toLowerCase (ops := cipher_ops cr others) JSONStringify JSONParse r wk a ka nk usr us t b ar xk xk' usk usk' ak mk c x w w' w1 u). Qed.
