(* ===== verification/CryptoExamples.v ===== *)
(** * Web Crypto: examples

    Ops that compute, with which the theorems are applied at concrete worlds; then
    what the code lets a script do that the standard does not. *)

From Stdlib Require Import ZArith Lia.
From stdpp Require Import base list gmap numbers option strings.
From S2P Require Import Prelude JsNumber Infra WebIdl Crypto CryptoKeys SubtleCrypto CryptoProps CryptoTheorems CryptoWrap.

#[local] Open Scope Z_scope.
#[local] Open Scope crypto_scope.

(** ** Ops *)

Definition example_others : crypto_ops := {|
  op_crypto_subtle_digest _ b := Ok b;
  op_crypto_generate_key args moment := match args with GenAES (Some l) => Ok (repeat (moment mod 256) (Z.to_nat (l / 8))) | _ => Ok [moment mod 256] end;
  op_crypto_generate_x25519_keypair moment := ([moment mod 256], [moment mod 256]);
  op_crypto_generate_ed25519_keypair moment := Some ([moment mod 256], [moment mod 256]);
  op_crypto_import_key _ input :=
    match input with
    | InJwkSecret j => Ok (mkImported None None Secret (default [] (jwk_k j)))
    | InRaw b => Ok (mkImported None None Public b)
    | InSpki b => Ok (mkImported None None Public b)
    | InPkcs8 b => Ok (mkImported None None Private b)
    | InJwkPrivateEc j => Ok (mkImported None None Private (default [] (jwk_d j)))
    | InJwkPrivateRsa j => Ok (mkImported None None Private (default [] (jwk_d j)))
    | InJwkPublicEc j => Ok (mkImported None None Public (default [] (jwk_x j)))
    | InJwkPublicRsa j => Ok (mkImported None None Public (default [] (jwk_n j)))
    end;
  op_crypto_import_spki_ed25519 b := Some b;
  op_crypto_import_pkcs8_ed25519 b := Some b;
  op_crypto_import_spki_x25519 b := Some b;
  op_crypto_import_pkcs8_x25519 b := Some b;
  op_crypto_base64url_decode s := match s with Some s => Ok s | None => Throw (JsTypeError "expected string") end;
  op_crypto_base64url_encode b := b;
  op_crypto_jwk_x_ed25519 b := Ok b;
  op_crypto_export_key _ m := Ok (material_bytes m);
  op_crypto_export_jwk _ m := Ok (mkJwk None None None None None None None None None None None None None None None None false (Some (material_bytes m)));
  op_crypto_export_spki_ed25519 b := Ok b;
  op_crypto_export_pkcs8_ed25519 b := Ok b;
  op_crypto_export_spki_x25519 b := Ok b;
  op_crypto_export_pkcs8_x25519 b := Ok b;
  op_crypto_encrypt _ _ b := Ok b;
  op_crypto_decrypt _ _ c := Ok c;
  op_crypto_sign_key _ m b := Ok (material_bytes m ++ b);
  op_crypto_verify_key _ m s b := Ok (bool_decide (s = material_bytes m ++ b));
  op_crypto_sign_ed25519 k b := Some (k ++ b);
  op_crypto_verify_ed25519 k b s := bool_decide (s = k ++ b);
  op_crypto_derive_bits args m salt := Ok (repeat 0 (Z.to_nat (d_length args / 8)));
  op_crypto_derive_bits_x25519 k u := (false, k ++ u);
  op_crypto_wrap_key _ b := Ok b;
  op_crypto_unwrap_key _ c := Ok c;
|}.

(** Ciphers that leave the text as it is, with a tag of zeros; wrapping puts 8 bytes in
    front. *)
Definition example_crates : crates := {|
  cbc_encrypt_padded _ _ _ b := b;
  cbc_decrypt_padded _ _ _ c := Some c;
  gcm_encrypt_detached _ _ _ _ b := Some (b, repeat 0 16);
  gcm_decrypt_detached _ _ _ _ c t := if bool_decide (t = repeat 0 16) then Some c else None;
  ctr_keystream _ _ _ _ b := Some b;
  kw_wrap_vec _ _ b := Some (repeat 166 8 ++ b);
  kw_unwrap_vec _ _ c := if bool_decide (take 8 c = repeat 166 8) then Some (drop 8 c) else None;
  encrypt_rsa_oaep _ _ b := Ok b;
  decrypt_rsa_oaep _ _ c := Ok c;
|}.

#[export] Instance example_laws : CrateLaws example_crates.
Proof.
  split; unfold example_crates; cbn [cbc_encrypt_padded cbc_decrypt_padded gcm_encrypt_detached gcm_decrypt_detached ctr_keystream kw_wrap_vec kw_unwrap_vec].
  - done.
  - intros n key iv ad b c t H. assert (t = repeat 0 16 /\ c = b) as [-> ->] by (by split; congruence). split; [done|]. by rewrite bool_decide_eq_true_2.
  - by intros l n key counter b c [= <-].
  - intros n key b c H. assert (c = repeat 166 8 ++ b) as -> by congruence. rewrite slen_app. change (slen (repeat 166 8)) with 8. split; [lia|]. by rewrite bool_decide_eq_true_2.
Qed.

Definition example_ops : crypto_ops := cipher_ops example_crates example_others.

#[export] Instance example_upper : UpperAscii byteUpperCase.
Proof. by intros s _. Qed.

Definition example_run : list action -> world -> world := run byteUpperCase (fun s => s) example_ops (fun _ => []) (fun _ => Throw (JsSyntaxError "JSON")).

(** A key for AES-GCM, one for AES-KW, and one that is not extractable. *)
Definition example_bytes : bytes := repeat 7 16.
Definition example_keys : list action := [
  ImportCall Raw (SBuffer (ArrayBuffer example_bytes)) (AlgString (lit "aes-gcm")) true [Encrypt; Decrypt];
  ImportCall Raw (SBuffer (ArrayBuffer (repeat 9 32))) (AlgString (lit "AES-KW")) false [WrapKey; UnwrapKey];
  ImportCall Raw (SBuffer (ArrayBuffer (repeat 5 16))) (AlgString (lit "AES-CBC")) false [Decrypt]].
Definition example_world : world := example_run example_keys empty_world.

(** The three keys are the objects 4, 9 and 14. *)
Definition example_key (r : Z) : CryptoKey := default (mkKey Secret false 0 0 0 None None) (keys example_world !! r).

Lemma nonextractable_stays_witness :
  let w := run byteUpperCase (fun s => s) example_ops (fun _ => []) (fun _ => Throw (JsSyntaxError "JSON")) example_keys empty_world in
  keys w !! 14 = Some (example_key 14) /\ k_extractable (example_key 14) = false /\
  exists k', keys (run byteUpperCase (fun s => s) example_ops (fun _ => []) (fun _ => Throw (JsSyntaxError "JSON"))
                     (example_keys ++ [WriteArray (k_usages (example_key 14)) [Encrypt]; ExportCall Raw 14; WrapCall Raw 14 9 (AlgString (lit "AES-KW")) [] None])
                     empty_world) !! 14 = Some k' /\ k_extractable k' = false.
Proof.
  intros w. assert (H1 : keys w !! 14 = Some (example_key 14)) by (by vm_compute). assert (H2 : k_extractable (example_key 14) = false) by (by vm_compute).
  split; [exact H1|]. split; [exact H2|].
  destruct (nonextractable_stays byteUpperCase (fun s => s) example_ops (fun _ => []) (fun _ => Throw (JsSyntaxError "JSON")) example_keys
    [WriteArray (k_usages (example_key 14)) [Encrypt]; ExportCall Raw 14; WrapCall Raw 14 9 (AlgString (lit "AES-KW")) [] None] 14 (example_key 14) eq_refl H1 H2)
    as (k' & Hk' & Hx & _). exists k'. split; [exact Hk'|exact Hx].
Defined.

Lemma usages_enforced_witness :
  exists n, normalizeAlgorithm byteUpperCase (AlgObject None (mkMembers (Some (lit "AES-GCM")) None None None None None None (Some (ArrayBuffer (repeat 1 12))) None None None None None None None)) Oencrypt = Ok n /\
    permitted example_world 4 (n_name n) Encrypt.
Proof.
  pose proof (usages_enforced byteUpperCase (fun s => s) example_ops (fun _ => []) (fun _ => Throw (JsSyntaxError "JSON"))
    (AlgObject None (mkMembers (Some (lit "AES-GCM")) None None None None None None (Some (ArrayBuffer (repeat 1 12))) None None None None None None None)) 4) as [H _].
  apply (H (ArrayBuffer [1; 2]) example_world example_world ([1; 2] ++ repeat 0 16)). vm_compute. reflexivity.
Defined.

Lemma importKey_well_typed_witness :
  exists n, normalizeAlgorithm byteUpperCase (AlgString (lit "aes-gcm")) OimportKey = Ok n /\
    well_imported n true [Encrypt; Decrypt] (example_run (take 1 example_keys) empty_world) 4.
Proof.
  apply (importKey_well_typed byteUpperCase (fun s => s) example_ops Raw (SBuffer (ArrayBuffer example_bytes)) (AlgString (lit "aes-gcm")) true [Encrypt; Decrypt] empty_world).
  vm_compute. reflexivity.
Defined.

Lemma generateKey_well_typed_witness :
  exists w' n, generateKey byteUpperCase example_ops (AlgString (lit "ed25519")) false [Verify; Sign] (fun w => w) (fun w => w) empty_world = (w', Ok (GPair 6 8)) /\
    normalizeAlgorithm byteUpperCase (AlgString (lit "ed25519")) OgenerateKey = Ok n /\ well_generated n false [Verify; Sign] w' (GPair 6 8).
Proof.
  assert (E : generateKey byteUpperCase example_ops (AlgString (lit "ed25519")) false [Verify; Sign] (fun w => w) (fun w => w) empty_world =
    ((generateKey byteUpperCase example_ops (AlgString (lit "ed25519")) false [Verify; Sign] (fun w => w) (fun w => w) empty_world).1, Ok (GPair 6 8))) by (vm_compute; reflexivity).
  destruct (generateKey_well_typed byteUpperCase example_ops (AlgString (lit "ed25519")) false [Verify; Sign] (fun w => w) empty_world _ _ E) as (n & N & G & _).
  eexists _, n. split; [exact E|]. split; [exact N|exact G].
Defined.

Lemma wrap_unwrap_witness :
  exists w2 r2, unwrapKey byteUpperCase (fun s => s) example_ops (fun _ => Throw (JsSyntaxError "JSON")) Raw (ArrayBuffer (repeat 166 8 ++ example_bytes)) 9
      (AlgString (lit "AES-KW")) (AlgString (lit "AES-GCM")) false [Encrypt] (fun w => w) (fun w => w) example_world = (w2, Ok r2) /\
    is_key w2 r2 Secret false [Encrypt] (mkAlg AES_GCM (Some 128) None None None None) (KStored Secret example_bytes).
Proof.
  assert (K4 : is_key example_world 4 Secret true [Encrypt; Decrypt] (mkAlg AES_GCM (Some 128) None None None None) (KStored Secret example_bytes)).
  { exists (example_key 4), (IStored Secret 0). vm_compute. repeat split. }
  assert (K9 : is_key example_world 9 Secret false [WrapKey; UnwrapKey] (mkAlg AES_KW (Some 256) None None None None) (KStored Secret (repeat 9 32))).
  { exists (example_key 9), (IStored Secret 5). vm_compute. repeat split. }
  destruct (wrap_unwrap byteUpperCase (fun s => s) example_crates example_others (fun _ => []) (fun _ => Throw (JsSyntaxError "JSON"))
    4 9 (AlgString (lit "AES-KW")) (AlgString (lit "AES-GCM")) (no_params AES_GCM) _ [Encrypt] _ _ _ _ false _ [WrapKey; UnwrapKey] _ _ (repeat 166 8 ++ example_bytes) false
    example_world example_world example_world (fun w => w) K4 eq_refl K9) as (w2 & r2 & E & K).
  - vm_compute. reflexivity.
  - exact K9.
  - set_solver.
  - vm_compute. reflexivity.
  - reflexivity.
  - cbn. set_solver.
  - done.
  - cbn. set_solver.
  - vm_compute. discriminate.
  - exists w2, r2. split; [exact E|exact K].
Defined.

(** ** Departures from the standard *)

Definition gcm (iv : bytes) : AlgorithmIdentifier :=
  AlgObject None (mkMembers (Some (lit "AES-GCM")) None None None None None None (Some (ArrayBuffer iv)) None None None None None None None).
Definition cbc (iv : bytes) : AlgorithmIdentifier :=
  AlgObject None (mkMembers (Some (lit "AES-CBC")) None None None None None None (Some (ArrayBuffer iv)) None None None None None None None).

(** A script that defines a property [extractable] on a key object exports a key
    that is not extractable: [exportKey] reads the property, not the slot. *)
Lemma hidden_extractable :
  (exportKey example_ops Raw 14 example_world).2 = Throw (access_error "Key is not extractable") /\
  (exportKey example_ops Raw 14 (example_run [DefineExtractable 14 true] example_world)).2 = Ok (EBuffer 10) /\
  k_extractable (default (example_key 14) (keys (example_run [DefineExtractable 14 true] example_world) !! 14)) = false.
Proof. vm_compute. repeat split. Qed.

(** The slots of a key are own properties that a script finds with
    [Object.getOwnPropertySymbols], and it can write them: a key that is not extractable
    is exported and wrapped then. *)
Lemma slots_can_be_written :
  let w := example_run [WriteSlot 14 (SlotExtractable true)] example_world in
  (exportKey example_ops Raw 14 w).2 = Ok (EBuffer 10) /\
  (wrapKey byteUpperCase example_ops (fun _ => []) Raw 14 9 (AlgString (lit "AES-KW")) (fun w => w) None example_world).2 = Throw (access_error "Key is not extractable") /\
  (wrapKey byteUpperCase example_ops (fun _ => []) Raw 14 9 (AlgString (lit "AES-KW")) (fun w => w) None w).2 = Ok (repeat 166 8 ++ repeat 5 16).
Proof. vm_compute. repeat split. Qed.

(** [key.usages] is the array the methods look in: a usage that a script adds to it
    is one the key has. *)
Lemma usages_can_be_added :
  (encrypt byteUpperCase example_ops (cbc (repeat 1 16)) 14 (ArrayBuffer [1]) example_world).2 = Throw (access_error "Key does not support the 'encrypt' operation.") /\
  (encrypt byteUpperCase example_ops (cbc (repeat 1 16)) 14 (ArrayBuffer [1]) (example_run [WriteArray (k_usages (example_key 14)) [Decrypt; Encrypt]] example_world)).2 = Ok [1].
Proof. vm_compute. repeat split. Qed.

(** The buffer of a raw export is the one the key is kept in: a script that writes
    to it changes the key. *)
Lemma exported_buffer_is_shared :
  (exportKey example_ops Raw 4 example_world).2 = Ok (EBuffer 0) /\
  (key_data (example_key 4) (example_run [WriteBuffer 0 (repeat 0 16)] example_world)).2 = Ok (KStored Secret (repeat 0 16)).
Proof. vm_compute. repeat split. Qed.

Definition oct_jwk (ops : list str) : JsonWebKey :=
  mkJwk (Some (lit "oct")) None (Some ops) None None None None None None None None None None None None None false (Some example_bytes).
Definition import_jwk (j : JsonWebKey) (us : list KeyUsage) : bool :=
  match (importKey byteUpperCase (fun s => s) example_ops Jwk (SJwk j) (AlgString (lit "AES-GCM")) true us empty_world).2 with Ok _ => true | Throw _ => false end.

(** The check of [key_ops] is the other way round: a key is imported for more
    usages than its [key_ops] list, and one that lists more than is asked for is
    refused. *)
Lemma key_ops_reversed :
  import_jwk (oct_jwk [lit "encrypt"]) [Encrypt; Decrypt] = true /\ import_jwk (oct_jwk [lit "encrypt"; lit "decrypt"]) [Encrypt] = false.
Proof. vm_compute. repeat split. Qed.

(** Only initialization vectors of 12 and of 16 bytes are supported by AES-GCM, and
    every length passes the check for them: it is the op that refuses others, with a
    TypeError and not a NotSupportedError. *)
Lemma any_iv_passes :
  (encrypt byteUpperCase example_ops (gcm [1; 2; 3]) 4 (ArrayBuffer []) example_world).2 = Throw (JsTypeError "iv length not equal to 12 or 16").
Proof. vm_compute. reflexivity. Qed.

(** AES-GCM with a tag shorter than 128 bits encrypts, and does not decrypt what it
    encrypted. *)
Definition gcm_tag (iv : bytes) (tag : Z) : AlgorithmIdentifier :=
  AlgObject None (mkMembers (Some (lit "AES-GCM")) None None (Some (int tag)) None None None (Some (ArrayBuffer iv)) None None None None None None None).

Lemma short_tag_not_decrypted :
  (encrypt byteUpperCase example_ops (gcm_tag (repeat 1 12) 96) 4 (ArrayBuffer [1; 2]) example_world).2 = Ok ([1; 2] ++ repeat 0 12) /\
  (decrypt byteUpperCase example_ops (gcm_tag (repeat 1 12) 96) 4 (ArrayBuffer ([1; 2] ++ repeat 0 12)) example_world).2 = Throw (JsTypeError "tag length not equal to 128").
Proof. vm_compute. split; reflexivity. Qed.

(** A wrong algorithm is an InvalidAccessError for every method but [decrypt]. *)
Lemma decrypt_name_error :
  (decrypt byteUpperCase example_ops (cbc (repeat 1 16)) 4 (ArrayBuffer []) example_world).2 = Throw (operation_error "Decryption algorithm doesn't match key algorithm.") /\
  (encrypt byteUpperCase example_ops (cbc (repeat 1 16)) 4 (ArrayBuffer []) example_world).2 = Throw (access_error "Encryption algorithm doesn't match key algorithm.").
Proof. vm_compute. repeat split. Qed.

(** [deriveBits] derives before it looks at the key's usages, so a key that may not
    be used so fails with what goes wrong in the derivation. *)
Lemma derived_before_checked :
  let w := example_run [ImportCall Raw (SBuffer (ArrayBuffer [1])) (AlgString (lit "HKDF")) false [DeriveKey]] empty_world in
  let hkdf := AlgObject (Some (AlgString (lit "SHA-256")))
    (mkMembers (Some (lit "HKDF")) None None None None None None None None None None (Some (ArrayBuffer [])) (Some (ArrayBuffer [])) None None) in
  (deriveBits byteUpperCase example_ops hkdf 4 (Some (int 7)) (fun w => w) w).2 = Throw invalid_length /\
  (deriveBits byteUpperCase example_ops hkdf 4 (Some (int 8)) (fun w => w) w).2 = Throw (access_error "baseKey usages does not contain `deriveBits`").
Proof. vm_compute. repeat split. Qed.

(** The initialization vector of AES-CBC that is used for wrapping is the one that
    the buffer has after the wait for the export, here a wrong one. *)
Lemma iv_read_late :
  let w := example_run [ImportCall Raw (SBuffer (ArrayBuffer example_bytes)) (AlgString (lit "AES-CBC")) true [WrapKey]] empty_world in
  (wrapKey byteUpperCase example_ops (fun _ => []) Raw 4 4 (cbc (repeat 1 16)) (fun w => w) None w).2 = Ok example_bytes /\
  (wrapKey byteUpperCase example_ops (fun _ => []) Raw 4 4 (cbc (repeat 1 16)) (fun w => w) (Some []) w).2 = Throw (operation_error "Initialization vector must be 16 bytes").
Proof. vm_compute. repeat split. Qed.
