(* ===== verification/EventSource.v ===== *)
(** * Event sources

    Models [src/ext/fetch/27_eventsource.js]: [TextLineStream], which cuts text that
    arrives in chunks into lines, and [EventSource], which connects, interprets the
    lines as events, and connects again when the stream ends.

    The loop of an event source waits for the network, for lines and for a timer; a
    [phase] says what for, and the inputs are what can happen: answers, chunks, the
    end of a stream, the next turn of the loop, the timer, and calls of [close].
    Listeners are user code, of which it matters whether they call [close]: [closes],
    a function of the events so far.  The stream of bytes is decoded already.

    However the text of a stream is cut into chunks, its lines are those of the whole
    text, and the events that are dispatched are those the standard gives for it, but
    for their origin, up to the one whose listeners call [close]; a source that was
    closed, by a listener or from elsewhere, stays closed and silent. *)

From Stdlib Require Import ZArith Lia.
From stdpp Require Import base list numbers option strings.
From S2P Require Import Prelude JsNumber WebIdl.

#[local] Open Scope Z_scope.

Module Lines.
Definition LF : Z := 10.
Definition CR : Z := 13.

Record TextLineStream := mkLines { allowCR : bool; buf : str }.

(** One turn of the loop of [#handle]: a line and the rest of the chunk. *)
Definition handle_step (allowCR : bool) (chunk : str) : option (str * str) :=
  let lfIndex := indexOf chunk LF in
  let crIndex := indexOf chunk CR in
  if allowCR && negb (crIndex =? -1) && negb (crIndex =? slen chunk - 1) && ((lfIndex =? -1) || (crIndex <? lfIndex - 1))
  then Some (slice chunk 0 crIndex, sliceFrom chunk (crIndex + 1))
  else if negb (lfIndex =? -1) then
    let crOrLfIndex := if code_is (charCodeAt chunk (lfIndex - 1)) CR then lfIndex - 1 else lfIndex in
    Some (slice chunk 0 crOrLfIndex, sliceFrom chunk (lfIndex + 1))
  else None.

(** The lines, and what is left for [#buf]. *)
Fixpoint handle_loop (fuel : nat) (allowCR : bool) (chunk : str) : list str * str :=
  match fuel with
  | O => ([], chunk)
  | S fuel =>
      match handle_step allowCR chunk with
      | Some (line, chunk) => let '(lines, rest) := handle_loop fuel allowCR chunk in (line :: lines, rest)
      | None => ([], chunk)
      end
  end.

(** [#handle]; every line takes a character at least. *)
Definition handle (st : TextLineStream) (chunk : str) : TextLineStream * list str :=
  let chunk := buf st ++ chunk in
  let '(lines, rest) := handle_loop (S (length chunk)) (allowCR st) chunk in
  (mkLines (allowCR st) rest, lines).

Definition flush_lines (st : TextLineStream) : list str :=
  if 0 <? slen (buf st) then
    if allowCR st && code_is (charCodeAt (buf st) (slen (buf st) - 1)) CR then [slice (buf st) 0 (-1)] else [buf st]
  else [].
End Lines.

(** ** Event sources *)

Inductive ReadyState := CONNECTING | OPEN | CLOSED.

#[export] Instance ReadyState_eq_dec : EqDecision ReadyState.
Proof. solve_decision. Defined.

Inductive SourceEvent :=
  | OpenEvent
  | ErrorEvent
  | MessageEvent (type data origin lastEventId : str).

Record Response := mkResponse {
  res_aborted : bool;
  res_error : bool;
  res_status : Z;
  headerList : list (str * str);
  res_url : str;
}.

(** The variables of the loop over the lines. *)
Record Reading := mkReading {
  origin : str;
  lines : Lines.TextLineStream;
  queue : list str;
  ended : bool;
  data : str;
  eventType : str;
  lastEventId : str;
}.

Inductive phase :=
  | Idle
  | Fetching
  | InStream (r : Reading)
  | Waiting (delay : jnum).

Record EventSource := mkSource {
  readyState : ReadyState;
  reconnectionTime : jnum;
  es_lastEventId : str;
  es_phase : phase;
  dispatched : list SourceEvent;
  requests : list (list (str * str));
}.

Inductive source_input :=
  | FetchFails
  | FetchAnswers (res : Response)
  | ChunkArrives (chunk : str)
  | StreamEnds
  | StreamFails
  | NextLine
  | TimerFires
  | UserCloses.

Definition set_ready (s : ReadyState) (es : EventSource) : EventSource :=
  mkSource s (reconnectionTime es) (es_lastEventId es) (es_phase es) (dispatched es) (requests es).
Definition set_phase (p : phase) (es : EventSource) : EventSource :=
  mkSource (readyState es) (reconnectionTime es) (es_lastEventId es) p (dispatched es) (requests es).
Definition set_lastEventId (s : str) (es : EventSource) : EventSource :=
  mkSource (readyState es) (reconnectionTime es) s (es_phase es) (dispatched es) (requests es).
Definition set_reconnectionTime (t : jnum) (es : EventSource) : EventSource :=
  mkSource (readyState es) t (es_lastEventId es) (es_phase es) (dispatched es) (requests es).

(** [StringPrototypeIncludes] *)
Fixpoint str_includes (s p : str) : bool := starts_with p s || match s with [] => false | _ :: s => str_includes s p end.

Section Source.
Context (toLowerCase : str -> str) (op_utf8_to_byte_string : str -> str) (Number : str -> jnum).
Context (closes : list SourceEvent -> bool).

(** [close()]; the abort of the request is one of its failures later. *)
Definition close_source (es : EventSource) : EventSource :=
  set_ready CLOSED (match es_phase es with Waiting _ => set_phase Idle es | _ => es end).

(** [this.dispatchEvent(event)] with the listeners. *)
Definition dispatch_event (e : SourceEvent) (es : EventSource) : EventSource :=
  let es := mkSource (readyState es) (reconnectionTime es) (es_lastEventId es) (es_phase es) (dispatched es ++ [e]) (requests es) in
  if closes (dispatched es) then close_source es else es.

(** [#loop] up to [mainFetch]. *)
Definition connect (es : EventSource) : EventSource :=
  let headers :=
    if str_eqb (es_lastEventId es) [] then [(lit "accept", lit "text/event-stream")]
    else [(lit "accept", lit "text/event-stream"); (lit "Last-Event-Id", op_utf8_to_byte_string (es_lastEventId es))] in
  mkSource (readyState es) (reconnectionTime es) (es_lastEventId es) Fetching (dispatched es) (requests es ++ [headers]).

Definition new_source : EventSource := connect (mkSource CONNECTING (int 5000) [] Idle [] []).

(** [#reestablishConnection]; the loop is over when it is called. *)
Definition reestablishConnection (es : EventSource) : EventSource :=
  let es := set_phase Idle es in
  if bool_decide (readyState es = CLOSED) then es
  else
    let es := dispatch_event ErrorEvent (set_ready CONNECTING es) in
    set_phase (Waiting (reconnectionTime es)) es.

Definition failConnection (es : EventSource) : EventSource :=
  let es := set_phase Idle es in
  if bool_decide (readyState es = CLOSED) then es else dispatch_event ErrorEvent (set_ready CLOSED es).

Definition is_event_stream (res : Response) : bool :=
  match list_find (fun header => toLowerCase header.1 = lit "content-type") (headerList res) with
  | Some (_, contentType) => (res_status res =? 200) && str_includes (toLowerCase contentType.2) (lit "text/event-stream")
  | None => false
  end.

(** [#loop] from the answer to the loop over the lines. *)
Definition answer (res : Response) (es : EventSource) : EventSource :=
  if res_aborted res then failConnection es
  else if res_error res then reestablishConnection es
  else if negb (is_event_stream res) then failConnection es
  else if bool_decide (readyState es = CLOSED) then set_phase Idle es
  else
    let es := dispatch_event OpenEvent (set_ready OPEN es) in
    set_phase (InStream (mkReading (res_url res) (Lines.mkLines true []) [] false [] [] (es_lastEventId es))) es.

(** The two parts of a line: [field] and [value]. *)
Definition split_field (chunk : str) : str * str :=
  let colonIndex := indexOf chunk 58 in
  if negb (colonIndex =? -1) then
    let value := sliceFrom chunk (colonIndex + 1) in
    (slice chunk 0 colonIndex, if starts_with (lit " ") value then sliceFrom value 1 else value)
  else (chunk, []).

Definition set_data (d : str) (r : Reading) : Reading := mkReading (origin r) (lines r) (queue r) (ended r) d (eventType r) (lastEventId r).
Definition set_type (t : str) (r : Reading) : Reading := mkReading (origin r) (lines r) (queue r) (ended r) (data r) t (lastEventId r).
Definition set_id (i : str) (r : Reading) : Reading := mkReading (origin r) (lines r) (queue r) (ended r) (data r) (eventType r) i.

(** The body of the loop for a line that is a field. *)
Definition process_field (chunk : str) (r : Reading) (es : EventSource) : Reading * EventSource :=
  let '(field, value) := split_field chunk in
  if str_eqb field (lit "event") then (set_type value r, es)
  else if str_eqb field (lit "data") then (set_data (data r ++ value ++ [Lines.LF]) r, es)
  else if str_eqb field (lit "id") then (if str_includes value [0] then (r, es) else (set_id value r, es))
  else if str_eqb field (lit "retry") then
    let reconnectionTime := Number value in
    if negb (NumberIsNaN reconnectionTime) && NumberIsFinite reconnectionTime then (r, set_reconnectionTime reconnectionTime es) else (r, es)
  else (r, es).

(** The body of the loop for an empty line. *)
Definition process_empty (r : Reading) (es : EventSource) : Reading * EventSource :=
  let es := set_lastEventId (lastEventId r) es in
  if str_eqb (data r) [] then (set_type [] r, es)
  else
    let d := if code_is (charCodeAt (data r) (slen (data r) - 1)) Lines.LF then slice (data r) 0 (-1) else data r in
    let event := MessageEvent (if str_eqb (eventType r) [] then lit "message" else eventType r) d (origin r) (es_lastEventId es) in
    let r := set_type [] (set_data [] r) in
    (r, if bool_decide (readyState es = CLOSED) then es else dispatch_event event es).

Definition process_line (chunk : str) (r : Reading) (es : EventSource) : Reading * EventSource :=
  if str_eqb chunk [] then process_empty r es
  else if starts_with (lit ":") chunk then (r, es)
  else process_field chunk r es.

Definition set_queue (q : list str) (r : Reading) : Reading := mkReading (origin r) (lines r) q (ended r) (data r) (eventType r) (lastEventId r).

Definition source_step (i : source_input) (es : EventSource) : EventSource :=
  match i, es_phase es with
  | FetchFails, Fetching => reestablishConnection es
  | FetchAnswers res, Fetching => answer res es
  | ChunkArrives chunk, InStream r =>
      if ended r then es
      else
        let '(st, new) := Lines.handle (lines r) chunk in
        set_phase (InStream (mkReading (origin r) st (queue r ++ new) false (data r) (eventType r) (lastEventId r))) es
  | StreamEnds, InStream r =>
      if ended r then es
      else set_phase (InStream (mkReading (origin r) (lines r) (queue r ++ Lines.flush_lines (lines r)) true (data r) (eventType r) (lastEventId r))) es
  | StreamFails, InStream r => if ended r then es else reestablishConnection es
  | NextLine, InStream r =>
      match queue r with
      | line :: q => let '(r, es) := process_line line (set_queue q r) es in set_phase (InStream r) es
      | [] => if ended r then reestablishConnection es else es
      end
  | TimerFires, Waiting _ => if bool_decide (readyState es = CONNECTING) then connect es else set_phase Idle es
  | UserCloses, _ => close_source es
  | _, _ => es
  end.

Definition source_run (inputs : list source_input) (es : EventSource) : EventSource := fold_left (fun es i => source_step i es) inputs es.
End Source.

(** ** Reference definitions *)

(** The lines of a text, which end at CR LF, LF or CR; [cur] is the line so far.  A
    last line without an end counts if it is not empty. *)
Fixpoint ref_lines (cur s : str) : list str :=
  match s with
  | [] => match cur with [] => [] | _ => [cur] end
  | c :: s' =>
      if c =? 10 then cur :: ref_lines [] s'
      else if c =? 13 then
        match s' with
        | [] => [cur]
        | c' :: s'' => if c' =? 10 then cur :: ref_lines [] s'' else cur :: ref_lines [] s'
        end
      else ref_lines (cur ++ [c]) s'
  end.
Definition text_lines (s : str) : list str := ref_lines [] s.

(** A line as a field and its value: the text around the first colon, without one
    space after it. *)
Fixpoint ref_split (s : str) : option (str * str) :=
  match s with
  | [] => None
  | c :: s => if c =? 58 then Some ([], s) else match ref_split s with Some (f, v) => Some (c :: f, v) | None => None end
  end.
Definition drop_space (s : str) : str := match s with c :: s' => if c =? 32 then s' else s | [] => [] end.
Definition ref_field (s : str) : str * str := match ref_split s with Some (f, v) => (f, drop_space v) | None => (s, []) end.

(** The buffers of the standard: data lines, event type, last event id. *)
Record buffers := mkBuffers { b_data : list str; b_type : str; b_id : str }.

(** What a line does; [org] is the origin of the stream. *)
Definition spec_line (org line : str) (b : buffers) : buffers * list SourceEvent :=
  match line with
  | [] =>
      (mkBuffers [] [] (b_id b),
       match b_data b with
       | [] => []
       | ds => [MessageEvent (match b_type b with [] => lit "message" | t => t end) (js_join [10] ds) org (b_id b)]
       end)
  | c :: _ =>
      if c =? 58 then (b, [])
      else
        let '(field, value) := ref_field line in
        (if str_eqb field (lit "event") then mkBuffers (b_data b) value (b_id b)
         else if str_eqb field (lit "data") then mkBuffers (b_data b ++ [value]) (b_type b) (b_id b)
         else if str_eqb field (lit "id") then (if bool_decide (0 ∈ value) then b else mkBuffers (b_data b) (b_type b) value)
         else b, [])
  end.

(** The events of the lines, and the buffers after them. *)
Fixpoint spec_events (org : str) (ls : list str) (b : buffers) : buffers * list SourceEvent :=
  match ls with
  | [] => (b, [])
  | l :: ls => let '(b, es) := spec_line org l b in let '(b, es') := spec_events org ls b in (b, es ++ es')
  end.

(** The last event id that an empty line has made current. *)
Fixpoint current_id (org : str) (ls : list str) (b : buffers) (id : str) : str :=
  match ls with
  | [] => id
  | l :: ls => current_id org ls (spec_line org l b).1 (match l with [] => b_id b | _ => id end)
  end.

(** A message event with another origin. *)
Definition with_origin (org : str) (e : SourceEvent) : SourceEvent :=
  match e with MessageEvent type data _ id => MessageEvent type data org id | _ => e end.

(** The events that are dispatched of a list that should be: all up to the first whose
    listeners call [close], and whether one did.  [x.1] were dispatched before. *)
Definition hear (closes : list SourceEvent -> bool) (x : list SourceEvent * bool) (e : SourceEvent) : list SourceEvent * bool :=
  if x.2 then x else (x.1 ++ [e], closes (x.1 ++ [e])).
Definition heard (closes : list SourceEvent -> bool) (before l : list SourceEvent) : list SourceEvent * bool :=
  foldl (hear closes) (before, false) l.

(** ** Lines *)

Lemma indexOf_from_cases s c i :
  (c ∉ s /\ indexOf_from s c i = -1) \/ (exists a b, s = a ++ c :: b /\ c ∉ a /\ indexOf_from s c i = i + slen a).
Proof.
  revert i. induction s as [|x s IH]; intros i; cbn; [left; split; [apply not_elem_of_nil|done]|].
  destruct (Z.eqb_spec x c) as [->|Hne].
  - right. exists [], s. split; [done|]. split; [apply not_elem_of_nil|]. rewrite slen_nil. lia.
  - destruct (IH (i + 1)) as [[Hn ->]|(a & b & -> & Ha & ->)].
    + left. split; [|done]. rewrite not_elem_of_cons. by split; [congruence|].
    + right. exists (x :: a), b. split; [done|]. split; [rewrite not_elem_of_cons; by split; [congruence|]|]. rewrite slen_cons. lia.
Qed.

Lemma indexOf_cases s c : (c ∉ s /\ indexOf s c = -1) \/ (exists a b, s = a ++ c :: b /\ c ∉ a /\ indexOf s c = slen a).
Proof. destruct (indexOf_from_cases s c 0) as [?|(a & b & ? & ? & E)]; [by left|right]. exists a, b. by split_and!. Qed.

Lemma ref_lines_skip a : forall cur s, 10 ∉ a -> 13 ∉ a -> ref_lines cur (a ++ s) = ref_lines (cur ++ a) s.
Proof.
  induction a as [|c a IH]; intros cur s H1 H2; [by rewrite app_nil_r|]. apply not_elem_of_cons in H1 as [N1 H1], H2 as [N2 H2].
  cbn [app ref_lines]. rewrite (proj2 (Z.eqb_neq c 10)), (proj2 (Z.eqb_neq c 13)) by congruence. rewrite IH by done. by rewrite <-app_assoc.
Qed.

Lemma text_lines_lf a t : 10 ∉ a -> 13 ∉ a -> text_lines (a ++ 10 :: t) = a :: text_lines t.
Proof. intros H1 H2. unfold text_lines. by rewrite ref_lines_skip. Qed.

Lemma text_lines_crlf a t : 10 ∉ a -> 13 ∉ a -> text_lines (a ++ 13 :: 10 :: t) = a :: text_lines t.
Proof. intros H1 H2. unfold text_lines. by rewrite ref_lines_skip. Qed.

Lemma text_lines_cr a c t : 10 ∉ a -> 13 ∉ a -> c <> 10 -> text_lines (a ++ 13 :: c :: t) = a :: text_lines (c :: t).
Proof.
  intros H1 H2 Hc. unfold text_lines. rewrite ref_lines_skip by done. cbn -[Z.eqb]. by rewrite (proj2 (Z.eqb_neq c 10)).
Qed.

Lemma text_lines_cr_end a : 10 ∉ a -> 13 ∉ a -> text_lines (a ++ [13]) = [a].
Proof. intros H1 H2. unfold text_lines. by rewrite ref_lines_skip. Qed.

Lemma text_lines_none a : 10 ∉ a -> 13 ∉ a -> text_lines a = match a with [] => [] | _ => [a] end.
Proof. intros H1 H2. unfold text_lines. rewrite <-(app_nil_r a) at 1. by rewrite ref_lines_skip. Qed.

Lemma last_not_in (a b : str) c i : c ∉ a -> i < slen a -> code_is (charCodeAt (a ++ b) i) c = false.
Proof.
  intros Hc Hi. rewrite charCodeAt_app_l by lia. unfold charCodeAt. destruct (i <? 0); [done|].
  destruct (a !! Z.to_nat i) as [x|] eqn:E; [|done]. cbn. apply Z.eqb_neq. intros ->. apply Hc. by eapply list_elem_of_lookup_2.
Qed.

Lemma slice_but_last {A} (a : list A) x : slice (a ++ [x]) 0 (-1) = a.
Proof.
  unfold slice, clamp_index. rewrite slen_app. pose proof (slen_nonneg a). change (slen [x]) with 1.
  change (0 <? 0) with false. change (-1 <? 0) with true. cbv iota. rewrite Z.min_l by lia. change (Z.to_nat 0) with 0%nat.
  replace (Z.to_nat _) with (length a) by (unfold slen in *; lia). apply take_app_length.
Qed.

(** A chunk without a complete line. *)
Lemma handle_step_none s : Lines.handle_step true s = None -> Lines.flush_lines (Lines.mkLines true s) = text_lines s.
Proof.
  unfold Lines.handle_step, Lines.flush_lines, Lines.LF, Lines.CR. cbn [Lines.buf Lines.allowCR andb].
  destruct (indexOf_cases s 10) as [[L1 ->]|(a & b & -> & La & ->)].
  2: { case_match; [done|]. pose proof (slen_nonneg a). rewrite (proj2 (Z.eqb_neq (slen a) (-1))) by lia. done. }
  destruct (indexOf_cases s 13) as [[C1 ->]|(a' & b' & -> & Ca & ->)].
  - intros _. rewrite text_lines_none by done. destruct s as [|c s]; [done|]. rewrite slen_cons. pose proof (slen_nonneg s).
    rewrite (proj2 (Z.ltb_lt 0 _)) by lia. rewrite <-(app_nil_r (c :: s)) at 1. rewrite last_not_in; [done|done|rewrite slen_cons; lia].
  - pose proof (slen_nonneg a'). rewrite (proj2 (Z.eqb_neq (slen a') (-1))) by lia. cbn -[slen Z.eqb]. rewrite slen_app, slen_cons.
    destruct b' as [|c b']; [|pose proof (slen_nonneg b'); rewrite slen_cons, (proj2 (Z.eqb_neq _ _)) by lia; done].
    intros _. change (slen (@nil Z)) with 0. rewrite (proj2 (Z.ltb_lt 0 _)) by lia. apply not_elem_of_app in L1 as [La _].
    rewrite text_lines_cr_end by done. rewrite charCodeAt_middle by lia. cbn. by rewrite slice_but_last.
Qed.

Lemma sliceFrom_after {A} (a b : list A) c i : i = slen a + 1 -> sliceFrom (a ++ c :: b) i = b.
Proof. intros ->. change (c :: b) with ([c] ++ b). rewrite app_assoc. apply sliceFrom_suffix. by rewrite slen_app. Qed.

Lemma shorter {A} (a b : list A) c : (length b < length (a ++ c :: b))%nat.
Proof. rewrite length_app. cbn. lia. Qed.

(** A chunk with a complete line. *)
Lemma handle_step_some s line rest : Lines.handle_step true s = Some (line, rest) ->
  (length rest < length s)%nat /\ forall t, text_lines (s ++ t) = line :: text_lines (rest ++ t).
Proof.
  unfold Lines.handle_step, Lines.LF, Lines.CR. cbn [andb].
  assert (N : forall a : str, slen a =? -1 = false) by (intros a; pose proof (slen_nonneg a); lia).
  destruct (indexOf_cases s 10) as [[L1 ->]|(a & b & -> & La & ->)].
  - destruct (indexOf_cases s 13) as [[C1 ->]|(a' & b' & -> & Ca & ->)]; [done|]. rewrite N, slen_app, slen_cons. cbn -[slen Z.eqb slice sliceFrom].
    destruct (Z.eqb_spec (slen a') (slen a' + (1 + slen b') - 1)) as [|Hne]; [done|]. cbn -[slen slice sliceFrom].
    rewrite slice_prefix, sliceFrom_after by done. intros [= <- <-]. split; [apply shorter|]. intros t.
    destruct b' as [|c b']; [change (slen (@nil Z)) with 0 in Hne; lia|].
    apply not_elem_of_app in L1 as [La [_ [Hc _]%not_elem_of_cons]%not_elem_of_cons]. rewrite <-app_assoc. cbn. by apply text_lines_cr.
  - rewrite N. destruct (indexOf_cases (a ++ 10 :: b) 13) as [[C1 ->]|(a' & b' & Es & Ca & ->)].
    + apply not_elem_of_app in C1 as [Ca _]. cbn -[slen slice sliceFrom]. rewrite last_not_in by (try done; lia).
      change (-1 =? -1) with true. cbn [negb andb]. rewrite slice_prefix, sliceFrom_after by done.
      intros [= <- <-]. split; [apply shorter|]. intros t. rewrite <-app_assoc. by apply text_lines_lf.
    + rewrite N. apply app_eq_inv in Es as [(k & -> & Ek)|(k & -> & Ek)].
      * (* the CR comes first *)
        destruct k as [|c k]; [done|]. injection Ek as <- ->. apply not_elem_of_app in La as [La [_ Lk]%not_elem_of_cons].
        rewrite <-app_assoc. cbn -[slen Z.eqb slice sliceFrom]. rewrite !slen_app, !slen_cons, slen_app, slen_cons.
        pose proof (slen_nonneg k). pose proof (slen_nonneg b). pose proof (slen_nonneg a').
        rewrite (proj2 (Z.eqb_neq (slen a') _)) by lia. cbn -[slen slice sliceFrom]. destruct k as [|x k].
        -- change (slen (@nil Z)) with 0. rewrite (proj2 (Z.ltb_ge _ _)) by lia. rewrite charCodeAt_middle by lia. cbn -[slen slice sliceFrom].
           change (13 =? 13) with true. cbv iota. rewrite slice_prefix by lia. change (a' ++ 13 :: 10 :: b) with (a' ++ [13] ++ 10 :: b). rewrite app_assoc, sliceFrom_after by (rewrite slen_app; change (slen [13]) with 1; lia).
           intros [= <- <-]. split; [apply shorter|]. intros t. rewrite <-!app_assoc. by apply text_lines_crlf.
        -- apply not_elem_of_cons in Lk as [Hx _]. rewrite slen_cons in *. pose proof (slen_nonneg k). rewrite (proj2 (Z.ltb_lt _ _)) by lia.
           rewrite slice_prefix, sliceFrom_after by done. intros [= <- <-]. split; [apply shorter|]. intros t. rewrite <-app_assoc. cbn. by apply text_lines_cr.
      * (* the LF comes first *)
        destruct k as [|c k]; [done|]. injection Ek as <- ->. apply not_elem_of_app in Ca as [Ca _].
        rewrite !slen_app, !slen_cons. pose proof (slen_nonneg k).
        assert ((slen a + (1 + slen k) <? slen a - 1) = false) as -> by lia. rewrite andb_false_r. rewrite last_not_in by (try done; lia).
        cbn -[slen slice sliceFrom]. rewrite slice_prefix, sliceFrom_after by done. intros [= <- <-]. split; [apply shorter|]. intros t. rewrite <-app_assoc. by apply text_lines_lf.
Qed.

Lemma handle_loop_lines fuel : forall s ls rest, (length s < fuel)%nat -> Lines.handle_loop fuel true s = (ls, rest) ->
  Lines.handle_step true rest = None /\ forall t, text_lines (s ++ t) = ls ++ text_lines (rest ++ t).
Proof.
  induction fuel as [|fuel IH]; intros s ls rest Hf; [lia|]. cbn [Lines.handle_loop]. destruct (Lines.handle_step true s) as [[line s']|] eqn:E.
  - apply handle_step_some in E as [Hl E]. destruct (Lines.handle_loop fuel true s') as [ls' rest'] eqn:L. intros [= <- <-].
    destruct (IH s' ls' rest' ltac:(lia) L) as [N Hs]. split; [done|]. intros t. by rewrite E, Hs.
  - intros [= <- <-]. by split.
Qed.

(** What [#handle] gives for a chunk. *)
Lemma handle_lines st chunk st' ls : Lines.allowCR st = true -> Lines.handle st chunk = (st', ls) ->
  Lines.allowCR st' = true /\ Lines.handle_step true (Lines.buf st') = None /\
  forall t, text_lines (Lines.buf st ++ chunk ++ t) = ls ++ text_lines (Lines.buf st' ++ t).
Proof.
  intros Hcr. unfold Lines.handle. rewrite Hcr. destruct (Lines.handle_loop _ true _) as [ls' rest] eqn:L. intros [= <- <-].
  apply handle_loop_lines in L as [N Hs]; [|lia]. split; [done|]. split; [done|]. intros t. by rewrite app_assoc, Hs.
Qed.

(** ** Fields *)

Lemma ref_split_none s : 58 ∉ s -> ref_split s = None.
Proof.
  induction s as [|c s IH]; [done|]. intros [Hc Hs]%not_elem_of_cons. cbn -[Z.eqb]. rewrite (proj2 (Z.eqb_neq c 58)) by congruence. by rewrite IH.
Qed.

Lemma ref_split_some a b : 58 ∉ a -> ref_split (a ++ 58 :: b) = Some (a, b).
Proof.
  induction a as [|c a IH]; [done|]. intros [Hc Hs]%not_elem_of_cons. cbn -[Z.eqb]. rewrite (proj2 (Z.eqb_neq c 58)) by congruence. by rewrite IH.
Qed.

Lemma drop_space_eq v : (if starts_with (lit " ") v then sliceFrom v 1 else v) = drop_space v.
Proof.
  destruct v as [|c v]; [done|]. change (lit " ") with [32]. cbn -[Z.eqb sliceFrom]. rewrite andb_true_r, (Z.eqb_sym 32 c). destruct (c =? 32); [|done].
  by apply (sliceFrom_suffix [c] v 1).
Qed.

Lemma split_field_ref line : split_field line = ref_field line.
Proof.
  unfold split_field, ref_field. destruct (indexOf_cases line 58) as [[H ->]|(a & b & -> & Ha & ->)].
  - by rewrite ref_split_none.
  - pose proof (slen_nonneg a). rewrite (proj2 (Z.eqb_neq (slen a) (-1))) by lia. cbn [negb].
    rewrite sliceFrom_after, slice_prefix, drop_space_eq, ref_split_some by done. done.
Qed.

Lemma includes_nul v : str_includes v [0] = bool_decide (0 ∈ v).
Proof.
  induction v as [|c v IH]; [done|]. cbn -[Z.eqb]. rewrite IH, andb_true_r. destruct (Z.eqb_spec 0 c) as [<-|Hne]; cbn.
  - symmetry. apply bool_decide_eq_true_2. constructor.
  - apply bool_decide_ext. rewrite elem_of_cons. naive_solver.
Qed.

(** ** Data *)

Definition with_newlines (ds : list str) : str := concat (map (fun d => d ++ [10]) ds).

Lemma with_newlines_snoc ds d : with_newlines (ds ++ [d]) = with_newlines ds ++ d ++ [10].
Proof. unfold with_newlines. rewrite map_app, concat_app. cbn. by rewrite app_nil_r. Qed.

Lemma with_newlines_join ds : ds <> [] -> with_newlines ds = js_join [10] ds ++ [10].
Proof.
  induction ds as [|d ds IH]; [done|]. intros _. destruct ds as [|d' ds]; [unfold with_newlines; cbn; by rewrite app_nil_r|].
  change (with_newlines (d :: d' :: ds)) with ((d ++ [10]) ++ with_newlines (d' :: ds)). rewrite IH by done. cbn [js_join]. by rewrite <-!app_assoc.
Qed.

(** ** The lines of a stream *)

Section Source.
Context (toLowerCase : str -> str) (op_utf8_to_byte_string : str -> str) (Number : str -> jnum) (closes : list SourceEvent -> bool).

Notation step := (source_step toLowerCase op_utf8_to_byte_string Number closes).
Notation run := (source_run toLowerCase op_utf8_to_byte_string Number closes).

(** The variables of the loop hold the buffers of the standard. *)
Record holds (r : Reading) (b : buffers) : Prop := {
  h_data : data r = with_newlines (b_data b);
  h_type : eventType r = b_type b;
  h_id : lastEventId r = b_id b;
}.

(** The rest of the variables. *)
Definition same_rest (r r' : Reading) : Prop := origin r' = origin r /\ lines r' = lines r /\ queue r' = queue r /\ ended r' = ended r.

(** The events [x.1] were dispatched, and [x.2] says whether a listener closed the
    source, which otherwise is in the state [s]. *)
Definition at_state (x : list SourceEvent * bool) (s : ReadyState) (es : EventSource) : Prop :=
  dispatched es = x.1 /\ readyState es = if x.2 then CLOSED else s.

Lemma dispatch_state x s e es : x.2 = false -> at_state x s es ->
  at_state (hear closes x e) s (dispatch_event closes e es) /\ es_lastEventId (dispatch_event closes e es) = es_lastEventId es /\
  requests (dispatch_event closes e es) = requests es.
Proof.
  intros Hx [Hd Hs]. unfold hear, dispatch_event, at_state. rewrite Hx in *. cbn. rewrite Hd. destruct (closes (x.1 ++ [e])); [|done].
  unfold close_source. cbn. by destruct (es_phase es).
Qed.

Lemma process_empty_spec r es b r' es' x :
  holds r b -> at_state x OPEN es -> process_empty closes r es = (r', es') ->
  holds r' (spec_line (origin r) [] b).1 /\ same_rest r r' /\ at_state (foldl (hear closes) x (spec_line (origin r) [] b).2) OPEN es' /\
  es_lastEventId es' = b_id b /\ requests es' = requests es.
Proof.
  intros [Hd Ht Hi] Hx. unfold process_empty. rewrite Hd, Ht, Hi. cbn [es_lastEventId set_lastEventId readyState].
  destruct (b_data b) as [|d ds] eqn:D; cbn [spec_line fst snd].
  - intros [= <- <-]. rewrite D. repeat split; done || apply Hx.
  - rewrite D, with_newlines_join by done. set (j := js_join [10] (d :: ds)).
    assert (str_eqb (j ++ [10]) [] = false) as -> by (apply bool_decide_eq_false_2; by destruct j).
    rewrite slen_app, charCodeAt_middle by (change (slen [10]) with 1; lia). change (code_is (Some 10) Lines.LF) with true. cbv iota.
    rewrite slice_but_last.
    assert ((if str_eqb (b_type b) [] then lit "message" else b_type b) = match b_type b with [] => lit "message" | t => t end) as -> by by destruct (b_type b).
    set (e := MessageEvent _ _ _ _). set (es0 := set_lastEventId (b_id b) es). change (readyState es) with (readyState es0).
    assert (Hx0 : at_state x OPEN es0) by done. clearbody e. intros [= <- <-]. cbn [foldl]. destruct x as [ev c], c.
    + rewrite bool_decide_eq_true_2 by apply Hx. repeat split; done || apply Hx.
    + rewrite bool_decide_eq_false_2 by (by destruct Hx as [_ ->]). destruct (dispatch_state (ev, false) OPEN e es0 eq_refl Hx0) as (H1 & H2 & H3).
      repeat split; done || apply H1.
Qed.

Lemma process_field_spec c line r es b r' es' :
  holds r b -> (c =? 58) = false -> process_field Number (c :: line) r es = (r', es') ->
  holds r' (spec_line (origin r) (c :: line) b).1 /\ same_rest r r' /\ dispatched es' = dispatched es /\
  readyState es' = readyState es /\ es_lastEventId es' = es_lastEventId es /\ requests es' = requests es.
Proof.
  intros [Hd Ht Hi] Hc. unfold process_field, spec_line. rewrite split_field_ref, Hc. destruct (ref_field (c :: line)) as [f v]. cbn [fst].
  destruct (str_eqb f (lit "event")); [intros [= <- <-]; by repeat split|].
  destruct (str_eqb f (lit "data")); [intros [= <- <-]; repeat split; try done; cbn [data set_data b_data]; by rewrite with_newlines_snoc, Hd|].
  destruct (str_eqb f (lit "id")).
  - rewrite includes_nul. destruct (bool_decide (0 ∈ v)); intros [= <- <-]; by repeat split.
  - destruct (str_eqb f (lit "retry")); [case_match|]; intros [= <- <-]; by repeat split.
Qed.

Lemma process_line_spec line r es b r' es' x :
  holds r b -> at_state x OPEN es -> process_line Number closes line r es = (r', es') ->
  holds r' (spec_line (origin r) line b).1 /\ same_rest r r' /\ at_state (foldl (hear closes) x (spec_line (origin r) line b).2) OPEN es' /\
  es_lastEventId es' = match line with [] => b_id b | _ => es_lastEventId es end /\ requests es' = requests es.
Proof.
  intros Hh Hx. unfold process_line. destruct line as [|c line]; [by apply process_empty_spec|].
  assert (str_eqb (c :: line) [] = false) as -> by (by apply bool_decide_eq_false_2). change (lit ":") with [58].
  cbn [starts_with]. rewrite andb_true_r, (Z.eqb_sym 58 c). destruct (c =? 58) eqn:E.
  - intros [= <- <-]. cbn [spec_line]. rewrite E. cbn [fst snd]. split; [exact Hh|]. repeat split; done || apply Hx.
  - intros H. pose proof (process_field_spec _ _ _ _ _ _ _ Hh E H) as (H1 & H2 & H3 & H4 & H5 & H6).
    assert ((spec_line (origin r) (c :: line) b).2 = []) as -> by (cbn [spec_line]; rewrite E; by destruct (ref_field (c :: line))).
    split; [done|]. split; [done|]. split; [|done]. destruct Hx as [Hd Hs]. split; cbn; congruence.
Qed.

(** ** Streams *)

Lemma spec_events_app url l1 l2 b :
  spec_events url (l1 ++ l2) b = ((spec_events url l2 (spec_events url l1 b).1).1, (spec_events url l1 b).2 ++ (spec_events url l2 (spec_events url l1 b).1).2).
Proof.
  revert b. induction l1 as [|l l1 IH]; intros b; cbn [app spec_events fst snd]; [by destruct (spec_events url l2 b)|].
  destruct (spec_line url l b) as [b1 e1]. rewrite IH. destruct (spec_events url l1 b1) as [b2 e2]. cbn. by rewrite <-app_assoc.
Qed.

Lemma spec_events_snoc url ls l b :
  spec_events url (ls ++ [l]) b = ((spec_line url l (spec_events url ls b).1).1, (spec_events url ls b).2 ++ (spec_line url l (spec_events url ls b).1).2).
Proof. rewrite spec_events_app. cbn [spec_events]. destruct (spec_line url l _) as [b' e]. cbn. by rewrite app_nil_r. Qed.

Lemma current_id_snoc url ls l b id :
  current_id url (ls ++ [l]) b id = match l with [] => b_id (spec_events url ls b).1 | _ => current_id url ls b id end.
Proof.
  revert b id. induction ls as [|x ls IH]; intros b id; cbn [app current_id spec_events fst]; [done|]. rewrite IH.
  destruct (spec_line url x b) as [b1 e1]. cbn [fst]. by destruct (spec_events url ls b1).
Qed.

(** The events do not depend on the origin, which they carry. *)
Lemma spec_line_origin org org' l b : spec_line org l b = ((spec_line org' l b).1, with_origin org <$> (spec_line org' l b).2).
Proof.
  destruct l as [|c l]; cbn [spec_line fst snd]; [by destruct (b_data b)|]. destruct (c =? 58); [done|]. by destruct (ref_field (c :: l)).
Qed.

Lemma spec_events_origin org org' ls : forall b, spec_events org ls b = ((spec_events org' ls b).1, with_origin org <$> (spec_events org' ls b).2).
Proof.
  induction ls as [|l ls IH]; intros b; [done|]. cbn [spec_events]. rewrite (spec_line_origin org org'). destruct (spec_line org' l b) as [b1 e1].
  cbn [fst snd]. rewrite IH. destruct (spec_events org' ls b1) as [b2 e2]. cbn [fst snd]. by rewrite fmap_app.
Qed.

Lemma current_id_origin org org' ls : forall b id, current_id org ls b id = current_id org' ls b id.
Proof. induction ls as [|l ls IH]; intros b id; [done|]. cbn [current_id]. rewrite (spec_line_origin org org'). apply IH. Qed.

Section Stream.
Context (url : str) (b0 : buffers) (id0 : str) (x0 : list SourceEvent * bool) (q0 : list (list (str * str))).

(** [text] has arrived and the lines [past] are done. *)
Record reading (text : str) (past : list str) (r : Reading) (es : EventSource) : Prop := {
  rd_phase : es_phase es = InStream r;
  rd_state : at_state (foldl (hear closes) x0 (spec_events url past b0).2) OPEN es;
  rd_url : origin r = url;
  rd_holds : holds r (spec_events url past b0).1;
  rd_id : es_lastEventId es = current_id url past b0 id0;
  rd_requests : requests es = q0;
  rd_cr : Lines.allowCR (lines r) = true;
  rd_lines : if ended r then past ++ queue r = text_lines text
             else Lines.handle_step true (Lines.buf (lines r)) = None /\ forall t, text_lines (text ++ t) = past ++ queue r ++ text_lines (Lines.buf (lines r) ++ t);
}.

Lemma reading_chunk text past r es chunk : ended r = false -> reading text past r es ->
  exists r', ended r' = false /\ reading (text ++ chunk) past r' (step (ChunkArrives chunk) es).
Proof.
  intros He [P O U Hh Id Rq Cr L]. unfold source_step. rewrite P, He. rewrite He in L. destruct L as [N L].
  destruct (Lines.handle (lines r) chunk) as [st new] eqn:E. destruct (handle_lines _ _ _ _ Cr E) as (Cr' & N' & L').
  exists (mkReading (origin r) st (queue r ++ new) false (data r) (eventType r) (lastEventId r)). split; [done|]. split; try done; [destruct Hh; by split|]. cbn. split; [done|]. intros t.
  by rewrite <-app_assoc, L, L', <-!app_assoc.
Qed.

Lemma reading_end text past r es : ended r = false -> reading text past r es ->
  exists r', ended r' = true /\ reading text past r' (step StreamEnds es).
Proof.
  intros He [P O U Hh Id Rq Cr L]. unfold source_step. rewrite P, He. rewrite He in L. destruct L as [N L].
  exists (mkReading (origin r) (lines r) (queue r ++ Lines.flush_lines (lines r)) true (data r) (eventType r) (lastEventId r)). split; [done|]. split; try done; [destruct Hh; by split|]. cbn. specialize (L []). rewrite !app_nil_r in L. rewrite L.
  apply handle_step_none in N. destruct (lines r) as [cr bf]. cbn in Cr, N. subst cr. by rewrite N.
Qed.

Lemma reading_line text past r es line q : queue r = line :: q -> reading text past r es ->
  exists r', queue r' = q /\ ended r' = ended r /\ reading text (past ++ [line]) r' (step NextLine es).
Proof.
  intros Hq [P O U Hh Id Rq Cr L]. unfold source_step. rewrite P, Hq.
  destruct (process_line Number closes line (set_queue q r) es) as [r' es'] eqn:E.
  assert (Hs : holds (set_queue q r) (spec_events url past b0).1) by (destruct Hh; by split).
  destruct (process_line_spec _ _ _ _ _ _ _ Hs O E) as (Hh' & (S1 & S2 & S3 & S4) & D & I & Q). cbn in S1, S2, S3, S4.
  exists r'. split; [done|]. split; [done|]. cbn [origin set_queue] in Hh', D. rewrite U in Hh', D. split; cbn; try congruence.
  - rewrite spec_events_snoc. cbn [snd]. by rewrite foldl_app.
  - by rewrite spec_events_snoc.
  - rewrite I, current_id_snoc. destruct line; [done|]. exact Id.
  - rewrite S2, S3, S4. rewrite Hq in L. destruct (ended r); [by rewrite <-app_assoc|]. destruct L as [N L]. split; [done|]. intros t. by rewrite L, <-app_assoc.
Qed.

(** Chunks and turns of the loop, in any order. *)
Definition arrives (i : source_input) : Prop := match i with ChunkArrives _ | NextLine => True | _ => False end.
Definition chunk_text (inputs : list source_input) : str := concat (map (fun i => match i with ChunkArrives c => c | _ => [] end) inputs).

Lemma reading_run inputs : forall text past r es, ended r = false -> reading text past r es -> Forall arrives inputs ->
  exists past' r', ended r' = false /\ reading (text ++ chunk_text inputs) past' r' (run inputs es).
Proof.
  induction inputs as [|i inputs IH]; intros text past r es He Hr Hi; [exists past, r; by rewrite app_nil_r|].
  apply Forall_cons in Hi as [Hi His]. destruct i; try done; cbn [source_run fold_left chunk_text map concat].
  - destruct (reading_chunk _ _ _ _ chunk He Hr) as (r1 & He1 & Hr1). rewrite app_assoc. by apply (IH _ past r1).
  - destruct (queue r) as [|line q] eqn:Q.
    + assert (step NextLine es = es) as -> by (unfold source_step; by rewrite (rd_phase _ _ _ _ Hr), Q, He). by apply (IH _ past r).
    + destruct (reading_line _ _ _ _ _ _ Q Hr) as (r1 & _ & He1 & Hr1). apply (IH _ (past ++ [line]) r1); [congruence|done|done].
Qed.

(** The stream is over and the loop goes on to its end. *)
Definition finished (text : str) (es : EventSource) : Prop :=
  at_state (foldl (hear closes) x0 ((spec_events url (text_lines text) b0).2 ++ [ErrorEvent])) CONNECTING es /\
  (es_phase es = Idle \/ exists d, es_phase es = Waiting d) /\ (readyState es = CONNECTING -> exists d, es_phase es = Waiting d) /\
  es_lastEventId es = current_id url (text_lines text) b0 id0 /\ requests es = q0.

Lemma finished_stays text n es : finished text es -> finished text (run (repeat NextLine n) es).
Proof.
  intros F. induction n as [|n IH]; [done|]. cbn [repeat source_run fold_left].
  assert (step NextLine es = es) as ->; [|exact IH]. destruct F as (_ & [P|[d P]] & _); unfold source_step; by rewrite P.
Qed.

Lemma reestablish_finishes text r es : reading text (text_lines text) r es -> finished text (reestablishConnection closes es).
Proof.
  intros [P O U Hh Id Rq Cr L]. unfold finished. rewrite foldl_app. cbn [foldl]. set (x := foldl _ _ _) in *. unfold reestablishConnection. cbn [set_phase readyState].
  destruct x as [ev c], c.
  - rewrite bool_decide_eq_true_2 by apply O. split; [done|]. split; [by left|]. split; [by destruct O as [_ O]; cbn in *; congruence|done].
  - rewrite bool_decide_eq_false_2 by (by destruct O as [_ ->]). set (es0 := set_ready CONNECTING _).
    assert (H0 : at_state (ev, false) CONNECTING es0) by (split; [apply O|done]).
    destruct (dispatch_state (ev, false) _ ErrorEvent _ eq_refl H0) as (H1 & H2 & H3). set (es1 := dispatch_event _ _ _) in *.
    split; [exact H1|]. cbn [es_phase set_phase readyState]. split; [eauto|]. split; [eauto|]. by rewrite <-Id, <-Rq.
Qed.

Lemma reading_finish n : forall text past r es, ended r = true -> reading text past r es -> (length (queue r) < n)%nat -> finished text (run (repeat NextLine n) es).
Proof.
  induction n as [|n IH]; intros text past r es He Hr Hn; [lia|]. cbn [repeat source_run fold_left]. destruct (queue r) as [|line q] eqn:Q.
  - apply finished_stays. pose proof (rd_lines _ _ _ _ Hr) as L. rewrite He, Q, app_nil_r in L. subst past.
    unfold source_step. rewrite (rd_phase _ _ _ _ Hr), Q, He. by eapply reestablish_finishes.
  - destruct (reading_line _ _ _ _ _ _ Q Hr) as (r1 & Q1 & He1 & Hr1). apply (IH _ (past ++ [line]) r1); [congruence|done|]. rewrite Q1. cbn in Hn. lia.
Qed.
End Stream.

Lemma open_reading res es :
  readyState es <> CLOSED -> es_phase es = Fetching -> res_aborted res = false -> res_error res = false -> is_event_stream toLowerCase res = true ->
  exists r, ended r = false /\ reading (res_url res) (mkBuffers [] [] (es_lastEventId es)) (es_lastEventId es) (hear closes (dispatched es, false) OpenEvent) (requests es) [] [] r
    (step (FetchAnswers res) es).
Proof.
  intros Ho P Ha He Hs. unfold source_step. rewrite P. unfold answer. rewrite Ha, He, Hs, (bool_decide_eq_false_2 _ Ho). cbn [negb].
  set (es0 := set_ready OPEN es). assert (H0 : at_state (dispatched es, false) OPEN es0) by done.
  destruct (dispatch_state (dispatched es, false) _ OpenEvent _ eq_refl H0) as (H1 & H2 & H3). set (es1 := dispatch_event _ _ _) in *.
  exists (mkReading (res_url res) (Lines.mkLines true []) [] false [] [] (es_lastEventId es1)). split; [done|]. by split.
Qed.

Lemma source_run_app inputs inputs' es : run (inputs ++ inputs') es = run inputs' (run inputs es).
Proof. apply fold_left_app. Qed.

(** C12. An event source dispatches the events of the text it is sent.  When a
    connection is answered with an event stream, whatever chunks its text arrives in
    and whenever the loop takes the lines that are there, and when the stream has
    ended without a failure and the loop is done: the events that were dispatched are
    an open event, then the message events that the standard gives for the whole text -
    its lines end at CR LF, LF or CR, also where they are cut by a chunk - and then an
    error event, up to the first event whose listeners call [close].  The message
    events have the URL of the response where the standard has its serialized origin
    ([serialized_origin], any function).  If nobody closed it, the source waits to
    connect again, and its next request has the last event id that an empty line made
    current; otherwise it is closed and sends no request. *)
Theorem stream_dispatches (serialized_origin : str -> str) res inputs n es :
  readyState es <> CLOSED -> es_phase es = Fetching -> res_aborted res = false -> res_error res = false -> is_event_stream toLowerCase res = true ->
  Forall arrives inputs -> (length (text_lines (chunk_text inputs)) < n)%nat ->
  let b := mkBuffers [] [] (es_lastEventId es) in
  let ls := text_lines (chunk_text inputs) in
  let org := serialized_origin (res_url res) in
  let id := current_id org ls b (es_lastEventId es) in
  let es' := run (FetchAnswers res :: inputs ++ StreamEnds :: repeat NextLine n) es in
  let '(events, closed) := heard closes (dispatched es) (OpenEvent :: (with_origin (res_url res) <$> (spec_events org ls b).2) ++ [ErrorEvent]) in
  dispatched es' = events /\ readyState es' = (if closed then CLOSED else CONNECTING) /\
  requests (step TimerFires es') = requests es ++
    if closed then [] else [(lit "accept", lit "text/event-stream") :: if str_eqb id [] then [] else [(lit "Last-Event-Id", op_utf8_to_byte_string id)]].
Proof.
  intros Ho P Ha He Hs Hi Hn b ls org id es'. destruct (open_reading res es Ho P Ha He Hs) as (r & Er & Hr).
  destruct (reading_run _ _ _ _ _ inputs _ _ _ _ Er Hr Hi) as (past & r1 & Er1 & Hr1). cbn [app] in Hr1.
  destruct (reading_end _ _ _ _ _ _ _ _ _ Er1 Hr1) as (r2 & Er2 & Hr2).
  assert (Q : (length (queue r2) < n)%nat).
  { pose proof (rd_lines _ _ _ _ _ _ _ _ _ Hr2) as L. rewrite Er2 in L. apply (f_equal length) in L. rewrite length_app in L. lia. }
  pose proof (reading_finish _ _ _ _ _ n _ _ _ _ Er2 Hr2 Q) as (D & W & W' & I & Rq).
  assert (E : es' = run (repeat NextLine n) (step StreamEnds (run inputs (step (FetchAnswers res) es)))) by (unfold es'; cbn [source_run fold_left]; exact (source_run_app inputs (StreamEnds :: repeat NextLine n) (step (FetchAnswers res) es))).
  rewrite E. clear E es'. revert D W W' I Rq. generalize (run (repeat NextLine n) (step StreamEnds (run inputs (step (FetchAnswers res) es)))).
  intros e D W W' I Rq. fold b ls in D, I. rewrite (spec_events_origin (res_url res) org) in D. rewrite (current_id_origin (res_url res) org) in I.
  unfold heard. cbn [foldl]. cbn [snd] in D. destruct (foldl (hear closes) _ _) as [events closed]. destruct D as [D1 D2]. cbn [fst snd] in D1, D2.
  split; [done|]. split; [done|]. unfold source_step. destruct closed.
  - rewrite app_nil_r. destruct W as [-> |[d ->]]; [done|]. by rewrite D2, bool_decide_eq_false_2.
  - destruct (W' D2) as [d ->]. rewrite D2, bool_decide_eq_true_2 by done. cbn [connect requests]. rewrite Rq, I. fold id. by destruct (str_eqb id []).
Qed.
End Source.

(** ** Closing *)

Section Closing.
Context (toLowerCase : str -> str) (op_utf8_to_byte_string : str -> str) (Number : str -> jnum) (closes : list SourceEvent -> bool).
Notation step := (source_step toLowerCase op_utf8_to_byte_string Number closes).

(** A closed source with nothing new. *)
Definition silent (es es' : EventSource) : Prop := readyState es' = CLOSED /\ dispatched es' = dispatched es /\ requests es' = requests es.

Lemma process_line_closed line r es r' es' : readyState es = CLOSED -> process_line Number closes line r es = (r', es') -> silent es es'.
Proof.
  intros Hc. unfold process_line, process_empty, process_field. cbn [readyState set_lastEventId]. rewrite (bool_decide_eq_true_2 _ Hc).
  destruct (split_field line) as [f v]. repeat case_match; intros; simplify_eq; by repeat split.
Qed.

Lemma step_closed i es : readyState es = CLOSED -> silent es (step i es).
Proof.
  intros Hc. assert (D : bool_decide (readyState es = CLOSED) = true) by (by apply bool_decide_eq_true_2).
  unfold source_step. destruct i, (es_phase es) as [| |r|d] eqn:P; try (by repeat split); unfold close_source, answer, reestablishConnection, failConnection; cbn [set_phase readyState]; rewrite ?D, ?P; try (by repeat split).
  - repeat case_match; by repeat split.
  - destruct (ended r); [by repeat split|]. by destruct (Lines.handle (lines r) chunk).
  - by destruct (ended r).
  - by destruct (ended r).
  - destruct (queue r) as [|line q]; [by destruct (ended r)|].
    destruct (process_line Number closes line (set_queue q r) es) as [r' es'] eqn:E. by apply process_line_closed in E.
  - rewrite Hc. by repeat split.
Qed.

Lemma run_closed inputs : forall es, readyState es = CLOSED -> silent es (source_run toLowerCase op_utf8_to_byte_string Number closes inputs es).
Proof.
  induction inputs as [|i l IH]; intros es C; [by repeat split|]. cbn [source_run fold_left]. destruct (step_closed i es C) as (S1 & S2 & S3).
  destruct (IH _ S1) as (T1 & T2 & T3). unfold source_run in *. split; [done|]. split; congruence.
Qed.

(** When the listeners of the last event have called [close], the source is closed. *)
Definition told (es : EventSource) : Prop := dispatched es <> [] -> closes (dispatched es) = true -> readyState es = CLOSED.

Lemma dispatch_told e es : told (dispatch_event closes e es).
Proof.
  intros _. unfold dispatch_event. cbn [dispatched]. destruct (closes (dispatched es ++ [e])) eqn:E; [by intros _|]. cbn [dispatched]. by rewrite E.
Qed.

Lemma set_phase_told p es : told es -> told (set_phase p es).
Proof. done. Qed.

Lemma reestablish_told es : told es -> told (reestablishConnection closes es).
Proof. intros H. unfold reestablishConnection. case_bool_decide; [done|]. apply set_phase_told, dispatch_told. Qed.

Lemma fail_told es : told es -> told (failConnection closes es).
Proof. intros H. unfold failConnection. case_bool_decide; [done|]. apply dispatch_told. Qed.

Lemma process_line_told line r es r' es' : told es -> process_line Number closes line r es = (r', es') -> told es'.
Proof.
  intros H. unfold process_line, process_empty, process_field. destruct (split_field line) as [f v].
  repeat case_match; intros; simplify_eq; done || apply dispatch_told.
Qed.

Lemma step_told i es : told es -> told (step i es).
Proof.
  intros H. unfold source_step. destruct i, (es_phase es) as [| |r|d] eqn:P; try done; try (unfold close_source; rewrite ?P; by intros _ _).
  - by apply reestablish_told.
  - unfold answer. repeat case_match; try done; [by apply fail_told|by apply reestablish_told|by apply fail_told|]. apply set_phase_told, dispatch_told.
  - destruct (ended r); [done|]. by destruct (Lines.handle (lines r) chunk).
  - by destruct (ended r).
  - destruct (ended r); [done|]. by apply reestablish_told.
  - destruct (queue r) as [|line q]; [destruct (ended r); [by apply reestablish_told|done]|].
    destruct (process_line Number closes line (set_queue q r) es) as [r' es'] eqn:E. apply set_phase_told. by eapply process_line_told.
  - by case_bool_decide.
Qed.

Lemma run_told inputs : forall es, told es -> told (source_run toLowerCase op_utf8_to_byte_string Number closes inputs es).
Proof. induction inputs as [|i l IH]; intros es H; [done|]. by apply IH, step_told. Qed.

(** C15. A source that was closed stays closed and silent: when the listeners of an event
    called [close] while it was dispatched, or [close] was called from elsewhere, in
    whatever state, then whatever the network and the timers do, no event is
    dispatched and no request is sent any more. *)
Theorem closed_is_final inputs inputs' :
  let run := source_run toLowerCase op_utf8_to_byte_string Number closes in
  let es0 := new_source op_utf8_to_byte_string in
  let es1 := run inputs es0 in
  (dispatched es1 <> [] -> closes (dispatched es1) = true -> silent es1 (run (inputs ++ inputs') es0)) /\
  (forall es, silent (run inputs es) (run (inputs ++ UserCloses :: inputs') es)).
Proof.
  cbv zeta. split.
  - intros Hne Hcl. unfold source_run. rewrite fold_left_app. apply run_closed.
    apply (run_told inputs (new_source op_utf8_to_byte_string)); [by intros []|done|done].
  - intros es. unfold source_run. rewrite fold_left_app. cbn [fold_left]. set (es1 := fold_left _ inputs es).
    assert (C : silent es1 (step UserCloses es1)) by (cbn; unfold close_source; by destruct (es_phase es1)).
    destruct C as (C1 & C2 & C3). destruct (run_closed inputs' _ C1) as (S1 & S2 & S3). unfold source_run in *. split; [done|]. split; congruence.
Qed.
End Closing.

(** ** Examples *)

Definition example_response : Response :=
  mkResponse false false 200 [(lit "content-type", lit "text/event-stream")] (lit "http://a/").
(** A line end and a field are cut by chunks, and a line is taken in between. *)
Definition example_inputs : list source_input :=
  [ChunkArrives (lit "id: 7" ++ [13]); ChunkArrives (10 :: lit "da"); NextLine; ChunkArrives (lit "ta: x" ++ [10] ++ lit "data:y" ++ [13; 13])].

(** The origin of a URL with a one-letter host. *)
Definition example_origin (url : str) : str := slice url 0 8.

Lemma stream_dispatches_witness :
  dispatched (source_run (fun s => s) (fun s => s) (fun _ => int 0) (fun _ => false)
    (FetchAnswers example_response :: example_inputs ++ StreamEnds :: repeat NextLine 9) (new_source (fun s => s))) =
  [OpenEvent; MessageEvent (lit "message") (lit "x" ++ [10] ++ lit "y") (lit "http://a/") (lit "7"); ErrorEvent].
Proof.
  pose proof (stream_dispatches (fun s => s) (fun s => s) (fun _ => int 0) (fun _ => false) example_origin example_response example_inputs 9 (new_source (fun s => s))) as H.
  match type of H with ?a -> ?b -> ?c -> ?d -> ?e -> ?f -> ?g -> _ => assert (H0 : a /\ b /\ c /\ d /\ e /\ f /\ g) by (split_and!; [done|done|done|done|vm_compute; reflexivity|repeat constructor|vm_compute; lia]) end.
  destruct H0 as (H1 & H2 & H3 & H4 & H5 & H6 & H7). specialize (H H1 H2 H3 H4 H5 H6 H7). destruct H as [H _]. rewrite H. vm_compute. reflexivity.
Defined.

(** Listeners that close the source when they get a message. *)
Definition closes_at_message (l : list SourceEvent) : bool := match last l with Some (MessageEvent _ _ _ _) => true | _ => false end.

Lemma closed_is_final_witness :
  let run := source_run (fun s => s) (fun s => s) (fun _ => int 0) closes_at_message in
  let inputs := FetchAnswers example_response :: example_inputs ++ ChunkArrives (lit ":") :: repeat NextLine 9 in
  silent (run inputs (new_source (fun s => s))) (run (inputs ++ StreamEnds :: repeat NextLine 9 ++ [TimerFires]) (new_source (fun s => s))).
Proof.
  intros run inputs. pose proof (closed_is_final (fun s => s) (fun s => s) (fun _ => int 0) closes_at_message inputs (StreamEnds :: repeat NextLine 9 ++ [TimerFires])) as [H _].
  fold run in H. apply H; vm_compute; [discriminate|reflexivity].
Defined.

(** ** What goes wrong *)

(** The origin of a message event is the URL of the response, not its origin. *)
Lemma origin_is_url :
  let es := source_run (fun s => s) (fun s => s) (fun _ => int 0) (fun _ => false)
    (FetchAnswers example_response :: example_inputs ++ ChunkArrives (lit ":") :: repeat NextLine 9) (new_source (fun s => s)) in
  exists type data id, last (dispatched es) = Some (MessageEvent type data (lit "http://a/") id) /\ example_origin (lit "http://a/") = lit "http://a".
Proof. do 3 eexists. split; vm_compute; reflexivity. Qed.

(** The reconnection time is any number that the text converts to, where the standard
    takes digits only: a negative one, or zero for an empty value. *)
Lemma retry_any_number (Number : str -> jnum) r es : Number (lit "-5") = int (-5) -> Number [] = int 0 ->
  reconnectionTime (process_line Number (fun _ => false) (lit "retry: -5") r es).2 = int (-5) /\
  reconnectionTime (process_line Number (fun _ => false) (lit "retry") r es).2 = int 0.
Proof.
  intros H5 H0. split.
  - change (process_line Number (fun _ => false) (lit "retry: -5") r es) with (process_field Number (lit "retry: -5") r es).
    unfold process_field. replace (split_field (lit "retry: -5")) with (lit "retry", lit "-5") by (by vm_compute). cbv iota beta. cbn -[int lit]. by rewrite H5.
  - change (process_line Number (fun _ => false) (lit "retry") r es) with (process_field Number (lit "retry") r es).
    unfold process_field. replace (split_field (lit "retry")) with (lit "retry", @nil Z) by (by vm_compute). cbn -[int lit]. by rewrite H0.
Qed.

(** Any content type that has the name of event streams in it will do, in a parameter
    too. *)
Lemma type_in_parameter :
  is_event_stream (fun s => s) (mkResponse false false 200 [(lit "content-type", lit "text/plain; a=text/event-stream")] []) = true.
Proof. vm_compute. reflexivity. Qed.
